(* ===== verification/_CoqProject ===== *)
-Q . S2P
Prelude.v
Graph.v
Dfa.v
Nfa.v
Explore.v
Determinize.v
Subtract.v
MinimizeAcyclic.v
MinimizeCyclic.v
DefaultRows.v
DefaultNodes.v
DefaultBuilder.v
DefaultStates.v
DefaultMaterialize.v
DefaultCorrect.v
Bits.v
U8Set.v
BitSet.v
StateSet.v
CharTransitions.v
LexDfa.v
LexCache.v
Search.v
LexClosure.v
LexWire.v
Lang.v
LexAst.v
LexAstLang.v
LexNfa.v
LexNfaClasses.v
Tarjan.v
LexNfaScc.v
LexReach.v
LexReachCorrect.v
LexDeterminize.v
LexEpsilon.v
LexDetParts.v
LexDetRun.v
LexDetCorrect.v
LexHopcroft.v
LexInverse.v
LexSplit.v
LexHopcroftLoop.v
LexClasses.v
LexFutures.v
LexFutureGroups.v
LexPrerefine.v
LexPrerefineCorrect.v
LexMinimize.v
LexSimulate.v
LexRebuild.v
LexMinimal.v
LexToMinimized.v
LexFragment.v
LexCompile.v
LexParts.v
LexRepeat.v
LexCompileCorrect.v
LexBuild.v
LexBounded.v
LexPipeline.v
RangeSets.v
Vocab.v
PrefixTree.v
PrefixTreeFind.v
PrefixTreeQuery.v
PrefixTreeBuild.v
PrefixTreeCorrect.v
Grammar.v
GrammarCorrect.v
Accumulator.v
AccumulatorCorrect.v
CompactMap.v
Gss.v
GssKit.v
GssLower.v
GssUpper.v
GssOps.v
GssResults.v
VirtualStack.v
