(* ===== verification/Prelude.v ===== *)
(** GLRMask in Rocq: the automata, the lexer, the vocabulary and the parser stack.

    GLRMask turns a grammar into a constraint on the tokens of a language
    model.  The terminals of the grammar are expressions over bytes; the lexer
    compiles them into automata whose accepting states carry the groups (the
    terminals) they accept.  Every later stage, the parser tables and the token
    masks, works on automata over 32-bit states.  The tokens of the
    model are a vocabulary, searched through a prefix tree.  While text is
    produced, a GLR parser keeps many stacks at once, shared from the bottom,
    and every stack carries the terminals that are excluded on it.  This
    development models the crates at the bottom of that tower,
    [glrmask-finite-automata], the automata of [glrmask-lexer],
    [glrmask-vocab], the flat grammars of [glrmask-grammar] and the parser
    stack of [glrmask-glr], the way the Rust code is written, and proves what
    they compute.

    ** How the program is modelled

    Integers are [N] with the wrap-around of their width written out ([as_u32]
    is [x as u32]).  A [Vec] is a [list] read by [l.[i]] at an [N] index; an
    index out of range, an [unwrap] of nothing, an [unreachable!] or a failed
    [assert!] is [None].  A method on [&mut self] returns the new value.  A
    [BTreeMap] or a [HashMap] is a [gmap]; where the order of iteration is
    observable it is written out.  A [while] loop is [run step k s]: up to [2^k]
    rounds of [step], so a fuel of [S m] covers a measure [m] ([run_terminates]
    in this file); the theorems prove that the loops end within it.

    ** Files and what they model

    Shared: [Prelude] (integers, vectors, loops, ordered maps), [Search]
    (depth-first and worklist reachability), [Lang] (languages of byte
    words and words along labelled graphs).

    Finite automata over labels, src/crates/glrmask-finite-automata/src/automata/unweighted_u32:
    - [Graph], [Dfa], [Nfa]: dfa.rs, nfa.rs, the cycle test.
    - [Explore], [Determinize]: determinize.rs, the subset construction with
      epoch-marked epsilon closures.
    - [Subtract]: subtract.rs, the difference of two automata.
    - [MinimizeAcyclic], [MinimizeCyclic]: minimize_acyclic.rs,
      minimize_cyclic.rs.
    - [DefaultRows]: determinize_minimal_defaults.rs and the work budget of
      crates/glrmask-invariant, the definitions.  [DefaultNodes] (rows and what
      they denote), [DefaultBuilder] (interning and unions), [DefaultStates],
      [DefaultMaterialize] (the passes) and [DefaultCorrect] (all together, and
      the budget).

    Data of the lexer, src/crates/glrmask-lexer/src/ds:
    - [Bits], [U8Set]: u8set.rs, byte sets as two 128-bit words.
    - [BitSet]: bitset.rs, dense bit sets over 64-bit words.
    - [StateSet]: compressed_state_set.rs, sparse and compressed state sets.
    - [CharTransitions]: char_transitions.rs, byte-keyed sorted tables.

    Automata of the lexer, src/crates/glrmask-lexer/src/automata/lexer:
    - [LexDfa], [LexCache], [LexClosure], [LexWire]: dfa.rs, the byte automaton
      with its caches, its epsilon closures and its persisted form.
    - [LexAst], [LexAstLang]: ast.rs, expressions, their simplification and
      what they denote.
    - [LexNfa], [LexNfaClasses], [LexNfaScc]: nfa.rs, the byte NFA, its byte
      classes and the condensation of its epsilon cycles.
    - [LexFragment], [LexParts], [LexRepeat], [LexCompile],
      [LexCompileCorrect], [LexBuild]: compile.rs, from expressions
      to the byte NFA.  [LexCompile] has the definitions, the other files the
      argument: a fragment appended between two states acts as one edge that
      carries a language.
    - [LexBounded]: compile.rs, the layered automaton of a bounded repetition.
    - [Tarjan], [LexReach], [LexReachCorrect]: determinize.rs, the groups
      reachable from a state; [Tarjan] holds the invariants of the component
      search that [LexNfaScc] and [LexReachCorrect] instantiate.
    - [LexDeterminize]: determinize.rs, the definitions of the subset
      construction.  [LexEpsilon] (compressed sets as keys, closures computed in
      advance), [LexDetParts] (flat tables, collecting targets), [LexDetRun]
      (groups of a subset, the worklist, runs, automata that are deterministic
      already) and [LexDetCorrect] (all together, and the expansion of classes)
      hold the argument.
    - [LexHopcroft]: minimize.rs, the definitions of Hopcroft's refinement and of
      the inverse transitions.  [LexInverse] (the packed table), [LexSplit]
      (splitters as an abstract argument, the tables under one split and one
      input), [LexHopcroftLoop] (one round) and [LexClasses] (blocks as classes
      of words).
    - [LexFutures]: minimize.rs, the futures of the states; [LexFutureGroups]
      holds the argument.
    - [LexPrerefine], [LexPrerefineCorrect]: minimize.rs, the partition by
      finalizers and the certificate of the labels.
    - [LexMinimize]: minimize.rs, the definitions of minimization.  [LexSimulate]
      (simulations between automata), [LexRebuild] (unreachable states, the
      automaton of a partition) and [LexMinimal] hold the argument.
    - [LexToMinimized]: determinize.rs, [to_minimized_dfa]; [LexPipeline]:
      compile.rs, from an expression to its minimal automaton, with the
      recursion through the bodies of bounded repetitions.

    Vocabularies, src/crates/glrmask-vocab/src:
    - [RangeSets]: the interface to the third-party range sets.
    - [Vocab]: lib.rs, token sets and vocabularies.
    - [PrefixTree]: vocab_prefix_tree.rs, the definitions.  [PrefixTreeFind] (the
      invariant of a tree, lookups), [PrefixTreeQuery] (the query with a work
      limit), [PrefixTreeBuild] (building from sorted entries) and
      [PrefixTreeCorrect] (sorting, merging, all together).

    Flat grammars, src/crates/glrmask-grammar/src/grammar:
    - [Grammar], [GrammarCorrect]: flat.rs, the data, what a grammar generates
      and whether its start generates the empty word.

    The parser stack, src/crates/glrmask-glr/src:
    - [Accumulator], [AccumulatorCorrect]: glr/accumulator.rs, the terminals
      excluded on a stack, and what the parser stack relies on when it merges
      what its stacks carry.
    - [CompactMap]: ds/leveled_gss.rs, the maps with inline entries.
    - [Gss]: ds/leveled_gss.rs, nodes and operations, the definitions.
      [GssKit] (computations that end without a panic, maps of children),
      [GssLower] (the nodes without accumulators), [GssUpper] (the nodes above
      them, merging), [GssOps] (the operations) and [GssResults] (the
      operations on sets of stacks with what each carries).
    - [VirtualStack]: ds/stack_vecs and the virtual stacks of
      ds/leveled_gss.rs: the vectors that share buffers, and the top of a parser
      stack as one flat stack.

    ** Interfaces

    The compiler asks for an automaton of a bounded repetition and falls back
    to the NFA when there is none; that automaton is made from the compiled body.
    [LexCompile] leaves this recursion open: its functions take the construction
    as an argument, and the class [BoundedRepeat] of [LexCompileCorrect] is the
    promise they rely on ([append_compiled_expr_correct]).  [LexPipeline] closes
    the recursion ([build_bounded_repeat_dfa], [compile_expr_to_dfa]; the equation
    of the code is [compile_expr_to_dfa_equation]) and proves the promise of the
    construction of the code ([build_bounded]) for bodies that do not return to
    their start; [compile_expr_to_dfa_correct] and [build_regex_nfa_correct] are
    about the closed functions.

    Vocabularies keep their sets in a third-party crate.  The class [RangeSet] of
    [RangeSets] has its operations and [RangeSetLaws] what it documents of
    them; finite sets are an instance.  The theorems on vocabularies and prefix
    trees hold for every instance, and for every sort of the class [ByteSort].

    A parser stack is generic in what it merges.  The class [Merge] of
    [Accumulator] is the trait and [MergeLaws] what the stack relies on: a
    semilattice whose order is [subsumes].  [AccumulatorCorrect] proves the laws
    for the exclusions and for the unit type; the theorems on the parser stack
    hold for every instance.  The trait's default of [subsumes], which always
    says no, is outside of the laws.

    Whether two [Arc]s are one allocation is not a matter of their contents.
    The operations of the parser stack run in a monad over the course of one
    run, which answers every [ptr_eq] and of which only soundness is known:
    equal pointers have equal contents.  The theorems hold for every such run,
    so no result depends on what happens to be shared.  Whether a push finds its
    buffer unshared is one more answer of the run; [ArcArrayVec] says what the
    buffers do with it.

    ** What the theorems show

    - [build_regex_nfa_correct]: the NFA of a list of terminals accepts, group
      by group, the words of the terminals, although literal prefixes and the
      fragments of repetitions are shared; [append_compiled_expr_correct] is
      the same for one expression between two states, and [optimize_correct]
      for the simplification that runs before.
    - [to_dfa_correct]: determinization ends without a panic, and the state after
      a word carries the groups that accept it and those still reachable;
      [class_expansion_correct] is the same over byte classes, expanded
      afterwards, and [reachable_groups_correct] is about the groups alone.
    - [compile_expr_to_dfa_correct] is the pipeline of one expression: the NFA,
      its condensation, the subset construction, the minimization and the
      expansion of the byte classes compute the language of the expression,
      direct automata of its bounded repetitions included; [handled] says for
      which expressions, [tables_fit] within which bounds.
      [to_minimized_dfa_correct] is its second half, for every group.
    - [minimize_correct], [minimize_mapping_correct]: minimization keeps the
      finalizers after every word and makes the futures exact;
      [minimize_smallest] says when the result is smallest and
      [minimize_not_smallest] that it need not be: the certificate of the labels
      is not one on cycles.  [projected_classes_correct] is the refinement alone.
    - [minimal_defaults_correct], [minimal_defaults_total] and
      [minimal_defaults_budget]: language and size of automata with default
      rows, that there is a result, and that the budget never changes it.
    - [prefix_tree_build_correct], [find_token_correct],
      [find_longest_prefix_token_correct] and [proper_prefix_query_correct]:
      what the prefix tree holds and what it answers.
    - [token_set_canonical], [vocab_new_correct], [vocab_ranges_correct] and
      [vocab_caches_correct]: token sets and vocabularies.
    - [gss_merge_correct], [merge_many_exclusions], [popn_correct],
      [isolate_correct], [pop_top_value_correct], [push_pop_roundtrip] and
      [for_each_decomposed_correct]: the operations of the parser stack end
      without a panic and do to the set of stacks, and to what each carries,
      what their names say; [built_gss_wf] is the invariant of the nodes.
    - [virtual_stack_refines], [virtual_stack_popping] and
      [arc_array_refines_lists]: flat views of the top, and the vectors under
      them, behave as lists whatever is shared.
    - [exclusions_canonical], [exclusions_refine_sets] and
      [remap_single_state_correct]: exclusions are sets of pairs.
    - [start_is_nullable_correct]: the empty word and flat grammars.
    - [determinize_correct], [minimize_acyclic_correct],
      [minimize_cyclic_language], [minimize_cyclic_smallest] and
      [subtract_correct]: language and size of the results, termination and
      absence of panics for the automata over labels; [determinize_cyclic] and
      [try_minimize_acyclic_correct] give their error cases.
    - [condense_epsilon_sccs_correct], [equivalence_classes_correct] and
      [nfa_epsilon_closure_correct]: the passes over the byte NFA.
    - [lex_caches_coherent] is an invariant of every sequence of operations on
      the byte automaton, for the shortest match as long as group aliases are
      merged into groups that fit ([canonicalize_leaves_stale_match] is a run in
      which they do not); [lex_wire_roundtrip] and [lex_wire_validates] are
      about its persisted form; [all_singleton_epsilon_closures_correct],
      [epsilon_closure_correct] and [step_all_correct] about its closures.
    - the theorems on bit sets, byte sets, state sets and tables are
      refinements of finite sets and maps.
    - [bounded_repeat_reentered_start] and [build_regex_nfa_hollow_choice] show
      two inputs on which the compiled automaton accepts a word outside of the
      language; [bounded_repeat_from_base_correct] says which bases the first
      construction is right for.

    ** Bounds

    States are numbered by [u32].  Theorems about automata that grow state it
    as a hypothesis on the result ([num_states a ≤ u32_modulus]); without it
    numbers wrap, as in the code.  Compiling an expression has as fuel the
    nesting of its bounded repetitions with a bound of 32 or more
    ([compile_fuel_enough]).  The search for epsilon components counts in
    [i32] and asks for less than [2^31] states.
    Merging two nodes of the parser stack goes down in both, so the sum of their
    heights ([lower_height], [upper_height]) is fuel enough, doubled for the
    upper nodes, where a level can take two calls; popping [n] values goes down
    at most [n] nodes.  Depths are [u32]: pushing asks for a stack that is less
    than [2^32 - 1] deep.

    ** Not modelled

    - lexer data: dense bit sets: All operations except words_mut, which
      hands the raw words out, and the serde derive.
    - lexer data: byte-keyed tables: Lookup, insertion, update, extension
      and the shared iterator; the mutable iterator is not modelled.
    - lexer automata: minimization: Removal of unreachable states, the
      partition by finalizers, the certificate of the labels, the rebuilding
      from blocks and the pipeline from the NFA. Not modelled:
      minimize_with_state_mapping_preserve_unreachable with its partition of
      acyclic automata, and iterative_signature_refine, which nothing calls.
    - grammar: flat grammars: Data, identifiers and the question whether the
      start generates the empty word. Display names are formatting and are
      not modelled; the parser of textual patterns is a parameter, and what
      is proved holds for every parser.
    - GLR: small maps of the parser stack: The maps with inline entries.
      Removing a key is not modelled: only pruning and fusing use it, which
      are left out below. Where a hash map puts a new key is a parameter.
    - GLR: lower nodes of the parser stack: Segments and general nodes,
      their construction, sharing of equal children and merging. The vectors
      behind a segment are lists here, which is what they refine; truncation
      is left out, since nothing but its own file calls it.
    - GLR: upper nodes of the parser stack: Branches and interfaces,
      promotion and merging. Pruning and mapping of accumulators are left
      out: they take closures that may have effects of their own.
    - GLR: operations of the parser stack: Building from one stack, pushing,
      merging, isolating, popping and decomposing. Left out, for their size:
      building from many stacks at once, fusing, interning and summaries,
      which are further layouts and shortcuts for the same sets of stacks,
      and formatting.
    - GLR: vectors of the segments: The windows on shared buffers with their
      copy on write, over a store that shows the sharing. Capacities and
      reservations are allocation only, and the other variant is a vector of
      the standard library; both are left out.
    - GLR: virtual stacks: Viewing the top of a parser stack as a flat
      stack, its operations and the way back. The ways back that push many
      branches at once, and the replacements in place of a sole stack, are
      left out for their size.
    - lexer compiler: exclusions, products, suffix automata: Planning of
      exclusions and intersections, product constructions, repetitions with
      suffixes and profile labels: some 15,000 lines of layered heuristics
      whose branches have no common contract short of the language of the
      result; left out for their size.
    - lexer compiler: regex parser: The parser of the textual regex syntax;
      the other files take its result, an expression, as given.
    - lexer: tokenizer and runtime automata: Packed runtime tables, residual
      and virtual automata on top of the byte automaton; left out for their
      size.
    - weighted automata: Automata with sets of tokens as weights; the
      weights are interned behind a third-party set type and process-wide
      caches.
    - grammar: factoring and imports: Grammar trees, imports and their
      normalisation into flat grammars; left out for their size.
    - JSON schema import: Translation of schemas into grammars: its contract
      is the meaning of JSON Schema, which the repository does not define.
    - GLR tables and parser: Table construction and the parser that advances
      the stacks; they stand on the modelled stacks and flat grammars and
      are left out for their size.
    - parser automata: The automaton over stack symbols, on top of the
      weighted automata.
    - terminal automata: The automaton from tokens to terminals, on top of
      the weighted automata.
    - merging of weighted automata: On top of the weighted automata.
    - compiler and constraint composition: Orchestration of the stages: its
      contract is that of the stages that are not modelled.
    - runtime: commit and mask: Advancing the state by a token and computing
      masks, on top of tables and weighted automata.
    - artifacts: Binary layout of compiled constraints: bytes on disk,
      memory mapping.
    - bindings and tools: Foreign-function glue without logic of its own.
*)

From stdpp Require Export base tactics numbers list option gmap sorting fin_maps strings.

#[global] Open Scope N_scope.

Declare Scope rust_scope.
Delimit Scope rust_scope with rust.
#[global] Open Scope rust_scope.

Create HintDb rust.
Create Rewrite HintDb rust.

(** * Machine integers

    [u32], [u64] and [usize] values are [N]; the casts and the wrapping
    operations of the source are written out. *)

Definition u32_modulus : N := 4294967296.
Definition u32_max : N := 4294967295.

(** [x as u32] *)
Definition as_u32 (x : N) : N := x mod u32_modulus.
Definition u32_wrapping_add (x y : N) : N := (x + y) mod u32_modulus.
Definition u32_wrapping_sub (x y : N) : N := (x + (u32_modulus - y)) mod u32_modulus.

Lemma as_u32_small x : x < u32_modulus → as_u32 x = x.
Proof. apply N.mod_small. Qed.

Lemma as_u32_bound x : as_u32 x < u32_modulus.
Proof. by apply N.mod_lt. Qed.

Lemma u32_wrapping_add_small x y : x + y < u32_modulus → u32_wrapping_add x y = x + y.
Proof. apply N.mod_small. Qed.

Lemma u32_wrapping_sub_small x y :
  y ≤ x → x < u32_modulus → u32_wrapping_sub x y = x - y.
Proof.
  intros Hle Hx. unfold u32_wrapping_sub.
  replace (x + (u32_modulus - y)) with (x - y + 1 * u32_modulus)
    by (unfold u32_modulus in *; lia).
  rewrite N.Div0.mod_add. apply N.mod_small. lia.
Qed.

(** * Vectors indexed by machine integers

    [Vec::get] on an [N] index.  The recursion is on the vector, so that an
    index as large as [u32::MAX] costs nothing. *)

Section vectors.
Context {A : Type}.
Implicit Types (l : list A) (i : N).

Definition lenN l : N := N.of_nat (length l).

Fixpoint nthN l i : option A :=
  match l with
  | [] => None
  | x :: l => if i =? 0 then Some x else nthN l (N.pred i)
  end.

Fixpoint alterN (f : A → A) l i : list A :=
  match l with
  | [] => []
  | x :: l => if i =? 0 then f x :: l else x :: alterN f l (N.pred i)
  end.

Lemma nthN_lookup l i : nthN l i = l !! N.to_nat i.
Proof.
  revert i. induction l as [|x l IH]; intros i; simpl; [done|].
  destruct (N.eqb_spec i 0) as [->|Hi]; [done|].
  rewrite IH. replace (N.to_nat i) with (S (N.to_nat (N.pred i))) by lia. done.
Qed.

Lemma nthN_of_nat l (i : nat) : nthN l (N.of_nat i) = l !! i.
Proof. by rewrite nthN_lookup, Nat2N.id. Qed.

Lemma alterN_alter f l i : alterN f l i = alter f (N.to_nat i) l.
Proof.
  revert i. induction l as [|x l IH]; intros i; simpl; [done|].
  destruct (N.eqb_spec i 0) as [->|Hi]; [done|].
  rewrite IH. replace (N.to_nat i) with (S (N.to_nat (N.pred i))) by lia. done.
Qed.

Lemma nthN_lt l i x : nthN l i = Some x → i < lenN l.
Proof. rewrite nthN_lookup. intros H%lookup_lt_Some. unfold lenN. lia. Qed.

Lemma nthN_Some_lt l i : i < lenN l ↔ is_Some (nthN l i).
Proof. rewrite nthN_lookup, lookup_lt_is_Some. unfold lenN. lia. Qed.

Lemma nthN_None l i : nthN l i = None ↔ lenN l ≤ i.
Proof. rewrite nthN_lookup, lookup_ge_None. unfold lenN. lia. Qed.

Lemma nthN_app_l l k i : i < lenN l → nthN (l ++ k) i = nthN l i.
Proof. intros Hi. rewrite !nthN_lookup. apply lookup_app_l. unfold lenN in Hi. lia. Qed.

Lemma nthN_app_last l x : nthN (l ++ [x]) (lenN l) = Some x.
Proof. unfold lenN. rewrite nthN_of_nat. by apply list_lookup_middle. Qed.

Lemma nthN_snoc l x i :
  nthN (l ++ [x]) i = if i =? lenN l then Some x else nthN l i.
Proof.
  destruct (N.eqb_spec i (lenN l)) as [->|Hi]; [apply nthN_app_last|].
  destruct (decide (i < lenN l)) as [Hlt|Hge]; [by apply nthN_app_l|].
  trans (@None A).
  - apply nthN_None. unfold lenN in *. rewrite length_app. simpl. lia.
  - symmetry. apply nthN_None. lia.
Qed.

Lemma length_alterN f l i : length (alterN f l i) = length l.
Proof. rewrite alterN_alter. apply length_alter. Qed.

Lemma lenN_alterN f l i : lenN (alterN f l i) = lenN l.
Proof. unfold lenN. by rewrite length_alterN. Qed.

Lemma lenN_app l k : lenN (l ++ k) = lenN l + lenN k.
Proof. unfold lenN. rewrite length_app. lia. Qed.

Lemma lenN_snoc l x : lenN (l ++ [x]) = lenN l + 1.
Proof. by rewrite lenN_app. Qed.

Lemma lenN_replicate n (x : A) : lenN (replicate n x) = N.of_nat n.
Proof. unfold lenN. by rewrite length_replicate. Qed.

Lemma nthN_alterN f l i j :
  nthN (alterN f l i) j = if j =? i then f <$> nthN l j else nthN l j.
Proof.
  rewrite alterN_alter, !nthN_lookup.
  destruct (N.eqb_spec j i) as [->|Hne]; [apply list_lookup_alter_eq|].
  apply list_lookup_alter_ne. lia.
Qed.

Lemma nthN_replicate n (x : A) i :
  nthN (replicate n x) i = if i <? N.of_nat n then Some x else None.
Proof.
  rewrite nthN_lookup. destruct (N.ltb_spec i (N.of_nat n)).
  - apply lookup_replicate. split; [done|lia].
  - apply lookup_ge_None. rewrite length_replicate. lia.
Qed.

Lemma nthN_elem_of l x : x ∈ l ↔ ∃ i, nthN l i = Some x.
Proof.
  rewrite list_elem_of_lookup. split.
  - intros [i Hi]. exists (N.of_nat i). by rewrite nthN_of_nat.
  - intros [i Hi]. rewrite nthN_lookup in Hi. eauto.
Qed.

Lemma nthN_ext l k : (∀ i, nthN l i = nthN k i) → l = k.
Proof. intros H. apply list_eq. intros i. by rewrite <-!nthN_of_nat. Qed.
End vectors.

Notation "l .[ i ]" := (nthN l i) (at level 1, left associativity, format "l .[ i ]") : rust_scope.

#[export] Hint Rewrite @length_alterN @lenN_alterN @lenN_app @lenN_replicate : rust.

Lemma nthN_fmap {A B} (f : A → B) l i : (f <$> l).[i] = f <$> l.[i].
Proof. rewrite !nthN_lookup. apply list_lookup_fmap. Qed.

Lemma lenN_fmap {A B} (f : A → B) l : lenN (f <$> l) = lenN l.
Proof. unfold lenN. by rewrite length_fmap. Qed.

(** The indices [0 .. n-1] of a vector of length [n]. *)
Definition seqN (n : nat) : list N := N.of_nat <$> seq 0 n.

Lemma elem_of_seqN n i : i ∈ seqN n ↔ i < N.of_nat n.
Proof.
  unfold seqN. rewrite list_elem_of_fmap. setoid_rewrite elem_of_seq. split.
  - intros (y & -> & Hy). lia.
  - intros Hi. exists (N.to_nat i). split; lia.
Qed.

Lemma seqN_app n m : seqN (n + m) = seqN n ++ (N.of_nat <$> seq n m).
Proof. unfold seqN. by rewrite seq_app, fmap_app. Qed.

Lemma NoDup_seqN n : NoDup (seqN n).
Proof. apply NoDup_fmap_2; [apply _|apply NoDup_seq]. Qed.

Lemma length_seqN n : length (seqN n) = n.
Proof. unfold seqN. by rewrite length_fmap, length_seq. Qed.

Lemma nthN_seqN n i : (seqN n).[i] = if i <? N.of_nat n then Some i else None.
Proof.
  unfold seqN. rewrite nthN_fmap, nthN_lookup.
  destruct (N.ltb_spec i (N.of_nat n)).
  - rewrite lookup_seq_lt by lia. simpl. f_equal. lia.
  - rewrite lookup_seq_ge by lia. done.
Qed.

(** The weights [f] of the indices in [l] that are not in [V]. *)
Definition weight (V : list N) (f : N → nat) (l : list N) : nat :=
  sum_list_with (λ s, if decide (s ∈ V) then 0 else f s)%nat l.

Lemma weight_snoc V f l s :
  NoDup l → s ∈ l → s ∉ V → (weight (V ++ [s]) f l + f s = weight V f l)%nat.
Proof.
  intros Hnd Hin Hni. unfold weight.
  induction l as [|u us IH]; [by apply elem_of_nil in Hin|]. simpl.
  apply NoDup_cons in Hnd as [Hu Hnd]. apply elem_of_cons in Hin as [<-|Hin].
  - rewrite (decide_True (P := s ∈ V ++ [s])) by (apply elem_of_app; right; by left).
    rewrite (decide_False (P := s ∈ V)) by done.
    enough (sum_list_with (λ s0, if decide (s0 ∈ V ++ [s]) then 0 else f s0)%nat us
      = sum_list_with (λ s0, if decide (s0 ∈ V) then 0 else f s0)%nat us) by lia.
    clear IH Hnd. induction us as [|v us IH]; simpl; [done|].
    rewrite IH by (intros ?; apply Hu; by right). f_equal.
    assert (v ≠ s) by (intros ->; apply Hu; by left).
    destruct (decide (v ∈ V)) as [?|?].
    + by rewrite decide_True by (apply elem_of_app; by left).
    + rewrite decide_False; [done|]. rewrite elem_of_app, list_elem_of_singleton. tauto.
  - rewrite <-IH by done. assert (u ≠ s) by (by intros ->).
    destruct (decide (u ∈ V)) as [?|?].
    + rewrite decide_True by (apply elem_of_app; by left). lia.
    + rewrite decide_False by (rewrite elem_of_app, list_elem_of_singleton; tauto). lia.
Qed.

(** A duplicate-free vector of indices below [n] has at most [n] entries. *)
Lemma NoDup_bounded_length (l : list N) (n : nat) :
  NoDup l → (∀ x, x ∈ l → x < N.of_nat n) → (length l ≤ n)%nat.
Proof.
  intros Hnd Hb. rewrite <-(length_seqN n). apply submseteq_length.
  apply NoDup_submseteq; [done|]. intros x Hx. apply elem_of_seqN. auto.
Qed.

(** * Loops

    A [while] loop is a step function that returns either the next loop state
    or the value the loop leaves with.  [run k] makes at most [2^k] steps and
    stops as soon as the loop is left. *)

Section loops.
Context {S R : Type} (step : S → S + R).

Fixpoint run (k : nat) (s : S) : S + R :=
  match k with
  | O => step s
  | Datatypes.S k =>
      match run k s with
      | inl s' => run k s'
      | inr r => inr r
      end
  end.

(** A loop invariant holds of the state in which the loop is left. *)
Lemma run_inv (I : S → Prop) k s :
  (∀ s s', I s → step s = inl s' → I s') →
  I s →
  match run k s with
  | inl s' => I s'
  | inr r => ∃ s', I s' ∧ step s' = inr r
  end.
Proof.
  intros Hstep. revert s. induction k as [|k IH]; intros s HI; simpl.
  - destruct (step s) eqn:E; eauto.
  - specialize (IH s HI) as Hk. destruct (run k s) as [s'|r]; [by apply IH|exact Hk].
Qed.

Lemma run_inr (I : S → Prop) k s r :
  (∀ s s', I s → step s = inl s' → I s') →
  I s → run k s = inr r → ∃ s', I s' ∧ step s' = inr r.
Proof. intros Hstep HI Hr. generalize (run_inv I k s Hstep HI). by rewrite Hr. Qed.

(** A loop whose measure decreases at every step is left, when the fuel
    covers the measure of the initial state.  The invariant carries the
    measure, so that it may depend on a ghost component of the state. *)
Lemma run_decreases (I : S → nat → Prop) k s m :
  (∀ s s' m, I s m → step s = inl s' → ∃ m', I s' m' ∧ (m' < m)%nat) →
  I s m →
  match run k s with
  | inl s' => ∃ m', I s' m' ∧ (m' + 2 ^ k ≤ m)%nat
  | inr r => ∃ s' m', I s' m' ∧ step s' = inr r
  end.
Proof.
  intros Hstep. revert s m. induction k as [|k IH]; intros s m HI; cbn [run].
  - destruct (step s) as [s'|r] eqn:E; [|eauto].
    destruct (Hstep _ _ _ HI E) as (m' & ? & ?). exists m'. simpl. split; [done|lia].
  - specialize (IH s m HI) as Hk. destruct (run k s) as [s'|r]; [|done].
    destruct Hk as (m' & HI' & Hm). specialize (IH s' m' HI').
    destruct (run k s') as [s''|r]; [|done].
    destruct IH as (m'' & ? & ?). exists m''. split; [done|]. simpl. lia.
Qed.

Lemma run_terminates (I : S → nat → Prop) k s m :
  (∀ s s' m, I s m → step s = inl s' → ∃ m', I s' m' ∧ (m' < m)%nat) →
  I s m → (m < 2 ^ k)%nat →
  ∃ r s' m', run k s = inr r ∧ I s' m' ∧ step s' = inr r.
Proof.
  intros Hstep HI Hm. generalize (run_decreases I k s m Hstep HI).
  destruct (run k s) as [s'|r].
  - intros (m' & _ & ?). lia.
  - intros (s' & m' & ? & ?). eauto 6.
Qed.
End loops.

(** Two loops whose bodies agree under an invariant. *)
Lemma run_simulates {S R R' : Type} (f : S → S + R') (g : S → S + R) (h : R → R') (I : S → Prop) k s :
  (∀ s, I s → f s = match g s with inl s' => inl s' | inr r => inr (h r) end) →
  (∀ s s', I s → g s = inl s' → I s') → I s →
  run f k s = match run g k s with inl s' => inl s' | inr r => inr (h r) end.
Proof.
  intros Hf Hg. revert s. induction k as [|k IH]; intros s HI; [by apply Hf|].
  cbn [run]. rewrite IH by done. pose proof (run_inv g I k s Hg HI) as Hk.
  destruct (run g k s) as [s'|r]; [by apply IH|done].
Qed.

Lemma pow2_gt n : (n < 2 ^ n)%nat.
Proof. apply Nat.pow_gt_lin_r. lia. Qed.

Lemma pow2_S_gt n : (n + 1 < 2 ^ S n)%nat.
Proof. pose proof (pow2_gt n). simpl. lia. Qed.

(** A [for] loop whose body may panic. *)
Fixpoint foldM {A B} (f : B → A → option B) (b : B) (l : list A) : option B :=
  match l with
  | [] => Some b
  | x :: l => b' ← f b x; foldM f b' l
  end.

(** Open the binds of [H : (x ← mx; ..) = Some y]. *)
Ltac bind_inv H :=
  repeat (let x := fresh "x" in let E := fresh "E" in apply bind_Some in H as (x & E & H)).

Lemma foldM_app {A B} (f : B → A → option B) b l k :
  foldM f b (l ++ k) = b' ← foldM f b l; foldM f b' k.
Proof. revert b. induction l as [|x l IH]; intros b; simpl; [done|]. by destruct (f b x); simpl. Qed.

Lemma mapM_fmap_in {A B C} (f : B → option C) (g : A → B) l : mapM f (g <$> l) = mapM (λ x, f (g x)) l.
Proof. induction l as [|x l IH]; [done|].
  cbn. destruct (f (g x)) as [y|]; [|done]. cbn. cbn in IH. by rewrite IH.
Qed.

Lemma foldM_total {A B} (f : B → A → option B) b l : (∀ x b, x ∈ l → is_Some (f b x)) → is_Some (foldM f b l).
Proof.
  revert b. induction l as [|x l IH]; intros b Hf; [by eexists|]. cbn [foldM].
  destruct (Hf x b) as [b' ->]; [by left|]. apply IH. intros y b'' Hy. apply Hf. by right.
Qed.

(** A property kept by every iteration of a [for] loop. *)
Lemma foldl_inv {A B} (P : B → Prop) (f : B → A → B) b l :
  (∀ b x, x ∈ l → P b → P (f b x)) → P b → P (foldl f b l).
Proof.
  revert b. induction l as [|x l IH]; intros b Hf Hb; simpl; [done|].
  apply IH.
  - intros b' y Hy. apply Hf. by right.
  - apply Hf; [by left|done].
Qed.

(** The same with the prefix of the iterations already made. *)
Lemma foldl_inv_prefix {A B} (P : list A → B → Prop) (f : B → A → B) b l :
  (∀ pre x b, (∃ suf, l = pre ++ x :: suf) → P pre b → P (pre ++ [x]) (f b x)) →
  P [] b → P l (foldl f b l).
Proof.
  intros Hf Hb.
  cut (∀ pre suf b, l = pre ++ suf → P pre b → P l (foldl f b suf)).
  { intros Hc. by apply (Hc [] l). }
  intros pre suf. revert pre.
  induction suf as [|x suf IH]; intros pre b' Hl HP; simpl.
  - by rewrite app_nil_r in Hl; subst.
  - apply (IH (pre ++ [x])); [by rewrite <-app_assoc|]. apply Hf; eauto.
Qed.

Lemma foldM_inv_prefix {A B} (P : list A → B → Prop) (f : B → A → option B) b b' l :
  (∀ pre x b b', (∃ suf, l = pre ++ x :: suf) → P pre b → f b x = Some b' → P (pre ++ [x]) b') →
  P [] b → foldM f b l = Some b' → P l b'.
Proof.
  intros Hf Hb.
  cut (∀ pre suf b, l = pre ++ suf → P pre b → foldM f b suf = Some b' → P l b').
  { intros Hc. by apply (Hc [] l). }
  intros pre suf. revert pre.
  induction suf as [|x suf IH]; intros pre b1 Hl HP; simpl.
  - intros [= <-]. by rewrite app_nil_r in Hl; subst.
  - destruct (f b1 x) as [b2|] eqn:E; simpl; [|done].
    intros Hrest. eapply (IH (pre ++ [x])); [by rewrite <-app_assoc| |done]. eauto.
Qed.

(** [for (i, x) in l.iter().enumerate()] *)
Definition enumerate {A} (l : list A) : list (N * A) := imap (λ i x, (N.of_nat i, x)) l.

Lemma enumerate_snoc {A} (l : list A) x : enumerate (l ++ [x]) = enumerate l ++ [(lenN l, x)].
Proof. unfold enumerate. rewrite imap_app. simpl. by rewrite Nat.add_0_r. Qed.

Lemma elem_of_enumerate {A} (l : list A) i x : (i, x) ∈ enumerate l ↔ l.[i] = Some x.
Proof.
  unfold enumerate. rewrite elem_of_lookup_imap. split.
  - intros (k & y & [= -> ->] & Hk). by rewrite nthN_of_nat.
  - intros Hi. rewrite nthN_lookup in Hi. exists (N.to_nat i), x. by rewrite N2Nat.id.
Qed.

(** An invariant of such a loop, with the number of iterations made; the loop
    does not panic. *)
Lemma foldM_enumerate {A B} (P : N → B → Prop) (f : B → N * A → option B) b l :
  (∀ k x b, l.[k] = Some x → P k b → ∃ b', f b (k, x) = Some b' ∧ P (k + 1) b') →
  P 0 b → ∃ b', foldM f b (enumerate l) = Some b' ∧ P (lenN l) b'.
Proof.
  intros Hf Hb. induction l as [|x l IH] using rev_ind; [by exists b|].
  destruct IH as (b1 & Hb1 & HP).
  { intros k y b1 Hk. apply Hf. by rewrite nthN_app_l by (by eapply nthN_lt). }
  rewrite enumerate_snoc, foldM_app, Hb1. simpl.
  destruct (Hf (lenN l) x b1) as (b2 & -> & HP2); [apply nthN_app_last|done|].
  exists b2. split; [done|]. by rewrite lenN_snoc.
Qed.

(** [for i in 0..n] *)
Lemma foldM_seqN {B} (P : N → B → Prop) (f : B → N → option B) b n :
  (∀ k b, k < N.of_nat n → P k b → ∃ b', f b k = Some b' ∧ P (k + 1) b') →
  P 0 b → ∃ b', foldM f b (seqN n) = Some b' ∧ P (N.of_nat n) b'.
Proof.
  intros Hf Hb. induction n as [|n IH]; [by exists b|].
  destruct IH as (b1 & Hb1 & HP). { intros k b1 Hk. apply Hf. lia. }
  replace (S n) with (n + 1)%nat by lia. rewrite seqN_app, foldM_app, Hb1. simpl.
  destruct (Hf (N.of_nat n) b1) as (b2 & -> & HP2); [lia|done|].
  exists b2. split; [done|]. replace (N.of_nat (n + 1)) with (N.of_nat n + 1) by lia. done.
Qed.

(** * Sorted vectors *)

#[export] Instance N_le_total : Total N.le.
Proof. intros x y. lia. Qed.

(** [slice::sort_unstable] on integers: the result does not depend on the
    algorithm. *)
Definition sort_N (l : list N) : list N := merge_sort N.le l.

Lemma elem_of_sort_N l x : x ∈ sort_N l ↔ x ∈ l.
Proof. unfold sort_N. by rewrite merge_sort_Permutation. Qed.

Lemma length_sort_N l : length (sort_N l) = length l.
Proof. unfold sort_N. by rewrite merge_sort_Permutation. Qed.

Definition strictly_sorted (l : list N) : Prop := StronglySorted N.lt l.

Lemma StronglySorted_lt_of_le (l : list N) :
  StronglySorted N.le l → NoDup l → strictly_sorted l.
Proof.
  induction 1 as [|x l Hs IH Hx]; intros Hnd; [constructor|].
  apply NoDup_cons in Hnd as [Hni Hnd]. constructor; [by apply IH|].
  rewrite Forall_forall in Hx |- *. intros y Hy.
  specialize (Hx y Hy). assert (x ≠ y) by (by intros ->). lia.
Qed.

Lemma strictly_sorted_sort_N l : NoDup l → strictly_sorted (sort_N l).
Proof.
  intros Hnd. apply StronglySorted_lt_of_le.
  - apply StronglySorted_merge_sort; apply _.
  - unfold sort_N. by rewrite merge_sort_Permutation.
Qed.

Lemma strictly_sorted_NoDup l : strictly_sorted l → NoDup l.
Proof.
  induction 1 as [|x l Hs IH Hx]; constructor; [|done].
  rewrite Forall_forall in Hx. intros Hin. specialize (Hx x Hin). lia.
Qed.

(** A strictly sorted vector is determined by its elements. *)
Lemma strictly_sorted_ext l k :
  strictly_sorted l → strictly_sorted k → (∀ x, x ∈ l ↔ x ∈ k) → l = k.
Proof.
  intros Hl Hk Heq.
  eapply (StronglySorted_unique_strong N.lt); [|done|done|].
  - intros x y _ _ ? ?. lia.
  - by apply NoDup_Permutation; auto using strictly_sorted_NoDup.
Qed.

Lemma strictly_sorted_singleton x : strictly_sorted [x].
Proof. repeat constructor. Qed.

#[export] Hint Resolve strictly_sorted_sort_N strictly_sorted_NoDup strictly_sorted_singleton : rust.

(** * Ordered maps

    A [BTreeMap] is a finite map; iterating over it visits the entries in
    ascending key order. *)

Section btree.
Context {K : Type} `{Countable K} (le : relation K).
Context `{!RelDecision le, !Transitive le, !Total le, !AntiSymm (=) le}.
Context {A : Type}.
Implicit Types (m : gmap K A).

Definition key_le (x y : K * A) : Prop := le x.1 y.1.

#[global] Instance key_le_dec : RelDecision key_le.
Proof. unfold key_le. intros x y. apply _. Defined.

#[local] Instance key_le_trans : Transitive key_le.
Proof using Transitive0. intros x y z. apply Transitive0. Qed.

#[local] Instance key_le_total : Total key_le.
Proof using Total0. intros x y. apply Total0. Qed.

Definition bt_iter m : list (K * A) := merge_sort key_le (map_to_list m).
Definition bt_values m : list A := (bt_iter m).*2.
Definition bt_keys m : list K := (bt_iter m).*1.

Lemma elem_of_bt_iter m k x : (k, x) ∈ bt_iter m ↔ m !! k = Some x.
Proof. unfold bt_iter. rewrite merge_sort_Permutation. apply elem_of_map_to_list. Qed.

Lemma elem_of_bt_values m x : x ∈ bt_values m ↔ ∃ k, m !! k = Some x.
Proof.
  unfold bt_values. rewrite list_elem_of_fmap. split.
  - intros ([k y] & -> & Hin). exists k. by apply elem_of_bt_iter.
  - intros [k Hk]. exists (k, x). split; [done|]. by apply elem_of_bt_iter.
Qed.

Lemma elem_of_bt_keys m k : k ∈ bt_keys m ↔ is_Some (m !! k).
Proof.
  unfold bt_keys. rewrite list_elem_of_fmap. split.
  - intros ([k' y] & -> & Hin). exists y. by apply elem_of_bt_iter.
  - intros [x Hk]. exists (k, x). split; [done|]. by apply elem_of_bt_iter.
Qed.

Lemma NoDup_bt_keys m : NoDup (bt_keys m).
Proof. unfold bt_keys, bt_iter. rewrite merge_sort_Permutation. apply NoDup_fst_map_to_list. Qed.

Lemma NoDup_bt_iter m : NoDup (bt_iter m).
Proof. eapply NoDup_fmap_1. apply NoDup_bt_keys. Qed.

Lemma bt_iter_sorted m : StronglySorted key_le (bt_iter m).
Proof using Total0 Transitive0. apply StronglySorted_merge_sort; apply _. Qed.

Lemma bt_iter_empty : bt_iter ∅ = [].
Proof. unfold bt_iter. by rewrite map_to_list_empty. Qed.

(** Collecting pairs into a map: a later pair replaces an earlier one. *)
Definition bt_collect (l : list (K * A)) : gmap K A :=
  foldl (λ m kv, <[kv.1 := kv.2]> m) ∅ l.

Lemma bt_collect_lookup l k x :
  NoDup l.*1 → bt_collect l !! k = Some x ↔ (k, x) ∈ l.
Proof.
  intros Hnd. unfold bt_collect.
  cut (∀ m, (∀ k', k' ∈ l.*1 → m !! k' = None) →
       foldl (λ m kv, <[kv.1 := kv.2]> m) m l !! k = Some x ↔
       m !! k = Some x ∨ (k, x) ∈ l).
  { intros Hc. rewrite Hc by (intros; apply lookup_empty).
    rewrite lookup_empty. naive_solver. }
  induction l as [|[k1 x1] l IH]; intros m Hm; simpl.
  - rewrite elem_of_nil. naive_solver.
  - apply NoDup_cons in Hnd as [Hni Hnd]. rewrite IH; [|done|].
    + rewrite elem_of_cons. destruct (decide (k1 = k)) as [->|Hne].
      * rewrite lookup_insert_eq. rewrite (Hm k) by (simpl; left).
        assert ((k, x) ∉ l) by (intros Hin; apply Hni; by apply (list_elem_of_fmap_2 fst) in Hin).
        naive_solver.
      * rewrite lookup_insert_ne by done. naive_solver.
    + intros k' Hk'. rewrite lookup_insert_ne by (by intros ->).
      apply Hm. by right.
Qed.
End btree.

(** ** Entry vectors in key order *)

(** Sorted by label, one entry per label. *)
Definition label_sorted {A} (l : list (Z * A)) : Prop := StronglySorted (λ x y, x.1 < y.1)%Z l.

Lemma label_sorted_NoDup {A} (l : list (Z * A)) : label_sorted l → NoDup l.*1.
Proof.
  induction 1 as [|x l Hs IH Hx]; constructor; [|done].
  rewrite Forall_forall in Hx. intros (y & Heq & Hy)%list_elem_of_fmap.
  specialize (Hx y Hy). lia.
Qed.

(** Such a vector is determined by its entries. *)
Lemma label_sorted_ext {A} (l k : list (Z * A)) :
  label_sorted l → label_sorted k → (∀ x, x ∈ l ↔ x ∈ k) → l = k.
Proof.
  intros Hl Hk Heq.
  eapply (StronglySorted_unique_strong (λ x y, x.1 < y.1)%Z); [|done|done|].
  - intros x y _ _ ? ?. lia.
  - apply NoDup_Permutation; [..|done].
    + eapply NoDup_fmap_1, label_sorted_NoDup, Hl.
    + eapply NoDup_fmap_1, label_sorted_NoDup, Hk.
Qed.

Lemma label_sorted_omap {A B} (f : Z * A → option (Z * B)) l :
  (∀ x y, f x = Some y → y.1 = x.1) → label_sorted l → label_sorted (omap f l).
Proof.
  intros Hf. induction 1 as [|x l Hs IH Hx]; simpl; [constructor|].
  destruct (f x) as [y|] eqn:E; [|done]. constructor; [done|].
  apply Forall_forall. intros z (x' & Hx' & E')%list_elem_of_omap.
  rewrite (Hf _ _ E), (Hf _ _ E'). by eapply Forall_forall in Hx.
Qed.

#[export] Instance Z_le_total : Total Z.le.
Proof. intros x y. lia. Qed.

(** Maps keyed by [i32] labels. *)
Abbreviation label_iter := (bt_iter Z.le).
Abbreviation label_values := (bt_values Z.le).

Lemma label_iter_sorted {A} (m : gmap Z A) : label_sorted (label_iter m).
Proof.
  pose proof (bt_iter_sorted Z.le m) as Hs. pose proof (NoDup_bt_keys Z.le m) as Hnd.
  unfold bt_keys in Hnd. unfold label_sorted.
  induction Hs as [|x l Hs IH Hx]; [constructor|].
  apply NoDup_cons in Hnd as [Hni Hnd]. constructor; [by apply IH|].
  apply Forall_forall. intros y Hy. eapply Forall_forall in Hx; [|exact Hy]. unfold key_le in Hx.
  assert (x.1 ≠ y.1) by (intros Heq; apply Hni; rewrite Heq; by apply list_elem_of_fmap_2).
  lia.
Qed.

(** * Sub-vectors of a vector *)

Fixpoint sublists {A} (l : list A) : list (list A) :=
  match l with
  | [] => [[]]
  | x :: l => (cons x <$> sublists l) ++ sublists l
  end.

Lemma length_sublists {A} (l : list A) : length (sublists l) = (2 ^ length l)%nat.
Proof.
  induction l as [|x l IH]; [done|]. cbn [sublists]. rewrite length_app, length_fmap, IH.
  simpl. lia.
Qed.

Lemma filter_sublists {A} (P : A → Prop) `{!∀ x, Decision (P x)} l : filter P l ∈ sublists l.
Proof.
  induction l as [|x l IH]; [by left|]. rewrite filter_cons. cbn [sublists]. apply elem_of_app.
  case_decide; [left|by right]. by apply list_elem_of_fmap_2.
Qed.

Lemma StronglySorted_filter {A} (R : relation A) (P : A → Prop) `{!∀ x, Decision (P x)} l :
  StronglySorted R l → StronglySorted R (filter P l).
Proof.
  induction 1 as [|x l Hs IH Hx]; [constructor|]. rewrite filter_cons. case_decide; [|done].
  constructor; [done|]. rewrite Forall_forall in Hx |- *.
  intros y [_ Hy]%list_elem_of_filter. auto.
Qed.

Lemma strictly_sorted_seqN n : strictly_sorted (seqN n).
Proof.
  unfold seqN, strictly_sorted. apply (StronglySorted_fmap N.of_nat lt); [intros; lia|].
  generalize 0%nat. induction n as [|n IH]; intros k; simpl; constructor; [apply IH|].
  apply Forall_forall. intros i Hi%elem_of_seq. lia.
Qed.

(** The strictly sorted vectors of indices below [n] are among the sub-vectors
    of [0 .. n-1], hence at most [2 ^ n]. *)
Lemma strictly_sorted_sublists n l :
  strictly_sorted l → (∀ x, x ∈ l → x < N.of_nat n) → l ∈ sublists (seqN n).
Proof.
  intros Hs Hb. rewrite (strictly_sorted_ext l (filter (λ x, x ∈ l) (seqN n))); [|done| |].
  - apply filter_sublists.
  - apply StronglySorted_filter, strictly_sorted_seqN.
  - intros x. rewrite list_elem_of_filter, elem_of_seqN. naive_solver.
Qed.

(** * Removing adjacent duplicates *)

(** [v.dedup()] *)
Fixpoint dedup (l : list N) : list N :=
  match l with
  | x :: l' => match l' with
               | y :: _ => if x =? y then dedup l' else x :: dedup l'
               | [] => [x]
               end
  | [] => []
  end.

Lemma dedup_elem l x : x ∈ dedup l ↔ x ∈ l.
Proof.
  induction l as [|y l IH]; [done|]. cbn [dedup]. destruct l as [|z l]; [done|].
  destruct (N.eqb_spec y z) as [->|Hne].
  - rewrite IH, !elem_of_cons. naive_solver.
  - by rewrite elem_of_cons, IH, (elem_of_cons (z :: l)).
Qed.

Lemma dedup_sorted l : StronglySorted N.le l → strictly_sorted (dedup l).
Proof.
  induction 1 as [|x l Hl IH Hx]; [constructor|]. cbn [dedup]. destruct l as [|y l]; [repeat constructor|].
  destruct (N.eqb_spec x y) as [->|Hne]; [done|]. constructor; [done|].
  apply Forall_forall. intros z Hz. rewrite dedup_elem in Hz. rewrite Forall_forall in Hx.
  pose proof (Hx y ltac:(by left)). pose proof (Hx z Hz). apply elem_of_cons in Hz as [->|Hz]; [lia|].
  apply StronglySorted_inv in Hl as [_ Hy]. rewrite Forall_forall in Hy. specialize (Hy z Hz). lia.
Qed.

Lemma sort_N_sorted l : StronglySorted N.le (sort_N l).
Proof. apply (StronglySorted_merge_sort N.le). Qed.

Lemma dedup_sort_spec l : strictly_sorted (dedup (sort_N l)) ∧ ∀ x, x ∈ dedup (sort_N l) ↔ x ∈ l.
Proof. split; [apply dedup_sorted, sort_N_sorted|]. intros x. by rewrite dedup_elem, elem_of_sort_N. Qed.

(** The members of a concatenation. *)
Lemma elem_of_concat {A} (x : A) ls : x ∈ concat ls ↔ ∃ l, x ∈ l ∧ l ∈ ls.
Proof. rewrite list_elem_of_In, in_concat. setoid_rewrite list_elem_of_In. naive_solver. Qed.

Lemma size_list_to_set_le (l : list N) : (size (list_to_set l : gset N) ≤ length l)%nat.
Proof.
  induction l as [|x l IH]; [done|]. cbn [list_to_set length]. rewrite size_union_alt, size_singleton.
  assert (size ((list_to_set l : gset N) ∖ {[x]}) ≤ size (list_to_set l : gset N))%nat by (apply subseteq_size; set_solver).
  lia.
Qed.
