(* ===== verification/Graph.v ===== *)
(** Directed graphs given by adjacency vectors, and Kahn's algorithm in the
    shape the automata crates write it: an in-degree vector, a FIFO queue of
    degree-zero states and an accumulator for the states taken off the queue. *)

From stdpp Require Import relations.
From S2P Require Import Prelude.

Section graph.
Context (adj : list (list N)).

(** An edge whose target is a state; other targets are ignored. *)
Definition edge (s t : N) : Prop := ∃ ts, adj.[s] = Some ts ∧ t ∈ ts ∧ t < lenN adj.
Definition acyclic : Prop := ∀ s, ¬ tc edge s s.
Definition edge_count : N := N.of_nat (sum_list_with length adj).

Lemma edge_lt s t : edge s t → s < lenN adj ∧ t < lenN adj.
Proof. intros (ts & Hs & _ & Ht). split; [by eapply nthN_lt|done]. Qed.

(** A set of states in which every state has a predecessor is empty when
    the graph is acyclic. *)
Lemma acyclic_no_backward_closed (P : N → Prop) :
  acyclic → (∀ t, P t → ∃ s, P s ∧ edge s t) → ∀ t, ¬ P t.
Proof.
  intros Hac Hpred t Pt.
  assert (Htc : ∀ x y, tc (flip edge) x y → tc edge y x).
  { induction 1 as [x y He|x y z He _ IH]; [by apply tc_once|].
    eapply tc_trans; [exact IH|by apply tc_once]. }
  assert (Hsn : sn (flip edge) t).
  { apply (tc_finite_sn t).
    - intros x Hx. by apply (Hac x), Htc.
    - exists (seqN (length adj)). intros x Hx%Htc. apply elem_of_seqN. inversion Hx as [? ? He|? ? ? He _];
        subst; apply edge_lt in He; unfold lenN in He; lia. }
  induction Hsn as [t _ IH]. destruct (Hpred t Pt) as (s & Ps & He). by apply (IH s).
Qed.

(** A vector of all states in which predecessors come first excludes cycles. *)
Definition topological (V : list N) : Prop :=
  ∀ V1 t V2 s, V = V1 ++ t :: V2 → edge s t → s ∈ V1.

Lemma topological_snoc V t :
  topological V → (∀ s, edge s t → s ∈ V) → topological (V ++ [t]).
Proof.
  intros HV Ht V1 t' V2 s Heq He.
  destruct V2 as [|x V2 _] using rev_ind.
  - apply app_inj_tail in Heq as [<- <-]. by apply Ht.
  - rewrite app_comm_cons, app_assoc in Heq.
    apply app_inj_tail in Heq as [-> _]. by eapply HV.
Qed.

Lemma topological_position V s t i j :
  topological V → NoDup V → edge s t → V !! i = Some s → V !! j = Some t → (i < j)%nat.
Proof.
  intros HV Hnd He Hi Hj.
  apply list_elem_of_split_length in Hj as (V1 & V2 & HVeq & ->).
  specialize (HV V1 t V2 s HVeq He). apply list_elem_of_lookup in HV as [k Hk].
  assert (V !! k = Some s) as Hk'.
  { rewrite HVeq. by apply lookup_app_l_Some. }
  rewrite (NoDup_lookup _ _ _ _ Hnd Hi Hk'). by apply lookup_lt_Some in Hk.
Qed.

Lemma topological_acyclic V :
  topological V → NoDup V → (∀ s, s < lenN adj → s ∈ V) → acyclic.
Proof.
  intros HV Hnd Hall.
  assert (Htc : ∀ s t, tc edge s t →
    ∀ i j, V !! i = Some s → V !! j = Some t → (i < j)%nat).
  { induction 1 as [s t He|s u t He _ IH]; intros i j Hi Hj.
    - eauto using topological_position.
    - destruct (edge_lt _ _ He) as [_ Hu].
      apply Hall, list_elem_of_lookup in Hu as [k Hk].
      assert (i < k)%nat by eauto using topological_position.
      assert (k < j)%nat by eauto. lia. }
  intros s Hs. assert (Hlt : s < lenN adj).
  { inversion Hs as [? ? He|? ? ? He _]; subst; by apply edge_lt in He as [??]. }
  apply Hall, list_elem_of_lookup in Hlt as [i Hi].
  specialize (Htc s s Hs i i Hi Hi). lia.
Qed.
End graph.

(** ** Counting edges into a state *)

Definition occ (t : N) (ts : list N) : nat := length (filter (λ u, u = t) ts).

Lemma occ_cons t u ts : occ t (u :: ts) = ((if decide (u = t) then 1 else 0) + occ t ts)%nat.
Proof. unfold occ. rewrite filter_cons. by case_decide. Qed.

Lemma occ_app t ts us : occ t (ts ++ us) = (occ t ts + occ t us)%nat.
Proof. unfold occ. by rewrite filter_app, length_app. Qed.

Lemma occ_zero t ts : occ t ts = 0%nat ↔ t ∉ ts.
Proof.
  unfold occ. rewrite length_zero_iff_nil. split.
  - intros Hf Hin. assert (t ∈ filter (λ u, u = t) ts) as Hc
      by (by apply list_elem_of_filter). rewrite Hf in Hc. by apply elem_of_nil in Hc.
  - intros Hni. destruct (filter (λ u, u = t) ts) as [|u us] eqn:E; [done|].
    assert (u ∈ filter (λ u, u = t) ts) as [-> ?]%list_elem_of_filter by (rewrite E; left).
    done.
Qed.

Lemma occ_le_length t ts : (occ t ts ≤ length ts)%nat.
Proof. apply length_filter. Qed.

Section remaining.
Context (adj : list (list N)).

Definition adj_of (s : N) : list N := default [] adj.[s].

(** The edges into [t] from states that are not in [V]. *)
Definition remaining (V : list N) (t : N) : nat :=
  weight V (λ s, occ t (adj_of s)) (seqN (length adj)).

Lemma remaining_zero V t :
  t < lenN adj → remaining V t = 0%nat ↔ ∀ s, edge adj s t → s ∈ V.
Proof.
  intros Ht. unfold remaining, weight. split.
  - intros Hz s (ts & Hs & Hin & _). destruct (decide (s ∈ V)) as [|Hni]; [done|exfalso].
    assert (Hs' : s ∈ seqN (length adj)) by (apply elem_of_seqN; by apply nthN_lt in Hs).
    clear Ht. induction (seqN (length adj)) as [|u us IH]; [by apply elem_of_nil in Hs'|].
    simpl in Hz. apply elem_of_cons in Hs' as [<-|Hs'].
    + rewrite decide_False in Hz by done. unfold adj_of in Hz. rewrite Hs in Hz. simpl in Hz.
      assert (occ t ts ≠ 0%nat) by (intros Hc; by apply occ_zero in Hc). lia.
    + apply IH; [lia|done].
  - intros Hpred. assert (Hsub : ∀ s, s ∈ seqN (length adj) → s < lenN adj)
      by (intros s; apply elem_of_seqN).
    induction (seqN (length adj)) as [|u us IH]; simpl; [done|].
    rewrite IH by (intros; apply Hsub; by right). rewrite Nat.add_0_r.
    case_decide as Hu; [done|]. apply occ_zero. intros Hin. apply Hu, Hpred.
    unfold adj_of in Hin. destruct adj.[u] as [ts|] eqn:E; [|by apply elem_of_nil in Hin].
    exists ts. eauto.
Qed.

Lemma remaining_snoc V s t :
  s < lenN adj → s ∉ V → (remaining (V ++ [s]) t + occ t (adj_of s) = remaining V t)%nat.
Proof.
  intros Hs Hni. apply (weight_snoc V (λ s, occ t (adj_of s))); [apply NoDup_seqN| |done].
  by apply elem_of_seqN.
Qed.
End remaining.

(** * Kahn's algorithm *)

Section kahn.
Context (adj : list (list N)).
(** What the loop accumulates for each state taken off the queue. *)
Context {A : Type} (push : A → N → A).
(** The decrement of a degree, at the width of the source. *)
Context (dec : N → N).

(** [enumerate] and keep the states of degree zero. *)
Definition kahn_queue (deg : list N) : list N :=
  filter (λ s, deg.[s] = Some 0) (seqN (length deg)).

(** One target of the state taken off the queue. *)
Definition kahn_relax (st : list N * list N) (t : N) : list N * list N :=
  let '(deg, queue) := st in
  match deg.[t] with
  | None => (deg, queue)
  | Some d =>
      let d := dec d in
      (alterN (λ _, d) deg t, if d =? 0 then queue ++ [t] else queue)
  end.

Definition kahn_step (st : list N * list N * A) : (list N * list N * A) + A :=
  let '(deg, queue, acc) := st in
  match queue with
  | [] => inr acc
  | s :: queue =>
      let '(deg, queue) := foldl kahn_relax (deg, queue) (adj_of adj s) in
      inl (deg, queue, push acc s)
  end.

Definition kahn (deg : list N) (acc : A) : option A :=
  match run kahn_step (S (length adj)) (deg, kahn_queue deg, acc) with
  | inl _ => None
  | inr acc => Some acc
  end.

Definition degree_bound : N := N.of_nat (sum_list_with length adj).
Context (dec_ok : ∀ d, 1 ≤ d → d ≤ degree_bound → dec d = d - 1).
Context (R : A → list N → Prop) (push_ok : ∀ acc V s, R acc V → R (push acc s) (V ++ [s])).

Lemma remaining_bound V t : N.of_nat (remaining adj V t) ≤ degree_bound.
Proof using.
  unfold remaining, weight, degree_bound.
  enough (sum_list_with (λ s, if decide (s ∈ V) then 0 else occ t (adj_of adj s))
            (seqN (length adj)) ≤ sum_list_with length adj)%nat by lia.
  unfold seqN, adj_of. rewrite <-(app_nil_l adj) at 2.
  cut (∀ pre, (sum_list_with
      (λ s, if decide (s ∈ V) then 0 else occ t (default [] (pre ++ adj).[s]))
      (N.of_nat <$> seq (length pre) (length adj)) ≤ sum_list_with length adj)%nat).
  { intros Hc. apply (Hc []). }
  induction adj as [|ts l IH]; intros pre; simpl; [done|].
  specialize (IH (pre ++ [ts])). rewrite length_app, <-app_assoc in IH. simpl in IH.
  rewrite Nat.add_1_r in IH. apply Nat.add_le_mono; [|done].
  case_decide; [lia|]. rewrite nthN_of_nat, list_lookup_middle by done. simpl.
  apply occ_le_length.
Qed.

(** The targets [suf] of the state just taken off the queue are still to be
    relaxed: degrees count those and the edges from states not in [V]. *)
Record kahn_ok (V suf deg queue : list N) : Prop := {
  kahn_len : length deg = length adj;
  kahn_deg : ∀ t, t < lenN adj → deg.[t] = Some (N.of_nat (remaining adj V t + occ t suf));
  kahn_zero : ∀ t, t < lenN adj → deg.[t] = Some 0 ↔ t ∈ V ++ queue;
  kahn_range : ∀ t, t ∈ V ++ queue → t < lenN adj;
  kahn_nodup : NoDup (V ++ queue);
}.

Lemma kahn_relax_ok V t suf deg queue :
  N.of_nat (remaining adj V t + occ t (t :: suf)) ≤ degree_bound →
  kahn_ok V (t :: suf) deg queue →
  kahn_ok V suf (kahn_relax (deg, queue) t).1 (kahn_relax (deg, queue) t).2.
Proof using dec_ok.
  intros Hb [Hlen Hdeg Hzero Hrange Hnd]. unfold kahn_relax.
  destruct (decide (t < lenN adj)) as [Ht|Ht].
  - rewrite (Hdeg t Ht). rewrite occ_cons, decide_True in Hb |- * by done.
    rewrite dec_ok by lia.
    set (d := N.of_nat (remaining adj V t + (1 + occ t suf)) - 1).
    assert (Hd : d = N.of_nat (remaining adj V t + occ t suf)) by lia.
    assert (Htni : t ∉ V ++ queue).
    { rewrite <-Hzero, Hdeg by done. rewrite occ_cons, decide_True by done. intros [= ?]. lia. }
    assert (Hlook : ∀ u, u < lenN adj → (alterN (λ _, d) deg t).[u] =
              Some (N.of_nat (remaining adj V u + occ u suf))).
    { intros u Hu. rewrite nthN_alterN. destruct (N.eqb_spec u t) as [->|Hne].
      - rewrite Hdeg by done. simpl. by rewrite Hd.
      - rewrite Hdeg, occ_cons, decide_False by done. done. }
    simpl. destruct (N.eqb_spec d 0) as [Hd0|Hd0].
    + split; simpl; [by rewrite length_alterN|done| | |].
      * intros u Hu. rewrite app_assoc, elem_of_app, list_elem_of_singleton, <-Hzero by done.
        rewrite nthN_alterN. destruct (N.eqb_spec u t) as [->|Hne].
        -- rewrite Hdeg by done. simpl. rewrite Hd0. naive_solver.
        -- naive_solver.
      * intros u. rewrite app_assoc, elem_of_app, list_elem_of_singleton.
        intros [?| ->]; auto.
      * rewrite app_assoc. apply NoDup_app. split; [done|]. split; [|apply NoDup_singleton].
        intros u Hu ->%list_elem_of_singleton. done.
    + split; simpl; [by rewrite length_alterN|done| |done|done].
      intros u Hu. rewrite <-Hzero by done. rewrite nthN_alterN.
      destruct (N.eqb_spec u t) as [->|Hne]; [|done].
      rewrite Hdeg by done. simpl. rewrite occ_cons, decide_True by done.
      split; intros [= ?]; lia.
  - assert (deg.[t] = None) as ->.
    { apply nthN_None. unfold lenN in *. rewrite Hlen. lia. }
    split; simpl; [done| |done|done|done].
    intros u Hu. rewrite Hdeg, occ_cons, decide_False by (done || intros ->; done). done.
Qed.

Lemma kahn_relax_all_ok V ts deg queue :
  (∀ t, N.of_nat (remaining adj V t + occ t ts) ≤ degree_bound) →
  kahn_ok V ts deg queue →
  kahn_ok V [] (foldl kahn_relax (deg, queue) ts).1 (foldl kahn_relax (deg, queue) ts).2.
Proof using dec_ok.
  revert deg queue. induction ts as [|t ts IH]; intros deg queue Hb Hok; [done|].
  cbn [foldl]. rewrite (surjective_pairing (kahn_relax (deg, queue) t)).
  apply IH; [|by apply kahn_relax_ok].
  intros u. specialize (Hb u). rewrite occ_cons in Hb. case_decide; lia.
Qed.

(** The loop invariant, with the states already taken off the queue. *)
Definition kahn_inv (st : list N * list N * A) (m : nat) : Prop :=
  ∃ V, kahn_ok V [] st.1.1 st.1.2 ∧ topological adj V ∧ R st.2 V ∧
       (m + length V = length adj)%nat.

(** A state leaves the queue: its targets are to be relaxed. *)
Lemma kahn_pop_ok V s deg queue :
  kahn_ok V [] deg (s :: queue) →
  kahn_ok (V ++ [s]) (adj_of adj s) deg queue ∧ s < lenN adj ∧ s ∉ V ∧
  ∀ t, (remaining adj (V ++ [s]) t + occ t (adj_of adj s) = remaining adj V t)%nat.
Proof using.
  clear push_ok R push dec_ok dec A. intros [Hlen Hdeg Hzero Hrange Hnd].
  assert (Hs : s < lenN adj) by (apply Hrange; set_solver).
  assert (HsV : s ∉ V).
  { apply NoDup_app in Hnd as (_ & Hdisj & _). intros Hin. apply (Hdisj s Hin). by left. }
  assert (Hrem : ∀ t, (remaining adj (V ++ [s]) t + occ t (adj_of adj s) = remaining adj V t)%nat)
    by (intros; by apply remaining_snoc).
  split; [|done]. rewrite cons_middle, app_assoc in Hnd, Hrange. split; try done.
  - intros t Ht. rewrite Hdeg, <-Hrem by done. do 2 f_equal. unfold occ. simpl. lia.
  - intros t Ht. rewrite Hzero by done. by rewrite cons_middle, app_assoc.
Qed.

Lemma kahn_step_inv st st' m :
  kahn_inv st m → kahn_step st = inl st' → ∃ m', kahn_inv st' m' ∧ (m' < m)%nat.
Proof using dec_ok push_ok.
  destruct st as [[deg queue] acc]. intros (V & Hok & Htop & HR & Hm). simpl in *.
  destruct queue as [|s queue]; [done|].
  destruct (foldl kahn_relax (deg, queue) (adj_of adj s)) as [deg' queue'] eqn:E.
  intros [= <-]. destruct (kahn_pop_ok V s deg queue Hok) as (Hpop & Hs & HsV & Hrem).
  destruct Hok as [Hlen Hdeg Hzero Hrange Hnd].
  assert (HVlen : (length (V ++ [s]) ≤ length adj)%nat).
  { apply NoDup_bounded_length.
    - rewrite cons_middle, app_assoc in Hnd. by apply NoDup_app in Hnd as [? _].
    - intros u Hu. apply Hrange. set_solver. }
  rewrite length_app in HVlen. simpl in HVlen.
  exists (m - 1)%nat. split; [|lia]. exists (V ++ [s]).
  split; [|split; [|split; [by apply push_ok|rewrite length_app; simpl; lia]]].
  - pose proof (kahn_relax_all_ok (V ++ [s]) (adj_of adj s) deg queue) as Hall.
    rewrite E in Hall. apply Hall; [|done]. intros t. rewrite Hrem. apply remaining_bound.
  - apply topological_snoc; [done|]. intros u Hu.
    assert (Hz : remaining adj V s = 0%nat).
    { assert (deg.[s] = Some 0) as Hz by (apply Hzero; [done|set_solver]).
      rewrite Hdeg in Hz by done. injection Hz as Hz. lia. }
    by eapply (remaining_zero adj V s).
Qed.

Lemma kahn_start_inv deg acc :
  length deg = length adj →
  (∀ t, t < lenN adj → deg.[t] = Some (N.of_nat (remaining adj [] t))) →
  R acc [] → kahn_inv (deg, kahn_queue deg, acc) (length adj).
Proof using.
  clear push_ok push dec_ok dec. intros Hlen Hdeg HR. exists [].
  unfold kahn_queue. rewrite Hlen.
  split; [|split; [|split; [done|simpl; lia]]]; simpl.
  - assert (Hq : ∀ t, t ∈ filter (λ s, deg.[s] = Some 0) (seqN (length adj)) ↔
               deg.[t] = Some 0 ∧ t < lenN adj).
    { intros t. by rewrite list_elem_of_filter, elem_of_seqN. }
    split; [done| | | |]; simpl.
    + intros t Ht. rewrite Hdeg by done. do 2 f_equal. unfold occ. simpl. lia.
    + intros t Ht. rewrite Hq. tauto.
    + intros t. rewrite Hq. tauto.
    + apply NoDup_filter, NoDup_seqN.
  - intros V1 t V2 s Heq. by destruct V1.
Qed.

(** The loop ends; the states it took off the queue, in that order, are a
    topological order of the states that have no cyclic predecessor. *)
Lemma kahn_spec deg acc :
  length deg = length adj →
  (∀ t, t < lenN adj → deg.[t] = Some (N.of_nat (remaining adj [] t))) →
  R acc [] →
  ∃ acc' V, kahn deg acc = Some acc' ∧ R acc' V ∧ topological adj V ∧ NoDup V ∧
    (∀ t, t ∈ V ↔ t < lenN adj ∧ ∀ s, edge adj s t → s ∈ V).
Proof using dec_ok push_ok.
  intros Hlen Hdeg HR. unfold kahn.
  pose proof (kahn_start_inv deg acc Hlen Hdeg HR) as HI.
  destruct (run_terminates kahn_step kahn_inv (S (length adj)) _ _ kahn_step_inv HI)
    as (r & [[deg' queue'] acc'] & m & Hrun & (V & Hok & Htop & HR' & _) & Hexit).
  { pose proof (pow2_S_gt (length adj)). lia. }
  rewrite Hrun. simpl in *. destruct queue' as [|s q]; [|by destruct (foldl _ _ _)].
  injection Hexit as <-. exists acc', V. destruct Hok as [_ Hdeg' Hzero Hrange Hnd].
  rewrite app_nil_r in *. split; [done|]. split; [done|]. split; [done|]. split; [done|].
  intros t. split.
  - intros Ht. specialize (Hrange t Ht). split; [done|].
    apply remaining_zero; [done|]. apply Hzero in Ht; [|done].
    rewrite Hdeg' in Ht by done. injection Ht as Ht. lia.
  - intros [Ht Hpred]. apply remaining_zero in Hpred; [|done].
    apply Hzero; [done|]. rewrite Hdeg', Hpred by done. done.
Qed.

(** All states are taken off the queue exactly when the graph is acyclic. *)
Lemma kahn_complete V :
  topological adj V → NoDup V →
  (∀ t, t ∈ V ↔ t < lenN adj ∧ ∀ s, edge adj s t → s ∈ V) →
  length V = length adj ↔ acyclic adj.
Proof using.
  intros Htop Hnd HV.
  assert (Hle : (length V ≤ length adj)%nat).
  { apply NoDup_bounded_length; [done|]. intros t Ht. by apply HV. }
  split.
  - intros Hlen. apply (topological_acyclic adj V); [done|done|].
    intros s Hs. destruct (decide (s ∈ V)) as [|Hni]; [done|].
    assert (Hsl : (length (s :: V) ≤ length adj)%nat); [|simpl in Hsl; lia].
    apply NoDup_bounded_length; [by constructor|].
    intros x [->|Hx]%elem_of_cons; [done|]. by apply HV.
  - intros Hac. apply Nat.le_antisymm; [done|].
    rewrite <-(length_seqN (length adj)). apply submseteq_length, NoDup_submseteq;
      [apply NoDup_seqN|].
    intros t Ht%elem_of_seqN. destruct (decide (t ∈ V)) as [|Hni]; [done|exfalso].
    apply (acyclic_no_backward_closed adj (λ t, t ∉ V ∧ t < lenN adj) Hac) with t; [|done].
    clear t Ht Hni. intros t [Hni Ht].
    assert (Hnz : remaining adj V t ≠ 0%nat).
    { intros Hz. apply Hni, HV. split; [done|]. by apply remaining_zero. }
    assert (Hex : Exists (λ s, s ∉ V ∧ edge adj s t) (seqN (length adj))).
    { clear -Hnz Ht. unfold remaining, weight in Hnz.
      assert (Hlt : ∀ s, s ∈ seqN (length adj) → s < lenN adj) by (intros s; apply elem_of_seqN).
      induction (seqN (length adj)) as [|s l IH]; simpl in *; [done|].
      case_decide as HsV.
      - right. apply IH; [done|]. intros; apply Hlt; by right.
      - destruct (decide (occ t (adj_of adj s) = 0%nat)) as [Hz|Hz].
        + right. apply IH; [lia|]. intros; apply Hlt; by right.
        + left. split; [done|]. unfold adj_of in Hz.
          destruct adj.[s] as [ts|] eqn:Ets; [|by destruct Hz].
          exists ts. split; [done|]. split; [|done].
          destruct (decide (t ∈ ts)) as [|Hts]; [done|]. by apply occ_zero in Hts. }
    apply Exists_exists in Hex as (s & Hs & HsV & He).
    exists s. split; [|done]. split; [done|]. exact (proj1 (edge_lt adj s t He)).
Qed.
End kahn.

(** * The cycle test

    [compute_is_acyclic] of the automata: in-degrees are [u32] counters that
    wrap around, targets that are not states are skipped by [get_mut]. *)

Definition indegree_row (deg : list N) (ts : list N) : list N :=
  foldl (λ deg t, alterN (λ d, u32_wrapping_add d 1) deg t) deg ts.

Definition indegree (adj : list (list N)) : list N :=
  foldl indegree_row (replicate (length adj) 0) adj.

Definition is_acyclic (adj : list (list N)) : bool :=
  match kahn adj (λ visited _, visited + 1) (λ d, u32_wrapping_sub d 1) (indegree adj) 0 with
  | Some visited => visited =? lenN adj
  | None => false
  end.

Lemma adj_of_seqN adj : adj_of adj <$> seqN (length adj) = adj.
Proof.
  apply nthN_ext. intros i. rewrite nthN_fmap, nthN_seqN. unfold adj_of.
  destruct (N.ltb_spec i (N.of_nat (length adj))) as [Hi|Hi]; simpl.
  - destruct (proj1 (nthN_Some_lt adj i) Hi) as [ts ->]. done.
  - symmetry. by apply nthN_None.
Qed.

Lemma remaining_nil adj t : remaining adj [] t = occ t (concat adj).
Proof.
  unfold remaining, weight. trans (occ t (concat (adj_of adj <$> seqN (length adj))));
    [|by rewrite adj_of_seqN].
  induction (seqN (length adj)) as [|s l IH]; [done|].
  rewrite fmap_cons. cbn [concat sum_list_with]. rewrite occ_app, <-IH.
  by rewrite decide_False by apply not_elem_of_nil.
Qed.

Lemma length_concat_edges (adj : list (list N)) :
  N.of_nat (length (concat adj)) = edge_count adj.
Proof.
  unfold edge_count. f_equal. induction adj as [|ts l IH]; simpl; [done|].
  rewrite length_app. lia.
Qed.

(** The counters hold the in-degrees when their number fits [u32]. *)
Lemma indegree_spec adj :
  edge_count adj < u32_modulus →
  length (indegree adj) = length adj ∧
  ∀ t, t < lenN adj → (indegree adj).[t] = Some (N.of_nat (occ t (concat adj))).
Proof.
  intros Hfit. unfold indegree.
  assert (Hflat : ∀ l deg, foldl indegree_row deg l =
            foldl (λ deg t, alterN (λ d, u32_wrapping_add d 1) deg t) deg (concat l)).
  { induction l as [|ts l IH]; intros deg; simpl; [done|]. by rewrite IH, foldl_app. }
  rewrite Hflat.
  apply (foldl_inv_prefix (λ pre deg, length deg = length adj ∧
    ∀ t, t < lenN adj → deg.[t] = Some (N.of_nat (occ t pre)))).
  - intros pre u deg [suf Hsuf] [Hlen Hdeg]. split; [by rewrite length_alterN|].
    intros t Ht. rewrite nthN_alterN, occ_app, occ_cons.
    assert (Hb : (occ t pre + 1 ≤ length (concat adj))%nat).
    { rewrite Hsuf, length_app. simpl. pose proof (occ_le_length t pre). lia. }
    rewrite <-length_concat_edges in Hfit.
    destruct (N.eqb_spec t u) as [->|Hne].
    + rewrite decide_True, Hdeg by done. simpl. rewrite u32_wrapping_add_small by lia.
      f_equal. unfold occ at 3. simpl. lia.
    + rewrite decide_False by (by intros ->). rewrite Hdeg by done.
      do 2 f_equal. unfold occ at 3. simpl. lia.
  - split; [apply length_replicate|]. intros t Ht. rewrite nthN_replicate.
    unfold lenN in Ht. by rewrite (proj2 (N.ltb_lt _ _) Ht).
Qed.

Lemma is_acyclic_spec adj :
  edge_count adj < u32_modulus → is_acyclic adj = true ↔ acyclic adj.
Proof.
  intros Hfit. destruct (indegree_spec adj Hfit) as [Hlen Hdeg]. unfold is_acyclic.
  destruct (kahn_spec adj (λ visited _, visited + 1) (λ d, u32_wrapping_sub d 1)
              ltac:(intros d H1 Hd; apply u32_wrapping_sub_small;
                    [done|unfold degree_bound, edge_count in *; lia])
              (λ acc V, acc = lenN V)
              ltac:(intros acc V s ->; by rewrite lenN_snoc)
              (indegree adj) 0)
    as (acc & V & -> & -> & Htop & Hnd & HV); [done| |done|].
  - intros t Ht. by rewrite remaining_nil, Hdeg.
  - rewrite <-(kahn_complete adj V Htop Hnd HV), N.eqb_eq. unfold lenN. lia.
Qed.
