(* ===== verification/Dfa.v ===== *)
(** Deterministic automata over [i32] labels
    (crates/glrmask-finite-automata/src/automata/unweighted_u32/dfa.rs), their
    language, and what a smallest partial automaton for a language is. *)

From stdpp Require Import relations.
From S2P Require Import Prelude Graph.

Module DFAState.
Record t := mk { is_accepting : bool; transitions : gmap Z N }.

(** [DFAState::default()] *)
Definition default : t := mk false ∅.

#[global] Instance eq_dec : EqDecision t.
Proof. solve_decision. Defined.
End DFAState.

Module DFA.
Record t := mk { states : list DFAState.t; start_state : N }.

#[global] Instance eq_dec : EqDecision t.
Proof. solve_decision. Defined.

Definition new : t := mk [DFAState.default] 0.

Definition num_states (d : t) : N := lenN (states d).

Definition add_state (d : t) : t * N :=
  (mk (states d ++ [DFAState.default]) (start_state d), as_u32 (lenN (states d))).

Definition add_transition (d : t) (from : N) (label : Z) (to : N) : t :=
  mk (alterN (λ st, DFAState.mk (DFAState.is_accepting st)
                      (<[label := to]> (DFAState.transitions st)))
        (states d) from)
     (start_state d).

Definition set_accepting (d : t) (state : N) (is_accepting : bool) : t :=
  mk (alterN (λ st, DFAState.mk is_accepting (DFAState.transitions st)) (states d) state)
     (start_state d).

(** The targets of a state in the order of [transitions.values()]. *)
Definition targets (st : DFAState.t) : list N := label_values (DFAState.transitions st).
Definition adjacency (d : t) : list (list N) := targets <$> states d.

Definition compute_is_acyclic (d : t) : bool := is_acyclic (adjacency d).

(** ** The language of an automaton *)

Definition delta (d : t) (q : N) (l : Z) : option N :=
  st ← (states d).[q]; DFAState.transitions st !! l.

Fixpoint run_from (d : t) (q : N) (w : list Z) : option N :=
  match w with
  | [] => Some q
  | l :: w => q' ← delta d q l; run_from d q' w
  end.

Definition accepting (d : t) (q : N) : bool :=
  match (states d).[q] with Some st => DFAState.is_accepting st | None => false end.

Definition accepts_from (d : t) (q : N) (w : list Z) : bool :=
  match run_from d q w with Some q' => accepting d q' | None => false end.

Definition accepts (d : t) (w : list Z) : bool := accepts_from d (start_state d) w.

(** Two states with the same residual language. *)
Definition same_language (d : t) (q q' : N) : Prop :=
  ∀ w, accepts_from d q w = accepts_from d q' w.

(** A state from which no word is accepted. *)
Definition dead (d : t) (q : N) : Prop := ∀ w, accepts_from d q w = false.

Definition reachable (d : t) (q : N) : Prop :=
  ∃ w, run_from d (start_state d) w = Some q ∧ q < lenN (states d).

(** Every transition leads to a state, and so does the start. *)
Definition closed (d : t) : Prop :=
  start_state d < lenN (states d) ∧
  ∀ q l q', delta d q l = Some q' → q' < lenN (states d).

Definition label_graph_acyclic (d : t) : Prop := acyclic (adjacency d).

(** The number of transitions fits the [u32] counters of the cycle test. *)
Definition edges_fit (d : t) : Prop := edge_count (adjacency d) < u32_modulus.
End DFA.

(** * Facts about the operations *)

Module DFAFacts.
Import DFA.

Lemma accepts_from_nil d q : accepts_from d q [] = accepting d q.
Proof. done. Qed.

Lemma accepts_from_cons d q l w :
  accepts_from d q (l :: w) =
  match delta d q l with Some q' => accepts_from d q' w | None => false end.
Proof. unfold accepts_from. simpl. by destruct (delta d q l). Qed.

Lemma run_from_app d q w w' :
  run_from d q (w ++ w') = q' ← run_from d q w; run_from d q' w'.
Proof.
  revert q. induction w as [|l w IH]; intros q; simpl; [done|].
  by destruct (delta d q l); simpl.
Qed.

Lemma accepts_from_app d q w w' :
  accepts_from d q (w ++ w') =
  match run_from d q w with Some q' => accepts_from d q' w' | None => false end.
Proof. unfold accepts_from. rewrite run_from_app. by destruct (run_from d q w). Qed.

Lemma delta_lt d q l q' : delta d q l = Some q' → q < lenN (states d).
Proof. unfold delta. destruct ((states d).[q]) eqn:E; [|done]. intros _. by eapply nthN_lt. Qed.

Lemma accepting_lt d q : accepting d q = true → q < lenN (states d).
Proof. unfold accepting. destruct ((states d).[q]) eqn:E; [|done]. intros _. by eapply nthN_lt. Qed.

(** An index that is not a state has the empty language. *)
Lemma out_of_range_dead d q : lenN (states d) ≤ q → dead d q.
Proof.
  intros Hq w. apply nthN_None in Hq.
  destruct w as [|l w]; [by rewrite accepts_from_nil; unfold accepting; rewrite Hq|].
  rewrite accepts_from_cons. unfold delta. by rewrite Hq.
Qed.

Lemma accepts_from_lt d q w : accepts_from d q w = true → q < lenN (states d).
Proof.
  intros H. destruct (decide (q < lenN (states d))) as [|Hq]; [done|].
  rewrite out_of_range_dead in H by lia. done.
Qed.

#[global] Instance same_language_equiv d : Equivalence (same_language d).
Proof.
  split.
  - intros q w. done.
  - intros q q' H w. by rewrite H.
  - intros q q' q'' H H' w. by rewrite H, H'.
Qed.

Lemma same_language_dead d q q' : same_language d q q' → dead d q → dead d q'.
Proof. intros H Hd w. by rewrite <-H. Qed.

Lemma dead_same_language d q q' : dead d q → dead d q' → same_language d q q'.
Proof. intros H H' w. by rewrite H, H'. Qed.

Lemma elem_of_targets st t : t ∈ targets st ↔ ∃ l, DFAState.transitions st !! l = Some t.
Proof. apply elem_of_bt_values. Qed.

(** The edges of the adjacency graph are the in-range transitions. *)
Lemma edge_delta d q q' :
  edge (adjacency d) q q' ↔ ∃ l, delta d q l = Some q' ∧ q' < lenN (states d).
Proof.
  unfold edge, adjacency, delta. rewrite lenN_fmap. split.
  - intros (ts & Hts & Hin & Hlt). rewrite nthN_fmap in Hts.
    destruct ((states d).[q]) as [st|] eqn:E; [|done]. injection Hts as <-.
    apply elem_of_targets in Hin as [l Hl]. eauto.
  - intros (l & Hl & Hlt). destruct ((states d).[q]) as [st|] eqn:E; [|done].
    exists (targets st). rewrite nthN_fmap, E. split; [done|]. split; [|done].
    apply elem_of_targets. eauto.
Qed.

(** A path of transitions is the run of a word. *)
Lemma reach_run d i j : rtc (edge (adjacency d)) i j → ∃ w, run_from d i w = Some j.
Proof.
  induction 1 as [i|i t j He _ [w Hw]]; [by exists []|].
  apply edge_delta in He as (l & Hl & _). exists (l :: w). simpl. by rewrite Hl.
Qed.

(** A decision procedure for [closed]. *)
Definition closed_b (d : t) : bool :=
  (start_state d <? lenN (states d)) &&
  forallb (λ st, forallb (λ q', q' <? lenN (states d)) (targets st)) (states d).

Lemma closed_b_spec d : closed_b d = true → closed d.
Proof.
  unfold closed_b. rewrite andb_true_iff, forallb_forall. intros [Hs Hall].
  split; [by apply N.ltb_lt|]. intros q l q' Hd. unfold delta in Hd.
  destruct ((states d).[q]) as [st|] eqn:E; [|done].
  assert (Hst : st ∈ states d) by (apply nthN_elem_of; eauto).
  specialize (Hall st (proj1 (list_elem_of_In _ _) Hst)). rewrite forallb_forall in Hall.
  apply N.ltb_lt, Hall, list_elem_of_In, elem_of_targets. eauto.
Qed.

Lemma nthN_add_state d i :
  (states (add_state d).1).[i] =
    if i =? lenN (states d) then Some DFAState.default else (states d).[i].
Proof. apply nthN_snoc. Qed.

Lemma length_add_state d : lenN (states (add_state d).1) = lenN (states d) + 1.
Proof. apply lenN_snoc. Qed.

Lemma add_state_id d :
  lenN (states d) < u32_modulus → (add_state d).2 = lenN (states d).
Proof. apply as_u32_small. Qed.

Lemma delta_add_transition d from l to q l' :
  delta (add_transition d from l to) q l' =
  if decide (q = from ∧ l' = l ∧ from < lenN (states d)) then Some to else delta d q l'.
Proof.
  unfold delta, add_transition. simpl. rewrite nthN_alterN.
  destruct (N.eqb_spec q from) as [->|Hne].
  - destruct ((states d).[from]) as [st|] eqn:E; simpl.
    + apply nthN_lt in E. rewrite lookup_insert.
      repeat case_decide; naive_solver.
    + apply nthN_None in E. rewrite decide_False; [done|]. intros (_ & _ & ?). lia.
  - rewrite decide_False; [done|naive_solver].
Qed.

Lemma accepting_add_transition d from l to q :
  accepting (add_transition d from l to) q = accepting d q.
Proof.
  unfold accepting, add_transition. simpl. rewrite nthN_alterN.
  destruct (N.eqb_spec q from) as [->|]; [|done]. by destruct ((states d).[from]).
Qed.

Lemma length_add_transition d from l to :
  lenN (states (add_transition d from l to)) = lenN (states d).
Proof. apply lenN_alterN. Qed.

Lemma delta_set_accepting d s b q l : delta (set_accepting d s b) q l = delta d q l.
Proof.
  unfold delta, set_accepting. simpl. rewrite nthN_alterN.
  destruct (N.eqb_spec q s) as [->|]; [|done]. by destruct ((states d).[s]).
Qed.

Lemma accepting_set_accepting d s b q :
  accepting (set_accepting d s b) q =
  if decide (q = s ∧ s < lenN (states d)) then b else accepting d q.
Proof.
  unfold accepting, set_accepting. simpl. rewrite nthN_alterN.
  destruct (N.eqb_spec q s) as [->|Hne].
  - destruct ((states d).[s]) as [st|] eqn:E; simpl.
    + apply nthN_lt in E. by rewrite decide_True.
    + apply nthN_None in E. rewrite decide_False; [done|]. intros [_ ?]. lia.
  - rewrite decide_False; [done|naive_solver].
Qed.

Lemma length_set_accepting d s b : lenN (states (set_accepting d s b)) = lenN (states d).
Proof. apply lenN_alterN. Qed.
End DFAFacts.

(** * Smallest automata *)

(** Every state is reachable and accepts some word from there, and no two
    states have the same language. *)
Record DFA_reduced (d : DFA.t) : Prop := {
  red_reachable : ∀ q, q < lenN (DFA.states d) → DFA.reachable d q;
  red_live : ∀ q, q < lenN (DFA.states d) → ¬ DFA.dead d q;
  red_distinct : ∀ q q', q < lenN (DFA.states d) → q' < lenN (DFA.states d) →
    DFA.same_language d q q' → q = q';
}.

(** A certificate of [DFA_reduced]: a word leading to each state, and words that
    separate the states from each other and from the empty language. *)
Definition reduced_b (d : DFA.t) (access tests : list (list Z)) : bool :=
  let states := seqN (length (DFA.states d)) in
  forallb (λ q, existsb (λ w, bool_decide (DFA.run_from d (DFA.start_state d) w = Some q)) access) states &&
  forallb (λ q, existsb (λ w, DFA.accepts_from d q w) tests) states &&
  forallb (λ q, forallb (λ q', (q =? q') ||
    existsb (λ w, xorb (DFA.accepts_from d q w) (DFA.accepts_from d q' w)) tests) states) states.

Lemma reduced_b_spec d access tests : reduced_b d access tests = true → DFA_reduced d.
Proof.
  assert (Hin : ∀ q, q < lenN (DFA.states d) → In q (seqN (length (DFA.states d))))
    by (intros q Hq; by apply list_elem_of_In, elem_of_seqN).
  unfold reduced_b. rewrite !andb_true_iff, !forallb_forall. intros [[Hr Hl] Hd]. split.
  - intros q Hq. specialize (Hr q (Hin q Hq)). apply existsb_exists in Hr as (w & _ & Hw).
    exists w. split; [by apply bool_decide_eq_true in Hw|done].
  - intros q Hq Hdead. specialize (Hl q (Hin q Hq)). apply existsb_exists in Hl as (w & _ & Hw).
    by rewrite Hdead in Hw.
  - intros q q' Hq Hq' Hsame. specialize (Hd q (Hin q Hq)). rewrite forallb_forall in Hd.
    specialize (Hd q' (Hin q' Hq')). apply orb_true_iff in Hd as [Heq|Hx]; [by apply N.eqb_eq|].
    apply existsb_exists in Hx as (w & _ & Hw). rewrite Hsame, xorb_nilpotent in Hw. done.
Qed.

(** Words reaching the states of an index vector. *)
Lemma reaching_words d (l : list N) :
  (∀ q, q ∈ l → DFA.reachable d q) →
  ∃ ws, Forall2 (λ q w, DFA.run_from d (DFA.start_state d) w = Some q) l ws.
Proof.
  induction l as [|q l IH]; intros Hl; [by exists []|].
  destruct (Hl q) as (w & Hw & _); [by left|].
  destruct IH as [ws Hws]; [intros; apply Hl; by right|]. exists (w :: ws). by constructor.
Qed.

(** A reduced automaton has at most as many states as any automaton for its
    language. *)
Lemma reduced_smallest d d' :
  DFA_reduced d → (∀ w, DFA.accepts d' w = DFA.accepts d w) →
  (length (DFA.states d) ≤ length (DFA.states d'))%nat.
Proof.
  intros [Hreach Hlive Hdist] Heq.
  destruct (reaching_words d (seqN (length (DFA.states d)))) as [ws Hws].
  { intros q Hq%elem_of_seqN. by apply Hreach. }
  assert (Htail : ∀ q w v, DFA.run_from d (DFA.start_state d) w = Some q →
    DFA.accepts_from d q v =
    match DFA.run_from d' (DFA.start_state d') w with
    | Some q' => DFA.accepts_from d' q' v | None => false end).
  { intros q w v Hw. specialize (Heq (w ++ v)). unfold DFA.accepts in Heq.
    rewrite !DFAFacts.accepts_from_app, Hw in Heq. done. }
  set (img := (λ w, default 0 (DFA.run_from d' (DFA.start_state d') w)) <$> ws).
  assert (Himg : ∀ q w, q < lenN (DFA.states d) →
    DFA.run_from d (DFA.start_state d) w = Some q →
    ∃ q', DFA.run_from d' (DFA.start_state d') w = Some q' ∧ q' < lenN (DFA.states d') ∧
      ∀ v, DFA.accepts_from d q v = DFA.accepts_from d' q' v).
  { intros q w Hq Hw. pose proof (λ v, Htail q w v Hw) as Hv.
    destruct (DFA.run_from d' (DFA.start_state d') w) as [q'|].
    - exists q'. split; [done|]. split; [|done].
      destruct (decide (q' < lenN (DFA.states d'))) as [|Hge]; [done|].
      exfalso. apply (Hlive q Hq). intros v. rewrite Hv.
      apply DFAFacts.out_of_range_dead. lia.
    - exfalso. apply (Hlive q Hq). intros v. by rewrite Hv. }
  assert (Hlen : length img = length (DFA.states d)).
  { unfold img. rewrite length_fmap, <-(Forall2_length _ _ _ Hws). apply length_seqN. }
  rewrite <-Hlen. apply NoDup_bounded_length.
  - apply NoDup_alt. intros i j x Hi Hj. unfold img in Hi, Hj.
    rewrite list_lookup_fmap in Hi, Hj.
    destruct (ws !! i) as [wi|] eqn:Ei; [|done]. destruct (ws !! j) as [wj|] eqn:Ej; [|done].
    destruct (Forall2_lookup_r _ _ _ _ _ Hws Ei) as (qi & Hqi & Hwi).
    destruct (Forall2_lookup_r _ _ _ _ _ Hws Ej) as (qj & Hqj & Hwj).
    assert (Hqil : qi < lenN (DFA.states d)) by (apply elem_of_seqN; by apply list_elem_of_lookup_2 in Hqi).
    assert (Hqjl : qj < lenN (DFA.states d)) by (apply elem_of_seqN; by apply list_elem_of_lookup_2 in Hqj).
    destruct (Himg qi wi Hqil Hwi) as (qi' & Hi' & _ & Hli).
    destruct (Himg qj wj Hqjl Hwj) as (qj' & Hj' & _ & Hlj).
    simpl in Hi, Hj. rewrite Hi' in Hi. rewrite Hj' in Hj.
    injection Hi as ->. injection Hj as ->. simpl in *.
    assert (qi = qj) as -> by (apply Hdist; [done|done|]; intros v; by rewrite Hli, Hlj).
    by eapply (NoDup_lookup _ i j); [apply NoDup_seqN|..].
  - intros x (w & -> & Hw)%list_elem_of_fmap.
    apply list_elem_of_lookup in Hw as [i Hi].
    destruct (Forall2_lookup_r _ _ _ _ _ Hws Hi) as (q & Hq & Hwq).
    assert (Hql : q < lenN (DFA.states d)) by (apply elem_of_seqN; by apply list_elem_of_lookup_2 in Hq).
    destruct (Himg q w Hql Hwq) as (q' & -> & Hlt & _). done.
Qed.

(** * The cycle test *)

(** C: [compute_is_acyclic] answers whether the transition graph has a cycle. *)
Theorem dfa_compute_is_acyclic_correct (d : DFA.t) :
  DFA.edges_fit d →
  DFA.compute_is_acyclic d = true ↔
  ∀ q, ¬ tc (λ q q', ∃ l, DFA.delta d q l = Some q' ∧ q' < lenN (DFA.states d)) q q.
Proof.
  intros Hfit. unfold DFA.compute_is_acyclic. rewrite is_acyclic_spec by done.
  unfold acyclic. split; intros H q Hq; apply (H q); revert Hq;
    apply (tc_congruence (λ x, x)); intros x y; apply DFAFacts.edge_delta.
Qed.
