(* ===== verification/Nfa.v ===== *)
(** Non-deterministic automata with epsilon edges
    (crates/glrmask-finite-automata/src/automata/unweighted_u32/nfa.rs) and
    their language. *)

From stdpp Require Import relations.
From S2P Require Import Prelude Graph.

Module NFAState.
Record t := mk {
  is_accepting : bool;
  transitions : gmap Z (list N);
  epsilons : list N;
}.

(** [NFAState::default()] *)
Definition default : t := mk false ∅ [].
End NFAState.

Module NFA.
Record t := mk { states : list NFAState.t; start_states : list N }.

Definition new : t := mk [NFAState.default] [0].
Definition new_empty : t := mk [] [].

Definition num_states (a : t) : N := lenN (states a).

Definition add_state (a : t) : t * N :=
  (mk (states a ++ [NFAState.default]) (start_states a), as_u32 (lenN (states a))).

(** [self.states[i]] panics when [i] is not a state. *)
Definition update (a : t) (i : N) (f : NFAState.t → NFAState.t) : option t :=
  match (states a).[i] with
  | None => None
  | Some _ => Some (mk (alterN f (states a) i) (start_states a))
  end.

(** [entry(label).or_default().push(to)] *)
Definition add_transition (a : t) (from : N) (label : Z) (to : N) : option t :=
  update a from (λ st,
    NFAState.mk (NFAState.is_accepting st)
      (<[label := default [] (NFAState.transitions st !! label) ++ [to]]>
         (NFAState.transitions st))
      (NFAState.epsilons st)).

Definition add_epsilon (a : t) (from to : N) : option t :=
  update a from (λ st,
    NFAState.mk (NFAState.is_accepting st) (NFAState.transitions st)
      (NFAState.epsilons st ++ [to])).

Definition set_accepting (a : t) (state : N) : option t :=
  update a state (λ st,
    NFAState.mk true (NFAState.transitions st) (NFAState.epsilons st)).

Definition is_accepting (a : t) (state : N) : bool :=
  match (states a).[state] with Some st => NFAState.is_accepting st | None => false end.

(** [transitions.values().flatten().chain(epsilons)] *)
Definition targets (st : NFAState.t) : list N :=
  concat (label_values (NFAState.transitions st)) ++ NFAState.epsilons st.
Definition adjacency (a : t) : list (list N) := targets <$> states a.

Definition compute_is_acyclic (a : t) : bool := is_acyclic (adjacency a).

(** ** The language of an automaton *)

(** An epsilon edge between states. *)
Definition eps (a : t) (s s' : N) : Prop :=
  ∃ st, (states a).[s] = Some st ∧ s' ∈ NFAState.epsilons st ∧ s' < lenN (states a).

(** The targets of a state under a label. *)
Definition targets_of (a : t) (s : N) (l : Z) : list N :=
  match (states a).[s] with
  | Some st => default [] (NFAState.transitions st !! l)
  | None => []
  end.

(** The states reached by a word from the start states. *)
Inductive reach (a : t) : list Z → N → Prop :=
| reach_start s : s ∈ start_states a → s < lenN (states a) → reach a [] s
| reach_eps w s s' : reach a w s → eps a s s' → reach a w s'
| reach_step w s l s' :
    reach a w s → s' ∈ targets_of a s l → s' < lenN (states a) → reach a (w ++ [l]) s'.

Definition accepts (a : t) (w : list Z) : Prop :=
  ∃ s, reach a w s ∧ is_accepting a s = true.

(** The number of edges fits the [u32] counters of the cycle test. *)
Definition edges_fit (a : t) : Prop := edge_count (adjacency a) < u32_modulus.

(** Every labelled transition leads to a state. *)
Definition transitions_in_range (a : t) : Prop :=
  ∀ s l s', s' ∈ targets_of a s l → s' < lenN (states a).
End NFA.

Module NFAFacts.
Import NFA.

Lemma reach_lt a w s : reach a w s → s < lenN (states a).
Proof. destruct 1 as [| w s s' _ (st & _ & _ & ?) |]; done. Qed.

Lemma edge_spec a s s' :
  edge (adjacency a) s s' ↔
  (eps a s s' ∨ ∃ l, s' ∈ targets_of a s l ∧ s' < lenN (states a)).
Proof.
  unfold edge, adjacency, eps, targets_of. rewrite lenN_fmap, nthN_fmap.
  destruct ((states a).[s]) as [st|] eqn:E; simpl.
  - split.
    + intros (ts & [= <-] & Hin & Hlt). unfold targets in Hin.
      apply elem_of_app in Hin as [Hin|Hin]; [|left; eauto].
      right. apply list_elem_of_In, in_concat in Hin as (ts & Hts & Hin).
      apply list_elem_of_In, elem_of_bt_values in Hts as [l Hl].
      exists l. rewrite Hl. simpl. by rewrite list_elem_of_In.
    + intros H. exists (targets st). split; [done|]. unfold targets.
      rewrite elem_of_app. destruct H as [(st' & [= <-] & Hin & Hlt)|(l & Hin & Hlt)].
      * tauto.
      * split; [left|done]. destruct (NFAState.transitions st !! l) as [ts|] eqn:El;
          simpl in Hin; [|by apply elem_of_nil in Hin].
        apply list_elem_of_In, in_concat. exists ts. rewrite <-!list_elem_of_In.
        split; [|done]. apply elem_of_bt_values. eauto.
  - split.
    + by intros (ts & [=] & _).
    + intros [(st & [=] & _)|(l & Hin & _)]. by apply elem_of_nil in Hin.
Qed.

(** A decision procedure for [transitions_in_range]. *)
Definition transitions_in_range_b (a : t) : bool :=
  forallb (λ st, forallb (λ tr, forallb (λ s', s' <? lenN (states a)) tr.2)
                   (label_iter (NFAState.transitions st))) (states a).

Lemma transitions_in_range_b_spec a :
  transitions_in_range_b a = true → transitions_in_range a.
Proof.
  unfold transitions_in_range_b, transitions_in_range, targets_of. rewrite forallb_forall.
  intros Hall s l s'. destruct ((states a).[s]) as [st|] eqn:E; [|by intros []%elem_of_nil].
  destruct (NFAState.transitions st !! l) as [ts|] eqn:El; simpl; [|by intros []%elem_of_nil].
  intros Hin. assert (Hst : st ∈ states a) by (apply nthN_elem_of; eauto).
  specialize (Hall st (proj1 (list_elem_of_In _ _) Hst)). rewrite forallb_forall in Hall.
  apply (elem_of_bt_iter Z.le) in El. specialize (Hall _ (proj1 (list_elem_of_In _ _) El)).
  rewrite forallb_forall in Hall. apply N.ltb_lt, Hall. by apply list_elem_of_In.
Qed.

Lemma compute_is_acyclic_spec a :
  edges_fit a → compute_is_acyclic a = true ↔ acyclic (adjacency a).
Proof. apply is_acyclic_spec. Qed.
End NFAFacts.
