(* ===== verification/Explore.v ===== *)
(** Worklist constructions of an automaton from structured keys.

    [determinize] (keys are sets of states), [subtract] (keys are pairs) and
    [materialize] (keys are interned nodes) share one shape: a map from keys to
    state numbers, a FIFO worklist, and [get_or_create] that allocates a state
    the first time a key is seen.  This file models that shape and proves once
    that the automaton built accepts what the keys mean, and that the loop
    ends when the keys are finitely many. *)

From S2P Require Import Prelude Graph Dfa.

Section explore.
Context {K : Type} `{Countable K}.
(** The worklist entry of a key and its number. *)
Context {W : Type} (entry : N → K → W).

Record builder := Builder { dfa : DFA.t; ids : gmap K N; worklist : list W }.

(** Return the state of a key, allocating and queueing it when it is new. *)
Definition get_or_create (b : builder) (key : K) : builder * N :=
  match ids b !! key with
  | Some existing => (b, existing)
  | None =>
      let '(d, new_id) := DFA.add_state (dfa b) in
      (Builder d (<[key := new_id]> (ids b)) (worklist b ++ [entry new_id key]), new_id)
  end.

(** [add_transition(from, label, get_or_create(key))] *)
Definition connect (from : N) (b : builder) (edge : Z * K) : builder :=
  let '(b, to) := get_or_create b edge.2 in
  Builder (DFA.add_transition (dfa b) from edge.1 to) (ids b) (worklist b).

(** ** What the keys mean *)

Context (kacc : K → bool) (ksucc : K → list (Z * K)).
Context (ksucc_nodup : ∀ k, NoDup (ksucc k).*1).

(** The successor of a key under a label. *)
Definition key_step (k : K) (l : Z) : option K := bt_collect (ksucc k) !! l.

Fixpoint key_run (k : K) (w : list Z) : option K :=
  match w with
  | [] => Some k
  | l :: w => k' ← key_step k l; key_run k' w
  end.

Definition key_accepts (k : K) (w : list Z) : bool :=
  match key_run k w with Some k' => kacc k' | None => false end.

Lemma key_step_elem k l k' : key_step k l = Some k' ↔ (l, k') ∈ ksucc k.
Proof. apply bt_collect_lookup, ksucc_nodup. Qed.

Lemma key_run_snoc k w l k' :
  key_run k (w ++ [l]) = Some k' ↔ ∃ k1, key_run k w = Some k1 ∧ (l, k') ∈ ksucc k1.
Proof.
  revert k. induction w as [|x w IH]; intros k; simpl.
  - split.
    + intros Hs. exists k. split; [done|]. apply key_step_elem. by destruct (key_step k l).
    + intros (k1 & [= <-] & Hin). apply key_step_elem in Hin. by rewrite Hin.
  - destruct (key_step k x) as [k1|]; simpl; [apply IH|].
    split; [done|]. by intros (k1 & [=] & _).
Qed.

(** ** Invariants *)

(** The worklist entries of the keys in order of discovery. *)
Definition numbered (ks : list K) : list W := imap (λ i k, entry (as_u32 (N.of_nat i)) k) ks.

Lemma length_numbered ks : length (numbered ks) = length ks.
Proof. apply length_imap. Qed.

Lemma numbered_snoc ks k : numbered (ks ++ [k]) = numbered ks ++ [entry (as_u32 (lenN ks)) k].
Proof. unfold numbered. rewrite imap_app. simpl. by rewrite Nat.add_0_r. Qed.

Lemma numbered_lookup ks p k :
  ks !! p = Some k → numbered ks !! p = Some (entry (as_u32 (N.of_nat p)) k).
Proof. intros E. unfold numbered. rewrite list_lookup_imap, E. done. Qed.

Context (start : K).

(** The empty automaton with the state of the start key. *)
Definition init_builder : builder :=
  let '(d, start_id) := DFA.add_state (DFA.mk [] 0) in
  Builder (DFA.mk (DFA.states d) start_id) {[start := start_id]} [entry start_id start].

(** The keys [ks] were discovered in this order and [p] of them were taken
    off the worklist.  This part does not depend on the width of numbers. *)
Record keys_ok (b : builder) (ks : list K) (p : nat) : Prop := {
  ko_start : ks !! 0%nat = Some start;
  ko_nodup : NoDup ks;
  ko_ids : ∀ key i, ids b !! key = Some i ↔ ∃ j, ks.[j] = Some key ∧ i = as_u32 j;
  ko_worklist : worklist b = drop p (numbered ks);
  ko_states : lenN (DFA.states (dfa b)) = lenN ks;
  ko_dfa_start : DFA.start_state (dfa b) = 0;
  ko_reached : ∀ k, k ∈ ks → ∃ w, key_run start w = Some k;
}.

(** State [q] accepts iff [acc], and has exactly the edges [es]. *)
Record row_ok (d : DFA.t) (m : gmap K N) (q : N) (acc : bool) (es : list (Z * K)) : Prop := {
  ro_acc : DFA.accepting d q = acc;
  ro_delta : ∀ l q', DFA.delta d q l = Some q' ↔ ∃ k', (l, k') ∈ es ∧ m !! k' = Some q';
  ro_known : ∀ l k', (l, k') ∈ es → is_Some (m !! k');
}.

(** Every discovered state carries the flag and edges that [prog] gives it. *)
Definition rows_ok (b : builder) (ks : list K) (prog : N → bool * list (Z * K)) : Prop :=
  ∀ q, q < lenN ks → row_ok (dfa b) (ids b) q (prog q).1 (prog q).2.

Definition no_edges (q : N) : bool * list (Z * K) := (false, []).

Lemma get_or_create_ok b ks p key :
  (∃ w, key_run start w = Some key) →
  (p ≤ length ks)%nat →
  keys_ok b ks p →
  ∃ ks', keys_ok (get_or_create b key).1 (ks ++ ks') p ∧
    ids (get_or_create b key).1 !! key = Some (get_or_create b key).2 ∧
    (∀ k i, ids b !! k = Some i → ids (get_or_create b key).1 !! k = Some i) ∧
    (∀ prog, rows_ok b ks prog → (∀ q, lenN ks ≤ q → prog q = no_edges q) →
      lenN (ks ++ ks') ≤ u32_modulus → rows_ok (get_or_create b key).1 (ks ++ ks') prog).
Proof.
  intros Hkey Hp [Hstart Hnd Hids Hwl Hst Hds Hre]. unfold get_or_create.
  destruct (ids b !! key) as [i|] eqn:E.
  - exists []. rewrite app_nil_r. simpl. split; [done|]. split; [done|]. by split; eauto.
  - assert (Hni : key ∉ ks).
    { intros [j Hj]%nthN_elem_of.
      assert (ids b !! key = Some (as_u32 j)) by (apply Hids; eauto). congruence. }
    unfold DFA.add_state. simpl. exists [key].
    split; [|split; [|split]]; simpl.
    + split; simpl.
      * by apply lookup_app_l_Some.
      * apply NoDup_app. split; [done|]. split; [|apply NoDup_singleton].
        intros k Hk ->%list_elem_of_singleton. done.
      * intros k i. rewrite lookup_insert. rewrite Hst. case_decide as Hk; [subst k|].
        -- split.
           ++ intros [= <-]. exists (lenN ks). split; [apply nthN_app_last|done].
           ++ intros (j & Hj & ->). rewrite nthN_snoc in Hj.
              destruct (N.eqb_spec j (lenN ks)) as [Hjl|]; [by rewrite Hjl|].
              exfalso. apply Hni, nthN_elem_of. eauto.
        -- rewrite Hids. split; intros (j & Hj & Hi); exists j; (split; [|done]).
           ++ rewrite nthN_app_l; [done|by eapply nthN_lt].
           ++ rewrite nthN_snoc in Hj. destruct (N.eqb_spec j (lenN ks)); [congruence|done].
      * rewrite numbered_snoc, Hwl, Hst. rewrite drop_app_le; [done|].
        by rewrite length_numbered.
      * rewrite !lenN_snoc. by rewrite Hst.
      * done.
      * intros k [?| ->%list_elem_of_singleton]%elem_of_app; eauto.
    + apply lookup_insert_eq.
    + intros k i Hk. rewrite lookup_insert_ne; [done|congruence].
    + intros prog Hrows Hprog Hfit q Hq. rewrite lenN_snoc in *.
      destruct (decide (q = lenN ks)) as [Hqeq|Hne]; [subst q|].
      * rewrite Hprog by lia.
        assert (Hrow : (DFA.states (dfa b) ++ [DFAState.default]).[lenN ks] =
                  Some DFAState.default) by (rewrite <-Hst; apply nthN_app_last).
        split; simpl.
        -- unfold DFA.accepting. simpl. by rewrite Hrow.
        -- intros l q'. unfold DFA.delta. simpl. rewrite Hrow. simpl.
           rewrite lookup_empty. split; [done|].
           by intros (k' & []%elem_of_nil & _).
        -- by intros l k' []%elem_of_nil.
      * destruct (Hrows q) as [Hacc Hdelta Hknown]; [lia|].
        assert (Hrow : (DFA.states (dfa b) ++ [DFAState.default]).[q] =
                  (DFA.states (dfa b)).[q]) by (apply nthN_app_l; lia).
        split; simpl.
        -- rewrite <-Hacc. unfold DFA.accepting. simpl. by rewrite Hrow.
        -- intros l q'. trans (DFA.delta (dfa b) q l = Some q');
             [unfold DFA.delta; simpl; by rewrite Hrow|]. rewrite Hdelta.
           split; intros (k' & Hin & Hk'); exists k'; (split; [done|]).
           ++ rewrite lookup_insert_ne; [done|congruence].
           ++ rewrite lookup_insert_ne in Hk'; [done|].
              intros <-. destruct (Hknown _ _ Hin). congruence.
        -- intros l k' Hin. destruct (Hknown l k' Hin) as [i Hi].
           exists i. rewrite lookup_insert_ne; [done|congruence].
Qed.

Lemma connect_keys_ok from b ks p l key :
  (∃ w, key_run start w = Some key) → (p ≤ length ks)%nat → keys_ok b ks p →
  ∃ ks', keys_ok (connect from b (l, key)) (ks ++ ks') p ∧
    ∀ prog es, rows_ok b ks prog → (∀ q, lenN ks ≤ q → prog q = no_edges q) →
      from < lenN ks → (prog from).2 = es → l ∉ es.*1 →
      lenN (ks ++ ks') ≤ u32_modulus →
      rows_ok (connect from b (l, key)) (ks ++ ks')
        (λ q, if q =? from then ((prog from).1, es ++ [(l, key)]) else prog q).
Proof.
  intros Hkey Hp Hok.
  destruct (get_or_create_ok b ks p key Hkey Hp Hok) as (ks' & Hok' & Hid & Hmono & Hrows).
  exists ks'. unfold connect. simpl.
  destruct (get_or_create b key) as [b1 to] eqn:E. simpl in *. split.
  - destruct Hok' as [? ? ? ? Hst ? ?]. split; simpl; try done.
    by rewrite lenN_alterN.
  - intros prog es Hr Hprog Hfrom Hes Hl Hfit q Hq.
    destruct (Hrows prog Hr Hprog Hfit q Hq) as [Hacc Hdelta Hknown].
    assert (Hfrom' : from < lenN (DFA.states (dfa b1))).
    { rewrite (ko_states _ _ _ Hok'), lenN_app. lia. }
    split; simpl.
    + rewrite DFAFacts.accepting_add_transition, Hacc.
      by destruct (N.eqb_spec q from) as [->|].
    + intros l' q'. rewrite DFAFacts.delta_add_transition.
      destruct (N.eqb_spec q from) as [->|Hne]; simpl.
      * destruct (decide (from = from ∧ l' = l ∧ _)) as [(_ & -> & _)|Hn].
        -- split.
           ++ intros [= <-]. exists key. split; [|done]. apply elem_of_app. right. by left.
           ++ intros (k' & [Hin|[= ->]%list_elem_of_singleton]%elem_of_app & Hk');
                [|congruence].
              exfalso. apply Hl. by apply (list_elem_of_fmap_2 fst) in Hin.
        -- rewrite Hdelta, Hes. split; intros (k' & Hin & Hk'); exists k'; (split; [|done]).
           ++ apply elem_of_app. by left.
           ++ apply elem_of_app in Hin as [|[= -> ->]%list_elem_of_singleton]; [done|].
              by destruct Hn.
      * rewrite decide_False by naive_solver. apply Hdelta.
    + intros l' k' Hin. destruct (N.eqb_spec q from) as [->|Hne]; simpl in Hin; [|eauto].
      apply elem_of_app in Hin as [Hin|[= -> ->]%list_elem_of_singleton]; [|eauto].
      rewrite <-Hes in Hin. eauto.
Qed.

(** What is known of the state of every index once [p] keys are processed. *)
Definition prog_at (ks : list K) (p : nat) (q : N) : bool * list (Z * K) :=
  if q <? N.of_nat p then
    match ks.[q] with Some k => (kacc k, ksucc k) | None => no_edges q end
  else no_edges q.

Lemma prog_at_app ks ks' p q : (p ≤ length ks)%nat → prog_at (ks ++ ks') p q = prog_at ks p q.
Proof.
  intros Hp. unfold prog_at. destruct (N.ltb_spec q (N.of_nat p)); [|done].
  rewrite nthN_app_l; [done|]. unfold lenN. lia.
Qed.

Lemma prog_at_out ks p q : (p ≤ length ks)%nat → lenN ks ≤ q → prog_at ks p q = no_edges q.
Proof.
  intros Hp Hq. unfold prog_at. destruct (N.ltb_spec q (N.of_nat p)); [|done].
  unfold lenN in Hq. lia.
Qed.

Lemma rows_ok_ext b ks prog prog' :
  (∀ q, q < lenN ks → prog q = prog' q) → rows_ok b ks prog → rows_ok b ks prog'.
Proof. intros Heq Hr q Hq. rewrite <-Heq by done. by apply Hr. Qed.

Definition explore_inv (b : builder) (ks : list K) (p : nat) : Prop :=
  keys_ok b ks p ∧ (p ≤ length ks)%nat ∧
  (lenN ks ≤ u32_modulus → rows_ok b ks (prog_at ks p)).

(** Processing the key at the head of the worklist: its state is given its
    flag ([d1]) and its edges in order. *)
Lemma process_ok b ks p k d1 :
  explore_inv b ks p → ks !! p = Some k →
  lenN (DFA.states d1) = lenN (DFA.states (dfa b)) →
  DFA.start_state d1 = DFA.start_state (dfa b) →
  (∀ q l, DFA.delta d1 q l = DFA.delta (dfa b) q l) →
  (lenN ks ≤ u32_modulus → DFA.accepting (dfa b) (N.of_nat p) = false →
    ∀ q, q < lenN ks → DFA.accepting d1 q =
      if q =? N.of_nat p then kacc k else DFA.accepting (dfa b) q) →
  let b1 := Builder d1 (ids b) (drop (S p) (numbered ks)) in
  ∃ ks', explore_inv (foldl (connect (as_u32 (N.of_nat p))) b1 (ksucc k)) (ks ++ ks') (S p).
Proof.
  intros (Hok & Hp & Hrows) Hk Hlen Hstart Hdelta Hacc b1.
  assert (Hlt : (p < length ks)%nat) by by apply lookup_lt_Some in Hk.
  assert (Hkw : ∃ w, key_run start w = Some k)
    by (apply (ko_reached _ _ _ Hok); by apply list_elem_of_lookup_2 in Hk).
  assert (Hok1 : keys_ok b1 ks (S p)) by (destruct Hok; split; simpl; try done; congruence).
  set (prog pre := λ q, if q =? N.of_nat p then (kacc k, pre) else prog_at ks p q).
  assert (Hout : ∀ pre q, lenN ks ≤ q → prog pre q = no_edges q).
  { intros pre q Hq. unfold prog. destruct (N.eqb_spec q (N.of_nat p)) as [->|].
    - unfold lenN in Hq. lia.
    - by apply prog_at_out. }
  assert (Hfold : ∃ ks',
      keys_ok (foldl (connect (as_u32 (N.of_nat p))) b1 (ksucc k)) (ks ++ ks') (S p) ∧
      (lenN (ks ++ ks') ≤ u32_modulus →
       rows_ok (foldl (connect (as_u32 (N.of_nat p))) b1 (ksucc k)) (ks ++ ks')
         (prog (ksucc k)))).
  { apply (foldl_inv_prefix (λ pre b, ∃ ks', keys_ok b (ks ++ ks') (S p) ∧
      (lenN (ks ++ ks') ≤ u32_modulus → rows_ok b (ks ++ ks') (prog pre)))).
    - intros pre [l key] b' [suf Hsuf] (ks' & Hok' & Hrows').
      destruct (connect_keys_ok (as_u32 (N.of_nat p)) b' (ks ++ ks') (S p) l key)
        as (ks'' & Hok'' & Hrows''); [|rewrite length_app; lia|done|].
      { destruct Hkw as [w Hw]. exists (w ++ [l]). apply key_run_snoc. exists k.
        split; [done|]. rewrite Hsuf. apply elem_of_app. right. by left. }
      exists (ks' ++ ks''). rewrite app_assoc. split; [done|]. intros Hfit.
      assert (Hfit' : lenN (ks ++ ks') ≤ u32_modulus) by (rewrite !lenN_app in *; lia).
      assert (Hpid : as_u32 (N.of_nat p) = N.of_nat p).
      { apply as_u32_small. rewrite lenN_app in Hfit'. unfold lenN in Hfit'. lia. }
      rewrite Hpid in *.
      eapply rows_ok_ext; [|apply (Hrows'' (prog pre) pre); [by apply Hrows'| | | | |done]].
      + intros q _. unfold prog. simpl. rewrite N.eqb_refl.
        by destruct (N.eqb_spec q (N.of_nat p)).
      + intros q Hq. apply Hout. rewrite lenN_app in Hq. lia.
      + rewrite lenN_app. unfold lenN. lia.
      + unfold prog. by rewrite N.eqb_refl.
      + pose proof (ksucc_nodup k) as Hnd. rewrite Hsuf, fmap_app in Hnd. simpl in Hnd.
        apply NoDup_app in Hnd as (_ & Hdis & _). intros Hin. apply (Hdis l Hin). by left.
    - exists []. rewrite app_nil_r. split; [done|]. intros Hfit q Hq.
      destruct (Hrows Hfit q Hq) as [Ha Hd Hkn].
      assert (Hpacc : DFA.accepting (dfa b) (N.of_nat p) = false).
      { destruct (Hrows Hfit (N.of_nat p)) as [Ha' _ _]; [unfold lenN; lia|].
        rewrite Ha'. unfold prog_at. by rewrite N.ltb_irrefl. }
      unfold prog. split; simpl.
      + rewrite Hacc by done. destruct (N.eqb_spec q (N.of_nat p)); [done|]. by rewrite Ha.
      + intros l q'. rewrite Hdelta, Hd. destruct (N.eqb_spec q (N.of_nat p)) as [->|]; [|done].
        unfold prog_at. by rewrite N.ltb_irrefl.
      + intros l k'. destruct (N.eqb_spec q (N.of_nat p)) as [->|]; [|apply Hkn].
        by intros []%elem_of_nil. }
  destruct Hfold as (ks' & Hok' & Hrows'). exists ks'.
  split; [done|]. split; [rewrite length_app; lia|].
  intros Hfit. eapply rows_ok_ext; [|by apply Hrows'].
  intros q Hq. unfold prog, prog_at.
  destruct (N.eqb_spec q (N.of_nat p)) as [->|Hne].
  - rewrite (proj2 (N.ltb_lt _ _)) by lia.
    by rewrite nthN_of_nat, (lookup_app_l_Some _ _ _ _ Hk).
  - destruct (N.ltb_spec q (N.of_nat p)) as [Hlt'|Hge'].
    + rewrite (proj2 (N.ltb_lt _ _)) by lia. rewrite nthN_app_l; [done|]. unfold lenN. lia.
    + rewrite (proj2 (N.ltb_ge _ _)) by lia. done.
Qed.

Lemma explore_inv_init : explore_inv init_builder [start] 0.
Proof.
  split; [|split; [simpl; lia|]].
  - split; simpl; try done.
    + apply NoDup_singleton.
    + intros key i. change (as_u32 (lenN [])) with 0. rewrite lookup_singleton_Some. split.
      * intros [-> <-]. by exists 0.
      * intros (j & Hj & ->). destruct (N.eqb_spec j 0) as [Hj0|]; [|done].
        injection Hj as ->. by rewrite Hj0.
    + intros k ->%list_elem_of_singleton. by exists [].
  - intros _ q Hq. assert (q = 0) as -> by (unfold lenN in Hq; simpl in Hq; lia).
    split; simpl; [done| |].
    + intros l q'. unfold DFA.delta. simpl. rewrite lookup_empty. split; [done|].
      by intros (k' & []%elem_of_nil & _).
    + by intros l k' []%elem_of_nil.
Qed.

Lemma explore_head b ks p w rest :
  keys_ok b ks p → worklist b = w :: rest →
  ∃ k, ks !! p = Some k ∧ w = entry (as_u32 (N.of_nat p)) k ∧ rest = drop (S p) (numbered ks).
Proof.
  intros Hok Hwl. rewrite (ko_worklist _ _ _ Hok) in Hwl.
  destruct (ks !! p) as [k|] eqn:E.
  - rewrite (drop_S _ _ _ (numbered_lookup _ _ _ E)) in Hwl. injection Hwl as <- <-. eauto.
  - rewrite drop_ge in Hwl; [done|]. rewrite length_numbered. by apply lookup_ge_None.
Qed.

(** The loop discovers at most as many keys as are reachable. *)
Lemma explore_bound b ks p (univ : list K) :
  explore_inv b ks p → (∀ k w, key_run start w = Some k → k ∈ univ) →
  (p ≤ length ks ≤ length univ)%nat.
Proof.
  intros (Hok & Hp & _) Huniv. split; [done|].
  apply submseteq_length, NoDup_submseteq; [apply (ko_nodup _ _ _ Hok)|].
  intros k Hk. destruct (ko_reached _ _ _ Hok k Hk) as [w Hw]. eauto.
Qed.

(** With an empty worklist, every key has its flag and its edges. *)
Lemma explore_complete b ks p :
  explore_inv b ks p → worklist b = [] → lenN (DFA.states (dfa b)) ≤ u32_modulus →
  ∀ q k, ids b !! k = Some q → row_ok (dfa b) (ids b) q (kacc k) (ksucc k).
Proof.
  intros (Hok & Hp & Hrows) Hwl Hfit q k Hq.
  rewrite (ko_states _ _ _ Hok) in Hfit.
  assert (Hpl : (length ks ≤ p)%nat).
  { rewrite (ko_worklist _ _ _ Hok) in Hwl. apply (f_equal length) in Hwl.
    rewrite length_drop, length_numbered in Hwl. simpl in Hwl. lia. }
  apply (ko_ids _ _ _ Hok) in Hq as (j & Hj & ->).
  pose proof (nthN_lt _ _ _ Hj) as Hjl. rewrite as_u32_small by lia.
  specialize (Hrows Hfit j Hjl). unfold prog_at in Hrows.
  rewrite (proj2 (N.ltb_lt _ _)), Hj in Hrows by (unfold lenN in Hjl; lia). done.
Qed.

Lemma explore_start_id b ks p : keys_ok b ks p → ids b !! start = Some 0.
Proof.
  intros Hok. apply (ko_ids _ _ _ Hok). exists 0. split; [|done].
  rewrite nthN_lookup. apply (ko_start _ _ _ Hok).
Qed.

(** Every reachable key has a state. *)
Lemma explore_known b ks p w k :
  explore_inv b ks p → worklist b = [] → lenN (DFA.states (dfa b)) ≤ u32_modulus →
  key_run start w = Some k → is_Some (ids b !! k).
Proof.
  intros Hinv Hwl Hfit. pose proof (explore_complete b ks p Hinv Hwl Hfit) as Hrow.
  revert k. induction w as [|l w IH] using rev_ind; intros k.
  - intros [= <-]. exists 0. by apply (explore_start_id b ks p), Hinv.
  - intros (k2 & Hk2 & Hin)%key_run_snoc. destruct (IH k2 Hk2) as [q2 Hq2].
    apply (ro_known _ _ _ _ _ (Hrow q2 k2 Hq2) _ _ Hin).
Qed.

(** The automaton follows the keys word by word. *)
Lemma explore_run b ks p w q :
  explore_inv b ks p → worklist b = [] → lenN (DFA.states (dfa b)) ≤ u32_modulus →
  DFA.run_from (dfa b) 0 w = Some q ↔ ∃ k, key_run start w = Some k ∧ ids b !! k = Some q.
Proof.
  intros Hinv Hwl Hfit. pose proof (explore_complete b ks p Hinv Hwl Hfit) as Hrow.
  revert q. induction w as [|l w IH] using rev_ind; intros q; simpl.
  - pose proof (explore_start_id b ks p (proj1 Hinv)) as Hs.
    split; [intros [= <-]; eauto|]. intros (k & [= <-] & Hk). congruence.
  - rewrite DFAFacts.run_from_app. setoid_rewrite key_run_snoc. split.
    + intros (q1 & (k1 & Hk1 & Hid1)%IH & (q2 & Ed & [= ->])%bind_Some)%bind_Some.
      apply (ro_delta _ _ _ _ _ (Hrow q1 k1 Hid1)) in Ed as (k' & Hin & Hid).
      exists k'. eauto.
    + intros (k' & (k1 & Hk1 & Hin) & Hid).
      destruct (ids b !! k1) as [q1|] eqn:Hid1.
      * rewrite (proj2 (IH q1)) by eauto. simpl.
        assert (DFA.delta (dfa b) q1 l = Some q) as ->; [|done].
        apply (ro_delta _ _ _ _ _ (Hrow q1 k1 Hid1)). eauto.
      * exfalso. destruct (explore_known b ks p w k1 Hinv Hwl Hfit Hk1). congruence.
Qed.

Lemma explore_accepts b ks p w :
  explore_inv b ks p → worklist b = [] → lenN (DFA.states (dfa b)) ≤ u32_modulus →
  DFA.accepts (dfa b) w = key_accepts start w.
Proof.
  intros Hinv Hwl Hfit. unfold DFA.accepts, DFA.accepts_from, key_accepts.
  rewrite (ko_dfa_start _ _ _ (proj1 Hinv)).
  pose proof (λ q, explore_run b ks p w q Hinv Hwl Hfit) as Hrun.
  pose proof (explore_complete b ks p Hinv Hwl Hfit) as Hrow.
  destruct (DFA.run_from (dfa b) 0 w) as [q|] eqn:Eq.
  - destruct (proj1 (Hrun q) eq_refl) as (k & -> & Hid).
    apply (ro_acc _ _ _ _ _ (Hrow q k Hid)).
  - destruct (key_run start w) as [k|] eqn:Ek; [|done]. exfalso.
    destruct (explore_known b ks p w k Hinv Hwl Hfit Ek) as [q Hq].
    enough (None = Some q) by done. apply Hrun. eauto.
Qed.
End explore.
