(* ===== verification/Determinize.v ===== *)
(** Subset construction
    (crates/glrmask-finite-automata/src/automata/unweighted_u32/determinize.rs):
    the epoch-marked epsilon closure, and the worklist over sorted subsets. *)

From stdpp Require Import relations.
From S2P Require Import Prelude Graph Dfa Nfa Explore.

(** * The reusable scratch of the epsilon closure *)

Module ClosureScratch.
(** [stack] is kept top first; the other vectors in source order. *)
Record t := mk {
  marks : list N;
  epoch : N;
  stack : list N;
  touched : list N;
}.

Definition new (num_states : nat) : t := mk (replicate num_states 0) 0 [] [].

(** The epoch is a [u32]: when it wraps to zero the marks are erased. *)
Definition next_epoch (sc : t) : t :=
  let epoch := u32_wrapping_add (epoch sc) 1 in
  if epoch =? 0 then mk (replicate (length (marks sc)) 0) 1 (stack sc) (touched sc)
  else mk (marks sc) epoch (stack sc) (touched sc).

(** The body shared by the loop over the seeds and the loop over epsilon
    targets: skip indices that are no state or already marked. *)
Definition visit (sc : t) (target : N) : t :=
  match (marks sc).[target] with
  | None => sc
  | Some mark =>
      if mark =? epoch sc then sc
      else mk (alterN (λ _, epoch sc) (marks sc) target) (epoch sc)
             (target :: stack sc) (touched sc ++ [target])
  end.

Definition epsilons_of (nfa : NFA.t) (s : N) : list N :=
  match (NFA.states nfa).[s] with Some st => NFAState.epsilons st | None => [] end.

Definition closure_step (nfa : NFA.t) (sc : t) : t + t :=
  match stack sc with
  | [] => inr sc
  | state :: stack =>
      inl (foldl visit (mk (marks sc) (epoch sc) stack (touched sc)) (epsilons_of nfa state))
  end.

Definition epsilon_closure (sc : t) (nfa : NFA.t) (seeds : list N) : option (t * list N) :=
  let sc := next_epoch (mk (marks sc) (epoch sc) [] []) in
  let sc := foldl visit sc seeds in
  match run (closure_step nfa) (S (length (marks sc))) sc with
  | inl _ => None
  | inr sc =>
      let key := sort_N (touched sc) in
      Some (mk (marks sc) (epoch sc) (stack sc) key, key)
  end.

(** Between two closures: marks of earlier epochs only. *)
Definition ok (n : nat) (sc : t) : Prop :=
  length (marks sc) = n ∧ ∀ i m, (marks sc).[i] = Some m → m ≤ epoch sc < u32_modulus.

(** The states an epsilon closure must contain. *)
Definition closure (nfa : NFA.t) (seeds : list N) (s : N) : Prop :=
  ∃ seed, seed ∈ seeds ∧ seed < lenN (NFA.states nfa) ∧ rtc (NFA.eps nfa) seed s.
End ClosureScratch.

Module ClosureFacts.
Import ClosureScratch.

Lemma new_ok n : ok n (new n).
Proof.
  split; simpl; [apply length_replicate|]. intros i m. rewrite nthN_replicate.
  case_match; [|done]. by intros [= <-].
Qed.

Lemma next_epoch_ok n sc :
  ok n sc → ok n (next_epoch sc) ∧ ∀ i, (marks (next_epoch sc)).[i] ≠ Some (epoch (next_epoch sc)).
Proof.
  intros [Hlen Hm]. unfold next_epoch.
  assert (Hrep : ∀ i m, (replicate (length (marks sc)) 0).[i] = Some m → m = 0).
  { intros i m. rewrite nthN_replicate. case_match; [|done]. by intros [= <-]. }
  destruct (N.eqb_spec (u32_wrapping_add (epoch sc) 1) 0) as [H0|H0]; simpl.
  - split; [split; simpl; [by rewrite length_replicate|]|].
    + intros i m Hi%Hrep. subst. unfold u32_modulus. lia.
    + intros i Hi%Hrep. done.
  - assert (Hep : marks sc = [] ∨ u32_wrapping_add (epoch sc) 1 = epoch sc + 1).
    { destruct (marks sc) as [|m ms] eqn:E; [by left|right].
      assert (epoch sc < u32_modulus) as Hlt by by apply (Hm 0 m).
      destruct (decide (epoch sc + 1 < u32_modulus)); [by apply u32_wrapping_add_small|].
      exfalso. apply H0. unfold u32_wrapping_add.
      replace (epoch sc + 1) with u32_modulus by lia. done. }
    assert (Hlt : u32_wrapping_add (epoch sc) 1 < u32_modulus) by by apply N.mod_lt.
    split; [split; simpl; [done|]|].
    + intros i m Hi. destruct Hep as [Hnil|Heq]; [by rewrite Hnil in Hi|].
      specialize (Hm i m Hi). lia.
    + intros i Hi. destruct Hep as [Hnil|Heq]; [by rewrite Hnil in Hi|].
      specialize (Hm i _ Hi). lia.
Qed.

(** During a closure: the touched states are the marked ones, and satisfy
    [P] (they belong to the closure). *)
Record scan_ok (n : nat) (P : N → Prop) (sc : t) : Prop := {
  so_ok : ok n sc;
  so_marked : ∀ i, (marks sc).[i] = Some (epoch sc) ↔ i ∈ touched sc;
  so_nodup : NoDup (touched sc);
  so_stack : ∀ i, i ∈ stack sc → i ∈ touched sc;
  so_sound : ∀ i, i ∈ touched sc → P i;
}.

(** [sc'] extends [sc] by newly touched states, all of them on the stack. *)
Record extends (sc sc' : t) : Prop := {
  ex_touched : ∀ i, i ∈ touched sc → i ∈ touched sc';
  ex_stack : ∀ i, i ∈ stack sc → i ∈ stack sc';
  ex_new : ∀ i, i ∈ touched sc' → i ∈ touched sc ∨ i ∈ stack sc';
  ex_count : (length (touched sc') + length (stack sc) =
              length (touched sc) + length (stack sc'))%nat;
  ex_marks : length (marks sc') = length (marks sc);
}.

Lemma extends_refl sc : extends sc sc.
Proof. split; auto. Qed.

Lemma extends_trans sc sc' sc'' : extends sc sc' → extends sc' sc'' → extends sc sc''.
Proof.
  intros [Ht1 Hs1 Hn1 Hc1 Hm1] [Ht2 Hs2 Hn2 Hc2 Hm2]. split; auto; [|lia|congruence].
  intros i [Hi|Hi]%Hn2; [|auto]. destruct (Hn1 i Hi); auto.
Qed.

Lemma visit_ok n P sc target :
  scan_ok n P sc → (target < N.of_nat n → P target) →
  scan_ok n P (visit sc target) ∧ extends sc (visit sc target) ∧
  (target < N.of_nat n → target ∈ touched (visit sc target)).
Proof.
  intros Hsc HP. pose proof Hsc as [[Hlen Hm] Hmk Hnd Hst Hso]. unfold visit.
  destruct ((marks sc).[target]) as [mark|] eqn:E.
  - destruct (N.eqb_spec mark (epoch sc)) as [->|Hne].
    + split; [done|]. split; [apply extends_refl|]. intros _. by apply Hmk.
    + assert (Hni : target ∉ touched sc) by (rewrite <-Hmk, E; congruence).
      assert (Hlt : target < N.of_nat n) by (apply nthN_lt in E; unfold lenN in E; lia).
      split; [|split]; simpl.
      * split; simpl.
        -- split; simpl; [by rewrite length_alterN|]. intros i m.
           rewrite nthN_alterN. destruct (N.eqb_spec i target) as [->|]; [|apply Hm].
           rewrite E. simpl. intros [= <-]. destruct (Hm target mark E). lia.
        -- intros i. rewrite nthN_alterN, elem_of_app, list_elem_of_singleton, <-Hmk.
           destruct (N.eqb_spec i target) as [->|]; [|tauto]. rewrite E. simpl. tauto.
        -- apply NoDup_app. split; [done|]. split; [|apply NoDup_singleton].
           by intros i Hi ->%list_elem_of_singleton.
        -- intros i [->|Hi]%elem_of_cons; apply elem_of_app; [right; by left|left; auto].
        -- intros i [Hi| ->%list_elem_of_singleton]%elem_of_app; auto.
      * split; simpl.
        -- intros i Hi. apply elem_of_app. by left.
        -- intros i Hi. by right.
        -- intros i [Hi| ->%list_elem_of_singleton]%elem_of_app; [by left|right; by left].
        -- rewrite length_app. simpl. lia.
        -- apply length_alterN.
      * intros _. apply elem_of_app. right. by left.
  - split; [done|]. split; [apply extends_refl|]. intros Hlt.
    apply nthN_None in E. unfold lenN in E. lia.
Qed.

Lemma visit_all_ok n P sc targets :
  scan_ok n P sc → (∀ t, t ∈ targets → t < N.of_nat n → P t) →
  scan_ok n P (foldl visit sc targets) ∧ extends sc (foldl visit sc targets) ∧
  ∀ t, t ∈ targets → t < N.of_nat n → t ∈ touched (foldl visit sc targets).
Proof.
  revert sc. induction targets as [|t ts IH]; intros sc Hsc HP; simpl.
  - split; [done|]. split; [apply extends_refl|]. by intros t []%elem_of_nil.
  - destruct (visit_ok n P sc t Hsc) as (Hsc' & Hex & Ht); [by apply HP; left|].
    destruct (IH (visit sc t) Hsc') as (Hsc'' & Hex' & Hts); [intros; apply HP; [by right|done]|].
    split; [done|]. split; [by eapply extends_trans|].
    intros u [->|Hu]%elem_of_cons Hlt; [|by apply Hts].
    apply (ex_touched _ _ Hex'). by apply Ht.
Qed.
End ClosureFacts.

Module ClosureSpec.
Import ClosureScratch ClosureFacts.

Section closure.
Context (nfa : NFA.t) (seeds : list N).
Abbreviation n := (length (NFA.states nfa)).
Abbreviation P := (closure nfa seeds).

Lemma eps_epsilons_of s s' :
  NFA.eps nfa s s' ↔ s' ∈ epsilons_of nfa s ∧ s' < lenN (NFA.states nfa).
Proof.
  unfold NFA.eps, epsilons_of. destruct ((NFA.states nfa).[s]) as [st|]; [naive_solver|].
  rewrite elem_of_nil. naive_solver.
Qed.

(** Touched states off the stack have their epsilon successors touched. *)
Definition closure_inv (sc : t) (m : nat) : Prop :=
  scan_ok n P sc ∧
  (∀ s, s ∈ seeds → s < N.of_nat n → s ∈ touched sc) ∧
  (∀ i j, i ∈ touched sc → i ∉ stack sc → NFA.eps nfa i j → j ∈ touched sc) ∧
  m = (n - length (touched sc) + length (stack sc))%nat.

Lemma touched_bound sc : scan_ok n P sc → (length (touched sc) ≤ n)%nat.
Proof.
  intros [[Hlen _] Hmk Hnd _ _]. rewrite <-Hlen. apply NoDup_bounded_length; [done|].
  intros i Hi%Hmk%nthN_lt. done.
Qed.

Lemma closure_step_inv sc sc' m :
  closure_inv sc m → closure_step nfa sc = inl sc' → ∃ m', closure_inv sc' m' ∧ (m' < m)%nat.
Proof.
  intros (Hsc & Hseeds & Hclosed & ->). unfold closure_step.
  destruct (stack sc) as [|s rest] eqn:Est; [done|]. intros [= <-].
  set (sc0 := mk (marks sc) (epoch sc) rest (touched sc)).
  assert (Hs : s ∈ touched sc) by (apply (so_stack _ _ _ Hsc); rewrite Est; by left).
  assert (Hsc0 : scan_ok n P sc0).
  { destruct Hsc as [? ? ? Hst ?]. split; try done. simpl.
    intros i Hi. apply Hst. rewrite Est. by right. }
  destruct (visit_all_ok n P sc0 (epsilons_of nfa s) Hsc0) as (Hsc1 & Hex & Hvis).
  { intros t Ht Hlt. destruct (so_sound _ _ _ Hsc s Hs) as (seed & ? & ? & Hr).
    exists seed. split; [done|]. split; [done|]. eapply rtc_r; [exact Hr|].
    apply eps_epsilons_of. done. }
  eexists. split; [split; [exact Hsc1|split; [|split; [|reflexivity]]]|].
  - intros i Hi Hlt. apply (ex_touched _ _ Hex). simpl. auto.
  - intros i j Hi Hni Hij. destruct (ex_new _ _ Hex i Hi) as [Hi0|]; [|done]. simpl in Hi0.
    destruct (decide (i = s)) as [->|Hne].
    + apply eps_epsilons_of in Hij as [Hij Hlt]. by apply Hvis.
    + apply (ex_touched _ _ Hex). simpl. apply (Hclosed i); [done| |done].
      rewrite elem_of_cons. intros [?|Hin]; [done|].
      apply Hni, (ex_stack _ _ Hex). done.
  - pose proof (ex_count _ _ Hex) as Hc. pose proof (touched_bound _ Hsc1).
    pose proof (touched_bound _ Hsc). simpl in *. lia.
Qed.

(** The closure ends, keeps the scratch reusable, and returns the sorted
    vector of exactly the states reachable by epsilon edges. *)
Lemma epsilon_closure_spec sc :
  ok n sc →
  ∃ sc' key, epsilon_closure sc nfa seeds = Some (sc', key) ∧ ok n sc' ∧
    strictly_sorted key ∧ ∀ s, s ∈ key ↔ closure nfa seeds s.
Proof.
  intros Hok. unfold epsilon_closure.
  destruct (next_epoch_ok n (mk (marks sc) (epoch sc) [] [])) as [Hok0 Hfresh]; [done|].
  set (sc0 := next_epoch _) in *.
  assert (stack sc0 = [] ∧ touched sc0 = []) as [Hst Hto].
  { unfold sc0, next_epoch. by case_match. }
  assert (Hsc0 : scan_ok n P sc0).
  { split; rewrite ?Hst, ?Hto; [done| |constructor|set_solver|set_solver].
    intros i. split; [by intros ?%Hfresh|by intros []%elem_of_nil]. }
  destruct (visit_all_ok n P sc0 seeds Hsc0) as (Hsc1 & Hex & Hvis).
  { intros t Ht Hlt. exists t. split; [done|]. split; [done|]. apply rtc_refl. }
  set (sc1 := foldl visit sc0 seeds) in *.
  assert (Hlen1 : length (marks sc1) = n) by (apply (so_ok _ _ _ Hsc1)).
  destruct (run_terminates (closure_step nfa) closure_inv (S (length (marks sc1))) sc1 n)
    as (r & sc2 & m & Hrun & (Hsc2 & Hseeds & Hclosed & _) & Hexit).
  - apply closure_step_inv.
  - split; [done|]. split; [done|]. split.
    + intros i j Hi Hni. destruct (ex_new _ _ Hex i Hi) as [Hi0|]; [|done].
      rewrite Hto in Hi0. by apply elem_of_nil in Hi0.
    + pose proof (ex_count _ _ Hex) as Hc. rewrite Hst, Hto in Hc. simpl in Hc.
      pose proof (touched_bound _ Hsc1). lia.
  - rewrite Hlen1. pose proof (pow2_S_gt n). lia.
  - rewrite Hrun. unfold closure_step in Hexit.
    destruct (stack sc2) eqn:Est; [|done]. injection Hexit as <-.
    eexists _, _. split; [done|]. split; [apply Hsc2|].
    split; [apply strictly_sorted_sort_N, Hsc2|].
    intros s. rewrite elem_of_sort_N. split; [apply Hsc2|].
    intros (seed & Hseed & Hlt & Hr). specialize (Hseeds seed Hseed Hlt).
    clear Hseed Hlt. induction Hr as [x|x y z Hxy _ IH]; [done|].
    apply IH, (Hclosed x); [done| |done]. apply not_elem_of_nil.
Qed.
End closure.
End ClosureSpec.

(** * The subset construction *)

Abbreviation subset_builder := (builder (K := list N) (W := N * list N)).

Section determinize.
Context (nfa : NFA.t).

(** The states of the subset are indexed directly. *)
Definition subset_is_accepting (subset : list N) : bool :=
  existsb (NFA.is_accepting nfa) subset.

Definition transitions_of (s : N) : list (Z * list N) :=
  match (NFA.states nfa).[s] with
  | Some st => label_iter (NFAState.transitions st)
  | None => []
  end.

(** Append the targets of one transition to the bucket of its label; the
    label is touched when its bucket was empty. *)
Definition bucket_add (acc : gmap Z (list N) * list Z) (tr : Z * list N)
    : gmap Z (list N) * list Z :=
  let '(label_targets, touched) := acc in
  let '(label, targets) := tr in
  match targets with
  | [] => (label_targets, touched)
  | _ =>
      let bucket := default [] (label_targets !! label) in
      (<[label := bucket ++ targets]> label_targets,
       match bucket with [] => touched ++ [label] | _ => touched end)
  end.

Definition collect_targets (label_targets : gmap Z (list N)) (subset_key : list N)
    : gmap Z (list N) * list Z :=
  foldl (λ acc s, foldl bucket_add acc (transitions_of s)) (label_targets, []) subset_key.

(** The key of the raw targets: a single state without epsilon edges is its
    own key.  Indexing that state panics when it is no state. *)
Definition next_key (closure : ClosureScratch.t) (raw_targets : list N)
    : option (ClosureScratch.t * list N) :=
  match raw_targets with
  | [target] =>
      match (NFA.states nfa).[target] with
      | None => None
      | Some st =>
          match NFAState.epsilons st with
          | [] => Some (closure, raw_targets)
          | _ => ClosureScratch.epsilon_closure closure nfa raw_targets
          end
      end
  | _ => ClosureScratch.epsilon_closure closure nfa raw_targets
  end.

Definition subset_entry (id : N) (key : list N) : N * list N := (id, key).

Definition link_label (dfa_state : N) (label_targets : gmap Z (list N))
    (acc : ClosureScratch.t * subset_builder) (label : Z)
    : option (ClosureScratch.t * subset_builder) :=
  let '(closure, b) := acc in
  match default [] (label_targets !! label) with
  | [] => Some (closure, b)
  | raw_targets =>
      '(closure, key) ← next_key closure raw_targets;
      match key with
      | [] => Some (closure, b)
      | _ => Some (closure, connect subset_entry dfa_state b (label, key))
      end
  end.

Definition sort_labels (l : list Z) : list Z := merge_sort Z.le l.

Definition determinize_step
    (st : ClosureScratch.t * subset_builder * gmap Z (list N))
    : (ClosureScratch.t * subset_builder * gmap Z (list N)) + option DFA.t :=
  let '(closure, b, label_targets) := st in
  match worklist b with
  | [] => inr (Some (dfa b))
  | (dfa_state, subset_key) :: rest =>
      let d := if subset_is_accepting subset_key
               then DFA.set_accepting (dfa b) dfa_state true else dfa b in
      let '(label_targets, touched) := collect_targets label_targets subset_key in
      let touched := sort_labels touched in
      match foldM (link_label dfa_state label_targets)
              (closure, Builder d (ids b) rest) touched with
      | None => inr None
      | Some (closure, b) =>
          inl (closure, b, foldl (λ m label, <[label := []]> m) label_targets touched)
      end
  end.

(** [None] is a panic: of the acyclicity assertion, or of an index. *)
Definition determinize : option DFA.t :=
  if negb (NFA.compute_is_acyclic nfa) then None
  else if (lenN (NFA.states nfa) =? 0) || (lenN (NFA.start_states nfa) =? 0)
  then Some DFA.new
  else
    '(closure, start_key) ← ClosureScratch.epsilon_closure
        (ClosureScratch.new (length (NFA.states nfa))) nfa (NFA.start_states nfa);
    match run determinize_step (S (length (NFA.states nfa)))
            (closure, init_builder subset_entry start_key, ∅) with
    | inl _ => None
    | inr r => r
    end.
End determinize.


(** * Correctness of the subset construction *)

Section collect.
Context (nfa : NFA.t).

(** Bucket maps that answer every lookup alike; an absent bucket is empty. *)
Definition same_buckets (m m' : gmap Z (list N)) : Prop :=
  ∀ l, default [] (m !! l) = default [] (m' !! l).

Definition raw_targets (key : list N) (l : Z) : list N :=
  concat ((λ s, NFA.targets_of nfa s l) <$> key).

Lemma transitions_of_keys s : NoDup (transitions_of nfa s).*1.
Proof.
  unfold transitions_of. case_match; [apply NoDup_bt_keys|constructor].
Qed.

Lemma transitions_of_targets s l ts :
  (l, ts) ∈ transitions_of nfa s → NFA.targets_of nfa s l = ts.
Proof.
  unfold transitions_of, NFA.targets_of. case_match; [|by intros []%elem_of_nil].
  intros Hin%elem_of_bt_iter. by rewrite Hin.
Qed.

Lemma transitions_of_absent s l :
  l ∉ (transitions_of nfa s).*1 → NFA.targets_of nfa s l = [].
Proof.
  unfold transitions_of, NFA.targets_of. case_match eqn:E; [|done].
  intros Hni. destruct (_ !! l) as [ts|] eqn:El; [|done]. exfalso. apply Hni.
  apply elem_of_bt_keys. eauto.
Qed.

(** Collected so far: [got l] is in the bucket of [l], and the touched
    labels are those with a non-empty bucket. *)
Definition collected (got : Z → list N) (acc : gmap Z (list N) * list Z) : Prop :=
  (∀ l, default [] (acc.1 !! l) = got l) ∧ NoDup acc.2 ∧ ∀ l, l ∈ acc.2 ↔ got l ≠ [].

Lemma bucket_add_collected got acc l ts :
  collected got acc →
  collected (λ l', if decide (l' = l) then got l' ++ ts else got l') (bucket_add acc (l, ts)).
Proof.
  destruct acc as [m touched]. intros (Hgot & Hnd & Hto). simpl in *.
  destruct ts as [|t ts]; simpl.
  - assert (Heq : ∀ l', (if decide (l' = l) then got l' ++ [] else got l') = got l').
    { intros l'. case_decide; [by rewrite app_nil_r|done]. }
    split; [|split; [done|]]; intros l'; rewrite Heq; auto.
  - rewrite Hgot. split; [|split]; simpl.
    + intros l'. rewrite lookup_insert. case_decide as E1; [subst l'|].
      * by rewrite decide_True.
      * rewrite decide_False by (by intros ->). apply Hgot.
    + destruct (got l) eqn:E; [|done]. apply NoDup_app. split; [done|].
      split; [|apply NoDup_singleton]. intros x Hx ->%list_elem_of_singleton.
      by apply Hto in Hx.
    + intros l'. case_decide as E1; [subst l'|].
      * split; [intros _ Hc; by apply app_eq_nil in Hc as [_ ?]|]. intros _.
        destruct (got l) eqn:E; [apply elem_of_app; right; by left|].
        apply Hto. by rewrite E.
      * destruct (got l) eqn:E; [|apply Hto].
        rewrite elem_of_app, list_elem_of_singleton, Hto. naive_solver.
Qed.

Lemma collected_ext got got' acc :
  (∀ l, got l = got' l) → collected got acc → collected got' acc.
Proof.
  intros Heq (H1 & H2 & H3). split; [|split; [done|]]; intros l; rewrite <-Heq; auto.
Qed.

Lemma bucket_add_all_collected got acc trs :
  NoDup trs.*1 → collected got acc →
  collected (λ l, got l ++ default [] (bt_collect (K := Z) trs !! l))
    (foldl bucket_add acc trs).
Proof.
  intros Hnd Hacc.
  eapply (collected_ext (λ l, got l ++ concat ((λ tr, if decide (tr.1 = l) then tr.2 else []) <$> trs))).
  { intros l. f_equal. destruct (bt_collect trs !! l) as [ts|] eqn:E; simpl.
    - apply bt_collect_lookup in E; [|done]. clear Hacc.
      induction trs as [|[l1 t1] trs IH]; simpl in *; [by apply elem_of_nil in E|].
      apply NoDup_cons in Hnd as [Hni Hnd]. apply elem_of_cons in E as [[= <- <-]|E].
      + rewrite decide_True by done.
        etransitivity; [|apply app_nil_r]. f_equal. clear IH Hnd. induction trs as [|[l2 t2] trs IH]; simpl; [done|].
        rewrite decide_False; [|simpl; intros ->; apply Hni; by left]. simpl.
        apply IH. intros ?. apply Hni. by right.
      + rewrite decide_False; [by apply IH|]. simpl. intros ->. apply Hni.
        by apply (list_elem_of_fmap_2 fst) in E.
    - clear Hacc. induction trs as [|[l1 t1] trs IH]; simpl; [done|].
      assert (Hno : ∀ ts, (l, ts) ∉ ((l1, t1) :: trs)).
      { intros ts Hin. apply bt_collect_lookup in Hin; [congruence|done]. }
      rewrite decide_False; [simpl|simpl; intros ->; apply (Hno t1); by left].
      apply NoDup_cons in Hnd as [Hni Hnd]. apply IH; [done|].
      destruct (bt_collect trs !! l) as [ts|] eqn:E'; [|done].
      apply bt_collect_lookup in E'; [|done]. destruct (Hno ts). by right. }
  clear Hnd. revert got acc Hacc.
  induction trs as [|[l1 t1] trs IH]; intros got acc Hacc; simpl.
  - eapply collected_ext; [|exact Hacc]. intros l. by rewrite app_nil_r.
  - eapply collected_ext; [|apply IH, bucket_add_collected, Hacc]. intros l. simpl.
    destruct (decide (l1 = l)) as [->|Hne].
    + rewrite decide_True by done. by rewrite <-app_assoc.
    + by rewrite decide_False by (by intros ->).
Qed.

(** The buckets hold the raw targets of the subset, label by label. *)
Lemma collect_targets_spec m key :
  same_buckets m ∅ → collected (raw_targets key) (collect_targets nfa m key).
Proof.
  intros Hm. unfold collect_targets.
  apply (foldl_inv_prefix (λ pre acc, collected (raw_targets pre) acc)).
  - intros pre s acc _ Hacc. eapply collected_ext;
      [|apply bucket_add_all_collected; [apply transitions_of_keys|exact Hacc]].
    intros l. unfold raw_targets. rewrite fmap_app, concat_app. f_equal. simpl.
    rewrite app_nil_r.
    destruct (bt_collect (transitions_of nfa s) !! l) as [ts|] eqn:E; simpl.
    + apply bt_collect_lookup in E; [|apply transitions_of_keys].
      symmetry. by apply transitions_of_targets.
    + symmetry. apply transitions_of_absent. intros Hin.
      apply list_elem_of_fmap in Hin as ([l' ts] & -> & Hin).
      apply bt_collect_lookup in Hin; [simpl in E; congruence|apply transitions_of_keys].
  - split; [|split; [constructor|]]; simpl.
    + intros l. by rewrite Hm, lookup_empty.
    + intros l. unfold raw_targets. simpl. split; [by intros []%elem_of_nil|done].
Qed.
End collect.

(** Clearing the touched buckets empties them and keeps the others. *)
Lemma clear_buckets (ls : list Z) (m : gmap Z (list N)) l :
  l ∈ ls ∨ default [] (m !! l) = [] →
  default [] (foldl (λ m label, <[label := []]> m) m ls !! l) = [].
Proof.
  revert m. induction ls as [|l' ls IH]; intros m; simpl.
  - by intros [[]%elem_of_nil|].
  - intros Hl. apply IH. rewrite lookup_insert. case_decide; [by right|].
    rewrite elem_of_cons in Hl. naive_solver.
Qed.

Section correctness.
Context (nfa : NFA.t).
Abbreviation n := (length (NFA.states nfa)).
Abbreviation closure := (ClosureScratch.closure nfa).

(** The key of a set of targets, computed with a fresh scratch. *)
Definition closure_key (seeds : list N) : list N :=
  match ClosureScratch.epsilon_closure (ClosureScratch.new n) nfa seeds with
  | Some (_, key) => key
  | None => []
  end.

Lemma closure_key_spec seeds :
  strictly_sorted (closure_key seeds) ∧ ∀ s, s ∈ closure_key seeds ↔ closure seeds s.
Proof.
  unfold closure_key.
  destruct (ClosureSpec.epsilon_closure_spec nfa seeds _ (ClosureFacts.new_ok n))
    as (sc & key & -> & _ & ? & ?). done.
Qed.

Lemma closure_key_lt seeds s : s ∈ closure_key seeds → s < lenN (NFA.states nfa).
Proof.
  intros (seed & _ & Hlt & Hr)%closure_key_spec.
  destruct (rtc_inv_r _ _ Hr) as [<-|(y & _ & st & _ & _ & ?)]; done.
Qed.

(** Any usable scratch computes the same key. *)
Lemma epsilon_closure_key sc seeds :
  ClosureScratch.ok n sc →
  ∃ sc', ClosureScratch.epsilon_closure sc nfa seeds = Some (sc', closure_key seeds) ∧
    ClosureScratch.ok n sc'.
Proof.
  intros Hok. destruct (ClosureSpec.epsilon_closure_spec nfa seeds sc Hok)
    as (sc' & key & -> & Hok' & Hs & Hk).
  exists sc'. split; [|done]. do 2 f_equal.
  destruct (closure_key_spec seeds) as [Hs' Hk'].
  apply strictly_sorted_ext; [done|done|]. intros s. by rewrite Hk, Hk'.
Qed.

(** The edges of a subset. *)
Definition subset_labels (key : list N) : list Z :=
  sort_labels (collect_targets nfa ∅ key).2.

Definition subset_edge (key : list N) (l : Z) : option (Z * list N) :=
  match closure_key (raw_targets nfa key l) with
  | [] => None
  | key' => Some (l, key')
  end.

Definition subset_succ (key : list N) : list (Z * list N) :=
  omap (subset_edge key) (subset_labels key).

Lemma subset_labels_spec key l : l ∈ subset_labels key ↔ raw_targets nfa key l ≠ [].
Proof.
  unfold subset_labels, sort_labels. rewrite merge_sort_Permutation.
  apply (collect_targets_spec nfa ∅ key). done.
Qed.

Lemma subset_labels_nodup key : NoDup (subset_labels key).
Proof.
  unfold subset_labels, sort_labels. rewrite merge_sort_Permutation.
  apply (collect_targets_spec nfa ∅ key). done.
Qed.

Lemma elem_of_subset_succ key l key' :
  (l, key') ∈ subset_succ key ↔ closure_key (raw_targets nfa key l) = key' ∧ key' ≠ [].
Proof.
  unfold subset_succ. rewrite list_elem_of_omap. split.
  - intros (l' & Hl & He). unfold subset_edge in He.
    destruct (closure_key (raw_targets nfa key l')) eqn:E; [done|].
    injection He as <- <-. by rewrite E.
  - intros [<- Hne]. exists l. split.
    + apply subset_labels_spec. intros Hraw. apply Hne.
      destruct (closure_key (raw_targets nfa key l)) as [|s k] eqn:E; [done|].
      assert (Hs : s ∈ closure_key (raw_targets nfa key l)) by (rewrite E; by left).
      apply closure_key_spec in Hs as (seed & Hseed & _). rewrite Hraw in Hseed.
      by apply elem_of_nil in Hseed.
    + unfold subset_edge. by destruct (closure_key (raw_targets nfa key l)).
Qed.

Lemma subset_succ_nodup key : NoDup (subset_succ key).*1.
Proof.
  unfold subset_succ. pose proof (subset_labels_nodup key) as Hnd.
  assert (Hfst : ∀ l e, subset_edge key l = Some e → e.1 = l).
  { intros l e. unfold subset_edge. case_match; [done|]. by intros [= <-]. }
  induction (subset_labels key) as [|l ls IH]; simpl; [constructor|].
  apply NoDup_cons in Hnd as [Hni Hnd].
  destruct (subset_edge key l) as [e|] eqn:E; [|by apply IH]. simpl.
  apply NoDup_cons. split; [|by apply IH]. rewrite (Hfst _ _ E).
  intros (e' & He' & Hin)%list_elem_of_fmap. apply list_elem_of_omap in Hin as (l' & Hl' & E').
  apply Hni. by rewrite He', (Hfst _ _ E').
Qed.

(** ** The language of the keys *)

Abbreviation subset_run := (key_run subset_succ).
Abbreviation start_key := (closure_key (NFA.start_states nfa)).

Lemma reach_nil s : NFA.reach nfa [] s ↔ closure (NFA.start_states nfa) s.
Proof.
  split.
  - intros Hr. remember [] as w eqn:Hw. induction Hr as [s Hs Hlt|w s s' Hr IH He|w s l s' _ _ _ _].
    + exists s. split; [done|]. split; [done|]. apply rtc_refl.
    + destruct (IH Hw) as (seed & ? & ? & Hrtc). exists seed. split; [done|]. split; [done|].
      by eapply rtc_r.
    + by apply app_nil in Hw as [_ ?].
  - intros (seed & Hseed & Hlt & Hr). revert s Hr. apply (rtc_ind_r (NFA.reach nfa [])).
    + by apply NFA.reach_start.
    + intros y z _ Hyz IH. by eapply NFA.reach_eps.
Qed.

Lemma reach_snoc w l s' :
  NFA.reach nfa (w ++ [l]) s' ↔
  ∃ s t, NFA.reach nfa w s ∧ t ∈ NFA.targets_of nfa s l ∧
    t < lenN (NFA.states nfa) ∧ rtc (NFA.eps nfa) t s'.
Proof.
  split.
  - intros Hr. remember (w ++ [l]) as w' eqn:Hw.
    induction Hr as [s Hs Hlt|w' s s' Hr IH He|w' s l' s' Hr _ Hin Hlt].
    + by destruct w.
    + destruct (IH Hw) as (s0 & t & ? & ? & ? & ?). exists s0, t.
      repeat (split; [done|]). by eapply rtc_r.
    + apply app_inj_tail in Hw as [-> ->]. exists s, s'.
      repeat (split; [done|]). apply rtc_refl.
  - intros (s & t & Hr & Hin & Hlt & Hrtc). revert s' Hrtc.
    apply (rtc_ind_r (NFA.reach nfa (w ++ [l]))).
    + by eapply NFA.reach_step.
    + intros y z _ Hyz IH. by eapply NFA.reach_eps.
Qed.

Lemma elem_of_raw_targets key l t :
  t ∈ raw_targets nfa key l ↔ ∃ s, s ∈ key ∧ t ∈ NFA.targets_of nfa s l.
Proof.
  unfold raw_targets. rewrite list_elem_of_In, in_concat. setoid_rewrite <-list_elem_of_In.
  split.
  - intros (ts & (s & -> & Hs)%list_elem_of_fmap & Ht). eauto.
  - intros (s & Hs & Ht). exists (NFA.targets_of nfa s l). split; [|done].
    apply list_elem_of_fmap. eauto.
Qed.

(** After a word, the key is the set of states the word reaches. *)
Lemma subset_run_spec w :
  match subset_run start_key w with
  | Some key => ∀ s, s ∈ key ↔ NFA.reach nfa w s
  | None => ∀ s, ¬ NFA.reach nfa w s
  end.
Proof.
  induction w as [|l w IH] using rev_ind; simpl.
  - intros s. rewrite reach_nil. apply closure_key_spec.
  - assert (Hnext : ∀ key, (∀ s, s ∈ key ↔ NFA.reach nfa w s) →
      ∀ s, s ∈ closure_key (raw_targets nfa key l) ↔ NFA.reach nfa (w ++ [l]) s).
    { intros key Hkey s. rewrite reach_snoc, (proj2 (closure_key_spec _)).
      unfold ClosureScratch.closure. setoid_rewrite elem_of_raw_targets.
      setoid_rewrite Hkey. naive_solver. }
    destruct (subset_run start_key (w ++ [l])) as [key'|] eqn:E.
    + apply key_run_snoc in E as (key & Hkey & Hin); [|apply subset_succ_nodup].
      rewrite Hkey in IH. apply elem_of_subset_succ in Hin as [<- _]. by apply Hnext.
    + intros s Hs. destruct (subset_run start_key w) as [key|] eqn:Ek.
      * assert (Hin : (l, closure_key (raw_targets nfa key l)) ∈ subset_succ key).
        { apply elem_of_subset_succ. split; [done|]. intros Hnil.
          apply (Hnext key IH) in Hs. rewrite Hnil in Hs. by apply elem_of_nil in Hs. }
        assert (subset_run start_key (w ++ [l]) =
                Some (closure_key (raw_targets nfa key l))) as E'.
        { apply key_run_snoc; [apply subset_succ_nodup|]. eauto. }
        congruence.
      * apply reach_snoc in Hs as (s0 & t & Hr & _). by apply (IH s0).
Qed.

Lemma subset_accepts_spec w :
  key_accepts (subset_is_accepting nfa) subset_succ start_key w = true ↔ NFA.accepts nfa w.
Proof.
  unfold key_accepts, NFA.accepts. pose proof (subset_run_spec w) as Hrun.
  destruct (subset_run start_key w) as [key|].
  - unfold subset_is_accepting. rewrite existsb_exists. setoid_rewrite <-list_elem_of_In.
    setoid_rewrite Hrun. done.
  - split; [done|]. intros (s & Hs & _). by destruct (Hrun s).
Qed.
End correctness.

Section termination.
Context (nfa : NFA.t) (Hrange : NFA.transitions_in_range nfa).
Abbreviation n := (length (NFA.states nfa)).
Abbreviation start_key := (closure_key nfa (NFA.start_states nfa)).
Abbreviation inv b ks p :=
  (explore_inv subset_entry (subset_is_accepting nfa) (subset_succ nfa) start_key b ks p).

(** The single-state shortcut agrees with the closure. *)
Lemma next_key_spec sc key l :
  ClosureScratch.ok n sc → raw_targets nfa key l ≠ [] →
  ∃ sc', next_key nfa sc (raw_targets nfa key l) =
           Some (sc', closure_key nfa (raw_targets nfa key l)) ∧ ClosureScratch.ok n sc'.
Proof.
  intros Hok Hne. unfold next_key.
  destruct (raw_targets nfa key l) as [|t [|t' ts]] eqn:E; [done| |];
    [|by apply epsilon_closure_key].
  assert (Ht : t < lenN (NFA.states nfa)).
  { assert (t ∈ raw_targets nfa key l) as (s & _ & Hin)%elem_of_raw_targets
      by (rewrite E; by left). by eapply Hrange. }
  destruct (proj1 (nthN_Some_lt _ _) Ht) as [st Est]. rewrite Est.
  destruct (NFAState.epsilons st) as [|e es] eqn:Eeps; [|by apply epsilon_closure_key].
  exists sc. split; [|done]. do 2 f_equal. destruct (closure_key_spec nfa [t]) as [Hs Hk].
  apply strictly_sorted_ext; [auto with rust|done|]. intros s. rewrite Hk. split.
  - intros ->%list_elem_of_singleton. exists t. split; [by left|]. split; [done|apply rtc_refl].
  - intros (seed & ->%list_elem_of_singleton & _ & Hr).
    destruct Hr as [|x y z (st' & Hst' & Hy & _) _]; [by left|].
    rewrite Est in Hst'. injection Hst' as <-. rewrite Eeps in Hy. by apply elem_of_nil in Hy.
Qed.

Lemma link_labels_spec from m key ls sc b :
  ClosureScratch.ok n sc →
  (∀ l, l ∈ ls → default [] (m !! l) = raw_targets nfa key l ∧ raw_targets nfa key l ≠ []) →
  ∃ sc', foldM (link_label nfa from m) (sc, b) ls =
    Some (sc', foldl (connect subset_entry from) b (omap (subset_edge nfa key) ls)) ∧
    ClosureScratch.ok n sc'.
Proof.
  revert sc b. induction ls as [|l ls IH]; intros sc b Hok Hls; [simpl; eauto|].
  destruct (Hls l) as [Hl Hne]; [by left|].
  destruct (next_key_spec sc key l Hok Hne) as (sc' & Hkey & Hok').
  assert (Hstep : link_label nfa from m (sc, b) l =
    Some (sc', match subset_edge nfa key l with
               | Some e => connect subset_entry from b e | None => b end)).
  { unfold link_label, subset_edge. rewrite Hl.
    destruct (raw_targets nfa key l) as [|t ts]; [done|].
    rewrite Hkey. simpl. by destruct (closure_key nfa (t :: ts)). }
  cbn [foldM]. rewrite Hstep. cbn [mbind option_bind].
  destruct (IH sc' (match subset_edge nfa key l with
                    | Some e => connect subset_entry from b e | None => b end) Hok')
    as (sc'' & Hfold & Hok''); [intros; apply Hls; by right|].
  exists sc''. split; [|done]. etransitivity; [exact Hfold|]. simpl.
  by destruct (subset_edge nfa key l).
Qed.

(** The loop invariant of the subset construction. *)
Definition determinize_inv
    (st : ClosureScratch.t * subset_builder * gmap Z (list N)) (m : nat) : Prop :=
  ∃ ks p, inv st.1.2 ks p ∧ ClosureScratch.ok n st.1.1 ∧ same_buckets st.2 ∅ ∧
    (p + m = 2 ^ n)%nat.

Lemma reachable_keys k w :
  key_run (subset_succ nfa) start_key w = Some k → k ∈ sublists (seqN n).
Proof.
  intros Hk. assert (∃ seeds, k = closure_key nfa seeds) as [seeds ->].
  { destruct w as [|l w _] using rev_ind; [injection Hk as <-; eauto|].
    apply key_run_snoc in Hk as (k1 & _ & [<- _]%elem_of_subset_succ);
      [eauto|apply subset_succ_nodup]. }
  apply strictly_sorted_sublists; [apply closure_key_spec|]. apply closure_key_lt.
Qed.

Lemma determinize_step_inv st m :
  determinize_inv st m →
  match determinize_step nfa st with
  | inl st' => ∃ m', determinize_inv st' m' ∧ (m' < m)%nat
  | inr r => worklist st.1.2 = [] ∧ r = Some (dfa st.1.2)
  end.
Proof.
  destruct st as [[sc b] buckets]. intros (ks & p & Hinv & Hok & Hbuck & Hm).
  unfold determinize_step. simpl in Hinv, Hok, Hbuck. cbn [fst snd].
  destruct (worklist b) as [|[from key] rest] eqn:Ewl; [done|].
  destruct (explore_head _ _ _ b ks p _ _ (proj1 Hinv) Ewl) as (k & Hk & Hentry & ->).
  injection Hentry as -> ->.
  pose proof (collect_targets_spec nfa buckets k Hbuck) as Hcol.
  destruct (collect_targets nfa buckets k) as [m1 touched] eqn:Ecol.
  destruct Hcol as (Hgot & Hnd & Hto). simpl in *.
  assert (Hlab : sort_labels touched = subset_labels nfa k).
  { destruct (collect_targets_spec nfa ∅ k) as (_ & Hnd' & Hto'); [done|].
    unfold subset_labels, sort_labels.
    apply (StronglySorted_unique Z.le); [apply StronglySorted_merge_sort; apply _..|].
    rewrite !merge_sort_Permutation. apply NoDup_Permutation; [done|done|].
    intros l. by rewrite Hto, Hto'. }
  rewrite Hlab.
  set (d1 := if subset_is_accepting nfa k then _ else _).
  destruct (link_labels_spec (as_u32 (N.of_nat p)) m1 k (subset_labels nfa k) sc
              (Builder d1 (ids b) (drop (S p) (numbered subset_entry ks))) Hok)
    as (sc' & Hfold & Hok').
  { intros l Hl%subset_labels_spec. by rewrite Hgot. }
  rewrite Hfold.
  destruct (process_ok subset_entry (subset_is_accepting nfa) (subset_succ nfa)
              (subset_succ_nodup nfa) start_key b ks p k d1 Hinv Hk) as (ks' & Hinv').
  - unfold d1. case_match; [apply DFAFacts.length_set_accepting|done].
  - unfold d1. by case_match.
  - intros q l. unfold d1. case_match; [apply DFAFacts.delta_set_accepting|done].
  - intros Hfit Hp q Hq. unfold d1.
    assert (Hpl : N.of_nat p < lenN ks) by (apply lookup_lt_Some in Hk; unfold lenN; lia).
    destruct (subset_is_accepting nfa k).
    + rewrite DFAFacts.accepting_set_accepting, as_u32_small by lia.
      rewrite (ko_states _ _ _ _ _ _ (proj1 Hinv)).
      destruct (N.eqb_spec q (N.of_nat p)) as [->|]; [by rewrite decide_True|].
      by rewrite decide_False by naive_solver.
    + by destruct (N.eqb_spec q (N.of_nat p)) as [->|].
  - pose proof (explore_bound _ _ _ _ _ _ _ (sublists (seqN n)) Hinv' reachable_keys) as Hb.
    rewrite length_sublists, length_seqN in Hb.
    exists (m - 1)%nat. split; [|lia]. exists (ks ++ ks'), (S p).
    split; [exact Hinv'|]. split; [done|]. split; [|lia].
    intros l. rewrite lookup_empty. simpl. apply clear_buckets.
    destruct (decide (l ∈ subset_labels nfa k)) as [|Hni]; [by left|right].
    rewrite Hgot. destruct (raw_targets nfa k l) eqn:E; [done|].
    exfalso. apply Hni, subset_labels_spec. by rewrite E.
Qed.
End termination.

(** C25: The determinizer returns an automaton for every acyclic input whose
    transitions lead to states, and that automaton accepts the same words. *)
Theorem determinize_correct (nfa : NFA.t) :
  NFA.edges_fit nfa → NFA.transitions_in_range nfa → acyclic (NFA.adjacency nfa) →
  ∃ d, determinize nfa = Some d ∧
    (lenN (DFA.states d) ≤ u32_modulus →
     ∀ w, DFA.accepts d w = true ↔ NFA.accepts nfa w).
Proof.
  intros Hfit Hrange Hac. unfold determinize.
  rewrite (proj2 (NFAFacts.compute_is_acyclic_spec nfa Hfit) Hac). simpl.
  destruct (orb _ _) eqn:Eempty.
  - exists DFA.new. split; [done|]. intros _ w. split.
    + unfold DFA.accepts. destruct w as [|l w]; [done|].
      rewrite DFAFacts.accepts_from_cons. unfold DFA.delta. simpl. by rewrite lookup_empty.
    + intros (s & Hr & _). exfalso. induction Hr as [s Hs Hlt|w s s' Hr IH _|w s l s' Hr IH _ _];
        [|done|done].
      apply orb_true_iff in Eempty as [E|E]; apply N.eqb_eq in E; [lia|].
      destruct (NFA.start_states nfa); [by apply elem_of_nil in Hs|done].
  - destruct (epsilon_closure_key nfa _ (NFA.start_states nfa)
                (ClosureFacts.new_ok (length (NFA.states nfa)))) as (sc & Hkey & Hok).
    rewrite Hkey. cbn [mbind option_bind].
    destruct (run_terminates (determinize_step nfa) (determinize_inv nfa)
                (S (length (NFA.states nfa)))
                (sc, init_builder subset_entry (closure_key nfa (NFA.start_states nfa)), ∅)
                (2 ^ length (NFA.states nfa)))
      as (r & [[sc' b] buckets] & m & Hrun & Hst & Hexit).
    + intros st st' m Hst Hstep. pose proof (determinize_step_inv nfa Hrange st m Hst) as Hspec.
      by rewrite Hstep in Hspec.
    + exists [closure_key nfa (NFA.start_states nfa)], 0%nat.
      split; [apply explore_inv_init|]. split; [done|]. split; [done|]. simpl. lia.
    + pose proof (Nat.pow_nonzero 2 (length (NFA.states nfa))). rewrite Nat.pow_succ_r'. lia.
    + pose proof (determinize_step_inv nfa Hrange _ m Hst) as Hspec. rewrite Hexit in Hspec.
      destruct Hspec as [Hwl ->]. destruct Hst as (ks & p & Hinv & _). simpl in *.
      rewrite Hrun. exists (dfa b). split; [done|]. intros Hlen w.
      rewrite (explore_accepts subset_entry (subset_is_accepting nfa) (subset_succ nfa)
        (subset_succ_nodup nfa) _ b ks p w Hinv Hwl Hlen).
      apply subset_accepts_spec.
Qed.

(** A cyclic input is refused: the acyclicity assertion panics. *)
Theorem determinize_cyclic (nfa : NFA.t) :
  NFA.edges_fit nfa → ¬ acyclic (NFA.adjacency nfa) → determinize nfa = None.
Proof.
  intros Hfit Hc. unfold determinize.
  destruct (NFA.compute_is_acyclic nfa) eqn:E; [|done].
  by apply NFAFacts.compute_is_acyclic_spec in E.
Qed.

(** ** Concrete automata *)

(** A branching automaton with epsilon edges: words [1 2], [1], [1 2 3] and so on. *)
Definition nfa_sample : NFA.t :=
  NFA.mk [NFAState.mk false {[ 1%Z := [1; 2] ]} [];
          NFAState.mk false {[ 2%Z := [3] ]} [3];
          NFAState.mk false (<[2%Z := [3; 1]]> {[ (-7)%Z := [3] ]}) [];
          NFAState.mk true ∅ []] [0; 9].

(** A self-loop over an epsilon edge. *)
Definition nfa_loop : NFA.t := NFA.mk [NFAState.mk true ∅ [0]] [0].

Lemma determinize_correct_witness :
  ∃ d, determinize nfa_sample = Some d ∧ lenN (DFA.states d) = 4 ∧
    (∀ w, DFA.accepts d w = true ↔ NFA.accepts nfa_sample w) ∧
    DFA.accepts d [1; 2; 2]%Z = true ∧ DFA.accepts d [1; -7]%Z = true ∧
    DFA.accepts d [2]%Z = false.
Proof.
  destruct (determinize_correct nfa_sample) as (d & Hd & Hlang).
  - vm_compute. reflexivity.
  - apply NFAFacts.transitions_in_range_b_spec. vm_compute. reflexivity.
  - apply NFAFacts.compute_is_acyclic_spec; vm_compute; reflexivity.
  - exists d. assert (Hd' := Hd). vm_compute in Hd'. injection Hd' as <-.
    split; [exact Hd|]. split; [reflexivity|]. split.
    + apply Hlang. vm_compute. discriminate.
    + repeat split; vm_compute; reflexivity.
Defined.

Lemma determinize_cyclic_witness : determinize nfa_loop = None.
Proof.
  apply determinize_cyclic; [vm_compute; reflexivity|].
  intros Hac. apply NFAFacts.compute_is_acyclic_spec in Hac; [|vm_compute; reflexivity].
  vm_compute in Hac. discriminate.
Defined.
