(* ===== verification/Subtract.v ===== *)
(** Difference of deterministic automata
    (crates/glrmask-finite-automata/src/automata/unweighted_u32/subtract.rs). *)

From S2P Require Import Prelude Graph Dfa Explore.

Module ProductState.
(** [right] is [None] in the implicit rejecting sink of the right side. *)
Record t := mk { left : N; right : option N }.

#[global] Instance eq_dec : EqDecision t.
Proof. solve_decision. Defined.

#[global] Instance countable : Countable t.
Proof.
  refine (inj_countable' (λ p, (left p, right p)) (λ p, mk p.1 p.2) _). by intros [].
Defined.
End ProductState.

Abbreviation product_builder := (builder (K := ProductState.t) (W := ProductState.t)).

Section subtract.
Context (left right : DFA.t).

(** The worklist of [subtract] holds the product states themselves. *)
Definition product_entry (_ : N) (key : ProductState.t) : ProductState.t := key.

(** The body of the loop over [left_state.transitions]. *)
Definition link_product (result_state : N) (right_state : option DFAState.t)
    (b : product_builder) (tr : Z * N) : product_builder :=
  let '(label, left_next) := tr in
  let right_next := st ← right_state; DFAState.transitions st !! label in
  connect product_entry result_state b (label, ProductState.mk left_next right_next).

(** [product.right.map(|state| &right.states[state])]; [None] is a panic. *)
Definition right_row (product : ProductState.t) : option (option DFAState.t) :=
  match ProductState.right product with
  | None => Some None
  | Some r => Some <$> (DFA.states right).[r]
  end.

Definition row_accepting (row : option DFAState.t) : bool :=
  match row with Some st => DFAState.is_accepting st | None => false end.

(** One iteration; [inr None] is an index panic. *)
Definition subtract_step (b : product_builder) : product_builder + option DFA.t :=
  match worklist b with
  | [] => inr (Some (dfa b))
  | product :: rest =>
      match ids b !! product, (DFA.states left).[ProductState.left product],
            right_row product with
      | Some result_state, Some left_state, Some right_state =>
          let d := DFA.set_accepting (dfa b) result_state
                     (DFAState.is_accepting left_state && negb (row_accepting right_state)) in
          inl (foldl (link_product result_state right_state) (Builder d (ids b) rest)
                 (label_iter (DFAState.transitions left_state)))
      | _, _, _ => inr None
      end
  end.

Definition subtract_start : ProductState.t :=
  ProductState.mk (DFA.start_state left)
    (if lenN (DFA.states right) =? 0 then None else Some (DFA.start_state right)).

(** The fuel covers the number of pairs of states. *)
Definition subtract_fuel : nat :=
  length (DFA.states left) + length (DFA.states right) + 1.

Definition subtract : option DFA.t :=
  if lenN (DFA.states left) =? 0 then Some left
  else
    match run subtract_step subtract_fuel (init_builder product_entry subtract_start) with
    | inl _ => None
    | inr r => r
    end.
End subtract.

(** * Correctness *)

Section correctness.
Context (left right : DFA.t).
Context (Hleft : DFA.closed left).
Context (Hright : DFA.states right = [] ∨ DFA.closed right).
Abbreviation start := (subtract_start left right).

Definition product_accepting (p : ProductState.t) : bool :=
  DFA.accepting left (ProductState.left p) &&
  negb (match ProductState.right p with Some r => DFA.accepting right r | None => false end).

Definition product_edge (p : ProductState.t) (tr : Z * N) : Z * ProductState.t :=
  (tr.1, ProductState.mk tr.2 (r ← ProductState.right p; DFA.delta right r tr.1)).

Definition left_transitions (q : N) : list (Z * N) :=
  match (DFA.states left).[q] with
  | Some st => label_iter (DFAState.transitions st)
  | None => []
  end.

Definition product_succ (p : ProductState.t) : list (Z * ProductState.t) :=
  product_edge p <$> left_transitions (ProductState.left p).

Lemma elem_of_left_transitions q l q' :
  (l, q') ∈ left_transitions q ↔ DFA.delta left q l = Some q'.
Proof.
  unfold left_transitions, DFA.delta. destruct ((DFA.states left).[q]); simpl.
  - apply elem_of_bt_iter.
  - split; [by intros []%elem_of_nil|done].
Qed.

Lemma product_succ_nodup p : NoDup (product_succ p).*1.
Proof.
  unfold product_succ. rewrite <-list_fmap_compose.
  rewrite (list_fmap_ext _ fst) by done. unfold left_transitions.
  case_match; [apply NoDup_bt_keys|constructor].
Qed.

Lemma product_step p l :
  key_step product_succ p l =
  (q ← DFA.delta left (ProductState.left p) l;
   Some (ProductState.mk q (r ← ProductState.right p; DFA.delta right r l))).
Proof.
  apply option_eq. intros p'. rewrite (key_step_elem _ product_succ_nodup).
  unfold product_succ. rewrite list_elem_of_fmap. split.
  - intros ([l' q] & [= -> ->] & Hin%elem_of_left_transitions). by rewrite Hin.
  - intros (q & Hq & [= <-])%bind_Some. exists (l, q). split; [done|].
    by apply elem_of_left_transitions.
Qed.

(** A product run is a run of the left side with a run of the right side that
    falls into the sink when it is undefined. *)
Lemma product_run p w :
  key_run product_succ p w =
  (q ← DFA.run_from left (ProductState.left p) w;
   Some (ProductState.mk q (r ← ProductState.right p; DFA.run_from right r w))).
Proof.
  revert p. induction w as [|l w IH]; intros p; cbn [key_run DFA.run_from].
  - destruct p as [q [r|]]; done.
  - rewrite product_step. destruct p as [q r]. simpl.
    destruct (DFA.delta left q l) as [q1|]; simpl; [|done]. rewrite IH. simpl.
    destruct r as [r|]; simpl; [|done]. by destruct (DFA.delta right r l).
Qed.

Lemma product_accepts w :
  key_accepts product_accepting product_succ start w =
  DFA.accepts left w && negb (DFA.accepts right w).
Proof using Hright.
  unfold key_accepts, DFA.accepts, DFA.accepts_from. rewrite product_run.
  unfold subtract_start. simpl. destruct (DFA.run_from left _ w) as [q|]; simpl; [|done].
  unfold product_accepting. simpl. f_equal. f_equal.
  destruct (N.eqb_spec (lenN (DFA.states right)) 0) as [Hz|Hnz]; simpl.
  - symmetry. apply (DFAFacts.out_of_range_dead right (DFA.start_state right)). lia.
  - by destruct (DFA.run_from right _ w).
Qed.

(** ** Reachable products are pairs of states *)

Definition product_ok (p : ProductState.t) : Prop :=
  ProductState.left p < lenN (DFA.states left) ∧
  match ProductState.right p with Some r => r < lenN (DFA.states right) | None => True end.

Definition product_universe : list ProductState.t :=
  q ← seqN (length (DFA.states left));
  ProductState.mk q <$> (None :: (Some <$> seqN (length (DFA.states right)))).

Lemma product_ok_universe p : product_ok p → p ∈ product_universe.
Proof.
  intros [Hl Hr]. unfold product_universe. apply list_elem_of_bind.
  exists (ProductState.left p). split; [|by apply elem_of_seqN].
  apply list_elem_of_fmap. exists (ProductState.right p). split; [by destruct p|].
  destruct (ProductState.right p) as [r|]; [right|left].
  apply list_elem_of_fmap_2. by apply elem_of_seqN.
Qed.

Lemma length_product_universe :
  (length product_universe =
   length (DFA.states left) * (1 + length (DFA.states right)))%nat.
Proof.
  unfold product_universe. rewrite <-(length_seqN (length (DFA.states left))) at 2.
  induction (seqN (length (DFA.states left))) as [|q l IH]; [done|].
  rewrite bind_cons, length_app, IH. cbn [length]. rewrite length_fmap. cbn [length].
  rewrite length_fmap, length_seqN. lia.
Qed.

Lemma product_fuel :
  (length product_universe < 2 ^ subtract_fuel left right)%nat.
Proof.
  rewrite length_product_universe. unfold subtract_fuel. rewrite !Nat.pow_add_r.
  pose proof (pow2_gt (length (DFA.states left))).
  pose proof (pow2_gt (length (DFA.states right))). simpl. nia.
Qed.

Lemma reachable_product_ok w p : key_run product_succ start w = Some p → product_ok p.
Proof using Hleft Hright.
  assert (Hstart : product_ok start).
  { unfold subtract_start. split; simpl; [apply Hleft|].
    destruct (N.eqb_spec (lenN (DFA.states right)) 0) as [|Hnz]; [done|].
    destruct Hright as [Hnil|[? _]]; [by rewrite Hnil in Hnz|done]. }
  revert p. induction w as [|l w IH] using rev_ind; intros p.
  - by intros [= <-].
  - intros (p1 & Hp1 & Hin)%(key_run_snoc _ product_succ_nodup).
    destruct (IH p1 Hp1) as [_ Hr].
    apply list_elem_of_fmap in Hin as ([l' q] & [= -> ->] & Hq%elem_of_left_transitions).
    split; simpl; [by eapply Hleft|].
    destruct (ProductState.right p1) as [r|]; simpl; [|done].
    destruct (DFA.delta right r l') as [r'|] eqn:E; [|done].
    destruct Hright as [Hnil|[_ Hcl]]; [|by eapply Hcl].
    rewrite Hnil in Hr. unfold lenN in Hr. simpl in Hr. lia.
Qed.

(** ** The loop *)

Abbreviation inv b ks p :=
  (explore_inv product_entry product_accepting product_succ start b ks p).

Lemma link_product_connect result_state product right_state b tr :
  right_row right product = Some right_state →
  link_product result_state right_state b tr =
  connect product_entry result_state b (product_edge product tr).
Proof.
  intros Hrow. destruct tr as [l q]. unfold link_product, product_edge. simpl.
  do 3 f_equal. unfold right_row in Hrow. unfold DFA.delta.
  destruct (ProductState.right product) as [r|]; simpl in *.
  - destruct ((DFA.states right).[r]); [|done]. by injection Hrow as <-.
  - by injection Hrow as <-.
Qed.

Definition subtract_inv (b : product_builder) (m : nat) : Prop :=
  ∃ ks p, inv b ks p ∧ (p + m = length product_universe)%nat.

Lemma subtract_step_inv b m :
  subtract_inv b m →
  match subtract_step left right b with
  | inl b' => ∃ m', subtract_inv b' m' ∧ (m' < m)%nat
  | inr r => worklist b = [] ∧ r = Some (dfa b)
  end.
Proof using Hleft Hright.
  intros (ks & p & Hinv & Hm). unfold subtract_step.
  destruct (worklist b) as [|product rest] eqn:Ewl; [done|].
  destruct (explore_head _ _ _ b ks p _ _ (proj1 Hinv) Ewl) as (k & Hk & Hentry & ->).
  unfold product_entry in Hentry. subst product.
  assert (Hkin : k ∈ ks) by (by apply list_elem_of_lookup_2 in Hk).
  destruct (ko_reached _ _ _ _ _ _ (proj1 Hinv) k Hkin) as [w Hw].
  destruct (reachable_product_ok w k Hw) as [Hl Hr].
  assert (Hid : ids b !! k = Some (as_u32 (N.of_nat p))).
  { apply (ko_ids _ _ _ _ _ _ (proj1 Hinv)). exists (N.of_nat p). by rewrite nthN_of_nat. }
  rewrite Hid. destruct (proj1 (nthN_Some_lt _ _) Hl) as [left_state Hls]. rewrite Hls.
  assert (Hrr : ∃ right_state, right_row right k = Some right_state ∧
    row_accepting right_state =
    match ProductState.right k with Some r => DFA.accepting right r | None => false end).
  { unfold right_row, DFA.accepting. destruct (ProductState.right k) as [r|]; [|eauto].
    destruct (proj1 (nthN_Some_lt _ _) Hr) as [rs ->]. simpl. eauto. }
  destruct Hrr as (right_state & Hrr & Hracc). rewrite Hrr.
  assert (Hlacc : DFA.accepting left (ProductState.left k) = DFAState.is_accepting left_state)
    by (unfold DFA.accepting; by rewrite Hls).
  set (d1 := DFA.set_accepting _ _ _).
  destruct (process_ok product_entry product_accepting product_succ product_succ_nodup start
              b ks p k d1 Hinv Hk) as (ks' & Hinv').
  - apply DFAFacts.length_set_accepting.
  - done.
  - intros q l. apply DFAFacts.delta_set_accepting.
  - intros Hfit _ q Hq. unfold d1.
    assert (Hpl : N.of_nat p < lenN ks) by (apply lookup_lt_Some in Hk; unfold lenN; lia).
    rewrite DFAFacts.accepting_set_accepting, as_u32_small by lia.
    rewrite (ko_states _ _ _ _ _ _ (proj1 Hinv)), Hracc, <-Hlacc.
    destruct (N.eqb_spec q (N.of_nat p)) as [->|]; [by rewrite decide_True|].
    by rewrite decide_False by naive_solver.
  - pose proof (explore_bound _ _ _ _ _ _ _ product_universe Hinv'
      (λ k w Hk, product_ok_universe k (reachable_product_ok w k Hk))) as Hb.
    exists (m - 1)%nat. split; [|lia]. exists (ks ++ ks'), (S p). split; [|lia].
    assert (Hrw : foldl (link_product (as_u32 (N.of_nat p)) right_state)
        (Builder d1 (ids b) (drop (S p) (numbered product_entry ks)))
        (label_iter (DFAState.transitions left_state)) =
      foldl (connect product_entry (as_u32 (N.of_nat p)))
        (Builder d1 (ids b) (drop (S p) (numbered product_entry ks))) (product_succ k));
      [|by rewrite Hrw].
    unfold product_succ, left_transitions. rewrite Hls.
    generalize (Builder d1 (ids b) (drop (S p) (numbered product_entry ks))).
    induction (label_iter (DFAState.transitions left_state)) as [|tr trs IH]; intros b1; [done|].
    rewrite fmap_cons. cbn [foldl]. rewrite (link_product_connect _ k) by done. apply IH.
Qed.
End correctness.

(** C29: subtraction returns an automaton for every pair of closed operands (either
    may have no state), and it accepts the words of the left side that the
    right side rejects. *)
Theorem subtract_correct (left right : DFA.t) :
  DFA.states left = [] ∨ DFA.closed left →
  DFA.states right = [] ∨ DFA.closed right →
  ∃ d, subtract left right = Some d ∧
    (lenN (DFA.states d) ≤ u32_modulus →
     ∀ w, DFA.accepts d w = DFA.accepts left w && negb (DFA.accepts right w)).
Proof.
  intros Hleft Hright. unfold subtract.
  destruct (N.eqb_spec (lenN (DFA.states left)) 0) as [Hz|Hnz].
  - exists left. split; [done|]. intros _ w. unfold DFA.accepts at 1 2.
    rewrite (DFAFacts.out_of_range_dead left (DFA.start_state left)); [done|lia].
  - destruct Hleft as [Hnil|Hleft]; [by rewrite Hnil in Hnz|].
    destruct (run_terminates (subtract_step left right) (subtract_inv left right)
                (subtract_fuel left right)
                (init_builder product_entry (subtract_start left right))
                (length (product_universe left right)))
      as (r & b & m & Hrun & Hst & Hexit).
    + intros st st' m Hst Hstep.
      pose proof (subtract_step_inv left right Hleft Hright st m Hst) as Hspec.
      by rewrite Hstep in Hspec.
    + exists [subtract_start left right], 0%nat. split; [apply explore_inv_init|done].
    + apply product_fuel.
    + pose proof (subtract_step_inv left right Hleft Hright b m Hst) as Hspec.
      rewrite Hexit in Hspec. destruct Hspec as [Hwl ->].
      destruct Hst as (ks & p & Hinv & _). rewrite Hrun.
      exists (dfa b). split; [done|]. intros Hlen w.
      rewrite (explore_accepts product_entry (product_accepting left right)
        (product_succ left right) (product_succ_nodup left right) _ b ks p w Hinv Hwl Hlen).
      by apply product_accepts.
Qed.

(** Words over [{1, 2}] that contain a [2] (a cyclic automaton), and the words
    [1 ... 1 2]. *)
Definition dfa_contains_2 : DFA.t :=
  DFA.mk [DFAState.mk false (<[1%Z := 0]> {[ 2%Z := 1 ]});
          DFAState.mk true (<[1%Z := 1]> {[ 2%Z := 1 ]})] 0.
Definition dfa_ends_at_2 : DFA.t :=
  DFA.mk [DFAState.mk false (<[1%Z := 0]> {[ 2%Z := 1 ]}); DFAState.mk true ∅] 0.

Lemma subtract_correct_witness :
  ∃ d, subtract dfa_contains_2 dfa_ends_at_2 = Some d ∧ lenN (DFA.states d) = 3 ∧
    (∀ w, DFA.accepts d w =
      DFA.accepts dfa_contains_2 w && negb (DFA.accepts dfa_ends_at_2 w)) ∧
    DFA.accepts d [1; 2]%Z = false ∧ DFA.accepts d [1; 2; 1]%Z = true.
Proof.
  destruct (subtract_correct dfa_contains_2 dfa_ends_at_2) as (d & Hd & Hlang).
  - right. apply DFAFacts.closed_b_spec. vm_compute. reflexivity.
  - right. apply DFAFacts.closed_b_spec. vm_compute. reflexivity.
  - exists d. assert (Hd' := Hd). vm_compute in Hd'. injection Hd' as <-.
    split; [exact Hd|]. split; [reflexivity|]. split.
    + apply Hlang. vm_compute. discriminate.
    + split; vm_compute; reflexivity.
Defined.
