(* ===== verification/MinimizeAcyclic.v ===== *)
(** Minimization of acyclic automata
    (crates/glrmask-finite-automata/src/automata/unweighted_u32/minimize_acyclic.rs):
    states are classified in reverse topological order by their signature. *)

From stdpp Require Import relations.
From S2P Require Import Prelude Graph Dfa.

Module StateSignature.
Record t := mk { is_accepting : bool; transitions : list (Z * N) }.

#[global] Instance eq_dec : EqDecision t.
Proof. solve_decision. Defined.

#[global] Instance countable : Countable t.
Proof.
  refine (inj_countable' (λ s, (is_accepting s, transitions s)) (λ p, mk p.1 p.2) _).
  by intros [].
Defined.
End StateSignature.

(** * Reverse topological order *)

Section dfs.
Context (dfa : DFA.t).

(** The recursive [dfs]; the recursion visits a new state at every level, so
    that a depth of the number of states plus one is never exceeded.  [acc] is
    the visited vector and the order. *)
Fixpoint dfs (depth : nat) (state_id : N) (acc : list bool * list N) : option (list bool * list N) :=
  match depth with
  | O => None
  | S depth =>
      let '(visited, order) := acc in
      match visited.[state_id] with
      | None => None
      | Some true => Some (visited, order)
      | Some false =>
          '(visited, order) ← foldM (λ acc target,
              if target <? lenN (DFA.states dfa) then dfs depth target acc else Some acc)
            (alterN (λ _, true) visited state_id, order)
            (match (DFA.states dfa).[state_id] with
             | Some st => DFA.targets st
             | None => []
             end);
          Some (visited, order ++ [state_id])
      end
  end.

(** [None] is the index panic of a start that is no state. *)
Definition reverse_topological_order : option (list N) :=
  '(_, order) ← dfs (S (length (DFA.states dfa))) (DFA.start_state dfa)
                  (replicate (length (DFA.states dfa)) false, []);
  Some order.
End dfs.

(** * Classification *)

Definition DEAD_CLASS : N := 0.

(** The live transitions of a state with the class of their target. *)
Definition signature_transitions (class_of_state : list N) (dead_class : N)
    (trs : list (Z * N)) : list (Z * N) :=
  omap (λ tr,
    let target_class := default dead_class class_of_state.[tr.2] in
    if target_class =? dead_class then None else Some (tr.1, target_class)) trs.

Definition state_signature (dfa : DFA.t) (state_id : N) (class_of_state : list N)
    (dead_class : N) : option StateSignature.t :=
  state ← (DFA.states dfa).[state_id];
  Some (StateSignature.mk (DFAState.is_accepting state)
          (signature_transitions class_of_state dead_class
             (label_iter (DFAState.transitions state)))).

(** The loop state of the classification. *)
Record classes := Classes {
  signature_to_class : gmap StateSignature.t N;
  class_of_state : list N;
  class_representatives : list (option N);
  next_class_id : N;
}.

Definition classes_init (dfa : DFA.t) : classes :=
  Classes {[ StateSignature.mk false [] := DEAD_CLASS ]}
    (replicate (length (DFA.states dfa)) DEAD_CLASS) [None] 1.

Definition classify (dfa : DFA.t) (c : classes) (state_id : N) : option classes :=
  signature ← state_signature dfa state_id (class_of_state c) DEAD_CLASS;
  match signature_to_class c !! signature with
  | Some existing =>
      Some (Classes (signature_to_class c)
              (alterN (λ _, existing) (class_of_state c) state_id)
              (class_representatives c) (next_class_id c))
  | None =>
      let new_id := next_class_id c in
      Some (Classes (<[signature := new_id]> (signature_to_class c))
              (alterN (λ _, new_id) (class_of_state c) state_id)
              (class_representatives c ++ [Some state_id]) (next_class_id c + 1))
  end.

(** * The minimized automaton *)

(** The row of one representative: live transitions, to class minus one. *)
Definition minimized_row (dfa : DFA.t) (class_of_state : list N) (dead_class : N)
    (representative : option N) : option DFAState.t :=
  repr_state_id ← representative;
  repr ← (DFA.states dfa).[repr_state_id];
  Some (DFAState.mk (DFAState.is_accepting repr)
    (bt_collect (omap (λ tr,
       let target_class := default dead_class class_of_state.[tr.2] in
       if target_class =? dead_class then None else Some (tr.1, as_u32 (target_class - 1)))
       (label_iter (DFAState.transitions repr))))).

Definition build_minimized_acyclic_dfa (dfa : DFA.t) (class_of_state : list N)
    (class_representatives : list (option N)) (dead_class : N) : option DFA.t :=
  start_class ← class_of_state.[DFA.start_state dfa];
  if start_class =? dead_class then Some DFA.new
  else
    rows ← mapM (minimized_row dfa class_of_state dead_class) (tail class_representatives);
    Some (DFA.mk rows (as_u32 (start_class - 1))).

Definition minimize_acyclic_unchecked (dfa : DFA.t) : option DFA.t :=
  if lenN (DFA.states dfa) =? 0 then Some dfa
  else
    topo ← reverse_topological_order dfa;
    c ← foldM (classify dfa) (classes_init dfa) topo;
    build_minimized_acyclic_dfa dfa (class_of_state c) (class_representatives c) DEAD_CLASS.

(** [assert!] panics on a cyclic input. *)
Definition minimize_acyclic (dfa : DFA.t) : option DFA.t :=
  if DFA.compute_is_acyclic dfa then minimize_acyclic_unchecked dfa else None.

(** [CyclicAcyclicInput]; the outer option is a panic. *)
Record CyclicAcyclicInput := mkCyclicAcyclicInput { cyclic_states : N }.

Definition try_minimize_acyclic (dfa : DFA.t) : option (DFA.t + CyclicAcyclicInput) :=
  if DFA.compute_is_acyclic dfa
  then d ← minimize_acyclic_unchecked dfa; Some (inl d)
  else Some (inr (mkCyclicAcyclicInput (lenN (DFA.states dfa)))).

(** * Reindexing an already minimal automaton *)

Record AcyclicDfaReindex := mkReindex {
  old_states_in_new_order : list N;
  new_state_of_old : list N;
  reindex_start_state : N;
}.

Definition reindex_minimized_acyclic_order (dfa : DFA.t) : option AcyclicDfaReindex :=
  if lenN (DFA.states dfa) =? 0 then Some (mkReindex [] [] 0)
  else
    topo ← reverse_topological_order dfa;
    let state_map := foldl (λ m io, alterN (λ _, as_u32 (N.of_nat io.1)) m io.2)
      (replicate (length (DFA.states dfa)) u32_max) (imap pair topo) in
    start ← state_map.[DFA.start_state dfa];
    Some (mkReindex topo state_map start).

Definition reindexed_row (dfa : DFA.t) (new_of_old : list N) (old_state : N) : option DFAState.t :=
  old ← (DFA.states dfa).[old_state];
  Some (DFAState.mk (DFAState.is_accepting old)
    (bt_collect (omap (λ tr,
       let mapped := default u32_max new_of_old.[tr.2] in
       if mapped =? u32_max then None else Some (tr.1, mapped))
       (label_iter (DFAState.transitions old))))).

Definition reindex_minimized_acyclic_dfa (dfa : DFA.t) : option DFA.t :=
  reindex ← reindex_minimized_acyclic_order dfa;
  match old_states_in_new_order reindex with
  | [] => Some dfa
  | order =>
      rows ← mapM (reindexed_row dfa (new_state_of_old reindex)) order;
      Some (DFA.mk rows (reindex_start_state reindex))
  end.

(** * The order of the depth-first search *)

Section dfs_spec.
Context (dfa : DFA.t).
#[local] Abbreviation n := (length (DFA.states dfa)).
#[local] Abbreviation E := (edge (DFA.adjacency dfa)).
Context (Hac : acyclic (DFA.adjacency dfa)).

(** Targets come before their sources. *)
Definition targets_first (order : list N) : Prop :=
  ∀ pre s post t, order = pre ++ s :: post → E s t → t ∈ pre.

Lemma targets_first_snoc order s :
  targets_first order → (∀ t, E s t → t ∈ order) → targets_first (order ++ [s]).
Proof.
  intros Ho Hs pre s' post t Heq He.
  destruct post as [|x post _] using rev_ind.
  - apply app_inj_tail in Heq as [<- <-]. by apply Hs.
  - rewrite app_comm_cons, app_assoc in Heq. apply app_inj_tail in Heq as [-> _]. by eapply Ho.
Qed.

(** [path] are the states whose call is not finished. *)
Record dfs_inv (path : list N) (acc : list bool * list N) : Prop := {
  dfs_len : length acc.1 = n;
  dfs_visited : ∀ i, acc.1.[i] = Some true ↔ i ∈ path ++ acc.2;
  dfs_nodup : NoDup (path ++ acc.2);
  dfs_order : targets_first acc.2;
}.

Lemma dfs_inv_lt path acc i : dfs_inv path acc → i ∈ path ++ acc.2 → i < lenN (DFA.states dfa).
Proof.
  intros [Hlen Hv _ _] Hi. apply Hv, nthN_lt in Hi. unfold lenN in *. by rewrite Hlen in Hi.
Qed.

Definition dfs_post (path : list N) (s : N) (acc acc' : list bool * list N) : Prop :=
  dfs_inv path acc' ∧ ∃ new, acc'.2 = acc.2 ++ new ∧ ∀ x, x ∈ new → rtc E s x.

Lemma dfs_inv_visit path visited order s :
  dfs_inv path (visited, order) → visited.[s] = Some false →
  dfs_inv (s :: path) (alterN (λ _, true) visited s, order).
Proof.
  intros [Hlen Hv Hnd Ho] Hs. split; simpl in *; [by rewrite length_alterN| |  |done].
  - intros i. rewrite nthN_alterN, elem_of_cons, <-Hv.
    destruct (N.eqb_spec i s) as [->|Hne]; [rewrite Hs; simpl; tauto|]. tauto.
  - apply NoDup_cons. split; [|done]. rewrite <-Hv, Hs. done.
Qed.

Lemma dfs_inv_finish path visited order s :
  dfs_inv (s :: path) (visited, order) → (∀ t, E s t → t ∈ order) →
  dfs_inv path (visited, order ++ [s]).
Proof.
  intros [Hlen Hv Hnd Ho] Hs. split; simpl in *; [done| | |by apply targets_first_snoc].
  - intros i. rewrite Hv. set_solver.
  - rewrite app_assoc, NoDup_app. apply NoDup_cons in Hnd as [Hni Hnd].
    split; [done|]. split; [|apply NoDup_singleton]. intros x Hx Hxs. apply list_elem_of_singleton in Hxs as ->. done.
Qed.

Lemma dfs_targets_spec depth path s ts acc :
  (∀ t acc, t < lenN (DFA.states dfa) → E s t → dfs_inv (s :: path) acc →
     ∃ acc', dfs dfa depth t acc = Some acc' ∧ dfs_post (s :: path) t acc acc' ∧ t ∈ acc'.2) →
  (∀ t, t ∈ ts → t < lenN (DFA.states dfa) → E s t) →
  dfs_inv (s :: path) acc →
  ∃ acc', foldM (λ acc target,
      if target <? lenN (DFA.states dfa) then dfs dfa depth target acc else Some acc) acc ts
      = Some acc' ∧ dfs_post (s :: path) s acc acc' ∧
    ∀ t, t ∈ ts → t < lenN (DFA.states dfa) → t ∈ acc'.2.
Proof using Hac.
  intros Hdfs. revert acc. induction ts as [|t ts IH]; intros acc Hts Hinv; cbn [foldM].
  - exists acc. split; [done|]. split; [|set_solver]. split; [done|].
    exists []. rewrite app_nil_r. set_solver.
  - destruct (N.ltb_spec t (lenN (DFA.states dfa))) as [Hlt|Hge].
    + assert (He : E s t) by (apply Hts; [by left|done]).
      destruct (Hdfs t acc Hlt He Hinv) as (acc1 & -> & (Hinv1 & new1 & Heq1 & Hr1) & Ht). simpl.
      destruct (IH acc1) as (acc2 & -> & (Hinv2 & new2 & Heq2 & Hr2) & Hall); [set_solver|done|].
      exists acc2. split; [done|]. split.
      * split; [done|]. exists (new1 ++ new2). rewrite Heq2, Heq1, app_assoc. split; [done|].
        intros x [Hx|Hx]%elem_of_app; [|by apply Hr2]. eapply rtc_l; [exact He|by apply Hr1].
      * intros u [->|Hu]%elem_of_cons Hul; [|by apply Hall].
        rewrite Heq2. set_solver.
    + simpl. destruct (IH acc) as (acc2 & -> & Hpost & Hall); [set_solver|done|].
      exists acc2. split; [done|]. split; [done|].
      intros u [->|Hu]%elem_of_cons Hul; [lia|by apply Hall].
Qed.

Lemma dfs_spec depth path s acc :
  (n < depth + length path)%nat → s < lenN (DFA.states dfa) →
  (∀ x, x ∈ path → tc E x s) → dfs_inv path acc →
  ∃ acc', dfs dfa depth s acc = Some acc' ∧ dfs_post path s acc acc' ∧ s ∈ acc'.2.
Proof using Hac.
  revert path s acc. induction depth as [|depth IH]; intros path s acc Hd Hs Hpath Hinv.
  { exfalso. enough (length path ≤ n)%nat by lia. apply NoDup_bounded_length.
    - by destruct Hinv as [_ _ [? _]%NoDup_app _].
    - intros x Hx. eapply dfs_inv_lt; [done|]. set_solver. }
  destruct acc as [visited order]. cbn [dfs].
  destruct (visited.[s]) as [[|]|] eqn:Ev.
  - exists (visited, order). split; [done|]. split.
    + split; [done|]. exists []. rewrite app_nil_r. set_solver.
    + apply (dfs_visited _ _ Hinv) in Ev as [Hin|?]%elem_of_app; [|done].
      by destruct (Hac s (Hpath s Hin)).
  - pose proof (dfs_inv_visit _ _ _ _ Hinv Ev) as Hinv1.
    assert (Htg : ∀ t, t ∈ (match (DFA.states dfa).[s] with Some st => DFA.targets st | None => [] end)
      ∧ t < lenN (DFA.states dfa) ↔ E s t).
    { intros t. rewrite DFAFacts.edge_delta. unfold DFA.delta.
      destruct ((DFA.states dfa).[s]) as [st|] eqn:Est; simpl.
      - rewrite DFAFacts.elem_of_targets. naive_solver.
      - rewrite elem_of_nil. naive_solver. }
    set (ts := match (DFA.states dfa).[s] with Some st => DFA.targets st | None => [] end) in *.
    destruct (dfs_targets_spec depth path s ts (alterN (λ _, true) visited s, order))
      as ([visited2 order2] & -> & (Hinv2 & new & Heq & Hr) & Hall); [| |done|].
    + intros t acc Ht He Hacc. apply IH; [simpl; lia|done| |done].
      intros x [->|Hx]%elem_of_cons; [by apply tc_once|].
      eapply tc_r; [by apply Hpath|done].
    + intros t Ht Hlt. by apply Htg.
    + simpl. eexists. split; [done|]. simpl in *. split; [split|].
      * apply dfs_inv_finish; [done|]. intros t He%Htg. naive_solver.
      * exists (new ++ [s]). rewrite Heq, app_assoc. split; [done|].
        intros x [Hx|Hx]%elem_of_app; [by apply Hr|]. by apply list_elem_of_singleton in Hx as ->.
      * set_solver.
  - exfalso. apply nthN_None in Ev. pose proof (dfs_len _ _ Hinv) as Hl.
    unfold lenN in *. simpl in *. lia.
Qed.

(** From a start that is a state, the order holds the states reachable from
    the start, once each, targets before sources, the start last. *)
Lemma reverse_topological_order_spec :
  DFA.start_state dfa < lenN (DFA.states dfa) →
  ∃ order, reverse_topological_order dfa = Some order ∧ NoDup order ∧ targets_first order ∧
    (∀ i, i ∈ order → i < lenN (DFA.states dfa) ∧ rtc E (DFA.start_state dfa) i) ∧
    DFA.start_state dfa ∈ order.
Proof using Hac.
  intros Hs. unfold reverse_topological_order.
  destruct (dfs_spec (S n) [] (DFA.start_state dfa) (replicate n false, []))
    as ([visited order] & -> & (Hinv & new & Heq & Hr) & Hin); [simpl; lia|done|set_solver| |].
  - split; simpl; [by rewrite length_replicate| |constructor|].
    + intros i. rewrite nthN_replicate, elem_of_nil. case_match; naive_solver.
    + intros pre s post t Hnil. by destruct pre.
  - simpl in *. exists order. split; [done|]. split; [apply Hinv|]. split; [apply Hinv|].
    split; [|done]. intros i Hi. split; [by eapply (dfs_inv_lt [] (visited, order))|].
    apply Hr. by rewrite <-Heq.
Qed.
End dfs_spec.

(** * Classes are residual languages *)

Section signatures.
Context (dfa : DFA.t).
#[local] Abbreviation n := (lenN (DFA.states dfa)).

(** The class a target is looked up to. *)
Definition class_at (cls : list N) (i : N) : N := default DEAD_CLASS cls.[i].

(** The signature of an index; an index that is no state looks dead. *)
Definition signature_at (cls : list N) (i : N) : StateSignature.t :=
  default (StateSignature.mk false []) (state_signature dfa i cls DEAD_CLASS).

Lemma state_signature_at cls i :
  i < n → state_signature dfa i cls DEAD_CLASS = Some (signature_at cls i).
Proof.
  intros Hi. unfold signature_at, state_signature. apply nthN_Some_lt in Hi as [st ->]. done.
Qed.

Lemma signature_at_accepting cls i :
  StateSignature.is_accepting (signature_at cls i) = DFA.accepting dfa i.
Proof.
  unfold signature_at, state_signature, DFA.accepting. by destruct ((DFA.states dfa).[i]).
Qed.

Lemma elem_of_signature_at cls i l k :
  (l, k) ∈ StateSignature.transitions (signature_at cls i) ↔
  k ≠ DEAD_CLASS ∧ ∃ t, DFA.delta dfa i l = Some t ∧ class_at cls t = k.
Proof.
  unfold signature_at, state_signature, DFA.delta.
  destruct ((DFA.states dfa).[i]) as [st|]; simpl; [|rewrite elem_of_nil; naive_solver].
  unfold signature_transitions. rewrite list_elem_of_omap. split.
  - intros ([l' t] & Hin%elem_of_bt_iter & Heq). simpl in Heq.
    destruct (N.eqb_spec (default DEAD_CLASS cls.[t]) DEAD_CLASS); [done|].
    injection Heq as <- <-. eauto.
  - intros (Hk & t & Ht & Hcls). exists (l, t). rewrite elem_of_bt_iter. split; [done|].
    simpl. unfold class_at in Hcls. rewrite Hcls. by destruct (N.eqb_spec k DEAD_CLASS).
Qed.

Lemma signature_at_sorted cls i : label_sorted (StateSignature.transitions (signature_at cls i)).
Proof.
  unfold signature_at, state_signature.
  destruct ((DFA.states dfa).[i]) as [st|]; simpl; [|constructor].
  apply label_sorted_omap; [|apply label_iter_sorted].
  intros [l t] [l' k] Heq. simpl in *. by case_match; simplify_eq.
Qed.

(** Signatures agree when acceptance and the live transitions agree. *)
Lemma signature_at_eq cls i j :
  signature_at cls i = signature_at cls j ↔
  DFA.accepting dfa i = DFA.accepting dfa j ∧
  ∀ l k, k ≠ DEAD_CLASS →
    (∃ t, DFA.delta dfa i l = Some t ∧ class_at cls t = k) ↔
    (∃ t, DFA.delta dfa j l = Some t ∧ class_at cls t = k).
Proof.
  split.
  - intros Heq. rewrite <-!(signature_at_accepting cls), Heq. split; [done|].
    intros l k Hk. pose proof (elem_of_signature_at cls i l k) as Hi.
    pose proof (elem_of_signature_at cls j l k) as Hj. rewrite Heq in Hi. naive_solver.
  - intros [Ha Ht]. pose proof (signature_at_accepting cls i) as Hi.
    pose proof (signature_at_accepting cls j) as Hj.
    assert (StateSignature.transitions (signature_at cls i) =
            StateSignature.transitions (signature_at cls j)) as Heq.
    { apply label_sorted_ext; [apply signature_at_sorted..|]. intros [l k].
      rewrite !elem_of_signature_at. naive_solver. }
    destruct (signature_at cls i), (signature_at cls j). simpl in *. congruence.
Qed.

Lemma signature_at_ext cls cls' i :
  (∀ l t, DFA.delta dfa i l = Some t → class_at cls t = class_at cls' t) →
  signature_at cls i = signature_at cls' i.
Proof.
  intros Heq. unfold signature_at, state_signature, DFA.delta in *.
  destruct ((DFA.states dfa).[i]) as [st|]; simpl in *; [|done]. f_equal.
  unfold signature_transitions. assert (Hin : ∀ l t, (l, t) ∈ label_iter (DFAState.transitions st) →
    class_at cls t = class_at cls' t) by (intros l t Ht%elem_of_bt_iter; exact (Heq l t Ht)).
  unfold class_at in Hin. induction (label_iter (DFAState.transitions st)) as [|[l t] ts IH]; [done|].
  assert (IH' := IH (λ l' t' Ht', Hin l' t' (list_elem_of_further _ _ _ Ht'))).
  cbn. rewrite (Hin l t) by (by left). case_match; [f_equal|]; exact IH'.
Qed.

(** Where the classes of the targets are their residual languages, equal
    signatures are equal residual languages. *)
Lemma signature_same_language cls (T : N → Prop) i j :
  (∀ x y, T x → T y → class_at cls x = class_at cls y ↔ DFA.same_language dfa x y) →
  (∀ x, T x → class_at cls x = DEAD_CLASS ↔ DFA.dead dfa x) →
  (∀ l t, DFA.delta dfa i l = Some t → T t) →
  (∀ l t, DFA.delta dfa j l = Some t → T t) →
  signature_at cls i = signature_at cls j ↔ DFA.same_language dfa i j.
Proof.
  intros Hlang Hdead Hi Hj. rewrite signature_at_eq. split.
  - intros [Ha Ht] w. destruct w as [|l w]; [done|]. rewrite !DFAFacts.accepts_from_cons.
    specialize (Ht l).
    destruct (DFA.delta dfa i l) as [t|] eqn:Ei.
    + destruct (N.eq_dec (class_at cls t) DEAD_CLASS) as [Hz|Hnz].
      * assert (Hd : DFA.dead dfa t) by (apply Hdead; eauto). rewrite Hd.
        destruct (DFA.delta dfa j l) as [t'|] eqn:Ej; [|done].
        destruct (N.eq_dec (class_at cls t') DEAD_CLASS) as [Hz'|Hnz'].
        -- symmetry. apply Hdead; eauto.
        -- destruct (Ht _ Hnz') as [_ (u & [= <-] & Hu)]; [eauto|]. congruence.
      * destruct (Ht _ Hnz) as [(u & Eu & Hu) _]; [eauto|]. rewrite Eu. apply Hlang; [eauto..|done].
    + destruct (DFA.delta dfa j l) as [t'|] eqn:Ej; [|done].
      destruct (N.eq_dec (class_at cls t') DEAD_CLASS) as [Hz'|Hnz'].
      * symmetry. apply Hdead; eauto.
      * destruct (Ht _ Hnz') as [_ (u & [=] & _)]; eauto.
  - assert (Hhalf : ∀ i j, (∀ l t, DFA.delta dfa i l = Some t → T t) →
      (∀ l t, DFA.delta dfa j l = Some t → T t) → DFA.same_language dfa i j →
      ∀ l k, k ≠ DEAD_CLASS →
      (∃ t, DFA.delta dfa i l = Some t ∧ class_at cls t = k) →
      (∃ t, DFA.delta dfa j l = Some t ∧ class_at cls t = k)).
    { clear i j Hi Hj. intros i j Hi Hj Hsame l k Hk (t & Ht & Hcls).
      assert (Hw : ∀ w, DFA.accepts_from dfa t w =
        match DFA.delta dfa j l with Some u => DFA.accepts_from dfa u w | None => false end).
      { intros w. specialize (Hsame (l :: w)). rewrite !DFAFacts.accepts_from_cons, Ht in Hsame. done. }
      destruct (DFA.delta dfa j l) as [u|] eqn:Ej.
      - exists u. split; [done|]. rewrite <-Hcls. symmetry. apply Hlang; eauto.
      - destruct Hk. rewrite <-Hcls. apply Hdead; eauto. }
    intros Hsame. split; [exact (Hsame [])|]. intros l k Hk. split; apply Hhalf; by symmetry || done.
Qed.
End signatures.

(** * The classification loop *)

Section classification.
Context (dfa : DFA.t).
#[local] Abbreviation n := (lenN (DFA.states dfa)).

(** The indices classified after the prefix [pre]: an index that is no state
    belongs to the dead class from the start. *)
Definition classified (pre : list N) (i : N) : Prop := i ∈ pre ∨ n ≤ i.

Record class_inv (pre : list N) (c : classes) : Prop := {
  ci_len : length (class_of_state c) = length (DFA.states dfa);
  ci_lang : ∀ i j, classified pre i → classified pre j →
    class_at (class_of_state c) i = class_at (class_of_state c) j ↔ DFA.same_language dfa i j;
  ci_map : ∀ sg k, signature_to_class c !! sg = Some k ↔
    ∃ i, classified pre i ∧ signature_at dfa (class_of_state c) i = sg ∧
         class_at (class_of_state c) i = k;
  ci_reps_len : lenN (class_representatives c) = next_class_id c;
  ci_next : 1 ≤ next_class_id c ∧ next_class_id c ≤ 1 + lenN pre;
  ci_bound : ∀ i, classified pre i → class_at (class_of_state c) i < next_class_id c;
  ci_reps : ∀ k, 1 ≤ k → k < next_class_id c →
    ∃ i, (class_representatives c).[k] = Some (Some i) ∧ i ∈ pre ∧ class_at (class_of_state c) i = k;
}.

Lemma class_at_out cls i : lenN cls ≤ i → class_at cls i = DEAD_CLASS.
Proof. intros Hi. unfold class_at. by rewrite (proj2 (nthN_None _ _) Hi). Qed.

Lemma class_at_alterN cls i k x :
  i < lenN cls → class_at (alterN (λ _, k) cls i) x = if x =? i then k else class_at cls x.
Proof.
  intros Hi. unfold class_at. rewrite nthN_alterN.
  destruct (N.eqb_spec x i) as [Hx|]; [|done]. subst x.
  by apply nthN_Some_lt in Hi as [y ->].
Qed.

Lemma ci_dead pre c : class_inv pre c →
  ∀ i, classified pre i → class_at (class_of_state c) i = DEAD_CLASS ↔ DFA.dead dfa i.
Proof.
  intros Hc i Hi. assert (Hn : classified pre n) by (right; lia).
  rewrite <-(class_at_out (class_of_state c) n)
    by (unfold lenN; rewrite (ci_len _ _ Hc); done).
  rewrite (ci_lang _ _ Hc) by done. pose proof (DFAFacts.out_of_range_dead dfa n) as Hd.
  split; intros H; [eapply DFAFacts.same_language_dead; [by symmetry|apply Hd; lia]|].
  apply DFAFacts.dead_same_language; [done|apply Hd; lia].
Qed.

Lemma class_inv_init : class_inv [] (classes_init dfa).
Proof.
  assert (Hz : ∀ i, class_at (class_of_state (classes_init dfa)) i = DEAD_CLASS).
  { intros i. unfold class_at. simpl. rewrite nthN_replicate. by case_match. }
  assert (Hcl : ∀ i, classified [] i → n ≤ i) by (intros i [Hi|]; [by apply elem_of_nil in Hi|done]).
  split.
  - simpl. by rewrite length_replicate.
  - intros i j Hi%Hcl Hj%Hcl. rewrite !Hz. split; [|done]. intros _.
    apply DFAFacts.dead_same_language; by apply DFAFacts.out_of_range_dead.
  - intros sg k.
    assert (Hsig : ∀ i, n ≤ i → signature_at dfa (class_of_state (classes_init dfa)) i = StateSignature.mk false []).
    { intros i Hi%nthN_None. unfold signature_at, state_signature. by rewrite Hi. }
    simpl signature_to_class. rewrite lookup_singleton. case_decide as Hsg.
    + split; [intros [= <-]; exists n; split; [right; lia|]; by rewrite Hsig, Hz|].
      intros (i & Hi%Hcl & _ & <-). by rewrite Hz.
    + split; [done|]. intros (i & Hi%Hcl & <- & _). by rewrite Hsig in Hsg.
  - done.
  - simpl. unfold lenN. simpl. lia.
  - intros i _. rewrite Hz. simpl. unfold DEAD_CLASS. lia.
  - simpl. intros k ? ?. lia.
Qed.

Lemma classified_snoc pre s i : classified (pre ++ [s]) i ↔ i = s ∨ classified pre i.
Proof. unfold classified. rewrite elem_of_app, list_elem_of_singleton. tauto. Qed.

(** The step context: [s] is the next state, all targets are classified. *)
Definition next_to_classify (pre : list N) (s : N) : Prop :=
  s < n ∧ s ∉ pre ∧ ∀ i l t, i = s ∨ classified pre i → DFA.delta dfa i l = Some t → classified pre t.

Definition class_choice (c : classes) (s k : N) (reps : list (option N)) (next : N) : Prop :=
  (signature_to_class c !! signature_at dfa (class_of_state c) s = Some k ∧
   reps = class_representatives c ∧ next = next_class_id c) ∨
  (signature_to_class c !! signature_at dfa (class_of_state c) s = None ∧ k = next_class_id c ∧
   reps = class_representatives c ++ [Some s] ∧ next = next_class_id c + 1).

(** What one iteration does, whether or not the signature is known. *)
Lemma classify_eq c s :
  s < n → ∃ k reps next,
    classify dfa c s = Some (Classes
      (<[signature_at dfa (class_of_state c) s := k]> (signature_to_class c))
      (alterN (λ _, k) (class_of_state c) s) reps next) ∧ class_choice c s k reps next.
Proof.
  intros Hs. unfold classify, class_choice. rewrite state_signature_at by done. simpl.
  destruct (signature_to_class c !! _) as [k|] eqn:E.
  - exists k. do 2 eexists. rewrite insert_id by done. naive_solver.
  - do 3 eexists. naive_solver.
Qed.

(** The chosen class is that of the classified indices with the same language. *)
Lemma class_choice_language pre c s k reps next :
  class_inv pre c → next_to_classify pre s → class_choice c s k reps next →
  ∀ i, classified pre i → class_at (class_of_state c) i = k ↔ DFA.same_language dfa i s.
Proof.
  intros Hc (Hs & Hni & Hts) Hcase.
  assert (Hsame : ∀ i, classified pre i →
    signature_at dfa (class_of_state c) i = signature_at dfa (class_of_state c) s ↔
    DFA.same_language dfa i s).
  { intros i Hi. apply (signature_same_language dfa _ (classified pre)); eauto.
    - apply (ci_lang _ _ Hc).
    - apply (ci_dead _ _ Hc). }
  intros i Hi. rewrite <-Hsame by done. destruct Hcase as [(Hm & _)|(Hm & -> & _)].
  - apply (ci_map _ _ Hc) in Hm as (j & Hj & Hsj & <-). apply Hsame in Hsj; [|done].
    rewrite (ci_lang _ _ Hc), Hsame by done. split; intros H; by rewrite H.
  - split; intros Heq.
    + pose proof (ci_bound _ _ Hc i Hi). lia.
    + assert (signature_to_class c !! signature_at dfa (class_of_state c) s =
        Some (class_at (class_of_state c) i)) as Hm' by (apply (ci_map _ _ Hc); eauto).
      congruence.
Qed.

Section extend.
Context (pre : list N) (c : classes) (s k : N) (reps : list (option N)) (next : N).
Context (Hc : class_inv pre c) (Hs : next_to_classify pre s) (Hk : class_choice c s k reps next).
#[local] Abbreviation cls := (class_of_state c).
#[local] Abbreviation cls' := (alterN (λ _, k) (class_of_state c) s).

Lemma extend_class_new : class_at cls' s = k.
Proof using Hc Hs.
  destruct Hs as (Hsn & _ & _). rewrite class_at_alterN, N.eqb_refl; [done|].
  unfold lenN. by rewrite (ci_len _ _ Hc).
Qed.

Lemma extend_class_old i : classified pre i → class_at cls' i = class_at cls i.
Proof using Hc Hs.
  destruct Hs as (Hsn & Hni & _). intros Hi. rewrite class_at_alterN.
  - destruct (N.eqb_spec i s) as [Heq|]; [|done]. destruct Hi as [Hi|Hi]; [by subst|lia].
  - unfold lenN. by rewrite (ci_len _ _ Hc).
Qed.

Lemma extend_signature i :
  i = s ∨ classified pre i → signature_at dfa cls' i = signature_at dfa cls i.
Proof using Hc Hs.
  destruct Hs as (_ & _ & Hts). intros Hi. apply signature_at_ext. intros l t Ht.
  apply extend_class_old. eauto.
Qed.

Lemma extend_map sg k' :
  <[signature_at dfa cls s := k]> (signature_to_class c) !! sg = Some k' ↔
  ∃ i, classified (pre ++ [s]) i ∧ signature_at dfa cls' i = sg ∧ class_at cls' i = k'.
Proof using Hc Hs Hk.
  pose proof (class_choice_language _ _ _ _ _ _ Hc Hs Hk) as Hlang.
  rewrite lookup_insert. setoid_rewrite classified_snoc. case_decide as Hsg.
  - subst sg. split.
    + intros [= <-]. exists s. rewrite extend_class_new, extend_signature; naive_solver.
    + intros (i & [->|Hi] & Hsi & <-); [by rewrite extend_class_new|].
      rewrite extend_signature in Hsi by auto. rewrite extend_class_old by done.
      f_equal. symmetry. apply Hlang; [done|].
      apply (signature_same_language dfa cls (classified pre)); [..|exact Hsi].
      * apply (ci_lang _ _ Hc).
      * apply (ci_dead _ _ Hc).
      * destruct Hs as (_ & _ & Hts). eauto.
      * destruct Hs as (_ & _ & Hts). eauto.
  - rewrite (ci_map _ _ Hc). split.
    + intros (i & Hi & <- & <-). exists i. rewrite extend_signature, extend_class_old by auto. auto.
    + intros (i & [->|Hi] & Hsi & <-); rewrite extend_signature in Hsi by auto; [congruence|].
      exists i. rewrite extend_class_old by done. auto.
Qed.

Lemma extend_reps x :
  1 ≤ x → x < next → ∃ i, reps.[x] = Some (Some i) ∧ i ∈ pre ++ [s] ∧ class_at cls' i = x.
Proof using Hc Hs Hk.
  intros Hx1 Hx2. destruct (decide (x < next_class_id c)) as [Hx|Hge].
  - destruct (ci_reps _ _ Hc x Hx1 Hx) as (i & Hi & Hin & Hcls).
    exists i. rewrite extend_class_old by (by left). split; [|split; [set_solver|done]].
    destruct Hk as [(_ & -> & _)|(_ & _ & -> & _)]; [done|].
    rewrite nthN_app_l; [done|]. by eapply nthN_lt.
  - pose proof extend_class_new as Hnew. destruct Hk as [(_ & _ & ->)|(_ & Heq & -> & ->)]; [lia|].
    exists s. assert (x = next_class_id c) as -> by lia. rewrite Hnew.
    rewrite <-(ci_reps_len _ _ Hc), nthN_app_last. rewrite Heq, (ci_reps_len _ _ Hc).
    split; [done|]. split; [set_solver|done].
Qed.

Lemma class_inv_extend :
  class_inv (pre ++ [s]) (Classes (<[signature_at dfa cls s := k]> (signature_to_class c)) cls' reps next).
Proof using Hc Hs Hk.
  pose proof (class_choice_language _ _ _ _ _ _ Hc Hs Hk) as Hlang.
  split; cbn [signature_to_class class_of_state class_representatives next_class_id].
  - rewrite length_alterN. apply (ci_len _ _ Hc).
  - intros i j. rewrite !classified_snoc.
    intros [->|Hi] [->|Hj]; rewrite ?extend_class_new, ?extend_class_old by done; [done| | |].
    + split; intros H; [symmetry; apply Hlang; [done|by symmetry]|symmetry; apply Hlang; [done|by symmetry]].
    + by apply Hlang.
    + by apply (ci_lang _ _ Hc).
  - exact extend_map.
  - destruct Hk as [(_ & -> & ->)|(_ & _ & -> & ->)]; [apply (ci_reps_len _ _ Hc)|].
    rewrite lenN_snoc. f_equal. apply (ci_reps_len _ _ Hc).
  - pose proof (ci_next _ _ Hc). rewrite lenN_snoc.
    destruct Hk as [(_ & _ & ->)|(_ & _ & _ & ->)]; lia.
  - assert (Hkn : k < next ∧ next_class_id c ≤ next).
    { destruct Hk as [(Hm & _ & ->)|(_ & -> & _ & ->)]; [|lia]. split; [|done].
      apply (ci_map _ _ Hc) in Hm as (i & Hi & _ & <-). by apply (ci_bound _ _ Hc). }
    intros i [->|Hi]%classified_snoc; rewrite ?extend_class_new, ?extend_class_old by done; [lia|].
    pose proof (ci_bound _ _ Hc i Hi). lia.
  - exact extend_reps.
Qed.
End extend.

(** Classifying the states in an order with targets first. *)
Lemma classify_all order :
  NoDup order → (∀ i, i ∈ order → i < n) → targets_first dfa order →
  ∃ c, foldM (classify dfa) (classes_init dfa) order = Some c ∧ class_inv order c.
Proof.
  induction order as [|s order IH] using rev_ind; intros Hnd Hlt Htf.
  { eexists. split; [done|apply class_inv_init]. }
  apply NoDup_app in Hnd as (Hnd & Hdis & _).
  assert (Htf' : ∀ i l t, i = s ∨ i ∈ order → DFA.delta dfa i l = Some t → classified order t).
  { intros i l t Hi Hd. destruct (decide (t < n)) as [Ht|]; [left|right; lia].
    assert (He : edge (DFA.adjacency dfa) i t) by (apply DFAFacts.edge_delta; eauto).
    destruct Hi as [->|(pre & post & ->)%list_elem_of_split]; [by eapply Htf|].
    assert (t ∈ pre); [|set_solver]. eapply Htf; [|done]. by rewrite <-app_assoc. }
  destruct IH as (c & Hf & Hc); [done|set_solver| |].
  { intros pre i post t -> He. eapply Htf; [|done]. by rewrite <-app_assoc. }
  rewrite foldM_app, Hf. simpl.
  destruct (classify_eq c s) as (k & reps & next & -> & Hk); [set_solver|]. simpl.
  eexists. split; [done|]. apply class_inv_extend; [done| |done].
  split; [set_solver|]. split; [set_solver|].
  intros i l t [->|[Hi|Hi]] Hd; [eauto..|]. apply DFAFacts.delta_lt in Hd. lia.
Qed.
End classification.

(** * The built automaton *)

Section built.
Context (dfa : DFA.t) (order : list N) (c : classes).
#[local] Abbreviation n := (lenN (DFA.states dfa)).
#[local] Abbreviation cls := (class_of_state c).
#[local] Abbreviation reps := (class_representatives c).
Context (Hc : class_inv dfa order c) (Hn : n ≤ u32_modulus).
Context (Hnodup : NoDup order) (Hlt : ∀ i, i ∈ order → i < n).
Context (Hclosed : ∀ i l t, i ∈ order → DFA.delta dfa i l = Some t → classified dfa order t).

Lemma class_small i : classified dfa order i → class_at cls i ≤ u32_modulus.
Proof using All.
  intros Hi. pose proof (ci_bound _ _ _ Hc i Hi). destruct (ci_next _ _ _ Hc) as [_ Hnext].
  assert (length order ≤ length (DFA.states dfa))%nat by (by apply NoDup_bounded_length).
  unfold lenN in *. lia.
Qed.

Lemma minimized_row_total r :
  r ∈ tail reps → is_Some (minimized_row dfa cls DEAD_CLASS r).
Proof using All.
  intros (k & Hk)%list_elem_of_lookup. rewrite lookup_tail in Hk.
  assert (Hk' : reps.[N.of_nat (S k)] = Some r) by (by rewrite nthN_of_nat).
  destruct (ci_reps _ _ _ Hc (N.of_nat (S k))) as (i & Hi & Hin & _); [lia| |].
  { rewrite <-(ci_reps_len _ _ _ Hc). by eapply nthN_lt. }
  rewrite Hk' in Hi. injection Hi as ->. unfold minimized_row. simpl.
  apply Hlt, nthN_Some_lt in Hin as [st ->]. by eexists.
Qed.

Lemma minimized_row_spec i row l u :
  minimized_row dfa cls DEAD_CLASS (Some i) = Some row → i ∈ order →
  DFAState.is_accepting row = DFA.accepting dfa i ∧
  (DFAState.transitions row !! l = Some u ↔
   ∃ t, DFA.delta dfa i l = Some t ∧ class_at cls t ≠ DEAD_CLASS ∧ u = class_at cls t - 1).
Proof using All.
  unfold minimized_row, DFA.accepting, DFA.delta. simpl. intros Hrow Hin.
  pose proof (Hclosed i) as Hcl. unfold DFA.delta in Hcl.
  destruct ((DFA.states dfa).[i]) as [st|]; [|done]. simpl in *. injection Hrow as <-.
  split; [done|]. simpl. rewrite bt_collect_lookup.
  - rewrite list_elem_of_omap. split.
    + intros ([l' t] & Ht%elem_of_bt_iter & Heq). simpl in Heq.
      destruct (N.eqb_spec (default DEAD_CLASS cls.[t]) DEAD_CLASS) as [|Hnz]; [done|].
      injection Heq as <- <-. exists t. split; [done|]. split; [done|].
      pose proof (class_small t (Hcl l' t Hin Ht)) as Hsm. unfold class_at, DEAD_CLASS in *.
      rewrite as_u32_small by lia. done.
    + intros (t & Ht & Hnz & ->). exists (l, t). rewrite elem_of_bt_iter. split; [done|]. simpl.
      pose proof (class_small t (Hcl l t Hin Ht)) as Hsm. unfold class_at, DEAD_CLASS in *.
      destruct (N.eqb_spec (default 0 cls.[t]) 0) as [|_]; [done|]. rewrite as_u32_small by lia. done.
  - apply label_sorted_NoDup, label_sorted_omap; [|apply label_iter_sorted].
    intros [l1 t1] [l2 t2] Heq. simpl in *. by case_match; simplify_eq.
Qed.

Context (rows : list DFAState.t) (Hrows : mapM (minimized_row dfa cls DEAD_CLASS) (tail reps) = Some rows).
Context (start_class : N).
#[local] Abbreviation built := (DFA.mk rows (as_u32 (start_class - 1))).

Lemma built_len : lenN rows + 1 = next_class_id c.
Proof using All.
  rewrite <-(ci_reps_len _ _ _ Hc). apply mapM_Some in Hrows as Hf%Forall2_length.
  pose proof (ci_next _ _ _ Hc) as Hn1. rewrite <-(ci_reps_len _ _ _ Hc) in Hn1.
  destruct reps as [|r rs]; unfold lenN in *; simpl in *; lia.
Qed.

(** A live class is one state of the result, that of its representative. *)
Lemma built_state k :
  k ≠ DEAD_CLASS → k < next_class_id c → ∃ i, i ∈ order ∧ class_at cls i = k ∧
    DFA.accepting built (k - 1) = DFA.accepting dfa i ∧
    ∀ l u, DFA.delta built (k - 1) l = Some u ↔
      ∃ t, DFA.delta dfa i l = Some t ∧ class_at cls t ≠ DEAD_CLASS ∧ u = class_at cls t - 1.
Proof using All.
  intros Hk Hlk. unfold DEAD_CLASS in Hk.
  destruct (ci_reps _ _ _ Hc k) as (i & Hi & Hin & Hcls); [lia|done|].
  exists i. split; [done|]. split; [done|].
  assert (Hrow : ∃ row, rows.[k - 1] = Some row ∧ minimized_row dfa cls DEAD_CLASS (Some i) = Some row).
  { apply mapM_Some in Hrows. rewrite nthN_lookup in Hi.
    replace (N.to_nat k) with (S (N.to_nat (k - 1))) in Hi by lia. rewrite <-lookup_tail in Hi.
    destruct (Forall2_lookup_l _ _ _ _ _ Hrows Hi) as (row & Hr & Hm).
    exists row. by rewrite nthN_lookup. }
  destruct Hrow as (row & Hr & Hm). unfold DFA.accepting at 1, DFA.delta at 1. simpl. rewrite Hr. simpl.
  split.
  - by apply (minimized_row_spec i row 0%Z 0 Hm Hin).
  - intros l u. by apply (minimized_row_spec i row l u Hm Hin).
Qed.

Lemma built_language w i :
  classified dfa order i → class_at cls i ≠ DEAD_CLASS →
  DFA.accepts_from built (class_at cls i - 1) w = DFA.accepts_from dfa i w.
Proof using All.
  revert i. induction w as [|l w IH]; intros i Hi Hk;
    destruct (built_state (class_at cls i)) as (j & Hj & Hcls & Hacc & Hdel);
    try (done || by apply (ci_bound _ _ _ Hc));
    assert (Hsame : DFA.same_language dfa i j) by (by apply (ci_lang _ _ _ Hc); [|left|]).
  - rewrite (Hsame []). apply Hacc.
  - rewrite (Hsame (l :: w)), !DFAFacts.accepts_from_cons. specialize (Hdel l).
    destruct (DFA.delta dfa j l) as [t|] eqn:Et.
    + assert (Ht : classified dfa order t) by eauto.
      destruct (N.eq_dec (class_at cls t) DEAD_CLASS) as [Hz|Hnz].
      * destruct (DFA.delta built _ l) as [u|]; [|symmetry; by apply (ci_dead _ _ _ Hc)].
        destruct (Hdel u) as [(t' & [= <-] & ? & _) _]; done.
      * assert (DFA.delta built (class_at cls i - 1) l = Some (class_at cls t - 1)) as ->
          by (apply Hdel; eauto). by apply IH.
    + destruct (DFA.delta built _ l) as [u|]; [|done].
      destruct (Hdel u) as [(t' & [=] & _) _]; done.
Qed.

Lemma acyclic_built_run w i j :
  i ∈ order → DFA.run_from dfa i w = Some j → j ∈ order → class_at cls j ≠ DEAD_CLASS →
  class_at cls i ≠ DEAD_CLASS ∧ DFA.run_from built (class_at cls i - 1) w = Some (class_at cls j - 1).
Proof using All.
  revert i. induction w as [|l w IH]; intros i Hi Hrun Hj Hnz; simpl in *; [naive_solver|].
  destruct (DFA.delta dfa i l) as [t|] eqn:Et; [|done]. simpl in Hrun.
  assert (Hti : t ∈ order).
  { destruct (Hclosed i l t Hi Et) as [|Hge]; [done|]. destruct w as [|l' w]; simpl in Hrun; [by injection Hrun as ->|].
    destruct (DFA.delta dfa t l') eqn:E2; [|done]. apply DFAFacts.delta_lt in E2. lia. }
  destruct (IH t Hti Hrun Hj Hnz) as [Htz Hrun'].
  assert (Hiz : class_at cls i ≠ DEAD_CLASS).
  { intros Hz. apply Htz. apply (ci_dead _ _ _ Hc); [by left|]. intros v.
    assert (Hd : DFA.dead dfa i) by (apply (ci_dead _ _ _ Hc); [by left|done]).
    specialize (Hd (l :: v)). by rewrite DFAFacts.accepts_from_cons, Et in Hd. }
  split; [done|].
  destruct (built_state (class_at cls i)) as (r & Hr & Hcls & _ & Hdel); [done|by apply (ci_bound _ _ _ Hc); left|].
  assert (Hsig : signature_at dfa cls i = signature_at dfa cls r).
  { apply (signature_same_language dfa cls (classified dfa order)); [apply (ci_lang _ _ _ Hc)
      |apply (ci_dead _ _ _ Hc)|eauto..|]. by apply (ci_lang _ _ _ Hc); [left..|]. }
  apply signature_at_eq in Hsig as [_ Hsig]. destruct (Hsig l _ Htz) as [(t' & Ht' & Hct') _]; [eauto|].
  assert (DFA.delta built (class_at cls i - 1) l = Some (class_at cls t - 1)) as ->.
  { apply Hdel. exists t'. rewrite Hct'. done. }
  simpl. done.
Qed.

Context (Hstart : DFA.start_state dfa ∈ order).
Context (Hsc : start_class = class_at cls (DFA.start_state dfa)) (Hlive : start_class ≠ DEAD_CLASS).
Context (Hreach : ∀ i, i ∈ order → ∃ w, DFA.run_from dfa (DFA.start_state dfa) w = Some i).

Lemma built_start : DFA.start_state built = class_at cls (DFA.start_state dfa) - 1.
Proof using All.
  simpl. rewrite <-Hsc. apply as_u32_small. unfold DEAD_CLASS in *.
  pose proof (class_small _ (or_introl Hstart)). unfold u32_modulus in *. lia.
Qed.

Lemma built_accepts w : DFA.accepts built w = DFA.accepts dfa w.
Proof using All.
  unfold DFA.accepts. rewrite built_start. apply built_language; [by left|]. by rewrite <-Hsc.
Qed.

Lemma built_source q :
  q < lenN rows → ∃ i, i ∈ order ∧ class_at cls i ≠ DEAD_CLASS ∧ q = class_at cls i - 1.
Proof using All.
  pose proof built_len as Hlen. intros Hq.
  destruct (ci_reps _ _ _ Hc (q + 1)) as (i & _ & Hi & Hcls); [lia..|].
  exists i. unfold DEAD_CLASS. split; [done|]. lia.
Qed.

Lemma built_reduced : DFA_reduced built.
Proof using All.
  split; cbn [DFA.states].
  - intros q Hq. destruct (built_source q Hq) as (i & Hi & Hnz & ->).
    destruct (Hreach i Hi) as (w & Hw). exists w. split; [|done]. rewrite built_start.
    by apply (acyclic_built_run w _ i Hstart).
  - intros q Hq Hd. destruct (built_source q Hq) as (i & Hi & Hnz & ->).
    apply Hnz, (ci_dead _ _ _ Hc); [by left|]. intros w.
    rewrite <-built_language by (by left || done). apply Hd.
  - intros q q' Hq Hq' Hsame. destruct (built_source q Hq) as (i & Hi & Hnz & ->).
    destruct (built_source q' Hq') as (j & Hj & Hnz' & ->). f_equal.
    apply (ci_lang _ _ _ Hc); [by left..|].
    intros w. rewrite <-!built_language by (by left || done). apply Hsame.
Qed.
End built.

(** * Minimization *)

(** The preconditions: the counters of the cycle test and the state ids fit
    [u32], and the start of a non-empty automaton is one of its states. *)
Record minimizable (dfa : DFA.t) : Prop := {
  mz_edges : DFA.edges_fit dfa;
  mz_states : lenN (DFA.states dfa) ≤ u32_modulus;
  mz_start : DFA.start_state dfa < lenN (DFA.states dfa);
}.

Definition minimizable_b (dfa : DFA.t) : bool :=
  (edge_count (DFA.adjacency dfa) <? u32_modulus) &&
  (lenN (DFA.states dfa) <=? u32_modulus) &&
  (DFA.start_state dfa <? lenN (DFA.states dfa)).

Lemma minimizable_b_spec dfa : minimizable_b dfa = true → minimizable dfa.
Proof.
  unfold minimizable_b. rewrite !andb_true_iff, !N.ltb_lt, N.leb_le. intros [[??]?]. by split.
Qed.

(** The order and the classification of an acyclic automaton. *)
Lemma classification_exists dfa :
  minimizable dfa → DFA.label_graph_acyclic dfa →
  ∃ order c, reverse_topological_order dfa = Some order ∧
    foldM (classify dfa) (classes_init dfa) order = Some c ∧ class_inv dfa order c ∧
    NoDup order ∧ DFA.start_state dfa ∈ order ∧ targets_first dfa order ∧
    (∀ i, i ∈ order → i < lenN (DFA.states dfa) ∧ ∃ w, DFA.run_from dfa (DFA.start_state dfa) w = Some i) ∧
    (∀ i l t, i ∈ order → DFA.delta dfa i l = Some t → classified dfa order t).
Proof.
  intros [_ _ Hstart] Hac.
  destruct (reverse_topological_order_spec dfa Hac Hstart) as (order & Ho & Hnd & Htf & Hin & Hs).
  destruct (classify_all dfa order) as (c & Hf & Hc); [done|intros i Hi; by apply Hin|done|].
  exists order, c. do 6 (split; [done|]). split.
  - intros i Hi. destruct (Hin i Hi) as [? Hr]. split; [done|]. by apply DFAFacts.reach_run.
  - intros i l t Hi Ht. destruct (decide (t < lenN (DFA.states dfa))) as [Hlt|]; [left|right; lia].
    apply list_elem_of_split in Hi as (pre & post & ->).
    assert (t ∈ pre); [|set_solver]. eapply Htf; [done|]. apply DFAFacts.edge_delta. eauto.
Qed.

(** The result: the empty automaton with one state for the empty language, a
    reduced automaton otherwise. *)
Lemma minimize_acyclic_unchecked_spec dfa :
  minimizable dfa → DFA.label_graph_acyclic dfa →
  ∃ d, minimize_acyclic_unchecked dfa = Some d ∧
    (∀ w, DFA.accepts d w = DFA.accepts dfa w) ∧ (d = DFA.new ∨ DFA_reduced d).
Proof.
  intros Hm Hac.
  destruct (classification_exists dfa Hm Hac)
    as (order & c & Ho & Hf & Hc & Hnd & Hs & _ & Hin & Hcl).
  assert (Hlt : ∀ i, i ∈ order → i < lenN (DFA.states dfa)) by (intros i Hi; by apply Hin).
  destruct Hm as [_ Hn Hstart]. unfold minimize_acyclic_unchecked.
  destruct (N.eqb_spec (lenN (DFA.states dfa)) 0) as [Hz|_]; [lia|].
  rewrite Ho. simpl. rewrite Hf. simpl. unfold build_minimized_acyclic_dfa.
  assert (Hsc : (class_of_state c).[DFA.start_state dfa] =
                Some (class_at (class_of_state c) (DFA.start_state dfa))).
  { unfold class_at. destruct (proj1 (nthN_Some_lt (class_of_state c) (DFA.start_state dfa))) as [x ->]; [|done].
    unfold lenN in *. by rewrite (ci_len _ _ _ Hc). }
  rewrite Hsc. simpl. set (sc := class_at _ _).
  destruct (N.eqb_spec sc DEAD_CLASS) as [Hdead|Hlive].
  - exists DFA.new. split; [done|]. split; [|by left]. intros w.
    assert (Hd : DFA.dead dfa (DFA.start_state dfa)) by (apply (ci_dead _ _ _ Hc); [by left|done]).
    unfold DFA.accepts at 2. rewrite Hd. by destruct w.
  - destruct (proj2 (mapM_is_Some (minimized_row dfa (class_of_state c) DEAD_CLASS)
      (tail (class_representatives c)))) as [rows Hrows].
    { apply Forall_forall. intros r Hr. by apply (minimized_row_total dfa order c). }
    assert (Hreach : ∀ i, i ∈ order → ∃ w, DFA.run_from dfa (DFA.start_state dfa) w = Some i)
      by (intros i Hi; by apply Hin).
    rewrite Hrows. simpl. eexists. split; [done|]. split; [|right].
    + intros w. by apply (built_accepts dfa order c).
    + by apply (built_reduced dfa order c).
Qed.

(** C26: On every acyclic automaton whose start is a state, [minimize_acyclic]
    returns an automaton for the same language that has at most as many states
    as any automaton for it (at least one state). *)
Theorem minimize_acyclic_correct (dfa : DFA.t) :
  minimizable dfa → DFA.label_graph_acyclic dfa →
  ∃ d, minimize_acyclic dfa = Some d ∧ (∀ w, DFA.accepts d w = DFA.accepts dfa w) ∧
    ∀ d', (∀ w, DFA.accepts d' w = DFA.accepts dfa w) →
      (length (DFA.states d) ≤ Nat.max 1 (length (DFA.states d')))%nat.
Proof.
  intros Hm Hac. unfold minimize_acyclic, DFA.compute_is_acyclic.
  rewrite (proj2 (is_acyclic_spec _ (mz_edges _ Hm)) Hac).
  destruct (minimize_acyclic_unchecked_spec dfa Hm Hac) as (d & -> & Hlang & Hred).
  exists d. split; [done|]. split; [done|]. intros d' Hd'. destruct Hred as [->|Hred]; [simpl; lia|].
  pose proof (reduced_smallest d d' Hred) as Hle.
  assert (length (DFA.states d) ≤ length (DFA.states d'))%nat; [|lia].
  apply Hle. intros w. by rewrite Hd', Hlang.
Qed.

(** [try_minimize_acyclic] fails exactly on the cyclic automata, with their
    number of states, and otherwise returns what [minimize_acyclic] returns. *)
Theorem try_minimize_acyclic_correct (dfa : DFA.t) :
  minimizable dfa →
  (DFA.label_graph_acyclic dfa ∧
     ∃ d, try_minimize_acyclic dfa = Some (inl d) ∧ minimize_acyclic dfa = Some d) ∨
  (¬ DFA.label_graph_acyclic dfa ∧ minimize_acyclic dfa = None ∧
     try_minimize_acyclic dfa = Some (inr (mkCyclicAcyclicInput (lenN (DFA.states dfa))))).
Proof.
  intros Hm. unfold try_minimize_acyclic, minimize_acyclic.
  pose proof (is_acyclic_spec _ (mz_edges _ Hm)) as Hspec.
  unfold DFA.label_graph_acyclic, DFA.compute_is_acyclic.
  destruct (is_acyclic (DFA.adjacency dfa)) eqn:E.
  - left. assert (Hac := proj1 Hspec eq_refl). split; [done|].
    destruct (minimize_acyclic_unchecked_spec dfa Hm Hac) as (d & -> & _). by exists d.
  - right. split; [|done]. intros Hac%Hspec. done.
Qed.

(** Two leaves and an unreachable state; the same with a cycle. *)
Definition dfa_two_leaves : DFA.t :=
  DFA.mk [DFAState.mk false (<[1%Z := 1]> {[ 2%Z := 2 ]});
          DFAState.mk true ∅; DFAState.mk true (<[3%Z := 9]> ∅); DFAState.mk false {[ 1%Z := 1 ]}] 0.
Definition dfa_looping : DFA.t :=
  DFA.mk [DFAState.mk false {[ 1%Z := 1 ]}; DFAState.mk true {[ 1%Z := 1 ]}] 0.

Lemma minimize_acyclic_correct_witness :
  ∃ d, minimize_acyclic dfa_two_leaves = Some d ∧
    d = DFA.mk [DFAState.mk true ∅; DFAState.mk false (<[1%Z := 0]> {[ 2%Z := 0 ]})] 1 ∧
    ∀ w, DFA.accepts d w = DFA.accepts dfa_two_leaves w.
Proof.
  assert (Hm : minimizable dfa_two_leaves) by (apply minimizable_b_spec; vm_compute; reflexivity).
  destruct (minimize_acyclic_correct dfa_two_leaves Hm) as (d & Hd & Hlang & _).
  - apply (is_acyclic_spec _ (mz_edges _ Hm)). vm_compute. reflexivity.
  - exists d. split; [exact Hd|]. split; [|exact Hlang].
    assert (Hx : minimize_acyclic dfa_two_leaves =
      Some (DFA.mk [DFAState.mk true ∅; DFAState.mk false (<[1%Z := 0]> {[ 2%Z := 0 ]})] 1))
      by (vm_compute; reflexivity). congruence.
Defined.

Lemma try_minimize_acyclic_correct_witness :
  try_minimize_acyclic dfa_looping = Some (inr (mkCyclicAcyclicInput 2)) ∧
  ¬ DFA.label_graph_acyclic dfa_looping.
Proof.
  destruct (try_minimize_acyclic_correct dfa_looping) as [(_ & d & Hd & _)|(Hc & _ & Ht)].
  - apply minimizable_b_spec. vm_compute. reflexivity.
  - exfalso. vm_compute in Hd. discriminate.
  - split; [exact Ht|exact Hc].
Defined.

(** * Reindexing *)

Section reindex.
Context (dfa : DFA.t) (Hred : DFA_reduced dfa).
#[local] Abbreviation n := (lenN (DFA.states dfa)).

(** In a reduced automaton every state opens a class of its own. *)
Definition classes_of_order (pre : list N) (c : classes) : Prop :=
  class_inv dfa pre c ∧ class_representatives c = None :: (Some <$> pre) ∧
  (∀ k i, pre !! k = Some i → class_at (class_of_state c) i = N.of_nat k + 1).

Lemma classes_of_order_snoc pre c s :
  classes_of_order pre c → next_to_classify dfa pre s →
  ∃ c', classify dfa c s = Some c' ∧ classes_of_order (pre ++ [s]) c'.
Proof.
  intros (Hc & Hreps & Hcls) Hs.
  destruct (classify_eq dfa c s) as (k & reps & next & -> & Hk); [apply Hs|].
  eexists. split; [done|]. split; [by apply class_inv_extend|].
  simpl. assert (Hnew : k = next_class_id c ∧ reps = class_representatives c ++ [Some s]).
  { assert (Hk' := Hk). destruct Hk as [(Hm & _)|(_ & -> & -> & _)]; [exfalso|done].
    apply (ci_map _ _ _ Hc) in Hm as (i & Hi & _ & Hik).
    apply (class_choice_language dfa pre c s k reps next Hc Hs Hk') in Hik; [|done].
    destruct Hs as (Hs & Hni & _). destruct Hi as [Hi|Hge].
    - apply Hni. rewrite <-(red_distinct _ Hred i s); [done| |done|done].
      destruct (decide (i < n)) as [|Hge]; [done|]. exfalso. apply (red_live _ Hred s Hs).
      eapply DFAFacts.same_language_dead; [done|]. apply DFAFacts.out_of_range_dead. lia.
    - apply (red_live _ Hred s Hs).
      eapply DFAFacts.same_language_dead; [done|]. by apply DFAFacts.out_of_range_dead. }
  destruct Hnew as [-> ->]. split; [by rewrite Hreps, fmap_app|].
  intros j i Hj. assert (Hlen : next_class_id c = lenN pre + 1).
  { rewrite <-(ci_reps_len _ _ _ Hc), Hreps. unfold lenN. simpl. rewrite length_fmap. lia. }
  destruct (decide (j < length pre)%nat) as [Hlt|Hge].
  - rewrite lookup_app_l in Hj by done.
    rewrite (extend_class_old dfa pre c s _ Hc Hs); [by apply Hcls|].
    left. by eapply list_elem_of_lookup_2.
  - rewrite lookup_app_r in Hj by lia. apply list_lookup_singleton_Some in Hj as [Hj <-].
    rewrite (extend_class_new dfa pre c s _ Hc Hs). rewrite Hlen. unfold lenN. lia.
Qed.

Lemma classes_of_whole_order order :
  NoDup order → (∀ i, i ∈ order → i < n) → targets_first dfa order →
  ∃ c, foldM (classify dfa) (classes_init dfa) order = Some c ∧ classes_of_order order c.
Proof.
  induction order as [|s order IH] using rev_ind; intros Hnd Hlt Htf.
  { eexists. split; [done|]. split; [apply class_inv_init|done]. }
  apply NoDup_app in Hnd as (Hnd & Hdis & _).
  destruct IH as (c & Hf & Hc); [done|set_solver| |].
  { intros pre i post t -> He. eapply Htf; [|done]. by rewrite <-app_assoc. }
  rewrite foldM_app, Hf. simpl.
  destruct (classes_of_order_snoc order c s Hc) as (c' & -> & Hc'); [|by exists c'].
  split; [set_solver|]. split; [set_solver|]. intros i l t Hi Hd.
  destruct (decide (t < n)) as [Ht|]; [left|right; lia].
  assert (He : edge (DFA.adjacency dfa) i t) by (apply DFAFacts.edge_delta; eauto).
  destruct Hi as [->|[(pre & post & ->)%list_elem_of_split|Hge]]; [by eapply Htf| |].
  - assert (t ∈ pre); [|set_solver]. eapply Htf; [|done]. by rewrite <-app_assoc.
  - apply DFAFacts.delta_lt in Hd. lia.
Qed.

(** The map from old to new ids. *)
Definition order_map (order : list N) : list N :=
  foldl (λ m io, alterN (λ _, as_u32 (N.of_nat io.1)) m io.2)
    (replicate (length (DFA.states dfa)) u32_max) (imap pair order).

Lemma order_map_spec order :
  NoDup order → (∀ i, i ∈ order → i < n) →
  lenN (order_map order) = n ∧
  (∀ k i, order !! k = Some i → (order_map order).[i] = Some (as_u32 (N.of_nat k))) ∧
  (∀ i, i ∉ order → i < n → (order_map order).[i] = Some u32_max).
Proof.
  induction order as [|s order IH] using rev_ind; intros Hnd Hlt.
  { split; [by unfold order_map; simpl; rewrite lenN_replicate|]. split; [done|].
    intros i _ Hi. unfold order_map. simpl. rewrite nthN_replicate.
    by assert ((i <? N.of_nat (length (DFA.states dfa))) = true) as -> by (apply N.ltb_lt; exact Hi). }
  apply NoDup_app in Hnd as (Hnd & Hdis & _).
  destruct IH as (Hlen & Hin & Hout); [done|set_solver|].
  unfold order_map in *. rewrite imap_app, foldl_app. simpl. rewrite Nat.add_0_r.
  set (m := foldl _ _ _) in *. rewrite lenN_alterN. split; [done|]. split.
  - intros k i Hk. rewrite nthN_alterN. destruct (decide (k < length order)%nat) as [Hkl|Hge].
    + rewrite lookup_app_l in Hk by done. destruct (N.eqb_spec i s) as [Heq|_]; [|by apply Hin].
      subst. exfalso. apply (Hdis s); [by eapply list_elem_of_lookup_2|by left].
    + rewrite lookup_app_r in Hk by lia. apply list_lookup_singleton_Some in Hk as [Hk <-].
      rewrite N.eqb_refl. destruct (proj1 (nthN_Some_lt m s)) as [x ->]; [rewrite Hlen; set_solver|].
      simpl. repeat f_equal. lia.
  - intros i Hi Hil. rewrite nthN_alterN. destruct (N.eqb_spec i s) as [->|_]; [set_solver|].
    apply Hout; [set_solver|done].
Qed.

Section rows.
Context (order : list N) (c : classes) (Hc : classes_of_order order c).
Context (Hnd : NoDup order) (Hlt : ∀ i, i ∈ order → i < n) (Hn : n ≤ u32_max).

Lemma reindex_target t :
  classified dfa order t →
  (class_at (class_of_state c) t = DEAD_CLASS ∧ default u32_max (order_map order).[t] = u32_max) ∨
  ∃ m, m < u32_max ∧ class_at (class_of_state c) t = m + 1 ∧
       default u32_max (order_map order).[t] = m.
Proof using All.
  destruct Hc as (Hinv & _ & Hcls). destruct (order_map_spec order Hnd Hlt) as (Hlen & Hin & Hout).
  intros [(k & Hk)%list_elem_of_lookup|Hge].
  - right. exists (N.of_nat k). assert (N.of_nat k < u32_max).
    { apply lookup_lt_Some in Hk. pose proof (NoDup_bounded_length _ _ Hnd Hlt).
      unfold lenN in Hn. lia. }
    split; [done|]. split; [by apply Hcls|]. rewrite (Hin k t Hk). simpl.
    apply as_u32_small. unfold u32_max, u32_modulus in *. lia.
  - left. split.
    + apply class_at_out. unfold lenN in *. by rewrite (ci_len _ _ _ Hinv).
    + rewrite (proj2 (nthN_None _ _)); [done|]. by rewrite Hlen.
Qed.

Lemma reindexed_row_eq i :
  (∀ l t, DFA.delta dfa i l = Some t → classified dfa order t) →
  minimized_row dfa (class_of_state c) DEAD_CLASS (Some i) = reindexed_row dfa (order_map order) i.
Proof using All.
  intros Hcl. unfold minimized_row, reindexed_row, DFA.delta in *. simpl.
  destruct ((DFA.states dfa).[i]) as [st|]; [|done]. simpl in *. do 3 f_equal.
  apply list_omap_ext, Forall_Forall2_diag, Forall_forall. intros [l t] Ht%elem_of_bt_iter. simpl.
  destruct (reindex_target t) as [[Hcls ->]|(m & Hm & Hcls & ->)]; [by eapply Hcl| |];
    unfold class_at in Hcls; rewrite Hcls.
  - done.
  - rewrite (proj2 (N.eqb_neq (m + 1) DEAD_CLASS)) by (unfold DEAD_CLASS; lia).
    rewrite (proj2 (N.eqb_neq m u32_max)) by lia. rewrite as_u32_small; [do 2 f_equal; lia|].
    unfold u32_max, u32_modulus in *. lia.
Qed.

Lemma mapM_reindexed_row :
  (∀ i l t, i ∈ order → DFA.delta dfa i l = Some t → classified dfa order t) →
  mapM (reindexed_row dfa (order_map order)) order =
  mapM (minimized_row dfa (class_of_state c) DEAD_CLASS) (Some <$> order).
Proof using All.
  intros Hcl. rewrite mapM_fmap_in. apply Forall2_mapM_ext, Forall_Forall2_diag, Forall_forall.
  intros i Hi. symmetry. apply reindexed_row_eq. eauto.
Qed.

Lemma reindex_member i :
  i ∈ order → ∃ m, m < u32_max ∧ (class_of_state c).[i] = Some (m + 1) ∧ (order_map order).[i] = Some m.
Proof using All.
  intros Hi. destruct Hc as (Hinv & _ & Hcls).
  destruct (order_map_spec order Hnd Hlt) as (Hlen & _ & _).
  destruct (reindex_target i) as [[Hz _]|(m & Hm & Hc1 & Hm1)]; [by left| |].
  - apply list_elem_of_lookup in Hi as [k Hk]. rewrite (Hcls k i Hk) in Hz. unfold DEAD_CLASS in Hz. lia.
  - exists m. split; [done|]. unfold class_at in Hc1.
    destruct (proj1 (nthN_Some_lt (class_of_state c) i)) as [x Hx];
      [unfold lenN; rewrite (ci_len _ _ _ Hinv); by apply Hlt|].
    destruct (proj1 (nthN_Some_lt (order_map order) i)) as [y Hy]; [rewrite Hlen; by apply Hlt|].
    rewrite Hx in Hc1 |- *. rewrite Hy in Hm1 |- *. simpl in *. by subst.
Qed.
End rows.
End reindex.

(** On a reduced acyclic automaton, [reindex_minimized_acyclic_dfa] returns
    exactly what [minimize_acyclic] returns. *)
Theorem reindex_minimized_acyclic_exact (dfa : DFA.t) :
  minimizable dfa → lenN (DFA.states dfa) ≤ u32_max → DFA.label_graph_acyclic dfa →
  DFA_reduced dfa →
  ∃ d, minimize_acyclic dfa = Some d ∧ reindex_minimized_acyclic_dfa dfa = Some d.
Proof.
  intros [Hedges _ Hstart] Hn Hac Hred.
  destruct (reverse_topological_order_spec dfa Hac Hstart) as (order & Ho & Hnd & Htf & Hin & Hs).
  assert (Hlt : ∀ i, i ∈ order → i < lenN (DFA.states dfa)) by (intros i Hi; by apply Hin).
  destruct (classes_of_whole_order dfa Hred order Hnd Hlt Htf) as (c & Hf & Hc).
  destruct (minimize_acyclic_unchecked_spec dfa) as (d & Hd & _); [split; unfold u32_max, u32_modulus in *; done || lia|done|].
  exists d. unfold minimize_acyclic, DFA.compute_is_acyclic.
  rewrite (proj2 (is_acyclic_spec _ Hedges) Hac). split; [done|]. rewrite <-Hd.
  unfold reindex_minimized_acyclic_dfa, reindex_minimized_acyclic_order, minimize_acyclic_unchecked.
  destruct (N.eqb_spec (lenN (DFA.states dfa)) 0) as [Hz|_]; [lia|].
  rewrite Ho. simpl. rewrite Hf. simpl. fold (order_map dfa order).
  unfold build_minimized_acyclic_dfa.
  destruct (reindex_member dfa Hred order c Hc Hnd Hlt Hn (DFA.start_state dfa) Hs) as (m & Hm & -> & ->).
  simpl. rewrite (proj2 (N.eqb_neq (m + 1) DEAD_CLASS)) by (unfold DEAD_CLASS; lia).
  rewrite (proj1 (proj2 Hc)). cbn [tail].
  rewrite <-(mapM_reindexed_row dfa Hred order c Hc Hnd Hlt Hn).
  - destruct order as [|i0 order'] eqn:Eo; [by apply elem_of_nil in Hs|]. rewrite <-Eo.
    rewrite as_u32_small by (unfold u32_max, u32_modulus in *; lia).
    replace (m + 1 - 1) with m by lia. by rewrite Eo.
  - intros i l t Hi Ht. destruct (decide (t < lenN (DFA.states dfa))) as [Htl|]; [left|right; lia].
    apply list_elem_of_split in Hi as (pre & post & ->).
    assert (t ∈ pre); [|set_solver]. eapply Htf; [done|]. apply DFAFacts.edge_delta. eauto.
Qed.

(** A reduced automaton in another state order. *)
Definition dfa_chain : DFA.t :=
  DFA.mk [DFAState.mk false {[ 1%Z := 2 ]}; DFAState.mk true ∅;
          DFAState.mk true (<[2%Z := 1]> {[ 5%Z := 9 ]})] 0.

Lemma reindex_minimized_acyclic_exact_witness :
  ∃ d, reindex_minimized_acyclic_dfa dfa_chain = Some d ∧ minimize_acyclic dfa_chain = Some d ∧
       DFA.start_state d = 2.
Proof.
  assert (Hm : minimizable dfa_chain) by (apply minimizable_b_spec; vm_compute; reflexivity).
  destruct (reindex_minimized_acyclic_exact dfa_chain Hm) as (d & Hd & Hr).
  - vm_compute. discriminate.
  - apply (is_acyclic_spec _ (mz_edges _ Hm)). vm_compute. reflexivity.
  - apply (reduced_b_spec _ [[]; [1]; [1; 2]]%Z [[]; [1]; [2]]%Z). vm_compute. reflexivity.
  - exists d. split; [exact Hr|]. split; [exact Hd|].
    assert (Hx : DFA.start_state <$> minimize_acyclic dfa_chain = Some 2) by (vm_compute; reflexivity).
    rewrite Hd in Hx. simpl in Hx. congruence.
Defined.
