(* ===== verification/MinimizeCyclic.v ===== *)
(** Minimization of possibly cyclic automata by partition refinement
    (crates/glrmask-finite-automata/src/automata/unweighted_u32/minimize_cyclic.rs). *)

From stdpp Require Import relations.
From S2P Require Import Prelude Graph Dfa.

(** * Reachable states *)

Section reachable.
Context (dfa : DFA.t).

(** The stack is a list with its top at the head. *)
Definition push_targets (visited : list bool) (stack : list N) (targets : list N) : list N :=
  foldl (λ stack t,
    if (t <? lenN (DFA.states dfa)) && negb (default true visited.[t]) then t :: stack else stack)
    stack targets.

Definition reachable_step (st : list bool * list N * list N)
    : (list bool * list N * list N) + list N :=
  let '(visited, stack, result) := st in
  match stack with
  | [] => inr result
  | s :: stack =>
      if (lenN (DFA.states dfa) <=? s) || default true visited.[s]
      then inl (visited, stack, result)
      else
        let visited := alterN (λ _, true) visited s in
        let targets := match (DFA.states dfa).[s] with Some st => DFA.targets st | None => [] end in
        inl (visited, push_targets visited stack targets, result ++ [s])
  end.

(** A state is pushed once per transition at most. *)
Definition reachable_fuel : nat := S (sum_list_with length (DFA.adjacency dfa)).

Definition reachable_states : option (list N) :=
  match run reachable_step reachable_fuel
          (replicate (length (DFA.states dfa)) false, [DFA.start_state dfa], []) with
  | inl _ => None
  | inr result => Some (sort_N result)
  end.
End reachable.

Definition dense_reachable_states (reachable : list N) : gmap N N * list N :=
  foldl (λ '(state_to_dense, dense_to_state) state_id,
    (<[state_id := lenN dense_to_state]> state_to_dense, dense_to_state ++ [state_id]))
    (∅, []) reachable.

(** * Partitions *)

Definition initial_partition (dfa : DFA.t) (dense_to_state : list N) (dead : N) : option (list N) :=
  let class_of := alterN (λ _, 0) (replicate (S (length dense_to_state)) 0) dead in
  let next_class := 1 in
  let '(reject_class, next_class) :=
    if lenN dense_to_state =? 0 then (None, next_class) else (Some next_class, next_class + 1) in
  let accept_class := if lenN dense_to_state =? 0 then None else Some next_class in
  foldM (λ class_of '(dense_id, state_id),
      st ← (DFA.states dfa).[state_id];
      let class := if DFAState.is_accepting st then default 0 accept_class else default 0 reject_class in
      Some (alterN (λ _, class) class_of dense_id))
    class_of (enumerate dense_to_state).

Module SparseRefinementSignature.
Record t := mk { previous_class : N; transitions : list (Z * N) }.

#[global] Instance eq_dec : EqDecision t.
Proof. solve_decision. Defined.

#[global] Instance countable : Countable t.
Proof.
  refine (inj_countable' (λ s, (previous_class s, transitions s)) (λ p, mk p.1 p.2) _).
  by intros [].
Defined.
End SparseRefinementSignature.

Section refine.
Context (dfa : DFA.t) (dead : N) (dense_to_state : list N) (state_to_dense : gmap N N).

(** The inner loop over [state.transitions]. *)
Definition refinement_transitions (class_of : list N) (dead_class : N) (trs : list (Z * N))
    : option (list (Z * N)) :=
  foldM (λ acc tr,
      target_class ← class_of.[default dead (state_to_dense !! tr.2)];
      Some (if target_class =? dead_class then acc else acc ++ [(tr.1, target_class)]))
    [] trs.

Definition refinement_signature (class_of : list N) (dead_class dense_id : N)
    : option SparseRefinementSignature.t :=
  transitions ←
    (if dense_id =? dead then Some []
     else
       state_id ← dense_to_state.[dense_id];
       state ← (DFA.states dfa).[state_id];
       refinement_transitions class_of dead_class (label_iter (DFAState.transitions state)));
  previous_class ← class_of.[dense_id];
  Some (SparseRefinementSignature.mk previous_class transitions).

(** The loop state: the interned signatures, the new classes, the next class. *)
Definition refine_one (class_of : list N) (dead_class : N)
    (st : gmap SparseRefinementSignature.t N * list N * N) (dense_id : N)
    : option (gmap SparseRefinementSignature.t N * list N * N) :=
  let '(signature_to_class, new_class_of, next_class) := st in
  signature ← refinement_signature class_of dead_class dense_id;
  match signature_to_class !! signature with
  | Some existing => Some (signature_to_class, alterN (λ _, existing) new_class_of dense_id, next_class)
  | None => Some (<[signature := next_class]> signature_to_class,
                  alterN (λ _, next_class) new_class_of dense_id, next_class + 1)
  end.

Definition refine_partition (class_of : list N) : option (list N) :=
  dead_class ← class_of.[dead];
  '(_, new_class_of, _) ← foldM (refine_one class_of dead_class)
    (∅, replicate (S (length dense_to_state)) 0, 0) (seqN (S (N.to_nat dead)));
  Some new_class_of.

(** The [loop]; [inr None] is a panic. *)
Definition refine_step (class_of : list N) : list N + option (list N) :=
  match refine_partition class_of with
  | None => inr None
  | Some new_class_of =>
      if decide (new_class_of = class_of) then inr (Some class_of) else inl new_class_of
  end.
End refine.

(** * The minimized automaton *)

Section build.
Context (dfa : DFA.t) (state_to_dense : gmap N N) (dense_to_state : list N).
Context (class_of : list N) (dead_class : N).

(** The first loop: number the live classes. *)
Definition number_class (st : gmap N N * list DFAState.t) (dense_id : N)
    : option (gmap N N * list DFAState.t) :=
  let '(class_to_new_state, new_states) := st in
  class ← class_of.[dense_id];
  if (class =? dead_class) || bool_decide (is_Some (class_to_new_state !! class))
  then Some st
  else Some (<[class := as_u32 (lenN new_states)]> class_to_new_state,
             new_states ++ [DFAState.default]).

(** The inner loop over [original.transitions]. *)
Definition fill_transitions (class_to_new_state : gmap N N) (row : gmap Z N) (trs : list (Z * N))
    : option (gmap Z N) :=
  foldM (λ row tr,
      match state_to_dense !! tr.2 with
      | None => Some row
      | Some target_dense =>
          target_class ← class_of.[target_dense];
          if target_class =? dead_class then Some row
          else match class_to_new_state !! target_class with
               | Some new_target => Some (<[tr.1 := new_target]> row)
               | None => Some row
               end
      end)
    row trs.

(** The second loop: the first state of a class gives the row of the class. *)
Definition fill_state (class_to_new_state : gmap N N) (st : list bool * list DFAState.t)
    (entry : N * N) : option (list bool * list DFAState.t) :=
  let '(filled, new_states) := st in
  let '(dense_id, state_id) := entry in
  class ← class_of.[dense_id];
  if class =? dead_class then Some st
  else
    new_state ← class_to_new_state !! class;
    done ← filled.[new_state];
    if (done : bool) then Some st
    else
      original ← (DFA.states dfa).[state_id];
      row ← new_states.[new_state];
      transitions ← fill_transitions class_to_new_state (DFAState.transitions row)
                      (label_iter (DFAState.transitions original));
      Some (alterN (λ _, true) filled new_state,
            alterN (λ _, DFAState.mk (DFAState.is_accepting original) transitions) new_states new_state).

Definition build_minimized_cyclic_dfa : option DFA.t :=
  start_dense ← state_to_dense !! DFA.start_state dfa;
  start_class ← class_of.[start_dense];
  '(class_to_new_state, new_states) ← foldM number_class
    ({[ start_class := 0 ]}, [DFAState.default]) (seqN (length dense_to_state));
  '(_, new_states) ← foldM (fill_state class_to_new_state)
    (replicate (length new_states) false, new_states) (enumerate dense_to_state);
  Some (DFA.mk new_states 0).
End build.

(** The refinement makes at most [2 (n + 1)^2 + 1] rounds. *)
Definition refine_fuel (n : nat) : nat := 2 * n + 6.

Definition minimize_cyclic (dfa : DFA.t) : option DFA.t :=
  if lenN (DFA.states dfa) =? 0 then Some dfa
  else
    reachable ← reachable_states dfa;
    if lenN reachable =? 0 then Some DFA.new
    else
      let '(state_to_dense, dense_to_state) := dense_reachable_states reachable in
      let dead := lenN dense_to_state in
      class_of ← initial_partition dfa dense_to_state dead;
      match run (refine_step dfa dead dense_to_state state_to_dense)
              (refine_fuel (length dense_to_state)) class_of with
      | inl _ => None
      | inr None => None
      | inr (Some class_of) =>
          dead_class ← class_of.[dead];
          build_minimized_cyclic_dfa dfa state_to_dense dense_to_state class_of dead_class
      end.


(** * The reachable states *)

Section reachable_spec.
Context (dfa : DFA.t).
#[local] Abbreviation n := (lenN (DFA.states dfa)).
#[local] Abbreviation E := (edge (DFA.adjacency dfa)).
#[local] Abbreviation start := (DFA.start_state dfa).

Definition outdegree (s : N) : nat := length (adj_of (DFA.adjacency dfa) s).

Record scan (visited : list bool) (stack result : list N) : Prop := {
  sc_len : length visited = length (DFA.states dfa);
  sc_visited : ∀ i, visited.[i] = Some true ↔ i ∈ result;
  sc_nodup : NoDup result;
  sc_sound : ∀ i, i ∈ stack ++ result → rtc E start i;
  sc_start : start ∈ stack ++ result ∨ n ≤ start;
  sc_closed : ∀ i t, i ∈ result → E i t → t ∈ stack ++ result;
}.

Definition scan_inv (st : list bool * list N * list N) (m : nat) : Prop :=
  scan st.1.1 st.1.2 st.2 ∧
  m = (length st.1.2 + weight st.2 outdegree (seqN (length (DFA.states dfa))))%nat.

Lemma sc_lt visited stack result i : scan visited stack result → i ∈ result → i < n.
Proof.
  intros Hs Hi. apply (sc_visited _ _ _ Hs), nthN_lt in Hi. unfold lenN in *.
  by rewrite (sc_len _ _ _ Hs) in Hi.
Qed.

Lemma elem_of_push_targets visited stack ts t :
  t ∈ push_targets dfa visited stack ts ↔
  t ∈ stack ∨ (t ∈ ts ∧ t < n ∧ default true visited.[t] = false).
Proof.
  unfold push_targets. revert stack. induction ts as [|u ts IH]; intros stack; simpl.
  - rewrite elem_of_nil. tauto.
  - rewrite IH. destruct (N.ltb_spec u n); simpl; [|rewrite elem_of_cons; intuition (subst; lia || auto)].
    destruct (default true visited.[u]) eqn:Ev; simpl; rewrite !elem_of_cons; [|naive_solver].
    split; [tauto|]. intros [?|([->|?] & ? & ?)]; [tauto|congruence|tauto].
Qed.

Lemma length_push_targets visited stack ts :
  (length (push_targets dfa visited stack ts) ≤ length stack + length ts)%nat.
Proof.
  unfold push_targets. revert stack. induction ts as [|u ts IH]; intros stack; simpl; [lia|].
  eapply Nat.le_trans; [apply IH|]. case_match; simpl; lia.
Qed.

Lemma elem_of_row_targets s t :
  t ∈ (match (DFA.states dfa).[s] with Some st => DFA.targets st | None => [] end) ∧ t < n ↔ E s t.
Proof.
  rewrite DFAFacts.edge_delta. unfold DFA.delta.
  destruct ((DFA.states dfa).[s]) as [st|]; simpl.
  - rewrite DFAFacts.elem_of_targets. naive_solver.
  - rewrite elem_of_nil. naive_solver.
Qed.

Lemma outdegree_row s :
  length (match (DFA.states dfa).[s] with Some st => DFA.targets st | None => [] end) = outdegree s.
Proof.
  unfold outdegree, adj_of, DFA.adjacency. rewrite nthN_fmap. by destruct ((DFA.states dfa).[s]).
Qed.

Lemma scan_visit visited stack result s :
  scan visited (s :: stack) result → s < n → visited.[s] ≠ Some true →
  let visited' := alterN (λ _, true) visited s in
  scan visited' (push_targets dfa visited' stack
    (match (DFA.states dfa).[s] with Some st => DFA.targets st | None => [] end)) (result ++ [s]).
Proof.
  intros Hsc Hs Hv visited'. destruct (id Hsc) as [Hlen Hvis Hnd Hsound Hstart Hclosed].
  assert (Hsl : is_Some visited.[s]) by (apply nthN_Some_lt; unfold lenN in *; by rewrite Hlen).
  assert (Hvis' : ∀ i, visited'.[i] = Some true ↔ i ∈ result ++ [s]).
  { intros i. unfold visited'. rewrite nthN_alterN, elem_of_app, list_elem_of_singleton, <-Hvis.
    destruct (N.eqb_spec i s) as [->|]; [|naive_solver]. destruct Hsl as [? ->]. simpl. tauto. }
  assert (Hdef : ∀ t, t < n → default true visited'.[t] = false ↔ t ∉ result ++ [s]).
  { intros t Ht. rewrite <-Hvis'. destruct (proj1 (nthN_Some_lt visited' t)) as [b ->].
    - unfold visited'. rewrite lenN_alterN. unfold lenN in *. by rewrite Hlen.
    - simpl. destruct b; naive_solver. }
  split; [by unfold visited'; rewrite length_alterN|done| | | |].
  - apply NoDup_app. split; [done|]. split; [|apply NoDup_singleton].
    intros x Hx Hxs. apply list_elem_of_singleton in Hxs as ->. by apply Hv, Hvis.
  - intros i. rewrite elem_of_app, elem_of_push_targets.
    intros [[Hi|(Hi & Hil & _)]|Hi]; [apply Hsound; set_solver| |apply Hsound; set_solver].
    eapply rtc_r; [apply (Hsound s); set_solver|]. by apply elem_of_row_targets.
  - destruct Hstart as [Hst|]; [left|by right]. rewrite elem_of_app, elem_of_push_targets. set_solver.
  - assert (Hdec : ∀ t, t ∈ stack ++ result ∨ t = s →
      t ∈ push_targets dfa visited' stack
        (match (DFA.states dfa).[s] with Some st => DFA.targets st | None => [] end) ++ result ++ [s]).
    { intros t Ht. rewrite elem_of_app, elem_of_push_targets. set_solver. }
    intros i t [Hi|Hi]%elem_of_app He.
    + apply Hdec. specialize (Hclosed i t Hi He). set_solver.
    + apply list_elem_of_singleton in Hi as ->. destruct (decide (t ∈ result ++ [s])) as [|Hni]; [set_solver|].
      apply elem_of_row_targets in He as [Ht Hlt].
      apply elem_of_app. left. apply elem_of_push_targets. right. rewrite Hdef by done. done.
Qed.

Lemma reachable_step_inv st st' m :
  scan_inv st m → reachable_step dfa st = inl st' → ∃ m', scan_inv st' m' ∧ (m' < m)%nat.
Proof.
  destruct st as [[visited stack] result]. intros [Hsc ->]. simpl in *.
  destruct stack as [|s stack]; [done|].
  destruct (N.leb_spec n s) as [Hge|Hlt]; simpl.
  - intros [= <-]. eexists. split; [split; [|done]|simpl; lia]. simpl.
    destruct Hsc as [Hlen Hvis Hnd Hsound Hstart Hclosed]. split; try done.
    + set_solver.
    + destruct (decide (n ≤ start)); [by right|left]. assert (start ≠ s) by lia. set_solver.
    + intros i t Hi He. assert (t ≠ s) by (apply edge_lt in He; unfold DFA.adjacency in He; rewrite lenN_fmap in He; lia).
      specialize (Hclosed i t Hi He). set_solver.
  - destruct (default true visited.[s]) eqn:Ev.
    + intros [= <-]. eexists. split; [split; [|done]|simpl; lia]. simpl.
      assert (Hs : s ∈ result).
      { apply (sc_visited _ _ _ Hsc). destruct (proj1 (nthN_Some_lt visited s)) as [b Hb].
        - unfold lenN in *. by rewrite (sc_len _ _ _ Hsc).
        - rewrite Hb in Ev |- *. simpl in Ev. by subst. }
      destruct Hsc as [Hlen Hvis Hnd Hsound Hstart Hclosed]. split; try done.
      * set_solver.
      * destruct Hstart as [|]; [left; set_solver|by right].
      * intros i t Hi He. specialize (Hclosed i t Hi He). set_solver.
    + intros [= <-]. assert (Hv : visited.[s] ≠ Some true) by (intros Hv; by rewrite Hv in Ev).
      eexists. split; [split; [by apply scan_visit|done]|]. simpl.
      pose proof (length_push_targets (alterN (λ _, true) visited s) stack
        (match (DFA.states dfa).[s] with Some st => DFA.targets st | None => [] end)) as Hl.
      rewrite outdegree_row in Hl.
      pose proof (weight_snoc result outdegree (seqN (length (DFA.states dfa))) s (NoDup_seqN _)) as Hw.
      rewrite <-Hw; [lia|by apply elem_of_seqN|]. by rewrite <-(sc_visited _ _ _ Hsc).
Qed.

Lemma weight_le_total V f l : (weight V f l ≤ sum_list_with f l)%nat.
Proof. unfold weight. induction l as [|x l IH]; simpl; [done|]. case_decide; lia. Qed.

Lemma outdegree_total :
  sum_list_with outdegree (seqN (length (DFA.states dfa))) = sum_list_with length (DFA.adjacency dfa).
Proof.
  trans (sum_list_with length (adj_of (DFA.adjacency dfa) <$> seqN (length (DFA.adjacency dfa))));
    [|by rewrite adj_of_seqN].
  assert (length (DFA.adjacency dfa) = length (DFA.states dfa)) as -> by apply length_fmap.
  unfold outdegree. induction (seqN _) as [|s l IH]; simpl; [done|]. by rewrite IH.
Qed.

(** The loop ends with the states reachable from the start. *)
Lemma reachable_states_spec :
  ∃ l, reachable_states dfa = Some l ∧ NoDup l ∧ (∀ i, i ∈ l → i < n) ∧
    (∀ i, i ∈ l ↔ start < n ∧ rtc E start i).
Proof.
  destruct (run_terminates (reachable_step dfa) scan_inv (reachable_fuel dfa)
    (replicate (length (DFA.states dfa)) false, [start], [])
    (1 + weight [] outdegree (seqN (length (DFA.states dfa))))%nat reachable_step_inv)
    as (r & [[visited stack] result] & m & Hrun & [Hsc _] & Hexit).
  - split; [|done]. simpl. split.
    + by rewrite length_replicate.
    + intros i. rewrite nthN_replicate, elem_of_nil. case_match; naive_solver.
    + constructor.
    + intros i Hi%list_elem_of_singleton. by subst.
    + left. set_solver.
    + set_solver.
  - pose proof (weight_le_total [] outdegree (seqN (length (DFA.states dfa)))) as Hle.
    rewrite outdegree_total in Hle. unfold reachable_fuel.
    pose proof (pow2_S_gt (sum_list_with length (DFA.adjacency dfa))). lia.
  - unfold reachable_states. rewrite Hrun. simpl in *.
    destruct stack as [|s stack]; [injection Hexit as <-|by case_match].
    exists (sort_N result). split; [done|].
    assert (Hnd : NoDup (sort_N result)) by (apply strictly_sorted_NoDup, strictly_sorted_sort_N, Hsc).
    split; [done|]. setoid_rewrite elem_of_sort_N.
    split; [intros i Hi; by eapply sc_lt|]. destruct Hsc as [Hlen Hvis Hnd' Hsound Hstart Hclosed]. simpl in *.
    intros i. split.
    + intros Hi. split; [|by apply Hsound]. specialize (Hsound i Hi).
      destruct Hstart as [Hst|Hge].
      * apply Hvis, nthN_lt in Hst. unfold lenN in *. by rewrite Hlen in Hst.
      * inversion Hsound as [|? ? ? He]; subst.
        -- apply Hvis, nthN_lt in Hi. unfold lenN in *. by rewrite Hlen in Hi.
        -- apply edge_lt in He as [He _]. unfold DFA.adjacency in He. by rewrite lenN_fmap in He.
    + intros [Hlt Hr]. destruct Hstart as [Hst|]; [|lia].
      assert (Hall : ∀ x, rtc E x i → x ∈ result → i ∈ result).
      { induction 1 as [|x y z He _ IH]; [done|]. intros Hx. apply IH; [done..|].
        specialize (Hclosed _ _ Hx He). set_solver. }
      apply (Hall start); [done|]. set_solver.
Qed.
End reachable_spec.

Lemma dense_reachable_states_spec l :
  NoDup l →
  (dense_reachable_states l).2 = l ∧
  ∀ s i, (dense_reachable_states l).1 !! s = Some i ↔ l.[i] = Some s.
Proof.
  unfold dense_reachable_states. induction l as [|x l IH] using rev_ind; intros Hnd.
  - split; [done|]. intros s i. simpl. by rewrite lookup_empty.
  - apply NoDup_app in Hnd as (Hnd & Hdis & _). destruct (IH Hnd) as [Hl Hm]. rewrite foldl_app.
    destruct (foldl _ _ l) as [m l']. simpl in *. subst l'. split; [done|]. intros s i.
    rewrite lookup_insert, nthN_snoc. case_decide as Hx.
    + subst x. split; [intros [= <-]; by rewrite N.eqb_refl|].
      destruct (N.eqb_spec i (lenN l)) as [->|]; [done|]. intros Hi. exfalso.
      apply (Hdis s); [apply nthN_elem_of; eauto|by left].
    + rewrite Hm. destruct (N.eqb_spec i (lenN l)) as [->|]; [|done].
      rewrite (proj2 (nthN_None l (lenN l))) by lia. naive_solver.
Qed.

(** * Restricted growth: numberings by first occurrence *)

(** The classes [c] of the first [m] indices, without the bounds. *)
Definition class_no (c : list N) (i : N) : N := default 0 c.[i].

(** Every class below that of an index is the class of an earlier index. *)
Definition first_occurrence (c : list N) (m : N) : Prop :=
  ∀ i v, i < m → v < class_no c i → ∃ j, j < i ∧ class_no c j = v.

Lemma first_occurrence_unique c c' m :
  first_occurrence c m → first_occurrence c' m →
  (∀ i j, i < m → j < m → class_no c i = class_no c j ↔ class_no c' i = class_no c' j) →
  ∀ i, i < m → class_no c i = class_no c' i.
Proof.
  intros Hc Hc' Heq i. induction (N.lt_wf_0 i) as [i _ IH]. intros Hi.
  destruct (N.lt_trichotomy (class_no c i) (class_no c' i)) as [Hlt|[|Hlt]]; [|done|]; exfalso.
  - destruct (Hc' i _ Hi Hlt) as (j & Hj & Hcj). specialize (IH j Hj ltac:(lia)).
    assert (class_no c' j = class_no c' i) by (apply Heq; [lia..|congruence]). lia.
  - destruct (Hc i _ Hi Hlt) as (j & Hj & Hcj). specialize (IH j Hj ltac:(lia)).
    assert (class_no c j = class_no c i) by (apply Heq; [lia..|congruence]). lia.
Qed.

(** The pairs of indices with one class; refinement loses some of them. *)
Definition index_pairs (m : nat) : list (N * N) := x ← seqN m; y ← seqN m; [(x, y)].
Definition same_class_pairs (c : list N) (m : nat) : nat :=
  length (filter (λ p, class_no c p.1 = class_no c p.2) (index_pairs m)).

Lemma elem_of_index_pairs m x y : (x, y) ∈ index_pairs m ↔ x < N.of_nat m ∧ y < N.of_nat m.
Proof.
  unfold index_pairs. rewrite <-!elem_of_seqN, list_elem_of_bind. split.
  - intros (x' & Hy%list_elem_of_bind & Hx). destruct Hy as (y' & Hy%list_elem_of_singleton & Hin).
    by injection Hy as -> ->.
  - intros [Hx Hy]. exists x. split; [|done]. apply list_elem_of_bind. exists y. split; [by left|done].
Qed.

Lemma length_index_pairs m : length (index_pairs m) = (m * m)%nat.
Proof.
  enough (Hl : ∀ l : list N, length (x ← l; y ← seqN m; [(x, y)]) = (length l * m)%nat)
    by (unfold index_pairs; rewrite Hl; by rewrite length_seqN).
  assert (Hk : ∀ (x : N) (k : list N), length (y ← k; [(x, y)]) = length k).
  { intros x k. induction k as [|y k IH]; [done|]. cbn. f_equal. exact IH. }
  induction l as [|x l IH]; [done|]. rewrite bind_cons, length_app, Hk, length_seqN. simpl. by rewrite IH.
Qed.

Lemma length_filter_le {A} (P Q : A → Prop) `{!∀ x, Decision (P x), !∀ x, Decision (Q x)} l :
  (∀ x, x ∈ l → P x → Q x) → (length (filter P l) ≤ length (filter Q l))%nat.
Proof.
  induction l as [|x l IH]; intros Hpq; [done|]. rewrite !filter_cons.
  assert (IH' := IH (λ y Hy, Hpq y (list_elem_of_further _ _ _ Hy))).
  assert (Hx := Hpq x (list_elem_of_here _ _)).
  repeat case_decide; simpl; try lia. by exfalso; auto.
Qed.

Lemma length_filter_lt {A} (P Q : A → Prop) `{!∀ x, Decision (P x), !∀ x, Decision (Q x)} l x :
  (∀ x, x ∈ l → P x → Q x) → x ∈ l → Q x → ¬ P x → (length (filter P l) < length (filter Q l))%nat.
Proof.
  intros Hpq [l1 [l2 ->]]%list_elem_of_split Hq Hp. rewrite !filter_app, !length_app, !filter_cons.
  rewrite (decide_False (P := P x)), (decide_True (P := Q x)) by done. simpl.
  pose proof (length_filter_le P Q l1) as H1. pose proof (length_filter_le P Q l2) as H2.
  specialize (H1 (λ y Hy, Hpq y (proj2 (elem_of_app _ _ _) (or_introl Hy)))).
  specialize (H2 (λ y Hy, Hpq y (proj2 (elem_of_app _ _ _) (or_intror (list_elem_of_further _ _ _ Hy))))).
  lia.
Qed.

Lemma same_class_pairs_lt c c' m i j :
  (∀ i j, i < N.of_nat m → j < N.of_nat m → class_no c' i = class_no c' j → class_no c i = class_no c j) →
  i < N.of_nat m → j < N.of_nat m → class_no c i = class_no c j → class_no c' i ≠ class_no c' j →
  (same_class_pairs c' m < same_class_pairs c m)%nat.
Proof.
  intros Href Hi Hj Heq Hne. apply (length_filter_lt _ _ _ (i, j)); [|by apply elem_of_index_pairs|done|done].
  intros [x y] [Hx Hy]%elem_of_index_pairs. simpl. auto.
Qed.

Lemma same_class_pairs_le c c' m :
  (∀ i j, i < N.of_nat m → j < N.of_nat m → class_no c' i = class_no c' j → class_no c i = class_no c j) →
  (same_class_pairs c' m ≤ same_class_pairs c m)%nat.
Proof.
  intros Href. apply length_filter_le. intros [x y] [Hx Hy]%elem_of_index_pairs. simpl. auto.
Qed.

(** Either a pair of one class of [c] is separated by [c'], or none is. *)
Lemma separated_or_not c c' m :
  (∃ i j, i < N.of_nat m ∧ j < N.of_nat m ∧ class_no c i = class_no c j ∧ class_no c' i ≠ class_no c' j) ∨
  (∀ i j, i < N.of_nat m → j < N.of_nat m → class_no c i = class_no c j → class_no c' i = class_no c' j).
Proof.
  destruct (decide (Exists (λ p, class_no c p.1 = class_no c p.2 ∧ class_no c' p.1 ≠ class_no c' p.2)
    (index_pairs m))) as [Hex|Hno].
  - left. apply Exists_exists in Hex as ([i j] & [Hi Hj]%elem_of_index_pairs & Heq & Hne). by exists i, j.
  - right. intros i j Hi Hj Heq. destruct (decide (class_no c' i = class_no c' j)) as [|Hne]; [done|].
    destruct Hno. apply Exists_exists. exists (i, j). by rewrite elem_of_index_pairs.
Qed.

(** * One refinement round *)

Section refine_spec.
Context (dfa : DFA.t) (ds : list N) (std : gmap N N).
Context (Hnd : NoDup ds) (Hstd : ∀ s i, std !! s = Some i ↔ ds.[i] = Some s).
Context (Hds : ∀ s, s ∈ ds → s < lenN (DFA.states dfa)).
#[local] Abbreviation dead := (lenN ds).

(** The transitions between dense states; a missing transition and one to an
    index that is no state are the same. *)
Definition dense_step (i : N) (l : Z) : option N :=
  s ← ds.[i]; t ← DFA.delta dfa s l; std !! t.

(** What can be seen of a dense state: whether the run of a word exists, and
    whether it accepts. *)
Fixpoint observe (i : N) (w : list Z) : option bool :=
  match w with
  | [] => DFA.accepting dfa <$> ds.[i]
  | l :: w => j ← dense_step i l; observe j w
  end.

Definition same_behaviour (i j : N) : Prop := ∀ w, observe i w = observe j w.

Lemma dense_step_lt i l j : dense_step i l = Some j → i < dead ∧ j < dead.
Proof using Hstd.
  unfold dense_step. destruct ds.[i] as [s|] eqn:Ei; simpl; [|done].
  destruct (DFA.delta dfa s l); simpl; [|done]. intros Hj%Hstd.
  split; by eapply nthN_lt.
Qed.

Lemma observe_nil_None i : observe i [] = None ↔ dead ≤ i.
Proof. simpl. rewrite <-nthN_None. by destruct ds.[i]. Qed.

(** A partition: accepting and rejecting states are apart, the sink is alone,
    and states with the same behaviour are together. *)
Record partition (c : list N) : Prop := {
  pt_len : lenN c = dead + 1;
  pt_accepting : ∀ i j, i ≤ dead → j ≤ dead → class_no c i = class_no c j → observe i [] = observe j [];
  pt_coarse : ∀ i j, i ≤ dead → j ≤ dead → same_behaviour i j → class_no c i = class_no c j;
}.

Lemma pt_sink c i : partition c → i ≤ dead → class_no c i = class_no c dead ↔ i = dead.
Proof.
  intros Hp Hi. split; [|by intros ->]. intros Heq%(pt_accepting c Hp); [|done|lia].
  rewrite (proj2 (observe_nil_None dead)) in Heq by lia. apply observe_nil_None in Heq. lia.
Qed.

Lemma pt_lookup c i : partition c → i ≤ dead → c.[i] = Some (class_no c i).
Proof.
  intros Hp Hi. unfold class_no. destruct (proj1 (nthN_Some_lt c i)) as [x ->]; [|done].
  rewrite (pt_len _ Hp). lia.
Qed.

Definition dense_row (i : N) : list (Z * N) :=
  match ds.[i] with
  | Some s => match (DFA.states dfa).[s] with Some st => label_iter (DFAState.transitions st) | None => [] end
  | None => []
  end.

Lemma elem_of_dense_row i l t :
  (l, t) ∈ dense_row i ↔ ∃ s, ds.[i] = Some s ∧ DFA.delta dfa s l = Some t.
Proof.
  unfold dense_row, DFA.delta. destruct ds.[i] as [s|]; [|rewrite elem_of_nil; naive_solver].
  destruct ((DFA.states dfa).[s]) as [st|] eqn:E; simpl; [rewrite elem_of_bt_iter|rewrite elem_of_nil].
  - split; [intros; exists s; by rewrite E|]. intros (s' & [= <-] & Hl). by rewrite E in Hl.
  - split; [done|]. intros (s' & [= <-] & Hl). by rewrite E in Hl.
Qed.

Definition row_class (c : list N) (tr : Z * N) : option (Z * N) :=
  let k := class_no c (default dead (std !! tr.2)) in
  if k =? class_no c dead then None else Some (tr.1, k).

Definition signature_of (c : list N) (i : N) : SparseRefinementSignature.t :=
  SparseRefinementSignature.mk (class_no c i) (omap (row_class c) (dense_row i)).

Lemma default_dense_le t : default dead (std !! t) ≤ dead.
Proof using Hstd.
  destruct (std !! t) as [j|] eqn:E; simpl; [|lia]. apply Hstd, nthN_lt in E. lia.
Qed.

Lemma refinement_transitions_eq c trs acc :
  partition c →
  foldM (λ acc tr,
      target_class ← c.[default dead (std !! tr.2)];
      Some (if target_class =? class_no c dead then acc else acc ++ [(tr.1, target_class)])) acc trs =
  Some (acc ++ omap (row_class c) trs).
Proof using Hstd.
  intros Hp. revert acc. induction trs as [|tr trs IH]; intros acc; cbn [foldM].
  - by rewrite app_nil_r.
  - rewrite (pt_lookup c) by (done || apply default_dense_le). cbn [mbind option_bind].
    rewrite IH. cbn. unfold row_class at 2. case_match; [done|]. by rewrite <-app_assoc.
Qed.

Lemma refinement_signature_eq c i :
  partition c → i ≤ dead →
  refinement_signature dfa dead ds std c (class_no c dead) i = Some (signature_of c i).
Proof using Hstd Hds.
  intros Hp Hi. unfold refinement_signature, signature_of, dense_row.
  rewrite (pt_lookup c i) by done. destruct (N.eqb_spec i dead) as [->|Hne].
  - rewrite (proj2 (nthN_None ds dead)) by lia. done.
  - destruct (proj1 (nthN_Some_lt ds i)) as [s Hs]; [lia|]. rewrite Hs. simpl.
    destruct (proj1 (nthN_Some_lt (DFA.states dfa) s)) as [st ->].
    { apply Hds, nthN_elem_of. eauto. }
    simpl. unfold refinement_transitions. by rewrite refinement_transitions_eq.
Qed.

Lemma elem_of_signature_of c i l k :
  partition c →
  (l, k) ∈ SparseRefinementSignature.transitions (signature_of c i) ↔
  ∃ j, dense_step i l = Some j ∧ class_no c j = k.
Proof using Hstd.
  intros Hp. simpl. rewrite list_elem_of_omap. unfold dense_step. split.
  - intros ([l' t] & (s & Hs & Hd)%elem_of_dense_row & Heq). unfold row_class in Heq. simpl in Heq.
    destruct (N.eqb_spec (class_no c (default dead (std !! t))) (class_no c dead)) as [|Hne]; [done|].
    injection Heq as -> <-. rewrite Hs. simpl. rewrite Hd. simpl.
    destruct (std !! t) as [j|]; [by exists j|done].
  - intros (j & Hj & <-). destruct ds.[i] as [s|] eqn:Hs; [|done]. simpl in Hj.
    destruct (DFA.delta dfa s l) as [t|] eqn:Hd; [|done]. simpl in Hj. exists (l, t).
    rewrite elem_of_dense_row. split; [by exists s|]. unfold row_class. simpl. rewrite Hj. simpl.
    destruct (N.eqb_spec (class_no c j) (class_no c dead)) as [Heq|]; [|done].
    apply Hstd, nthN_lt in Hj. apply pt_sink in Heq; [lia|done|lia].
Qed.

Lemma signature_of_sorted c i :
  label_sorted (SparseRefinementSignature.transitions (signature_of c i)).
Proof.
  simpl. apply label_sorted_omap.
  - intros [l t] [l' k] Heq. unfold row_class in Heq. simpl in *. by case_match; simplify_eq.
  - unfold dense_row. repeat case_match; [apply label_iter_sorted|constructor..].
Qed.

Lemma signature_of_eq c i j :
  partition c →
  signature_of c i = signature_of c j ↔
  class_no c i = class_no c j ∧
  ∀ l k, (∃ t, dense_step i l = Some t ∧ class_no c t = k) ↔
         (∃ t, dense_step j l = Some t ∧ class_no c t = k).
Proof using Hstd.
  intros Hp. setoid_rewrite <-(elem_of_signature_of c); [|done..]. split.
  - intros Heq. split; [by injection Heq|]. intros l k. by rewrite Heq.
  - intros [Hc Hl]. unfold signature_of in *. f_equal; [done|].
    apply label_sorted_ext; [apply (signature_of_sorted c)..|]. intros [l k]. apply Hl.
Qed.

(** The interning loop over the first [m] dense ids. *)
Record interned (c : list N) (m : N) (st : gmap SparseRefinementSignature.t N * list N * N) : Prop := {
  in_len : lenN st.1.2 = dead + 1;
  in_map : ∀ sg k, st.1.1 !! sg = Some k ↔ ∃ i, i < m ∧ signature_of c i = sg ∧ class_no st.1.2 i = k;
  in_eq : ∀ i j, i < m → j < m →
    class_no st.1.2 i = class_no st.1.2 j ↔ signature_of c i = signature_of c j;
  in_bound : ∀ i, i < m → class_no st.1.2 i < st.2;
  in_used : ∀ v, v < st.2 → ∃ i, i < m ∧ class_no st.1.2 i = v;
  in_first : first_occurrence st.1.2 m;
}.

Lemma class_no_alterN c i k x :
  i < lenN c → class_no (alterN (λ _, k) c i) x = if x =? i then k else class_no c x.
Proof.
  intros Hi. unfold class_no. rewrite nthN_alterN. destruct (N.eqb_spec x i) as [Hx|]; [|done].
  subst x. by apply nthN_Some_lt in Hi as [y ->].
Qed.

Lemma interned_known c m mp new next k :
  interned c m (mp, new, next) → m ≤ dead → mp !! signature_of c m = Some k →
  interned c (m + 1) (mp, alterN (λ _, k) new m, next).
Proof.
  intros [Hlen Hmap Heq Hb Hu Hf] Hm Hk. simpl in *.
  assert (Hno : ∀ x, class_no (alterN (λ _, k) new m) x = if x =? m then k else class_no new x)
    by (intros x; apply class_no_alterN; lia).
  assert (Hold : ∀ x, x < m → class_no (alterN (λ _, k) new m) x = class_no new x).
  { intros x Hx. rewrite Hno. by destruct (N.eqb_spec x m); [lia|]. }
  assert (Hnew : class_no (alterN (λ _, k) new m) m = k) by (by rewrite Hno, N.eqb_refl).
  apply Hmap in Hk as (i0 & Hi0 & Hsig & Hcls).
  assert (Hsplit : ∀ x, x < m + 1 → x < m ∨ x = m) by lia.
  split; simpl; [by rewrite lenN_alterN| | | | |].
  - intros sg k'. rewrite Hmap. split.
    + intros (i & Hi & <- & <-). exists i. rewrite Hold by done. split; [lia|done].
    + intros (i & [Hi| ->]%Hsplit & <- & <-); [exists i; by rewrite Hold|].
      exists i0. by rewrite Hnew.
  - intros i j [Hi| ->]%Hsplit [Hj| ->]%Hsplit; rewrite ?Hnew, ?Hold by done; [by apply Heq| | |done].
    + rewrite <-Hcls, <-Hsig. by apply Heq.
    + rewrite <-Hcls, <-Hsig. by apply Heq.
  - intros i [Hi| ->]%Hsplit; rewrite ?Hnew, ?Hold by done; [by apply Hb|]. rewrite <-Hcls. by apply Hb.
  - intros v (i & Hi & <-)%Hu. exists i. rewrite Hold by done. split; [lia|done].
  - intros i v [Hi| ->]%Hsplit Hv; rewrite ?Hnew, ?Hold in Hv by done.
    + destruct (Hf i v Hi Hv) as (j & Hj & Hcj). exists j. rewrite Hold by lia. done.
    + rewrite <-Hcls in Hv. destruct (Hf i0 v Hi0 Hv) as (j & Hj & Hcj). exists j.
      rewrite Hold by lia. split; [lia|done].
Qed.

Lemma interned_new c m mp new next :
  interned c m (mp, new, next) → m ≤ dead → mp !! signature_of c m = None →
  interned c (m + 1) (<[signature_of c m := next]> mp, alterN (λ _, next) new m, next + 1).
Proof.
  intros [Hlen Hmap Heq Hb Hu Hf] Hm Hk. simpl in *.
  assert (Hno : ∀ x, class_no (alterN (λ _, next) new m) x = if x =? m then next else class_no new x)
    by (intros x; apply class_no_alterN; lia).
  assert (Hold : ∀ x, x < m → class_no (alterN (λ _, next) new m) x = class_no new x).
  { intros x Hx. rewrite Hno. by destruct (N.eqb_spec x m); [lia|]. }
  assert (Hnew : class_no (alterN (λ _, next) new m) m = next) by (by rewrite Hno, N.eqb_refl).
  assert (Hfresh : ∀ i, i < m → signature_of c i ≠ signature_of c m).
  { intros i Hi Hs. assert (mp !! signature_of c m = Some (class_no new i)); [|congruence].
    apply Hmap. eauto. }
  assert (Hsplit : ∀ x, x < m + 1 → x < m ∨ x = m) by lia.
  split; simpl; [by rewrite lenN_alterN| | | | |].
  - intros sg k'. rewrite lookup_insert. case_decide as Hsg.
    + subst sg. split; [intros [= <-]; exists m; rewrite Hnew; split; [lia|done]|].
      intros (i & [Hi| ->]%Hsplit & Hs & <-); [by destruct (Hfresh i Hi)|by rewrite Hnew].
    + rewrite Hmap. split.
      * intros (i & Hi & <- & <-). exists i. rewrite Hold by done. split; [lia|done].
      * intros (i & [Hi| ->]%Hsplit & <- & <-); [exists i; by rewrite Hold|done].
  - intros i j [Hi| ->]%Hsplit [Hj| ->]%Hsplit; rewrite ?Hnew, ?Hold by done; [by apply Heq| | |done].
    + specialize (Hb i Hi). specialize (Hfresh i Hi). split; [lia|done].
    + specialize (Hb j Hj). specialize (Hfresh j Hj). split; [lia|intros Hs; by destruct Hfresh].
  - intros i [Hi| ->]%Hsplit; rewrite ?Hnew, ?Hold by done; [|lia]. specialize (Hb i Hi). lia.
  - intros v Hv. destruct (decide (v = next)) as [->|].
    + exists m. rewrite Hnew. split; [lia|done].
    + destruct (Hu v) as (i & Hi & <-); [lia|]. exists i. rewrite Hold by done. split; [lia|done].
  - intros i v [Hi| ->]%Hsplit Hv; rewrite ?Hnew, ?Hold in Hv by done.
    + destruct (Hf i v Hi Hv) as (j & Hj & Hcj). exists j. rewrite Hold by lia. done.
    + destruct (Hu v Hv) as (j & Hj & Hcj). exists j. by rewrite Hold.
Qed.

Lemma interned_init c : interned c 0 (∅, replicate (S (length ds)) 0, 0).
Proof.
  split; simpl; try (intros; lia).
  - unfold lenN. simpl. rewrite length_replicate. lia.
  - intros sg k. rewrite lookup_empty. split; [done|]. intros (i & Hi & _). lia.
  - intros i v Hi. lia.
Qed.

Lemma refine_all c m :
  partition c → m ≤ dead + 1 →
  ∃ st, foldM (refine_one dfa dead ds std c (class_no c dead))
    (∅, replicate (S (length ds)) 0, 0) (seqN (N.to_nat m)) = Some st ∧ interned c m st.
Proof using All.
  intros Hp. revert m. refine (N.peano_ind _ _ _).
  - intros _. eexists. split; [done|]. apply interned_init.
  - intros m IH Hm. destruct IH as ([[mp new] next] & Hf & Hin); [lia|].
    replace (N.to_nat (N.succ m)) with (N.to_nat m + 1)%nat by lia.
    rewrite seqN_app, foldM_app, Hf. simpl. rewrite N2Nat.id.
    rewrite refinement_signature_eq by (done || lia). simpl. rewrite <-N.add_1_r.
    destruct (mp !! signature_of c m) as [k|] eqn:E; eexists; (split; [done|]).
    + apply interned_known; [done|lia|done].
    + apply interned_new; [done|lia|done].
Qed.

(** The result of a round: the numbering by first occurrence of the signatures. *)
Lemma refine_partition_spec c :
  partition c →
  ∃ c', refine_partition dfa dead ds std c = Some c' ∧ lenN c' = dead + 1 ∧
    first_occurrence c' (dead + 1) ∧
    ∀ i j, i ≤ dead → j ≤ dead →
      class_no c' i = class_no c' j ↔
      class_no c i = class_no c j ∧
      ∀ l k, (∃ t, dense_step i l = Some t ∧ class_no c t = k) ↔
             (∃ t, dense_step j l = Some t ∧ class_no c t = k).
Proof using All.
  intros Hp. unfold refine_partition. rewrite (pt_lookup c dead) by (done || lia). cbn [mbind option_bind].
  destruct (refine_all c (dead + 1) Hp) as ([[mp new] next] & Hf & [Hlen _ Heq _ _ Hfirst]); [lia|].
  replace (S (N.to_nat dead)) with (N.to_nat (dead + 1)) by lia. rewrite Hf. simpl in *.
  exists new. split; [done|]. split; [done|]. split; [done|].
  intros i j Hi Hj. rewrite <-signature_of_eq by done. apply Heq; lia.
Qed.

Lemma refine_partition_keeps c c' :
  partition c → refine_partition dfa dead ds std c = Some c' → partition c'.
Proof using All.
  intros Hp Hr. destruct (refine_partition_spec c Hp) as (c'' & Hr' & Hlen & _ & Heq).
  assert (c'' = c') as -> by congruence. split; [done| |].
  - intros i j Hi Hj [Hc _]%Heq; [|done..]. by apply (pt_accepting c Hp).
  - intros i j Hi Hj Hs. apply Heq; [done..|]. split; [by apply (pt_coarse c Hp)|].
    assert (Hstep : ∀ i j l t, same_behaviour i j → dense_step i l = Some t →
      ∃ u, dense_step j l = Some u ∧ same_behaviour t u).
    { clear i j Hi Hj Hs. intros i j l t Hs Ht.
      assert (Hw : ∀ w, observe t w = u ← dense_step j l; observe u w).
      { intros w. specialize (Hs (l :: w)). cbn [observe] in Hs. by rewrite Ht in Hs. }
      destruct (dense_step j l) as [u|]; [by exists u|]. specialize (Hw []).
      apply dense_step_lt in Ht as [_ Ht]. apply observe_nil_None in Hw. lia. }
    assert (Hhalf : ∀ i j l k, same_behaviour i j →
      (∃ t, dense_step i l = Some t ∧ class_no c t = k) →
      (∃ t, dense_step j l = Some t ∧ class_no c t = k)).
    { clear i j Hi Hj Hs. intros i j l k Hs (t & Ht & <-).
      destruct (Hstep i j l t Hs Ht) as (u & Hu & Htu). exists u. split; [done|]. symmetry.
      apply dense_step_lt in Ht as [_ Ht]. apply dense_step_lt in Hu as [_ Hu'].
      apply (pt_coarse c Hp); [lia..|done]. }
    intros l k. split; apply Hhalf; [done|]. intros w. by rewrite Hs.
Qed.

(** At the fixed point a class is a behaviour. *)
Lemma stable_same_behaviour c :
  partition c → refine_partition dfa dead ds std c = Some c →
  ∀ i j, i ≤ dead → j ≤ dead → class_no c i = class_no c j ↔ same_behaviour i j.
Proof using All.
  intros Hp Hr. destruct (refine_partition_spec c Hp) as (c' & Hr' & _ & _ & Heq).
  assert (c' = c) as -> by congruence.
  intros i j Hi Hj. split; [|by apply (pt_coarse c Hp)]. intros Hc w.
  revert i j Hi Hj Hc. induction w as [|l w IH]; intros i j Hi Hj Hc; [by apply (pt_accepting c Hp)|].
  cbn [observe]. apply Heq in Hc as [_ Hc]; [|done..].
  destruct (dense_step i l) as [t|] eqn:Et.
  - destruct (Hc l (class_no c t)) as [(u & Hu & Hcu) _]; [eauto|]. rewrite Hu. simpl.
    apply dense_step_lt in Et as [_ Et]. apply dense_step_lt in Hu as [_ Hu]. apply IH; [lia..|done].
  - destruct (dense_step j l) as [u|] eqn:Eu; [|done].
    destruct (Hc l (class_no c u)) as [_ (t & Ht & _)]; [eauto|]. congruence.
Qed.

(** ** The refinement loop ends *)

Definition numbered_b (c : list N) : Prop := first_occurrence c (dead + 1).

Definition refine_inv (c : list N) (m : nat) : Prop :=
  partition c ∧ ∃ b : bool, (b = true → numbered_b c) ∧
    m = (2 * same_class_pairs c (S (length ds)) + if b then 0 else 1)%nat.

Lemma refine_step_inv c c' m :
  refine_inv c m → refine_step dfa dead ds std c = inl c' → ∃ m', refine_inv c' m' ∧ (m' < m)%nat.
Proof using All.
  intros (Hp & b & Hb & ->). unfold refine_step.
  destruct (refine_partition_spec c Hp) as (c1 & Hr & Hlen & Hfirst & Heq). rewrite Hr.
  case_decide as Hne; [done|]. intros [= ->].
  exists (2 * same_class_pairs c' (S (length ds)))%nat. split.
  { split; [by eapply refine_partition_keeps|]. exists true. split; [done|lia]. }
  assert (Hof : ∀ x, x < N.of_nat (S (length ds)) ↔ x ≤ dead) by (intros x; unfold lenN; lia).
  assert (Href : ∀ i j, i < N.of_nat (S (length ds)) → j < N.of_nat (S (length ds)) →
    class_no c' i = class_no c' j → class_no c i = class_no c j).
  { intros i j Hi Hj Hc. by apply Heq in Hc as [? _]; [|by apply Hof..]. }
  destruct (separated_or_not c c' (S (length ds))) as [(i & j & Hi & Hj & Hc & Hc')|Hsame].
  - pose proof (same_class_pairs_lt c c' _ i j Href Hi Hj Hc Hc'). lia.
  - pose proof (same_class_pairs_le c c' _ Href). destruct b; [|lia]. exfalso. apply Hne.
    apply nthN_ext. intros i. destruct (decide (i ≤ dead)) as [Hi|Hi].
    + rewrite (pt_lookup c) by done. rewrite (pt_lookup c') by (by eapply refine_partition_keeps || done).
      f_equal. apply (first_occurrence_unique c' c (dead + 1)); [done|by apply Hb| |lia].
      intros x y Hx Hy. split; [apply Href|apply Hsame]; apply Hof; lia.
    + trans (@None N); [|symmetry]; apply nthN_None; rewrite ?Hlen, ?(pt_len c Hp); lia.
Qed.

(** The loop leaves with a stable partition. *)
Lemma refine_loop c :
  partition c →
  ∃ c', run (refine_step dfa dead ds std) (refine_fuel (length ds)) c = inr (Some c') ∧
    partition c' ∧ refine_partition dfa dead ds std c' = Some c'.
Proof using All.
  intros Hp.
  destruct (run_terminates (refine_step dfa dead ds std) refine_inv (refine_fuel (length ds)) c
    (2 * same_class_pairs c (S (length ds)) + 1) refine_step_inv) as (r & c' & m & Hrun & (Hp' & _) & Hexit).
  - split; [done|]. by exists false.
  - assert (same_class_pairs c (S (length ds)) ≤ S (length ds) * S (length ds))%nat.
    { unfold same_class_pairs. rewrite <-length_index_pairs. apply length_filter. }
    unfold refine_fuel. replace (2 * length ds + 6)%nat with (S (length ds) + (S (length ds) + 4))%nat by lia.
    rewrite !Nat.pow_add_r. pose proof (pow2_gt (S (length ds))) as Hg. simpl (2 ^ 4)%nat. nia.
  - exists c'. rewrite Hrun. unfold refine_step in Hexit.
    destruct (refine_partition_spec c' Hp') as (c1 & Hr & _). rewrite Hr in Hexit |- *.
    case_decide as Heq; [|done]. injection Hexit as <-. by subst.
Qed.

(** ** The initial partition *)

Lemma initial_partition_spec :
  ds ≠ [] → ∃ c, initial_partition dfa ds dead = Some c ∧ partition c.
Proof using All.
  intros Hne. unfold initial_partition.
  destruct (N.eqb_spec dead 0) as [Hz|_]; [by destruct ds|].
  set (c0 := alterN (λ _, 0) (replicate (S (length ds)) 0) dead).
  destruct (foldM_enumerate (λ k c, lenN c = dead + 1 ∧ class_no c dead = 0 ∧
      ∀ i s, i < k → ds.[i] = Some s → class_no c i = if DFA.accepting dfa s then 2 else 1)
    (λ class_of '(dense_id, state_id), st ← (DFA.states dfa).[state_id];
       Some (alterN (λ _, if DFAState.is_accepting st then 2 else 1) class_of dense_id)) c0 ds)
    as (c & Hf & Hlen & Hdead & Hcls).
  - intros k s c Hk (Hlen & Hdead & Hcls).
    assert (Hs : s < lenN (DFA.states dfa)) by (apply Hds, nthN_elem_of; eauto).
    apply nthN_Some_lt in Hs as [st Hst]. rewrite Hst. simpl. eexists. split; [done|].
    assert (Hkd := nthN_lt _ _ _ Hk). rewrite lenN_alterN. split; [done|].
    split; [rewrite class_no_alterN by lia; by destruct (N.eqb_spec dead k); [lia|]|].
    intros i s' Hi Hs'. rewrite class_no_alterN by lia. destruct (N.eqb_spec i k) as [->|].
    + assert (s' = s) as -> by congruence. unfold DFA.accepting. by rewrite Hst.
    + apply Hcls; [lia|done].
  - unfold c0. rewrite lenN_alterN, lenN_replicate.
    rewrite class_no_alterN by (rewrite lenN_replicate; unfold lenN; lia).
    rewrite N.eqb_refl. split; [unfold lenN; lia|]. split; [done|]. intros. lia.
  - exists c. split; [exact Hf|].
    assert (Hobs : ∀ i, i ≤ dead → class_no c i =
      match observe i [] with Some true => 2 | Some false => 1 | None => 0 end).
    { intros i Hi. destruct (ds.[i]) as [s|] eqn:E; simpl; rewrite E; simpl.
      - rewrite (Hcls i s) by (done || by eapply nthN_lt). by destruct (DFA.accepting dfa s).
      - apply nthN_None in E. by replace i with dead by lia. }
    split; [done| |].
    + intros i j Hi Hj. rewrite !Hobs by done. by destruct (observe i []) as [[]|], (observe j []) as [[]|].
    + intros i j Hi Hj Hs. rewrite !Hobs by done. by rewrite (Hs []).
Qed.

(** ** The built automaton *)

Section built.
Context (c : list N) (Hp : partition c) (Hstable : refine_partition dfa dead ds std c = Some c).
Context (Hsmall : dead < u32_modulus) (start : N) (Hstart : start < dead).
#[local] Abbreviation class i := (class_no c i).

(** Numbering the live classes of the first [k] dense ids. *)
Record numbering (k : N) (m : gmap N N) (rows : list DFAState.t) : Prop := {
  nu_rows : ∀ q x, rows.[q] = Some x → x = DFAState.default;
  nu_len : 1 ≤ lenN rows ∧ lenN rows ≤ 1 + k;
  nu_range : ∀ a q, m !! a = Some q → q < lenN rows;
  nu_inj : ∀ a b q, m !! a = Some q → m !! b = Some q → a = b;
  nu_class : ∀ a q, m !! a = Some q → ∃ i, i < dead ∧ class i = a;
  nu_onto : ∀ q, q < lenN rows → ∃ a, m !! a = Some q;
  nu_start : m !! class start = Some 0;
  nu_done : ∀ i, i < k → i < dead → is_Some (m !! class i);
}.

Lemma number_class_spec k m rows :
  k < dead → numbering k m rows →
  ∃ m' rows', number_class c (class dead) (m, rows) k = Some (m', rows') ∧ numbering (k + 1) m' rows'.
Proof using All.
  intros Hk [Hrows Hlen Hran Hinj Hcls Honto Hst Hdone]. unfold number_class.
  rewrite (pt_lookup c k) by (done || lia). simpl.
  destruct (N.eqb_spec (class k) (class dead)) as [Heq|Hne].
  { apply pt_sink in Heq; [lia|done|lia]. }
  assert (Hsplit : ∀ i, i < k + 1 → i < k ∨ i = k) by lia.
  case_bool_decide as Hin; simpl.
  - exists m, rows. split; [done|]. split; try done; [lia|]. intros i [Hi| ->]%Hsplit; auto.
  - exists (<[class k := as_u32 (lenN rows)]> m), (rows ++ [DFAState.default]). split; [done|].
    rewrite as_u32_small by lia. assert (Hnone : m !! class k = None) by (by apply eq_None_not_Some).
    assert (Hins : ∀ a q, <[class k := lenN rows]> m !! a = Some q ↔
      (a = class k ∧ q = lenN rows) ∨ (m !! a = Some q ∧ q < lenN rows)).
    { intros a q. rewrite lookup_insert. case_decide as Ha.
      - subst a. rewrite Hnone. naive_solver.
      - split; [intros Hm; right; eauto|]. intros [[-> _]|[? _]]; done. }
    split.
    + intros q x. rewrite nthN_snoc. case_match; [congruence|apply Hrows].
    + rewrite lenN_snoc. lia.
    + intros a q [[_ ->]|[_ ?]]%Hins; rewrite lenN_snoc; lia.
    + intros a b q [[-> ->]|[Ha ?]]%Hins [[-> Hq]|[Hb ?]]%Hins; [done|lia|lia|by eapply Hinj].
    + intros a q [[-> _]|[Ha _]]%Hins; [by exists k|by eapply Hcls].
    + intros q. rewrite lenN_snoc. intros Hq. destruct (decide (q = lenN rows)) as [->|].
      * exists (class k). apply Hins. by left.
      * destruct (Honto q) as [a Ha]; [lia|]. exists a. apply Hins. right. split; [done|lia].
    + apply Hins. right. split; [done|lia].
    + intros i Hi Hid. destruct (decide (class i = class k)) as [->|Hne']; [rewrite lookup_insert_eq; by eexists|].
      rewrite lookup_insert_ne by done. apply Hdone; [|done].
      apply Hsplit in Hi as [Hi| ->]; [done|by destruct Hne'].
Qed.

Lemma number_classes_spec :
  ∃ m rows, foldM (number_class c (class dead)) ({[ class start := 0 ]}, [DFAState.default])
    (seqN (length ds)) = Some (m, rows) ∧ numbering dead m rows.
Proof using All.
  destruct (foldM_seqN (λ k st, numbering k st.1 st.2) (number_class c (class dead))
    ({[ class start := 0 ]}, [DFAState.default]) (length ds)) as ([m rows] & Hf & Hnum).
  - intros k [m rows] Hk Hn. destruct (number_class_spec k m rows Hk Hn) as (m' & rows' & -> & ?).
    by exists (m', rows').
  - assert (Hone : ∀ a q, ({[ class start := 0 ]} : gmap N N) !! a = Some q ↔ a = class start ∧ q = 0).
    { intros a q. rewrite lookup_singleton_Some. naive_solver. }
    split; simpl.
    + intros q x. simpl. case_match; [by intros [= <-]|done].
    + unfold lenN. simpl. lia.
    + intros a q [-> ->]%Hone. unfold lenN. simpl. lia.
    + intros a b q [-> _]%Hone [-> _]%Hone. done.
    + intros a q [-> _]%Hone. by exists start.
    + intros q Hq. exists (class start). apply Hone. unfold lenN in Hq. simpl in Hq. split; [done|lia].
    + by apply Hone.
    + intros. lia.
  - by exists m, rows.
Qed.

Context (m : gmap N N) (rows0 : list DFAState.t) (Hnum : numbering dead m rows0).

(** The row of dense state [i], up to class. *)
Definition row_of (i : N) (row : DFAState.t) : Prop :=
  observe i [] = Some (DFAState.is_accepting row) ∧
  ∀ l q, DFAState.transitions row !! l = Some q ↔
    ∃ t, dense_step i l = Some t ∧ m !! class t = Some q.

Lemma fill_transitions_spec row trs :
  NoDup trs.*1 → (∀ l, l ∈ trs.*1 → row !! l = None) →
  ∃ row', fill_transitions std c (class dead) m row trs = Some row' ∧
    ∀ l q, row' !! l = Some q ↔ row !! l = Some q ∨
      ∃ t j, (l, t) ∈ trs ∧ std !! t = Some j ∧ m !! class j = Some q.
Proof using All.
  unfold fill_transitions. revert row. induction trs as [|[l0 t0] trs IH]; intros row Hn Hrow; cbn [foldM].
  - exists row. split; [done|]. intros l q. set_solver.
  - apply NoDup_cons in Hn as [Hni Hn]. simpl in *.
    assert (Hskip : (∀ j q, std !! t0 = Some j → m !! class j ≠ Some q) → 
      ∃ row', fill_transitions std c (class dead) m row trs = Some row' ∧
      ∀ l q, row' !! l = Some q ↔ row !! l = Some q ∨
      ∃ t j, (l, t) ∈ (l0, t0) :: trs ∧ std !! t = Some j ∧ m !! class j = Some q).
    { intros Hno. destruct (IH row Hn) as (row' & Hf & Hr); [intros l Hl; apply Hrow; set_solver|].
      exists row'. split; [done|]. intros l q. rewrite Hr. setoid_rewrite elem_of_cons. naive_solver. }
    destruct (std !! t0) as [j0|] eqn:Ej.
    + assert (Hj0 : j0 < dead) by (apply Hstd, nthN_lt in Ej; done).
      rewrite (pt_lookup c j0) by (done || lia). simpl.
      destruct (N.eqb_spec (class j0) (class dead)) as [Heq|Hne].
      { apply pt_sink in Heq; [lia|done|lia]. }
      destruct (m !! class j0) as [q0|] eqn:Em.
      * simpl. destruct (IH (<[l0 := q0]> row) Hn) as (row' & Hf & Hr).
        { intros l Hl. rewrite lookup_insert_ne by (intros ->; done). apply Hrow. set_solver. }
        exists row'. split; [done|]. intros l q. rewrite Hr, lookup_insert. setoid_rewrite elem_of_cons.
        assert (Hl0 : row !! l0 = None) by (apply Hrow; set_solver).
        assert (Hni' : ∀ t, (l0, t) ∉ trs) by (intros t Ht; apply Hni; by apply (list_elem_of_fmap_2 fst) in Ht).
        case_decide as Hl; [subst l|]; naive_solver.
      * apply Hskip. intros j q [= <-]. by rewrite Em.
    + apply Hskip. by intros j q.
Qed.

(** Filling the rows from the first [k] dense ids. *)
Record filling (k : N) (filled : list bool) (rows : list DFAState.t) : Prop := {
  fi_len : lenN filled = lenN rows0 ∧ lenN rows = lenN rows0;
  fi_row : ∀ q, q < lenN rows0 →
    (filled.[q] = Some true ∧ ∃ i row, i < k ∧ m !! class i = Some q ∧ rows.[q] = Some row ∧ row_of i row) ∨
    (filled.[q] = Some false ∧ rows.[q] = Some DFAState.default ∧ ∀ i, i < k → m !! class i ≠ Some q);
}.

Lemma dense_row_filled i s st :
  ds.[i] = Some s → (DFA.states dfa).[s] = Some st → ∃ trs,
    fill_transitions std c (class dead) m ∅ (label_iter (DFAState.transitions st)) = Some trs ∧
    row_of i (DFAState.mk (DFAState.is_accepting st) trs).
Proof using All.
  intros Hi Hs.
  destruct (fill_transitions_spec ∅ (label_iter (DFAState.transitions st))) as (trs & Hf & Hr);
    [apply NoDup_bt_keys|intros; apply lookup_empty|].
  exists trs. split; [done|]. split; simpl.
  - rewrite Hi. simpl. unfold DFA.accepting. by rewrite Hs.
  - intros l q. rewrite Hr, lookup_empty. unfold dense_step. rewrite Hi. simpl. unfold DFA.delta. rewrite Hs. simpl.
    setoid_rewrite elem_of_bt_iter. split.
    + intros [?|(t & j & Ht & Hj & Hq)]; [done|]. exists j. by rewrite Ht.
    + intros (j & Hj & Hq). right. destruct (DFAState.transitions st !! l) as [t|]; [|done]. by exists t, j.
Qed.

Lemma fill_state_spec k s filled rows :
  ds.[k] = Some s → filling k filled rows →
  ∃ filled' rows', fill_state dfa std c (class dead) m (filled, rows) (k, s) = Some (filled', rows') ∧
    filling (k + 1) filled' rows'.
Proof using All.
  intros Hk [[Hl1 Hl2] Hfi]. assert (Hkd := nthN_lt _ _ _ Hk). unfold fill_state.
  rewrite (pt_lookup c k) by (done || lia). simpl.
  destruct (N.eqb_spec (class k) (class dead)) as [Heq|_].
  { apply pt_sink in Heq; [lia|done|lia]. }
  destruct (nu_done _ _ _ Hnum k) as [q Hq]; [done..|]. rewrite Hq. simpl.
  assert (Hql := nu_range _ _ _ Hnum _ _ Hq).
  assert (Hsplit : ∀ i, i < k + 1 → i < k ∨ i = k) by lia.
  destruct (Hfi q Hql) as [(-> & i & row & Hi & Hm & Hrow & Hro)|(-> & Hrow & Hno)]; simpl.
  - exists filled, rows. split; [done|]. split; [done|]. intros q' Hq'.
    destruct (Hfi q' Hq') as [(Hf & j & row' & Hj & Hrest)|(Hf & Hd & Hno)].
    + left. split; [done|]. exists j, row'. split; [lia|done].
    + right. split; [done|]. split; [done|]. intros j [Hj| ->]%Hsplit; [by apply Hno|].
      rewrite Hq. intros [= ->]. by apply (Hno i Hi).
  - assert (Hs : s < lenN (DFA.states dfa)) by (apply Hds, nthN_elem_of; eauto).
    apply nthN_Some_lt in Hs as [st Hst]. rewrite Hst. simpl. rewrite Hrow. simpl.
    destruct (dense_row_filled k s st Hk Hst) as (trs & -> & Hro). simpl.
    do 2 eexists. split; [done|]. split; [by rewrite !lenN_alterN|]. intros q' Hq'. rewrite !nthN_alterN.
    destruct (N.eqb_spec q' q) as [->|Hne].
    + left. destruct (proj1 (nthN_Some_lt filled q)) as [b ->]; [lia|]. split; [done|].
      eexists k, _. split; [lia|]. split; [done|]. rewrite Hrow. done.
    + destruct (Hfi q' Hq') as [(Hf & j & row' & Hj & Hrest)|(Hf & Hd & Hno')].
      * left. split; [done|]. exists j, row'. split; [lia|done].
      * right. split; [done|]. split; [done|]. intros j [Hj| ->]%Hsplit; [by apply Hno'|]. congruence.
Qed.

Lemma fill_states_spec :
  ∃ filled rows, foldM (fill_state dfa std c (class dead) m)
      (replicate (length rows0) false, rows0) (enumerate ds) = Some (filled, rows) ∧
    lenN rows = lenN rows0 ∧
    ∀ q, q < lenN rows0 → ∃ i row, i < dead ∧ m !! class i = Some q ∧ rows.[q] = Some row ∧ row_of i row.
Proof using All.
  destruct (foldM_enumerate (λ k st, filling k st.1 st.2) (fill_state dfa std c (class dead) m)
    (replicate (length rows0) false, rows0) ds) as ([filled rows] & Hf & [[_ Hlen] Hfi]).
  - intros k s [filled rows] Hk Hfi.
    destruct (fill_state_spec k s filled rows Hk Hfi) as (f' & r' & -> & ?). by exists (f', r').
  - split; simpl; [by rewrite lenN_replicate|]. intros q Hq. right. rewrite nthN_replicate.
    unfold lenN in Hq. rewrite (proj2 (N.ltb_lt _ _) Hq). split; [done|]. split; [|intros; lia].
    destruct (proj1 (nthN_Some_lt rows0 q)) as [x Hx]; [exact Hq|].
    by rewrite Hx, (nu_rows _ _ _ Hnum q x Hx).
  - exists filled, rows. split; [done|]. split; [done|]. intros q Hq.
    destruct (Hfi q Hq) as [(_ & i & row & Hi & Hrest)|(_ & _ & Hno)]; [by exists i, row|]. exfalso.
    destruct (nu_onto _ _ _ Hnum q Hq) as [a Ha]. destruct (nu_class _ _ _ Hnum a q Ha) as (i & Hi & <-).
    by apply (Hno i Hi).
Qed.

Context (rows : list DFAState.t).
Context (Hrows : ∀ q, q < lenN rows → ∃ i row, i < dead ∧ m !! class i = Some q ∧ rows.[q] = Some row ∧ row_of i row).
Context (Hlen : lenN rows = lenN rows0).
#[local] Abbreviation built := (DFA.mk rows 0).

Lemma built_row i q :
  i < dead → m !! class i = Some q → observe i [] = Some (DFA.accepting built q) ∧
  ∀ l q', DFA.delta built q l = Some q' ↔ ∃ t, dense_step i l = Some t ∧ m !! class t = Some q'.
Proof using All.
  intros Hi Hq. assert (Hql := nu_range _ _ _ Hnum _ _ Hq).
  destruct (Hrows q) as (r & row & Hr & Hm & Hrow & Hobs & Htr); [lia|].
  assert (Hcl : class i = class r) by (by eapply (nu_inj _ _ _ Hnum)).
  assert (Hb : same_behaviour i r) by (apply (stable_same_behaviour c Hp Hstable); [lia..|done]).
  split; [rewrite (Hb []), Hobs; unfold DFA.accepting; simpl; by rewrite Hrow|].
  intros l q'. unfold DFA.delta. simpl. rewrite Hrow. simpl. rewrite Htr.
  destruct (refine_partition_spec c Hp) as (c' & Hr' & _ & _ & Heq).
  assert (c' = c) as -> by congruence. apply Heq in Hcl as [_ Hcl]; [|lia..].
  split; intros (t & Ht & Hq').
  - destruct (Hcl l (class t)) as [_ (u & Hu & Hcu)]; [eauto|]. exists u. by rewrite Hcu.
  - destruct (Hcl l (class t)) as [(u & Hu & Hcu) _]; [eauto|]. exists u. by rewrite Hcu.
Qed.

Lemma built_observe w i q :
  i < dead → m !! class i = Some q → DFA.accepts_from built q w = default false (observe i w).
Proof using All.
  revert i q. induction w as [|l w IH]; intros i q Hi Hq; destruct (built_row i q Hi Hq) as [Ha Hd].
  - by rewrite Ha.
  - rewrite DFAFacts.accepts_from_cons. cbn [observe]. specialize (Hd l).
    destruct (dense_step i l) as [t|] eqn:Et; simpl.
    + apply dense_step_lt in Et as [_ Htl].
      destruct (nu_done _ _ _ Hnum t) as [q' Hq']; [done..|].
      assert (DFA.delta built q l = Some q') as -> by (apply Hd; eauto). by apply IH.
    + destruct (DFA.delta built q l) as [q'|]; [|done]. destruct (Hd q') as [(t & ? & _) _]; done.
Qed.

(** Following a word through the dense states. *)
Fixpoint dense_run (i : N) (w : list Z) : option N :=
  match w with
  | [] => Some i
  | l :: w => j ← dense_step i l; dense_run j w
  end.

Lemma built_run w i j q :
  i < dead → m !! class i = Some q → dense_run i w = Some j →
  ∃ q', DFA.run_from built q w = Some q' ∧ m !! class j = Some q'.
Proof using All.
  revert i q. induction w as [|l w IH]; intros i q Hi Hq Hr; simpl in *; [exists q; naive_solver|].
  destruct (built_row i q Hi Hq) as [_ Hd].
  destruct (dense_step i l) as [t|] eqn:Et; [|done]. simpl in Hr. apply dense_step_lt in Et as Htl.
  destruct (nu_done _ _ _ Hnum t) as [q1 Hq1]; [apply Htl..|].
  assert (DFA.delta built q l = Some q1) as -> by (apply Hd; eauto). simpl.
  by apply (IH t); [apply Htl| |].
Qed.
End built.

(** ** Dense states and the automaton *)

Section dense.
Context (Hclosed : ∀ s l t, s ∈ ds → DFA.delta dfa s l = Some t → t < lenN (DFA.states dfa) → t ∈ ds).

Lemma dense_index s : s ∈ ds → ∃ i, ds.[i] = Some s ∧ std !! s = Some i.
Proof using All. intros [i Hi]%nthN_elem_of. exists i. split; [done|]. by apply Hstd. Qed.

Lemma observe_accepts w i s :
  ds.[i] = Some s → DFA.accepts_from dfa s w = default false (observe i w).
Proof using All.
  revert i s. induction w as [|l w IH]; intros i s Hi; [simpl; by rewrite Hi|].
  rewrite DFAFacts.accepts_from_cons. cbn [observe]. unfold dense_step. rewrite Hi. simpl.
  destruct (DFA.delta dfa s l) as [t|] eqn:Et; [|done]. simpl.
  destruct (decide (t < lenN (DFA.states dfa))) as [Ht|Ht].
  - destruct (dense_index t) as (j & Hj & ->); [|by apply IH].
    apply (Hclosed s l t); [apply nthN_elem_of; eauto|done|done].
  - rewrite DFAFacts.out_of_range_dead by lia. destruct (std !! t) as [j|] eqn:Ej; [|done].
    exfalso. apply Ht, Hds, nthN_elem_of. apply Hstd in Ej. eauto.
Qed.

Lemma observe_app w w' i :
  observe i (w ++ w') = j ← dense_run i w; observe j w'.
Proof. revert i. induction w as [|l w IH]; intros i; simpl; [done|]. destruct (dense_step i l); [apply IH|done]. Qed.

Lemma dense_run_lt w i j : i < dead → dense_run i w = Some j → j < dead.
Proof using Hstd.
  revert i. induction w as [|l w IH]; intros i Hi; simpl; [by intros [= <-]|].
  destruct (dense_step i l) as [t|] eqn:Et; [|done]. simpl. apply IH.
  by apply dense_step_lt in Et as [_ ?].
Qed.

(** Where every dense state is live, the language tells the behaviour. *)
Lemma live_same_behaviour i j si sj :
  (∀ s, s ∈ ds → ¬ DFA.dead dfa s) → ds.[i] = Some si → ds.[j] = Some sj →
  DFA.same_language dfa si sj → same_behaviour i j.
Proof using All.
  intros Hlive Hi Hj Hsame w.
  assert (Hobs : ∀ w, default false (observe i w) = default false (observe j w)).
  { intros v. rewrite <-(observe_accepts v i si), <-(observe_accepts v j sj) by done. apply Hsame. }
  assert (Hrun : ∀ i w, i < dead → observe i w = None → dense_run i w = None).
  { clear i j w si sj Hi Hj Hsame Hobs. intros i w Hi Hn. rewrite <-(app_nil_r w), observe_app in Hn.
    destruct (dense_run i w) as [k|] eqn:Ek; [|done]. cbn [mbind option_bind] in Hn.
    apply observe_nil_None in Hn. apply dense_run_lt in Ek; [lia|done]. }
  assert (Hnone : ∀ i j, i < dead → j < dead →
    (∀ w, default false (observe i w) = default false (observe j w)) →
    observe j w = None → observe i w = None).
  { clear i j si sj Hi Hj Hsame Hobs. intros i j Hi Hj Hobs Hn.
    destruct (observe i w) as [b|] eqn:Ei; [exfalso|done].
    rewrite <-(app_nil_r w), observe_app in Ei. destruct (dense_run i w) as [k|] eqn:Ek; [|done].
    assert (Hkl : k < dead) by (by apply (dense_run_lt w i)).
    destruct (proj1 (nthN_Some_lt ds k) Hkl) as [s Hs].
    apply (Hlive s); [apply nthN_elem_of; eauto|]. intros v. rewrite (observe_accepts v k s Hs).
    specialize (Hobs (w ++ v)). rewrite !observe_app, Ek, (Hrun j w Hj Hn) in Hobs. exact Hobs. }
  assert (Hil := nthN_lt _ _ _ Hi). assert (Hjl := nthN_lt _ _ _ Hj).
  specialize (Hobs w) as Hw.
  destruct (observe i w) as [b|] eqn:Ei, (observe j w) as [b'|] eqn:Ej; simpl in Hw; [by subst| | |done].
  - specialize (Hnone i j Hil Hjl Hobs Ej). congruence.
  - specialize (Hnone j i Hjl Hil (λ w, eq_sym (Hobs w)) Ei). congruence.
Qed.
End dense.
End refine_spec.

(** * Minimization *)

Lemma dense_step_edge dfa ds std i l j si sj :
  (∀ s i, std !! s = Some i ↔ ds.[i] = Some s) → dense_step dfa ds std i l = Some j →
  ds.[i] = Some si → ds.[j] = Some sj → DFA.delta dfa si l = Some sj.
Proof.
  intros Hstd Hj Hi Hsj. unfold dense_step in Hj. rewrite Hi in Hj. simpl in Hj.
  destruct (DFA.delta dfa si l) as [t|]; [|done]. simpl in Hj. apply Hstd in Hj. congruence.
Qed.

(** Every dense state is reached from the start by a word over dense states. *)
Lemma dense_reachable dfa ds std x y i :
  (∀ s i, std !! s = Some i ↔ ds.[i] = Some s) →
  (∀ s l t, s ∈ ds → DFA.delta dfa s l = Some t → t < lenN (DFA.states dfa) → t ∈ ds) →
  rtc (edge (DFA.adjacency dfa)) x y → ds.[i] = Some x →
  ∃ w j, dense_run dfa ds std i w = Some j ∧ ds.[j] = Some y.
Proof.
  intros Hstd Hcl Hr. revert i. induction Hr as [x|x z y He _ IH]; intros i Hi; [by exists [], i|].
  apply DFAFacts.edge_delta in He as (l & Hl & Hlt).
  assert (Hz : z ∈ ds) by (apply (Hcl x l z); [apply nthN_elem_of; eauto|done|done]).
  apply nthN_elem_of in Hz as [j Hj]. destruct (IH j Hj) as (w & k & Hw & Hk).
  exists (l :: w), k. split; [|done]. simpl. unfold dense_step. rewrite Hi. simpl. rewrite Hl. simpl.
  by rewrite (proj2 (Hstd z j) Hj).
Qed.

Section final.
Context (dfa : DFA.t) (l : list N) (std : gmap N N) (Hn : lenN (DFA.states dfa) < u32_modulus).
Context (Hnd : NoDup l) (Hlt : ∀ i, i ∈ l → i < lenN (DFA.states dfa)).
Context (Hl : ∀ i, i ∈ l ↔ DFA.start_state dfa < lenN (DFA.states dfa) ∧
                    rtc (edge (DFA.adjacency dfa)) (DFA.start_state dfa) i).
Context (Hstd : ∀ s i, std !! s = Some i ↔ l.[i] = Some s).
#[local] Abbreviation dead := (lenN l).

Lemma reachable_closed s t lbl :
  s ∈ l → DFA.delta dfa s lbl = Some t → t < lenN (DFA.states dfa) → t ∈ l.
Proof using Hl.
  rewrite !Hl. intros [? Hr] Hd Ht. split; [done|]. eapply rtc_r; [done|].
  apply DFAFacts.edge_delta. eauto.
Qed.

Lemma reachable_dense_lt : dead < u32_modulus.
Proof using Hn Hnd Hlt.
  pose proof (NoDup_bounded_length l _ Hnd Hlt). unfold lenN in *. lia.
Qed.

Context (c : list N) (Hp : partition dfa l std c).
Context (Hst : refine_partition dfa dead l std c = Some c).
Context (s0 : N) (Hs0 : l.[s0] = Some (DFA.start_state dfa)).

Lemma build_minimized_cyclic_spec :
  ∃ (rows : list DFAState.t) (m : gmap N N), build_minimized_cyclic_dfa dfa std l c (class_no c dead) = Some (DFA.mk rows 0) ∧
    m !! class_no c s0 = Some 0 ∧
    (∀ q, q < lenN rows → ∃ i, i < dead ∧ m !! class_no c i = Some q) ∧
    (∀ i w q, i < dead → m !! class_no c i = Some q →
       DFA.accepts_from (DFA.mk rows 0) q w = default false (observe dfa l std i w)) ∧
    (∀ i j w q, i < dead → m !! class_no c i = Some q → dense_run dfa l std i w = Some j →
       ∃ q', DFA.run_from (DFA.mk rows 0) q w = Some q' ∧ m !! class_no c j = Some q').
Proof using All.
  pose proof reachable_dense_lt as Hsm. assert (Hs0l := nthN_lt _ _ _ Hs0).
  destruct (number_classes_spec dfa l std Hnd Hstd Hlt c Hp Hst Hsm s0 Hs0l) as (m & rows0 & Hnf & Hnum).
  destruct (fill_states_spec dfa l std Hnd Hstd Hlt c Hp Hst Hsm s0 Hs0l m rows0 Hnum)
    as (filled & rows & Hff & Hlen & Hrows).
  exists rows, m. split.
  { unfold build_minimized_cyclic_dfa. rewrite (proj2 (Hstd _ _) Hs0). simpl.
    rewrite (pt_lookup dfa l std c s0) by (done || lia). simpl. rewrite Hnf. simpl. by rewrite Hff. }
  rewrite <-Hlen in Hrows.
  split; [apply (nu_start _ _ _ _ _ _ Hnum)|]. split; [|split].
  - intros q Hq. destruct (Hrows q Hq) as (i & row & Hi & Hm & _). by exists i.
  - intros i w q Hi Hq.
    by apply (built_observe dfa l std Hnd Hstd Hlt c Hp Hst Hsm s0 Hs0l m rows0 Hnum rows Hrows Hlen).
  - intros i j w q Hi Hq.
    by apply (built_run dfa l std Hnd Hstd Hlt c Hp Hst Hsm s0 Hs0l m rows0 Hnum rows Hrows Hlen).
Qed.

Lemma minimized_cyclic_spec :
  ∃ d, build_minimized_cyclic_dfa dfa std l c (class_no c dead) = Some d ∧
    (∀ w, DFA.accepts d w = DFA.accepts dfa w) ∧
    ((∀ s, DFA.reachable dfa s → ¬ DFA.dead dfa s) → DFA_reduced d).
Proof using All.
  destruct build_minimized_cyclic_spec as (rows & m & Hb & Hm0 & Hrows & Hobs & Hrun).
  assert (Hs0l := nthN_lt _ _ _ Hs0). exists (DFA.mk rows 0). split; [done|].
  pose proof (observe_accepts dfa l std Hnd Hstd Hlt (λ s lbl t, reachable_closed s t lbl)) as Hacc.
  split.
  { intros w. unfold DFA.accepts. simpl. rewrite (Hobs s0 w 0 Hs0l Hm0). symmetry. by apply Hacc. }
  intros Hlive.
  assert (Hlive' : ∀ s, s ∈ l → ¬ DFA.dead dfa s).
  { intros s Hs. apply Hlive. assert (Hr := Hs). apply Hl in Hr as [_ [w Hw]%DFAFacts.reach_run].
    exists w. split; [done|]. by apply Hlt. }
  assert (Hsrc : ∀ q, q < lenN rows → ∃ i s, l.[i] = Some s ∧ m !! class_no c i = Some q ∧
    ∀ w, DFA.accepts_from (DFA.mk rows 0) q w = DFA.accepts_from dfa s w).
  { intros q Hq. destruct (Hrows q Hq) as (i & Hi & Hmi). destruct (proj1 (nthN_Some_lt l i) Hi) as [s Hs].
    exists i, s. split; [done|]. split; [done|]. intros w. rewrite (Hobs i w q Hi Hmi). symmetry. by apply Hacc. }
  split; cbn [DFA.states].
  - intros q Hq. destruct (Hsrc q Hq) as (i & s & Hs & Hmi & _).
    assert (Hsl : s ∈ l) by (apply nthN_elem_of; eauto). apply Hl in Hsl as [_ Hr].
    destruct (dense_reachable dfa l std _ _ s0 Hstd (λ s lbl t, reachable_closed s t lbl) Hr Hs0) as (w & j & Hw & Hj).
    assert (j = i) as -> by (apply Hstd in Hs, Hj; congruence).
    destruct (Hrun s0 i w 0 Hs0l Hm0 Hw) as (q' & Hq' & Hm'). exists w. simpl.
    assert (q' = q) as -> by congruence. done.
  - intros q Hq Hd. destruct (Hsrc q Hq) as (i & s & Hs & _ & Hacc').
    apply (Hlive' s); [apply nthN_elem_of; eauto|]. intros w. rewrite <-Hacc'. apply Hd.
  - intros q q' Hq Hq' Hsame. destruct (Hsrc q Hq) as (i & s & Hs & Hmi & Hacc1).
    destruct (Hsrc q' Hq') as (j & t & Ht & Hmj & Hacc2).
    assert (Hb' : same_behaviour dfa l std i j).
    { apply (live_same_behaviour dfa l std Hnd Hstd Hlt (λ s lbl t, reachable_closed s t lbl) i j s t); try done.
      intros w. by rewrite <-Hacc1, <-Hacc2. }
    assert (class_no c i = class_no c j) as Hc; [|congruence].
    apply (stable_same_behaviour dfa l std Hnd Hstd Hlt c Hp Hst); [..|done];
      apply N.lt_le_incl; by eapply nthN_lt.
Qed.
End final.

Lemma minimize_cyclic_spec dfa :
  lenN (DFA.states dfa) < u32_modulus →
  ∃ d, minimize_cyclic dfa = Some d ∧ (∀ w, DFA.accepts d w = DFA.accepts dfa w) ∧
    ((∀ s, DFA.reachable dfa s → ¬ DFA.dead dfa s) →
      DFA.start_state dfa < lenN (DFA.states dfa) → DFA_reduced d).
Proof.
  intros Hn. unfold minimize_cyclic.
  destruct (N.eqb_spec (lenN (DFA.states dfa)) 0) as [Hz|Hnz].
  { exists dfa. split; [done|]. split; [done|]. intros _ Hs. lia. }
  destruct (reachable_states_spec dfa) as (l & -> & Hnd & Hlt & Hl). simpl.
  destruct (N.eqb_spec (lenN l) 0) as [Hl0|Hl0].
  { exists DFA.new. split; [done|]. assert (l = []) as -> by (destruct l; [done|unfold lenN in Hl0; simpl in Hl0; lia]).
    assert (Hs : ¬ DFA.start_state dfa < lenN (DFA.states dfa)).
    { intros Hs. assert (DFA.start_state dfa ∈ []) as Hin by (apply Hl; done). by apply elem_of_nil in Hin. }
    split; [|done]. intros w. unfold DFA.accepts at 2. rewrite DFAFacts.out_of_range_dead by lia. by destruct w. }
  destruct (dense_reachable_states_spec l Hnd) as [Hds Hstd].
  destruct (dense_reachable_states l) as [std ds]. simpl in *. subst ds.
  assert (Hne : l ≠ []) by (by intros ->).
  destruct (initial_partition_spec dfa l std Hnd Hstd Hlt Hne) as (c0 & -> & Hp0). simpl.
  destruct (refine_loop dfa l std Hnd Hstd Hlt c0 Hp0) as (c & -> & Hp & Hst).
  rewrite (pt_lookup dfa l std c (lenN l) Hp) by lia. simpl.
  assert (Hs : DFA.start_state dfa ∈ l).
  { destruct l as [|i l]; [done|]. assert (Hi : i ∈ i :: l) by (by left). apply Hl. apply Hl in Hi as [? _]. done. }
  apply nthN_elem_of in Hs as [s0 Hs0].
  destruct (minimized_cyclic_spec dfa l std Hn Hnd Hlt Hl Hstd c Hp Hst s0 Hs0) as (d & Hd & Hlang & Hred).
  exists d. split; [done|]. split; [done|]. auto.
Qed.

(** C27: [minimize_cyclic] returns for every automaton whose state ids fit [u32]
    (no panic, every loop ends) and keeps the language. *)
Theorem minimize_cyclic_language (dfa : DFA.t) :
  lenN (DFA.states dfa) < u32_modulus →
  ∃ d, minimize_cyclic dfa = Some d ∧ ∀ w, DFA.accepts d w = DFA.accepts dfa w.
Proof.
  intros Hn. destruct (minimize_cyclic_spec dfa Hn) as (d & Hd & Hlang & _). by exists d.
Qed.

(** C28: When every reachable state accepts some word, the result of
    [minimize_cyclic] has the fewest states among the automata for the language. *)
Theorem minimize_cyclic_smallest (dfa d d' : DFA.t) :
  lenN (DFA.states dfa) < u32_modulus → DFA.start_state dfa < lenN (DFA.states dfa) →
  (∀ s, DFA.reachable dfa s → ¬ DFA.dead dfa s) →
  minimize_cyclic dfa = Some d → (∀ w, DFA.accepts d' w = DFA.accepts dfa w) →
  (length (DFA.states d) ≤ length (DFA.states d'))%nat.
Proof.
  intros Hn Hs Hlive Hd Hd'. destruct (minimize_cyclic_spec dfa Hn) as (d1 & Hd1 & Hlang & Hred).
  assert (d1 = d) as -> by congruence. apply reduced_smallest; [by apply Hred|].
  intros w. by rewrite Hd', Hlang.
Qed.

(** A loop of two states, one of them twice. *)
Definition dfa_unrolled : DFA.t :=
  DFA.mk [DFAState.mk false {[ 1%Z := 1 ]}; DFAState.mk true {[ 1%Z := 2 ]};
          DFAState.mk false {[ 1%Z := 1 ]}] 0.

(** A transition into a rejecting state without transitions, and none. *)
Definition dfa_sink : DFA.t :=
  DFA.mk [DFAState.mk true {[ 1%Z := 1 ]}; DFAState.mk false ∅] 0.

Lemma minimize_cyclic_language_witness :
  ∃ d, minimize_cyclic dfa_unrolled = Some d ∧ lenN (DFA.states d) = 2 ∧
    ∀ w, DFA.accepts d w = DFA.accepts dfa_unrolled w.
Proof.
  destruct (minimize_cyclic_language dfa_unrolled) as (d & Hd & Hlang); [vm_compute; reflexivity|].
  exists d. split; [exact Hd|]. split; [|exact Hlang].
  assert (Hx : lenN ∘ DFA.states <$> minimize_cyclic dfa_unrolled = Some 2) by (vm_compute; reflexivity).
  rewrite Hd in Hx. simpl in Hx. congruence.
Defined.

Lemma dfa_unrolled_live s : DFA.reachable dfa_unrolled s → ¬ DFA.dead dfa_unrolled s.
Proof.
  intros (w & _ & Hs) Hd. assert (Hc : s = 0 ∨ s = 1 ∨ s = 2) by (unfold lenN in Hs; simpl in Hs; lia).
  destruct Hc as [->|[->| ->]].
  - specialize (Hd [1%Z]). vm_compute in Hd. discriminate.
  - specialize (Hd []). vm_compute in Hd. discriminate.
  - specialize (Hd [1%Z]). vm_compute in Hd. discriminate.
Qed.

Lemma minimize_cyclic_smallest_witness :
  ∃ d, minimize_cyclic dfa_unrolled = Some d ∧ length (DFA.states d) = 2%nat ∧
    (length (DFA.states d) ≤ length (DFA.states dfa_unrolled))%nat.
Proof.
  destruct (minimize_cyclic dfa_unrolled) as [d|] eqn:Hd; [|vm_compute in Hd; discriminate].
  exists d. split; [reflexivity|]. split; [vm_compute in Hd; injection Hd as <-; reflexivity|].
  apply (minimize_cyclic_smallest dfa_unrolled d dfa_unrolled); [vm_compute; reflexivity..| |exact Hd|reflexivity].
  exact dfa_unrolled_live.
Defined.

(** With a reachable rejecting sink the result is not the smallest: for
    [dfa_sink] it has two states where one is enough. *)
Theorem minimize_cyclic_keeps_sink :
  ∃ d, minimize_cyclic dfa_sink = Some d ∧ length (DFA.states d) = 2%nat ∧
    ∃ d', length (DFA.states d') = 1%nat ∧ ∀ w, DFA.accepts d' w = DFA.accepts dfa_sink w.
Proof.
  exists dfa_sink. split; [vm_compute; reflexivity|]. split; [reflexivity|].
  exists (DFA.mk [DFAState.mk true ∅] 0). split; [reflexivity|].
  intros [|l w]; [reflexivity|]. unfold DFA.accepts, DFA.accepts_from. simpl.
  unfold DFA.delta. simpl. rewrite lookup_empty. simpl.
  destruct (decide (l = 1%Z)) as [->|Hne]; [|by rewrite lookup_singleton_ne].
  rewrite lookup_singleton_eq. simpl. destruct w as [|l' w]; [done|]. simpl. unfold DFA.delta. simpl.
  by rewrite lookup_empty.
Qed.
