(* ===== verification/DefaultRows.v ===== *)
(** Minimal determinization with default rows
    (crates/glrmask-finite-automata/src/automata/unweighted_u32/determinize_minimal_defaults.rs)
    and the work budget it is charged to (crates/glrmask-invariant/src/lib.rs).

    Nodes are interned by their row, a union of nodes is memoized, and the
    states of the input are turned into nodes successors first. *)

From S2P Require Import Prelude Graph Dfa Nfa Explore.

(** * The work budget

    A template build may own a budget of work units.  Exceeding it unwinds. *)

Module TemplateBuildBudget.
Record t := mk { units : N; limit : N }.

Definition u64_modulus : N := 18446744073709551616.
Definition u64_saturating_add (x y : N) : N := N.min (x + y) (u64_modulus - 1).

Definition new (limit : N) : t := mk 0 limit.

(** [fetch_add] wraps around, the total compared does not.  The flag is set
    when the limit is exceeded. *)
Definition charge (b : t) (n : N) : t * bool :=
  (mk ((units b + n) mod u64_modulus) (limit b), limit b <? u64_saturating_add (units b) n).
End TemplateBuildBudget.

(** * Nodes *)

(** [binary_search_by_key] on labels in ascending order: the index found. *)
Fixpoint binary_search_label (l : list (Z * N)) (label : Z) : option nat :=
  match l with
  | [] => None
  | (candidate, _) :: l => if (candidate =? label)%Z then Some 0%nat else S <$> binary_search_label l label
  end.

Module Node.
Record t := mk {
  accepting : bool;
  (** The target of the nonnegative labels without an explicit edge. *)
  default : N;
  transitions : list (Z * N);
}.

#[global] Instance eq_dec : EqDecision t.
Proof. solve_decision. Defined.

Definition target (n : t) (label : Z) : N :=
  let fallback := if (0 <=? label)%Z then default n else 0 in
  match binary_search_label (transitions n) label with
  | Some index => match transitions n !! index with Some (_, target) => target | None => fallback end
  | None => fallback
  end.
End Node.

Module Builder.
Record t := mk {
  nodes : list Node.t;
  interned : gmap (bool * N * list (Z * N)) N;
  unions : gmap (list N) N;
  node_budget : N;
  depth_budget : N;
  accept : option N;
}.

Definition new (node_budget depth_budget : N) : t :=
  mk [Node.mk false 0 []] ∅ ∅ node_budget depth_budget None.
End Builder.

(** * Computations

    They thread the builder and the budget installed on the thread, and stop
    with a failure: [Declined] is the [None] that [?] propagates, [Exhausted]
    the unwinding of an exceeded budget, [Panicked] an index out of range. *)

Inductive failure := Declined | Exhausted | Panicked.

Record world := World { builder : Builder.t; handle : option TemplateBuildBudget.t }.

Definition M (A : Type) : Type := world → (failure + A) * world.

Definition ret {A} (x : A) : M A := λ w, (inr x, w).
Definition fail {A} (e : failure) : M A := λ w, (inl e, w).
Definition bind {A B} (m : M A) (f : A → M B) : M B := λ w,
  match m w with
  | (inl e, w) => (inl e, w)
  | (inr x, w) => f x w
  end.

Declare Scope build_scope.
Delimit Scope build_scope with build.
Notation "x <- m ;; k" := (bind m (λ x, k)) (at level 100, m at next level, right associativity) : build_scope.
Notation "m ;; k" := (bind m (λ _ : unit, k)) (at level 100, right associativity) : build_scope.
#[local] Open Scope build_scope.

Definition gets {A} (f : Builder.t → A) : M A := λ w, (inr (f (builder w)), w).
Definition modify (f : Builder.t → Builder.t) : M unit := λ w, (inr tt, World (f (builder w)) (handle w)).

(** [vec[i]] *)
Definition index {A} (l : list A) (i : N) : M A :=
  match l.[i] with Some x => ret x | None => fail Panicked end.

Fixpoint for_each {A B} (f : B → A → M B) (b : B) (l : list A) : M B :=
  match l with
  | [] => ret b
  | x :: l => b <- f b x ;; for_each f b l
  end.

Fixpoint collect {A B} (f : A → M B) (l : list A) : M (list B) :=
  match l with
  | [] => ret []
  | x :: l => y <- f x ;; ys <- collect f l ;; ret (y :: ys)
  end.

(** Charges without an installed budget are no-ops. *)
Definition charge_build_budget (n : N) : M unit := λ w,
  match handle w with
  | None => (inr tt, w)
  | Some b =>
      let '(b, exceeded) := TemplateBuildBudget.charge b n in
      ((if exceeded then inl Exhausted else inr tt), World (builder w) (Some b))
  end.

Definition get_node (id : N) : M Node.t :=
  nodes <- gets Builder.nodes ;; index nodes id.

(** * Interning rows *)

(** [dedup_by(|a, b| a.0 == b.0)]: the first of equal neighbours stays. *)
Fixpoint dedup_labels (l : list (Z * N)) : list (Z * N) :=
  match l with
  | x :: l' => x :: match dedup_labels l' with
                    | y :: l'' => if (x.1 =? y.1)%Z then l'' else y :: l''
                    | [] => []
                    end
  | [] => []
  end.

(** An edge that the default, or the missing default of a negative label,
    does not already give. *)
Definition needed (default : N) (label : Z) (target : N) : bool :=
  negb (target =? (if (0 <=? label)%Z then default else 0)).

Definition canonical_row (default : N) (transitions : list (Z * N)) : list (Z * N) :=
  filter (λ e, needed default e.1 e.2 = true) (dedup_labels (merge_sort (key_le Z.le) transitions)).

Definition push_node (accepting : bool) (default : N) (transitions : list (Z * N)) (b : Builder.t) : Builder.t :=
  Builder.mk (Builder.nodes b ++ [Node.mk accepting default transitions])
    (<[(accepting, default, transitions) := as_u32 (lenN (Builder.nodes b))]> (Builder.interned b))
    (Builder.unions b) (Builder.node_budget b) (Builder.depth_budget b) (Builder.accept b).

Definition intern (accepting : bool) (default : N) (transitions : list (Z * N)) : M N :=
  charge_build_budget (lenN transitions) ;;
  let transitions := canonical_row default transitions in
  if bool_decide (transitions = []) && negb accepting && (default =? 0) then ret 0
  else
    b <- gets id ;;
    match Builder.interned b !! (accepting, default, transitions) with
    | Some node => ret node
    | None =>
        if Builder.node_budget b <=? lenN (Builder.nodes b) then fail Declined
        else modify (push_node accepting default transitions) ;; ret (as_u32 (lenN (Builder.nodes b)))
    end.

Definition accept_node : M N :=
  known <- gets Builder.accept ;;
  match known with
  | Some node => ret node
  | None =>
      node <- intern true 0 [] ;;
      modify (λ b, Builder.mk (Builder.nodes b) (Builder.interned b) (Builder.unions b)
                     (Builder.node_budget b) (Builder.depth_budget b) (Some node)) ;;
      ret node
  end.

(** * Unions of nodes *)

Definition memoize (ids : list N) (node : N) (b : Builder.t) : Builder.t :=
  Builder.mk (Builder.nodes b) (Builder.interned b) (<[ids := node]> (Builder.unions b))
    (Builder.node_budget b) (Builder.depth_budget b) (Builder.accept b).

Definition live (l : list N) : list N := filter (λ id, id ≠ 0) l.

(** The [BTreeSet] of the labels of some rows, in order. *)
Definition row_labels (rows : list Node.t) : list Z :=
  merge_sort Z.le (elements (list_to_set (concat ((λ n, (Node.transitions n).*1) <$> rows)) : gset Z)).

(** One label of a union: the union of the targets, kept when it is needed. *)
Definition union_label (union : list N → M N) (ids : list N) (default : N)
    (transitions : list (Z * N)) (label : Z) : M (list (Z * N)) :=
  rows <- collect get_node ids ;;
  child <- union (live ((λ n, Node.target n label) <$> rows)) ;;
  ret (if needed default label child then transitions ++ [(label, child)] else transitions).

(** [remaining] is [depth_budget - depth]. *)
Fixpoint union (remaining : nat) (ids : list N) : M N :=
  charge_build_budget (lenN ids) ;;
  let ids := live (dedup (sort_N ids)) in
  match ids with
  | [] => ret 0
  | [id] => ret id
  | _ =>
      known <- gets (λ b, Builder.unions b !! ids) ;;
      match known with
      | Some node => ret node
      | None =>
          match remaining with
          | O => fail Declined
          | S remaining =>
              rows <- collect get_node ids ;;
              default <- union remaining (live (Node.default <$> rows)) ;;
              transitions <- for_each (union_label (union remaining) ids default) [] (row_labels rows) ;;
              node <- intern (existsb Node.accepting rows) default transitions ;;
              modify (memoize ids node) ;;
              ret node
          end
      end
  end.

Definition union_top (ids : list N) : M N :=
  depth_budget <- gets Builder.depth_budget ;; union (N.to_nat depth_budget) ids.

(** * The order of the states *)

(** One edge counted: [None] when its target is no state. *)
Definition count_edge (states source : N) (st : list N * list (list N)) (target : N)
    : option (list N * list (list N)) :=
  if states <=? target then None
  else Some (alterN (λ d, d + 1) st.1 source, alterN (λ l, l ++ [as_u32 source]) st.2 target).

Definition count_edges (nfa : NFA.t) : option (list N * list (list N)) :=
  let states := lenN (NFA.states nfa) in
  foldM (λ st '(source, state), foldM (count_edge states source) st (NFA.targets state))
    (replicate (length (NFA.states nfa)) 0, replicate (length (NFA.states nfa)) [])
    (enumerate (NFA.states nfa)).

Definition reverse_topological_order (nfa : NFA.t) : option (list N) :=
  '(successors, predecessors) ← count_edges nfa;
  match run (kahn_step predecessors (λ order state, order ++ [state]) N.pred)
          (S (length (NFA.states nfa))) (successors, as_u32 <$> kahn_queue successors, []) with
  | inl _ => None
  | inr order => if lenN order =? lenN (NFA.states nfa) then Some order else None
  end.

(** * States to nodes *)

(** The targets of the default label, and the other rows. *)
Definition split_row (default_label : Z) (rows : list (Z * list N)) : list N * list (Z * list N) :=
  (concat (filter (λ r, r.1 = default_label) rows).*2, filter (λ r, r.1 ≠ default_label) rows).

(** One explicit row: a nonnegative label also takes the default. *)
Definition explicit_row (default : N) (transitions : list (Z * N)) (row : Z * list N) : M (list (Z * N)) :=
  let '(label, children) := row in
  let children := if (0 <=? label)%Z && negb (default =? 0) then children ++ [default] else children in
  child <- union_top children ;;
  ret (if needed default label child then transitions ++ [(label, child)] else transitions).

Definition row_work (data : NFAState.t) : N :=
  foldr N.add 0 ((λ r, lenN r.2 + 1) <$> label_iter (NFAState.transitions data)).

(** [Vec::new()], then the nodes of the three parts of a state. *)
Definition state_parts (canonical : list N) (data : NFAState.t) (labels_node : N) : M (list N) :=
  accept <- (if NFAState.is_accepting data then node <- accept_node ;; ret [node] else ret []) ;;
  epsilons <- collect (index canonical) (NFAState.epsilons data) ;;
  ret (accept ++ epsilons ++ (if labels_node =? 0 then [] else [labels_node])).

Definition determinize_state (nfa : NFA.t) (default_label : Z) (canonical : list N) (state : N) : M (list N) :=
  data <- index (NFA.states nfa) state ;;
  charge_build_budget (TemplateBuildBudget.u64_saturating_add 1 (row_work data)) ;;
  rows <- collect (λ '(label, targets), children <- collect (index canonical) targets ;; ret (label, children))
            (filter (λ r, r.2 ≠ []) (label_iter (NFAState.transitions data))) ;;
  let '(default_targets, explicit) := split_row default_label rows in
  default <- union_top default_targets ;;
  transitions <- for_each (explicit_row default) [] explicit ;;
  labels_node <- intern false default transitions ;;
  parts <- state_parts canonical data labels_node ;;
  node <- union_top parts ;;
  ret (alterN (λ _, node) canonical state).

(** * The automaton of a node *)

Definition node_entry (_ : N) (node : N) : N := node.

(** The edges of a state: the default first, then the explicit ones. *)
Definition node_edges (default_label : Z) (data : Node.t) : list (Z * N) :=
  (if Node.default data =? 0 then [] else [(default_label, Node.default data)]) ++ Node.transitions data.

(** One round of the worklist. *)
Definition materialize_node (default_label : Z) (b : Explore.builder (K := N) (W := N)) (node : N)
    : M (Explore.builder (K := N) (W := N)) :=
  state <- match Explore.ids b !! node with Some state => ret state | None => fail Panicked end ;;
  data <- get_node node ;;
  charge_build_budget (TemplateBuildBudget.u64_saturating_add 1 (lenN (Node.transitions data))) ;;
  ret (foldl (connect node_entry state)
         (Explore.Builder (DFA.set_accepting (Explore.dfa b) state (Node.accepting data))
            (Explore.ids b) (Explore.worklist b))
         (node_edges default_label data)).

Definition materialize_step (default_label : Z) (st : Explore.builder (K := N) (W := N) * world)
    : (Explore.builder (K := N) (W := N) * world) + (failure + DFA.t) * world :=
  let '(b, w) := st in
  match Explore.worklist b with
  | [] => inr (inr (Explore.dfa b), w)
  | node :: rest =>
      match materialize_node default_label (Explore.Builder (Explore.dfa b) (Explore.ids b) rest) node w with
      | (inr b, w) => inl (b, w)
      | (inl e, w) => inr (inl e, w)
      end
  end.

Definition materialize (start : N) (default_label : Z) : M DFA.t := λ w,
  if start =? 0 then (inr DFA.new, w)
  else
    match run (materialize_step default_label) (S (length (Builder.nodes (builder w))))
            (Explore.Builder DFA.new {[start := 0]} [node_entry 0 start], w) with
    | inl (_, w) => (inl Panicked, w)
    | inr r => r
    end.

(** * The whole construction *)

Definition DEFAULT_NODE_BUDGET : N := 1000000.
Definition DEFAULT_DEPTH_BUDGET : N := 4096.

Definition build (nfa : NFA.t) (default_label : Z) (order : list N) : M DFA.t :=
  canonical <- for_each (determinize_state nfa default_label) (replicate (length (NFA.states nfa)) 0) order ;;
  starts <- collect (index canonical) (NFA.start_states nfa) ;;
  start <- union_top starts ;;
  materialize start default_label.

(** The result and the budget afterwards. *)
Definition try_determinize_minimal_defaults_with_budget (nfa : NFA.t) (default_label : Z)
    (node_budget depth_budget : N) (h : option TemplateBuildBudget.t)
    : (failure + DFA.t) * option TemplateBuildBudget.t :=
  if (lenN (NFA.states nfa) =? 0) || (lenN (NFA.start_states nfa) =? 0) then (inr DFA.new, h)
  else
    match reverse_topological_order nfa with
    | None => (inl Declined, h)
    | Some order =>
        let '(r, w) := build nfa default_label order (World (Builder.new node_budget depth_budget) h) in
        (r, handle w)
    end.

Definition try_determinize_minimal_defaults (nfa : NFA.t) (default_label : Z)
    (h : option TemplateBuildBudget.t) : (failure + DFA.t) * option TemplateBuildBudget.t :=
  try_determinize_minimal_defaults_with_budget nfa default_label DEFAULT_NODE_BUDGET DEFAULT_DEPTH_BUDGET h.

(** * The language of the input

    A concrete nonnegative letter takes the edges of the letter and those of
    the default label, a negative letter only its own. *)

Definition template_edge (nfa : NFA.t) (default_label : Z) (s : N) (label : Z) (t : N) : Prop :=
  t ∈ NFA.targets_of nfa s label ∨ ((0 <= label)%Z ∧ t ∈ NFA.targets_of nfa s default_label).

Inductive template_from (nfa : NFA.t) (default_label : Z) : N → list Z → Prop :=
| template_end s : NFA.is_accepting nfa s = true → template_from nfa default_label s []
| template_eps s t w : NFA.eps nfa s t → template_from nfa default_label t w → template_from nfa default_label s w
| template_label s l t w :
    template_edge nfa default_label s l t → template_from nfa default_label t w →
    template_from nfa default_label s (l :: w).

Definition template_accepts (nfa : NFA.t) (default_label : Z) (w : list Z) : Prop :=
  ∃ s, s ∈ NFA.start_states nfa ∧ template_from nfa default_label s w.

(** * Reading an automaton with default rows *)

(** Follow an explicit edge; a nonnegative label falls back to the default. *)
Definition default_step (default_label : Z) (d : DFA.t) (q : N) (label : Z) : option N :=
  match DFA.delta d q label with
  | Some q' => Some q'
  | None => if (0 <=? label)%Z then DFA.delta d q default_label else None
  end.

Fixpoint default_run (default_label : Z) (d : DFA.t) (q : N) (w : list Z) : option N :=
  match w with
  | [] => Some q
  | l :: w => q' ← default_step default_label d q l; default_run default_label d q' w
  end.

Definition default_accepts (default_label : Z) (d : DFA.t) (w : list Z) : bool :=
  match default_run default_label d (DFA.start_state d) w with
  | Some q => DFA.accepting d q
  | None => false
  end.
