(* ===== verification/DefaultNodes.v ===== *)
(** The languages of nodes, and why a node is determined by its language:
    rows are distinct, an edge that the default gives is not stored, and every
    stored nonnegative edge accepts at least what the default accepts. *)

From S2P Require Import Prelude Graph Dfa Nfa Explore DefaultRows.

(** * Rows *)

Lemma binary_search_label_Some (l : list (Z * N)) x t :
  NoDup l.*1 → (x, t) ∈ l → ∃ i, binary_search_label l x = Some i ∧ l !! i = Some (x, t).
Proof.
  induction l as [|[y u] l IH]; intros Hnd Hin; [by apply elem_of_nil in Hin|].
  simpl in *. apply NoDup_cons in Hnd as [Hni Hnd]. apply elem_of_cons in Hin as [[= -> ->]|Hin].
  - rewrite Z.eqb_refl. by exists 0%nat.
  - destruct (Z.eqb_spec y x) as [->|Hne].
    + exfalso. apply Hni. by apply (list_elem_of_fmap_2 fst) in Hin.
    + destruct (IH Hnd Hin) as (i & -> & Hi). by exists (S i).
Qed.

Lemma binary_search_label_None (l : list (Z * N)) x : x ∉ l.*1 → binary_search_label l x = None.
Proof.
  induction l as [|[y u] l IH]; intros Hni; [done|]. simpl in *.
  destruct (Z.eqb_spec y x) as [->|Hne]; [by destruct Hni; left|].
  rewrite IH; [done|]. intros Hin. apply Hni. by right.
Qed.

(** The target that the default gives. *)
Definition fallback (default : N) (label : Z) : N := if (0 <=? label)%Z then default else 0.

Lemma target_explicit acc default ts l t :
  NoDup ts.*1 → (l, t) ∈ ts → Node.target (Node.mk acc default ts) l = t.
Proof. intros Hnd Hin. unfold Node.target. simpl.
  by destruct (binary_search_label_Some ts l t Hnd Hin) as (i & -> & ->).
Qed.

Lemma target_fallback acc default ts l :
  l ∉ ts.*1 → Node.target (Node.mk acc default ts) l = fallback default l.
Proof. intros Hni. unfold Node.target. simpl. by rewrite binary_search_label_None. Qed.

Lemma target_cases acc default ts l :
  NoDup ts.*1 →
  (l, Node.target (Node.mk acc default ts) l) ∈ ts ∨
  (l ∉ ts.*1 ∧ Node.target (Node.mk acc default ts) l = fallback default l).
Proof.
  intros Hnd. destruct (decide (l ∈ ts.*1)) as [Hin|Hni]; [left|right; auto using target_fallback].
  apply list_elem_of_fmap in Hin as ([x t] & -> & Hin). simpl. by rewrite (target_explicit _ _ _ _ t).
Qed.

Lemma needed_spec default l t : needed default l t = true ↔ t ≠ fallback default l.
Proof. unfold needed, fallback. rewrite negb_true_iff, N.eqb_neq. done. Qed.

Lemma dedup_labels_NoDup (l : list (Z * N)) : NoDup l.*1 → dedup_labels l = l.
Proof.
  induction l as [|x l IH]; intros Hnd; [done|]. cbn [dedup_labels]. simpl in Hnd.
  apply NoDup_cons in Hnd as [Hni Hnd]. rewrite IH by done. destruct l as [|y l]; [done|].
  destruct (Z.eqb_spec x.1 y.1) as [Heq|]; [|done]. destruct Hni. rewrite Heq. simpl. by left.
Qed.

Section row.
Context (default : N) (ts : list (Z * N)) (Hnd : NoDup ts.*1).

Lemma sorted_row_NoDup : NoDup (merge_sort (key_le Z.le) ts).*1.
Proof using All. by rewrite (merge_sort_Permutation _ ts). Qed.

Lemma elem_of_canonical_row l t : (l, t) ∈ canonical_row default ts ↔ (l, t) ∈ ts ∧ t ≠ fallback default l.
Proof using All.
  unfold canonical_row. rewrite dedup_labels_NoDup by apply sorted_row_NoDup.
  rewrite list_elem_of_filter, merge_sort_Permutation. simpl. rewrite needed_spec. tauto.
Qed.

Lemma canonical_row_sorted : label_sorted (canonical_row default ts).
Proof using All.
  unfold canonical_row. rewrite dedup_labels_NoDup by apply sorted_row_NoDup.
  apply StronglySorted_filter. pose proof sorted_row_NoDup as Hn.
  assert (Hs : StronglySorted (key_le Z.le) (merge_sort (key_le Z.le) ts)).
  { apply StronglySorted_merge_sort; unfold key_le; [intros x y z ? ?; lia|intros x y; lia]. }
  unfold label_sorted. induction Hs as [|x l Hs IH Hx]; [constructor|].
  simpl in Hn. apply NoDup_cons in Hn as [Hni Hn]. constructor; [by apply IH|].
  apply Forall_forall. intros y Hy. rewrite Forall_forall in Hx. specialize (Hx y Hy). unfold key_le in Hx.
  assert (x.1 ≠ y.1) by (intros Heq; apply Hni; rewrite Heq; by apply list_elem_of_fmap_2). lia.
Qed.

Lemma canonical_row_NoDup : NoDup (canonical_row default ts).*1.
Proof using All. apply label_sorted_NoDup, canonical_row_sorted. Qed.

Lemma canonical_row_target acc acc' l :
  Node.target (Node.mk acc default (canonical_row default ts)) l = Node.target (Node.mk acc' default ts) l.
Proof using All.
  destruct (target_cases acc' default ts l Hnd) as [Hin|[Hni ->]].
  - set (t := Node.target (Node.mk acc' default ts) l) in *.
    destruct (decide (t = fallback default l)) as [Heq|Hne].
    + rewrite Heq. apply target_fallback. intros ([x u] & Hx & Hu)%list_elem_of_fmap. simpl in Hx. subst x.
      apply elem_of_canonical_row in Hu as [Hu Hne]. apply Hne.
      rewrite <-(target_explicit acc' default ts l u Hnd Hu). done.
    + apply target_explicit; [apply canonical_row_NoDup|]. by apply elem_of_canonical_row.
  - apply target_fallback. intros ([x u] & Hx & Hu)%list_elem_of_fmap. simpl in Hx. subst x.
    apply elem_of_canonical_row in Hu as [Hu _]. apply Hni. by apply (list_elem_of_fmap_2 fst) in Hu.
Qed.
End row.

(** * Languages *)

Section nodes.
(** The letters that words are made of, and those that rows may name; some
    nonnegative letter is in no row. *)
Context (letter used : Z → Prop) (fresh : Z).
Context (Hused : ∀ l, used l → letter l).
Context (Hfresh : letter fresh ∧ (0 <= fresh)%Z ∧ ¬ used fresh).

Definition target_at (ns : list Node.t) (id : N) (l : Z) : N :=
  match ns.[id] with Some n => Node.target n l | None => 0 end.

Fixpoint node_accepts (ns : list Node.t) (id : N) (w : list Z) : bool :=
  match w with
  | [] => match ns.[id] with Some n => Node.accepting n | None => false end
  | l :: w => node_accepts ns (target_at ns id l) w
  end.

Definition word (w : list Z) : Prop := Forall letter w.

Definition same_node (ns : list Node.t) (i j : N) : Prop :=
  ∀ w, word w → node_accepts ns i w = node_accepts ns j w.

(** A row whose targets are earlier nodes. *)
Record row_fits (ns : list Node.t) (bound : N) (default : N) (ts : list (Z * N)) : Prop := {
  rf_default : default < bound;
  rf_targets : ∀ l t, (l, t) ∈ ts → t < bound;
  rf_used : ∀ l t, (l, t) ∈ ts → used l;
  rf_nodup : NoDup ts.*1;
  rf_mono : ∀ l t w, (l, t) ∈ ts → (0 <= l)%Z → word w →
    node_accepts ns default w = true → node_accepts ns t w = true;
}.

Record node_ok (ns : list Node.t) (id : N) (n : Node.t) : Prop := {
  no_fits : row_fits ns id (Node.default n) (Node.transitions n);
  no_sorted : label_sorted (Node.transitions n);
  no_needed : ∀ l t, (l, t) ∈ Node.transitions n → t ≠ fallback (Node.default n) l;
  no_row : n ≠ Node.mk false 0 [];
}.

Record nodes_ok (ns : list Node.t) : Prop := {
  ns_dead : ns.[0] = Some (Node.mk false 0 []);
  ns_rows : ∀ id n, 0 < id → ns.[id] = Some n → node_ok ns id n;
  ns_distinct : ∀ i j n, ns.[i] = Some n → ns.[j] = Some n → i = j;
}.

Lemma node_eta n : Node.mk (Node.accepting n) (Node.default n) (Node.transitions n) = n.
Proof using. by destruct n. Qed.

Lemma fits_target ns bound acc default ts l :
  row_fits ns bound default ts → 0 < bound → Node.target (Node.mk acc default ts) l < bound.
Proof using.
  intros Hf Hb. destruct (target_cases acc default ts l (rf_nodup _ _ _ _ Hf)) as [Hin|[_ ->]].
  - by eapply rf_targets.
  - unfold fallback. case_match; [by apply (rf_default _ _ _ _ Hf)|done].
Qed.

Lemma node_target_lt ns id l :
  nodes_ok ns → 0 < id → target_at ns id l < id.
Proof using.
  intros Hns Hid. unfold target_at. destruct (ns.[id]) as [n|] eqn:E; [|done].
  rewrite <-(node_eta n). eapply fits_target; [apply (no_fits _ _ _ (ns_rows _ Hns id n Hid E))|done].
Qed.

Lemma target_dead ns l : nodes_ok ns → target_at ns 0 l = 0.
Proof using.
  intros Hns. unfold target_at. rewrite (ns_dead _ Hns). unfold Node.target. simpl. by case_match.
Qed.

Lemma dead_node ns w : nodes_ok ns → node_accepts ns 0 w = false.
Proof using.
  intros Hns. induction w as [|l w IH]; simpl; [by rewrite (ns_dead _ Hns)|].
  by rewrite target_dead.
Qed.

Lemma target_le ns id l : nodes_ok ns → target_at ns id l ≤ id.
Proof using.
  intros Hns. destruct (decide (id = 0)) as [->|]; [rewrite target_dead by done; lia|].
  pose proof (node_target_lt ns id l Hns). lia.
Qed.

Lemma same_target ns i j l : same_node ns i j → letter l → same_node ns (target_at ns i l) (target_at ns j l).
Proof using. intros Hs Hl w Hw. apply (Hs (l :: w)). by constructor. Qed.

(** The default of a row is where it goes on the fresh letter. *)
Lemma target_fresh ns id n :
  nodes_ok ns → ns.[id] = Some n → target_at ns id fresh = Node.default n.
Proof using Hfresh.
  intros Hns E. destruct Hfresh as (_ & Hpos & Hnu). unfold target_at. rewrite E, <-(node_eta n).
  destruct (decide (id = 0)) as [->|Hne].
  - rewrite (ns_dead _ Hns) in E. injection E as <-. unfold Node.target. simpl. by case_match.
  - rewrite target_fallback.
    + unfold fallback. simpl. by rewrite (proj2 (Z.leb_le 0 fresh)).
    + intros ([x t] & Hx & Hin)%list_elem_of_fmap. simpl in *. subst x. apply Hnu.
      eapply rf_used; [|exact Hin]. apply (no_fits ns id). apply (ns_rows _ Hns); [lia|done].
Qed.

(** A row with the same default and the same targets has the same edges. *)
Lemma same_edges_incl default (ts us : list (Z * N)) acc acc' :
  NoDup ts.*1 → NoDup us.*1 → (∀ l t, (l, t) ∈ ts → t ≠ fallback default l) →
  (∀ l, l ∈ ts.*1 → Node.target (Node.mk acc default ts) l = Node.target (Node.mk acc' default us) l) →
  ∀ l t, (l, t) ∈ ts → (l, t) ∈ us.
Proof using.
  intros Ht Hu Hneed Heq l t Hin.
  assert (Hl : l ∈ ts.*1) by (by apply (list_elem_of_fmap_2 fst) in Hin).
  specialize (Heq l Hl). rewrite (target_explicit _ _ _ _ t Ht Hin) in Heq. subst t.
  destruct (target_cases acc' default us l Hu) as [|[_ Hf]]; [done|]. by destruct (Hneed l _ Hin).
Qed.

Lemma node_ok_dead_row ns id n :
  node_ok ns id n → Node.accepting n = false → Node.default n = 0 →
  (∀ l t, (l, t) ∈ Node.transitions n → t = 0) → False.
Proof using.
  intros Hn Hacc Hdef Hall. apply (no_row _ _ _ Hn). rewrite <-(node_eta n), Hacc, Hdef. f_equal.
  destruct (Node.transitions n) as [|[l t] ts] eqn:E; [done|]. exfalso.
  assert (Hin : (l, t) ∈ Node.transitions n) by (rewrite E; left).
  apply (no_needed _ _ _ Hn l t Hin). rewrite <-E in Hall. rewrite (Hall l t Hin), Hdef. unfold fallback. by case_match.
Qed.

(** What a letter of a row leads to agrees with the row. *)
Lemma target_row ns id n l t :
  nodes_ok ns → 0 < id → ns.[id] = Some n → (l, t) ∈ Node.transitions n → target_at ns id l = t.
Proof using.
  intros Hns Hid E Hin. unfold target_at. rewrite E, <-(node_eta n). apply target_explicit; [|done].
  apply (rf_nodup ns id (Node.default n)). by apply (no_fits ns id), (ns_rows _ Hns).
Qed.

(** Nodes with the same language are the same node. *)
Theorem nodes_canonical ns i j :
  nodes_ok ns → i < lenN ns → j < lenN ns → same_node ns i j → i = j.
Proof using Hused Hfresh.
  intros Hns. cut (∀ (k : nat) i j, (N.to_nat i < k)%nat → (N.to_nat j < k)%nat →
    i < lenN ns → j < lenN ns → same_node ns i j → i = j).
  { intros Hc. apply (Hc (S (N.to_nat (N.max i j)))); lia. }
  clear i j. induction k as [|k IH]; intros i j Hi Hj Hil Hjl Hs; [lia|].
  destruct (proj1 (nthN_Some_lt ns i) Hil) as [n Ei]. destruct (proj1 (nthN_Some_lt ns j) Hjl) as [m Ej].
  assert (Hsub : ∀ l, letter l → 0 < i ∨ 0 < j → 0 < i → 0 < j → target_at ns i l = target_at ns j l).
  { intros l Hl _ Hi0 Hj0. pose proof (node_target_lt ns i l Hns Hi0). pose proof (node_target_lt ns j l Hns Hj0).
    apply IH; [lia..|]. by apply same_target. }
  assert (Hzero : ∀ x n, (N.to_nat x < S k)%nat → ns.[x] = Some n → x < lenN ns → same_node ns 0 x → x = 0).
  { clear -IH Hns Hused Hfresh. intros x n Hx E Hxl Hs. destruct (decide (x = 0)) as [|Hne]; [done|exfalso].
    assert (Hx0 : 0 < x) by lia. pose proof (ns_rows _ Hns x n Hx0 E) as Hn.
    assert (Hz : ∀ l, letter l → target_at ns x l = 0).
    { intros l Hl. pose proof (node_target_lt ns x l Hns Hx0). symmetry. apply IH; [lia..|].
      pose proof (same_target ns 0 x l Hs Hl) as Ht. by rewrite target_dead in Ht. }
    apply (node_ok_dead_row ns x n Hn).
    - specialize (Hs [] ltac:(constructor)). rewrite dead_node in Hs by done. simpl in Hs. by rewrite E in Hs.
    - rewrite <-(target_fresh ns x n Hns E). apply Hz, Hfresh.
    - intros l t Hin. rewrite <-(target_row ns x n l t Hns Hx0 E Hin). apply Hz, Hused.
      by eapply rf_used; [apply (no_fits _ _ _ Hn)|]. }
  destruct (decide (i = 0)) as [->|Hi0]; [symmetry; by apply (Hzero j m)|].
  destruct (decide (j = 0)) as [->|Hj0]; [apply (Hzero i n); try done; intros w Hw; symmetry; by apply Hs|].
  assert (Hn : node_ok ns i n) by (apply (ns_rows _ Hns); [lia|done]).
  assert (Hm : node_ok ns j m) by (apply (ns_rows _ Hns); [lia|done]).
  assert (Htgt : ∀ l, letter l → Node.target n l = Node.target m l).
  { intros l Hl. specialize (Hsub l Hl ltac:(lia) ltac:(lia) ltac:(lia)). unfold target_at in Hsub.
    by rewrite Ei, Ej in Hsub. }
  assert (Hdef : Node.default n = Node.default m).
  { rewrite <-(target_fresh ns i n Hns Ei), <-(target_fresh ns j m Hns Ej). apply Hsub; [apply Hfresh|lia..]. }
  assert (Hacc : Node.accepting n = Node.accepting m).
  { specialize (Hs [] ltac:(constructor)). simpl in Hs. by rewrite Ei, Ej in Hs. }
  apply (ns_distinct _ Hns i j n); [done|]. rewrite Ej. f_equal.
  rewrite <-(node_eta n), <-(node_eta m), Hdef, Hacc. f_equal. symmetry.
  apply label_sorted_ext; [apply (no_sorted _ _ _ Hn)|apply (no_sorted _ _ _ Hm)|].
  assert (Hincl : ∀ (a b : Node.t) x y, node_ok ns x a → node_ok ns y b → Node.default a = Node.default b →
    (∀ l, letter l → Node.target a l = Node.target b l) →
    ∀ l t, (l, t) ∈ Node.transitions a → (l, t) ∈ Node.transitions b).
  { clear -Hused. intros a b x y Ha Hb Hd Ht.
    apply (same_edges_incl (Node.default a) _ _ (Node.accepting a) (Node.accepting b)).
    - apply (rf_nodup _ _ _ _ (no_fits _ _ _ Ha)).
    - apply (rf_nodup _ _ _ _ (no_fits _ _ _ Hb)).
    - apply (no_needed _ _ _ Ha).
    - intros l ([l' t] & -> & Hin)%list_elem_of_fmap. rewrite Hd at 2. rewrite !node_eta. apply Ht, Hused.
      by eapply rf_used; [apply (no_fits _ _ _ Ha)|]. }
  intros [l t]. split; [by eapply Hincl|]. eapply Hincl; [done|done|done|]. intros l' Hl'. symmetry. by apply Htgt.
Qed.

(** Every node but the first accepts some word. *)
Lemma node_live ns id : nodes_ok ns → id < lenN ns → (∀ w, word w → node_accepts ns id w = false) → id = 0.
Proof using Hused Hfresh.
  intros Hns Hid Hd. symmetry. apply (nodes_canonical ns); [done|by apply nthN_lt with (1 := ns_dead _ Hns)|done|].
  intros w Hw. rewrite dead_node by done. symmetry. by apply Hd.
Qed.

(** * Adding nodes *)

(** Languages only depend on the earlier nodes. *)
Lemma node_accepts_app ns suf id w :
  nodes_ok ns → id < lenN ns → node_accepts (ns ++ suf) id w = node_accepts ns id w.
Proof using.
  intros Hns. revert id. induction w as [|l w IH]; intros id Hid; simpl.
  - by rewrite nthN_app_l.
  - unfold target_at at 1. rewrite nthN_app_l by done. fold (target_at ns id l). apply IH.
    pose proof (target_le ns id l Hns). lia.
Qed.

Lemma row_fits_app ns suf bound default ts :
  nodes_ok ns → bound ≤ lenN ns → row_fits ns bound default ts → row_fits (ns ++ suf) bound default ts.
Proof using.
  intros Hns Hb [Hd Ht Hu Hnd Hm]. split; try done. intros l t w Hin Hl Hw.
  rewrite !node_accepts_app; [by apply (Hm l)|done|pose proof (Ht l t Hin); lia|done|lia].
Qed.

Lemma row_fits_le ns bound bound' default ts :
  bound ≤ bound' → row_fits ns bound default ts → row_fits ns bound' default ts.
Proof using. intros Hb [Hd Ht Hu Hnd Hm]. split; try done; [lia|]. intros l t Hin. specialize (Ht l t Hin). lia. Qed.

(** A new row in canonical form. *)
Lemma nodes_ok_snoc ns acc default ts :
  nodes_ok ns → row_fits ns (lenN ns) default ts →
  let n := Node.mk acc default (canonical_row default ts) in
  n ≠ Node.mk false 0 [] → n ∉ ns → nodes_ok (ns ++ [n]).
Proof using.
  intros Hns Hf n Hne Hni.
  assert (Hlen : 0 < lenN ns) by (by apply nthN_lt with (1 := ns_dead _ Hns)).
  assert (Hnew : node_ok (ns ++ [n]) (lenN ns) n).
  { pose proof (rf_nodup _ _ _ _ Hf) as Hnd. split; [|by apply canonical_row_sorted| |done].
    - apply row_fits_app; [done|lia|]. destruct Hf as [Hd Ht Hu _ Hm]. split; simpl; [done| | | |].
      + intros l t [Hin _]%elem_of_canonical_row; [|done]. by eapply Ht.
      + intros l t [Hin _]%elem_of_canonical_row; [|done]. by eapply Hu.
      + by apply canonical_row_NoDup.
      + intros l t w [Hin _]%elem_of_canonical_row; [|done]. by apply Hm.
    - simpl. intros l t [_ ?]%elem_of_canonical_row; done. }
  split.
  - rewrite nthN_app_l by done. apply (ns_dead _ Hns).
  - intros id m Hid. rewrite nthN_snoc. destruct (N.eqb_spec id (lenN ns)) as [->|Hne'].
    + by intros [= <-].
    + intros E. pose proof (nthN_lt _ _ _ E). destruct (ns_rows _ Hns id m Hid E) as [Hf' Hs Hn Hr].
      split; try done. apply row_fits_app; [done|lia|done].
  - intros i j m. rewrite !nthN_snoc.
    destruct (N.eqb_spec i (lenN ns)) as [->|], (N.eqb_spec j (lenN ns)) as [->|]; [done| | |].
    + intros [= <-] Hj. destruct Hni. apply nthN_elem_of. eauto.
    + intros Hi [= <-]. destruct Hni. apply nthN_elem_of. eauto.
    + by apply (ns_distinct _ Hns).
Qed.

(** The language of a row over some nodes. *)
Definition row_accepts (ns : list Node.t) (acc : bool) (default : N) (ts : list (Z * N)) (w : list Z) : bool :=
  match w with
  | [] => acc
  | l :: w => node_accepts ns (Node.target (Node.mk acc default ts) l) w
  end.

Lemma row_accepts_node ns id acc default ts w :
  ns.[id] = Some (Node.mk acc default (canonical_row default ts)) → NoDup ts.*1 →
  node_accepts ns id w = row_accepts ns acc default ts w.
Proof using.
  intros E Hnd. destruct w as [|l w]; simpl; [by rewrite E|]. unfold target_at. rewrite E.
  by rewrite (canonical_row_target default ts Hnd acc acc).
Qed.
End nodes.
