(* ===== verification/DefaultBuilder.v ===== *)
(** Interning a row gives a node with the language of the row, a union of
    nodes one with the union of their languages; how many nodes there can be,
    and how deep unions nest. *)

From S2P Require Import Prelude Graph Dfa Nfa Explore DefaultRows DefaultNodes.

(** * Outcomes of a computation

    [wp m w Q]: from [w], [m] gives a value and a state that satisfy [Q], or
    fails in an [allowed] way. *)

Section wp.
Context (allowed : failure → Prop).

Definition wp {A} (m : M A) (w : world) (Q : A → world → Prop) : Prop :=
  match m w with
  | (inr x, w') => Q x w'
  | (inl e, _) => allowed e
  end.

Lemma wp_mono {A} (m : M A) w (Q Q' : A → world → Prop) :
  (∀ x w', Q x w' → Q' x w') → wp m w Q → wp m w Q'.
Proof. unfold wp. intros HQ. destruct (m w) as [[e|x] w']; auto. Qed.

Lemma wp_bind {A B} (m : M A) (f : A → M B) w Q :
  wp m w (λ x w', wp (f x) w' Q) → wp (bind m f) w Q.
Proof. unfold wp, bind. by destruct (m w) as [[e|x] w']. Qed.

Lemma wp_ret {A} (x : A) w (Q : A → world → Prop) : Q x w → wp (ret x) w Q.
Proof. done. Qed.

Lemma wp_gets {A} (f : Builder.t → A) w (Q : A → world → Prop) : Q (f (builder w)) w → wp (gets f) w Q.
Proof. done. Qed.

Lemma wp_modify f w (Q : unit → world → Prop) : Q tt (World (f (builder w)) (handle w)) → wp (modify f) w Q.
Proof. done. Qed.

Lemma wp_index {A} (l : list A) i x w (Q : A → world → Prop) : l.[i] = Some x → Q x w → wp (index l i) w Q.
Proof. unfold wp, index. by intros ->. Qed.

(** The elements gone through so far are those before the rest. *)
Lemma wp_for_each {A B} (I : list A → B → world → Prop) (f : B → A → M B) b l w :
  (∀ pre x b w, (∃ suf, l = pre ++ x :: suf) → I pre b w → wp (f b x) w (I (pre ++ [x]))) →
  I [] b w → wp (for_each f b l) w (I l).
Proof.
  intros Hf. cut (∀ pre suf b w, l = pre ++ suf → I pre b w → wp (for_each f b suf) w (I l)).
  { intros Hc. by apply (Hc []). }
  intros pre suf. revert pre. induction suf as [|x suf IH]; intros pre b' w' Hl HI; cbn [for_each].
  - rewrite app_nil_r in Hl. by subst.
  - apply wp_bind. eapply wp_mono; [|eapply Hf; eauto].
    intros b'' w'' HI'. apply (IH (pre ++ [x])); [by rewrite <-app_assoc|done].
Qed.

(** Collecting what a computation without effects gives. *)
Lemma collect_eq {A B} (g : A → M B) (f : A → B) l w :
  (∀ x, x ∈ l → g x w = (inr (f x), w)) → collect g l w = (inr (f <$> l), w).
Proof.
  intros Hg. induction l as [|x l IH]; [done|]. cbn [collect]. unfold bind. rewrite Hg by left.
  rewrite IH; [done|]. intros y Hy. apply Hg. by right.
Qed.

Lemma wp_eq {A} (m : M A) x w (Q : A → world → Prop) : m w = (inr x, w) → Q x w → wp m w Q.
Proof. unfold wp. by intros ->. Qed.

Lemma wp_collect {A B} (g : A → M B) (f : A → B) l w (Q : list B → world → Prop) :
  (∀ x, x ∈ l → g x w = (inr (f x), w)) → Q (f <$> l) w → wp (collect g l) w Q.
Proof. intros Hg. by apply wp_eq, collect_eq. Qed.
End wp.

(** * Sets of a family of languages *)

Section builder.
Context (letter used : Z → Prop) (fresh : Z).
Context (Hused : ∀ l, used l → letter l).
Context (Hfresh : letter fresh ∧ (0 <= fresh)%Z ∧ ¬ used fresh).

Abbreviation word := (word letter).
Abbreviation nodes_ok := (nodes_ok letter used).
Abbreviation row_fits := (row_fits letter used).

(** The languages that all nodes are unions of. *)
Context (atom : N → list Z → Prop) (atoms : nat).

Definition spanned (L : list Z → Prop) : Prop :=
  ∃ S, S ∈ sublists (seqN atoms) ∧ ∀ w, word w → L w ↔ ∃ i, i ∈ S ∧ atom i w.

(** A letter leads from an atom to a union of atoms; the empty word is one. *)
Context (Hderiv : ∀ i l, i < N.of_nat atoms → letter l → spanned (λ w, atom i (l :: w))).
Context (Hnil : spanned (λ w, w = [])).

Lemma spanned_ext (L L' : list Z → Prop) : (∀ w, word w → L w ↔ L' w) → spanned L → spanned L'.
Proof using. intros Heq (S & HS & H). exists S. split; [done|]. intros w Hw. by rewrite <-Heq, H. Qed.

Lemma existsb_elem {A} (f : A → bool) (l : list A) : existsb f l = true ↔ ∃ x, x ∈ l ∧ f x = true.
Proof using. rewrite existsb_exists. by setoid_rewrite list_elem_of_In. Qed.

Lemma sublist_elem {A} (S l : list A) x : S ∈ sublists l → x ∈ S → x ∈ l.
Proof using.
  revert S. induction l as [|y l IH]; intros S; simpl.
  - intros ->%list_elem_of_singleton. done.
  - intros [(S' & -> & HS)%list_elem_of_fmap|HS]%elem_of_app; [|intros; right; by eapply IH].
    intros [->|Hx]%elem_of_cons; [by left|right; by eapply IH].
Qed.

(** A union of spanned languages. *)
Lemma spanned_union {A} (f : A → list Z → Prop) (l : list A) :
  (∀ x, x ∈ l → spanned (f x)) → spanned (λ w, ∃ x, x ∈ l ∧ f x w).
Proof using.
  intros Hl. assert (∃ Ss, Forall2 (λ x S, S ∈ sublists (seqN atoms) ∧
    ∀ w, word w → f x w ↔ ∃ i, i ∈ S ∧ atom i w) l Ss) as [Ss HSs].
  { clear -Hl. induction l as [|x l IH]; [by exists []|]. destruct IH as [Ss HSs]; [intros; apply Hl; by right|].
    destruct (Hl x) as [S HS]; [by left|]. exists (S :: Ss). by constructor. }
  exists (filter (λ i, i ∈ concat Ss) (seqN atoms)). split; [apply filter_sublists|]. intros w Hw. split.
  - intros (x & Hx & Hfx). apply list_elem_of_lookup in Hx as [k Hk].
    destruct (Forall2_lookup_l _ _ _ _ _ HSs Hk) as (S & HS & Hsub & Heq).
    destruct (proj1 (Heq w Hw) Hfx) as (i & Hi & Hai). exists i. split; [|done]. apply list_elem_of_filter.
    split; [|by eapply sublist_elem]. apply list_elem_of_In, in_concat. exists S. rewrite <-!list_elem_of_In.
    split; [by eapply list_elem_of_lookup_2|done].
  - intros (i & Hin & Hai). apply list_elem_of_filter in Hin as [Hin _].
    apply list_elem_of_In, in_concat in Hin as (S & HS & Hi).
    rewrite <-list_elem_of_In in HS. rewrite <-list_elem_of_In in Hi. apply list_elem_of_lookup in HS as [k Hk].
    destruct (Forall2_lookup_r _ _ _ _ _ HSs Hk) as (x & Hx & _ & Heq). exists x.
    split; [by eapply list_elem_of_lookup_2|]. apply Heq; eauto.
Qed.

Lemma spanned_deriv (L : list Z → Prop) l : spanned L → letter l → spanned (λ w, L (l :: w)).
Proof using All.
  intros (S & HS & Heq) Hl. eapply (spanned_ext (λ w, ∃ i, i ∈ S ∧ atom i (l :: w))).
  - intros w Hw. symmetry. apply Heq. by constructor.
  - apply (spanned_union (λ i w, atom i (l :: w))). intros i Hi. apply Hderiv; [|done].
    apply elem_of_seqN. by eapply sublist_elem.
Qed.

Abbreviation accepted ns id := (λ v, node_accepts ns id v = true).

(** Different languages, so at most as many nodes as unions of atoms. *)
Lemma spanned_count ns :
  nodes_ok ns → (∀ id, id < lenN ns → spanned (accepted ns id)) → (length ns ≤ 2 ^ atoms)%nat.
Proof using All.
  intros Hns Hsp.
  assert (∃ Ss, Forall2 (λ id S, S ∈ sublists (seqN atoms) ∧
    ∀ w, word w → node_accepts ns id w = true ↔ ∃ i, i ∈ S ∧ atom i w) (seqN (length ns)) Ss) as [Ss HSs].
  { assert (Hall : ∀ id, id ∈ seqN (length ns) → spanned (accepted ns id)).
    { intros id Hid%elem_of_seqN. by apply Hsp. }
    clear -Hall. induction (seqN (length ns)) as [|x l IH]; [by exists []|].
    destruct IH as [Ss HSs]; [intros; apply Hall; by right|].
    destruct (Hall x) as [S HS]; [by left|]. exists (S :: Ss). by constructor. }
  rewrite <-(length_seqN (length ns)), (Forall2_length _ _ _ HSs).
  rewrite <-(length_seqN atoms) at 1. rewrite <-length_sublists. apply submseteq_length, NoDup_submseteq.
  - apply NoDup_alt. intros i j S Hi Hj.
    destruct (Forall2_lookup_r _ _ _ _ _ HSs Hi) as (x & Hx & _ & Ex).
    destruct (Forall2_lookup_r _ _ _ _ _ HSs Hj) as (y & Hy & _ & Ey).
    assert (x = y) as <-.
    { apply (nodes_canonical letter used fresh Hused Hfresh ns); [done| | |].
      - apply (elem_of_seqN (length ns)). by eapply list_elem_of_lookup_2.
      - apply (elem_of_seqN (length ns)). by eapply list_elem_of_lookup_2.
      - intros w Hw. apply eq_iff_eq_true. by rewrite Ex, Ey. }
    by eapply (NoDup_lookup _ i j); [apply (NoDup_seqN (length ns))|..].
  - intros S HS. apply list_elem_of_lookup in HS as [i Hi].
    by destruct (Forall2_lookup_r _ _ _ _ _ HSs Hi) as (x & _ & ? & _).
Qed.

(** * The builder *)

Context (node_budget depth_budget : N) (budgeted enough : Prop).
Context (Hwidth : node_budget < u32_modulus).
Context (Henough : enough → N.of_nat (2 ^ atoms) ≤ node_budget).

(** The failures that can happen. *)
Definition allowed (e : failure) : Prop :=
  match e with
  | Declined => ¬ enough
  | Exhausted => budgeted
  | Panicked => False
  end.

Abbreviation wp := (wp allowed).

Record builder_ok (b : Builder.t) : Prop := {
  bo_nodes : nodes_ok (Builder.nodes b);
  bo_node_budget : Builder.node_budget b = node_budget;
  bo_depth_budget : Builder.depth_budget b = depth_budget;
  bo_interned : ∀ acc default ts id,
    Builder.interned b !! (acc, default, ts) = Some id ↔
    0 < id ∧ (Builder.nodes b).[id] = Some (Node.mk acc default ts);
  bo_unions : ∀ ids id, Builder.unions b !! ids = Some id →
    (∀ i, i ∈ ids → i < lenN (Builder.nodes b)) ∧ id < lenN (Builder.nodes b) ∧
    ∀ w, word w → node_accepts (Builder.nodes b) id w = existsb (λ i, node_accepts (Builder.nodes b) i w) ids;
  bo_accept : ∀ id, Builder.accept b = Some id →
    id < lenN (Builder.nodes b) ∧
    ∀ w, word w → node_accepts (Builder.nodes b) id w = true ↔ w = [];
  bo_spanned : ∀ id, id < lenN (Builder.nodes b) → spanned (accepted (Builder.nodes b) id);
  bo_width : lenN (Builder.nodes b) ≤ u32_modulus;
}.

Definition world_ok (w : world) : Prop :=
  builder_ok (builder w) ∧ (is_Some (handle w) → budgeted).

Abbreviation nodes_of w := (Builder.nodes (builder w)).

(** Nodes are only added. *)
Definition grows (w w' : world) : Prop := ∃ suf, nodes_of w' = nodes_of w ++ suf.

Lemma builder_grows_refl w : grows w w.
Proof using. exists []. by rewrite app_nil_r. Qed.

Lemma builder_grows_trans w w' w'' : grows w w' → grows w' w'' → grows w w''.
Proof using. intros [s H] [s' H']. exists (s ++ s'). by rewrite H', H, app_assoc. Qed.

Lemma grows_lt w w' id : grows w w' → id < lenN (nodes_of w) → id < lenN (nodes_of w').
Proof using All. intros [s ->]. rewrite lenN_app. lia. Qed.

Lemma grows_accepts w w' id v :
  world_ok w → grows w w' → id < lenN (nodes_of w) →
  node_accepts (nodes_of w') id v = node_accepts (nodes_of w) id v.
Proof using All. intros [Hb _] [s ->] Hid. eapply node_accepts_app; [apply (bo_nodes _ Hb)|done]. Qed.

(** The languages of a vector of nodes. *)
Definition union_accepts (ns : list Node.t) (ids : list N) (v : list Z) : bool :=
  existsb (λ id, node_accepts ns id v) ids.

Lemma grows_union w w' ids v :
  world_ok w → grows w w' → (∀ id, id ∈ ids → id < lenN (nodes_of w)) →
  union_accepts (nodes_of w') ids v = union_accepts (nodes_of w) ids v.
Proof using All.
  intros Hw Hg Hids. apply eq_iff_eq_true. unfold union_accepts. rewrite !existsb_elem.
  split; intros (i & Hi & Ha); exists i; (split; [done|]); [erewrite <-grows_accepts|erewrite grows_accepts]; eauto.
Qed.

Lemma wp_charge n w Q :
  (∀ w', builder w' = builder w → world_ok w' → Q tt w') → world_ok w → wp (charge_build_budget n) w Q.
Proof using All.
  intros HQ [Hb Hh]. unfold DefaultBuilder.wp, charge_build_budget.
  destruct (handle w) as [h|] eqn:Eh.
  - destruct (TemplateBuildBudget.charge h n) as [h' exceeded]. destruct exceeded.
    + simpl. apply Hh. eauto.
    + apply HQ; [done|]. split; [done|]. intros _. apply Hh. eauto.
  - apply HQ; [done|]. split; [done|]. rewrite Eh. by intros [].
Qed.

(** ** Interning *)

(** A node whose language is [L]. *)
Definition means (w : world) (id : N) (L : list Z → Prop) : Prop :=
  id < lenN (nodes_of w) ∧ ∀ v, word v → node_accepts (nodes_of w) id v = true ↔ L v.

Abbreviation row_language ns acc d ts := (λ v, row_accepts ns acc d ts v = true).

Lemma nodes_pos w : world_ok w → 0 < lenN (nodes_of w).
Proof using All. intros [Hb _]. eapply nthN_lt, (ns_dead _ _ _ (bo_nodes _ Hb)). Qed.

Lemma push_ok w acc default ts :
  world_ok w → row_fits (nodes_of w) (lenN (nodes_of w)) default ts →
  spanned (row_language (nodes_of w) acc default ts) →
  canonical_row default ts ≠ [] ∨ acc = true ∨ default ≠ 0 →
  Builder.interned (builder w) !! (acc, default, canonical_row default ts) = None →
  lenN (nodes_of w) < u32_modulus →
  let w' := World (push_node acc default (canonical_row default ts) (builder w)) (handle w) in
  world_ok w' ∧ means w' (lenN (nodes_of w)) (row_language (nodes_of w) acc default ts).
Proof using All.
  intros Hw Hf Hsp Hne Hnew Hlen w'. pose proof (nodes_pos w Hw) as Hpos.
  destruct Hw as [Hb Hh]. pose proof (bo_nodes _ Hb) as Hns.
  pose proof (rf_nodup _ _ _ _ _ _ Hf) as Hnd.
  set (n := Node.mk acc default (canonical_row default ts)).
  assert (Hni : n ∉ nodes_of w).
  { intros [i Hi]%nthN_elem_of. assert (0 < i).
    { destruct (decide (i = 0)) as [->|]; [|lia]. rewrite (ns_dead _ _ _ Hns) in Hi. injection Hi as Ha Hd Hr.
      destruct Hne as [?|[?|?]]; congruence. }
    assert (Builder.interned (builder w) !! (acc, default, canonical_row default ts) = Some i)
      by (by apply (bo_interned _ Hb)). congruence. }
  assert (Hns' : nodes_ok (nodes_of w ++ [n])).
  { apply nodes_ok_snoc; [done|done| |done]. intros [= ? ? ?]. destruct Hne as [?|[?|?]]; congruence. }
  assert (Hold : ∀ id v, id < lenN (nodes_of w) → node_accepts (nodes_of w') id v = node_accepts (nodes_of w) id v)
    by (intros; by eapply node_accepts_app).
  assert (Hrow : ∀ v, node_accepts (nodes_of w') (lenN (nodes_of w)) v = row_accepts (nodes_of w) acc default ts v).
  { intros v. rewrite (row_accepts_node _ _ acc default ts) by (done || apply nthN_app_last).
    destruct v as [|l v]; [done|]. simpl. apply Hold. eapply fits_target; [exact Hf|done]. }
  split; [split; [|done]|split; [simpl; rewrite lenN_snoc; lia|intros; by rewrite Hrow]]. split; simpl.
  - done.
  - apply (bo_node_budget _ Hb).
  - apply (bo_depth_budget _ Hb).
  - intros acc' default' ts' id. rewrite as_u32_small by done. rewrite nthN_snoc.
    destruct (decide ((acc, default, canonical_row default ts) = (acc', default', ts'))) as [Heq|Hneq].
    + rewrite <-Heq, lookup_insert_eq. injection Heq as -> -> <-. split.
      * intros [= <-]. by rewrite N.eqb_refl.
      * destruct (N.eqb_spec id (lenN (nodes_of w))) as [->|Hid]; [done|]. intros [_ Hi].
        destruct Hni. apply nthN_elem_of. eauto.
    + rewrite lookup_insert_ne by done. rewrite (bo_interned _ Hb).
      destruct (N.eqb_spec id (lenN (nodes_of w))) as [->|Hid]; [|done]. split.
      * intros [_ Hi]. apply nthN_lt in Hi. lia.
      * intros [_ [= ? ? ?]]. destruct Hneq. congruence.
  - intros ids id Hi. destruct (bo_unions _ Hb ids id Hi) as (H1 & H2 & H3).
    rewrite lenN_snoc. split; [intros i Hi'; specialize (H1 i Hi'); lia|]. split; [lia|].
    intros v Hv. specialize (Hold id v H2) as E. simpl in E. rewrite E, H3 by done.
    apply eq_iff_eq_true. rewrite !existsb_elem.
    split; intros (i & Hi' & Ha); exists i; (split; [done|]); specialize (Hold i v (H1 i Hi')); simpl in Hold; congruence.
  - intros id Hi. destruct (bo_accept _ Hb id Hi) as [H1 H2]. rewrite lenN_snoc. split; [lia|].
    intros v Hv. specialize (Hold id v H1) as E. simpl in E. rewrite E. by apply H2.
  - intros id. rewrite lenN_snoc. intros Hid. destruct (decide (id = lenN (nodes_of w))) as [->|Hne'].
    + eapply spanned_ext; [|exact Hsp]. intros v _. cbv beta. by rewrite <-(Hrow v).
    + assert (Hlt : id < lenN (nodes_of w)) by lia.
      eapply spanned_ext; [|apply (bo_spanned _ Hb id Hlt)]. intros v _. cbv beta. by rewrite <-(Hold id v Hlt).
  - rewrite lenN_snoc. lia.
Qed.

Lemma row_intern_ok acc default ts w :
  world_ok w → row_fits (nodes_of w) (lenN (nodes_of w)) default ts →
  spanned (row_language (nodes_of w) acc default ts) →
  wp (intern acc default ts) w (λ id w',
    world_ok w' ∧ grows w w' ∧ means w' id (row_language (nodes_of w) acc default ts)).
Proof using All.
  intros Hw0 Hf Hsp. unfold intern. apply wp_bind. apply wp_charge; [|done]. intros w1 Hb1 Hw.
  rewrite <-Hb1 in Hf, Hsp. assert (Hg : grows w w1) by (exists []; by rewrite Hb1, app_nil_r).
  rewrite <-Hb1. clear Hw0. revert Hg. generalize w. clear w Hb1. intros w0 Hg.
  pose proof (rf_nodup _ _ _ _ _ _ Hf) as Hnd. pose proof (bo_nodes _ (proj1 Hw)) as Hns.
  destruct (bool_decide _ && negb acc && (default =? 0)) eqn:Edead.
  { apply andb_true_iff in Edead as [[Hts%bool_decide_eq_true Hacc%negb_true_iff]%andb_true_iff Hd%N.eqb_eq].
    subst acc default. apply wp_ret. split; [done|]. split; [done|]. split; [by apply nodes_pos|].
    intros v _. rewrite (row_accepts_node _ 0 false 0 ts); [done| |done]. rewrite Hts. apply (ns_dead _ _ _ Hns). }
  apply wp_bind, wp_gets. unfold id.
  destruct (Builder.interned (builder w1) !! _) as [id|] eqn:Eid.
  { apply wp_ret. split; [done|]. split; [done|]. apply (bo_interned _ (proj1 Hw)) in Eid as [_ Eid].
    split; [by eapply nthN_lt|]. intros v _. by rewrite (row_accepts_node _ id acc default ts). }
  assert (Hne : canonical_row default ts ≠ [] ∨ acc = true ∨ default ≠ 0).
  { destruct (decide (canonical_row default ts = [])) as [Hn|]; [right|by left].
    rewrite bool_decide_eq_true_2 in Edead by done. simpl in Edead. destruct acc; [by left|right].
    simpl in Edead. by apply N.eqb_neq in Edead. }
  rewrite (bo_node_budget _ (proj1 Hw)).
  destruct (N.leb_spec node_budget (lenN (nodes_of w1))) as [Hfull|Hroom].
  - unfold DefaultBuilder.wp. simpl. intros He. pose proof (Henough He) as Hcap.
    destruct (decide (lenN (nodes_of w1) < u32_modulus)) as [Hlt|Hge].
    + destruct (push_ok w1 acc default ts Hw Hf Hsp Hne Eid Hlt) as [[Hb' _] _].
      pose proof (spanned_count _ (bo_nodes _ Hb') (bo_spanned _ Hb')) as Hc. simpl in Hc.
      rewrite length_app in Hc. simpl in Hc. unfold lenN in Hfull. lia.
    + pose proof (spanned_count _ Hns (bo_spanned _ (proj1 Hw))) as Hc. unfold lenN in Hge, Hfull. lia.
  - assert (Hlt : lenN (nodes_of w1) < u32_modulus) by lia.
    destruct (push_ok w1 acc default ts Hw Hf Hsp Hne Eid Hlt) as [Hw' Hm].
    unfold DefaultBuilder.wp. simpl. rewrite as_u32_small by done. split; [done|]. split; [|done].
    eapply builder_grows_trans; [done|]. by eexists.
Qed.

Lemma accept_node_ok w :
  world_ok w → wp accept_node w (λ id w', world_ok w' ∧ grows w w' ∧ means w' id (λ v, v = [])).
Proof using All.
  intros Hw. unfold accept_node. apply wp_bind, wp_gets. destruct (Builder.accept (builder w)) as [id|] eqn:E.
  - apply wp_ret. split; [done|]. split; [apply builder_grows_refl|]. by apply (bo_accept _ (proj1 Hw)).
  - assert (Hrow : ∀ v, row_accepts (nodes_of w) true 0 [] v = true ↔ v = []).
    { intros [|l v]; [done|]. simpl. assert (Node.target (Node.mk true 0 []) l = 0) as ->.
      { rewrite target_fallback by apply not_elem_of_nil. unfold fallback. by case_match. }
      rewrite (dead_node letter used) by apply (bo_nodes _ (proj1 Hw)). done. }
    apply wp_bind. eapply wp_mono; [|apply (row_intern_ok true 0 [] w Hw)].
    + intros id w' (Hw' & Hg & [Hid Hm]). apply wp_bind, wp_modify, wp_ret.
      assert (Hm' : ∀ v, word v → node_accepts (nodes_of w') id v = true ↔ v = []) by (intros v Hv; by rewrite Hm, Hrow).
      split; [|done]. destruct Hw' as [[Hn Hnb Hdb Hi Hu _ Hs Hwd] Hh]. split; [|done]. split; simpl; try done.
      by intros id' [= <-].
    + pose proof (nodes_pos w Hw). split; [done|by intros ? ? ?%elem_of_nil|by intros ? ? ?%elem_of_nil|constructor|by intros ? ? ? ?%elem_of_nil].
    + eapply spanned_ext; [|exact Hnil]. intros v _. by rewrite Hrow.
Qed.

(** ** Unions *)

Lemma means_grows w w' id L : world_ok w → grows w w' → means w id L → means w' id L.
Proof using All.
  intros Hw Hg [Hid HL]. split; [by eapply grows_lt|]. intros v Hv. rewrite (grows_accepts w w') by done. by apply HL.
Qed.

Lemma means_ext w id (L L' : list Z → Prop) : (∀ v, word v → L v ↔ L' v) → means w id L → means w id L'.
Proof using All. intros Heq [Hid HL]. split; [done|]. intros v Hv. rewrite <-Heq by done. by apply HL. Qed.

(** The vector that is the key of a union. *)
Definition union_key (ids : list N) : list N := live (dedup (sort_N ids)).

Lemma elem_of_live ids x : x ∈ live ids ↔ x ∈ ids ∧ x ≠ 0.
Proof using All. unfold live. rewrite list_elem_of_filter. tauto. Qed.

Lemma elem_of_union_key ids x : x ∈ union_key ids ↔ x ∈ ids ∧ x ≠ 0.
Proof using All. unfold union_key. by rewrite elem_of_live, (proj2 (dedup_sort_spec ids)). Qed.

Lemma union_key_NoDup ids : NoDup (union_key ids).
Proof using All. apply NoDup_filter, strictly_sorted_NoDup, dedup_sort_spec. Qed.

Lemma union_accepts_live ns ids ids' v :
  nodes_ok ns → (∀ x, x ∈ ids' ↔ x ∈ ids ∧ x ≠ 0) → union_accepts ns ids' v = union_accepts ns ids v.
Proof using All.
  intros Hns Heq. apply eq_iff_eq_true. unfold union_accepts. rewrite !existsb_elem. split.
  - intros (i & [Hi _]%Heq & Ha). eauto.
  - intros (i & Hi & Ha). exists i. split; [|done]. apply Heq. split; [done|]. intros ->.
    by rewrite (dead_node letter used) in Ha.
Qed.

Lemma union_deriv ns ids l v :
  nodes_ok ns → union_accepts ns ids (l :: v) = union_accepts ns (live ((λ id, target_at ns id l) <$> ids)) v.
Proof using All.
  intros Hns. rewrite (union_accepts_live ns _ _ v Hns (elem_of_live _)). apply eq_iff_eq_true. unfold union_accepts.
  rewrite !existsb_elem. setoid_rewrite list_elem_of_fmap. split.
  - intros (i & Hi & Ha). eauto.
  - intros (t & (i & -> & Hi) & Ha). eauto.
Qed.

(** On a nonnegative letter a node accepts at least what its default accepts. *)
Lemma target_mono ns id l v :
  nodes_ok ns → (0 <= l)%Z → word v →
  node_accepts ns (target_at ns id fresh) v = true → node_accepts ns (target_at ns id l) v = true.
Proof using All.
  intros Hns Hl Hv. destruct (ns.[id]) as [n|] eqn:E.
  - rewrite (target_fresh letter used fresh Hfresh ns id n Hns E). unfold target_at. rewrite E.
    rewrite <-(node_eta n). destruct (decide (id = 0)) as [->|Hne].
    + rewrite (ns_dead _ _ _ Hns) in E. injection E as <-. unfold Node.target. simpl. by case_match.
    + assert (Hn : node_ok letter used ns id n) by (apply (ns_rows _ _ _ Hns); [lia|done]).
      destruct (target_cases (Node.accepting n) (Node.default n) (Node.transitions n) l
                  (rf_nodup _ _ _ _ _ _ (no_fits _ _ _ _ _ Hn))) as [Hin|[_ ->]].
      * simpl. by apply (rf_mono _ _ _ _ _ _ (no_fits _ _ _ _ _ Hn) l).
      * unfold fallback. simpl. by rewrite (proj2 (Z.leb_le 0 l)).
  - unfold target_at. by rewrite E.
Qed.

(** Away from the letters of its row a node goes where its default says. *)
Lemma target_off_row ns id n l :
  nodes_ok ns → ns.[id] = Some n → l ∉ (Node.transitions n).*1 → target_at ns id l = fallback (target_at ns id fresh) l.
Proof using All.
  intros Hns E Hl. rewrite (target_fresh letter used fresh Hfresh ns id n Hns E). unfold target_at.
  rewrite E, <-(node_eta n). by apply target_fallback.
Qed.

Lemma target_snoc acc d ts x c l :
  l ≠ x → Node.target (Node.mk acc d (ts ++ [(x, c)])) l = Node.target (Node.mk acc d ts) l.
Proof using All.
  intros Hne. unfold Node.target. simpl.
  assert (binary_search_label (ts ++ [(x, c)]) l = binary_search_label ts l) as ->.
  { induction ts as [|[y u] ts IH]; simpl.
    - destruct (Z.eqb_spec x l); [congruence|done].
    - destruct (Z.eqb_spec y l); [done|]. by rewrite IH. }
  destruct (binary_search_label ts l) as [i|] eqn:Ei; [|done].
  rewrite lookup_app_l; [done|]. revert i Ei. clear -Hne. induction ts as [|[y u] ts IH]; intros i; [done|]. simpl.
  destruct (Z.eqb_spec y l); [intros [= <-]; lia|]. intros (j & Hj & ->)%fmap_Some. specialize (IH j Hj). lia.
Qed.

(** The rows of nodes that exist. *)
Definition row_of (ns : list Node.t) (id : N) : Node.t := default (Node.mk false 0 []) ns.[id].

Lemma wp_rows ids w (Q : list Node.t → world → Prop) :
  (∀ id, id ∈ ids → id < lenN (nodes_of w)) → Q (row_of (nodes_of w) <$> ids) w → wp (collect get_node ids) w Q.
Proof using All.
  intros Hids. apply wp_collect. intros id Hid. unfold get_node, bind, gets, index, row_of.
  by destruct (proj1 (nthN_Some_lt _ _) (Hids id Hid)) as [n ->].
Qed.

Lemma row_of_target ns (ids : list N) l :
  (∀ id, id ∈ ids → id < lenN ns) →
  (λ n, Node.target n l) <$> (row_of ns <$> ids) = (λ id, target_at ns id l) <$> ids.
Proof using All.
  intros Hids. rewrite <-list_fmap_compose. apply list_fmap_ext. intros i id Hi%list_elem_of_lookup_2.
  unfold compose, row_of, target_at. by destruct (proj1 (nthN_Some_lt _ _) (Hids id Hi)) as [n ->].
Qed.

Lemma row_of_default ns (ids : list N) :
  nodes_ok ns → (∀ id, id ∈ ids → id < lenN ns) →
  Node.default <$> (row_of ns <$> ids) = (λ id, target_at ns id fresh) <$> ids.
Proof using All.
  intros Hns Hids. rewrite <-list_fmap_compose. apply list_fmap_ext. intros i id Hi%list_elem_of_lookup_2.
  unfold compose, row_of. destruct (proj1 (nthN_Some_lt _ _) (Hids id Hi)) as [n E]. rewrite E. simpl.
  symmetry. by eapply target_fresh.
Qed.

Lemma row_of_accepting ns (ids : list N) :
  existsb Node.accepting (row_of ns <$> ids) = union_accepts ns ids [].
Proof using All.
  unfold union_accepts, row_of. induction ids as [|id ids IH]; [done|].
  rewrite fmap_cons. cbn [existsb]. rewrite IH. cbn [node_accepts]. by destruct (ns.[id]).
Qed.

Lemma elem_of_row_labels rows l : l ∈ row_labels rows ↔ ∃ n, n ∈ rows ∧ l ∈ (Node.transitions n).*1.
Proof using All.
  unfold row_labels. rewrite merge_sort_Permutation, elem_of_elements, elem_of_list_to_set.
  rewrite list_elem_of_In, in_concat. setoid_rewrite <-list_elem_of_In. split.
  - intros (ls & (n & -> & Hn)%list_elem_of_fmap & Hl). eauto.
  - intros (n & Hn & Hl). exists ((Node.transitions n).*1). split; [|done].
    apply list_elem_of_fmap. eauto.
Qed.

Lemma row_labels_NoDup rows : NoDup (row_labels rows).
Proof using All. unfold row_labels. rewrite merge_sort_Permutation. apply NoDup_elements. Qed.

(** No word of [k] letters or more is accepted. *)
Definition short (w : world) (k : nat) (ids : list N) : Prop :=
  ∀ id v, id ∈ ids → word v → node_accepts (nodes_of w) id v = true → (length v < k)%nat.

Lemma short_grows w w' k ids :
  world_ok w → grows w w' → (∀ id, id ∈ ids → id < lenN (nodes_of w)) → short w k ids → short w' k ids.
Proof using All.
  intros Hw Hg Hids Hs id v Hid Hv. rewrite (grows_accepts w w') by auto. by apply Hs.
Qed.

Lemma short_targets w k (ids : list N) l :
  letter l → short w (S k) ids → short w k (live ((λ id, target_at (nodes_of w) id l) <$> ids)).
Proof using All.
  intros Hl Hs id v [(i & -> & Hi)%list_elem_of_fmap _]%elem_of_live Hv Ha.
  assert (length (l :: v) < S k)%nat by (apply (Hs i); [done|by constructor|done]). simpl in *. lia.
Qed.

Lemma targets_in_range w (ids : list N) l :
  world_ok w → (∀ id, id ∈ ids → id < lenN (nodes_of w)) →
  ∀ t, t ∈ live ((λ id, target_at (nodes_of w) id l) <$> ids) → t < lenN (nodes_of w).
Proof using All.
  intros [Hb _] Hids t [(i & -> & Hi)%list_elem_of_fmap _]%elem_of_live.
  pose proof (target_le letter used _ i l (bo_nodes _ Hb)). specialize (Hids i Hi). lia.
Qed.

Lemma row_fits_grows w w' d ts :
  world_ok w → grows w w' → row_fits (nodes_of w) (lenN (nodes_of w)) d ts →
  row_fits (nodes_of w') (lenN (nodes_of w')) d ts.
Proof using All.
  intros [Hb _] [suf ->] Hf. eapply row_fits_le; [|apply row_fits_app; [apply (bo_nodes _ Hb)|apply N.le_refl|exact Hf]].
  rewrite lenN_app. lia.
Qed.

Lemma fits_snoc ns bound d ts x c :
  row_fits ns bound d ts → used x → x ∉ ts.*1 → c < bound →
  ((0 <= x)%Z → ∀ v, word v → node_accepts ns d v = true → node_accepts ns c v = true) →
  row_fits ns bound d (ts ++ [(x, c)]).
Proof using All.
  intros [Hd Ht Hu Hnd Hm] Hx Hni Hc Hmono. split; [done| | | |].
  - intros l t [Hin|[= -> ->]%list_elem_of_singleton]%elem_of_app; [by eapply Ht|done].
  - intros l t [Hin|[= -> ->]%list_elem_of_singleton]%elem_of_app; [by eapply Hu|done].
  - rewrite fmap_app. apply NoDup_app. split; [done|]. split; [|apply NoDup_singleton].
    intros l Hl ->%list_elem_of_singleton. done.
  - intros l t v [Hin|[= -> ->]%list_elem_of_singleton]%elem_of_app Hl Hv; [by apply (Hm l t)|by apply Hmono].
Qed.

(** A row under construction for the languages [L] of the letters: the
    letters [pre] are done. *)
Record built_row (L : Z → list Z → Prop) (w0 : world) (d : N) (pre : list Z) (ts : list (Z * N)) (w : world) : Prop := {
  br_ok : world_ok w;
  br_grows : grows w0 w;
  br_default : means w d (L fresh);
  br_fits : row_fits (nodes_of w) (lenN (nodes_of w)) d ts;
  br_pre : ∀ l, l ∈ ts.*1 → l ∈ pre;
  br_done : ∀ l v, l ∈ pre → word v →
    node_accepts (nodes_of w) (Node.target (Node.mk false d ts) l) v = true ↔ L l v;
}.

Section built.
Context (L : Z → list Z → Prop).
Context (Hmono : ∀ x v, used x → (0 <= x)%Z → word v → L fresh v → L x v).

Lemma built_row_start w0 w d : world_ok w → grows w0 w → means w d (L fresh) → built_row L w0 d [] [] w.
Proof using All.
  intros Hw Hg Hd. split; [done|done|done| |by intros l ?%elem_of_nil|by intros l v ?%elem_of_nil].
  split; [apply Hd|by intros ? ? ?%elem_of_nil|by intros ? ? ?%elem_of_nil|constructor|by intros ? ? ? ?%elem_of_nil].
Qed.

(** One more letter: [c] is its target. *)
Lemma built_row_step w0 d pre ts w w' x c :
  built_row L w0 d pre ts w → world_ok w' → grows w w' → used x → x ∉ pre → means w' c (L x) →
  built_row L w0 d (pre ++ [x]) (if needed d x c then ts ++ [(x, c)] else ts) w'.
Proof using All.
  intros [Hok Hg Hd Hf Hpre Hdone] Hw' Hg' Hx Hni Hc.
  pose proof (means_grows w w' d _ Hok Hg' Hd) as Hd'.
  assert (Hxts : x ∉ ts.*1) by (intros Hin; by apply Hni, Hpre).
  assert (Hold : ∀ l v, l ∈ pre → word v → node_accepts (nodes_of w') (Node.target (Node.mk false d ts) l) v = true ↔ L l v).
  { intros l v Hl Hv. rewrite <-(Hdone l v Hl Hv). rewrite (grows_accepts w w' _ v Hok Hg'); [done|].
    eapply fits_target; [exact Hf|by apply nodes_pos]. }
  destruct (needed d x c) eqn:En.
  - assert (Hf' : row_fits (nodes_of w') (lenN (nodes_of w')) d (ts ++ [(x, c)])).
    { apply fits_snoc; [by apply (row_fits_grows w w')|done|done|apply Hc|].
      intros Hx0 v Hv. rewrite (proj2 Hd' v Hv), (proj2 Hc v Hv). by apply Hmono. }
    split; [done|by eapply builder_grows_trans|done|done| |].
    + intros l. rewrite fmap_app, !elem_of_app. intros [Hl|Hl]; [left; auto|by right].
    + intros l v [Hl| ->%list_elem_of_singleton]%elem_of_app Hv.
      * rewrite target_snoc by (intros ->; done). by apply Hold.
      * rewrite (target_explicit false d _ x c); [by apply Hc|apply (rf_nodup _ _ _ _ _ _ Hf')|].
        apply elem_of_app. right. by left.
  - assert (Hcf : c = fallback d x).
    { destruct (decide (c = fallback d x)) as [|Hne]; [done|]. apply needed_spec in Hne. congruence. }
    split; [done|by eapply builder_grows_trans|done|by apply (row_fits_grows w w')| |].
    + intros l Hl. apply elem_of_app. left. auto.
    + intros l v [Hl| ->%list_elem_of_singleton]%elem_of_app Hv; [by apply Hold|].
      rewrite target_fallback, <-Hcf by done. by apply Hc.
Qed.

(** A finished row: the other letters go where the default says. *)
Lemma built_row_accepts w0 d pre ts w acc l v :
  built_row L w0 d pre ts w →
  (l ∉ pre → L l v ↔ (0 <= l)%Z ∧ L fresh v) → word v →
  row_accepts (nodes_of w) acc d ts (l :: v) = true ↔ L l v.
Proof using All.
  intros [Hok Hg Hd Hf Hpre Hdone] Hoff Hv. simpl.
  destruct (decide (l ∈ pre)) as [Hin|Hni]; [by rewrite <-(Hdone l v Hin Hv)|].
  rewrite target_fallback by (intros Hin; by apply Hni, Hpre). rewrite (Hoff Hni). unfold fallback.
  destruct (Z.leb_spec 0 l) as [Hl|Hl].
  - rewrite (proj2 Hd v Hv). tauto.
  - rewrite (dead_node letter used) by apply (bo_nodes _ (proj1 Hok)). split; [done|]. intros [? _]. lia.
Qed.
End built.

(** What a union promises. *)
Abbreviation union_language w ids := (λ v, union_accepts (nodes_of w) ids v = true).

Definition union_spec (r : nat) : Prop := ∀ ids w,
  world_ok w → (∀ id, id ∈ ids → id < lenN (nodes_of w)) → (enough → short w (S r) ids) →
  wp (union r ids) w (λ id w', world_ok w' ∧ grows w w' ∧ means w' id (union_language w ids)).

Section step.
Context (r : nat) (HU : union_spec r).
Context (w0 : world) (ids : list N) (Hw0 : world_ok w0) (Hids : ∀ id, id ∈ ids → id < lenN (nodes_of w0)).
Context (Hshort : enough → short w0 (S (S r)) ids).

Abbreviation LU := (λ l v, union_accepts (nodes_of w0) ids (l :: v) = true).

Lemma union_mono x v : used x → (0 <= x)%Z → word v → LU fresh v → LU x v.
Proof using All.
  cbv beta. unfold union_accepts. rewrite !existsb_elem. intros _ Hx Hv (i & Hi & Ha). exists i. split; [done|].
  simpl in *. apply target_mono; [apply (bo_nodes _ (proj1 Hw0))|done..].
Qed.

(** The union of the targets under a letter. *)
Lemma union_targets_ok x w :
  letter x → world_ok w → grows w0 w →
  wp (union r (live ((λ id, target_at (nodes_of w) id x) <$> ids))) w (λ c w',
    world_ok w' ∧ grows w w' ∧ means w' c (LU x)).
Proof using All.
  intros Hx Hw Hg. assert (Hids' : ∀ id, id ∈ ids → id < lenN (nodes_of w)) by (intros; eapply grows_lt; eauto).
  eapply wp_mono; [|apply HU; [done|by apply targets_in_range|]].
  - intros c w' (Hw' & Hg' & Hm). split; [done|]. split; [done|]. eapply means_ext; [|exact Hm].
    intros v Hv. cbv beta. rewrite <-union_deriv by apply (bo_nodes _ (proj1 Hw)). by rewrite (grows_union w0 w).
  - intros He. apply short_targets; [done|]. by apply (short_grows w0), Hshort.
Qed.

Lemma union_label_ok d pre x ts w :
  built_row LU w0 d pre ts w → used x → x ∉ pre →
  wp (union_label (union r) ids d ts x) w (built_row LU w0 d (pre ++ [x])).
Proof using All.
  intros Hrow Hx Hni. unfold union_label. apply wp_bind, wp_rows.
  { intros id Hid. eapply grows_lt; [apply (br_grows _ _ _ _ _ _ Hrow)|auto]. }
  rewrite row_of_target by (intros id Hid; eapply grows_lt; [apply (br_grows _ _ _ _ _ _ Hrow)|auto]).
  apply wp_bind. eapply wp_mono; [|apply union_targets_ok; [auto|apply Hrow|apply Hrow]].
  intros c w' (Hw' & Hg' & Hm). apply wp_ret. eapply built_row_step; try done. intros; by apply union_mono.
Qed.

(** Letters of no row. *)
Lemma union_off l v :
  l ∉ row_labels (row_of (nodes_of w0) <$> ids) → LU l v ↔ (0 <= l)%Z ∧ LU fresh v.
Proof using All.
  intros Hni. pose proof (bo_nodes _ (proj1 Hw0)) as Hns.
  assert (Hoff : ∀ id, id ∈ ids → target_at (nodes_of w0) id l = fallback (target_at (nodes_of w0) id fresh) l).
  { intros id Hid. destruct (proj1 (nthN_Some_lt _ _) (Hids id Hid)) as [n En].
    eapply target_off_row; [done|done|]. intros Hl'. apply Hni, elem_of_row_labels. exists n. split; [|done].
    apply list_elem_of_fmap. exists id. split; [|done]. unfold row_of. by rewrite En. }
  cbv beta. unfold union_accepts, fallback in *. rewrite !existsb_elem. simpl. destruct (Z.leb_spec 0 l) as [Hl|Hl].
  - split; [intros (i & Hi & Ha)|intros (_ & i & Hi & Ha)]; rewrite ?Hoff in Ha by done; [split; [done|]|];
      exists i; rewrite ?Hoff by done; eauto.
  - split; [|intros [? _]; lia]. intros (i & Hi & Ha). by rewrite Hoff, (dead_node letter used) in Ha.
Qed.

(** A finished row accepts the union. *)
Lemma union_row_accepts d ts w v :
  built_row LU w0 d (row_labels (row_of (nodes_of w0) <$> ids)) ts w → word v →
  row_accepts (nodes_of w) (existsb Node.accepting (row_of (nodes_of w0) <$> ids)) d ts v = true ↔
  union_accepts (nodes_of w0) ids v = true.
Proof using All.
  intros Hrow Hv. destruct v as [|l v]; [simpl; by rewrite row_of_accepting|].
  apply Forall_cons in Hv as [Hl Hv].
  rewrite (built_row_accepts LU union_mono w0 d _ ts w _ l v Hrow); [done|apply union_off|done].
Qed.
End step.

Lemma memoize_ok w ids id :
  world_ok w → (∀ i, i ∈ ids → i < lenN (nodes_of w)) → means w id (union_language w ids) →
  world_ok (World (memoize ids id (builder w)) (handle w)).
Proof using All.
  intros [[Hn Hnb Hdb Hi Hu Ha Hs Hwd] Hh] Hids [Hid Hm]. split; [|done]. split; simpl; try done.
  intros ids' id'. rewrite lookup_insert. case_decide as Heq; [|apply Hu]. subst ids'. intros [= <-].
  split; [done|]. split; [done|]. intros v Hv. apply eq_iff_eq_true. by apply Hm.
Qed.

Lemma spanned_nodes w ids :
  world_ok w → (∀ id, id ∈ ids → id < lenN (nodes_of w)) → spanned (union_language w ids).
Proof using All.
  intros [Hb _] Hids. eapply (spanned_ext (λ v, ∃ id, id ∈ ids ∧ node_accepts (nodes_of w) id v = true)).
  - intros v _. unfold union_accepts. by rewrite existsb_elem.
  - apply (spanned_union (λ id v, node_accepts (nodes_of w) id v = true)). intros id Hid. apply (bo_spanned _ Hb). auto.
Qed.

(** Two nodes that accept no letter are not different. *)
Lemma short_unique w x y :
  world_ok w → x < lenN (nodes_of w) → y < lenN (nodes_of w) → x ≠ 0 → y ≠ 0 → short w 1 [x; y] → x = y.
Proof using All.
  intros [Hb _] Hx Hy Hx0 Hy0 Hs. pose proof (bo_nodes _ Hb) as Hns.
  assert (Hend : ∀ z, z ∈ [x; y] → z < lenN (nodes_of w) → z ≠ 0 → node_accepts (nodes_of w) z [] = true).
  { intros z Hz Hzl Hz0. apply not_false_iff_true. intros Hf. apply Hz0.
    apply (node_live letter used fresh Hused Hfresh _ z Hns Hzl). intros v Hv. apply not_true_iff_false. intros Ha.
    specialize (Hs z v Hz Hv Ha). destruct v; [congruence|simpl in Hs; lia]. }
  apply (nodes_canonical letter used fresh Hused Hfresh _ x y Hns Hx Hy).
  intros [|l v] Hv; [by rewrite !Hend by (done || (right; by left) || by left)|].
  assert (Hno : ∀ z, z ∈ [x; y] → node_accepts (nodes_of w) z (l :: v) = false).
  { intros z Hz. apply not_true_iff_false. intros Ha. specialize (Hs z _ Hz Hv Ha). simpl in Hs. lia. }
  by rewrite !Hno by ((right; by left) || by left).
Qed.

(** The rest of a union once the memo has no answer. *)
Definition union_rest (r : nat) (ids : list N) : M N :=
  bind (collect get_node ids) (λ rows,
  bind (union r (live (Node.default <$> rows))) (λ d,
  bind (for_each (union_label (union r) ids d) [] (row_labels rows)) (λ ts,
  bind (intern (existsb Node.accepting rows) d ts) (λ node,
  bind (modify (memoize ids node)) (λ _, ret node))))).

Lemma union_labels_used w ids x :
  world_ok w → (∀ id, id ∈ ids → id < lenN (nodes_of w)) → x ∈ row_labels (row_of (nodes_of w) <$> ids) → used x.
Proof using All.
  intros [Hb _] Hids. pose proof (bo_nodes _ Hb) as Hns.
  intros (n0 & (id & -> & Hid)%list_elem_of_fmap & ([l t] & -> & Hin)%list_elem_of_fmap)%elem_of_row_labels.
  destruct (proj1 (nthN_Some_lt _ _) (Hids id Hid)) as [n En]. unfold row_of in Hin. rewrite En in Hin. simpl in *.
  destruct (decide (id = 0)) as [->|Hne].
  - rewrite (ns_dead _ _ _ Hns) in En. injection En as <-. by apply elem_of_nil in Hin.
  - eapply rf_used; [|exact Hin]. apply (no_fits _ _ _ id), (ns_rows _ _ _ Hns); [lia|done].
Qed.

Lemma union_rest_ok r ids w :
  union_spec r → world_ok w → (∀ id, id ∈ ids → id < lenN (nodes_of w)) → (enough → short w (S (S r)) ids) →
  wp (union_rest r ids) w (λ id w', world_ok w' ∧ grows w w' ∧ means w' id (union_language w ids)).
Proof using All.
  intros HU Hw Hids Hshort. pose proof (bo_nodes _ (proj1 Hw)) as Hns. unfold union_rest.
  apply wp_bind, wp_rows; [done|]. rewrite row_of_default by done. set (LU := λ l v, union_accepts (nodes_of w) ids (l :: v) = true).
  apply wp_bind. eapply wp_mono; [|by apply (union_targets_ok r HU w ids Hw Hids Hshort fresh w (proj1 Hfresh) Hw (builder_grows_refl w))].
  intros d w1 (Hw1 & Hg1 & Hd).
  apply wp_bind. eapply wp_mono; [|apply (wp_for_each _ (built_row LU w d))].
  - intros ts w2 Hrow.
    pose proof (λ v, union_row_accepts r HU w ids Hw Hids Hshort d ts w2 v Hrow) as Hacc.
    apply wp_bind. eapply wp_mono; [|apply row_intern_ok; [apply Hrow|apply Hrow|]].
    + intros node w3 (Hw3 & Hg3 & Hm). apply wp_bind, wp_modify, wp_ret.
      assert (Hg : grows w w3) by (eapply builder_grows_trans; [apply Hrow|done]).
      assert (Hm' : means w3 node (union_language w ids)) by (eapply means_ext; [|exact Hm]; exact Hacc).
      split; [|split; [done|exact Hm']]. apply memoize_ok; [done|intros; eapply grows_lt; eauto|].
      eapply means_ext; [|exact Hm']. intros v Hv. cbv beta. by rewrite (grows_union w w3).
    + eapply spanned_ext; [|apply (spanned_nodes w ids Hw Hids)]. intros v Hv. cbv beta. by rewrite Hacc.
  - intros pre x ts w2 [suf Hsuf] Hrow. apply (union_label_ok r HU w ids Hw Hids Hshort); [done| |].
    + apply (union_labels_used w ids); [done|done|]. rewrite Hsuf. apply elem_of_app. right. by left.
    + pose proof (row_labels_NoDup (row_of (nodes_of w) <$> ids)) as Hnd. rewrite Hsuf in Hnd.
      apply NoDup_app in Hnd as (_ & Hdis & _). intros Hin. apply (Hdis x Hin). by left.
  - apply built_row_start; [|done..]. intros; by apply (union_mono r HU w ids Hw Hids Hshort).
Qed.

Theorem union_ok r : union_spec r.
Proof using All.
  induction r as [|r IH]; intros ids w Hw0 Hids0 Hs0; cbn [union]; apply wp_bind;
    (apply wp_charge; [|done]); intros w1 Hb1 Hw; assert (Hg : grows w w1) by (exists []; by rewrite Hb1, app_nil_r);
    fold (union_key ids); pose proof (bo_nodes _ (proj1 Hw)) as Hns;
    assert (Hids : ∀ id, id ∈ union_key ids → id < lenN (nodes_of w1))
      by (intros id [Hid _]%elem_of_union_key; rewrite Hb1; auto);
    assert (Hs : enough → short w1 (S _) (union_key ids))
      by (intros He id v [Hid _]%elem_of_union_key; rewrite Hb1; by apply Hs0);
    pose proof (λ v, union_accepts_live (nodes_of w1) ids (union_key ids) v Hns (elem_of_union_key ids)) as Hkey;
    rewrite <-Hb1; clear Hs0 Hids0 Hw0 Hb1;
    pose proof (union_key_NoDup ids) as Hnd; pose proof (elem_of_union_key ids) as Hel;
    set (key := union_key ids) in *; clearbody key.
  all: destruct key as [|x [|y key]];
    [apply wp_ret; split; [done|]; split; [done|]; split; [by apply nodes_pos|];
     intros v _; cbv beta; rewrite <-Hkey; by rewrite (dead_node letter used)
    |apply wp_ret; split; [done|]; split; [done|]; split; [apply Hids; by left|];
     intros v _; cbv beta; rewrite <-Hkey; unfold union_accepts; simpl; by rewrite orb_false_r|].
  all: apply wp_bind, wp_gets; destruct (Builder.unions (builder w1) !! (x :: y :: key)) as [id|] eqn:Ememo;
    [apply wp_ret; destruct (bo_unions _ (proj1 Hw) _ _ Ememo) as (_ & Hid & Hm);
     split; [done|]; split; [done|]; split; [done|]; intros v Hv; cbv beta; rewrite <-Hkey; by rewrite Hm|].
  - unfold DefaultBuilder.wp. simpl. intros He. apply NoDup_cons in Hnd as [Hni _]. apply Hni.
    assert (x = y) as ->; [|by left]. apply (short_unique w1); [done|apply Hids; by left|apply Hids; right; by left| | |].
    + apply (Hel x). by left.
    + apply (Hel y). right. by left.
    + intros id v Hid. apply (Hs He). apply elem_of_cons in Hid as [->|Hid]; [by left|].
      apply list_elem_of_singleton in Hid as ->. right. by left.
  - eapply wp_mono; [|apply (union_rest_ok r (x :: y :: key) w1 IH Hw Hids Hs)].
    intros id w' (Hw' & Hg' & Hm). split; [done|]. split; [by eapply builder_grows_trans|].
    eapply means_ext; [|exact Hm]. intros v _. cbv beta. by rewrite Hkey.
Qed.
End builder.
