(* ===== verification/DefaultStates.v ===== *)
(** Minimal determinization with default rows: the reverse topological order,
    what the node of a state stands for, and the passes over the states. *)

From stdpp Require Import relations.
From S2P Require Import Prelude Graph Dfa Nfa Explore DefaultRows DefaultNodes DefaultBuilder.

Section order.
Context (nfa : NFA.t).
Abbreviation states := (NFA.states nfa).
Abbreviation n := (length (NFA.states nfa)).

Definition targets_in_range : Prop := ∀ s st t, states.[s] = Some st → t ∈ NFA.targets st → t < lenN states.

(** The counters agree with the predecessor vectors, which hold the edges that
    [known] says. *)
Record counted (known : N → N → Prop) (st : list N * list (list N)) : Prop := {
  co_successors : length st.1 = n;
  co_predecessors : length st.2 = n;
  co_degree : ∀ s, s < lenN states → st.1.[s] = Some (N.of_nat (occ s (concat st.2)));
  co_known : ∀ t l s, st.2.[t] = Some l → s ∈ l ↔ known s t;
}.

Lemma counted_ext known known' st : (∀ s t, known s t ↔ known' s t) → counted known st → counted known' st.
Proof using. intros Heq [H1 H2 H3 H4]. split; try done. intros t l s Hl. rewrite <-Heq. by eapply H4. Qed.

Lemma occ_concat_snoc (ls : list (list N)) t x s :
  t < lenN ls → occ s (concat (alterN (λ l, l ++ [x]) ls t)) = (occ s (concat ls) + occ s [x])%nat.
Proof using.
  revert t. induction ls as [|l ls IH]; intros t Ht; [by apply N.nlt_0_r in Ht|]. cbn [alterN].
  destruct (N.eqb_spec t 0) as [->|Hne]; cbn [concat]; rewrite !occ_app; [lia|].
  rewrite IH; [lia|]. unfold lenN in *. simpl in Ht. lia.
Qed.

Context (Hwidth : lenN (NFA.states nfa) ≤ u32_modulus).

Lemma count_edge_ok known source t st st' :
  source < lenN states → counted known st → count_edge (lenN states) source st t = Some st' →
  counted (λ x y, known x y ∨ (x = source ∧ y = t)) st' ∧ t < lenN states.
Proof using Hwidth.
  intros Hs [H1 H2 H3 H4]. unfold count_edge. destruct (N.leb_spec (lenN states) t) as [|Ht]; [done|].
  intros [= <-]. split; [|done]. rewrite as_u32_small by lia.
  assert (Ht2 : t < lenN st.2) by (unfold lenN in *; lia).
  split; simpl; [by rewrite length_alterN|by rewrite length_alterN| |].
  - intros s Hsl. rewrite nthN_alterN, (H3 s Hsl), occ_concat_snoc, occ_cons by done.
    change (occ s []) with 0%nat. destruct (N.eqb_spec s source) as [->|Hne]; simpl; f_equal.
    + rewrite decide_True by done. lia.
    + rewrite decide_False by done. lia.
  - intros y l s. rewrite nthN_alterN. destruct (N.eqb_spec y t) as [->|Hne].
    + intros (l0 & Hl0 & ->)%fmap_Some. rewrite elem_of_app, list_elem_of_singleton, (H4 t l0 s Hl0). naive_solver.
    + intros Hl. rewrite (H4 y l s Hl). naive_solver.
Qed.

(** The edges of the automaton, as the adjacency has them. *)
Definition known_edge (s t : N) : Prop := ∃ st, states.[s] = Some st ∧ t ∈ NFA.targets st.

Lemma count_edges_ok st :
  count_edges nfa = Some st → counted known_edge st ∧ targets_in_range.
Proof using Hwidth.
  unfold count_edges. intros Hrun.
  assert (Hinv : counted (λ s t, ∃ st, (s, st) ∈ enumerate states ∧ t ∈ NFA.targets st) st ∧
    ∀ s x t, (s, x) ∈ enumerate states → t ∈ NFA.targets x → t < lenN states).
  { revert Hrun. apply (foldM_inv_prefix (λ pre st,
      counted (λ s t, ∃ x, (s, x) ∈ pre ∧ t ∈ NFA.targets x) st ∧
      ∀ s x t, (s, x) ∈ pre → t ∈ NFA.targets x → t < lenN states)).
    - intros pre [s x] st1 st2 [suf Hsuf] [Hc Hr] Hrow.
      assert (Hs : s < lenN states).
      { eapply nthN_lt. apply elem_of_enumerate. rewrite Hsuf. apply elem_of_app. right. by left. }
      assert (Hrow' : counted (λ a t, (∃ x, (a, x) ∈ pre ∧ t ∈ NFA.targets x) ∨ (a = s ∧ t ∈ NFA.targets x)) st2 ∧
        ∀ t, t ∈ NFA.targets x → t < lenN states).
      { revert Hrow. apply (foldM_inv_prefix (λ ts st,
          counted (λ a t, (∃ x, (a, x) ∈ pre ∧ t ∈ NFA.targets x) ∨ (a = s ∧ t ∈ ts)) st ∧
          ∀ t, t ∈ ts → t < lenN states)).
        - intros ts t st3 st4 _ [Hc3 Hr3] Hedge. destruct (count_edge_ok _ s t st3 st4 Hs Hc3 Hedge) as [Hc4 Ht].
          split.
          + eapply counted_ext; [|exact Hc4]. intros a y. simpl. rewrite elem_of_app, list_elem_of_singleton. tauto.
          + intros y [Hy| ->%list_elem_of_singleton]%elem_of_app; auto.
        - split; [|by intros t ?%elem_of_nil]. eapply counted_ext; [|exact Hc]. intros a y. simpl.
          rewrite elem_of_nil. tauto. }
      destruct Hrow' as [Hc' Hr']. split.
      + eapply counted_ext; [|exact Hc']. intros a y. simpl. setoid_rewrite elem_of_app.
        setoid_rewrite list_elem_of_singleton. naive_solver.
      + intros a x' t [Ha|[= -> ->]%list_elem_of_singleton]%elem_of_app Ht; [by eapply Hr|auto].
    - split; [|by intros s x t ?%elem_of_nil]. split; simpl; try apply length_replicate.
      + intros s Hs. rewrite nthN_replicate. rewrite (proj2 (N.ltb_lt _ _)) by done.
        assert (concat (replicate n ([] : list N)) = []) as ->; [|done]. by induction n.
      + intros t l s. rewrite nthN_replicate. case_match; [|done]. intros [= <-]. rewrite elem_of_nil.
        split; [done|]. by intros (x & ?%elem_of_nil & _). }
  destruct Hinv as [Hc Hr]. split.
  - eapply counted_ext; [|exact Hc]. intros s t. unfold known_edge. setoid_rewrite elem_of_enumerate. done.
  - intros s x t Hs. apply (Hr s x t). by apply elem_of_enumerate.
Qed.

Lemma count_edges_total : targets_in_range → is_Some (count_edges nfa).
Proof using.
  intros Hr. unfold count_edges. apply foldM_total. intros [s x] st Hs%elem_of_enumerate.
  apply foldM_total. intros t st' Ht. unfold count_edge.
  destruct (N.leb_spec (lenN states) t) as [Hle|]; [|by eexists]. specialize (Hr s x t Hs Ht). clear Hwidth. lia.
Qed.

(** A vector of the states in which successors come first. *)
Record successors_first (order : list N) : Prop := {
  sf_nodup : NoDup order;
  sf_all : ∀ s, s ∈ order ↔ s < lenN states;
  sf_order : ∀ pre s suf t, order = pre ++ s :: suf → known_edge s t → t ∈ pre;
}.

Section counted.
Context (successors : list N) (predecessors : list (list N)).
Context (Hc : counted known_edge (successors, predecessors)) (Hr : targets_in_range).

Lemma reversed_edge s t : edge predecessors t s ↔ known_edge s t.
Proof using All.
  destruct Hc as [_ H2 _ H4]. simpl in *. unfold edge. split.
  - intros (l & Hl & Hin & _). by apply (H4 t l s Hl).
  - intros Hk. assert (Hs : s < lenN predecessors).
    { destruct Hk as (x & Hx & _). apply nthN_lt in Hx. unfold lenN in *. lia. }
    assert (Ht : t < lenN predecessors) by (destruct Hk as (x & Hx & Hin); specialize (Hr s x t Hx Hin); unfold lenN in *; lia).
    destruct (proj1 (nthN_Some_lt _ _) Ht) as [l Hl]. exists l. split; [done|]. split; [by apply (H4 t l s Hl)|done].
Qed.

Lemma reversed_acyclic : acyclic predecessors ↔ acyclic (NFA.adjacency nfa).
Proof using All.
  assert (Hedge : ∀ s t, edge (NFA.adjacency nfa) s t ↔ edge predecessors t s).
  { intros s t. rewrite reversed_edge. unfold edge, NFA.adjacency, known_edge. rewrite nthN_fmap, lenN_fmap. split.
    - intros (ts & (st & Hst & ->)%fmap_Some & Hin & _). eauto.
    - intros (st & Hst & Hin). exists (NFA.targets st). rewrite Hst. split; [done|]. split; [done|]. by eapply Hr. }
  assert (Hflip : ∀ (R R' : N → N → Prop), (∀ s t, R s t → R' t s) → ∀ s t, tc R s t → tc R' t s).
  { intros R R' HR s t. induction 1 as [s t He|s u t He _ IH]; [by apply tc_once, HR|].
    eapply tc_r; [exact IH|by apply HR]. }
  unfold acyclic. split; intros H s Hs; apply (H s); revert Hs; apply Hflip; intros x y; apply Hedge.
Qed.

Lemma reverse_order_run :
  ∃ order, run (kahn_step predecessors (λ order state, order ++ [state]) N.pred)
      (S n) (successors, as_u32 <$> kahn_queue successors, []) = inr order ∧
    NoDup order ∧ (∀ s, s ∈ order → s < lenN states) ∧
    (∀ pre s suf t, order = pre ++ s :: suf → known_edge s t → t ∈ pre) ∧
    (length order = n ↔ acyclic (NFA.adjacency nfa)).
Proof using All.
  destruct Hc as [H1 H2 H3 H4]. simpl in H1, H2, H3, H4.
  assert (Hq : as_u32 <$> kahn_queue successors = kahn_queue successors).
  { rewrite <-(list_fmap_id (kahn_queue successors)) at 2. apply list_fmap_ext.
    intros i s Hs%list_elem_of_lookup_2. unfold kahn_queue in Hs. apply list_elem_of_filter in Hs as [_ Hs%elem_of_seqN].
    unfold id. apply as_u32_small. unfold lenN in *. lia. }
  rewrite Hq, <-H2.
  destruct (kahn_spec predecessors (λ order state, order ++ [state]) N.pred ltac:(intros; lia) (λ acc V, acc = V)
              ltac:(by intros acc V s ->) successors [] ltac:(congruence)) as (order & V & Hrun & -> & Htop & Hnd & HV).
  { intros t Ht. rewrite remaining_nil. apply H3. unfold lenN in *. lia. }
  { done. }
  unfold kahn in Hrun. destruct (run _ (S _) _) as [|r]; [done|]. injection Hrun as ->.
  exists V. split; [done|]. split; [done|]. split; [|split].
  - intros s Hs. apply HV in Hs as [Hs _]. unfold lenN in *. lia.
  - intros pre s suf t Heq Hk. apply (Htop pre s suf t Heq). by apply reversed_edge.
  - rewrite <-reversed_acyclic. by apply kahn_complete.
Qed.
End counted.

(** The order exists when the edges lead to states and have no cycle. *)
Theorem reverse_topological_order_ok :
  match reverse_topological_order nfa with
  | Some order => successors_first order ∧ targets_in_range ∧ acyclic (NFA.adjacency nfa)
  | None => ¬ (targets_in_range ∧ acyclic (NFA.adjacency nfa))
  end.
Proof using Hwidth.
  unfold reverse_topological_order. destruct (count_edges nfa) as [[successors predecessors]|] eqn:Ec; cbn [mbind option_bind].
  - destruct (count_edges_ok _ Ec) as [Hc Hr].
    destruct (reverse_order_run successors predecessors Hc Hr) as (order & -> & Hnd & Hlt & Hord & Hac).
    destruct (N.eqb_spec (lenN order) (lenN states)) as [Heq|Hne].
    + assert (Hlen : length order = n) by (unfold lenN in Heq; lia).
      split; [|split; [done|by apply Hac]]. split; [done| |done]. intros s. split; [apply Hlt|]. intros Hs.
      destruct (decide (s ∈ order)) as [|Hni]; [done|].
      assert (length (s :: order) ≤ n)%nat; [|simpl in *; lia]. apply NoDup_bounded_length; [by constructor|].
      intros x [->|Hx]%elem_of_cons; [done|]. by apply Hlt.
    + intros [_ H]. apply Hne. apply Hac in H. unfold lenN. lia.
  - intros [Hr _]. destruct (count_edges_total Hr) as [st Hst]. congruence.
Qed.
End order.

Section states.
Context (nfa : NFA.t) (default_label : Z).
Abbreviation states := (NFA.states nfa).
Abbreviation n := (length (NFA.states nfa)).
Abbreviation from := (template_from nfa default_label).

(** Letters are not the default label and include the labels of the rows. *)
Context (letter : Z → Prop) (fresh : Z).
Definition named (l : Z) : Prop := l ≠ default_label ∧ ∃ s, NFA.targets_of nfa s l ≠ [].
Context (Hdefault : ¬ letter default_label) (Hused : ∀ l, named l → letter l).
Context (Hfresh : letter fresh ∧ (0 <= fresh)%Z ∧ ¬ named fresh).

Context (order : list N) (Horder : successors_first nfa order) (Hrange : targets_in_range nfa).

(** ** The languages of the states *)

(** What a state accepts by its labelled edges. *)
Definition labels_from (s : N) (w : list Z) : Prop :=
  match w with
  | [] => False
  | l :: w => ∃ t, template_edge nfa default_label s l t ∧ from t w
  end.

Lemma targets_of_row s st l : states.[s] = Some st → NFA.targets_of nfa s l = default [] (NFAState.transitions st !! l).
Proof using. intros E. unfold NFA.targets_of. by rewrite E. Qed.

Lemma targets_known s l t : t ∈ NFA.targets_of nfa s l → known_edge nfa s t.
Proof using.
  unfold NFA.targets_of, known_edge. destruct (states.[s]) as [st|] eqn:E; [|by intros ?%elem_of_nil].
  destruct (NFAState.transitions st !! l) as [ts|] eqn:El; [|by intros ?%elem_of_nil]. simpl. intros Ht.
  exists st. split; [done|]. unfold NFA.targets. apply elem_of_app. left.
  apply list_elem_of_In, in_concat. exists ts. rewrite <-!list_elem_of_In. split; [|done].
  apply elem_of_bt_values. eauto.
Qed.

Lemma template_known s l t : template_edge nfa default_label s l t → known_edge nfa s t.
Proof using. intros [Ht|[_ Ht]]; by eapply targets_known. Qed.

Lemma eps_known s t : NFA.eps nfa s t → known_edge nfa s t.
Proof using. intros (st & Hst & Ht & _). exists st. split; [done|]. unfold NFA.targets. apply elem_of_app. by right. Qed.

Lemma known_lt s t : known_edge nfa s t → t < lenN states.
Proof using Hrange. intros (st & Hst & Ht). by eapply Hrange. Qed.

Lemma from_cases s st w :
  states.[s] = Some st →
  from s w ↔ (NFAState.is_accepting st = true ∧ w = []) ∨ (∃ t, t ∈ NFAState.epsilons st ∧ from t w) ∨ labels_from s w.
Proof using Hrange.
  intros E. split.
  - destruct 1 as [s Ha|s t w (st' & E' & Ht & _) Hw|s l t w He Hw].
    + left. unfold NFA.is_accepting in Ha. by rewrite E in Ha.
    + right. left. exists t. split; [congruence|done].
    + right. right. by exists t.
  - intros [[Ha ->]|[(t & Ht & Hw)|Hw]].
    + apply template_end. unfold NFA.is_accepting. by rewrite E.
    + eapply template_eps; [|exact Hw]. exists st. split; [done|]. split; [done|]. apply (known_lt s).
      exists st. split; [done|]. unfold NFA.targets. apply elem_of_app. by right.
    + destruct w as [|l w]; [done|]. destruct Hw as (t & He & Hw). by eapply template_label.
Qed.

(** Induction from the targets to the sources. *)
Lemma successors_ind (P : N → Prop) :
  (∀ s, s < lenN states → (∀ t, known_edge nfa s t → P t) → P s) → ∀ s, s < lenN states → P s.
Proof using Horder.
  intros HP. assert (Hall : ∀ k pre suf s, length pre = k → order = pre ++ s :: suf → P s).
  { induction k as [k IH] using lt_wf_ind. intros pre suf s Hk Heq. apply HP.
    - apply (sf_all _ _ Horder). rewrite Heq. apply elem_of_app. right. by left.
    - intros t Ht. pose proof (sf_order _ _ Horder pre s suf t Heq Ht) as Hin.
      apply list_elem_of_split in Hin as (pre1 & suf1 & ->). eapply (IH (length pre1)); [|done|].
      + rewrite length_app in Hk. simpl in Hk. lia.
      + rewrite Heq, <-app_assoc. done. }
  intros s Hs. apply (sf_all _ _ Horder), list_elem_of_split in Hs as (pre & suf & Heq). by eapply Hall.
Qed.

Lemma from_length s w : from s w → ∀ pre suf, order = pre ++ s :: suf → (length w ≤ length pre)%nat.
Proof using Horder.
  assert (Hsplit : ∀ s t pre suf, order = pre ++ s :: suf → known_edge nfa s t →
    ∃ pre1 suf1, order = pre1 ++ t :: suf1 ∧ (length pre1 < length pre)%nat).
  { intros s' t pre suf Heq Hk. pose proof (sf_order _ _ Horder pre s' suf t Heq Hk) as Hin.
    apply list_elem_of_split in Hin as (pre1 & suf1 & ->). exists pre1, (suf1 ++ s' :: suf).
    split; [by rewrite Heq, <-app_assoc|]. rewrite length_app. simpl. lia. }
  induction 1 as [s Ha|s t w He Hw IH|s l t w He Hw IH]; intros pre suf Heq; simpl; [lia| |].
  - destruct (Hsplit s t pre suf Heq (eps_known _ _ He)) as (pre1 & suf1 & Heq1 & Hlt).
    specialize (IH _ _ Heq1). lia.
  - destruct (Hsplit s t pre suf Heq (template_known _ _ _ He)) as (pre1 & suf1 & Heq1 & Hlt).
    specialize (IH _ _ Heq1). lia.
Qed.

Lemma topo_order_length : length order = n.
Proof using Horder.
  apply Nat.le_antisymm.
  - apply NoDup_bounded_length; [apply (sf_nodup _ _ Horder)|]. intros s Hs. by apply (sf_all _ _ Horder).
  - rewrite <-(length_seqN n). apply submseteq_length, NoDup_submseteq; [apply NoDup_seqN|].
    intros s Hs%elem_of_seqN. by apply (sf_all _ _ Horder).
Qed.

(** Words are shorter than the automaton is long. *)
Lemma from_short s w : s < lenN states → from s w → (length w < n)%nat.
Proof using Horder.
  intros Hs Hw. apply (sf_all _ _ Horder), list_elem_of_split in Hs as (pre & suf & Heq).
  pose proof (from_length s w Hw pre suf Heq). rewrite <-topo_order_length, Heq, length_app. simpl. lia.
Qed.

Lemma labels_short s w : s < lenN states → labels_from s w → (length w < n)%nat.
Proof using Horder Hrange.
  intros Hs Hw. apply (from_short s); [done|]. destruct (proj1 (nthN_Some_lt _ _) Hs) as [st E].
  apply (from_cases s st w E). by right; right.
Qed.

(** ** The atoms: the labelled parts of the states, and the empty word *)

Definition atom (i : N) (w : list Z) : Prop := if i <? lenN states then labels_from i w else w = [].

Abbreviation spanned := (spanned letter atom (S n)).
Abbreviation word := (word letter).

Lemma spanned_atom i : i < N.of_nat (S n) → spanned (atom i).
Proof using.
  intros Hi. exists (filter (λ j, j = i) (seqN (S n))). split; [apply filter_sublists|]. intros w _. split.
  - intros Ha. exists i. split; [|done]. apply list_elem_of_filter. split; [done|]. by apply elem_of_seqN.
  - intros (j & Hj & Ha). apply list_elem_of_filter in Hj as [-> _]. done.
Qed.

Lemma spanned_nil : spanned (λ w, w = []).
Proof using.
  eapply spanned_ext; [|apply (spanned_atom (N.of_nat n)); lia]. intros w _. unfold atom, lenN.
  by rewrite N.ltb_irrefl.
Qed.

Lemma spanned_labels s : s < lenN states → spanned (labels_from s).
Proof using.
  intros Hs. eapply spanned_ext; [|apply (spanned_atom s); unfold lenN in Hs; lia]. intros w _. unfold atom.
  by rewrite (proj2 (N.ltb_lt _ _)).
Qed.

Lemma spanned_empty : spanned (λ _, False).
Proof using.
  eapply (spanned_ext letter atom (S n) (λ w, ∃ x : N, x ∈ [] ∧ False)).
  - intros w _. split; [by intros (x & _ & ?)|done].
  - apply (spanned_union letter atom (S n) (λ _ _, False)). by intros x ?%elem_of_nil.
Qed.

Lemma spanned_from s : s < lenN states → spanned (from s).
Proof using Horder Hrange.
  revert s. apply successors_ind. intros s Hs IH. destruct (proj1 (nthN_Some_lt _ _) Hs) as [st E].
  set (parts := (if NFAState.is_accepting st then [λ w, w = []] else []) ++ (from <$> NFAState.epsilons st) ++ [labels_from s]).
  eapply (spanned_ext letter atom (S n) (λ w, ∃ L, L ∈ parts ∧ L w)).
  - intros w _. rewrite (from_cases s st w E). unfold parts. split.
    + intros (L & [HL|[(t & -> & Ht)%list_elem_of_fmap| ->%list_elem_of_singleton]%elem_of_app]%elem_of_app & Hw); [|right; left; eauto|by right; right].
      destruct (NFAState.is_accepting st); [|by apply elem_of_nil in HL]. apply list_elem_of_singleton in HL as ->. by left.
    + intros [[Ha ->]|[(t & Ht & Hw)|Hw]].
      * exists (λ w, w = []). rewrite Ha. split; [|done]. apply elem_of_app. left. by left.
      * exists (from t). split; [|done]. rewrite !elem_of_app. right. left. by apply list_elem_of_fmap_2.
      * exists (labels_from s). split; [|done]. rewrite !elem_of_app. right. right. by left.
  - apply (spanned_union letter atom (S n) (λ L, L)). unfold parts.
    intros L [HL|[(t & -> & Ht)%list_elem_of_fmap| ->%list_elem_of_singleton]%elem_of_app]%elem_of_app.
    + destruct (NFAState.is_accepting st); [|by apply elem_of_nil in HL]. apply list_elem_of_singleton in HL as ->. apply spanned_nil.
    + apply IH. exists st. split; [done|]. unfold NFA.targets. apply elem_of_app. by right.
    + by apply spanned_labels.
Qed.

Lemma spanned_edges s l : letter l → spanned (λ w, ∃ t, template_edge nfa default_label s l t ∧ from t w).
Proof using Horder Hrange.
  clear Hfresh fresh. intros Hl. set (ts := NFA.targets_of nfa s l ++ if (0 <=? l)%Z then NFA.targets_of nfa s default_label else []).
  assert (Hts : ∀ t, t ∈ ts ↔ template_edge nfa default_label s l t).
  { intros t. unfold ts, template_edge. rewrite elem_of_app. destruct (Z.leb_spec 0 l) as [Hp|Hp]; [tauto|].
    rewrite elem_of_nil. split; [tauto|]. intros [?|[? _]]; [tauto|lia]. }
  eapply (spanned_ext letter atom (S n) (λ w, ∃ t, t ∈ ts ∧ from t w)).
  - intros w _. by setoid_rewrite Hts.
  - apply (spanned_union letter atom (S n) from). intros t Ht. apply spanned_from. by eapply known_lt, template_known, Hts.
Qed.

Lemma atom_deriv i l : i < N.of_nat (S n) → letter l → spanned (λ w, atom i (l :: w)).
Proof using Horder Hrange.
  clear Hfresh fresh. intros Hi Hl. unfold atom. destruct (i <? lenN states).
  - by apply spanned_edges.
  - eapply spanned_ext; [|apply spanned_empty]. done.
Qed.
End states.

Section determinize.
Context (nfa : NFA.t) (default_label : Z).
Abbreviation states := (NFA.states nfa).
Abbreviation n := (length (NFA.states nfa)).
Abbreviation from := (template_from nfa default_label).
Abbreviation labels_from := (labels_from nfa default_label).
Abbreviation named := (named nfa default_label).
Abbreviation atom := (atom nfa default_label).

Context (letter : Z → Prop) (fresh : Z).
Context (Hdefault : ¬ letter default_label) (Hused : ∀ l, named l → letter l).
Context (Hfresh : letter fresh ∧ (0 <= fresh)%Z ∧ ¬ named fresh).
Context (order : list N) (Horder : successors_first nfa order) (Hrange : targets_in_range nfa).

Context (node_budget depth_budget : N) (budgeted enough : Prop).
Context (Hwidth : node_budget < u32_modulus).
Context (Henough : enough → N.of_nat (2 ^ S n) ≤ node_budget).
Context (Hdepth : enough → N.of_nat n ≤ depth_budget + 1).

(** The lemmas on builders, for these letters, atoms and budgets. *)
Abbreviation here f := (f letter named fresh Hused Hfresh atom (S n)
  (atom_deriv nfa default_label letter order Horder Hrange) (spanned_nil nfa default_label letter)
  node_budget depth_budget budgeted enough Hwidth Henough).
Abbreviation world_ok := (world_ok letter named atom (S n) node_budget depth_budget budgeted).
Abbreviation wp := (wp (allowed budgeted enough)).
Abbreviation means := (means letter).
Abbreviation nodes_of w := (Builder.nodes (builder w)).
Abbreviation word := (word letter).
Abbreviation union_language w ids := (λ v, union_accepts (nodes_of w) ids v = true).

(** The nodes of a union have languages of short words. *)
Definition parts_ok (w : world) (ids : list N) : Prop :=
  ∀ id, id ∈ ids → ∃ L, means w id L ∧ ∀ v, word v → L v → (length v < n)%nat.

Lemma union_top_ok ids w :
  world_ok w → parts_ok w ids →
  wp (union_top ids) w (λ id w', world_ok w' ∧ grows w w' ∧ means w' id (union_language w ids)).
Proof using All.
  intros Hw Hids. unfold union_top. apply wp_bind, wp_gets. rewrite (bo_depth_budget _ _ _ _ _ _ _ (proj1 Hw)).
  apply (here union_ok); [done| |].
  - intros id Hid. destruct (Hids id Hid) as (L & [Hlt _] & _). done.
  - intros He id v Hid Hv Ha. destruct (Hids id Hid) as (L & [_ HL] & Hs).
    apply HL in Ha; [|done]. specialize (Hs v Hv Ha). specialize (Hdepth He). lia.
Qed.

(** A union of nodes that have the languages of things. *)
Lemma union_means {A} (w : world) (l : list A) (node : A → N) (L : A → list Z → Prop) v :
  (∀ x, x ∈ l → means w (node x) (L x)) → word v → union_language w (node <$> l) v ↔ ∃ x, x ∈ l ∧ L x v.
Proof using All.
  intros Hl Hv. cbv beta. unfold union_accepts. rewrite existsb_exists. setoid_rewrite <-list_elem_of_In.
  setoid_rewrite list_elem_of_fmap. split.
  - intros (id & (x & -> & Hx) & Ha). exists x. split; [done|]. by apply (Hl x Hx).
  - intros (x & Hx & HL). exists (node x). split; [eauto|]. by apply (Hl x Hx).
Qed.

(** ** The nodes of the states done so far *)

Definition node_of (canonical : list N) (t : N) : N := default 0 canonical.[t].

Definition canon (pre : list N) (canonical : list N) (w : world) : Prop :=
  length canonical = n ∧ ∀ s, s ∈ pre → means w (node_of canonical s) (from s).

Lemma index_node canonical t w :
  length canonical = n → t < lenN states → index canonical t w = (inr (node_of canonical t), w).
Proof using All.
  intros Hl Ht. unfold index, node_of.
  assert (Ht' : t < lenN canonical) by (unfold lenN in *; lia).
  by destruct (proj1 (nthN_Some_lt _ _) Ht') as [id ->].
Qed.

Lemma canon_grows pre canonical w w' : world_ok w → grows w w' → canon pre canonical w → canon pre canonical w'.
Proof using All. intros Hw Hg [Hl Hm]. split; [done|]. intros s Hs. apply (here means_grows w w'); auto. Qed.

Section state.
Context (s : N) (data : NFAState.t) (Hs : states.[s] = Some data).
Context (pre suf : list N) (Hpre : order = pre ++ s :: suf).
Context (canonical : list N).

Lemma target_done t : known_edge nfa s t → t ∈ pre ∧ t < lenN states.
Proof using All.
  intros Hk. split; [by apply (sf_order _ _ Horder pre s suf t Hpre)|].
  by apply (known_lt nfa Hrange s).
Qed.

Lemma known_transition l ts t : NFAState.transitions data !! l = Some ts → t ∈ ts → known_edge nfa s t.
Proof using All.
  intros Hl Ht. apply (targets_known nfa s l). rewrite (targets_of_row nfa s data l Hs), Hl. done.
Qed.

Lemma known_epsilon t : t ∈ NFAState.epsilons data → known_edge nfa s t.
Proof using All. intros Ht. exists data. split; [done|]. unfold NFA.targets. apply elem_of_app. by right. Qed.

(** The rows of the state with nodes for targets. *)
Definition rows_of : list (Z * list N) := filter (λ r, r.2 ≠ []) (label_iter (NFAState.transitions data)).
Definition node_rows : list (Z * list N) := (λ r : Z * list N, (r.1, node_of canonical <$> r.2)) <$> rows_of.

Lemma elem_of_rows_of l ts : (l, ts) ∈ rows_of ↔ NFAState.transitions data !! l = Some ts ∧ ts ≠ [].
Proof using All. unfold rows_of. rewrite list_elem_of_filter, elem_of_bt_iter. simpl. tauto. Qed.

Lemma rows_of_NoDup : NoDup rows_of.*1.
Proof using All.
  unfold rows_of. pose proof (NoDup_bt_keys Z.le (NFAState.transitions data)) as Hnd. unfold bt_keys in Hnd.
  eapply sublist_NoDup; [exact Hnd|]. apply fmap_sublist, sublist_filter.
Qed.

Lemma collect_rows w :
  length canonical = n →
  collect (λ '(label, targets), bind (collect (index canonical) targets) (λ children, ret (label, children))) rows_of w =
  (inr node_rows, w).
Proof using All.
  intros Hl. unfold node_rows. apply collect_eq. intros [l ts] Hin%elem_of_rows_of. unfold bind.
  rewrite (collect_eq _ (node_of canonical)); [done|]. intros t Ht. apply index_node; [done|].
  apply target_done. eapply known_transition; [apply Hin|done].
Qed.

Lemma elem_of_node_rows l ids :
  (l, ids) ∈ node_rows ↔ ∃ ts, NFAState.transitions data !! l = Some ts ∧ ts ≠ [] ∧ ids = node_of canonical <$> ts.
Proof using All.
  unfold node_rows. rewrite list_elem_of_fmap. split.
  - intros ([l' ts] & [= -> ->] & [Hts Hne]%elem_of_rows_of). eauto.
  - intros (ts & Hts & Hne & ->). exists (l, ts). split; [done|]. by apply elem_of_rows_of.
Qed.

(** The default row. *)
Definition default_row : list N := concat (filter (λ r, r.1 = default_label) node_rows).*2.

Lemma elem_of_default_row id :
  id ∈ default_row ↔ ∃ t, t ∈ NFA.targets_of nfa s default_label ∧ id = node_of canonical t.
Proof using All.
  unfold default_row. rewrite list_elem_of_In, in_concat. setoid_rewrite <-list_elem_of_In.
  rewrite (targets_of_row nfa s data _ Hs). split.
  - intros (ids & ([l ids'] & -> & Hin)%list_elem_of_fmap & Hid).
    apply list_elem_of_filter in Hin as [Hl (ts & Hts & _ & Hids)%elem_of_node_rows]. simpl in Hl, Hid.
    rewrite <-Hl, Hts. rewrite Hids in Hid. apply list_elem_of_fmap in Hid as (t & -> & Ht). eauto.
  - intros (t & Ht & ->). destruct (NFAState.transitions data !! default_label) as [ts|] eqn:E; [|by apply elem_of_nil in Ht].
    simpl in Ht. exists (node_of canonical <$> ts). split; [|by apply list_elem_of_fmap_2].
    apply list_elem_of_fmap. exists (default_label, node_of canonical <$> ts). split; [done|].
    apply list_elem_of_filter. split; [done|]. apply elem_of_node_rows. exists ts. split; [done|]. split; [|done].
    intros ->. by apply elem_of_nil in Ht.
Qed.

(** What the state accepts after a letter. *)
Definition after (l : Z) (v : list Z) : Prop := ∃ t, template_edge nfa default_label s l t ∧ from t v.

Lemma after_fresh v : after fresh v ↔ ∃ t, t ∈ NFA.targets_of nfa s default_label ∧ from t v.
Proof using All.
  pose proof Hfresh as (Hl & Hpos & Hnot). unfold after, template_edge. split.
  - intros (t & [Ht|[_ Ht]] & Hv); [|eauto]. exfalso. apply Hnot. split; [by intros Heq; apply Hdefault; rewrite <-Heq|].
    exists s. intros Hnil. rewrite Hnil in Ht. by apply elem_of_nil in Ht.
  - intros (t & Ht & Hv). exists t. split; [right; done|done].
Qed.

Lemma after_mono x v : named x → (0 <= x)%Z → word v → after fresh v → after x v.
Proof using All. intros _ Hx _ (t & Ht & Hv)%after_fresh. exists t. split; [by right|done]. Qed.

Context (w0 : world) (Hw0 : world_ok w0) (Hcanon : canon pre canonical w0).

Lemma target_means t w : grows w0 w → known_edge nfa s t → means w (node_of canonical t) (from t).
Proof using All.
  intros Hg Hk. apply (here means_grows w0 w); [done|done|]. apply Hcanon. by apply target_done.
Qed.

Lemma targets_parts ids w :
  grows w0 w → (∀ id, id ∈ ids → ∃ t, known_edge nfa s t ∧ id = node_of canonical t) → parts_ok w ids.
Proof using All.
  intros Hg Hids id Hid. destruct (Hids id Hid) as (t & Hk & ->). exists (from t).
  split; [by apply target_means|]. intros v _ Hv. eapply from_short; [done|apply (target_done t Hk)|done].
Qed.

Lemma default_row_ok :
  wp (union_top default_row) w0 (λ d w, world_ok w ∧ grows w0 w ∧ means w d (after fresh)).
Proof using All.
  assert (Hk : ∀ t, t ∈ NFA.targets_of nfa s default_label → known_edge nfa s t) by (intros t; apply targets_known).
  eapply wp_mono; [|apply union_top_ok; [done|]].
  - intros d w (Hw & Hg & Hm). split; [done|]. split; [done|]. eapply (here means_ext); [|exact Hm]. intros v Hv.
    rewrite after_fresh. cbv beta. unfold union_accepts. rewrite existsb_exists. setoid_rewrite <-list_elem_of_In.
    setoid_rewrite elem_of_default_row. split.
    + intros (id & (t & Ht & ->) & Ha). exists t. split; [done|]. by apply (target_means t w0 (builder_grows_refl w0) (Hk t Ht)).
    + intros (t & Ht & Hv'). exists (node_of canonical t). split; [eauto|].
      by apply (target_means t w0 (builder_grows_refl w0) (Hk t Ht)).
  - apply targets_parts; [apply builder_grows_refl|]. intros id (t & Ht & ->)%elem_of_default_row. eauto.
Qed.

(** One explicit row. *)
Lemma explicit_row_ok d pres ts l targets w :
  built_row letter named fresh atom (S n) node_budget depth_budget budgeted after w0 d pres ts w →
  NFAState.transitions data !! l = Some targets → targets ≠ [] → l ≠ default_label → l ∉ pres →
  wp (explicit_row d ts (l, node_of canonical <$> targets)) w
    (built_row letter named fresh atom (S n) node_budget depth_budget budgeted after w0 d (pres ++ [l])).
Proof using All.
  intros Hrow Hl Hne Hld Hni. pose proof (br_ok _ _ _ _ _ _ _ _ _ _ _ _ _ _ Hrow) as Hw.
  pose proof (br_grows _ _ _ _ _ _ _ _ _ _ _ _ _ _ Hrow) as Hg.
  pose proof (br_default _ _ _ _ _ _ _ _ _ _ _ _ _ _ Hrow) as Hd.
  assert (Htgt : NFA.targets_of nfa s l = targets) by (rewrite (targets_of_row nfa s data l Hs), Hl; done).
  assert (Hk : ∀ t, t ∈ targets → known_edge nfa s t) by (intros t; by eapply known_transition).
  assert (Hnamed : named l) by (split; [done|]; exists s; by rewrite Htgt).
  unfold explicit_row. set (children := if (0 <=? l)%Z && negb (d =? 0) then _ else _). apply wp_bind.
  eapply wp_mono; [|apply union_top_ok; [exact Hw|]].
  - intros c w' (Hw' & Hg' & Hm). apply wp_ret. eapply (here built_row_step); try done; [apply after_mono|].
    eapply (here means_ext); [|exact Hm]. intros v Hv.
    assert (Hu : union_language w (node_of canonical <$> targets) v ↔ ∃ t, t ∈ targets ∧ from t v).
    { apply union_means; [|done]. intros t Ht. apply target_means; auto. }
    assert (Hchild : union_language w children v ↔ (∃ t, t ∈ targets ∧ from t v) ∨ ((0 <= l)%Z ∧ after fresh v)).
    { rewrite <-Hu, <-(proj2 Hd v Hv). cbv beta. unfold children, union_accepts.
      destruct (Z.leb_spec 0 l) as [Hp|Hp]; simpl; [|split; [by left|by intros [?|[? _]]; [done|lia]]].
      destruct (N.eqb_spec d 0) as [->|Hd0]; simpl.
      - rewrite (dead_node letter named) by apply (bo_nodes _ _ _ _ _ _ _ (proj1 Hw)).
        split; [by left|by intros [?|[_ ?]]].
      - rewrite existsb_app, orb_true_iff. simpl. rewrite orb_false_r. tauto. }
    rewrite Hchild, after_fresh. unfold after, template_edge. rewrite Htgt. split.
    + intros [(t & Ht & Hv')|(Hp & t & Ht & Hv')]; exists t; auto.
    + intros (t & [Ht|[Hp Ht]] & Hv'); [left|right]; eauto.
  - assert (Hall : ∀ id, id ∈ children → id = d ∨ ∃ t, known_edge nfa s t ∧ id = node_of canonical t).
    { assert (Hn : ∀ id, id ∈ node_of canonical <$> targets → ∃ t, known_edge nfa s t ∧ id = node_of canonical t).
      { intros id (t & -> & Ht)%list_elem_of_fmap. eauto. }
      unfold children. intros id. destruct (_ && _); [|by right; apply Hn].
      intros [Hid|Hid%list_elem_of_singleton]%elem_of_app; [right; by apply Hn|by left]. }
    intros id Hid. destruct (Hall id Hid) as [->|(t & Hkt & ->)].
    + exists (after fresh). split; [done|]. intros v _ (t & Ht & Hv)%after_fresh.
      eapply from_short; [done| |exact Hv]. eapply (known_lt nfa Hrange s), targets_known, Ht.
    + exists (from t). split; [by apply target_means|]. intros v _ Hv.
      eapply from_short; [done|apply (target_done t Hkt)|exact Hv].
Qed.

(** The labelled part of the state. *)
Definition labels_node_of : M N :=
  bind (union_top default_row) (λ d,
  bind (for_each (explicit_row d) [] (filter (λ r, r.1 ≠ default_label) node_rows)) (λ ts, intern false d ts)).

Lemma explicit_rows_ok d w :
  world_ok w → grows w0 w → means w d (after fresh) →
  wp (for_each (explicit_row d) [] (filter (λ r, r.1 ≠ default_label) node_rows)) w
    (built_row letter named fresh atom (S n) node_budget depth_budget budgeted after w0 d
      (filter (λ r, r.1 ≠ default_label) node_rows).*1).
Proof using All.
  intros Hw Hg Hd.
  apply (wp_for_each _ (λ pres, built_row letter named fresh atom (S n) node_budget depth_budget budgeted after w0 d pres.*1)).
  - intros pres [l ids] ts w' [rest Hsplit] Hrow.
    assert (Hin : (l, ids) ∈ filter (λ r, r.1 ≠ default_label) node_rows) by (rewrite Hsplit; apply elem_of_app; right; by left).
    apply list_elem_of_filter in Hin as [Hld Hin]. simpl in Hld.
    apply elem_of_node_rows in Hin as (targets & Hl & Hne & ->).
    rewrite fmap_app. simpl. apply explicit_row_ok; [done|done|done|done|].
    assert (Hnd : NoDup (filter (λ r, r.1 ≠ default_label) node_rows).*1).
    { eapply (sublist_NoDup _ node_rows.*1); [|apply fmap_sublist, sublist_filter].
      unfold node_rows. rewrite <-list_fmap_compose. unfold compose. simpl. apply rows_of_NoDup. }
    rewrite Hsplit, fmap_app in Hnd. apply NoDup_app in Hnd as (_ & Hdis & _). intros Hin. apply (Hdis l Hin). by left.
  - by apply (here built_row_start); [apply after_mono|..].
Qed.

Lemma labels_node_ok :
  wp labels_node_of w0 (λ id w, world_ok w ∧ grows w0 w ∧ means w id (labels_from s)).
Proof using All.
  unfold labels_node_of. apply wp_bind. eapply wp_mono; [|apply default_row_ok]. intros d w1 (Hw1 & Hg1 & Hd).
  apply wp_bind. eapply wp_mono; [|by apply explicit_rows_ok]. intros ts w2 Hrow.
  assert (Hrows : ∀ l v, word (l :: v) → row_accepts (nodes_of w2) false d ts (l :: v) = true ↔ after l v).
  { intros l v [Hl Hv]%Forall_cons. eapply (here built_row_accepts); [apply after_mono|exact Hrow| |done].
    intros Hni. rewrite after_fresh. unfold after, template_edge.
    assert (Hnil : NFA.targets_of nfa s l = []).
    { rewrite (targets_of_row nfa s data l Hs). destruct (NFAState.transitions data !! l) as [targets|] eqn:E; [|done].
      simpl. destruct targets as [|t targets]; [done|]. destruct Hni. apply list_elem_of_fmap.
      exists (l, node_of canonical <$> (t :: targets)). split; [done|]. apply list_elem_of_filter.
      split; [simpl; intros Heq; apply Hdefault; by rewrite <-Heq|]. apply elem_of_node_rows. by exists (t :: targets). }
    rewrite Hnil. split.
    - intros (t & [Ht|[Hp Ht]] & Hv'); [by apply elem_of_nil in Ht|]. eauto.
    - intros (Hp & t & Ht & Hv'). eauto. }
  assert (Hlang : ∀ v, word v → row_accepts (nodes_of w2) false d ts v = true ↔ labels_from s v).
  { intros [|l v] Hv; [done|]. by apply Hrows. }
  eapply wp_mono; [|apply (here row_intern_ok); [apply Hrow|apply Hrow|]].
  - intros id w3 (Hw3 & Hg3 & Hm). split; [done|]. split; [eapply builder_grows_trans; [apply Hrow|done]|].
    eapply (here means_ext); [|exact Hm]. exact Hlang.
  - eapply spanned_ext; [|apply (spanned_labels nfa default_label letter s); by eapply nthN_lt].
    intros v Hv. symmetry. by apply Hlang.
Qed.

(** The parts of the state: the end of a word, the epsilon targets, the
    labelled part. *)
Lemma accept_part_ok w :
  world_ok w →
  wp (if NFAState.is_accepting data then bind accept_node (λ node, ret [node]) else ret []) w
    (λ ids w', world_ok w' ∧ grows w w' ∧
      if NFAState.is_accepting data then ∃ id, ids = [id] ∧ means w' id (λ v, v = []) else ids = []).
Proof using All.
  intros Hw. destruct (NFAState.is_accepting data).
  - apply wp_bind. eapply wp_mono; [|by apply (here accept_node_ok)]. intros node w' (Hw' & Hg & Hm). apply wp_ret. eauto.
  - apply wp_ret. split; [done|]. split; [apply builder_grows_refl|done].
Qed.

Lemma state_parts_ok labels_node w :
  world_ok w → grows w0 w → means w labels_node (labels_from s) →
  wp (state_parts canonical data labels_node) w (λ parts w',
    world_ok w' ∧ grows w w' ∧ parts_ok w' parts ∧ ∀ v, word v → union_language w' parts v ↔ from s v).
Proof using All.
  intros Hw Hg Hlab. pose proof (nthN_lt _ _ _ Hs) as Hsl. unfold state_parts. apply wp_bind.
  eapply wp_mono; [|by apply accept_part_ok]. intros acc w1 (Hw1 & Hg1 & Hacc).
  apply wp_bind. eapply wp_eq.
  { apply (collect_eq _ (node_of canonical)). intros t Ht%known_epsilon. apply index_node; [apply Hcanon|].
    by apply target_done. }
  apply wp_ret. assert (Hg01 : grows w0 w1) by (by eapply builder_grows_trans).
  pose proof (here means_grows w w1 _ _ Hw Hg1 Hlab) as Hlab1.
  assert (Heps : ∀ t, t ∈ NFAState.epsilons data → means w1 (node_of canonical t) (from t)).
  { intros t Ht. apply target_means; [done|by apply known_epsilon]. }
  set (labs := if labels_node =? 0 then [] else [labels_node]).
  assert (Hlabs : ∀ id, id ∈ labs → id = labels_node).
  { unfold labs. intros id. destruct (labels_node =? 0); [by intros ?%elem_of_nil|by intros ?%list_elem_of_singleton]. }
  split; [done|]. split; [done|]. split.
  - intros id [Hid|[(t & -> & Ht)%list_elem_of_fmap|Hid%Hlabs]%elem_of_app]%elem_of_app.
    + destruct (NFAState.is_accepting data); [|subst acc; by apply elem_of_nil in Hid].
      destruct Hacc as (id' & -> & Hm). apply list_elem_of_singleton in Hid as ->.
      exists (λ v, v = []). split; [done|]. intros v _ ->. simpl. unfold lenN in Hsl. lia.
    + exists (from t). split; [auto|]. intros v _ Hv. eapply from_short; [done|apply (target_done t), known_epsilon, Ht|done].
    + subst id. exists (labels_from s). split; [done|]. intros v _ Hv. eapply labels_short; done.
  - intros v Hv. rewrite (from_cases nfa default_label Hrange s data v Hs). cbv beta. unfold union_accepts.
    rewrite !existsb_app, !orb_true_iff.
    pose proof (union_means w1 (NFAState.epsilons data) (node_of canonical) from v Heps Hv) as Hu.
    cbv beta in Hu. unfold union_accepts in Hu. rewrite Hu.
    assert (Hl : existsb (λ id, node_accepts (nodes_of w1) id v) labs = true ↔ labels_from s v).
    { rewrite <-(proj2 Hlab1 v Hv). unfold labs. destruct (N.eqb_spec labels_node 0) as [->|]; simpl.
      - by rewrite (dead_node letter named) by apply (bo_nodes _ _ _ _ _ _ _ (proj1 Hw1)).
      - by rewrite orb_false_r. }
    rewrite Hl. assert (Ha : existsb (λ id, node_accepts (nodes_of w1) id v) acc = true ↔ NFAState.is_accepting data = true ∧ v = []).
    { destruct (NFAState.is_accepting data).
      - destruct Hacc as (id & -> & Hm). simpl. rewrite orb_false_r, (proj2 Hm v Hv). tauto.
      - subst acc. simpl. split; [done|]. by intros [? _]. }
    rewrite Ha. tauto.
Qed.

Lemma labels_node_bind {A} (K : N → M A) w :
  bind labels_node_of K w =
  bind (union_top default_row) (λ d,
  bind (for_each (explicit_row d) [] (filter (λ r, r.1 ≠ default_label) node_rows)) (λ ts,
  bind (intern false d ts) K)) w.
Proof using All.
  unfold labels_node_of, bind. destruct (union_top default_row w) as [[e|d] w1]; [done|].
  by destruct (for_each _ _ _ w1) as [[e|ts] w2].
Qed.

(** What is done with the state once its row is charged. *)
Definition state_node : M (list N) :=
  bind (collect (λ '(label, targets), bind (collect (index canonical) targets) (λ children, ret (label, children))) rows_of)
    (λ rows, let '(default_targets, explicit) := split_row default_label rows in
  bind (union_top default_targets) (λ d,
  bind (for_each (explicit_row d) [] explicit) (λ ts,
  bind (intern false d ts) (λ labels_node,
  bind (state_parts canonical data labels_node) (λ parts,
  bind (union_top parts) (λ node, ret (alterN (λ _, node) canonical s))))))).

Lemma state_node_ok :
  wp state_node w0 (λ canonical' w, world_ok w ∧ grows w0 w ∧ canon (pre ++ [s]) canonical' w).
Proof using All.
  unfold state_node. apply wp_bind. eapply wp_eq; [apply collect_rows, Hcanon|]. cbn [split_row].
  pose proof (labels_node_bind (λ labels_node, bind (state_parts canonical data labels_node) (λ parts,
    bind (union_top parts) (λ node, ret (alterN (λ _, node) canonical s)))) w0) as Hassoc.
  unfold default_row in Hassoc. unfold DefaultBuilder.wp. rewrite <-Hassoc. clear Hassoc.
  change (wp (bind labels_node_of (λ labels_node, bind (state_parts canonical data labels_node) (λ parts,
    bind (union_top parts) (λ node, ret (alterN (λ _, node) canonical s))))) w0
    (λ canonical' w, world_ok w ∧ grows w0 w ∧ canon (pre ++ [s]) canonical' w)).
  apply wp_bind. eapply wp_mono; [|apply labels_node_ok]. intros labels_node w1 (Hw1 & Hg1 & Hlab).
  apply wp_bind. eapply wp_mono; [|by apply state_parts_ok]. intros parts w2 (Hw2 & Hg2 & Hparts & Hlang).
  apply wp_bind. eapply wp_mono; [|by apply union_top_ok]. intros node w3 (Hw3 & Hg3 & Hm). apply wp_ret.
  assert (Hg : grows w0 w3) by (eapply builder_grows_trans; [exact Hg1|by eapply builder_grows_trans]).
  pose proof (canon_grows _ _ _ _ Hw0 Hg Hcanon) as [Hlen Hall]. split; [done|]. split; [done|]. split; [by rewrite length_alterN|].
  intros t Ht. unfold node_of. rewrite nthN_alterN. destruct (N.eqb_spec t s) as [->|Hne].
  - assert (Hsl : s < lenN canonical) by (apply nthN_lt in Hs; unfold lenN in *; lia).
    destruct (proj1 (nthN_Some_lt _ _) Hsl) as [x ->]. simpl. eapply (here means_ext); [|exact Hm]. exact Hlang.
  - apply elem_of_app in Ht as [Ht| ->%list_elem_of_singleton]; [by apply Hall|done].
Qed.
End state.

Lemma determinize_state_ok s pre suf canonical w :
  order = pre ++ s :: suf → world_ok w → canon pre canonical w →
  wp (determinize_state nfa default_label canonical s) w (λ canonical' w',
    world_ok w' ∧ grows w w' ∧ canon (pre ++ [s]) canonical' w').
Proof using All.
  intros Hsplit Hw Hc.
  assert (Hs : s < lenN states) by (apply (sf_all _ _ Horder); rewrite Hsplit; apply elem_of_app; right; by left).
  destruct (proj1 (nthN_Some_lt _ _) Hs) as [data Hdata].
  unfold determinize_state. apply wp_bind. eapply wp_index; [exact Hdata|]. apply wp_bind.
  apply (here wp_charge); [|done]. intros w1 Hb Hw1.
  assert (Hg : grows w w1) by (exists []; by rewrite Hb, app_nil_r).
  pose proof (canon_grows _ _ _ _ Hw Hg Hc) as Hc1.
  eapply wp_mono; [|exact (state_node_ok s data Hdata pre suf Hsplit canonical w1 Hw1 Hc1)].
  intros canonical' w' (Hw' & Hg' & Hc'). split; [done|]. split; [by eapply builder_grows_trans|done].
Qed.

(** The nodes of all states, then the node of the start. *)
Definition start_node : M N :=
  bind (for_each (determinize_state nfa default_label) (replicate n 0) order) (λ canonical,
  bind (collect (index canonical) (NFA.start_states nfa)) union_top).

Lemma start_node_ok w :
  world_ok w → (∀ s, s ∈ NFA.start_states nfa → s < lenN states) →
  wp start_node w (λ id w', world_ok w' ∧ grows w w' ∧ means w' id (template_accepts nfa default_label)).
Proof using All.
  intros Hw Hstarts. unfold start_node. apply wp_bind.
  eapply wp_mono; [|apply (wp_for_each _ (λ pre canonical w', world_ok w' ∧ grows w w' ∧ canon pre canonical w'))].
  - intros canonical w1 (Hw1 & Hg1 & Hc).
    assert (Hm : ∀ s, s ∈ NFA.start_states nfa → means w1 (node_of canonical s) (from s)).
    { intros s Hs. by apply Hc, (sf_all _ _ Horder), Hstarts. }
    apply wp_bind. eapply wp_eq.
    { apply (collect_eq _ (node_of canonical)). intros s Hs. apply index_node; [apply Hc|auto]. }
    eapply wp_mono; [|apply union_top_ok; [done|]].
    + intros id w2 (Hw2 & Hg2 & Hid). split; [done|]. split; [by eapply builder_grows_trans|].
      eapply (here means_ext); [|exact Hid]. intros v Hv.
      rewrite (union_means w1 (NFA.start_states nfa) (node_of canonical) from v Hm Hv). done.
    + intros id (s & -> & Hs)%list_elem_of_fmap. exists (from s). split; [auto|].
      intros v _ Hv. eapply from_short; [done|by apply Hstarts|done].
  - intros pre s canonical w1 [suf Hsplit] (Hw1 & Hg1 & Hc).
    eapply wp_mono; [|by eapply determinize_state_ok]. intros canonical' w2 (Hw2 & Hg2 & Hc2).
    split; [done|]. split; [by eapply builder_grows_trans|done].
  - split; [done|]. split; [apply builder_grows_refl|]. split; [apply length_replicate|]. by intros s ?%elem_of_nil.
Qed.

(** The empty builder. *)
Lemma new_builder_ok h :
  (is_Some h → budgeted) → world_ok (World (Builder.new node_budget depth_budget) h).
Proof using All.
  intros Hh. split; [|done]. split; simpl; try done.
  - split; simpl; [done| |].
    + intros id m Hid. destruct (N.eqb_spec id 0); [lia|done].
    + intros i j m. destruct (N.eqb_spec i 0) as [->|], (N.eqb_spec j 0) as [->|]; done.
  - intros acc default ts id. rewrite lookup_empty. split; [done|]. intros [Hid Hi].
    destruct (N.eqb_spec id 0); [lia|done].
  - intros id Hid. assert (id = 0) as -> by (unfold lenN in Hid; simpl in Hid; lia).
    eapply spanned_ext; [|apply (spanned_empty nfa default_label letter)].
    intros v _. split; [done|]. intros Ha. cbv beta in Ha.
    assert (Hd : ∀ v, node_accepts [Node.mk false 0 []] 0 v = false); [|by rewrite Hd in Ha].
    induction v0 as [|l v0 IH]; [done|]. simpl. unfold target_at. simpl. unfold Node.target. simpl. by case_match.
Qed.
End determinize.
