(* ===== verification/DefaultMaterialize.v ===== *)
(** The automaton of a node: one state for each node that can be reached, and
    the states accept what the nodes accept when the default is followed. *)

From S2P Require Import Prelude Graph Dfa Nfa Explore DefaultRows DefaultNodes.

(** * Runs with default rows *)

Definition default_from (default_label : Z) (d : DFA.t) (q : N) (w : list Z) : bool :=
  match default_run default_label d q w with Some q' => DFA.accepting d q' | None => false end.

Lemma default_run_app default_label d q v w :
  default_run default_label d q (v ++ w) = q' ← default_run default_label d q v; default_run default_label d q' w.
Proof. revert q. induction v as [|l v IH]; intros q; simpl; [done|]. by destruct (default_step _ d q l); simpl. Qed.

Lemma default_from_app default_label d q v w :
  default_from default_label d q (v ++ w) =
  match default_run default_label d q v with Some q' => default_from default_label d q' w | None => false end.
Proof. unfold default_from. rewrite default_run_app. by destruct (default_run _ d q v). Qed.

Lemma default_from_out default_label d q w : lenN (DFA.states d) ≤ q → default_from default_label d q w = false.
Proof.
  intros Hq. assert (E : (DFA.states d).[q] = None) by (by apply nthN_None).
  unfold default_from. destruct w as [|l w]; simpl.
  - unfold DFA.accepting. by rewrite E.
  - unfold default_step, DFA.delta. rewrite E. simpl. by destruct (0 <=? l)%Z.
Qed.

(** Every state is reached by a word and accepts one, and words tell the states
    apart. *)
Record default_reduced (letter : Z → Prop) (default_label : Z) (d : DFA.t) : Prop := {
  dr_reached : ∀ q, q < lenN (DFA.states d) →
    ∃ w, word letter w ∧ default_run default_label d (DFA.start_state d) w = Some q;
  dr_live : ∀ q, q < lenN (DFA.states d) → ∃ w, word letter w ∧ default_from default_label d q w = true;
  dr_distinct : ∀ q q', q < lenN (DFA.states d) → q' < lenN (DFA.states d) →
    (∀ w, word letter w → default_from default_label d q w = default_from default_label d q' w) → q = q';
}.

Lemma default_reaching letter default_label d (l : list N) :
  (∀ q, q ∈ l → ∃ w, word letter w ∧ default_run default_label d (DFA.start_state d) w = Some q) →
  ∃ ws, Forall2 (λ q w, word letter w ∧ default_run default_label d (DFA.start_state d) w = Some q) l ws.
Proof.
  induction l as [|q l IH]; intros Hl; [by exists []|]. destruct (Hl q) as (w & Hw); [by left|].
  destruct IH as [ws Hws]; [intros; apply Hl; by right|]. exists (w :: ws). by constructor.
Qed.

(** No automaton with the same words has fewer states. *)
Lemma default_reduced_smallest letter default_label d d' :
  default_reduced letter default_label d →
  (∀ w, word letter w → default_accepts default_label d' w = default_accepts default_label d w) →
  (length (DFA.states d) ≤ length (DFA.states d'))%nat.
Proof.
  intros [Hreach Hlive Hdist] Heq.
  destruct (default_reaching letter default_label d (seqN (length (DFA.states d)))) as [ws Hws].
  { intros q Hq%elem_of_seqN. by apply Hreach. }
  assert (Hq : ∀ q, q ∈ seqN (length (DFA.states d)) → q < lenN (DFA.states d)) by (intros q; apply elem_of_seqN).
  assert (Himg : ∀ q w, q < lenN (DFA.states d) → word letter w →
    default_run default_label d (DFA.start_state d) w = Some q →
    ∃ q', default_run default_label d' (DFA.start_state d') w = Some q' ∧ q' < lenN (DFA.states d') ∧
      ∀ v, word letter v → default_from default_label d q v = default_from default_label d' q' v).
  { intros q w Hql Hw Hrun.
    assert (Hv : ∀ v, word letter v → default_from default_label d q v =
      match default_run default_label d' (DFA.start_state d') w with
      | Some q' => default_from default_label d' q' v | None => false end).
    { intros v Hv. specialize (Heq (w ++ v)). rewrite <-default_from_app.
      change (default_from default_label d' (DFA.start_state d') (w ++ v)) with (default_accepts default_label d' (w ++ v)).
      rewrite Heq by (by apply Forall_app).
      change (default_accepts default_label d (w ++ v)) with (default_from default_label d (DFA.start_state d) (w ++ v)).
      by rewrite default_from_app, Hrun. }
    destruct (Hlive q Hql) as (v & Hvw & Hva). rewrite (Hv v Hvw) in Hva.
    destruct (default_run default_label d' _ w) as [q'|]; [|done]. exists q'. split; [done|]. split; [|done].
    destruct (decide (q' < lenN (DFA.states d'))) as [|Hge]; [done|]. rewrite default_from_out in Hva; [done|lia]. }
  set (img := (λ w, default 0 (default_run default_label d' (DFA.start_state d') w)) <$> ws).
  assert (Hlen : length img = length (DFA.states d)).
  { unfold img. rewrite length_fmap, <-(Forall2_length _ _ _ Hws). apply length_seqN. }
  rewrite <-Hlen. apply NoDup_bounded_length.
  - apply NoDup_alt. intros i j x Hi Hj. unfold img in Hi, Hj. rewrite list_lookup_fmap in Hi, Hj.
    destruct (ws !! i) as [wi|] eqn:Ei; [|done]. destruct (ws !! j) as [wj|] eqn:Ej; [|done].
    destruct (Forall2_lookup_r _ _ _ _ _ Hws Ei) as (qi & Hqi & Hwi & Hri).
    destruct (Forall2_lookup_r _ _ _ _ _ Hws Ej) as (qj & Hqj & Hwj & Hrj).
    pose proof (Hq qi (list_elem_of_lookup_2 _ _ _ Hqi)) as Hqil.
    pose proof (Hq qj (list_elem_of_lookup_2 _ _ _ Hqj)) as Hqjl.
    destruct (Himg qi wi Hqil Hwi Hri) as (qi' & Hi' & _ & Hli).
    destruct (Himg qj wj Hqjl Hwj Hrj) as (qj' & Hj' & _ & Hlj).
    simpl in Hi, Hj. rewrite Hi' in Hi. rewrite Hj' in Hj. injection Hi as ->. injection Hj as ->. simpl in *.
    assert (qi = qj) as -> by (apply Hdist; [done|done|]; intros v Hv; by rewrite Hli, Hlj).
    by eapply (NoDup_lookup _ i j); [apply NoDup_seqN|..].
  - intros x (w & -> & Hw)%list_elem_of_fmap. apply list_elem_of_lookup in Hw as [i Hi].
    destruct (Forall2_lookup_r _ _ _ _ _ Hws Hi) as (q & Hql & Hww & Hwr).
    by destruct (Himg q w (Hq q (list_elem_of_lookup_2 _ _ _ Hql)) Hww Hwr) as (q' & -> & ? & _).
Qed.

(** * Nodes as keys *)

Section materialize.
Context (letter used : Z → Prop) (fresh : Z).
Context (Hused : ∀ l, used l → letter l).
Context (Hfresh : letter fresh ∧ (0 <= fresh)%Z ∧ ¬ used fresh).
Context (default_label : Z) (Hdefault : ¬ letter default_label).
Context (ns : list Node.t) (Hns : nodes_ok letter used ns) (Hwidth : lenN ns ≤ u32_modulus).
Context (start : N) (Hstart : start < lenN ns) (Hstart0 : start ≠ 0).

Definition node_acc (id : N) : bool := match ns.[id] with Some n => Node.accepting n | None => false end.
Definition node_succ (id : N) : list (Z * N) := match ns.[id] with Some n => node_edges default_label n | None => [] end.

Lemma row_labels_used id n l t : ns.[id] = Some n → (l, t) ∈ Node.transitions n → used l.
Proof using All.
  intros E Hin. destruct (decide (id = 0)) as [->|Hne].
  - rewrite (ns_dead _ _ _ Hns) in E. injection E as <-. by apply elem_of_nil in Hin.
  - eapply rf_used; [|exact Hin]. apply (no_fits _ _ _ id), (ns_rows _ _ _ Hns); [lia|done].
Qed.

Lemma default_label_off id n : ns.[id] = Some n → default_label ∉ (Node.transitions n).*1.
Proof using All.
  intros E ([l t] & Heq & Hin)%list_elem_of_fmap. apply Hdefault. simpl in Heq. rewrite Heq.
  eapply Hused, row_labels_used; done.
Qed.

Lemma row_NoDup id n : ns.[id] = Some n → NoDup (Node.transitions n).*1.
Proof using All.
  intros E. destruct (decide (id = 0)) as [->|Hne].
  - rewrite (ns_dead _ _ _ Hns) in E. injection E as <-. constructor.
  - eapply rf_nodup. apply (no_fits _ _ _ id), (ns_rows _ _ _ Hns); [lia|done].
Qed.

Lemma node_succ_nodup id : NoDup (node_succ id).*1.
Proof using All.
  unfold node_succ. destruct (ns.[id]) as [n|] eqn:E; [|constructor]. unfold node_edges. rewrite fmap_app.
  destruct (Node.default n =? 0); [by apply (row_NoDup id)|]. simpl. constructor; [by apply (default_label_off id)|by apply (row_NoDup id)].
Qed.

(** Edges lead to nodes that are not dead. *)
Lemma edge_live id n l t : ns.[id] = Some n → (l, t) ∈ Node.transitions n → t ≠ 0.
Proof using All.
  intros E Hin ->. destruct (decide (id = 0)) as [->|Hne].
  { rewrite (ns_dead _ _ _ Hns) in E. injection E as <-. by apply elem_of_nil in Hin. }
  assert (Hn : node_ok letter used ns id n) by (apply (ns_rows _ _ _ Hns); [lia|done]).
  pose proof (no_needed _ _ _ _ _ Hn l 0 Hin) as Hneed. unfold fallback in Hneed.
  destruct (Z.leb_spec 0 l) as [Hl|Hl]; [|done]. apply Hneed. symmetry.
  apply (node_live letter used fresh Hused Hfresh ns _ Hns).
  - pose proof (rf_default _ _ _ _ _ _ (no_fits _ _ _ _ _ Hn)). apply nthN_lt in E. lia.
  - intros w Hw. apply not_true_iff_false. intros Ha.
    apply (rf_mono _ _ _ _ _ _ (no_fits _ _ _ _ _ Hn) l 0 w Hin Hl Hw) in Ha. by rewrite (dead_node letter used) in Ha.
Qed.

(** A node that is not dead accepts a word. *)
Lemma live_word id : id < lenN ns → id ≠ 0 → ∃ w, word letter w ∧ node_accepts ns id w = true.
Proof using All.
  revert id. cut (∀ (k : nat) id, (N.to_nat id < k)%nat → id < lenN ns → id ≠ 0 →
    ∃ w, word letter w ∧ node_accepts ns id w = true); [intros Hc id; apply (Hc (S (N.to_nat id))); lia|].
  induction k as [|k IH]; intros id Hk Hlt Hid; [lia|]. destruct (proj1 (nthN_Some_lt _ _) Hlt) as [n E].
  assert (Hn : node_ok letter used ns id n) by (apply (ns_rows _ _ _ Hns); [lia|done]).
  assert (Hstep : ∀ x, letter x → target_at ns id x ≠ 0 → ∃ w, word letter w ∧ node_accepts ns id w = true).
  { intros x Hx Ht. pose proof (node_target_lt letter used ns id x Hns ltac:(lia)).
    destruct (IH (target_at ns id x)) as (w & Hw & Ha); [lia..|done|]. exists (x :: w). split; [by constructor|done]. }
  destruct (Node.accepting n) eqn:Hacc; [exists []; split; [constructor|]; simpl; by rewrite E|].
  destruct (decide (Node.default n = 0)) as [Hd|Hd].
  - destruct (Node.transitions n) as [|[l t] ts] eqn:Ets.
    + exfalso. apply (no_row _ _ _ _ _ Hn). by rewrite <-(node_eta n), Hacc, Hd, Ets.
    + assert (Hin : (l, t) ∈ Node.transitions n) by (rewrite Ets; left).
      apply (Hstep l); [eapply Hused, row_labels_used; done|].
      rewrite (target_row letter used ns id n l t); [by eapply edge_live|done|lia|done|done].
  - apply (Hstep fresh); [apply Hfresh|]. by rewrite (target_fresh letter used fresh Hfresh ns id n Hns E).
Qed.

Lemma node_succ_edge id l t :
  id < lenN ns → (l, t) ∈ node_succ id →
  t ≠ 0 ∧ ∃ x, letter x ∧ target_at ns id x = t ∧ (l = default_label ∨ x = l).
Proof using All.
  intros Hid. unfold node_succ. destruct (proj1 (nthN_Some_lt _ _) Hid) as [n E]. rewrite E.
  unfold node_edges. intros [Hin|Hin]%elem_of_app.
  - destruct (N.eqb_spec (Node.default n) 0) as [|Hd]; [by apply elem_of_nil in Hin|].
    apply list_elem_of_singleton in Hin as [= -> ->]. split; [done|]. exists fresh.
    split; [apply Hfresh|]. split; [by apply (target_fresh letter used)|by left].
  - split; [by eapply edge_live|]. exists l. split; [eapply Hused, row_labels_used; done|]. split; [|by right].
    unfold target_at. rewrite E, <-(node_eta n). apply target_explicit; [by apply (row_NoDup id)|done].
Qed.

Lemma node_succ_lt id l t : id < lenN ns → (l, t) ∈ node_succ id → t < lenN ns.
Proof using All.
  intros Hid Hin. destruct (node_succ_edge id l t Hid Hin) as (_ & x & _ & <- & _).
  pose proof (target_le letter used ns id x Hns). lia.
Qed.

(** Where a word leads. *)
Fixpoint node_run (id : N) (w : list Z) : N :=
  match w with [] => id | l :: w => node_run (target_at ns id l) w end.

Lemma node_run_app id v w : node_run id (v ++ w) = node_run (node_run id v) w.
Proof using All. revert id. induction v as [|l v IH]; intros id; simpl; [done|]. apply IH. Qed.

Lemma node_accepts_run id w : node_accepts ns id w = node_acc (node_run id w).
Proof using All. revert id. induction w as [|l w IH]; intros id; simpl; [done|]. apply IH. Qed.

Lemma node_run_dead w : node_run 0 w = 0.
Proof using All. induction w as [|l w IH]; simpl; [done|]. by rewrite (target_dead letter used). Qed.

(** Keys reached from the start are nodes that words reach. *)
Lemma key_reached k w :
  key_run node_succ start w = Some k →
  k < lenN ns ∧ k ≠ 0 ∧ ∃ v, word letter v ∧ node_run start v = k.
Proof using All.
  revert k. induction w as [|l w IH] using rev_ind; intros k.
  - intros [= <-]. split; [done|]. split; [done|]. exists []. split; [constructor|done].
  - intros (k1 & Hk1 & Hin)%key_run_snoc; [|apply node_succ_nodup].
    destruct (IH k1 Hk1) as (Hlt & _ & v & Hv & Hrun).
    destruct (node_succ_edge k1 l k Hlt Hin) as (Hk0 & x & Hx & Ht & _).
    split; [by eapply node_succ_lt|]. split; [done|]. exists (v ++ [x]).
    split; [apply Forall_app; split; [done|by constructor]|]. by rewrite node_run_app, Hrun.
Qed.

(** ** The worklist is done *)

Section done.
Context (b : Explore.builder (K := N) (W := N)) (ks : list N) (p : nat).
Context (Hinv : explore_inv node_entry node_acc node_succ start b ks p) (Hwl : Explore.worklist b = []).
Context (Hfit : lenN (DFA.states (Explore.dfa b)) ≤ u32_modulus).
Abbreviation d := (Explore.dfa b).
Abbreviation ids := (Explore.ids b).

Let Hrow := explore_complete node_entry node_acc node_succ start b ks p Hinv Hwl Hfit.

Lemma id_node k q : ids !! k = Some q → k < lenN ns ∧ k ≠ 0.
Proof using All.
  intros Hk. apply (ko_ids _ _ _ _ _ _ (proj1 Hinv)) in Hk as (j & Hj & _).
  assert (Hin : k ∈ ks) by (apply nthN_elem_of; eauto).
  destruct (ko_reached _ _ _ _ _ _ (proj1 Hinv) k Hin) as [w Hw]. destruct (key_reached k w Hw) as (? & ? & _). done.
Qed.

(** One step follows the target of the node. *)
Lemma default_step_node k q l :
  ids !! k = Some q → letter l →
  default_step default_label d q l = if target_at ns k l =? 0 then None else ids !! target_at ns k l.
Proof using All.
  intros Hk Hl. destruct (id_node k q Hk) as [Hlt Hk0]. pose proof (Hrow q k Hk) as [_ Hdelta Hknown].
  destruct (proj1 (nthN_Some_lt _ _) Hlt) as [n E].
  assert (Hsucc : node_succ k = node_edges default_label n) by (unfold node_succ; by rewrite E).
  assert (Hld : l ≠ default_label) by (by intros ->).
  assert (Hedge : ∀ t x, (x, t) ∈ node_succ k → DFA.delta d q x = ids !! t).
  { intros t x Hin. destruct (Hknown x t Hin) as [q' Hq']. rewrite Hq'. apply Hdelta. eauto. }
  assert (Hnone : ∀ x, x ∉ (node_succ k).*1 → DFA.delta d q x = None).
  { intros x Hx. destruct (DFA.delta d q x) as [q'|] eqn:Ed; [|done]. exfalso. apply Hx.
    apply Hdelta in Ed as (t & Hin & _). by apply (list_elem_of_fmap_2 fst) in Hin. }
  assert (Hxs : ∀ x, x ∈ (node_succ k).*1 ↔ (x = default_label ∧ Node.default n ≠ 0) ∨ x ∈ (Node.transitions n).*1).
  { intros x. rewrite Hsucc. unfold node_edges. rewrite fmap_app, elem_of_app.
    destruct (N.eqb_spec (Node.default n) 0) as [Hd|Hd]; simpl; rewrite ?elem_of_nil, ?list_elem_of_singleton; tauto. }
  unfold default_step, target_at. rewrite E, <-(node_eta n).
  destruct (target_cases (Node.accepting n) (Node.default n) (Node.transitions n) l (row_NoDup k n E)) as [Hin|[Hni ->]].
  - set (t := Node.target _ l) in *. pose proof (edge_live k n l t E Hin) as Ht0.
    assert (Hin' : (l, t) ∈ node_succ k) by (rewrite Hsucc; apply elem_of_app; by right).
    rewrite (Hedge t l Hin'). destruct (Hknown l t Hin') as [q' ->]. by rewrite (proj2 (N.eqb_neq _ _)).
  - rewrite Hnone by (rewrite Hxs; tauto). unfold fallback. simpl. destruct (0 <=? l)%Z; [|done].
    destruct (N.eqb_spec (Node.default n) 0) as [Hd|Hd].
    + apply Hnone. rewrite Hxs. pose proof (default_label_off k n E). tauto.
    + apply Hedge. rewrite Hsucc. unfold node_edges. rewrite (proj2 (N.eqb_neq _ _)) by done. apply elem_of_app. left. by left.
Qed.

Lemma target_known k q l :
  ids !! k = Some q → letter l → target_at ns k l ≠ 0 → is_Some (ids !! target_at ns k l).
Proof using All.
  intros Hk Hl Ht. destruct (id_node k q Hk) as [Hlt Hk0]. pose proof (Hrow q k Hk) as [_ _ Hknown].
  destruct (proj1 (nthN_Some_lt _ _) Hlt) as [n E].
  assert (Hsucc : node_succ k = node_edges default_label n) by (unfold node_succ; by rewrite E).
  assert (Htgt : target_at ns k l = Node.target (Node.mk (Node.accepting n) (Node.default n) (Node.transitions n)) l).
  { unfold target_at. by rewrite E, node_eta. }
  rewrite Htgt in Ht |- *.
  destruct (target_cases (Node.accepting n) (Node.default n) (Node.transitions n) l (row_NoDup k n E)) as [Hin|[Hni Heq]].
  - apply (Hknown l). rewrite Hsucc. apply elem_of_app. by right.
  - rewrite Heq in Ht |- *. unfold fallback in *. destruct (0 <=? l)%Z; [|done].
    apply (Hknown default_label). rewrite Hsucc. unfold node_edges. rewrite (proj2 (N.eqb_neq _ _)) by done.
    apply elem_of_app. left. by left.
Qed.

Lemma default_run_node w : ∀ k q, ids !! k = Some q → word letter w →
  default_run default_label d q w = if node_run k w =? 0 then None else ids !! node_run k w.
Proof using All.
  induction w as [|l w IH]; intros k q Hk Hw; simpl.
  - rewrite Hk. destruct (id_node k q Hk) as [_ Hk0]. by rewrite (proj2 (N.eqb_neq _ _)).
  - apply Forall_cons in Hw as [Hl Hw]. rewrite (default_step_node k q l Hk Hl).
    destruct (N.eqb_spec (target_at ns k l) 0) as [->|Ht]; [by rewrite node_run_dead|].
    destruct (target_known k q l Hk Hl Ht) as [q' Hq']. rewrite Hq'. simpl. by apply IH.
Qed.

(** The states accept what their nodes accept. *)
Lemma default_from_node k q w :
  ids !! k = Some q → word letter w → default_from default_label d q w = node_accepts ns k w.
Proof using All.
  intros Hk Hw. unfold default_from. rewrite (default_run_node w k q Hk Hw), node_accepts_run.
  destruct (N.eqb_spec (node_run k w) 0) as [->|Hne].
  - unfold node_acc. by rewrite (ns_dead _ _ _ Hns).
  - destruct (ids !! node_run k w) as [q'|] eqn:E; [by apply (Hrow q')|].
    assert (Hrun : default_run default_label d q w = None).
    { rewrite (default_run_node w k q Hk Hw), E. by destruct (_ =? 0). }
    exfalso. clear -Hrun E Hk Hw Hne Hrow Hinv Hwl Hfit Hns Hused Hfresh Hdefault Hstart Hstart0 Hwidth. revert k q Hk Hne E Hrun.
    induction w as [|l w IH]; intros k q Hk Hne E Hrun; [simpl in *; congruence|].
    apply Forall_cons in Hw as [Hl Hw]. simpl in *.
    destruct (decide (target_at ns k l = 0)) as [Hz|Hnz]; [by rewrite Hz, node_run_dead in Hne|].
    destruct (target_known k q l Hk Hl Hnz) as [q' Hq'].
    apply (IH Hw (target_at ns k l) q'); try done.
    rewrite (default_step_node k q l Hk Hl), (proj2 (N.eqb_neq _ _)), Hq' in Hrun by done. done.
Qed.

Lemma state_node q : q < lenN (DFA.states d) → ∃ k, ids !! k = Some q.
Proof using All.
  intros Hq. pose proof (ko_states _ _ _ _ _ _ (proj1 Hinv)) as Hst. rewrite Hst in Hq.
  destruct (proj1 (nthN_Some_lt _ _) Hq) as [k Hk]. exists k. apply (ko_ids _ _ _ _ _ _ (proj1 Hinv)).
  exists q. split; [done|]. symmetry. apply as_u32_small. lia.
Qed.

Lemma done_accepts w : word letter w → default_accepts default_label d w = node_accepts ns start w.
Proof using All.
  intros Hw. rewrite <-(default_from_node start 0 w); [|by apply (explore_start_id _ _ _ b ks p (proj1 Hinv))|done].
  unfold default_accepts. rewrite (ko_dfa_start _ _ _ _ _ _ (proj1 Hinv)). done.
Qed.

Lemma done_reduced : default_reduced letter default_label d.
Proof using All.
  split.
  - intros q Hq. destruct (state_node q Hq) as [k Hk].
    assert (Hin : k ∈ ks).
    { apply (ko_ids _ _ _ _ _ _ (proj1 Hinv)) in Hk as (j & Hj & _). apply nthN_elem_of. eauto. }
    destruct (ko_reached _ _ _ _ _ _ (proj1 Hinv) k Hin) as [w Hw].
    destruct (key_reached k w Hw) as (_ & Hk0 & v & Hv & Hrun). exists v. split; [done|].
    rewrite (ko_dfa_start _ _ _ _ _ _ (proj1 Hinv)).
    rewrite (default_run_node v start 0); [|by apply (explore_start_id _ _ _ b ks p (proj1 Hinv))|done].
    rewrite Hrun, (proj2 (N.eqb_neq _ _)) by done. done.
  - intros q Hq. destruct (state_node q Hq) as [k Hk]. destruct (id_node k q Hk) as [Hlt Hk0].
    assert (∃ w, word letter w ∧ node_accepts ns k w = true) as (w & Hw & Ha).
    { apply (live_word k Hlt Hk0). }
    exists w. split; [done|]. by rewrite (default_from_node k q w Hk Hw).
  - intros q q' Hq Hq' Hsame. destruct (state_node q Hq) as [k Hk]. destruct (state_node q' Hq') as [k' Hk'].
    assert (k = k') as <-; [|congruence].
    apply (nodes_canonical letter used fresh Hused Hfresh ns _ _ Hns); [by apply (id_node k q)|by apply (id_node k' q')|].
    intros w Hw. rewrite <-(default_from_node k q w), <-(default_from_node k' q' w) by done. by apply Hsame.
Qed.
End done.
End materialize.
