(* ===== verification/DefaultCorrect.v ===== *)
(** Minimal determinization with default rows, all together: the language and
    the size of the result, that there is one, and the work budget. *)

From stdpp Require Import relations.
From S2P Require Import Prelude Graph Dfa Nfa Explore DefaultRows DefaultNodes DefaultBuilder DefaultStates DefaultMaterialize.

(** * Materializing a node *)

Section materialize.
Context (budgeted enough : Prop).
Abbreviation wp := (wp (allowed budgeted enough)).
Context (letter used : Z → Prop) (fresh : Z).
Context (Hused : ∀ l, used l → letter l).
Context (Hfresh : letter fresh ∧ (0 <= fresh)%Z ∧ ¬ used fresh).
Context (default_label : Z) (Hdefault : ¬ letter default_label).
Context (ns : list Node.t) (Hns : nodes_ok letter used ns) (Hwidth : lenN ns ≤ u32_modulus).
Context (start : N) (Hstart : start < lenN ns) (Hstart0 : start ≠ 0).

Abbreviation here f := (f letter used fresh Hused Hfresh default_label Hdefault ns Hns Hwidth start Hstart Hstart0).
Abbreviation acc := (node_acc ns).
Abbreviation succ := (node_succ default_label ns).
Abbreviation inv b ks p := (explore_inv node_entry acc succ start b ks p).

Lemma keys_in_range k w : key_run succ start w = Some k → k ∈ seqN (length ns).
Proof using All. intros Hk. apply elem_of_seqN. apply (here key_reached k w Hk). Qed.

(** The nodes stay what they are; only the work budget changes. *)
Definition fixed (w : world) : Prop := Builder.nodes (builder w) = ns ∧ (is_Some (handle w) → budgeted).

Lemma fixed_charge n w Q : fixed w → (∀ w', fixed w' → Q tt w') → wp (charge_build_budget n) w Q.
Proof using All.
  intros [Hn Hh] HQ. unfold DefaultBuilder.wp, charge_build_budget. destruct (handle w) as [h|] eqn:Eh.
  - destruct (TemplateBuildBudget.charge h n) as [h' exceeded]. destruct exceeded; [by apply Hh|].
    apply HQ. split; [done|]. intros _. by apply Hh.
  - apply HQ. split; [done|]. rewrite Eh. by intros [].
Qed.

Lemma materialize_node_ok b ks p k rest w :
  inv b ks p → Explore.worklist b = node_entry (as_u32 (N.of_nat p)) k :: rest → ks !! p = Some k →
  rest = drop (S p) (numbered node_entry ks) → fixed w →
  wp (materialize_node default_label (Explore.Builder (Explore.dfa b) (Explore.ids b) rest) k) w
    (λ b' w', fixed w' ∧ ∃ ks', inv b' ks' (S p)).
Proof using All.
  intros Hinv Hwl Hk -> Hw. pose proof Hinv as (Hok & Hp & Hrows).
  assert (Hid : Explore.ids b !! k = Some (as_u32 (N.of_nat p))).
  { apply (ko_ids _ _ _ _ _ _ Hok). exists (N.of_nat p). by rewrite nthN_of_nat. }
  destruct (ko_reached _ _ _ _ _ _ Hok k) as [word Hword]; [by eapply list_elem_of_lookup_2|].
  destruct (here key_reached k word Hword) as (Hkl & _). destruct (proj1 (nthN_Some_lt _ _) Hkl) as [data E].
  unfold materialize_node. apply wp_bind. simpl. rewrite Hid. apply wp_ret.
  apply wp_bind. unfold get_node. apply wp_bind, wp_gets. rewrite (proj1 Hw). eapply wp_index; [exact E|].
  apply wp_bind. apply fixed_charge; [done|]. intros w' Hw'. apply wp_ret. split; [done|].
  pose proof (process_ok node_entry acc succ (here node_succ_nodup) start b ks p k
    (DFA.set_accepting (Explore.dfa b) (as_u32 (N.of_nat p)) (Node.accepting data)) Hinv Hk) as Hproc.
  assert (Hsucc : succ k = node_edges default_label data) by (unfold node_succ; by rewrite E).
  assert (Hacc : acc k = Node.accepting data) by (unfold node_acc; by rewrite E).
  rewrite Hsucc, Hacc in Hproc. cbv zeta in Hproc.
  destruct Hproc as (ks' & Hinv'); [apply DFAFacts.length_set_accepting|done|apply DFAFacts.delta_set_accepting| |by exists (ks ++ ks')].
  intros Hfit _ q Hq. rewrite DFAFacts.accepting_set_accepting.
  assert (Hpl : N.of_nat p < lenN ks) by (apply lookup_lt_Some in Hk; unfold lenN; lia).
  rewrite as_u32_small by lia. rewrite (ko_states _ _ _ _ _ _ Hok).
  destruct (N.eqb_spec q (N.of_nat p)) as [->|]; [by rewrite decide_True|]. by rewrite decide_False by naive_solver.
Qed.

Definition materialize_inv (st : Explore.builder (K := N) (W := N) * world) (m : nat) : Prop :=
  ∃ ks p, inv st.1 ks p ∧ fixed st.2 ∧ (p + m = length ns)%nat.

Lemma materialize_step_ok st m :
  materialize_inv st m →
  match materialize_step default_label st with
  | inl st' => ∃ m', materialize_inv st' m' ∧ (m' < m)%nat
  | inr (inr d, w) => Explore.worklist st.1 = [] ∧ d = Explore.dfa st.1
  | inr (inl e, w) => allowed budgeted enough e
  end.
Proof using All.
  destruct st as [b w]. intros (ks & p & Hinv & Hw & Hm). simpl in *.
  destruct (Explore.worklist b) as [|node rest] eqn:Ewl; [done|].
  destruct (explore_head _ _ _ b ks p _ _ (proj1 Hinv) Ewl) as (k & Hk & -> & Hrest).
  unfold node_entry at 1. pose proof (materialize_node_ok b ks p k rest w Hinv Ewl Hk Hrest Hw) as Hnode.
  unfold DefaultBuilder.wp in Hnode.
  destruct (materialize_node _ _ k w) as [[e|b'] w']; [done|]. destruct Hnode as (Hw' & ks' & Hinv').
  exists (m - 1)%nat.
  pose proof (explore_bound _ _ _ _ _ _ _ (seqN (length ns)) Hinv' keys_in_range) as Hb. rewrite length_seqN in Hb.
  split; [|lia]. exists ks', (S p). split; [done|]. split; [done|lia].
Qed.

(** The loop ends, with an automaton for the start node. *)
Lemma materialize_ok w :
  fixed w → wp (materialize start default_label) w (λ d _,
    (∀ v, word letter v → default_accepts default_label d v = node_accepts ns start v) ∧
    default_reduced letter default_label d).
Proof using All.
  intros Hw. unfold DefaultBuilder.wp, materialize. rewrite (proj2 (N.eqb_neq _ _) Hstart0), (proj1 Hw).
  change (Explore.Builder DFA.new {[start := 0]} [node_entry 0 start]) with (init_builder node_entry start).
  destruct (run_terminates (materialize_step default_label) materialize_inv (S (length ns))
              (init_builder node_entry start, w) (length ns)) as (r & [b w'] & m & -> & Hst & Hexit).
  - intros st st' m Hst Hstep. pose proof (materialize_step_ok st m Hst) as Hspec. by rewrite Hstep in Hspec.
  - exists [start], 0%nat. split; [apply explore_inv_init|]. split; [done|lia].
  - pose proof (pow2_S_gt (length ns)). lia.
  - pose proof (materialize_step_ok _ m Hst) as Hspec. rewrite Hexit in Hspec.
    destruct r as [[e|d] w'']; [done|]. destruct Hspec as [Hwl ->]. simpl in *.
    destruct Hst as (ks & p & Hinv & _). simpl in Hinv.
    assert (Hfit : lenN (DFA.states (Explore.dfa b)) ≤ u32_modulus).
    { rewrite (ko_states _ _ _ _ _ _ (proj1 Hinv)).
      pose proof (explore_bound _ _ _ _ _ _ _ (seqN (length ns)) Hinv keys_in_range) as Hb. rewrite length_seqN in Hb.
      unfold lenN in *. lia. }
    split; [|by apply (here done_reduced b ks p)]. intros v Hv. by apply (here done_accepts b ks p).
Qed.
End materialize.

(** * The construction *)

(** Labels are [i32]; words avoid the default label. *)
Definition is_label (l : Z) : Prop := (-2147483648 <= l < 2147483648)%Z.
Definition concrete (default_label l : Z) : Prop := is_label l ∧ l ≠ default_label.

(** The labels of the rows are [i32], and leave a nonnegative one over. *)
Definition labels_ok (nfa : NFA.t) (default_label : Z) : Prop :=
  (∀ s l, NFA.targets_of nfa s l ≠ [] → is_label l) ∧
  ∃ f, concrete default_label f ∧ (0 <= f)%Z ∧ ∀ s, NFA.targets_of nfa s f = [].

Definition starts_in_range (nfa : NFA.t) : Prop := ∀ s, s ∈ NFA.start_states nfa → s < lenN (NFA.states nfa).

(** Budgets that suffice whatever the automaton. *)
Definition budgets_suffice (nfa : NFA.t) (node_budget depth_budget : N) : Prop :=
  2 ^ (lenN (NFA.states nfa) + 1) ≤ node_budget ∧ lenN (NFA.states nfa) ≤ depth_budget + 1.

(** What the result promises: the words, and the size. *)
Definition minimal_for (nfa : NFA.t) (default_label : Z) (d : DFA.t) : Prop :=
  (∀ w, word (concrete default_label) w →
    default_accepts default_label d w = true ↔ template_accepts nfa default_label w) ∧
  (∀ d', DFA.states d' ≠ [] →
    (∀ w, word (concrete default_label) w → default_accepts default_label d' w = default_accepts default_label d w) →
    (length (DFA.states d) ≤ length (DFA.states d'))%nat).

Lemma default_accepts_new default_label w : default_accepts default_label DFA.new w = false.
Proof.
  unfold default_accepts. destruct w as [|l w]; [done|]. simpl. unfold default_step, DFA.delta. simpl.
  rewrite !lookup_empty. by destruct (0 <=? l)%Z.
Qed.

Lemma minimal_for_new nfa default_label :
  (∀ w, word (concrete default_label) w → ¬ template_accepts nfa default_label w) → minimal_for nfa default_label DFA.new.
Proof.
  intros Hno. split.
  - intros w Hw. rewrite default_accepts_new. split; [done|]. intros Ha. by destruct (Hno w Hw).
  - intros d' Hne _. destruct (DFA.states d'); [done|]. simpl. lia.
Qed.

Lemma template_from_lt nfa default_label s w : template_from nfa default_label s w → s < lenN (NFA.states nfa).
Proof.
  destruct 1 as [s Ha|s t w (st & Hst & _) _|s l t w He _].
  - unfold NFA.is_accepting in Ha. destruct ((NFA.states nfa).[s]) eqn:E; [by eapply nthN_lt|done].
  - by eapply nthN_lt.
  - apply template_known in He as (st & Hst & _). by eapply nthN_lt.
Qed.

(** From the order of the states on. *)
Lemma build_ok nfa default_label order node_budget depth_budget h :
  successors_first nfa order → targets_in_range nfa → starts_in_range nfa → labels_ok nfa default_label →
  node_budget < u32_modulus →
  match (build nfa default_label order (World (Builder.new node_budget depth_budget) h)).1 with
  | inr d => minimal_for nfa default_label d
  | inl e => allowed (is_Some h) (budgets_suffice nfa node_budget depth_budget) e
  end.
Proof.
  intros Horder Hrange Hstarts [Hlab (f & Hf & Hf0 & Hfree)] Hwidth.
  set (letter := concrete default_label). set (enough := budgets_suffice nfa node_budget depth_budget).
  assert (Hdefault : ¬ letter default_label) by (by intros [_ ?]).
  assert (Hused : ∀ l, named nfa default_label l → letter l) by (intros l [Hl (s & Hs)]; split; [by eapply Hlab|done]).
  assert (Hfresh : letter f ∧ (0 <= f)%Z ∧ ¬ named nfa default_label f).
  { split; [done|]. split; [done|]. intros [_ (s & Hs)]. by destruct Hs. }
  assert (Henough : enough → N.of_nat (2 ^ S (length (NFA.states nfa))) ≤ node_budget).
  { intros [Hn _]. rewrite Nat2N.inj_pow. unfold lenN in Hn.
    by replace (N.of_nat (length (NFA.states nfa)) + 1) with (N.of_nat (S (length (NFA.states nfa)))) in Hn by lia. }
  assert (Hdepth : enough → N.of_nat (length (NFA.states nfa)) ≤ depth_budget + 1) by (intros [_ Hd]; exact Hd).
  pose proof (new_builder_ok nfa default_label letter f Hdefault Hused Hfresh order Horder Hrange node_budget depth_budget
    (is_Some h) enough Hwidth Henough Hdepth h (λ x, x)) as Hw.
  pose proof (start_node_ok nfa default_label letter f Hdefault Hused Hfresh order Horder Hrange node_budget depth_budget
    (is_Some h) enough Hwidth Henough Hdepth _ Hw Hstarts) as Hstart.
  assert (Hassoc : ∀ w, build nfa default_label order w =
    bind (start_node nfa default_label order) (λ start, materialize start default_label) w).
  { intros w. unfold build, start_node, bind. destruct (for_each _ _ _ w) as [[e|c] w1]; [done|].
    by destruct (collect _ _ w1) as [[e|ss] w2]. }
  rewrite Hassoc. unfold bind. unfold DefaultBuilder.wp in Hstart.
  destruct (start_node nfa default_label order _) as [[e|start] w1]; [exact Hstart|].
  destruct Hstart as ([Hb1 Hh1] & _ & [Hsl Hlang]). pose proof (bo_nodes _ _ _ _ _ _ _ Hb1) as Hns.
  destruct (decide (start = 0)) as [->|Hs0].
  - unfold materialize. simpl. apply minimal_for_new. intros w Hw' Ha%Hlang; [|done].
    by rewrite (dead_node letter (named nfa default_label)) in Ha.
  - pose proof (materialize_ok (is_Some h) enough letter (named nfa default_label) f Hused Hfresh default_label Hdefault
      (Builder.nodes (builder w1)) Hns (bo_width _ _ _ _ _ _ _ Hb1) start Hsl Hs0 w1 (conj eq_refl Hh1)) as Hmat.
    unfold DefaultBuilder.wp in Hmat.
    destruct (materialize start default_label w1) as [[e|d] w2]; [done|]. destruct Hmat as [Hacc Hred]. simpl.
    split; [intros w Hw'; rewrite Hacc by done; by apply Hlang|].
    intros d' _ Heq. by eapply default_reduced_smallest.
Qed.

(** What every call gives. *)
Lemma minimal_defaults_spec (nfa : NFA.t) (default_label : Z) (node_budget depth_budget : N)
    (h : option TemplateBuildBudget.t) :
  lenN (NFA.states nfa) ≤ u32_modulus → node_budget < u32_modulus →
  starts_in_range nfa → labels_ok nfa default_label →
  match (try_determinize_minimal_defaults_with_budget nfa default_label node_budget depth_budget h).1 with
  | inr d => minimal_for nfa default_label d
  | inl Declined =>
      ¬ (targets_in_range nfa ∧ acyclic (NFA.adjacency nfa) ∧ budgets_suffice nfa node_budget depth_budget)
  | inl Exhausted => is_Some h
  | inl Panicked => False
  end.
Proof.
  intros Hn Hwidth Hstarts Hlab. unfold try_determinize_minimal_defaults_with_budget.
  destruct (_ || _) eqn:Eempty.
  - apply minimal_for_new. intros w _ (s & Hs & Hw). apply orb_true_iff in Eempty as [E|E]; apply N.eqb_eq in E.
    + apply template_from_lt in Hw. lia.
    + destruct (NFA.start_states nfa); [by apply elem_of_nil in Hs|done].
  - pose proof (reverse_topological_order_ok nfa Hn) as Hord.
    destruct (reverse_topological_order nfa) as [order|]; [|simpl; tauto].
    destruct Hord as (Hfirst & Hrange & Hac).
    pose proof (build_ok nfa default_label order node_budget depth_budget h Hfirst Hrange Hstarts Hlab Hwidth) as Hb.
    destruct (build nfa default_label order _) as [[e|d] w]; [|exact Hb]. simpl in *.
    destruct e; simpl in Hb; tauto.
Qed.

(** C31: Determinization with default rows gives an automaton that accepts, when
    its default edges are followed, exactly the words of the input read with
    its default label, and no automaton with the same words has fewer states.
    It only gives up on inputs that have a cycle or lead out of range, or when
    a budget is below a bound that suffices for every automaton of the size;
    it unwinds only when a work budget is installed; it never panics. *)
Theorem minimal_defaults_correct (nfa : NFA.t) (default_label : Z) (node_budget depth_budget : N)
    (h : option TemplateBuildBudget.t) :
  lenN (NFA.states nfa) ≤ u32_modulus → node_budget < u32_modulus →
  starts_in_range nfa → labels_ok nfa default_label →
  match (try_determinize_minimal_defaults_with_budget nfa default_label node_budget depth_budget h).1 with
  | inr d => minimal_for nfa default_label d
  | inl Declined =>
      ¬ (targets_in_range nfa ∧ acyclic (NFA.adjacency nfa) ∧ budgets_suffice nfa node_budget depth_budget)
  | inl Exhausted => is_Some h
  | inl Panicked => False
  end.
Proof. apply minimal_defaults_spec. Qed.

(** With the budgets the code has, an automaton of at most 18 states without
    cycles and without edges out of range is always determinized. *)
Theorem minimal_defaults_total (nfa : NFA.t) (default_label : Z) :
  lenN (NFA.states nfa) ≤ 18 → starts_in_range nfa → labels_ok nfa default_label →
  targets_in_range nfa → acyclic (NFA.adjacency nfa) →
  ∃ d, (try_determinize_minimal_defaults nfa default_label None).1 = inr d ∧ minimal_for nfa default_label d.
Proof.
  intros Hn Hstarts Hlab Hrange Hac. unfold try_determinize_minimal_defaults.
  assert (Hb : budgets_suffice nfa DEFAULT_NODE_BUDGET DEFAULT_DEPTH_BUDGET).
  { split; [|unfold DEFAULT_DEPTH_BUDGET; lia]. trans (2 ^ 19); [apply N.pow_le_mono_r; lia|by compute]. }
  pose proof (minimal_defaults_spec nfa default_label DEFAULT_NODE_BUDGET DEFAULT_DEPTH_BUDGET None) as Hspec.
  specialize (Hspec ltac:(unfold u32_modulus; lia) ltac:(by compute) Hstarts Hlab).
  destruct (try_determinize_minimal_defaults_with_budget _ _ _ _ _).1 as [e|d].
  - destruct e; [tauto|by destruct Hspec|done].
  - by exists d.
Qed.

(** ** An example *)

(** A decision procedure for [labels_ok], given the label left over. *)
Definition labels_b (nfa : NFA.t) (default_label f : Z) : bool :=
  bool_decide (is_label f ∧ f ≠ default_label ∧ (0 <= f)%Z) &&
  forallb (λ st, forallb (λ tr, bool_decide (is_label tr.1 ∧ tr.1 ≠ f)) (label_iter (NFAState.transitions st))) (NFA.states nfa).

Lemma labels_b_spec nfa default_label f : labels_b nfa default_label f = true → labels_ok nfa default_label.
Proof.
  unfold labels_b. rewrite andb_true_iff, forallb_forall. intros [(Hf & Hd & H0)%bool_decide_eq_true Hall].
  assert (Hkey : ∀ s l, NFA.targets_of nfa s l ≠ [] → is_label l ∧ l ≠ f).
  { intros s l Hne. unfold NFA.targets_of in Hne. destruct ((NFA.states nfa).[s]) as [st|] eqn:E; [|done].
    destruct (NFAState.transitions st !! l) as [ts|] eqn:El; [|done].
    assert (Hst : st ∈ NFA.states nfa) by (apply nthN_elem_of; eauto).
    specialize (Hall st (proj1 (list_elem_of_In _ _) Hst)). rewrite forallb_forall in Hall.
    apply (elem_of_bt_iter Z.le) in El. specialize (Hall _ (proj1 (list_elem_of_In _ _) El)).
    by apply bool_decide_eq_true in Hall. }
  split; [intros s l Hne; by apply (Hkey s)|]. exists f. split; [done|]. split; [done|]. intros s.
  destruct (NFA.targets_of nfa s f) as [|t ts] eqn:E; [done|]. destruct (Hkey s f) as [_ Hne]; [by rewrite E|done].
Qed.

Definition template_default : Z := 2147483646.

(** From the first state a 3 leads to either of two states, any stack symbol to
    the second, and the push of 7 to the third. *)
Definition template_nfa : NFA.t := NFA.mk
  [NFAState.mk false (list_to_map [(template_default, [1]); (3%Z, [2]); ((-7)%Z, [2])]) [4];
   NFAState.mk false {[ (-7)%Z := [3] ]} []; NFAState.mk false {[ (-7)%Z := [3] ]} [];
   NFAState.mk true ∅ []; NFAState.mk false {[ 3%Z := [1] ]} []] [0].

Definition template_dfa : DFA.t :=
  match try_determinize_minimal_defaults template_nfa template_default None with (inr d, _) => d | _ => DFA.new end.

Lemma minimal_defaults_correct_witness :
  try_determinize_minimal_defaults template_nfa template_default None = (inr template_dfa, None) ∧
  default_accepts template_default template_dfa <$> [[5; -7]; [3; -7]; [-7; -7]; [-7]; [-5; -7]]%Z =
    [true; true; true; false; false] ∧
  lenN (DFA.states template_dfa) = 3 ∧ minimal_for template_nfa template_default template_dfa.
Proof.
  assert (E : try_determinize_minimal_defaults template_nfa template_default None = (inr template_dfa, None)) by (vm_compute; reflexivity).
  split; [exact E|]. split; [vm_compute; reflexivity|]. split; [vm_compute; reflexivity|].
  pose proof (minimal_defaults_correct template_nfa template_default DEFAULT_NODE_BUDGET DEFAULT_DEPTH_BUDGET None
    ltac:(vm_compute; discriminate) ltac:(vm_compute; reflexivity)
    ltac:(intros s Hs; apply list_elem_of_singleton in Hs as ->; vm_compute; reflexivity)
    (labels_b_spec template_nfa template_default 5%Z ltac:(vm_compute; reflexivity))) as Hc.
  unfold try_determinize_minimal_defaults in E. rewrite E in Hc. exact Hc.
Defined.

Lemma minimal_defaults_total_witness :
  ∃ d, (try_determinize_minimal_defaults template_nfa template_default None).1 = inr d ∧
    minimal_for template_nfa template_default d.
Proof.
  assert (Hord : targets_in_range template_nfa ∧ acyclic (NFA.adjacency template_nfa)).
  { pose proof (reverse_topological_order_ok template_nfa ltac:(vm_compute; discriminate)) as Hord.
    assert (E : ∃ order, reverse_topological_order template_nfa = Some order) by (eexists; vm_compute; reflexivity).
    destruct E as [order E]. rewrite E in Hord. apply Hord. }
  apply minimal_defaults_total; [vm_compute; discriminate| |exact (labels_b_spec template_nfa template_default 5%Z ltac:(vm_compute; reflexivity))|apply Hord|apply Hord].
  intros s Hs. apply list_elem_of_singleton in Hs as ->. vm_compute. reflexivity.
Defined.

(** With a budget the outcome [r] is that of the unbudgeted run [r0], or an
    unwinding. *)
Definition cut_short {A} (r r0 : (failure + A) * world) : Prop :=
  r.1 = inl Exhausted ∨
  ∃ h, r = (r0.1, World (builder r0.2) (Some h)) ∧ handle r0.2 = None.

Definition transparent {A} (m : M A) : Prop := ∀ b h, cut_short (m (World b (Some h))) (m (World b None)).

Lemma transparent_ret {A} (x : A) : transparent (ret x).
Proof. intros b h. right. by exists h. Qed.

Lemma transparent_fail {A} e : transparent (fail e : M A).
Proof. intros b h. right. by exists h. Qed.

Lemma transparent_gets {A} (f : Builder.t → A) : transparent (gets f).
Proof. intros b h. right. by exists h. Qed.

Lemma transparent_modify f : transparent (modify f).
Proof. intros b h. right. by exists h. Qed.

Lemma transparent_bind {A B} (m : M A) (f : A → M B) : transparent m → (∀ x, transparent (f x)) → transparent (bind m f).
Proof.
  intros Hm Hf b h. unfold bind. destruct (Hm b h) as [He|(h' & -> & Hn)].
  - left. destruct (m (World b (Some h))) as [r w]. simpl in He. by subst.
  - destruct (m (World b None)) as [[e|x] [b' h0]]; simpl in *; subst h0; [right; by exists h'|]. apply Hf.
Qed.

Lemma transparent_charge n : transparent (charge_build_budget n).
Proof.
  intros b h. unfold charge_build_budget. cbn [handle builder]. destruct (TemplateBuildBudget.charge h n) as [h' exceeded].
  destruct exceeded; [left; reflexivity|right; exists h'; done].
Qed.

Lemma transparent_index {A} (l : list A) i : transparent (index l i).
Proof. unfold index. destruct (l.[i]); [apply transparent_ret|apply transparent_fail]. Qed.

Create HintDb transparent.
#[local] Hint Resolve transparent_ret transparent_fail transparent_gets transparent_modify transparent_charge
  transparent_index : transparent.

Ltac transparent :=
  repeat match goal with
  | |- transparent (bind _ _) => apply transparent_bind; [|intros ?]
  | |- transparent (match ?x with _ => _ end) => destruct x
  | |- transparent (let '(_, _) := ?x in _) => destruct x
  | |- transparent _ => solve [auto with transparent]
  end.

Lemma transparent_for_each {A B} (f : B → A → M B) l b : (∀ b x, transparent (f b x)) → transparent (for_each f b l).
Proof. intros Hf. revert b. induction l as [|x l IH]; intros b; cbn [for_each]; transparent. Qed.

Lemma transparent_collect {A B} (f : A → M B) l : (∀ x, transparent (f x)) → transparent (collect f l).
Proof. intros Hf. induction l as [|x l IH]; cbn [collect]; transparent. Qed.

Lemma transparent_get_node id : transparent (get_node id).
Proof. unfold get_node. transparent. Qed.

#[local] Hint Resolve transparent_for_each transparent_collect transparent_get_node : transparent.

Lemma transparent_intern acc default ts : transparent (intern acc default ts).
Proof. unfold intern. cbv zeta. transparent. Qed.

#[local] Hint Resolve transparent_intern : transparent.

Lemma transparent_union r ids : transparent (union r ids).
Proof.
  revert ids. induction r as [|r IH]; intros ids; cbn [union]; cbv zeta; transparent.
  apply transparent_for_each. intros ts label. unfold union_label. transparent.
Qed.

#[local] Hint Resolve transparent_union : transparent.

Lemma transparent_union_top ids : transparent (union_top ids).
Proof. unfold union_top. transparent. Qed.

#[local] Hint Resolve transparent_union_top : transparent.

Lemma transparent_accept_node : transparent accept_node.
Proof. unfold accept_node. transparent. Qed.

#[local] Hint Resolve transparent_accept_node : transparent.

Lemma transparent_determinize_state nfa default_label canonical s :
  transparent (determinize_state nfa default_label canonical s).
Proof.
  unfold determinize_state, state_parts, split_row. transparent.
  - apply transparent_collect. intros [l ts]. transparent.
  - apply transparent_for_each. intros d [l ts]. unfold explicit_row. cbv zeta. transparent.
Qed.

(** ** The loop of the materialization *)

Definition cut_state {S R} (r r0 : (S * world) + (failure + R) * world) : Prop :=
  match r, r0 with
  | inr (inl Exhausted, _), _ => True
  | inl (s, w), inl (s0, w0) => s = s0 ∧ (∃ h, w = World (builder w0) (Some h)) ∧ handle w0 = None
  | inr r, inr r0 => cut_short r r0
  | _, _ => False
  end.

Lemma cut_run {S R} (step : S * world → (S * world) + (failure + R) * world) k :
  (∀ s b h, cut_state (step (s, World b (Some h))) (step (s, World b None))) →
  ∀ s b h, cut_state (run step k (s, World b (Some h))) (run step k (s, World b None)).
Proof.
  intros Hstep. induction k as [|k IH]; intros s b h; [apply Hstep|]. cbn [run]. pose proof (IH s b h) as Hk.
  destruct (run step k (s, World b (Some h))) as [[s1 w1]|[[e|x] w1]], (run step k (s, World b None)) as [[s2 w2]|r2]; simpl in Hk;
    try done; try (destruct e; done).
  - destruct Hk as (-> & (h' & ->) & Hn). destruct w2 as [b2 h2]. simpl in *. subst h2. apply IH.
Qed.

Lemma transparent_materialize start default_label : transparent (materialize start default_label).
Proof.
  intros b h. unfold materialize. destruct (start =? 0); [right; by exists h|]. cbn [builder].
  assert (Hstep : ∀ s b h, cut_state (materialize_step default_label (s, World b (Some h)))
                                     (materialize_step default_label (s, World b None))).
  { intros s b' h'. unfold materialize_step. destruct (Explore.worklist s) as [|node rest]; [right; by exists h'|].
    assert (Ht : ∀ b x, transparent (materialize_node default_label b x)).
    { intros bb x. unfold materialize_node. transparent. }
    specialize (Ht (Explore.Builder (Explore.dfa s) (Explore.ids s) rest) node b' h'). destruct Ht as [He|(h2 & -> & Hn)].
    - destruct (materialize_node _ _ node (World b' (Some h'))) as [r w]. simpl in He. by subst.
    - destruct (materialize_node _ _ node (World b' None)) as [[e|x] w]; simpl in *.
      + destruct e; [right; by exists h2|done|right; by exists h2].
      + split; [done|]. split; [by exists h2|done]. }
  pose proof (cut_run (materialize_step default_label) (S (length (Builder.nodes b))) Hstep
    (Explore.Builder DFA.new {[start := 0]} [node_entry 0 start]) b h) as Hrun.
  destruct (run _ (S _) (_, World b (Some h))) as [[s1 w1]|[[e|x] w1]],
    (run _ (S _) (_, World b None)) as [[s2 w2]|[r2 w2]]; simpl in Hrun; try done.
  - destruct Hrun as (-> & (h' & ->) & Hn). right. exists h'. split; [reflexivity|exact Hn].
  - destruct e; try done. by left.
  - destruct e; [done|by left|done].
Qed.

(** A work budget never changes the result: the construction is unwound, or
    it gives what it gives without a budget. *)
Theorem minimal_defaults_budget (nfa : NFA.t) (default_label : Z) (node_budget depth_budget : N)
    (budget : TemplateBuildBudget.t) :
  (try_determinize_minimal_defaults_with_budget nfa default_label node_budget depth_budget (Some budget)).1 = inl Exhausted ∨
  (try_determinize_minimal_defaults_with_budget nfa default_label node_budget depth_budget (Some budget)).1 =
  (try_determinize_minimal_defaults_with_budget nfa default_label node_budget depth_budget None).1.
Proof.
  unfold try_determinize_minimal_defaults_with_budget. destruct (_ || _); [by right|].
  destruct (reverse_topological_order nfa) as [order|]; [|by right].
  assert (Ht : transparent (build nfa default_label order)).
  { unfold build. apply transparent_bind; [apply transparent_for_each; intros; apply transparent_determinize_state|].
    intros canonical. apply transparent_bind; [auto with transparent|]. intros starts.
    apply transparent_bind; [auto with transparent|]. intros start. apply transparent_materialize. }
  destruct (Ht (Builder.new node_budget depth_budget) budget) as [He|(h & -> & _)].
  - left. by destruct (build _ _ _ _) as [r w].
  - right. by destruct (build nfa default_label order (World _ None)) as [r w].
Qed.

(** Inputs with a cycle or an edge that leads out of range are declined. *)
Theorem minimal_defaults_declines (nfa : NFA.t) (default_label : Z) (node_budget depth_budget : N)
    (h : option TemplateBuildBudget.t) :
  lenN (NFA.states nfa) ≤ u32_modulus → NFA.states nfa ≠ [] → NFA.start_states nfa ≠ [] →
  ¬ (targets_in_range nfa ∧ acyclic (NFA.adjacency nfa)) →
  try_determinize_minimal_defaults_with_budget nfa default_label node_budget depth_budget h = (inl Declined, h).
Proof.
  intros Hn Hs Ht Hno. unfold try_determinize_minimal_defaults_with_budget.
  assert (Hlen : ∀ {A} (l : list A), l ≠ [] → (lenN l =? 0) = false) by (by intros A [|x l]).
  rewrite !Hlen by done. simpl. pose proof (reverse_topological_order_ok nfa Hn) as Hord.
  destruct (reverse_topological_order nfa) as [order|]; [|done]. destruct Hord as (_ & ? & ?). by destruct Hno.
Qed.
