(* ===== verification/Bits.v ===== *)
(** Bits of machine words: bounds, counting, and the iteration over the set bits
    of a word by [word & (word - 1)]. *)

From S2P Require Import Prelude.

Create HintDb bits.
Create Rewrite HintDb bits.

(** * Bounds *)

Lemma testbit_high x w i : x < 2 ^ w → w ≤ i → N.testbit x i = false.
Proof. intros Hx Hi. rewrite <-(N.mod_small x (2 ^ w)) by done. by apply N.mod_pow2_bits_high. Qed.

Lemma bound_of_bits x w : (∀ i, w ≤ i → N.testbit x i = false) → x < 2 ^ w.
Proof.
  intros H. assert (x mod 2 ^ w = x) as <-.
  { apply N.bits_inj. intros i. destruct (decide (i < w)) as [Hi|Hi].
    - by apply N.mod_pow2_bits_low.
    - rewrite N.mod_pow2_bits_high by lia. symmetry. apply H. lia. }
  apply N.mod_lt, N.pow_nonzero. lia.
Qed.

Lemma lor_bound x y w : x < 2 ^ w → y < 2 ^ w → N.lor x y < 2 ^ w.
Proof.
  intros Hx Hy. apply bound_of_bits. intros i Hi.
  by rewrite N.lor_spec, (testbit_high x w), (testbit_high y w).
Qed.

Lemma land_bound_l x y w : x < 2 ^ w → N.land x y < 2 ^ w.
Proof. intros Hx. apply bound_of_bits. intros i Hi. by rewrite N.land_spec, (testbit_high x w). Qed.

(** [!x] at width [w] *)
Definition word_not (w x : N) : N := N.lxor x (N.ones w).

Lemma word_not_spec w x i : i < w → N.testbit (word_not w x) i = negb (N.testbit x i).
Proof. intros Hi. unfold word_not. rewrite N.lxor_spec, N.ones_spec_low by done. by destruct (N.testbit x i). Qed.

Lemma word_not_bound w x : x < 2 ^ w → word_not w x < 2 ^ w.
Proof.
  intros Hx. apply bound_of_bits. intros i Hi. unfold word_not.
  by rewrite N.lxor_spec, (testbit_high x w), N.ones_spec_high.
Qed.

(** [1 << i] *)
Definition bit (i : N) : N := N.shiftl 1 i.

Lemma bit_spec i j : N.testbit (bit i) j = (j =? i).
Proof.
  unfold bit. rewrite N.shiftl_1_l, N.pow2_bits_eqb. apply N.eqb_sym.
Qed.

Lemma bit_bound i w : i < w → bit i < 2 ^ w.
Proof. intros Hi. apply bound_of_bits. intros j Hj. rewrite bit_spec. apply N.eqb_neq. lia. Qed.

Lemma land_bit_nonzero x i : negb (N.land x (bit i) =? 0) = N.testbit x i.
Proof.
  destruct (N.testbit x i) eqn:E.
  - apply negb_true_iff, N.eqb_neq. intros Hz.
    assert (Hb : N.testbit (N.land x (bit i)) i = true) by (by rewrite N.land_spec, bit_spec, E, N.eqb_refl).
    by rewrite Hz, N.bits_0 in Hb.
  - apply negb_false_iff, N.eqb_eq. apply N.bits_inj. intros j. rewrite N.land_spec, bit_spec, N.bits_0.
    destruct (N.eqb_spec j i) as [->|]; [by rewrite E|apply andb_false_r].
Qed.

Lemma word_zero x w : x < 2 ^ w → x = 0 ↔ ∀ i, i < w → N.testbit x i = false.
Proof.
  intros Hx. split; [intros -> i _; apply N.bits_0|]. intros H. apply N.bits_inj. intros i. rewrite N.bits_0.
  destruct (decide (i < w)); [by apply H|]. apply (testbit_high x w); [done|lia].
Qed.

Lemma word_ext x y w :
  x < 2 ^ w → y < 2 ^ w → (∀ i, i < w → N.testbit x i = N.testbit y i) → x = y.
Proof.
  intros Hx Hy H. apply N.bits_inj. intros i. destruct (decide (i < w)); [by apply H|].
  by rewrite (testbit_high x w), (testbit_high y w) by (done || lia).
Qed.

Lemma ones_bound w : N.ones w < 2 ^ w.
Proof. apply bound_of_bits. intros i Hi. by apply N.ones_spec_high. Qed.

#[export] Hint Rewrite N.lor_spec N.land_spec N.bits_0 bit_spec : bits.
#[export] Hint Resolve lor_bound land_bound_l word_not_bound bit_bound ones_bound : bits.

(** * Counting and the lowest bit *)

Fixpoint pos_count_ones (p : positive) : nat :=
  match p with
  | xH => 1
  | xO p => pos_count_ones p
  | xI p => S (pos_count_ones p)
  end.

(** [count_ones] *)
Definition count_ones (x : N) : nat := match x with N0 => 0 | Npos p => pos_count_ones p end.

Fixpoint pos_trailing_zeros (p : positive) : N :=
  match p with
  | xO p => N.succ (pos_trailing_zeros p)
  | _ => 0
  end.

(** [trailing_zeros], of a non-zero word *)
Definition trailing_zeros (x : N) : N := match x with N0 => 0 | Npos p => pos_trailing_zeros p end.

(** [x & (x - 1)] *)
Definition clear_lowest (x : N) : N := N.land x (x - 1).

Lemma bits_cases (P : N → Prop) : P 0 → (∀ i, P (N.succ i)) → ∀ i, P i.
Proof. intros H0 HS i. destruct (N.eq_dec i 0) as [->|Hi]; [done|]. rewrite <-(N.succ_pred i) by done. apply HS. Qed.

Lemma clear_lowest_xI p : clear_lowest (Npos (xI p)) = 2 * Npos p.
Proof.
  unfold clear_lowest. replace (N.pos p~1) with (2 * N.pos p + 1) by lia.
  replace (2 * N.pos p + 1 - 1) with (2 * N.pos p) by lia. apply N.bits_inj.
  refine (bits_cases _ _ _); [|intros i]; rewrite N.land_spec.
  - by rewrite N.testbit_even_0, andb_false_r.
  - rewrite N.testbit_even_succ, N.testbit_odd_succ by lia. apply andb_diag.
Qed.

Lemma clear_lowest_xO p : clear_lowest (Npos (xO p)) = 2 * clear_lowest (Npos p).
Proof.
  unfold clear_lowest. replace (N.pos p~0) with (2 * N.pos p) by lia.
  replace (2 * N.pos p - 1) with (2 * (N.pos p - 1) + 1) by lia. apply N.bits_inj.
  refine (bits_cases _ _ _); [|intros i]; rewrite N.land_spec.
  - by rewrite !N.testbit_even_0.
  - by rewrite !N.testbit_even_succ, N.testbit_odd_succ, N.land_spec by lia.
Qed.

Lemma clear_lowest_bits x i :
  x ≠ 0 → N.testbit (clear_lowest x) i = N.testbit x i && negb (i =? trailing_zeros x).
Proof.
  destruct x as [|p]; [done|intros _]. revert i. induction p as [p _|p IH|];
    refine (bits_cases _ _ _); try intros i.
  - by rewrite clear_lowest_xI, N.testbit_even_0.
  - rewrite clear_lowest_xI. replace (N.pos p~1) with (2 * N.pos p + 1) by lia.
    rewrite N.testbit_even_succ, N.testbit_odd_succ by lia.
    rewrite (proj2 (N.eqb_neq (N.succ i) _)); [by rewrite andb_true_r|]. simpl. lia.
  - rewrite clear_lowest_xO. replace (N.pos p~0) with (2 * N.pos p) at 1 by lia.
    by rewrite !N.testbit_even_0.
  - rewrite clear_lowest_xO. replace (N.testbit (N.pos p~0)) with (N.testbit (2 * N.pos p)) by done.
    rewrite !N.testbit_even_succ, IH by lia. f_equal. f_equal. simpl.
    destruct (N.eqb_spec i (pos_trailing_zeros p)), (N.eqb_spec (N.succ i) (N.succ (pos_trailing_zeros p))); lia.
  - done.
  - by destruct i.
Qed.

Lemma trailing_zeros_bit x : x ≠ 0 → N.testbit x (trailing_zeros x) = true.
Proof.
  destruct x as [|p]; [done|intros _]. induction p as [p _|p IH|]; [done| |done].
  replace (N.pos p~0) with (2 * N.pos p) at 1 by lia. cbn [trailing_zeros pos_trailing_zeros].
  by rewrite N.testbit_even_succ by lia.
Qed.

Lemma trailing_zeros_least x i : i < trailing_zeros x → N.testbit x i = false.
Proof.
  destruct x as [|p]; [done|]. revert i.
  induction p as [p _|p IH|]; intros i Hi; simpl in Hi; [lia| |lia].
  replace (N.pos p~0) with (2 * N.pos p) by lia.
  revert Hi. revert i. refine (bits_cases _ _ _); [by rewrite N.testbit_even_0|].
  intros i Hi. rewrite N.testbit_even_succ by lia. apply IH. simpl. lia.
Qed.

Lemma count_ones_clear_lowest x : x ≠ 0 → count_ones x = S (count_ones (clear_lowest x)).
Proof.
  destruct x as [|p]; [done|intros _]. induction p as [p _|p IH|].
  - by rewrite clear_lowest_xI.
  - rewrite clear_lowest_xO. change (count_ones (N.pos p~0)) with (count_ones (N.pos p)). rewrite IH.
    by destruct (clear_lowest (N.pos p)).
  - done.
Qed.

Lemma count_ones_0 x : count_ones x = 0%nat ↔ x = 0.
Proof.
  split; [|by intros ->]. intros H. destruct (N.eq_dec x 0) as [|Hx]; [done|].
  by rewrite count_ones_clear_lowest in H.
Qed.

(** * Iterating over the set bits *)

(** [pop_lowest_bit]: the bit popped, and the word left *)
Definition pop_lowest_bit (word : N) : option (N * N) :=
  if word =? 0 then None else Some (trailing_zeros word, clear_lowest word).

(** The bits popped until the word is zero. *)
Fixpoint pop_bits (fuel : nat) (word : N) : list N :=
  match fuel with
  | O => []
  | S fuel =>
      match pop_lowest_bit word with
      | None => []
      | Some (b, word) => b :: pop_bits fuel word
      end
  end.

(** The set bits below [w], in ascending order. *)
Definition word_bits (w : nat) (x : N) : list N := filter (λ i, N.testbit x i) (seqN w).

Lemma elem_of_word_bits w x i : i ∈ word_bits w x ↔ i < N.of_nat w ∧ N.testbit x i = true.
Proof. unfold word_bits. rewrite list_elem_of_filter, elem_of_seqN, Is_true_true. tauto. Qed.

Lemma word_bits_sorted w x : strictly_sorted (word_bits w x).
Proof. apply StronglySorted_filter, strictly_sorted_seqN. Qed.

Lemma word_bits_0 w : word_bits w 0 = [].
Proof.
  destruct (word_bits w 0) as [|i l] eqn:E; [done|].
  assert (Hi : i ∈ word_bits w 0) by (rewrite E; by left). apply elem_of_word_bits in Hi as [_ Hi].
  by rewrite N.bits_0 in Hi.
Qed.

Lemma word_bits_pop w x :
  x ≠ 0 → x < 2 ^ N.of_nat w → word_bits w x = trailing_zeros x :: word_bits w (clear_lowest x).
Proof.
  intros Hx Hb. pose proof (trailing_zeros_bit x Hx) as Htz.
  assert (Hlt : trailing_zeros x < N.of_nat w).
  { apply N.nle_gt. intros Hge. by rewrite (testbit_high x (N.of_nat w)) in Htz. }
  apply strictly_sorted_ext; [apply word_bits_sorted| |].
  - constructor; [apply word_bits_sorted|]. apply Forall_forall. intros i [Hi Hbit]%elem_of_word_bits.
    rewrite clear_lowest_bits in Hbit by done. apply andb_true_iff in Hbit as [Hbit Hne].
    apply negb_true_iff, N.eqb_neq in Hne.
    apply N.nle_gt. intros Hle. rewrite (trailing_zeros_least x i) in Hbit; [done|lia].
  - intros i. rewrite elem_of_cons, !elem_of_word_bits, clear_lowest_bits, andb_true_iff, negb_true_iff, N.eqb_neq by done.
    destruct (N.eq_dec i (trailing_zeros x)) as [->|]; [tauto|]. tauto.
Qed.

Lemma clear_lowest_bound x w : x < 2 ^ w → clear_lowest x < 2 ^ w.
Proof. apply land_bound_l. Qed.

Lemma count_ones_length w x : x < 2 ^ N.of_nat w → count_ones x = length (word_bits w x).
Proof.
  intros Hx. remember (count_ones x) as n eqn:Hn. revert x Hx Hn. induction n as [|n IH]; intros x Hx Hn.
  - symmetry in Hn. apply count_ones_0 in Hn as ->. by rewrite word_bits_0.
  - destruct (N.eq_dec x 0) as [->|Hnz]; [done|]. rewrite word_bits_pop by done. simpl. f_equal.
    apply IH; [by apply clear_lowest_bound|]. rewrite (count_ones_clear_lowest x Hnz) in Hn. by injection Hn.
Qed.

Lemma count_ones_le w x : x < 2 ^ N.of_nat w → (count_ones x ≤ w)%nat.
Proof.
  intros Hx. rewrite (count_ones_length w x Hx). unfold word_bits.
  rewrite <-(length_seqN w) at 2. apply length_filter.
Qed.

(** With enough fuel the iteration yields all set bits in ascending order. *)
Lemma pop_bits_spec fuel w x :
  x < 2 ^ N.of_nat w → (count_ones x ≤ fuel)%nat → pop_bits fuel x = word_bits w x.
Proof.
  revert x. induction fuel as [|fuel IH]; intros x Hx Hc; simpl.
  - assert (x = 0) as -> by (apply count_ones_0; lia). by rewrite word_bits_0.
  - unfold pop_lowest_bit. destruct (N.eqb_spec x 0) as [->|Hnz]; [by rewrite word_bits_0|].
    rewrite (word_bits_pop w x Hnz Hx). f_equal. apply IH; [by apply clear_lowest_bound|].
    rewrite count_ones_clear_lowest in Hc by done. lia.
Qed.

Example pop_bits_example : pop_bits 64 (bit 3 + bit 63 + bit 0) = [0; 3; 63].
Proof. vm_compute. reflexivity. Qed.
