(* ===== verification/U8Set.v ===== *)
(** Sets of bytes as two 128-bit words
    (crates/glrmask-lexer/src/ds/u8set.rs), refined to finite sets. *)

From S2P Require Import Prelude Bits.

Module U8Set.
Record t := mk { lo : N; hi : N }.

#[global] Instance eq_dec : EqDecision t.
Proof. solve_decision. Defined.

#[global] Instance countable : Countable t.
Proof. refine (inj_countable' (λ s, (lo s, hi s)) (λ p, mk p.1 p.2) _). by intros []. Defined.

(** [u128::MAX] and [u64::MAX] *)
Definition u128_max : N := N.ones 128.
Definition u64_max : N := N.ones 64.

Definition split_byte (byte : N) : bool * N :=
  if byte <? 128 then (true, byte) else (false, byte - 128).

Definition empty : t := mk 0 0.
Definition all : t := mk u128_max u128_max.

Definition from_byte (b : N) : t :=
  let '(is_low_word, bit_index) := split_byte b in
  if (is_low_word : bool) then mk (bit bit_index) 0 else mk 0 (bit bit_index).

Definition single (b : N) : t := from_byte b.

Definition contains (s : t) (b : N) : bool :=
  let '(is_low_word, bit_index) := split_byte b in
  if (is_low_word : bool)
  then negb (N.land (lo s) (bit bit_index) =? 0)
  else negb (N.land (hi s) (bit bit_index) =? 0).

(** The new set and whether the byte was not in the old one. *)
Definition insert (s : t) (b : N) : t * bool :=
  let old := contains s b in
  let '(is_low_word, bit_index) := split_byte b in
  (if (is_low_word : bool)
   then mk (N.lor (lo s) (bit bit_index)) (hi s)
   else mk (lo s) (N.lor (hi s) (bit bit_index)), negb old).

Definition remove (s : t) (b : N) : t * bool :=
  let old := contains s b in
  let '(is_low_word, bit_index) := split_byte b in
  (if (is_low_word : bool)
   then mk (N.land (lo s) (word_not 128 (bit bit_index))) (hi s)
   else mk (lo s) (N.land (hi s) (word_not 128 (bit bit_index))), old).

Definition insert_all (s : t) (bytes : list N) : t := foldl (λ s b, (insert s b).1) s bytes.
Definition from_bytes (bytes : list N) : t := insert_all empty bytes.

Definition from_words (words : N * N * N * N) : t :=
  let '(w0, w1, w2, w3) := words in
  mk (N.lor w0 (N.shiftl w1 64)) (N.lor w2 (N.shiftl w3 64)).

(** [x as u64] *)
Definition as_u64 (x : N) : N := x mod 2 ^ 64.

Definition to_words (s : t) : N * N * N * N :=
  (as_u64 (lo s), as_u64 (N.shiftr (lo s) 64), as_u64 (hi s), as_u64 (N.shiftr (hi s) 64)).

(** [lo..=hi] *)
Definition range_inclusive (lo hi : N) : list N := (λ k, lo + k) <$> seqN (N.to_nat (hi + 1 - lo)).

Definition from_range (lo hi : N) : t := insert_all empty (range_inclusive lo hi).

Definition from_predicate (f : N → bool) : t :=
  foldl (λ s b, if f b then (insert s b).1 else s) empty (range_inclusive 0 255).

Definition is_empty (s : t) : bool := (lo s =? 0) && (hi s =? 0).
Definition len (s : t) : N := N.of_nat (count_ones (lo s)) + N.of_nat (count_ones (hi s)).
Definition is_full (s : t) : bool := (lo s =? u128_max) && (hi s =? u128_max).

Definition union (s other : t) : t := mk (N.lor (lo s) (lo other)) (N.lor (hi s) (hi other)).
Definition intersection (s other : t) : t := mk (N.land (lo s) (lo other)) (N.land (hi s) (hi other)).
Definition difference (s other : t) : t :=
  mk (N.land (lo s) (word_not 128 (lo other))) (N.land (hi s) (word_not 128 (hi other))).
Definition complement (s : t) : t := mk (word_not 128 (lo s)) (word_not 128 (hi s)).

Definition is_disjoint (s other : t) : bool :=
  (N.land (lo s) (lo other) =? 0) && (N.land (hi s) (hi other) =? 0).
Definition is_subset (s other : t) : bool :=
  (N.land (lo s) (word_not 128 (lo other)) =? 0) && (N.land (hi s) (word_not 128 (hi other)) =? 0).

(** [U8SetIter::next]: the state of the iterator is the set of bytes left. *)
Definition next (it : t) : option (N * t) :=
  match pop_lowest_bit (lo it) with
  | Some (trailing, word) => Some (0 + trailing, mk word (hi it))
  | None =>
      match pop_lowest_bit (hi it) with
      | Some (trailing, word) => Some (128 + trailing, mk (lo it) word)
      | None => None
      end
  end.

Fixpoint collect (fuel : nat) (it : t) : list N :=
  match fuel with
  | O => []
  | S fuel => match next it with None => [] | Some (b, it) => b :: collect fuel it end
  end.

(** The bytes the iterator yields; there are at most 256. *)
Definition iter (s : t) : list N := collect 257 s.

(** Both words fit their width. *)
Definition wf (s : t) : Prop := lo s < 2 ^ 128 ∧ hi s < 2 ^ 128.
Definition wf_b (s : t) : bool := (lo s <? 2 ^ 128) && (hi s <? 2 ^ 128).

(** The finite set a value stands for. *)
Definition to_set (s : t) : gset N := list_to_set (iter s).

(** All bytes *)
Definition bytes : gset N := list_to_set (seqN 256).
End U8Set.

Module U8SetFacts.
Import U8Set.

Lemma wf_b_spec s : wf_b s = true ↔ wf s.
Proof. unfold wf_b, wf. by rewrite andb_true_iff, !N.ltb_lt. Qed.

Lemma contains_spec s b :
  contains s b = if b <? 128 then N.testbit (lo s) b else N.testbit (hi s) (b - 128).
Proof. unfold contains, split_byte. destruct (b <? 128); apply land_bit_nonzero. Qed.

(** Two sets with the same bytes are equal. *)
Lemma set_ext s s' : wf s → wf s' → (∀ b, b < 256 → contains s b = contains s' b) → s = s'.
Proof.
  intros [Hl Hh] [Hl' Hh'] H. destruct s as [l h], s' as [l' h']. simpl in *. f_equal.
  - apply (word_ext l l' 128); [done..|]. intros i Hi. specialize (H i ltac:(lia)).
    rewrite !contains_spec in H. by rewrite (proj2 (N.ltb_lt i 128) Hi) in H.
  - apply (word_ext h h' 128); [done..|]. intros i Hi. specialize (H (i + 128) ltac:(lia)).
    rewrite !contains_spec in H. rewrite (proj2 (N.ltb_ge (i + 128) 128)) in H by lia.
    by replace (i + 128 - 128) with i in H by lia.
Qed.

Ltac split_words b := rewrite !contains_spec; destruct (N.ltb_spec b 128); cbn [lo hi union intersection difference complement].

Lemma empty_wf : wf empty.
Proof. by split. Qed.

Lemma contains_empty b : contains empty b = false.
Proof. split_words b; by rewrite ?N.bits_0. Qed.

Lemma all_wf : wf all.
Proof. split; apply ones_bound. Qed.

Lemma contains_all b : b < 256 → contains all b = true.
Proof. intros Hb. unfold all, u128_max. split_words b; apply N.ones_spec_low; lia. Qed.

Lemma from_byte_wf b : b < 256 → wf (from_byte b).
Proof.
  intros Hb. unfold from_byte, split_byte. destruct (N.ltb_spec b 128); split; cbn [lo hi fst]; try done; apply bit_bound; lia.
Qed.

Lemma contains_from_byte b x : contains (from_byte b) x = (x =? b).
Proof.
  rewrite contains_spec. unfold from_byte, split_byte.
  destruct (N.ltb_spec b 128), (N.ltb_spec x 128); cbn [lo hi fst]; rewrite ?bit_spec, ?N.bits_0; [done|..].
  - symmetry. apply N.eqb_neq. lia.
  - symmetry. apply N.eqb_neq. lia.
  - destruct (N.eqb_spec (x - 128) (b - 128)), (N.eqb_spec x b); lia.
Qed.

Lemma insert_wf s b : b < 256 → wf s → wf (insert s b).1.
Proof.
  intros Hb [Hl Hh]. unfold insert, split_byte.
  destruct (N.ltb_spec b 128); split; cbn [lo hi fst]; try done; apply lor_bound; try done; apply bit_bound; lia.
Qed.

Lemma contains_insert s b x : contains (insert s b).1 x = (x =? b) || contains s x.
Proof.
  rewrite !contains_spec. unfold insert, split_byte.
  destruct (N.ltb_spec b 128), (N.ltb_spec x 128); cbn [lo hi fst]; rewrite ?N.lor_spec, ?bit_spec.
  - apply orb_comm.
  - by rewrite (proj2 (N.eqb_neq x b)) by lia.
  - by rewrite (proj2 (N.eqb_neq x b)) by lia.
  - rewrite orb_comm. f_equal. destruct (N.eqb_spec (x - 128) (b - 128)), (N.eqb_spec x b); lia.
Qed.

Lemma remove_wf s b : wf s → wf (remove s b).1.
Proof.
  intros [Hl Hh]. unfold remove, split_byte. destruct (b <? 128); split; cbn [lo hi fst]; (done || by apply land_bound_l).
Qed.

Lemma contains_remove s b x :
  b < 256 → x < 256 → contains (remove s b).1 x = negb (x =? b) && contains s x.
Proof.
  intros Hb Hx. rewrite !contains_spec. unfold remove, split_byte.
  destruct (N.ltb_spec b 128), (N.ltb_spec x 128); cbn [lo hi fst];
    rewrite ?N.land_spec, ?word_not_spec, ?bit_spec by lia.
  - apply andb_comm.
  - by rewrite (proj2 (N.eqb_neq x b)) by lia.
  - by rewrite (proj2 (N.eqb_neq x b)) by lia.
  - rewrite andb_comm. do 2 f_equal. destruct (N.eqb_spec (x - 128) (b - 128)), (N.eqb_spec x b); lia.
Qed.

Lemma insert_all_spec s l :
  wf s → (∀ b, b ∈ l → b < 256) →
  wf (insert_all s l) ∧ ∀ x, contains (insert_all s l) x = bool_decide (x ∈ l) || contains s x.
Proof.
  revert s. induction l as [|b l IH]; intros s Hs Hl; simpl; [done|].
  destruct (IH (insert s b).1) as [Hwf Hc].
  - apply insert_wf; [|done]. apply Hl. by left.
  - intros c Hcl. apply Hl. by right.
  - split; [done|]. intros x. rewrite Hc, contains_insert.
    rewrite (bool_decide_ext (x ∈ b :: l) (x = b ∨ x ∈ l)) by apply elem_of_cons.
    rewrite bool_decide_or. destruct (N.eqb_spec x b) as [->|].
    + rewrite (bool_decide_eq_true_2 (b = b)) by done. by rewrite orb_true_r.
    + by rewrite (bool_decide_eq_false_2 (x = b)).
Qed.

Lemma elem_of_range_inclusive lo hi x : x ∈ range_inclusive lo hi ↔ lo ≤ x ∧ x ≤ hi.
Proof.
  unfold range_inclusive. rewrite list_elem_of_fmap. setoid_rewrite elem_of_seqN. split.
  - intros (k & -> & Hk). lia.
  - intros [Hl Hh]. exists (x - lo). split; lia.
Qed.

Lemma union_wf s s' : wf s → wf s' → wf (union s s').
Proof. intros [??] [??]. split; cbn [lo hi fst]; by apply lor_bound. Qed.

Lemma contains_union s s' b : contains (union s s') b = contains s b || contains s' b.
Proof. split_words b; apply N.lor_spec. Qed.

Lemma intersection_wf s s' : wf s → wf (intersection s s').
Proof. intros [??]. split; cbn [lo hi fst]; by apply land_bound_l. Qed.

Lemma contains_intersection s s' b : contains (intersection s s') b = contains s b && contains s' b.
Proof. split_words b; apply N.land_spec. Qed.

Lemma difference_wf s s' : wf s → wf (difference s s').
Proof. intros [??]. split; cbn [lo hi fst]; by apply land_bound_l. Qed.

Lemma contains_difference s s' b :
  b < 256 → contains (difference s s') b = contains s b && negb (contains s' b).
Proof. intros Hb. split_words b; by rewrite N.land_spec, word_not_spec by lia. Qed.

Lemma complement_wf s : wf s → wf (complement s).
Proof. intros [??]. split; cbn [lo hi fst]; by apply word_not_bound. Qed.

Lemma contains_complement s b : b < 256 → contains (complement s) b = negb (contains s b).
Proof. intros Hb. split_words b; by rewrite word_not_spec by lia. Qed.

Lemma from_predicate_spec f :
  wf (from_predicate f) ∧ ∀ x, contains (from_predicate f) x = bool_decide (x < 256) && f x.
Proof.
  unfold from_predicate.
  assert (Hl : ∀ b, b ∈ range_inclusive 0 255 ↔ b < 256) by (intros b; rewrite elem_of_range_inclusive; lia).
  cut (∀ l s, wf s → (∀ b, b ∈ l → b < 256) →
    wf (foldl (λ s b, if f b then (insert s b).1 else s) s l) ∧
    ∀ x, contains (foldl (λ s b, if f b then (insert s b).1 else s) s l) x =
         (bool_decide (x ∈ l) && f x) || contains s x).
  { intros Hc. destruct (Hc (range_inclusive 0 255) empty empty_wf) as [Hwf Hx]; [by intros b ?%Hl|].
    split; [done|]. intros x. rewrite Hx, contains_empty, orb_false_r. f_equal. apply bool_decide_ext, Hl. }
  clear Hl. induction l as [|b l IH]; intros s Hs Hl; simpl; [done|].
  assert (Hl' : ∀ c, c ∈ l → c < 256) by (intros c ?; apply Hl; by right).
  assert (Hb : b < 256) by (apply Hl; by left).
  destruct (IH (if f b then (insert s b).1 else s)) as [Hwf Hx]; [|done|].
  { destruct (f b); [by apply insert_wf|done]. }
  split; [done|]. intros x. rewrite Hx.
  rewrite (bool_decide_ext (x ∈ b :: l) (x = b ∨ x ∈ l)) by apply elem_of_cons.
  rewrite bool_decide_or. destruct (decide (x = b)) as [->|Hne].
  - rewrite (bool_decide_eq_true_2 (b = b)) by done. destruct (f b) eqn:E; [|by rewrite !andb_false_r].
    by rewrite contains_insert, N.eqb_refl, orb_true_r.
  - rewrite (bool_decide_eq_false_2 (x = b)) by done. simpl. f_equal.
    destruct (f b); [|done]. by rewrite contains_insert, (proj2 (N.eqb_neq x b)).
Qed.
End U8SetFacts.

(** * Iteration *)

Section iteration.
Import U8Set U8SetFacts.

Lemma collect_spec fuel s :
  wf s → (count_ones (lo s) + count_ones (hi s) < fuel)%nat →
  collect fuel s = word_bits 128 (lo s) ++ ((λ b, 128 + b) <$> word_bits 128 (hi s)).
Proof.
  revert s. induction fuel as [|fuel IH]; intros [l h] [Hl Hh] Hf; cbn [lo hi] in *; [lia|].
  cbn [collect]. unfold next, pop_lowest_bit. cbn [lo hi].
  destruct (N.eqb_spec l 0) as [->|Hl0].
  - rewrite word_bits_0. cbn [app].
    destruct (N.eqb_spec h 0) as [->|Hh0]; [by rewrite word_bits_0|].
    rewrite (word_bits_pop 128 h) by done. rewrite fmap_cons. f_equal.
    rewrite (count_ones_clear_lowest h) in Hf by done.
    rewrite IH; cbn [lo hi]; [by rewrite word_bits_0|split; [done|by apply clear_lowest_bound]|lia].
  - rewrite (word_bits_pop 128 l) by done. cbn [app]. f_equal.
    rewrite (count_ones_clear_lowest l) in Hf by done.
    rewrite IH; cbn [lo hi]; [done|split; [by apply clear_lowest_bound|done]|lia].
Qed.

Lemma iter_words s :
  wf s → iter s = word_bits 128 (lo s) ++ ((λ b, 128 + b) <$> word_bits 128 (hi s)).
Proof.
  intros Hs. apply collect_spec; [done|]. destruct Hs as [Hl Hh].
  pose proof (count_ones_le 128 (lo s) Hl). pose proof (count_ones_le 128 (hi s) Hh). lia.
Qed.

Lemma elem_of_iter s b : wf s → b ∈ iter s ↔ b < 256 ∧ contains s b = true.
Proof.
  intros Hs. rewrite iter_words, elem_of_app, list_elem_of_fmap, contains_spec by done.
  setoid_rewrite elem_of_word_bits. change (N.of_nat 128) with 128.
  destruct (N.ltb_spec b 128) as [Hb|Hb]; split.
  - intros [[_ ?]|(x & -> & _)]; [split; [lia|done]|lia].
  - intros [_ ?]. by left.
  - intros [[? _]|(x & -> & Hx & Hbit)]; [lia|]. replace (128 + x - 128) with x by lia. split; [lia|done].
  - intros [Hlt Hbit]. right. exists (b - 128). split; [lia|]. split; [lia|done].
Qed.

Lemma iter_sorted s : wf s → strictly_sorted (iter s).
Proof.
  intros Hs. rewrite iter_words by done. apply StronglySorted_app. split_and!.
  - intros x y [Hx _]%elem_of_word_bits (z & -> & _)%list_elem_of_fmap. change (N.of_nat 128) with 128 in Hx. lia.
  - apply word_bits_sorted.
  - apply (StronglySorted_fmap _ N.lt); [intros; lia|apply word_bits_sorted].
Qed.
End iteration.

Lemma len_iter (s : U8Set.t) : U8Set.wf s → U8Set.len s = lenN (U8Set.iter s).
Proof.
  intros Hs. unfold U8Set.len, lenN. rewrite iter_words by done. destruct Hs as [Hl Hh].
  rewrite length_app, length_fmap, <-!(count_ones_length 128) by done. lia.
Qed.

Lemma is_empty_iter (s : U8Set.t) : U8Set.wf s → U8Set.is_empty s = true ↔ U8Set.iter s = [].
Proof.
  intros Hs. unfold U8Set.is_empty. rewrite andb_true_iff, !N.eqb_eq. split.
  - intros [Hl Hh]. rewrite iter_words, Hl, Hh by done. by rewrite !word_bits_0.
  - intros Hi. assert (s = U8Set.empty) as ->; [|done].
    apply U8SetFacts.set_ext; [done|apply U8SetFacts.empty_wf|]. intros b Hb.
    rewrite U8SetFacts.contains_empty. destruct (U8Set.contains s b) eqn:E; [|done].
    assert (b ∈ U8Set.iter s) as Hc by (by apply elem_of_iter). rewrite Hi in Hc. by apply elem_of_nil in Hc.
Qed.

(** The iterator of a byte set yields exactly its bytes, in ascending order,
    and [len], [is_empty] and [is_full] agree with it. *)
Theorem u8set_iter_correct (s : U8Set.t) :
  U8Set.wf s →
  U8Set.iter s = filter (λ b, U8Set.contains s b) (seqN 256) ∧
  U8Set.len s = lenN (U8Set.iter s) ∧
  (U8Set.is_empty s = true ↔ U8Set.iter s = []) ∧
  (U8Set.is_full s = true ↔ U8Set.iter s = seqN 256).
Proof.
  intros Hs. assert (Hf : U8Set.iter s = filter (λ b, U8Set.contains s b) (seqN 256)).
  { apply strictly_sorted_ext; [by apply iter_sorted|apply StronglySorted_filter, strictly_sorted_seqN|].
    intros b. rewrite elem_of_iter, list_elem_of_filter, elem_of_seqN, Is_true_true by done.
    change (N.of_nat 256) with 256. tauto. }
  split; [done|]. split; [|split].
  - by apply len_iter.
  - by apply is_empty_iter.
  - unfold U8Set.is_full. rewrite andb_true_iff, !N.eqb_eq. split.
    + intros [Hl Hh]. assert (s = U8Set.all) as -> by (destruct s; cbn [U8Set.lo U8Set.hi] in *; by subst). vm_compute. reflexivity.
    + intros Hi. assert (s = U8Set.all) as ->; [|split; reflexivity].
      apply U8SetFacts.set_ext; [exact Hs|apply U8SetFacts.all_wf|]. intros b Hb.
      rewrite U8SetFacts.contains_all by exact Hb.
      assert (b ∈ U8Set.iter s) as Hc by (rewrite Hi; by apply elem_of_seqN). by apply elem_of_iter in Hc as [_ ?].
Qed.

Lemma u8set_iter_correct_witness :
  U8Set.iter (U8Set.from_bytes [200; 7; 7; 130; 0]) = [0; 7; 130; 200] ∧
  U8Set.len (U8Set.from_bytes [200; 7; 7; 130; 0]) = 4.
Proof.
  destruct (u8set_iter_correct (U8Set.from_bytes [200; 7; 7; 130; 0])) as (Hi & Hl & _).
  - apply U8SetFacts.wf_b_spec. vm_compute. reflexivity.
  - split; [rewrite Hi|rewrite Hl, Hi]; vm_compute; reflexivity.
Defined.

(** * Words *)

(** [to_words] and [from_words] are inverse to each other. *)
Theorem u8set_words_roundtrip (s : U8Set.t) (w0 w1 w2 w3 : N) :
  U8Set.wf s → w0 < 2 ^ 64 → w1 < 2 ^ 64 → w2 < 2 ^ 64 → w3 < 2 ^ 64 →
  U8Set.from_words (U8Set.to_words s) = s ∧
  U8Set.wf (U8Set.from_words (w0, w1, w2, w3)) ∧
  U8Set.to_words (U8Set.from_words (w0, w1, w2, w3)) = (w0, w1, w2, w3).
Proof.
  intros [Hl Hh] H0 H1 H2 H3.
  assert (Hjoin : ∀ x, x < 2 ^ 128 →
    N.lor (U8Set.as_u64 x) (N.shiftl (U8Set.as_u64 (N.shiftr x 64)) 64) = x).
  { intros x Hx. unfold U8Set.as_u64. apply N.bits_inj. intros i. rewrite N.lor_spec.
    destruct (decide (i < 64)) as [Hi|Hi].
    - rewrite N.mod_pow2_bits_low, N.shiftl_spec_low by exact Hi. apply orb_false_r.
    - rewrite N.mod_pow2_bits_high, N.shiftl_spec_high' by lia. rewrite orb_false_l.
      destruct (decide (i - 64 < 64)) as [Hi'|Hi'].
      + rewrite N.mod_pow2_bits_low, N.shiftr_spec' by exact Hi'. f_equal. lia.
      + rewrite N.mod_pow2_bits_high by lia. symmetry. apply (testbit_high x 128); [done|lia]. }
  assert (Hlow : ∀ x y, x < 2 ^ 64 → U8Set.as_u64 (N.lor x (N.shiftl y 64)) = x).
  { intros x y Hx. unfold U8Set.as_u64. apply N.bits_inj. intros i.
    destruct (decide (i < 64)) as [Hi|Hi].
    - rewrite N.mod_pow2_bits_low, N.lor_spec, N.shiftl_spec_low by exact Hi. apply orb_false_r.
    - rewrite N.mod_pow2_bits_high by lia. symmetry. apply (testbit_high x 64); [done|lia]. }
  assert (Hhigh : ∀ x y, x < 2 ^ 64 → y < 2 ^ 64 → U8Set.as_u64 (N.shiftr (N.lor x (N.shiftl y 64)) 64) = y).
  { intros x y Hx Hy. unfold U8Set.as_u64. apply N.bits_inj. intros i.
    destruct (decide (i < 64)) as [Hi|Hi].
    - rewrite N.mod_pow2_bits_low, N.shiftr_spec', N.lor_spec, N.shiftl_spec_high' by lia.
      rewrite (testbit_high x 64) by (done || lia). rewrite orb_false_l. f_equal. lia.
    - rewrite N.mod_pow2_bits_high by lia. symmetry. apply (testbit_high y 64); [done|lia]. }
  assert (Hfit : ∀ x y, x < 2 ^ 64 → y < 2 ^ 64 → N.lor x (N.shiftl y 64) < 2 ^ 128).
  { intros x y Hx Hy. apply bound_of_bits. intros i Hi. rewrite N.lor_spec, N.shiftl_spec_high' by lia.
    by rewrite (testbit_high x 64), (testbit_high y 64) by (done || lia). }
  split; [|split].
  - destruct s as [l h]. unfold U8Set.from_words, U8Set.to_words. cbn [U8Set.lo U8Set.hi] in *.
    by rewrite !Hjoin.
  - split; by apply Hfit.
  - unfold U8Set.from_words, U8Set.to_words. cbn [U8Set.lo U8Set.hi]. by rewrite !Hlow, !Hhigh.
Qed.

Lemma u8set_words_roundtrip_witness :
  U8Set.to_words (U8Set.from_words (1, 2, 3, 2 ^ 63)) = (1, 2, 3, 2 ^ 63) ∧
  U8Set.from_words (U8Set.to_words (U8Set.from_range 60 70)) = U8Set.from_range 60 70.
Proof.
  destruct (u8set_words_roundtrip (U8Set.from_range 60 70) 1 2 3 (2 ^ 63)) as (H1 & _ & H2);
    [apply U8SetFacts.wf_b_spec; vm_compute; reflexivity|vm_compute; reflexivity..|].
  split; [exact H2|exact H1].
Defined.

(** * Refinement to finite sets *)

Lemma elem_of_to_set s b : U8Set.wf s → b ∈ U8Set.to_set s ↔ b < 256 ∧ U8Set.contains s b = true.
Proof. intros Hs. unfold U8Set.to_set. by rewrite elem_of_list_to_set, elem_of_iter. Qed.

Lemma elem_of_bytes b : b ∈ U8Set.bytes ↔ b < 256.
Proof. unfold U8Set.bytes. rewrite elem_of_list_to_set, elem_of_seqN. done. Qed.

(** Unfold an equation between the set of a result and a set expression. *)
Ltac set_goal Heq Hin Hin' :=
  apply Heq; [|intros x Hx; rewrite ?elem_of_union, ?elem_of_intersection, ?elem_of_difference,
    ?elem_of_singleton, ?Hin, ?Hin', ?elem_of_bytes|intros x;
    rewrite ?elem_of_union, ?elem_of_intersection, ?elem_of_difference,
      ?elem_of_singleton, ?Hin, ?Hin', ?elem_of_bytes].

(** The operations of [U8Set] are those of finite sets of bytes: each result
    is well formed and stands for the set the operation is named after. *)
Theorem u8set_refines_sets (s s' : U8Set.t) (b lo hi : N) :
  U8Set.wf s → U8Set.wf s' → b < 256 → hi < 256 →
  let S := U8Set.to_set s in let S' := U8Set.to_set s' in
  U8Set.to_set (U8Set.single b) = {[ b ]} ∧
  U8Set.to_set (U8Set.insert s b).1 = {[ b ]} ∪ S ∧ (U8Set.insert s b).2 = bool_decide (b ∉ S) ∧
  U8Set.to_set (U8Set.remove s b).1 = S ∖ {[ b ]} ∧ (U8Set.remove s b).2 = bool_decide (b ∈ S) ∧
  U8Set.to_set (U8Set.from_range lo hi) = filter (λ x, lo ≤ x ∧ x ≤ hi) U8Set.bytes ∧
  U8Set.to_set (U8Set.union s s') = S ∪ S' ∧
  U8Set.to_set (U8Set.intersection s s') = S ∩ S' ∧
  U8Set.to_set (U8Set.difference s s') = S ∖ S' ∧
  U8Set.to_set (U8Set.complement s) = U8Set.bytes ∖ S ∧
  U8Set.is_disjoint s s' = bool_decide (S ## S') ∧
  U8Set.is_subset s s' = bool_decide (S ⊆ S').
Proof.
  intros Hs Hs' Hb Hhi S S'. unfold S, S'.
  assert (Heq : ∀ r X, U8Set.wf r → (∀ x, x < 256 → U8Set.contains r x = true ↔ x ∈ X) →
    (∀ x, x ∈ X → x < 256) → U8Set.to_set r = X).
  { intros r X Hr Hc HX. apply set_eq. intros x. rewrite elem_of_to_set by done. split.
    - intros [Hx Hcx]. by apply Hc.
    - intros Hx. split; [by apply HX|]. apply Hc; [by apply HX|done]. }
  assert (Hin : ∀ x, x ∈ U8Set.to_set s ↔ x < 256 ∧ U8Set.contains s x = true) by (intros; by apply elem_of_to_set).
  assert (Hin' : ∀ x, x ∈ U8Set.to_set s' ↔ x < 256 ∧ U8Set.contains s' x = true) by (intros; by apply elem_of_to_set).
  assert (Hempty : ∀ r, U8Set.wf r → U8Set.is_empty r = true ↔ ∀ x, x < 256 → U8Set.contains r x = false).
  { intros [l h] [Hl Hh]. unfold U8Set.is_empty. cbn [U8Set.lo U8Set.hi] in *.
    rewrite andb_true_iff, !N.eqb_eq. split.
    - intros [-> ->] x Hx. apply U8SetFacts.contains_empty.
    - intros Hx. assert (U8Set.mk l h = U8Set.empty) as [= -> ->]; [|done].
      apply U8SetFacts.set_ext; [done|apply U8SetFacts.empty_wf|].
      intros x ?. by rewrite U8SetFacts.contains_empty, Hx. }
  split_and!.
  - set_goal Heq Hin Hin'; [by apply U8SetFacts.from_byte_wf| |by intros ->].
    rewrite U8SetFacts.contains_from_byte. apply N.eqb_eq.
  - set_goal Heq Hin Hin'; [by apply U8SetFacts.insert_wf| |by intros [->|[? _]]].
    rewrite U8SetFacts.contains_insert, orb_true_iff, N.eqb_eq. tauto.
  - unfold U8Set.insert. destruct (U8Set.split_byte b) as [[] ?]; simpl;
      (rewrite (bool_decide_ext _ (¬ U8Set.contains s b = true)) by (rewrite Hin; tauto));
      by destruct (U8Set.contains s b).
  - set_goal Heq Hin Hin'; [by apply U8SetFacts.remove_wf| |by intros [[? _] _]].
    rewrite U8SetFacts.contains_remove, andb_true_iff, negb_true_iff, N.eqb_neq by done. tauto.
  - unfold U8Set.remove. destruct (U8Set.split_byte b) as [[] ?]; simpl;
      (rewrite (bool_decide_ext _ (U8Set.contains s b = true)) by (rewrite Hin; tauto));
      by destruct (U8Set.contains s b).
  - destruct (U8SetFacts.insert_all_spec U8Set.empty (U8Set.range_inclusive lo hi)) as [Hwf Hc].
    + apply U8SetFacts.empty_wf.
    + intros x [_ Hx]%U8SetFacts.elem_of_range_inclusive. lia.
    + apply Heq; [done| |intros x [_ Hx]%elem_of_filter; by apply elem_of_bytes].
      intros x Hx. unfold U8Set.from_range.
      rewrite Hc, U8SetFacts.contains_empty, orb_false_r, bool_decide_eq_true,
        U8SetFacts.elem_of_range_inclusive, elem_of_filter, elem_of_bytes. tauto.
  - set_goal Heq Hin Hin'; [by apply U8SetFacts.union_wf| |tauto].
    rewrite U8SetFacts.contains_union, orb_true_iff. tauto.
  - set_goal Heq Hin Hin'; [by apply U8SetFacts.intersection_wf| |tauto].
    rewrite U8SetFacts.contains_intersection, andb_true_iff. tauto.
  - set_goal Heq Hin Hin'; [by apply U8SetFacts.difference_wf| |tauto].
    rewrite U8SetFacts.contains_difference, andb_true_iff, negb_true_iff, <-not_true_iff_false by done. tauto.
  - set_goal Heq Hin Hin'; [by apply U8SetFacts.complement_wf| |tauto].
    rewrite U8SetFacts.contains_complement, negb_true_iff, <-not_true_iff_false by done. tauto.
  - apply eq_bool_prop_intro. rewrite !Is_true_true, bool_decide_eq_true.
    assert (Hd : U8Set.is_disjoint s s' = U8Set.is_empty (U8Set.intersection s s')) by done.
    rewrite Hd, Hempty by (by apply U8SetFacts.intersection_wf). rewrite elem_of_disjoint.
    setoid_rewrite U8SetFacts.contains_intersection. setoid_rewrite <-not_true_iff_false.
    setoid_rewrite andb_true_iff. setoid_rewrite Hin. setoid_rewrite Hin'. naive_solver.
  - apply eq_bool_prop_intro. rewrite !Is_true_true, bool_decide_eq_true.
    assert (Hd : U8Set.is_subset s s' = U8Set.is_empty (U8Set.difference s s')) by done.
    rewrite Hd, Hempty by (by apply U8SetFacts.difference_wf). rewrite elem_of_subseteq.
    setoid_rewrite Hin. setoid_rewrite Hin'. split.
    + intros H x [Hx Hc]. split; [done|]. specialize (H x Hx).
      rewrite U8SetFacts.contains_difference, Hc in H by done. simpl in H. by apply negb_false_iff in H.
    + intros H x Hx. rewrite U8SetFacts.contains_difference by done.
      destruct (U8Set.contains s x) eqn:E; [|done]. destruct (H x) as [_ ->]; done.
Qed.

Lemma u8set_refines_sets_witness :
  let s := U8Set.from_range 97 122 in let s' := U8Set.from_bytes [97; 200] in
  U8Set.to_set (U8Set.intersection s s') = {[ 97 ]} ∧ U8Set.is_subset s s' = false.
Proof.
  intros s s'.
  destruct (u8set_refines_sets s s' 5 1 2) as (_ & _ & _ & _ & _ & _ & _ & Hi & _ & _ & _ & Hsub);
    [apply U8SetFacts.wf_b_spec; vm_compute; reflexivity..|vm_compute; reflexivity|vm_compute; reflexivity|].
  split; [rewrite Hi|rewrite Hsub]; vm_compute; reflexivity.
Defined.
