(* ===== verification/BitSet.v ===== *)
(** Fixed-length bit sets over 64-bit words
    (crates/glrmask-lexer/src/ds/bitset.rs), refined to finite sets of indices. *)

From S2P Require Import Prelude Bits.

(** [lia] with division and remainder by constants. *)
#[local] Ltac Zify.zify_post_hook ::= Z.to_euclidean_division_equations.

Module BitSet.
(** The [SmallVec] of words and the number of bits. *)
Record t := mk { words : list N; len : N }.

#[global] Instance eq_dec : EqDecision t.
Proof. solve_decision. Defined.

(** [len.div_ceil(64)] *)
Definition div_ceil_64 (len : N) : N := (len + 63) / 64.

Definition u64_max : N := N.ones 64.

(** [(1u64 << rem) - 1] *)
Definition low_mask (rem : N) : N := bit rem - 1.

Definition from_dense_words (len : N) (words : list N) : option t :=
  if negb (lenN words =? div_ceil_64 len) then None
  else
    match last words with
    | Some last =>
        let rem := len mod 64 in
        if negb (rem =? 0) && negb (N.land last (word_not 64 (low_mask rem)) =? 0)
        then None
        else Some (mk words len)
    | None => Some (mk words len)
    end.

Definition bit_position (s : t) (index : N) : option (N * N) :=
  if index <? len s then Some (index / 64, index mod 64) else None.

Definition new (len : N) : t := mk (replicate (N.to_nat (div_ceil_64 len)) 0) len.

(** [debug_assert!] is not compiled into a release build. *)
Definition from_sparse_u32 (len : N) (indices : list N) : t :=
  if len <=? 64 then
    let word := foldl (λ word index, if index <? len then N.lor word (bit index) else word) 0 indices in
    mk (if negb (len =? 0) then [word] else []) len
  else
    mk (foldl (λ words index,
          if index <? len
          then alterN (λ w, N.lor w (bit (index mod 64))) words (index / 64)
          else words)
        (words (new len)) indices) len.

Definition empty (len : N) : t := new len.

(** The last word loses the bits above the length. *)
Definition mask_unused_bits (s : t) : t :=
  let rem := len s mod 64 in
  if rem =? 0 then s
  else mk (alterN (λ last, N.land last (low_mask rem)) (words s) (lenN (words s) - 1)) (len s).

Definition all (len : N) : t :=
  mask_unused_bits (mk (replicate (N.to_nat (div_ceil_64 len)) u64_max) len).

(** The indexed word; it exists in a well-formed set. *)
Definition word_at (s : t) (word_index : N) : N := default 0 (words s).[word_index].

Definition get (s : t) (i : N) : bool :=
  match bit_position s i with
  | None => false
  | Some (word_index, bit_index) => negb (N.land (word_at s word_index) (bit bit_index) =? 0)
  end.

Definition contains (s : t) (i : N) : bool := get s i.

Definition set (s : t) (i : N) : t :=
  match bit_position s i with
  | Some (word_index, bit_index) => mk (alterN (λ w, N.lor w (bit bit_index)) (words s) word_index) (len s)
  | None => s
  end.

Definition clear (s : t) (i : N) : t :=
  match bit_position s i with
  | Some (word_index, bit_index) =>
      mk (alterN (λ w, N.land w (word_not 64 (bit bit_index))) (words s) word_index) (len s)
  | None => s
  end.

Definition clear_all (s : t) : t := mk ((λ _, 0) <$> words s) (len s).

(** The assertion that the domain does not grow panics. *)
Definition truncate (s : t) (new_len : N) : option t :=
  if new_len <=? len s
  then Some (mask_unused_bits (mk (take (N.to_nat (div_ceil_64 new_len)) (words s)) new_len))
  else None.

Definition count_ones (s : t) : nat := sum_list_with Bits.count_ones (words s).
Definition is_zero (s : t) : bool := forallb (λ word, word =? 0) (words s).
Definition is_empty (s : t) : bool := is_zero s.

(** [for (lhs, rhs) in words.iter_mut().zip(other)] with [*lhs = f lhs rhs] *)
Fixpoint zip_words (f : N → N → N) (l r : list N) : list N :=
  match l, r with
  | x :: l, y :: r => f x y :: zip_words f l r
  | l, _ => l
  end.

Definition union_with (s other : t) : t := mk (zip_words N.lor (words s) (words other)) (len s).
Definition union_with_prefix (s other : t) : t := mk (zip_words N.lor (words s) (words other)) (len s).

Definition union_with_changed (s other : t) : t * bool :=
  (mk (zip_words N.lor (words s) (words other)) (len s),
   existsb (λ p, negb (N.lor p.1 p.2 =? p.1)) (zip (words s) (words other))).

Definition union_intersection_with (s left right : t) : t * bool :=
  let both := zip_words N.land (words left) (words right) in
  (mk (zip_words N.lor (words s) (take (length (words right)) both)) (len s),
   existsb (λ p, negb (p.2 =? 0)) (zip (words s) (take (length (words right)) both))).

(** The set with the other bits added, and the bits that are new. *)
Definition union_with_delta (s other : t) : t * t :=
  (mk (zip_words N.lor (words s) (words other)) (len s),
   mk (zip_words (λ _ d, d) (words (new (len s)))
         (zip_with (λ lhs rhs, N.land rhs (word_not 64 lhs)) (words s) (words other))) (len s)).

Definition union (s other : t) : t := union_with s other.
Definition intersect_with (s other : t) : t := mk (zip_words N.land (words s) (words other)) (len s).
Definition intersection (s other : t) : t := intersect_with s other.
Definition difference (s other : t) : t :=
  mask_unused_bits (mk (zip_words (λ lhs rhs, N.land lhs (word_not 64 rhs)) (words s) (words other)) (len s)).
Definition complement (s : t) : t := mask_unused_bits (mk (word_not 64 <$> words s) (len s)).

Definition is_disjoint (s other : t) : bool :=
  forallb (λ p, N.land p.1 p.2 =? 0) (zip (words s) (words other)).
Definition is_disjoint_prefix (s other : t) : bool :=
  forallb (λ p, N.land p.1 p.2 =? 0) (zip (words s) (words other)).
Definition is_subset (s other : t) : bool :=
  forallb (λ p, N.land p.1 (word_not 64 p.2) =? 0) (zip (words s) (words other)).
Definition is_subset_of_extended (s other : t) : bool :=
  forallb (λ p, N.land p.1 (word_not 64 p.2) =? 0) (zip (words s) (words other)).

(** [BitIter] over each word; a word has at most 64 bits. *)
Definition iter_ones (s : t) : list N :=
  '(word_idx, word) ← enumerate (words s);
  (λ b, word_idx * 64 + b) <$> pop_bits 64 word.

Definition fill_u32_mask (s : t) (buf : list N) : list N :=
  foldl (λ buf '(i, word),
      let base := i * 2 in
      let buf := if base <? lenN buf then alterN (λ _, as_u32 word) buf base else buf in
      if base + 1 <? lenN buf then alterN (λ _, as_u32 (N.shiftr word 32)) buf (base + 1) else buf)
    buf (enumerate (words s)).

(** The bit of the words, without the length. *)
Definition bit_at (words : list N) (i : N) : bool := N.testbit (default 0 words.[i / 64]) (i mod 64).

(** As many words as the length needs, at their width, without bits above it. *)
Record wf (s : t) : Prop := {
  wf_len : lenN (words s) = div_ceil_64 (len s);
  wf_words : ∀ i w, (words s).[i] = Some w → w < 2 ^ 64;
  wf_unused : ∀ i, len s ≤ i → bit_at (words s) i = false;
}.

Definition to_set (s : t) : gset N := list_to_set (iter_ones s).
Definition indices (s : t) : gset N := list_to_set (seqN (N.to_nat (len s))).

(** The abstraction relation: a well-formed value and the set it stands for. *)
Definition implements (s : t) (X : gset N) : Prop := wf s ∧ to_set s = X.
End BitSet.

Module BitSetFacts.
Import BitSet.

Lemma div_mod_64 i : i = 64 * (i / 64) + i mod 64 ∧ i mod 64 < 64.
Proof. split; [apply N.div_mod; lia|apply N.mod_lt; lia]. Qed.

Lemma div_64_unique q r : r < 64 → (q * 64 + r) / 64 = q ∧ (q * 64 + r) mod 64 = r.
Proof.
  intros Hr. split.
  - symmetry. apply (N.div_unique _ _ _ r); [done|lia].
  - symmetry. apply (N.mod_unique _ _ q); [done|lia].
Qed.

Lemma div_ceil_64_spec len w : w < div_ceil_64 len ↔ w * 64 < len.
Proof.
  unfold div_ceil_64. pose proof (div_mod_64 (len + 63)) as [Heq Hr].
  generalize dependent ((len + 63) mod 64). generalize ((len + 63) / 64). intros q r Heq Hr. lia.
Qed.

Lemma word_index_lt len i : i < len → i / 64 < div_ceil_64 len.
Proof.
  intros Hi. apply div_ceil_64_spec. pose proof (div_mod_64 i) as [Heq Hr].
  lia.
Qed.

Lemma get_bit_at s i : get s i = (i <? len s) && bit_at (words s) i.
Proof.
  unfold get, bit_position, word_at, bit_at. destruct (i <? len s); [|done]. apply land_bit_nonzero.
Qed.

Lemma get_wf s i : wf s → get s i = bit_at (words s) i.
Proof.
  intros Hs. rewrite get_bit_at. destruct (N.ltb_spec i (len s)); [done|]. simpl. symmetry. by apply (wf_unused s Hs).
Qed.

(** In a well-formed set the indexed word of [get] exists. *)
Lemma word_exists s i : wf s → i < len s → is_Some (words s).[i / 64].
Proof. intros Hs Hi. apply nthN_Some_lt. rewrite (wf_len s Hs). by apply word_index_lt. Qed.

Lemma words_ext l l' :
  lenN l = lenN l' → (∀ i w, l.[i] = Some w → w < 2 ^ 64) → (∀ i w, l'.[i] = Some w → w < 2 ^ 64) →
  (∀ i, bit_at l i = bit_at l' i) → l = l'.
Proof.
  intros Hlen Hl Hl' Hb. apply nthN_ext. intros q. destruct l.[q] as [x|] eqn:Ex.
  - destruct (proj1 (nthN_Some_lt l' q)) as [y Ey]; [rewrite <-Hlen; by eapply nthN_lt|]. rewrite Ey.
    f_equal. apply (word_ext x y 64); [by eapply Hl|by eapply Hl'|]. intros r Hr.
    specialize (Hb (q * 64 + r)). unfold bit_at in Hb. destruct (div_64_unique q r Hr) as [-> ->] in Hb.
    by rewrite Ex, Ey in Hb.
  - symmetry. apply nthN_None. rewrite <-Hlen. by apply nthN_None.
Qed.

Lemma wf_ext s s' : wf s → wf s' → len s = len s' → (∀ i, i < len s → get s i = get s' i) → s = s'.
Proof.
  intros Hs Hs' Hlen Hg. destruct s as [l n], s' as [l' n']. simpl in *. subst n'. f_equal.
  apply words_ext.
  - pose proof (wf_len _ Hs). pose proof (wf_len _ Hs'). simpl in *. congruence.
  - apply (wf_words _ Hs).
  - apply (wf_words _ Hs').
  - intros i. destruct (decide (i < n)) as [Hi|Hi].
    + specialize (Hg i Hi). by rewrite !get_wf in Hg.
    + rewrite (wf_unused _ Hs), (wf_unused _ Hs'); simpl; [done|lia..].
Qed.

(** ** Word by word *)

Lemma nthN_zip_words f l r i :
  (zip_words f l r).[i] =
  match l.[i], r.[i] with Some x, Some y => Some (f x y) | x, _ => x end.
Proof.
  revert r i. induction l as [|x l IH]; intros [|y r] i; simpl; [done..| |].
  - destruct (N.eqb_spec i 0); [done|]. by destruct (l.[N.pred i]).
  - destruct (N.eqb_spec i 0); [done|]. apply IH.
Qed.

Lemma lenN_zip_words f l r : lenN (zip_words f l r) = lenN l.
Proof.
  unfold lenN. f_equal. revert r. induction l as [|x l IH]; intros [|y r]; simpl; [done..|]. by rewrite IH.
Qed.

Lemma bit_at_out l i : lenN l ≤ i / 64 → bit_at l i = false.
Proof. intros Hi%nthN_None. unfold bit_at. rewrite Hi. apply N.bits_0. Qed.

(** The bits of a zipped update: [g] is the operation on bits, and leaves the
    bits that have no counterpart. *)
Lemma bit_at_zip_words f g l r i :
  (∀ x y j, j < 64 → N.testbit (f x y) j = g (N.testbit x j) (N.testbit y j)) →
  (lenN l ≤ lenN r ∨ ∀ b, g b false = b) → (∀ b, g false b = false) ∨ lenN r ≤ lenN l → g false false = false →
  bit_at (zip_words f l r) i = g (bit_at l i) (bit_at r i).
Proof.
  intros Hfg Hl Hr H0. unfold bit_at. rewrite nthN_zip_words. pose proof (div_mod_64 i) as [_ Hm].
  destruct (l.[i / 64]) as [x|] eqn:Ex; destruct (r.[i / 64]) as [y|] eqn:Ey; simpl default; rewrite ?N.bits_0.
  - by apply Hfg.
  - destruct Hl as [Hle|Hg]; [|by rewrite Hg]. apply nthN_lt in Ex. apply nthN_None in Ey. lia.
  - destruct Hr as [Hg|Hle]; [by rewrite Hg|]. apply nthN_lt in Ey. apply nthN_None in Ex. lia.
  - done.
Qed.

Lemma zip_words_bound f l r :
  (∀ x y, x < 2 ^ 64 → y < 2 ^ 64 → f x y < 2 ^ 64) →
  (∀ i w, l.[i] = Some w → w < 2 ^ 64) → (∀ i w, r.[i] = Some w → w < 2 ^ 64) →
  ∀ i w, (zip_words f l r).[i] = Some w → w < 2 ^ 64.
Proof.
  intros Hf Hl Hr i w. rewrite nthN_zip_words.
  destruct (l.[i]) as [x|] eqn:Ex; destruct (r.[i]) as [y|] eqn:Ey; intros [= <-]; eauto.
Qed.

(** The zipped update by a set of the same length, or of a shorter one when
    missing bits change nothing. *)
Lemma zip_words_wf f g s s' :
  wf s → wf s' → len s' = len s ∨ len s' ≤ len s ∧ (∀ b, g b false = b) →
  (∀ x y, x < 2 ^ 64 → y < 2 ^ 64 → f x y < 2 ^ 64) →
  (∀ x y j, j < 64 → N.testbit (f x y) j = g (N.testbit x j) (N.testbit y j)) → g false false = false →
  wf (mk (zip_words f (words s) (words s')) (len s)) ∧
  ∀ i, get (mk (zip_words f (words s) (words s')) (len s)) i = g (get s i) (get s' i).
Proof.
  intros Hs Hs' Hlen Hf Hfg H0.
  assert (Hle : len s' ≤ len s) by (destruct Hlen as [->|[? _]]; lia).
  assert (Hw : lenN (words s') ≤ lenN (words s)).
  { rewrite (wf_len s'), (wf_len s) by done. unfold div_ceil_64. lia. }
  assert (Hb : ∀ i, bit_at (zip_words f (words s) (words s')) i = g (bit_at (words s) i) (bit_at (words s') i)).
  { intros i. apply bit_at_zip_words; [done| |right; lia|done].
    destruct Hlen as [Hl|[_ ?]]; [left|by right]. rewrite (wf_len s'), (wf_len s), Hl by done. lia. }
  assert (Hwf : wf (mk (zip_words f (words s) (words s')) (len s))).
  { split; cbn [words len].
    - by rewrite lenN_zip_words, (wf_len s).
    - apply zip_words_bound; [done|apply (wf_words s Hs)|apply (wf_words s' Hs')].
    - intros i Hi. rewrite Hb, (wf_unused s), (wf_unused s') by (done || lia). done. }
  split; [done|]. intros i. rewrite !get_wf by done. apply Hb.
Qed.

(** ** Masking the last word *)

Lemma low_mask_spec r j : N.testbit (low_mask r) j = (j <? r).
Proof.
  unfold low_mask, bit. rewrite N.shiftl_1_l, N.sub_1_r, <-N.ones_equiv.
  destruct (N.ltb_spec j r); [by apply N.ones_spec_low|by apply N.ones_spec_high].
Qed.

Lemma mask_unused_bits_spec s :
  lenN (words s) = div_ceil_64 (len s) → (∀ i w, (words s).[i] = Some w → w < 2 ^ 64) →
  wf (mask_unused_bits s) ∧ len (mask_unused_bits s) = len s ∧
  ∀ i, get (mask_unused_bits s) i = (i <? len s) && bit_at (words s) i.
Proof.
  intros Hlen Hw.
  assert (Hb : ∀ i, bit_at (words (mask_unused_bits s)) i = (i <? len s) && bit_at (words s) i).
  { intros i. pose proof (div_mod_64 i) as [Hi Him]. pose proof (div_mod_64 (len s)) as [Hn Hnm].
    unfold mask_unused_bits. destruct (N.eqb_spec (len s mod 64) 0) as [Hz|Hnz].
    - destruct (N.ltb_spec i (len s)) as [|Hge]; [done|]. apply bit_at_out. rewrite Hlen.
      apply N.nlt_ge. rewrite div_ceil_64_spec. lia.
    - cbn [words]. unfold bit_at at 1. rewrite nthN_alterN.
      assert (Hlast : lenN (words s) - 1 = len s / 64 ∧ len s / 64 < lenN (words s)).
      { rewrite Hlen. assert (len s / 64 < div_ceil_64 (len s)) by (apply div_ceil_64_spec; lia).
        assert (¬ len s / 64 + 1 < div_ceil_64 (len s)) by (rewrite div_ceil_64_spec; lia). lia. }
      destruct Hlast as [-> Hlast]. destruct (N.eqb_spec (i / 64) (len s / 64)) as [Heq|Hne].
      + unfold bit_at. destruct (proj1 (nthN_Some_lt (words s) (i / 64))) as [w ->]; [by rewrite Heq|].
        simpl default. rewrite N.land_spec, low_mask_spec, andb_comm. f_equal.
        destruct (N.ltb_spec (i mod 64) (len s mod 64)), (N.ltb_spec i (len s)); lia.
      + fold (bit_at (words s) i). destruct (N.ltb_spec i (len s)) as [|Hge]; [done|].
        apply bit_at_out. rewrite Hlen. apply N.nlt_ge. rewrite div_ceil_64_spec. lia. }
  assert (Hl : len (mask_unused_bits s) = len s) by (unfold mask_unused_bits; by case_match).
  assert (Hwf : wf (mask_unused_bits s)).
  { split; rewrite ?Hl.
    - unfold mask_unused_bits. case_match; [done|]. cbn [words]. by rewrite lenN_alterN.
    - intros i w. unfold mask_unused_bits. case_match; [apply Hw|]. cbn [words]. rewrite nthN_alterN.
      destruct (N.eqb_spec i (lenN (words s) - 1)); [|apply Hw].
      destruct ((words s).[i]) as [x|] eqn:Ex; [|done]. intros [= <-]. apply land_bound_l. by eapply Hw.
    - intros i Hi. rewrite Hb. by rewrite (proj2 (N.ltb_ge _ _) Hi). }
  split; [done|]. split; [done|]. intros i. by rewrite get_wf, Hb.
Qed.

(** ** Construction *)

Lemma nthN_replicate_Some n (x w : N) i : (replicate n x).[i] = Some w → w = x.
Proof. rewrite nthN_replicate. case_match; congruence. Qed.

Lemma bit_at_replicate_0 n i : bit_at (replicate n 0) i = false.
Proof.
  unfold bit_at. rewrite nthN_replicate. case_match; apply N.bits_0.
Qed.

Lemma new_wf n : wf (new n).
Proof.
  split; unfold new; cbn [words len].
  - rewrite lenN_replicate. lia.
  - intros i w ->%nthN_replicate_Some. done.
  - intros i _. apply bit_at_replicate_0.
Qed.

Lemma get_new n i : get (new n) i = false.
Proof. rewrite get_bit_at. unfold new. cbn [words]. rewrite bit_at_replicate_0. apply andb_false_r. Qed.

Lemma all_spec n : wf (all n) ∧ len (all n) = n ∧ ∀ i, get (all n) i = (i <? n).
Proof.
  unfold all. destruct (mask_unused_bits_spec (mk (replicate (N.to_nat (div_ceil_64 n)) u64_max) n))
    as (Hwf & Hl & Hg); cbn [words len].
  - rewrite lenN_replicate. lia.
  - intros i w ->%nthN_replicate_Some. apply ones_bound.
  - split; [done|]. split; [done|]. intros i. rewrite Hg. cbn [words len].
    destruct (N.ltb_spec i n) as [Hi|]; [|done]. unfold bit_at. rewrite nthN_replicate.
    rewrite N2Nat.id, (proj2 (N.ltb_lt _ _) (word_index_lt n i Hi)). apply N.ones_spec_low.
    apply div_mod_64.
Qed.

(** ** Setting and clearing *)

Lemma bit_at_alterN f l q i :
  q < lenN l →
  bit_at (alterN f l q) i =
  if i / 64 =? q then N.testbit (f (default 0 l.[q])) (i mod 64) else bit_at l i.
Proof.
  intros Hq. unfold bit_at. rewrite nthN_alterN. destruct (N.eqb_spec (i / 64) q) as [->|]; [|done].
  by apply nthN_Some_lt in Hq as [x ->].
Qed.

Lemma alter_bits_wf s f g i :
  wf s → i < len s →
  (∀ x, x < 2 ^ 64 → f x < 2 ^ 64) →
  (∀ x j, j < 64 → N.testbit (f x) j = if j =? i mod 64 then g else N.testbit x j) →
  wf (mk (alterN f (words s) (i / 64)) (len s)) ∧
  ∀ j, get (mk (alterN f (words s) (i / 64)) (len s)) j = if j =? i then g else get s j.
Proof.
  intros Hs Hi Hf Hb.
  assert (Hq : i / 64 < lenN (words s)) by (rewrite (wf_len s Hs); by apply word_index_lt).
  assert (Hbit : ∀ j, bit_at (alterN f (words s) (i / 64)) j = if j =? i then g else bit_at (words s) j).
  { intros j. rewrite bit_at_alterN by done. pose proof (div_mod_64 i) as [Hi1 Hi2].
    pose proof (div_mod_64 j) as [Hj1 Hj2].
    destruct (N.eqb_spec (j / 64) (i / 64)) as [Heq|Hne].
    - rewrite Hb by done. unfold bit_at. rewrite Heq.
      destruct (N.eqb_spec (j mod 64) (i mod 64)), (N.eqb_spec j i); (done || lia || congruence).
    - destruct (N.eqb_spec j i) as [->|]; done. }
  assert (Hwf : wf (mk (alterN f (words s) (i / 64)) (len s))).
  { split; cbn [words len].
    - rewrite lenN_alterN. apply (wf_len s Hs).
    - intros k w. rewrite nthN_alterN. destruct (N.eqb_spec k (i / 64)); [|apply (wf_words s Hs)].
      destruct ((words s).[k]) as [x|] eqn:Ex; [|done]. intros [= <-]. apply Hf. by eapply (wf_words s Hs).
    - intros j Hj. rewrite Hbit, (proj2 (N.eqb_neq j i)) by lia. by apply (wf_unused s Hs). }
  split; [done|]. intros j. rewrite !get_wf by done. apply Hbit.
Qed.

Lemma set_spec s i :
  wf s → wf (set s i) ∧ len (set s i) = len s ∧
  ∀ j, get (set s i) j = ((j =? i) && (i <? len s)) || get s j.
Proof.
  intros Hs. unfold set, bit_position. destruct (N.ltb_spec i (len s)) as [Hi|Hi].
  - destruct (alter_bits_wf s (λ w, N.lor w (bit (i mod 64))) true i Hs Hi) as [Hwf Hg].
    + intros x Hx. apply lor_bound; [done|]. apply bit_bound, div_mod_64.
    + intros x j Hj. rewrite N.lor_spec, bit_spec. destruct (j =? i mod 64); [apply orb_true_r|apply orb_false_r].
    + split; [done|]. split; [done|]. intros j. rewrite Hg, andb_true_r. by destruct (j =? i).
  - split; [done|]. split; [done|]. intros j. by rewrite andb_false_r.
Qed.

Lemma clear_spec s i :
  wf s → wf (clear s i) ∧ len (clear s i) = len s ∧ ∀ j, get (clear s i) j = negb (j =? i) && get s j.
Proof.
  intros Hs. unfold clear, bit_position. destruct (N.ltb_spec i (len s)) as [Hi|Hi].
  - destruct (alter_bits_wf s (λ w, N.land w (word_not 64 (bit (i mod 64)))) false i Hs Hi) as [Hwf Hg].
    + intros x Hx. by apply land_bound_l.
    + intros x j Hj. rewrite N.land_spec, word_not_spec, bit_spec by done.
      destruct (j =? i mod 64); [apply andb_false_r|apply andb_true_r].
    + split; [done|]. split; [done|]. intros j. rewrite Hg. by destruct (j =? i).
  - split; [done|]. split; [done|]. intros j. destruct (N.eqb_spec j i) as [->|]; [|done].
    rewrite get_wf by done. simpl. by apply (wf_unused s Hs).
Qed.

Lemma clear_all_spec s : wf s → clear_all s = new (len s).
Proof.
  intros Hs. unfold clear_all, new. f_equal.
  rewrite <-(wf_len s Hs). unfold lenN. rewrite Nat2N.id.
  induction (words s) as [|w l IH]; [done|]. cbn. f_equal. exact IH.
Qed.

(** ** Iteration *)

Definition words_ones (l : list N) : list N :=
  '(word_idx, word) ← enumerate l; (λ b, word_idx * 64 + b) <$> pop_bits 64 word.

Lemma words_ones_snoc l w :
  words_ones (l ++ [w]) = words_ones l ++ ((λ b, lenN l * 64 + b) <$> pop_bits 64 w).
Proof.
  unfold words_ones. rewrite enumerate_snoc, bind_app. f_equal. apply app_nil_r.
Qed.

Lemma pop_bits_64 w : w < 2 ^ 64 → pop_bits 64 w = word_bits 64 w.
Proof. intros Hw. apply pop_bits_spec; [done|]. by apply (count_ones_le 64). Qed.

Lemma words_ones_spec l :
  (∀ i w, l.[i] = Some w → w < 2 ^ 64) →
  strictly_sorted (words_ones l) ∧ (∀ x, x ∈ words_ones l ↔ bit_at l x = true) ∧
  length (words_ones l) = sum_list_with Bits.count_ones l.
Proof.
  induction l as [|w l IH] using rev_ind; intros Hl.
  - split; [constructor|]. split; [|done]. intros x. change (words_ones []) with (@nil N). rewrite elem_of_nil.
    by rewrite bit_at_out by (unfold lenN; simpl; lia).
  - destruct IH as (Hs & Hin & Hlen).
    { intros i x Hi. apply (Hl i). rewrite nthN_app_l; [done|by eapply nthN_lt]. }
    assert (Hw : w < 2 ^ 64) by (apply (Hl (lenN l)), nthN_app_last).
    rewrite words_ones_snoc, (pop_bits_64 w Hw). split; [|split].
    + apply StronglySorted_app. split_and!; [|done|].
      * intros x y Hx%Hin (b & -> & _)%list_elem_of_fmap.
        destruct (decide (x / 64 < lenN l)); [lia|]. rewrite bit_at_out in Hx by lia. done.
      * apply (StronglySorted_fmap _ N.lt); [intros; lia|apply word_bits_sorted].
    + intros x. rewrite elem_of_app, Hin, list_elem_of_fmap. setoid_rewrite elem_of_word_bits.
      unfold bit_at. rewrite nthN_snoc. change (N.of_nat 64) with 64. split.
      * intros [Hx|(b & -> & Hb & Hbit)].
        -- destruct (N.eqb_spec (x / 64) (lenN l)) as [Heq|]; [|done].
           rewrite (proj2 (nthN_None l _)) in Hx by lia. simpl default in Hx. by rewrite N.bits_0 in Hx.
        -- destruct (div_64_unique (lenN l) b Hb) as [-> ->]. by rewrite N.eqb_refl.
      * destruct (N.eqb_spec (x / 64) (lenN l)) as [Heq|]; [|by left]. intros Hx. right.
        exists (x mod 64). split; [lia|]. split; [lia|done].
    + rewrite length_app, length_fmap, sum_list_with_app, Hlen. simpl.
      rewrite (count_ones_length 64 w Hw). lia.
Qed.

Lemma elem_of_iter_ones s x : wf s → x ∈ iter_ones s ↔ get s x = true.
Proof. intros Hs. rewrite get_wf by done. apply words_ones_spec, (wf_words s Hs). Qed.

Lemma elem_of_bit_set s x : wf s → x ∈ to_set s ↔ get s x = true.
Proof. intros Hs. unfold to_set. by rewrite elem_of_list_to_set, elem_of_iter_ones. Qed.

Lemma get_lt s i : get s i = true → i < len s.
Proof. rewrite get_bit_at. intros [H%N.ltb_lt _]%andb_true_iff. done. Qed.

Lemma is_zero_spec s : wf s → is_zero s = true ↔ ∀ i, get s i = false.
Proof.
  intros Hs. unfold is_zero. rewrite forallb_forall. split.
  - intros H i. rewrite get_wf by done. unfold bit_at.
    destruct ((words s).[i / 64]) as [w|] eqn:Ew; simpl default; [|apply N.bits_0].
    assert (Hin : In w (words s)) by (apply list_elem_of_In, nthN_elem_of; eauto).
    apply H, N.eqb_eq in Hin as ->. apply N.bits_0.
  - intros H w Hw%list_elem_of_In%nthN_elem_of. destruct Hw as [q Hq].
    apply N.eqb_eq, (word_zero w 64); [by apply (wf_words s Hs q)|]. intros r Hr.
    specialize (H (q * 64 + r)). rewrite get_wf in H by done. unfold bit_at in H.
    destruct (div_64_unique q r Hr) as [-> ->] in H. by rewrite Hq in H.
Qed.

(** ** Tests over two sets *)

Lemma forallb_zip_bits f g s s' :
  (∀ x y j, j < 64 → N.testbit (f x y) j = g (N.testbit x j) (N.testbit y j)) →
  (∀ x y, x < 2 ^ 64 → y < 2 ^ 64 → f x y < 2 ^ 64) →
  wf s → wf s' →
  forallb (λ p, f p.1 p.2 =? 0) (zip (words s) (words s')) = true ↔
  ∀ i, i / 64 < lenN (words s) → i / 64 < lenN (words s') → g (get s i) (get s' i) = false.
Proof.
  intros Hfg Hf Hs Hs'. rewrite forallb_forall. split.
  - intros H i Hi Hi'. rewrite !get_wf by done. unfold bit_at.
    apply nthN_Some_lt in Hi as [x Hx]. apply nthN_Some_lt in Hi' as [y Hy]. rewrite Hx, Hy. simpl default.
    rewrite <-Hfg by lia. specialize (H (x, y)). cbn [fst snd] in H. rewrite N.eqb_eq in H. rewrite H; [apply N.bits_0|].
    apply list_elem_of_In, list_elem_of_lookup. exists (N.to_nat (i / 64)).
    rewrite lookup_zip_Some. simpl. by rewrite <-!nthN_lookup.
  - intros H [x y] Hin%list_elem_of_In%list_elem_of_lookup. destruct Hin as [q [Hx Hy]%lookup_zip_Some].
    simpl in *. rewrite <-nthN_of_nat in Hx, Hy. apply N.eqb_eq, (word_zero _ 64).
    { apply Hf; [by eapply (wf_words s Hs)|by eapply (wf_words s' Hs')]. }
    intros r Hr. rewrite Hfg by done.
    specialize (H (N.of_nat q * 64 + r)). rewrite !get_wf in H by done. unfold bit_at in H.
    destruct (div_64_unique (N.of_nat q) r Hr) as [Hq Hr']. rewrite Hq, Hr', Hx, Hy in H. simpl default in H.
    apply H; by eapply nthN_lt.
Qed.

Lemma lenN_words_prefix s s' : wf s → wf s' → len s ≤ len s' → lenN (words s) ≤ lenN (words s').
Proof. intros Hs Hs' Hle. rewrite (wf_len s Hs), (wf_len s' Hs'). unfold div_ceil_64. lia. Qed.

Lemma is_subset_spec s s' :
  wf s → wf s' → len s ≤ len s' → is_subset s s' = true ↔ ∀ i, get s i = true → get s' i = true.
Proof.
  intros Hs Hs' Hle. pose proof (lenN_words_prefix s s' Hs Hs' Hle) as Hw. unfold is_subset.
  rewrite (forallb_zip_bits (λ x y, N.land x (word_not 64 y)) (λ a b, a && negb b)); [|..|done|done].
  - split.
    + intros H i Hi. assert (Hlt : i / 64 < lenN (words s)).
      { rewrite (wf_len s Hs). by apply word_index_lt, get_lt. }
      specialize (H i Hlt ltac:(lia)). rewrite Hi in H. by apply negb_false_iff in H.
    + intros H i _ _. destruct (get s i) eqn:E; [|done]. by rewrite (H i E).
  - intros x y j Hj. by rewrite N.land_spec, word_not_spec.
  - intros x y Hx _. by apply land_bound_l.
Qed.

Lemma is_disjoint_spec s s' :
  wf s → wf s' → is_disjoint s s' = true ↔ ∀ i, get s i && get s' i = false.
Proof.
  intros Hs Hs'. unfold is_disjoint.
  rewrite (forallb_zip_bits N.land andb); [|..|done|done].
  - split; [|auto]. intros H i. destruct (get s i) eqn:E; [|done]. destruct (get s' i) eqn:E'; [|done].
    rewrite <-(H i), E, E'; [done|..].
    + rewrite (wf_len s Hs). by apply word_index_lt, get_lt.
    + rewrite (wf_len s' Hs'). by apply word_index_lt, get_lt.
  - intros x y j _. apply N.land_spec.
  - intros x y Hx _. by apply land_bound_l.
Qed.

(** ** Results that carry a flag *)

Lemma zip_words_unchanged f l r :
  zip_words f l r = l ↔ forallb (λ p, f p.1 p.2 =? p.1) (zip l r) = true.
Proof.
  revert r. induction l as [|x l IH]; intros [|y r]; simpl; [done..|].
  rewrite andb_true_iff, N.eqb_eq, <-IH. split; [by intros [= -> ->]|by intros [-> ->]].
Qed.

Lemma existsb_negb {A} (p : A → bool) l : existsb (λ x, negb (p x)) l = negb (forallb p l).
Proof. induction l as [|x l IH]; simpl; [done|]. by rewrite IH, negb_andb. Qed.

Lemma existsb_zip_snd (l r : list N) :
  length l = length r → existsb (λ p, negb (p.2 =? 0)) (zip l r) = negb (forallb (λ w, w =? 0) r).
Proof.
  revert r. induction l as [|x l IH]; intros [|y r] Hl; simpl in *; [done..|].
  rewrite IH by lia. by rewrite negb_andb.
Qed.

Lemma same_words_length s s' : wf s → wf s' → len s' = len s → length (words s) = length (words s').
Proof.
  intros Hs Hs' Hl. pose proof (wf_len s Hs) as H1. pose proof (wf_len s' Hs') as H2.
  rewrite Hl, <-H1 in H2. unfold lenN in H2. lia.
Qed.

Lemma union_spec s s' :
  wf s → wf s' → len s' ≤ len s →
  wf (mk (zip_words N.lor (words s) (words s')) (len s)) ∧
  ∀ i, get (mk (zip_words N.lor (words s) (words s')) (len s)) i = get s i || get s' i.
Proof.
  intros Hs Hs' Hl. apply (zip_words_wf N.lor orb); try done.
  - right. split; [done|]. intros b. apply orb_false_r.
  - intros. by apply lor_bound.
  - intros. apply N.lor_spec.
Qed.

Lemma intersection_spec s s' :
  wf s → wf s' → len s' = len s →
  wf (intersection s s') ∧ ∀ i, get (intersection s s') i = get s i && get s' i.
Proof.
  intros Hs Hs' Hl. apply (zip_words_wf N.land andb); try done; [by left|..].
  - intros. by apply land_bound_l.
  - intros. apply N.land_spec.
Qed.

Lemma union_with_changed_flag s s' :
  wf s → wf s' → len s' = len s →
  (union_with_changed s s').2 = false ↔ ∀ i, get s' i = true → get s i = true.
Proof.
  intros Hs Hs' Hl. destruct (union_spec s s' Hs Hs') as [Hwf Hg]; [lia|].
  unfold union_with_changed. cbn [snd]. rewrite (existsb_negb (λ p, N.lor p.1 p.2 =? p.1)), negb_false_iff.
  rewrite <-zip_words_unchanged. split.
  - intros Heq i Hi. specialize (Hg i). rewrite Heq, Hi, orb_true_r in Hg. by destruct s.
  - intros H. assert (Hs1 : mk (zip_words N.lor (words s) (words s')) (len s) = s).
    { apply wf_ext; [done..|]. intros i _. rewrite Hg. destruct (get s' i) eqn:E; [|by rewrite orb_false_r].
      by rewrite (H i E). }
    by apply (f_equal words) in Hs1.
Qed.

Lemma delta_words_eq s s' :
  wf s → wf s' → len s' = len s →
  zip_words (λ _ d, d) (words (new (len s)))
    (zip_with (λ lhs rhs, N.land rhs (word_not 64 lhs)) (words s) (words s')) =
  zip_words (λ lhs rhs, N.land rhs (word_not 64 lhs)) (words s) (words s').
Proof.
  intros Hs Hs' Hl. apply nthN_ext. intros q. rewrite !nthN_zip_words.
  pose proof (wf_len s Hs) as H1. pose proof (wf_len s' Hs') as H2. rewrite Hl, <-H1 in H2.
  unfold new. cbn [words]. rewrite nthN_replicate, N2Nat.id, <-H1.
  rewrite (nthN_lookup (zip_with _ _ _)), lookup_zip_with, <-!nthN_lookup.
  destruct (N.ltb_spec q (lenN (words s))) as [Hq|Hq].
  - destruct (proj1 (nthN_Some_lt (words s) q) Hq) as [x ->].
    destruct (proj1 (nthN_Some_lt (words s') q)) as [y ->]; [by rewrite H2|]. done.
  - by rewrite (proj2 (nthN_None (words s) q) Hq).
Qed.

Lemma union_with_delta_spec s s' :
  wf s → wf s' → len s' = len s →
  wf (union_with_delta s s').2 ∧
  ∀ i, get (union_with_delta s s').2 i = get s' i && negb (get s i).
Proof.
  intros Hs Hs' Hl. unfold union_with_delta. cbn [snd]. rewrite delta_words_eq by done.
  destruct (zip_words_wf (λ lhs rhs, N.land rhs (word_not 64 lhs)) (λ a b, b && negb a) s s')
    as [Hwf Hg]; [done|done|by left|..].
  - intros x y _ Hy. by apply land_bound_l.
  - intros x y j Hj. by rewrite N.land_spec, word_not_spec.
  - done.
  - split; [done|]. intros i. apply Hg.
Qed.

Lemma difference_spec s s' :
  wf s → wf s' → len s' = len s →
  wf (difference s s') ∧ len (difference s s') = len s ∧
  ∀ i, get (difference s s') i = get s i && negb (get s' i).
Proof.
  intros Hs Hs' Hl. unfold difference.
  destruct (zip_words_wf (λ lhs rhs, N.land lhs (word_not 64 rhs)) (λ a b, a && negb b) s s')
    as [Hwf Hg]; [done|done|by left|..].
  - intros x y Hx _. by apply land_bound_l.
  - intros x y j Hj. by rewrite N.land_spec, word_not_spec.
  - done.
  - destruct (mask_unused_bits_spec _ (wf_len _ Hwf) (wf_words _ Hwf)) as (Hwf' & Hl' & Hg').
    split; [done|]. split; [done|]. intros i. rewrite Hg', <-Hg. symmetry. apply get_bit_at.
Qed.

Lemma complement_spec s :
  wf s → wf (complement s) ∧ len (complement s) = len s ∧
  ∀ i, get (complement s) i = (i <? len s) && negb (get s i).
Proof.
  intros Hs. unfold complement.
  destruct (mask_unused_bits_spec (mk (word_not 64 <$> words s) (len s))) as (Hwf & Hl & Hg); cbn [words len].
  - rewrite lenN_fmap. apply (wf_len s Hs).
  - intros i w. rewrite nthN_fmap. destruct ((words s).[i]) as [x|] eqn:E; [|done]. intros [= <-].
    apply word_not_bound. by apply (wf_words s Hs i).
  - split; [done|]. split; [done|]. intros i. rewrite Hg. cbn [words len].
    destruct (N.ltb_spec i (len s)) as [Hi|]; [|done]. rewrite get_wf by done.
    unfold bit_at. rewrite nthN_fmap. destruct (word_exists s i Hs Hi) as [w ->]. simpl default.
    apply word_not_spec. lia.
Qed.

Lemma truncate_spec s n s' :
  wf s → truncate s n = Some s' → wf s' ∧ len s' = n ∧ ∀ i, get s' i = (i <? n) && get s i.
Proof.
  intros Hs. unfold truncate. destruct (N.leb_spec n (len s)) as [Hn|]; [|done]. intros [= <-].
  assert (Hq : div_ceil_64 n ≤ lenN (words s)) by (rewrite (wf_len s Hs); unfold div_ceil_64; lia).
  assert (Htake : ∀ q, (take (N.to_nat (div_ceil_64 n)) (words s)).[q] =
    if q <? div_ceil_64 n then (words s).[q] else None).
  { intros q. rewrite !nthN_lookup. destruct (N.ltb_spec q (div_ceil_64 n)).
    - by rewrite lookup_take_lt by lia.
    - by rewrite lookup_take_ge by lia. }
  destruct (mask_unused_bits_spec (mk (take (N.to_nat (div_ceil_64 n)) (words s)) n)) as (Hwf & Hl & Hg); cbn [words len].
  - unfold lenN in *. rewrite length_take. lia.
  - intros i w. rewrite Htake. case_match; [|done]. by apply (wf_words s Hs).
  - split; [done|]. split; [done|]. intros i. rewrite Hg. cbn [words len].
    destruct (N.ltb_spec i n) as [Hi|]; [|done]. rewrite get_wf by done. simpl andb.
    unfold bit_at. by rewrite Htake, (proj2 (N.ltb_lt _ _) (word_index_lt n i Hi)).
Qed.

(** ** Decoding *)

Lemma mask_unused_bits_fixed s :
  len s mod 64 = 0 ∨ (∀ w, last (words s) = Some w → N.land w (word_not 64 (low_mask (len s mod 64))) = 0) →
  (∀ i w, (words s).[i] = Some w → w < 2 ^ 64) →
  mask_unused_bits s = s.
Proof.
  intros H Hw. unfold mask_unused_bits. destruct (N.eqb_spec (len s mod 64) 0) as [|Hne]; [done|].
  destruct H as [|H]; [done|]. destruct s as [l n]. cbn [words len] in *. f_equal.
  apply nthN_ext. intros i. rewrite nthN_alterN. destruct (N.eqb_spec i (lenN l - 1)) as [->|]; [|done].
  destruct (l.[lenN l - 1]) as [w|] eqn:Ew; [|done]. simpl. f_equal.
  assert (Hl : last l = Some w).
  { rewrite last_lookup. rewrite nthN_lookup in Ew. rewrite <-Ew. f_equal. unfold lenN. lia. }
  apply (word_ext _ _ 64); [by apply land_bound_l, (Hw _ _ Ew)|by apply (Hw _ _ Ew)|].
  intros j Hj. rewrite N.land_spec. specialize (H w Hl).
  assert (Hb : N.testbit (N.land w (word_not 64 (low_mask (n mod 64)))) j = false) by (rewrite H; apply N.bits_0).
  rewrite N.land_spec, word_not_spec in Hb by done.
  destruct (N.testbit w j), (N.testbit (low_mask (n mod 64)) j); done.
Qed.

Lemma unused_last_bit l n w :
  last l = Some w → lenN l = div_ceil_64 n → n mod 64 ≠ 0 → (∀ i, n ≤ i → bit_at l i = false) →
  N.land w (word_not 64 (low_mask (n mod 64))) < 2 ^ 64 → N.land w (word_not 64 (low_mask (n mod 64))) = 0.
Proof.
  intros Hl Hlen Hne Hun Hb. apply (word_zero _ 64); [done|]. intros j Hj.
  rewrite N.land_spec, word_not_spec, low_mask_spec by done.
  destruct (N.ltb_spec j (n mod 64)) as [|Hge]; [apply andb_false_r|]. rewrite andb_true_r.
  rewrite last_lookup in Hl. assert (Hq : l.[lenN l - 1] = Some w).
  { rewrite nthN_lookup, <-Hl. f_equal. unfold lenN. lia. }
  assert (Hlast : lenN l - 1 = n / 64) by (rewrite Hlen; unfold div_ceil_64; lia).
  specialize (Hun (n / 64 * 64 + j) ltac:(lia)). unfold bit_at in Hun.
  destruct (div_64_unique (n / 64) j Hj) as [-> ->] in Hun. by rewrite <-Hlast, Hq in Hun.
Qed.

(** ** Sparse construction *)

Lemma from_sparse_fold n l : from_sparse_u32 n l = foldl set (new n) l.
Proof.
  assert (Hlen : ∀ l ws, len (foldl set (mk ws n) l) = n).
  { clear l. induction l as [|i l IH]; intros ws; simpl; [done|].
    unfold set at 2, bit_position. cbn [len]. case_match; case_match; simplify_eq; apply IH. }
  unfold from_sparse_u32. destruct (N.leb_spec n 64) as [Hn|Hn].
  - destruct (N.eqb_spec n 0) as [->|Hn0]; cbn [negb].
    + change (new 0) with (mk [] 0).
      induction l as [|i l IH]; [done|]. cbn [foldl]. unfold set at 2, bit_position. cbn [len].
      rewrite (proj2 (N.ltb_ge i 0)) by lia. exact IH.
    + assert (new n = mk [0] n) as ->.
      { unfold new. assert (div_ceil_64 n = 1) as -> by (unfold div_ceil_64; lia). done. }
      enough (Hgen : ∀ w, mk [foldl (λ word index, if index <? n then N.lor word (bit index) else word) w l] n =
        foldl set (mk [w] n) l) by apply Hgen.
      induction l as [|i l IH]; intros w; [done|]. cbn [foldl].
      unfold set at 2, bit_position. cbn [len]. destruct (N.ltb_spec i n) as [Hi|]; [|apply IH].
      assert (i / 64 = 0) as -> by lia. assert (i mod 64 = i) as -> by lia. apply IH.
  - unfold new. cbn [words]. generalize (replicate (N.to_nat (div_ceil_64 n)) 0).
    induction l as [|i l IH]; intros ws; [done|]. cbn [foldl]. unfold set at 2, bit_position. cbn [len].
    destruct (i <? n); apply IH.
Qed.

Lemma foldl_set_spec s l :
  wf s → wf (foldl set s l) ∧ len (foldl set s l) = len s ∧
  ∀ j, get (foldl set s l) j = (bool_decide (j ∈ l) && (j <? len s)) || get s j.
Proof.
  revert s. induction l as [|i l IH]; intros s Hs.
  { split; [done|]. split; [done|]. intros j.
    case_bool_decide as Hj; [by apply elem_of_nil in Hj|done]. }
  cbn [foldl]. destruct (set_spec s i Hs) as (Hwf & Hl & Hg). destruct (IH (set s i) Hwf) as (Hwf' & Hl' & Hg').
  split; [done|]. split; [congruence|]. intros j. rewrite Hg', Hg, Hl.
  rewrite (bool_decide_ext (j ∈ i :: l) (j = i ∨ j ∈ l)) by apply elem_of_cons. rewrite bool_decide_or.
  destruct (N.eqb_spec j i) as [->|Hne].
  - rewrite (bool_decide_eq_true_2 (i = i)) by done. simpl. destruct (i <? len s); simpl; [by rewrite orb_true_r|by rewrite andb_false_r].
  - by rewrite (bool_decide_eq_false_2 (j = i)) by done.
Qed.

(** ** The 32-bit mask *)

Lemma fill_fold_spec l buf :
  let r := foldl (λ buf '(i, word),
      let base := i * 2 in
      let buf := if base <? lenN buf then alterN (λ _, as_u32 word) buf base else buf in
      if base + 1 <? lenN buf then alterN (λ _, as_u32 (N.shiftr word 32)) buf (base + 1) else buf)
    buf (enumerate l) in
  lenN r = lenN buf ∧
  ∀ j, r.[j] = if (j <? lenN buf) && (j / 2 <? lenN l)
               then w ← l.[j / 2]; Some (as_u32 (if j mod 2 =? 0 then w else N.shiftr w 32))
               else buf.[j].
Proof.
  intros r. unfold r. clear r. induction l as [|w l IH] using rev_ind.
  - split; [done|]. intros j. simpl. change (lenN []) with 0. rewrite (proj2 (N.ltb_ge _ 0)) by lia.
    by rewrite andb_false_r.
  - rewrite enumerate_snoc, foldl_app. cbn [foldl].
    set (r := foldl _ buf (enumerate l)) in *. destruct IH as [Hlen Hr].
    assert (Hif : ∀ (f : N → N) b i, (if i <? lenN b then alterN f b i else b) = alterN f b i).
    { intros f b i. destruct (N.ltb_spec i (lenN b)) as [|Hge]; [done|]. apply nthN_ext. intros j.
      rewrite nthN_alterN. destruct (N.eqb_spec j i) as [->|]; [|done].
      by rewrite (proj2 (nthN_None b i) Hge). }
    rewrite !Hif. rewrite !lenN_alterN. split; [done|]. intros j.
    rewrite !nthN_alterN, Hr, lenN_snoc, nthN_snoc.
    destruct (N.ltb_spec j (lenN buf)) as [Hj|Hj]; simpl andb.
    + assert (Hsome : is_Some buf.[j]) by (by apply nthN_Some_lt).
      destruct (N.ltb_spec (j / 2) (lenN l + 1)) as [Hq|Hq].
      * destruct (N.eqb_spec (j / 2) (lenN l)) as [Heq|Hne].
        -- rewrite (proj2 (N.ltb_ge (j / 2) (lenN l))) by lia. destruct Hsome as [x ->]. simpl.
           destruct (N.eqb_spec j (lenN l * 2 + 1)), (N.eqb_spec j (lenN l * 2)), (N.eqb_spec (j mod 2) 0);
             done || lia.
        -- rewrite (proj2 (N.ltb_lt (j / 2) (lenN l))) by lia.
           rewrite (proj2 (N.eqb_neq j (lenN l * 2 + 1))), (proj2 (N.eqb_neq j (lenN l * 2))) by lia. done.
      * rewrite (proj2 (N.ltb_ge (j / 2) (lenN l))) by lia.
        rewrite (proj2 (N.eqb_neq j (lenN l * 2 + 1))), (proj2 (N.eqb_neq j (lenN l * 2))) by lia. done.
    + rewrite (proj2 (nthN_None buf j)) by done. by repeat case_match.
Qed.

Lemma from_sparse_wf n l : wf (from_sparse_u32 n l).
Proof. rewrite from_sparse_fold. apply foldl_set_spec, new_wf. Qed.
End BitSetFacts.

(** Iterating over a bit set yields exactly the set indices, in ascending
    order; [count_ones] and [is_zero] agree with it. *)
Theorem bitset_iter_correct (s : BitSet.t) :
  BitSet.wf s →
  BitSet.iter_ones s = filter (λ i, BitSet.get s i) (seqN (N.to_nat (BitSet.len s))) ∧
  BitSet.count_ones s = length (BitSet.iter_ones s) ∧
  (BitSet.is_zero s = true ↔ BitSet.iter_ones s = []).
Proof.
  intros Hs. destruct (BitSetFacts.words_ones_spec (BitSet.words s) (BitSet.wf_words s Hs)) as (Hsort & Hin & Hlen).
  split; [|split; [by symmetry|]].
  - apply strictly_sorted_ext; [done|apply StronglySorted_filter, strictly_sorted_seqN|]. intros x.
    rewrite BitSetFacts.elem_of_iter_ones, list_elem_of_filter, elem_of_seqN, Is_true_true, N2Nat.id by done.
    split; [|tauto]. intros Hx. split; [done|]. by apply BitSetFacts.get_lt.
  - rewrite BitSetFacts.is_zero_spec by done. split.
    + intros H. destruct (BitSet.iter_ones s) as [|x l] eqn:E; [done|].
      assert (Hx : x ∈ BitSet.iter_ones s) by (rewrite E; by left).
      apply BitSetFacts.elem_of_iter_ones in Hx; [|done]. by rewrite H in Hx.
    + intros E x. destruct (BitSet.get s x) eqn:Ex; [|done].
      apply BitSetFacts.elem_of_iter_ones in Ex; [|done]. rewrite E in Ex. by apply elem_of_nil in Ex.
Qed.

(** [from_dense_words] accepts exactly the well-formed representations. *)
Theorem bitset_from_dense_words_correct (len : N) (words : list N) (s : BitSet.t) :
  (∀ i w, words.[i] = Some w → w < 2 ^ 64) →
  BitSet.from_dense_words len words = Some s ↔ s = BitSet.mk words len ∧ BitSet.wf s.
Proof.
  intros Hw. unfold BitSet.from_dense_words.
  destruct (N.eqb_spec (lenN words) (BitSet.div_ceil_64 len)) as [Hlen|Hlen]; cbn [negb].
  2: { split; [done|]. intros [-> Hwf]. by apply BitSet.wf_len in Hwf. }
  assert (Hmask : BitSet.mask_unused_bits (BitSet.mk words len) = BitSet.mk words len →
    Some (BitSet.mk words len) = Some s ↔ s = BitSet.mk words len ∧ BitSet.wf s).
  { intros Hm. destruct (BitSetFacts.mask_unused_bits_spec (BitSet.mk words len)) as (Hwf & _); [done|done|].
    rewrite Hm in Hwf. split; [by intros [= <-]|by intros [-> _]]. }
  destruct (last words) as [w|] eqn:El.
  - destruct (N.eqb_spec (len mod 64) 0) as [Hz|Hnz]; cbn [negb andb].
    { apply Hmask, BitSetFacts.mask_unused_bits_fixed; [by left|done]. }
    destruct (N.eqb_spec (N.land w (word_not 64 (BitSet.low_mask (len mod 64)))) 0) as [Hz|Hbad]; cbn [negb].
    + apply Hmask, BitSetFacts.mask_unused_bits_fixed; [right|done]. simpl. rewrite El. by intros ? [= <-].
    + split; [done|]. intros [-> Hwf]. destruct Hbad.
      apply (BitSetFacts.unused_last_bit words); [done|done|done|apply (BitSet.wf_unused _ Hwf)|].
      apply land_bound_l. rewrite last_lookup in El. apply (Hw (N.of_nat (pred (length words)))).
      by rewrite nthN_of_nat.
  - apply Hmask, BitSetFacts.mask_unused_bits_fixed; [right|done]. simpl. by rewrite El.
Qed.

(** [from_sparse_u32] sets exactly the listed indices below the length, and is
    the inverse of the iteration. *)
Theorem bitset_sparse_roundtrip (len : N) (indices : list N) (s : BitSet.t) :
  BitSet.wf s →
  BitSet.wf (BitSet.from_sparse_u32 len indices) ∧
  (∀ i, BitSet.get (BitSet.from_sparse_u32 len indices) i = bool_decide (i ∈ indices) && (i <? len)) ∧
  BitSet.from_sparse_u32 (BitSet.len s) (BitSet.iter_ones s) = s.
Proof.
  intros Hs.
  assert (Hall : ∀ n l, BitSet.wf (BitSet.from_sparse_u32 n l) ∧ BitSet.len (BitSet.from_sparse_u32 n l) = n ∧
    ∀ i, BitSet.get (BitSet.from_sparse_u32 n l) i = bool_decide (i ∈ l) && (i <? n)).
  { intros n l. rewrite BitSetFacts.from_sparse_fold.
    destruct (BitSetFacts.foldl_set_spec (BitSet.new n) l (BitSetFacts.new_wf n)) as (Hwf & Hl & Hg).
    split; [done|]. split; [done|]. intros i. rewrite Hg, BitSetFacts.get_new. apply orb_false_r. }
  destruct (Hall len indices) as (Hwf & _ & Hg). split; [done|]. split; [done|].
  destruct (Hall (BitSet.len s) (BitSet.iter_ones s)) as (Hwf' & Hl' & Hg').
  apply BitSetFacts.wf_ext; [done..|]. intros i Hi. rewrite Hl' in Hi.
  rewrite Hg', (proj2 (N.ltb_lt _ _) Hi), andb_true_r.
  destruct (BitSet.get s i) eqn:E.
  - apply bool_decide_eq_true_2. by apply BitSetFacts.elem_of_iter_ones.
  - apply bool_decide_eq_false_2. rewrite BitSetFacts.elem_of_iter_ones by done. by rewrite E.
Qed.

(** The operations of [BitSet] are those of sets of indices below the length:
    each result is well formed and stands for the set, and the flag of
    [union_with_changed] and the delta of [union_with_delta] are exact. *)
Theorem bitset_refines_sets (s s' : BitSet.t) (i : N) :
  BitSet.wf s → BitSet.wf s' → BitSet.len s' = BitSet.len s → i < BitSet.len s →
  let S := BitSet.to_set s in let S' := BitSet.to_set s' in
  BitSet.implements (BitSet.set s i) ({[ i ]} ∪ S) ∧ BitSet.implements (BitSet.clear s i) (S ∖ {[ i ]}) ∧
  BitSet.implements (BitSet.all (BitSet.len s)) (BitSet.indices s) ∧ BitSet.implements (BitSet.clear_all s) ∅ ∧
  BitSet.implements (BitSet.union s s') (S ∪ S') ∧ BitSet.implements (BitSet.intersection s s') (S ∩ S') ∧
  BitSet.implements (BitSet.difference s s') (S ∖ S') ∧ BitSet.implements (BitSet.complement s) (BitSet.indices s ∖ S) ∧
  BitSet.implements (BitSet.union_with_changed s s').1 (S ∪ S') ∧
  (BitSet.union_with_changed s s').2 = bool_decide (¬ S' ⊆ S) ∧
  BitSet.implements (BitSet.union_with_delta s s').1 (S ∪ S') ∧ BitSet.implements (BitSet.union_with_delta s s').2 (S' ∖ S) ∧
  BitSet.is_disjoint s s' = bool_decide (S ## S') ∧ BitSet.is_subset s s' = bool_decide (S ⊆ S').
Proof.
  intros Hs Hs' Hlen Hi S S'. unfold S, S'. clear S S'.
  assert (Hin := λ x, BitSetFacts.elem_of_bit_set s x Hs). assert (Hin' := λ x, BitSetFacts.elem_of_bit_set s' x Hs').
  assert (Hidx : ∀ x, x ∈ BitSet.indices s ↔ x < BitSet.len s).
  { intros x. unfold BitSet.indices. by rewrite elem_of_list_to_set, elem_of_seqN, N2Nat.id. }
  assert (His : ∀ r X, BitSet.wf r → (∀ x, BitSet.get r x = true ↔ x ∈ X) → BitSet.implements r X).
  { intros r X Hr HX. split; [done|]. apply set_eq. intros x. by rewrite BitSetFacts.elem_of_bit_set, HX. }
  destruct (BitSetFacts.union_spec s s' Hs Hs') as [Huw Hug]; [lia|].
  assert (Hunion : ∀ x, BitSet.get (BitSet.mk (BitSet.zip_words N.lor (BitSet.words s) (BitSet.words s')) (BitSet.len s)) x = true
    ↔ x ∈ BitSet.to_set s ∪ BitSet.to_set s').
  { intros x. by rewrite Hug, orb_true_iff, elem_of_union, Hin, Hin'. }
  split_and?; try (apply (His _ _ Huw Hunion)).
  - destruct (BitSetFacts.set_spec s i Hs) as (Hwf & _ & Hg). apply His; [done|]. intros x.
    by rewrite Hg, (proj2 (N.ltb_lt _ _) Hi), andb_true_r, orb_true_iff, N.eqb_eq, elem_of_union, elem_of_singleton, Hin.
  - destruct (BitSetFacts.clear_spec s i Hs) as (Hwf & _ & Hg). apply His; [done|]. intros x.
    rewrite Hg, andb_true_iff, negb_true_iff, N.eqb_neq, elem_of_difference, elem_of_singleton, Hin. tauto.
  - destruct (BitSetFacts.all_spec (BitSet.len s)) as (Hwf & _ & Hg). apply His; [done|]. intros x.
    by rewrite Hg, N.ltb_lt, Hidx.
  - rewrite (BitSetFacts.clear_all_spec s Hs). apply His; [apply BitSetFacts.new_wf|]. intros x.
    rewrite BitSetFacts.get_new. set_solver.
  - destruct (BitSetFacts.intersection_spec s s' Hs Hs' Hlen) as (Hwf & Hg). apply His; [done|]. intros x.
    by rewrite Hg, andb_true_iff, elem_of_intersection, Hin, Hin'.
  - destruct (BitSetFacts.difference_spec s s' Hs Hs' Hlen) as (Hwf & _ & Hg). apply His; [done|]. intros x.
    by rewrite Hg, andb_true_iff, negb_true_iff, <-not_true_iff_false, elem_of_difference, Hin, Hin'.
  - destruct (BitSetFacts.complement_spec s Hs) as (Hwf & _ & Hg). apply His; [done|]. intros x.
    by rewrite Hg, andb_true_iff, negb_true_iff, <-not_true_iff_false, elem_of_difference, Hidx, N.ltb_lt, Hin.
  - apply eq_bool_prop_intro. rewrite !Is_true_true, bool_decide_eq_true, <-not_false_iff_true.
    rewrite (BitSetFacts.union_with_changed_flag s s' Hs Hs' Hlen), elem_of_subseteq.
    setoid_rewrite Hin. by setoid_rewrite Hin'.
  - destruct (BitSetFacts.union_with_delta_spec s s' Hs Hs' Hlen) as (Hwf & Hg). apply His; [done|]. intros x.
    by rewrite Hg, andb_true_iff, negb_true_iff, <-not_true_iff_false, elem_of_difference, Hin, Hin'.
  - apply eq_bool_prop_intro. rewrite !Is_true_true, bool_decide_eq_true.
    rewrite (BitSetFacts.is_disjoint_spec s s' Hs Hs'), elem_of_disjoint. setoid_rewrite Hin. setoid_rewrite Hin'.
    setoid_rewrite <-not_true_iff_false. setoid_rewrite andb_true_iff. naive_solver.
  - apply eq_bool_prop_intro. rewrite !Is_true_true, bool_decide_eq_true.
    rewrite (BitSetFacts.is_subset_spec s s' Hs Hs'), elem_of_subseteq by lia. setoid_rewrite Hin. by setoid_rewrite Hin'.
Qed.

(** [union_intersection_with] adds the intersection of two sets and reports
    whether it holds an index. *)
Theorem bitset_union_intersection_correct (s l r : BitSet.t) :
  BitSet.wf s → BitSet.wf l → BitSet.wf r → BitSet.len l = BitSet.len s → BitSet.len r = BitSet.len s →
  BitSet.wf (BitSet.union_intersection_with s l r).1 ∧
  BitSet.to_set (BitSet.union_intersection_with s l r).1 = BitSet.to_set s ∪ (BitSet.to_set l ∩ BitSet.to_set r) ∧
  (BitSet.union_intersection_with s l r).2 = bool_decide (BitSet.to_set l ∩ BitSet.to_set r ≠ ∅).
Proof.
  intros Hs Hl Hr Hll Hlr.
  destruct (BitSetFacts.intersection_spec l r Hl Hr) as [Hiw Hig]; [congruence|].
  set (both := BitSet.intersection l r) in *.
  assert (Hin : ∀ x, x ∈ BitSet.to_set l ∩ BitSet.to_set r ↔ BitSet.get both x = true).
  { intros x. by rewrite Hig, andb_true_iff, elem_of_intersection, !BitSetFacts.elem_of_bit_set. }
  assert (Hbl : BitSet.len both = BitSet.len s) by done.
  assert (Hshape : BitSet.union_intersection_with s l r =
    (BitSet.mk (BitSet.zip_words N.lor (BitSet.words s) (BitSet.words both)) (BitSet.len s),
     existsb (λ p, negb (p.2 =? 0)) (zip (BitSet.words s) (BitSet.words both)))).
  { unfold BitSet.union_intersection_with. fold (BitSet.words both).
    assert (take (length (BitSet.words r)) (BitSet.zip_words N.land (BitSet.words l) (BitSet.words r)) = BitSet.words both) as ->; [|done].
    apply take_ge. change (BitSet.zip_words N.land (BitSet.words l) (BitSet.words r)) with (BitSet.words both).
    rewrite (BitSetFacts.same_words_length both r Hiw Hr); [lia|congruence]. }
  destruct (BitSetFacts.union_spec s both Hs Hiw) as [Huw Hug]; [lia|].
  rewrite Hshape. cbn [fst snd]. split; [done|]. split.
  - apply set_eq. intros x. rewrite BitSetFacts.elem_of_bit_set, Hug, orb_true_iff, elem_of_union, Hin by done.
    by rewrite BitSetFacts.elem_of_bit_set.
  - rewrite BitSetFacts.existsb_zip_snd by (by apply BitSetFacts.same_words_length).
    change (forallb (λ w, w =? 0) (BitSet.words both)) with (BitSet.is_zero both).
    apply eq_bool_prop_intro. rewrite !Is_true_true, bool_decide_eq_true, negb_true_iff, <-not_true_iff_false.
    rewrite (BitSetFacts.is_zero_spec both Hiw). setoid_rewrite <-not_true_iff_false.
    setoid_rewrite <-Hin. set_solver.
Qed.

(** The operations over a shorter prefix domain treat the missing indices as
    absent, and [truncate] keeps the indices below the new length. *)
Theorem bitset_prefix_correct (s p : BitSet.t) (n : N) :
  BitSet.wf s → BitSet.wf p → BitSet.len p ≤ BitSet.len s →
  (BitSet.wf (BitSet.union_with_prefix s p) ∧
   BitSet.to_set (BitSet.union_with_prefix s p) = BitSet.to_set s ∪ BitSet.to_set p) ∧
  BitSet.is_disjoint_prefix s p = bool_decide (BitSet.to_set s ## BitSet.to_set p) ∧
  BitSet.is_subset_of_extended p s = bool_decide (BitSet.to_set p ⊆ BitSet.to_set s) ∧
  match BitSet.truncate s n with
  | None => BitSet.len s < n
  | Some t => n ≤ BitSet.len s ∧ BitSet.wf t ∧ BitSet.len t = n ∧
              BitSet.to_set t = filter (λ x, x < n) (BitSet.to_set s)
  end.
Proof.
  intros Hs Hp Hle. assert (Hin := λ x, BitSetFacts.elem_of_bit_set s x Hs).
  assert (Hin' := λ x, BitSetFacts.elem_of_bit_set p x Hp).
  destruct (BitSetFacts.union_spec s p Hs Hp Hle) as [Huw Hug]. split; [|split; [|split]].
  - split; [done|]. apply set_eq. intros x. rewrite BitSetFacts.elem_of_bit_set by done. unfold BitSet.union_with_prefix.
    by rewrite Hug, orb_true_iff, elem_of_union, Hin, Hin'.
  - apply eq_bool_prop_intro. rewrite !Is_true_true, bool_decide_eq_true.
    change (BitSet.is_disjoint_prefix s p) with (BitSet.is_disjoint s p).
    rewrite (BitSetFacts.is_disjoint_spec s p Hs Hp), elem_of_disjoint. setoid_rewrite Hin. setoid_rewrite Hin'.
    setoid_rewrite <-not_true_iff_false. setoid_rewrite andb_true_iff. naive_solver.
  - apply eq_bool_prop_intro. rewrite !Is_true_true, bool_decide_eq_true.
    change (BitSet.is_subset_of_extended p s) with (BitSet.is_subset p s).
    rewrite (BitSetFacts.is_subset_spec p s Hp Hs Hle), elem_of_subseteq. setoid_rewrite Hin. by setoid_rewrite Hin'.
  - destruct (BitSet.truncate s n) as [t|] eqn:E.
    + destruct (BitSetFacts.truncate_spec s n t Hs E) as (Hwf & Hl & Hg).
      unfold BitSet.truncate in E. destruct (N.leb_spec n (BitSet.len s)) as [Hn|]; [|done].
      split; [done|]. split; [done|]. split; [done|]. apply set_eq. intros x.
      rewrite BitSetFacts.elem_of_bit_set, elem_of_filter, Hin, Hg, andb_true_iff, N.ltb_lt by done. done.
    + unfold BitSet.truncate in E. by destruct (N.leb_spec n (BitSet.len s)).
Qed.

(** [fill_u32_mask] writes bit [32 j + k] of the set to bit [k] of entry [j]
    and leaves the entries beyond the words of the set as they were. *)
Theorem bitset_fill_u32_mask_correct (s : BitSet.t) (buf : list N) :
  BitSet.wf s →
  lenN (BitSet.fill_u32_mask s buf) = lenN buf ∧
  ∀ j, j < lenN buf →
    if j / 2 <? lenN (BitSet.words s)
    then ∃ v, (BitSet.fill_u32_mask s buf).[j] = Some v ∧ v < u32_modulus ∧
              ∀ k, k < 32 → N.testbit v k = BitSet.get s (32 * j + k)
    else (BitSet.fill_u32_mask s buf).[j] = buf.[j].
Proof.
  intros Hs. destruct (BitSetFacts.fill_fold_spec (BitSet.words s) buf) as [Hlen Hr].
  split; [exact Hlen|]. intros j Hj. unfold BitSet.fill_u32_mask. rewrite Hr, (proj2 (N.ltb_lt _ _) Hj). simpl andb.
  destruct (N.ltb_spec (j / 2) (lenN (BitSet.words s))) as [Hq|]; [|done].
  apply nthN_Some_lt in Hq as [w Hw]. rewrite Hw. simpl. eexists. split; [done|]. split; [apply as_u32_bound|].
  intros k Hk. unfold as_u32. change u32_modulus with (2 ^ 32).
  rewrite N.mod_pow2_bits_low, BitSetFacts.get_wf by done. unfold BitSet.bit_at.
  assert ((32 * j + k) / 64 = j / 2) as -> by lia. rewrite Hw. simpl default.
  destruct (N.eqb_spec (j mod 2) 0) as [Hz|Hz].
  - f_equal. lia.
  - rewrite N.shiftr_spec'. f_equal. lia.
Qed.

(** Sets of 130 indices with three words. *)
Definition bits_a : BitSet.t := BitSet.from_sparse_u32 130 [0; 64; 129].
Definition bits_b : BitSet.t := BitSet.from_sparse_u32 130 [0; 63; 64; 65; 129].

Lemma bitset_iter_correct_witness :
  BitSet.iter_ones bits_b = [0; 63; 64; 65; 129] ∧ BitSet.count_ones bits_b = 5%nat.
Proof.
  destruct (bitset_iter_correct bits_b (BitSetFacts.from_sparse_wf _ _)) as (H1 & H2 & _).
  split; [rewrite H1|rewrite H2, H1]; vm_compute; reflexivity.
Defined.

Lemma bitset_from_dense_words_correct_witness :
  BitSet.from_dense_words 3 [5] = Some (BitSet.mk [5] 3) ∧ BitSet.wf (BitSet.mk [5] 3).
Proof.
  assert (Hd : BitSet.from_dense_words 3 [5] = Some (BitSet.mk [5] 3)) by (vm_compute; reflexivity).
  split; [exact Hd|]. apply (bitset_from_dense_words_correct 3 [5] (BitSet.mk [5] 3)); [|exact Hd].
  intros i w Hi. assert (w ∈ [5]) as Hw by (apply nthN_elem_of; eauto).
  apply list_elem_of_singleton in Hw as ->. vm_compute. reflexivity.
Defined.

Lemma bitset_sparse_roundtrip_witness :
  BitSet.from_sparse_u32 130 (BitSet.iter_ones bits_b) = bits_b.
Proof. apply (bitset_sparse_roundtrip 0 [] bits_b). apply BitSetFacts.from_sparse_wf. Defined.

Lemma bitset_refines_sets_witness :
  BitSet.to_set (BitSet.union_with_delta bits_a bits_b).2 = {[ 63; 65 ]} ∧
  (BitSet.union_with_changed bits_b bits_a).2 = false.
Proof.
  destruct (bitset_refines_sets bits_a bits_b 7) as (_ & _ & _ & _ & _ & _ & _ & _ & _ & _ & _ & (_ & Hd) & _);
    [apply BitSetFacts.from_sparse_wf..|vm_compute; reflexivity|vm_compute; reflexivity|].
  destruct (bitset_refines_sets bits_b bits_a 7) as (_ & _ & _ & _ & _ & _ & _ & _ & _ & Hc & _);
    [apply BitSetFacts.from_sparse_wf..|vm_compute; reflexivity|vm_compute; reflexivity|].
  split; [rewrite Hd|rewrite Hc]; vm_compute; reflexivity.
Defined.

Lemma bitset_union_intersection_correct_witness :
  BitSet.to_set (BitSet.union_intersection_with (BitSet.new 130) bits_a bits_b).1 = {[ 0; 64; 129 ]}.
Proof.
  destruct (bitset_union_intersection_correct (BitSet.new 130) bits_a bits_b) as (_ & H & _);
    [apply BitSetFacts.new_wf|apply BitSetFacts.from_sparse_wf..|vm_compute; reflexivity|vm_compute; reflexivity|].
  rewrite H. vm_compute. reflexivity.
Defined.

Lemma bitset_prefix_correct_witness :
  BitSet.to_set (BitSet.union_with_prefix bits_a (BitSet.from_sparse_u32 6 [2])) = {[ 0; 2; 64; 129 ]}.
Proof.
  destruct (bitset_prefix_correct bits_a (BitSet.from_sparse_u32 6 [2]) 5) as ((_ & H) & _);
    [apply BitSetFacts.from_sparse_wf..|vm_compute; discriminate|].
  rewrite H. vm_compute. reflexivity.
Defined.

Lemma bitset_fill_u32_mask_correct_witness :
  lenN (BitSet.fill_u32_mask bits_b [7; 7; 7; 7; 7; 7; 7; 7]) = 8 ∧
  (BitSet.fill_u32_mask bits_b [7; 7; 7; 7; 7; 7; 7; 7]).[7] = Some 7.
Proof.
  destruct (bitset_fill_u32_mask_correct bits_b [7; 7; 7; 7; 7; 7; 7; 7] (BitSetFacts.from_sparse_wf _ _)) as [Hl Hj].
  split; [exact Hl|]. specialize (Hj 7). apply Hj. vm_compute. reflexivity.
Defined.
