(* ===== verification/StateSet.v ===== *)
(** Sparse and compressed sets of automaton states
    (crates/glrmask-lexer/src/ds/compressed_state_set.rs): the compressed form
    does not depend on the order in which states were inserted. *)

From S2P Require Import Prelude Bits.

(** [lia] with division and remainder by constants. *)
#[local] Ltac Zify.zify_post_hook ::= Z.to_euclidean_division_equations.

Definition u64_wrapping_mul (x y : N) : N := (x * y) mod 2 ^ 64.

(** The two multipliers [0x517c_c1b7_2722_0a95] and [0x9e37_79b9_7f4a_7c15]. *)
Definition hash_sparse_word (word_index word : N) : N :=
  N.lxor (u64_wrapping_mul word_index 5871781006564002453) (u64_wrapping_mul word 11400714819323198485).

Definition pop_lowest_state_bit (word word_index : N) : option (N * N) :=
  '(trailing, rest) ← pop_lowest_bit word; Some (word_index * 64 + trailing, rest).

Module CompressedStateSet.
(** Pairs of a word index and a non-zero word, by ascending index. *)
Record t := mk { words : list (N * N); hash : N }.

Definition new : t := mk [] 0.

(** [PartialEq::eq] *)
Definition eqb (s other : t) : bool := (hash s =? hash other) && bool_decide (words s = words other).
End CompressedStateSet.

Module SparseStateSet.
Record t := mk { words : list N; dirty_words : list N }.

Definition new (num_bits : N) : t := mk (replicate (N.to_nat ((num_bits + 63) / 64)) 0) [].

(** An index beyond the words panics. *)
Definition insert (s : t) (b : N) : option (t * bool) :=
  let word_idx := b / 64 in
  let bit_mask := bit (b mod 64) in
  word ← (words s).[word_idx];
  if negb (N.land word bit_mask =? 0) then Some (s, false)
  else
    Some (mk (alterN (λ _, N.lor word bit_mask) (words s) word_idx)
             (if word =? 0 then dirty_words s ++ [word_idx] else dirty_words s), true).

Definition insert_many (s : t) (states : list N) : option t :=
  foldM (λ s state, '(s, _) ← insert s state; Some s) s states.

(** One pair of the loops of [union_compressed] and [union_indexed_words]. *)
Definition union_word (s : t) (entry : N * N) : option t :=
  let '(word_index, bits) := entry in
  word ← (words s).[word_index];
  let updated := N.lor word bits in
  if updated =? word then Some s
  else Some (mk (alterN (λ _, updated) (words s) word_index)
               (if word =? 0 then dirty_words s ++ [word_index] else dirty_words s)).

Definition union_compressed (s : t) (set : CompressedStateSet.t) : option t :=
  foldM union_word s (CompressedStateSet.words set).

Definition union_indexed_words (s : t) (word_indices bits : list N) : option t :=
  foldM union_word s (zip word_indices bits).

Definition clear (s : t) : option t :=
  words ← foldM (λ words idx, if idx <? lenN words then Some (alterN (λ _, 0) words idx) else None)
            (words s) (dirty_words s);
  Some (mk words []).

(** The dirty words are exactly the non-zero ones. *)
Record ok (s : t) : Prop := {
  ok_words : ∀ i w, (words s).[i] = Some w → w < 2 ^ 64;
  ok_nodup : NoDup (dirty_words s);
  ok_dirty : ∀ i, i ∈ dirty_words s ↔ ∃ w, (words s).[i] = Some w ∧ w ≠ 0;
}.

Definition bit_at (words : list N) (i : N) : bool := N.testbit (default 0 words.[i / 64]) (i mod 64).
Definition contains (s : t) (i : N) : bool := bit_at (words s) i.
End SparseStateSet.

Section compress.
Import CompressedStateSet.

(** [sort_unstable_by_key(index)]; the keys are distinct. *)
Definition sort_by_index (l : list (N * N)) : list (N * N) := merge_sort (key_le N.le) l.

(** The loop of [reuse_from_sparse]: the entries, the hash, the previous index
    and whether two entries are out of order. *)
Definition compress_one (sparse : SparseStateSet.t)
    (st : list (N * N) * N * N * bool) (entry : N * N) : option (list (N * N) * N * N * bool) :=
  let '(entries, h, prev_word_index, needs_sort) := st in
  let '(position, word_index) := entry in
  let needs_sort := needs_sort || ((0 <? position) && (word_index <? prev_word_index)) in
  word ← (SparseStateSet.words sparse).[word_index];
  Some (entries ++ [(as_u32 word_index, word)], N.lxor h (hash_sparse_word word_index word),
        word_index, needs_sort).

(** The buffer is cleared first, so that only its allocation is reused. *)
Definition reuse_from_sparse (sparse : SparseStateSet.t) (buffer : t) : option t :=
  '(entries, h, _, needs_sort) ← foldM (compress_one sparse) ([], 0, 0, false)
     (enumerate (SparseStateSet.dirty_words sparse));
  Some (mk (if needs_sort : bool then sort_by_index entries else entries) h).

Definition from_sparse (sparse : SparseStateSet.t) : option t := reuse_from_sparse sparse new.

Definition mask_one (sparse : SparseStateSet.t) (word_masks : list N)
    (st : list (N * N) * N) (word_index : N) : option (list (N * N) * N) :=
  let '(entries, h) := st in
  w ← (SparseStateSet.words sparse).[word_index];
  m ← word_masks.[word_index];
  let word := N.land w m in
  Some (if negb (word =? 0)
        then (entries ++ [(as_u32 word_index, word)], N.lxor h (hash_sparse_word word_index word))
        else (entries, h)).

Definition from_sparse_masked (sparse : SparseStateSet.t) (word_masks : list N) : option t :=
  '(entries, h) ← foldM (mask_one sparse word_masks) ([], 0) (SparseStateSet.dirty_words sparse);
  Some (mk (sort_by_index entries) h).

Definition len (s : t) : nat := sum_list_with (λ e, count_ones e.2) (words s).

(** [CompressedStateSetIter]: the entries from [idx] on are still to be read. *)
Record iter_state := IterState { idx : nat; current_word : N; current_word_idx : N }.

(** The [loop] of [next]; every round reads an entry. *)
Fixpoint next (fuel : nat) (set : t) (it : iter_state) : option (N * iter_state) :=
  match pop_lowest_state_bit (current_word it) (current_word_idx it) with
  | Some (state, word) => Some (state, IterState (idx it) word (current_word_idx it))
  | None =>
      match fuel with
      | O => None
      | S fuel =>
          match words set !! idx it with
          | None => None
          | Some (word_idx, word) => next fuel set (IterState (S (idx it)) word word_idx)
          end
      end
  end.

Fixpoint collect (fuel : nat) (set : t) (it : iter_state) : list N :=
  match fuel with
  | O => []
  | S fuel =>
      match next (S (length (words set))) set it with
      | None => []
      | Some (state, it) => state :: collect fuel set it
      end
  end.

Definition iter (s : t) : list N := collect (S (64 * length (words s))) s (IterState 0 0 0).
End compress.

Example sparse_example :
  (s ← SparseStateSet.insert_many (SparseStateSet.new 200) [130; 5; 64; 5; 131]; iter <$> from_sparse s)
  = Some [5; 64; 130; 131].
Proof. vm_compute. reflexivity. Qed.

(** * Sparse sets *)

Module SparseFacts.
Import SparseStateSet.

(** A word replaced by a non-zero one. *)
Lemma put_ok s i w w' :
  ok s → (words s).[i] = Some w → w' < 2 ^ 64 → w' ≠ 0 →
  ok (mk (alterN (λ _, w') (words s) i) (if w =? 0 then dirty_words s ++ [i] else dirty_words s)).
Proof.
  intros [Hw Hnd Hd] Hi Hb Hnz.
  assert (Hlook : ∀ j, (alterN (λ _, w') (words s) i).[j] = if j =? i then Some w' else (words s).[j]).
  { intros j. rewrite nthN_alterN. destruct (N.eqb_spec j i) as [->|]; [|done]. by rewrite Hi. }
  split; cbn [words dirty_words].
  - intros j x. rewrite Hlook. destruct (j =? i); [by intros [= <-]|apply Hw].
  - destruct (N.eqb_spec w 0) as [->|]; [|done]. apply NoDup_app. split; [done|]. split; [|apply NoDup_singleton].
    intros x Hx Hxi. apply list_elem_of_singleton in Hxi as ->. apply Hd in Hx as (y & Hy & Hyz). congruence.
  - intros j. rewrite Hlook. destruct (N.eqb_spec w 0) as [->|Hwz].
    + rewrite elem_of_app, list_elem_of_singleton, Hd. destruct (N.eqb_spec j i) as [->|Hne]; [|naive_solver].
      split; [|tauto]. intros _. by exists w'.
    + rewrite Hd. destruct (N.eqb_spec j i) as [->|]; [|done]. split; intros _; [by exists w'|by exists w].
Qed.

Lemma bit_at_put l i w w' j :
  l.[i] = Some w →
  bit_at (alterN (λ _, w') l i) j = if j / 64 =? i then N.testbit w' (j mod 64) else bit_at l j.
Proof.
  intros Hi. unfold bit_at. rewrite nthN_alterN. destruct (N.eqb_spec (j / 64) i) as [->|]; [|done]. by rewrite Hi.
Qed.

Lemma sparse_insert_spec s b :
  ok s → b / 64 < lenN (words s) →
  ∃ s', insert s b = Some (s', negb (contains s b)) ∧ ok s' ∧ lenN (words s') = lenN (words s) ∧
    ∀ j, contains s' j = (j =? b) || contains s j.
Proof.
  intros Hs Hb. unfold insert. destruct (proj1 (nthN_Some_lt _ _) Hb) as [w Hw]. rewrite Hw. simpl.
  assert (Hc : contains s b = N.testbit w (b mod 64)) by (unfold contains, bit_at; by rewrite Hw).
  rewrite land_bit_nonzero, <-Hc. destruct (contains s b) eqn:E; simpl.
  - exists s. split; [done|]. split; [done|]. split; [done|]. intros j.
    destruct (N.eqb_spec j b) as [->|]; [done|done].
  - eexists. split; [done|]. split; [|split; [apply lenN_alterN|]].
    + apply put_ok; [done|done| |].
      * apply lor_bound; [by apply (ok_words s Hs _ _ Hw)|apply bit_bound; lia].
      * intros Hz. assert (Ht : N.testbit (N.lor w (bit (b mod 64))) (b mod 64) = true)
          by (by rewrite N.lor_spec, bit_spec, N.eqb_refl, orb_true_r).
        by rewrite Hz, N.bits_0 in Ht.
    + intros j. unfold contains. cbn [words]. rewrite (bit_at_put _ _ w) by done.
      destruct (N.eqb_spec (j / 64) (b / 64)) as [Hq|Hq].
      * unfold bit_at. rewrite Hq, Hw. simpl default. rewrite N.lor_spec, bit_spec, orb_comm. f_equal.
        destruct (N.eqb_spec (j mod 64) (b mod 64)), (N.eqb_spec j b); lia.
      * destruct (N.eqb_spec j b) as [->|]; done.
Qed.

Lemma union_word_spec s i bits :
  ok s → i < lenN (words s) → bits < 2 ^ 64 →
  ∃ s', union_word s (i, bits) = Some s' ∧ ok s' ∧ lenN (words s') = lenN (words s) ∧
    ∀ j, contains s' j = contains s j || ((j / 64 =? i) && N.testbit bits (j mod 64)).
Proof.
  intros Hs Hi Hb. unfold union_word. destruct (proj1 (nthN_Some_lt _ _) Hi) as [w Hw]. rewrite Hw. simpl.
  assert (Hc : ∀ j, j / 64 = i → contains s j = N.testbit w (j mod 64))
    by (intros j <-; unfold contains, bit_at; by rewrite Hw).
  destruct (N.eqb_spec (N.lor w bits) w) as [Heq|Hne].
  - exists s. split; [done|]. split; [done|]. split; [done|]. intros j.
    destruct (N.eqb_spec (j / 64) i) as [Hj|]; [|by rewrite orb_false_r].
    rewrite (Hc j Hj), andb_true_l, <-N.lor_spec. by rewrite Heq.
  - eexists. split; [done|]. split; [|split; [apply lenN_alterN|]].
    + apply put_ok; [done|done|apply lor_bound; [by apply (ok_words s Hs _ _ Hw)|done]|].
      intros Hz. apply Hne. rewrite Hz. apply N.lor_eq_0_iff in Hz as [-> _]. done.
    + intros j. unfold contains at 1. cbn [words]. rewrite (bit_at_put _ _ w) by done.
      destruct (N.eqb_spec (j / 64) i) as [Hj|Hj]; [|by rewrite orb_false_r].
      by rewrite N.lor_spec, (Hc j Hj).
Qed.

Lemma union_words_spec s l :
  ok s → (∀ i b, (i, b) ∈ l → i < lenN (words s) ∧ b < 2 ^ 64) →
  ∃ s', foldM union_word s l = Some s' ∧ ok s' ∧ lenN (words s') = lenN (words s) ∧
    ∀ j, contains s' j = contains s j || existsb (λ e, (j / 64 =? e.1) && N.testbit e.2 (j mod 64)) l.
Proof.
  revert s. induction l as [|[i b] l IH]; intros s Hs Hl; cbn [foldM].
  - exists s. split; [done|]. split; [done|]. split; [done|]. intros j. simpl. by rewrite orb_false_r.
  - destruct (Hl i b) as [Hi Hb]; [by left|].
    destruct (union_word_spec s i b Hs Hi Hb) as (s1 & -> & Hs1 & Hlen1 & Hc1). simpl.
    destruct (IH s1 Hs1) as (s2 & -> & Hs2 & Hlen2 & Hc2).
    { intros i' b' Hin. rewrite Hlen1. apply Hl. by right. }
    exists s2. split; [done|]. split; [done|]. split; [congruence|]. intros j.
    by rewrite Hc2, Hc1, orb_assoc.
Qed.

Lemma sparse_new_ok n : ok (new n).
Proof.
  assert (Hz : ∀ i w, (words (new n)).[i] = Some w → w = 0).
  { intros i w. unfold new. cbn [words]. rewrite nthN_replicate. case_match; congruence. }
  split.
  - intros i w ->%Hz. done.
  - constructor.
  - intros i. cbn [dirty_words new]. rewrite elem_of_nil. split; [done|]. intros (w & ->%Hz & Hw). done.
Qed.

Lemma contains_new n j : contains (new n) j = false.
Proof.
  unfold contains, bit_at, new. cbn [words]. rewrite nthN_replicate. case_match; apply N.bits_0.
Qed.

(** Clearing the dirty words gives the empty set. *)
Lemma sparse_clear_spec s :
  ok s → ∃ s', clear s = Some s' ∧ ok s' ∧ dirty_words s' = [] ∧ lenN (words s') = lenN (words s) ∧
    ∀ j, contains s' j = false.
Proof.
  intros [Hw Hnd Hd]. unfold clear.
  assert (Hloop : ∀ l ws, lenN ws = lenN (words s) → (∀ i, i ∈ l → i < lenN (words s)) →
    ∃ ws', foldM (λ words idx, if idx <? lenN words then Some (alterN (λ _, 0) words idx) else None) ws l = Some ws' ∧
      lenN ws' = lenN (words s) ∧ ∀ i, ws'.[i] = if decide (i ∈ l) then (λ _, 0) <$> ws.[i] else ws.[i]).
  { clear Hd Hnd. induction l as [|i l IH]; intros ws Hlen Hl; cbn [foldM].
    - exists ws. split; [done|]. split; [done|]. intros i. rewrite decide_False; [done|apply not_elem_of_nil].
    - rewrite (proj2 (N.ltb_lt _ _)) by (rewrite Hlen; apply Hl; by left). simpl.
      destruct (IH (alterN (λ _, 0) ws i)) as (ws' & -> & Hlen' & Hlook).
      + by rewrite lenN_alterN.
      + intros j Hj. apply Hl. by right.
      + exists ws'. split; [done|]. split; [done|]. intros j. rewrite Hlook, nthN_alterN.
        destruct (N.eqb_spec j i) as [->|Hne].
        * rewrite (decide_True (P := i ∈ i :: l)) by (by left). case_decide; by destruct (ws.[i]).
        * destruct (decide (j ∈ l)) as [Hj|Hj].
          -- by rewrite decide_True by (by right).
          -- rewrite decide_False; [done|]. rewrite elem_of_cons. tauto. }
  destruct (Hloop (dirty_words s) (words s)) as (ws & -> & Hlen & Hlook); [done| |].
  { intros i (w & Hi & _)%Hd. by eapply nthN_lt. }
  simpl. eexists. split; [done|].
  assert (Hz : ∀ i w, ws.[i] = Some w → w = 0).
  { intros i w. rewrite Hlook. case_decide as Hi.
    - by destruct ((words s).[i]); intros [= <-].
    - intros Hiw. destruct (N.eq_dec w 0) as [|Hnz]; [done|]. destruct Hi. apply Hd. eauto. }
  split; [|split; [done|split; [done|]]].
  - split; cbn [words dirty_words]; [by intros i w ->%Hz|constructor|].
    intros i. rewrite elem_of_nil. split; [done|]. by intros (w & ->%Hz & ?).
  - intros j. unfold contains, bit_at. cbn [words].
    destruct (ws.[j / 64]) as [w|] eqn:E; [apply Hz in E as ->|]; apply N.bits_0.
Qed.
End SparseFacts.

(** * The compressed form *)

Section compressed.
Import SparseStateSet.

(** The non-zero words with their indices, in order, and the hash over them. *)
Definition nonzero_words (l : list N) : list (N * N) := filter (λ e, e.2 ≠ 0) (enumerate l).
Definition hash_words (l : list (N * N)) : N := foldl (λ h e, N.lxor h (hash_sparse_word e.1 e.2)) 0 l.

Definition index_sorted (l : list (N * N)) : Prop := StronglySorted (λ x y, x.1 < y.1) l.

Lemma enumerate_sorted l : index_sorted (enumerate l).
Proof.
  induction l as [|x l IH] using rev_ind; [constructor|]. rewrite enumerate_snoc.
  apply StronglySorted_app. split_and!; [|done|repeat constructor].
  intros [i y] e Hi%elem_of_enumerate He%list_elem_of_singleton. subst e. simpl. by eapply nthN_lt.
Qed.

Lemma index_sorted_NoDup l : index_sorted l → NoDup l.
Proof.
  induction 1 as [|x l Hs IH Hx]; constructor; [|done].
  rewrite Forall_forall in Hx. intros Hin. specialize (Hx x Hin). lia.
Qed.

Lemma index_sorted_ext l k : index_sorted l → index_sorted k → (∀ x, x ∈ l ↔ x ∈ k) → l = k.
Proof.
  intros Hl Hk Heq. eapply (StronglySorted_unique_strong (λ x y, x.1 < y.1)); [|done|done|].
  - intros x y _ _ ? ?. lia.
  - by apply NoDup_Permutation; auto using index_sorted_NoDup.
Qed.

Lemma nonzero_words_sorted l : index_sorted (nonzero_words l).
Proof. apply StronglySorted_filter, enumerate_sorted. Qed.

Lemma elem_of_nonzero_words l i w : (i, w) ∈ nonzero_words l ↔ l.[i] = Some w ∧ w ≠ 0.
Proof. unfold nonzero_words. rewrite list_elem_of_filter, elem_of_enumerate. simpl. tauto. Qed.

Lemma hash_words_app l e : hash_words (l ++ [e]) = N.lxor (hash_words l) (hash_sparse_word e.1 e.2).
Proof. unfold hash_words. by rewrite foldl_app. Qed.

(** The hash does not depend on the order of the entries. *)
Lemma hash_words_permutation l k : l ≡ₚ k → hash_words l = hash_words k.
Proof.
  intros Hp. unfold hash_words. generalize 0 as h. induction Hp as [|x l k _ IH|x y l|l k j _ IH1 _ IH2]; intros h; simpl.
  - done.
  - apply IH.
  - f_equal. rewrite !N.lxor_assoc. f_equal. apply N.lxor_comm.
  - by rewrite IH1.
Qed.

Lemma sort_by_index_sorted l : NoDup l.*1 → index_sorted (sort_by_index l).
Proof.
  intros Hnd. unfold sort_by_index.
  assert (Hs : StronglySorted (key_le (A := N) N.le) (merge_sort (key_le N.le) l)).
  { apply StronglySorted_merge_sort; intros x y; unfold key_le; lia. }
  assert (Hnd' : NoDup (merge_sort (key_le N.le) l).*1) by (by rewrite merge_sort_Permutation).
  induction Hs as [|x k Hk IH Hx]; [constructor|]. rewrite fmap_cons in Hnd'.
  apply NoDup_cons in Hnd' as [Hni Hnd']. constructor; [by apply IH|]. apply Forall_forall. intros y Hy.
  rewrite Forall_forall in Hx. specialize (Hx y Hy). unfold key_le in Hx.
  assert (x.1 ≠ y.1) by (intros Heq; apply Hni; rewrite Heq; by apply list_elem_of_fmap_2). lia.
Qed.

Lemma dirty_entries_eq s (f : N → N * N) :
  ok s → (∀ i w, (words s).[i] = Some w → f i = (i, w)) →
  f <$> dirty_words s ≡ₚ nonzero_words (words s).
Proof.
  intros [Hw Hnd Hd] Hf. apply NoDup_Permutation.
  - apply NoDup_fmap_2_strong; [|done]. intros x y (wx & Hx & _)%Hd (wy & Hy & _)%Hd Heq.
    rewrite (Hf x wx Hx), (Hf y wy Hy) in Heq. by injection Heq.
  - apply index_sorted_NoDup, nonzero_words_sorted.
  - intros [i w]. rewrite list_elem_of_fmap, elem_of_nonzero_words. split.
    + intros (x & Heq & (wx & Hx & Hnz)%Hd). rewrite (Hf x wx Hx) in Heq. by injection Heq as -> ->.
    + intros [Hi Hnz]. exists i. split; [by rewrite (Hf i w Hi)|]. apply Hd. eauto.
Qed.

(** ** [reuse_from_sparse] *)

Definition ascending (l : list N) : Prop := StronglySorted N.le l.

(** The loop over the first [k] dirty words. *)
Definition compress_inv (s : t) (k : N) (st : list (N * N) * N * N * bool) : Prop :=
  let '(entries, h, prev, needs_sort) := st in
  let pre := take (N.to_nat k) (dirty_words s) in
  entries = (λ i, (i, default 0 (words s).[i])) <$> pre ∧ h = hash_words entries ∧
  (k ≠ 0 → last pre = Some prev) ∧ (needs_sort = false → ascending pre).

Lemma compress_one_spec s k i st :
  ok s → lenN (words s) ≤ u32_modulus → (dirty_words s).[k] = Some i → compress_inv s k st →
  ∃ st', compress_one s st (k, i) = Some st' ∧ compress_inv s (k + 1) st'.
Proof.
  intros Hs Hsm Hi. destruct st as [[[entries h] prev] needs_sort]. intros (He & Hh & Hlast & Hasc).
  assert (Hd : i ∈ dirty_words s) by (apply nthN_elem_of; eauto).
  apply (ok_dirty s Hs) in Hd as (w & Hw & _). unfold compress_one. rewrite Hw. simpl.
  eexists. split; [done|]. unfold compress_inv.
  assert (Htake : take (N.to_nat (k + 1)) (dirty_words s) = take (N.to_nat k) (dirty_words s) ++ [i]).
  { replace (N.to_nat (k + 1)) with (S (N.to_nat k)) by lia. apply take_S_r. by rewrite <-nthN_lookup. }
  rewrite Htake, fmap_app. rewrite as_u32_small by (apply nthN_lt in Hw; lia).
  split; [by rewrite He; simpl; rewrite Hw|]. split; [by rewrite hash_words_app, Hh|].
  split; [intros _; by rewrite last_snoc|].
  intros [Hns Hcmp]%orb_false_iff. apply StronglySorted_app. split_and!; [|by apply Hasc|repeat constructor].
  intros x y Hx Hy%list_elem_of_singleton. subst y.
  destruct (N.ltb_spec 0 k) as [Hk|Hk]; simpl in Hcmp.
  - apply N.ltb_ge in Hcmp. assert (Hk' : k ≠ 0) by lia. specialize (Hlast Hk').
    specialize (Hasc Hns). apply last_Some in Hlast as [l' Hl']. rewrite Hl' in Hasc, Hx.
    apply elem_of_app in Hx as [Hx|Hx].
    + apply StronglySorted_app in Hasc as (Hall & _ & _). specialize (Hall x prev Hx ltac:(by left)). lia.
    + apply list_elem_of_singleton in Hx as ->. done.
  - replace k with 0 in Hx by lia. by apply elem_of_nil in Hx.
Qed.

Lemma reuse_from_sparse_spec s buffer :
  ok s → lenN (words s) ≤ u32_modulus →
  reuse_from_sparse s buffer =
  Some (CompressedStateSet.mk (nonzero_words (words s)) (hash_words (nonzero_words (words s)))).
Proof.
  intros Hs Hsm. unfold reuse_from_sparse.
  destruct (foldM_enumerate (compress_inv s) (compress_one s) ([], 0, 0, false) (dirty_words s))
    as ([[[entries h] prev] ns] & -> & He & Hh & _ & Hasc).
  - intros k i st Hi Hst. by apply compress_one_spec.
  - split; [done|]. split; [done|]. split; [done|]. constructor.
  - simpl. assert (Htake : take (N.to_nat (lenN (dirty_words s))) (dirty_words s) = dirty_words s)
      by (unfold lenN; rewrite Nat2N.id; apply firstn_all).
    rewrite Htake in He, Hasc.
    assert (Hp : entries ≡ₚ nonzero_words (words s)).
    { rewrite He. apply dirty_entries_eq; [done|]. intros i w Hi. by rewrite Hi. }
    rewrite Hh, (hash_words_permutation _ _ Hp). do 2 f_equal.
    assert (Hnd : NoDup entries.*1).
    { rewrite He, <-list_fmap_compose. rewrite (list_fmap_ext _ id) by done. rewrite list_fmap_id. apply (ok_nodup s Hs). }
    destruct ns.
    + apply index_sorted_ext; [by apply sort_by_index_sorted|apply nonzero_words_sorted|].
      intros x. unfold sort_by_index. by rewrite merge_sort_Permutation, Hp.
    + apply index_sorted_ext; [|apply nonzero_words_sorted|intros x; by rewrite Hp].
      assert (Hlt : strictly_sorted (dirty_words s))
        by (apply StronglySorted_lt_of_le; [by apply Hasc|apply (ok_nodup s Hs)]).
      rewrite He. apply (StronglySorted_fmap _ N.lt); [intros; simpl; done|done].
Qed.
End compressed.

Section masked.
Import SparseStateSet.

Lemma from_sparse_masked_spec s masks :
  ok s → lenN (words s) ≤ u32_modulus → lenN masks = lenN (words s) →
  let masked := zip_with N.land (words s) masks in
  from_sparse_masked s masks =
  Some (CompressedStateSet.mk (nonzero_words masked) (hash_words (nonzero_words masked))).
Proof.
  intros Hs Hsm Hlen masked. unfold from_sparse_masked.
  assert (Hmask : ∀ i, masked.[i] = w ← (words s).[i]; m ← masks.[i]; Some (N.land w m)).
  { intros i. unfold masked. rewrite nthN_lookup, lookup_zip_with, <-!nthN_lookup. done. }
  assert (Hloop : ∀ l, (∀ i, i ∈ l → i < lenN (words s)) → ∀ e0 h0, h0 = hash_words e0 →
    ∃ e, foldM (mask_one s masks) (e0, h0) l = Some (e, hash_words e) ∧
      e = e0 ++ filter (λ e, e.2 ≠ 0) ((λ i, (i, default 0 masked.[i])) <$> l)).
  { induction l as [|i l IH]; intros Hl e0 h0 Hh; cbn [foldM].
    - exists e0. rewrite Hh, app_nil_r. done.
    - assert (Hi : i < lenN (words s)) by (apply Hl; by left).
      destruct (proj1 (nthN_Some_lt (words s) i) Hi) as [w Hw].
      destruct (proj1 (nthN_Some_lt masks i)) as [m Hm]; [by rewrite Hlen|].
      destruct (mask_one s masks (e0, h0) i) as [st|] eqn:Em; unfold mask_one in Em;
        rewrite Hw, Hm in Em; simpl in Em; [injection Em as <-|done].
      simpl. rewrite Hmask, Hw, Hm. simpl. rewrite filter_cons. simpl.
      assert (Hl' : ∀ i, i ∈ l → i < lenN (words s)) by (intros j Hj; apply Hl; by right).
      destruct (N.eqb_spec (N.land w m) 0) as [Hz|Hz]; simpl.
      + rewrite decide_False by tauto. by apply IH.
      + rewrite decide_True by done. rewrite as_u32_small by lia.
        destruct (IH Hl' (e0 ++ [(i, N.land w m)]) (N.lxor h0 (hash_sparse_word i (N.land w m)))) as (e & He & Heq).
        * by rewrite hash_words_app, Hh.
        * exists e. split; [done|]. by rewrite Heq, <-app_assoc. }
  destruct (Hloop (dirty_words s)) with (e0 := @nil (N * N)) (h0 := 0) as (e & -> & He); [|done|].
  { intros i (w & Hi & _)%(ok_dirty s Hs). by eapply nthN_lt. }
  simpl in *. 
  assert (Hp : e ≡ₚ nonzero_words masked).
  { rewrite He. apply NoDup_Permutation.
    - apply NoDup_filter, NoDup_fmap_2_strong; [intros x y _ _ Hxy; by injection Hxy|apply (ok_nodup s Hs)].
    - apply index_sorted_NoDup, nonzero_words_sorted.
    - intros [i w]. rewrite list_elem_of_filter, list_elem_of_fmap, elem_of_nonzero_words. simpl. split.
      + intros [Hnz (x & [= -> ->] & Hx)]. destruct (masked.[x]) as [y|]; [done|done].
      + intros [Hi Hnz]. split; [done|]. exists i. rewrite Hi. split; [done|].
        apply (ok_dirty s Hs). rewrite Hmask in Hi. destruct ((words s).[i]) as [x|]; [|done]. simpl in Hi.
        destruct (masks.[i]) as [m|]; [|done]. injection Hi as <-. exists x. split; [done|]. intros ->.
        by rewrite N.land_0_l in Hnz. }
  rewrite (hash_words_permutation _ _ Hp). do 2 f_equal.
  apply index_sorted_ext; [|apply nonzero_words_sorted|].
  - apply sort_by_index_sorted. rewrite Hp. 
    assert (Hs' := nonzero_words_sorted masked). revert Hs'. generalize (nonzero_words masked). clear.
    induction 1 as [|x l Hl IH Hx]; simpl; constructor; [|done].
    intros (y & Heq & Hy)%list_elem_of_fmap. rewrite Forall_forall in Hx. specialize (Hx y Hy). lia.
  - intros x. unfold sort_by_index. by rewrite merge_sort_Permutation, Hp.
Qed.
End masked.

(** * Iteration *)

Section iterate.
Context (set : CompressedStateSet.t).
#[local] Abbreviation entries := (CompressedStateSet.words set).
Context (Hw : ∀ e, e ∈ entries → e.2 < 2 ^ 64).

Definition entry_states (e : N * N) : list N := (λ b, e.1 * 64 + b) <$> word_bits 64 e.2.

(** The states an iterator still yields. *)
Definition pending (it : iter_state) : list N :=
  entry_states (current_word_idx it, current_word it) ++ (drop (idx it) entries ≫= entry_states).

Lemma pop_lowest_state_bit_eq w q :
  pop_lowest_state_bit w q = if w =? 0 then None else Some (q * 64 + trailing_zeros w, clear_lowest w).
Proof using. unfold pop_lowest_state_bit, pop_lowest_bit. by destruct (w =? 0). Qed.

Lemma next_spec fuel it :
  current_word it < 2 ^ 64 → (length entries - idx it < fuel)%nat →
  match next fuel set it with
  | None => pending it = []
  | Some (x, it') => pending it = x :: pending it' ∧ current_word it' < 2 ^ 64
  end.
Proof using Hw.
  revert it. induction fuel as [|fuel IH]; intros [i w q] Hb Hf; cbn [current_word idx] in *; [lia|].
  cbn [next current_word current_word_idx idx]. rewrite pop_lowest_state_bit_eq.
  destruct (N.eqb_spec w 0) as [->|Hnz].
  - assert (He : ∀ q, entry_states (q, 0) = []) by (intros q'; unfold entry_states; cbn [snd]; by rewrite word_bits_0).
    destruct (entries !! i) as [[q' w']|] eqn:Ei.
    + assert (Hb' : w' < 2 ^ 64) by (apply (Hw (q', w')); by eapply list_elem_of_lookup_2).
      specialize (IH (IterState (S i) w' q') Hb'). cbn [idx] in IH. apply lookup_lt_Some in Ei as Hlt.
      specialize (IH ltac:(lia)).
      assert (pending (IterState i 0 q) = pending (IterState (S i) w' q')) as ->; [|exact IH].
      unfold pending. cbn [idx current_word current_word_idx]. by rewrite He, (drop_S _ _ _ Ei), bind_cons.
    + apply lookup_ge_None in Ei. unfold pending. cbn [idx current_word current_word_idx].
      by rewrite He, drop_ge.
  - unfold pending. cbn [idx current_word current_word_idx]. unfold entry_states at 1 2. cbn [fst snd].
    rewrite (word_bits_pop 64 w Hnz Hb). split; [done|]. by apply clear_lowest_bound.
Qed.

Lemma state_collect_spec fuel it :
  current_word it < 2 ^ 64 → (length (pending it) < fuel)%nat → collect fuel set it = pending it.
Proof using Hw.
  revert it. induction fuel as [|fuel IH]; intros it Hb Hf; [lia|]. cbn [collect].
  pose proof (next_spec (S (length entries)) it Hb ltac:(lia)) as Hn.
  destruct (next _ set it) as [[x it']|]; [|done]. destruct Hn as [Heq Hb']. rewrite Heq in Hf |- *. f_equal.
  apply IH; [done|]. simpl in Hf. lia.
Qed.

Lemma length_entry_states e : (length (entry_states e) ≤ 64)%nat.
Proof.
  unfold entry_states, word_bits. rewrite length_fmap. rewrite <-(length_seqN 64) at 2. apply length_filter.
Qed.

Lemma state_iter_spec : iter set = entries ≫= entry_states.
Proof using Hw.
  unfold iter. rewrite state_collect_spec; unfold pending; cbn [idx current_word current_word_idx].
  - unfold entry_states at 1. cbn [snd]. by rewrite word_bits_0.
  - done.
  - unfold entry_states at 1. cbn [snd]. rewrite word_bits_0. cbn [fmap list_fmap app]. rewrite drop_0.
    enough (length (entries ≫= entry_states) ≤ 64 * length entries)%nat by lia. clear.
    induction entries as [|e l IH]; [done|]. rewrite bind_cons, length_app.
    pose proof (length_entry_states e). simpl length. lia.
Qed.
End iterate.

Lemma insert_many_spec s l :
  SparseStateSet.ok s → (∀ b, b ∈ l → b / 64 < lenN (SparseStateSet.words s)) →
  ∃ s', SparseStateSet.insert_many s l = Some s' ∧ SparseStateSet.ok s' ∧
    lenN (SparseStateSet.words s') = lenN (SparseStateSet.words s) ∧
    ∀ j, SparseStateSet.contains s' j = bool_decide (j ∈ l) || SparseStateSet.contains s j.
Proof.
  unfold SparseStateSet.insert_many. revert s. induction l as [|b l IH]; intros s Hs Hl; cbn [foldM].
  - exists s. split; [done|]. split; [done|]. split; [done|]. intros j. case_bool_decide as Hj; [by apply elem_of_nil in Hj|done].
  - destruct (SparseFacts.sparse_insert_spec s b Hs) as (s1 & -> & Hs1 & Hlen1 & Hc1); [apply Hl; by left|]. simpl.
    destruct (IH s1 Hs1) as (s2 & -> & Hs2 & Hlen2 & Hc2).
    { intros x Hx. rewrite Hlen1. apply Hl. by right. }
    exists s2. split; [done|]. split; [done|]. split; [congruence|]. intros j. rewrite Hc2, Hc1.
    rewrite (bool_decide_ext (j ∈ b :: l) (j = b ∨ j ∈ l)) by apply elem_of_cons. rewrite bool_decide_or.
    destruct (N.eqb_spec j b) as [->|Hne].
    + rewrite (bool_decide_eq_true_2 (b = b)) by done. by rewrite orb_true_r.
    + by rewrite (bool_decide_eq_false_2 (j = b)).
Qed.

Lemma nonzero_words_inj l k : lenN l = lenN k → nonzero_words l = nonzero_words k → l = k.
Proof.
  intros Hlen Heq.
  assert (Hhalf : ∀ l k : list N, lenN l = lenN k → nonzero_words l = nonzero_words k →
    ∀ i x, l.[i] = Some x → x ≠ 0 → k.[i] = Some x).
  { clear. intros l k _ Heq i x Hi Hx. apply elem_of_nonzero_words. rewrite <-Heq. by apply elem_of_nonzero_words. }
  apply nthN_ext. intros i. destruct (l.[i]) as [x|] eqn:Ex.
  - destruct (proj1 (nthN_Some_lt k i)) as [y Ey]; [rewrite <-Hlen; by eapply nthN_lt|].
    destruct (N.eq_dec x 0) as [->|Hx]; [|symmetry; by eapply Hhalf].
    destruct (N.eq_dec y 0) as [->|Hy]; [done|].
    assert (l.[i] = Some y) by (apply (Hhalf k l); done). congruence.
  - symmetry. apply nthN_None. rewrite <-Hlen. by apply nthN_None.
Qed.

Lemma sparse_words_ext s1 s2 :
  SparseStateSet.ok s1 → SparseStateSet.ok s2 → lenN (SparseStateSet.words s1) = lenN (SparseStateSet.words s2) →
  (∀ i, SparseStateSet.contains s1 i = SparseStateSet.contains s2 i) → SparseStateSet.words s1 = SparseStateSet.words s2.
Proof.
  intros H1 H2 Hlen Hb. apply nthN_ext. intros q. destruct ((SparseStateSet.words s1).[q]) as [x|] eqn:Ex.
  - destruct (proj1 (nthN_Some_lt (SparseStateSet.words s2) q)) as [y Ey]; [rewrite <-Hlen; by eapply nthN_lt|].
    rewrite Ey. f_equal. apply (word_ext x y 64);
      [exact (SparseStateSet.ok_words s1 H1 _ _ Ex)|exact (SparseStateSet.ok_words s2 H2 _ _ Ey)|].
    intros r Hr. specialize (Hb (q * 64 + r)). unfold SparseStateSet.contains, SparseStateSet.bit_at in Hb.
    assert ((q * 64 + r) / 64 = q) as Hq by lia. assert ((q * 64 + r) mod 64 = r) as Hr' by lia.
    by rewrite Hq, Hr', Ex, Ey in Hb.
  - symmetry. apply nthN_None. rewrite <-Hlen. by apply nthN_None.
Qed.

(** Compressing depends only on which states are in the set: two sparse sets
    of one width compress to equal values exactly when they hold the same
    states, whatever the order of insertion, and reusing a buffer changes
    nothing. *)
Theorem compressed_canonical (s1 s2 : SparseStateSet.t) (buffer : CompressedStateSet.t) :
  SparseStateSet.ok s1 → SparseStateSet.ok s2 →
  lenN (SparseStateSet.words s1) = lenN (SparseStateSet.words s2) →
  lenN (SparseStateSet.words s1) ≤ u32_modulus →
  ∃ c1 c2, from_sparse s1 = Some c1 ∧ reuse_from_sparse s2 buffer = Some c2 ∧
    (CompressedStateSet.eqb c1 c2 = true ↔
     ∀ i, SparseStateSet.contains s1 i = SparseStateSet.contains s2 i).
Proof.
  intros H1 H2 Hlen Hsm. unfold from_sparse. rewrite !reuse_from_sparse_spec by (done || lia).
  do 2 eexists. split; [done|]. split; [done|]. unfold CompressedStateSet.eqb. cbn [CompressedStateSet.hash CompressedStateSet.words].
  rewrite andb_true_iff, bool_decide_eq_true, N.eqb_eq. split.
  - intros [_ Heq%nonzero_words_inj] i; [|done]. unfold SparseStateSet.contains. by rewrite Heq.
  - intros Hc. by rewrite (sparse_words_ext s1 s2 H1 H2 Hlen Hc).
Qed.

(** A compressed set yields exactly the states of the sparse set it was made
    from, in ascending order; masking keeps the states in the mask. *)
Theorem compressed_iter_correct (s : SparseStateSet.t) (masks : list N) :
  SparseStateSet.ok s → lenN (SparseStateSet.words s) ≤ u32_modulus →
  lenN masks = lenN (SparseStateSet.words s) →
  let all := seqN (64 * length (SparseStateSet.words s)) in
  (∃ c, from_sparse s = Some c ∧ iter c = filter (λ i, SparseStateSet.contains s i) all ∧
        len c = length (iter c)) ∧
  (∃ c, from_sparse_masked s masks = Some c ∧
        iter c = filter (λ i, SparseStateSet.contains s i && SparseStateSet.bit_at masks i) all).
Proof.
  intros Hs Hsm Hmasks all.
  assert (Hiter : ∀ l h, (∀ i w, l.[i] = Some w → w < 2 ^ 64) → lenN l ≤ lenN (SparseStateSet.words s) →
    let c := CompressedStateSet.mk (nonzero_words l) h in
    iter c = filter (λ i, SparseStateSet.bit_at l i) all ∧ len c = length (iter c)).
  { intros l h Hl Hlen c.
    assert (Hw : ∀ e, e ∈ nonzero_words l → e.2 < 2 ^ 64) by (intros [i w] [Hi _]%elem_of_nonzero_words; by apply (Hl i)).
    assert (Hit : iter c = nonzero_words l ≫= entry_states) by (by apply state_iter_spec). split.
    - rewrite Hit. apply strictly_sorted_ext; [|apply StronglySorted_filter, strictly_sorted_seqN|].
      + assert (Hsort := nonzero_words_sorted l). revert Hsort. generalize (nonzero_words l). clear.
        induction 1 as [|e k Hk IH He]; [constructor|]. rewrite bind_cons. apply StronglySorted_app. split_and!; [|..|done].
        * intros x y (b & -> & Hb%elem_of_word_bits)%list_elem_of_fmap (e' & (b' & -> & _)%list_elem_of_fmap & He')%list_elem_of_bind.
          rewrite Forall_forall in He. specialize (He e' He'). lia.
        * apply (StronglySorted_fmap _ N.lt); [intros; lia|apply word_bits_sorted].
      + intros x. rewrite list_elem_of_bind, list_elem_of_filter, Is_true_true. unfold all. rewrite elem_of_seqN. split.
        * intros ([q w] & (b & -> & [Hb Hbit]%elem_of_word_bits)%list_elem_of_fmap & [Hq Hnz]%elem_of_nonzero_words). cbn [fst snd] in *.
          unfold SparseStateSet.bit_at. assert ((q * 64 + b) / 64 = q) as -> by lia. assert ((q * 64 + b) mod 64 = b) as -> by lia.
          rewrite Hq. split; [done|]. apply nthN_lt in Hq. unfold lenN in *. lia.
        * unfold SparseStateSet.bit_at. intros [Hbit _]. destruct (l.[x / 64]) as [w|] eqn:Ew; simpl default in Hbit;
            [|by rewrite N.bits_0 in Hbit].
          exists (x / 64, w). split.
          -- apply list_elem_of_fmap. exists (x mod 64). cbn [fst snd]. split; [lia|]. apply elem_of_word_bits. split; [lia|done].
          -- apply elem_of_nonzero_words. split; [done|]. intros ->. by rewrite N.bits_0 in Hbit.
    - rewrite Hit. unfold len, c. cbn [CompressedStateSet.words]. clear Hit. induction (nonzero_words l) as [|e k IH]; [done|].
      rewrite bind_cons, length_app. cbn [sum_list_with]. rewrite IH by (intros; apply Hw; by right). f_equal.
      unfold entry_states. rewrite length_fmap. apply count_ones_length, Hw. by left. }
  split.
  - unfold from_sparse. rewrite reuse_from_sparse_spec by done. eexists. split; [done|].
    apply Hiter; [apply (SparseStateSet.ok_words s Hs)|lia].
  - rewrite from_sparse_masked_spec by done. eexists. split; [done|].
    set (masked := zip_with N.land (SparseStateSet.words s) masks).
    assert (Hm : ∀ i, masked.[i] = w ← (SparseStateSet.words s).[i]; m ← masks.[i]; Some (N.land w m)).
    { intros i. unfold masked. rewrite nthN_lookup, lookup_zip_with, <-!nthN_lookup. done. }
    destruct (Hiter masked (hash_words (nonzero_words masked))) as [-> _].
    + intros i w. rewrite Hm. destruct ((SparseStateSet.words s).[i]) as [x|] eqn:Ex; [|done]. simpl.
      destruct (masks.[i]); [|done]. intros [= <-]. apply land_bound_l. by apply (SparseStateSet.ok_words s Hs i).
    + unfold masked, lenN. rewrite length_zip_with. lia.
    + apply list_filter_iff. intros i. rewrite !Is_true_true. unfold SparseStateSet.contains, SparseStateSet.bit_at. rewrite Hm.
      destruct ((SparseStateSet.words s).[i / 64]) as [x|] eqn:Ex; [|simpl default; by rewrite N.bits_0].
      destruct (proj1 (nthN_Some_lt masks (i / 64))) as [m ->]; [rewrite Hmasks; by eapply nthN_lt|].
      simpl. by rewrite N.land_spec.
Qed.

(** The sparse set is a set: inserting and adding a compressed set give the
    expected members, and clearing the dirty words empties it. *)
Theorem sparse_set_correct (s : SparseStateSet.t) (b : N) (c : SparseStateSet.t) :
  SparseStateSet.ok s → SparseStateSet.ok c → b < 64 * lenN (SparseStateSet.words s) →
  lenN (SparseStateSet.words c) ≤ lenN (SparseStateSet.words s) → lenN (SparseStateSet.words s) ≤ u32_modulus →
  (∃ s', SparseStateSet.insert s b = Some (s', negb (SparseStateSet.contains s b)) ∧ SparseStateSet.ok s' ∧
     ∀ i, SparseStateSet.contains s' i = (i =? b) || SparseStateSet.contains s i) ∧
  (∃ z s', from_sparse c = Some z ∧ SparseStateSet.union_compressed s z = Some s' ∧ SparseStateSet.ok s' ∧
     ∀ i, SparseStateSet.contains s' i = SparseStateSet.contains s i || SparseStateSet.contains c i) ∧
  (∃ s', SparseStateSet.clear s = Some s' ∧ SparseStateSet.ok s' ∧
     SparseStateSet.dirty_words s' = [] ∧ ∀ i, SparseStateSet.contains s' i = false).
Proof.
  intros Hs Hc Hb Hlen Hsm. split; [|split].
  - destruct (SparseFacts.sparse_insert_spec s b Hs) as (s' & Hi & Hok & _ & Hcon); [lia|]. eauto.
  - unfold from_sparse. rewrite reuse_from_sparse_spec by (done || lia).
    destruct (SparseFacts.union_words_spec s (nonzero_words (SparseStateSet.words c)) Hs) as (s' & Hu & Hok & _ & Hcon).
    { intros i w [Hi _]%elem_of_nonzero_words. split; [apply nthN_lt in Hi; lia|by apply (SparseStateSet.ok_words c Hc i)]. }
    do 2 eexists. split; [done|]. split; [exact Hu|]. split; [done|]. intros i. rewrite Hcon. f_equal.
    apply eq_bool_prop_intro. rewrite !Is_true_true, existsb_exists. unfold SparseStateSet.contains, SparseStateSet.bit_at. split.
    + intros ([q w] & [Hq _]%list_elem_of_In%elem_of_nonzero_words & [Heq%N.eqb_eq Hbit]%andb_true_iff). simpl in Heq.
      by rewrite Heq, Hq.
    + destruct ((SparseStateSet.words c).[i / 64]) as [w|] eqn:Ew; simpl default; [|by rewrite N.bits_0].
      intros Hbit. exists (i / 64, w). split; [|by rewrite N.eqb_refl].
      apply list_elem_of_In, elem_of_nonzero_words. split; [done|]. intros ->. by rewrite N.bits_0 in Hbit.
  - destruct (SparseFacts.sparse_clear_spec s Hs) as (s' & Hcl & Hok & Hd & _ & Hcon). eauto.
Qed.

(** The states 5, 64, 130 and 131, inserted in two orders. *)
Definition sparse_ab : SparseStateSet.t :=
  default (SparseStateSet.new 200) (SparseStateSet.insert_many (SparseStateSet.new 200) [130; 5; 64; 131]).
Definition sparse_ba : SparseStateSet.t :=
  default (SparseStateSet.new 200) (SparseStateSet.insert_many (SparseStateSet.new 200) [64; 131; 5; 5; 130]).

Lemma sparse_many_ok l :
  (∀ b, b ∈ l → b / 64 < 4) →
  SparseStateSet.ok (default (SparseStateSet.new 200) (SparseStateSet.insert_many (SparseStateSet.new 200) l)).
Proof.
  intros Hl. destruct (insert_many_spec (SparseStateSet.new 200) l (SparseFacts.sparse_new_ok _)) as (s & -> & Hok & _); [|done].
  intros b Hb. exact (Hl b Hb).
Qed.

Lemma small_states l : forallb (λ b, b / 64 <? 4) l = true → ∀ b, b ∈ l → b / 64 < 4.
Proof. rewrite forallb_forall. intros H b Hb%list_elem_of_In. by apply N.ltb_lt, H. Qed.

Lemma compressed_canonical_witness :
  from_sparse sparse_ab = reuse_from_sparse sparse_ba (CompressedStateSet.mk [(7, 7)] 7) ∧
  ∃ c1 c2, from_sparse sparse_ab = Some c1 ∧
    reuse_from_sparse sparse_ba (CompressedStateSet.mk [(7, 7)] 7) = Some c2 ∧
    CompressedStateSet.eqb c1 c2 = true.
Proof.
  split; [vm_compute; reflexivity|].
  destruct (compressed_canonical sparse_ab sparse_ba (CompressedStateSet.mk [(7, 7)] 7)) as (c1 & c2 & H1 & H2 & Heq).
  - apply sparse_many_ok, small_states. vm_compute. reflexivity.
  - apply sparse_many_ok, small_states. vm_compute. reflexivity.
  - vm_compute. reflexivity.
  - vm_compute. discriminate.
  - exists c1, c2. split; [exact H1|]. split; [exact H2|]. apply Heq. intros i.
    assert (Hw : SparseStateSet.words sparse_ab = SparseStateSet.words sparse_ba) by (vm_compute; reflexivity).
    unfold SparseStateSet.contains. by rewrite Hw.
Defined.

Lemma compressed_iter_correct_witness :
  ∃ c, from_sparse_masked sparse_ab [0; 1; 4; 0] = Some c ∧ iter c = [64; 130].
Proof.
  destruct (compressed_iter_correct sparse_ab [0; 1; 4; 0]) as [_ (c & Hc & Hi)].
  - apply sparse_many_ok, small_states. vm_compute. reflexivity.
  - vm_compute. discriminate.
  - vm_compute. reflexivity.
  - exists c. split; [exact Hc|]. rewrite Hi. vm_compute. reflexivity.
Defined.

Lemma sparse_set_correct_witness :
  ∃ z s', from_sparse sparse_ab = Some z ∧ SparseStateSet.union_compressed (SparseStateSet.new 200) z = Some s' ∧
    SparseStateSet.contains s' 131 = true ∧ SparseStateSet.contains s' 132 = false.
Proof.
  destruct (sparse_set_correct (SparseStateSet.new 200) 3 sparse_ab) as (_ & (z & s' & Hz & Hu & _ & Hc) & _).
  - apply SparseFacts.sparse_new_ok.
  - apply sparse_many_ok, small_states. vm_compute. reflexivity.
  - vm_compute. reflexivity.
  - vm_compute. discriminate.
  - vm_compute. discriminate.
  - exists z, s'. split; [exact Hz|]. split; [exact Hu|]. rewrite !Hc. split; vm_compute; reflexivity.
Defined.
