(* ===== verification/CharTransitions.v ===== *)
(** Byte-keyed transition tables as sorted vectors
    (crates/glrmask-lexer/src/ds/char_transitions.rs), refined to finite maps. *)

From S2P Require Import Prelude.

Module CharTransitions.
Section table.
Context {A : Type}.

(** The entries, by ascending key. *)
Record t := mk { entries : list (N * A) }.

(** [binary_search_by_key] on keys in ascending order: [inl] the index of the
    key, [inr] the index at which it would be inserted. *)
Fixpoint search (l : list (N * A)) (key : N) (index : nat) : nat + nat :=
  match l with
  | [] => inr index
  | (existing, _) :: l =>
      if existing =? key then inl index
      else if key <? existing then inr index
      else search l key (S index)
  end.

Definition entry_index (s : t) (key : N) : nat + nat := search (entries s) key 0.

Definition new : t := mk [].
Definition from_sorted_entries (entries : list (N * A)) : t := mk entries.
Definition len (s : t) : N := lenN (entries s).
Definition is_empty (s : t) : bool := match entries s with [] => true | _ => false end.
Definition clear (s : t) : t := mk [].

(** The table and the value replaced. *)
Definition insert (s : t) (key : N) (value : A) : t * option A :=
  if match last (entries s) with None => true | Some (last, _) => last <? key end
  then (mk (entries s ++ [(key, value)]), None)
  else
    match entry_index s key with
    | inl index =>
        (mk (alter (λ e, (e.1, value)) index (entries s)), snd <$> entries s !! index)
    | inr index =>
        (mk (take index (entries s) ++ (key, value) :: drop index (entries s)), None)
    end.

Definition get (s : t) (key : N) : option A :=
  match entry_index s key with
  | inl index => snd <$> entries s !! index
  | inr _ => None
  end.

(** [get_mut] followed by an assignment through the reference. *)
Definition update (s : t) (key : N) (f : A → A) : option t :=
  match entry_index s key with
  | inl index => Some (mk (alter (λ e, (e.1, f e.2)) index (entries s)))
  | inr _ => None
  end.

Definition contains_key (s : t) (key : N) : bool := bool_decide (is_Some (get s key)).

(** [Index::index] panics on an absent key. *)
Definition index (s : t) (key : N) : option A := get s key.

Definition iter (s : t) : list (N * A) := entries s.
Definition values (s : t) : list A := (entries s).*2.

(** The iterator is the slice of the entries left. *)
Definition iter_next (slice : list (N * A)) : option ((N * A) * list (N * A)) :=
  match slice with [] => None | e :: rest => Some (e, rest) end.
Definition iter_size_hint (slice : list (N * A)) : N * option N := (lenN slice, Some (lenN slice)).
Definition iter_count (slice : list (N * A)) : N := lenN slice.

Definition extend (s : t) (l : list (N * A)) : t := foldl (λ s e, (insert s e.1 e.2).1) s l.
Definition from_iter (l : list (N * A)) : t := extend new l.

(** Keys in ascending order, without duplicates. *)
Definition sorted (s : t) : Prop := StronglySorted (λ x y : N * A, x.1 < y.1) (entries s).

(** The finite map a table stands for. *)
Definition to_map (s : t) : gmap N A := list_to_map (entries s).
End table.
Arguments t : clear implicits.
End CharTransitions.

Module CharTransitionsFacts.
Import CharTransitions.
Section facts.
Context {A : Type}.
Implicit Types (s : t A) (l : list (N * A)).

Lemma sorted_nodup l : StronglySorted (λ x y : N * A, x.1 < y.1) l → NoDup l.*1.
Proof.
  induction 1 as [|x l Hs IH Hx]; [constructor|]. rewrite fmap_cons. constructor; [|done].
  intros (y & Heq & Hy)%list_elem_of_fmap. rewrite Forall_forall in Hx. specialize (Hx y Hy). lia.
Qed.

Lemma to_map_lookup s k x : sorted s → to_map s !! k = Some x ↔ (k, x) ∈ entries s.
Proof. intros Hs. symmetry. by apply elem_of_list_to_map, sorted_nodup. Qed.

Lemma list_alter_middle {B} (g : B → B) (l1 : list B) (x : B) (l2 : list B) : alter g (length l1) (l1 ++ x :: l2) = l1 ++ g x :: l2.
Proof. induction l1 as [|y l1 IH]; [done|]. cbn. by f_equal. Qed.

(** What the search returns on sorted entries. *)
Lemma search_spec l key n :
  StronglySorted (λ x y : N * A, x.1 < y.1) l →
  match search l key n with
  | inl i => ∃ l1 x l2, l = l1 ++ (key, x) :: l2 ∧ i = (n + length l1)%nat
  | inr i => ∃ l1 l2, l = l1 ++ l2 ∧ i = (n + length l1)%nat ∧
               (∀ e, e ∈ l1 → e.1 < key) ∧ (∀ e, e ∈ l2 → key < e.1)
  end.
Proof.
  intros Hs. revert n. induction Hs as [|[k x] l Hs IH Hx]; intros n; simpl.
  - exists [], []. split; [done|]. split; [simpl; lia|]. split; intros e He; by apply elem_of_nil in He.
  - destruct (N.eqb_spec k key) as [->|Hne].
    + exists [], x, l. split; [done|]. simpl. lia.
    + destruct (N.ltb_spec key k) as [Hlt|Hge].
      * exists [], ((k, x) :: l). split; [done|]. split; [simpl; lia|]. split; [intros e He; by apply elem_of_nil in He|].
        intros e [->|He]%elem_of_cons; [done|]. rewrite Forall_forall in Hx. specialize (Hx e He). simpl in Hx. lia.
      * specialize (IH (S n)). destruct (search l key (S n)) as [i|i].
        -- destruct IH as (l1 & y & l2 & -> & ->). exists ((k, x) :: l1), y, l2. split; [done|]. simpl. lia.
        -- destruct IH as (l1 & l2 & -> & -> & H1 & H2). exists ((k, x) :: l1), l2. split; [done|]. split; [simpl; lia|].
           split; [|done]. intros e [->|He]%elem_of_cons; [simpl; lia|auto].
Qed.

Lemma entries_app_key l1 l2 key (x : A) :
  StronglySorted (λ x y : N * A, x.1 < y.1) (l1 ++ (key, x) :: l2) →
  (∀ e, e ∈ l1 → e.1 < key) ∧ (∀ e, e ∈ l2 → key < e.1) ∧
  StronglySorted (λ x y : N * A, x.1 < y.1) (l1 ++ l2).
Proof.
  intros Hs. apply StronglySorted_app in Hs as (H12 & H1 & H2).
  apply StronglySorted_inv in H2 as [H2 H2']. rewrite Forall_forall in H2'.
  split; [intros e He; by apply (H12 e (key, x) He); left|]. split; [by intros e He; apply (H2' e)|].
  apply StronglySorted_app. split_and!; [|done..]. intros e e' He He'. apply H12; [done|by right].
Qed.

Lemma sorted_insert_at l1 l2 key (x : A) :
  StronglySorted (λ x y : N * A, x.1 < y.1) (l1 ++ l2) →
  (∀ e, e ∈ l1 → e.1 < key) → (∀ e, e ∈ l2 → key < e.1) →
  StronglySorted (λ x y : N * A, x.1 < y.1) (l1 ++ (key, x) :: l2).
Proof.
  intros (H12 & H1 & H2)%StronglySorted_app Hl Hr. apply StronglySorted_app. split_and!; [|done|].
  - intros e e' He [->|He']%elem_of_cons; [by apply Hl|by apply H12].
  - constructor; [done|]. apply Forall_forall. intros e He. by apply Hr.
Qed.

(** The map of entries around a key. *)
Lemma map_insert_at l1 l2 key (x : A) :
  (∀ e, e ∈ l1 → e.1 < key) →
  (list_to_map (l1 ++ (key, x) :: l2) : gmap N A) = <[key := x]> (list_to_map (l1 ++ l2)).
Proof.
  intros Hl. rewrite !list_to_map_app. simpl.
  rewrite <-insert_union_r; [done|]. apply not_elem_of_list_to_map_1.
  intros (e & -> & He)%list_elem_of_fmap. specialize (Hl e He). lia.
Qed.

Lemma get_spec s key : sorted s → get s key = to_map s !! key.
Proof.
  intros Hs. unfold get, entry_index. pose proof (search_spec (entries s) key 0 Hs) as Hsp.
  destruct (search (entries s) key 0) as [i|i].
  - destruct Hsp as (l1 & x & l2 & Heq & ->). symmetry. simpl.
    assert (Hlk : entries s !! length l1 = Some (key, x)) by (rewrite Heq; by apply list_lookup_middle).
    rewrite Hlk. simpl.
    apply to_map_lookup; [done|]. rewrite Heq. set_solver.
  - destruct Hsp as (l1 & l2 & Heq & _ & H1 & H2). symmetry. apply not_elem_of_list_to_map_1.
    rewrite Heq, fmap_app, elem_of_app, !list_elem_of_fmap.
    intros [(e & -> & He)|(e & -> & He)]; [specialize (H1 e He)|specialize (H2 e He)]; lia.
Qed.

Lemma insert_spec s key value :
  sorted s →
  sorted (insert s key value).1 ∧ to_map (insert s key value).1 = <[key := value]> (to_map s) ∧
  (insert s key value).2 = to_map s !! key.
Proof.
  intros Hs.
  assert (Hput : ∀ l1 l2, entries s = l1 ++ l2 → (∀ e, e ∈ l1 → e.1 < key) → (∀ e, e ∈ l2 → key < e.1) →
    sorted (mk (l1 ++ (key, value) :: l2)) ∧ to_map (mk (l1 ++ (key, value) :: l2)) = <[key := value]> (to_map s) ∧
    None = to_map s !! key).
  { intros l1 l2 Heq H1 H2. unfold sorted, to_map in *. rewrite Heq in Hs |- *. cbn [entries].
    split; [by apply sorted_insert_at|]. split; [by apply map_insert_at|]. symmetry. apply not_elem_of_list_to_map_1.
    rewrite fmap_app, elem_of_app, !list_elem_of_fmap.
    intros [(e & -> & He)|(e & -> & He)]; [specialize (H1 e He)|specialize (H2 e He)]; lia. }
  assert (Hsearch : let r := match entry_index s key with
      | inl index => (mk (alter (λ e, (e.1, value)) index (entries s)), snd <$> entries s !! index)
      | inr index => (mk (take index (entries s) ++ (key, value) :: drop index (entries s)), None)
      end in sorted r.1 ∧ to_map r.1 = <[key := value]> (to_map s) ∧ r.2 = to_map s !! key).
  { unfold entry_index. pose proof (search_spec (entries s) key 0 Hs) as Hsp.
    destruct (search (entries s) key 0) as [i|i] eqn:E.
    - destruct Hsp as (l1 & x & l2 & Heq & ->). simpl. rewrite <-get_spec by done.
      unfold get, entry_index. rewrite E. simpl.
      assert (Halt : alter (λ e, (e.1, value)) (length l1) (entries s) = l1 ++ (key, value) :: l2).
      { by rewrite Heq, list_alter_middle. }
      rewrite Halt. unfold sorted, to_map in *. cbn [entries]. rewrite Heq in Hs |- *.
      apply entries_app_key in Hs as (H1 & H2 & H12). split; [by apply sorted_insert_at|].
      split; [|done]. rewrite !map_insert_at by done. by rewrite insert_insert_eq.
    - destruct Hsp as (l1 & l2 & Heq & -> & H1 & H2). simpl.
      assert (take (length l1) (entries s) = l1) as -> by (rewrite Heq; apply take_app_length).
      assert (drop (length l1) (entries s) = l2) as -> by (rewrite Heq; apply drop_app_length). by apply Hput. }
  unfold insert. destruct (last (entries s)) as [[k x]|] eqn:El.
  - destruct (N.ltb_spec k key) as [Hlt|]; [|exact Hsearch].
    apply (Hput (entries s) []); [by rewrite app_nil_r| |intros e He; by apply elem_of_nil in He].
    intros e He. apply last_Some in El as [l' Heq]. unfold sorted in Hs. rewrite Heq in Hs, He.
    apply entries_app_key in Hs as (H1 & _ & _). apply elem_of_app in He as [He|He%list_elem_of_singleton].
    + specialize (H1 e He). lia.
    + by subst.
  - apply last_None in El. apply (Hput (entries s) []); [by rewrite app_nil_r|rewrite El|]; intros e He; by apply elem_of_nil in He.
Qed.

Lemma update_spec s key f :
  sorted s →
  match update s key f with
  | Some s' => sorted s' ∧ is_Some (to_map s !! key) ∧ to_map s' = alter f key (to_map s)
  | None => to_map s !! key = None
  end.
Proof.
  intros Hs. rewrite <-get_spec by done. unfold update, get, entry_index.
  pose proof (search_spec (entries s) key 0 Hs) as Hsp.
  destruct (search (entries s) key 0) as [i|i] eqn:E; [|done].
  destruct Hsp as (l1 & x & l2 & Heq & ->). simpl.
  assert (Hlk : entries s !! length l1 = Some (key, x)) by (rewrite Heq; by apply list_lookup_middle).
  rewrite Hlk. simpl.
  assert (Halt : alter (λ e, (e.1, f e.2)) (length l1) (entries s) = l1 ++ (key, f x) :: l2).
  { by rewrite Heq, list_alter_middle. }
  rewrite Halt. unfold sorted, to_map in *. cbn [entries]. rewrite Heq in Hs |- *.
  apply entries_app_key in Hs as (H1 & H2 & H12). split; [by apply sorted_insert_at|]. split; [by eexists|].
  rewrite !map_insert_at by done. by rewrite alter_insert_eq.
Qed.

Lemma iter_spec s : sorted s → iter s = bt_iter N.le (to_map s).
Proof.
  intros Hs. unfold iter. eapply (StronglySorted_unique_strong (key_le N.le)).
  - intros [k x] [k' x'] Hx Hx' Hle Hle'. unfold key_le in *. cbn [fst] in *. assert (k = k') as <- by lia.
    f_equal. apply (to_map_lookup s) in Hx; [|done]. apply elem_of_bt_iter in Hx'. congruence.
  - unfold sorted in Hs. induction Hs as [|x l Hl IH Hx]; constructor; [done|].
    eapply Forall_impl; [exact Hx|]. intros y Hy. unfold key_le. simpl in Hy. by apply N.lt_le_incl.
  - apply bt_iter_sorted; apply _.
  - apply NoDup_Permutation.
    + eapply NoDup_fmap_1. by apply sorted_nodup.
    + apply NoDup_bt_iter.
    + intros [k x]. by rewrite elem_of_bt_iter, to_map_lookup.
Qed.

Lemma extend_spec s l :
  sorted s → sorted (extend s l) ∧ to_map (extend s l) = foldl (λ m kv, <[kv.1 := kv.2]> m) (to_map s) l.
Proof.
  revert s. induction l as [|[k x] l IH]; intros s Hs; [done|]. simpl.
  destruct (insert_spec s k x Hs) as (Hs' & Hm & _). destruct (IH _ Hs') as [Hs'' Hm'].
  split; [done|]. unfold extend in *. simpl. by rewrite Hm', Hm.
Qed.

Lemma new_sorted : sorted (new (A := A)).
Proof. constructor. Qed.
End facts.
End CharTransitionsFacts.

(** A transition table is the finite map of its entries: insertion (with the
    append shortcut) keeps the keys sorted and returns the value replaced,
    lookups and updates are those of the map, iteration is in key order, and a
    later pair of [from_iter] replaces an earlier one. *)
Theorem char_transitions_refines_map {A : Type} (s : CharTransitions.t A) (key : N) (value : A)
    (f : A → A) (l : list (N * A)) :
  CharTransitions.sorted s →
  let m := CharTransitions.to_map s in
  (CharTransitions.sorted (CharTransitions.insert s key value).1 ∧
   CharTransitions.to_map (CharTransitions.insert s key value).1 = <[key := value]> m ∧
   (CharTransitions.insert s key value).2 = m !! key) ∧
  CharTransitions.get s key = m !! key ∧
  CharTransitions.contains_key s key = bool_decide (is_Some (m !! key)) ∧
  CharTransitions.len s = N.of_nat (size m) ∧
  CharTransitions.iter s = bt_iter N.le m ∧
  match CharTransitions.update s key f with
  | Some s' => CharTransitions.sorted s' ∧ is_Some (m !! key) ∧ CharTransitions.to_map s' = alter f key m
  | None => m !! key = None
  end ∧
  CharTransitions.sorted (CharTransitions.from_iter l) ∧
  CharTransitions.to_map (CharTransitions.from_iter l) = bt_collect l.
Proof.
  intros Hs m. unfold m.
  split; [by apply CharTransitionsFacts.insert_spec|]. split; [by apply CharTransitionsFacts.get_spec|].
  split; [unfold CharTransitions.contains_key; by rewrite CharTransitionsFacts.get_spec|]. split.
  - unfold CharTransitions.len, lenN, CharTransitions.to_map. f_equal.
    by rewrite map_size_list_to_map by (by apply CharTransitionsFacts.sorted_nodup).
  - split; [by apply CharTransitionsFacts.iter_spec|]. split; [by apply CharTransitionsFacts.update_spec|].
    apply (CharTransitionsFacts.extend_spec CharTransitions.new l), CharTransitionsFacts.new_sorted.
Qed.

Lemma char_transitions_refines_map_witness :
  CharTransitions.iter (CharTransitions.from_iter [(9, 90); (1, 10); (4, 40); (1, 11)]) = [(1, 11); (4, 40); (9, 90)] ∧
  (CharTransitions.insert (CharTransitions.from_iter [(9, 90); (1, 10)]) 1 7).2 = Some 10.
Proof.
  set (s := CharTransitions.from_iter [(9, 90); (1, 10); (4, 40); (1, 11)]).
  destruct (char_transitions_refines_map CharTransitions.new 0 0 id [(9, 90); (1, 10); (4, 40); (1, 11)])
    as (_ & _ & _ & _ & _ & _ & Hs & _); [apply CharTransitionsFacts.new_sorted|].
  destruct (char_transitions_refines_map CharTransitions.new 0 0 id [(9, 90); (1, 10)])
    as (_ & _ & _ & _ & _ & _ & Hs' & Hm); [apply CharTransitionsFacts.new_sorted|].
  destruct (char_transitions_refines_map s 0 0 id [] Hs) as (_ & _ & _ & _ & Hi & _).
  destruct (char_transitions_refines_map _ 1 7 id [] Hs') as ((_ & _ & Hr) & _).
  split; [rewrite Hi|rewrite Hr, Hm]; vm_compute; reflexivity.
Defined.
