(* ===== verification/LexDfa.v ===== *)
(** The byte automaton of the lexer
    (crates/glrmask-lexer/src/automata/lexer/dfa.rs): states with byte
    transitions, epsilon transitions and group metadata, the memoised queries,
    and the operations that build, merge, rewrite and project automata.

    [None] is a panic (an index out of range, a failed [assert!], an [expect]);
    the operations that return an [Option] themselves return [option (option _)].
    [OnceLock] caches are fields; a memoised query returns the automaton with the
    cache filled.  The parallel branches compute the same values as the
    sequential ones and are not distinguished. *)

From S2P Require Import Prelude Bits U8Set BitSet CharTransitions.

Definition GroupId := N.
Definition DEAD : N := u32_max.
Definition usize_max : N := 18446744073709551615.

(** [u32::try_from(x)] *)
Definition u32_try_from (x : N) : option N := if x <? u32_modulus then Some x else None.
(** [x.checked_add(y)] on [u32] *)
Definition u32_checked_add (x y : N) : option N := u32_try_from (x + y).
(** [x.saturating_add(y)] on [usize] *)
Definition usize_saturating_add (x y : N) : N := N.min (x + y) usize_max.

(** [&l[a..b]] *)
Definition slice {A} (l : list A) (a b : N) : option (list A) :=
  if (a <=? b) && (b <=? lenN l) then Some (take (N.to_nat (b - a)) (drop (N.to_nat a) l)) else None.

(** [a..b] *)
Definition rangeN (a b : N) : list N := (λ k, a + k) <$> seqN (N.to_nat (b - a)).

(** [v.resize(n, x)] for a longer [n] *)
Definition resize_longer {A} (l : list A) (n : N) (x : A) : list A :=
  l ++ replicate (N.to_nat (n - lenN l)) x.

(** * States *)

Module LexState.
Record t := mk {
  transitions : CharTransitions.t N;
  finalizers : BitSet.t;
  possible_future_group_ids : BitSet.t;
  epsilon_transitions : list N;
}.

Definition default : t := mk CharTransitions.new (BitSet.new 0) (BitSet.new 0) [].

Definition set_transitions (f : CharTransitions.t N → CharTransitions.t N) (s : t) : t :=
  mk (f (transitions s)) (finalizers s) (possible_future_group_ids s) (epsilon_transitions s).
Definition set_epsilon (f : list N → list N) (s : t) : t :=
  mk (transitions s) (finalizers s) (possible_future_group_ids s) (f (epsilon_transitions s)).
Definition set_finalizers (f : BitSet.t → BitSet.t) (s : t) : t :=
  mk (transitions s) (f (finalizers s)) (possible_future_group_ids s) (epsilon_transitions s).
Definition set_future (f : BitSet.t → BitSet.t) (s : t) : t :=
  mk (transitions s) (finalizers s) (f (possible_future_group_ids s)) (epsilon_transitions s).
End LexState.

(** * Group metadata *)

Definition resized_bitset (bits : BitSet.t) (num_groups : N) : BitSet.t :=
  foldl BitSet.set (BitSet.new num_groups) (BitSet.iter_ones bits).

Definition project_bitset (bits : BitSet.t) (num_groups : N) : BitSet.t :=
  foldl BitSet.set (BitSet.new num_groups) (filter (λ g, g < num_groups) (BitSet.iter_ones bits)).

(** A [BTreeMap<GroupId, BTreeSet<GroupId>>], by ascending key; the order of the
    inner set is not observed. *)
Definition group_relation := list (GroupId * list GroupId).

Definition excluded_group_indices (finalizers : BitSet.t) (excludes : group_relation) : list N :=
  foldl (λ to_clear '(group_index, blocked_by),
      if negb (BitSet.contains finalizers group_index) then to_clear
      else if existsb (BitSet.contains finalizers) blocked_by then to_clear ++ [group_index]
      else to_clear)
    [] excludes.

Definition intersection_missing_group_indices (finalizers : BitSet.t) (intersections : group_relation) : list N :=
  foldl (λ to_clear '(group_index, required),
      if negb (BitSet.contains finalizers group_index) then to_clear
      else if existsb (λ id, negb (BitSet.contains finalizers id)) required then to_clear ++ [group_index]
      else to_clear)
    [] intersections.

(** * The automaton and its caches *)

Module LexStats.
Record t := mk { byte_transition_count : N; epsilon_transition_count : N; has_self_loops : bool }.
End LexStats.

Module LexDFA.
Record t := mk {
  states : list LexState.t;
  group_id_to_u8set : list U8Set.t;
  derived_stats : option LexStats.t;
  min_match_byte_len_cache : option (option N);
  structural_hash_cache : option N;
}.

(** A value with empty caches. *)
Definition fresh (states : list LexState.t) (group_id_to_u8set : list U8Set.t) : t :=
  mk states group_id_to_u8set None None None.

Definition set_states (f : list LexState.t → list LexState.t) (d : t) : t :=
  mk (f (states d)) (group_id_to_u8set d) (derived_stats d) (min_match_byte_len_cache d) (structural_hash_cache d).
Definition set_groups (f : list U8Set.t → list U8Set.t) (d : t) : t :=
  mk (states d) (f (group_id_to_u8set d)) (derived_stats d) (min_match_byte_len_cache d) (structural_hash_cache d).

(** [PartialEq]: the caches are not compared. *)
Definition same (d other : t) : Prop :=
  states d = states other ∧ group_id_to_u8set d = group_id_to_u8set other.

Definition new (num_states : N) : t := fresh (replicate (N.to_nat num_states) LexState.default) [].

(** ** Constructors from packed metadata *)

Definition sparse_state (group_count : N)
    (epsilon_offsets epsilon_targets finalizer_offsets finalizers future_offsets futures : list N)
    (state : N) : option LexState.t :=
  a ← finalizer_offsets.[state]; b ← finalizer_offsets.[state + 1];
  finalizer_list ← slice finalizers a b;
  a ← future_offsets.[state]; b ← future_offsets.[state + 1];
  future_list ← slice futures a b;
  a ← epsilon_offsets.[state]; b ← epsilon_offsets.[state + 1];
  epsilon_list ← slice epsilon_targets a b;
  Some (LexState.mk CharTransitions.new (BitSet.from_sparse_u32 group_count finalizer_list)
          (BitSet.from_sparse_u32 group_count future_list) epsilon_list).

Definition new_from_sparse_metadata (group_id_to_u8set : list U8Set.t)
    (epsilon_offsets epsilon_targets finalizer_offsets finalizers future_offsets futures : list N)
    : option t :=
  let state_count := lenN epsilon_offsets - 1 in
  states ← mapM (sparse_state (lenN group_id_to_u8set) epsilon_offsets epsilon_targets
                   finalizer_offsets finalizers future_offsets futures)
             (seqN (N.to_nat state_count));
  Some (fresh states group_id_to_u8set).

Definition flag_bits (flag : bool) : BitSet.t :=
  if flag then BitSet.set (BitSet.new 1) 0 else BitSet.new 1.

Definition new_with_single_group_metadata (accepting possible_future : list bool) (group_u8set : U8Set.t)
    : option t :=
  if lenN accepting =? lenN possible_future
  then Some (fresh (zip_with (λ a f, LexState.mk CharTransitions.new (flag_bits a) (flag_bits f) [])
                      accepting possible_future) [group_u8set])
  else None.

(** The inner loop: the entries of one row. *)
Fixpoint compact_row (state_count : N) (bytes targets : list N) (indices : list N)
    (previous : option N) (entries : list (N * N)) : option (option (list (N * N))) :=
  match indices with
  | [] => Some (Some entries)
  | index :: indices =>
      byte ← bytes.[index];
      if match previous with Some previous => byte <=? previous | None => false end then Some None
      else
        target ← targets.[index];
        if state_count <=? target then Some None
        else compact_row state_count bytes targets indices (Some byte) (entries ++ [(byte, target)])
  end.

(** [words[state / 64] & (1u64 << (state % 64)) != 0] *)
Definition word_flag (words : list N) (state : N) : option bool :=
  word ← words.[state / 64]; Some (negb (N.land word (bit (state mod 64)) =? 0)).

Definition compact_state (state_count : N) (offsets bytes targets accepting_words future_words : list N)
    (state : N) : option (option LexState.t) :=
  start ← offsets.[state]; stop ← offsets.[state + 1];
  if (stop <? start) || (lenN bytes <? stop) then Some None
  else
    row ← compact_row state_count bytes targets (rangeN start stop) None [];
    match row with
    | None => Some None
    | Some entries =>
        accepting ← word_flag accepting_words state;
        future ← word_flag future_words state;
        Some (Some (LexState.mk (CharTransitions.from_sorted_entries entries)
                      (flag_bits accepting) (flag_bits future) []))
    end.

Fixpoint compact_states (build : N → option (option LexState.t)) (ids : list N) (acc : list LexState.t)
    : option (option (list LexState.t)) :=
  match ids with
  | [] => Some (Some acc)
  | state :: ids =>
      row ← build state;
      match row with
      | None => Some None
      | Some row => compact_states build ids (acc ++ [row])
      end
  end.

Definition new_from_compact_single_group (state_count : N)
    (offsets bytes targets accepting_words future_words : list N) (group_u8set : U8Set.t)
    : option (option t) :=
  if (state_count =? 0) || (65535 <? state_count)
     || negb (lenN offsets =? state_count + 1)
     || negb (bool_decide (head offsets = Some 0))
     || match last offsets with None => true | Some last => negb (last =? lenN bytes) end
     || negb (lenN bytes =? lenN targets)
     || negb (lenN accepting_words =? BitSet.div_ceil_64 state_count)
     || negb (lenN future_words =? BitSet.div_ceil_64 state_count)
  then Some None
  else
    states ← compact_states
      (compact_state state_count offsets bytes targets accepting_words future_words)
      (seqN (N.to_nat state_count)) [];
    Some (option_map (λ states, fresh states [group_u8set]) states).

(** ** Caches *)

Definition invalidate_min_match_byte_len (d : t) : t :=
  mk (states d) (group_id_to_u8set d) (derived_stats d) None (structural_hash_cache d).
Definition invalidate_structural_hash (d : t) : t :=
  mk (states d) (group_id_to_u8set d) (derived_stats d) (min_match_byte_len_cache d) None.
Definition invalidate_structural_caches (d : t) : t :=
  mk (states d) (group_id_to_u8set d) None None None.

Definition compute_derived_stats (d : t) : LexStats.t :=
  foldl (λ stats '(state_id, state),
      LexStats.mk
        (LexStats.byte_transition_count stats + CharTransitions.len (LexState.transitions state))
        (LexStats.epsilon_transition_count stats + lenN (LexState.epsilon_transitions state))
        (LexStats.has_self_loops stats
         || existsb (λ e, e.2 =? state_id) (CharTransitions.iter (LexState.transitions state))))
    (LexStats.mk 0 0 false) (enumerate (states d)).

(** [get_or_init]: the value, and the automaton with the cache filled. *)
Definition get_derived_stats (d : t) : LexStats.t * t :=
  let stats := match derived_stats d with Some stats => stats | None => compute_derived_stats d end in
  (stats, mk (states d) (group_id_to_u8set d) (Some stats) (min_match_byte_len_cache d) (structural_hash_cache d)).

Definition transition_count (d : t) : N * t :=
  let '(stats, d) := get_derived_stats d in (LexStats.byte_transition_count stats, d).
Definition epsilon_transition_count (d : t) : N * t :=
  let '(stats, d) := get_derived_stats d in (LexStats.epsilon_transition_count stats, d).
Definition has_self_loops (d : t) : bool * t :=
  let '(stats, d) := get_derived_stats d in (LexStats.has_self_loops stats, d).
Definition has_epsilon_transitions (d : t) : bool * t :=
  let '(count, d) := epsilon_transition_count d in (negb (count =? 0), d).

Definition set_derived_stats (d : t) (byte_transition_count epsilon_transition_count : N)
    (has_self_loops : bool) : t :=
  mk (states d) (group_id_to_u8set d)
    (Some (LexStats.mk byte_transition_count epsilon_transition_count has_self_loops))
    (min_match_byte_len_cache d) (structural_hash_cache d).

(** The relaxation of one edge in the search over a deque: [front] tells the
    end the target goes to. *)
Definition relax (front : bool) (next_distance : N) (st : list N * list N) (target : N)
    : option (list N * list N) :=
  let '(distance, queue) := st in
  known ← distance.[target];
  if next_distance <? known
  then Some (alterN (λ _, next_distance) distance target,
             if front then target :: queue else queue ++ [target])
  else Some st.

(** One round of the search: epsilon edges cost nothing, byte edges cost one.
    [inr None] is a panic. *)
Definition min_match_step (d : t) (st : list N * list N)
    : (list N * list N) + option (option N) :=
  let '(distance, queue) := st in
  match queue with
  | [] => inr (Some None)
  | state_id :: queue =>
      match distance.[state_id], (states d).[state_id] with
      | Some current_distance, Some state =>
          if negb (BitSet.is_empty (LexState.finalizers state)) then inr (Some (Some current_distance))
          else
            match
              st ← foldM (relax true current_distance) (distance, queue) (LexState.epsilon_transitions state);
              foldM (relax false (usize_saturating_add current_distance 1)) st
                (CharTransitions.iter (LexState.transitions state)).*2
            with
            | Some st => inl st
            | None => inr None
            end
      | _, _ => inr None
      end
  end.

(** The fuel bounds the sum of the distances, which every push lowers. *)
Definition compute_min_match_byte_len (d : t) : option (option N) :=
  match states d with
  | [] => Some None
  | _ :: _ =>
      let distance := alterN (λ _, 0) (replicate (length (states d)) usize_max) 0 in
      match run (min_match_step d) (length (states d) + 70) (distance, [0]) with
      | inl _ => None
      | inr r => r
      end
  end.

Definition min_match_byte_len (d : t) : option (option N * t) :=
  len ← match min_match_byte_len_cache d with
        | Some len => Some len
        | None => compute_min_match_byte_len d
        end;
  Some (len, mk (states d) (group_id_to_u8set d) (derived_stats d) (Some len) (structural_hash_cache d)).

Section hash.
(** [FxHasher] over the states and the group sets. *)
Context (fx_hash : list LexState.t → list U8Set.t → N).

Definition structural_hash (d : t) : N * t :=
  let hash := match structural_hash_cache d with
              | Some hash => hash
              | None => fx_hash (states d) (group_id_to_u8set d)
              end in
  (hash, mk (states d) (group_id_to_u8set d) (derived_stats d) (min_match_byte_len_cache d) (Some hash)).
End hash.

(** ** Queries *)

Definition num_states (d : t) : N := lenN (states d).
Definition num_groups (d : t) : N := lenN (group_id_to_u8set d).

Definition step (d : t) (state byte : N) : option N :=
  match (states d).[state] with
  | Some state => CharTransitions.get (LexState.transitions state) byte
  | None => None
  end.

Definition transitions (d : t) (state : N) : option (list (N * N)) :=
  state ← (states d).[state]; Some (CharTransitions.iter (LexState.transitions state)).

Definition get_u8set (d : t) (state : N) : U8Set.t :=
  match (states d).[state] with
  | Some state => U8Set.insert_all U8Set.empty (CharTransitions.iter (LexState.transitions state)).*1
  | None => U8Set.empty
  end.

Definition get_transition (d : t) (state byte : N) : N := default DEAD (step d state byte).

Definition get_group_u8set (d : t) (group_id : GroupId) : option U8Set.t := (group_id_to_u8set d).[group_id].
Definition finalizers (d : t) (state : N) : option BitSet.t := LexState.finalizers <$> (states d).[state].
Definition possible_future_group_ids (d : t) (state : N) : option BitSet.t :=
  LexState.possible_future_group_ids <$> (states d).[state].

(** ** Growing the automaton *)

Definition add_state (d : t) : N * t :=
  let d := invalidate_structural_caches d in
  let id := as_u32 (lenN (states d)) in
  let groups := lenN (group_id_to_u8set d) in
  (id, set_states (λ l, l ++ [LexState.mk CharTransitions.new (BitSet.new groups) (BitSet.new groups) []]) d).

Definition ensure_group_mapping_capacity (d : t) (num_groups : N) : t :=
  if lenN (group_id_to_u8set d) <? num_groups
  then set_groups (λ l, resize_longer l num_groups U8Set.empty) (invalidate_structural_hash d)
  else d.

Definition resize_state_group_bits (num_groups : N) (s : LexState.t) : LexState.t :=
  if BitSet.len (LexState.finalizers s) <? num_groups
  then LexState.mk (LexState.transitions s) (resized_bitset (LexState.finalizers s) num_groups)
         (resized_bitset (LexState.possible_future_group_ids s) num_groups) (LexState.epsilon_transitions s)
  else s.

Definition ensure_group_capacity (d : t) (num_groups : N) : t :=
  let d := invalidate_structural_hash d in
  let d := if lenN (group_id_to_u8set d) <? num_groups
           then set_groups (λ l, resize_longer l num_groups U8Set.empty) d else d in
  set_states (fmap (resize_state_group_bits num_groups)) d.

(** [if let Some(state) = self.states.get_mut(..) { .. }] *)
Definition with_state (d : t) (state : N) (f : LexState.t → LexState.t) : t :=
  set_states (λ l, alterN f l state) d.

Definition add_transition (d : t) (from byte to : N) : t :=
  with_state (invalidate_structural_caches d) from
    (LexState.set_transitions (λ tr, (CharTransitions.insert tr byte to).1)).

Definition add_epsilon_transition (d : t) (from to : N) : t :=
  with_state (invalidate_structural_caches d) from
    (LexState.set_epsilon (λ l, if bool_decide (to ∈ l) then l else l ++ [to])).

(** ** Appending independently compiled automata *)

Definition rebase_entry (offset : N) (e : N * N) : option (N * N) :=
  target ← u32_checked_add e.2 offset; Some (e.1, target).

(** The transition targets of a state moved by the offset. *)
Definition rebase_targets (offset : N) (s : LexState.t) : option (CharTransitions.t N * list N) :=
  entries ← mapM (rebase_entry offset) (CharTransitions.iter (LexState.transitions s));
  epsilon ← mapM (λ target, u32_checked_add target offset) (LexState.epsilon_transitions s);
  Some (CharTransitions.from_sorted_entries entries, epsilon).

(** The set of the global groups of local groups. *)
Definition remap_groups (total_groups : N) (global_group_ids : list N) (bits : BitSet.t) : option BitSet.t :=
  foldM (λ out local_group, g ← global_group_ids.[local_group]; Some (BitSet.set out g))
    (BitSet.new total_groups) (BitSet.iter_ones bits).

Definition identity_groups (component_groups total_groups : N) (global_group_ids : list N) : bool :=
  (component_groups =? total_groups) && bool_decide (global_group_ids = seqN (N.to_nat total_groups)).

Definition rebase_state (offset total_groups : N) (identity : bool) (global_group_ids : list N)
    (s : LexState.t) : option LexState.t :=
  '(transitions, epsilon) ← rebase_targets offset s;
  if identity
  then Some (LexState.mk transitions (LexState.finalizers s) (LexState.possible_future_group_ids s) epsilon)
  else
    finalizers ← remap_groups total_groups global_group_ids (LexState.finalizers s);
    futures ← remap_groups total_groups global_group_ids (LexState.possible_future_group_ids s);
    Some (LexState.mk transitions finalizers futures epsilon).

(** The loop that installs the byte sets of the component. *)
Definition install_group (component : t) (groups : list U8Set.t) (entry : N * N) : option (list U8Set.t) :=
  let '(local_group, global_group) := entry in
  if global_group <? lenN groups
  then set ← (group_id_to_u8set component).[local_group]; Some (alterN (λ _, set) groups global_group)
  else None.

Definition append_rebased_component (d component : t) (global_group_ids : list N) : option (N * t) :=
  let d := invalidate_structural_caches d in
  if negb (lenN (group_id_to_u8set component) =? lenN global_group_ids) then None
  else
    offset ← u32_try_from (lenN (states d));
    groups ← foldM (install_group component) (group_id_to_u8set d) (enumerate global_group_ids);
    let d := set_groups (λ _, groups) d in
    let total_groups := lenN (group_id_to_u8set d) in
    let identity := identity_groups (lenN (group_id_to_u8set component)) total_groups global_group_ids in
    appended ← mapM (rebase_state offset total_groups identity global_group_ids) (states component);
    Some (offset, set_states (λ l, l ++ appended) d).

(** The variant on a borrowed component clones each state and rebases the
    clone; its remapping reads the groups of the source state. *)
Definition clone_rebased (offset total_groups : N) (identity : bool) (global_group_ids : list N)
    (source : LexState.t) : option LexState.t :=
  let state := source in
  '(transitions, epsilon) ← rebase_targets offset state;
  let state := LexState.set_epsilon (λ _, epsilon) (LexState.set_transitions (λ _, transitions) state) in
  if identity then Some state
  else
    finalizers ← remap_groups total_groups global_group_ids (LexState.finalizers source);
    futures ← remap_groups total_groups global_group_ids (LexState.possible_future_group_ids source);
    Some (LexState.set_future (λ _, futures) (LexState.set_finalizers (λ _, finalizers) state)).

Definition append_rebased_component_ref (d component : t) (global_group_ids : list N) : option (N * t) :=
  let d := invalidate_structural_caches d in
  if negb (lenN (group_id_to_u8set component) =? lenN global_group_ids) then None
  else
    offset ← u32_try_from (lenN (states d));
    groups ← foldM (install_group component) (group_id_to_u8set d) (enumerate global_group_ids);
    let d := set_groups (λ _, groups) d in
    let total_groups := lenN (group_id_to_u8set d) in
    let identity := identity_groups (lenN (group_id_to_u8set component)) total_groups global_group_ids in
    appended ← mapM (clone_rebased offset total_groups identity global_group_ids) (states component);
    Some (offset, set_states (λ l, l ++ appended) d).

(** The group sets of a state of a one-group component, for several groups. *)
Definition shared_bits (total_groups : N) (global_group_ids : list N) (bits : BitSet.t) : BitSet.t :=
  if BitSet.contains bits 0 then foldl BitSet.set (BitSet.new total_groups) global_group_ids
  else BitSet.new total_groups.

Definition rebase_shared (offset total_groups : N) (global_group_ids : list N) (s : LexState.t)
    : option LexState.t :=
  '(transitions, epsilon) ← rebase_targets offset s;
  Some (LexState.mk transitions (shared_bits total_groups global_group_ids (LexState.finalizers s))
          (shared_bits total_groups global_group_ids (LexState.possible_future_group_ids s)) epsilon).

Definition append_rebased_shared_single_group_component (d component : t) (global_group_ids : list N)
    : option (N * t) :=
  let d := invalidate_structural_caches d in
  if negb (lenN (group_id_to_u8set component) =? 1) || (lenN global_group_ids =? 0) then None
  else
    groups ← foldM (λ groups global_group,
        if global_group <? lenN groups
        then set ← (group_id_to_u8set component).[0]; Some (alterN (λ _, set) groups global_group)
        else None)
      (group_id_to_u8set d) global_group_ids;
    let d := set_groups (λ _, groups) d in
    offset ← u32_try_from (lenN (states d));
    let total_groups := lenN (group_id_to_u8set d) in
    appended ← mapM (rebase_shared offset total_groups global_group_ids) (states component);
    Some (offset, set_states (λ l, l ++ appended) d).

(** The first pass of the batch: the offsets and the group sets.  [inr] is an
    early return of [None], which leaves the groups written so far in place. *)
Fixpoint batch_offsets (components : list (t * N)) (next_offset : N) (offsets : list N)
    (groups : list U8Set.t) : (list N * list U8Set.t) + list U8Set.t :=
  match components with
  | [] => inl (offsets, groups)
  | (component, global_group) :: components =>
      if negb (lenN (group_id_to_u8set component) =? 1) || (lenN groups <=? global_group) then inr groups
      else
        match u32_try_from (lenN (states component)), (group_id_to_u8set component).[0] with
        | Some len, Some set =>
            match u32_checked_add next_offset len with
            | Some following =>
                batch_offsets components following (offsets ++ [next_offset])
                  (alterN (λ _, set) groups global_group)
            | None => inr groups
            end
        | _, _ => inr groups
        end
  end.

(** [Some (None, d)]: the batch declines. *)
Definition append_rebased_single_group_component_refs_batch (d : t) (components : list (t * N))
    : option (option (list N) * t) :=
  if lenN components =? 0 then Some (Some [], d)
  else
    let d := invalidate_structural_caches d in
    let total_groups := lenN (group_id_to_u8set d) in
    match u32_try_from (lenN (states d)) with
    | None => Some (None, d)
    | Some next_offset =>
        match batch_offsets components next_offset [] (group_id_to_u8set d) with
        | inr groups => Some (None, set_groups (λ _, groups) d)
        | inl (offsets, groups) =>
            let d := set_groups (λ _, groups) d in
            appended ← mapM (λ '((component, global_group), offset),
                mapM (rebase_shared offset total_groups [global_group]) (states component))
              (zip components offsets);
            Some (Some offsets, set_states (λ l, foldl app l appended) d)
        end
    end.

(** ** Rewriting *)

Definition set_transitions_from_sorted_entries (d : t) (state : N) (entries : list (N * N)) : t :=
  with_state (invalidate_structural_caches d) state
    (LexState.set_transitions (λ _, CharTransitions.from_sorted_entries entries)).

Definition clear_finalizers_for_state (d : t) (state : N) : BitSet.t * t :=
  let d := invalidate_structural_hash (invalidate_min_match_byte_len d) in
  let num_groups := lenN (group_id_to_u8set d) in
  match (states d).[state] with
  | Some entry => (LexState.finalizers entry, with_state d state (LexState.set_finalizers (λ _, BitSet.new num_groups)))
  | None => (BitSet.empty 0, d)
  end.

Definition overwrite_state_metadata (d : t) (state : N) (finalizers future : BitSet.t) : t :=
  with_state (invalidate_structural_hash (invalidate_min_match_byte_len d)) state
    (λ s, LexState.set_future (λ _, future) (LexState.set_finalizers (λ _, finalizers) s)).

Definition set_group_u8set (d : t) (group_id : GroupId) (set : U8Set.t) : t :=
  set_groups (λ l, alterN (λ _, set) l group_id) (invalidate_structural_hash d).

(** The group bits of one state, with the aliases replaced by the canonical group. *)
Definition canonicalize_bits (canonical : N) (aliases : list N) (bits : BitSet.t) : BitSet.t :=
  let has_alias := existsb (λ group, bool_decide (group ∈ aliases)) (BitSet.iter_ones bits) in
  let bits := foldl BitSet.clear bits aliases in
  if has_alias then BitSet.set bits canonical else bits.

Definition canonicalize_state (canonical : N) (aliases : list N) (s : LexState.t) : LexState.t :=
  LexState.set_future (canonicalize_bits canonical aliases)
    (LexState.set_finalizers (canonicalize_bits canonical aliases) s).

Definition canonicalize_group_aliases (d : t) (canonical : N) (aliases : list N) : option t :=
  if lenN aliases =? 0 then Some d
  else
    let d := set_states (fmap (canonicalize_state canonical aliases)) d in
    bytes ← get_group_u8set d (as_u32 canonical);
    bytes ← foldM (λ bytes alias, set ← get_group_u8set d (as_u32 alias); Some (U8Set.union bytes set))
      bytes aliases;
    Some (set_group_u8set d (as_u32 canonical) bytes).

(** [states_mut] followed by a change through the reference. *)
Definition states_mut (d : t) (f : list LexState.t → list LexState.t) : t :=
  set_states f (invalidate_structural_caches d).

Definition set_possible_future_group_ids (d : t) (state : N) (ids : BitSet.t) : t :=
  with_state (invalidate_structural_hash d) state (LexState.set_future (λ _, ids)).

Definition mask_possible_futures (d : t) (mask : BitSet.t) : t :=
  set_states (fmap (LexState.set_future (λ future, BitSet.intersect_with future mask)))
    (invalidate_structural_hash d).

Definition clone_state (d : t) (source : N) : option (N * t) :=
  let d := invalidate_structural_caches d in
  cloned ← (states d).[source];
  let id := as_u32 (lenN (states d)) in
  Some (id, set_states (λ l, l ++ [cloned]) d).

Definition redirect (old_target new_target target : N) : N :=
  if target =? old_target then new_target else target.

Definition redirect_state (old_target new_target : N) (s : LexState.t) : LexState.t :=
  LexState.set_epsilon (fmap (redirect old_target new_target))
    (LexState.set_transitions (λ tr, CharTransitions.from_sorted_entries
        (prod_map id (redirect old_target new_target) <$> CharTransitions.iter tr)) s).

Definition has_target (target : N) (s : LexState.t) : bool :=
  existsb (N.eqb target) (CharTransitions.iter (LexState.transitions s)).*2
  || existsb (N.eqb target) (LexState.epsilon_transitions s).

Definition redirect_transitions (d : t) (old_target new_target : N) : bool * t :=
  let d := invalidate_structural_caches d in
  (existsb (has_target old_target) (states d),
   set_states (fmap (redirect_state old_target new_target)) d).

Definition discard_last_state (d : t) : t :=
  set_states (λ l, take (pred (length l)) l) (invalidate_structural_caches d).

(** The inner loop over the groups to clear; the flag tells whether one was set. *)
Definition clear_groups (st : BitSet.t * bool) (groups : list N) : BitSet.t * bool :=
  foldl (λ '(bits, changed) group_index,
      if BitSet.contains bits group_index then (BitSet.clear bits group_index, true) else (bits, changed))
    st groups.

Definition exclude_state (excludes : group_relation) (st : list LexState.t * bool) (s : LexState.t)
    : list LexState.t * bool :=
  let '(done, changed) := st in
  if (BitSet.count_ones (LexState.finalizers s) <? 2)%nat then (done ++ [s], changed)
  else
    let '(bits, changed) := clear_groups (LexState.finalizers s, changed)
                              (excluded_group_indices (LexState.finalizers s) excludes) in
    (done ++ [LexState.set_finalizers (λ _, bits) s], changed).

Definition invalidate_if (changed : bool) (d : t) : t :=
  if changed then invalidate_structural_hash (invalidate_min_match_byte_len d) else d.

Definition apply_group_exclusions (d : t) (excludes : group_relation) : bool * t :=
  let '(done, changed) := foldl (exclude_state excludes) ([], false) (states d) in
  (changed, invalidate_if changed (set_states (λ _, done) d)).

Definition intersect_state (intersections : group_relation) (st : list LexState.t * bool) (s : LexState.t)
    : list LexState.t * bool :=
  let '(done, changed) := st in
  let '(bits, changed) := clear_groups (LexState.finalizers s, changed)
                            (intersection_missing_group_indices (LexState.finalizers s) intersections) in
  (done ++ [LexState.set_finalizers (λ _, bits) s], changed).

Definition apply_group_intersections (d : t) (intersections : group_relation) : bool * t :=
  let '(done, changed) := foldl (intersect_state intersections) ([], false) (states d) in
  (changed, invalidate_if changed (set_states (λ _, done) d)).

(** One round of the loop over the states. *)
Definition project_state (num_groups : N) (projected : t) (entry : N * LexState.t) : t :=
  let '(state_index, state) := entry in
  let projected := set_transitions_from_sorted_entries projected (as_u32 state_index)
                     (CharTransitions.iter (LexState.transitions state)) in
  let projected := states_mut projected
                     (λ l, alterN (LexState.set_epsilon (λ _, LexState.epsilon_transitions state)) l state_index) in
  overwrite_state_metadata projected (as_u32 state_index)
    (project_bitset (LexState.finalizers state) num_groups)
    (project_bitset (LexState.possible_future_group_ids state) num_groups).

Definition project_groups (d : t) (num_groups : N) : option t :=
  let projected := ensure_group_capacity (new (num_states d)) num_groups in
  let projected := foldl (project_state num_groups) projected (enumerate (states d)) in
  foldM (λ projected group_id,
      set ← (group_id_to_u8set d).[group_id];
      Some (set_group_u8set projected (as_u32 group_id) set))
    projected (seqN (N.to_nat num_groups)).

Definition truncate_groups (num_groups : N) (s : LexState.t) : option LexState.t :=
  finalizers ← BitSet.truncate (LexState.finalizers s) num_groups;
  future ← BitSet.truncate (LexState.possible_future_group_ids s) num_groups;
  Some (LexState.mk (LexState.transitions s) finalizers future (LexState.epsilon_transitions s)).

Definition project_groups_in_place (d : t) (num_groups : N) : option t :=
  if lenN (group_id_to_u8set d) <? num_groups then None
  else
    let d := invalidate_structural_caches d in
    states ← mapM (truncate_groups num_groups) (states d);
    Some (set_groups (take (N.to_nat num_groups)) (set_states (λ _, states) d)).
End LexDFA.
