(* ===== verification/LexCache.v ===== *)
(** The caches of the byte automaton: every operation keeps them coherent with
    the data they summarise (crates/glrmask-lexer/src/automata/lexer/dfa.rs). *)

From stdpp Require Import relations.
From S2P Require Import Prelude Bits U8Set BitSet CharTransitions LexDfa.

(** Two loops whose steps agree. *)
Lemma run_ext {S R} (f g : S → S + R) k s : (∀ s, f s = g s) → run f k s = run g k s.
Proof.
  intros Hfg. revert s. induction k as [|k IH]; intros s; simpl; [apply Hfg|].
  rewrite IH. destruct (run g k s); [apply IH|done].
Qed.

(** * Group bits *)

Module LexBits.
Import BitSet BitSetFacts.

(** A state whose group sets are well-formed values. *)
Record state_ok (s : LexState.t) : Prop := {
  finalizers_wf : wf (LexState.finalizers s);
  future_wf : wf (LexState.possible_future_group_ids s);
}.

Lemma fold_set_wf s l : wf s → wf (foldl set s l).
Proof. intros Hs. by apply foldl_set_spec. Qed.

Lemma resized_wf b n : wf (resized_bitset b n).
Proof. apply fold_set_wf, new_wf. Qed.

Lemma project_wf b n : wf (project_bitset b n).
Proof. apply fold_set_wf, new_wf. Qed.

Lemma len_fold_set s l : wf s → len (foldl set s l) = len s.
Proof. intros Hs. by apply foldl_set_spec. Qed.

Lemma resized_spec b n :
  wf b → len (resized_bitset b n) = n ∧ ∀ i, get (resized_bitset b n) i = (i <? n) && get b i.
Proof.
  intros Hb. unfold resized_bitset. destruct (foldl_set_spec (new n) (iter_ones b) (new_wf n)) as (_ & Hl & Hg).
  split; [done|]. intros i. rewrite Hg, get_new, orb_false_r. change (len (new n)) with n.
  rewrite andb_comm. f_equal. destruct (get b i) eqn:E.
  - apply bool_decide_eq_true, elem_of_iter_ones; done.
  - apply bool_decide_eq_false. rewrite elem_of_iter_ones by done. congruence.
Qed.

Lemma project_spec b n :
  wf b → len (project_bitset b n) = n ∧ ∀ i, get (project_bitset b n) i = (i <? n) && get b i.
Proof.
  intros Hb. unfold project_bitset.
  destruct (foldl_set_spec (new n) (filter (λ g, g < n) (iter_ones b)) (new_wf n)) as (_ & Hl & Hg).
  split; [done|]. intros i. rewrite Hg, get_new, orb_false_r. change (len (new n)) with n.
  destruct (N.ltb_spec i n) as [Hi|]; [|by rewrite andb_false_r]. rewrite andb_true_r. simpl.
  destruct (get b i) eqn:E.
  - apply bool_decide_eq_true, list_elem_of_filter. split; [done|]. apply elem_of_iter_ones; done.
  - apply bool_decide_eq_false. rewrite list_elem_of_filter, elem_of_iter_ones by done. intros [_ ?]. congruence.
Qed.

Lemma is_empty_false s : wf s → is_empty s = false ↔ ∃ i, get s i = true.
Proof.
  intros Hs. unfold is_empty. split.
  - intros He. destruct (iter_ones s) as [|i l] eqn:E.
    + assert (is_zero s = true) as Hz; [|congruence]. apply is_zero_spec; [done|]. intros i.
      destruct (get s i) eqn:Ei; [|done]. apply elem_of_iter_ones in Ei; [|done]. rewrite E in Ei. by apply elem_of_nil in Ei.
    + exists i. apply elem_of_iter_ones; [done|]. rewrite E. by left.
  - intros [i Hi]. destruct (is_zero s) eqn:Ez; [|done]. rewrite (proj1 (is_zero_spec s Hs) Ez) in Hi. done.
Qed.

Lemma is_empty_ext s s' : wf s → wf s' → ((∃ i, get s i = true) ↔ ∃ i, get s' i = true) → is_empty s = is_empty s'.
Proof.
  intros Hs Hs' H. rewrite <-(is_empty_false s), <-(is_empty_false s') in H by done.
  destruct (is_empty s), (is_empty s'); try done; naive_solver.
Qed.

Lemma fold_clear_spec s l :
  wf s → wf (foldl clear s l) ∧ len (foldl clear s l) = len s ∧
  ∀ j, get (foldl clear s l) j = negb (bool_decide (j ∈ l)) && get s j.
Proof.
  revert s. induction l as [|i l IH]; intros s Hs; cbn [foldl].
  - split; [done|]. split; [done|]. intros j. by rewrite bool_decide_eq_false_2 by apply not_elem_of_nil.
  - destruct (clear_spec s i Hs) as (Hw & Hl & Hg). destruct (IH _ Hw) as (Hw' & Hl' & Hg').
    split; [done|]. split; [by rewrite Hl'|]. intros j. rewrite Hg', Hg.
    destruct (N.eqb_spec j i) as [->|Hne].
    + rewrite (bool_decide_eq_true_2 (i ∈ i :: l)) by left. by rewrite andb_false_r.
    + cbn [negb andb]. f_equal. f_equal. apply bool_decide_ext. rewrite elem_of_cons. naive_solver.
Qed.

(** Clearing the groups of a list that are set. *)
Lemma clear_groups_spec bits changed groups :
  wf bits →
  wf (LexDFA.clear_groups (bits, changed) groups).1 ∧
  len (LexDFA.clear_groups (bits, changed) groups).1 = len bits ∧
  (∀ j, get (LexDFA.clear_groups (bits, changed) groups).1 j = negb (bool_decide (j ∈ groups)) && get bits j) ∧
  (LexDFA.clear_groups (bits, changed) groups).2 = changed || existsb (get bits) groups.
Proof.
  unfold LexDFA.clear_groups. revert bits changed. induction groups as [|g l IH]; intros bits changed Hb; cbn [foldl existsb].
  - split; [done|]. split; [done|]. split; [|by rewrite orb_false_r].
    intros j. by rewrite bool_decide_eq_false_2 by apply not_elem_of_nil.
  - change (contains bits g) with (get bits g). destruct (get bits g) eqn:Eg.
    + destruct (clear_spec bits g Hb) as (Hw & Hl & Hg). destruct (IH _ true Hw) as (Hw' & Hl' & Hg' & Hc).
      split; [done|]. split; [by rewrite Hl'|]. split; [|by rewrite Hc, !orb_true_r].
      intros j. rewrite Hg', Hg. destruct (N.eqb_spec j g) as [->|Hne].
      * rewrite (bool_decide_eq_true_2 (g ∈ g :: l)) by left. by rewrite andb_false_r.
      * cbn [negb andb]. do 2 f_equal. apply bool_decide_ext. rewrite elem_of_cons. naive_solver.
    + destruct (IH bits changed Hb) as (Hw & Hl & Hg & Hc). split; [done|]. split; [done|]. split; [|done].
      intros j. rewrite Hg. destruct (N.eqb_spec j g) as [->|Hne]; [by rewrite Eg, !andb_false_r|].
      do 2 f_equal. apply bool_decide_ext. rewrite elem_of_cons. naive_solver.
Qed.
End LexBits.

(** * What the caches depend on *)

Definition edges (s : LexState.t) : CharTransitions.t N * list N :=
  (LexState.transitions s, LexState.epsilon_transitions s).

(** Also the emptiness of the finalizers, all the shortest match looks at. *)
Definition matching (s : LexState.t) : CharTransitions.t N * list N * bool :=
  (edges s, BitSet.is_empty (LexState.finalizers s)).

Lemma foldl_fmap {A B C} (f : C → B → C) (g : A → B) c l :
  foldl f c (g <$> l) = foldl (λ c x, f c (g x)) c l.
Proof. revert c. induction l as [|x l IH]; intros c; [done|]. apply IH. Qed.

Lemma enumerate_fmap {A B} (g : A → B) l : enumerate (g <$> l) = prod_map id g <$> enumerate l.
Proof. unfold enumerate. rewrite imap_fmap, fmap_imap. done. Qed.

Lemma foldl_ext_eq {A C} (f g : C → A → C) c l : (∀ c x, f c x = g c x) → foldl f c l = foldl g c l.
Proof. intros H. revert c. induction l as [|x l IH]; intros c; [done|]. simpl. by rewrite H, IH. Qed.

Section depends.
Import LexDFA.

Lemma stats_edges d d' :
  edges <$> states d = edges <$> states d' → compute_derived_stats d = compute_derived_stats d'.
Proof.
  set (f := λ (stats : LexStats.t) (e : N * (CharTransitions.t N * list N)),
    LexStats.mk (LexStats.byte_transition_count stats + CharTransitions.len e.2.1)
      (LexStats.epsilon_transition_count stats + lenN e.2.2)
      (LexStats.has_self_loops stats || existsb (λ t, t.2 =? e.1) (CharTransitions.iter e.2.1))).
  assert (Hf : ∀ d, compute_derived_stats d = foldl f (LexStats.mk 0 0 false) (enumerate (edges <$> states d))).
  { intros d0. rewrite enumerate_fmap, foldl_fmap. apply foldl_ext_eq. by intros c [i s]. }
  intros H. by rewrite !Hf, H.
Qed.

Lemma state_matching d d' i :
  matching <$> states d = matching <$> states d' →
  match (states d).[i], (states d').[i] with
  | Some s, Some s' => matching s = matching s'
  | None, None => True
  | _, _ => False
  end.
Proof.
  intros H. assert (Hi : matching <$> (states d).[i] = matching <$> (states d').[i]) by by rewrite <-!nthN_fmap, H.
  destruct ((states d).[i]), ((states d').[i]); [by apply (inj Some) in Hi|done..].
Qed.

Lemma min_match_matching d d' :
  matching <$> states d = matching <$> states d' →
  compute_min_match_byte_len d = compute_min_match_byte_len d'.
Proof.
  intros H. assert (Hl : length (states d) = length (states d')).
  { by rewrite <-(length_fmap matching (states d)), H, length_fmap. }
  unfold compute_min_match_byte_len. rewrite Hl.
  assert (Hr : ∀ k s, run (min_match_step d) k s = run (min_match_step d') k s).
  { intros k s. apply run_ext. intros [distance [|i queue]]; [done|]. cbn [min_match_step].
    destruct (distance.[i]) as [dist|]; [|done]. pose proof (state_matching d d' i H) as Hi.
    destruct ((states d).[i]) as [s1|], ((states d').[i]) as [s2|]; try done.
    unfold matching, edges in Hi. injection Hi as H1 H2 H3. by rewrite H1, H2, H3. }
  destruct (states d), (states d'); try done. by rewrite Hr.
Qed.

Lemma edges_of_matching d d' :
  matching <$> states d = matching <$> states d' → edges <$> states d = edges <$> states d'.
Proof.
  intros H. assert (Hf : ∀ l, edges <$> l = fst <$> (matching <$> l)) by (intros l; by rewrite <-list_fmap_compose).
  by rewrite !Hf, H.
Qed.
End depends.

(** * Coherence *)

Section coherence.
Import LexDFA.
Context (fx_hash : list LexState.t → list U8Set.t → N).
(** The calls of [canonicalize_group_aliases] in a run. *)
Context (canonicalizes : t → N → list N → Prop).

(** The state goes on finalizing when the aliases are merged: it has room for the
    canonical group, or it finalizes nothing, or a group that is not an alias. *)
Definition group_fits (canonical : N) (aliases : list N) (s : LexState.t) : Prop :=
  canonical < BitSet.len (LexState.finalizers s) ∨ BitSet.is_empty (LexState.finalizers s) = true ∨
  ∃ g, BitSet.get (LexState.finalizers s) g = true ∧ g ∉ aliases.

Definition groups_fit : Prop := ∀ d canonical aliases, canonicalizes d canonical aliases → Forall (group_fits canonical aliases) (states d).

(** A filled cache holds what a fresh computation returns; the shortest match as
    long as canonical groups fit. *)
Record coherent (d : t) : Prop := {
  stats_coherent : ∀ stats, derived_stats d = Some stats → stats = compute_derived_stats d;
  min_match_coherent : groups_fit → ∀ len, min_match_byte_len_cache d = Some len → compute_min_match_byte_len d = Some len;
  hash_coherent : ∀ hash, structural_hash_cache d = Some hash → hash = fx_hash (states d) (group_id_to_u8set d);
}.

Definition lex_ok (d : t) : Prop := coherent d ∧ Forall LexBits.state_ok (states d).

Lemma uncached_coherent l g : coherent (mk l g None None None).
Proof. by split. Qed.

(** The hash cache is dropped, the other two survive because what they
    summarise is the same. *)
Lemma coherent_same_matching d l g :
  coherent d → matching <$> states d = matching <$> l →
  coherent (mk l g (derived_stats d) (min_match_byte_len_cache d) None).
Proof.
  intros [Hs Hm Hh] H. split; cbn [derived_stats min_match_byte_len_cache structural_hash_cache]; [| |done].
  - intros stats Hst. rewrite (Hs stats Hst). apply stats_edges, edges_of_matching. done.
  - intros Hfit len Hlen. rewrite <-(Hm Hfit len Hlen). symmetry. by apply min_match_matching.
Qed.

Lemma coherent_same_edges d l g :
  coherent d → edges <$> states d = edges <$> l → coherent (mk l g (derived_stats d) None None).
Proof.
  intros [Hs Hm Hh] H. split; cbn [derived_stats min_match_byte_len_cache structural_hash_cache]; [|done..].
  intros stats Hst. rewrite (Hs stats Hst). by apply stats_edges.
Qed.

Lemma ok_uncached l g : Forall LexBits.state_ok l → lex_ok (mk l g None None None).
Proof. split; [apply uncached_coherent|done]. Qed.

Lemma ok_same_matching d l g :
  lex_ok d → matching <$> states d = matching <$> l → Forall LexBits.state_ok l →
  lex_ok (mk l g (derived_stats d) (min_match_byte_len_cache d) None).
Proof. intros [Hc _] H Hl. split; [by apply coherent_same_matching|done]. Qed.

Lemma ok_same_edges d l g :
  lex_ok d → edges <$> states d = edges <$> l → Forall LexBits.state_ok l →
  lex_ok (mk l g (derived_stats d) None None).
Proof. intros [Hc _] H Hl. split; [by apply coherent_same_edges|done]. Qed.

(** ** States stay well formed *)

Lemma Forall_alterN {A} (P : A → Prop) f l i : Forall P l → (∀ x, P x → P (f x)) → Forall P (alterN f l i).
Proof. intros Hl Hf. rewrite alterN_alter. apply Forall_alter; [done|]. intros x _ Hx. by apply Hf. Qed.

Lemma fmap_alterN {A B} (g : A → B) f l i : (∀ x, g (f x) = g x) → g <$> alterN f l i = g <$> l.
Proof.
  intros H. apply nthN_ext. intros j. rewrite !nthN_fmap, nthN_alterN. case_match; [|done].
  destruct l.[j]; simpl; by rewrite ?H.
Qed.

Lemma Forall_mapM {A B} (P : A → Prop) (Q : B → Prop) (f : A → option B) l k :
  (∀ x y, P x → f x = Some y → Q y) → Forall P l → mapM f l = Some k → Forall Q k.
Proof.
  intros Hf Hl Hm%mapM_Some_1. revert Hl. induction Hm as [|x y l k Hxy _ IH]; intros Hl; [constructor|].
  apply Forall_cons in Hl as [Hx Hl]. constructor; [by eapply Hf|auto].
Qed.

Lemma blank_ok l e n : LexBits.state_ok (LexState.mk l (BitSet.new n) (BitSet.new n) e).
Proof. split; apply BitSetFacts.new_wf. Qed.

Lemma remap_wf n ids b out : remap_groups n ids b = Some out → BitSet.wf out.
Proof.
  unfold remap_groups. generalize (BitSetFacts.new_wf n). generalize (BitSet.new n).
  induction (BitSet.iter_ones b) as [|i l IH]; intros s Hs; simpl; [by intros [= <-]|].
  destruct ids.[i] as [g|]; simpl; [|done]. apply IH. by apply BitSetFacts.set_spec.
Qed.

Lemma shared_wf n ids b : BitSet.wf (shared_bits n ids b).
Proof. unfold shared_bits. case_match; [apply LexBits.fold_set_wf|]; apply BitSetFacts.new_wf. Qed.

Lemma rebase_ok offset n identity ids s s' :
  LexBits.state_ok s → rebase_state offset n identity ids s = Some s' → LexBits.state_ok s'.
Proof.
  intros [Hf Hp]. unfold rebase_state. destruct (rebase_targets offset s) as [[tr ep]|]; simpl; [|done].
  destruct identity; [by intros [= <-]|].
  destruct (remap_groups n ids (LexState.finalizers s)) as [f|] eqn:Ef; simpl; [|done].
  destruct (remap_groups n ids (LexState.possible_future_group_ids s)) as [p|] eqn:Ep; simpl; [|done].
  intros [= <-]. split; by eapply remap_wf.
Qed.

(** The two variants of the component loop make the same state. *)
Lemma clone_rebased_eq offset n identity ids s :
  clone_rebased offset n identity ids s = rebase_state offset n identity ids s.
Proof.
  unfold clone_rebased, rebase_state. destruct (rebase_targets offset s) as [[tr ep]|]; [|done].
  simpl. destruct identity; [done|]. destruct (remap_groups n ids (LexState.finalizers s)); [|done]. simpl.
  by destruct (remap_groups n ids (LexState.possible_future_group_ids s)).
Qed.

Lemma rebase_shared_ok offset n ids s s' : rebase_shared offset n ids s = Some s' → LexBits.state_ok s'.
Proof.
  unfold rebase_shared. destruct (rebase_targets offset s) as [[tr ep]|]; simpl; [|done].
  intros [= <-]. split; apply shared_wf.
Qed.

Lemma Forall_foldl_app {A} (P : A → Prop) (l : list A) ls :
  Forall P l → Forall (Forall P) ls → Forall P (foldl app l ls).
Proof. intros Hl Hls. revert l Hl. induction Hls; intros l' Hl'; [done|]. simpl. apply IHHls. by apply Forall_app. Qed.

Lemma canonicalize_bits_spec canonical aliases b :
  BitSet.wf b →
  BitSet.wf (canonicalize_bits canonical aliases b) ∧
  BitSet.len (canonicalize_bits canonical aliases b) = BitSet.len b ∧
  ∀ i, BitSet.get (canonicalize_bits canonical aliases b) i =
       (negb (bool_decide (i ∈ aliases)) && BitSet.get b i) ||
       ((i =? canonical) && (i <? BitSet.len b) &&
        existsb (λ g, bool_decide (g ∈ aliases)) (BitSet.iter_ones b)).
Proof.
  intros Hb. unfold canonicalize_bits. destruct (LexBits.fold_clear_spec b aliases Hb) as (Hw & Hl & Hg).
  destruct (existsb _ _).
  - destruct (BitSetFacts.set_spec _ canonical Hw) as (Hw' & Hl' & Hg'). split; [done|]. split; [by rewrite Hl'|].
    intros i. rewrite Hg', Hg, Hl, andb_true_r, orb_comm. f_equal. destruct (N.eqb_spec i canonical); subst; done.
  - split; [done|]. split; [done|]. intros i. by rewrite Hg, andb_false_r, orb_false_r.
Qed.

Lemma canonicalize_ok canonical aliases s :
  LexBits.state_ok s → LexBits.state_ok (canonicalize_state canonical aliases s).
Proof. intros [Hf Hp]. split; by apply canonicalize_bits_spec. Qed.

Lemma canonicalize_edges canonical aliases s : edges (canonicalize_state canonical aliases s) = edges s.
Proof. done. Qed.

(** Merging the aliases into a group that fits does not change emptiness. *)
Lemma canonicalize_matching canonical aliases s :
  LexBits.state_ok s → group_fits canonical aliases s →
  matching (canonicalize_state canonical aliases s) = matching s.
Proof.
  intros [Hf Hp] Hc. unfold matching. f_equal. cbn [canonicalize_state LexState.finalizers LexState.set_future LexState.set_finalizers].
  destruct (canonicalize_bits_spec canonical aliases _ Hf) as (Hw & _ & Hg).
  apply LexBits.is_empty_ext; [done..|]. split; intros [i Hi].
  - rewrite Hg in Hi. apply orb_true_iff in Hi as [[_ ?]%andb_true_iff|[_ He]%andb_true_iff]; [by exists i|].
    apply existsb_exists in He as (g & Hin & _). exists g. by apply BitSetFacts.elem_of_iter_ones, list_elem_of_In.
  - destruct Hc as [Hc|[Hc|(g & Hin & Ha)]]; [|assert (He : BitSet.is_empty (LexState.finalizers s) = false) by (apply LexBits.is_empty_false; eauto); congruence|exists g; by rewrite Hg, Hin, bool_decide_eq_false_2].
    destruct (decide (i ∈ aliases)) as [Ha|Ha].
    + exists canonical. rewrite Hg, N.eqb_refl, (proj2 (N.ltb_lt _ _) Hc). apply orb_true_iff. right. simpl.
      apply existsb_exists. exists i. split; [by apply list_elem_of_In, BitSetFacts.elem_of_iter_ones|by apply bool_decide_eq_true].
    + exists i. by rewrite Hg, Hi, bool_decide_eq_false_2.
Qed.

Lemma resize_ok n s : LexBits.state_ok s → LexBits.state_ok (resize_state_group_bits n s).
Proof. intros Hs. unfold resize_state_group_bits. case_match; [|done]. split; apply LexBits.resized_wf. Qed.

Lemma resize_matching n s : LexBits.state_ok s → matching (resize_state_group_bits n s) = matching s.
Proof.
  intros [Hf Hp]. unfold resize_state_group_bits. destruct (N.ltb_spec (BitSet.len (LexState.finalizers s)) n); [|done].
  unfold matching. f_equal. cbn [LexState.finalizers].
  destruct (LexBits.resized_spec (LexState.finalizers s) n Hf) as [_ Hg].
  apply LexBits.is_empty_ext; [apply LexBits.resized_wf|done|]. split; intros [i Hi]; exists i.
  - rewrite Hg in Hi. by apply andb_true_iff in Hi as [_ Hi].
  - rewrite Hg, Hi, andb_true_r. apply N.ltb_lt. apply BitSetFacts.get_lt in Hi. lia.
Qed.

Lemma fmap_same {A B} (g : A → B) (f : A → A) l (P : A → Prop) :
  (∀ x, P x → g (f x) = g x) → Forall P l → g <$> l = g <$> (f <$> l).
Proof.
  intros Hf Hl. rewrite <-list_fmap_compose. induction Hl as [|x l Hx _ IH]; [done|].
  rewrite !fmap_cons, IH. f_equal. symmetry. by apply Hf.
Qed.

(** ** The loops that clear finalizers *)

Lemma clear_groups_flag bits changed groups :
  clear_groups (bits, changed) groups =
  ((clear_groups (bits, false) groups).1, changed || (clear_groups (bits, false) groups).2).
Proof.
  unfold clear_groups. revert bits changed. induction groups as [|g l IH]; intros bits changed; cbn [foldl].
  - by rewrite orb_false_r.
  - destruct (BitSet.contains bits g); [|apply IH].
    rewrite (IH _ true). by rewrite !orb_true_r.
Qed.

Lemma clear_groups_unchanged bits groups :
  (clear_groups (bits, false) groups).2 = false → (clear_groups (bits, false) groups).1 = bits.
Proof.
  unfold clear_groups. induction groups as [|g l IH]; cbn [foldl]; [done|].
  destruct (BitSet.contains bits g); [|exact IH].
  pose proof (clear_groups_flag (BitSet.clear bits g) true l) as Hf. unfold clear_groups in Hf. by rewrite Hf.
Qed.

Definition exclude_bits (excludes : group_relation) (s : LexState.t) : BitSet.t * bool :=
  if (BitSet.count_ones (LexState.finalizers s) <? 2)%nat then (LexState.finalizers s, false)
  else clear_groups (LexState.finalizers s, false) (excluded_group_indices (LexState.finalizers s) excludes).

Definition intersect_bits (intersections : group_relation) (s : LexState.t) : BitSet.t * bool :=
  clear_groups (LexState.finalizers s, false)
    (intersection_missing_group_indices (LexState.finalizers s) intersections).

Definition refinalize (g : LexState.t → BitSet.t * bool) (s : LexState.t) : LexState.t :=
  LexState.set_finalizers (λ _, (g s).1) s.

Lemma clear_loop (g : LexState.t → BitSet.t * bool) step l :
  (∀ done changed s, step (done, changed) s = (done ++ [refinalize g s], changed || (g s).2)) →
  foldl step ([], false) l = (refinalize g <$> l, existsb (λ s, (g s).2) l).
Proof.
  intros Hstep. assert (H : ∀ done changed, foldl step (done, changed) l =
    (done ++ (refinalize g <$> l), changed || existsb (λ s, (g s).2) l)).
  { induction l as [|s l IH]; intros done changed; cbn [foldl].
    - by rewrite app_nil_r, orb_false_r.
    - rewrite Hstep, IH, <-app_assoc. simpl. by rewrite orb_assoc. }
  apply H.
Qed.

Lemma exclusions_loop excludes l :
  foldl (exclude_state excludes) ([], false) l =
  (refinalize (exclude_bits excludes) <$> l, existsb (λ s, (exclude_bits excludes s).2) l).
Proof.
  apply clear_loop. intros done changed s. unfold exclude_state, refinalize, exclude_bits.
  destruct (_ <? _)%nat; [rewrite orb_false_r; by destruct s|]. by rewrite clear_groups_flag.
Qed.

Lemma intersections_loop intersections l :
  foldl (intersect_state intersections) ([], false) l =
  (refinalize (intersect_bits intersections) <$> l, existsb (λ s, (intersect_bits intersections s).2) l).
Proof.
  apply clear_loop. intros done changed s. unfold intersect_state, refinalize, intersect_bits.
  by rewrite clear_groups_flag.
Qed.

Lemma refinalize_unchanged g l :
  (∀ s, (g s).2 = false → (g s).1 = LexState.finalizers s) →
  existsb (λ s, (g s).2) l = false → refinalize g <$> l = l.
Proof.
  intros Hg. induction l as [|s l IH]; cbn [existsb]; [done|]. intros [H1 H2]%orb_false_iff.
  rewrite fmap_cons, IH by done. f_equal. unfold refinalize. rewrite Hg by done. by destruct s.
Qed.

Lemma exclude_bits_unchanged excludes s :
  (exclude_bits excludes s).2 = false → (exclude_bits excludes s).1 = LexState.finalizers s.
Proof. unfold exclude_bits. case_match; [done|]. apply clear_groups_unchanged. Qed.

Lemma refinalize_ok g l :
  (∀ s, LexBits.state_ok s → BitSet.wf (g s).1) →
  Forall LexBits.state_ok l → Forall LexBits.state_ok (refinalize g <$> l).
Proof.
  intros Hg Hl. apply Forall_fmap. eapply Forall_impl; [exact Hl|]. intros s Hs. split; [by apply Hg|apply Hs].
Qed.

Lemma edges_refinalize g (l : list LexState.t) : edges <$> l = edges <$> (refinalize g <$> l).
Proof. by rewrite <-list_fmap_compose. Qed.

Lemma clear_loop_ok d g :
  lex_ok d → (∀ s, (g s).2 = false → (g s).1 = LexState.finalizers s) →
  (∀ s, LexBits.state_ok s → BitSet.wf (g s).1) →
  lex_ok (invalidate_if (existsb (λ s, (g s).2) (states d)) (set_states (λ _, refinalize g <$> states d) d)).
Proof.
  intros Hd Hg Hw. unfold invalidate_if. destruct (existsb _ _) eqn:E.
  - apply (ok_same_edges d (refinalize g <$> states d) (group_id_to_u8set d)); [done|apply edges_refinalize|].
    apply refinalize_ok; [done|apply Hd].
  - unfold set_states. rewrite refinalize_unchanged by done. by destruct d.
Qed.

(** ** The operations as steps *)

(** One call of an operation.  Statistics that are installed are right, as
    their callers compute them, and a group set that is passed in is a value of
    its type. *)
Inductive lex_step (d : t) : t → Prop :=
  | step_transition_count : lex_step d (transition_count d).2
  | step_epsilon_transition_count : lex_step d (epsilon_transition_count d).2
  | step_has_self_loops : lex_step d (has_self_loops d).2
  | step_has_epsilon_transitions : lex_step d (has_epsilon_transitions d).2
  | step_min_match_byte_len r : min_match_byte_len d = Some r → lex_step d r.2
  | step_structural_hash : lex_step d (structural_hash fx_hash d).2
  | step_set_derived_stats b e l : LexStats.mk b e l = compute_derived_stats d → lex_step d (set_derived_stats d b e l)
  | step_add_state : lex_step d (add_state d).2
  | step_ensure_group_mapping_capacity n : lex_step d (ensure_group_mapping_capacity d n)
  | step_ensure_group_capacity n : lex_step d (ensure_group_capacity d n)
  | step_add_transition from byte to : lex_step d (add_transition d from byte to)
  | step_add_epsilon_transition from to : lex_step d (add_epsilon_transition d from to)
  | step_append component ids r :
      Forall LexBits.state_ok (states component) → append_rebased_component d component ids = Some r → lex_step d r.2
  | step_append_ref component ids r :
      Forall LexBits.state_ok (states component) → append_rebased_component_ref d component ids = Some r → lex_step d r.2
  | step_append_shared component ids r :
      append_rebased_shared_single_group_component d component ids = Some r → lex_step d r.2
  | step_append_batch components r :
      append_rebased_single_group_component_refs_batch d components = Some r → lex_step d r.2
  | step_set_transitions s entries : lex_step d (set_transitions_from_sorted_entries d s entries)
  | step_clear_finalizers s : lex_step d (clear_finalizers_for_state d s).2
  | step_overwrite_metadata s f p : BitSet.wf f → BitSet.wf p → lex_step d (overwrite_state_metadata d s f p)
  | step_canonicalize c aliases d' :
      canonicalizes d c aliases → canonicalize_group_aliases d c aliases = Some d' → lex_step d d'
  | step_set_group g set : lex_step d (set_group_u8set d g set)
  | step_states_mut f : Forall LexBits.state_ok (f (states d)) → lex_step d (states_mut d f)
  | step_set_future s ids : BitSet.wf ids → lex_step d (set_possible_future_group_ids d s ids)
  | step_mask_futures mask : lex_step d (mask_possible_futures d mask)
  | step_clone s r : clone_state d s = Some r → lex_step d r.2
  | step_redirect old new : lex_step d (redirect_transitions d old new).2
  | step_discard : lex_step d (discard_last_state d)
  | step_exclusions excludes : lex_step d (apply_group_exclusions d excludes).2
  | step_intersections intersections : lex_step d (apply_group_intersections d intersections).2
  | step_project n d' : project_groups_in_place d n = Some d' → lex_step d d'.

(** ** Each operation keeps the invariant *)

Lemma stats_query_ok d : lex_ok d → lex_ok (get_derived_stats d).2 ∧ (get_derived_stats d).1 = compute_derived_stats d.
Proof.
  intros [[Hs Hm Hh] Hl]. unfold get_derived_stats. cbn [fst snd].
  assert (Heq : match derived_stats d with Some stats => stats | None => compute_derived_stats d end = compute_derived_stats d).
  { destruct (derived_stats d); [by apply Hs|done]. }
  rewrite Heq. split; [|done]. split; [|done]. split; [|exact Hm|exact Hh].
  intros stats [= <-]. done.
Qed.

Lemma min_match_query_ok d r :
  lex_ok d → min_match_byte_len d = Some r → lex_ok r.2 ∧ (groups_fit → compute_min_match_byte_len d = Some r.1).
Proof.
  intros [[Hs Hm Hh] Hl]. unfold min_match_byte_len.
  destruct (match min_match_byte_len_cache d with Some len => Some len | None => _ end) as [len|] eqn:E; simpl; [|done].
  intros [= <-]. assert (Hc : groups_fit → compute_min_match_byte_len d = Some len).
  { intros Hfit. destruct (min_match_byte_len_cache d) as [len'|]; [|done]. by apply Hm. }
  split; [|done]. split; [|done]. split; [exact Hs| |exact Hh]. cbn. by intros Hfit len' [= <-]; apply Hc.
Qed.

Lemma hash_query_ok d :
  lex_ok d → lex_ok (structural_hash fx_hash d).2 ∧
  (structural_hash fx_hash d).1 = fx_hash (states d) (group_id_to_u8set d).
Proof.
  intros [[Hs Hm Hh] Hl]. unfold structural_hash. cbn [fst snd].
  assert (Heq : match structural_hash_cache d with Some hash => hash | None => fx_hash (states d) (group_id_to_u8set d) end
    = fx_hash (states d) (group_id_to_u8set d)).
  { destruct (structural_hash_cache d); [by apply Hh|done]. }
  rewrite Heq. split; [|done]. split; [|done]. split; [exact Hs|exact Hm|]. cbn. by intros hash [= <-].
Qed.

Lemma ensure_capacity_ok d n : lex_ok d → lex_ok (ensure_group_capacity d n).
Proof.
  intros Hd. assert (Hg : ∀ g, lex_ok (mk (resize_state_group_bits n <$> states d) g (derived_stats d) (min_match_byte_len_cache d) None)).
  { intros g. apply ok_same_matching; [done| |].
    - apply (fmap_same matching _ _ LexBits.state_ok); [apply resize_matching|apply Hd].
    - apply Forall_fmap. eapply Forall_impl; [apply Hd|]. apply resize_ok. }
  unfold ensure_group_capacity, set_states, set_groups, invalidate_structural_hash. case_match; apply Hg.
Qed.

Lemma append_component_ok d component ids r :
  lex_ok d → Forall LexBits.state_ok (states component) →
  append_rebased_component d component ids = Some r → lex_ok r.2.
Proof.
  intros [_ Hd] Hc. unfold append_rebased_component. destruct (negb _); [done|].
  destruct (u32_try_from _) as [offset|]; simpl; [|done].
  destruct (foldM _ _ _) as [groups|]; simpl; [|done].
  destruct (mapM _ _) as [appended|] eqn:E; simpl; [|done]. intros [= <-].
  apply ok_uncached, Forall_app. split; [done|]. eapply Forall_mapM; [|exact Hc|exact E].
  intros s s' Hs. by apply rebase_ok.
Qed.

Lemma append_component_ref_eq d component ids :
  append_rebased_component_ref d component ids = append_rebased_component d component ids.
Proof.
  unfold append_rebased_component_ref, append_rebased_component. destruct (negb _); [done|].
  destruct (u32_try_from _) as [offset|]; [|done]. simpl.
  destruct (foldM _ _ _) as [groups|]; [|done]. simpl.
  erewrite mapM_ext; [reflexivity|]. intros s. apply clone_rebased_eq.
Qed.

Lemma append_shared_ok d component ids r :
  lex_ok d → append_rebased_shared_single_group_component d component ids = Some r → lex_ok r.2.
Proof.
  intros [_ Hd]. unfold append_rebased_shared_single_group_component. destruct (_ || _); [done|].
  destruct (foldM _ _ _) as [groups|]; simpl; [|done].
  destruct (u32_try_from _) as [offset|]; simpl; [|done].
  destruct (mapM _ _) as [appended|] eqn:E; simpl; [|done]. intros [= <-].
  apply ok_uncached, Forall_app. split; [done|].
  eapply (Forall_mapM (λ _, True)); [|by apply Forall_true|exact E]. intros s s' _. apply rebase_shared_ok.
Qed.

Lemma append_batch_ok d components r :
  lex_ok d → append_rebased_single_group_component_refs_batch d components = Some r → lex_ok r.2.
Proof.
  intros Hok. pose proof Hok as [_ Hd]. unfold append_rebased_single_group_component_refs_batch.
  destruct (_ =? 0); [by intros [= <-]|].
  destruct (u32_try_from _) as [offset|]; [|intros [= <-]; by apply ok_uncached].
  destruct (batch_offsets _ _ _ _) as [[offsets groups]|groups]; [|intros [= <-]; by apply ok_uncached].
  destruct (mapM _ _) as [appended|] eqn:E; simpl; [|done]. intros [= <-].
  apply ok_uncached, Forall_foldl_app; [done|].
  eapply (Forall_mapM (λ _, True)); [|by apply Forall_true|exact E]. intros [[c g] o] l _ Hl.
  eapply (Forall_mapM (λ _, True)); [|by apply Forall_true|exact Hl]. intros s s' _. apply rebase_shared_ok.
Qed.

Lemma canonicalize_groups_ok d c aliases d' :
  lex_ok d → canonicalizes d c aliases → canonicalize_group_aliases d c aliases = Some d' → lex_ok d'.
Proof.
  intros [[Hs Hm Hh] Hl] Hc. unfold canonicalize_group_aliases. destruct (_ =? 0); [by intros [= <-]|].
  destruct (get_group_u8set _ _) as [bytes|]; simpl; [|done].
  destruct (foldM _ _ _) as [bytes'|]; simpl; [|done]. intros [= <-]. split.
  - split; cbn [derived_stats min_match_byte_len_cache structural_hash_cache set_states set_group_u8set set_groups invalidate_structural_hash]; [| |done].
    + intros stats Hst. rewrite (Hs stats Hst). apply stats_edges. apply (fmap_same edges _ _ (λ _, True)); [done|by apply Forall_true].
    + intros Hfit len Hlen. rewrite <-(Hm Hfit len Hlen). symmetry. apply min_match_matching.
      apply (fmap_same matching _ _ (λ s, LexBits.state_ok s ∧ group_fits c aliases s)).
      * intros s [H1 H2]. by apply canonicalize_matching.
      * apply Forall_and. split; [done|by apply (Hfit d)].
  - apply Forall_fmap. eapply Forall_impl; [exact Hl|]. apply canonicalize_ok.
Qed.

Lemma clear_finalizers_ok d s : lex_ok d → lex_ok (clear_finalizers_for_state d s).2.
Proof.
  intros Hd. unfold clear_finalizers_for_state. cbn zeta.
  destruct ((states (invalidate_structural_hash (invalidate_min_match_byte_len d))).[s]) as [st|]; cbn [snd].
  - apply (ok_same_edges d (alterN _ (states d) s)); [done|by rewrite fmap_alterN|].
    apply Forall_alterN; [apply Hd|]. intros x Hx. split; [apply BitSetFacts.new_wf|apply Hx].
  - apply (ok_same_edges d (states d) (group_id_to_u8set d)); [done|done|apply Hd].
Qed.

Lemma overwrite_ok d s f p : BitSet.wf f → BitSet.wf p → lex_ok d → lex_ok (overwrite_state_metadata d s f p).
Proof.
  intros Hf Hp Hd. apply (ok_same_edges d (alterN _ (states d) s)); [done|by rewrite fmap_alterN|].
  apply Forall_alterN; [apply Hd|]. by intros x _.
Qed.

Lemma truncate_groups_ok n s s' : LexBits.state_ok s → truncate_groups n s = Some s' → LexBits.state_ok s'.
Proof.
  intros [Hf Hp]. unfold truncate_groups.
  destruct (BitSet.truncate (LexState.finalizers s) n) as [f|] eqn:Ef; simpl; [|done].
  destruct (BitSet.truncate (LexState.possible_future_group_ids s) n) as [p|] eqn:Ep; simpl; [|done].
  intros [= <-]. split; [by apply BitSetFacts.truncate_spec in Ef as [? _]|by apply BitSetFacts.truncate_spec in Ep as [? _]].
Qed.

Lemma exclude_bits_wf excludes s : LexBits.state_ok s → BitSet.wf (exclude_bits excludes s).1.
Proof. intros [Hf _]. unfold exclude_bits. case_match; [done|]. by apply LexBits.clear_groups_spec. Qed.

Lemma intersect_bits_wf intersections s : LexBits.state_ok s → BitSet.wf (intersect_bits intersections s).1.
Proof. intros [Hf _]. by apply LexBits.clear_groups_spec. Qed.

(** A mask of another length leaves the words it does not reach. *)
Lemma intersect_with_wf b mask : BitSet.wf b → BitSet.wf (BitSet.intersect_with b mask).
Proof.
  intros [Hl Hw Hu]. split; cbn [BitSet.words BitSet.len BitSet.intersect_with].
  - by rewrite BitSetFacts.lenN_zip_words.
  - intros i w. rewrite BitSetFacts.nthN_zip_words. destruct ((BitSet.words b).[i]) as [x|] eqn:Ex; [|done].
    destruct ((BitSet.words mask).[i]); intros [= <-]; [apply land_bound_l|]; by eapply Hw.
  - intros i Hi. specialize (Hu i Hi). unfold BitSet.bit_at in *. rewrite BitSetFacts.nthN_zip_words.
    destruct ((BitSet.words b).[i / 64]) as [x|]; [|done]. destruct ((BitSet.words mask).[i / 64]); [|done].
    cbn [default from_option id] in *. by rewrite N.land_spec, Hu.
Qed.

Lemma mask_futures_ok d mask : lex_ok d → lex_ok (mask_possible_futures d mask).
Proof.
  intros Hd. apply (ok_same_matching d (_ <$> states d)); [done|by rewrite <-list_fmap_compose|].
  apply Forall_fmap. eapply Forall_impl; [apply Hd|]. intros s Hs. split; [apply Hs|]. apply intersect_with_wf, Hs.
Qed.

(** The invariant by cases on the operation. *)
Lemma lex_step_ok d d' : lex_step d d' → lex_ok d → lex_ok d'.
Proof.
  intros Hstep Hd. pose proof Hd as [Hc Hl]. pose proof (stats_query_ok d Hd) as [Hq _]. destruct Hstep.
  1-4: exact Hq.
  - by destruct (min_match_query_ok d r).
  - by destruct (hash_query_ok d).
  - destruct Hc as [_ Hm Hh]. split; [split; [intros stats [= <-]; done|exact Hm|exact Hh]|done].
  - apply ok_uncached, Forall_app. split; [done|]. repeat constructor; apply BitSetFacts.new_wf.
  - unfold ensure_group_mapping_capacity. case_match; [|done]. by apply (ok_same_matching d (states d)).
  - by apply ensure_capacity_ok.
  - apply ok_uncached, Forall_alterN; [done|]. intros x Hx. split; apply Hx.
  - apply ok_uncached, Forall_alterN; [done|]. intros x Hx. split; apply Hx.
  - by apply (append_component_ok d component ids).
  - rewrite append_component_ref_eq in *. by apply (append_component_ok d component ids).
  - by apply (append_shared_ok d component ids).
  - by apply (append_batch_ok d components).
  - apply ok_uncached, Forall_alterN; [done|]. intros x Hx. split; apply Hx.
  - by apply clear_finalizers_ok.
  - by apply overwrite_ok.
  - by apply (canonicalize_groups_ok d c aliases).
  - by apply (ok_same_matching d (states d)).
  - by apply ok_uncached.
  - apply (ok_same_matching d (alterN _ (states d) s)); [done|by rewrite fmap_alterN|].
    apply Forall_alterN; [done|]. intros x Hx. split; [apply Hx|done].
  - by apply mask_futures_ok.
  - unfold clone_state in *. destruct ((states (invalidate_structural_caches d)).[s]) as [st|] eqn:E; simplify_eq/=.
    apply ok_uncached, Forall_app. split; [done|]. constructor; [|done].
    rewrite nthN_lookup in E. by eapply Forall_lookup_1.
  - apply ok_uncached, Forall_fmap. eapply Forall_impl; [exact Hl|]. intros x Hx. split; apply Hx.
  - by apply ok_uncached, Forall_take.
  - unfold apply_group_exclusions. rewrite exclusions_loop. cbn [snd].
    apply clear_loop_ok; [done|apply exclude_bits_unchanged|apply exclude_bits_wf].
  - unfold apply_group_intersections. rewrite intersections_loop. cbn [snd].
    apply clear_loop_ok; [done|intros s; apply clear_groups_unchanged|apply intersect_bits_wf].
  - unfold project_groups_in_place in *. destruct (_ <? _); [done|].
    destruct (mapM _ _) as [l|] eqn:E; simplify_eq/=. apply ok_uncached.
    eapply Forall_mapM; [|exact Hl|exact E]. intros x y. apply truncate_groups_ok.
Qed.

(** ** The constructors *)

Inductive lex_initial : t → Prop :=
  | initial_new n : lex_initial (new n)
  | initial_sparse groups eo et fo f po p d :
      new_from_sparse_metadata groups eo et fo f po p = Some d → lex_initial d
  | initial_single accepting future set d :
      new_with_single_group_metadata accepting future set = Some d → lex_initial d
  | initial_compact n offsets bytes targets accepting future set d :
      new_from_compact_single_group n offsets bytes targets accepting future set = Some (Some d) → lex_initial d.

Lemma flag_bits_wf b : BitSet.wf (flag_bits b).
Proof. destruct b; [apply BitSetFacts.set_spec|]; apply BitSetFacts.new_wf. Qed.

Lemma sparse_state_ok g eo et fo f po p i s : sparse_state g eo et fo f po p i = Some s → LexBits.state_ok s.
Proof. unfold sparse_state. intros H. bind_inv H. injection H as <-. split; apply BitSetFacts.from_sparse_wf. Qed.

Lemma compact_state_ok n offsets bytes targets aw fw i s :
  compact_state n offsets bytes targets aw fw i = Some (Some s) → LexBits.state_ok s.
Proof.
  unfold compact_state. intros H. apply bind_Some in H as (start & _ & H). apply bind_Some in H as (stop & _ & H).
  destruct (_ || _); [done|]. apply bind_Some in H as ([entries|] & _ & H); [|done].
  bind_inv H. injection H as <-. split; apply flag_bits_wf.
Qed.

Lemma compact_states_ok build ids acc l :
  (∀ i s, build i = Some (Some s) → LexBits.state_ok s) → Forall LexBits.state_ok acc →
  compact_states build ids acc = Some (Some l) → Forall LexBits.state_ok l.
Proof.
  intros Hb. revert acc. induction ids as [|i ids IH]; intros acc Hacc; simpl; [by intros [= <-]|].
  destruct (build i) as [[s|]|] eqn:E; simpl; [|done..]. apply IH, Forall_app. split; [done|].
  constructor; [by eapply Hb|done].
Qed.

Lemma initial_ok d : lex_initial d → lex_ok d.
Proof.
  intros H. destruct H as [n|groups eo et fo f po p d H|accepting future set d H|n offsets bytes targets accepting future set d H].
  - apply ok_uncached, Forall_replicate. apply blank_ok.
  - unfold new_from_sparse_metadata in H. bind_inv H. injection H as <-. apply ok_uncached.
    eapply (Forall_mapM (λ _, True)); [|by apply Forall_true|exact E]. intros i s _. apply sparse_state_ok.
  - unfold new_with_single_group_metadata in H. case_match; [|done]. injection H as <-. apply ok_uncached.
    clear H0. revert future. induction accepting as [|a accepting IH]; intros [|b future]; constructor; [|apply IH].
    split; apply flag_bits_wf.
  - unfold new_from_compact_single_group in H. destruct (_ || _); [done|].
    apply bind_Some in H as ([l|] & Hl & H); [|done]. injection H as <-. apply ok_uncached.
    eapply compact_states_ok; [|constructor|exact Hl]. intros i s. apply compact_state_ok.
Qed.

Lemma reachable_ok d0 d : lex_initial d0 → rtc lex_step d0 d → lex_ok d.
Proof.
  intros H0 Hr. apply initial_ok in H0. induction Hr as [|x y z Hxy _ IH]; [done|]. apply IH. by eapply lex_step_ok.
Qed.
End coherence.

(** * The property *)

(** C37: Through any sequence of the operations of the byte automaton, from any of
    its constructors, the memoised transition counts, self loops and structural
    hash are what a computation on the current states returns, and the queries
    leave the automaton itself as it was.  So is the memoised shortest match,
    provided that aliases are only merged into groups that fit: a state that
    finalizes nothing but aliases has room for the canonical group.  Statistics
    that are installed from outside are right. *)
Theorem lex_caches_coherent (fx_hash : list LexState.t → list U8Set.t → N) (canonicalizes : LexDFA.t → N → list N → Prop) (d0 d : LexDFA.t) :
  lex_initial d0 → rtc (lex_step fx_hash canonicalizes) d0 d →
  let stats := LexDFA.compute_derived_stats d in
  ((LexDFA.transition_count d).1 = LexStats.byte_transition_count stats ∧
   (LexDFA.epsilon_transition_count d).1 = LexStats.epsilon_transition_count stats ∧
   (LexDFA.has_self_loops d).1 = LexStats.has_self_loops stats ∧
   (LexDFA.has_epsilon_transitions d).1 = negb (LexStats.epsilon_transition_count stats =? 0) ∧
   LexDFA.same d (LexDFA.transition_count d).2) ∧
  (LexDFA.structural_hash fx_hash d).1 = fx_hash (LexDFA.states d) (LexDFA.group_id_to_u8set d) ∧
  ((∀ d c aliases, canonicalizes d c aliases → Forall (group_fits c aliases) (LexDFA.states d)) →
   fst <$> LexDFA.min_match_byte_len d = LexDFA.compute_min_match_byte_len d).
Proof.
  intros H0 Hr stats. pose proof (reachable_ok fx_hash canonicalizes d0 d H0 Hr) as Hd.
  destruct (stats_query_ok fx_hash canonicalizes d Hd) as [_ Hs]. destruct (hash_query_ok fx_hash canonicalizes d Hd) as [_ Hh].
  unfold LexDFA.transition_count, LexDFA.epsilon_transition_count, LexDFA.has_self_loops,
    LexDFA.has_epsilon_transitions, LexDFA.epsilon_transition_count.
  destruct (LexDFA.get_derived_stats d) as [st d'] eqn:E. cbn [fst snd] in *. subst st.
  split; [split_and!; try done; unfold LexDFA.get_derived_stats in E; by simplify_eq/=|]. split; [done|]. intros Hfit.
  destruct (LexDFA.min_match_byte_len d) as [r|] eqn:Em.
  - destruct (min_match_query_ok fx_hash canonicalizes d r Hd Em) as [_ Hm]. by rewrite Hm.
  - unfold LexDFA.min_match_byte_len in Em. destruct (LexDFA.min_match_byte_len_cache d); [done|].
    by destruct (LexDFA.compute_min_match_byte_len d).
Qed.

(** Two states joined by a byte; the caches are filled, then the byte edge is
    redirected to its source. *)
Definition lex_edge : LexDFA.t := LexDFA.add_transition (LexDFA.new 2) 0 97 1.
Definition lex_loop : LexDFA.t := (LexDFA.redirect_transitions (LexDFA.has_self_loops lex_edge).2 1 0).2.

Lemma lex_caches_coherent_witness :
  (LexDFA.has_self_loops lex_edge).1 = false ∧ (LexDFA.has_self_loops lex_loop).1 = true ∧
  fst <$> LexDFA.min_match_byte_len lex_loop = LexDFA.compute_min_match_byte_len lex_loop.
Proof.
  pose (never := λ (_ : LexDFA.t) (_ : N) (_ : list N), False).
  assert (Hs : rtc (lex_step (λ l _, lenN l) never) (LexDFA.new 2) lex_edge) by (apply rtc_once; constructor).
  assert (Hl : rtc (lex_step (λ l _, lenN l) never) (LexDFA.new 2) lex_loop).
  { eapply rtc_r; [eapply rtc_r; [exact Hs|apply step_has_self_loops]|apply step_redirect]. }
  destruct (lex_caches_coherent (λ l _, lenN l) never (LexDFA.new 2) lex_edge (initial_new 2) Hs) as ((_ & _ & H1 & _) & _).
  destruct (lex_caches_coherent (λ l _, lenN l) never (LexDFA.new 2) lex_loop (initial_new 2) Hl) as ((_ & _ & H2 & _) & _ & H3).
  split; [rewrite H1|split; [rewrite H2|apply H3; intros ? ? ? []]]; vm_compute; reflexivity.
Defined.

(** One state of width one that finalizes group 0; the mapping, but not the
    state, is widened to two groups, the shortest match is asked for, and group 0
    is merged into group 1, for which the state has no room. *)
Definition lex_narrow : LexDFA.t :=
  LexDFA.ensure_group_mapping_capacity (LexDFA.overwrite_state_metadata (LexDFA.ensure_group_capacity (LexDFA.new 1) 1) 0
    (BitSet.set (BitSet.new 1) 0) (BitSet.new 1)) 2.

(** Merging aliases into a group that does not fit loses the finalizer and
    leaves a stale shortest match behind: what is memoised is not what a
    computation returns. *)
Theorem canonicalize_leaves_stale_match (fx_hash : list LexState.t → list U8Set.t → N) :
  ∃ d, rtc (lex_step fx_hash (λ _ _ _, True)) (LexDFA.new 1) d ∧
    fst <$> LexDFA.min_match_byte_len d = Some (Some 0) ∧ LexDFA.compute_min_match_byte_len d = Some None.
Proof.
  assert (Hr : rtc (lex_step fx_hash (λ _ _ _, True)) (LexDFA.new 1) lex_narrow).
  { eapply rtc_l; [apply (step_ensure_group_capacity _ _ _ 1)|]. eapply rtc_l; [apply (step_overwrite_metadata _ _ _ 0)|].
    - apply BitSetFacts.set_spec, BitSetFacts.new_wf.
    - apply BitSetFacts.new_wf.
    - apply rtc_once, step_ensure_group_mapping_capacity. }
  destruct (LexDFA.min_match_byte_len lex_narrow) as [r|] eqn:Eq; [|vm_compute in Eq; discriminate Eq].
  destruct (LexDFA.canonicalize_group_aliases r.2 1 [0]) as [d|] eqn:Ec; [|vm_compute in Eq; injection Eq as <-; vm_compute in Ec; discriminate Ec].
  exists d. split.
  - eapply rtc_r; [eapply rtc_r; [exact Hr|by apply step_min_match_byte_len]|]. by eapply (step_canonicalize _ _ _ 1 [0]).
  - vm_compute in Eq. injection Eq as <-. vm_compute in Ec. injection Ec as <-. split; vm_compute; reflexivity.
Qed.
