(* ===== verification/Search.v ===== *)
(** Searches of graphs: depth-first search with an explicit stack, and worklists
    over an array of marks. *)

From stdpp Require Import relations.
From S2P Require Import Prelude.

(** [if seen.insert(target) { stack.push(target) }]; the top of the stack is its
    head. *)
Definition push_unseen (st : gset N * list N) (target : N) : gset N * list N :=
  let '(seen, stack) := st in
  if bool_decide (target ∈ seen) then st else ({[target]} ∪ seen, target :: stack).

Section search.
Context (R : N → N → Prop) (root : N → Prop).

Definition reached (t : N) : Prop := ∃ r, root r ∧ rtc R r t.

Lemma reached_step s t : reached s → R s t → reached t.
Proof. intros (r & Hr & Hrs) Hst. exists r. split; [done|]. by eapply rtc_r. Qed.

(** [pending]: targets of the state being expanded that are not looked at yet. *)
Record search_ok (pending : list N) (seen : gset N) (stack popped : list N) : Prop := {
  ok_seen : ∀ s, s ∈ seen ↔ s ∈ stack ∨ s ∈ popped;
  ok_nodup : NoDup (stack ++ popped);
  ok_reached : ∀ s, s ∈ seen → reached s;
  ok_expanded : ∀ s t, s ∈ popped → R s t → t ∈ seen ∨ t ∈ pending;
}.

Lemma search_start : search_ok [] ∅ [] [].
Proof.
  split; [set_solver|constructor|set_solver|]. intros s t Hs. by apply elem_of_nil in Hs.
Qed.

Lemma push_unseen_ok target pending seen stack popped :
  reached target → search_ok (target :: pending) seen stack popped →
  let '(seen', stack') := push_unseen (seen, stack) target in
  search_ok pending seen' stack' popped ∧ seen ⊆ seen' ∧ target ∈ seen' ∧
  (length stack' + size seen = length stack + size seen')%nat.
Proof.
  intros Ht [Hs Hn Hr He]. cbn [push_unseen]. case_bool_decide as Hin.
  - split; [|done]. split; [done..|]. intros s t Hsc Hst. destruct (He s t Hsc Hst) as [|[->|]%elem_of_cons]; auto.
  - split; [|split; [set_solver|split; [set_solver|]]].
    + split.
      * intros s. rewrite elem_of_union, elem_of_singleton, Hs, elem_of_cons. tauto.
      * simpl. constructor; [|done]. rewrite elem_of_app, <-Hs. done.
      * intros s [->%elem_of_singleton|Hsn]%elem_of_union; auto.
      * intros s t Hsc Hst. destruct (He s t Hsc Hst) as [|[->|]%elem_of_cons]; set_solver.
    + rewrite size_union by set_solver. rewrite size_singleton. simpl. lia.
Qed.

Lemma push_all_ok targets seen stack popped :
  (∀ t, t ∈ targets → reached t) → search_ok targets seen stack popped →
  let '(seen', stack') := foldl push_unseen (seen, stack) targets in
  search_ok [] seen' stack' popped ∧ seen ⊆ seen' ∧ (length stack' + size seen = length stack + size seen')%nat.
Proof.
  revert seen stack. induction targets as [|t targets IH]; intros seen stack Ht Hok; [done|]. cbn [foldl].
  pose proof (push_unseen_ok t targets seen stack popped (Ht t ltac:(by left)) Hok) as Hp.
  destruct (push_unseen (seen, stack) t) as [seen1 stack1]. destruct Hp as (Hok1 & Hsub1 & _ & Hl1).
  specialize (IH seen1 stack1 ltac:(intros; apply Ht; by right) Hok1).
  destruct (foldl push_unseen (seen1, stack1) targets) as [seen2 stack2]. destruct IH as (Hok2 & Hsub2 & Hl2).
  split; [done|]. split; [by etrans|]. lia.
Qed.

(** A root joins the search. *)
Lemma push_root_ok r seen stack :
  root r → search_ok [] seen stack [] →
  let '(seen', stack') := push_unseen (seen, stack) r in
  search_ok [] seen' stack' [] ∧ seen ⊆ seen' ∧ r ∈ seen' ∧ (length stack' + size seen = length stack + size seen')%nat.
Proof.
  intros Hr [H1 H2 H3 H4]. apply push_unseen_ok; [by exists r|]. split; [done..|].
  intros s t Hs. by apply elem_of_nil in Hs.
Qed.

(** The top of the stack is popped and its targets pushed. *)
Lemma pop_ok s targets seen stack popped :
  (∀ t, R s t ↔ t ∈ targets) → search_ok [] seen (s :: stack) popped →
  let '(seen', stack') := foldl push_unseen (seen, stack) targets in
  search_ok [] seen' stack' (popped ++ [s]) ∧ seen ⊆ seen' ∧
  (length stack' + size seen = length stack + size seen')%nat.
Proof.
  intros HR Hok. assert (Hs : s ∈ seen) by (apply (ok_seen _ _ _ _ Hok); left; by left).
  apply push_all_ok.
  - intros t Ht. eapply reached_step; [by apply (ok_reached _ _ _ _ Hok)|by apply HR].
  - destruct Hok as [H1 H2 H3 H4]. split; [| |done|].
    + intros x. rewrite H1, elem_of_cons, elem_of_app, list_elem_of_singleton. tauto.
    + rewrite (Permutation_app_comm popped [s]). simpl. by rewrite <-Permutation_middle.
    + intros x t [Hx|Hx%list_elem_of_singleton]%elem_of_app Hxt.
      * destruct (H4 x t Hx Hxt) as [|Hn]; [by left|by apply elem_of_nil in Hn].
      * subst x. right. by apply HR.
Qed.

(** With an empty stack the states popped are the states reached. *)
Lemma search_done seen popped :
  (∀ r, root r → r ∈ seen) → search_ok [] seen [] popped → ∀ t, (t ∈ popped ↔ reached t) ∧ (t ∈ seen ↔ reached t).
Proof.
  intros Hroots [H1 H2 H3 H4] t.
  assert (Hc : ∀ x, x ∈ popped ↔ x ∈ seen).
  { intros x. rewrite H1. split; [by right|]. intros [Hx|]; [by apply elem_of_nil in Hx|done]. }
  assert (Hseen : t ∈ seen ↔ reached t); [|by rewrite Hc].
  split; [apply H3|]. intros (r & Hr & Hrt). apply Hroots in Hr.
  induction Hrt as [|x y z Hxy _ IH]; [done|]. apply IH. apply Hc in Hr.
  destruct (H4 x y Hr Hxy) as [|Hn]; [done|]. by apply elem_of_nil in Hn.
Qed.

(** The measure of the loop: a finite universe bounds the states seen. *)
Lemma seen_bound (U : gset N) pending seen stack popped :
  (∀ s, reached s → s ∈ U) → search_ok pending seen stack popped → (size seen ≤ size U)%nat.
Proof. intros HU [_ _ Hr _]. apply subseteq_size. intros s Hs. by apply HU, Hr. Qed.
End search.

(** * Definitions *)

(** [if !marks[target] { marks[target] = true; work.push(target) }] *)
Definition mark_push (push : N → list N → list N) (st : list bool * list N) (target : N) : option (list bool * list N) :=
  let '(marks, work) := st in
  marked ← marks.[target];
  Some (if (marked : bool) then st else (alterN (λ _, true) marks target, push target work)).

(** One round of [while let Some(state) = work.pop()]; [row_of] are the targets
    of a state, [inr None] is a panic. *)
Definition mark_step (push : N → list N → list N) (row_of : N → option (list N)) (st : list bool * list N)
    : (list bool * list N) + option (list bool) :=
  let '(marks, work) := st in
  match work with
  | [] => inr (Some marks)
  | state :: work =>
      match row_of state with
      | None => inr None
      | Some row => match foldM (mark_push push) (marks, work) row with Some st => inl st | None => inr None end
      end
  end.

(** A state is pushed once, of [n]. *)
Definition mark_search_of (push : N → list N → list N) (n : nat) (row_of : N → option (list N)) (st : list bool * list N) : option (list bool) :=
  match run (mark_step push row_of) (S n) st with inr r => r | inl _ => None end.

Definition mark_search (push : N → list N → list N) (rows : list (list N)) (st : list bool * list N) : option (list bool) :=
  mark_search_of push (length rows) (nthN rows) st.

(** [if marked { marks[index] = true; work.push(index) }], over the states. *)
Definition mark_seed {A} (push : N → list N → list N) (marked : A → bool) (st : list bool * list N) (entry : N * A)
    : list bool * list N :=
  let '(marks, work) := st in
  let '(index, x) := entry in
  if marked x then (alterN (λ _, true) marks index, push index work) else st.

Definition push_top (target : N) (work : list N) : list N := target :: work.
Definition push_back (target : N) (work : list N) : list N := work ++ [target].

(** [reverse[target].push(source)] *)
Definition push_edge (reverse : list (list N)) (edge : N * N) : option (list (list N)) :=
  let '(source, target) := edge in
  if target <? lenN reverse then Some (alterN (λ row, row ++ [source]) reverse target) else None.

Definition reverse_edges (n : nat) (edges : list (N * N)) : option (list (list N)) :=
  foldM push_edge (replicate n []) edges.

(** * The search *)

Lemma search_ok_perm R root pending seen stack stack' popped :
  stack ≡ₚ stack' → search_ok R root pending seen stack popped → search_ok R root pending seen stack' popped.
Proof. intros Hp [H1 H2 H3 H4]. split; [|by rewrite <-Hp|done..]. intros s. by rewrite <-Hp. Qed.

Lemma run_pointwise {S R : Type} (f g : S → S + R) k s : (∀ s, f s = g s) → run f k s = run g k s.
Proof. intros H. revert s. induction k as [|k IH]; intros s; [apply H|]. cbn [run]. rewrite IH. by destruct (run g k s). Qed.

(** Only the rows that are asked for matter. *)
Lemma mark_search_rows push rows row_of st : (∀ s, row_of s = rows.[s]) → mark_search_of push (length rows) row_of st = mark_search push rows st.
Proof.
  intros H. unfold mark_search, mark_search_of. rewrite (run_pointwise (mark_step push row_of) (mark_step push (nthN rows))); [done|].
  intros [marks [|s work]]; [done|]. cbn. by rewrite H.
Qed.

Section marks.
Context (push : N → list N → list N) (Hpush : ∀ t w, push t w ≡ₚ t :: w) (rows : list (list N)).
Let n := lenN rows.
Context (Hrows : ∀ row t, row ∈ rows → t ∈ row → t < n) (root : N → Prop) (Hroot : ∀ r, root r → r < n).

Definition row_edge (s t : N) : Prop := ∃ row, rows.[s] = Some row ∧ t ∈ row.

Definition marks_ok (marks : list bool) (seen : gset N) : Prop :=
  lenN marks = n ∧ ∀ x, marks.[x] = Some true ↔ x ∈ seen.

Definition round_ok (pending : list N) (marks : list bool) (work popped : list N) (seen : gset N) : Prop :=
  marks_ok marks seen ∧ search_ok row_edge root pending seen work popped.

Lemma mark_push_ok target pending marks work popped seen : target < n →
  round_ok (target :: pending) marks work popped seen → reached row_edge root target →
  ∃ marks' work' seen', mark_push push (marks, work) target = Some (marks', work') ∧ round_ok pending marks' work' popped seen' ∧
    (length work' + size seen = length work + size seen')%nat ∧ seen ⊆ seen'.
Proof using All.
  intros Ht [[Hlen Hm] Hs] Hr. pose proof (push_unseen_ok _ _ _ _ _ _ _ Hr Hs) as Hp. unfold mark_push, push_unseen in *.
  rewrite <-Hlen in Ht. apply nthN_Some_lt in Ht as [marked Hmk]. rewrite Hmk. cbn [mbind option_bind].
  assert (Hiff : target ∈ seen ↔ marked = true) by (rewrite <-Hm, Hmk; split; congruence).
  case_bool_decide as Hin; destruct Hp as (Hok & Hsub & Hin' & Hsize).
  - rewrite (proj1 Hiff Hin). exists marks, work, seen. split; [done|]. split; [split; [by split|done]|]. split; [done|done].
  - destruct marked; [by destruct Hin; apply Hiff|]. do 2 eexists. exists ({[target]} ∪ seen). split; [done|]. split; [split|].
    + split; [by rewrite lenN_alterN|]. intros x. rewrite nthN_alterN, elem_of_union, elem_of_singleton, <-Hm.
      destruct (N.eqb_spec x target) as [->|Hne]; [rewrite Hmk; cbn; tauto|tauto].
    + eapply search_ok_perm; [symmetry; apply Hpush|done].
    + rewrite (Permutation_length (Hpush target work)). split; [exact Hsize|done].
Qed.

Lemma mark_push_all_ok targets marks work popped seen : (∀ t, t ∈ targets → t < n ∧ reached row_edge root t) →
  round_ok targets marks work popped seen →
  ∃ marks' work' seen', foldM (mark_push push) (marks, work) targets = Some (marks', work') ∧ round_ok [] marks' work' popped seen' ∧
    (length work' + size seen = length work + size seen')%nat ∧ seen ⊆ seen'.
Proof using All.
  revert marks work seen. induction targets as [|t targets IH]; intros marks work seen Ht Hok; [by exists marks, work, seen|].
  destruct (Ht t ltac:(by left)) as [Htn Htr].
  destruct (mark_push_ok _ _ _ _ _ _ Htn Hok Htr) as (marks1 & work1 & seen1 & Hp & Hok1 & Hs1 & Hsub1).
  cbn [foldM]. rewrite Hp. cbn [mbind option_bind].
  destruct (IH marks1 work1 seen1) as (marks2 & work2 & seen2 & Hp2 & Hok2 & Hs2 & Hsub2); [intros; apply Ht; by right|done|].
  exists marks2, work2, seen2. split; [done|]. split; [done|]. split; [lia|set_solver].
Qed.

Lemma reached_lt t : reached row_edge root t → t < n.
Proof using All.
  intros (r & Hr & Hrt). destruct (rtc_inv_r _ _ Hrt) as [<-|(y & _ & (row & Hrow & Hin))]; [by apply Hroot|].
  apply (Hrows row t); [by apply nthN_elem_of; exists y|done].
Qed.

Definition search_inv (st : list bool * list N) (m : nat) : Prop :=
  ∃ popped seen, round_ok [] st.1 st.2 popped seen ∧ (∀ r, root r → r ∈ seen) ∧ (m + size seen = length st.2 + length rows)%nat.

Lemma seen_size pending marks work popped seen : round_ok pending marks work popped seen → (size seen ≤ length rows)%nat.
Proof using All.
  intros [_ Hok]. pose proof (seen_bound _ _ (list_to_set (seqN (length rows)) : gset N) _ _ _ _ ltac:(intros s Hs; apply elem_of_list_to_set, elem_of_seqN, (reached_lt s Hs)) Hok).
  rewrite size_list_to_set in H by apply NoDup_seqN. unfold seqN in H. by rewrite length_fmap, length_seq in H.
Qed.

Lemma mark_step_inv st m : search_inv st m → st.2 ≠ [] → ∃ st', mark_step push (nthN rows) st = inl st' ∧ ∃ m', search_inv st' m' ∧ (m' < m)%nat.
Proof using All.
  destruct st as [marks [|s work]]; [done|]. intros (popped & seen & [Hmk Hok] & Hroots & Hm) _. cbn [fst snd] in *.
  assert (Hs : s ∈ seen) by (apply (ok_seen _ _ _ _ _ _ Hok); left; by left).
  pose proof (ok_reached _ _ _ _ _ _ Hok s Hs) as Hsr. pose proof (reached_lt s Hsr) as Hsn.
  apply nthN_Some_lt in Hsn as [row Hrow]. cbn [mark_step]. rewrite Hrow.
  assert (HR : ∀ t, row_edge s t ↔ t ∈ row) by (intros t; split; [intros (row' & ? & ?); congruence|intros; by exists row]).
  destruct (mark_push_all_ok row marks work (popped ++ [s]) seen) as (marks' & work' & seen' & -> & Hok' & Hsz & Hsub).
  - intros t Ht. split; [apply (Hrows row t); [by apply nthN_elem_of; exists s|done]|]. eapply reached_step; [exact Hsr|by apply HR].
  - split; [done|]. destruct Hok as [H1 H2 H3 H4]. split; [| |done|].
    + intros x. rewrite H1, elem_of_cons, elem_of_app, list_elem_of_singleton. tauto.
    + rewrite (Permutation_app_comm popped [s]). simpl. by rewrite <-Permutation_middle.
    + intros x t [Hx|Hx%list_elem_of_singleton]%elem_of_app Hxt.
      * destruct (H4 x t Hx Hxt) as [|Hn]; [by left|by apply elem_of_nil in Hn].
      * subst x. right. by apply HR.
  - eexists. split; [done|]. exists (m - 1)%nat. pose proof (seen_size _ _ _ _ _ Hok') as Hb. cbn [length] in Hm. split; [|lia].
    exists (popped ++ [s]), seen'. cbn [fst snd]. split; [done|]. split; [set_solver|lia].
Qed.

Lemma mark_search_spec marks work : lenN marks = n → NoDup work → (∀ x, root x ↔ x ∈ work) → (∀ x, marks.[x] = Some true ↔ x ∈ work) →
  ∃ marks', mark_search push rows (marks, work) = Some marks' ∧ lenN marks' = n ∧ ∀ t, marks'.[t] = Some true ↔ reached row_edge root t.
Proof using All.
  intros Hlen Hnd Hw Hm. unfold mark_search, mark_search_of.
  assert (Hstart : round_ok [] marks work [] (list_to_set work)).
  { split; [split; [done|]; intros x; by rewrite elem_of_list_to_set|]. split.
    - intros s. rewrite elem_of_list_to_set. split; [by left|]. by intros [?|?%elem_of_nil].
    - by rewrite app_nil_r.
    - intros s Hs%elem_of_list_to_set. exists s. split; [by apply Hw|done].
    - intros s t Hs. by apply elem_of_nil in Hs. }
  pose proof (seen_size _ _ _ _ _ Hstart) as Hsz. rewrite size_list_to_set in Hsz by done.
  destruct (run_terminates (mark_step push (nthN rows)) search_inv (S (length rows)) (marks, work) (length rows)) as (r & [marks' work'] & m & -> & Hinv & Hexit).
  - intros st st' m Hinv Hstep. destruct (decide (st.2 = [])) as [He|Hne].
    + destruct st as [marks0 work0]. cbn in He. subst work0. discriminate.
    + destruct (mark_step_inv st m Hinv Hne) as (st1 & H1 & Hm'). rewrite Hstep in H1. by injection H1 as <-.
  - exists [], (list_to_set work). cbn [fst snd]. split; [done|]. split.
    + intros r Hr%Hw. by apply elem_of_list_to_set.
    + rewrite size_list_to_set by done. lia.
  - pose proof (pow2_S_gt (length rows)). lia.
  - destruct (decide (work' = [])) as [->|Hne].
    + injection Hexit as <-. destruct Hinv as (popped & seen & [[Hl Hmk] Hok] & Hroots & _). cbn [fst snd] in *.
      exists marks'. split; [done|]. split; [done|]. intros t. rewrite Hmk. by apply (search_done _ _ _ _ Hroots Hok).
    + destruct (mark_step_inv (marks', work') m Hinv Hne) as (st1 & H1 & _). congruence.
Qed.
End marks.

(** * Reversed edges *)

Lemma push_edge_spec rows s0 t0 : t0 < lenN rows →
  ∃ rows', push_edge rows (s0, t0) = Some rows' ∧ length rows' = length rows ∧
    (∀ s t, row_edge rows' t s ↔ row_edge rows t s ∨ (s, t) = (s0, t0)) ∧
    rows' = alterN (λ row, row ++ [s0]) rows t0.
Proof.
  intros Ht0. unfold push_edge. rewrite (proj2 (N.ltb_lt _ _) Ht0). eexists. split; [done|]. split; [apply length_alterN|].
  split; [|done]. intros s t. unfold row_edge. rewrite nthN_alterN. destruct (N.eqb_spec t t0) as [->|Hne].
  - apply nthN_Some_lt in Ht0 as [row Hrow]. rewrite Hrow. cbn. split.
    + intros (row' & [= <-] & [Hin|Hin%list_elem_of_singleton]%elem_of_app); [left; by exists row|right; by subst].
    + intros [(row' & [= <-] & Hin)|[= ->]]; (eexists; split; [done|apply elem_of_app]); [by left|right; by left].
  - split; [by left|]. intros [?|[= -> ->]]; [done|done].
Qed.

Lemma row_edge_empty n s t : ¬ row_edge (replicate n []) t s.
Proof. intros (row & Hrow & Hin). rewrite nthN_replicate in Hrow. case_match; [|done]. injection Hrow as <-. by apply elem_of_nil in Hin. Qed.

Lemma reverse_edges_spec n edges : (∀ s t, (s, t) ∈ edges → t < N.of_nat n) →
  ∃ rows, reverse_edges n edges = Some rows ∧ length rows = n ∧ ∀ s t, row_edge rows t s ↔ (s, t) ∈ edges.
Proof.
  unfold reverse_edges. induction edges as [|[s0 t0] edges IH] using rev_ind; intros Hlt.
  - exists (replicate n []). split; [done|]. split; [apply length_replicate|]. intros s t.
    split; [intros Hr; by apply row_edge_empty in Hr|by intros ?%elem_of_nil].
  - destruct IH as (rows & Hr & Hl & Hiff); [intros s t H; apply (Hlt s t), elem_of_app; by left|].
    pose proof (Hlt s0 t0 ltac:(apply elem_of_app; right; by left)) as Ht0.
    destruct (push_edge_spec rows s0 t0) as (rows' & Hp & Hl' & Hiff' & _); [unfold lenN; by rewrite Hl|].
    rewrite foldM_app, Hr. cbn [mbind option_bind foldM]. rewrite Hp. exists rows'. split; [done|]. split; [congruence|].
    intros s t. by rewrite Hiff', Hiff, elem_of_app, list_elem_of_singleton.
Qed.

(** * The states searched from *)

Lemma mark_seed_spec {A} push (p : A → bool) (l : list A) : (∀ t w, push t w ≡ₚ t :: w) →
  let st := foldl (mark_seed push p) (replicate (length l) false, []) (enumerate l) in
  length st.1 = length l ∧ NoDup st.2 ∧
  (∀ x, x ∈ st.2 ↔ ∃ row, l.[x] = Some row ∧ p row = true) ∧ ∀ x, st.1.[x] = Some true ↔ x ∈ st.2.
Proof.
  intros Hpush. assert (H : ∀ m, let st := foldl (mark_seed push p) (replicate (length l + m) false, []) (enumerate l) in
    length st.1 = (length l + m)%nat ∧ NoDup st.2 ∧
    (∀ x, x ∈ st.2 ↔ ∃ row, l.[x] = Some row ∧ p row = true) ∧ ∀ x, st.1.[x] = Some true ↔ x ∈ st.2).
  { induction l as [|row l IH] using rev_ind; intros m; cbn zeta.
    - cbn [enumerate imap foldl fst snd]. split; [apply length_replicate|]. split; [constructor|]. split.
      + intros x. split; [by intros ?%elem_of_nil|by intros (? & ? & _)].
      + intros x. rewrite nthN_replicate. split; [by case_match|by intros ?%elem_of_nil].
    - rewrite enumerate_snoc, foldl_app. cbn [foldl]. specialize (IH (S m)). cbn zeta in IH.
      replace (length (l ++ [row]) + m)%nat with (length l + S m)%nat by (rewrite length_app; cbn; lia).
      destruct (foldl (mark_seed push p) _ (enumerate l)) as [marks work]. cbn [fst snd] in IH. destruct IH as (Hl & Hnd & Hw & Hm).
      assert (Hnew : ∀ x, (∃ r, (l ++ [row]).[x] = Some r ∧ p r = true) ↔ x ∈ work ∨ x = lenN l ∧ p row = true).
      { intros x. rewrite Hw, nthN_snoc. destruct (N.eqb_spec x (lenN l)) as [->|Hne].
        - rewrite (proj2 (nthN_None l _)) by done. split; [intros (r & [= <-] & ?); by right|]. intros [(r & ? & _)|[_ ?]]; [done|by exists row].
        - split; [intros ?; by left|]. intros [?|[? _]]; done. }
      assert (Hfresh : lenN l ∉ work) by (intros (r & Hr & _)%Hw; apply nthN_lt in Hr; lia).
      cbn [mark_seed]. destruct (p row) eqn:Ea; cbn [fst snd].
      + split; [by rewrite length_alterN|]. split; [rewrite Hpush; by constructor|]. split.
        * intros x. rewrite Hnew, Hpush, elem_of_cons. tauto.
        * intros x. rewrite nthN_alterN, Hpush, elem_of_cons. destruct (N.eqb_spec x (lenN l)) as [->|Hne]; [|rewrite Hm; tauto].
          assert (is_Some (marks.[lenN l])) as [y Hy] by (apply nthN_Some_lt; unfold lenN; rewrite Hl; lia). rewrite Hy. cbn. tauto.
      + split; [done|]. split; [done|]. split; [|done]. intros x. rewrite Hnew. split; [by left|]. by intros [?|[_ ?]]. }
  specialize (H 0%nat). by rewrite Nat.add_0_r in H.
Qed.

Lemma push_top_perm t w : push_top t w ≡ₚ t :: w.
Proof. done. Qed.

Lemma push_back_perm t w : push_back t w ≡ₚ t :: w.
Proof. apply Permutation_app_comm with (l := w). Qed.

Lemma row_edge_flip rows (edges : list (N * N)) s t : (∀ s t, row_edge rows t s ↔ (s, t) ∈ edges) →
  rtc (row_edge rows) t s ↔ rtc (λ s t, (s, t) ∈ edges) s t.
Proof.
  intros H. split.
  - induction 1 as [x|x y z Hxy _ IH]; [done|]. eapply rtc_r; [exact IH|]. by apply H.
  - induction 1 as [x|x y z Hxy _ IH]; [done|]. eapply rtc_r; [exact IH|]. by apply H.
Qed.

(** The states that reach a root, by a search along the reversed edges. *)
Lemma backward_search_spec push n edges (marks : list bool) work :
  (∀ t w, push t w ≡ₚ t :: w) → (∀ s t, (s, t) ∈ edges → s < N.of_nat n ∧ t < N.of_nat n) →
  length marks = n → NoDup work → (∀ x, marks.[x] = Some true ↔ x ∈ work) →
  ∃ rows marks', reverse_edges n edges = Some rows ∧ mark_search push rows (marks, work) = Some marks' ∧ length marks' = n ∧
    ∀ s, marks'.[s] = Some true ↔ ∃ t, t ∈ work ∧ rtc (λ s t, (s, t) ∈ edges) s t.
Proof.
  intros Hpush He Hl Hnd Hm. destruct (reverse_edges_spec n edges) as (rows & Hr & Hlen & Hiff); [intros s t H; by destruct (He _ _ H)|].
  assert (Hn : lenN rows = N.of_nat n) by (unfold lenN; by rewrite Hlen).
  destruct (mark_search_spec push Hpush rows) with (root := λ x, x ∈ work) (marks := marks) (work := work) as (marks' & Hs & Hl' & Hmk); [| |by unfold lenN; congruence|done|done|done|].
  - intros row t Hrow Hin. apply nthN_elem_of in Hrow as [s Hs]. rewrite Hn. destruct (He t s) as [? _]; [|done]. apply Hiff. by exists row.
  - intros r Hin%Hm%nthN_lt. unfold lenN in *. lia.
  - exists rows, marks'. split; [done|]. split; [done|]. split; [unfold lenN in Hl'; lia|].
    intros s. rewrite Hmk. unfold reached. by setoid_rewrite (row_edge_flip rows edges s _ Hiff).
Qed.
