(* ===== verification/LexClosure.v ===== *)
(** Epsilon closures of the byte automaton
    (crates/glrmask-lexer/src/automata/lexer/dfa.rs): the closure of a set of
    states, the table of all singleton closures with its compact
    representation, and the step on sets of states. *)

From stdpp Require Import relations.
From S2P Require Import Prelude Graph Bits U8Set BitSet CharTransitions LexDfa LexCache Search.

Definition u32_saturating_add (x y : N) : N := N.min (x + y) u32_max.

(** * The table of singleton closures *)

Module SingletonEpsilonClosures.
Inductive t :=
  | Dense (rows : list (list N))
  | IdentityWithOverrides (identities : list N) (overrides : list (option (list N))).

Definition len (c : t) : N :=
  match c with
  | Dense rows => lenN rows
  | IdentityWithOverrides identities _ => lenN identities
  end.

(** The outer [None] is the panic of an index past the overrides. *)
Definition get (c : t) (state : N) : option (option (list N)) :=
  match c with
  | Dense rows => Some rows.[state]
  | IdentityWithOverrides identities overrides =>
      if lenN identities <=? state then Some None
      else
        closure ← overrides.[state];
        match closure with
        | Some closure => Some (Some closure)
        | None => identity ← identities.[state]; Some (Some [identity])
        end
  end.

(** [Index::index] *)
Definition index (c : t) (state : N) : option (list N) := closure ← get c state; closure.

(** The iterator: the next closure and the position after it. *)
Definition iter_next (c : t) (position : N) : option (option (list N * N)) :=
  closure ← get c position;
  match closure with
  | None => Some None
  | Some closure => Some (Some (closure, position + 1))
  end.
Definition iter_size_hint (c : t) (position : N) : N * option N :=
  let remaining := len c - position in (remaining, Some remaining).

(** The loop over the states of one child. *)
Definition rebase_override (child : t) (state_offset : N) (overrides : list (option (list N))) (local_state : N)
    : option (option (list (option (list N)))) :=
  closure ← get child local_state;
  match closure with
  | None => Some None
  | Some closure =>
      Some (Some (overrides ++
        [if bool_decide (closure = [as_u32 local_state]) then None
         else Some (u32_saturating_add state_offset <$> closure)]))
  end.

Fixpoint rebase_overrides (child : t) (state_offset : N) (overrides : list (option (list N))) (locals : list N)
    : option (option (list (option (list N)))) :=
  match locals with
  | [] => Some (Some overrides)
  | local_state :: locals =>
      r ← rebase_override child state_offset overrides local_state;
      match r with
      | None => Some None
      | Some overrides => rebase_overrides child state_offset overrides locals
      end
  end.

(** The loop over the children; [Some None] is the decline of the source. *)
Fixpoint append_children (children : list (t * N * N)) (identities : list N)
    (overrides : list (option (list N))) (merged_start : list N)
    : option (option (list N * list (option (list N)) * list N)) :=
  match children with
  | [] => Some (Some (identities, overrides, merged_start))
  | (child, state_offset, child_start) :: children =>
      if negb (state_offset =? lenN identities) then Some None
      else
        let child_len := len child in
        let identities := identities ++ rangeN state_offset (u32_saturating_add state_offset (as_u32 child_len)) in
        r ← rebase_overrides child state_offset overrides (seqN (N.to_nat child_len));
        match r with
        | None => Some None
        | Some overrides =>
            closure ← get child child_start;
            match closure with
            | None => Some None
            | Some closure =>
                append_children children identities overrides
                  (merged_start ++ (u32_saturating_add state_offset <$> closure))
            end
        end
  end.

Definition append_rebased_children (c : t) (parent_start : N) (children : list (t * N * N))
    : option (option t) :=
  match c with
  | Dense _ => Some None
  | IdentityWithOverrides identities overrides =>
      if lenN identities <=? parent_start then Some None
      else
        start ← overrides.[parent_start];
        identity ← identities.[parent_start];
        let merged_start := default [identity] start in
        r ← append_children children identities overrides merged_start;
        match r with
        | None => Some None
        | Some (identities, overrides, merged_start) =>
            Some (Some (IdentityWithOverrides identities
              (alterN (λ _, Some (dedup (sort_N merged_start))) overrides parent_start)))
        end
  end.
End SingletonEpsilonClosures.

(** * Closures *)

Section closure.
Context (d : LexDFA.t).

Definition no_epsilon (state : N) : bool :=
  match (LexDFA.states d).[state] with
  | Some state => match LexState.epsilon_transitions state with [] => true | _ => false end
  | None => false
  end.

(** The states seen and the stack, its top at the head. *)
Definition push_roots (st : gset N * list N) (root : N) : gset N * list N :=
  let '(seen, stack) := st in
  if (root <? lenN (LexDFA.states d)) && negb (bool_decide (root ∈ seen))
  then ({[root]} ∪ seen, root :: stack) else st.

Definition closure_step (st : gset N * list N * list N) : (gset N * list N * list N) + option (list N) :=
  let '(seen, stack, closure) := st in
  match stack with
  | [] => inr (Some closure)
  | state :: stack =>
      match (LexDFA.states d).[state] with
      | None => inr None
      | Some row =>
          let '(seen, stack) := foldl push_unseen (seen, stack) (LexState.epsilon_transitions row) in
          inl (seen, stack, closure ++ [state])
      end
  end.

(** Every state enters the stack once. *)
Definition closure_fuel : nat := S (length (LexDFA.states d)).

Definition epsilon_closure (roots : list N) : option (list N) :=
  if forallb no_epsilon roots then Some (dedup (sort_N roots))
  else
    let '(seen, stack) := foldl push_roots (∅, []) roots in
    match run closure_step closure_fuel (seen, stack, []) with
    | inl _ => None
    | inr None => None
    | inr (Some closure) => Some (sort_N closure)
    end.

(** ** All singletons *)

(** The scan for a single dispatcher: the last source seen, and whether the
    shape was kept. *)
Fixpoint scan_dispatch (rows : list (N * LexState.t)) (source : option N) : option N * bool :=
  match rows with
  | [] => (source, true)
  | (state, row) :: rows =>
      match LexState.epsilon_transitions row with
      | [] => scan_dispatch rows source
      | targets =>
          match source with
          | Some _ => (Some state, false)
          | None =>
              if existsb (λ target, negb (no_epsilon target)) targets then (Some state, false)
              else scan_dispatch rows (Some state)
          end
      end
  end.

Definition identity_row : list N := seqN (length (LexDFA.states d)).
Definition no_overrides : list (option (list N)) := replicate (length (LexDFA.states d)) None.

Definition dispatch_closures (dispatch : N) : option SingletonEpsilonClosures.t :=
  row ← (LexDFA.states d).[dispatch];
  let closure := dedup (sort_N (as_u32 dispatch :: LexState.epsilon_transitions row)) in
  Some (SingletonEpsilonClosures.IdentityWithOverrides identity_row
          (alterN (λ _, Some closure) no_overrides dispatch)).

Definition adjacency : list (list N) := LexState.epsilon_transitions <$> LexDFA.states d.

(** [indegree[target as usize] += 1] *)
Definition count_target (indegree : list N) (target : N) : option (list N) :=
  _ ← indegree.[target]; Some (alterN (λ degree, degree + 1) indegree target).

Definition epsilon_indegree : option (list N) :=
  foldM (λ indegree row, foldM count_target indegree (LexState.epsilon_transitions row))
    (replicate (length (LexDFA.states d)) 0) (LexDFA.states d).

Definition epsilon_topo (indegree : list N) : option (list N) :=
  kahn adjacency (λ topo state, topo ++ [state]) (λ degree, degree - 1) indegree [].

Definition mark_reachable (generation : N) (st : list N * list N) (reachable : N) : option (list N * list N) :=
  let '(marks, closure) := st in
  slot ← marks.[reachable];
  if slot =? generation then Some st
  else Some (alterN (λ _, generation) marks reachable, closure ++ [reachable]).

Definition merge_target (overrides : list (option (list N))) (generation : N) (st : list N * list N) (target : N)
    : option (list N * list N) :=
  override ← overrides.[target];
  target_closure ← match override with
                   | Some closure => Some closure
                   | None => identity ← identity_row.[target]; Some [identity]
                   end;
  foldM (mark_reachable generation) st target_closure.

Record tables := Tables { overrides : list (option (list N)); marks : list N; generation : N }.

Definition bump (t : tables) : tables :=
  let generation := u32_wrapping_add (generation t) 1 in
  if generation =? 0 then Tables (overrides t) ((λ _, 0) <$> marks t) 1
  else Tables (overrides t) (marks t) generation.

(** One round of the dynamic programming, in reverse topological order. *)
Definition build_closure (t : tables) (state : N) : option tables :=
  row ← (LexDFA.states d).[state];
  match LexState.epsilon_transitions row with
  | [] => Some t
  | targets =>
      let t := bump t in
      _ ← (marks t).[state];
      '(marks, closure) ← foldM (merge_target (overrides t) (generation t))
        (alterN (λ _, generation t) (marks t) state, [state]) targets;
      Some (Tables (alterN (λ _, Some (sort_N closure)) (overrides t) state) marks (generation t))
  end.

Definition all_singleton_epsilon_closures : option SingletonEpsilonClosures.t :=
  let state_count := length (LexDFA.states d) in
  match scan_dispatch (enumerate (LexDFA.states d)) None with
  | (Some dispatch, true) => dispatch_closures dispatch
  | _ =>
      indegree ← epsilon_indegree;
      topo ← epsilon_topo indegree;
      if negb (lenN topo =? N.of_nat state_count)
      then
        rows ← mapM (λ state, epsilon_closure [as_u32 state]) (seqN state_count);
        Some (SingletonEpsilonClosures.Dense rows)
      else
        t ← foldM build_closure (Tables no_overrides (replicate state_count 0) 0) (reverse topo);
        Some (SingletonEpsilonClosures.IdentityWithOverrides identity_row (overrides t))
  end.

(** ** Steps on sets of states *)

Definition byte_targets (closure : list N) (byte : N) : list N :=
  omap (λ state, LexDFA.step d state byte) closure.

Definition step_all_general (states : list N) (byte : N) : option (list N) :=
  closure ← epsilon_closure states;
  match byte_targets closure byte with
  | [] => Some []
  | targets => epsilon_closure (dedup (sort_N targets))
  end.

(** [inl] is the result of the shortcut for one state without epsilon edges;
    [inr None] a panic in it. *)
Definition step_one (state byte : N) : option (option (list N)) :=
  row ← (LexDFA.states d).[state];
  match LexState.epsilon_transitions row with
  | _ :: _ => Some None
  | [] =>
      match LexDFA.step d state byte with
      | None => Some (Some [])
      | Some target =>
          target_row ← (LexDFA.states d).[target];
          match LexState.epsilon_transitions target_row with
          | [] => Some (Some [target])
          | _ :: _ => Some None
          end
      end
  end.

Definition step_all (states : list N) (byte : N) : option (list N) :=
  match states with
  | [state] =>
      shortcut ← step_one state byte;
      match shortcut with
      | Some targets => Some targets
      | None => step_all_general states byte
      end
  | _ => step_all_general states byte
  end.
End closure.

(** * Correctness of one closure *)

Section closure_spec.
Context (d : LexDFA.t).

(** An epsilon edge. *)
Definition epsilon (s t : N) : Prop :=
  ∃ row, (LexDFA.states d).[s] = Some row ∧ t ∈ LexState.epsilon_transitions row.

Definition closed_epsilon : Prop := ∀ s t, epsilon s t → t < lenN (LexDFA.states d).

(** The states reachable from the roots that exist. *)
Definition reach (roots : list N) (t : N) : Prop :=
  ∃ r, r ∈ roots ∧ r < lenN (LexDFA.states d) ∧ rtc epsilon r t.

Lemma no_epsilon_spec s : no_epsilon d s = true → s < lenN (LexDFA.states d) ∧ ∀ t, ¬ epsilon s t.
Proof.
  unfold no_epsilon. destruct ((LexDFA.states d).[s]) as [row|] eqn:E; [|done].
  destruct (LexState.epsilon_transitions row) eqn:Er; [|done]. intros _. split; [by eapply nthN_lt|].
  intros t (row' & Hr & Ht). simplify_eq. rewrite Er in Ht. by apply elem_of_nil in Ht.
Qed.

Lemma reach_no_epsilon roots t : forallb (no_epsilon d) roots = true → reach roots t ↔ t ∈ roots.
Proof.
  intros Hf. rewrite forallb_forall in Hf. split.
  - intros (r & Hr & _ & Ht). pose proof (Hf r (proj1 (list_elem_of_In _ _) Hr)) as Hn.
    apply no_epsilon_spec in Hn as [_ Hn].
    destruct (rtc_inv _ _ Ht) as [<-|(y & Hy & _)]; [done|]. by apply Hn in Hy.
  - intros Ht. exists t. split; [done|]. split; [|done]. by apply no_epsilon_spec, Hf, list_elem_of_In.
Qed.

Section loop.
Context (roots : list N) (Hclosed : closed_epsilon).

Definition root (r : N) : Prop := r ∈ roots ∧ r < lenN (LexDFA.states d).

Lemma reached_reach s : reached epsilon root s ↔ reach roots s.
Proof. unfold reached, reach, root. naive_solver. Qed.

Lemma closure_reach_lt s : reach roots s → s < lenN (LexDFA.states d).
Proof using Hclosed.
  intros (r & _ & Hlt & Hr). revert Hlt. induction Hr as [|x y z Hxy _ IH]; [done|]. intros _. apply IH. by eapply Hclosed.
Qed.

Definition universe : gset N := list_to_set (seqN (length (LexDFA.states d))).

Lemma size_universe : size universe = length (LexDFA.states d).
Proof. unfold universe. rewrite size_list_to_set by apply NoDup_seqN. apply length_seqN. Qed.

Definition closure_inv (st : gset N * list N * list N) (m : nat) : Prop :=
  let '(seen, stack, closure) := st in
  search_ok epsilon root [] seen stack closure ∧ (∀ r, root r → r ∈ seen) ∧
  (m + size seen = length stack + length (LexDFA.states d))%nat.

Lemma lex_closure_step_inv st st' m :
  closure_inv st m → closure_step d st = inl st' → ∃ m', closure_inv st' m' ∧ (m' < m)%nat.
Proof using Hclosed.
  destruct st as [[seen stack] closure]. intros (Hok & Hroots & Hm). destruct stack as [|s stack]; cbn [closure_step]; [done|].
  destruct ((LexDFA.states d).[s]) as [row|] eqn:Erow; [|done].
  assert (Hrow : ∀ t, epsilon s t ↔ t ∈ LexState.epsilon_transitions row).
  { intros t. split; [intros (row' & Hr & Ht); by simplify_eq|intros Ht; by exists row]. }
  pose proof (pop_ok epsilon root s _ seen stack closure Hrow Hok) as Hp.
  destruct (foldl push_unseen (seen, stack) (LexState.epsilon_transitions row)) as [seen' stack'].
  destruct Hp as (Hok' & Hsub & Hl). intros [= <-]. exists (pred m). simpl in Hm.
  assert (size seen' ≤ length (LexDFA.states d))%nat.
  { rewrite <-size_universe. eapply seen_bound; [|exact Hok']. intros x Hx%reached_reach%closure_reach_lt.
    apply elem_of_list_to_set, elem_of_seqN. exact Hx. }
  simpl. split; [split; [done|split; [|lia]]|lia]. intros r Hr. by apply Hsub, Hroots.
Qed.

Lemma push_roots_ok l seen stack :
  (∀ r, r ∈ l → r ∈ roots) → search_ok epsilon root [] seen stack [] →
  let '(seen', stack') := foldl (push_roots d) (seen, stack) l in
  search_ok epsilon root [] seen' stack' [] ∧ seen ⊆ seen' ∧ (∀ r, r ∈ l → r < lenN (LexDFA.states d) → r ∈ seen') ∧
  (length stack' + size seen = length stack + size seen')%nat.
Proof.
  revert seen stack. induction l as [|r l IH]; intros seen stack Hl Hok.
  { split; [done|]. split; [done|]. split; [|done]. intros r Hr. by apply elem_of_nil in Hr. }
  cbn [foldl]. assert (Hp : push_roots d (seen, stack) r =
    if r <? lenN (LexDFA.states d) then push_unseen (seen, stack) r else (seen, stack)).
  { unfold push_roots, push_unseen. destruct (r <? _); [|done]. by case_bool_decide. }
  rewrite Hp. clear Hp. destruct (N.ltb_spec r (lenN (LexDFA.states d))) as [Hlt|Hge].
  - pose proof (push_root_ok epsilon root r seen stack ltac:(split; [apply Hl; by left|done]) Hok) as Hp.
    destruct (push_unseen (seen, stack) r) as [seen1 stack1]. destruct Hp as (Hok1 & Hsub & Hin & Hl1).
    specialize (IH seen1 stack1 ltac:(intros; apply Hl; by right) Hok1).
    destruct (foldl (push_roots d) (seen1, stack1) l) as [seen2 stack2]. destruct IH as (Hok2 & Hsub2 & Hin2 & Hl2).
    split; [done|]. split; [by etrans|]. split; [|lia]. intros x [->|Hx]%elem_of_cons Hxl; [by apply Hsub2|auto].
  - specialize (IH seen stack ltac:(intros; apply Hl; by right) Hok).
    destruct (foldl (push_roots d) (seen, stack) l) as [seen2 stack2]. destruct IH as (Hok2 & Hsub2 & Hin2 & Hl2).
    split; [done|]. split; [done|]. split; [|done]. intros x [->|Hx]%elem_of_cons Hxl; [lia|auto].
Qed.
End loop.

(** The closure ends and lists the reachable states. *)
Lemma lex_closure_spec roots :
  closed_epsilon →
  ∃ l, epsilon_closure d roots = Some l ∧ strictly_sorted l ∧ ∀ t, t ∈ l ↔ reach roots t.
Proof.
  intros Hclosed. unfold epsilon_closure. destruct (forallb (no_epsilon d) roots) eqn:Hf.
  { destruct (dedup_sort_spec roots) as [Hs He]. eexists. split; [done|]. split; [done|].
    intros t. rewrite He. symmetry. by apply reach_no_epsilon. }
  pose proof (push_roots_ok roots roots ∅ [] (λ r H, H) (search_start _ _)) as Hp.
  destruct (foldl (push_roots d) (∅, []) roots) as [seen stack]. destruct Hp as (Hok & _ & Hin & Hl).
  rewrite size_empty in Hl. simpl in Hl.
  destruct (run_terminates (closure_step d) (closure_inv roots) (closure_fuel d) (seen, stack, [])
    (length (LexDFA.states d)) (lex_closure_step_inv roots Hclosed)) as (r & [[seen' stack'] closure] & m & Hrun & Hinv & Hexit).
  - split; [done|]. split; [|lia]. intros r [Hr Hrl]. by apply Hin.
  - unfold closure_fuel. pose proof (pow2_S_gt (length (LexDFA.states d))). lia.
  - rewrite Hrun. destruct Hinv as (Hok' & Hroots & _). destruct stack' as [|s stack']; cbn [closure_step] in Hexit.
    + injection Hexit as <-. eexists. split; [done|]. pose proof (ok_nodup _ _ _ _ _ _ Hok') as Hnd.
      split; [by apply strictly_sorted_sort_N|]. intros t. rewrite elem_of_sort_N, <-reached_reach.
      by apply (search_done epsilon (root roots) seen').
    + exfalso. assert (Hs : s ∈ seen') by (apply (ok_seen _ _ _ _ _ _ Hok'); left; by left).
      apply (ok_reached _ _ _ _ _ _ Hok'), reached_reach, (closure_reach_lt roots Hclosed), nthN_Some_lt in Hs as [row Hrow].
      rewrite Hrow in Hexit. by destruct (foldl push_unseen _ _).
Qed.
End closure_spec.

(** * Correctness of the table *)

Section table_spec.
Context (d : LexDFA.t) (Hclosed : closed_epsilon d).
Let n := lenN (LexDFA.states d).

(** A list is the sorted closure of a state. *)
Definition is_closure (s : N) (l : list N) : Prop :=
  strictly_sorted l ∧ ∀ t, t ∈ l ↔ rtc (epsilon d) s t.

Lemma reach_singleton s t : s < n → reach d [s] t ↔ rtc (epsilon d) s t.
Proof.
  intros Hs. split.
  - intros (r & Hr%list_elem_of_singleton & _ & H). by subst.
  - intros H. exists s. split; [by left|done].
Qed.

Lemma closure_singleton s : s < n → ∃ l, epsilon_closure d [s] = Some l ∧ is_closure s l.
Proof.
  intros Hs. destruct (lex_closure_spec d [s] Hclosed) as (l & Hl & Hsort & He). exists l.
  split; [done|]. split; [done|]. intros t. rewrite He. by apply reach_singleton.
Qed.

Lemma is_closure_unique s l l' : is_closure s l → is_closure s l' → l = l'.
Proof. intros [H1 H2] [H3 H4]. apply strictly_sorted_ext; [done..|]. intros x. by rewrite H2, H4. Qed.

Lemma is_closure_singleton s : (∀ t, ¬ epsilon d s t) → is_closure s [s].
Proof.
  intros H. split; [apply strictly_sorted_singleton|]. intros t. rewrite list_elem_of_singleton. split; [by intros ->|].
  intros Ht. destruct (rtc_inv _ _ Ht) as [<-|(y & Hy & _)]; [done|]. by apply H in Hy.
Qed.

(** ** The dispatcher shape *)

Lemma scan_dispatch_Some rows s dispatch :
  scan_dispatch d rows (Some s) = (Some dispatch, true) →
  dispatch = s ∧ ∀ e, e ∈ rows → LexState.epsilon_transitions e.2 = [].
Proof.
  induction rows as [|[i row] rows IH]; simpl.
  - intros [= <-]. split; [done|]. intros e He. by apply elem_of_nil in He.
  - destruct (LexState.epsilon_transitions row) eqn:Er; [|done]. intros H. destruct (IH H) as [-> Hr].
    split; [done|]. intros e [->|He]%elem_of_cons; [done|auto].
Qed.

Lemma scan_dispatch_None rows dispatch :
  scan_dispatch d rows None = (Some dispatch, true) →
  ∃ row, (dispatch, row) ∈ rows ∧ (∀ t, t ∈ LexState.epsilon_transitions row → no_epsilon d t = true) ∧
    ∀ e, e ∈ rows → e = (dispatch, row) ∨ LexState.epsilon_transitions e.2 = [].
Proof.
  induction rows as [|[i row] rows IH]; simpl; [done|].
  destruct (LexState.epsilon_transitions row) as [|t0 ts] eqn:Er.
  - intros H. destruct (IH H) as (row' & Hin & Ht & Ho). exists row'. split; [by right|]. split; [done|].
    intros e [->|He]%elem_of_cons; [by right|auto].
  - destruct (_ || _) eqn:Ee; [done|]. intros H. apply scan_dispatch_Some in H as [-> Ho].
    exists row. split; [by left|]. split.
    + intros t Ht. rewrite Er in Ht. destruct (no_epsilon d t) eqn:Et; [done|].
      assert (existsb (λ target, negb (no_epsilon d target)) (t0 :: ts) = true); [|simpl in *; congruence].
      apply existsb_exists. exists t. split; [by apply list_elem_of_In|by rewrite Et].
    + intros e [->|He]%elem_of_cons; [by left|right; by apply Ho].
Qed.

(** What a table answers for a state. *)
Definition answers (c : SingletonEpsilonClosures.t) : Prop :=
  SingletonEpsilonClosures.len c = n ∧
  ∀ s, (s < n → ∃ l, SingletonEpsilonClosures.get c s = Some (Some l) ∧ is_closure s l) ∧
       (n ≤ s → SingletonEpsilonClosures.get c s = Some None).

Lemma length_states : N.of_nat (length (LexDFA.states d)) = n.
Proof. done. Qed.

(** A table over the identities, from the overrides. *)
Lemma identity_answers overrides :
  lenN overrides = n →
  (∀ s o, overrides.[s] = Some o → is_closure s (default [s] o)) →
  answers (SingletonEpsilonClosures.IdentityWithOverrides (identity_row d) overrides).
Proof.
  intros Hlen Ho. unfold answers, identity_row. cbn [SingletonEpsilonClosures.len SingletonEpsilonClosures.get].
  assert (Hl : lenN (seqN (length (LexDFA.states d))) = n) by (unfold lenN; by rewrite length_seqN).
  rewrite Hl. split; [done|]. intros s. split; intros Hs; destruct (N.leb_spec n s); try lia; [|done].
  assert (is_Some overrides.[s]) as [o Hos] by (apply nthN_Some_lt; lia). rewrite Hos. simpl.
  specialize (Ho s o Hos). destruct o as [l|]; [by exists l|].
  rewrite nthN_seqN, (proj2 (N.ltb_lt _ _)) by (rewrite length_states; lia). simpl. by exists [s].
Qed.

Lemma lenN_no_overrides : lenN (no_overrides d) = n.
Proof. unfold no_overrides. by rewrite lenN_replicate. Qed.

Lemma dispatch_spec dispatch :
  n ≤ u32_modulus →
  scan_dispatch d (enumerate (LexDFA.states d)) None = (Some dispatch, true) →
  ∃ c, dispatch_closures d dispatch = Some c ∧ answers c.
Proof using Hclosed.
  intros Hn Hscan. apply scan_dispatch_None in Hscan as (row & Hrow & Ht & Ho).
  apply elem_of_enumerate in Hrow. unfold dispatch_closures. rewrite Hrow. simpl.
  pose proof (nthN_lt _ _ _ Hrow) as Hlt. change (lenN (LexDFA.states d)) with n in Hlt.
  eexists. split; [done|]. apply identity_answers; [by rewrite lenN_alterN, lenN_no_overrides|].
  rewrite as_u32_small by lia. intros s o. rewrite nthN_alterN.
  assert (Hother : s ≠ dispatch → ∀ t, ¬ epsilon d s t).
  { intros Hne t (row' & Hr' & Hin). apply elem_of_enumerate in Hr'.
    destruct (Ho _ Hr') as [Heq|Hnil]; [by injection Heq|]. cbn in Hnil. rewrite Hnil in Hin. by apply elem_of_nil in Hin. }
  destruct (N.eqb_spec dispatch s) as [<-|Hne].
  - rewrite N.eqb_refl. intros Hs. destruct ((no_overrides d).[dispatch]) as [o'|]; simplify_eq/=.
    destruct (dedup_sort_spec (dispatch :: LexState.epsilon_transitions row)) as [Hsd He].
    split; [done|]. intros t. rewrite He, elem_of_cons. split.
    + intros [->|Hin]; [done|]. apply rtc_once. by exists row.
    + intros Hr. destruct (rtc_inv _ _ Hr) as [<-|(y & (row' & Hr' & Hy) & Hyt)]; [by left|]. right.
      rewrite Hrow in Hr'. injection Hr' as <-. destruct (rtc_inv _ _ Hyt) as [<-|(z & Hz & _)]; [done|].
      by apply no_epsilon_spec in Hz; [|apply Ht].
  - rewrite (proj2 (N.eqb_neq _ _)) by congruence. intros Hs. unfold no_overrides in Hs. rewrite nthN_replicate in Hs. case_match; [|done]. injection Hs as <-.
    apply is_closure_singleton. apply Hother. congruence.
Qed.

(** ** The topological shape *)

Lemma adjacency_edge s t : edge (adjacency d) s t ↔ epsilon d s t.
Proof using Hclosed.
  unfold edge, adjacency, epsilon. rewrite nthN_fmap, lenN_fmap. split.
  - intros (ts & Hts & Ht & _). destruct ((LexDFA.states d).[s]) as [row|] eqn:E; simplify_eq/=. by exists row.
  - intros (row & Hr & Ht). exists (LexState.epsilon_transitions row). rewrite Hr.
    split; [done|]. split; [done|]. apply (Hclosed s). by exists row.
Qed.

Lemma count_target_spec indegree ts :
  (∀ t, t ∈ ts → t < lenN indegree) →
  ∃ indegree', foldM count_target indegree ts = Some indegree' ∧ lenN indegree' = lenN indegree ∧
    ∀ t, t < lenN indegree → indegree'.[t] = (λ x, x + N.of_nat (occ t ts)) <$> indegree.[t].
Proof.
  revert indegree. induction ts as [|u ts IH]; intros indegree Hts; simpl.
  - exists indegree. split; [done|]. split; [done|]. intros t _. unfold occ. simpl.
    destruct indegree.[t]; simpl; [f_equal; lia|done].
  - assert (is_Some indegree.[u]) as [x Hx] by (apply nthN_Some_lt, Hts; by left).
    assert (Hc : count_target indegree u = Some (alterN (λ degree, degree + 1) indegree u)) by (unfold count_target; by rewrite Hx).
    rewrite Hc. simpl.
    destruct (IH (alterN (λ degree, degree + 1) indegree u)) as (indegree' & Hf & Hl & Hg).
    { intros t Ht. rewrite lenN_alterN. apply Hts. by right. }
    exists indegree'. split; [done|]. rewrite lenN_alterN in Hl, Hg. split; [done|].
    intros t Ht. rewrite Hg, nthN_alterN, occ_cons by done.
    destruct (N.eqb_spec t u) as [->|Hne].
    + rewrite Hx. simpl. rewrite decide_True by done. f_equal. lia.
    + rewrite decide_False by congruence. done.
Qed.

Lemma indegree_rows_spec (rows : list LexState.t) indegree :
  (∀ row t, row ∈ rows → t ∈ LexState.epsilon_transitions row → t < lenN indegree) →
  ∃ indegree', foldM (λ indegree row, foldM count_target indegree (LexState.epsilon_transitions row)) indegree rows
      = Some indegree' ∧ lenN indegree' = lenN indegree ∧
    ∀ t, t < lenN indegree →
      indegree'.[t] = (λ x, x + N.of_nat (occ t (concat (LexState.epsilon_transitions <$> rows)))) <$> indegree.[t].
Proof.
  revert indegree. induction rows as [|row rows IH]; intros indegree Hr; cbn [foldM].
  - exists indegree. split; [done|]. split; [done|]. intros t _. unfold occ. simpl.
    destruct indegree.[t]; simpl; [f_equal; lia|done].
  - destruct (count_target_spec indegree (LexState.epsilon_transitions row)) as (i1 & H1 & Hl1 & Hg1).
    { intros t. apply Hr. by left. }
    rewrite H1. cbn [mbind option_bind]. destruct (IH i1) as (i2 & H2 & Hl2 & Hg2).
    { intros row' t Hrow'. rewrite Hl1. apply Hr. by right. }
    exists i2. split; [done|]. rewrite Hl1 in Hl2, Hg2. split; [done|]. intros t Ht. rewrite Hg2, Hg1, fmap_cons, concat_cons, occ_app by done.
    destruct indegree.[t] as [x|]; [|done]. cbn [fmap option_fmap option_map]. f_equal. lia.
Qed.

(** The topological order of the states that are on no epsilon cycle. *)
Lemma topo_spec :
  ∃ indegree V, epsilon_indegree d = Some indegree ∧ epsilon_topo d indegree = Some V ∧
    topological (adjacency d) V ∧ NoDup V ∧ ∀ t, t ∈ V → t < n.
Proof using Hclosed.
  destruct (indegree_rows_spec (LexDFA.states d) (replicate (length (LexDFA.states d)) 0)) as (indegree & Hi & Hl & Hg).
  { intros row t Hrow Ht. rewrite lenN_replicate. apply nthN_elem_of in Hrow as [s Hs]. apply (Hclosed s). by exists row. }
  rewrite lenN_replicate in Hl, Hg.
  assert (Ha : length (adjacency d) = length (LexDFA.states d)) by apply length_fmap.
  destruct (kahn_spec (adjacency d) (λ topo state, topo ++ [state]) (λ degree, degree - 1) ltac:(done)
    (λ topo V, topo = V) ltac:(naive_solver) indegree []) as (topo & V & Hk & -> & Htop & Hnd & HV); [| |done|].
  - rewrite Ha. unfold lenN in Hl. lia.
  - intros t Ht. unfold lenN in Ht. rewrite Ha in Ht. rewrite Hg, remaining_nil, nthN_replicate by done.
    by rewrite (proj2 (N.ltb_lt _ _)) by done.
  - exists indegree, V. split; [done|]. split; [done|]. split; [done|]. split; [done|].
    intros t Ht. apply HV in Ht as [Ht _]. unfold lenN in Ht. by rewrite Ha in Ht.
Qed.

(** ** Dynamic programming over the order *)

(** The marks of the current generation are the states collected. *)
Record mark_ok (g : N) (st : list N * list N) : Prop := {
  mark_len : lenN st.1 = n;
  mark_nodup : NoDup st.2;
  mark_range : ∀ s, s ∈ st.2 → s < n;
  mark_iff : ∀ s, s < n → st.1.[s] = Some g ↔ s ∈ st.2;
  mark_le : ∀ s x, st.1.[s] = Some x → x ≤ g;
}.

Lemma mark_reachable_ok g st x :
  mark_ok g st → x < n →
  ∃ st', mark_reachable g st x = Some st' ∧ mark_ok g st' ∧ ∀ y, y ∈ st'.2 ↔ y ∈ st.2 ∨ y = x.
Proof.
  destruct st as [marks closure]. intros [Hl Hn Hr Hi Hle] Hx. cbn [fst snd] in *. unfold mark_reachable.
  assert (is_Some marks.[x]) as [slot Hslot] by (apply nthN_Some_lt; lia). rewrite Hslot. simpl.
  destruct (N.eqb_spec slot g) as [->|Hne].
  - eexists. split; [done|]. split; [done|]. intros y. simpl. apply Hi in Hslot; [|done]. naive_solver.
  - assert (Hni : x ∉ closure) by (rewrite <-Hi by done; congruence).
    eexists. split; [done|]. cbn [fst snd]. split.
    + split; cbn [fst snd].
      * by rewrite lenN_alterN.
      * apply NoDup_app. split; [done|]. split; [|apply NoDup_singleton]. intros y Hy ->%list_elem_of_singleton. done.
      * intros y [Hy| ->%list_elem_of_singleton]%elem_of_app; auto.
      * intros y Hy. rewrite nthN_alterN, elem_of_app, list_elem_of_singleton, <-Hi by done.
        destruct (N.eqb_spec y x) as [->|Hyx]; [rewrite Hslot; simpl; naive_solver|naive_solver].
      * intros y z. rewrite nthN_alterN. destruct (N.eqb_spec y x) as [->|]; [|apply Hle].
        rewrite Hslot. intros [= <-]. done.
    + intros y. by rewrite elem_of_app, list_elem_of_singleton.
Qed.

Lemma mark_list_ok g st l :
  mark_ok g st → (∀ x, x ∈ l → x < n) →
  ∃ st', foldM (mark_reachable g) st l = Some st' ∧ mark_ok g st' ∧ ∀ y, y ∈ st'.2 ↔ y ∈ st.2 ∨ y ∈ l.
Proof.
  revert st. induction l as [|x l IH]; intros st Hst Hl; cbn [foldM].
  - exists st. split; [done|]. split; [done|]. intros y. rewrite elem_of_nil. tauto.
  - destruct (mark_reachable_ok g st x Hst (Hl x ltac:(by left))) as (st1 & H1 & Hok1 & He1). rewrite H1. simpl.
    destruct (IH st1 Hok1 ltac:(intros; apply Hl; by right)) as (st2 & H2 & Hok2 & He2).
    exists st2. split; [done|]. split; [done|]. intros y. rewrite He2, He1, elem_of_cons. tauto.
Qed.

Lemma is_closure_lt s l t : s < n → is_closure s l → t ∈ l → t < n.
Proof using Hclosed.
  intros Hs [_ Hl] Ht. apply Hl in Ht. clear Hl. revert Hs. induction Ht as [|x y z Hxy _ IH]; [done|]. intros _. apply IH.
  by apply (Hclosed x).
Qed.

Lemma merge_targets_ok ovs g st ts :
  mark_ok g st →
  (∀ t, t ∈ ts → t < n ∧ ∃ o, ovs.[t] = Some o ∧ is_closure t (default [t] o)) →
  ∃ st', foldM (merge_target d ovs g) st ts = Some st' ∧ mark_ok g st' ∧
    ∀ y, y ∈ st'.2 ↔ y ∈ st.2 ∨ ∃ t, t ∈ ts ∧ rtc (epsilon d) t y.
Proof using Hclosed.
  revert st. induction ts as [|t ts IH]; intros st Hst Hts; cbn [foldM].
  - exists st. split; [done|]. split; [done|]. intros y. split; [by left|]. intros [|(t & Ht & _)]; [done|by apply elem_of_nil in Ht].
  - destruct (Hts t ltac:(by left)) as (Ht & o & Ho & Hc).
    destruct (mark_list_ok g st (default [t] o) Hst) as (st1 & H1 & Hok1 & He1); [intros x; by apply (is_closure_lt t)|].
    assert (Hm : merge_target d ovs g st t = Some st1).
    { unfold merge_target. rewrite Ho. simpl. destruct o as [l|]; [exact H1|].
      unfold identity_row. rewrite nthN_seqN, (proj2 (N.ltb_lt _ _)) by (rewrite length_states; lia). exact H1. }
    rewrite Hm. simpl. destruct (IH st1 Hok1 ltac:(intros; apply Hts; by right)) as (st2 & H2 & Hok2 & He2).
    exists st2. split; [done|]. split; [done|]. intros y. destruct Hc as [_ Hc]. rewrite He2, He1, Hc.
    setoid_rewrite elem_of_cons. naive_solver.
Qed.

(** The table after the states [pre] of the reversed order. *)
Record tables_ok (pre : list N) (t : tables) : Prop := {
  overrides_len : lenN (overrides t) = n;
  marks_len : lenN (marks t) = n;
  generation_width : generation t < u32_modulus;
  marks_le : ∀ s x, (marks t).[s] = Some x → x ≤ generation t;
  overrides_done : ∀ s o, s ∈ pre → (overrides t).[s] = Some o → is_closure s (default [s] o);
  overrides_todo : ∀ s o, s ∉ pre → (overrides t).[s] = Some o → o = None;
}.

Lemma bump_spec pre t :
  tables_ok pre t →
  tables_ok pre (bump t) ∧ overrides (bump t) = overrides t ∧
  ∀ s, (marks (bump t)).[s] ≠ Some (generation (bump t)).
Proof.
  intros [H1 H2 H3 H4 H5 H6]. unfold bump.
  destruct (N.eqb_spec (u32_wrapping_add (generation t) 1) 0) as [Hz|Hnz].
  - split; [|split; [done|]].
    + split; cbn [overrides marks generation]; [done|by rewrite lenN_fmap|done| |done..].
      intros s x. rewrite nthN_fmap. destruct ((marks t).[s]); intros [= <-]. lia.
    + cbn [overrides marks generation]. intros s. rewrite nthN_fmap. by destruct ((marks t).[s]).
  - assert (Hg : u32_wrapping_add (generation t) 1 = generation t + 1).
    { destruct (decide (generation t + 1 = u32_modulus)) as [He|].
      - unfold u32_wrapping_add in Hnz. rewrite He in Hnz. by rewrite N.Div0.mod_same in Hnz.
      - apply u32_wrapping_add_small. lia. }
    split; [|split; [done|]]; cbn [overrides marks generation].
    + split; cbn [overrides marks generation]; [done|done|by apply N.mod_lt| |done..]. intros s x Hx. specialize (H4 s x Hx). lia.
    + intros s Hs. apply H4 in Hs. lia.
Qed.

Lemma closure_unfold s t ts row :
  (LexDFA.states d).[s] = Some row → LexState.epsilon_transitions row = ts →
  rtc (epsilon d) s t ↔ t = s ∨ ∃ u, u ∈ ts ∧ rtc (epsilon d) u t.
Proof.
  intros Hrow Hts. split.
  - intros H. destruct (rtc_inv _ _ H) as [<-|(u & (row' & Hr & Hu) & Hut)]; [by left|].
    right. exists u. split; [by simplify_eq|done].
  - intros [->|(u & Hu & Hut)]; [done|]. eapply rtc_l; [|exact Hut]. exists row. by subst.
Qed.

(** One state of the order: its targets are done before it. *)
Lemma build_closure_ok pre s t row :
  tables_ok pre t → s ∉ pre → (LexDFA.states d).[s] = Some row →
  (∀ u, u ∈ LexState.epsilon_transitions row → u ∈ pre) →
  ∃ t', build_closure d t s = Some t' ∧ tables_ok (pre ++ [s]) t'.
Proof using Hclosed.
  intros Hok Hs Hrow Hdone. unfold build_closure. rewrite Hrow. cbn [mbind option_bind].
  pose proof (nthN_lt _ _ _ Hrow) as Hlt. change (lenN (LexDFA.states d)) with n in Hlt.
  destruct (LexState.epsilon_transitions row) as [|u0 us] eqn:Er.
  - exists t. split; [done|]. destruct Hok as [H1 H2 H3 H4 H5 H6]. split; [done..| |].
    + intros x o [Hx|Hx%list_elem_of_singleton]%elem_of_app Ho; [by eapply H5|]. subst x.
      rewrite (H6 s o Hs Ho). simpl. apply is_closure_singleton.
      intros y (row' & Hr & Hy). simplify_eq. rewrite Er in Hy. by apply elem_of_nil in Hy.
    + intros x o Hx. apply H6. set_solver.
  - destruct (bump_spec pre t Hok) as ([H1 H2 H3 H4 H5 H6] & _ & Hfresh).
    assert (is_Some (marks (bump t)).[s]) as [x0 Hx0] by (apply nthN_Some_lt; lia). rewrite Hx0. cbn [mbind option_bind].
    destruct (merge_targets_ok (overrides (bump t)) (generation (bump t))
      (alterN (λ _, generation (bump t)) (marks (bump t)) s, [s]) (u0 :: us)) as ([marks' closure] & Hm & Hmok & He).
    + split; cbn [fst snd].
      * by rewrite lenN_alterN.
      * apply NoDup_singleton.
      * by intros x ->%list_elem_of_singleton.
      * intros x Hx. rewrite nthN_alterN, list_elem_of_singleton. destruct (N.eqb_spec x s) as [->|Hxs].
        -- rewrite Hx0. naive_solver.
        -- split; [|done]. by intros ?%Hfresh.
      * intros x y. rewrite nthN_alterN. destruct (N.eqb_spec x s) as [->|]; [|apply H4]. rewrite Hx0. by intros [= <-].
    + intros u Hu. specialize (Hdone u Hu). assert (Hul : u < n).
      { apply (Hclosed s). exists row. by rewrite Er. }
      split; [done|]. assert (is_Some (overrides (bump t)).[u]) as [o Ho] by (apply nthN_Some_lt; lia).
      exists o. split; [done|]. by apply H5.
    + rewrite Hm. cbn [mbind option_bind]. eexists. split; [done|]. cbn [fst snd] in *.
      destruct Hmok as [M1 M2 M3 M4 M5]. cbn [fst snd] in *.
      split; cbn [overrides marks generation]; [by rewrite lenN_alterN|done|done|done| |].
      * intros x o Hx. rewrite nthN_alterN. destruct (N.eqb_spec x s) as [->|Hxs].
        -- assert (is_Some (overrides (bump t)).[s]) as [o' Ho'] by (apply nthN_Some_lt; lia). rewrite Ho'. intros [= <-].
           simpl. split; [by apply strictly_sorted_sort_N|]. intros y.
           rewrite elem_of_sort_N, He, list_elem_of_singleton. symmetry. by apply (closure_unfold s y _ row).
        -- apply H5. apply elem_of_app in Hx as [|Hx%list_elem_of_singleton]; done.
      * intros x o Hx. rewrite nthN_alterN. destruct (N.eqb_spec x s) as [->|Hxs]; [set_solver|]. apply H6. set_solver.
Qed.

Lemma topological_suffix V A s B u :
  topological (adjacency d) V → NoDup V → V = A ++ s :: B → edge (adjacency d) s u → u ∈ V → u ∈ B.
Proof.
  intros Htop Hnd HV He [j Hj]%list_elem_of_lookup.
  assert (Hi : V !! length A = Some s) by (rewrite HV; by apply list_lookup_middle).
  pose proof (topological_position _ V s u _ _ Htop Hnd He Hi Hj) as Hlt.
  rewrite HV, lookup_app_r in Hj by lia. destruct (j - length A)%nat as [|k] eqn:Ek; [lia|].
  simpl in Hj. by eapply list_elem_of_lookup_2.
Qed.

Lemma build_all_ok V :
  topological (adjacency d) V → NoDup V → (∀ t, t ∈ V → t < n) → (∀ t, t < n → t ∈ V) →
  ∃ t, foldM (build_closure d) (Tables (no_overrides d) (replicate (length (LexDFA.states d)) 0) 0) (reverse V) = Some t ∧
    tables_ok (reverse V) t.
Proof using Hclosed.
  intros Htop Hnd Hrange Hall.
  assert (Hgen : ∀ pre suf t, reverse V = pre ++ suf → tables_ok pre t →
    ∃ t', foldM (build_closure d) t suf = Some t' ∧ tables_ok (reverse V) t').
  { intros pre suf. revert pre. induction suf as [|s suf IH]; intros pre t Heq Hok; cbn [foldM].
    - exists t. split; [done|]. by rewrite Heq, app_nil_r.
    - assert (HV : V = reverse suf ++ s :: reverse pre).
      { rewrite <-(reverse_involutive V), Heq, reverse_app, reverse_cons, <-app_assoc. done. }
      assert (Hs : s ∈ V) by (rewrite HV; set_solver).
      apply Hrange, nthN_Some_lt in Hs as [row Hrow].
      assert (Hsp : s ∉ reverse pre).
      { pose proof Hnd as Hnd'. rewrite HV in Hnd'. apply NoDup_app in Hnd' as (_ & _ & Hnd'). by apply NoDup_cons in Hnd' as [Hsp _]. }
      destruct (build_closure_ok pre s t row Hok) as (t1 & H1 & Hok1); [by rewrite elem_of_reverse in Hsp|done| |].
      + intros u Hu. assert (Heu : epsilon d s u) by by exists row.
        assert (Hin : u ∈ V) by (by apply Hall, (Hclosed s)).
        rewrite <-elem_of_reverse. apply (topological_suffix V (reverse suf) s (reverse pre) u); try done.
        by apply adjacency_edge.
      + rewrite H1. simpl. apply (IH (pre ++ [s])); [by rewrite <-app_assoc|done]. }
  apply (Hgen [] (reverse V)); [done|].
  split; cbn [overrides marks generation]; [apply lenN_no_overrides|by rewrite lenN_replicate|done| | |].
  - intros s x. rewrite nthN_replicate. case_match; [|done]. intros [= <-]. done.
  - intros s o Hs. by apply elem_of_nil in Hs.
  - intros s o _. unfold no_overrides. rewrite nthN_replicate. case_match; [|done]. by intros [= <-].
Qed.

Lemma full_order V :
  NoDup V → (∀ t, t ∈ V → t < n) → lenN V = N.of_nat (length (LexDFA.states d)) → ∀ t, t < n → t ∈ V.
Proof.
  intros Hnd Hrange Hl t Ht. destruct (decide (t ∈ V)) as [|Hni]; [done|exfalso].
  assert (length (t :: V) ≤ length (LexDFA.states d))%nat; [|unfold lenN in Hl; simpl in *; lia].
  apply NoDup_bounded_length; [by constructor|]. intros x [->|Hx]%elem_of_cons; [exact Ht|by apply Hrange].
Qed.

(** The fallback: one closure per state. *)
Lemma dense_answers :
  n ≤ u32_modulus →
  ∃ rows, mapM (λ state, epsilon_closure d [as_u32 state]) (seqN (length (LexDFA.states d))) = Some rows ∧
    answers (SingletonEpsilonClosures.Dense rows).
Proof using Hclosed.
  intros Hn.
  assert (is_Some (mapM (λ state, epsilon_closure d [as_u32 state]) (seqN (length (LexDFA.states d))))) as [rows Hrows].
  { apply mapM_is_Some_2, Forall_forall. intros s Hs%elem_of_seqN. rewrite length_states in Hs. simpl.
    rewrite as_u32_small by lia. destruct (closure_singleton s Hs) as (l & -> & _). done. }
  exists rows. split; [done|]. apply mapM_Some in Hrows.
  assert (Hl : lenN rows = n).
  { unfold lenN. rewrite <-(Forall2_length _ _ _ Hrows), length_seqN. done. }
  split; [done|]. intros s. cbn [SingletonEpsilonClosures.get]. split; intros Hs.
  - assert (is_Some rows.[s]) as [l Hls] by (apply nthN_Some_lt; lia). exists l. rewrite Hls. split; [done|].
    rewrite nthN_lookup in Hls. destruct (Forall2_lookup_r _ _ _ _ _ Hrows Hls) as (s' & Hs' & Hc).
    rewrite <-nthN_lookup, nthN_seqN in Hs'. case_match; [|done]. injection Hs' as <-.
    rewrite as_u32_small in Hc by lia. destruct (closure_singleton s Hs) as (l' & Hl' & Hc'). congruence.
  - f_equal. apply nthN_None. lia.
Qed.

Lemma all_singletons_spec :
  n ≤ u32_modulus → ∃ c, all_singleton_epsilon_closures d = Some c ∧ answers c.
Proof using Hclosed.
  intros Hn. unfold all_singleton_epsilon_closures.
  destruct (scan_dispatch d (enumerate (LexDFA.states d)) None) as [[dispatch|] [|]] eqn:Escan;
    [by apply dispatch_spec| | |].
  all: destruct topo_spec as (indegree & V & -> & Htopo & Htop & Hnd & Hrange); cbn [mbind option_bind];
    rewrite Htopo; cbn [mbind option_bind]; destruct (N.eqb_spec (lenN V) (N.of_nat (length (LexDFA.states d)))) as [HlV|HlV];
    cbn [negb].
  all: try (destruct (dense_answers Hn) as (rows & -> & Ha); by eexists).
  all: destruct (build_all_ok V Htop Hnd Hrange) as (t & -> & [H1 H2 H3 H4 H5 H6]);
    [by apply full_order|eexists; split; [done|]]; apply identity_answers; [done|];
    intros s o Ho; destruct (decide (s ∈ reverse V)) as [Hin|Hin]; [by eapply H5|]; exfalso; apply Hin;
    rewrite elem_of_reverse; apply full_order; [done..|]; pose proof (nthN_lt _ _ _ Ho); lia.
Qed.
End table_spec.

(** * Properties *)

(** The closure of any list of roots ends without a panic when every epsilon
    edge leads to a state, and returns, in ascending order and once each, the
    states reachable over epsilon edges from the roots that exist. *)
Theorem epsilon_closure_correct (d : LexDFA.t) (roots : list N) :
  closed_epsilon d →
  ∃ l, epsilon_closure d roots = Some l ∧ strictly_sorted l ∧
    ∀ t, t ∈ l ↔ ∃ r, r ∈ roots ∧ r < LexDFA.num_states d ∧ rtc (epsilon d) r t.
Proof. apply lex_closure_spec. Qed.

(** The table of all singleton closures, in whichever of its shapes it is
    built (a single dispatcher, the dynamic programming over a topological
    order, the fallback on epsilon cycles), has a row for each state and that
    row is what the closure of the state alone computes. *)
Theorem all_singleton_epsilon_closures_correct (d : LexDFA.t) :
  closed_epsilon d → LexDFA.num_states d ≤ u32_modulus →
  ∃ c, all_singleton_epsilon_closures d = Some c ∧
    SingletonEpsilonClosures.len c = LexDFA.num_states d ∧
    ∀ s, SingletonEpsilonClosures.get c s =
      (if s <? LexDFA.num_states d then Some (epsilon_closure d [s]) else Some None).
Proof.
  intros Hclosed Hn. destruct (all_singletons_spec d Hclosed Hn) as (c & Hc & Hlen & Hget).
  exists c. split; [done|]. split; [done|]. intros s. destruct (Hget s) as [Hin Hout].
  destruct (N.ltb_spec s (LexDFA.num_states d)) as [Hs|Hs]; [|by apply Hout].
  destruct (Hin Hs) as (l & -> & Hl). destruct (closure_singleton d Hclosed s Hs) as (l' & -> & Hl').
  by rewrite (is_closure_unique d s l l').
Qed.

(** ** Steps on sets *)

Definition closed_bytes (d : LexDFA.t) : Prop :=
  ∀ s b t, LexDFA.step d s b = Some t → t < LexDFA.num_states d.

Definition closed_b (d : LexDFA.t) : bool :=
  forallb (λ row, forallb (λ t, t <? LexDFA.num_states d) (LexState.epsilon_transitions row)
                  && forallb (λ e, e.2 <? LexDFA.num_states d) (CharTransitions.entries (LexState.transitions row)))
    (LexDFA.states d).

Lemma get_entry {A} (tr : CharTransitions.t A) b x : CharTransitions.get tr b = Some x → ∃ k, (k, x) ∈ CharTransitions.entries tr.
Proof.
  unfold CharTransitions.get. destruct (CharTransitions.entry_index tr b) as [i|]; [|done]. intros H.
  destruct (CharTransitions.entries tr !! i) as [[k y]|] eqn:E; simplify_eq/=. exists k. by eapply list_elem_of_lookup_2.
Qed.

Lemma lex_closed_b_spec d : closed_b d = true → closed_epsilon d ∧ closed_bytes d.
Proof.
  unfold closed_b. rewrite forallb_forall. intros H. split.
  - intros s t (row & Hrow & Ht). specialize (H row). rewrite nthN_lookup in Hrow.
    apply list_elem_of_lookup_2 in Hrow. specialize (H (proj1 (list_elem_of_In _ _) Hrow)).
    apply andb_true_iff in H as [H _]. rewrite forallb_forall in H. by apply N.ltb_lt, H, list_elem_of_In.
  - intros s b t Hstep. unfold LexDFA.step in Hstep. destruct ((LexDFA.states d).[s]) as [row|] eqn:Hrow; [|done].
    rewrite nthN_lookup in Hrow. apply list_elem_of_lookup_2 in Hrow.
    specialize (H row (proj1 (list_elem_of_In _ _) Hrow)). apply andb_true_iff in H as [_ H].
    rewrite forallb_forall in H. apply get_entry in Hstep as [k Hk].
    by apply N.ltb_lt, (H (k, t)), list_elem_of_In.
Qed.

Section step_all_spec.
Context (d : LexDFA.t) (Hclosed : closed_epsilon d) (Hbytes : closed_bytes d).

(** Over epsilon edges, the byte, and epsilon edges again. *)
Definition moves (states : list N) (byte t : N) : Prop :=
  ∃ s u v, s ∈ states ∧ rtc (epsilon d) s u ∧ LexDFA.step d u byte = Some v ∧ rtc (epsilon d) v t.

Lemma step_all_general_spec states byte :
  (∀ s, s ∈ states → s < LexDFA.num_states d) →
  ∃ l, step_all_general d states byte = Some l ∧ strictly_sorted l ∧ ∀ t, t ∈ l ↔ moves states byte t.
Proof using Hclosed Hbytes.
  intros Hs. unfold step_all_general.
  destruct (lex_closure_spec d states Hclosed) as (c & -> & _ & Hc). cbn [mbind option_bind].
  assert (Hu : ∀ v, v ∈ byte_targets d c byte ↔ ∃ s u, s ∈ states ∧ rtc (epsilon d) s u ∧ LexDFA.step d u byte = Some v).
  { intros v. unfold byte_targets. rewrite list_elem_of_omap. split.
    - intros (u & (s & Hin & _ & Hr)%Hc & Hv). by exists s, u.
    - intros (s & u & Hin & Hr & Hv). exists u. split; [|done]. apply Hc. exists s. split; [done|]. split; [by apply Hs|done]. }
  assert (Hfull : ∃ l, epsilon_closure d (dedup (sort_N (byte_targets d c byte))) = Some l ∧ strictly_sorted l ∧
    ∀ t, t ∈ l ↔ moves states byte t).
  { destruct (lex_closure_spec d (dedup (sort_N (byte_targets d c byte))) Hclosed) as (l & Hl & Hsort & He).
    exists l. split; [done|]. split; [done|]. intros t. rewrite He. destruct (dedup_sort_spec (byte_targets d c byte)) as [_ Hd].
    split.
    - intros (v & Hv & _ & Hr). apply Hd, Hu in Hv as (s & u & H1 & H2 & H3). by exists s, u, v.
    - intros (s & u & v & H1 & H2 & H3 & H4). exists v. split; [apply Hd, Hu; by exists s, u|]. split; [by eapply Hbytes|done]. }
  destruct (byte_targets d c byte) as [|v vs] eqn:E; [|exact Hfull].
  destruct Hfull as (l & Hl & Hsort & He). exists []. split; [done|]. split; [constructor|].
  intros t. rewrite <-He. cbn in Hl. injection Hl as <-. done.
Qed.

Lemma step_one_spec s byte :
  s < LexDFA.num_states d →
  ∃ r, step_one d s byte = Some r ∧
    match r with
    | Some l => strictly_sorted l ∧ ∀ t, t ∈ l ↔ moves [s] byte t
    | None => True
    end.
Proof using Hclosed Hbytes.
  intros Hs. unfold step_one. pose proof Hs as [row Hrow]%nthN_Some_lt. rewrite Hrow. cbn [mbind option_bind].
  destruct (LexState.epsilon_transitions row) eqn:Er; [|by eexists].
  assert (Hne : ∀ row s t, (LexDFA.states d).[s] = Some row → LexState.epsilon_transitions row = [] → rtc (epsilon d) s t → t = s).
  { intros row' s' t Hr' He' H. destruct (rtc_inv _ _ H) as [<-|(y & (row'' & Hr'' & Hy) & _)]; [done|].
    simplify_eq. rewrite He' in Hy. by apply elem_of_nil in Hy. }
  destruct (LexDFA.step d s byte) as [v|] eqn:Ev.
  - pose proof (Hbytes s byte v Ev) as [row' Hrow']%nthN_Some_lt. rewrite Hrow'. cbn [mbind option_bind].
    destruct (LexState.epsilon_transitions row') eqn:Er'; [|by eexists]. eexists. split; [done|].
    split; [apply strictly_sorted_singleton|]. intros t. rewrite list_elem_of_singleton. split.
    + intros ->. exists s, s, v. split; [by left|done].
    + intros (s' & u & v' & Hin%list_elem_of_singleton & Hr & Hv & Ht). subst s'.
      apply (Hne row) in Hr; [|done..]. subst u. simplify_eq. by apply (Hne row').
  - eexists. split; [done|]. split; [constructor|]. intros t. rewrite elem_of_nil. split; [done|].
    intros (s' & u & v' & Hin%list_elem_of_singleton & Hr & Hv & Ht). subst s'.
    apply (Hne row) in Hr; [|done..]. subst u. congruence.
Qed.
End step_all_spec.

(** [step_all] returns, for states of an automaton whose edges lead to
    states, the sorted set of the states reached over epsilon edges, one edge
    of the byte and epsilon edges again; the shortcut for one state without
    epsilon edges gives the same result. *)
Theorem step_all_correct (d : LexDFA.t) (states : list N) (byte : N) :
  closed_epsilon d → closed_bytes d → (∀ s, s ∈ states → s < LexDFA.num_states d) →
  ∃ l, step_all d states byte = Some l ∧ strictly_sorted l ∧
    ∀ t, t ∈ l ↔ ∃ s u v, s ∈ states ∧ rtc (epsilon d) s u ∧ LexDFA.step d u byte = Some v ∧ rtc (epsilon d) v t.
Proof.
  intros Hc Hb Hs. unfold step_all. destruct states as [|s [|s' states]]; [by apply step_all_general_spec| |by apply step_all_general_spec].
  destruct (step_one_spec d Hc Hb s byte (Hs s ltac:(by left))) as ([l|] & -> & Hl); cbn [mbind option_bind].
  - by exists l.
  - by apply step_all_general_spec.
Qed.

(** A diamond of epsilon edges above a byte edge back to the top. *)
Definition lex_diamond : LexDFA.t :=
  foldl (λ d e, LexDFA.add_epsilon_transition d e.1 e.2)
    (LexDFA.add_transition (LexDFA.new 4) 3 97 0) [(0, 1); (0, 2); (1, 3); (2, 3)].

Lemma epsilon_closure_correct_witness : epsilon_closure lex_diamond [2; 9] = Some [2; 3].
Proof.
  destruct (epsilon_closure_correct lex_diamond [2; 9]) as (l & Hl & _); [apply lex_closed_b_spec; vm_compute; reflexivity|].
  rewrite Hl. rewrite <-Hl. vm_compute. reflexivity.
Defined.

Lemma all_singleton_epsilon_closures_correct_witness :
  ∃ c, all_singleton_epsilon_closures lex_diamond = Some c ∧
    SingletonEpsilonClosures.get c 0 = Some (Some [0; 1; 2; 3]) ∧ SingletonEpsilonClosures.get c 4 = Some None.
Proof.
  destruct (all_singleton_epsilon_closures_correct lex_diamond) as (c & Hc & _ & Hget);
    [apply lex_closed_b_spec; vm_compute; reflexivity|vm_compute; discriminate|].
  exists c. split; [exact Hc|]. rewrite !Hget. split; vm_compute; reflexivity.
Defined.

Lemma step_all_correct_witness : ∃ l, step_all lex_diamond [0] 97 = Some l ∧ 3 ∈ l.
Proof.
  destruct (step_all_correct lex_diamond [0] 97) as (l & Hl & _ & He);
    [apply lex_closed_b_spec; vm_compute; reflexivity..| |].
  - intros s ->%list_elem_of_singleton. vm_compute. reflexivity.
  - exists l. split; [exact Hl|]. apply He. exists 0, 3, 0.
    assert (H01 : epsilon lex_diamond 0 1) by (eexists; split; [vm_compute; reflexivity|by left]).
    assert (H13 : epsilon lex_diamond 1 3) by (eexists; split; [vm_compute; reflexivity|by left]).
    split; [by left|]. split; [by eapply rtc_l, rtc_once|]. split; [vm_compute; reflexivity|by eapply rtc_l, rtc_once].
Defined.

(** ** Appending the tables of children *)

Section append.
Import SingletonEpsilonClosures.

(** A table that answers for each of its states. *)
Definition total (c : t) : Prop :=
  ∀ s, s < len c → ∃ l, get c s = Some (Some l) ∧ ∀ x, x ∈ l → x < len c.

(** Children at consecutive offsets. *)
Fixpoint placed (base : N) (children : list (t * N * N)) : Prop :=
  match children with
  | [] => base ≤ u32_max
  | (child, state_offset, child_start) :: children =>
      state_offset = base ∧ total child ∧ child_start < len child ∧ placed (base + len child) children
  end.

Definition row (c : t) (s : N) : list N := match get c s with Some (Some l) => l | _ => [] end.
Definition shifted (off : N) (l : list N) : list N := N.add off <$> l.

(** The states that the start of the parent gains. *)
Definition start_rows (children : list (t * N * N)) : list N :=
  '(child, state_offset, child_start) ← children; shifted state_offset (row child child_start).

Lemma total_row c s : total c → s < len c → get c s = Some (Some (row c s)) ∧ ∀ x, x ∈ row c s → x < len c.
Proof. intros Hc Hs. destruct (Hc s Hs) as (l & Hl & Hx). unfold row. by rewrite Hl. Qed.

Lemma placed_bound base children : placed base children → base ≤ u32_max.
Proof.
  revert base. induction children as [|[[child off] st] children IH]; intros base; [done|].
  intros (_ & _ & _ & H). apply IH in H. lia.
Qed.

Lemma saturating_shift off l (m : N) :
  off + m ≤ u32_max → (∀ x, x ∈ l → x < m) → u32_saturating_add off <$> l = shifted off l.
Proof.
  intros Hm Hl. apply list_fmap_ext. intros i x Hx. apply list_elem_of_lookup_2, Hl in Hx.
  unfold u32_saturating_add. lia.
Qed.

(** The override of a state of a child. *)
Definition child_override (child : t) (off s : N) : option (list N) :=
  if bool_decide (row child s = [s]) then None else Some (shifted off (row child s)).

Lemma rebase_overrides_spec child off ovs locals :
  total child → off + len child ≤ u32_max → (∀ s, s ∈ locals → s < len child) →
  rebase_overrides child off ovs locals = Some (Some (ovs ++ (child_override child off <$> locals))).
Proof.
  intros Hc Hoff. revert ovs. induction locals as [|s locals IH]; intros ovs Hl; cbn [rebase_overrides].
  { by rewrite app_nil_r. }
  assert (Hs : s < len child) by (apply Hl; by left). destruct (total_row child s Hc Hs) as [Hget Hx].
  unfold rebase_override. rewrite Hget. cbn [mbind option_bind].
  rewrite IH by (intros; apply Hl; by right). rewrite fmap_cons, <-app_assoc. do 4 f_equal. cbn [app]. f_equal.
  unfold child_override. rewrite as_u32_small by (change u32_modulus with (u32_max + 1); lia).
  destruct (bool_decide _); [done|]. f_equal. by eapply saturating_shift.
Qed.

Lemma seqN_rangeN a b : seqN (N.to_nat a) ++ rangeN a (a + b) = seqN (N.to_nat (a + b)).
Proof.
  rewrite N2Nat.inj_add, seqN_app. f_equal. unfold rangeN, seqN. replace (a + b - a) with b by lia.
  replace (seq (N.to_nat a) (N.to_nat b)) with (Nat.add (N.to_nat a) <$> seq 0 (N.to_nat b))
    by (rewrite fmap_add_seq; f_equal; lia).
  rewrite <-!list_fmap_compose. apply list_fmap_ext. intros i x _. simpl. lia.
Qed.

(** What the loop over the children appends. *)
Lemma append_children_spec children base ovs merged :
  placed base children → lenN ovs = base →
  ∃ more, append_children children (seqN (N.to_nat base)) ovs merged =
      Some (Some (seqN (N.to_nat (base + lenN more)), ovs ++ more, merged ++ start_rows children)) ∧
    base + lenN more ≤ u32_max ∧
    ∀ child off st s, (child, off, st) ∈ children → s < len child →
      base ≤ off ∧ (ovs ++ more).[off + s] = Some (child_override child off s) ∧ off + s < base + lenN more.
Proof.
  revert base ovs merged. induction children as [|[[child off] st] children IH]; intros base ovs merged Hp Hovs.
  { exists []. cbn [append_children]. rewrite N.add_0_r, !app_nil_r. split; [done|]. split; [done|].
    intros child off st s Hin. by apply elem_of_nil in Hin. }
  cbn [placed] in Hp. destruct Hp as (-> & Hc & Hst & Hp). pose proof (placed_bound _ _ Hp) as Hb.
  cbn [append_children]. unfold lenN at 1. rewrite length_seqN, N2Nat.id, N.eqb_refl. cbn [negb].
  replace (u32_saturating_add base (as_u32 (len child))) with (base + len child).
  2:{ unfold u32_saturating_add. rewrite as_u32_small by (change u32_modulus with (u32_max + 1); lia). lia. }
  rewrite seqN_rangeN, rebase_overrides_spec; [|done|done|].
  2:{ intros s Hs%elem_of_seqN. lia. }
  destruct (total_row child st Hc Hst) as [Hget Hx]. cbn [mbind option_bind]. rewrite Hget. cbn [mbind option_bind].
  set (mid := child_override child base <$> seqN (N.to_nat (len child))).
  assert (Hmid : lenN mid = len child) by (unfold mid, lenN; rewrite length_fmap, length_seqN; lia).
  destruct (IH (base + len child) (ovs ++ mid) (merged ++ (u32_saturating_add base <$> row child st)) Hp)
    as (more & -> & Hle & Hrows); [rewrite lenN_app; lia|].
  exists (mid ++ more). rewrite lenN_app, Hmid, <-!app_assoc, N.add_assoc.
  rewrite (saturating_shift base (row child st) (len child)) by (done || lia).
  split; [done|]. split; [done|]. intros child' off' st' s [Heq|Hin]%elem_of_cons Hs.
  - injection Heq as -> -> ->. split; [done|]. split; [|lia].
    rewrite app_assoc, nthN_app_l by (rewrite lenN_app; lia).
    rewrite nthN_lookup, lookup_app_r by (unfold lenN in Hovs; lia).
    replace (N.to_nat (base + s) - length ovs)%nat with (N.to_nat s) by (unfold lenN in Hovs; lia).
    rewrite <-nthN_lookup. unfold mid. rewrite nthN_fmap, nthN_seqN, N2Nat.id.
    by rewrite (proj2 (N.ltb_lt _ _) Hs).
  - destruct (Hrows child' off' st' s Hin Hs) as (H1 & H2 & H3). rewrite <-app_assoc in H2. split; [lia|]. by split.
Qed.

Lemma get_identity m ovs s o :
  ovs.[s] = Some o → s < m →
  get (IdentityWithOverrides (seqN (N.to_nat m)) ovs) s = Some (Some (default [s] o)).
Proof.
  intros Ho Hs. cbn [get]. unfold lenN. rewrite length_seqN, N2Nat.id.
  destruct (N.leb_spec m s); [lia|]. rewrite Ho. cbn [mbind option_bind]. destruct o; [done|].
  rewrite nthN_seqN, N2Nat.id. by rewrite (proj2 (N.ltb_lt _ _) Hs).
Qed.
End append.

(** Appending the tables of children placed at consecutive offsets keeps the
    rows of the parent other than that of its start state, gives each child
    state its own row moved by the offset, and makes the row of the start
    state the sorted union of its old row and of the moved rows of the
    children's start states. *)
Theorem append_rebased_children_correct (overrides : list (option (list N))) (parent_start : N)
    (children : list (SingletonEpsilonClosures.t * N * N)) :
  let parent := SingletonEpsilonClosures.IdentityWithOverrides (seqN (length overrides)) overrides in
  parent_start < lenN overrides → placed (lenN overrides) children →
  ∃ c, SingletonEpsilonClosures.append_rebased_children parent parent_start children = Some (Some c) ∧
    (∀ s, s < lenN overrides → s ≠ parent_start →
       SingletonEpsilonClosures.get c s = SingletonEpsilonClosures.get parent s) ∧
    (∀ child off st s, (child, off, st) ∈ children → s < SingletonEpsilonClosures.len child →
       SingletonEpsilonClosures.get c (off + s) = Some (Some (shifted off (row child s)))) ∧
    ∃ l, SingletonEpsilonClosures.get c parent_start = Some (Some l) ∧ strictly_sorted l ∧
      ∀ x, x ∈ l ↔ x ∈ row parent parent_start ∨ x ∈ start_rows children.
Proof.
  intros parent Hps Hplaced. unfold parent.
  replace (length overrides) with (N.to_nat (lenN overrides)) by (unfold lenN; lia).
  set (P := lenN overrides) in *. cbn [SingletonEpsilonClosures.append_rebased_children].
  unfold lenN at 1. rewrite length_seqN, N2Nat.id. destruct (N.leb_spec P parent_start); [lia|].
  pose proof Hps as [o Ho]%nthN_Some_lt. rewrite Ho. cbn [mbind option_bind].
  rewrite nthN_seqN, N2Nat.id, (proj2 (N.ltb_lt _ _) Hps). cbn [mbind option_bind].
  destruct (append_children_spec children P overrides (default [parent_start] o) Hplaced eq_refl)
    as (more & -> & Hle & Hrows). cbn [mbind option_bind].
  eexists. split; [done|]. split; [|split].
  - intros s Hs Hne. pose proof Hs as [os Hos]%nthN_Some_lt. rewrite (get_identity P overrides s os) by done.
    apply get_identity; [|lia]. rewrite nthN_alterN. destruct (N.eqb_spec s parent_start); [done|].
    by rewrite nthN_app_l.
  - intros child off st s Hin Hs. destruct (Hrows child off st s Hin Hs) as (Hoff & Hov & Hlt).
    rewrite (get_identity _ _ _ (child_override child off s)); [|rewrite nthN_alterN; destruct (N.eqb_spec (off + s) parent_start); [lia|done]|done].
    unfold child_override. case_bool_decide as Hr; [|done]. by rewrite Hr.
  - rewrite (get_identity _ _ _ (Some (dedup (sort_N (default [parent_start] o ++ start_rows children)))));
      [|rewrite nthN_alterN, N.eqb_refl, nthN_app_l by done; by rewrite Ho|lia].
    eexists. split; [done|]. destruct (dedup_sort_spec (default [parent_start] o ++ start_rows children)) as [Hsd Hd].
    split; [done|]. intros x. rewrite Hd, elem_of_app. unfold row at 1.
    by rewrite (get_identity P overrides parent_start o).
Qed.

Lemma append_rebased_children_correct_witness :
  ∃ c, SingletonEpsilonClosures.append_rebased_children
      (SingletonEpsilonClosures.IdentityWithOverrides [0; 1] [None; None]) 0
      [(SingletonEpsilonClosures.Dense [[0; 1]; [1]], 2, 0)] = Some (Some c) ∧
    SingletonEpsilonClosures.get c 1 = Some (Some [1]) ∧ SingletonEpsilonClosures.get c 2 = Some (Some [2; 3]).
Proof.
  destruct (append_rebased_children_correct [None; None] 0 [(SingletonEpsilonClosures.Dense [[0; 1]; [1]], 2, 0)])
    as (c & Hc & Hparent & Hchild & _).
  - vm_compute. reflexivity.
  - cbn [placed]. split; [reflexivity|]. split; [|split; [vm_compute; reflexivity|vm_compute; discriminate]].
    intros s Hs. change (s < 2) in Hs. assert (s = 0 ∨ s = 1) as [->| ->] by lia.
    + exists [0; 1]. split; [reflexivity|]. intros x [->|[->|Hx%elem_of_nil]%elem_of_cons]%elem_of_cons; [reflexivity..|done].
    + exists [1]. split; [reflexivity|]. intros x ->%list_elem_of_singleton. reflexivity.
  - exists c. split; [exact Hc|]. split.
    + rewrite Hparent; [reflexivity|reflexivity|discriminate].
    + exact (Hchild _ 2 0 0 ltac:(by left) ltac:(reflexivity)).
Defined.
