(* ===== verification/LexWire.v ===== *)
(** The persisted form of the byte automaton
    (crates/glrmask-lexer/src/automata/lexer/dfa.rs): the historical wire shape,
    with epsilon edges encoded as validated synthetic trailing states.

    The byte format under the sequence of wire states belongs to serde and is
    not modelled: a serialized automaton is the sequence of its wire states. *)

From stdpp Require Import strings.
From S2P Require Import Prelude Bits U8Set BitSet CharTransitions LexDfa LexCache.

(** [Result<A, &'static str>], an error on the left. *)
Definition result (A : Type) : Type := string + A.

Definition result_bind {A B} (r : result A) (f : A → result B) : result B :=
  match r with inl e => inl e | inr x => f x end.
Notation "x <- r ;; k" := (result_bind r (λ x, k)) (at level 100, r at next level, right associativity) : rust_scope.

(** A loop that leaves at the first error. *)
Fixpoint foldE {A B} (f : B → A → result B) (b : B) (l : list A) : result B :=
  match l with
  | [] => inr b
  | x :: l => b <- f b x ;; foldE f b l
  end.

Definition ok_or {A} (o : option A) (e : string) : result A := match o with Some x => inr x | None => inl e end.

Definition EPSILON_WIRE_MARKER : N := u32_max.
Definition EPSILON_WIRE_EDGE : N := 0x45505345.
Definition EPSILON_WIRE_TRAILER : N := 0x45505354.
Definition EPSILON_TARGETS_PER_WIRE_STATE : nat := 253.

Module DfaStateWire.
Record t := mk {
  transitions : CharTransitions.t N;
  finalizers : BitSet.t;
  possible_future_group_ids : BitSet.t;
}.

Definition from_state (s : LexState.t) : t :=
  mk (LexState.transitions s) (LexState.finalizers s) (LexState.possible_future_group_ids s).
Definition to_state (w : t) : LexState.t :=
  LexState.mk (transitions w) (finalizers w) (possible_future_group_ids w) [].
End DfaStateWire.

Module DfaWire.
Record t := mk { states : list DfaStateWire.t; group_id_to_u8set : list U8Set.t }.
End DfaWire.

Definition epsilon_wire_state (entries : list (N * N)) : DfaStateWire.t :=
  DfaStateWire.mk (CharTransitions.from_sorted_entries entries) (BitSet.new 0) (BitSet.new 0).

(** * Writing *)

(** [v.chunks(k)]; the fuel is the length of the vector. *)
Fixpoint chunks_fuel {A} (k fuel : nat) (l : list A) : list (list A) :=
  match fuel with
  | O => []
  | S fuel => match l with [] => [] | _ => take k l :: chunks_fuel k fuel (drop k l) end
  end.
Definition chunks {A} (k : nat) (l : list A) : list (list A) := chunks_fuel k (length l) l.

Definition as_u8 (x : N) : N := x mod 256.

Definition edge_state (source : N) (targets : list N) : DfaStateWire.t :=
  epsilon_wire_state
    ([(0, EPSILON_WIRE_MARKER); (1, EPSILON_WIRE_EDGE); (2, as_u32 source)]
     ++ ((λ '(index, target), (as_u8 (index + 3), target)) <$> enumerate targets)).

Definition metadata_states (d : LexDFA.t) : list DfaStateWire.t :=
  '(source, state) ← enumerate (LexDFA.states d);
  edge_state source <$> chunks EPSILON_TARGETS_PER_WIRE_STATE (LexState.epsilon_transitions state).

Definition trailer_state (real_states metadata_state_count : N) : DfaStateWire.t :=
  epsilon_wire_state
    [(0, EPSILON_WIRE_MARKER); (1, EPSILON_WIRE_TRAILER); (2, as_u32 real_states); (3, as_u32 metadata_state_count)].

Definition wire_states (d : LexDFA.t) (metadata_state_count : N) : list DfaStateWire.t :=
  (DfaStateWire.from_state <$> LexDFA.states d) ++ metadata_states d ++
  (if metadata_state_count =? 0 then [] else [trailer_state (lenN (LexDFA.states d)) metadata_state_count]).

(** [len.div_ceil(253)] *)
Definition chunk_count (len : N) : N := (len + 252) / 253.

Definition serialize (d : LexDFA.t) : result DfaWire.t :=
  if existsb (λ target, target =? EPSILON_WIRE_MARKER)
       (s ← LexDFA.states d; CharTransitions.values (LexState.transitions s))
  then inl "lexer DFA contains the reserved dead transition target"%string
  else
    let metadata_state_count :=
      foldl N.add 0 ((λ s, chunk_count (lenN (LexState.epsilon_transitions s))) <$> LexDFA.states d) in
    inr (DfaWire.mk (wire_states d metadata_state_count) (LexDFA.group_id_to_u8set d)).

(** * Reading *)

Definition epsilon_wire_trailer (state : DfaStateWire.t) : result (option (N * N)) :=
  let tr := DfaStateWire.transitions state in
  let marker := bool_decide (CharTransitions.get tr 0 = Some EPSILON_WIRE_MARKER) in
  let trailer := bool_decide (CharTransitions.get tr 1 = Some EPSILON_WIRE_TRAILER) in
  if negb marker || negb trailer then inr None
  else if negb (BitSet.is_empty (DfaStateWire.finalizers state))
          || negb (BitSet.is_empty (DfaStateWire.possible_future_group_ids state))
          || negb (CharTransitions.len tr =? 4)
  then inl "malformed lexer epsilon metadata trailer"%string
  else
    real_states <- ok_or (CharTransitions.get tr 2) "lexer epsilon metadata trailer omitted real-state count"%string ;;
    metadata_states <- ok_or (CharTransitions.get tr 3) "lexer epsilon metadata trailer omitted metadata-state count"%string ;;
    inr (Some (real_states, metadata_states)).

(** The edges read so far, the targets seen of each source, the number of
    targets in the state. *)
Record reading := Reading { epsilon_rows : list (list N); seen_targets : list (gset N); targets_in_state : N }.

Definition read_target (real_state_count source : N) (r : reading) (e : N * (N * N)) : result reading :=
  let '(index, (byte, target)) := e in
  if negb (byte =? index + 3) then inl "lexer epsilon metadata target slots are not contiguous"%string
  else if real_state_count <=? target then inl "lexer epsilon metadata target is out of range"%string
  else
    let seen := default ∅ (seen_targets r).[source] in
    if bool_decide (target ∈ seen) then inl "lexer epsilon metadata contains a duplicate edge"%string
    else
      inr (Reading (alterN (λ row, row ++ [target]) (epsilon_rows r) source)
                   (alterN (λ seen, {[target]} ∪ seen) (seen_targets r) source)
                   (targets_in_state r + 1)).

Definition read_state (real_state_count : N) (r : reading) (state : DfaStateWire.t) : result reading :=
  let tr := DfaStateWire.transitions state in
  if negb (BitSet.is_empty (DfaStateWire.finalizers state))
     || negb (BitSet.is_empty (DfaStateWire.possible_future_group_ids state))
     || (CharTransitions.len tr <? 4)
     || negb (bool_decide (CharTransitions.get tr 0 = Some EPSILON_WIRE_MARKER))
     || negb (bool_decide (CharTransitions.get tr 1 = Some EPSILON_WIRE_EDGE))
  then inl "malformed lexer epsilon metadata state"%string
  else
    source <- ok_or (CharTransitions.get tr 2) "lexer epsilon metadata omitted source state"%string ;;
    if real_state_count <=? source then inl "lexer epsilon metadata source is out of range"%string
    else
      r <- foldE (read_target real_state_count source) (Reading (epsilon_rows r) (seen_targets r) 0)
             (enumerate (drop 3 (CharTransitions.iter tr))) ;;
      if targets_in_state r =? 0 then inl "lexer epsilon metadata state contains no targets"%string
      else inr r.

(** The real states and, when a trailer was found, their epsilon edges. *)
Definition decode_epsilon_wire_states (states : list DfaStateWire.t)
    : result (list DfaStateWire.t * option (list (list N))) :=
  match last states with
  | None => inr (states, None)
  | Some last =>
      trailer <- epsilon_wire_trailer last ;;
      match trailer with
      | None => inr (states, None)
      | Some (real_state_count, metadata_state_count) =>
          if (metadata_state_count =? 0)
             || negb (real_state_count + metadata_state_count + 1 =? lenN states)
          then inl "lexer epsilon metadata counts do not match serialized state count"%string
          else
            let real := N.to_nat real_state_count in
            r <- foldE (read_state real_state_count)
                   (Reading (replicate real []) (replicate real ∅) 0)
                   (take (N.to_nat metadata_state_count) (drop real states)) ;;
            inr (take real states, Some (epsilon_rows r))
      end
  end.

Definition deserialize (wire : DfaWire.t) : result LexDFA.t :=
  decoded <- decode_epsilon_wire_states (DfaWire.states wire) ;;
  let '(wire_states, epsilon_transitions) := decoded in
  let states := DfaStateWire.to_state <$> wire_states in
  let states :=
    match epsilon_transitions with
    | Some rows => zip_with (λ s row, LexState.set_epsilon (λ _, row) s) states rows
    | None => states
    end in
  inr (LexDFA.fresh states (DfaWire.group_id_to_u8set wire)).

(** * The round trip *)

Lemma foldE_app {A B} (f : B → A → result B) b l k :
  foldE f b (l ++ k) = (b' <- foldE f b l ;; foldE f b' k).
Proof. revert b. induction l as [|x l IH]; intros b; [done|]. simpl. destruct (f b x); simpl; [done|apply IH]. Qed.

Lemma concat_chunks {A} k fuel (l : list A) : (length l ≤ fuel)%nat → (0 < k)%nat → concat (chunks_fuel k fuel l) = l.
Proof.
  intros Hl Hk. revert l Hl. induction fuel as [|fuel IH]; intros [|x l] Hl; try done; [simpl in Hl; lia|].
  cbn [chunks_fuel concat]. rewrite IH, take_drop; [done|]. rewrite length_drop. simpl in *. lia.
Qed.

Lemma chunks_size {A} k fuel (l c : list A) :
  (length l ≤ fuel)%nat → (0 < k)%nat → c ∈ chunks_fuel k fuel l → (0 < length c ≤ k)%nat.
Proof.
  intros Hl Hk. revert l Hl. induction fuel as [|fuel IH]; intros [|x l] Hl; cbn [chunks_fuel]; try by intros ?%elem_of_nil.
  intros [->|Hc]%elem_of_cons.
  - rewrite length_take. simpl. lia.
  - apply (IH (drop k (x :: l))); [rewrite length_drop; simpl in *; lia|done].
Qed.

Lemma length_chunks {A} fuel (l : list A) :
  (length l ≤ fuel)%nat → lenN (chunks_fuel 253 fuel l) = chunk_count (lenN l).
Proof.
  revert l. induction fuel as [|fuel IH]; intros [|x l] Hl; try done; [simpl in Hl; lia|].
  cbn [chunks_fuel]. unfold lenN at 1. cbn [length]. rewrite Nat2N.inj_succ.
  change (N.of_nat (length ?z)) with (lenN z). rewrite IH by (rewrite length_drop; simpl in *; lia).
  unfold chunk_count, lenN. rewrite length_drop. simpl length in *.
  destruct (decide (S (length l) ≤ 253)%nat) as [Hle|Hgt].
  - replace (S (length l) - 253)%nat with 0%nat by lia. change ((N.of_nat 0 + 252) / 253) with 0.
    change (N.succ 0) with 1. apply (N.div_unique _ _ _ (N.of_nat (S (length l)) - 1)); lia.
  - replace (N.of_nat (S (length l)) + 252) with (N.of_nat (S (length l) - 253) + 252 + 1 * 253) by lia.
    rewrite N.div_add by lia. lia.
Qed.

(** The sets of seen targets are those of the rows. *)
Definition consistent (r : reading) : Prop := seen_targets r = list_to_set <$> epsilon_rows r.

Definition extend_row (r : reading) (source : N) (ts : list N) : list (list N) :=
  alterN (λ row, row ++ ts) (epsilon_rows r) source.

Lemma alterN_ext {A} (f g : A → A) l i : (∀ x, l.[i] = Some x → f x = g x) → alterN f l i = alterN g l i.
Proof.
  intros H. apply nthN_ext. intros j. rewrite !nthN_alterN. destruct (N.eqb_spec j i) as [->|]; [|done].
  destruct l.[i] eqn:E; [simpl; by rewrite H|done].
Qed.

Lemma alterN_compose {A} (f g : A → A) l i : alterN g (alterN f l i) i = alterN (λ x, g (f x)) l i.
Proof.
  apply nthN_ext. intros j. rewrite !nthN_alterN. destruct (N.eqb_spec j i) as [->|]; [|done]. by destruct l.[i].
Qed.

Lemma read_targets_spec n source r row ts :
  (epsilon_rows r).[source] = Some row → consistent r → (length ts ≤ 253)%nat →
  NoDup (row ++ ts) → (∀ t, t ∈ ts → t < n) →
  ∃ r', foldE (read_target n source) r (enumerate ((λ '(index, target), (as_u8 (index + 3), target)) <$> enumerate ts)) = inr r' ∧
    consistent r' ∧ epsilon_rows r' = extend_row r source ts ∧ targets_in_state r' = targets_in_state r + lenN ts.
Proof.
  intros Hrow Hc. induction ts as [|t ts IH] using rev_ind; intros Hlen Hnd Hts.
  - exists r. split; [done|]. split; [done|]. split; [|by rewrite N.add_0_r].
    unfold extend_row. apply nthN_ext. intros i. rewrite nthN_alterN. destruct (N.eqb_spec i source); [subst|done].
    rewrite Hrow. simpl. by rewrite app_nil_r.
  - rewrite length_app in Hlen. simpl in Hlen. rewrite app_assoc in Hnd. pose proof Hnd as (Hnd1 & Hd & _)%NoDup_app.
    destruct IH as (r1 & H1 & Hc1 & Hr1 & Ht1); [lia|done|intros; apply Hts; set_solver|].
    rewrite enumerate_snoc, fmap_app, fmap_cons, fmap_nil, enumerate_snoc, foldE_app, H1. cbn [result_bind foldE].
    unfold lenN at 1. rewrite length_fmap. unfold enumerate at 1. rewrite length_imap. change (N.of_nat (length ts)) with (lenN ts).
    unfold read_target.
    assert (Hb : as_u8 (lenN ts + 3) = lenN ts + 3) by (apply N.mod_small; unfold lenN; lia).
    rewrite Hb, N.eqb_refl. cbn [negb]. specialize (Hts t ltac:(set_solver)).
    destruct (N.leb_spec n t); [lia|].
    assert (Hrow1 : (epsilon_rows r1).[source] = Some (row ++ ts)).
    { rewrite Hr1. unfold extend_row. rewrite nthN_alterN, N.eqb_refl, Hrow. done. }
    assert (Hseen : (seen_targets r1).[source] = Some (list_to_set (row ++ ts))) by (rewrite Hc1, nthN_fmap, Hrow1; done).
    rewrite Hseen. cbn [default from_option id]. rewrite bool_decide_eq_false_2.
    2:{ intros Hin%elem_of_list_to_set. apply (Hd t Hin). by left. }
    eexists. split; [done|]. unfold consistent, extend_row. cbn [seen_targets epsilon_rows targets_in_state].
    split; [|split; [|rewrite Ht1, lenN_app; unfold lenN; simpl; lia]].
    + rewrite Hc1. apply nthN_ext. intros i. rewrite nthN_alterN, !nthN_fmap, nthN_alterN.
      destruct (N.eqb_spec i source); [subst i|done]. rewrite Hrow1. simpl. f_equal. apply set_eq. set_solver.
    + rewrite Hr1. unfold extend_row. rewrite alterN_compose. apply alterN_ext. intros x _. by rewrite app_assoc.
Qed.

Lemma read_edge_state n source r row ts :
  source < n → n < u32_modulus → (epsilon_rows r).[source] = Some row → consistent r →
  (0 < length ts ≤ 253)%nat → NoDup (row ++ ts) → (∀ t, t ∈ ts → t < n) →
  ∃ r', read_state n r (edge_state source ts) = inr r' ∧ consistent r' ∧ epsilon_rows r' = extend_row r source ts.
Proof.
  intros Hs Hn Hrow Hc Hlen Hnd Hts.
  destruct (read_targets_spec n source (Reading (epsilon_rows r) (seen_targets r) 0) row ts)
    as (r' & Hread & Hc' & Hr' & Ht); [done|done|lia|done|done|].
  exists r'. split; [|done]. unfold read_state. cbn [edge_state epsilon_wire_state DfaStateWire.transitions DfaStateWire.finalizers
    DfaStateWire.possible_future_group_ids].
  change (BitSet.is_empty (BitSet.new 0)) with true. cbn [negb orb].
  unfold CharTransitions.len, CharTransitions.from_sorted_entries. cbn [CharTransitions.entries].
  rewrite lenN_app, lenN_fmap. unfold enumerate at 1. unfold lenN at 2. rewrite length_imap.
  destruct (N.ltb_spec (lenN [(0, EPSILON_WIRE_MARKER); (1, EPSILON_WIRE_EDGE); (2, as_u32 source)] + N.of_nat (length ts)) 4) as [Hlt|_];
    [unfold lenN in Hlt; simpl length in Hlt; lia|].
  cbn [CharTransitions.get CharTransitions.entry_index CharTransitions.entries app CharTransitions.search].
  cbn [N.eqb lookup list_lookup fmap option_fmap option_map snd].
  rewrite !bool_decide_eq_true_2 by done. cbn [negb orb ok_or result_bind].
  change (CharTransitions.get _ 2) with (Some (as_u32 source)). cbn [ok_or result_bind].
  rewrite as_u32_small by lia. destruct (N.leb_spec n source); [lia|].
  cbn [CharTransitions.iter CharTransitions.entries drop].
  rewrite drop_0, Hread. cbn [result_bind].
  rewrite Ht. cbn [targets_in_state]. destruct (N.eqb_spec (0 + lenN ts) 0) as [Hz|]; [unfold lenN in Hz; lia|done].
Qed.

Lemma read_chunks n source r row fuel ts :
  source < n → n < u32_modulus → (length ts ≤ fuel)%nat → (epsilon_rows r).[source] = Some row → consistent r →
  NoDup (row ++ ts) → (∀ t, t ∈ ts → t < n) →
  ∃ r', foldE (read_state n) r (edge_state source <$> chunks_fuel EPSILON_TARGETS_PER_WIRE_STATE fuel ts) = inr r' ∧
    consistent r' ∧ epsilon_rows r' = extend_row r source ts.
Proof.
  intros Hs Hn. revert r row ts. induction fuel as [|fuel IH]; intros r row ts Hl Hrow Hc Hnd Hts.
  - destruct ts as [|t ts]; [|simpl in Hl; lia]. exists r. split; [done|]. split; [done|].
    unfold extend_row. rewrite (alterN_ext _ id); [|intros x _; apply app_nil_r].
    apply nthN_ext. intros i. rewrite nthN_alterN. by destruct (i =? source), (epsilon_rows r).[i].
  - destruct ts as [|t ts].
    { exists r. split; [done|]. split; [done|]. unfold extend_row. rewrite (alterN_ext _ id); [|intros x _; apply app_nil_r].
      apply nthN_ext. intros i. rewrite nthN_alterN. by destruct (i =? source), (epsilon_rows r).[i]. }
    cbn [chunks_fuel]. rewrite fmap_cons. cbn [foldE]. set (k := EPSILON_TARGETS_PER_WIRE_STATE).
    set (all := t :: ts) in *. assert (Hsplit : all = take k all ++ drop k all) by by rewrite take_drop.
    rewrite Hsplit, app_assoc in Hnd. pose proof Hnd as (Hnd1 & _ & _)%NoDup_app.
    destruct (read_edge_state n source r row (take k all)) as (r1 & H1 & Hc1 & Hr1); [done..| |done| |].
    { unfold all, k. rewrite length_take. cbn [length]. unfold EPSILON_TARGETS_PER_WIRE_STATE. lia. }
    { intros x Hx. apply Hts. rewrite Hsplit. set_solver. }
    rewrite H1. cbn [result_bind].
    destruct (IH r1 (row ++ take k all) (drop k all)) as (r2 & H2 & Hc2 & Hr2).
    + rewrite length_drop. unfold all, k. cbn [length] in *. unfold EPSILON_TARGETS_PER_WIRE_STATE. unfold all in Hl. simpl in Hl. lia.
    + rewrite Hr1. unfold extend_row. by rewrite nthN_alterN, N.eqb_refl, Hrow.
    + done.
    + done.
    + intros x Hx. apply Hts. rewrite Hsplit. set_solver.
    + exists r2. split; [done|]. split; [done|]. rewrite Hr2. unfold extend_row. rewrite Hr1. unfold extend_row.
      rewrite alterN_compose. apply alterN_ext. intros x _. by rewrite <-app_assoc, <-Hsplit.
Qed.

(** The metadata of a list of states. *)
Definition metadata_of (l : list LexState.t) : list DfaStateWire.t :=
  '(source, state) ← enumerate l;
  edge_state source <$> chunks EPSILON_TARGETS_PER_WIRE_STATE (LexState.epsilon_transitions state).

Lemma metadata_of_snoc l s :
  metadata_of (l ++ [s]) = metadata_of l ++
    (edge_state (lenN l) <$> chunks EPSILON_TARGETS_PER_WIRE_STATE (LexState.epsilon_transitions s)).
Proof. unfold metadata_of. rewrite enumerate_snoc, bind_app. f_equal. apply app_nil_r. Qed.

Lemma length_metadata_of l :
  lenN (metadata_of l) = foldl N.add 0 ((λ s, chunk_count (lenN (LexState.epsilon_transitions s))) <$> l).
Proof.
  induction l as [|s l IH] using rev_ind; [done|].
  rewrite metadata_of_snoc, lenN_app, IH, fmap_app, foldl_app, lenN_fmap. simpl. f_equal. by apply length_chunks.
Qed.

(** Reading the metadata of the states back, one source after the other. *)
Lemma read_metadata n l :
  n < u32_modulus → lenN l ≤ n →
  Forall (λ s, NoDup (LexState.epsilon_transitions s) ∧ ∀ t, t ∈ LexState.epsilon_transitions s → t < n) l →
  ∃ r, foldE (read_state n) (Reading (replicate (N.to_nat n) []) (replicate (N.to_nat n) ∅) 0) (metadata_of l) = inr r ∧
    consistent r ∧ epsilon_rows r = (LexState.epsilon_transitions <$> l) ++ replicate (N.to_nat (n - lenN l)) [].
Proof.
  intros Hn. induction l as [|s l IH] using rev_ind; intros Hl Hok.
  - exists (Reading (replicate (N.to_nat n) []) (replicate (N.to_nat n) ∅) 0). split; [done|]. split.
    + unfold consistent. cbn [seen_targets epsilon_rows]. by rewrite fmap_replicate.
    + cbn [epsilon_rows]. change (lenN []) with 0. by rewrite N.sub_0_r.
  - apply Forall_app in Hok as [Hok [[Hnd Ht] _]%Forall_cons]. rewrite lenN_snoc in Hl.
    destruct (IH ltac:(lia) Hok) as (r & Hr & Hc & Hrows).
    rewrite metadata_of_snoc, foldE_app, Hr. cbn [result_bind].
    assert (Hrep : replicate (N.to_nat (n - lenN l)) ([] : list N) = [] :: replicate (N.to_nat (n - (lenN l + 1))) []).
    { replace (N.to_nat (n - lenN l)) with (S (N.to_nat (n - (lenN l + 1)))) by lia. done. }
    assert (Hlen : length (LexState.epsilon_transitions <$> l) = N.to_nat (lenN l)) by (rewrite length_fmap; unfold lenN; lia).
    destruct (read_chunks n (lenN l) r [] (length (LexState.epsilon_transitions s)) (LexState.epsilon_transitions s))
      as (r' & Hr' & Hc' & Hrows'); [lia|done|done| |done|done|done|].
    { rewrite Hrows, Hrep, nthN_lookup, <-Hlen. by apply list_lookup_middle. }
    exists r'. split; [exact Hr'|]. split; [done|]. rewrite Hrows'. unfold extend_row. rewrite Hrows, Hrep, alterN_alter, <-Hlen.
    rewrite CharTransitionsFacts.list_alter_middle, fmap_app, lenN_snoc, <-app_assoc. done.
Qed.

(** What the writer relies on: indices and counts fit the wire integers, and
    epsilon rows are duplicate-free lists of states. *)
Record wire_ok (d : LexDFA.t) : Prop := {
  wire_num_states : LexDFA.num_states d < u32_modulus;
  wire_metadata : lenN (metadata_of (LexDFA.states d)) < u32_modulus;
  wire_rows : Forall (λ s, NoDup (LexState.epsilon_transitions s) ∧
    ∀ t, t ∈ LexState.epsilon_transitions s → t < LexDFA.num_states d) (LexDFA.states d);
}.

Definition reserved_target (d : LexDFA.t) : Prop :=
  ∃ s, s ∈ LexDFA.states d ∧ EPSILON_WIRE_MARKER ∈ CharTransitions.values (LexState.transitions s).

Lemma serialize_spec d :
  (reserved_target d ∧ ∃ e, serialize d = inl e) ∨
  (¬ reserved_target d ∧
   serialize d = inr (DfaWire.mk (wire_states d (lenN (metadata_of (LexDFA.states d)))) (LexDFA.group_id_to_u8set d))).
Proof.
  unfold serialize. rewrite <-length_metadata_of.
  destruct (existsb _ _) eqn:E.
  - left. split; [|by eexists]. apply existsb_exists in E as (x & Hx%list_elem_of_In & ->%N.eqb_eq).
    apply list_elem_of_bind in Hx as (s & Hx & Hs). by exists s.
  - right. split; [|done]. intros (s & Hs & Hm).
    assert (existsb (λ target, target =? EPSILON_WIRE_MARKER)
      (s ← LexDFA.states d; CharTransitions.values (LexState.transitions s)) = true); [|congruence].
    apply existsb_exists. exists EPSILON_WIRE_MARKER. split; [|apply N.eqb_refl].
    apply list_elem_of_In, list_elem_of_bind. by exists s.
Qed.

(** A real state is not taken for a trailer. *)
Lemma real_state_not_trailer s :
  EPSILON_WIRE_MARKER ∉ CharTransitions.values (LexState.transitions s) →
  epsilon_wire_trailer (DfaStateWire.from_state s) = inr None.
Proof.
  intros Hm. unfold epsilon_wire_trailer. cbn [DfaStateWire.from_state DfaStateWire.transitions].
  rewrite bool_decide_eq_false_2; [done|]. intros Hg. apply Hm.
  unfold CharTransitions.get in Hg. destruct (CharTransitions.entry_index _ _) as [i|]; [|done].
  unfold CharTransitions.values. eapply list_elem_of_lookup_2. rewrite list_lookup_fmap. exact Hg.
Qed.

Lemma trailer_state_spec n m :
  n < u32_modulus → m < u32_modulus → epsilon_wire_trailer (trailer_state n m) = inr (Some (n, m)).
Proof.
  intros Hn Hm. unfold epsilon_wire_trailer, trailer_state, epsilon_wire_state. rewrite !as_u32_small by done.
  cbn [DfaStateWire.transitions DfaStateWire.finalizers DfaStateWire.possible_future_group_ids].
  change (BitSet.is_empty (BitSet.new 0)) with true.
  change (CharTransitions.get _ 0) with (Some EPSILON_WIRE_MARKER).
  change (CharTransitions.get _ 1) with (Some EPSILON_WIRE_TRAILER).
  change (CharTransitions.get _ 2) with (Some n). change (CharTransitions.get _ 3) with (Some m).
  change (CharTransitions.len _ =? 4) with true. rewrite !bool_decide_eq_true_2 by done. done.
Qed.

Lemma restore_states l :
  zip_with (λ s row, LexState.set_epsilon (λ _, row) s)
    (DfaStateWire.to_state <$> (DfaStateWire.from_state <$> l)) (LexState.epsilon_transitions <$> l) = l.
Proof. induction l as [|s l IH]; [done|]. rewrite !fmap_cons. cbn [zip_with]. rewrite IH. by destruct s. Qed.

Lemma metadata_nil l : metadata_of l = [] → Forall (λ s, LexState.epsilon_transitions s = []) l.
Proof.
  induction l as [|s l IH] using rev_ind; intros H; [constructor|]. rewrite metadata_of_snoc in H.
  apply app_eq_nil in H as [H1 H2]. apply Forall_app. split; [auto|]. constructor; [|constructor].
  apply fmap_nil_inv in H2. unfold chunks in H2. by destruct (LexState.epsilon_transitions s).
Qed.

Lemma restore_plain l :
  Forall (λ s, LexState.epsilon_transitions s = []) l → DfaStateWire.to_state <$> (DfaStateWire.from_state <$> l) = l.
Proof.
  induction 1 as [|s l Hs _ IH]; [done|]. rewrite !fmap_cons, IH. f_equal. destruct s. simpl in Hs. by subst.
Qed.

(** C36: Serialization fails exactly when a byte transition leads to the reserved
    dead target.  Otherwise, when the counts fit in 32 bits and the epsilon
    edges of a state are distinct and lead to states, reading the wire states
    back gives the states and the byte sets of the groups, epsilon edges and
    their order included. *)
Theorem lex_wire_roundtrip (d : LexDFA.t) :
  (reserved_target d ↔ ∃ e, serialize d = inl e) ∧
  (wire_ok d → ¬ reserved_target d → ∃ w, serialize d = inr w ∧
     deserialize w = inr (LexDFA.fresh (LexDFA.states d) (LexDFA.group_id_to_u8set d))).
Proof.
  split; [destruct (serialize_spec d) as [[? ?]|[? ->]]; [done|]; split; [done|by intros [e ?]]|].
  intros [Hn Hm Hrows] Hres. destruct (serialize_spec d) as [[? _]|[_ Hser]]; [done|].
  eexists. split; [exact Hser|]. unfold deserialize. cbn [DfaWire.states DfaWire.group_id_to_u8set].
  unfold wire_states. change (metadata_states d) with (metadata_of (LexDFA.states d)).
  set (l := LexDFA.states d) in *. set (n := LexDFA.num_states d) in *. change (LexDFA.num_states d) with (lenN l) in n.
  destruct (N.eqb_spec (lenN (metadata_of l)) 0) as [Hz|Hz].
  - assert (Hnil : metadata_of l = []) by (destruct (metadata_of l); [done|unfold lenN in Hz; simpl in Hz; lia]).
    rewrite Hnil, !app_nil_r. unfold decode_epsilon_wire_states. rewrite fmap_last.
    assert (Hplain : DfaStateWire.to_state <$> (DfaStateWire.from_state <$> l) = l) by by apply restore_plain, metadata_nil.
    destruct (last l) as [s|] eqn:El; cbn [fmap option_fmap option_map].
    + rewrite real_state_not_trailer; [cbn [result_bind]; by rewrite Hplain|]. intros Hin. apply Hres.
      exists s. split; [|done]. apply last_Some in El as [l' El]. change (s ∈ l). rewrite El.
      apply elem_of_app. right. by left.
    + cbn [result_bind]. by rewrite Hplain.
  - unfold decode_epsilon_wire_states. rewrite app_assoc, last_snoc. rewrite trailer_state_spec by done. cbn [result_bind].
    rewrite (proj2 (N.eqb_neq _ _) Hz). cbn [orb].
    assert (Hlen : lenN (((DfaStateWire.from_state <$> l) ++ metadata_of l) ++ [trailer_state (lenN l) (lenN (metadata_of l))])
      = lenN l + lenN (metadata_of l) + 1) by by rewrite !lenN_app, lenN_fmap.
    rewrite Hlen, N.eqb_refl. cbn [negb].
    destruct (read_metadata (lenN l) l) as (r & Hr & _ & Hrs); [done|lia|done|].
    assert (Hreal : N.to_nat (lenN l) = length (DfaStateWire.from_state <$> l)) by (rewrite length_fmap; unfold lenN; lia).
    rewrite <-app_assoc, Hreal, drop_app_length, take_app_length, <-Hreal.
    replace (N.to_nat (lenN (metadata_of l))) with (length (metadata_of l)) by (unfold lenN; lia).
    rewrite take_app_length, Hr. cbn [result_bind]. rewrite Hrs, N.sub_diag. cbn [N.to_nat replicate].
    by rewrite app_nil_r, restore_states.
Qed.

(** ** What a decoded automaton satisfies *)

Definition rows_ok (n : N) (rows : list (list N)) : Prop :=
  Forall (λ row, NoDup row ∧ ∀ t, t ∈ row → t < n) rows.

Lemma foldE_inv {A B} (P : B → Prop) (f : B → A → result B) b l b' :
  (∀ b x b', P b → f b x = inr b' → P b') → P b → foldE f b l = inr b' → P b'.
Proof.
  intros Hf. revert b. induction l as [|x l IH]; intros b Hb; cbn [foldE]; [by intros [= <-]|].
  destruct (f b x) as [e|b1] eqn:E; cbn [result_bind]; [done|]. apply IH. by eapply Hf.
Qed.

Definition reading_ok (n : N) (r : reading) : Prop := rows_ok n (epsilon_rows r) ∧ consistent r ∧ lenN (epsilon_rows r) = n.

Lemma read_target_ok n source r e r' : reading_ok n r → read_target n source r e = inr r' → reading_ok n r'.
Proof.
  destruct e as [index [byte target]]. intros (Hr & Hc & Hl). unfold read_target.
  destruct (negb _); [done|]. destruct (N.leb_spec n target) as [|Ht]; [done|].
  case_bool_decide as Hseen; [done|]. intros [= <-]. unfold reading_ok. cbn [epsilon_rows seen_targets].
  split; [|split; [|by rewrite lenN_alterN]].
  - unfold rows_ok. apply Forall_forall. intros row Hrow. apply nthN_elem_of in Hrow as [i Hi].
    rewrite nthN_alterN in Hi. unfold rows_ok in Hr. rewrite Forall_forall in Hr.
    destruct (N.eqb_spec i source) as [Heq|]; [|apply Hr, nthN_elem_of; by exists i]. rewrite Heq in Hi.
    destruct ((epsilon_rows r).[source]) as [row0|] eqn:E0; simplify_eq/=.
    destruct (Hr row0) as [Hnd Hlt]; [apply nthN_elem_of; by exists source|].
    rewrite Hc, nthN_fmap, E0 in Hseen. simpl in Hseen. split.
    + apply NoDup_app. split; [done|]. split; [|apply NoDup_singleton]. intros x Hx ->%list_elem_of_singleton.
      apply Hseen. by apply elem_of_list_to_set.
    + intros t [|Htt%list_elem_of_singleton]%elem_of_app; [auto|by subst].
  - unfold consistent. cbn [epsilon_rows seen_targets]. rewrite Hc. apply nthN_ext. intros i.
    rewrite nthN_alterN, !nthN_fmap, nthN_alterN. destruct (N.eqb_spec i source); [subst i|done].
    destruct ((epsilon_rows r).[source]); [|done]. simpl. f_equal. apply set_eq. set_solver.
Qed.

Lemma read_state_ok n r s r' : reading_ok n r → read_state n r s = inr r' → reading_ok n r'.
Proof.
  intros Hr. unfold read_state. destruct (_ || _); [done|].
  destruct (CharTransitions.get _ 2) as [source|]; cbn [ok_or result_bind]; [|done].
  destruct (n <=? source); [done|]. destruct (foldE _ _ _) as [e|r1] eqn:E; cbn [result_bind]; [done|].
  destruct (_ =? 0); [done|]. intros [= <-].
  eapply (foldE_inv (reading_ok n)); [intros; by eapply read_target_ok| |exact E]. done.
Qed.

(** Whatever the wire states hold, reading them either fails or gives an
    automaton whose epsilon rows are duplicate-free and lead to states. *)
Theorem lex_wire_validates (w : DfaWire.t) (d : LexDFA.t) :
  deserialize w = inr d →
  ∀ s, s ∈ LexDFA.states d →
    NoDup (LexState.epsilon_transitions s) ∧ ∀ t, t ∈ LexState.epsilon_transitions s → t < LexDFA.num_states d.
Proof.
  unfold deserialize, decode_epsilon_wire_states.
  assert (Hplain : ∀ l g, inr (LexDFA.fresh (DfaStateWire.to_state <$> l) g) = inr (A := string) d →
    ∀ s, s ∈ LexDFA.states d → NoDup (LexState.epsilon_transitions s) ∧ ∀ t, t ∈ LexState.epsilon_transitions s → t < LexDFA.num_states d).
  { intros l g [= <-] s (ws & -> & _)%list_elem_of_fmap. split; [constructor|]. intros t Ht. by apply elem_of_nil in Ht. }
  destruct (last (DfaWire.states w)) as [lst|]; [|cbn [result_bind]; apply Hplain].
  destruct (epsilon_wire_trailer lst) as [e|[[n m]|]]; cbn [result_bind]; [done| |apply Hplain].
  destruct (_ || _) eqn:Ec; [done|]. apply orb_false_iff in Ec as [_ Ec]. apply negb_false_iff, N.eqb_eq in Ec.
  destruct (foldE _ _ _) as [e|r] eqn:E; cbn [result_bind]; [done|]. intros [= <-] s Hs. cbn [LexDFA.fresh LexDFA.states] in Hs.
  assert (Hr : reading_ok n r).
  { eapply (foldE_inv (reading_ok n)); [intros; by eapply read_state_ok| |exact E]. split; [|split].
    - apply Forall_replicate. split; [constructor|]. intros t Ht. by apply elem_of_nil in Ht.
    - unfold consistent. cbn [seen_targets epsilon_rows]. by rewrite fmap_replicate.
    - cbn [epsilon_rows]. rewrite lenN_replicate. lia. }
  destruct Hr as (Hrows & _ & Hlen).
  assert (Hnum : LexDFA.num_states (LexDFA.fresh (zip_with (λ s row, LexState.set_epsilon (λ _, row) s)
      (DfaStateWire.to_state <$> take (N.to_nat n) (DfaWire.states w)) (epsilon_rows r)) (DfaWire.group_id_to_u8set w)) = n).
  { unfold LexDFA.num_states, LexDFA.fresh. cbn [LexDFA.states]. unfold lenN in *.
    rewrite length_zip_with, length_fmap, length_take. lia. }
  rewrite Hnum. apply elem_of_lookup_zip_with in Hs as (i & ws & row & -> & _ & Hrow).
  unfold rows_ok in Hrows. rewrite Forall_forall in Hrows. apply (Hrows row). by eapply list_elem_of_lookup_2.
Qed.

Definition lex_wired : LexDFA.t :=
  LexDFA.add_epsilon_transition (LexDFA.add_epsilon_transition (LexDFA.add_transition (LexDFA.new 3) 1 97 2) 0 2) 0 1.

Lemma lex_wire_roundtrip_witness :
  ∃ w, serialize lex_wired = inr w ∧ lenN (DfaWire.states w) = 5 ∧
    deserialize w = inr (LexDFA.fresh (LexDFA.states lex_wired) (LexDFA.group_id_to_u8set lex_wired)).
Proof.
  destruct (lex_wire_roundtrip lex_wired) as [Hfail Hback]. destruct Hback as (w & Hw & Hd).
  - split; [vm_compute; reflexivity..|]. cbn.
    repeat constructor; try (intros x Hx; repeat (apply elem_of_cons in Hx as [->|Hx]; [vm_compute; reflexivity|]); by apply elem_of_nil in Hx);
    rewrite ?elem_of_cons, ?elem_of_nil; try (intros [?|[]]; discriminate); try tauto.
  - intros Hres. apply Hfail in Hres as [e He]. vm_compute in He. discriminate.
  - exists w. split; [exact Hw|]. split; [|exact Hd]. assert (Hs := Hw). vm_compute in Hs. injection Hs as <-. reflexivity.
Defined.

Lemma lex_wire_validates_witness :
  deserialize (DfaWire.mk [DfaStateWire.from_state LexState.default] []) = inr (LexDFA.fresh [LexState.default] []) ∧
  NoDup (LexState.epsilon_transitions LexState.default).
Proof.
  split; [vm_compute; reflexivity|].
  apply (lex_wire_validates (DfaWire.mk [DfaStateWire.from_state LexState.default] []) (LexDFA.fresh [LexState.default] []));
    [vm_compute; reflexivity|apply list_elem_of_singleton; reflexivity].
Defined.
