(* ===== verification/Lang.v ===== *)
(** Languages of byte words: the operations expressions denote, their laws, and
    the words spelled along the edges of a graph labelled with languages.  The
    automata and the expressions of the lexer are read through these
    definitions. *)

From S2P Require Import Prelude.

Definition lang : Type := list N → Prop.

#[global] Instance lang_equiv : Equiv lang := λ L K, ∀ w, L w ↔ K w.
#[global] Instance lang_equivalence : Equivalence (≡@{lang}).
Proof.
  split.
  - by intros L w.
  - intros L K H w. symmetry. apply H.
  - intros L K J H1 H2 w. by rewrite (H1 w).
Qed.

(** * Operations *)

Definition lempty : lang := λ _, False.
Definition leps : lang := λ w, w = [].
Definition lword (u : list N) : lang := λ w, w = u.
Definition lcat (L K : lang) : lang := λ w, ∃ u v, w = u ++ v ∧ L u ∧ K v.
Definition lor (L K : lang) : lang := λ w, L w ∨ K w.
Definition land (L K : lang) : lang := λ w, L w ∧ K w.
Definition lminus (L K : lang) : lang := λ w, L w ∧ ¬ K w.

Fixpoint lpow (L : lang) (n : nat) : lang :=
  match n with O => leps | S n => lcat L (lpow L n) end.

(** Between [min] and [max] repetitions; no upper bound for [None]. *)
Definition lrep (L : lang) (min : N) (max : option N) : lang :=
  λ w, ∃ n, min ≤ N.of_nat n ∧ match max with Some max => N.of_nat n ≤ max | None => True end ∧ lpow L n w.

Definition lcats (l : list lang) : lang := foldr lcat leps l.
Definition lors (l : list lang) : lang := foldr lor lempty l.

#[global] Instance lcat_proper : Proper ((≡) ==> (≡) ==> (≡)) lcat.
Proof. intros L L' HL K K' HK w. unfold lcat. by setoid_rewrite (HL _); setoid_rewrite (HK _). Qed.
#[global] Instance lor_proper : Proper ((≡) ==> (≡) ==> (≡)) lor.
Proof. intros L L' HL K K' HK w. unfold lor. by rewrite (HL w), (HK w). Qed.
#[global] Instance land_proper : Proper ((≡) ==> (≡) ==> (≡)) land.
Proof. intros L L' HL K K' HK w. unfold land. by rewrite (HL w), (HK w). Qed.
#[global] Instance lminus_proper : Proper ((≡) ==> (≡) ==> (≡)) lminus.
Proof. intros L L' HL K K' HK w. unfold lminus. by rewrite (HL w), (HK w). Qed.
#[global] Instance lpow_proper : Proper ((≡) ==> (=) ==> (≡)) lpow.
Proof. intros L L' HL n ? <-. induction n as [|n IH]; cbn [lpow]; [done|]. by apply lcat_proper. Qed.
#[global] Instance lrep_proper : Proper ((≡) ==> (=) ==> (=) ==> (≡)) lrep.
Proof.
  intros L L' HL min ? <- max ? <- w. unfold lrep.
  split; intros (n & ? & ? & Hw); exists n; split; [done| |done|]; split; try done; by eapply (lpow_proper _ _ HL n n eq_refl).
Qed.

(** * Laws *)

Lemma lcat_eps_l L : lcat leps L ≡ L.
Proof. intros w. split; [by intros (u & v & -> & -> & ?)|]. intros Hw. by exists [], w. Qed.

Lemma lcat_eps_r L : lcat L leps ≡ L.
Proof.
  intros w. split; [intros (u & v & -> & Hu & ->); by rewrite app_nil_r|].
  intros Hw. exists w, []. by rewrite app_nil_r.
Qed.

Lemma lcat_assoc L K J : lcat (lcat L K) J ≡ lcat L (lcat K J).
Proof.
  intros w. split.
  - intros (x & v & -> & (u & u' & -> & ? & ?) & ?). exists u, (u' ++ v). rewrite app_assoc. split; [done|].
    split; [done|]. by exists u', v.
  - intros (u & x & -> & ? & (u' & v & -> & ? & ?)). exists (u ++ u'), v. rewrite app_assoc. split; [done|].
    split; [|done]. by exists u, u'.
Qed.

Lemma lcat_word u v : lcat (lword u) (lword v) ≡ lword (u ++ v).
Proof. intros w. split; [by intros (? & ? & -> & -> & ->)|]. intros ->. by exists u, v. Qed.

Lemma lcat_mono (L L' K K' : lang) w : (∀ u, L u → L' u) → (∀ u, K u → K' u) → lcat L K w → lcat L' K' w.
Proof. intros H1 H2 (u & v & -> & ? & ?). exists u, v. auto. Qed.

Lemma lword_nil : lword [] ≡ leps.
Proof. done. Qed.

Lemma lpow_1 L : lpow L 1 ≡ L.
Proof. cbn [lpow]. apply lcat_eps_r. Qed.

Lemma lpow_add L n m : lpow L (n + m) ≡ lcat (lpow L n) (lpow L m).
Proof.
  induction n as [|n IH]; cbn [Nat.add lpow]; [by rewrite lcat_eps_l|]. by rewrite IH, lcat_assoc.
Qed.

Lemma lpow_snoc L n : lpow L (S n) ≡ lcat (lpow L n) L.
Proof. replace (S n) with (n + 1)%nat by lia. by rewrite lpow_add, lpow_1. Qed.

Lemma lpow_nil L n : lpow L n [] ↔ n = O ∨ L [].
Proof.
  induction n as [|n IH]; cbn [lpow]; [split; [by left|done]|]. split.
  - intros (u & v & Heq & Hu & _). symmetry in Heq. apply app_eq_nil in Heq as [-> ->]. by right.
  - intros [?|HL]; [done|]. exists [], []. split; [done|]. split; [done|]. apply IH. by right.
Qed.

Lemma lcats_app l k : lcats (l ++ k) ≡ lcat (lcats l) (lcats k).
Proof.
  induction l as [|L l IH]; cbn; [by rewrite lcat_eps_l|].
  change (lcat L (lcats (l ++ k)) ≡ lcat (lcat L (lcats l)) (lcats k)). by rewrite IH, lcat_assoc.
Qed.

Lemma lors_spec l w : lors l w ↔ ∃ L, L ∈ l ∧ L w.
Proof.
  induction l as [|L l IH]; cbn; [split; [done|by intros (? & ?%elem_of_nil & _)]|].
  change (L w ∨ lors l w ↔ ∃ L', L' ∈ L :: l ∧ L' w). rewrite IH. setoid_rewrite elem_of_cons. naive_solver.
Qed.

Lemma lors_app l k w : lors (l ++ k) w ↔ lors l w ∨ lors k w.
Proof. rewrite !lors_spec. setoid_rewrite elem_of_app. split; [intros (L & [?|?] & ?); eauto|intros [(L & ? & ?)|(L & ? & ?)]; eauto]. Qed.

Lemma lors_one L w : lors [L] w ↔ L w.
Proof. cbn. unfold lor, lempty. tauto. Qed.

Lemma lcats_proper_Forall2 l k : Forall2 (≡) l k → lcats l ≡ lcats k.
Proof. induction 1 as [|L K l k HL _ IH]; cbn; [done|]. change (lcat L (lcats l) ≡ lcat K (lcats k)). by rewrite HL, IH. Qed.

Lemma lors_proper_Forall2 l k : Forall2 (≡) l k → lors l ≡ lors k.
Proof. induction 1 as [|L K l k HL _ IH]; cbn; [done|]. change (lor L (lors l) ≡ lor K (lors k)). by rewrite HL, IH. Qed.

Lemma lrep_exact L n : lrep L n (Some n) ≡ lpow L (N.to_nat n).
Proof.
  intros w. split.
  - intros (m & H1 & H2 & Hw). by replace (N.to_nat n) with m by lia.
  - intros Hw. exists (N.to_nat n). split; [lia|]. split; [lia|done].
Qed.

(** * Words along the edges of a graph *)

Section paths.
Implicit Types M : N → lang → N → Prop.

(** A path spells a word when each edge contributes a word of its label. *)
Inductive gpath M : N → list N → N → Prop :=
  | gpath_nil x : gpath M x [] x
  | gpath_step x L z y u v : M x L z → L u → gpath M z v y → gpath M x (u ++ v) y.

Lemma gpath_one M x (L : lang) y u : M x L y → L u → gpath M x u y.
Proof. intros HM Hu. rewrite <-(app_nil_r u). eapply gpath_step; [done..|constructor]. Qed.

Lemma gpath_app M x y z u v : gpath M x u y → gpath M y v z → gpath M x (u ++ v) z.
Proof.
  induction 1 as [|x L x' y u u' HM Hu _ IH]; intros Hv; [done|].
  rewrite <-app_assoc. eapply gpath_step; eauto.
Qed.

Lemma gpath_snoc M x y (L : lang) z u v : gpath M x u y → M y L z → L v → gpath M x (u ++ v) z.
Proof. intros Hp HM Hv. eapply gpath_app; [done|]. by eapply gpath_one. Qed.

(** Every edge of [M] can be walked in [M']. *)
Lemma gpath_map M M' x w y :
  (∀ x L y u, M x L y → L u → gpath M' x u y) → gpath M x w y → gpath M' x w y.
Proof.
  intros H. induction 1 as [x|x L z y u v HM Hu _ IH]; [constructor|].
  eapply gpath_app; [by eapply H|done].
Qed.

Lemma gpath_mono M M' x w y : (∀ x L y, M x L y → M' x L y) → gpath M x w y → gpath M' x w y.
Proof. intros H. apply gpath_map. intros *. intros HM Hu. eapply gpath_one; eauto. Qed.

Lemma gpath_inv M x w y :
  gpath M x w y → (x = y ∧ w = []) ∨ ∃ L z u v, w = u ++ v ∧ M x L z ∧ L u ∧ gpath M z v y.
Proof. destruct 1 as [|x L z y u v]; [by left|right]. by exists L, z, u, v. Qed.

(** A state without edges only reaches itself. *)
Lemma gpath_stuck M x w y : (∀ L z, ¬ M x L z) → gpath M x w y → x = y ∧ w = [].
Proof. intros H [?|(L & z & _ & _ & _ & HM & _)]%gpath_inv; [done|]. by destruct (H L z). Qed.

(** The words spelled to [y] satisfy the equations of the states. *)
Lemma gpath_to M (R : N → lang) y x w :
  R y [] → (∀ x L z, M x L z → ∀ u v, L u → R z v → R x (u ++ v)) → gpath M x w y → R x w.
Proof. intros Hy HM. induction 1 as [|x L z y u v Hx Hu _ IH]; [done|]. by eapply HM; [done..|apply IH]. Qed.
End paths.
