(* ===== verification/LexAst.v ===== *)
(** Regular expressions of the lexer
    (crates/glrmask-lexer/src/automata/lexer/ast.rs): the builders, the
    algebraic simplification, the nullability test and prefix stripping, against
    the language an expression denotes. *)

From S2P Require Import Prelude Bits U8Set BitSet CharTransitions LexDfa Lang.

(** * Data *)

#[global] Instance char_transitions_eq_dec {A} `{EqDecision A} : EqDecision (CharTransitions.t A).
Proof. solve_decision. Defined.
#[global] Instance bit_set_eq_dec : EqDecision BitSet.t.
Proof. solve_decision. Defined.
#[global] Instance lex_state_eq_dec : EqDecision LexState.t.
Proof. solve_decision. Defined.

Module Expr.
(** [Arc] and [Box] are the value they hold. *)
Inductive t :=
  | U8Seq (bytes : list N)
  | U8Class (set : U8Set.t)
  | Dfa (dfa : LexDFA.t)
  | Intersect (expr intersect : t)
  | Seq (parts : list t)
  | Choice (options : list t)
  | Exclude (expr exclude : t)
  | Repeat (expr : t) (min : N) (max : option N)
  | Shared (expr : t)
  | Epsilon.

Section induction.
Context (P : t → Prop).
Context (HU8Seq : ∀ bytes, P (U8Seq bytes)) (HU8Class : ∀ set, P (U8Class set)) (HDfa : ∀ d, P (Dfa d)).
Context (HIntersect : ∀ e x, P e → P x → P (Intersect e x)).
Context (HSeq : ∀ l, Forall P l → P (Seq l)) (HChoice : ∀ l, Forall P l → P (Choice l)).
Context (HExclude : ∀ e x, P e → P x → P (Exclude e x)).
Context (HRepeat : ∀ e min max, P e → P (Repeat e min max)).
Context (HShared : ∀ e, P e → P (Shared e)) (HEpsilon : P Epsilon).

(** Induction through the vectors of parts and options. *)
Fixpoint expr_ind (e : t) : P e :=
  let list_ind := fix go (l : list t) : Forall P l :=
    match l with [] => List.Forall_nil P | e :: l => List.Forall_cons P e l (expr_ind e) (go l) end in
  match e with
  | U8Seq bytes => HU8Seq bytes
  | U8Class set => HU8Class set
  | Dfa d => HDfa d
  | Intersect e x => HIntersect e x (expr_ind e) (expr_ind x)
  | Seq l => HSeq l (list_ind l)
  | Choice l => HChoice l (list_ind l)
  | Exclude e x => HExclude e x (expr_ind e) (expr_ind x)
  | Repeat e min max => HRepeat e min max (expr_ind e)
  | Shared e => HShared e (expr_ind e)
  | Epsilon => HEpsilon
  end.
End induction.

(** ** Equality

    The derived [PartialEq], with the comparison of automata that ignores their
    caches. *)

Definition list_eqb {A} (f : A → A → bool) : list A → list A → bool :=
  fix go l k :=
    match l, k with
    | [], [] => true
    | x :: l, y :: k => f x y && go l k
    | _, _ => false
    end.

Definition dfa_eqb (d other : LexDFA.t) : bool :=
  bool_decide (LexDFA.states d = LexDFA.states other) &&
  bool_decide (LexDFA.group_id_to_u8set d = LexDFA.group_id_to_u8set other).

Fixpoint eqb (e other : t) : bool :=
  match e, other with
  | U8Seq a, U8Seq b => bool_decide (a = b)
  | U8Class a, U8Class b => bool_decide (a = b)
  | Dfa a, Dfa b => dfa_eqb a b
  | Intersect a x, Intersect b y => eqb a b && eqb x y
  | Seq a, Seq b => list_eqb eqb a b
  | Choice a, Choice b => list_eqb eqb a b
  | Exclude a x, Exclude b y => eqb a b && eqb x y
  | Repeat a min max, Repeat b min' max' => eqb a b && (min =? min') && bool_decide (max = max')
  | Shared a, Shared b => eqb a b
  | Epsilon, Epsilon => true
  | _, _ => false
  end.

(** ** Builders *)

Definition byte (b : N) : t := U8Seq [b].
Definition bytes (bs : list N) : t := U8Seq bs.
Definition class (set : U8Set.t) : t := U8Class set.
Definition dfa (d : LexDFA.t) : t := Dfa d.
Definition seq (exprs : list t) : t := Seq exprs.
Definition choice (exprs : list t) : t := Choice exprs.
Definition exclude (expr excluded : t) : t := Exclude expr excluded.
Definition intersect (expr other : t) : t := Intersect expr other.
Definition repeat (expr : t) (min : N) (max : option N) : t := Repeat expr min max.
Definition plus (expr : t) : t := repeat expr 1 None.
Definition star (expr : t) : t := repeat expr 0 None.
Definition opt (expr : t) : t := repeat expr 0 (Some 1).
Definition eps : t := Epsilon.

Definition shortest (expr : t) : t :=
  Exclude (Shared expr) (Seq [Shared expr; Repeat (U8Class U8Set.all) 1 None]).

(** [Expr::from] on the bytes of a string *)
Definition from_str (s : list N) : t := U8Seq s.

(** ** Simplification *)

Definition optimize_repeat_expr (expr : t) (min : N) (max : option N) : t :=
  match min, max with
  | 0, Some 0 => Epsilon
  | 1, Some 1 => expr
  | _, _ => Repeat expr min max
  end.

Definition flatten_sequence_parts (exprs : list t) : list t :=
  foldl (λ flat expr,
      match expr with
      | Seq children => flat ++ children
      | Epsilon => flat
      | other => flat ++ [other]
      end)
    [] exprs.

(** The [unwrap] of an iterator over one byte; [None] is a panic. *)
Definition simplify_single_byte_class (expr : t) : option t :=
  match expr with
  | U8Class set =>
      if U8Set.len set =? 1 then byte ← head (U8Set.iter set); Some (U8Seq [byte]) else Some expr
  | _ => Some expr
  end.

Definition simplify_single_byte_classes (exprs : list t) : option (list t) :=
  mapM simplify_single_byte_class exprs.

Definition merge_byte_sequence (merged : list t) (expr : t) : list t :=
  match expr with
  | U8Seq current =>
      match last merged with
      | Some (U8Seq previous) => alter (λ _, U8Seq (previous ++ current)) (length merged - 1)%nat merged
      | _ => merged ++ [U8Seq current]
      end
  | other => merged ++ [other]
  end.

Definition merge_adjacent_byte_sequences (exprs : list t) : list t := foldl merge_byte_sequence [] exprs.

(** The worklist has its top at the head. *)
Definition flatten_choice_step (st : list t * list t) : (list t * list t) + list t :=
  let '(worklist, flat) := st in
  match worklist with
  | [] => inr flat
  | Choice children :: worklist => inl (reverse children ++ worklist, flat)
  | other :: worklist => inl (worklist, flat ++ [other])
  end.

(** The nodes of the nested choices: one round each. *)
Fixpoint choice_nodes (e : t) : nat :=
  match e with Choice options => S (sum_list_with choice_nodes options) | _ => 1%nat end.

Definition flatten_choice_parts (exprs : list t) : option (list t) :=
  match run flatten_choice_step (S (sum_list_with choice_nodes exprs)) (reverse exprs, []) with
  | inl _ => None
  | inr flat => Some flat
  end.

Definition fold_choice_part (st : U8Set.t * list t) (expr : t) : U8Set.t * list t :=
  let '(classes, complex) := st in
  match expr with
  | U8Class set => (U8Set.union classes set, complex)
  | U8Seq [byte] => ((U8Set.insert classes byte).1, complex)
  | other => (classes, complex ++ [other])
  end.

Definition fold_choice_byte_classes (exprs : list t) : list t :=
  let '(classes, complex) := foldl fold_choice_part (U8Set.empty, []) exprs in
  if U8Set.is_empty classes then complex else complex ++ [U8Class classes].

(** [pop().unwrap()] of a vector of length one. *)
Definition make_seq (exprs : list t) : option t :=
  let flat := flatten_sequence_parts exprs in
  match flat with
  | [] => Some Epsilon
  | _ :: _ =>
      flat ← simplify_single_byte_classes flat;
      match merge_adjacent_byte_sequences flat with
      | [single] => Some single
      | merged => Some (Seq merged)
      end
  end.

Definition make_choice (exprs : list t) : option t :=
  flat ← flatten_choice_parts exprs;
  match flat with
  | [] => Some (Choice [])
  | [single] => Some single
  | _ =>
      match fold_choice_byte_classes flat with
      | [single] => Some single
      | complex => Some (Choice complex)
      end
  end.

(** [None] does not happen: [optimize_correct]. *)
Fixpoint optimize (e : t) : option t :=
  match e with
  | Seq parts => parts ← mapM optimize parts; make_seq parts
  | Choice options => options ← mapM optimize options; make_choice options
  | Intersect expr intersect => expr ← optimize expr; intersect ← optimize intersect; Some (Intersect expr intersect)
  | Exclude expr exclude => expr ← optimize expr; exclude ← optimize exclude; Some (Exclude expr exclude)
  | Repeat expr min max => child ← optimize expr; Some (optimize_repeat_expr child min max)
  | Dfa d => Some (Dfa d)
  | Shared inner => inner ← optimize inner; Some (Shared inner)
  | leaf => Some leaf
  end.

(** ** Queries *)

(** [finalizers(0)] of an automaton without states panics. *)
Definition dfa_accepts_empty (d : LexDFA.t) : option bool :=
  bits ← LexDFA.finalizers d 0; Some (negb (BitSet.is_empty bits)).

(** [Iterator::all] and [Iterator::any] with their early exit. *)
Definition allM {A} (f : A → option bool) : list A → option bool :=
  fix go l := match l with [] => Some true | x :: l => b ← f x; if (b : bool) then go l else Some false end.
Definition anyM {A} (f : A → option bool) : list A → option bool :=
  fix go l := match l with [] => Some false | x :: l => b ← f x; if (b : bool) then Some true else go l end.

Fixpoint is_nullable (e : t) : option bool :=
  match e with
  | U8Seq bytes => Some (bool_decide (bytes = []))
  | U8Class _ => Some false
  | Dfa d => dfa_accepts_empty d
  | Intersect expr intersect => b ← is_nullable expr; if (b : bool) then is_nullable intersect else Some false
  | Seq parts => allM is_nullable parts
  | Choice options => anyM is_nullable options
  | Exclude expr exclude => b ← is_nullable expr; if (b : bool) then negb <$> is_nullable exclude else Some false
  | Repeat expr min _ => if min =? 0 then Some true else is_nullable expr
  | Shared expr => is_nullable expr
  | Epsilon => Some true
  end.

(** The outer option is a panic of [make_seq]. *)
Fixpoint strip_prefix (e prefix : t) : option (option t) :=
  if eqb e prefix then Some (Some Epsilon)
  else
    match e with
    | Seq [] => Some None
    | Seq (first :: rest) => if eqb first prefix then Some <$> make_seq rest else Some None
    | Shared inner => strip_prefix inner prefix
    | _ => Some None
    end.
End Expr.
