(* ===== verification/LexAstLang.v ===== *)
(** What the expressions of the lexer denote, and that the simplification, the
    nullability test, prefix stripping and the prefix-minimal sublanguage of
    ast.rs respect it. *)

From S2P Require Import Prelude Bits U8Set BitSet CharTransitions LexDfa Lang LexAst.
Import Expr.

(** * Languages *)

(** One byte of a set. *)
Definition class_lang (set : U8Set.t) : lang := λ w, ∃ b, w = [b] ∧ U8Set.contains set b = true.

(** The edges of a byte automaton. *)
Inductive dfa_edge (d : LexDFA.t) (s : N) : lang → N → Prop :=
  | dfa_byte row b t : (LexDFA.states d).[s] = Some row → (b, t) ∈ CharTransitions.iter (LexState.transitions row) →
      dfa_edge d s (lword [b]) t
  | dfa_epsilon row t : (LexDFA.states d).[s] = Some row → t ∈ LexState.epsilon_transitions row → dfa_edge d s leps t.

(** From state 0 to a state with a finalizer. *)
Definition dfa_lang (d : LexDFA.t) : lang := λ w,
  ∃ t row, gpath (dfa_edge d) 0 w t ∧ (LexDFA.states d).[t] = Some row ∧ BitSet.is_empty (LexState.finalizers row) = false.

Fixpoint denote (e : Expr.t) : lang :=
  match e with
  | U8Seq bytes => lword bytes
  | U8Class set => class_lang set
  | Dfa d => dfa_lang d
  | Intersect expr intersect => land (denote expr) (denote intersect)
  | Seq parts => lcats (map denote parts)
  | Choice options => lors (map denote options)
  | Exclude expr exclude => lminus (denote expr) (denote exclude)
  | Repeat expr min max => lrep (denote expr) min max
  | Shared expr => denote expr
  | Epsilon => leps
  end.

(** * Well-formed expressions *)

Definition all_P {A} (P : A → Prop) : list A → Prop :=
  fix go l := match l with [] => True | x :: l => P x ∧ go l end.

Lemma all_P_Forall {A} (P : A → Prop) l : all_P P l ↔ Forall P l.
Proof. induction l as [|x l IH]; cbn [all_P]; [by rewrite Forall_nil|by rewrite Forall_cons, IH]. Qed.

(** The table keys of an automaton are bytes. *)
Definition dfa_bytes (d : LexDFA.t) : Prop :=
  ∀ row b t, row ∈ LexDFA.states d → (b, t) ∈ CharTransitions.iter (LexState.transitions row) → b < 256.

(** Bytes are below 256 and byte sets fit their words. *)
Fixpoint wf (e : Expr.t) : Prop :=
  match e with
  | U8Seq bytes => Forall (λ b, b < 256) bytes
  | U8Class set => U8Set.wf set
  | Dfa d => dfa_bytes d
  | Intersect expr other | Exclude expr other => wf expr ∧ wf other
  | Seq l | Choice l => all_P wf l
  | Repeat expr _ _ | Shared expr => wf expr
  | Epsilon => True
  end.

Lemma wf_seq l : wf (Seq l) ↔ Forall wf l.
Proof. apply all_P_Forall. Qed.
Lemma wf_choice l : wf (Choice l) ↔ Forall wf l.
Proof. apply all_P_Forall. Qed.

Lemma contains_byte set b : U8Set.wf set → U8Set.contains set b = true → b < 256.
Proof.
  intros [Hl Hh] Hc. rewrite U8SetFacts.contains_spec in Hc. destruct (N.ltb_spec b 128); [lia|].
  destruct (N.ltb_spec b 256) as [|Hge]; [done|exfalso].
  assert (Ht : N.testbit (U8Set.hi set) (b - 128) = false); [|congruence].
  destruct (N.eq_dec (U8Set.hi set) 0) as [->|Hne]; [apply N.bits_0|].
  apply N.bits_above_log2. enough (N.log2 (U8Set.hi set) < 128) by lia. by apply N.log2_lt_pow2; [lia|].
Qed.

(** ** Vectors of expressions *)

Lemma denote_seq_app l k : lcats (map denote (l ++ k)) ≡ lcat (lcats (map denote l)) (lcats (map denote k)).
Proof. rewrite map_app. apply lcats_app. Qed.

Lemma denote_seq_one e : lcats (map denote [e]) ≡ denote e.
Proof. apply lcat_eps_r. Qed.

Lemma denote_choice l w : lors (map denote l) w ↔ ∃ e, e ∈ l ∧ denote e w.
Proof.
  rewrite lors_spec. split.
  - intros (L & HL & Hw). apply list_elem_of_In, in_map_iff in HL as (e & <- & He%list_elem_of_In). by exists e.
  - intros (e & He & Hw). exists (denote e). split; [|done]. apply list_elem_of_In, in_map_iff. exists e.
    split; [done|by apply list_elem_of_In].
Qed.

(** An expression is rewritten to a well-formed one of the same language. *)
Definition refines (e e' : Expr.t) : Prop := wf e' ∧ denote e' ≡ denote e.

Lemma refines_list l l' : Forall2 refines l l' →
  Forall wf l' ∧ lcats (map denote l') ≡ lcats (map denote l) ∧ lors (map denote l') ≡ lors (map denote l).
Proof.
  induction 1 as [|e e' l l' [Hwf He] _ (H1 & H2 & H3)]; [split; [constructor|split; reflexivity]|]. split; [by constructor|].
  cbn [map lcats lors foldr]. split.
  - change (lcat (denote e') (lcats (map denote l')) ≡ lcat (denote e) (lcats (map denote l))). by rewrite He, H2.
  - change (lor (denote e') (lors (map denote l')) ≡ lor (denote e) (lors (map denote l))). by rewrite He, H3.
Qed.

(** * Sequences *)

Lemma flatten_sequence_spec l : Forall wf l →
  Forall wf (flatten_sequence_parts l) ∧ lcats (map denote (flatten_sequence_parts l)) ≡ lcats (map denote l).
Proof.
  induction l as [|e l IH] using rev_ind; [intros _; split; [constructor|reflexivity]|]. intros [Hl He]%Forall_app. destruct (IH Hl) as [Hw Hd].
  rewrite Forall_singleton in He. unfold flatten_sequence_parts in *. rewrite foldl_app. cbn [foldl].
  set (flat := foldl _ [] l) in *. clearbody flat.
  assert (Hone : Forall wf (flat ++ [e]) ∧ lcats (map denote (flat ++ [e])) ≡ lcats (map denote (l ++ [e]))).
  { split; [apply Forall_app; split; [done|by apply Forall_singleton]|]. by rewrite !denote_seq_app, Hd. }
  destruct e; try exact Hone.
  - split; [apply Forall_app; split; [done|by apply wf_seq]|]. rewrite !denote_seq_app, Hd.
    apply lcat_proper; [done|]. by rewrite denote_seq_one.
  - split; [done|]. rewrite denote_seq_app, denote_seq_one, Hd. symmetry. apply lcat_eps_r.
Qed.

Lemma single_byte_spec e : wf e → ∃ e', simplify_single_byte_class e = Some e' ∧ refines e e'.
Proof.
  intros Hw. destruct e as [|set| | | | | | | |]; try (eexists; split; [reflexivity|by split]).
  cbn [simplify_single_byte_class]. destruct (N.eqb_spec (U8Set.len set) 1) as [Hlen|]; [|by eexists].
  rewrite (len_iter set Hw) in Hlen. unfold lenN in Hlen.
  destruct (U8Set.iter set) as [|b [|]] eqn:Hi; cbn in Hlen; try lia. cbn. eexists. split; [done|].
  assert (Hin : ∀ x, x ∈ [b] ↔ x < 256 ∧ U8Set.contains set x = true) by (intros x; rewrite <-Hi; by apply elem_of_iter).
  split.
  - constructor; [|done]. by apply Hin, list_elem_of_singleton.
  - intros w. cbn. unfold lword, class_lang. split.
    + intros ->. exists b. split; [done|]. by apply Hin, list_elem_of_singleton.
    + intros (x & -> & Hx). f_equal. apply list_elem_of_singleton, Hin. split; [by eapply contains_byte|done].
Qed.

Lemma mapM_refines (f : Expr.t → option Expr.t) l :
  Forall (λ e, ∃ e', f e = Some e' ∧ refines e e') l → ∃ l', mapM f l = Some l' ∧ Forall2 refines l l'.
Proof.
  induction 1 as [|e l (e' & He & Hr) _ (l' & Hl & Hrs)]; [by exists []|].
  exists (e' :: l'). cbn [mapM]. rewrite He. cbn [mbind option_bind]. rewrite Hl. cbn. split; [done|]. by constructor.
Qed.

Lemma simplify_classes_spec l : Forall wf l → ∃ l', simplify_single_byte_classes l = Some l' ∧ Forall2 refines l l'.
Proof. intros Hl. apply mapM_refines. eapply Forall_impl; [exact Hl|]. intros e He. by apply single_byte_spec. Qed.

Lemma alter_last {A} (f : A → A) l x : alter f (length (l ++ [x]) - 1)%nat (l ++ [x]) = l ++ [f x].
Proof.
  rewrite length_app. cbn [length]. replace (length l + 1 - 1)%nat with (length l) by lia.
  apply list_eq. intros i. destruct (decide (i = length l)) as [->|Hne].
  - by rewrite list_lookup_alter_eq, !list_lookup_middle.
  - rewrite list_lookup_alter_ne by done. destruct (decide (i < length l)%nat).
    + by rewrite !lookup_app_l.
    + by rewrite !lookup_ge_None_2 by (rewrite length_app; cbn; lia).
Qed.

Lemma merge_sequences_spec l : Forall wf l →
  Forall wf (merge_adjacent_byte_sequences l) ∧ lcats (map denote (merge_adjacent_byte_sequences l)) ≡ lcats (map denote l).
Proof.
  induction l as [|e l IH] using rev_ind; [intros _; split; [constructor|reflexivity]|]. intros [Hl He]%Forall_app. destruct (IH Hl) as [Hw Hd].
  rewrite Forall_singleton in He. unfold merge_adjacent_byte_sequences in *. rewrite foldl_app. cbn [foldl].
  set (merged := foldl _ [] l) in *. clearbody merged.
  assert (Hone : Forall wf (merged ++ [e]) ∧ lcats (map denote (merged ++ [e])) ≡ lcats (map denote (l ++ [e]))).
  { split; [apply Forall_app; split; [done|by apply Forall_singleton]|]. by rewrite !denote_seq_app, Hd. }
  destruct e as [current| | | | | | | | |]; try exact Hone. cbn [merge_byte_sequence].
  destruct merged as [|top merged _] using rev_ind; [exact Hone|]. rewrite last_snoc.
  destruct top as [previous| | | | | | | | |]; try exact Hone. rewrite alter_last.
  apply Forall_app in Hw as [Hw Htop]. rewrite Forall_singleton in Htop. split.
  - apply Forall_app. split; [done|]. apply Forall_singleton, Forall_app. by split.
  - rewrite denote_seq_app in Hd. rewrite !denote_seq_app, <-Hd, lcat_assoc, !denote_seq_one.
    apply lcat_proper; [done|]. cbn [denote]. symmetry. apply lcat_word.
Qed.

Lemma make_seq_spec l : Forall wf l →
  ∃ e, make_seq l = Some e ∧ wf e ∧ denote e ≡ lcats (map denote l).
Proof.
  intros Hl. unfold make_seq. destruct (flatten_sequence_spec l Hl) as [Hw Hd].
  destruct (flatten_sequence_parts l) as [|e0 flat]; [by exists Epsilon|].
  destruct (simplify_classes_spec (e0 :: flat) Hw) as (flat' & Hf & Hr). rewrite Hf. cbn [mbind option_bind].
  destruct (refines_list _ _ Hr) as (Hw' & Hd' & _).
  destruct (merge_sequences_spec flat' Hw') as [Hw'' Hd'']. rewrite Hd', Hd in Hd''.
  destruct (merge_adjacent_byte_sequences flat') as [|single [|next rest]];
    (eexists; split; [done|]); [by split|..].
  - rewrite Forall_singleton in Hw''. split; [done|]. by rewrite <-Hd'', denote_seq_one.
  - split; [by apply wf_seq|]. exact Hd''.
Qed.

(** * Choices *)

Lemma choice_nodes_pos e : (0 < choice_nodes e)%nat.
Proof. destruct e; cbn; lia. Qed.

(** The loop keeps the options, whatever their order. *)
Definition flatten_inv (exprs : list Expr.t) (st : list Expr.t * list Expr.t) (m : nat) : Prop :=
  m = sum_list_with choice_nodes st.1 ∧ Forall wf (st.1 ++ st.2) ∧
  ∀ w, lors (map denote (st.1 ++ st.2)) w ↔ lors (map denote exprs) w.

Lemma flatten_step_inv exprs st st' m :
  flatten_inv exprs st m → flatten_choice_step st = inl st' → ∃ m', flatten_inv exprs st' m' ∧ (m' < m)%nat.
Proof.
  destruct st as [[|e worklist] flat]; [done|]. intros (-> & Hw & Hd) Hstep. cbn [fst snd app] in Hw, Hd.
  assert (Hpush : ∃ m', flatten_inv exprs (worklist, flat ++ [e]) m' ∧ (m' < sum_list_with choice_nodes (e :: worklist))%nat).
  { assert (Hp : worklist ++ flat ++ [e] ≡ₚ e :: worklist ++ flat) by solve_Permutation.
    exists (sum_list_with choice_nodes worklist). split; [|cbn; pose proof (choice_nodes_pos e); lia]. split; [done|]. cbn [fst snd].
    split; [by rewrite Hp|]. intros w. rewrite <-Hd, !denote_choice. by setoid_rewrite Hp. }
  destruct e; cbn in Hstep; injection Hstep as <-; try exact Hpush. clear Hpush.
  assert (Hp : (reverse options ++ worklist) ++ flat ≡ₚ options ++ worklist ++ flat)
    by (rewrite reverse_Permutation; solve_Permutation).
  eexists. split; [split; [done|]|cbn; rewrite sum_list_with_app, sum_list_with_reverse; lia]. cbn [fst snd]. split.
  - rewrite Hp. apply Forall_cons in Hw as [Ho Hw]. apply Forall_app. split; [by apply wf_choice|done].
  - intros w. rewrite <-Hd, !denote_choice. setoid_rewrite Hp. setoid_rewrite elem_of_app. setoid_rewrite elem_of_cons. split.
    + intros (e & [He|He] & Hden); [|eauto]. exists (Choice options). split; [by left|]. apply denote_choice. by exists e.
    + intros (e & [->|He] & Hden); [|eauto]. apply denote_choice in Hden as (e & He & Hden). eauto.
Qed.

Lemma flatten_choice_spec exprs : Forall wf exprs →
  ∃ flat, flatten_choice_parts exprs = Some flat ∧ Forall wf flat ∧
    ∀ w, lors (map denote flat) w ↔ lors (map denote exprs) w.
Proof.
  intros Hw. unfold flatten_choice_parts.
  destruct (run_terminates flatten_choice_step (flatten_inv exprs) (S (sum_list_with choice_nodes exprs))
    (reverse exprs, []) (sum_list_with choice_nodes exprs) (flatten_step_inv exprs)) as (r & [worklist flat] & m & Hrun & (_ & Hw' & Hd) & Hexit).
  - split; [cbn [fst]; by rewrite sum_list_with_reverse|]. cbn [fst snd]. rewrite app_nil_r. split; [by rewrite reverse_Permutation|].
    intros w. rewrite !denote_choice. by setoid_rewrite reverse_Permutation.
  - pose proof (pow2_S_gt (sum_list_with choice_nodes exprs)). lia.
  - destruct worklist as [|e worklist]; [|by destruct e]. injection Hexit as <-. rewrite Hrun. by exists flat.
Qed.

(** The language of the classes and of the other options. *)
Lemma fold_choice_spec l classes complex : Forall wf l → U8Set.wf classes → Forall wf complex →
  let r := foldl fold_choice_part (classes, complex) l in
  U8Set.wf r.1 ∧ Forall wf r.2 ∧
  ∀ w, class_lang r.1 w ∨ lors (map denote r.2) w ↔
    class_lang classes w ∨ lors (map denote complex) w ∨ lors (map denote l) w.
Proof.
  intros Hl Hc Hx. revert classes complex Hc Hx. induction Hl as [|e l He _ IH]; intros classes complex Hc Hx r.
  { split; [done|]. split; [done|]. intros w. subst r. cbn [foldl fst snd map]. change (lors [] w) with False. tauto. }
  subst r. cbn [foldl]. cbn [map lors foldr]. change (foldr lor lempty (map denote l)) with (lors (map denote l)).
  assert (Hone : ∀ classes', U8Set.wf classes' → (∀ w, class_lang classes' w ↔ class_lang classes w ∨ denote e w) →
    let r := foldl fold_choice_part (classes', complex) l in
    U8Set.wf r.1 ∧ Forall wf r.2 ∧ ∀ w, class_lang r.1 w ∨ lors (map denote r.2) w ↔
      class_lang classes w ∨ lors (map denote complex) w ∨ lor (denote e) (lors (map denote l)) w).
  { intros classes' Hc' Hd r. destruct (IH classes' complex Hc' Hx) as (H1 & H2 & H3). split; [done|]. split; [done|].
    intros w. subst r. rewrite (H3 w), Hd. unfold lor. tauto. }
  assert (Hother : let r := foldl fold_choice_part (classes, complex ++ [e]) l in
    U8Set.wf r.1 ∧ Forall wf r.2 ∧ ∀ w, class_lang r.1 w ∨ lors (map denote r.2) w ↔
      class_lang classes w ∨ lors (map denote complex) w ∨ lor (denote e) (lors (map denote l)) w).
  { destruct (IH classes (complex ++ [e]) Hc) as (H1 & H2 & H3); [apply Forall_app; split; [done|by apply Forall_singleton]|].
    intros r. split; [done|]. split; [done|]. intros w. subst r. rewrite (H3 w), map_app, lors_app. cbn [map]. rewrite lors_one. unfold lor. tauto. }
  destruct e as [bytes|set| | | | | | | |]; try exact Hother.
  - destruct bytes as [|b [|b' bytes]]; try exact Hother. cbn [fold_choice_part].
    cbn [wf] in He. rewrite Forall_singleton in He. apply Hone; [by apply U8SetFacts.insert_wf|].
    intros w. unfold class_lang. cbn [denote]. unfold lword. split.
    + intros (x & -> & Hx'). rewrite U8SetFacts.contains_insert in Hx'. apply orb_true_iff in Hx' as [Hx'|Hx'].
      * apply N.eqb_eq in Hx' as ->. by right.
      * left. by exists x.
    + intros [(x & -> & Hx')| ->]; eexists; (split; [done|]); rewrite U8SetFacts.contains_insert.
      * by rewrite Hx', orb_true_r.
      * by rewrite N.eqb_refl.
  - cbn [fold_choice_part]. apply Hone; [by apply U8SetFacts.union_wf|].
    intros w. cbn [denote]. unfold class_lang. setoid_rewrite U8SetFacts.contains_union. setoid_rewrite orb_true_iff. naive_solver.
Qed.

Lemma fold_classes_spec l : Forall wf l →
  Forall wf (fold_choice_byte_classes l) ∧
  ∀ w, lors (map denote (fold_choice_byte_classes l)) w ↔ lors (map denote l) w.
Proof.
  intros Hl. unfold fold_choice_byte_classes.
  destruct (fold_choice_spec l U8Set.empty [] Hl U8SetFacts.empty_wf ltac:(constructor)) as (H1 & H2 & H3).
  destruct (foldl _ _ _) as [classes complex]. cbn [fst snd] in *.
  assert (Hempty : ∀ w, class_lang U8Set.empty w ↔ False).
  { intros w. split; [|done]. intros (b & -> & Hb). by rewrite U8SetFacts.contains_empty in Hb. }
  setoid_rewrite Hempty in H3. destruct (U8Set.is_empty classes) eqn:E.
  - split; [done|]. intros w. apply (is_empty_iter classes H1) in E. rewrite <-(left_id False or (lors (map denote l) w)).
    change (lors (map denote [])) with lempty in H3. unfold lempty in H3. specialize (H3 w).
    enough (¬ class_lang classes w) by tauto. intros (b & -> & Hb).
    assert (Hin : b ∈ U8Set.iter classes) by (apply elem_of_iter; [done|]; split; [by eapply contains_byte|done]).
    rewrite E in Hin. by apply elem_of_nil in Hin.
  - split; [apply Forall_app; split; [done|by apply Forall_singleton]|]. intros w. specialize (H3 w).
    change (lors (map denote [])) with lempty in H3. unfold lempty in H3. rewrite map_app, lors_app. cbn [map]. rewrite lors_one. cbn [denote]. tauto.
Qed.

Lemma make_choice_spec l : Forall wf l →
  ∃ e, make_choice l = Some e ∧ wf e ∧ denote e ≡ lors (map denote l).
Proof.
  intros Hl. unfold make_choice. destruct (flatten_choice_spec l Hl) as (flat & -> & Hw & Hd). cbn [mbind option_bind].
  destruct (fold_classes_spec flat Hw) as [Hw' Hd'].
  assert (Hsingle : ∀ e, denote e ≡ lors (map denote [e])) by (intros e w; cbn; unfold lor, lempty; tauto).
  assert (Hmany : ∀ k, Forall wf k → (∀ w, lors (map denote k) w ↔ lors (map denote flat) w) →
    ∃ e, (match k with [single] => Some single | complex => Some (Choice complex) end) = Some e ∧ wf e ∧ denote e ≡ lors (map denote l)).
  { intros k Hk Hkd. destruct k as [|e [|e' k]]; (eexists; split; [done|]).
    - split; [done|]. intros w. by rewrite <-Hd, <-Hkd.
    - rewrite Forall_singleton in Hk. split; [done|]. intros w. by rewrite (Hsingle e w), Hkd.
    - split; [by apply wf_choice|]. intros w. rewrite <-Hd, <-Hkd. done. }
  destruct flat as [|e [|e' flat]].
  - by apply (Hmany []).
  - by apply (Hmany [e]).
  - destruct (Hmany _ Hw' Hd') as (x & Hx & Hr). exists x. split; [|exact Hr].
    destruct (fold_choice_byte_classes _) as [|? [|? ?]]; exact Hx.
Qed.

(** * Simplification *)

Lemma optimize_repeat_spec e e' min max : refines e e' → refines (Repeat e min max) (optimize_repeat_expr e' min max).
Proof.
  intros [Hw Hd].
  assert (Hsame : refines (Repeat e min max) (Repeat e' min max)).
  { split; [done|]. cbn [denote]. by rewrite Hd. }
  assert (Hexact : ∀ n, lrep (denote e) n (Some n) ≡ lpow (denote e) (N.to_nat n)) by apply lrep_exact.
  unfold optimize_repeat_expr. destruct min as [|[p|p|]]; [|exact Hsame..|].
  - destruct max as [[|p]|]; try exact Hsame. split; [done|]. cbn [denote]. by rewrite (Hexact 0).
  - destruct max as [[|[p|p|]]|]; try exact Hsame. split; [done|]. cbn [denote]. rewrite (Hexact 1), Hd. symmetry. apply lpow_1.
Qed.

Lemma optimize_spec e : wf e → ∃ e', optimize e = Some e' ∧ refines e e'.
Proof.
  induction e as [bytes|set|d|e x IHe IHx|l IH|l IH|e x IHe IHx|e min max IHe|e IHe|] using expr_ind; intros Hw;
    try (eexists; split; [reflexivity|split; [exact Hw|reflexivity]]).
  - destruct Hw as [He Hx]. destruct (IHe He) as (e' & Ho & Hwe & Hde). destruct (IHx Hx) as (x' & Ho' & Hwx & Hdx).
    exists (Intersect e' x'). cbn [optimize]. rewrite Ho, Ho'. split; [done|]. split; [done|]. cbn [denote]. by rewrite Hde, Hdx.
  - apply wf_seq in Hw. destruct (mapM_refines optimize l) as (l' & Hl & Hr).
    { rewrite Forall_forall in *. eauto. }
    cbn [optimize]. rewrite Hl. destruct (refines_list _ _ Hr) as (Hw' & Hd & _).
    destruct (make_seq_spec l' Hw') as (e' & He' & Hwe & Hde). exists e'. split; [done|]. split; [done|]. by rewrite Hde, Hd.
  - apply wf_choice in Hw. destruct (mapM_refines optimize l) as (l' & Hl & Hr).
    { rewrite Forall_forall in *. eauto. }
    cbn [optimize]. rewrite Hl. destruct (refines_list _ _ Hr) as (Hw' & _ & Hd).
    destruct (make_choice_spec l' Hw') as (e' & He' & Hwe & Hde). exists e'. split; [done|]. split; [done|]. by rewrite Hde, Hd.
  - destruct Hw as [He Hx]. destruct (IHe He) as (e' & Ho & Hwe & Hde). destruct (IHx Hx) as (x' & Ho' & Hwx & Hdx).
    exists (Exclude e' x'). cbn [optimize]. rewrite Ho, Ho'. split; [done|]. split; [done|]. cbn [denote]. by rewrite Hde, Hdx.
  - destruct (IHe Hw) as (e' & Ho & Hr). cbn [optimize]. rewrite Ho. eexists. split; [done|]. by apply optimize_repeat_spec.
  - destruct (IHe Hw) as (e' & Ho & Hwe & Hde). exists (Shared e'). cbn [optimize]. by rewrite Ho.
Qed.

(** C30: simplifying a well-formed expression does not panic, its worklist loop
    ends, and the result is well-formed and denotes the same language. *)
Theorem optimize_correct (e : Expr.t) :
  wf e → ∃ e', optimize e = Some e' ∧ wf e' ∧ ∀ w, denote e' w ↔ denote e w.
Proof. intros Hw. destruct (optimize_spec e Hw) as (e' & Ho & Hwe & Hd). by exists e'. Qed.

(** * Nullability *)

(** The test looks at state 0 of an automaton and at the minimum of a
    repetition: state 0 has no epsilon edge, and repetitions are not empty
    intervals. *)
Fixpoint nullable_ok (e : Expr.t) : Prop :=
  match e with
  | U8Seq _ | U8Class _ | Epsilon => True
  | Dfa d => ∃ row, (LexDFA.states d).[0] = Some row ∧ LexState.epsilon_transitions row = []
  | Intersect expr other | Exclude expr other => nullable_ok expr ∧ nullable_ok other
  | Seq l | Choice l => all_P nullable_ok l
  | Repeat expr min max => nullable_ok expr ∧ match max with Some max => min ≤ max | None => True end
  | Shared expr => nullable_ok expr
  end.

Lemma dfa_nullable d row : (LexDFA.states d).[0] = Some row → LexState.epsilon_transitions row = [] →
  dfa_lang d [] ↔ BitSet.is_empty (LexState.finalizers row) = false.
Proof.
  intros Hr He. split.
  - intros (t & row' & Hp & Ht & Hf). apply gpath_inv in Hp as [[<- _]|(L & z & u & v & Heq & Hedge & Hu & _)].
    + congruence.
    + symmetry in Heq. apply app_eq_nil in Heq as [-> ->].
      destruct Hedge as [row'' b t' Hr'' _|row'' t' Hr'' Hin]; [done|].
      assert (row'' = row) as -> by congruence. rewrite He in Hin. by apply elem_of_nil in Hin.
  - intros Hf. exists 0, row. split; [constructor|done].
Qed.

Definition nullable_spec (e : Expr.t) : Prop := ∃ b, is_nullable e = Some b ∧ (b = true ↔ denote e []).

Lemma nullable_all l : Forall nullable_spec l →
  ∃ b, allM is_nullable l = Some b ∧ (b = true ↔ lcats (map denote l) []).
Proof.
  induction 1 as [|e l (b & Hb & Hd) _ (b' & Hb' & Hd')]; [by exists true|]. cbn [allM]. rewrite Hb. cbn [mbind option_bind].
  assert (Hcat : lcats (map denote (e :: l)) [] ↔ denote e [] ∧ lcats (map denote l) []).
  { split; [|intros [? ?]; by exists [], []]. intros (u & v & Heq & Hu & Hv). symmetry in Heq. by apply app_eq_nil in Heq as [-> ->]. }
  destruct b.
  - exists b'. split; [exact Hb'|]. tauto.
  - exists false. split; [done|]. rewrite Hcat, <-Hd. split; [done|]. by intros [? _].
Qed.

Lemma nullable_any l : Forall nullable_spec l →
  ∃ b, anyM is_nullable l = Some b ∧ (b = true ↔ lors (map denote l) []).
Proof.
  induction 1 as [|e l (b & Hb & Hd) _ (b' & Hb' & Hd')]; [by exists false|]. cbn [anyM]. rewrite Hb. cbn [mbind option_bind].
  change (lors (map denote (e :: l)) []) with (denote e [] ∨ lors (map denote l) []). destruct b.
  - exists true. split; [done|]. tauto.
  - exists b'. split; [exact Hb'|]. rewrite <-Hd, <-Hd'. split; [by right|]. by intros [?|?].
Qed.

Lemma is_nullable_spec e : nullable_ok e → nullable_spec e.
Proof.
  unfold nullable_spec.
  induction e as [bytes|set|d|e x IHe IHx|l IH|l IH|e x IHe IHx|e min max IHe|e IHe|] using expr_ind; intros Hok; cbn [is_nullable denote].
  - eexists. split; [done|]. rewrite bool_decide_eq_true. unfold lword. split; congruence.
  - exists false. split; [done|]. split; [done|]. by intros (b & ? & _).
  - destruct Hok as (row & Hr & He). unfold dfa_accepts_empty, LexDFA.finalizers. rewrite Hr. cbn. eexists. split; [done|].
    rewrite (dfa_nullable d row Hr He), negb_true_iff. done.
  - destruct Hok as [He Hx]. destruct (IHe He) as (b & -> & Hb). destruct (IHx Hx) as (b' & Hb' & Hd'). cbn [mbind option_bind].
    unfold land. destruct b; [exists b'|exists false]; (split; [done|]); rewrite <-Hb, <-Hd'; naive_solver.
  - apply nullable_all. cbn in Hok. rewrite all_P_Forall in Hok. rewrite Forall_forall in *. unfold nullable_spec. eauto.
  - apply nullable_any. cbn in Hok. rewrite all_P_Forall in Hok. rewrite Forall_forall in *. unfold nullable_spec. eauto.
  - destruct Hok as [He Hx]. destruct (IHe He) as (b & -> & Hb). destruct (IHx Hx) as (b' & Hb' & Hd'). cbn [mbind option_bind].
    unfold lminus. destruct b; [rewrite Hb'; exists (negb b'); split; [done|]|exists false; split; [done|]]; rewrite <-Hb, <-Hd'; destruct b'; naive_solver.
  - destruct Hok as [He Hmax]. assert (Hn : lrep (denote e) min max [] ↔ min = 0 ∨ denote e []).
    { split.
      - intros (n & Hmin & _ & [->|Hn]%lpow_nil); [left; lia|by right].
      - intros [->|Hn].
        + exists 0%nat. split; [lia|]. split; [by destruct max; [lia|]|done].
        + exists (N.to_nat min). split; [lia|]. split; [destruct max; [lia|done]|]. apply lpow_nil. by right. }
    destruct (N.eqb_spec min 0) as [->|Hne].
    + exists true. split; [done|]. rewrite Hn. tauto.
    + destruct (IHe He) as (b & -> & Hb). exists b. split; [done|]. rewrite Hn, Hb. tauto.
  - by apply IHe.
  - by exists true.
Qed.

(** the nullability test decides whether the empty word is in the language
    of the expression. *)
Theorem is_nullable_correct (e : Expr.t) :
  nullable_ok e → ∃ b, is_nullable e = Some b ∧ (b = true ↔ denote e []).
Proof. apply is_nullable_spec. Qed.

(** * Prefixes *)

Lemma list_eqb_Forall2 {A} (f : A → A → bool) l k : list_eqb f l k = true → Forall2 (λ x y, f x y = true) l k.
Proof.
  revert k. induction l as [|x l IH]; intros [|y k]; cbn; try done. rewrite andb_true_iff. intros [? ?]. constructor; auto.
Qed.

Lemma dfa_eqb_lang d other : dfa_eqb d other = true → dfa_lang d ≡ dfa_lang other.
Proof.
  unfold dfa_eqb. rewrite andb_true_iff, !bool_decide_eq_true. intros [Hs _] w. unfold dfa_lang. rewrite Hs.
  assert (Hp : ∀ s v t, gpath (dfa_edge d) s v t ↔ gpath (dfa_edge other) s v t).
  { intros s v t. split; apply gpath_mono; intros x L y [row b z Hr Hin|row z Hr Hin].
    - rewrite Hs in Hr. by eapply dfa_byte.
    - rewrite Hs in Hr. by eapply dfa_epsilon.
    - rewrite <-Hs in Hr. by eapply dfa_byte.
    - rewrite <-Hs in Hr. by eapply dfa_epsilon. }
  by setoid_rewrite Hp.
Qed.

Lemma eqb_lang e other : eqb e other = true → denote e ≡ denote other.
Proof.
  assert (Hlist : ∀ l k, Forall (λ e, ∀ other, eqb e other = true → denote e ≡ denote other) l →
    list_eqb eqb l k = true → Forall2 (≡) (map denote l) (map denote k)).
  { intros l k Hl Heq. apply list_eqb_Forall2 in Heq. induction Heq as [|x y l k Hxy _ IH]; [constructor|].
    apply Forall_cons in Hl as [Hx Hl]. constructor; auto. }
  revert other. induction e as [bytes|set|d|e x IHe IHx|l IH|l IH|e x IHe IHx|e min max IHe|e IHe|] using expr_ind;
    intros other; destruct other; cbn [eqb denote]; rewrite ?andb_true_iff, ?bool_decide_eq_true; try done.
  - by intros ->.
  - by intros ->.
  - apply dfa_eqb_lang.
  - intros [H1%IHe H2%IHx]. by rewrite H1, H2.
  - intros H. by apply lcats_proper_Forall2, Hlist.
  - intros H. by apply lors_proper_Forall2, Hlist.
  - intros [H1%IHe H2%IHx]. by rewrite H1, H2.
  - rewrite N.eqb_eq. intros [[H1%IHe ->] ->]. by rewrite H1.
  - apply IHe.
Qed.

Lemma strip_prefix_spec e prefix : wf e →
  ∃ r, strip_prefix e prefix = Some r ∧ ∀ rest, r = Some rest → denote e ≡ lcat (denote prefix) (denote rest).
Proof.
  assert (Hwhole : ∀ e, eqb e prefix = true → denote e ≡ lcat (denote prefix) (denote Epsilon)).
  { intros x Hx. rewrite (eqb_lang x prefix Hx). symmetry. apply lcat_eps_r. }
  induction e as [bytes|set|d|e x IHe IHx|l IH|l IH|e x IHe IHx|e min max IHe|e IHe|] using expr_ind; intros Hw;
    cbn [strip_prefix]; (destruct (eqb _ prefix) eqn:E;
      [exists (Some Epsilon); split; [done|]; intros rest [= <-]; by apply Hwhole|]);
    try (by eexists).
  - destruct l as [|first l]; [by eexists|]. destruct (eqb first prefix) eqn:E'; [|by eexists].
    apply wf_seq, Forall_cons in Hw as [Hf Hl]. destruct (make_seq_spec l Hl) as (r & Hr & _ & Hd). rewrite Hr.
    exists (Some r). split; [done|]. intros rest [= <-]. rewrite Hd. cbn [denote map lcats foldr].
    change (lcat (denote first) (lcats (map denote l)) ≡ lcat (denote prefix) (lcats (map denote l))).
    by rewrite (eqb_lang _ _ E').
  - by apply IHe.
Qed.

(** stripping a prefix does not panic, and the rest it returns, appended to
    the prefix, gives back the language of the expression. *)
Theorem strip_prefix_correct (e prefix : Expr.t) :
  wf e → ∃ r, strip_prefix e prefix = Some r ∧
    ∀ rest, r = Some rest → ∀ w, denote e w ↔ ∃ u v, w = u ++ v ∧ denote prefix u ∧ denote rest v.
Proof. intros Hw. destruct (strip_prefix_spec e prefix Hw) as (r & Hr & Hd). exists r. split; [done|]. intros rest Heq. exact (Hd rest Heq). Qed.

(** * The prefix-minimal sublanguage *)

Definition byte_words (L : lang) : Prop := ∀ w, L w → Forall (λ b, b < 256) w.

Lemma byte_words_cat L K : byte_words L → byte_words K → byte_words (lcat L K).
Proof. intros HL HK w (u & v & -> & ? & ?). apply Forall_app. split; auto. Qed.

Lemma byte_words_pow L n : byte_words L → byte_words (lpow L n).
Proof.
  intros HL. induction n as [|n IH]; cbn [lpow]; [|by apply byte_words_cat]. intros w ->. constructor.
Qed.

Lemma byte_words_path d s w t : dfa_bytes d → gpath (dfa_edge d) s w t → Forall (λ b, b < 256) w.
Proof.
  intros Hd. induction 1 as [|s L z t u v HM Hu _ IH]; [constructor|]. apply Forall_app. split; [|done].
  destruct HM as [row b t' Hr Hin|row t' Hr Hin]; rewrite Hu; [|constructor].
  apply Forall_singleton. eapply Hd; [|done]. apply nthN_elem_of. by exists s.
Qed.

Lemma denote_bytes e : wf e → byte_words (denote e).
Proof.
  induction e as [bytes|set|d|e x IHe IHx|l IH|l IH|e x IHe IHx|e min max IHe|e IHe|] using expr_ind; intros Hw; cbn [denote].
  - intros w ->. exact Hw.
  - intros w (b & -> & Hb). apply Forall_singleton. by eapply contains_byte.
  - intros w (t & row & Hp & _). by eapply byte_words_path.
  - intros w [H _]. by apply (IHe (proj1 Hw)).
  - apply wf_seq in Hw. induction IH as [|e l He _ IHl]; [intros w ->; constructor|].
    apply Forall_cons in Hw as [? ?]. cbn. apply byte_words_cat; auto.
  - apply wf_choice in Hw. intros w (e & He & Hd)%denote_choice. rewrite Forall_forall in IH, Hw. by apply (IH e); [|apply Hw|].
  - intros w [H _]. by apply (IHe (proj1 Hw)).
  - intros w (n & _ & _ & Hn). by apply (byte_words_pow _ n (IHe Hw)).
  - by apply IHe.
  - intros w ->. constructor.
Qed.

(** One byte or more. *)
Lemma repeat_any_byte w : Forall (λ b, b < 256) w → lrep (class_lang U8Set.all) 1 None w ↔ w ≠ [].
Proof.
  intros Hw. split.
  - intros (n & Hn & _ & Hp) ->. apply lpow_nil in Hp as [?|(b & ? & _)]; [lia|done].
  - intros Hne. exists (length w). destruct w as [|b w]; [done|]. split; [cbn; lia|]. split; [done|]. clear Hne.
    induction Hw as [|x w' Hx _ IH]; [done|]. cbn [length lpow]. exists [x], w'. split; [done|]. split; [|done].
    exists x. split; [done|]. by apply U8SetFacts.contains_all.
Qed.

(** the prefix-minimal sublanguage keeps exactly the words of the expression
    none of whose proper prefixes is a word of the expression. *)
Theorem shortest_correct (e : Expr.t) :
  wf e → ∀ w, denote (shortest e) w ↔ denote e w ∧ ∀ u v, w = u ++ v → v ≠ [] → ¬ denote e u.
Proof.
  intros Hw w. unfold shortest. cbn [denote map lcats foldr]. change (foldr lcat leps []) with leps.
  unfold lminus. split.
  - intros [He Hn]. split; [done|]. intros u v Heq Hv Hu. apply Hn. exists u, v. split; [done|]. split; [done|].
    apply lcat_eps_r, repeat_any_byte; [|done]. apply (denote_bytes e Hw) in He. rewrite Heq in He. by apply Forall_app in He as [_ ?].
  - intros [He Hmin]. split; [done|]. intros (u & v & Heq & Hu & Hv%(proj1 (lcat_eps_r _ v))).
    eapply (Hmin u v Heq); [|exact Hu]. apply repeat_any_byte in Hv; [done|].
    apply (denote_bytes e Hw) in He. rewrite Heq in He. by apply Forall_app in He as [_ ?].
Qed.

(** * Examples *)

(** ["ab" [c] () ("d" | "e" | ["f"])] *)
Definition expr_sample : Expr.t :=
  Seq [U8Seq [97]; Seq [U8Seq [98]]; U8Class (U8Set.single 99); Epsilon;
       Choice [U8Seq [100]; Choice [U8Seq [101]; U8Class (U8Set.single 102)]]].

Lemma expr_sample_wf : wf expr_sample.
Proof. cbn. repeat (split || constructor); by vm_compute. Qed.

Lemma optimize_correct_witness :
  ∃ e', optimize expr_sample = Some e' ∧ eqb e' (Seq [U8Seq [97; 98; 99]; U8Class (U8Set.from_range 100 102)]) = true ∧
    ∀ w, denote e' w ↔ denote expr_sample w.
Proof.
  destruct (optimize_correct expr_sample expr_sample_wf) as (e' & He & _ & Hd).
  exists e'. split; [exact He|]. split; [|exact Hd]. vm_compute in He. injection He as <-. vm_compute. reflexivity.
Defined.

Lemma is_nullable_correct_witness :
  is_nullable (Seq [opt (byte 97); Choice [byte 98; star (byte 99)]]) = Some true ∧
  denote (Seq [opt (byte 97); Choice [byte 98; star (byte 99)]]) [].
Proof.
  split; [reflexivity|].
  destruct (is_nullable_correct (Seq [opt (byte 97); Choice [byte 98; star (byte 99)]])) as (b & Hb & Hd).
  - cbn. repeat split. lia.
  - apply Hd. vm_compute in Hb. congruence.
Defined.

Lemma strip_prefix_correct_witness :
  ∃ rest, strip_prefix (Seq [byte 97; byte 98; byte 99]) (byte 97) = Some (Some rest) ∧
    ∀ w, denote (Seq [byte 97; byte 98; byte 99]) w ↔ ∃ u v, w = u ++ v ∧ denote (byte 97) u ∧ denote rest v.
Proof.
  destruct (strip_prefix_correct (Seq [byte 97; byte 98; byte 99]) (byte 97)) as (r & Hr & Hd).
  - cbn. repeat (split || constructor).
  - exists (U8Seq [98; 99]). split; [reflexivity|]. apply Hd. vm_compute in Hr. congruence.
Defined.

Lemma shortest_correct_witness : denote (shortest (plus (byte 97))) [97] ∧ ¬ denote (shortest (plus (byte 97))) [97; 97].
Proof.
  assert (Hw : wf (plus (byte 97))) by (cbn; repeat constructor).
  assert (H1 : denote (plus (byte 97)) [97]).
  { exists 1%nat. split; [lia|]. split; [exact I|]. apply lpow_1. reflexivity. }
  split.
  - apply (shortest_correct _ Hw). split; [exact H1|]. intros u v Heq Hv (n & Hn & _ & Hp).
    destruct u as [|b u]; [|destruct u; [|discriminate]; destruct v; [contradiction|discriminate]].
    apply lpow_nil in Hp as [->|Hp]; [lia|discriminate].
  - intros Hs. apply (shortest_correct _ Hw) in Hs as [_ Hmin]. apply (Hmin [97] [97]); [reflexivity|discriminate|exact H1].
Defined.
