(* ===== verification/LexNfa.v ===== *)
(** The byte-oriented NFA of the lexer
    (crates/glrmask-lexer/src/automata/lexer/nfa.rs): edge insertion, epsilon
    closures, the classes of bytes that no transition tells apart, the flat
    epsilon table and the condensation of epsilon cycles. *)

From S2P Require Import Prelude Bits U8Set LexDfa Search.

(** * Data *)

Module NFAState.
Record t := mk {
  transitions : list (U8Set.t * N);
  epsilon_transitions : list N;
  finalizers : gset GroupId;
}.
Definition new : t := mk [] [] ∅.
End NFAState.

Module CompactNFA.
Record t := mk { epsilon_offsets : list N; epsilon_targets : list N }.
End CompactNFA.

Definition build_states (count : N) : list NFAState.t := replicate (N.to_nat count) NFAState.new.

Module Nfa.
Record t := mk { states : list NFAState.t; start_state : N }.

Definition new (num_states : N) : t := mk (build_states (N.max num_states 1)) 0.
Definition num_states (a : t) : N := lenN (states a).

Definition with_state (a : t) (state : N) (f : NFAState.t → NFAState.t) : t :=
  mk (alterN f (states a) state) (start_state a).

Definition add_state (a : t) : N * t :=
  (as_u32 (lenN (states a)), mk (states a ++ [NFAState.new]) (start_state a)).

Definition add_u8set_transition (a : t) (from : N) (set : U8Set.t) (to : N) : t :=
  with_state a from (λ s, NFAState.mk (NFAState.transitions s ++ [(set, to)])
    (NFAState.epsilon_transitions s) (NFAState.finalizers s)).

Definition add_transition (a : t) (from byte to : N) : t := add_u8set_transition a from (U8Set.single byte) to.

Definition add_epsilon (a : t) (from to : N) : t :=
  with_state a from (λ s, NFAState.mk (NFAState.transitions s)
    (NFAState.epsilon_transitions s ++ [to]) (NFAState.finalizers s)).

Definition add_finalizer (a : t) (state : N) (group_id : GroupId) : t :=
  with_state a state (λ s, NFAState.mk (NFAState.transitions s)
    (NFAState.epsilon_transitions s) ({[group_id]} ∪ NFAState.finalizers s)).

(** ** Epsilon closure *)

(** The stack has its top at the head; targets that are not states stay in the
    closure. *)
Definition closure_step (a : t) (st : gset N * list N) : (gset N * list N) + gset N :=
  let '(closure, stack) := st in
  match stack with
  | [] => inr closure
  | state_id :: stack =>
      match (states a).[state_id] with
      | Some state => inl (foldl push_unseen (closure, stack) (NFAState.epsilon_transitions state))
      | None => inl (closure, stack)
      end
  end.

(** Each pop is paid by a start state or by an edge. *)
Definition closure_fuel (a : t) (states0 : gset N) : nat :=
  S (size states0 + sum_list_with (λ s, length (NFAState.epsilon_transitions s)) (states a)).

Definition epsilon_closure (a : t) (states0 : gset N) : option (gset N) :=
  match run (closure_step a) (closure_fuel a states0) (states0, reverse (sort_N (elements states0))) with
  | inl _ => None
  | inr closure => Some closure
  end.

(** ** The flat epsilon table *)

Definition build_compact_nfa (a : t) : CompactNFA.t :=
  let '(offsets, targets) :=
    foldl (λ '(offsets, targets) state,
        (offsets ++ [as_u32 (lenN targets)], targets ++ NFAState.epsilon_transitions state))
      ([], []) (states a) in
  CompactNFA.mk (offsets ++ [as_u32 (lenN targets)]) targets.

(** ** Byte classes *)

Definition split_partition (split : U8Set.t) (next_partitions : list U8Set.t) (partition : U8Set.t)
    : list U8Set.t :=
  let intersection := U8Set.intersection partition split in
  let difference := U8Set.difference partition split in
  let next_partitions := if U8Set.is_empty intersection then next_partitions else next_partitions ++ [intersection] in
  if U8Set.is_empty difference then next_partitions else next_partitions ++ [difference].

Definition refine_partitions (partitions : list U8Set.t) (split : U8Set.t) : list U8Set.t :=
  foldl (split_partition split) [] partitions.

(** The loop over the transitions, with the sets already used for splitting. *)
Definition refine_with (st : list U8Set.t * gset U8Set.t) (set : U8Set.t) : list U8Set.t * gset U8Set.t :=
  let '(partitions, seen_sets) := st in
  if bool_decide (set ∈ seen_sets) then st
  else (refine_partitions partitions set, {[set]} ∪ seen_sets).

Definition transition_sets (a : t) : list U8Set.t := s ← states a; (NFAState.transitions s).*1.

Definition byte_partitions (a : t) : list U8Set.t :=
  (foldl refine_with ([U8Set.all], ∅) (transition_sets a)).1.

Definition class_output (st : list N * list (list N)) (entry : N * U8Set.t) : list N * list (list N) :=
  let '(index, partition) := entry in
  foldl (λ '(class_map, class_members) byte,
      (alterN (λ _, index mod 256) class_map byte, alterN (λ members, members ++ [byte]) class_members index))
    st (U8Set.iter partition).

Definition build_equivalence_class_outputs (partitions : list U8Set.t) : list N * list (list N) :=
  foldl class_output (replicate 256 0, replicate (length partitions) []) (enumerate partitions).

Definition compute_equivalence_classes (a : t) : list N * N * list (list N) :=
  let partitions := byte_partitions a in
  let '(class_map, class_members) := build_equivalence_class_outputs partitions in
  (class_map, lenN partitions, class_members).

(** ** Condensation *)

(** [None] is an index out of range. *)
Definition condensed_transitions (scc_map : list N) (trs : list (U8Set.t * N)) : option (list (U8Set.t * N)) :=
  mapM (λ '(set, target), c ← scc_map.[target]; Some (set, as_u32 c)) trs.

Definition condensed_epsilons (scc_map : list N) (new_id : N) (targets : list N) : option (list N) :=
  foldM (λ acc target,
      c ← scc_map.[target];
      Some (if as_u32 c =? as_u32 new_id then acc else acc ++ [as_u32 c]))
    [] targets.

Definition merge_condensed_state (scc_map : list N) (new_states : list NFAState.t) (entry : N * NFAState.t)
    : option (list NFAState.t) :=
  let '(old_id, state) := entry in
  new_id ← scc_map.[old_id];
  _ ← new_states.[new_id];
  transitions ← condensed_transitions scc_map (NFAState.transitions state);
  epsilons ← condensed_epsilons scc_map new_id (NFAState.epsilon_transitions state);
  Some (alterN (λ new_state, NFAState.mk
                  (NFAState.transitions new_state ++ transitions)
                  (NFAState.epsilon_transitions new_state ++ epsilons)
                  (NFAState.finalizers new_state ∪ NFAState.finalizers state))
          new_states new_id).

Definition build_condensed_states (a : t) (scc_map : list N) (scc_count : N) : option (list NFAState.t) :=
  foldM (merge_condensed_state scc_map) (build_states scc_count) (enumerate (states a)).

Definition dedup_epsilon_transitions (states : list NFAState.t) : list NFAState.t :=
  (λ s, NFAState.mk (NFAState.transitions s) (dedup (sort_N (NFAState.epsilon_transitions s))) (NFAState.finalizers s))
  <$> states.

(** ** Components of the epsilon graph

    The search of Tarjan with an explicit stack of frames: a state and the index
    of the next edge to look at.  [disc] and [low] are [i32] arrays with [-1] for
    a state not reached yet. *)

Definition i32_wrap (x : Z) : Z := ((x + 2 ^ 31) mod 2 ^ 32 - 2 ^ 31)%Z.

Record search := Search {
  disc : list Z;
  low : list Z;
  on_stack : list bool;
  stack : list N;
  time : Z;
  scc_map : list N;
  scc_count : N;
}.

(** [edge_index == 0]: the state is reached for the first time. *)
Definition discover (g : search) (state : N) : search :=
  Search (alterN (λ _, time g) (disc g) state) (alterN (λ _, time g) (low g) state)
    (alterN (λ _, true) (on_stack g) state) (state :: stack g) (i32_wrap (time g + 1))
    (scc_map g) (scc_count g).

Definition lower (g : search) (state : N) (bound : Z) : search :=
  Search (disc g) (alterN (λ x, Z.min x bound) (low g) state) (on_stack g) (stack g) (time g) (scc_map g) (scc_count g).

(** The inner [loop]: members leave the stack down to [state]; an empty stack
    panics. *)
Fixpoint pop_component (members : list N) (state : N) (on_stack : list bool) (scc_map : list N) (scc_count : N)
    : option (list N * list bool * list N) :=
  match members with
  | [] => None
  | member :: rest =>
      let on_stack := alterN (λ _, false) on_stack member in
      let scc_map := alterN (λ _, scc_count) scc_map member in
      if member =? state then Some (rest, on_stack, scc_map)
      else pop_component rest state on_stack scc_map scc_count
  end.

Definition finish (g : search) (state : N) : option search :=
  low_state ← (low g).[state]; disc_state ← (disc g).[state];
  if (low_state =? disc_state)%Z
  then
    '(rest, on_stack, map) ← pop_component (stack g) state (on_stack g) (scc_map g) (scc_count g);
    Some (Search (disc g) (low g) on_stack rest (time g) map (scc_count g + 1))
  else Some g.

(** A round after the discovery: the edge of the frame, or the end of the
    frame.  [inr None] is a panic. *)
Definition look_edge (g : search) (row : NFAState.t) (state : N) (edge_index : nat) (work : list (N * nat))
    : (search * list (N * nat)) + option search :=
  match NFAState.epsilon_transitions row !! edge_index with
  | Some next =>
      let work := (state, S edge_index) :: work in
      match (disc g).[next], (on_stack g).[next] with
      | Some disc_next, Some on_stack_next =>
          if (disc_next =? -1)%Z then inl (g, (next, O) :: work)
          else if on_stack_next then inl (lower g state disc_next, work)
          else inl (g, work)
      | _, _ => inr None
      end
  | None =>
      match finish g state with
      | None => inr None
      | Some g =>
          match work with
          | [] => inl (g, work)
          | (parent, _) :: _ =>
              match (low g).[state] with
              | Some low_state => inl (lower g parent low_state, work)
              | None => inr None
              end
          end
      end
  end.

(** One round of the [while let] over the frames, the top at the head. *)
Definition frame_step (a : t) (st : search * list (N * nat)) : (search * list (N * nat)) + option search :=
  let '(g, work) := st in
  match work with
  | [] => inr (Some g)
  | (state, edge_index) :: work =>
      let g := match edge_index with O => discover g state | S _ => g end in
      match (states a).[state] with
      | None => inr None
      | Some row => look_edge g row state edge_index work
      end
  end.

(** Each round looks at an edge or leaves a state. *)
Definition scc_fuel (a : t) : nat :=
  S (sum_list_with (λ s, S (S (length (NFAState.epsilon_transitions s)))) (states a)).

Definition visit_root (a : t) (g : search) (root : N) : option search :=
  disc_root ← (disc g).[root];
  if negb (disc_root =? -1)%Z then Some g
  else
    match run (frame_step a) (scc_fuel a) (g, [(root, O)]) with
    | inr (Some g) => Some g
    | _ => None
    end.

Definition initial_search (num_states : nat) : search :=
  Search (replicate num_states (-1)%Z) (replicate num_states (-1)%Z) (replicate num_states false) [] 0%Z
    (replicate num_states 0) 0.

Definition epsilon_sccs (a : t) : option search :=
  foldM (visit_root a) (initial_search (length (states a))) (seqN (length (states a))).

Definition condense_epsilon_sccs (a : t) : option t :=
  if num_states a <=? 1 then Some a
  else
    g ← epsilon_sccs a;
    if scc_count g =? num_states a then Some a
    else
      new_states ← build_condensed_states a (scc_map g) (scc_count g);
      start ← (scc_map g).[start_state a];
      Some (mk (dedup_epsilon_transitions new_states) (as_u32 start)).
End Nfa.
