(* ===== verification/LexNfaClasses.v ===== *)
(** Properties of the lexer NFA that do not need its components
    (crates/glrmask-lexer/src/automata/lexer/nfa.rs): byte classes, epsilon
    closure, the flat epsilon table. *)

From stdpp Require Import relations.
From S2P Require Import Prelude Bits U8Set CharTransitions LexDfa Search LexNfa.
Import Nfa.

(** * Byte classes *)

Section classes.
Implicit Types (ps sets : list U8Set.t).

(** The cells that contain a byte. *)
Definition cells (b : N) ps : list U8Set.t := filter (λ p, U8Set.contains p b = true) ps.

Record partition_ok sets ps : Prop := {
  cell_wf : ∀ p, p ∈ ps → U8Set.wf p ∧ U8Set.is_empty p = false;
  cell_unique : ∀ b, b < 256 → length (cells b ps) = 1%nat;
  cell_same : ∀ p b b' set, p ∈ ps → b < 256 → b' < 256 → U8Set.contains p b = true → U8Set.contains p b' = true →
    set ∈ sets → U8Set.contains set b = U8Set.contains set b';
  cell_separates : ∀ p b b', p ∈ ps → b < 256 → b' < 256 → U8Set.contains p b = true →
    (∀ set, set ∈ sets → U8Set.contains set b = U8Set.contains set b') → U8Set.contains p b' = true;
}.

Definition pieces (split p : U8Set.t) : list U8Set.t :=
  filter (λ q, U8Set.is_empty q = false) [U8Set.intersection p split; U8Set.difference p split].

Lemma refine_pieces ps split : refine_partitions ps split = p ← ps; pieces split p.
Proof.
  unfold refine_partitions. assert (H : ∀ acc, foldl (split_partition split) acc ps = acc ++ (p ← ps; pieces split p)).
  { induction ps as [|p ps IH]; intros acc; cbn [foldl]; [by rewrite app_nil_r|].
    rewrite IH, bind_cons, app_assoc. f_equal. unfold split_partition, pieces. rewrite !filter_cons, filter_nil.
    destruct (U8Set.is_empty (U8Set.intersection p split)), (U8Set.is_empty (U8Set.difference p split));
      rewrite ?decide_True, ?decide_False by done; by rewrite ?app_nil_r, <-?app_assoc. }
  apply H.
Qed.

Lemma is_empty_contains p b : U8Set.wf p → b < 256 → U8Set.contains p b = true → U8Set.is_empty p = false.
Proof.
  intros Hp Hb Hc. destruct (U8Set.is_empty p) eqn:E; [|done]. unfold U8Set.is_empty in E.
  apply andb_true_iff in E as [E1%N.eqb_eq E2%N.eqb_eq]. rewrite U8SetFacts.contains_spec, E1, E2, !N.bits_0 in Hc.
  by destruct (b <? 128).
Qed.

Lemma not_empty_contains p : U8Set.wf p → U8Set.is_empty p = false → ∃ b, b < 256 ∧ U8Set.contains p b = true.
Proof.
  intros Hp He. destruct (U8Set.iter p) as [|b l] eqn:E.
  - assert (U8Set.is_empty p = true); [|congruence].
    assert (p = U8Set.empty) as ->; [|done]. apply U8SetFacts.set_ext; [done|apply U8SetFacts.empty_wf|].
    intros b Hb. rewrite U8SetFacts.contains_empty. destruct (U8Set.contains p b) eqn:Ec; [|done].
    assert (b ∈ U8Set.iter p) as Hin by (by apply elem_of_iter). rewrite E in Hin. by apply elem_of_nil in Hin.
  - exists b. apply elem_of_iter; [done|]. rewrite E. by left.
Qed.

(** A piece holds the bytes of the cell on one side of the split. *)
Lemma elem_of_pieces split p q :
  U8Set.wf p → q ∈ pieces split p →
  U8Set.wf q ∧ U8Set.is_empty q = false ∧
  ∃ side, ∀ b, b < 256 → U8Set.contains q b = U8Set.contains p b && Bool.eqb (U8Set.contains split b) side.
Proof.
  intros Hp [He Hq]%list_elem_of_filter. apply elem_of_cons in Hq as [->|Hq%list_elem_of_singleton].
  - split; [by apply U8SetFacts.intersection_wf|]. split; [done|]. exists true. intros b _.
    rewrite U8SetFacts.contains_intersection. by destruct (U8Set.contains split b).
  - subst q. split; [by apply U8SetFacts.difference_wf|]. split; [done|]. exists false. intros b Hb.
    rewrite U8SetFacts.contains_difference by done. by destruct (U8Set.contains split b).
Qed.

Lemma cells_pieces b split p :
  U8Set.wf p → b < 256 → length (cells b (pieces split p)) = length (cells b [p]).
Proof.
  intros Hp Hb. unfold cells, pieces. rewrite !filter_cons, !filter_nil.
  pose proof (U8SetFacts.contains_intersection p split b) as Hi. pose proof (U8SetFacts.contains_difference p split b Hb) as Hd.
  pose proof (is_empty_contains _ b (U8SetFacts.intersection_wf p split Hp) Hb) as Ei.
  pose proof (is_empty_contains _ b (U8SetFacts.difference_wf p split Hp) Hb) as Ed.
  destruct (U8Set.contains p b), (U8Set.contains split b); cbn [andb negb] in Hi, Hd; rewrite ?Hi, ?Hd in *;
    repeat case_decide; try done; rewrite ?filter_cons, ?filter_nil; repeat case_decide; try done; try congruence; naive_solver.
Qed.

Lemma cells_refine b split ps :
  (∀ p, p ∈ ps → U8Set.wf p) → b < 256 → length (cells b (refine_partitions ps split)) = length (cells b ps).
Proof.
  intros Hps Hb. rewrite refine_pieces. induction ps as [|p ps IH]; [done|].
  rewrite bind_cons. unfold cells in *. rewrite filter_app, length_app. rewrite IH by (intros; apply Hps; by right).
  change (p :: ps) with ([p] ++ ps). rewrite filter_app, length_app. f_equal. apply cells_pieces; [apply Hps; by left|done].
Qed.

Lemma refine_ok sets ps set :
  U8Set.wf set → partition_ok sets ps → partition_ok (sets ++ [set]) (refine_partitions ps set).
Proof.
  intros Hset [H1 H2 H3 H4].
  assert (Hpiece : ∀ q, q ∈ refine_partitions ps set → ∃ p, p ∈ ps ∧ U8Set.wf p ∧ q ∈ pieces set p).
  { intros q Hq. rewrite refine_pieces in Hq. apply list_elem_of_bind in Hq as (p & Hqp & Hp). exists p.
    split; [done|]. split; [by apply H1|done]. }
  split.
  - intros q (p & Hp & Hwf & Hq)%Hpiece. destruct (elem_of_pieces set p q Hwf Hq) as (? & ? & _). done.
  - intros b Hb. rewrite cells_refine; [by apply H2|intros; by apply H1|done].
  - intros q b b' s (p & Hp & Hwf & Hq)%Hpiece Hb Hb' Hc Hc' Hs.
    destruct (elem_of_pieces set p q Hwf Hq) as (_ & _ & side & Hside). rewrite Hside in Hc, Hc' by done.
    apply andb_true_iff in Hc as [Hc1 Hc2%Bool.eqb_prop], Hc' as [Hc1' Hc2'%Bool.eqb_prop].
    apply elem_of_app in Hs as [Hs| ->%list_elem_of_singleton]; [by apply (H3 p)|congruence].
  - intros q b b' (p & Hp & Hwf & Hq)%Hpiece Hb Hb' Hc Hsame.
    destruct (elem_of_pieces set p q Hwf Hq) as (_ & _ & side & Hside). rewrite Hside in Hc |- * by done.
    apply andb_true_iff in Hc as [Hc1 Hc2%Bool.eqb_prop]. apply andb_true_iff. split.
    + apply (H4 p b b'); [done..|]. intros s Hs. apply Hsame. set_solver.
    + rewrite <-(Hsame set) by set_solver. rewrite Hc2. apply Bool.eqb_reflx.
Qed.

(** A set already used for splitting changes nothing. *)
Lemma partition_more sets ps set : set ∈ sets → partition_ok sets ps → partition_ok (sets ++ [set]) ps.
Proof.
  intros Hin [H1 H2 H3 H4]. split; [done..| |].
  - intros p b b' s Hp Hb Hb' Hc Hc' [Hs| ->%list_elem_of_singleton]%elem_of_app; by apply (H3 p).
  - intros p b b' Hp Hb Hb' Hc Hs. apply (H4 p b b'); [done..|]. intros s Hss. apply Hs. set_solver.
Qed.

Lemma byte_partitions_ok a :
  (∀ set, set ∈ transition_sets a → U8Set.wf set) → partition_ok (transition_sets a) (byte_partitions a).
Proof.
  intros Hwf. unfold byte_partitions.
  assert (H : (λ pre st, partition_ok pre st.1 ∧ ∀ set, set ∈ st.2 ↔ set ∈ pre) (transition_sets a)
    (foldl refine_with ([U8Set.all], ∅) (transition_sets a))); [|apply H].
  apply foldl_inv_prefix.
  - intros pre set [ps seen] [suf Hsuf] [Hok Hseen]. cbn [fst snd] in *. unfold refine_with. case_bool_decide as Hin; cbn [fst snd].
    + split; [apply partition_more; [by apply Hseen|done]|]. set_solver.
    + split; [apply refine_ok; [apply Hwf; rewrite Hsuf; set_solver|done]|]. set_solver.
  - cbn [fst snd]. split; [|set_solver]. split.
    + intros p ->%list_elem_of_singleton. split; [apply U8SetFacts.all_wf|done].
    + intros b Hb. unfold cells. rewrite filter_cons, filter_nil, decide_True by (by apply U8SetFacts.contains_all). done.
    + intros p b b' set _ _ _ _ _ Hset. by apply elem_of_nil in Hset.
    + intros p b b' ->%list_elem_of_singleton _ Hb' _ _. by apply U8SetFacts.contains_all.
Qed.
End classes.

Lemma cells_index b (l : list U8Set.t) i j p q :
  length (cells b l) = 1%nat → l !! i = Some p → l !! j = Some q →
  U8Set.contains p b = true → U8Set.contains q b = true → i = j.
Proof.
  revert i j. induction l as [|x l IH]; intros i j Hu Hi Hj Hp Hq; [done|]. unfold cells in Hu. rewrite filter_cons in Hu.
  assert (Hnone : ∀ k y, length (filter (λ p, U8Set.contains p b = true) l) = 0%nat → l !! k = Some y → U8Set.contains y b = true → False).
  { intros k y Hz%nil_length_inv Hk Hy. assert (Hin : y ∈ filter (λ p, U8Set.contains p b = true) l).
    { apply list_elem_of_filter. split; [done|by eapply list_elem_of_lookup_2]. }
    rewrite Hz in Hin. by apply elem_of_nil in Hin. }
  destruct i as [|i], j as [|j]; simpl in Hi, Hj; [done| | |].
  - injection Hi as ->. rewrite decide_True in Hu by done. simpl in Hu. exfalso. eapply (Hnone j q); [lia|done..].
  - injection Hj as ->. rewrite decide_True in Hu by done. simpl in Hu. exfalso. eapply (Hnone i p); [lia|done..].
  - f_equal. case_decide as Hx.
    + exfalso. simpl in Hu. eapply (Hnone i p); [lia|done..].
    + by apply IH.
Qed.

Section outputs.
Context (ps : list U8Set.t) (Hok : ∃ sets, partition_ok sets ps).

Lemma cell_index b i j p q :
  b < 256 → ps !! i = Some p → ps !! j = Some q → U8Set.contains p b = true → U8Set.contains q b = true → i = j.
Proof using Hok. destruct Hok as (sets & [_ Hu _ _]). intros Hb. apply cells_index. by apply Hu. Qed.

Lemma cell_exists b : b < 256 → ∃ i p, ps !! i = Some p ∧ U8Set.contains p b = true.
Proof using Hok.
  intros Hb. destruct Hok as (sets & [_ Hu _ _]). specialize (Hu b Hb). unfold cells in Hu.
  destruct (filter _ ps) as [|p l] eqn:E; [done|]. assert (Hin : p ∈ filter (λ p, U8Set.contains p b = true) ps) by (rewrite E; by left).
  apply list_elem_of_filter in Hin as [Hc [i Hi]%list_elem_of_lookup]. by exists i, p.
Qed.

Lemma length_partitions : (length ps ≤ 256)%nat.
Proof using Hok.
  pose proof Hok as (sets & [Hwf _ _ _]).
  set (rep := λ p, default 0 (head (U8Set.iter p))).
  assert (Hrep : ∀ p, p ∈ ps → rep p < 256 ∧ U8Set.contains p (rep p) = true).
  { intros p Hp. destruct (Hwf p Hp) as [Hw He]. destruct (not_empty_contains p Hw He) as (b & Hb).
    apply elem_of_iter in Hb; [|done]. unfold rep. destruct (U8Set.iter p) as [|b0 l] eqn:E; [by apply elem_of_nil in Hb|].
    simpl. apply elem_of_iter; [done|]. rewrite E. by left. }
  rewrite <-(length_fmap rep ps). apply (NoDup_bounded_length _ 256).
  - apply NoDup_alt. intros i j x Hi Hj. rewrite list_lookup_fmap in Hi, Hj.
    destruct (ps !! i) as [p|] eqn:Ep; [|done]. destruct (ps !! j) as [q|] eqn:Eq; [|done].
    cbn in Hi, Hj. injection Hi as <-. injection Hj as Hj.
    destruct (Hrep p) as [Hb Hp]; [by eapply list_elem_of_lookup_2|].
    destruct (Hrep q) as [_ Hq]; [by eapply list_elem_of_lookup_2|]. rewrite Hj in Hq.
    by apply (cell_index (rep p) i j p q).
  - intros x (p & -> & Hp)%list_elem_of_fmap. apply (Hrep p Hp).
Qed.

(** One cell: its bytes point to its index and are its members. *)
Lemma class_output_spec index p class_map members l :
  members.[index] = Some l → U8Set.wf p →
  let r := class_output (class_map, members) (index, p) in
  lenN r.1 = lenN class_map ∧ r.2 = alterN (λ _, l ++ U8Set.iter p) members index ∧
  ∀ b, b < lenN class_map → r.1.[b] = if U8Set.contains p b && (b <? 256) then Some (index mod 256) else class_map.[b].
Proof.
  intros Hl Hp. unfold class_output.
  assert (Hbytes : ∀ bs class_map members l, members.[index] = Some l →
    let r := foldl (λ '(class_map, class_members) byte,
      (alterN (λ _, index mod 256) class_map byte, alterN (λ members, members ++ [byte]) class_members index))
      (class_map, members) bs in
    lenN r.1 = lenN class_map ∧ r.2 = alterN (λ _, l ++ bs) members index ∧
    ∀ b, b < lenN class_map → r.1.[b] = if bool_decide (b ∈ bs) then Some (index mod 256) else class_map.[b]).
  { clear. induction bs as [|x bs IH]; intros cm ms l Hl; cbn [foldl].
    - split; [done|]. split; [|intros b _; by rewrite bool_decide_eq_false_2 by apply not_elem_of_nil].
      apply nthN_ext. intros i. cbn [snd]. rewrite nthN_alterN, app_nil_r. destruct (N.eqb_spec i index) as [Heq|]; [|done]. by rewrite Heq, Hl.
    - destruct (IH (alterN (λ _, index mod 256) cm x) (alterN (λ members, members ++ [x]) ms index) (l ++ [x])) as (H1 & H2 & H3).
      { by rewrite nthN_alterN, N.eqb_refl, Hl. }
      rewrite lenN_alterN in H1, H3. split; [done|]. split.
      + rewrite H2. apply nthN_ext. intros i. rewrite !nthN_alterN. destruct (N.eqb_spec i index) as [Heq|]; [|done].
        rewrite Heq, Hl. simpl. by rewrite <-app_assoc.
      + intros b Hb. rewrite H3 by done. rewrite nthN_alterN. destruct (decide (b ∈ bs)) as [Hin|Hin].
        * rewrite !bool_decide_eq_true_2; [done|by right|done].
        * rewrite (bool_decide_eq_false_2 (b ∈ bs)) by done. destruct (N.eqb_spec b x) as [->|Hne].
          -- rewrite bool_decide_eq_true_2 by by left. apply nthN_Some_lt in Hb as [y ->]. done.
          -- rewrite bool_decide_eq_false_2; [done|]. by intros [?|?]%elem_of_cons. }
  destruct (Hbytes (U8Set.iter p) class_map members l Hl) as (H1 & H2 & H3). split; [done|]. split; [done|].
  intros b Hb. rewrite H3 by done. pose proof (elem_of_iter p b Hp) as He.
  destruct (U8Set.contains p b) eqn:Ec, (N.ltb_spec b 256); cbn [andb];
    [by rewrite bool_decide_eq_true_2 by (by apply He)|rewrite bool_decide_eq_false_2; [done|]; rewrite He..]; lia || naive_solver.
Qed.

Lemma outputs_spec :
  let r := build_equivalence_class_outputs ps in
  lenN r.1 = 256 ∧ lenN r.2 = lenN ps ∧
  (∀ i p, ps.[i] = Some p → r.2.[i] = Some (U8Set.iter p)) ∧
  ∀ b i p, b < 256 → ps.[i] = Some p → U8Set.contains p b = true → r.1.[b] = Some i.
Proof using Hok.
  unfold build_equivalence_class_outputs. pose proof Hok as (sets & [Hwf _ _ _]).
  assert (Hgen : ∀ k pre suf st, ps = pre ++ suf → k = lenN pre →
    lenN st.1 = 256 → st.2 = (U8Set.iter <$> pre) ++ replicate (length suf) [] →
    (∀ b i p, b < 256 → pre.[i] = Some p → U8Set.contains p b = true → st.1.[b] = Some i) →
    let r := foldl class_output st (imap (λ i x, (N.of_nat (N.to_nat k + i), x)) suf) in
    lenN r.1 = 256 ∧ r.2 = U8Set.iter <$> ps ∧
    ∀ b i p, b < 256 → ps.[i] = Some p → U8Set.contains p b = true → r.1.[b] = Some i).
  { intros k pre suf. revert k pre. induction suf as [|p suf IH]; intros k pre [cm ms] Hps Hk Hlen Hms Hcm; cbn [fst snd] in *.
    - rewrite app_nil_r in Hps, Hms. subst pre. done.
    - cbn [imap foldl]. rewrite Nat.add_0_r, N2Nat.id.
      assert (Hki : ms.[k] = Some []).
      { rewrite Hms, nthN_lookup, lookup_app_r by (rewrite length_fmap; unfold lenN in Hk; lia).
        replace (N.to_nat k - length (U8Set.iter <$> pre))%nat with 0%nat by (rewrite length_fmap; unfold lenN in Hk; lia). done. }
      assert (Hp : p ∈ ps) by (rewrite Hps; set_solver).
      destruct (class_output_spec k p cm ms [] Hki) as (H1 & H2 & H3); [by apply Hwf|].
      destruct (class_output (cm, ms) (k, p)) as [cm' ms'] eqn:E. cbn [fst snd] in *.
      replace (imap ((λ i x, (N.of_nat (N.to_nat k + i), x)) ∘ S) suf) with (imap (λ i x, (N.of_nat (N.to_nat (k + 1) + i), x)) suf)
        by (apply imap_ext; intros; simpl; f_equal; lia).
      apply (IH (k + 1) (pre ++ [p])); cbn [fst snd].
      + by rewrite <-app_assoc.
      + rewrite lenN_snoc. lia.
      + lia.
      + rewrite H2, Hms, alterN_alter, fmap_app, <-app_assoc. cbn [length replicate app].
        replace (N.to_nat k) with (length (U8Set.iter <$> pre)) by (rewrite length_fmap; unfold lenN in Hk; lia).
        by rewrite CharTransitionsFacts.list_alter_middle.
      + assert (Hkl : k < 256).
        { pose proof length_partitions as Hl. rewrite Hps, length_app in Hl. simpl in Hl. unfold lenN in Hk. lia. }
        intros b i q Hb Hi Hq. rewrite H3 by lia. rewrite nthN_snoc in Hi. subst k.
        destruct (N.eqb_spec i (lenN pre)) as [->|Hne].
        * injection Hi as <-. rewrite Hq, (proj2 (N.ltb_lt _ _) Hb). cbn [andb].
          by rewrite N.mod_small.
        * rewrite (Hcm b i q) by done.
          destruct (U8Set.contains p b && (b <? 256)) eqn:Ec; [exfalso|done]. apply andb_true_iff in Ec as [Ec _].
          apply Hne. pose proof (nthN_lt _ _ _ Hi). rewrite nthN_lookup in Hi.
          assert (N.to_nat i = length pre); [|unfold lenN; lia].
          apply (cell_index b _ _ q p Hb); [|rewrite Hps; by apply list_lookup_middle|done|done].
          rewrite Hps. by apply lookup_app_l_Some. }
  destruct (Hgen 0 [] ps (replicate 256 0, replicate (length ps) [])) as (H1 & H2 & H3); [done..|].
  change (enumerate ps) with (imap (λ i x, (N.of_nat (N.to_nat 0 + i), x)) ps). cbn zeta.
  split; [exact H1|]. rewrite H2. split; [by rewrite lenN_fmap|]. split; [|exact H3].
  intros i p Hi. by rewrite nthN_fmap, Hi.
Qed.
End outputs.

Lemma equivalence_classes_spec (a : Nfa.t) :
  (∀ set, set ∈ transition_sets a → U8Set.wf set) →
  ∃ class_map count members, compute_equivalence_classes a = (class_map, count, members) ∧
  count ≤ 256 ∧ lenN class_map = 256 ∧ lenN members = count ∧
  (∀ b b', b < 256 → b' < 256 →
     class_map.[b] = class_map.[b'] ↔
     ∀ set, set ∈ transition_sets a → U8Set.contains set b = U8Set.contains set b') ∧
  (∀ b, b < 256 → ∃ c, class_map.[b] = Some c ∧ c < count) ∧
  (∀ c, c < count → ∃ bytes, members.[c] = Some bytes ∧ bytes ≠ [] ∧ strictly_sorted bytes ∧
     ∀ b, b ∈ bytes ↔ b < 256 ∧ class_map.[b] = Some c).
Proof.
  intros Hwf. unfold compute_equivalence_classes. pose proof (byte_partitions_ok a Hwf) as Hok.
  set (ps := byte_partitions a) in *. assert (Hex : ∃ sets, partition_ok sets ps) by by eexists.
  destruct (outputs_spec ps Hex) as (H1 & H2 & H3 & H4). pose proof (length_partitions ps Hex) as Hlen.
  destruct (build_equivalence_class_outputs ps) as [class_map members]. cbn [fst snd] in *.
  destruct Hok as [Hcell _ Hsame Hsep].
  assert (Hclass : ∀ b, b < 256 → ∃ i p, ps.[i] = Some p ∧ U8Set.contains p b = true ∧ class_map.[b] = Some i ∧ p ∈ ps).
  { intros b Hb. destruct (cell_exists ps Hex b Hb) as (i & p & Hi & Hc). exists (N.of_nat i), p.
    rewrite nthN_of_nat. split; [done|]. split; [done|]. split; [by apply (H4 b _ p Hb); [rewrite nthN_of_nat|]|].
    by eapply list_elem_of_lookup_2. }
  eexists _, _, _. split; [reflexivity|].
  split; [unfold lenN; lia|]. split; [done|]. split; [done|]. split; [|split].
  - intros b b' Hb Hb'. destruct (Hclass b Hb) as (i & p & Hi & Hc & Hm & Hp).
    destruct (Hclass b' Hb') as (i' & p' & Hi' & Hc' & Hm' & Hp'). split.
    + intros Heq set Hset. assert (i = i') as <- by congruence. assert (p = p') as <- by congruence. by apply (Hsame p).
    + intros Hs. pose proof (Hsep p b b' Hp Hb Hb' Hc Hs) as Hcb. rewrite (H4 b i p) by done. by rewrite (H4 b' i p).
  - intros b Hb. destruct (Hclass b Hb) as (i & p & Hi & _ & Hm & _). exists i. split; [done|]. by eapply nthN_lt.
  - intros c Hc. apply nthN_Some_lt in Hc as [p Hp]. exists (U8Set.iter p). rewrite (H3 c p Hp). split; [done|].
    assert (Hin : p ∈ ps) by (apply nthN_elem_of; by exists c). destruct (Hcell p Hin) as [Hw He]. split; [|split; [by apply iter_sorted|]].
    + destruct (not_empty_contains p Hw He) as (b & Hb). apply elem_of_iter in Hb; [|done]. intros Hn. rewrite Hn in Hb. by apply elem_of_nil in Hb.
    + intros b. rewrite elem_of_iter by done. split; intros [Hb Hcb]; (split; [done|]).
      * by apply (H4 b c p).
      * destruct (Hclass b Hb) as (i & q & Hi & Hq & Hm & _). assert (i = c) as -> by congruence. congruence.
Qed.

(** The classes of bytes: there are at most 256, each byte has one, two bytes
    share it exactly when every byte set of a transition holds both or neither,
    and the members of a class are its bytes in ascending order. *)
Theorem equivalence_classes_correct (a : Nfa.t) :
  (∀ set, set ∈ transition_sets a → U8Set.wf set) →
  ∃ class_map count members, compute_equivalence_classes a = (class_map, count, members) ∧
  count ≤ 256 ∧ lenN class_map = 256 ∧ lenN members = count ∧
  (∀ b b', b < 256 → b' < 256 →
     class_map.[b] = class_map.[b'] ↔
     ∀ set, set ∈ transition_sets a → U8Set.contains set b = U8Set.contains set b') ∧
  (∀ b, b < 256 → ∃ c, class_map.[b] = Some c ∧ c < count) ∧
  (∀ c, c < count → ∃ bytes, members.[c] = Some bytes ∧ bytes ≠ [] ∧ strictly_sorted bytes ∧
     ∀ b, b ∈ bytes ↔ b < 256 ∧ class_map.[b] = Some c).
Proof. apply equivalence_classes_spec. Qed.

(** * The closure *)

Section closure.
Context (a : Nfa.t).

Definition epsilon (s t : N) : Prop :=
  ∃ row, (states a).[s] = Some row ∧ t ∈ NFAState.epsilon_transitions row.

Definition edge_targets : list N := s ← states a; NFAState.epsilon_transitions s.

Lemma epsilon_target s t : epsilon s t → t ∈ edge_targets.
Proof.
  intros (row & Hrow & Ht). apply list_elem_of_bind. exists row. split; [done|].
  apply nthN_elem_of. by exists s.
Qed.

Lemma length_edge_targets : length edge_targets = sum_list_with (λ s, length (NFAState.epsilon_transitions s)) (states a).
Proof.
  unfold edge_targets. induction (states a) as [|s l IH]; [done|]. rewrite bind_cons, length_app, IH. done.
Qed.

Section loop.
Context (states0 : gset N).
Let root (r : N) : Prop := r ∈ states0.
Let U : gset N := states0 ∪ list_to_set edge_targets.

Lemma reached_universe s : reached epsilon root s → s ∈ U.
Proof.
  intros (r & Hr & Hrs). unfold U. destruct (rtc_inv_r _ _ Hrs) as [->|(y & _ & Hy)]; [set_solver|].
  apply epsilon_target in Hy. apply elem_of_union. right. by apply elem_of_list_to_set.
Qed.

Lemma size_universe_nfa : (size U ≤ size states0 + length edge_targets)%nat.
Proof.
  unfold U. rewrite size_union_alt. pose proof (size_list_to_set_le edge_targets).
  assert (size (list_to_set edge_targets ∖ states0 : gset N) ≤ size (list_to_set edge_targets : gset N))%nat
    by (apply subseteq_size; set_solver). lia.
Qed.

Definition nfa_closure_inv (st : gset N * list N) (m : nat) : Prop :=
  ∃ popped, search_ok epsilon root [] st.1 st.2 popped ∧ states0 ⊆ st.1 ∧ (m + size st.1 = length st.2 + size U)%nat.

Lemma nfa_closure_step_inv st st' m :
  nfa_closure_inv st m → closure_step a st = inl st' → ∃ m', nfa_closure_inv st' m' ∧ (m' < m)%nat.
Proof.
  destruct st as [closure [|s stack]]; cbn [closure_step]; [done|]. intros (popped & Hok & Hroots & Hm) Hstep.
  cbn [fst snd] in *. set (targets := match (states a).[s] with Some row => NFAState.epsilon_transitions row | None => [] end).
  assert (Hst' : st' = foldl push_unseen (closure, stack) targets).
  { unfold targets. by destruct ((states a).[s]); injection Hstep as <-. }
  assert (Ht : ∀ t, epsilon s t ↔ t ∈ targets).
  { intros t. unfold epsilon, targets. destruct ((states a).[s]) as [row|].
    - split; [intros (row' & Hr & Hin); by simplify_eq|intros Hin; by exists row].
    - split; [by intros (row' & ? & _)|by intros ?%elem_of_nil]. }
  pose proof (pop_ok epsilon root s targets closure stack popped Ht Hok) as Hp. rewrite <-Hst' in Hp.
  destruct st' as [closure' stack']. destruct Hp as (Hok' & Hsub & Hl).
  pose proof (seen_bound epsilon root U _ _ _ _ reached_universe Hok').
  exists (pred m). simpl in Hm |- *. split; [|lia]. exists (popped ++ [s]). cbn [fst snd].
  split; [done|]. split; [by etrans|lia].
Qed.
End loop.
End closure.

(** The closure of a set of NFA states ends and is the set of the states
    reached from it over epsilon edges; targets that are not states are kept. *)
Theorem nfa_epsilon_closure_correct (a : Nfa.t) (states0 : gset N) :
  ∃ closure, Nfa.epsilon_closure a states0 = Some closure ∧
    ∀ t, t ∈ closure ↔ ∃ r, r ∈ states0 ∧ rtc (epsilon a) r t.
Proof.
  unfold Nfa.epsilon_closure. set (start := (states0, reverse (sort_N (elements states0)))).
  assert (Hinv : nfa_closure_inv a states0 start (size (states0 ∪ list_to_set (edge_targets a)))).
  { exists []. unfold start. cbn [fst snd]. split; [|split; [done|]].
    - split.
      + intros s. rewrite elem_of_reverse, elem_of_sort_N, elem_of_elements, elem_of_nil. tauto.
      + rewrite app_nil_r, reverse_Permutation. eapply strictly_sorted_NoDup, strictly_sorted_sort_N, NoDup_elements.
      + intros s Hs. by exists s.
      + intros s t Hs. by apply elem_of_nil in Hs.
    - rewrite length_reverse, length_sort_N. unfold size at 2, set_size. simpl. lia. }
  destruct (run_terminates (closure_step a) (nfa_closure_inv a states0) (closure_fuel a states0) start _
    (nfa_closure_step_inv a states0) Hinv) as (r & [closure stack] & m & -> & (popped & Hok & Hroots & _) & Hexit).
  - unfold closure_fuel. rewrite <-length_edge_targets. pose proof (size_universe_nfa a states0).
    pose proof (pow2_S_gt (size states0 + length (edge_targets a))). lia.
  - cbn [fst snd] in *. destruct stack as [|s stack]; cbn [closure_step] in Hexit; [|by destruct ((states a).[s])].
    injection Hexit as <-. exists closure. split; [done|]. intros t.
    by apply (search_done (epsilon a) (λ r, r ∈ states0) closure popped Hroots Hok).
Qed.

(** * The flat table *)

Lemma bind_one {A B} (f : A → list B) x : ([x] ≫= f) = f x.
Proof. apply app_nil_r. Qed.

Lemma compact_spec l :
  let st := foldl (λ '(offsets, targets) (state : NFAState.t),
      (offsets ++ [as_u32 (lenN targets)], targets ++ NFAState.epsilon_transitions state)) ([], []) l in
  lenN st.1 = lenN l ∧ st.2 = (s ← l; NFAState.epsilon_transitions s) ∧
  ∀ pre s suf, l = pre ++ s :: suf →
    st.1.[lenN pre] = Some (as_u32 (lenN (s ← pre; NFAState.epsilon_transitions s))).
Proof.
  induction l as [|x l IH] using rev_ind.
  - split; [done|]. split; [done|]. intros [|??] s suf H; discriminate.
  - rewrite foldl_snoc. destruct (foldl _ _ l) as [offsets targets]. cbn [fst snd] in *. destruct IH as (H1 & H2 & H3).
    split; [by rewrite !lenN_snoc, H1|]. split; [by rewrite H2, bind_app, bind_one|].
    intros pre s suf Heq. rewrite nthN_snoc, H1. destruct suf as [|y suf _] using rev_ind.
    + apply app_inj_tail in Heq as [-> ->]. by rewrite N.eqb_refl, H2.
    + rewrite app_comm_cons, app_assoc in Heq. apply app_inj_tail in Heq as [-> ->].
      destruct (N.eqb_spec (lenN pre) (lenN (pre ++ s :: suf))) as [Hc|]; [|by apply (H3 pre s suf)].
      rewrite lenN_app in Hc. unfold lenN in Hc. simpl in Hc. lia.
Qed.

(** The flat table lists the epsilon targets of the states one after the other,
    and the offsets of a state and of the next one delimit its own. *)
Lemma compact_row (a : Nfa.t) (s : N) (row : NFAState.t) :
  lenN (edge_targets a) < u32_modulus → (states a).[s] = Some row →
  let c := build_compact_nfa a in
  lenN (CompactNFA.epsilon_offsets c) = Nfa.num_states a + 1 ∧
  ∃ lo hi, (CompactNFA.epsilon_offsets c).[s] = Some lo ∧ (CompactNFA.epsilon_offsets c).[s + 1] = Some hi ∧
    slice (CompactNFA.epsilon_targets c) lo hi = Some (NFAState.epsilon_transitions row).
Proof.
  intros Hsmall Hrow. unfold build_compact_nfa. pose proof (compact_spec (states a)) as Hc.
  destruct (foldl _ _ (states a)) as [offsets targets]. cbn [fst snd] in *. destruct Hc as (H1 & H2 & H3).
  change (s ← states a; NFAState.epsilon_transitions s) with (edge_targets a) in H2.
  cbn [CompactNFA.epsilon_offsets CompactNFA.epsilon_targets]. split; [by rewrite lenN_snoc, H1|].
  rewrite nthN_lookup in Hrow. apply list_elem_of_split_length in Hrow as (pre & suf & Heq & Hlen).
  assert (Hs : s = lenN pre) by (unfold lenN; lia). subst s.
  set (flat := λ l : list NFAState.t, s ← l; NFAState.epsilon_transitions s).
  assert (Htargets : targets = flat pre ++ NFAState.epsilon_transitions row ++ flat suf).
  { rewrite H2. unfold edge_targets. rewrite Heq, bind_app, bind_cons. done. }
  assert (Hfit : lenN (flat pre ++ NFAState.epsilon_transitions row) ≤ lenN targets).
  { rewrite Htargets, !lenN_app. lia. }
  assert (Hlo : as_u32 (lenN (flat pre)) = lenN (flat pre)).
  { apply as_u32_small. rewrite H2 in Hfit. rewrite lenN_app in Hfit. lia. }
  exists (lenN (flat pre)), (lenN (flat pre ++ NFAState.epsilon_transitions row)). split; [|split].
  - rewrite nthN_app_l by (rewrite H1, Heq, lenN_app; unfold lenN; simpl; lia). rewrite (H3 pre row suf Heq). f_equal. exact Hlo.
  - destruct suf as [|y suf].
    + rewrite nthN_snoc, H1, Heq, lenN_snoc, N.eqb_refl. f_equal. rewrite Htargets, app_nil_r.
      apply as_u32_small. rewrite Htargets, app_nil_r in H2. rewrite H2. lia.
    + rewrite nthN_app_l by (rewrite H1, Heq, lenN_app; unfold lenN; simpl; lia).
      replace (lenN pre + 1) with (lenN (pre ++ [row])) by apply lenN_snoc.
      rewrite (H3 (pre ++ [row]) y suf) by by rewrite <-app_assoc. f_equal.
      rewrite bind_app, bind_one. fold (flat pre). rewrite H2 in Hfit. apply as_u32_small.
      eapply N.le_lt_trans; [exact Hfit|exact Hsmall].
  - unfold slice. rewrite (proj2 (N.leb_le _ _)) by (rewrite lenN_app; lia). rewrite (proj2 (N.leb_le _ _)) by done.
    cbn [andb]. f_equal. rewrite Htargets. replace (N.to_nat (lenN (flat pre))) with (length (flat pre)) by (unfold lenN; lia).
    rewrite drop_app_length, lenN_app. replace (N.to_nat _) with (length (NFAState.epsilon_transitions row)) by (unfold lenN; lia).
    apply take_app_length.
Qed.

(** Two states: a digit loop and an epsilon edge to an accepting letter edge. *)
Definition nfa_ab : Nfa.t :=
  Nfa.add_finalizer (Nfa.add_epsilon (Nfa.add_u8set_transition
    (Nfa.add_u8set_transition (Nfa.new 2) 0 (U8Set.from_range 48 57) 0) 1 (U8Set.from_range 53 90) 0) 0 1) 1 7.

Lemma equivalence_classes_correct_witness :
  let r := compute_equivalence_classes nfa_ab in
  r.1.2 = 4 ∧ r.1.1.[48] = r.1.1.[52] ∧ r.1.1.[48] ≠ r.1.1.[53].
Proof.
  assert (Hl : transition_sets nfa_ab = [U8Set.from_range 48 57; U8Set.from_range 53 90]) by (vm_compute; reflexivity).
  assert (Hcount : (compute_equivalence_classes nfa_ab).1.2 = 4) by (vm_compute; reflexivity).
  pose proof (equivalence_classes_correct nfa_ab) as H. rewrite Hl in H.
  assert (Hsets : ∀ (P : U8Set.t → Prop), P (U8Set.from_range 48 57) → P (U8Set.from_range 53 90) →
    ∀ set, set ∈ [U8Set.from_range 48 57; U8Set.from_range 53 90] → P set).
  { intros P H1 H2 set [->|[->|[]%elem_of_nil]%elem_of_cons]%elem_of_cons; assumption. }
  destruct H as (class_map & count & members & Heq & _ & _ & _ & Hsame & _); [|rewrite Heq in Hcount |- *].
  - apply Hsets; apply U8SetFacts.wf_b_spec; vm_compute; reflexivity.
  - split; [exact Hcount|]. split.
    + apply Hsame; [reflexivity..|]. apply (Hsets (λ set, U8Set.contains set 48 = U8Set.contains set 52)); vm_compute; reflexivity.
    + intros Hab. apply (proj1 (Hsame 48 53 eq_refl eq_refl)) with (set := U8Set.from_range 53 90) in Hab; [|right; left]. vm_compute in Hab. discriminate.
Defined.
