(* ===== verification/Tarjan.v ===== *)
(** Tarjan's search for strongly connected components, as the lexer runs it over
    arrays with an explicit stack of frames: the invariants of its four actions
    (a state is reached, a bound is lowered, a component is closed, a frame is
    left), for any graph on the states below a bound.  The condensation of the
    NFA and the propagation of group reachability both run this search. *)

From stdpp Require Import relations.
From S2P Require Import Prelude Search LexNfa.
Import Nfa.

(** * The argument of the search, on numbers of discovery *)

Section core.
Context (E : N → N → Prop).
Implicit Types (D L : N → Z) (stack greys : list N).

(** Later states first. *)
Definition descending D (l : list N) : Prop := StronglySorted (λ x y, (D y < D x)%Z) l.

(** [w] is the last grey state before [v]. *)
Definition nearest D greys (v w : N) : Prop :=
  w ∈ greys ∧ (D w < D v)%Z ∧ ∀ w', w' ∈ greys → (D w' < D v)%Z → (D w' ≤ D w)%Z.

(** [greys] are the states that have a frame, the latest first; [L] is the
    least number known to be reached on the stack. *)
Record scc_core D L stack greys : Prop := {
  c_sorted : descending D stack;
  c_greys : ∀ s, s ∈ greys → s ∈ stack;
  c_greys_sorted : descending D greys;
  c_path : ∀ v w, v ∈ stack → w ∈ greys → (D w ≤ D v)%Z → rtc E w v;
  c_low_le : ∀ v, v ∈ stack → (L v ≤ D v)%Z;
  c_low : ∀ v, v ∈ stack → ∃ u, u ∈ stack ∧ D u = L v ∧ rtc E v u;
  c_done : ∀ v, v ∈ stack → v ∉ greys → (L v < D v)%Z;
  c_nearest : ∀ v w, v ∈ stack → v ∉ greys → nearest D greys v w → (L w ≤ L v)%Z;
  c_below : ∀ v, v ∈ stack → ∃ w, w ∈ greys ∧ (D w ≤ D v)%Z;
}.

Lemma descending_ext D D' l : (∀ s, s ∈ l → D s = D' s) → descending D l → descending D' l.
Proof.
  intros Heq. induction 1 as [|x l Hl IH Hx]; constructor.
  - apply IH. intros s Hs. apply Heq. by right.
  - rewrite Forall_forall in Hx |- *. intros y Hy. rewrite <-!Heq by (by left || by right). auto.
Qed.

Lemma core_ext D L D' L' stack greys :
  (∀ s, s ∈ stack → D s = D' s ∧ L s = L' s) → scc_core D L stack greys → scc_core D' L' stack greys.
Proof.
  intros Heq [H1 H2 H3 H4 H5 H6 H7 H8 H9].
  assert (HD : ∀ s, s ∈ stack → D s = D' s) by (intros; by apply Heq).
  assert (HL : ∀ s, s ∈ stack → L s = L' s) by (intros; by apply Heq).
  split; [by apply (descending_ext D)|done|apply (descending_ext D); auto|..].
  - intros v w Hv Hw. rewrite <-!HD by auto. auto.
  - intros v Hv. rewrite <-HD, <-HL by auto. auto.
  - intros v Hv. destruct (H6 v Hv) as (u & Hu & Hd & Hr). exists u. rewrite <-HD, <-HL by auto. auto.
  - intros v Hv Hg. rewrite <-HD, <-HL by auto. auto.
  - intros v w Hv Hg (Hw & Hlt & Hmax). rewrite <-!HL by auto. apply H8; [done..|]. split; [done|].
    rewrite !HD by auto. split; [done|]. intros w' Hw'. rewrite HD by auto. auto.
  - intros v Hv. destruct (H9 v Hv) as (w & Hw & Hle). exists w. rewrite <-!HD by auto. auto.
Qed.

Lemma core_inj D L stack greys u v : scc_core D L stack greys → u ∈ stack → v ∈ stack → D u = D v → u = v.
Proof.
  intros [Hs _ _ _ _ _ _ _ _]. induction Hs as [|x l Hs IH Hx]; intros Hu Hv Heq; [by apply elem_of_nil in Hu|].
  rewrite Forall_forall in Hx. apply elem_of_cons in Hu as [->|Hu], Hv as [->|Hv]; [done| | |auto].
  - specialize (Hx v Hv). lia.
  - specialize (Hx u Hu). lia.
Qed.

Lemma top_grey D L stack s greys w : scc_core D L stack (s :: greys) → w ∈ greys → (D w < D s)%Z.
Proof. intros Hc Hw. apply c_greys_sorted, StronglySorted_inv in Hc as [_ Hs]. rewrite Forall_forall in Hs. auto. Qed.

Lemma top_grey_le D L stack s greys w : scc_core D L stack (s :: greys) → w ∈ s :: greys → (D w ≤ D s)%Z.
Proof. intros Hc [->|Hw]%elem_of_cons; [done|]. pose proof (top_grey _ _ _ _ _ _ Hc Hw). lia. Qed.

(** A state is reached: it joins the stack and the grey states. *)
Lemma core_discover D L stack greys x :
  scc_core D L stack greys → (∀ s, s ∈ stack → (D s < D x)%Z) → L x = D x →
  match greys with [] => True | p :: _ => E p x end → scc_core D L (x :: stack) (x :: greys).
Proof.
  intros Hc Hlt HL Hp. pose proof Hc as [H1 H2 H3 H4 H5 H6 H7 H8 H9]. split.
  - constructor; [done|]. by apply Forall_forall.
  - intros s [->|Hs]%elem_of_cons; [by left|right; auto].
  - constructor; [done|]. apply Forall_forall. auto.
  - intros v w [->|Hv]%elem_of_cons [->|Hw]%elem_of_cons Hle; [done| | |auto].
    + destruct greys as [|p greys]; [by apply elem_of_nil in Hw|]. eapply rtc_r; [|exact Hp].
      apply H4; [apply H2; by left|done|]. by eapply top_grey_le.
    + specialize (Hlt v Hv). lia.
  - intros v [->|Hv]%elem_of_cons; [lia|auto].
  - intros v [->|Hv]%elem_of_cons; [exists x; split; [by left|]; by rewrite HL|].
    destruct (H6 v Hv) as (u & Hu & Hur). exists u. split; [by right|done].
  - intros v [->|Hv]%elem_of_cons Hg; [exfalso; apply Hg; by left|]. apply H7; [done|]. intros ?. apply Hg. by right.
  - intros v w [->|Hv]%elem_of_cons Hg (Hw & Hwv & Hmax); [exfalso; apply Hg; by left|].
    apply elem_of_cons in Hw as [->|Hw]; [specialize (Hlt v Hv); lia|].
    apply H8; [done|intros ?; apply Hg; by right|]. split; [done|]. split; [done|]. intros w' Hw'. apply Hmax. by right.
  - intros v [->|Hv]%elem_of_cons; [exists x; split; [by left|lia]|].
    destruct (H9 v Hv) as (w & Hw & Hle). exists w. split; [by right|done].
Qed.

Definition lowered L (s : N) (b : Z) (v : N) : Z := if v =? s then Z.min (L s) b else L v.

Lemma lowered_le L s b v : (lowered L s b v ≤ L v)%Z.
Proof. unfold lowered. destruct (N.eqb_spec v s); subst; lia. Qed.

(** A grey state learns of a state of the stack that it reaches. *)
Lemma core_lower D L stack greys s u :
  scc_core D L stack greys → s ∈ greys → u ∈ stack → rtc E s u → scc_core D (lowered L s (D u)) stack greys.
Proof.
  intros Hc Hs Hu Hsu. pose proof Hc as [H1 H2 H3 H4 H5 H6 H7 H8 H9]. split; try done.
  - intros v Hv. pose proof (lowered_le L s (D u) v). specialize (H5 v Hv). lia.
  - intros v Hv. unfold lowered. destruct (N.eqb_spec v s) as [->|]; [|auto].
    destruct (Z.min_spec (L s) (D u)) as [[_ ->]|[_ ->]]; [by apply H6|by exists u].
  - intros v Hv Hg. unfold lowered. destruct (N.eqb_spec v s) as [->|]; [done|auto].
  - intros v w Hv Hg Hn. unfold lowered at 2. destruct (N.eqb_spec v s) as [->|]; [done|].
    pose proof (lowered_le L s (D u) w). specialize (H8 v w Hv Hg Hn). lia.
Qed.

(** A state that reaches an earlier one stays on the stack when its frame is
    left, and its parent learns its bound. *)
Lemma core_leave D L stack greys s :
  scc_core D L stack (s :: greys) → (L s < D s)%Z →
  ∃ p rest, greys = p :: rest ∧ scc_core D (lowered L p (L s)) stack greys.
Proof.
  intros Hc Hlt. pose proof Hc as [H1 H2 H3 H4 H5 H6 H7 H8 H9].
  assert (Hs : s ∈ stack) by (apply H2; by left).
  destruct (H6 s Hs) as (u & Hu & Hdu & Hsu). destruct (H9 u Hu) as (w & Hw & Hwu).
  apply elem_of_cons in Hw as [->|Hw]; [lia|].
  destruct greys as [|p rest]; [by apply elem_of_nil in Hw|]. exists p, rest. split; [done|].
  assert (Hp : p ∈ stack) by (apply H2; right; by left).
  assert (Hps : (D p < D s)%Z) by (eapply top_grey; [exact Hc|by left]).
  assert (Hpmax : ∀ x, x ∈ p :: rest → (D x ≤ D p)%Z).
  { apply StronglySorted_inv in H3 as [H3 _]. apply StronglySorted_inv in H3 as [_ H3]. rewrite Forall_forall in H3.
    intros x [->|Hx]%elem_of_cons; [done|]. specialize (H3 x Hx). lia. }
  assert (Hgrey : ∀ v, v ∉ p :: rest → v ≠ s → v ∉ s :: p :: rest) by (intros v Hv Hvs [?|?]%elem_of_cons; done).
  split.
  - done.
  - intros x Hx. apply H2. by right.
  - by apply StronglySorted_inv in H3 as [H3 _].
  - intros v x Hv Hx. apply H4; [done|by right].
  - intros v Hv. pose proof (lowered_le L p (L s) v). specialize (H5 v Hv). lia.
  - intros v Hv. unfold lowered. destruct (N.eqb_spec v p) as [->|]; [|auto].
    destruct (Z.min_spec (L p) (L s)) as [[_ ->]|[_ ->]]; [by apply H6|]. exists u. split; [done|]. split; [done|].
    etrans; [|exact Hsu]. apply H4; [done|right; by left|lia].
  - intros v Hv Hg. pose proof (lowered_le L p (L s) v). destruct (decide (v = s)) as [->|Hvs]; [lia|].
    specialize (H7 v Hv (Hgrey v Hg Hvs)). lia.
  - intros v x Hv Hg (Hx & Hxv & Hmax). unfold lowered at 2. destruct (N.eqb_spec v p) as [->|Hvp]; [exfalso; apply Hg; by left|].
    destruct (decide (v = s)) as [->|Hvs].
    { assert (x = p) as ->.
      { eapply core_inj; [exact Hc|by apply H2; right|done|]. pose proof (Hpmax x Hx). pose proof (Hmax p ltac:(by left) Hps). lia. }
      unfold lowered. rewrite N.eqb_refl. lia. }
    destruct (decide (D s < D v)%Z) as [Hsv|Hsv].
    + assert (x = p) as ->.
      { eapply core_inj; [exact Hc|by apply H2; right|done|]. pose proof (Hpmax x Hx). pose proof (Hmax p ltac:(by left) ltac:(lia)). lia. }
      assert (L s ≤ L v)%Z; [|unfold lowered; rewrite N.eqb_refl; lia].
      apply H8; [done|by apply Hgrey|]. split; [by left|]. split; [done|]. intros w' Hw' _. by eapply top_grey_le.
    + pose proof (lowered_le L p (L s) x). assert (L x ≤ L v)%Z; [|lia].
      apply H8; [done|by apply Hgrey|]. split; [by right|]. split; [done|]. intros w' [->|Hw']%elem_of_cons Hlt'; [lia|auto].
  - intros v Hv. destruct (H9 v Hv) as (x & [->|Hx]%elem_of_cons & Hle); [exists w; split; [done|lia]|by exists x].
Qed.

(** A state that reaches no earlier one is the root of a component: the states
    above it on the stack reach it and are reached from it. *)
Lemma core_pop D L above s below greys :
  scc_core D L (above ++ s :: below) (s :: greys) → L s = D s →
  scc_core D L below greys ∧ (∀ m, m ∈ above ++ [s] → rtc E m s ∧ rtc E s m) ∧
  (∀ v, v ∈ below → (D v < D s)%Z).
Proof.
  intros Hc Heq. pose proof Hc as [H1 H2 H3 H4 H5 H6 H7 H8 H9].
  set (stack := above ++ s :: below) in *.
  apply StronglySorted_app in H1 as (Hab & Habove & Hbelow). apply StronglySorted_inv in Hbelow as [Hbelow Hsb].
  rewrite Forall_forall in Hsb.
  assert (Hs : s ∈ stack) by (unfold stack; set_solver).
  assert (Hbs : ∀ v, v ∈ below → v ∈ stack) by (unfold stack; set_solver).
  assert (Hlow : ∀ v, v ∈ stack → (D v < D s)%Z → v ∈ below).
  { intros v [Hv|[->|Hv]%elem_of_cons]%elem_of_app Hlt; [|lia|done]. specialize (Hab v s Hv ltac:(by left)). lia. }
  split; [|split; [|exact Hsb]].
  - split.
    + done.
    + intros x Hx. apply Hlow; [apply H2; by right|by eapply top_grey].
    + by apply StronglySorted_inv in H3 as [H3 _].
    + intros v w Hv Hw. apply H4; [auto|by right].
    + intros v Hv. auto.
    + intros v Hv. destruct (H6 v (Hbs v Hv)) as (u & Hu & Hdu & Hr). exists u. split; [|done].
      apply Hlow; [done|]. specialize (Hsb v Hv). specialize (H5 v (Hbs v Hv)). lia.
    + intros v Hv Hg. apply H7; [auto|]. intros [->|?]%elem_of_cons; [specialize (Hsb s Hv); lia|done].
    + intros v w Hv Hg (Hw & Hwv & Hmax). apply H8; [auto| |].
      * intros [->|?]%elem_of_cons; [specialize (Hsb s Hv); lia|done].
      * split; [by right|]. split; [done|]. intros w' [->|Hw']%elem_of_cons Hlt; [specialize (Hsb v Hv); lia|auto].
    + intros v Hv. destruct (H9 v (Hbs v Hv)) as (w & [->|Hw]%elem_of_cons & Hle); [specialize (Hsb v Hv); lia|by exists w].
  - intros m Hm. assert (Hms : m ∈ stack) by (unfold stack; set_solver).
    assert (Hge : (D s ≤ D m)%Z).
    { apply elem_of_app in Hm as [Hm| ->%list_elem_of_singleton]; [|done]. specialize (Hab m s Hm ltac:(by left)). lia. }
    split; [|apply H4; [done|by left|done]].
    clear Hm. remember (Z.to_nat (D m - D s)) as k eqn:Hk. revert m Hms Hge Hk.
    induction (lt_wf k) as [k _ IH]. intros m Hms Hge ->.
    destruct (decide (D m = D s)) as [He|Hne]; [by rewrite (core_inj D L stack (s :: greys) m s)|].
    assert (Hmg : m ∉ s :: greys).
    { intros Hmg. pose proof (top_grey_le _ _ _ _ _ m Hc Hmg). lia. }
    specialize (H7 m Hms Hmg). destruct (H6 m Hms) as (u & Hu & Hdu & Hmu). etrans; [exact Hmu|].
    assert (L s ≤ L m)%Z.
    { apply H8; [done|done|]. split; [by left|]. split; [lia|]. intros w' Hw' _. by eapply top_grey_le. }
    eapply (IH (Z.to_nat (D u - D s))); [lia|done|lia|done].
Qed.

Lemma core_above_low D L above s below greys m :
  scc_core D L (above ++ s :: below) (s :: greys) → m ∈ above ++ [s] → (L s ≤ L m)%Z.
Proof.
  intros Hc Hm. destruct (decide (m = s)) as [->|Hne]; [done|]. pose proof (c_sorted _ _ _ _ Hc) as Hs.
  assert (Ha : m ∈ above) by set_solver. apply StronglySorted_app in Hs as (Hab & _). specialize (Hab m s Ha ltac:(by left)).
  apply (c_nearest _ _ _ _ Hc); [set_solver| |].
  - intros [->|Hg]%elem_of_cons; [done|]. pose proof (top_grey _ _ _ _ _ m Hc Hg). lia.
  - split; [by left|]. split; [done|]. intros w' Hw' _. by eapply top_grey_le.
Qed.
End core.

(** Reads of an array with a default, and their update. *)
Definition at_ {A} (x : A) (l : list A) (i : N) : A := default x l.[i].

Lemma at_alter {A} (x : A) f l i j :
  i < lenN l → at_ x (alterN f l i) j = if j =? i then f (at_ x l i) else at_ x l j.
Proof.
  intros [y Hy]%nthN_Some_lt. unfold at_. rewrite nthN_alterN. destruct (N.eqb_spec j i) as [->|]; [by rewrite Hy|done].
Qed.

Lemma at_Some {A} (x : A) l i : i < lenN l → l.[i] = Some (at_ x l i).
Proof. intros [y Hy]%nthN_Some_lt. unfold at_. by rewrite Hy. Qed.

(** * The search on arrays *)

Section arrays.
Context (n : N) (E : N → N → Prop) (Hsmall : n < 2147483648).

Definition D (g : search) : N → Z := at_ (-1)%Z (disc g).
Definition L (g : search) : N → Z := at_ (-1)%Z (low g).
Definition On (g : search) : N → bool := at_ false (on_stack g).
Definition Mp (g : search) : N → N := at_ 0 (scc_map g).

(** The invariant of the search: [V] the states reached, in order. *)
Record scc_inv (g : search) (V greys : list N) : Prop := {
  i_disc_len : lenN (disc g) = n;
  i_low_len : lenN (low g) = n;
  i_on_len : lenN (on_stack g) = n;
  i_map_len : lenN (scc_map g) = n;
  i_nodup : NoDup V;
  i_range : ∀ s, s ∈ V → s < n;
  i_time : time g = Z.of_nat (length V);
  i_reached : ∀ s, s ∈ V → (0 ≤ D g s < time g)%Z;
  i_fresh : ∀ s, s ∉ V → D g s = (-1)%Z;
  i_core : scc_core E (D g) (L g) (stack g) greys;
  i_stack : ∀ s, s ∈ stack g → s ∈ V;
  i_on : ∀ s, s < n → On g s = true ↔ s ∈ stack g;
  i_count : scc_count g + lenN (stack g) ≤ lenN V;
  i_class : ∀ u, u ∈ V → u ∉ stack g → Mp g u < scc_count g;
  i_scc : ∀ u v, u ∈ V → v ∈ V → u ∉ stack g → v ∉ stack g → Mp g u = Mp g v → rtc E u v;
}.

Lemma discover_inv g V greys x :
  scc_inv g V greys → x < n → x ∉ V → match greys with [] => True | p :: _ => E p x end →
  scc_inv (discover g x) (V ++ [x]) (x :: greys).
Proof.
  intros Hi Hx HxV Hp.
  assert (HD : ∀ s, D (discover g x) s = if s =? x then time g else D g s).
  { intros s. unfold D, discover. cbn [disc]. rewrite at_alter by (by rewrite (i_disc_len _ _ _ Hi)). done. }
  assert (HL : ∀ s, L (discover g x) s = if s =? x then time g else L g s).
  { intros s. unfold L, discover. cbn [low]. rewrite at_alter by (by rewrite (i_low_len _ _ _ Hi)). done. }
  assert (Hold : ∀ s, s ∈ V → D (discover g x) s = D g s ∧ L (discover g x) s = L g s ∧ (D g s < time g)%Z).
  { intros s Hs. assert (s ≠ x) by congruence. rewrite HD, HL, (proj2 (N.eqb_neq s x)) by done.
    pose proof (i_reached _ _ _ Hi s Hs). split; [done|]. split; [done|lia]. }
  assert (HDx : D (discover g x) x = time g) by (by rewrite HD, N.eqb_refl).
  pose proof (i_time _ _ _ Hi) as Ht.
  assert (Hlen : (length (x :: V) ≤ N.to_nat n)%nat).
  { apply NoDup_bounded_length; [constructor; [done|apply Hi]|]. intros y [->|Hy]%elem_of_cons; rewrite N2Nat.id; [exact Hx|by apply (i_range _ _ _ Hi)]. }
  simpl in Hlen.
  assert (Htime : time (discover g x) = (time g + 1)%Z).
  { unfold discover, i32_wrap. cbn [time]. rewrite Z.mod_small; [lia|]. lia. }
  assert (HxS : x ∉ stack g) by (intros ?; by apply HxV, (i_stack _ _ _ Hi)).
  split.
  - unfold discover. cbn [disc]. rewrite lenN_alterN. apply Hi.
  - unfold discover. cbn [low]. rewrite lenN_alterN. apply Hi.
  - unfold discover. cbn [on_stack]. rewrite lenN_alterN. apply Hi.
  - apply (i_map_len _ _ _ Hi).
  - apply NoDup_app. split; [apply Hi|]. split; [|apply NoDup_singleton]. by intros y Hy ->%list_elem_of_singleton.
  - intros s [Hs| ->%list_elem_of_singleton]%elem_of_app; [by apply (i_range _ _ _ Hi)|done].
  - rewrite Htime, length_app, Ht. simpl. lia.
  - intros s [Hs| ->%list_elem_of_singleton]%elem_of_app; rewrite Htime.
    + destruct (Hold s Hs) as (-> & _). pose proof (i_reached _ _ _ Hi s Hs). lia.
    + rewrite HDx. lia.
  - intros s Hs. assert (s ∉ V ∧ s ≠ x) as [HsV Hsx] by set_solver.
    rewrite HD, (proj2 (N.eqb_neq s x)) by done. by apply (i_fresh _ _ _ Hi).
  - unfold discover at 3. cbn [stack]. apply core_discover; [| | |done].
    + eapply core_ext; [|apply Hi]. intros s Hs%(i_stack _ _ _ Hi). by destruct (Hold s Hs) as (-> & -> & _).
    + intros s Hs%(i_stack _ _ _ Hi). destruct (Hold s Hs) as (-> & _ & ?). by rewrite HDx.
    + by rewrite HL, N.eqb_refl.
  - unfold discover. cbn [stack]. intros s [->|Hs]%elem_of_cons; apply elem_of_app; [by right; left|left; by apply (i_stack _ _ _ Hi)].
  - intros s Hs. unfold On, discover. cbn [on_stack stack]. rewrite at_alter by (by rewrite (i_on_len _ _ _ Hi)).
    rewrite elem_of_cons, <-(i_on _ _ _ Hi s Hs). destruct (N.eqb_spec s x); naive_solver.
  - unfold discover. cbn [scc_count stack]. rewrite lenN_snoc. pose proof (i_count _ _ _ Hi). unfold lenN in *. simpl. lia.
  - unfold discover, Mp. cbn [stack scc_map scc_count]. intros u Hu Hus. apply (i_class _ _ _ Hi); set_solver.
  - unfold discover, Mp. cbn [stack scc_map]. intros u v Hu Hv Hus Hvs. apply (i_scc _ _ _ Hi); set_solver.
Qed.

(** ** An edge to a state of the stack *)

Lemma lower_inv g V greys0 greys s b :
  scc_inv g V greys0 → s < n →
  scc_core E (D g) (lowered (L g) s b) (stack g) greys → scc_inv (lower g s b) V greys.
Proof.
  intros Hi Hs Hc. destruct Hi as [H1 H2 H3 H4 H5 H6 H7 H8 H9 H10 H11 H12 H13 H14 H15].
  split; try done.
  - unfold lower. cbn [low]. by rewrite lenN_alterN.
  - eapply core_ext; [|exact Hc]. intros v Hv. split; [done|]. unfold L, lower. cbn [low].
    by rewrite at_alter by (by rewrite H2).
Qed.

(** ** A state is left *)

Lemma pop_component_spec above s below on map c :
  s ∉ above → lenN on = n → lenN map = n → (∀ m, m ∈ above ++ [s] → m < n) →
  ∃ on' map', pop_component (above ++ s :: below) s on map c = Some (below, on', map') ∧
    lenN on' = n ∧ lenN map' = n ∧
    (∀ i, at_ false on' i = if bool_decide (i ∈ above ++ [s]) then false else at_ false on i) ∧
    (∀ i, at_ 0 map' i = if bool_decide (i ∈ above ++ [s]) then c else at_ 0 map i).
Proof.
  revert on map. induction above as [|x above IH]; intros on map Hs Hon Hmap Hlt; cbn [app pop_component].
  - rewrite N.eqb_refl. assert (Hsn : s < n) by (apply Hlt; by left). do 2 eexists. split; [done|].
    rewrite !lenN_alterN. split; [done|]. split; [done|]. split; intros i.
    + rewrite at_alter by lia. destruct (N.eqb_spec i s) as [->|Hne]; [by rewrite bool_decide_eq_true_2 by by left|].
      rewrite bool_decide_eq_false_2; [done|]. by intros ?%list_elem_of_singleton.
    + rewrite at_alter by lia. destruct (N.eqb_spec i s) as [->|Hne]; [by rewrite bool_decide_eq_true_2 by by left|].
      rewrite bool_decide_eq_false_2; [done|]. by intros ?%list_elem_of_singleton.
  - assert (Hx : x < n) by (apply Hlt; by left). assert (Hxs : x ≠ s) by (intros ->; apply Hs; by left).
    rewrite (proj2 (N.eqb_neq x s)) by done.
    destruct (IH (alterN (λ _, false) on x) (alterN (λ _, c) map x)) as (on' & map' & Hp & H1 & H2 & H3 & H4);
      [intros ?; apply Hs; by right|by rewrite lenN_alterN|by rewrite lenN_alterN|intros m Hm; apply Hlt; by right|].
    exists on', map'. split; [exact Hp|]. split; [done|]. split; [done|]. split; intros i.
    + rewrite H3, at_alter by lia. destruct (decide (i ∈ above ++ [s])) as [Hin|Hin].
      * by rewrite !bool_decide_eq_true_2 by (done || by right).
      * rewrite (bool_decide_eq_false_2 (i ∈ above ++ [s])) by done. destruct (N.eqb_spec i x) as [->|Hix].
        -- by rewrite bool_decide_eq_true_2 by by left.
        -- rewrite bool_decide_eq_false_2; [done|]. by intros [?|?]%elem_of_cons.
    + rewrite H4, at_alter by lia. destruct (decide (i ∈ above ++ [s])) as [Hin|Hin].
      * by rewrite !bool_decide_eq_true_2 by (done || by right).
      * rewrite (bool_decide_eq_false_2 (i ∈ above ++ [s])) by done. destruct (N.eqb_spec i x) as [->|Hix].
        -- by rewrite bool_decide_eq_true_2 by by left.
        -- rewrite bool_decide_eq_false_2; [done|]. by intros [?|?]%elem_of_cons.
Qed.

Lemma descending_notin D' above s below : descending D' (above ++ s :: below) → s ∉ above ∧ NoDup (above ++ s :: below).
Proof.
  intros Hs. split.
  - intros Hin. apply StronglySorted_app in Hs as (Hab & _). specialize (Hab s s Hin ltac:(by left)). lia.
  - induction Hs as [|x l Hl IH Hx]; constructor; [|done]. intros Hin. rewrite Forall_forall in Hx. specialize (Hx x Hin). lia.
Qed.

(** A component is closed: it leaves the stack with a number of its own. *)
Lemma pop_inv g V s greys :
  scc_inv g V (s :: greys) → L g s = D g s →
  ∃ g', finish g s = Some g' ∧ scc_inv g' V greys ∧ low g' = low g ∧ disc g' = disc g ∧
    (∀ v, v ∈ stack g' → (D g v < D g s)%Z ∧ v ∈ stack g) ∧
    (∀ v, v ∈ stack g → v ∉ stack g' → (L g s ≤ L g v)%Z ∧ Mp g' v = scc_count g) ∧
    ∀ v, v ∉ stack g → Mp g' v = Mp g v.
Proof.
  intros Hi Heq. pose proof (i_core _ _ _ Hi) as Hc.
  assert (Hs : s ∈ stack g) by (apply (c_greys _ _ _ _ _ Hc); by left).
  assert (Hsn : s < n) by (apply (i_range _ _ _ Hi), (i_stack _ _ _ Hi), Hs).
  apply list_elem_of_split in Hs as (above & below & Hst). rewrite Hst in Hc.
  destruct (descending_notin _ _ _ _ (c_sorted _ _ _ _ _ Hc)) as [Hsab Hnd].
  destruct (core_pop E _ _ _ _ _ _ Hc Heq) as (Hc' & Hmutual & Hbelow).
  destruct (pop_component_spec above s below (on_stack g) (scc_map g) (scc_count g)) as (on' & map' & Hpop & H1 & H2 & H3 & H4).
  { done. } { apply Hi. } { apply Hi. }
  { intros m Hm. apply (i_range _ _ _ Hi), (i_stack _ _ _ Hi). rewrite Hst. set_solver. }
  exists (Search (disc g) (low g) on' below (time g) map' (scc_count g + 1)). split.
  { unfold finish. rewrite (at_Some (-1)%Z (low g)) by (rewrite (i_low_len _ _ _ Hi); done).
    rewrite (at_Some (-1)%Z (disc g)) by (rewrite (i_disc_len _ _ _ Hi); done). cbn [mbind option_bind].
    change (at_ (-1)%Z (low g) s) with (L g s). change (at_ (-1)%Z (disc g) s) with (D g s).
    rewrite Heq, Z.eqb_refl, Hst, Hpop. done. }
  assert (Hmem : ∀ x, x ∈ stack g ↔ x ∈ above ++ [s] ∨ x ∈ below) by (intros x; rewrite Hst; set_solver).
  split; [|split; [done|split; [done|split; [|split]]]]; cbn [stack].
  2:{ intros v Hv. split; [auto|]. apply Hmem. by right. }
  2:{ intros v Hv Hvb. assert (Hin : v ∈ above ++ [s]) by (apply Hmem in Hv; tauto). split; [by eapply core_above_low|].
      unfold Mp. cbn [scc_map]. by rewrite H4, bool_decide_eq_true_2. }
  2:{ intros v Hv. unfold Mp. cbn [scc_map]. rewrite H4, bool_decide_eq_false_2; [done|]. rewrite Hmem in Hv. tauto. }
  assert (Hdis : ∀ x, x ∈ above ++ [s] → x ∉ below).
  { intros x Hx Hb. replace (above ++ s :: below) with ((above ++ [s]) ++ below) in Hnd by by rewrite <-app_assoc.
    apply NoDup_app in Hnd as (_ & Hd & _). by apply (Hd x). }
  split; try apply Hi; cbn [stack scc_count scc_map on_stack]; try done.
  - intros x Hx. apply (i_stack _ _ _ Hi), Hmem. by right.
  - intros x Hx. unfold On. cbn [on_stack]. rewrite H3. case_bool_decide as Hin.
    + split; [done|]. intros Hb. by apply (Hdis x) in Hb.
    + change (at_ false (on_stack g) x) with (On g x). rewrite (i_on _ _ _ Hi x Hx), Hmem. tauto.
  - pose proof (i_count _ _ _ Hi) as Hcnt. rewrite Hst, lenN_app in Hcnt. unfold lenN in *. simpl in Hcnt. lia.
  - intros u Hu Hub. unfold Mp. cbn [scc_map]. rewrite H4. case_bool_decide as Hin; [lia|].
    assert (at_ 0 (scc_map g) u < scc_count g); [|lia]. apply (i_class _ _ _ Hi); [done|]. rewrite Hmem. tauto.
  - intros u v Hu Hv Hub Hvb. unfold Mp. cbn [scc_map]. rewrite !H4.
    assert (Hclass : ∀ x, x ∈ V → x ∉ below → x ∉ above ++ [s] → at_ 0 (scc_map g) x < scc_count g).
    { intros x Hx Hxb Hxm. apply (i_class _ _ _ Hi); [done|]. rewrite Hmem. tauto. }
    case_bool_decide as Hinu; case_bool_decide as Hinv; intros Hm.
    + etrans; [by apply Hmutual|by apply Hmutual].
    + specialize (Hclass v Hv Hvb Hinv). lia.
    + specialize (Hclass u Hu Hub Hinu). lia.
    + apply (i_scc _ _ _ Hi); [done|done|rewrite Hmem; tauto|rewrite Hmem; tauto|done].
Qed.

(** What the end of a frame does, the update of the parent included. *)
Lemma leave_inv g V s greys :
  scc_inv g V (s :: greys) →
  ∃ g', finish g s = Some g' ∧ (low g').[s] = Some (L g s) ∧
    match greys with
    | [] => scc_inv g' V []
    | p :: _ => scc_inv (lower g' p (L g s)) V greys
    end.
Proof.
  intros Hi. pose proof (i_core _ _ _ Hi) as Hc.
  assert (Hs : s ∈ stack g) by (apply (c_greys _ _ _ _ _ Hc); by left).
  assert (Hsn : s < n) by (apply (i_range _ _ _ Hi), (i_stack _ _ _ Hi), Hs).
  assert (Hlow : (low g).[s] = Some (L g s)) by (apply at_Some; rewrite (i_low_len _ _ _ Hi); done).
  assert (Hpn : ∀ p, p ∈ greys → p < n ∧ p ∈ stack g ∧ (D g p < D g s)%Z).
  { intros p Hp. assert (p ∈ stack g) by (apply (c_greys _ _ _ _ _ Hc); by right).
    split; [by apply (i_range _ _ _ Hi), (i_stack _ _ _ Hi)|]. split; [done|]. by eapply top_grey. }
  destruct (decide (L g s = D g s)) as [Heq|Hne].
  - destruct (pop_inv g V s greys Hi Heq) as (g' & Hf & Hi' & Hl' & Hd' & _). exists g'. split; [done|].
    split; [by rewrite Hl'|]. destruct greys as [|p greys]; [done|].
    destruct (Hpn p ltac:(by left)) as (Hp & Hps & Hpd).
    apply (lower_inv g' V (p :: greys)); [done|done|]. eapply core_ext; [|apply Hi'].
    intros v Hv. split; [done|]. unfold lowered. destruct (N.eqb_spec v p) as [->|]; [|done].
    pose proof (c_low_le _ _ _ _ _ Hc p Hps). unfold L in *. rewrite Hl'. lia.
  - assert (Hlt : (L g s < D g s)%Z) by (pose proof (c_low_le _ _ _ _ _ Hc s Hs); lia).
    exists g. split.
    { unfold finish. rewrite Hlow, (at_Some (-1)%Z (disc g)) by (rewrite (i_disc_len _ _ _ Hi); done). cbn [mbind option_bind].
      change (at_ (-1)%Z (disc g) s) with (D g s). by rewrite (proj2 (Z.eqb_neq _ _) Hne). }
    split; [done|]. destruct (core_leave E _ _ _ _ _ Hc Hlt) as (p & rest & -> & Hc').
    destruct (Hpn p ltac:(by left)) as (Hp & _).
    by apply (lower_inv g V (s :: p :: rest)).
Qed.

(** ** The edges looked at so far

    They order the components: an edge never leads to a later one. *)

Record edges_ok (g : search) (V : list N) (X : N → N → Prop) : Prop := {
  e_known : ∀ u v, X u v → u ∈ V ∧ v ∈ V;
  e_low : ∀ u v, X u v → u ∈ stack g → v ∈ stack g → (L g u ≤ D g v)%Z;
  e_done : ∀ u v, X u v → u ∉ stack g → v ∉ stack g ∧ Mp g v ≤ Mp g u;
}.

Lemma edges_discover g V greys X x :
  scc_inv g V greys → x < n → x ∉ V → edges_ok g V X → edges_ok (discover g x) (V ++ [x]) X.
Proof.
  intros Hi Hx HxV [H1 H2 H3]. assert (Hne : ∀ v, v ∈ V → v =? x = false) by (intros v Hv; apply N.eqb_neq; congruence).
  split; unfold discover; cbn [stack]; intros u v HX; destruct (H1 u v HX) as [Hu Hv].
  - rewrite !elem_of_app. tauto.
  - intros Hus Hvs. unfold L, D. cbn [low disc].
    rewrite !at_alter by (by rewrite ?(i_low_len _ _ _ Hi), ?(i_disc_len _ _ _ Hi)). rewrite (Hne u Hu), (Hne v Hv).
    apply H2; [done|set_solver|set_solver].
  - intros Hus. destruct (H3 u v HX ltac:(set_solver)) as [Hvs Hm]. split; [|exact Hm].
    intros [->|?]%elem_of_cons; done.
Qed.

Lemma edges_add g V X u v : edges_ok g V X → u ∈ V → v ∈ V → u ∈ stack g → (v ∈ stack g → (L g u ≤ D g v)%Z) →
  edges_ok g V (λ x y, X x y ∨ x = u ∧ y = v).
Proof.
  intros [H1 H2 H3] Hu Hv Hs Hl. split; intros x y [HX|[-> ->]]; auto. done.
Qed.

Lemma edges_lower g V X s b : edges_ok g V X → lenN (low g) = n → s < n → edges_ok (lower g s b) V X.
Proof.
  intros [H1 H2 H3] Hlen Hs. split; [done| |done]. intros u v HX Hu Hv. specialize (H2 u v HX Hu Hv).
  unfold L, lower. cbn [low]. rewrite at_alter by lia. destruct (N.eqb_spec u s) as [->|]; [|exact H2].
  unfold L, D in H2. unfold D. cbn [disc]. lia.
Qed.

Lemma edges_finish g V s greys X g' :
  scc_inv g V (s :: greys) → edges_ok g V X → finish g s = Some g' → edges_ok g' V X.
Proof.
  intros Hi [H1 H2 H3] Hf. destruct (decide (L g s = D g s)) as [Heq|Hne].
  - destruct (pop_inv g V s greys Hi Heq) as (g1 & Hf' & Hi' & Hl' & Hd' & Hbelow & Hnew & Hold).
    assert (g1 = g') as -> by congruence. split; [done| |].
    + intros u v HX Hu Hv. unfold L, D. rewrite Hl', Hd'. apply H2; [done|by apply Hbelow|by apply Hbelow].
    + intros u v HX Hu. destruct (H1 u v HX) as [HuV HvV]. destruct (decide (u ∈ stack g)) as [Hus|Hus].
      * destruct (Hnew u Hus Hu) as [Hlow ->]. destruct (decide (v ∈ stack g)) as [Hvs|Hvs].
        -- destruct (decide (v ∈ stack g')) as [Hv'|Hv'].
           ++ destruct (Hbelow v Hv') as [Hlt _]. specialize (H2 u v HX Hus Hvs). lia.
           ++ split; [done|]. destruct (Hnew v Hvs Hv') as [_ ->]. done.
        -- rewrite Hold by done. pose proof (i_class _ _ _ Hi v HvV Hvs). split; [|lia].
           intros Hv'. by apply Hvs, Hbelow.
      * destruct (H3 u v HX Hus) as [Hvs Hm]. rewrite !Hold by done. split; [|done]. intros Hv'. by apply Hvs, Hbelow.
  - assert (g' = g) as ->; [|done]. revert Hf. unfold finish.
    assert (Hs : s < n) by (apply (i_range _ _ _ Hi), (i_stack _ _ _ Hi), (c_greys _ _ _ _ _ (i_core _ _ _ Hi)); by left).
    rewrite (at_Some (-1)%Z (low g)), (at_Some (-1)%Z (disc g)) by (rewrite ?(i_low_len _ _ _ Hi), ?(i_disc_len _ _ _ Hi); done).
    cbn [mbind option_bind]. change (at_ (-1)%Z (low g) s) with (L g s). change (at_ (-1)%Z (disc g) s) with (D g s).
    rewrite (proj2 (Z.eqb_neq _ _) Hne). congruence.
Qed.
End arrays.

Arguments i_disc_len {n E} _ _ _ _.
Arguments i_low_len {n E} _ _ _ _.
Arguments i_on_len {n E} _ _ _ _.
Arguments i_map_len {n E} _ _ _ _.
Arguments i_nodup {n E} _ _ _ _.
Arguments i_range {n E} _ _ _ _.
Arguments i_time {n E} _ _ _ _.
Arguments i_reached {n E} _ _ _ _.
Arguments i_fresh {n E} _ _ _ _.
Arguments i_core {n E} _ _ _ _.
Arguments i_stack {n E} _ _ _ _.
Arguments i_on {n E} _ _ _ _.
Arguments i_count {n E} _ _ _ _.
Arguments i_class {n E} _ _ _ _.
Arguments i_scc {n E} _ _ _ _.
Arguments discover_inv {n E} _ _ _ _ _ _ _ _ _.
Arguments lower_inv {n E} _ _ _ _ _ _ _ _ _.
Arguments pop_inv {n E} _ _ _ _ _ _.
Arguments leave_inv {n E} _ _ _ _ _.
Arguments edges_discover {n E} _ _ _ _ _ _ _ _ _.
Arguments edges_finish {n E} _ _ _ _ _ _ _ _ _.
