(* ===== verification/LexNfaScc.v ===== *)
(** The components of the epsilon graph of the lexer NFA: the search of Tarjan
    with explicit frames only merges states that reach each other, and the
    condensed automaton accepts what the automaton accepts
    (crates/glrmask-lexer/src/automata/lexer/nfa.rs). *)

From stdpp Require Import relations.
From S2P Require Import Prelude Bits U8Set LexDfa Search LexNfa LexNfaClasses Tarjan.
Import Nfa.

(** * The search on the epsilon graph *)

Section scc.
Context (a : Nfa.t).
Let n := lenN (states a).
Let E := epsilon a.
Context (Hclosed : ∀ s t, E s t → t < n) (Hsmall : n < 2147483648).

(** ** The loop over frames *)

Definition out (s : N) : nat := match (states a).[s] with Some row => length (NFAState.epsilon_transitions row) | None => 0 end.

(** The rounds a frame has left, once its state is reached. *)
Definition frame_weight (f : N * nat) : nat := match f.2 with O => 0 | S i => out f.1 - i end.

(** The frames of reached states follow the edges; a frame on top may be of a
    state not reached yet. *)
Definition frames_ok (V greys : list N) (work : list (N * nat)) : Prop :=
  (work.*1 = greys ∧ Forall (λ f, f.2 ≠ 0%nat ∧ (f.2 ≤ out f.1)%nat) work) ∨
  ∃ x rest, work = (x, 0%nat) :: rest ∧ x < n ∧ x ∉ V ∧ rest.*1 = greys ∧
    Forall (λ f, f.2 ≠ 0%nat ∧ (f.2 ≤ out f.1)%nat) rest ∧ match greys with [] => True | p :: _ => E p x end.

Definition unreached (V : list N) : nat := weight V (λ s, S (S (out s))) (seqN (length (states a))).

Definition loop_inv (V0 : list N) (st : search * list (N * nat)) (m : nat) : Prop :=
  ∃ V greys, scc_inv n E st.1 V greys ∧ frames_ok V greys st.2 ∧ (∀ v, v ∈ V0 → v ∈ V ∨ v ∈ st.2.*1) ∧
    (unreached V + sum_list_with frame_weight st.2 ≤ m)%nat.

Lemma greys_reached g V greys s : scc_inv n E g V greys → s ∈ greys → s ∈ V.
Proof. intros Hi Hs. by apply (i_stack _ _ _ Hi), (c_greys _ _ _ _ _ (i_core _ _ _ Hi)). Qed.

Lemma out_row s row : (states a).[s] = Some row → out s = length (NFAState.epsilon_transitions row).
Proof. unfold out. by intros ->. Qed.

Lemma unreached_snoc V x : x < n → x ∉ V → (unreached (V ++ [x]) + S (S (out x)) = unreached V)%nat.
Proof. intros Hx HxV. apply weight_snoc; [apply NoDup_seqN|by apply elem_of_seqN|done]. Qed.

(** The part of a round after the discovery: [s] is the last grey state. *)
Lemma edge_round g V s greys i rest row V0 m :
  scc_inv n E g V (s :: greys) → (states a).[s] = Some row → rest.*1 = greys →
  Forall (λ f, f.2 ≠ 0%nat ∧ (f.2 ≤ out f.1)%nat) rest → (∀ v, v ∈ V0 → v ∈ V) → (i ≤ out s)%nat →
  (unreached V + (out s - i) + sum_list_with frame_weight rest < m)%nat →
  ∃ st', look_edge g row s i rest = inl st' ∧ ∃ m', loop_inv V0 st' m' ∧ (m' < m)%nat.
Proof.
  intros Hi Hrow Hrest Hfs HV0 Hile Hm. pose proof (i_core _ _ _ Hi) as Hc.
  pose proof (out_row s row Hrow) as Hout. unfold look_edge.
  destruct (NFAState.epsilon_transitions row !! i) as [next|] eqn:Enext.
  - assert (HE : E s next) by (exists row; split; [done|by eapply list_elem_of_lookup_2]).
    assert (Hnext : next < n) by by eapply Hclosed.
    assert (Hilt : (i < out s)%nat) by (rewrite Hout; by eapply lookup_lt_Some).
    rewrite (at_Some (-1)%Z (disc g)) by (rewrite (i_disc_len _ _ _ Hi); done).
    rewrite (at_Some false (on_stack g)) by (rewrite (i_on_len _ _ _ Hi); done).
    change (at_ (-1)%Z (disc g) next) with (D g next). change (at_ false (on_stack g) next) with (On g next).
    assert (Hok : frames_ok V (s :: greys) ((s, S i) :: rest)).
    { left. cbn. rewrite Hrest. split; [done|]. constructor; [|done]. cbn. lia. }
    assert (Hw : (unreached V + sum_list_with frame_weight ((s, S i) :: rest) < m)%nat) by (cbn; lia).
    destruct (Z.eqb_spec (D g next) (-1)) as [Hfresh|Hreached].
    + eexists. split; [done|]. eexists. split; [|exact Hw].
      exists V, (s :: greys). cbn [fst snd]. split; [done|]. split; [|split; [by intros v Hv; left; apply HV0|cbn; lia]].
      right. exists next, ((s, S i) :: rest). split; [done|]. split; [done|].
      split; [intros HnV; pose proof (i_reached _ _ _ Hi next HnV); lia|]. destruct Hok as [Hok|(x & r & Heq & _)]; [|discriminate].
      split; [apply Hok|]. split; [apply Hok|done].
    + destruct (On g next) eqn:EOn; (eexists; split; [done|]; eexists; split; [|exact Hw]).
      * exists V, (s :: greys). cbn [fst snd]. split; [|split; [done|split; [by intros v Hv; left; apply HV0|done]]].
        apply (i_on _ _ _ Hi next Hnext) in EOn. apply (lower_inv g V (s :: greys)); [done| |].
        -- by apply (i_range _ _ _ Hi), (i_stack _ _ _ Hi), (c_greys _ _ _ _ _ Hc); left.
        -- apply core_lower; [done|by left|done|by apply rtc_once].
      * exists V, (s :: greys). split; [done|]. split; [done|]. split; [by intros v Hv; left; apply HV0|done].
  - apply lookup_ge_None in Enext.
    destruct (leave_inv Hsmall g V s greys Hi) as (g' & -> & Hlow & Hg').
    assert (Hok : frames_ok V greys rest) by by left.
    destruct rest as [|[p j] rest]; cbn in Hrest; subst greys.
    + eexists. split; [done|]. eexists. split; [|exact Hm]. exists V, []. split; [done|]. split; [done|]. split; [by intros v Hv; left; apply HV0|]. cbn. lia.
    + rewrite Hlow. eexists. split; [done|]. eexists. split; [|exact Hm]. exists V, (p :: rest.*1). split; [done|].
      split; [done|]. split; [by intros v Hv; left; apply HV0|]. cbn. lia.
Qed.

(** One round: the loop goes on while there are frames, never panics, and the
    weight falls. *)
Lemma frame_step_inv V0 st m :
  loop_inv V0 st m → st.2 ≠ [] →
  ∃ st', frame_step a st = inl st' ∧ ∃ m', loop_inv V0 st' m' ∧ (m' < m)%nat.
Proof.
  destruct st as [g work]. intros (V & greys & Hi & Hfr & HV0 & Hm) Hne. cbn [fst snd] in *.
  destruct Hfr as [[Hgreys Hfs]|(x & rest & -> & Hx & HxV & Hgreys & Hfs & HE)].
  - destruct work as [|[s i] rest]; [done|]. cbn in Hgreys. subst greys. cbn [frame_step].
    apply Forall_cons in Hfs as [[Hi0 Hile] Hfs]. cbn in Hi0, Hile.
    pose proof (i_core _ _ _ Hi) as Hc.
    assert (Hs : s < n) by (apply (i_range _ _ _ Hi), (i_stack _ _ _ Hi), (c_greys _ _ _ _ _ Hc); by left).
    apply nthN_Some_lt in Hs as [row Hrow]. rewrite Hrow. destruct i as [|i]; [done|].
    apply (edge_round g V s rest.*1 (S i) rest row); try done.
    + intros v Hv. destruct (HV0 v Hv) as [|Hg]; [done|]. by apply (greys_reached _ _ _ v Hi).
    + cbn in Hm. lia.
  - cbn [frame_step]. pose proof Hx as [row Hrow]%nthN_Some_lt. rewrite Hrow.
    apply (edge_round (discover g x) (V ++ [x]) x greys); try done.
    + by apply discover_inv.
    + intros v Hv. apply elem_of_app. destruct (HV0 v Hv) as [|[->|Hg]%elem_of_cons]; [by left|right; by left|left].
      change (v ∈ rest.*1) in Hg. rewrite Hgreys in Hg. by apply (greys_reached _ _ _ v Hi).
    + lia.
    + pose proof (unreached_snoc V x Hx HxV). cbn in Hm. lia.
Qed.

Lemma weight_le V f l : (weight V f l ≤ sum_list_with f l)%nat.
Proof. unfold weight. induction l as [|x l IH]; simpl; [done|]. case_decide; lia. Qed.

Lemma unreached_fuel V : (unreached V ≤ sum_list_with (λ s, S (S (length (NFAState.epsilon_transitions s)))) (states a))%nat.
Proof.
  etrans; [apply weight_le|].
  assert (H : ∀ k l, (∀ i row, l !! i = Some row → (states a).[N.of_nat (k + i)] = Some row) →
    sum_list_with (λ s, S (S (out s))) (N.of_nat <$> seq k (length l)) =
    sum_list_with (λ s, S (S (length (NFAState.epsilon_transitions s)))) l).
  { intros k l. revert k. induction l as [|row l IH]; intros k Hl; [done|].
    pose proof (Hl 0%nat row eq_refl) as H0. rewrite Nat.add_0_r in H0. simpl. rewrite (out_row _ row H0).
    do 3 f_equal. apply IH. intros i row' Hi. rewrite Nat.add_succ_l, <-Nat.add_succ_r. by apply (Hl (S i)). }
  rewrite <-(H 0%nat (states a)); [done|]. intros i row Hi. by rewrite nthN_of_nat.
Qed.

Lemma visit_root_inv g V r :
  scc_inv n E g V [] → r < n →
  ∃ g' V', visit_root a g r = Some g' ∧ scc_inv n E g' V' [] ∧ V ⊆ V' ∧ r ∈ V'.
Proof.
  intros Hi Hr. unfold visit_root. rewrite (at_Some (-1)%Z (disc g)) by (rewrite (i_disc_len _ _ _ Hi); done).
  cbn [mbind option_bind]. change (at_ (-1)%Z (disc g) r) with (D g r).
  destruct (Z.eqb_spec (D g r) (-1)) as [Hfresh|Hreached]; cbn [negb].
  2:{ exists g, V. split; [done|]. split; [done|]. split; [done|]. destruct (decide (r ∈ V)) as [|HrV]; [done|].
      by apply (i_fresh _ _ _ Hi) in HrV. }
  assert (HrV : r ∉ V) by (intros HrV; pose proof (i_reached _ _ _ Hi r HrV); lia).
  destruct (run_terminates (frame_step a) (loop_inv (V ++ [r])) (scc_fuel a) (g, [(r, 0%nat)]) (unreached V))
    as (res & [g' work'] & m & -> & Hinv & Hexit).
  - intros st st' m Hinv Hstep. destruct (decide (st.2 = [])) as [He|Hne].
    + destruct st as [g0 work0]. cbn in He. subst work0. discriminate.
    + destruct (frame_step_inv (V ++ [r]) st m Hinv Hne) as (st1 & H1 & m' & H2). rewrite Hstep in H1. injection H1 as <-.
      by exists m'.
  - exists V, []. cbn [fst snd]. split; [done|]. split; [|split; [|cbn; lia]].
    + right. exists r, []. done.
    + intros v [Hv| ->%list_elem_of_singleton]%elem_of_app; [by left|right; by left].
  - unfold scc_fuel. pose proof (unreached_fuel V). 
    pose proof (pow2_S_gt (sum_list_with (λ s, S (S (length (NFAState.epsilon_transitions s)))) (states a))). lia.
  - destruct (decide (work' = [])) as [->|Hne].
    + cbn in Hexit. injection Hexit as <-. destruct Hinv as (V' & greys & Hi' & Hfr & HV' & _). cbn [fst snd] in *.
      destruct Hfr as [[Hg _]|(x & rest & Heq & _)]; [|discriminate]. cbn in Hg. subst greys.
      exists g', V'. split; [done|]. split; [done|]. split.
      * intros v Hv. destruct (HV' v) as [|Hn]; [set_solver|done|by apply elem_of_nil in Hn].
      * destruct (HV' r) as [|Hn]; [set_solver|done|by apply elem_of_nil in Hn].
    + destruct (frame_step_inv (V ++ [r]) (g', work') m Hinv Hne) as (st1 & H1 & _). congruence.
Qed.

Lemma initial_inv : scc_inv n E (initial_search (length (states a))) [] [].
Proof.
  assert (Hrep : ∀ A (x : A), lenN (replicate (length (states a)) x) = n) by (intros; rewrite lenN_replicate; done).
  split; unfold initial_search; cbn [disc low on_stack stack time scc_map scc_count]; try done.
  - constructor.
  - intros s Hs. by apply elem_of_nil in Hs.
  - intros s Hs. by apply elem_of_nil in Hs.
  - intros s _. unfold D, at_. cbn [disc]. rewrite nthN_replicate. by destruct (_ <? _).
  - split; try (intros ? Hs; by apply elem_of_nil in Hs); try (intros ?? Hs; by apply elem_of_nil in Hs); constructor.
  - intros s Hs. unfold On, at_. cbn [on_stack]. rewrite nthN_replicate.
    split; [by destruct (_ <? _)|intros Hin; by apply elem_of_nil in Hin].
Qed.

(** All roots: every state has the number of its component. *)
Lemma epsilon_sccs_spec :
  ∃ g, epsilon_sccs a = Some g ∧ lenN (scc_map g) = n ∧ scc_count g ≤ n ∧
    (∀ s, s < n → ∃ c, (scc_map g).[s] = Some c ∧ c < scc_count g) ∧
    ∀ u v c, (scc_map g).[u] = Some c → (scc_map g).[v] = Some c → rtc E u v.
Proof.
  unfold epsilon_sccs.
  assert (H : ∀ l g V, (∀ r, r ∈ l → r < n) → scc_inv n E g V [] →
    ∃ g' V', foldM (visit_root a) g l = Some g' ∧ scc_inv n E g' V' [] ∧ V ⊆ V' ∧ ∀ r, r ∈ l → r ∈ V').
  { induction l as [|r l IH]; intros g V Hl Hi; cbn [foldM].
    - exists g, V. split; [done|]. split; [done|]. split; [done|]. intros r Hr. by apply elem_of_nil in Hr.
    - destruct (visit_root_inv g V r Hi (Hl r ltac:(by left))) as (g1 & V1 & -> & Hi1 & HV1 & Hr1). cbn [mbind option_bind].
      destruct (IH g1 V1 ltac:(intros; apply Hl; by right) Hi1) as (g2 & V2 & H2 & Hi2 & HV2 & Hr2).
      exists g2, V2. split; [done|]. split; [done|]. split; [set_solver|]. intros x [->|Hx]%elem_of_cons; auto. }
  destruct (H (seqN (length (states a))) _ [] ltac:(intros r Hr%elem_of_seqN; exact Hr) initial_inv)
    as (g & V & Hg & Hi & _ & Hall).
  assert (HV : ∀ s, s < n → s ∈ V) by (intros s Hs; apply Hall; by apply elem_of_seqN).
  assert (Hnil : ∀ s, s ∉ stack g).
  { intros s Hs. destruct (c_below _ _ _ _ _ (i_core _ _ _ Hi) s Hs) as (w & Hw & _). by apply elem_of_nil in Hw. }
  assert (Hlen : lenN V ≤ n).
  { unfold lenN, n. pose proof (NoDup_bounded_length V (length (states a)) (i_nodup _ _ _ Hi) (i_range _ _ _ Hi)). unfold lenN. lia. }
  exists g. split; [done|]. split; [apply Hi|]. split; [pose proof (i_count _ _ _ Hi); lia|]. split.
  - intros s Hs. exists (Mp g s). split; [apply at_Some; by rewrite (i_map_len _ _ _ Hi)|].
    apply (i_class _ _ _ Hi); [by apply HV|apply Hnil].
  - intros u v c Hu Hv. pose proof (nthN_lt _ _ _ Hu). pose proof (nthN_lt _ _ _ Hv). rewrite (i_map_len _ _ _ Hi) in *.
    apply (i_scc _ _ _ Hi); [by apply HV|by apply HV|apply Hnil|apply Hnil|]. unfold Mp, at_. by rewrite Hu, Hv.
Qed.
End scc.

(** * The condensed automaton *)

(** A run of the automaton over a word of bytes. *)
Inductive nfa_path (a : Nfa.t) : N → list N → N → Prop :=
  | path_refl s : nfa_path a s [] s
  | path_epsilon s t u w : epsilon a s t → nfa_path a t w u → nfa_path a s w u
  | path_byte s t u b w row set :
      (states a).[s] = Some row → (set, t) ∈ NFAState.transitions row → U8Set.contains set b = true →
      nfa_path a t w u → nfa_path a s (b :: w) u.

(** A group accepts a word. *)
Definition nfa_matches (a : Nfa.t) (w : list N) (g : GroupId) : Prop :=
  ∃ t row, nfa_path a (start_state a) w t ∧ (states a).[t] = Some row ∧ g ∈ NFAState.finalizers row.

Lemma path_rtc a s t w u : rtc (epsilon a) s t → nfa_path a t w u → nfa_path a s w u.
Proof. induction 1 as [|x y z Hxy _ IH]; [done|]. intros H. eapply path_epsilon; [exact Hxy|auto]. Qed.

Lemma path_snoc_rtc a s w t u : nfa_path a s w t → rtc (epsilon a) t u → nfa_path a s w u.
Proof.
  induction 1 as [s|s t u' w Hst Hp IH|s t u' b w row set Hrow Hin Hb Hp IH]; intros Hr.
  - eapply path_rtc; [exact Hr|constructor].
  - eapply path_epsilon; [exact Hst|auto].
  - eapply path_byte; eauto.
Qed.

(** Every edge leads to a state. *)
Definition nfa_closed (a : Nfa.t) : Prop :=
  (∀ s t, epsilon a s t → t < num_states a) ∧
  ∀ s row set t, (states a).[s] = Some row → (set, t) ∈ NFAState.transitions row → t < num_states a.

Section condense.
Context (a : Nfa.t) (map : list N) (count : N).
Context (Hclosed : nfa_closed a) (Hlen : lenN map = num_states a) (Hcount : count < u32_modulus).
Context (Hmap : ∀ s, s < num_states a → ∃ c, map.[s] = Some c ∧ c < count).
Context (Hscc : ∀ u v c, map.[u] = Some c → map.[v] = Some c → rtc (epsilon a) u v).

(** Some state of component [c] below [k] has a row with [Q]. *)
Definition below (k c : N) (Q : NFAState.t → Prop) : Prop :=
  ∃ s row, s < k ∧ (states a).[s] = Some row ∧ map.[s] = Some c ∧ Q row.

(** The row of a component, from the states of it below [k]. *)
Record merged (k c : N) (row' : NFAState.t) : Prop := {
  m_transitions : ∀ set t', (set, t') ∈ NFAState.transitions row' ↔
    below k c (λ row, ∃ t, (set, t) ∈ NFAState.transitions row ∧ map.[t] = Some t');
  m_epsilon : ∀ t', t' ∈ NFAState.epsilon_transitions row' ↔
    t' ≠ c ∧ below k c (λ row, ∃ t, t ∈ NFAState.epsilon_transitions row ∧ map.[t] = Some t');
  m_finalizers : ∀ g, g ∈ NFAState.finalizers row' ↔ below k c (λ row, g ∈ NFAState.finalizers row);
}.

Lemma below_next k c row Q :
  (states a).[k] = Some row → below (k + 1) c Q ↔ below k c Q ∨ map.[k] = Some c ∧ Q row.
Proof using All.
  intros Hk. split.
  - intros (s & r & Hs & Hr & Hm & HQ). destruct (decide (s = k)) as [->|Hne]; [right; by simplify_eq|].
    left. exists s, r. split; [lia|done].
  - intros [(s & r & Hs & Hr)|[Hm HQ]]; [exists s, r; split; [lia|done]|]. exists k, row. split; [lia|done].
Qed.

Lemma below_zero c Q : ¬ below 0 c Q.
Proof using All. intros (s & r & Hs & _). lia. Qed.

Lemma condensed_transitions_spec trs :
  (∀ set t, (set, t) ∈ trs → t < num_states a) →
  ∃ out, condensed_transitions map trs = Some out ∧
    ∀ set t', (set, t') ∈ out ↔ ∃ t, (set, t) ∈ trs ∧ map.[t] = Some t'.
Proof using All.
  intros Ht. induction trs as [|[set t] trs IH].
  - exists []. split; [done|]. intros set t'. split; [by intros ?%elem_of_nil|]. by intros (t & ?%elem_of_nil & _).
  - destruct (Hmap t) as (c & Hc & Hcl); [apply (Ht set); by left|].
    destruct IH as (out & Hout & Hin); [intros set' t' Hin; apply (Ht set'); by right|].
    exists ((set, c) :: out). split.
    { unfold condensed_transitions in *. cbn [mapM]. rewrite Hc. cbn [mbind option_bind]. rewrite Hout. cbn [mbind option_bind].
      by rewrite as_u32_small by lia. }
    intros set' t'. rewrite elem_of_cons, Hin. setoid_rewrite elem_of_cons. split.
    + intros [[= -> ->]|(u & Hu & Hmu)]; [exists t; by split; [left|]|exists u; by split; [right|]].
    + intros (u & [[= -> ->]|Hu] & Hmu); [left; congruence|right; by exists u].
Qed.

Lemma condensed_epsilons_spec c ts :
  c < count → (∀ t, t ∈ ts → t < num_states a) →
  ∃ out, condensed_epsilons map c ts = Some out ∧
    ∀ t', t' ∈ out ↔ t' ≠ c ∧ ∃ t, t ∈ ts ∧ map.[t] = Some t'.
Proof using All.
  intros Hc Ht. unfold condensed_epsilons. rewrite (as_u32_small c) by lia.
  assert (H : ∀ acc, ∃ out, foldM (λ acc target, x ← map.[target]; Some (if as_u32 x =? c then acc else acc ++ [as_u32 x]))
      acc ts = Some out ∧ ∀ t', t' ∈ out ↔ t' ∈ acc ∨ t' ≠ c ∧ ∃ t, t ∈ ts ∧ map.[t] = Some t').
  { induction ts as [|t ts IH]; intros acc; cbn [foldM].
    - exists acc. split; [done|]. intros t'. split; [by left|]. by intros [?|(_ & t & ?%elem_of_nil & _)].
    - destruct (Hmap t (Ht t ltac:(by left))) as (x & Hx & Hxl). rewrite Hx. cbn [mbind option_bind].
      rewrite !(as_u32_small x) by lia.
      destruct (IH ltac:(intros; apply Ht; by right) (if x =? c then acc else acc ++ [x])) as (out & Hout & Hin).
      exists out. split; [exact Hout|]. intros t'. rewrite Hin. setoid_rewrite elem_of_cons.
      assert (Hacc : t' ∈ (if x =? c then acc else acc ++ [x]) ↔ t' ∈ acc ∨ t' ≠ c ∧ t' = x).
      { destruct (N.eqb_spec x c); rewrite ?elem_of_app, ?list_elem_of_singleton; naive_solver. }
      rewrite Hacc. split.
      + intros [[?|[? ->]]|(? & u & ? & ?)]; [by left|right; split; [done|]; exists t; by split; [left|]|right; split; [done|]; exists u; by split; [right|]].
      + intros [?|(Hne & u & [->|Hu] & Hmu)]; [by left; left|left; right; split; [done|congruence]|right; split; [done|]; by exists u]. }
  destruct (H []) as (out & Hout & Hin). exists out. split; [done|]. intros t'. rewrite Hin, elem_of_nil. tauto.
Qed.
Lemma merged_start c : merged 0 c NFAState.new.
Proof using All.
  split; intros *; cbn; rewrite ?elem_of_nil; (split; [set_solver|]).
  - intros H. by apply below_zero in H.
  - intros [_ H]. by apply below_zero in H.
  - intros H. by apply below_zero in H.
Qed.

Lemma merged_skip k c row row' :
  (states a).[k] = Some row → map.[k] ≠ Some c → merged k c row' → merged (k + 1) c row'.
Proof using All.
  intros Hk Hne [H1 H2 H3].
  split; intros *; rewrite (below_next k c row _ Hk), ?H1, ?H2, ?H3; tauto.
Qed.

Lemma merged_row k c row r trs eps :
  (states a).[k] = Some row → map.[k] = Some c → merged k c r →
  (∀ set t', (set, t') ∈ trs ↔ ∃ t, (set, t) ∈ NFAState.transitions row ∧ map.[t] = Some t') →
  (∀ t', t' ∈ eps ↔ t' ≠ c ∧ ∃ t, t ∈ NFAState.epsilon_transitions row ∧ map.[t] = Some t') →
  merged (k + 1) c (NFAState.mk (NFAState.transitions r ++ trs) (NFAState.epsilon_transitions r ++ eps)
    (NFAState.finalizers r ∪ NFAState.finalizers row)).
Proof using All.
  intros Hk Hm [H1 H2 H3] Ht He.
  split; intros *; cbn; rewrite (below_next k c row _ Hk), ?elem_of_app, ?elem_of_union, ?H1, ?H2, ?H3, ?Ht, ?He; tauto.
Qed.

Lemma build_condensed_spec :
  ∃ out, build_condensed_states a map count = Some out ∧ lenN out = count ∧
    ∀ c row', out.[c] = Some row' → merged (num_states a) c row'.
Proof using All.
  apply (foldM_enumerate (λ k b, lenN b = count ∧ ∀ c row', b.[c] = Some row' → merged k c row')).
  - intros k row b Hk [Hb Hrows]. pose proof (nthN_lt _ _ _ Hk) as Hlt.
    destruct (Hmap k Hlt) as (c & Hc & Hcl). unfold merge_condensed_state. rewrite Hc. cbn [mbind option_bind].
    destruct (proj1 (nthN_Some_lt b c) ltac:(by rewrite Hb)) as [r Hr]. rewrite Hr. cbn [mbind option_bind].
    destruct (condensed_transitions_spec (NFAState.transitions row)) as (trs & -> & Htrs).
    { intros set t. by apply (proj2 Hclosed k). }
    destruct (condensed_epsilons_spec c (NFAState.epsilon_transitions row) Hcl) as (eps & Heps & Hin).
    { intros t Ht. apply (proj1 Hclosed k). by exists row. }
    cbn [mbind option_bind]. rewrite Heps. cbn [mbind option_bind]. eexists. split; [done|].
    split; [by rewrite lenN_alterN|]. intros c' row'. rewrite nthN_alterN.
    destruct (N.eqb_spec c' c) as [->|Hne].
    + rewrite Hr. intros [= <-]. by apply merged_row; auto.
    + intros Hc'. apply (merged_skip _ _ row); [done|congruence|auto].
  - split; [unfold build_states; rewrite lenN_replicate; lia|]. intros c row'. unfold build_states.
    rewrite nthN_replicate. destruct (_ <? _); [|done]. intros [= <-]. apply merged_start.
Qed.

(** ** The language *)

Section language.
Context (a' : Nfa.t) (start : N).
Context (Hstart : map.[start_state a] = Some start) (Hstart' : start_state a' = start).
Context (Hrows : ∀ c row', (states a').[c] = Some row' → merged (num_states a) c row').
Context (Hlen' : num_states a' = count).

Lemma row_of c : c < count → ∃ row', (states a').[c] = Some row'.
Proof using All. intros Hc. apply nthN_Some_lt. by rewrite <-Hlen' in Hc. Qed.

Lemma map_of s c : map.[s] = Some c → s < num_states a ∧ c < count.
Proof using All.
  intros Hs. pose proof (nthN_lt _ _ _ Hs) as Hlt. rewrite Hlen in Hlt. split; [done|].
  destruct (Hmap s Hlt) as (c' & Hc' & ?). congruence.
Qed.

Lemma below_all s row c (Q : NFAState.t → Prop) :
  (states a).[s] = Some row → map.[s] = Some c → Q row → below (num_states a) c Q.
Proof using All. intros Hr Hs HQ. exists s, row. split; [by eapply nthN_lt|done]. Qed.

(** A run of the automaton is a run between the components. *)
Lemma condensed_of_path s w t c :
  nfa_path a s w t → map.[s] = Some c → ∃ d, map.[t] = Some d ∧ nfa_path a' c w d.
Proof using All.
  intros Hp. revert c. induction Hp as [s|s t u w Hst _ IH|s t u b w row set Hrow Hin Hb _ IH]; intros c Hc.
  - exists c. split; [done|constructor].
  - destruct (Hmap t (proj1 Hclosed _ _ Hst)) as (c1 & Hc1 & _). destruct (IH c1 Hc1) as (d & Hd & Hpath).
    exists d. split; [done|]. destruct (decide (c1 = c)) as [->|Hne]; [done|].
    destruct (row_of c) as (row' & Hrow'); [by apply (map_of s)|]. destruct Hst as (row & Hrow & Hin).
    eapply path_epsilon; [|exact Hpath]. exists row'. split; [done|]. apply (Hrows c row' Hrow'). split; [done|].
    eapply below_all; [exact Hrow|exact Hc|]. by exists t.
  - destruct (Hmap t (proj2 Hclosed _ _ _ _ Hrow Hin)) as (c1 & Hc1 & _). destruct (IH c1 Hc1) as (d & Hd & Hpath).
    exists d. split; [done|]. destruct (row_of c) as (row' & Hrow'); [by apply (map_of s)|].
    eapply (path_byte _ c c1 _ b w row' set); [done| |done|exact Hpath]. apply (Hrows c row' Hrow').
    eapply below_all; [exact Hrow|exact Hc|]. by exists t.
Qed.

(** A run between components is a run from any state of the first to any state
    of the last. *)
Lemma path_of_condensed c w d s t :
  nfa_path a' c w d → map.[s] = Some c → map.[t] = Some d → nfa_path a s w t.
Proof using All.
  intros Hp. revert s. induction Hp as [c|c c1 d w (row' & Hrow' & Hin) _ IH|c c1 d b w row' set Hrow' Hin Hb _ IH];
    intros s Hs Ht.
  - eapply path_rtc; [by eapply Hscc|constructor].
  - apply (Hrows c row' Hrow') in Hin as (_ & u & row & _ & Hrow & Hu & v & Hv & Hmv).
    eapply path_rtc; [by eapply (Hscc s u)|]. eapply path_epsilon; [by exists row|]. by apply IH.
  - apply (Hrows c row' Hrow') in Hin as (u & row & _ & Hrow & Hu & v & Hv & Hmv).
    eapply path_rtc; [by eapply (Hscc s u)|]. eapply path_byte; [exact Hrow|exact Hv|exact Hb|]. by apply IH.
Qed.

Lemma condensed_matches w g : nfa_matches a' w g ↔ nfa_matches a w g.
Proof using All.
  split.
  - intros (d & row' & Hp & Hrow' & Hg). rewrite Hstart' in Hp.
    apply (m_finalizers _ _ _ (Hrows d row' Hrow')) in Hg as (t & row & _ & Hrow & Ht & Hg).
    exists t, row. split; [|done]. by eapply path_of_condensed.
  - intros (t & row & Hp & Hrow & Hg). destruct (condensed_of_path _ _ _ _ Hp Hstart) as (d & Hd & Hp').
    destruct (row_of d) as (row' & Hrow'); [by apply (map_of t)|]. exists d, row'. split; [by rewrite Hstart'|].
    split; [done|]. apply (Hrows d row' Hrow'). by eapply below_all.
Qed.
End language.

Lemma merged_dedup k c row : merged k c row →
  merged k c (NFAState.mk (NFAState.transitions row) (dedup (sort_N (NFAState.epsilon_transitions row))) (NFAState.finalizers row)).
Proof using Type.
  intros [H1 H2 H3]. split; intros *; cbn; [apply H1| |apply H3].
  by rewrite (proj2 (dedup_sort_spec _)), H2.
Qed.
End condense.

Lemma condense_spec (a : Nfa.t) :
  nfa_closed a → num_states a < 2 ^ 31 → start_state a < num_states a →
  ∃ a', condense_epsilon_sccs a = Some a' ∧ num_states a' ≤ num_states a ∧ start_state a' < num_states a' ∧
    (∀ w g, nfa_matches a' w g ↔ nfa_matches a w g) ∧ nfa_closed a' ∧ ∀ set, set ∈ transition_sets a' → set ∈ transition_sets a.
Proof.
  intros Hclosed Hn Hs. unfold condense_epsilon_sccs.
  destruct (N.leb_spec (num_states a) 1); [by exists a|].
  destruct (epsilon_sccs_spec a) as (g & -> & Hlen & Hcount & Hmap & Hscc); [apply Hclosed|exact Hn|].
  cbn [mbind option_bind]. destruct (_ =? _); [by exists a|].
  assert (Hc : scc_count g < u32_modulus) by (change (2 ^ 31) with 2147483648 in Hn; unfold u32_modulus, num_states in *; lia).
  destruct (build_condensed_spec a (scc_map g) (scc_count g) Hclosed Hlen Hc Hmap Hscc) as (new & -> & Hnew & Hrows).
  destruct (Hmap (start_state a) Hs) as (c & Hst & Hcl). cbn [mbind option_bind]. rewrite Hst. cbn [mbind option_bind].
  rewrite as_u32_small by lia. eexists. split; [done|].
  assert (Hlen' : lenN (dedup_epsilon_transitions new) = scc_count g) by (unfold dedup_epsilon_transitions; by rewrite lenN_fmap).
  unfold num_states at 1 3. cbn. split; [rewrite Hlen'; exact Hcount|]. split; [by rewrite Hlen'|].
  assert (Hmerged : ∀ d row', (dedup_epsilon_transitions new).[d] = Some row' → merged a (scc_map g) (num_states a) d row').
  { intros d row'. unfold dedup_epsilon_transitions. rewrite nthN_fmap.
    destruct (new.[d]) as [row|] eqn:E; [|done]. intros [= <-]. apply merged_dedup. by apply Hrows. }
  split; [intros w gr; by eapply (condensed_matches a (scc_map g) (scc_count g))|]. split; [split|].
  - intros s t (row' & Hrow' & Ht). unfold num_states. cbn. rewrite Hlen'. apply (m_epsilon _ _ _ _ _ (Hmerged s row' Hrow')) in Ht as (_ & s0 & row & _ & Hrow & _ & t0 & Ht0 & Hm).
    destruct (Hmap t0) as (c' & Hc' & Hlt); [apply (proj1 Hclosed s0); by exists row|]. congruence.
  - intros s row' set t Hrow' Ht. unfold num_states. cbn. rewrite Hlen'. apply (m_transitions _ _ _ _ _ (Hmerged s row' Hrow')) in Ht as (s0 & row & _ & Hrow & _ & t0 & Ht0 & Hm).
    destruct (Hmap t0) as (c' & Hc' & Hlt); [by apply (proj2 Hclosed s0 row set)|]. congruence.
  - intros set Hset. apply list_elem_of_bind in Hset as (row' & Hin & Hrow'). apply nthN_elem_of in Hrow' as [k Hk]. apply list_elem_of_fmap in Hin as ([set' t] & -> & Hin). pose proof (proj1 (m_transitions _ _ _ _ _ (Hmerged k row' Hk) set' t) Hin) as (s0 & row & _ & Hrow & _ & t0 & Ht0 & _).
    apply list_elem_of_bind. exists row. split; [apply list_elem_of_fmap; by exists (set', t0)|]. apply nthN_elem_of. eauto.
Qed.


(** condensing the epsilon cycles of a lexer automaton whose edges lead to
    its states does not panic, does not add states, keeps the start state in
    range and keeps, for every group, exactly the words it accepts. *)
Theorem condense_epsilon_sccs_correct (a : Nfa.t) :
  nfa_closed a → num_states a < 2 ^ 31 → start_state a < num_states a →
  ∃ a', condense_epsilon_sccs a = Some a' ∧ num_states a' ≤ num_states a ∧ start_state a' < num_states a' ∧
    ∀ w g, nfa_matches a' w g ↔ nfa_matches a w g.
Proof.
  intros Hclosed Hn Hs. destruct (condense_spec a Hclosed Hn Hs) as (a' & Hc & H1 & H2 & H3 & _). by exists a'.
Qed.

(** An epsilon cycle between the first two states. *)
Definition nfa_cycle : Nfa.t :=
  add_finalizer (add_transition (add_epsilon (add_epsilon (new 3) 0 1) 1 0) 1 97 2) 2 0.

Lemma nfa_cycle_closed : nfa_closed nfa_cycle.
Proof.
  assert (Hst : ∀ s row, (states nfa_cycle).[s] = Some row → row ∈ states nfa_cycle)
    by (intros s row Hr; apply nthN_elem_of; by exists s).
  split.
  - intros s t (row & Hr & Hin). apply Hst in Hr. vm_compute in Hr |- *. revert Hin.
    repeat (apply elem_of_cons in Hr as [->|Hr]; [set_solver by lia|]). by apply elem_of_nil in Hr.
  - intros s row set t Hr Hin. apply Hst in Hr. vm_compute in Hr |- *. revert Hin.
    repeat (apply elem_of_cons in Hr as [->|Hr]; [set_solver by lia|]). by apply elem_of_nil in Hr.
Qed.

Lemma condense_epsilon_sccs_correct_witness :
  ∃ a', condense_epsilon_sccs nfa_cycle = Some a' ∧ num_states a' ≤ num_states nfa_cycle ∧
    start_state a' < num_states a' ∧ ∀ w g, nfa_matches a' w g ↔ nfa_matches nfa_cycle w g.
Proof.
  apply (condense_epsilon_sccs_correct nfa_cycle); [apply nfa_cycle_closed|by vm_compute|by vm_compute].
Defined.

Example condense_cycle : num_states <$> condense_epsilon_sccs nfa_cycle = Some 2.
Proof. by vm_compute. Qed.
