(* ===== verification/LexReach.v ===== *)
(** The groups that stay reachable from the states of the byte NFA
    (crates/glrmask-lexer/src/automata/lexer/determinize.rs): a backward search
    when there is one group; otherwise Tarjan's components over [u32] arrays,
    then Kahn's order over the graph of the components. *)

From stdpp Require Import relations.
From S2P Require Import Prelude Graph Bits U8Set BitSet LexDfa Search LexNfa Tarjan.

(** * Definitions *)

(** The members of a [BTreeSet], in order. *)
Definition group_list (groups : gset GroupId) : list GroupId := sort_N (elements groups).

(** [max + 1] over the groups of all states, or zero. *)
Definition nfa_group_count (nfa : Nfa.t) : N :=
  foldl (λ count state, foldl (λ count group, N.max count (group + 1)) count (group_list (NFAState.finalizers state))) 0 (Nfa.states nfa).

(** The targets of a row, epsilon edges first. *)
Definition row_targets (state : NFAState.t) : list N :=
  NFAState.epsilon_transitions state ++ (NFAState.transitions state).*2.

(** ** One group *)

Definition has_groups (state : NFAState.t) : bool := negb (bool_decide (NFAState.finalizers state = ∅)).

(** The pairs pushed on [reverse_adj], in order. *)
Definition reach_edges (nfa : Nfa.t) : list (N * N) :=
  '(state_idx, state) ← enumerate (Nfa.states nfa); (λ target, (state_idx, target)) <$> row_targets state.

Definition seed_final : list bool * list N → N * NFAState.t → list bool * list N := mark_seed push_back has_groups.

Definition single_group_bits (reachable : bool) : BitSet.t :=
  if reachable then BitSet.set (BitSet.new 1) 0 else BitSet.new 1.

Definition reachable_single_group (nfa : Nfa.t) : option (list BitSet.t) :=
  let n := length (Nfa.states nfa) in
  reverse_adj ← reverse_edges n (reach_edges nfa);
  reaches_final ← mark_search push_back reverse_adj
    (foldl seed_final (replicate n false, []) (enumerate (Nfa.states nfa)));
  Some (map single_group_bits reaches_final).

(** ** Components *)

(** [disc] and [scc_id] hold [u32::MAX] for states not reached yet. *)
Record reach_search := ReachSearch {
  disc : list N;
  lowlink : list N;
  on_stack : list bool;
  stack : list N;
  index_counter : N;
  scc_id : list N;
  scc_count : N;
}.

Definition enter (g : reach_search) (state : N) : reach_search :=
  ReachSearch (alterN (λ _, index_counter g) (disc g) state) (alterN (λ _, index_counter g) (lowlink g) state)
    (alterN (λ _, true) (on_stack g) state) (state :: stack g) (u32_wrapping_add (index_counter g) 1)
    (scc_id g) (scc_count g).

Definition lower_link (g : reach_search) (state bound : N) : reach_search :=
  ReachSearch (disc g) (alterN (λ x, N.min x bound) (lowlink g) state) (on_stack g) (stack g) (index_counter g)
    (scc_id g) (scc_count g).

(** [while let Some(member) = stack.pop()], down to [state]. *)
Fixpoint pop_members (members : list N) (state : N) (on_stack : list bool) (scc_id : list N) (scc_count : N)
    : list N * list bool * list N :=
  match members with
  | [] => ([], on_stack, scc_id)
  | member :: rest =>
      let on_stack := alterN (λ _, false) on_stack member in
      let scc_id := alterN (λ _, scc_count) scc_id member in
      if member =? state then (rest, on_stack, scc_id) else pop_members rest state on_stack scc_id scc_count
  end.

Definition close (g : reach_search) (state : N) : option reach_search :=
  low ← (lowlink g).[state]; d ← (disc g).[state];
  if low =? d
  then
    let '(rest, on_stack, ids) := pop_members (stack g) state (on_stack g) (scc_id g) (scc_count g) in
    Some (ReachSearch (disc g) (lowlink g) on_stack rest (index_counter g) ids (u32_wrapping_add (scc_count g) 1))
  else Some g.

(** One round of the [while let] over [dfs_stack], its last element at the
    head; [inr None] is a panic. *)
Definition reach_step (adj : list (list N)) (st : reach_search * list (N * nat))
    : (reach_search * list (N * nat)) + option reach_search :=
  let '(g, dfs_stack) := st in
  match dfs_stack with
  | [] => inr (Some g)
  | (state, child_index) :: rest =>
      match adj.[state] with
      | None => inr None
      | Some row =>
          match row !! child_index with
          | Some next =>
              let dfs_stack := (state, S child_index) :: rest in
              match (disc g).[next], (on_stack g).[next] with
              | Some d, Some on =>
                  if d =? u32_max then inl (enter g next, (next, O) :: dfs_stack)
                  else if on then inl (lower_link g state d, dfs_stack)
                  else inl (g, dfs_stack)
              | _, _ => inr None
              end
          | None =>
              match close g state with
              | None => inr None
              | Some g =>
                  match rest with
                  | [] => inl (g, rest)
                  | (parent, _) :: _ =>
                      match (lowlink g).[state] with
                      | Some low => inl (lower_link g parent low, rest)
                      | None => inr None
                      end
                  end
              end
          end
      end
  end.

(** Each round looks at an edge or leaves a state. *)
Definition reach_fuel (adj : list (list N)) : nat := S (sum_list_with (λ row, S (length row)) adj).

Definition reach_root (adj : list (list N)) (g : reach_search) (root : N) : option reach_search :=
  d ← (disc g).[root];
  if negb (d =? u32_max) then Some g
  else
    match run (reach_step adj) (reach_fuel adj) (enter g root, [(root, O)]) with
    | inr (Some g) => Some g
    | _ => None
    end.

Definition initial_reach (n : nat) : reach_search :=
  ReachSearch (replicate n u32_max) (replicate n 0) (replicate n false) [] 0 (replicate n u32_max) 0.

Definition reach_sccs (adj : list (list N)) : option reach_search :=
  foldM (reach_root adj) (initial_reach (length adj)) (seqN (length adj)).

(** ** Propagation over the graph of the components *)

(** [adj[state].sort_unstable(); dedup()] *)
Definition reach_adj (nfa : Nfa.t) : list (list N) := (λ state, dedup (sort_N (row_targets state))) <$> Nfa.states nfa.

Definition add_own_groups (ids : list N) (reach : list BitSet.t) (entry : N * NFAState.t) : option (list BitSet.t) :=
  let '(state_idx, state) := entry in
  sid ← ids.[state_idx];
  foldM (λ reach group, _ ← reach.[sid]; Some (alterN (λ bits, BitSet.set bits group) reach sid))
    reach (group_list (NFAState.finalizers state)).

(** [scc_successors[src].push(dst)] for the edges between components. *)
Definition add_successors (ids : list N) (successors : list (list N)) (entry : N * list N) : option (list (list N)) :=
  let '(state_idx, targets) := entry in
  src ← ids.[state_idx];
  foldM (λ successors target,
      dst ← ids.[target];
      if src =? dst then Some successors else push_edge successors (dst, src))
    successors targets.

Definition component_successors (ids : list N) (scc_count : N) (adj : list (list N)) : option (list (list N)) :=
  successors ← foldM (add_successors ids) (replicate (N.to_nat scc_count) []) (enumerate adj);
  Some (map (λ row, dedup (sort_N row)) successors).

Definition successor_edges (successors : list (list N)) : list (N * N) :=
  '(sid, row) ← enumerate successors; (λ succ, (sid, succ)) <$> row.

(** One predecessor of the component taken off the queue; a counter that would
    fall below zero panics. *)
Definition propagate_pred (add : BitSet.t → BitSet.t) (st : list N * list N * list BitSet.t) (pred : N)
    : option (list N * list N * list BitSet.t) :=
  let '(remaining, queue, reach) := st in
  _ ← reach.[pred];
  count ← remaining.[pred];
  if count =? 0 then None
  else
    Some (alterN (λ _, count - 1) remaining pred,
          (if count - 1 =? 0 then queue ++ [pred] else queue),
          alterN add reach pred).

(** [contribute] is what a component adds to the sets of its predecessors. *)
Definition propagate_step (contribute : N → BitSet.t → option (BitSet.t → BitSet.t)) (predecessors : list (list N))
    (st : list N * list N * list BitSet.t) : (list N * list N * list BitSet.t) + option (list BitSet.t) :=
  let '(remaining, queue, reach) := st in
  match queue with
  | [] => inr (Some reach)
  | sid :: queue =>
      match reach.[sid] ≫= contribute sid, predecessors.[sid] with
      | Some add, Some row =>
          match foldM (propagate_pred add) (remaining, queue, reach) row with
          | Some st => inl st
          | None => inr None
          end
      | _, _ => inr None
      end
  end.

(** A component leaves the queue once. *)
Definition propagate (contribute : N → BitSet.t → option (BitSet.t → BitSet.t)) (predecessors : list (list N))
    (remaining : list N) (reach : list BitSet.t) : option (list BitSet.t) :=
  match run (propagate_step contribute predecessors) (S (length predecessors)) (remaining, kahn_queue remaining, reach) with
  | inr r => r
  | inl _ => None
  end.

(** [reach[pred].union_with(&sid_reachable)] *)
Definition pass_groups (sid : N) (sid_reachable : BitSet.t) : option (BitSet.t → BitSet.t) :=
  Some (λ bits, BitSet.union_with bits sid_reachable).

Definition reachable_many_groups (nfa : Nfa.t) (group_count : N) : option (list BitSet.t) :=
  let adj := reach_adj nfa in
  g ← reach_sccs adj;
  let ids := scc_id g in
  reach ← foldM (add_own_groups ids) (replicate (N.to_nat (scc_count g)) (BitSet.new group_count)) (enumerate (Nfa.states nfa));
  successors ← component_successors ids (scc_count g) adj;
  predecessors ← reverse_edges (length successors) (successor_edges successors);
  reach ← propagate pass_groups predecessors (lenN <$> successors) reach;
  mapM (λ sid, reach.[sid]) ids.

Definition compute_reachable_groups (nfa : Nfa.t) (group_count : N) : option (list BitSet.t) :=
  match Nfa.states nfa with
  | [] => Some []
  | _ =>
      if group_count =? 0 then Some (replicate (length (Nfa.states nfa)) (BitSet.new 0))
      else if group_count =? 1 then reachable_single_group nfa
      else reachable_many_groups nfa group_count
  end.
