(* ===== verification/LexReachCorrect.v ===== *)
(** The groups reachable from a state: the component search of the lexer, the
    order of its components, and the result. *)

From stdpp Require Import relations.
From S2P Require Import Prelude Graph Bits U8Set BitSet CharTransitions LexDfa Search LexNfa LexNfaClasses Tarjan LexNfaScc LexReach.

Lemma fmap_alterN_at {A B} (h : A → B) (f : A → A) (f' : B → B) l i :
  (∀ x, l.[i] = Some x → h (f x) = f' (h x)) → h <$> alterN f l i = alterN f' (h <$> l) i.
Proof.
  intros H. apply nthN_ext. intros j. rewrite nthN_fmap, !nthN_alterN, nthN_fmap.
  destruct (N.eqb_spec j i) as [->|]; [|done]. destruct (l.[i]) as [x|]; [|done]. cbn. f_equal. auto.
Qed.

(** * The arrays as those of the shared search *)

Definition disc_z (d : N) : Z := if d =? u32_max then (-1)%Z else Z.of_N d.

Definition shared (g : reach_search) : Nfa.search :=
  Nfa.Search (disc_z <$> disc g) (Z.of_N <$> lowlink g) (on_stack g) (stack g) (Z.of_N (index_counter g))
    (scc_id g) (scc_count g).

Lemma disc_z_small d : d < u32_max → disc_z d = Z.of_N d.
Proof. intros Hd. unfold disc_z. by rewrite (proj2 (N.eqb_neq _ _)) by lia. Qed.

Lemma shared_enter g x : index_counter g < 2147483647 → shared (enter g x) = Nfa.discover (shared g) x.
Proof.
  intros Hi. unfold shared, enter, Nfa.discover. cbn.
  rewrite !(fmap_alterN_at _ _ (λ _, Z.of_N (index_counter g))); [| |]; [|done|].
  - f_equal. unfold Nfa.i32_wrap. rewrite u32_wrapping_add_small by (unfold u32_modulus; lia).
    rewrite Z.mod_small by lia. lia.
  - intros y _. apply disc_z_small. unfold u32_max. lia.
Qed.

Lemma shared_lower g s b : shared (lower_link g s b) = Nfa.lower (shared g) s (Z.of_N b).
Proof. unfold shared, lower_link, Nfa.lower. cbn. f_equal. apply fmap_alterN_at. intros x _. lia. Qed.

Lemma pop_members_component members state on map c :
  state ∈ members → Nfa.pop_component members state on map c = Some (pop_members members state on map c).
Proof.
  revert on map. induction members as [|m members IH]; intros on map Hin; [by apply elem_of_nil in Hin|].
  cbn [Nfa.pop_component pop_members]. destruct (N.eqb_spec m state) as [|Hne]; [done|].
  apply IH. apply elem_of_cons in Hin as [->|]; done.
Qed.

Lemma shared_close g s : s ∈ stack g → scc_count g < u32_max → (∀ d, (disc g).[s] = Some d → d ≠ u32_max) →
  shared <$> close g s = Nfa.finish (shared g) s.
Proof.
  intros Hs Hc Hd. unfold close, Nfa.finish, shared. cbn [Nfa.low Nfa.disc Nfa.on_stack Nfa.stack Nfa.scc_map Nfa.scc_count Nfa.time].
  rewrite !nthN_fmap. destruct ((lowlink g).[s]) as [low|]; [|done]. destruct ((disc g).[s]) as [d|]; [|done]. cbn [mbind option_bind fmap option_fmap option_map].
  specialize (Hd d eq_refl). unfold disc_z. rewrite (proj2 (N.eqb_neq _ _) Hd).
  assert (Heq : (Z.of_N low =? Z.of_N d)%Z = (low =? d)) by (destruct (N.eqb_spec low d), (Z.eqb_spec (Z.of_N low) (Z.of_N d)); lia).
  rewrite Heq. destruct (low =? d); [|done]. rewrite pop_members_component by done. cbn [mbind option_bind].
  destruct (pop_members _ _ _ _ _) as [[rest on] ids]. cbn. rewrite u32_wrapping_add_small; [done|]. unfold u32_modulus, u32_max in *. lia.
Qed.

(** * The loop over frames *)

Section sccs.
Context (adj : list (list N)).
Let n := lenN adj.

Definition adj_edge (s t : N) : Prop := ∃ row, adj.[s] = Some row ∧ t ∈ row.

Context (Hclosed : ∀ s t, adj_edge s t → t < n) (Hsmall : n < 2147483648).

Definition adj_out (s : N) : nat := match adj.[s] with Some row => length row | None => 0 end.

(** An edge of a reached state that its frame, if it has one, has passed. *)
Definition examined (V : list N) (work : list (N * nat)) (u v : N) : Prop :=
  u ∈ V ∧ ∃ row j, adj.[u] = Some row ∧ row !! j = Some v ∧ ∀ i, (u, i) ∈ work → (j < i)%nat.

Record reach_ok (g : reach_search) (V : list N) (work : list (N * nat)) : Prop := {
  r_scc : scc_inv n adj_edge (shared g) V work.*1;
  r_edges : edges_ok (shared g) V (examined V work);
  r_frames : ∀ s i, (s, i) ∈ work → (i ≤ adj_out s)%nat;
}.

Lemma edges_ok_mono g V X X' : (∀ u v, X' u v → X u v) → edges_ok g V X → edges_ok g V X'.
Proof. intros H [H1 H2 H3]. split; auto. Qed.

Lemma frames_nodup g V work : reach_ok g V work → NoDup work.*1.
Proof.
  intros Hok. pose proof (c_greys_sorted _ _ _ _ _ (i_core _ _ _ (r_scc _ _ _ Hok))) as Hs. unfold descending in Hs.
  induction Hs as [|x l Hl IH Hx]; constructor; [|done]. intros Hin. rewrite Forall_forall in Hx. specialize (Hx x Hin). lia.
Qed.

Lemma disc_reached g V greys x : scc_inv n adj_edge (shared g) V greys → x < n →
  ∃ d, (disc g).[x] = Some d ∧ (d = u32_max ↔ x ∉ V) ∧ (x ∈ V → D (shared g) x = Z.of_N d).
Proof.
  intros Hi Hx. assert (Hlen : x < lenN (disc g)).
  { pose proof (i_disc_len _ _ _ Hi) as H. unfold shared in H. cbn in H. by rewrite lenN_fmap in H; rewrite H. }
  apply nthN_Some_lt in Hlen as [d Hd]. exists d. split; [done|].
  assert (HD : D (shared g) x = disc_z d) by (unfold D, at_, shared; cbn; by rewrite nthN_fmap, Hd).
  assert (Hiff : d = u32_max ↔ x ∉ V).
  { split.
    - intros ->  HV. pose proof (i_reached _ _ _ Hi x HV) as Hr. rewrite HD in Hr. unfold disc_z in Hr. rewrite N.eqb_refl in Hr. lia.
    - intros HV. pose proof (i_fresh _ _ _ Hi x HV) as Hf. rewrite HD in Hf. unfold disc_z in Hf.
      destruct (N.eqb_spec d u32_max); [done|lia]. }
  split; [done|]. intros HV. rewrite HD. unfold disc_z. destruct (N.eqb_spec d u32_max) as [Hm|]; [|done]. by apply Hiff in Hm.
Qed.

Lemma reached_small g V greys : scc_inv n adj_edge (shared g) V greys →
  (length V ≤ N.to_nat n)%nat ∧ index_counter g = N.of_nat (length V) ∧ scc_count g ≤ N.of_nat (length V).
Proof.
  intros Hi. split; [|split].
  - apply NoDup_bounded_length; [apply Hi|]. intros y Hy. rewrite N2Nat.id. by apply (i_range _ _ _ Hi).
  - pose proof (i_time _ _ _ Hi) as Ht. unfold shared in Ht. cbn in Ht. lia.
  - pose proof (i_count _ _ _ Hi) as Hc. unfold shared in Hc. cbn in Hc. unfold lenN in Hc. lia.
Qed.

Lemma reached_room V x : NoDup V → (∀ s, s ∈ V → s < n) → x < n → x ∉ V → (length V < N.to_nat n)%nat.
Proof.
  intros Hnd Hr Hx HxV. assert (length (x :: V) ≤ N.to_nat n)%nat; [|done].
  apply NoDup_bounded_length; [by constructor|]. intros y [->|Hy]%elem_of_cons; rewrite N2Nat.id; auto.
Qed.

(** A state is entered: from the frame on top, or as a root. *)
Lemma enter_ok g V work X x :
  scc_inv n adj_edge (shared g) V work.*1 → edges_ok (shared g) V X →
  (∀ u v, examined (V ++ [x]) ((x, O) :: work) u v → X u v ∨ head work.*1 = Some u ∧ v = x) →
  (∀ s i, (s, i) ∈ work → (i ≤ adj_out s)%nat) →
  x < n → x ∉ V → match work.*1 with [] => True | p :: _ => adj_edge p x end →
  reach_ok (enter g x) (V ++ [x]) ((x, O) :: work).
Proof.
  intros Hi He Hsub Hf Hx HxV Hp. destruct (reached_small _ _ _ Hi) as (_ & Hidx & _).
  pose proof (reached_room V x (i_nodup _ _ _ Hi) (i_range _ _ _ Hi) Hx HxV) as Hroom.
  assert (Hs : shared (enter g x) = Nfa.discover (shared g) x) by (apply shared_enter; lia).
  assert (Hi' : scc_inv n adj_edge (shared (enter g x)) (V ++ [x]) (x :: work.*1)) by (rewrite Hs; by apply discover_inv).
  assert (He' : edges_ok (shared (enter g x)) (V ++ [x]) X) by (rewrite Hs; by eapply (edges_discover Hsmall)).
  split; [exact Hi'| |].
  - destruct work.*1 as [|p greys]; cbn [head] in Hsub.
    + eapply edges_ok_mono; [|exact He']. intros u v [?|[? _]]%Hsub; done.
    + pose proof (i_core _ _ _ Hi') as Hc.
      assert (Hps : p ∈ Nfa.stack (shared (enter g x))) by (apply (c_greys _ _ _ _ _ Hc); right; by left).
      eapply edges_ok_mono; [|apply (edges_add _ _ X p x He')].
      * intros u v [?|[[= ->] ->]]%Hsub; [by left|by right].
      * by apply (i_stack _ _ _ Hi').
      * apply elem_of_app. right. by left.
      * done.
      * intros _. pose proof (c_low_le _ _ _ _ _ Hc p Hps). pose proof (top_grey _ _ _ _ _ _ p Hc ltac:(by left)). lia.
  - intros s i [[= -> ->]|Hin]%elem_of_cons; [lia|auto].
Qed.

Lemma examined_next V s i rest row next u v :
  s ∉ rest.*1 → adj.[s] = Some row → row !! i = Some next → examined V ((s, S i) :: rest) u v →
  examined V ((s, i) :: rest) u v ∨ u = s ∧ v = next.
Proof.
  intros Hs Hrow Hnext (Hu & row' & j & Hrow' & Hj & Hall). destruct (decide (u = s)) as [->|Hne].
  - assert (row' = row) as -> by congruence. specialize (Hall (S i) ltac:(by left)).
    destruct (decide (j = i)) as [->|Hji]; [right; split; congruence|left]. split; [done|]. exists row, j. split; [done|]. split; [done|].
    intros i' [[= ->]|Hin]%elem_of_cons; [lia|]. apply (list_elem_of_fmap_2 fst) in Hin. done.
  - left. split; [done|]. exists row', j. split; [done|]. split; [done|].
    intros i' [[= ? _]|Hin]%elem_of_cons; [done|]. apply Hall. by right.
Qed.

Lemma examined_enter V work x u v : examined (V ++ [x]) ((x, O) :: work) u v → u ≠ x ∧ examined V work u v.
Proof.
  intros (Hu & row & j & Hrow & Hj & Hall). destruct (decide (u = x)) as [->|Hne].
  - specialize (Hall O ltac:(by left)). lia.
  - split; [done|]. split; [set_solver|]. exists row, j. split; [done|]. split; [done|]. intros i Hi. apply Hall. by right.
Qed.

Lemma examined_done V s i rest row u v :
  s ∉ rest.*1 → adj.[s] = Some row → row !! i = None → examined V rest u v → examined V ((s, i) :: rest) u v.
Proof.
  intros Hs Hrow Hi%lookup_ge_None (Hu & row' & j & Hrow' & Hj & Hall). split; [done|]. exists row', j. split; [done|]. split; [done|].
  intros i' [[= -> ->]|Hin]%elem_of_cons; [|by apply Hall]. assert (row' = row) as -> by congruence.
  apply lookup_lt_Some in Hj. lia.
Qed.

Definition frame_rounds (f : N * nat) : nat := S (adj_out f.1 - f.2).
Definition rounds_left (V : list N) : nat := weight V (λ s, S (adj_out s)) (seqN (length adj)).

Definition reach_inv (V0 : list N) (st : reach_search * list (N * nat)) (m : nat) : Prop :=
  ∃ V, reach_ok st.1 V st.2 ∧ V0 ⊆ V ∧ (rounds_left V + sum_list_with frame_rounds st.2 ≤ m)%nat.

Lemma rounds_left_snoc V x : x < n → x ∉ V → (rounds_left (V ++ [x]) + S (adj_out x) = rounds_left V)%nat.
Proof. intros Hx HxV. apply (weight_snoc V (λ s, S (adj_out s))); [apply NoDup_seqN|by apply elem_of_seqN|done]. Qed.

Lemma reach_step_ok V0 st m : reach_inv V0 st m → st.2 ≠ [] →
  ∃ st', reach_step adj st = inl st' ∧ ∃ m', reach_inv V0 st' m' ∧ (m' < m)%nat.
Proof.
  destruct st as [g [|[s i] rest]]; [done|]. intros (V & Hok & HV0 & Hm) _. cbn [fst snd] in *.
  pose proof (frames_nodup _ _ _ Hok) as Hnd. cbn in Hnd. apply NoDup_cons in Hnd as [Hsr _].
  destruct Hok as [Hi He Hf]. cbn [fmap list_fmap fst] in Hi. pose proof (i_core _ _ _ Hi) as Hc.
  assert (Hss : s ∈ Nfa.stack (shared g)) by (apply (c_greys _ _ _ _ _ Hc); by left).
  assert (HsV : s ∈ V) by by apply (i_stack _ _ _ Hi). assert (Hsn : s < n) by by apply (i_range _ _ _ Hi).
  destruct (proj1 (nthN_Some_lt adj s) Hsn) as [row Hrow]. cbn [reach_step]. rewrite Hrow.
  assert (Hout : adj_out s = length row) by (unfold adj_out; by rewrite Hrow).
  destruct (row !! i) as [next|] eqn:Enext.
  - assert (Hedge : adj_edge s next) by (exists row; split; [done|by eapply list_elem_of_lookup_2]).
    assert (Hnext : next < n) by by eapply Hclosed.
    assert (Hilt : (i < adj_out s)%nat) by (rewrite Hout; by eapply lookup_lt_Some).
    destruct (disc_reached g V _ next Hi Hnext) as (d & Hd & Hdm & HdD).
    assert (Hon : ∃ on, (on_stack g).[next] = Some on ∧ (on = true ↔ next ∈ stack g)).
    { pose proof (i_on _ _ _ Hi next Hnext) as Ho. pose proof (i_on_len _ _ _ Hi) as Hl. unfold On, shared, at_ in *. cbn in Ho, Hl.
      destruct (proj1 (nthN_Some_lt (on_stack g) next) ltac:(by rewrite Hl)) as [on Hon]. rewrite Hon in Ho. by exists on. }
    destruct Hon as (on & Hon & Honiff). rewrite Hd, Hon.
    assert (Hf' : ∀ s' i', (s', i') ∈ (s, S i) :: rest → (i' ≤ adj_out s')%nat).
    { intros s' i' [[= -> ->]|Hin]%elem_of_cons; [lia|]. apply Hf. by right. }
    destruct (N.eqb_spec d u32_max) as [Hmax|Hmax].
    + assert (HnV : next ∉ V) by by apply Hdm. eexists. split; [done|]. eexists. split.
      * exists (V ++ [next]). cbn [fst snd]. split; [|split; [set_solver|done]].
        apply (enter_ok _ _ _ (examined V ((s, i) :: rest))); try done.
        intros u v [Hu Hex]%examined_enter. destruct (examined_next V s i rest row next u v) as [?|[-> ->]]; auto.
      * pose proof (rounds_left_snoc V next Hnext HnV). cbn [sum_list_with]. unfold frame_rounds in *. cbn [fst snd] in *. cbn in Hm. lia.
    + assert (HnV : next ∈ V) by (destruct (decide (next ∈ V)); [done|]; by destruct Hmax; apply Hdm).
      specialize (HdD HnV).
      destruct on; (eexists; split; [done|]; eexists; split; [|instantiate (1 := (m - 1)%nat); cbn in Hm; lia]).
      * exists V. cbn [fst snd]. split; [|split; [done|cbn in Hm |- *; unfold frame_rounds in *; cbn in *; lia]]. split; [| |done].
        -- rewrite shared_lower, <-HdD. cbn [fmap list_fmap fst]. apply (lower_inv _ V (s :: rest.*1)); [done..|].
           apply core_lower; [done|by left|by apply Honiff|by apply rtc_once].
        -- rewrite shared_lower, <-HdD. eapply edges_ok_mono; [|apply edges_add with (u := s) (v := next)].
           ++ intros u v Hex. by eapply examined_next.
           ++ by apply (edges_lower n Hsmall); [|apply (i_low_len _ _ _ Hi)|].
           ++ done.
           ++ done.
           ++ done.
           ++ intros _. unfold L, Nfa.lower. cbn [Nfa.low]. rewrite at_alter by (by rewrite (i_low_len _ _ _ Hi)). rewrite N.eqb_refl.
              unfold D. cbn [Nfa.disc]. lia.
      * assert (Hns : next ∉ stack g) by (intros Hin; by apply Honiff in Hin).
        exists V. cbn [fst snd]. split; [|split; [done|cbn in Hm |- *; unfold frame_rounds in *; cbn in *; lia]]. split; [done| |done].
        eapply edges_ok_mono; [|apply (edges_add _ _ _ s next He)]; [intros u v Hex; by eapply examined_next|done|done|done|done].
  - destruct (leave_inv Hsmall (shared g) V s rest.*1 Hi) as (g' & Hfin & Hlow & Hg').
    assert (Hclose : shared <$> close g s = Some g').
    { rewrite shared_close; [done|done| |].
      - destruct (reached_small _ _ _ Hi) as (? & _ & ?). unfold u32_max. lia.
      - intros d Hd ->. destruct (disc_reached g V _ s Hi Hsn) as (d & Hd' & Hiff & _). assert (d = u32_max) by congruence. by apply Hiff in HsV. }
    destruct (close g s) as [g1|]; [|done]. injection Hclose as <-. pose proof (edges_finish Hsmall _ _ _ _ _ _ Hi He Hfin) as He'.
    assert (Hex : ∀ u v, examined V rest u v → examined V ((s, i) :: rest) u v) by (intros u v; by eapply examined_done).
    assert (Hf' : ∀ s' i', (s', i') ∈ rest → (i' ≤ adj_out s')%nat) by (intros s' i' Hin; apply Hf; by right).
    destruct rest as [|[p j] rest].
    + eexists. split; [done|]. exists (m - 1)%nat. cbn in Hm. split; [|lia]. exists V. cbn [fst snd]. split; [|split; [done|cbn; lia]].
      split; [done| |done]. by eapply edges_ok_mono.
    + unfold shared in Hlow. cbn in Hlow. rewrite nthN_fmap in Hlow. destruct ((lowlink g1).[s]) as [low|]; [|done]. injection Hlow as Hlow.
      eexists. split; [done|]. exists (m - 1)%nat. cbn in Hm. split; [|lia]. exists V. cbn [fst snd]. split; [|split; [done|cbn; lia]].
      cbn [fmap list_fmap fst] in Hg'.
      assert (Hpn : p < n).
      { apply (i_range _ _ _ Hi), (i_stack _ _ _ Hi), (c_greys _ _ _ _ _ Hc). right. by left. }
      split; [| |done].
      * rewrite shared_lower, Hlow. exact Hg'.
      * rewrite shared_lower. eapply edges_ok_mono; [exact Hex|]. apply (edges_lower n Hsmall); [done| |done].
        pose proof (i_low_len _ _ _ Hg') as Hl. unfold Nfa.lower in Hl. cbn [Nfa.low] in Hl. by rewrite lenN_alterN in Hl.
Qed.

Lemma rounds_fuel V : (rounds_left V ≤ sum_list_with (λ row, S (length row)) adj)%nat.
Proof.
  unfold rounds_left, weight. trans (sum_list_with (λ s, S (adj_out s)) (seqN (length adj))).
  { induction (seqN (length adj)) as [|x l IH]; simpl; [done|]. case_decide; lia. }
  unfold seqN. enough (H : ∀ k l, (∀ i row, l !! i = Some row → adj.[N.of_nat (k + i)] = Some row) →
    sum_list_with (λ s, S (adj_out s)) (N.of_nat <$> seq k (length l)) = sum_list_with (λ row, S (length row)) l).
  { rewrite (H 0%nat adj); [done|]. intros i row Hi. by rewrite nthN_of_nat. }
  intros k l. revert k. induction l as [|row l IH]; intros k Hl; [done|].
  pose proof (Hl 0%nat row eq_refl) as H0. rewrite Nat.add_0_r in H0. simpl. unfold adj_out at 1. rewrite H0.
  do 2 f_equal. apply IH. intros i row' Hi. rewrite Nat.add_succ_l, <-Nat.add_succ_r. by apply (Hl (S i)).
Qed.

Lemma reach_root_ok g V r : reach_ok g V [] → r < n →
  ∃ g' V', reach_root adj g r = Some g' ∧ reach_ok g' V' [] ∧ V ⊆ V' ∧ r ∈ V'.
Proof.
  intros [Hi He Hf] Hr. destruct (disc_reached g V _ r Hi Hr) as (d & Hd & Hdm & _). unfold reach_root. rewrite Hd. cbn [mbind option_bind].
  destruct (N.eqb_spec d u32_max) as [Hmax|Hmax]; cbn [negb].
  2:{ exists g, V. split; [done|]. split; [done|]. split; [done|]. destruct (decide (r ∈ V)) as [|HrV]; [done|]. by apply Hdm in HrV. }
  apply Hdm in Hmax as HrV.
  assert (Hstart : reach_inv (V ++ [r]) (enter g r, [(r, O)]) (rounds_left V)).
  { exists (V ++ [r]). cbn [fst snd]. split; [|split; [done|]].
    - apply (enter_ok _ _ _ (examined V [])); try done. intros u v [_ Hex]%examined_enter. by left.
    - pose proof (rounds_left_snoc V r Hr HrV). cbn. unfold frame_rounds. cbn. lia. }
  destruct (run_terminates (reach_step adj) (reach_inv (V ++ [r])) (reach_fuel adj) (enter g r, [(r, O)]) (rounds_left V))
    as (res & [g' work'] & m & -> & Hinv & Hexit); [|done| |].
  - intros st st' m Hinv Hstep. destruct (decide (st.2 = [])) as [Hnil|Hne].
    + destruct st as [g0 work0]. cbn in Hnil. subst work0. discriminate.
    + destruct (reach_step_ok _ st m Hinv Hne) as (st1 & H1 & m' & H2). rewrite Hstep in H1. injection H1 as <-. by exists m'.
  - unfold reach_fuel. pose proof (rounds_fuel V). pose proof (pow2_S_gt (sum_list_with (λ row, S (length row)) adj)). lia.
  - destruct (decide (work' = [])) as [->|Hne].
    + cbn in Hexit. injection Hexit as <-. destruct Hinv as (V' & Hok & HV' & _). exists g', V'. split; [done|]. split; [done|]. set_solver.
    + destruct (reach_step_ok _ (g', work') m Hinv Hne) as (st1 & H1 & _). congruence.
Qed.

Lemma initial_reach_ok : reach_ok (initial_reach (length adj)) [] [].
Proof.
  split.
  - split; unfold initial_reach, shared; cbn; rewrite ?lenN_fmap, ?lenN_replicate; try done.
    + constructor.
    + intros s Hs. by apply elem_of_nil in Hs.
    + intros s Hs. by apply elem_of_nil in Hs.
    + intros s _. unfold D, at_. cbn. rewrite nthN_fmap, nthN_replicate. by destruct (_ <? _).
    + split; try (intros ? Hs; by apply elem_of_nil in Hs); try (intros ?? Hs; by apply elem_of_nil in Hs); constructor.
    + intros s Hs. unfold On, at_. cbn. rewrite nthN_replicate. split; [by destruct (_ <? _)|intros Hin; by apply elem_of_nil in Hin].
  - split; by intros u v (Hu%elem_of_nil & _).
  - intros s i Hs. by apply elem_of_nil in Hs.
Qed.

(** Every state has a component; two states of one component reach each other;
    edges lead to the component of the source or to one closed before it. *)
Lemma reach_sccs_spec :
  ∃ g, reach_sccs adj = Some g ∧ lenN (scc_id g) = n ∧ scc_count g ≤ n ∧
    (∀ s, s < n → ∃ c, (scc_id g).[s] = Some c ∧ c < scc_count g) ∧
    (∀ u v c, (scc_id g).[u] = Some c → (scc_id g).[v] = Some c → rtc adj_edge u v) ∧
    ∀ u v c d, adj_edge u v → (scc_id g).[u] = Some c → (scc_id g).[v] = Some d → d ≤ c.
Proof.
  unfold reach_sccs.
  assert (H : ∀ l g V, (∀ r, r ∈ l → r < n) → reach_ok g V [] →
    ∃ g' V', foldM (reach_root adj) g l = Some g' ∧ reach_ok g' V' [] ∧ V ⊆ V' ∧ ∀ r, r ∈ l → r ∈ V').
  { induction l as [|r l IH]; intros g V Hl Hi; cbn [foldM].
    - exists g, V. split; [done|]. split; [done|]. split; [done|]. intros r Hr. by apply elem_of_nil in Hr.
    - destruct (reach_root_ok g V r Hi (Hl r ltac:(by left))) as (g1 & V1 & -> & Hi1 & HV1 & Hr1). cbn [mbind option_bind].
      destruct (IH g1 V1 ltac:(intros; apply Hl; by right) Hi1) as (g2 & V2 & H2 & Hi2 & HV2 & Hr2).
      exists g2, V2. split; [done|]. split; [done|]. split; [set_solver|]. intros x [->|Hx]%elem_of_cons; auto. }
  destruct (H (seqN (length adj)) _ [] ltac:(intros r Hr%elem_of_seqN; exact Hr) initial_reach_ok) as (g & V & Hg & [Hi He _] & _ & Hall).
  assert (HV : ∀ s, s < n → s ∈ V) by (intros s Hs; apply Hall; by apply elem_of_seqN).
  assert (Hnil : ∀ s, s ∉ Nfa.stack (shared g)).
  { intros s Hs. destruct (c_below _ _ _ _ _ (i_core _ _ _ Hi) s Hs) as (w & Hw & _). by apply elem_of_nil in Hw. }
  destruct (reached_small _ _ _ Hi) as (Hlen & _ & Hcount).
  assert (Hid : lenN (scc_id g) = n) by apply (i_map_len _ _ _ Hi).
  assert (Hmp : ∀ s c, (scc_id g).[s] = Some c → s < n ∧ Mp (shared g) s = c).
  { intros s c Hs. split; [rewrite <-Hid; by eapply nthN_lt|]. unfold Mp, at_, shared. cbn. by rewrite Hs. }
  exists g. split; [done|]. split; [done|]. split; [lia|]. split; [|split].
  - intros s Hs. exists (Mp (shared g) s). split; [apply at_Some; by rewrite (i_map_len _ _ _ Hi)|].
    apply (i_class _ _ _ Hi); [by apply HV|apply Hnil].
  - intros u v c [Hu Hmu]%Hmp [Hv Hmv]%Hmp.
    apply (i_scc _ _ _ Hi); [by apply HV|by apply HV|apply Hnil|apply Hnil|]. congruence.
  - intros u v c d (row & Hrow & [j Hj]%list_elem_of_lookup) [Hu <-]%Hmp [Hv <-]%Hmp. apply (e_done _ _ _ He); [|apply Hnil].
    split; [by apply HV|]. exists row, j. split; [done|]. split; [done|]. intros i Hin. by apply elem_of_nil in Hin.
Qed.
End sccs.

(** * The graph of the components *)

Section components.
Context (adj : list (list N)) (ids : list N) (count : N).
Context (Hlen : lenN ids = lenN adj) (Hclosed : ∀ s t, adj_edge adj s t → t < lenN adj).
Context (Hids : ∀ s, s < lenN adj → ∃ c, ids.[s] = Some c ∧ c < count).
Context (Hsame : ∀ u v c, ids.[u] = Some c → ids.[v] = Some c → rtc (adj_edge adj) u v).
Context (Hback : ∀ u v c d, adj_edge adj u v → ids.[u] = Some c → ids.[v] = Some d → d ≤ c).

Definition comp_edge (c d : N) : Prop :=
  ∃ u v, adj_edge adj u v ∧ ids.[u] = Some c ∧ ids.[v] = Some d ∧ c ≠ d.

Lemma comp_edge_lt c d : comp_edge c d → d < c.
Proof using All. intros (u & v & He & Hu & Hv & Hne). pose proof (Hback _ _ _ _ He Hu Hv). lia. Qed.

Lemma ids_lt s c : ids.[s] = Some c → c < count.
Proof using All. intros Hs. pose proof (nthN_lt _ _ _ Hs) as Hl. rewrite Hlen in Hl. destruct (Hids s Hl) as (c' & ? & ?). congruence. Qed.

Lemma comp_edge_range c d : comp_edge c d → c < count ∧ d < count.
Proof using All. intros (u & v & _ & Hu & Hv & _). split; by eapply ids_lt. Qed.

(** The rows after the states below [k], and the targets [pre] of state [k]. *)
Definition successors_ok (k : N) (pre : list N) (rows : list (list N)) : Prop :=
  lenN rows = count ∧ ∀ d c, row_edge rows c d ↔
    ∃ u v, ids.[u] = Some c ∧ ids.[v] = Some d ∧ c ≠ d ∧ (u < k ∧ adj_edge adj u v ∨ u = k ∧ v ∈ pre).

Lemma add_successors_ok k targets rows : adj.[k] = Some targets → successors_ok k [] rows →
  ∃ rows', add_successors ids rows (k, targets) = Some rows' ∧ successors_ok (k + 1) [] rows'.
Proof using All.
  intros Hk Hrows. destruct (Hids k) as (src & Hsrc & _); [by eapply nthN_lt|]. unfold add_successors. rewrite Hsrc. cbn [mbind option_bind].
  assert (Htargets : ∀ t, t ∈ targets → t < lenN adj) by (intros t Ht; apply (Hclosed k); by exists targets).
  assert (Hloop : ∀ suf pre rows, targets = pre ++ suf → successors_ok k pre rows →
    ∃ rows', foldM (λ successors target, dst ← ids.[target]; if src =? dst then Some successors else push_edge successors (dst, src)) rows suf = Some rows' ∧
      successors_ok k targets rows').
  { induction suf as [|t suf IH]; intros pre rows0 Heq [Hl Hr]; cbn [foldM].
    - rewrite app_nil_r in Heq. subst pre. by exists rows0.
    - destruct (Hids t) as (dst & Hdst & _); [apply Htargets; rewrite Heq; set_solver|]. rewrite Hdst. cbn [mbind option_bind].
      destruct (N.eqb_spec src dst) as [<-|Hne]; cbn [mbind option_bind].
      + apply (IH (pre ++ [t])); [by rewrite <-app_assoc|]. split; [done|]. intros d c. rewrite Hr. split.
        * intros (u & v & Hu & Hv & Hcd & [?|[? ?]]); exists u, v; (split; [done|]; split; [done|]; split; [done|]); [by left|right; set_solver].
        * intros (u & v & Hu & Hv & Hcd & [?|[-> [Hin| ->%list_elem_of_singleton]%elem_of_app]]); [| |congruence];
            exists u, v || exists k, v; (split; [done|]; split; [done|]; split; [done|]); [by left|by right].
      + destruct (push_edge_spec rows0 dst src) as (rows1 & Hp & Hl1 & Hr1 & _); [rewrite Hl; by eapply ids_lt|]. rewrite Hp. cbn [mbind option_bind].
        apply (IH (pre ++ [t])); [by rewrite <-app_assoc|]. split; [unfold lenN in *; by rewrite Hl1|].
        intros d c. rewrite Hr1, Hr. split.
        * intros [(u & v & Hu & Hv & Hcd & [?|[? ?]])|[= -> ->]]; [exists u, v..|exists k, t]; (split; [done|]; split; [done|]; split; [done|]); [by left|right; set_solver|right; set_solver].
        * intros (u & v & Hu & Hv & Hcd & [?|[-> [Hin| ->%list_elem_of_singleton]%elem_of_app]]); [left..|right; congruence];
            exists u, v || exists k, v; (split; [done|]; split; [done|]; split; [done|]); [by left|by right]. }
  destruct (Hloop targets [] rows eq_refl Hrows) as (rows' & H1 & Hl & Hr). exists rows'. split; [exact H1|]. split; [done|].
  intros d c. rewrite Hr. split; intros (u & v & Hu & Hv & Hcd & Hor); exists u, v; (split; [done|]; split; [done|]; split; [done|]).
  - left. destruct Hor as [[Hlt He]|[-> Hin]]; [split; [lia|done]|]. split; [lia|]. by exists targets.
  - destruct Hor as [[Hlt He]|[_ ?%elem_of_nil]]; [|done]. destruct (decide (u = k)) as [->|]; [right|left; split; [lia|done]].
    split; [done|]. destruct He as (row & Hrow & Hin). congruence.
Qed.

Lemma component_successors_ok :
  ∃ rows, component_successors ids count adj = Some rows ∧ lenN rows = count ∧
    (∀ c d, row_edge rows c d ↔ comp_edge c d) ∧ ∀ row, row ∈ rows → NoDup row.
Proof using All.
  unfold component_successors.
  destruct (foldM_enumerate (λ k rows, successors_ok k [] rows) (add_successors ids) (replicate (N.to_nat count) []) adj) as (rows & -> & Hl & Hr).
  - intros k row rows Hk Hrows. by apply add_successors_ok.
  - split; [rewrite lenN_replicate; lia|]. intros d c. split; [intros H; by apply row_edge_empty in H|].
    intros (u & v & _ & _ & _ & [[? _]|[_ ?%elem_of_nil]]); [lia|done].
  - cbn [mbind option_bind]. eexists. split; [done|]. split; [by rewrite <-Hl; apply lenN_fmap|]. split.
    + intros c d. trans (row_edge rows c d).
      * unfold row_edge. change (map ?f rows) with (f <$> rows). setoid_rewrite nthN_fmap. split.
        -- intros (row & Hrow & Hin). destruct (rows.[c]) as [row0|]; [|done]. injection Hrow as <-. exists row0. split; [done|]. by apply dedup_sort_spec.
        -- intros (row & Hrow & Hin). rewrite Hrow. eexists. split; [done|]. by apply dedup_sort_spec.
      * rewrite Hr. unfold comp_edge. split.
        -- intros (u & v & Hu & Hv & Hcd & [[? ?]|[_ ?%elem_of_nil]]); [by exists u, v|done].
        -- intros (u & v & He & Hu & Hv & Hcd). exists u, v. split; [done|]. split; [done|]. split; [done|]. left. split; [|done].
           destruct He as (row & Hrow & _). by eapply nthN_lt.
    + intros row (row0 & -> & _)%list_elem_of_fmap. apply strictly_sorted_NoDup, dedup_sort_spec.
Qed.

Lemma comp_rtc s t c d : ids.[s] = Some c → ids.[t] = Some d → rtc comp_edge c d ↔ rtc (adj_edge adj) s t.
Proof using All.
  intros Hs Ht. split.
  - intros Hr. revert s Hs. induction Hr as [c|c c1 d (u & v & He & Hu & Hv & _) _ IH]; intros s Hs; [by eapply Hsame|].
    etrans; [by apply (Hsame s u c)|]. eapply rtc_l; [exact He|]. by apply IH.
  - intros Hr. revert c Hs. induction Hr as [s|s s1 t He _ IH]; intros c Hs; [assert (c = d) as -> by congruence; done|].
    destruct (Hids s1 (Hclosed _ _ He)) as (c1 & Hs1 & _). specialize (IH Ht c1 Hs1).
    destruct (decide (c = c1)) as [->|Hne]; [done|]. eapply rtc_l; [|exact IH]. by exists s, s1.
Qed.

(** Sets that grow along the edges hold what is found at the end of a path. *)
Lemma comp_closure (G O : N → N → Prop) :
  (∀ c g, c < count → G c g ↔ O c g ∨ ∃ d, comp_edge c d ∧ G d g) →
  ∀ c g, c < count → G c g ↔ ∃ d, rtc comp_edge c d ∧ O d g.
Proof using All.
  intros HG c g. induction (N.lt_wf_0 c) as [c _ IH]. intros Hc. rewrite HG by done. split.
  - intros [?|(d & He & Hd)]; [by exists c|]. apply IH in Hd as (d' & Hr & HO); [|by apply comp_edge_lt|by apply (comp_edge_range c d)].
    exists d'. split; [by eapply rtc_l|done].
  - intros (d & Hr & HO). inversion Hr as [|x y z He Hr']; subst; [by left|right]. exists y. split; [done|].
    apply IH; [by apply comp_edge_lt|by apply (comp_edge_range c y)|by exists d].
Qed.
End components.

(** * The order of the queue *)

Lemma row_edge_graph rows s t : row_edge rows s t → t < lenN rows → edge rows s t.
Proof. intros (row & Hrow & Hin) Ht. by exists row. Qed.

Lemma elem_of_successor_edges rows s t : (s, t) ∈ successor_edges rows ↔ row_edge rows s t.
Proof.
  unfold successor_edges. rewrite list_elem_of_bind. split.
  - intros ([i row] & (x & [= -> ->] & Hin)%list_elem_of_fmap & Hrow%elem_of_enumerate). by exists row.
  - intros (row & Hrow & Hin). exists (s, row). split; [|by apply elem_of_enumerate]. by apply list_elem_of_fmap_2.
Qed.

Lemma occ_alter_row rows s t0 t : t0 < lenN rows →
  occ t (concat (alterN (λ row, row ++ [s]) rows t0)) = ((if decide (s = t) then 1 else 0) + occ t (concat rows))%nat.
Proof.
  intros [row Hrow]%nthN_Some_lt. rewrite nthN_lookup in Hrow. apply list_elem_of_split_length in Hrow as (l1 & l2 & -> & Hlen).
  rewrite alterN_alter. replace (N.to_nat t0) with (length l1) by lia.
  rewrite CharTransitionsFacts.list_alter_middle, !concat_app, !occ_app. cbn [concat]. rewrite !occ_app, occ_cons.
  change (occ t []) with 0%nat. lia.
Qed.

Lemma reverse_edges_occ n edges rows t : (∀ s t, (s, t) ∈ edges → t < N.of_nat n) → reverse_edges n edges = Some rows →
  occ t (concat rows) = length (filter (λ e, e.1 = t) edges).
Proof.
  revert rows. unfold reverse_edges. induction edges as [|[s0 t0] edges IH] using rev_ind; intros rows Hlt Hr.
  - injection Hr as <-. induction n as [|n IH]; [done|]. cbn. apply IH. intros s t' H. by apply elem_of_nil in H.
  - assert (Hlt' : ∀ s t, (s, t) ∈ edges → t < N.of_nat n) by (intros s t' H; apply (Hlt s t'), elem_of_app; by left).
    destruct (reverse_edges_spec n edges Hlt') as (rows0 & Hr0 & Hl0 & _). unfold reverse_edges in Hr0.
    rewrite foldM_app, Hr0 in Hr. cbn [mbind option_bind foldM] in Hr.
    assert (Ht0 : t0 < lenN rows0) by (unfold lenN; rewrite Hl0; apply (Hlt s0 t0), elem_of_app; right; by left).
    destruct (push_edge_spec rows0 s0 t0 Ht0) as (rows1 & Hp & _ & _ & ->). rewrite Hp in Hr. injection Hr as <-.
    rewrite occ_alter_row, (IH rows0 Hlt' Hr0), filter_app, length_app, filter_cons by done. cbn [fst]. case_decide; simpl; lia.
Qed.

Lemma successor_edges_from rows t : length (filter (λ e : N * N, e.1 = t) (successor_edges rows)) = length (adj_of rows t).
Proof.
  assert (Hrow : ∀ sid row, filter (λ e : N * N, e.1 = t) ((λ succ : N, (sid, succ)) <$> row) = if decide (sid = t) then (λ succ : N, (sid, succ)) <$> row else []).
  { intros sid row. induction row as [|x row IH]; [by case_decide|]. rewrite fmap_cons, filter_cons, IH. cbn. by repeat case_decide. }
  unfold successor_edges, adj_of. induction rows as [|row rows IH] using rev_ind; [done|].
  rewrite enumerate_snoc, bind_app, bind_one, filter_app, length_app, IH, Hrow, nthN_snoc.
  destruct (N.eqb_spec t (lenN rows)) as [->|Hne].
  - rewrite (proj2 (nthN_None rows _)) by done. rewrite decide_True by done. by rewrite length_fmap.
  - rewrite decide_False by congruence. simpl. lia.
Qed.

Section propagate.
Context (groups : N) (preds : list (list N)).
Context (Hpreds : ∀ s t, row_edge preds s t → t < lenN preds).

Definition bits_ok (bits : BitSet.t) : Prop := BitSet.wf bits ∧ BitSet.len bits = groups.
Definition all_bits (reach : list BitSet.t) : Prop := lenN reach = lenN preds ∧ ∀ bits, bits ∈ reach → bits_ok bits.
Definition group_of (reach : list BitSet.t) (c g : N) : Prop := ∃ bits, reach.[c] = Some bits ∧ BitSet.get bits g = true.

(** What a component contributes: the groups [gain] of its own and those of its
    set. *)
Context (contribute : N → BitSet.t → option (BitSet.t → BitSet.t)) (gain : N → N → Prop).
Context (Hcontribute : ∀ s r, s < lenN preds → bits_ok r → ∃ add, contribute s r = Some add ∧ ∀ bits, bits_ok bits →
  bits_ok (add bits) ∧ ∀ g, BitSet.get (add bits) g = true ↔ BitSet.get bits g = true ∨ gain s g ∨ BitSet.get r g = true).

Definition union_into (add : BitSet.t → BitSet.t) (reach : list BitSet.t) (pred : N) : list BitSet.t := alterN add reach pred.

(** What a round does to the groups. *)
Definition push_groups (reach : list BitSet.t) (s : N) : list BitSet.t :=
  match reach.[s] ≫= contribute s with Some add => foldl (union_into add) reach (adj_of preds s) | None => reach end.

Lemma length_union_into add reach l : length (foldl (union_into add) reach l) = length reach.
Proof using All. revert reach. induction l as [|x l IH]; intros reach; [done|]. cbn. rewrite IH. apply length_alterN. Qed.

Lemma length_push_groups reach s : length (push_groups reach s) = length reach.
Proof using All. unfold push_groups. destruct (reach.[s] ≫= contribute s); [apply length_union_into|done]. Qed.

Lemma propagate_preds_eq V add suf deg queue reach :
  (∀ t, N.of_nat (remaining preds V t + occ t suf) ≤ degree_bound preds) →
  kahn_ok preds V suf deg queue → length reach = length preds → (∀ t, t ∈ suf → t < lenN preds) →
  foldM (propagate_pred add) (deg, queue, reach) suf =
  Some (foldl (kahn_relax (λ d, d - 1)) (deg, queue) suf, foldl (union_into add) reach suf).
Proof using All.
  revert deg queue reach. induction suf as [|t suf IH]; intros deg queue reach Hb Hok Hl Hlt; [done|].
  assert (Ht : t < lenN preds) by (apply Hlt; by left). pose proof (kahn_deg _ _ _ _ _ Hok t Ht) as Hd.
  assert (Hok' : kahn_ok preds V suf (kahn_relax (λ d, d - 1) (deg, queue) t).1 (kahn_relax (λ d, d - 1) (deg, queue) t).2).
  { apply kahn_relax_ok; [done|apply Hb|done]. }
  assert (Hb' : ∀ u, N.of_nat (remaining preds V u + occ u suf) ≤ degree_bound preds).
  { intros u. specialize (Hb u). rewrite occ_cons in Hb. case_decide; lia. }
  cbn [foldM foldl]. unfold propagate_pred at 2. cbn [kahn_relax] in Hok' |- *. rewrite Hd in Hok' |- *. cbn [fst snd] in Hok'.
  destruct (proj1 (nthN_Some_lt reach t)) as [bits ->]; [unfold lenN in *; by rewrite Hl|]. cbn [mbind option_bind].
  rewrite occ_cons, decide_True in Hok' |- * by done. rewrite (proj2 (N.eqb_neq _ _)) by lia. cbn [mbind option_bind].
  apply IH; [done|exact Hok'|rewrite <-Hl; apply length_alterN|]. intros u Hu. apply Hlt. by right.
Qed.

Definition kahn_reach (acc0 reach : list BitSet.t) (V : list N) : Prop := reach = foldl push_groups acc0 V.

Lemma kahn_reach_push acc0 acc V s : kahn_reach acc0 acc V → kahn_reach acc0 (push_groups acc s) (V ++ [s]).
Proof using All. unfold kahn_reach. intros ->. by rewrite foldl_snoc. Qed.

Lemma kahn_reach_length acc0 acc V : kahn_reach acc0 acc V → length acc = length acc0.
Proof using All.
  unfold kahn_reach. intros ->. revert acc0. induction V as [|x V IH]; intros acc0; [done|]. cbn. by rewrite IH, length_push_groups.
Qed.

Lemma union_into_bits add reach l : (∀ bits, bits_ok bits → bits_ok (add bits)) → all_bits reach → all_bits (foldl (union_into add) reach l).
Proof using All.
  intros Hadd. revert reach. induction l as [|p l IH]; intros reach [Hl Hb]; cbn [foldl]; [done|]. apply IH. unfold union_into. split; [by rewrite lenN_alterN|].
  intros bits [i Hi]%nthN_elem_of. rewrite nthN_alterN in Hi. destruct (N.eqb_spec i p) as [Heq|_]; [subst i|apply Hb, nthN_elem_of; by exists i].
  destruct (reach.[p]) as [b|] eqn:Eb; [|done]. injection Hi as <-. apply Hadd, Hb, nthN_elem_of. by exists p.
Qed.

Lemma push_groups_bits reach s : all_bits reach → all_bits (push_groups reach s).
Proof using All.
  intros Hall. unfold push_groups. destruct (reach.[s]) as [r|] eqn:Er; [|done]. cbn.
  destruct (Hcontribute s r) as (add & -> & Hadd); [rewrite <-(proj1 Hall); by eapply nthN_lt|apply (proj2 Hall), nthN_elem_of; by exists s|].
  apply union_into_bits; [|done]. intros bits Hb. by apply Hadd.
Qed.

Lemma kahn_reach_bits acc0 acc V : all_bits acc0 → kahn_reach acc0 acc V → all_bits acc.
Proof using All.
  unfold kahn_reach. intros H0 ->. revert acc0 H0. induction V as [|x V IH]; intros acc0 H0; [done|]. cbn. by apply IH, push_groups_bits.
Qed.

Lemma propagate_step_eq acc0 st m : all_bits acc0 → kahn_inv preds (kahn_reach acc0) st m →
  propagate_step contribute preds st = match kahn_step preds push_groups (λ d, d - 1) st with inl st' => inl st' | inr acc => inr (Some acc) end.
Proof using All.
  intros H0. destruct st as [[deg queue] reach]. intros (V & Hok & _ & HR & _). cbn [fst snd] in *.
  pose proof (kahn_reach_bits _ _ _ H0 HR) as Hall. destruct queue as [|s queue]; [done|].
  destruct (kahn_pop_ok preds V s deg queue Hok) as (Hpop & Hs & _ & Hrem). cbn [propagate_step kahn_step].
  destruct (proj1 (nthN_Some_lt preds s) Hs) as [row Hrow].
  destruct (proj1 (nthN_Some_lt reach s)) as [r Hr]; [by rewrite (proj1 Hall)|]. rewrite Hr, Hrow. cbn [mbind option_bind].
  destruct (Hcontribute s r Hs) as (add & Hadd & _); [apply (proj2 Hall), nthN_elem_of; by exists s|]. rewrite Hadd.
  assert (Hadj : adj_of preds s = row) by (unfold adj_of; by rewrite Hrow). rewrite Hadj in *.
  rewrite (propagate_preds_eq (V ++ [s])); [|intros t; rewrite Hrem; apply remaining_bound|done|pose proof (proj1 Hall); unfold lenN in *; lia|intros t Ht; apply (Hpreds s); by exists row].
  destruct (foldl _ _ row) as [deg' queue']. unfold push_groups. rewrite Hr. cbn [mbind option_bind]. by rewrite Hadd, Hadj.
Qed.

Lemma propagate_kahn acc0 deg : all_bits acc0 → length deg = length preds →
  (∀ t, t < lenN preds → deg.[t] = Some (N.of_nat (occ t (concat preds)))) → acyclic preds →
  ∃ V, propagate contribute preds deg acc0 = Some (foldl push_groups acc0 V) ∧ topological preds V ∧ NoDup V ∧ ∀ t, t ∈ V ↔ t < lenN preds.
Proof using All.
  intros H0 Hld Hdeg Hac. assert (Hl0 : length acc0 = length preds) by (pose proof (proj1 H0); unfold lenN in *; lia).
  assert (Hdec : ∀ d, 1 ≤ d → d ≤ degree_bound preds → d - 1 = d - 1) by done.
  assert (Hdeg' : ∀ t, t < lenN preds → deg.[t] = Some (N.of_nat (remaining preds [] t))) by (intros t Ht; by rewrite remaining_nil, Hdeg).
  destruct (kahn_spec preds push_groups (λ d, d - 1) Hdec (kahn_reach acc0) (kahn_reach_push acc0) deg acc0 Hld Hdeg' eq_refl)
    as (acc & V & Hk & HR & Htop & Hnd & HV).
  exists V. split; [|split; [done|split; [done|]]].
  - assert (Hinv : ∃ m, kahn_inv preds (kahn_reach acc0) (deg, kahn_queue deg, acc0) m) by (exists (length preds); by apply kahn_start_inv).
    unfold propagate. rewrite (run_simulates _ (kahn_step preds push_groups (λ d, d - 1)) Some (λ st, ∃ m, kahn_inv preds (kahn_reach acc0) st m)).
    + unfold kahn in Hk. destruct (run (kahn_step _ _ _) _ _) as [?|acc']; [done|]. injection Hk as ->. by rewrite HR.
    + intros st [m Hm]. by eapply propagate_step_eq.
    + intros st st' [m Hm] Hst. destruct (kahn_step_inv preds push_groups (λ d, d - 1) Hdec (kahn_reach acc0) (kahn_reach_push acc0) st st' m Hm Hst) as (m' & ? & _). by exists m'.
    + exact Hinv.
  - intros t. split; [intros Ht; by apply HV|].
    apply (kahn_complete preds V Htop Hnd HV) in Hac. intros Ht. destruct (decide (t ∈ V)) as [|Hni]; [done|].
    assert (Hle : (length (t :: V) ≤ length preds)%nat); [|simpl in Hle; lia].
    apply NoDup_bounded_length; [by constructor|]. intros x [->|Hx]%elem_of_cons; [done|by apply HV].
Qed.

(** ** What the rounds compute *)

Lemma union_into_ok s r add reach l : all_bits reach →
  (∀ bits, bits_ok bits → bits_ok (add bits) ∧ ∀ g, BitSet.get (add bits) g = true ↔ BitSet.get bits g = true ∨ gain s g ∨ BitSet.get r g = true) →
  ∀ c g, c < lenN preds → group_of (foldl (union_into add) reach l) c g ↔ group_of reach c g ∨ c ∈ l ∧ (gain s g ∨ BitSet.get r g = true).
Proof using All.
  intros Hall Hadd. revert reach Hall. induction l as [|p l IH]; intros reach Hall c g Hc; cbn [foldl]; [set_solver|].
  assert (Hall' : all_bits (union_into add reach p)) by (apply (union_into_bits add reach [p]); [intros bits Hb; by apply Hadd|done]).
  rewrite (IH _ Hall' c g Hc), elem_of_cons. destruct Hall as [Hl Hb].
  assert (Hone : group_of (union_into add reach p) c g ↔ group_of reach c g ∨ c = p ∧ (gain s g ∨ BitSet.get r g = true)); [|tauto].
  unfold group_of, union_into. rewrite nthN_alterN. destruct (N.eqb_spec c p) as [->|Hne]; [|naive_solver].
  destruct (proj1 (nthN_Some_lt reach p) ltac:(lia)) as [b Eb]. rewrite Eb. cbn.
  destruct (Hadd b) as [_ Hg]; [apply Hb, nthN_elem_of; by exists p|]. specialize (Hg g). naive_solver.
Qed.

Lemma push_groups_ok reach s : all_bits reach → s < lenN preds →
  ∀ c g, c < lenN preds → group_of (push_groups reach s) c g ↔ group_of reach c g ∨ edge preds s c ∧ (gain s g ∨ group_of reach s g).
Proof using All.
  intros Hall Hs. destruct (proj1 (nthN_Some_lt reach s)) as [r Hr]; [by rewrite (proj1 Hall)|]. unfold push_groups. rewrite Hr. cbn [mbind option_bind].
  assert (Hrb : bits_ok r) by (apply (proj2 Hall), nthN_elem_of; by exists s).
  destruct (Hcontribute s r Hs Hrb) as (add & -> & Hadd). intros c g Hc. rewrite (union_into_ok s r add reach _ Hall Hadd c g Hc).
  assert (He : c ∈ adj_of preds s ↔ edge preds s c).
  { unfold adj_of, edge. destruct (preds.[s]) as [row|]; cbn.
    - split; [intros ?; by exists row|by intros (? & [= ->] & ? & _)].
    - split; [by intros ?%elem_of_nil|by intros (? & ? & _)]. }
  rewrite He. assert (Hgs : group_of reach s g ↔ BitSet.get r g = true); [|tauto].
  unfold group_of. rewrite Hr. split; [by intros (? & [= <-] & ?)|intros ?; by exists r].
Qed.

Lemma rounds_ok acc0 V : all_bits acc0 → topological preds V → NoDup V → (∀ t, t ∈ V → t < lenN preds) →
  all_bits (foldl push_groups acc0 V) ∧
  ∀ c g, c < lenN preds → group_of (foldl push_groups acc0 V) c g ↔
    group_of acc0 c g ∨ ∃ d, d ∈ V ∧ edge preds d c ∧ (gain d g ∨ group_of (foldl push_groups acc0 V) d g).
Proof using All.
  intros H0 Htop Hnd Hlt.
  apply (foldl_inv_prefix (λ pre acc, all_bits acc ∧ ∀ c g, c < lenN preds → group_of acc c g ↔
    group_of acc0 c g ∨ ∃ d, d ∈ pre ∧ edge preds d c ∧ (gain d g ∨ group_of acc d g))).
  - intros pre s acc [suf Hsuf] [Hall Hg].
    assert (Hs : s < lenN preds) by (apply Hlt; rewrite Hsuf; set_solver).
    pose proof (push_groups_bits acc s Hall) as Hall'. pose proof (push_groups_ok acc s Hall Hs) as Hg'. split; [done|]. intros c g Hc. rewrite Hg', Hg by done.
    rewrite Hsuf in Hnd. apply NoDup_app in Hnd as (_ & Hdis & _).
    assert (Hspre : s ∉ pre) by (intros Hin; apply (Hdis s Hin); by left).
    assert (Hno : ∀ d, d ∈ pre ++ [s] → ¬ edge preds s d).
    { intros d Hd He. apply Hspre. apply elem_of_app in Hd as [Hd| ->%list_elem_of_singleton].
      - apply list_elem_of_split in Hd as (l1 & l2 & Heq). rewrite Heq. apply elem_of_app. left.
        apply (Htop l1 d (l2 ++ s :: suf) s); [|done]. by rewrite Hsuf, Heq, <-app_assoc.
      - by apply (Htop pre s suf s). }
    assert (Hsame : ∀ d, d ∈ pre ++ [s] → group_of (push_groups acc s) d g ↔ group_of acc d g).
    { intros d Hd. rewrite Hg' by (apply Hlt; rewrite Hsuf; set_solver). pose proof (Hno d Hd). tauto. }
    split.
    + intros [[?|(d & Hd & He & Hgr)]|[He Hgr]]; [by left|right; exists d|right; exists s].
      * split; [set_solver|]. split; [done|]. destruct Hgr as [?|Hgr]; [by left|right]. apply Hsame; [set_solver|done].
      * split; [set_solver|]. split; [done|]. destruct Hgr as [?|Hgr]; [by left|right]. apply Hsame; [set_solver|]. exact Hgr.
    + intros [?|(d & Hd & He & Hgr)]; [by left; left|]. assert (Hgr' : gain d g ∨ group_of acc d g) by (destruct Hgr as [?|Hgr]; [by left|right; by apply Hsame]). clear Hgr. rename Hgr' into Hgr.
      apply elem_of_app in Hd as [Hd| ->%list_elem_of_singleton]; [left; right; by exists d|right; split; [done|]].
      exact Hgr.
  - split; [done|]. intros c g _. split; [by left|]. by intros [?|(d & ?%elem_of_nil & _)].
Qed.
End propagate.

(** The graph of the components, as the propagation walks it. *)
Record component_graph (adj : list (list N)) (ids : list N) (count : N) (succ preds : list (list N)) : Prop := {
  cg_length : lenN ids = lenN adj;
  cg_count : lenN preds = count;
  cg_succ : lenN succ = count;
  cg_ids : ∀ s, s < lenN adj → ∃ c, ids.[s] = Some c ∧ c < count;
  cg_same : ∀ u v c, ids.[u] = Some c → ids.[v] = Some c → rtc (adj_edge adj) u v;
  cg_back : ∀ u v c d, adj_edge adj u v → ids.[u] = Some c → ids.[v] = Some d → d ≤ c;
  cg_edge : ∀ c d, edge preds d c ↔ comp_edge adj ids c d;
  cg_range : ∀ s t, row_edge preds s t → t < lenN preds;
  cg_degrees : ∀ t, t < lenN preds → (lenN <$> succ).[t] = Some (N.of_nat (occ t (concat preds)));
  cg_acyclic : acyclic preds;
}.

Lemma component_graph_ok adj : (∀ s t, adj_edge adj s t → t < lenN adj) → lenN adj < 2147483648 →
  ∃ g succ preds, reach_sccs adj = Some g ∧ component_successors (scc_id g) (scc_count g) adj = Some succ ∧
    reverse_edges (length succ) (successor_edges succ) = Some preds ∧ component_graph adj (scc_id g) (scc_count g) succ preds.
Proof.
  intros Hcl Hsmall. destruct (reach_sccs_spec adj Hcl Hsmall) as (g & Hg & Hidl & Hcn & Hids & Hsame & Hback).
  set (ids := scc_id g) in *. set (count := scc_count g) in *.
  destruct (component_successors_ok adj ids count Hidl Hcl Hids Hsame Hback) as (succ & Hsucc & Hsl & Hse & Hnd).
  destruct (reverse_edges_spec (length succ) (successor_edges succ)) as (preds & Hpreds & Hpl & Hpe).
  { intros s t He%elem_of_successor_edges%Hse. apply (comp_edge_range adj ids count Hidl Hcl Hids Hsame Hback) in He. unfold lenN in *. lia. }
  assert (Hpedge : ∀ c d, row_edge preds d c ↔ comp_edge adj ids c d) by (intros c d; by rewrite Hpe, elem_of_successor_edges).
  assert (Hprange : ∀ c d, comp_edge adj ids c d → c < lenN preds ∧ d < lenN preds).
  { intros c d He. apply (comp_edge_range adj ids count Hidl Hcl Hids Hsame Hback) in He. unfold lenN in *. rewrite Hpl. lia. }
  assert (Hpr : ∀ s t, row_edge preds s t → t < lenN preds) by (intros s t He%Hpedge; by apply Hprange in He as [? _]).
  assert (Hedge : ∀ c d, edge preds d c ↔ comp_edge adj ids c d).
  { intros c d. rewrite <-Hpedge. split; [intros (row & Hrow & Hin & _); by exists row|]. intros He. apply row_edge_graph; [done|by eapply Hpr]. }
  exists g, succ, preds. split; [done|]. split; [done|]. split; [done|]. split; try done.
  - unfold lenN in *. by rewrite Hpl.
  - intros t Ht. rewrite nthN_fmap. rewrite (reverse_edges_occ (length succ) (successor_edges succ) preds t); [|intros s u He; apply elem_of_successor_edges, Hse, Hprange in He; unfold lenN in *; rewrite <-Hpl; lia|done].
    rewrite successor_edges_from. unfold adj_of. destruct (proj1 (nthN_Some_lt succ t)) as [row Hrow]; [unfold lenN in *; by rewrite <-Hpl|]. by rewrite Hrow.
  - assert (Hlt : ∀ x y, tc (edge preds) x y → x < y).
    { induction 1 as [x y He|x y z He _ IH]; apply Hedge, (comp_edge_lt adj ids count Hidl Hcl Hids Hsame Hback) in He; lia. }
    intros s Hs%Hlt. lia.
Qed.

Lemma mapM_lookup_all {A} (ids : list N) (l : list A) : (∀ s c, ids.[s] = Some c → ∃ x, l.[c] = Some x) →
  ∃ r, mapM (λ c, l.[c]) ids = Some r ∧ lenN r = lenN ids ∧ ∀ s x, r.[s] = Some x → ∃ c, ids.[s] = Some c ∧ l.[c] = Some x.
Proof.
  intros H. assert (Hr : is_Some (mapM (λ c, l.[c]) ids)).
  { apply mapM_is_Some_2, Forall_forall. intros c Hc%nthN_elem_of. destruct Hc as [s Hs]. by eapply H. }
  destruct Hr as [r Hr]. exists r. split; [done|]. apply mapM_Some_1 in Hr as Hf. split; [unfold lenN; f_equal; symmetry; by eapply Forall2_length|].
  intros s x Hs. rewrite nthN_lookup in Hs. destruct (Forall2_lookup_r _ _ _ _ _ Hf Hs) as (c & Hc & Hx). exists c. by rewrite nthN_lookup.
Qed.

(** * Groups of states *)

(** An edge of any kind. *)
Definition nfa_target (a : Nfa.t) (s t : N) : Prop := ∃ row, (Nfa.states a).[s] = Some row ∧ t ∈ row_targets row.

Definition reaches_group (a : Nfa.t) (s : N) (g : GroupId) : Prop :=
  ∃ t row, rtc (nfa_target a) s t ∧ (Nfa.states a).[t] = Some row ∧ g ∈ NFAState.finalizers row.

Lemma elem_of_group_list groups g : g ∈ group_list groups ↔ g ∈ groups.
Proof. unfold group_list. by rewrite elem_of_sort_N, elem_of_elements. Qed.

Lemma closed_target a s t : nfa_closed a → nfa_target a s t → t < Nfa.num_states a.
Proof.
  intros [H1 H2] (row & Hrow & [Hin|(e & -> & Hin)%list_elem_of_fmap]%elem_of_app); [apply (H1 s); by exists row|].
  destruct e as [set t]. by eapply H2.
Qed.

(** The counter is above every group. *)
Lemma group_count_bound a s row g : (Nfa.states a).[s] = Some row → g ∈ NFAState.finalizers row → g < nfa_group_count a.
Proof.
  intros Hrow Hg. unfold nfa_group_count. assert (Hin : row ∈ Nfa.states a) by (apply nthN_elem_of; by exists s).
  assert (Hinner : ∀ l c, (∀ x, x ∈ l → x < foldl (λ count group, N.max count (group + 1)) c l) ∧ c ≤ foldl (λ count group, N.max count (group + 1)) c l).
  { induction l as [|y l IH]; intros c; cbn [foldl]; [split; [by intros x ?%elem_of_nil|lia]|].
    destruct (IH (N.max c (y + 1))) as [H1 H2]. split; [|lia]. intros x [->|Hx]%elem_of_cons; [lia|auto]. }
  assert (Hmono : ∀ l c, c ≤ foldl (λ count state, foldl (λ count group, N.max count (group + 1)) count (group_list (NFAState.finalizers state))) c l).
  { induction l as [|y l IH]; intros c; cbn [foldl]; [lia|]. etrans; [|apply IH]. apply Hinner. }
  clear Hrow. generalize 0 as c. induction (Nfa.states a) as [|y l IH]; intros c; [by apply elem_of_nil in Hin|]. cbn [foldl].
  apply elem_of_cons in Hin as [->|Hin]; [|by apply IH]. eapply N.lt_le_trans; [|apply Hmono]. apply Hinner. by apply elem_of_group_list.
Qed.

Section own.
Context (a : Nfa.t) (ids : list N) (groups count : N) (preds : list (list N)).
Context (Hgroups : ∀ s row g, (Nfa.states a).[s] = Some row → g ∈ NFAState.finalizers row → g < groups).
Context (Hids : ∀ s, s < Nfa.num_states a → ∃ c, ids.[s] = Some c ∧ c < count) (Hcount : lenN preds = count).

Lemma own_row_ok l reach sid : all_bits groups preds reach → sid < count → (∀ g, g ∈ l → g < groups) →
  ∃ reach', foldM (λ reach group, _ ← reach.[sid]; Some (alterN (λ bits, BitSet.set bits group) reach sid)) reach l = Some reach' ∧
    all_bits groups preds reach' ∧ ∀ c g, group_of reach' c g ↔ group_of reach c g ∨ c = sid ∧ g ∈ l.
Proof using Hcount.
  revert reach. induction l as [|x l IH]; intros reach [Hl Hb] Hsid Hlt; cbn [foldM].
  - exists reach. split; [done|]. split; [done|]. intros c g. split; [by left|]. by intros [?|[_ ?%elem_of_nil]].
  - destruct (proj1 (nthN_Some_lt reach sid) ltac:(lia)) as [bits Hbits]. rewrite Hbits. cbn [mbind option_bind].
    destruct (Hb bits) as [Hwf Hlen]; [apply nthN_elem_of; by exists sid|].
    destruct (BitSetFacts.set_spec bits x Hwf) as (Hwf' & Hlen' & Hget).
    destruct (IH (alterN (λ bits, BitSet.set bits x) reach sid)) as (reach' & Hr & Hall & Hg); [|done|intros; apply Hlt; by right|].
    + split; [by rewrite lenN_alterN|]. intros b [i Hi]%nthN_elem_of. rewrite nthN_alterN in Hi.
      destruct (N.eqb_spec i sid) as [Heq|_]; [|apply Hb, nthN_elem_of; by exists i]. subst i. rewrite Hbits in Hi. injection Hi as <-. split; [done|congruence].
    + exists reach'. split; [done|]. split; [done|]. intros c g. rewrite Hg. unfold group_of at 1. rewrite nthN_alterN, elem_of_cons.
      destruct (N.eqb_spec c sid) as [->|Hne].
      * rewrite Hbits. cbn. assert (Hx : (∃ b, Some (BitSet.set bits x) = Some b ∧ BitSet.get b g = true) ↔ group_of reach sid g ∨ g = x); [|tauto].
        unfold group_of. rewrite Hbits. split.
        -- intros (b & [= <-] & Hgb). rewrite Hget in Hgb. apply orb_true_iff in Hgb as [[Hgx%N.eqb_eq _]%andb_true_iff|?]; [by right|left; by exists bits].
        -- intros [(b & [= <-] & Hgb)| ->]; (eexists; split; [done|]); rewrite Hget; [by rewrite Hgb, orb_true_r|].
           rewrite N.eqb_refl, Hlen, (proj2 (N.ltb_lt _ _)) by (apply Hlt; by left). done.
      * split; [intros [?|[? _]]; [by left|done]|intros [?|[? _]]; [by left|done]].
Qed.

Lemma own_groups_ok :
  ∃ reach, foldM (add_own_groups ids) (replicate (N.to_nat count) (BitSet.new groups)) (enumerate (Nfa.states a)) = Some reach ∧
    all_bits groups preds reach ∧ ∀ c g, group_of reach c g ↔ ∃ s row, (Nfa.states a).[s] = Some row ∧ ids.[s] = Some c ∧ g ∈ NFAState.finalizers row.
Proof using All.
  destruct (foldM_enumerate (λ k reach, all_bits groups preds reach ∧ ∀ c g, group_of reach c g ↔
    ∃ s row, s < k ∧ (Nfa.states a).[s] = Some row ∧ ids.[s] = Some c ∧ g ∈ NFAState.finalizers row)
    (add_own_groups ids) (replicate (N.to_nat count) (BitSet.new groups)) (Nfa.states a)) as (reach & Hr & Hall & Hg).
  - intros k row reach Hk [Hall Hg]. destruct (Hids k) as (sid & Hsid & Hlt); [by eapply nthN_lt|]. unfold add_own_groups. rewrite Hsid. cbn [mbind option_bind].
    destruct (own_row_ok (group_list (NFAState.finalizers row)) reach sid Hall Hlt) as (reach' & Hr & Hall' & Hg').
    { intros g Hin%elem_of_group_list. by eapply Hgroups. }
    exists reach'. split; [exact Hr|]. split; [done|]. intros c g. rewrite Hg', Hg, elem_of_group_list. split.
    + intros [(s & r & Hs & ?)|[-> Hin]]; [exists s, r; split; [lia|done]|]. exists k, row. split; [lia|done].
    + intros (s & r & Hs & Hrow & Hc & Hin). destruct (decide (s = k)) as [->|Hne]; [right; split; congruence|left]. exists s, r. split; [lia|done].
  - split.
    + split; [rewrite lenN_replicate; lia|]. intros bits [i Hi]%nthN_elem_of. rewrite nthN_replicate in Hi. case_match; [|done]. injection Hi as <-.
      split; [apply BitSetFacts.new_wf|done].
    + intros c g. split; [|by intros (s & row & ? & _); lia]. intros (bits & Hb & Hget). rewrite nthN_replicate in Hb. case_match; [|done]. injection Hb as <-.
      by rewrite BitSetFacts.get_new in Hget.
  - exists reach. split; [exact Hr|]. split; [done|]. intros c g. rewrite Hg. split; intros (s & row & H); exists s, row; [tauto|].
    split; [|done]. destruct H as (Hs & _). by eapply nthN_lt.
Qed.
End own.

(** * The groups every state reaches *)

Definition reach_result (a : Nfa.t) (groups : N) (result : list BitSet.t) : Prop :=
  lenN result = Nfa.num_states a ∧
  ∀ s bits, result.[s] = Some bits → BitSet.wf bits ∧ BitSet.len bits = groups ∧
    ∀ g, BitSet.get bits g = true ↔ reaches_group a s g.

Section result.
Context (a : Nfa.t) (groups : N) (Hclosed : nfa_closed a) (Hsmall : Nfa.num_states a < 2147483648).
Context (Hgroups : ∀ s row g, (Nfa.states a).[s] = Some row → g ∈ NFAState.finalizers row → g < groups).

Lemma reach_adj_edge s t : adj_edge (reach_adj a) s t ↔ nfa_target a s t.
Proof using.
  unfold adj_edge, reach_adj, nfa_target. setoid_rewrite nthN_fmap. split.
  - intros (row & Hrow & Hin). destruct ((Nfa.states a).[s]) as [r|]; [|done]. injection Hrow as <-. exists r. split; [done|]. by apply dedup_sort_spec.
  - intros (r & Hr & Hin). rewrite Hr. eexists. split; [done|]. by apply dedup_sort_spec.
Qed.

Lemma reach_rtc s t : rtc (adj_edge (reach_adj a)) s t ↔ rtc (nfa_target a) s t.
Proof using. split; (induction 1 as [|x y z Hxy _ IH]; [done|]; eapply rtc_l; [by apply reach_adj_edge|exact IH]). Qed.

Lemma target_lt s t : nfa_target a s t → s < Nfa.num_states a ∧ t < Nfa.num_states a.
Proof using Hclosed. intros Ht. split; [destruct Ht as (row & Hrow & _); by eapply nthN_lt|by eapply closed_target]. Qed.

Lemma reaches_lt s g : reaches_group a s g → s < Nfa.num_states a.
Proof using Hclosed.
  intros (t & row & Hr & Hrow & _). inversion Hr as [|x y z Hxy _]; subst; [by eapply nthN_lt|]. by apply target_lt in Hxy as [? _].
Qed.

Lemma many_groups_ok : ∃ result, reachable_many_groups a groups = Some result ∧ reach_result a groups result.
Proof using All.
  unfold reachable_many_groups. set (adj := reach_adj a).
  assert (Hadj : lenN adj = Nfa.num_states a) by apply lenN_fmap.
  assert (Hcl : ∀ s t, adj_edge adj s t → t < lenN adj) by (intros s t Hst%reach_adj_edge; rewrite Hadj; by apply (target_lt s)).
  destruct (component_graph_ok adj Hcl ltac:(by rewrite Hadj)) as (g & succ & preds & -> & Hsucc & Hpreds & [Hidl Hpc Hsl Hids Hsame Hback Hedge Hpr Hdeg Hac]).
  cbn [mbind option_bind]. set (ids := scc_id g) in *. set (count := scc_count g) in *.
  assert (Hids' : ∀ s, s < Nfa.num_states a → ∃ c, ids.[s] = Some c ∧ c < count) by (by rewrite <-Hadj).
  destruct (own_groups_ok a ids groups count preds Hgroups Hids') as (own & -> & Hown & Hog); [done|].
  cbn [mbind option_bind]. rewrite Hsucc. cbn [mbind option_bind]. rewrite Hpreds. cbn [mbind option_bind].
  assert (Hpass : ∀ s r, s < lenN preds → bits_ok groups r → ∃ add, pass_groups s r = Some add ∧ ∀ bits, bits_ok groups bits →
    bits_ok groups (add bits) ∧ ∀ g, BitSet.get (add bits) g = true ↔ BitSet.get bits g = true ∨ False ∨ BitSet.get r g = true).
  { intros s r _ [Hwr Hlr]. eexists. split; [done|]. intros bits [Hw Hlen]. destruct (BitSetFacts.union_spec bits r Hw Hwr) as [Hw' Hg]; [lia|].
    split; [split; [exact Hw'|exact Hlen]|]. intros g'. rewrite Hg, orb_true_iff. tauto. }
  destruct (propagate_kahn groups preds Hpr pass_groups (λ _ _, False) Hpass own (lenN <$> succ)) as (V & Hprop & Htop & HndV & HV).
  { exact Hown. } { rewrite length_fmap. unfold lenN in *. lia. } { done. } { done. }
  rewrite Hprop. cbn [mbind option_bind].
  destruct (rounds_ok groups preds Hpr pass_groups (λ _ _, False) Hpass own V Hown Htop HndV ltac:(intros t Ht; by apply HV)) as [[Hrl Hrb] Hrg].
  set (reach := foldl (push_groups preds pass_groups) own V) in *.
  assert (Hlook : ∀ s c, ids.[s] = Some c → ∃ bits, reach.[c] = Some bits).
  { intros s c Hs. destruct (proj1 (nthN_Some_lt reach c)) as [bits ?]; [|by exists bits]. rewrite Hrl.
    rewrite Hpc. by apply (ids_lt adj ids count Hidl Hcl Hids Hsame Hback s c). }
  assert (Hgr : ∀ c g, c < count → group_of reach c g ↔ ∃ d, rtc (comp_edge adj ids) c d ∧ group_of own d g).
  { apply (comp_closure adj ids count Hidl Hcl Hids Hsame Hback (group_of reach)). intros c g' Hc.
    rewrite Hrg by by rewrite Hpc. setoid_rewrite Hedge.
    split; (intros [?|(d & H)]; [by left|right; exists d]); [tauto|]. split; [apply HV; rewrite Hpc; by apply (comp_edge_range adj ids count Hidl Hcl Hids Hsame Hback c), H|]. split; [apply H|right; apply H]. }
  destruct (mapM_lookup_all ids reach Hlook) as (result & Hres & Hrlen & Hrlook).
  exists result. split; [exact Hres|]. split; [by rewrite Hrlen, Hidl|]. intros s bits Hs. apply Hrlook in Hs as (c & Hc & Hbits).
  destruct (Hrb bits) as [Hwf Hbl]; [apply nthN_elem_of; by exists c|]. split; [done|]. split; [done|]. intros g'.
  assert (Hcc : c < count) by (by apply (ids_lt adj ids count Hidl Hcl Hids Hsame Hback s)).
  assert (Hgo : BitSet.get bits g' = true ↔ group_of reach c g').
  { unfold group_of. rewrite Hbits. split; [intros ?; by exists bits|by intros (? & [= <-] & ?)]. }
  rewrite Hgo, Hgr by done. setoid_rewrite Hog. unfold reaches_group. split.
  - intros (d & Hr & t & row & Hrow & Ht & Hin). exists t, row. split; [|done]. apply reach_rtc.
    by apply (comp_rtc adj ids count Hidl Hcl Hids Hsame Hback s t c d).
  - intros (t & row & Hr & Hrow & Hin). destruct (Hids' t) as (d & Hd & _); [by eapply nthN_lt|].
    exists d. split; [|by exists t, row]. apply (comp_rtc adj ids count Hidl Hcl Hids Hsame Hback s t c d); [done|done|by apply reach_rtc].
Qed.

Lemma single_group_ok : groups = 1 → ∃ result, reachable_single_group a = Some result ∧ reach_result a groups result.
Proof using All.
  intros Hone. unfold reachable_single_group, seed_final.
  pose proof (mark_seed_spec push_back has_groups (Nfa.states a) push_back_perm) as Hseed. cbn zeta in Hseed.
  destruct (foldl (mark_seed push_back has_groups) _ _) as [marks work]. cbn [fst snd] in Hseed. destruct Hseed as (Hl & Hnd & Hw & Hm).
  assert (Hedges : ∀ s t, (s, t) ∈ reach_edges a ↔ nfa_target a s t).
  { intros s t. unfold reach_edges. rewrite list_elem_of_bind. split.
    - intros ([i row] & (x & [= -> ->] & Hin)%list_elem_of_fmap & Hrow%elem_of_enumerate). by exists row.
    - intros (row & Hrow & Hin). exists (s, row). split; [by apply list_elem_of_fmap_2|by apply elem_of_enumerate]. }
  destruct (backward_search_spec push_back (length (Nfa.states a)) (reach_edges a) marks work) as (rows & marks' & -> & Hs & Hl' & Hmk); try done.
  { apply push_back_perm. } { intros s t Hst%Hedges. by apply target_lt. }
  cbn [mbind option_bind]. rewrite Hs. cbn [mbind option_bind]. eexists. split; [done|].
  split; [change (map ?f marks') with (f <$> marks'); rewrite lenN_fmap; unfold lenN; by rewrite Hl'|].
  change (map ?f marks') with (f <$> marks'). intros s bits. rewrite nthN_fmap. destruct (marks'.[s]) as [m|] eqn:Em; [|done]. intros [= <-].
  assert (Hbits : BitSet.wf (single_group_bits m) ∧ BitSet.len (single_group_bits m) = 1 ∧ ∀ g, BitSet.get (single_group_bits m) g = m && (g =? 0)).
  { unfold single_group_bits. destruct m.
    - destruct (BitSetFacts.set_spec (BitSet.new 1) 0 (BitSetFacts.new_wf 1)) as (H1 & H2 & H3). split; [done|]. split; [done|].
      intros g. rewrite H3, BitSetFacts.get_new, orb_false_r. cbn. apply andb_true_r.
    - split; [apply BitSetFacts.new_wf|]. split; [done|]. intros g. apply BitSetFacts.get_new. }
  destruct Hbits as (Hwf & Hlen & Hget). split; [done|]. split; [congruence|]. intros g. rewrite Hget, andb_true_iff, N.eqb_eq.
  assert (Hmark : m = true ↔ marks'.[s] = Some true) by (rewrite Em; split; congruence). rewrite Hmark, Hmk. unfold reaches_group.
  assert (Hrtc : ∀ s t, rtc (λ s t, (s, t) ∈ reach_edges a) s t ↔ rtc (nfa_target a) s t).
  { clear -Hedges. intros s t. split; (induction 1 as [|x y z Hxy _ IH]; [done|]; eapply rtc_l; [by apply Hedges|done]). }
  setoid_rewrite Hrtc. setoid_rewrite Hw. split.
  - intros [(t & (row & Hrow & Hg) & Hr) ->]. exists t, row. split; [done|]. split; [done|].
    unfold has_groups in Hg. apply negb_true_iff, bool_decide_eq_false in Hg. apply set_choose_L in Hg as [x Hx].
    pose proof (Hgroups t row x Hrow Hx). by assert (x = 0) as -> by lia.
  - intros (t & row & Hr & Hrow & Hg). pose proof (Hgroups t row g Hrow Hg). split; [|lia]. exists t. split; [|done]. exists row. split; [done|].
    unfold has_groups. apply negb_true_iff, bool_decide_eq_false. set_solver.
Qed.

Lemma compute_reachable_groups_spec : ∃ result, compute_reachable_groups a groups = Some result ∧ reach_result a groups result.
Proof using All.
  pose proof single_group_ok as Hsingle. pose proof many_groups_ok as Hmany.
  unfold compute_reachable_groups. destruct (Nfa.states a) as [|row l] eqn:El.
  - exists []. split; [done|]. split; [unfold Nfa.num_states; by rewrite El|done].
  - rewrite <-El. destruct (N.eqb_spec groups 0) as [Hz|_]; [|destruct (N.eqb_spec groups 1) as [H1|_]; [by apply Hsingle|exact Hmany]].
    eexists. split; [done|]. split; [by rewrite lenN_replicate|]. intros s bits. rewrite nthN_replicate. case_match; [|done]. intros [= <-].
    split; [apply BitSetFacts.new_wf|]. split; [done|]. intros g. rewrite BitSetFacts.get_new. split; [done|].
    intros (t & r & _ & Hrow & Hg). rewrite El in Hrow. pose proof (Hgroups t r g Hrow Hg). lia.
Qed.
End result.

Definition nfa_closed_b (a : Nfa.t) : bool :=
  forallb (λ row, forallb (λ t, t <? Nfa.num_states a) (row_targets row)) (Nfa.states a).

Lemma nfa_closed_check a : nfa_closed_b a = true → nfa_closed a.
Proof.
  unfold nfa_closed_b. intros H. rewrite forallb_forall in H.
  assert (Hrow : ∀ s row t, (Nfa.states a).[s] = Some row → t ∈ row_targets row → t < Nfa.num_states a).
  { intros s row t Hr Ht. assert (Hin : In row (Nfa.states a)) by (apply list_elem_of_In, nthN_elem_of; by exists s).
    specialize (H row Hin). rewrite forallb_forall in H. by apply N.ltb_lt, H, list_elem_of_In. }
  split.
  - intros s t (row & Hr & Hin). apply (Hrow s row); [done|]. apply elem_of_app. by left.
  - intros s row set t Hr Hin. apply (Hrow s row); [done|]. apply elem_of_app. right. apply list_elem_of_fmap. by exists (set, t).
Qed.

(** C10: The groups that [compute_reachable_groups] gives a state, with the group
    count that determinization computes, are exactly the groups of the states it
    reaches along edges of any kind: by the backward search when there is one
    group, by the components in Kahn's order when there are more.  It never
    panics on an automaton whose edges lead to its states. *)
Theorem reachable_groups_correct (a : Nfa.t) :
  nfa_closed a → Nfa.num_states a < 2 ^ 31 →
  ∃ result, compute_reachable_groups a (nfa_group_count a) = Some result ∧ lenN result = Nfa.num_states a ∧
    ∀ s bits, result.[s] = Some bits → BitSet.wf bits ∧ BitSet.len bits = nfa_group_count a ∧
      ∀ g, BitSet.get bits g = true ↔
        ∃ t row, rtc (nfa_target a) s t ∧ (Nfa.states a).[t] = Some row ∧ g ∈ NFAState.finalizers row.
Proof.
  intros Hclosed Hsmall. destruct (compute_reachable_groups_spec a (nfa_group_count a) Hclosed Hsmall) as (result & Hr & Hlen & Hbits).
  - intros s row g. apply group_count_bound.
  - exists result. split; [done|]. split; [done|]. exact Hbits.
Qed.

(** A byte cycle of two states with group 1, and a state of group 0 beyond it. *)
Definition nfa_groups : Nfa.t :=
  Nfa.add_finalizer (Nfa.add_finalizer (Nfa.add_transition (Nfa.add_transition (Nfa.add_epsilon (Nfa.new 4) 0 1) 1 97 0) 1 98 2) 1 1) 2 0.

Example nfa_groups_bits :
  map BitSet.iter_ones <$> compute_reachable_groups nfa_groups (nfa_group_count nfa_groups) = Some [[0; 1]; [0; 1]; [0]; []].
Proof. by vm_compute. Qed.

Lemma reachable_groups_correct_witness :
  nfa_group_count nfa_groups = 2 ∧ ∃ result bits, compute_reachable_groups nfa_groups 2 = Some result ∧ result.[0] = Some bits ∧
    ∃ t row, rtc (nfa_target nfa_groups) 0 t ∧ (Nfa.states nfa_groups).[t] = Some row ∧ 0 ∈ NFAState.finalizers row.
Proof.
  split; [by vm_compute|].
  destruct (reachable_groups_correct nfa_groups) as (result & Hr & Hlen & Hbits).
  - apply nfa_closed_check. by vm_compute.
  - by vm_compute.
  - change (nfa_group_count nfa_groups) with 2 in *. vm_compute in Hr. injection Hr as <-. eexists _, _. split; [by vm_compute|]. split; [reflexivity|].
    destruct (Hbits 0 _ eq_refl) as (_ & _ & Hget). apply Hget. by vm_compute.
Defined.
