(* ===== verification/LexDeterminize.v ===== *)
(** Determinization of the byte NFA (crates/glrmask-lexer/src/automata/lexer/
    determinize.rs): the shortcut for automata that are deterministic already,
    the closures computed in advance, the transitions over byte classes and the
    subset construction.

    [None] is a panic: an index out of range, or a missing [Option]. *)

From S2P Require Import Prelude Bits U8Set BitSet StateSet CharTransitions LexDfa LexNfa LexReach.

#[global] Instance compressed_eq_dec : EqDecision CompressedStateSet.t.
Proof. solve_decision. Defined.

#[global] Instance compressed_countable : Countable CompressedStateSet.t :=
  inj_countable' (λ s, (CompressedStateSet.words s, CompressedStateSet.hash s)) (λ '(w, h), CompressedStateSet.mk w h)
    ltac:(by intros []).

Definition EPSILON_CLOSURE_PRECOMPUTE_THRESHOLD : N := 1.

(** The set groups of a state, over [group_count] bits. *)
Definition group_bits (group_count : N) (groups : gset GroupId) : BitSet.t :=
  foldl BitSet.set (BitSet.new group_count) (group_list groups).

(** * Automata that are deterministic already *)

Fixpoint disjoint_sets (covered : U8Set.t) (transitions : list (U8Set.t * N)) : bool :=
  match transitions with
  | [] => true
  | (set, _) :: transitions =>
      if negb (U8Set.is_disjoint covered set) then false else disjoint_sets (U8Set.union covered set) transitions
  end.

Definition is_epsilon_free_deterministic (nfa : Nfa.t) : bool :=
  forallb (λ state,
      match NFAState.epsilon_transitions state with
      | [] => disjoint_sets U8Set.empty (NFAState.transitions state)
      | _ => false
      end)
    (Nfa.states nfa).

(** The start state first. *)
Definition state_order (nfa : Nfa.t) : list N :=
  Nfa.start_state nfa :: filter (λ state_id, state_id ≠ Nfa.start_state nfa) (seqN (length (Nfa.states nfa))).

Definition remap_order (order : list N) (num_states : nat) : option (list N) :=
  foldM (λ remap '(new_state, old_state),
      if old_state <? lenN remap then Some (alterN (λ _, as_u32 new_state) remap old_state) else None)
    (replicate num_states 0) (enumerate order).

Definition remapped_row (remap : list N) (transitions : list (U8Set.t * N)) : option (list (N * N)) :=
  foldM (λ entries '(set, target),
      new ← mapM (λ byte, to ← remap.[target]; Some (byte, to)) (U8Set.iter set);
      Some (entries ++ new))
    [] transitions.

Definition copy_state (nfa : Nfa.t) (group_count : N) (reachable_groups : list BitSet.t) (remap : list N)
    (dfa : LexDFA.t) (entry : N * N) : option LexDFA.t :=
  let '(new_state, old_state) := entry in
  nfa_state ← (Nfa.states nfa).[old_state];
  transitions ← remapped_row remap (NFAState.transitions nfa_state);
  future ← reachable_groups.[old_state];
  let dfa := LexDFA.overwrite_state_metadata dfa (as_u32 new_state) (group_bits group_count (NFAState.finalizers nfa_state)) future in
  Some (LexDFA.set_transitions_from_sorted_entries dfa (as_u32 new_state) (sort_by_index transitions)).

Definition determinize_epsilon_free_deterministic (nfa : Nfa.t) (group_count : N) (reachable_groups : list BitSet.t)
    : option LexDFA.t :=
  let num_states := N.max (lenN (Nfa.states nfa)) 1 in
  let order := state_order nfa in
  remap ← remap_order order (length (Nfa.states nfa));
  foldM (copy_state nfa group_count reachable_groups remap)
    (LexDFA.ensure_group_capacity (LexDFA.new num_states) group_count) (enumerate order).

(** * Transitions over byte classes *)

Module RemappedTransitions.
Record t := mk { offsets : list N; class_sets : list U8Set.t; targets : list N; source_word_masks : list N }.
End RemappedTransitions.

(** [words[state / 64] |= 1u64 << (state % 64)] *)
Definition mark_word (words : list N) (state : N) : option (list N) :=
  _ ← words.[state / 64]; Some (alterN (λ w, N.lor w (bit (state mod 64))) words (state / 64)).

(** The states with [p], as words. *)
Definition mark_words {A} (p : A → bool) (l : list A) : option (list N) :=
  foldM (λ words '(state, x), if p x then mark_word words state else Some words)
    (replicate (N.to_nat (BitSet.div_ceil_64 (lenN l))) 0) (enumerate l).

Definition class_set_of (class_map : list N) (set : U8Set.t) : option U8Set.t :=
  foldM (λ class_set byte, class ← class_map.[byte]; Some (U8Set.insert class_set class).1) U8Set.empty (U8Set.iter set).

(** [cache.entry(set).or_insert_with] *)
Definition cached_class_set (class_map : list N) (cache : gmap U8Set.t U8Set.t) (set : U8Set.t)
    : option (gmap U8Set.t U8Set.t * U8Set.t) :=
  match cache !! set with
  | Some class_set => Some (cache, class_set)
  | None => class_set ← class_set_of class_map set; Some (<[set := class_set]> cache, class_set)
  end.

Definition remap_transition (class_map : list N)
    (st : gmap U8Set.t U8Set.t * list U8Set.t * list N) (transition : U8Set.t * N)
    : option (gmap U8Set.t U8Set.t * list U8Set.t * list N) :=
  let '(cache, class_sets, targets) := st in
  let '(set, target) := transition in
  '(cache, class_set) ← cached_class_set class_map cache set;
  Some (cache, class_sets ++ [class_set], targets ++ [target]).

Definition remap_state (class_map : list N)
    (st : gmap U8Set.t U8Set.t * list N * list U8Set.t * list N) (state : NFAState.t)
    : option (gmap U8Set.t U8Set.t * list N * list U8Set.t * list N) :=
  let '(cache, offsets, class_sets, targets) := st in
  '(cache, class_sets, targets) ← foldM (remap_transition class_map) (cache, class_sets, targets) (NFAState.transitions state);
  Some (cache, offsets ++ [as_u32 (lenN class_sets)], class_sets, targets).

Definition has_transitions (state : NFAState.t) : bool := match NFAState.transitions state with [] => false | _ => true end.

Definition build_remapped_transitions (nfa : Nfa.t) (class_map : list N) : option RemappedTransitions.t :=
  source_word_masks ← mark_words has_transitions (Nfa.states nfa);
  '(_, offsets, class_sets, targets) ← foldM (remap_state class_map) (∅, [0], [], []) (Nfa.states nfa);
  Some (RemappedTransitions.mk offsets class_sets targets source_word_masks).

(** * Closures in advance *)

Definition epsilon_row (compact : CompactNFA.t) (state : N) : option (list N) :=
  lo ← (CompactNFA.epsilon_offsets compact).[state]; hi ← (CompactNFA.epsilon_offsets compact).[state + 1];
  slice (CompactNFA.epsilon_targets compact) lo hi.

(** The recursion visits a new state at every level. *)
Fixpoint dfs_selective_post_order (fuel : nat) (compact : CompactNFA.t) (out_degree : list N) (threshold : N)
    (st : list bool * list N) (state : N) : option (list bool * list N) :=
  match fuel with
  | O => None
  | S fuel =>
      seen ← st.1.[state];
      if (seen : bool) then Some st
      else
        targets ← epsilon_row compact state;
        '(visited, post_order) ←
          foldM (dfs_selective_post_order fuel compact out_degree threshold) (alterN (λ _, true) st.1 state, st.2) targets;
        degree ← out_degree.[state];
        Some (visited, if threshold <=? degree then post_order ++ [state] else post_order)
  end.

Definition selective_post_order (compact : CompactNFA.t) (out_degree : list N) : option (list N) :=
  let num_states := length out_degree in
  '(_, post_order) ← foldM (λ st state,
      degree ← out_degree.[state];
      if degree <? EPSILON_CLOSURE_PRECOMPUTE_THRESHOLD then Some st
      else dfs_selective_post_order (S num_states) compact out_degree EPSILON_CLOSURE_PRECOMPUTE_THRESHOLD st state)
    (replicate num_states false, []) (seqN num_states);
  Some post_order.

Section closures.
Context (compact : CompactNFA.t) (out_degree : list N) (retained_word_masks : list N).

(** One target of the state taken off the stack. *)
Definition close_next (high_degree_closures : list (option CompressedStateSet.t))
    (st : SparseStateSet.t * list N) (next : N) : option (SparseStateSet.t * list N) :=
  let '(closure, epsilon_stack) := st in
  '(closure, inserted) ← SparseStateSet.insert closure next;
  if negb inserted then Some (closure, epsilon_stack)
  else
    known ← high_degree_closures.[next];
    match known with
    | Some precomputed => closure ← SparseStateSet.union_compressed closure precomputed; Some (closure, epsilon_stack)
    | None =>
        degree ← out_degree.[next];
        Some (closure, if 0 <? degree then next :: epsilon_stack else epsilon_stack)
    end.

Definition close_over (high_degree_closures : list (option CompressedStateSet.t))
    (st : SparseStateSet.t * list N) (index : N) : option (SparseStateSet.t * list N) :=
  next ← (CompactNFA.epsilon_targets compact).[index]; close_next high_degree_closures st next.

(** One round of [while let Some(current) = epsilon_stack.pop()]. *)
Definition closure_round (high_degree_closures : list (option CompressedStateSet.t))
    (st : SparseStateSet.t * list N) : (SparseStateSet.t * list N) + option (SparseStateSet.t) :=
  let '(closure, epsilon_stack) := st in
  match epsilon_stack with
  | [] => inr (Some closure)
  | current :: epsilon_stack =>
      match (CompactNFA.epsilon_offsets compact).[current], (CompactNFA.epsilon_offsets compact).[current + 1] with
      | Some lo, Some hi =>
          match foldM (close_over high_degree_closures) (closure, epsilon_stack) (rangeN lo hi) with
          | Some st => inl st
          | None => inr None
          end
      | _, _ => inr None
      end
  end.

(** The body of the loop over [post_order]; a state is stacked once. *)
Definition precompute_one (st : list (option CompressedStateSet.t) * SparseStateSet.t) (state : N)
    : option (list (option CompressedStateSet.t) * SparseStateSet.t) :=
  let '(high_degree_closures, closure) := st in
  closure ← SparseStateSet.clear closure;
  '(closure, _) ← SparseStateSet.insert closure state;
  match run (closure_round high_degree_closures) (S (length out_degree)) (closure, [state]) with
  | inr (Some closure) =>
      masked ← from_sparse_masked closure retained_word_masks;
      _ ← high_degree_closures.[state];
      Some (alterN (λ _, Some masked) high_degree_closures state, closure)
  | _ => None
  end.

Definition precompute_epsilon_closures : option (list (option CompressedStateSet.t)) :=
  post_order ← selective_post_order compact out_degree;
  '(high_degree_closures, _) ← foldM precompute_one
      (replicate (length out_degree) None, SparseStateSet.new (lenN out_degree)) post_order;
  Some high_degree_closures.
End closures.

Definition build_start_closure (start_state : N) (retained_states : list bool)
    (precomputed_closures : list (option CompressedStateSet.t)) (num_states : N) : option SparseStateSet.t :=
  let closure := SparseStateSet.new num_states in
  known ← precomputed_closures.[start_state];
  match known with
  | Some precomputed => SparseStateSet.union_compressed closure precomputed
  | None =>
      retained ← retained_states.[start_state];
      if (retained : bool) then '(closure, _) ← SparseStateSet.insert closure start_state; Some closure else Some closure
  end.

Module ClosedStateTargets.
Record t := mk { offsets : list N; word_indices : list N; words : list N }.

Definition words_for_state (s : t) (state : N) : option (list N * list N) :=
  lo ← (offsets s).[state]; hi ← (offsets s).[state + 1];
  indices ← slice (word_indices s) lo hi; bits ← slice (words s) lo hi;
  Some (indices, bits).
End ClosedStateTargets.

Definition close_state (retained_states : list bool) (precomputed_closures : list (option CompressedStateSet.t))
    (result : ClosedStateTargets.t) (state : N) : option ClosedStateTargets.t :=
  known ← precomputed_closures.[state];
  '(indices, bits) ←
    match known with
    | Some closure => Some ((CompressedStateSet.words closure).*1, (CompressedStateSet.words closure).*2)
    | None =>
        retained ← retained_states.[state];
        Some (if (retained : bool) then ([as_u32 (state / 64)], [bit (state mod 64)]) else ([], []))
    end;
  let word_indices := ClosedStateTargets.word_indices result ++ indices in
  let words := ClosedStateTargets.words result ++ bits in
  Some (ClosedStateTargets.mk (ClosedStateTargets.offsets result ++ [as_u32 (lenN words)]) word_indices words).

Definition build_closed_state_targets (num_states : nat) (retained_states : list bool)
    (precomputed_closures : list (option CompressedStateSet.t)) : option ClosedStateTargets.t :=
  foldM (close_state retained_states precomputed_closures) (ClosedStateTargets.mk [0] [] []) (seqN num_states).

(** * The targets of a subset, per class *)

Section collect.
Context (remapped : RemappedTransitions.t) (closed : ClosedStateTargets.t).

(** The scratch tables: a set per class, the classes used, and their marks. *)
Record class_targets := ClassTargets {
  transition_targets : list SparseStateSet.t;
  used_classes : list N;
  seen_class : list bool;
}.

Definition collect_class (indices bits : list N) (st : class_targets) (class_index : N) : option class_targets :=
  seen ← (seen_class st).[class_index];
  let '(used, seen_class) := if (seen : bool) then (used_classes st, seen_class st)
                             else (used_classes st ++ [class_index], alterN (λ _, true) (seen_class st) class_index) in
  target ← (transition_targets st).[class_index];
  target ← SparseStateSet.union_indexed_words target indices bits;
  Some (ClassTargets (alterN (λ _, target) (transition_targets st) class_index) used seen_class).

Definition collect_transition (st : class_targets) (transition : N) : option class_targets :=
  class_set ← (RemappedTransitions.class_sets remapped).[transition];
  next_state ← (RemappedTransitions.targets remapped).[transition];
  '(indices, bits) ← ClosedStateTargets.words_for_state closed next_state;
  match bits with
  | [] => Some st
  | _ => foldM (collect_class indices bits) st (U8Set.iter class_set)
  end.

Definition collect_source (word_index : N) (st : class_targets) (source_bit : N) : option class_targets :=
  let state := word_index * 64 + source_bit in
  lo ← (RemappedTransitions.offsets remapped).[state]; hi ← (RemappedTransitions.offsets remapped).[state + 1];
  foldM collect_transition st (rangeN lo hi).

(** [pop_bits] is the loop [while active_sources != 0]. *)
Definition collect_word (st : class_targets) (entry : N * N) : option class_targets :=
  let '(word_index, subset_word) := entry in
  mask ← (RemappedTransitions.source_word_masks remapped).[word_index];
  foldM (collect_source word_index) st (pop_bits 64 (N.land subset_word mask)).

Definition collect_closed_transition_targets (subset : CompressedStateSet.t) (st : class_targets) : option class_targets :=
  foldM collect_word st (CompressedStateSet.words subset).

(** The scratch tables are emptied for the next round. *)
Definition reset_class (st : class_targets) (class_index : N) : option class_targets :=
  _ ← (seen_class st).[class_index];
  target ← (transition_targets st).[class_index];
  target ← SparseStateSet.clear target;
  Some (ClassTargets (alterN (λ _, target) (transition_targets st) class_index) (used_classes st)
          (alterN (λ _, false) (seen_class st) class_index)).

Definition reset_classes (st : class_targets) : option class_targets :=
  st ← foldM reset_class st (used_classes st);
  Some (ClassTargets (transition_targets st) [] (seen_class st)).
End collect.

(** * The groups of a subset *)

(** The loop over the words of a subset, left when both flags are set. *)
Fixpoint subset_flags (words : list (N * N)) (finalizer_words future_words : list N) (has_finalizer has_future : bool)
    : option (bool * bool) :=
  match words with
  | [] => Some (has_finalizer, has_future)
  | (word_index, word) :: words =>
      finalizer ← finalizer_words.[word_index]; future ← future_words.[word_index];
      let has_finalizer := has_finalizer || negb (N.land word finalizer =? 0) in
      let has_future := has_future || negb (N.land word future =? 0) in
      if has_finalizer && has_future then Some (has_finalizer, has_future)
      else subset_flags words finalizer_words future_words has_finalizer has_future
  end.

Definition subset_state_bits (nfa : Nfa.t) (reachable_groups : list BitSet.t) (st : BitSet.t * BitSet.t) (state : N)
    : option (BitSet.t * BitSet.t) :=
  let '(finalizers, future) := st in
  row ← (Nfa.states nfa).[state];
  groups ← reachable_groups.[state];
  Some (foldl BitSet.set finalizers (group_list (NFAState.finalizers row)), BitSet.union_with future groups).

Definition compute_subset_metadata (nfa : Nfa.t) (subset : CompressedStateSet.t) (group_count : N)
    (reachable_groups : list BitSet.t) (single_group_finalizer_words single_group_future_words : option (list N))
    : option (BitSet.t * BitSet.t) :=
  if group_count =? 1
  then
    finalizer_words ← single_group_finalizer_words; future_words ← single_group_future_words;
    '(has_finalizer, has_future) ← subset_flags (CompressedStateSet.words subset) finalizer_words future_words false false;
    Some (single_group_bits has_finalizer, single_group_bits has_future)
  else
    foldM (subset_state_bits nfa reachable_groups) (BitSet.new group_count, BitSet.new group_count) (StateSet.iter subset).

(** * The subset construction *)

(** The loop state: [worklist] has its top at the head, [scratch_closure] is the
    buffer the keys are built in. *)
Record subset_builder := SubsetBuilder {
  dfa : LexDFA.t;
  subset_map : gmap CompressedStateSet.t N;
  subsets : list CompressedStateSet.t;
  worklist : list N;
  scratch_closure : CompressedStateSet.t;
}.

Section subsets.
Context (metadata : CompressedStateSet.t → option (BitSet.t * BitSet.t)).
Context (expand_byte_classes : bool) (class_members : list (list N)).
Context (remapped : RemappedTransitions.t) (closed : ClosedStateTargets.t).

(** [subset_map.get(..)], or a new state. *)
Definition intern_subset (b : subset_builder) : option (subset_builder * N) :=
  match subset_map b !! scratch_closure b with
  | Some existing => Some (b, existing)
  | None =>
      let '(new_state, d) := LexDFA.add_state (dfa b) in
      let key := scratch_closure b in
      '(finalizers, future) ← metadata key;
      Some (SubsetBuilder (LexDFA.overwrite_state_metadata d new_state finalizers future)
              (<[key := new_state]> (subset_map b)) (subsets b ++ [key]) (new_state :: worklist b) CompressedStateSet.new,
            new_state)
  end.

(** One used class: the state of its targets and the entries of the row. *)
Definition class_transition (targets : list SparseStateSet.t) (st : subset_builder * list (N * N)) (class_id : N)
    : option (subset_builder * list (N * N)) :=
  let '(b, entries) := st in
  target_set ← targets.[class_id];
  scratch ← reuse_from_sparse target_set (scratch_closure b);
  let b := SubsetBuilder (dfa b) (subset_map b) (subsets b) (worklist b) scratch in
  match CompressedStateSet.words scratch with
  | [] => Some (b, entries)
  | _ =>
      '(b, next_dfa_state) ← intern_subset b;
      letters ← (if expand_byte_classes then class_members.[class_id] else Some [class_id mod 256]);
      Some (b, entries ++ ((λ letter, (letter, next_dfa_state)) <$> letters))
  end.

(** One round of [while let Some(current_dfa_state) = worklist.pop()]. *)
Definition subset_round (st : subset_builder * class_targets) : option (subset_builder * class_targets) :=
  let '(b, scratch) := st in
  match worklist b with
  | [] => None
  | current :: rest =>
      let b := SubsetBuilder (dfa b) (subset_map b) (subsets b) rest (scratch_closure b) in
      current_set ← (subsets b).[current];
      scratch ← collect_closed_transition_targets remapped closed current_set scratch;
      '(b, entries) ← foldM (class_transition (transition_targets scratch)) (b, []) (used_classes scratch);
      let d := LexDFA.set_transitions_from_sorted_entries (dfa b) current (sort_by_index entries) in
      scratch ← reset_classes scratch;
      Some (SubsetBuilder d (subset_map b) (subsets b) (worklist b) (scratch_closure b), scratch)
  end.

Definition subset_step (st : subset_builder * class_targets) : (subset_builder * class_targets) + option LexDFA.t :=
  match worklist st.1 with
  | [] => inr (Some (dfa st.1))
  | _ => match subset_round st with Some st => inl st | None => inr None end
  end.
End subsets.

Definition retained_state (state : NFAState.t) : bool := has_transitions state || has_groups state.

Definition subset_construction (nfa : Nfa.t) (group_count : N) (reachable_groups : list BitSet.t) (expand_byte_classes : bool)
    : option (LexDFA.t * list (list N)) :=
  let '(class_map, num_classes, class_members) := Nfa.compute_equivalence_classes nfa in
  remapped ← build_remapped_transitions nfa class_map;
  let compact := Nfa.build_compact_nfa nfa in
  let num_nfa_states := lenN (Nfa.states nfa) in
  out_degree ← mapM (λ state, lo ← (CompactNFA.epsilon_offsets compact).[state]; hi ← (CompactNFA.epsilon_offsets compact).[state + 1];
                              Some (u32_wrapping_sub hi lo)) (seqN (length (Nfa.states nfa)));
  let retained_states := retained_state <$> Nfa.states nfa in
  retained_word_masks ← mark_words retained_state (Nfa.states nfa);
  high_degree_closures ← precompute_epsilon_closures compact out_degree retained_word_masks;
  closed ← build_closed_state_targets (length (Nfa.states nfa)) retained_states high_degree_closures;
  start_closure ← build_start_closure (Nfa.start_state nfa) retained_states high_degree_closures num_nfa_states;
  start_key ← from_sparse start_closure;
  finalizer_words ← (if group_count =? 1 then Some <$> mark_words has_groups (Nfa.states nfa) else Some None);
  future_words ← (if group_count =? 1 then Some <$> mark_words (λ groups, BitSet.contains groups 0) reachable_groups else Some None);
  let metadata key := compute_subset_metadata nfa key group_count reachable_groups finalizer_words future_words in
  '(start_finalizers, start_future) ← metadata start_key;
  let d := LexDFA.overwrite_state_metadata (LexDFA.ensure_group_capacity (LexDFA.new 1) group_count) 0 start_finalizers start_future in
  let b := SubsetBuilder d {[start_key := 0]} [start_key] [0] CompressedStateSet.new in
  let scratch := ClassTargets (replicate (N.to_nat num_classes) (SparseStateSet.new num_nfa_states)) []
                   (replicate (N.to_nat num_classes) false) in
  match run (subset_step metadata expand_byte_classes class_members remapped closed) (S (length (Nfa.states nfa))) (b, scratch) with
  | inr (Some d) => Some (d, class_members)
  | _ => None
  end.

Definition determinize_impl (nfa : Nfa.t) (expand_byte_classes : bool) : option (LexDFA.t * option (list (list N))) :=
  let group_count := nfa_group_count nfa in
  reachable_groups ← compute_reachable_groups nfa group_count;
  if is_epsilon_free_deterministic nfa
  then d ← determinize_epsilon_free_deterministic nfa group_count reachable_groups; Some (d, None)
  else
    '(d, class_members) ← subset_construction nfa group_count reachable_groups expand_byte_classes;
    Some (d, if expand_byte_classes then None else Some class_members).

Definition to_dfa (nfa : Nfa.t) : option LexDFA.t := fst <$> determinize_impl nfa true.

(** [expand_byte_class_transitions]: the classes of a row become their bytes. *)
Definition expand_row (class_members : list (list N)) (state : LexState.t) : option (CharTransitions.t N) :=
  entries ← foldM (λ entries '(class, target),
      members ← class_members.[class]; Some (entries ++ ((λ byte, (byte, target)) <$> members)))
    [] (CharTransitions.iter (LexState.transitions state));
  Some (CharTransitions.from_sorted_entries (sort_by_index entries)).

Definition expand_byte_class_transitions (dfa : LexDFA.t) (class_members : list (list N)) : option LexDFA.t :=
  expanded ← mapM (expand_row class_members) (LexDFA.states dfa);
  Some (LexDFA.states_mut dfa (λ states, zip_with (λ state transitions, LexState.set_transitions (λ _, transitions) state) states expanded)).

(** An epsilon cycle, overlapping byte sets and two groups. *)
Definition nfa_overlap : Nfa.t :=
  let a := Nfa.new 5 in
  let a := Nfa.add_epsilon (Nfa.add_epsilon a 0 1) 0 2 in
  let a := Nfa.add_u8set_transition a 1 (U8Set.from_bytes [97; 98]) 3 in
  let a := Nfa.add_u8set_transition a 2 (U8Set.from_bytes [98; 99]) 4 in
  let a := Nfa.add_epsilon a 3 1 in
  Nfa.add_finalizer (Nfa.add_finalizer a 3 0) 4 1.

Fixpoint lex_run (d : LexDFA.t) (state : N) (w : list N) : option N :=
  match w with [] => Some state | b :: w => next ← LexDFA.step d state b; lex_run d next w end.

Definition lex_groups (d : LexDFA.t) (w : list N) : option (list N * list N) :=
  q ← lex_run d 0 w; row ← (LexDFA.states d).[q];
  Some (BitSet.iter_ones (LexState.finalizers row), BitSet.iter_ones (LexState.possible_future_group_ids row)).

Example overlap_runs :
  (d ← to_dfa nfa_overlap; Some (lex_groups d [], lex_groups d [97], lex_groups d [98], lex_groups d [97; 98], lex_groups d [98; 99], lex_groups d [99; 98]))
  = Some (Some ([], [0; 1]), Some ([0], [0]), Some ([0; 1], [0; 1]), Some ([0], [0]), None, None).
Proof. vm_compute. reflexivity. Qed.
