(* ===== verification/LexEpsilon.v ===== *)
(** Subset construction: compressed sets as keys, and the epsilon closures that
    are computed in advance. *)

From stdpp Require Import relations.
From S2P Require Import Prelude Bits StateSet LexDfa LexNfa LexNfaClasses LexReach LexDeterminize.

Import SparseStateSet.

(** [lia] with division and remainder by constants. *)
#[local] Ltac Zify.zify_post_hook ::= Z.to_euclidean_division_equations.

Section keys.
Context (width : N).

Definition words_ok (ws : list N) : Prop := lenN ws = width ∧ ∀ i w, ws.[i] = Some w → w < 2 ^ 64.

Definition key_of (ws : list N) : CompressedStateSet.t :=
  CompressedStateSet.mk (nonzero_words ws) (hash_words (nonzero_words ws)).

(** The key of a set of states. *)
Definition represents (key : CompressedStateSet.t) (S : N → Prop) : Prop :=
  ∃ ws, words_ok ws ∧ key = key_of ws ∧ ∀ x, bit_at ws x = true ↔ S x.

Lemma words_bits_ext l k : words_ok l → words_ok k → (∀ x, bit_at l x = true ↔ bit_at k x = true) → l = k.
Proof.
  intros [Hl Hlb] [Hk Hkb] Hb. apply nthN_ext. intros q. destruct (l.[q]) as [x|] eqn:Ex.
  - destruct (proj1 (nthN_Some_lt k q)) as [y Ey]; [rewrite Hk, <-Hl; by eapply nthN_lt|]. rewrite Ey. f_equal.
    apply (word_ext x y 64); [by eapply Hlb|by eapply Hkb|]. intros r Hr. specialize (Hb (q * 64 + r)). unfold bit_at in Hb.
    assert ((q * 64 + r) / 64 = q) as Hq by lia. assert ((q * 64 + r) mod 64 = r) as Hr' by lia.
    rewrite Hq, Hr', Ex, Ey in Hb. simpl default in Hb. by apply eq_bool_prop_intro; rewrite !Is_true_true.
  - symmetry. apply nthN_None. rewrite Hk, <-Hl. by apply nthN_None.
Qed.

Lemma represents_ext key S S' : (∀ x, S x ↔ S' x) → represents key S → represents key S'.
Proof. intros Heq (ws & Hw & Hk & Hb). exists ws. split; [done|]. split; [done|]. intros x. by rewrite Hb. Qed.

(** Equal sets have equal keys. *)
Lemma represents_key key key' S S' : represents key S → represents key' S' → (∀ x, S x ↔ S' x) → key = key'.
Proof.
  intros (ws & Hw & -> & Hb) (ws' & Hw' & -> & Hb') Heq. assert (ws = ws') as ->; [|done].
  apply words_bits_ext; [done..|]. intros x. by rewrite Hb, Hb'.
Qed.

Lemma represents_set key S S' : represents key S → represents key S' → ∀ x, S x ↔ S' x.
Proof.
  intros (ws & [Hw _] & Hk & Hb) (ws' & [Hw' _] & Hk' & Hb') x.
  assert (ws = ws') as <-; [|by rewrite <-Hb, <-Hb'].
  apply nonzero_words_inj; [congruence|]. unfold key_of in *. congruence.
Qed.

(** The entries of a key. *)
Lemma represents_entries key S : represents key S →
  (∀ i w, (i, w) ∈ CompressedStateSet.words key → i < width ∧ w < 2 ^ 64 ∧ w ≠ 0) ∧
  ∀ x, S x ↔ ∃ w, (x / 64, w) ∈ CompressedStateSet.words key ∧ N.testbit w (x mod 64) = true.
Proof.
  intros (ws & [Hl Hw] & -> & Hb). cbn [CompressedStateSet.words key_of]. split.
  - intros i w [Hi Hnz]%elem_of_nonzero_words. split; [rewrite <-Hl; by eapply nthN_lt|]. split; [by eapply Hw|done].
  - intros x. rewrite <-Hb. setoid_rewrite elem_of_nonzero_words. unfold bit_at. split.
    + destruct (ws.[x / 64]) as [w|]; simpl default; [|by rewrite N.bits_0]. intros Ht. exists w. split; [|done]. split; [done|]. intros ->. by rewrite N.bits_0 in Ht.
    + intros (w & [Hi _] & Ht). by rewrite Hi.
Qed.

Lemma represents_empty key S : represents key S → CompressedStateSet.words key = [] ↔ ∀ x, ¬ S x.
Proof.
  intros Hr. destruct (represents_entries _ _ Hr) as [Hr1 Hr2]. split.
  - intros He x Hx. apply Hr2 in Hx as (w & Hin & _). rewrite He in Hin. by apply elem_of_nil in Hin.
  - intros Hno. destruct (CompressedStateSet.words key) as [|[i w] l]; [done|].
    destruct (Hr1 i w ltac:(by left)) as (_ & Hw & Hnz). pose proof (trailing_zeros_bit w Hnz) as Ht.
    assert (Hlt : trailing_zeros w < 64) by (apply N.nle_gt; intros Hge; by rewrite (testbit_high w 64) in Ht).
    exfalso. apply (Hno (i * 64 + trailing_zeros w)), Hr2. exists w.
    assert ((i * 64 + trailing_zeros w) / 64 = i) as -> by lia. assert ((i * 64 + trailing_zeros w) mod 64 = trailing_zeros w) as -> by lia. split; [by left|done].
Qed.

Lemma represents_iter key S : represents key S → ∀ x, x ∈ StateSet.iter key ↔ S x.
Proof.
  intros Hr x. destruct (represents_entries _ _ Hr) as [Hr1 Hr2]. rewrite state_iter_spec by (intros [i w] Hin; by destruct (Hr1 i w Hin) as (_ & ? & _)).
  rewrite Hr2, list_elem_of_bind. split.
  - intros ([i w] & (b & -> & [Hb Ht]%elem_of_word_bits)%list_elem_of_fmap & Hin). cbn [fst snd] in *. exists w.
    assert ((i * 64 + b) / 64 = i) as -> by lia. assert ((i * 64 + b) mod 64 = b) as -> by lia. done.
  - intros (w & Hin & Ht). exists (x / 64, w). split; [|done]. apply list_elem_of_fmap. exists (x mod 64). cbn [fst snd]. split; [lia|].
    apply elem_of_word_bits. split; [lia|done].
Qed.

(** ** Keys and sparse sets *)

Definition sparse_ok (s : t) : Prop := ok s ∧ lenN (words s) = width.

Lemma sparse_union_key s key S : sparse_ok s → represents key S →
  ∃ s', union_compressed s key = Some s' ∧ sparse_ok s' ∧ ∀ x, contains s' x = true ↔ contains s x = true ∨ S x.
Proof.
  intros [Hs Hl] Hr. destruct (represents_entries _ _ Hr) as [Hr1 Hr2].
  destruct (SparseFacts.union_words_spec s (CompressedStateSet.words key) Hs) as (s' & Hu & Hs' & Hl' & Hc).
  { intros i w Hin. rewrite Hl. by destruct (Hr1 i w Hin) as (? & ? & _). }
  exists s'. split; [exact Hu|]. split; [split; [done|congruence]|]. intros x. rewrite Hc, orb_true_iff, existsb_exists, Hr2. split.
  - intros [?|([i w] & Hin%list_elem_of_In & [Hi%N.eqb_eq Ht]%andb_true_iff)]; [by left|right]. cbn in Hi, Ht. exists w. by rewrite Hi.
  - intros [?|(w & Hin & Ht)]; [by left|right]. exists (x / 64, w). split; [by apply list_elem_of_In|]. by rewrite N.eqb_refl.
Qed.

Lemma sparse_ok_insert s x : sparse_ok s → x / 64 < width →
  ∃ s', insert s x = Some (s', negb (contains s x)) ∧ sparse_ok s' ∧ ∀ y, contains s' y = true ↔ y = x ∨ contains s y = true.
Proof.
  intros [Hs Hl] Hx. destruct (SparseFacts.sparse_insert_spec s x Hs) as (s' & Hi & Hs' & Hl' & Hc); [lia|].
  exists s'. split; [exact Hi|]. split; [split; [done|congruence]|]. intros y. by rewrite Hc, orb_true_iff, N.eqb_eq.
Qed.

Lemma sparse_ok_clear s : sparse_ok s → ∃ s', clear s = Some s' ∧ sparse_ok s' ∧ ∀ y, contains s' y = false.
Proof.
  intros [Hs Hl]. destruct (SparseFacts.sparse_clear_spec s Hs) as (s' & Hc & Hs' & _ & Hl' & Hn).
  exists s'. split; [exact Hc|]. split; [split; [done|congruence]|done].
Qed.

Context (Hwidth : width ≤ u32_modulus).

Lemma key_from_sparse s buffer : sparse_ok s →
  ∃ key, reuse_from_sparse s buffer = Some key ∧ represents key (λ x, contains s x = true).
Proof.
  intros [Hs Hl]. eexists. split; [apply reuse_from_sparse_spec; [done|lia]|]. exists (words s). split; [|done].
  split; [done|apply (ok_words s Hs)].
Qed.

Lemma key_masked s masks : sparse_ok s → words_ok masks →
  ∃ key, from_sparse_masked s masks = Some key ∧ represents key (λ x, contains s x = true ∧ bit_at masks x = true).
Proof.
  intros [Hs Hl] [Hm Hmw]. eexists. split; [apply from_sparse_masked_spec; [done|lia|lia]|].
  set (masked := zip_with N.land (words s) masks). exists masked.
  assert (Hmask : ∀ i, masked.[i] = w ← (words s).[i]; m ← masks.[i]; Some (N.land w m)).
  { intros i. unfold masked. rewrite nthN_lookup, lookup_zip_with, <-!nthN_lookup. done. }
  split; [|split; [done|]].
  - split; [unfold masked, lenN in *; rewrite length_zip_with; lia|]. intros i w. rewrite Hmask.
    destruct ((words s).[i]) as [x|] eqn:Ex; [|done]. cbn. destruct (masks.[i]); [|done]. intros [= <-]. apply land_bound_l. by apply (ok_words s Hs i).
  - intros x. unfold contains, bit_at. rewrite Hmask. destruct ((words s).[x / 64]) as [y|] eqn:Ey; cbn [mbind option_bind].
    + destruct (proj1 (nthN_Some_lt masks (x / 64))) as [m ->]; [rewrite Hm, <-Hl; by eapply nthN_lt|]. simpl default.
      by rewrite N.land_spec, andb_true_iff.
    + simpl default. rewrite N.bits_0. by split; [|intros [? _]].
Qed.
End keys.

(** The width of the sets over [n] states. *)
Definition set_width (n : N) : N := (n + 63) / 64.

Lemma state_word n x : x < n → x / 64 < set_width n.
Proof. unfold set_width. intros. lia. Qed.

Lemma sparse_ok_new n : sparse_ok (set_width n) (SparseStateSet.new n).
Proof. split; [apply SparseFacts.sparse_new_ok|]. unfold SparseStateSet.new. cbn [words]. rewrite lenN_replicate. unfold set_width. lia. Qed.

(** * Masks *)

Lemma mark_word_ok width ws x : words_ok width ws → x / 64 < width →
  ∃ ws', mark_word ws x = Some ws' ∧ words_ok width ws' ∧ ∀ y, bit_at ws' y = true ↔ y = x ∨ bit_at ws y = true.
Proof.
  intros [Hl Hw] Hx. unfold mark_word. destruct (proj1 (nthN_Some_lt ws (x / 64)) ltac:(lia)) as [w Ew]. rewrite Ew. cbn [mbind option_bind].
  eexists. split; [done|]. split.
  - split; [by rewrite lenN_alterN|]. intros i v. rewrite nthN_alterN. destruct (N.eqb_spec i (x / 64)) as [Heq|]; [|apply Hw].
    subst i. rewrite Ew. cbn. intros [= <-]. apply lor_bound; [by eapply Hw|apply bit_bound; lia].
  - intros y. unfold bit_at. rewrite nthN_alterN. destruct (N.eqb_spec (y / 64) (x / 64)) as [Heq|Hne].
    + rewrite Heq, Ew. cbn [fmap option_fmap option_map]. simpl default. rewrite N.lor_spec, bit_spec, orb_true_iff, N.eqb_eq.
      split; [intros [?|Hm]; [by right|left; lia]|]. intros [->|?]; [by right|by left].
    + split; [by right|]. intros [->|?]; done.
Qed.

Lemma mark_words_ok {A} (p : A → bool) l :
  ∃ ws, mark_words p l = Some ws ∧ words_ok (set_width (lenN l)) ws ∧ ∀ x, bit_at ws x = true ↔ ∃ row, l.[x] = Some row ∧ p row = true.
Proof.
  unfold mark_words. set (width := set_width (lenN l)).
  destruct (foldM_enumerate (λ k ws, words_ok width ws ∧ ∀ x, bit_at ws x = true ↔ ∃ row, x < k ∧ l.[x] = Some row ∧ p row = true)
    (λ words '(state, x), if p x then mark_word words state else Some words)
    (replicate (N.to_nat (BitSet.BitSet.div_ceil_64 (lenN l))) 0) l) as (ws & Hr & Hok & Hb).
  - intros k row ws Hk [Hok Hb]. pose proof (nthN_lt _ _ _ Hk) as Hlt. destruct (p row) eqn:Ep.
    + destruct (mark_word_ok width ws k Hok) as (ws' & Hm & Hok' & Hb'); [by apply state_word|]. exists ws'. split; [exact Hm|]. split; [done|].
      intros x. rewrite Hb', Hb. split.
      * intros [->|(r & Hx & Hr & Hp)]; [exists row; split; [lia|done]|exists r; split; [lia|done]].
      * intros (r & Hx & Hr & Hp). destruct (decide (x = k)) as [->|]; [by left|right]. exists r. split; [lia|done].
    + exists ws. split; [done|]. split; [done|]. intros x. rewrite Hb. split; intros (r & Hx & Hr & Hp); exists r; (split; [|done]); [lia|].
      destruct (decide (x = k)) as [->|]; [congruence|lia].
  - split.
    + split; [rewrite lenN_replicate; unfold width, set_width, BitSet.BitSet.div_ceil_64; lia|]. intros i w Hi. rewrite nthN_replicate in Hi. case_match; [|done]. by injection Hi as <-.
    + intros x. unfold bit_at. rewrite nthN_replicate. split; [|intros (? & ? & _); lia]. case_match; simpl default; by rewrite N.bits_0.
  - exists ws. split; [exact Hr|]. split; [done|]. intros x. rewrite Hb. split; intros (row & H); exists row; [tauto|]. split; [by eapply nthN_lt, H|done].
Qed.

Import Nfa.

(** * Counting what is left *)

Lemma sum_le {A} (f g : A → nat) l : (∀ x, x ∈ l → f x ≤ g x)%nat → (sum_list_with f l ≤ sum_list_with g l)%nat.
Proof.
  induction l as [|x l IH]; intros H; [done|]. cbn. specialize (IH ltac:(intros; apply H; by right)).
  pose proof (H x ltac:(by left)). lia.
Qed.

Lemma sum_lt {A} (f g : A → nat) l y : (∀ x, x ∈ l → f x ≤ g x)%nat → y ∈ l → (f y < g y)%nat →
  (sum_list_with f l < sum_list_with g l)%nat.
Proof.
  induction l as [|x l IH]; intros H Hy Hlt; [by apply elem_of_nil in Hy|]. cbn.
  pose proof (H x ltac:(by left)). assert (H' : ∀ x, x ∈ l → (f x ≤ g x)%nat) by (intros; apply H; by right).
  apply elem_of_cons in Hy as [->|Hy]; [pose proof (sum_le f g l H'); lia|]. specialize (IH H' Hy Hlt). lia.
Qed.

(** The states below [n] without [p]. *)
Definition missing (n : nat) (p : N → bool) : nat := sum_list_with (λ x, if p x then 0 else 1)%nat (seqN n).

Lemma missing_mono n p q : (∀ x, p x = true → q x = true) → (missing n q ≤ missing n p)%nat.
Proof. intros H. apply sum_le. intros x _. specialize (H x). destruct (p x), (q x); [lia|by specialize (H eq_refl)|lia|lia]. Qed.

Lemma missing_add n p q y : (∀ x, p x = true → q x = true) → y < N.of_nat n → p y = false → q y = true →
  (missing n q < missing n p)%nat.
Proof.
  intros H Hy Hp Hq. apply (sum_lt _ _ _ y); [|by apply elem_of_seqN|by rewrite Hp, Hq; lia].
  intros x _. specialize (H x). destruct (p x), (q x); [lia|by specialize (H eq_refl)|lia|lia].
Qed.

Lemma missing_le n p : (missing n p ≤ n)%nat.
Proof.
  unfold missing. rewrite <-(length_seqN n) at 2. induction (seqN n) as [|x l IH]; [done|]. cbn. destruct (p x); lia.
Qed.

(** A loop over the indices of a slice is the loop over the slice. *)
Lemma foldM_slice {A B} (f : B → A → option B) (l row : list A) lo hi b :
  slice l lo hi = Some row → foldM (λ b index, x ← l.[index]; f b x) b (rangeN lo hi) = foldM f b row.
Proof.
  unfold slice, rangeN. destruct (N.leb_spec lo hi) as [Hle|]; [|done]. destruct (N.leb_spec hi (lenN l)) as [Hhi|]; [|done].
  cbn [andb]. intros [= <-]. remember (N.to_nat (hi - lo)) as k eqn:Hk. unfold seqN.
  assert (H : ∀ k lo b, (lo + N.of_nat k ≤ lenN l) →
    foldM (λ b index, x ← l.[index]; f b x) b ((λ j, lo + j) <$> (N.of_nat <$> seq 0 k)) = foldM f b (take k (drop (N.to_nat lo) l))).
  { clear. induction k as [|k IH]; intros lo b Hle; [done|].
    destruct (proj1 (nthN_Some_lt l lo) ltac:(lia)) as [x Hx]. pose proof Hx as Hx'. rewrite nthN_lookup in Hx'.
    rewrite (drop_S _ _ _ Hx'). cbn [seq fmap list_fmap take foldM]. rewrite N.add_0_r, Hx. cbn [mbind option_bind].
    destruct (f b x) as [b'|]; [|done]. cbn [mbind option_bind]. replace (S (N.to_nat lo)) with (N.to_nat (lo + 1)) by lia.
    rewrite <-IH by lia. f_equal. rewrite <-fmap_S_seq, <-!list_fmap_compose. apply list_fmap_ext. intros i j _. cbn. lia. }
  apply H. lia.
Qed.

(** * The epsilon rows *)

Section closures.
Context (a : Nfa.t) (degree : list N).
Let n := num_states a.
#[local] Abbreviation compact := (build_compact_nfa a).
#[local] Abbreviation eps := (epsilon a).

Definition eps_row (s : N) : list N := match (states a).[s] with Some row => NFAState.epsilon_transitions row | None => [] end.

Context (Hclosed : ∀ s t, eps s t → t < n) (Hedges : lenN (edge_targets a) < u32_modulus).
Context (Hdeg : lenN degree = n ∧ ∀ s, s < n → degree.[s] = Some (lenN (eps_row s))).

Lemma eps_row_edge s t : t ∈ eps_row s ↔ eps s t.
Proof using.
  unfold eps_row, epsilon. destruct ((states a).[s]) as [row|].
  - split; [intros ?; by exists row|by intros (? & [= ->] & ?)].
  - split; [by intros ?%elem_of_nil|by intros (? & ? & _)].
Qed.

Lemma compact_eps_row s : s < n → ∃ lo hi, (CompactNFA.epsilon_offsets compact).[s] = Some lo ∧
  (CompactNFA.epsilon_offsets compact).[s + 1] = Some hi ∧ slice (CompactNFA.epsilon_targets compact) lo hi = Some (eps_row s).
Proof using Hedges.
  intros [row Hrow]%nthN_Some_lt. destruct (compact_row a s row Hedges Hrow) as (_ & lo & hi & H1 & H2 & H3).
  exists lo, hi. split; [done|]. split; [done|]. unfold eps_row. by rewrite Hrow.
Qed.

(** * The order of the search *)

Definition seen_in (visited : list bool) (x : N) : bool := bool_decide (visited.[x] = Some true).

(** What a part of the search does: it marks states, and lists those it marked
    that have edges. *)
Record dfs_grows (st st' : list bool * list N) : Prop := {
  dg_len : lenN st'.1 = lenN st.1;
  dg_mono : ∀ x, st.1.[x] = Some true → st'.1.[x] = Some true;
  dg_new : ∃ new, st'.2 = st.2 ++ new ∧
    ∀ x, x ∈ new ↔ st.1.[x] = Some false ∧ st'.1.[x] = Some true ∧ 1 ≤ default 0 degree.[x];
}.

Lemma dfs_grows_refl st : dfs_grows st st.
Proof using.
  split; [done|done|]. exists []. split; [by rewrite app_nil_r|]. intros x. rewrite elem_of_nil. split; [done|]. intros (H1 & H2 & _). congruence.
Qed.

Lemma dfs_grows_trans st1 st2 st3 : dfs_grows st1 st2 → dfs_grows st2 st3 → dfs_grows st1 st3.
Proof using.
  intros [L1 M1 (new1 & E1 & N1)] [L2 M2 (new2 & E2 & N2)]. split; [congruence|auto|].
  exists (new1 ++ new2). split; [by rewrite E2, E1, app_assoc|]. intros x. rewrite elem_of_app, N1, N2. split.
  - intros [(H1 & H2 & H3)|(H1 & H2 & H3)]; [auto|]. split; [|done].
    destruct (st1.1.[x]) as [[]|] eqn:E; [by rewrite (M1 x E) in H1|done|].
    apply nthN_None in E. rewrite <-L1 in E. apply nthN_None in E. congruence.
  - intros (H1 & H2 & H3). destruct (st2.1.[x]) as [[]|] eqn:E; [by left|by right|].
    apply nthN_None in E. rewrite L1 in E. apply nthN_None in E. congruence.
Qed.

Lemma search_order_spec fuel st state :
  lenN st.1 = n → state < n → (missing (N.to_nat n) (seen_in st.1) < fuel)%nat →
  ∃ st', dfs_selective_post_order fuel compact degree 1 st state = Some st' ∧ dfs_grows st st' ∧ st'.1.[state] = Some true.
Proof using All.
  revert st state. induction fuel as [|fuel IH]; intros [visited post] state Hl Hs Hf; [lia|]. cbn [fst snd] in *. cbn [dfs_selective_post_order fst snd].
  destruct (proj1 (nthN_Some_lt visited state) ltac:(by rewrite Hl)) as [seen Hseen]. rewrite Hseen. cbn [mbind option_bind].
  destruct seen; [exists (visited, post); split; [done|]; split; [apply dfs_grows_refl|done]|].
  destruct (compact_eps_row state Hs) as (lo & hi & H1 & H2 & H3). unfold epsilon_row. rewrite H1. cbn [mbind option_bind]. rewrite H2. cbn [mbind option_bind]. rewrite H3. cbn [mbind option_bind].
  set (visited1 := alterN (λ _, true) visited state).
  assert (Hv1 : ∀ x, visited1.[x] = if x =? state then Some true else visited.[x]).
  { intros x. unfold visited1. rewrite nthN_alterN. destruct (N.eqb_spec x state) as [->|]; [by rewrite Hseen|done]. }
  assert (Hloop : ∀ targets st0, (∀ t, t ∈ targets → t < n) → lenN st0.1 = n → (missing (N.to_nat n) (seen_in st0.1) < fuel)%nat →
    ∃ st', foldM (dfs_selective_post_order fuel compact degree 1) st0 targets = Some st' ∧ dfs_grows st0 st').
  { induction targets as [|t targets IHt]; intros st0 Ht Hl0 Hm0; cbn [foldM].
    - exists st0. split; [done|apply dfs_grows_refl].
    - destruct (IH st0 t Hl0 (Ht t ltac:(by left)) Hm0) as (st1 & -> & Hg1 & _). cbn [mbind option_bind].
      destruct (IHt st1) as (st2 & Hr & Hg2).
      + intros; apply Ht; by right.
      + rewrite (dg_len _ _ Hg1). done.
      + eapply Nat.le_lt_trans; [|exact Hm0]. apply missing_mono. intros x Hx. unfold seen_in in *. rewrite bool_decide_eq_true in *. by apply (dg_mono _ _ Hg1).
      + exists st2. split; [done|]. by eapply dfs_grows_trans. }
  destruct (Hloop (eps_row state) (visited1, post)) as ([visited2 post2] & -> & Hg).
  - intros t Ht%eps_row_edge. by eapply Hclosed.
  - cbn. unfold visited1. by rewrite lenN_alterN.
  - assert (missing (N.to_nat n) (seen_in visited1) < missing (N.to_nat n) (seen_in visited))%nat; [|cbn; lia].
    apply (missing_add _ _ _ state); [|by rewrite N2Nat.id| |].
    + intros x Hx. unfold seen_in in *. rewrite bool_decide_eq_true in *. rewrite Hv1. by destruct (x =? state).
    + unfold seen_in. by rewrite Hseen.
    + unfold seen_in. by rewrite Hv1, N.eqb_refl.
  - cbn [mbind option_bind]. destruct Hdeg as [_ Hd]. pose proof (Hd state Hs) as Hds. rewrite Hds. cbn [mbind option_bind].
    destruct Hg as [Lg Mg (new & Enew & Nnew)]. cbn [fst snd] in *. subst post2.
    assert (Hst : visited2.[state] = Some true) by (apply Mg; by rewrite Hv1, N.eqb_refl).
    eexists. split; [done|]. cbn [fst]. split; [|done]. split; cbn [fst snd].
    + rewrite Lg. unfold visited1. by rewrite lenN_alterN.
    + intros x Hx. apply Mg. rewrite Hv1. by destruct (x =? state).
    + destruct (N.leb_spec 1 (lenN (eps_row state))) as [Hge|Hlt].
      * exists (new ++ [state]). split; [by rewrite <-app_assoc|]. intros x. rewrite elem_of_app, list_elem_of_singleton, Nnew, Hv1.
        destruct (N.eqb_spec x state) as [->|Hne]; [|naive_solver]. rewrite Hds. simpl default. naive_solver.
      * exists new. split; [done|]. intros x. rewrite Nnew, Hv1. destruct (N.eqb_spec x state) as [->|Hne]; [|done]. rewrite Hds. simpl default.
        split; [naive_solver|]. intros (_ & _ & ?). lia.
Qed.

(** Every state with epsilon edges is listed. *)
Lemma post_order_spec : ∃ post, selective_post_order compact degree = Some post ∧
  ∀ s, s ∈ post ↔ s < n ∧ 1 ≤ default 0 degree.[s].
Proof using All.
  destruct Hdeg as [Hdl Hd]. assert (Hn : length degree = N.to_nat n) by (unfold lenN in Hdl; lia).
  unfold selective_post_order. rewrite Hn.
  destruct (foldM_seqN (λ k st, dfs_grows (replicate (N.to_nat n) false, []) st ∧
      ∀ x, x < k → 1 ≤ default 0 degree.[x] → st.1.[x] = Some true)
    (λ st state, d ← degree.[state]; if d <? EPSILON_CLOSURE_PRECOMPUTE_THRESHOLD then Some st
       else dfs_selective_post_order (S (N.to_nat n)) compact degree EPSILON_CLOSURE_PRECOMPUTE_THRESHOLD st state)
    (replicate (N.to_nat n) false, []) (N.to_nat n)) as ([visited post] & Hr & Hg & Hall).
  - intros k st Hk [Hg Hall]. rewrite N2Nat.id in Hk. rewrite (Hd k Hk). cbn [mbind option_bind]. unfold EPSILON_CLOSURE_PRECOMPUTE_THRESHOLD.
    assert (Hl : lenN st.1 = n) by (rewrite (dg_len _ _ Hg); cbn; rewrite lenN_replicate; lia).
    destruct (N.ltb_spec (lenN (eps_row k)) 1) as [Hlt|Hge].
    + exists st. split; [done|]. split; [done|]. intros x Hx Hdx. destruct (decide (x = k)) as [->|]; [|apply Hall; [lia|done]].
      rewrite (Hd k Hk) in Hdx. simpl default in Hdx. lia.
    + destruct (search_order_spec (S (N.to_nat n)) st k Hl Hk) as (st' & Hr & Hg' & Hk').
      { pose proof (missing_le (N.to_nat n) (seen_in st.1)). lia. }
      exists st'. split; [done|]. split; [by eapply dfs_grows_trans|]. intros x Hx Hdx. destruct (decide (x = k)) as [->|]; [done|].
      apply (dg_mono _ _ Hg'), Hall; [lia|done].
  - split; [apply dfs_grows_refl|]. intros x Hx. lia.
  - rewrite Hr. cbn [mbind option_bind]. exists post. split; [done|]. destruct Hg as [Lg Mg (new & Enew & Nnew)]. cbn [fst snd] in *.
    rewrite app_nil_l in Enew. subst new. intros s. rewrite Nnew. split.
    + intros (H1 & _ & H3). split; [|done]. apply nthN_lt in H1. rewrite lenN_replicate in H1. lia.
    + intros [Hs Hds]. split; [|split; [apply Hall; [lia|done]|done]]. rewrite nthN_replicate. by rewrite (proj2 (N.ltb_lt _ _)) by lia.
Qed.

(** * The loop of a closure *)

Context (retained : N → Prop).
Let width := set_width n.
Context (Hwidth : n < 2147483648).

(** The retained states in the closure of [s]. *)
Definition kept (s y : N) : Prop := retained y ∧ rtc eps s y.

(** The closures known so far are closures. *)
Definition closures_known (high : list (option CompressedStateSet.t)) : Prop :=
  lenN high = n ∧ ∀ s key, high.[s] = Some (Some key) → represents width key (kept s).

Section one_closure.
Context (high : list (option CompressedStateSet.t)) (Hhigh : closures_known high) (root : N) (Hroot : root < n).

Definition member (closure : SparseStateSet.t) (x : N) : Prop := SparseStateSet.contains closure x = true.
Definition covered (closure : SparseStateSet.t) (x : N) : Prop := ∀ y, kept x y → member closure y.

(** The targets [suf] of [current] are still to be looked at. *)
Record closure_ok (closure : SparseStateSet.t) (stack : list N) (current : N) (suf : list N) : Prop := {
  cl_sparse : sparse_ok width closure;
  cl_reached : ∀ x, member closure x → x < n ∧ rtc eps root x;
  cl_root : member closure root;
  cl_stack : ∀ x, x ∈ stack → member closure x;
  cl_closed : ∀ x, member closure x → x ∈ stack ∨ covered closure x ∨ ∀ y, eps x y → member closure y ∨ x = current ∧ y ∈ suf;
}.

Definition closure_left (closure : SparseStateSet.t) (stack : list N) : nat :=
  (length stack + missing (N.to_nat n) (SparseStateSet.contains closure))%nat.

Lemma closure_ok_mono closure closure' stack current next suf :
  closure_ok closure stack current (next :: suf) → sparse_ok width closure' →
  (∀ x, member closure x → member closure' x) → member closure' next →
  (∀ x, member closure' x → x < n ∧ rtc eps root x) →
  ∀ stack', (∀ x, x ∈ stack → x ∈ stack') → (∀ x, x ∈ stack' → x ∈ stack ∨ member closure' x) →
  (∀ x, member closure' x → member closure x ∨ x ∈ stack' ∨ covered closure' x ∨ ∀ y, ¬ eps x y) →
  closure_ok closure' stack' current suf.
Proof using.
  intros [H1 H2 H3 H4 H5] Hs Hsub Hnext Hr stack' Hss Hss' Hnew. split; [done|done|auto| |].
  - intros x [Hx|Hx]%Hss'; auto.
  - intros x Hx. destruct (Hnew x Hx) as [Hold|[?|[?|Hno]]]; [|by left|by right; left|right; right; intros y Hy; by apply Hno in Hy].
    destruct (H5 x Hold) as [?|[Hc|He]]; [left; auto|right; left; intros y Hy; auto|right; right].
    intros y Hy. destruct (He y Hy) as [?|[-> [->|Hin]%elem_of_cons]]; [left; auto|by left|by right].
Qed.

Lemma closure_ok_current closure stack c current : closure_ok closure stack current [] → closure_ok closure stack c [].
Proof using.
  intros [G1 G2 G3 G4 G5]. split; [done|done|done|done|]. intros x Hx. destruct (G5 x Hx) as [?|[?|He]]; [by left|by right; left|right; right].
  intros y Hy. destruct (He y Hy) as [?|[_ ?%elem_of_nil]]; [by left|done].
Qed.

Lemma close_over_ok closure stack current next suf : next < n → rtc eps root next →
  closure_ok closure stack current (next :: suf) →
  ∃ closure' stack', close_next degree high (closure, stack) next = Some (closure', stack') ∧ closure_ok closure' stack' current suf ∧
    (closure_left closure' stack' ≤ closure_left closure stack)%nat.
Proof using All.
  intros Hn Hr Hok. pose proof Hok as [Hsp Hre Hro Hst Hcl]. unfold close_next.
  destruct (sparse_ok_insert width closure next Hsp (state_word n next Hn)) as (closure1 & -> & Hsp1 & Hc1). cbn [mbind option_bind].
  assert (Hsub1 : ∀ x, member closure x → member closure1 x) by (intros x Hx; apply Hc1; by right).
  assert (Hn1 : member closure1 next) by (apply Hc1; by left).
  destruct (SparseStateSet.contains closure next) eqn:Ec; cbn [negb].
  - exists closure1, stack. split; [done|]. assert (Hsame : ∀ x, member closure1 x ↔ member closure x).
    { intros x. unfold member at 1. rewrite Hc1. split; [intros [->|?]; done|by right]. }
    split; [|unfold closure_left; apply Nat.add_le_mono; [done|]; by apply missing_mono].
    apply (closure_ok_mono closure _ stack _ next); try done; [intros x Hx; apply Hre; by apply Hsame|by left|intros x Hx; left; by apply Hsame].
  - destruct Hhigh as [Hhl Hhk]. destruct (proj1 (nthN_Some_lt high next) ltac:(lia)) as [known Hknown]. rewrite Hknown. cbn [mbind option_bind].
    assert (Hleft : ∀ closure2, (∀ x, member closure1 x → member closure2 x) →
      (missing (N.to_nat n) (SparseStateSet.contains closure2) < missing (N.to_nat n) (SparseStateSet.contains closure))%nat).
    { intros closure2 Hsub2. apply (missing_add _ _ _ next); [intros x Hx; by apply Hsub2, Hsub1|by rewrite N2Nat.id|done|by apply Hsub2]. }
    destruct known as [key|].
    + pose proof (Hhk next key Hknown) as Hkey. destruct (sparse_union_key width closure1 key _ Hsp1 Hkey) as (closure2 & -> & Hsp2 & Hc2). cbn [mbind option_bind].
      exists closure2, stack. split; [done|].
      assert (Hsub2 : ∀ x, member closure1 x → member closure2 x) by (intros x Hx; apply Hc2; by left).
      assert (Hcov : ∀ x, rtc eps next x → covered closure2 x).
      { intros x Hx y [Hy Hxy]. apply Hc2. right. split; [done|]. by etrans. }
      assert (Hin2 : ∀ x, member closure2 x → member closure x ∨ rtc eps next x).
      { intros x [[->|?]%Hc1|[_ ?]]%Hc2; [by right|by left|by right]. }
      split; [|unfold closure_left; pose proof (Hleft closure2 Hsub2); lia].
      apply (closure_ok_mono closure _ stack _ next); try done; [by auto|by auto| |by left|].
      * intros x [Hx|Hx]%Hin2; [by apply Hre|]. split; [|by etrans].
        destruct (rtc_inv_r _ _ Hx) as [<-|(y & _ & Hy)]; [done|by eapply Hclosed].
      * intros x [Hx|Hx]%Hin2; [by left|right; right; left; by apply Hcov].
    + destruct Hdeg as [_ Hd]. rewrite (Hd next Hn). cbn [mbind option_bind]. do 2 eexists. split; [done|].
      assert (Hin1 : ∀ x, member closure1 x → x < n ∧ rtc eps root x) by (intros x [->|Hx]%Hc1; [done|by apply Hre]).
      pose proof (Hleft closure1 ltac:(done)) as Hlt. destruct (N.ltb_spec 0 (lenN (eps_row next))) as [Hpos|Hzero].
      * split; [|unfold closure_left; cbn [length]; lia].
        apply (closure_ok_mono closure _ stack _ next); try done; [intros x Hx; by right|intros x [->|?]%elem_of_cons; [by right|by left]|].
        intros x [->|?]%Hc1; [right; left; by left|by left].
      * split; [|unfold closure_left; lia].
        apply (closure_ok_mono closure _ stack _ next); try done; [intros x ?; by left|].
        intros x [->|?]%Hc1; [|by left]. right. right. right. intros y Hy%eps_row_edge. apply nthN_elem_of in Hy as [i Hi]. apply nthN_lt in Hi. lia.
Qed.

Lemma closure_round_ok closure current stack :
  closure_ok closure (current :: stack) current [] →
  ∃ closure' stack', closure_round compact degree high (closure, current :: stack) = inl (closure', stack') ∧
    closure_ok closure' stack' current [] ∧ (closure_left closure' stack' < closure_left closure (current :: stack))%nat.
Proof using All.
  intros Hok. destruct (cl_reached _ _ _ _ Hok current) as [Hcn Hcr]; [apply (cl_stack _ _ _ _ Hok); by left|].
  destruct (compact_eps_row current Hcn) as (lo & hi & H1 & H2 & H3). cbn [closure_round]. rewrite H1, H2.
  assert (Hstart : closure_ok closure stack current (eps_row current)).
  { destruct Hok as [G1 G2 G3 G4 G5]. split; [done|done|done|intros x Hx; apply G4; by right|]. intros x Hx.
    destruct (decide (x = current)) as [->|Hne]; [right; right; intros y Hy; right; split; [done|by apply eps_row_edge]|].
    destruct (G5 x Hx) as [[?|?]%elem_of_cons|[?|He]]; [done|by left|by right; left|right; right].
    intros y Hy. destruct (He y Hy) as [?|[_ ?%elem_of_nil]]; [by left|done]. }
  assert (Hloop : ∀ suf closure stack, (∀ t, t ∈ suf → eps current t) → closure_ok closure stack current suf →
    ∃ closure' stack', foldM (close_next degree high) (closure, stack) suf = Some (closure', stack') ∧
      closure_ok closure' stack' current [] ∧ (closure_left closure' stack' ≤ closure_left closure stack)%nat).
  { induction suf as [|t suf IH]; intros closure0 stack0 Ht Hok0.
    - by exists closure0, stack0.
    - pose proof (Ht t ltac:(by left)) as Het.
      destruct (close_over_ok closure0 stack0 current t suf) as (closure1 & stack1 & Hone & Hok1 & Hl1); [by eapply Hclosed|by eapply rtc_r|done|].
      destruct (IH closure1 stack1 ltac:(intros; apply Ht; by right) Hok1) as (closure2 & stack2 & Hrest & Hok2 & Hl2).
      exists closure2, stack2. cbn [foldM]. rewrite Hone. cbn [mbind option_bind]. split; [exact Hrest|]. split; [done|lia]. }
  destruct (Hloop (eps_row current) closure stack ltac:(intros t Ht; by apply eps_row_edge) Hstart) as (closure' & stack' & Hfold & Hok' & Hl').
  rewrite <-(foldM_slice _ _ _ lo hi (closure, stack) H3) in Hfold.
  change (foldM (close_over compact degree high) (closure, stack) (rangeN lo hi) = Some (closure', stack')) in Hfold.
  rewrite Hfold. exists closure', stack'. split; [done|]. split; [done|]. unfold closure_left in *. cbn [length]. lia.
Qed.

(** The loop ends with the retained states of the closure. *)
Lemma closure_loop_ok closure : closure_ok closure [root] root [] →
  ∃ closure', run (closure_round compact degree high) (S (length degree)) (closure, [root]) = inr (Some closure') ∧
    sparse_ok width closure' ∧ ∀ y, retained y → member closure' y ↔ kept root y.
Proof using All.
  intros Hok. assert (Hn : length degree = N.to_nat n) by (destruct Hdeg as [Hl _]; unfold lenN in Hl; lia).
  destruct (run_terminates (closure_round compact degree high)
    (λ st m, ∃ current, closure_ok st.1 st.2 current [] ∧ (closure_left st.1 st.2 ≤ m)%nat)
    (S (length degree)) (closure, [root]) (closure_left closure [root])) as (r & [closure' stack'] & m & -> & (current & Hok' & _) & Hexit).
  - intros [closure0 [|c stack0]] st' m (current & Hok0 & Hm) Hstep; [done|]. cbn [fst snd] in *.
    pose proof (closure_ok_current _ _ c _ Hok0) as Hok1.
    destruct (closure_round_ok closure0 c stack0 Hok1) as (closure1 & stack1 & Hr & Hok2 & Hlt). rewrite Hr in Hstep. injection Hstep as <-.
    exists (closure_left closure1 stack1). split; [|lia]. by exists c.
  - by exists root.
  - rewrite Hn. unfold closure_left. cbn [length]. pose proof (missing_le (N.to_nat n) (SparseStateSet.contains closure)). pose proof (pow2_S_gt (N.to_nat n)). lia.
  - cbn [fst snd] in *. destruct stack' as [|c stack'].
    + injection Hexit as <-. exists closure'. split; [done|]. split; [apply (cl_sparse _ _ _ _ Hok')|]. intros y Hy. split.
      * intros Hm. split; [done|]. by apply (cl_reached _ _ _ _ Hok').
      * intros [_ Hr]. assert (Hgo : ∀ x, rtc eps x y → member closure' x → member closure' y); [|exact (Hgo root Hr (cl_root _ _ _ _ Hok'))].
        clear Hr. intros x Hr. induction Hr as [x|x x1 y Hxx Hr IH]; intros Hx; [done|].
        destruct (cl_closed _ _ _ _ Hok' x Hx) as [?%elem_of_nil|[Hc|He]]; [done| |].
        -- apply Hc. split; [done|]. by eapply rtc_l.
        -- destruct (He x1 Hxx) as [Hx1|[_ ?%elem_of_nil]]; [|done]. by apply IH.
    + assert (Hok1 : closure_ok closure' (c :: stack') c []).
      { destruct Hok' as [G1 G2 G3 G4 G5]. split; [done|done|done|done|]. intros x Hx. destruct (G5 x Hx) as [?|[?|He]]; [by left|by right; left|right; right].
        intros y Hy. destruct (He y Hy) as [?|[_ ?%elem_of_nil]]; [by left|done]. }
      destruct (closure_round_ok closure' c stack' Hok1) as (? & ? & Hr & _). congruence.
Qed.
End one_closure.

(** * All closures *)

Context (masks : list N) (Hmasks : words_ok width masks) (Hbits : ∀ x, SparseStateSet.bit_at masks x = true ↔ retained x).

Lemma width_small : width ≤ u32_modulus.
Proof using Hwidth.
  clear -Hwidth. unfold width, set_width, u32_modulus. transitivity (n + 63); [apply N.Div0.div_le_upper_bound; lia|lia].
Qed.

Lemma precompute_one_ok high closure s : closures_known high → sparse_ok width closure → s < n →
  ∃ key closure', precompute_one compact degree masks (high, closure) s = Some (alterN (λ _, Some key) high s, closure') ∧
    represents width key (kept s) ∧ sparse_ok width closure'.
Proof using All.
  intros Hhigh Hsp Hs. unfold precompute_one.
  destruct (sparse_ok_clear width closure Hsp) as (closure1 & -> & Hsp1 & Hno). cbn [mbind option_bind].
  destruct (sparse_ok_insert width closure1 s Hsp1 (state_word n s Hs)) as (closure2 & -> & Hsp2 & Hc2). cbn [mbind option_bind].
  assert (Hin : ∀ x, member closure2 x ↔ x = s).
  { intros x. unfold member. rewrite Hc2, Hno. naive_solver. }
  destruct (closure_loop_ok high Hhigh s Hs closure2) as (closure3 & -> & Hsp3 & Hc3).
  - split; [done|intros x ->%Hin; done|by apply Hin|intros x ->%list_elem_of_singleton; by apply Hin|].
    intros x ->%Hin. left. by left.
  - destruct (key_masked width width_small closure3 masks Hsp3 Hmasks) as (key & -> & Hkey). cbn [mbind option_bind].
    destruct (proj1 (nthN_Some_lt high s)) as [known ->]; [by rewrite (proj1 Hhigh)|]. cbn [mbind option_bind].
    exists key, closure3. split; [done|]. split; [|done]. eapply represents_ext; [|exact Hkey]. intros x. cbn beta. rewrite Hbits.
    split; [intros [Hm Hx]; by apply Hc3|]. intros Hk. destruct Hk as [Hx Hr]. split; [|done]. by apply Hc3.
Qed.

Definition closures_ready (high : list (option CompressedStateSet.t)) : Prop :=
  lenN high = n ∧ ∀ s, s < n → match high.[s] with
    | Some (Some key) => represents width key (kept s)
    | Some None => eps_row s = []
    | None => False
    end.

Lemma precompute_ok : ∃ high, precompute_epsilon_closures compact degree masks = Some high ∧ closures_ready high.
Proof using All.
  unfold precompute_epsilon_closures. destruct post_order_spec as (post & -> & Hpost). cbn [mbind option_bind].
  destruct Hdeg as [Hdl Hd].
  assert (Hloop : ∀ suf pre st, post = pre ++ suf → closures_known st.1 ∧ sparse_ok width st.2 ∧ (∀ s, s ∈ pre → ∃ key, st.1.[s] = Some (Some key)) →
    ∃ st', foldM (precompute_one compact degree masks) st suf = Some st' ∧
      closures_known st'.1 ∧ sparse_ok width st'.2 ∧ ∀ s, s ∈ post → ∃ key, st'.1.[s] = Some (Some key)).
  { induction suf as [|s suf IH]; intros pre [high closure] Heq (Hk & Hsp & Hpre); cbn [foldM fst snd] in *.
    - rewrite app_nil_r in Heq. subst pre. by exists (high, closure).
    - assert (Hs : s < n) by (apply Hpost; rewrite Heq; set_solver).
      destruct (precompute_one_ok high closure s Hk Hsp Hs) as (key & closure' & -> & Hkey & Hsp'). cbn [mbind option_bind].
      assert (Hlook : ∀ x, (alterN (λ _, Some key) high s).[x] = if x =? s then Some (Some key) else high.[x]).
      { intros x. rewrite nthN_alterN. destruct (N.eqb_spec x s) as [->|]; [|done].
        destruct (proj1 (nthN_Some_lt high s)) as [y ->]; [by rewrite (proj1 Hk)|done]. }
      apply (IH (pre ++ [s])); [by rewrite <-app_assoc|]. cbn [fst snd]. split; [|split; [done|]].
      + split; [rewrite lenN_alterN; apply Hk|]. intros x k. rewrite Hlook. destruct (N.eqb_spec x s) as [->|]; [by intros [= <-]|apply Hk].
      + intros x. rewrite Hlook. intros Hx. destruct (N.eqb_spec x s); [by exists key|]. apply Hpre. set_solver. }
  destruct (Hloop post [] (replicate (length degree) None, SparseStateSet.new (lenN degree)) eq_refl) as ([high closure] & -> & Hk & _ & Hall); cbn [fst snd] in *.
  - split; [|split; [rewrite Hdl; apply sparse_ok_new|by intros s ?%elem_of_nil]].
    split; [rewrite lenN_replicate; exact Hdl|]. intros s key Hs. rewrite nthN_replicate in Hs. by case_match.
  - cbn [mbind option_bind]. exists high. split; [done|]. split; [apply Hk|]. intros s Hs.
    destruct (proj1 (nthN_Some_lt high s)) as [[key|] Hh]; [by rewrite (proj1 Hk)|rewrite Hh; by apply Hk|]. rewrite Hh.
    destruct (eps_row s) as [|y row] eqn:Er; [done|exfalso]. destruct (Hall s) as (key & ?); [|congruence]. apply Hpost. split; [done|].
    rewrite (Hd s Hs), Er. unfold lenN. simpl. lia.
Qed.
End closures.
