(* ===== verification/LexDetParts.v ===== *)
(** The tables of determinization (crates/glrmask-lexer/src/automata/lexer/
    determinize.rs): the flat rows of closed targets and of transitions over
    byte classes, and what collecting the targets of a subset gives per class. *)

From stdpp Require Import relations.
From S2P Require Import Prelude Bits U8Set StateSet LexDfa LexNfa LexNfaClasses LexReach LexDeterminize LexEpsilon.
Import Nfa.

(** * Flat rows *)

Section table.
Context {A : Type}.
Implicit Types (rows : list (list A)) (flat : list A).

(** [offsets] delimit the rows in [flat]. *)
Record table_ok (offsets : list N) rows flat : Prop := {
  tb_flat : flat = concat rows;
  tb_len : lenN offsets = lenN rows + 1;
  tb_offsets : ∀ i, i ≤ lenN rows → offsets.[i] = Some (as_u32 (lenN (concat (take (N.to_nat i) rows))));
}.

Lemma table_nil : table_ok [0] [] [].
Proof. split; [done|done|]. intros i Hi. assert (i = 0) as -> by (unfold lenN in Hi; simpl in Hi; lia). done. Qed.

Lemma table_push offsets rows flat row : table_ok offsets rows flat →
  table_ok (offsets ++ [as_u32 (lenN (flat ++ row))]) (rows ++ [row]) (flat ++ row).
Proof.
  intros [Hf Hl Ho]. split.
  - by rewrite concat_app, Hf; cbn; rewrite app_nil_r.
  - by rewrite !lenN_snoc, Hl.
  - intros i Hi. rewrite lenN_snoc in Hi. rewrite nthN_snoc, Hl. destruct (N.eqb_spec i (lenN rows + 1)) as [->|Hne].
    + do 3 f_equal. rewrite Hf. rewrite take_ge by (rewrite length_app; unfold lenN; simpl; lia). by rewrite concat_app; cbn; rewrite app_nil_r.
    + rewrite Ho by lia. do 4 f_equal. rewrite take_app_le; [done|]. unfold lenN in *. lia.
Qed.

Lemma table_slice offsets rows flat i row : table_ok offsets rows flat → lenN flat < u32_modulus → rows.[i] = Some row →
  ∃ lo hi, offsets.[i] = Some lo ∧ offsets.[i + 1] = Some hi ∧ slice flat lo hi = Some row.
Proof.
  intros [Hf Hl Ho] Hsmall Hi. pose proof (nthN_lt _ _ _ Hi) as Hlt. rewrite (Ho i), (Ho (i + 1)) by lia.
  rewrite nthN_lookup in Hi. pose proof (take_drop_middle rows (N.to_nat i) row Hi) as Hmid.
  set (pre := take (N.to_nat i) rows) in *. set (suf := drop (S (N.to_nat i)) rows) in *.
  assert (Hflat : flat = concat pre ++ row ++ concat suf) by (by rewrite Hf, <-Hmid, concat_app).
  assert (Htake : take (N.to_nat (i + 1)) rows = pre ++ [row]).
  { replace (N.to_nat (i + 1)) with (S (N.to_nat i)) by lia. by apply take_S_r. }
  assert (Hb : lenN (concat pre) + lenN row ≤ lenN flat) by (rewrite Hflat, !lenN_app; lia).
  rewrite Htake, concat_app. cbn [concat]. rewrite app_nil_r, lenN_app, !as_u32_small by lia.
  do 2 eexists. split; [done|]. split; [done|]. unfold slice. rewrite !(proj2 (N.leb_le _ _)) by lia. cbn [andb]. f_equal. rewrite Hflat.
  replace (N.to_nat (lenN (concat pre))) with (length (concat pre)) by (unfold lenN; lia). rewrite drop_app_length.
  replace (N.to_nat _) with (length row) by (unfold lenN; lia). apply take_app_length.
Qed.
End table.

Lemma slice_fmap {A B} (f : A → B) l lo hi row : slice l lo hi = Some row → slice (f <$> l) lo hi = Some (f <$> row).
Proof.
  unfold slice. rewrite lenN_fmap. destruct (_ && _); [|done]. intros [= <-]. f_equal. by rewrite fmap_take, fmap_drop.
Qed.

Lemma foldM_ext {A B} (f g : B → A → option B) b l : (∀ b x, f b x = g b x) → foldM f b l = foldM g b l.
Proof. intros H. revert b. induction l as [|x l IH]; intros b; [done|]. cbn. rewrite H. destruct (g b x); [apply IH|done]. Qed.

(** A loop that adds to a family of sets. *)
Lemma foldM_collect {A B} (ok : B → (N → N → Prop) → Prop) (f : B → A → option B) (P : A → N → N → Prop) l b T :
  (∀ b T T', (∀ c x, T c x ↔ T' c x) → ok b T → ok b T') →
  (∀ y b T, y ∈ l → ok b T → ∃ b', f b y = Some b' ∧ ok b' (λ c x, T c x ∨ P y c x)) →
  ok b T → ∃ b', foldM f b l = Some b' ∧ ok b' (λ c x, T c x ∨ ∃ y, y ∈ l ∧ P y c x).
Proof.
  intros Hext. revert b T. induction l as [|y l IH]; intros b T Hf Hb; cbn [foldM].
  - exists b. split; [done|]. eapply Hext; [|exact Hb]. intros c x. split; [by left|]. by intros [?|(y & ?%elem_of_nil & _)].
  - destruct (Hf y b T ltac:(by left) Hb) as (b1 & -> & Hb1). cbn [mbind option_bind].
    destruct (IH b1 _ ltac:(intros; apply Hf; [by right|done]) Hb1) as (b2 & Hr & Hb2). exists b2. split; [exact Hr|].
    eapply Hext; [|exact Hb2]. intros c x. setoid_rewrite elem_of_cons. split.
    + intros [[?|?]|(z & ? & ?)]; [by left|right; exists y; auto|right; exists z; auto].
    + intros [?|(z & [->|?] & ?)]; [by left; left|by left; right|right; by exists z].
Qed.

(** * Closed targets *)

(** Words that stand for a set of states. *)
Definition entries_represent (width : N) (entries : list (N * N)) (S : N → Prop) : Prop :=
  (∀ i w, (i, w) ∈ entries → i < width ∧ w < 2 ^ 64 ∧ w ≠ 0) ∧
  ∀ x, S x ↔ ∃ w, (x / 64, w) ∈ entries ∧ N.testbit w (x mod 64) = true.

Lemma key_entries width key S : represents width key S → entries_represent width (CompressedStateSet.words key) S.
Proof. apply represents_entries. Qed.

(** [lia] with division and remainder by constants. *)
#[local] Ltac Zify.zify_post_hook ::= Z.to_euclidean_division_equations.

Lemma single_entries n s : s < n → entries_represent (set_width n) [(s / 64, bit (s mod 64))] (λ y, y = s).
Proof.
  intros Hs. split.
  - intros i w [= -> ->]%list_elem_of_singleton. split; [by apply state_word|]. split; [apply bit_bound; lia|].
    intros Hz. pose proof (bit_spec (s mod 64) (s mod 64)) as Hb. rewrite Hz, N.bits_0, N.eqb_refl in Hb. done.
  - intros x. split.
    + intros ->. exists (bit (s mod 64)). split; [by left|]. by rewrite bit_spec, N.eqb_refl.
    + intros (w & [= Hq ->]%list_elem_of_singleton & Ht). rewrite bit_spec, N.eqb_eq in Ht. lia.
Qed.

Lemma no_entries width : entries_represent width [] (λ _, False).
Proof. split; [by intros i w ?%elem_of_nil|]. intros x. split; [done|]. by intros (w & ?%elem_of_nil & _). Qed.

Lemma entries_ext width entries S S' : (∀ x, S x ↔ S' x) → entries_represent width entries S → entries_represent width entries S'.
Proof. intros H [H1 H2]. split; [done|]. intros x. by rewrite <-H, H2. Qed.

Lemma entries_empty width entries S : entries_represent width entries S → entries = [] → ∀ x, ¬ S x.
Proof. intros [_ H] -> x (w & ?%elem_of_nil & _)%H. done. Qed.

Lemma key_length width key S : represents width key S → lenN (CompressedStateSet.words key) ≤ width.
Proof.
  intros (ws & [Hl _] & -> & _). cbn [CompressedStateSet.words key_of]. unfold nonzero_words.
  pose proof (length_filter (λ e : N * N, e.2 ≠ 0) (enumerate ws)) as Hle. unfold enumerate in *. rewrite length_imap in Hle. unfold lenN in *. lia.
Qed.

Lemma length_concat_le {A} (rows : list (list A)) m : (∀ row, row ∈ rows → lenN row ≤ m) → lenN (concat rows) ≤ lenN rows * m.
Proof.
  induction rows as [|row rows IH]; intros H; [unfold lenN; simpl; lia|]. cbn [concat]. rewrite lenN_app.
  specialize (IH ltac:(intros; apply H; by right)). pose proof (H row ltac:(by left)). unfold lenN in *. cbn [length]. nia.
Qed.

Section parts.
Context (a : Nfa.t).
Let n := num_states a.
Let width := set_width n.
#[local] Abbreviation eps := (epsilon a).

Definition kept_state (x : N) : Prop := ∃ row, (states a).[x] = Some row ∧ retained_state row = true.

Context (Hclosed : ∀ s t, eps s t → t < n) (Hwords : n * width < u32_modulus).
Context (high : list (option CompressedStateSet.t)) (Hhigh : closures_ready a kept_state high).

Lemma kept_alone s : eps_row a s = [] → ∀ y, kept a kept_state s y ↔ kept_state y ∧ y = s.
Proof using.
  intros Hnil y. unfold kept. split.
  - intros [Hy Hr]. split; [done|]. inversion Hr as [|? z ? He]; subst; [done|]. apply eps_row_edge in He. rewrite Hnil in He. by apply elem_of_nil in He.
  - intros [Hy ->]. done.
Qed.

(** The words of a state in the flat table. *)
Definition state_entries (s : N) (entries : list (N * N)) : Prop :=
  entries_represent width entries (kept a kept_state s) ∧ lenN entries ≤ width.

Lemma close_state_ok result s rows flat : s < n →
  table_ok (ClosedStateTargets.offsets result) rows flat →
  ClosedStateTargets.word_indices result = flat.*1 → ClosedStateTargets.words result = flat.*2 →
  ∃ result' row, close_state (retained_state <$> states a) high result s = Some result' ∧ state_entries s row ∧
    table_ok (ClosedStateTargets.offsets result') (rows ++ [row]) (flat ++ row) ∧
    ClosedStateTargets.word_indices result' = (flat ++ row).*1 ∧ ClosedStateTargets.words result' = (flat ++ row).*2.
Proof using All.
  intros Hs Ht Hi Hw. destruct Hhigh as [Hl Hr]. specialize (Hr s Hs). unfold close_state.
  destruct (high.[s]) as [[key|]|]; [| |done]; cbn [mbind option_bind].
  - eexists _, (CompressedStateSet.words key). split; [done|]. split; [split; [by apply key_entries|by eapply key_length]|]. cbn.
    rewrite Hi, Hw, !fmap_app. split; [|done]. rewrite <-fmap_app, lenN_fmap. by apply table_push.
  - pose proof (kept_alone s Hr) as Hk. rewrite nthN_fmap. destruct (proj1 (nthN_Some_lt (states a) s) Hs) as [row Hrow]. rewrite Hrow. cbn [fmap option_fmap option_map mbind option_bind].
    assert (Hks : kept_state s ↔ retained_state row = true) by (unfold kept_state; rewrite Hrow; naive_solver).
    assert (Hw1 : 1 ≤ width) by (unfold width, set_width; lia).
    assert (Hq : as_u32 (s / 64) = s / 64).
    { apply as_u32_small. pose proof (state_word n s Hs). fold width in H. nia. }
    destruct (retained_state row) eqn:Er; cbn [mbind option_bind].
    + eexists _, [(s / 64, bit (s mod 64))]. split; [by rewrite Hq|]. split; [split; [|unfold lenN; simpl; lia]|].
      { eapply entries_ext; [|by apply single_entries]. intros x. rewrite Hk. cbn beta. naive_solver. }
      cbn. rewrite Hi, Hw, !fmap_app. split; [|done]. cbn [fmap list_fmap snd].
      replace (lenN (flat.*2 ++ [bit (s mod 64)])) with (lenN (flat ++ [(s / 64, bit (s mod 64))])) by (by rewrite !lenN_snoc, lenN_fmap). by apply table_push.
    + eexists _, []. split; [done|]. split; [split; [|unfold lenN; simpl; lia]|].
      { eapply entries_ext; [|apply no_entries]. intros x. rewrite Hk. naive_solver. }
      cbn. rewrite Hi, Hw, !fmap_app. split; [|done]. cbn [fmap list_fmap].
      replace (lenN (flat.*2 ++ [])) with (lenN (flat ++ [])) by (by rewrite !app_nil_r, lenN_fmap). by apply table_push.
Qed.

Lemma closed_targets_ok : ∃ closed, build_closed_state_targets (length (states a)) (retained_state <$> states a) high = Some closed ∧
  ∀ s, s < n → ∃ entries, ClosedStateTargets.words_for_state closed s = Some (entries.*1, entries.*2) ∧
    entries_represent width entries (kept a kept_state s).
Proof using All.
  unfold build_closed_state_targets.
  destruct (foldM_seqN (λ k result, ∃ rows flat, table_ok (ClosedStateTargets.offsets result) rows flat ∧
      ClosedStateTargets.word_indices result = flat.*1 ∧ ClosedStateTargets.words result = flat.*2 ∧ lenN rows = k ∧
      ∀ s row, rows.[s] = Some row → state_entries s row)
    (close_state (retained_state <$> states a) high) (ClosedStateTargets.mk [0] [] []) (length (states a)))
    as (closed & Hr & rows & flat & Ht & Hi & Hw & Hlen & Hrows).
  - intros k result Hk (rows & flat & Ht & Hi & Hw & Hlen & Hrows).
    destruct (close_state_ok result k rows flat Hk Ht Hi Hw) as (result' & row & Hc & Hrow & Ht' & Hi' & Hw').
    exists result'. split; [exact Hc|]. exists (rows ++ [row]), (flat ++ row). split; [done|]. split; [done|]. split; [done|]. split; [by rewrite lenN_snoc, Hlen|].
    intros s r. rewrite nthN_snoc. destruct (N.eqb_spec s (lenN rows)) as [->|]; [intros [= <-]; by rewrite Hlen|apply Hrows].
  - exists [], []. split; [apply table_nil|]. done.
  - exists closed. split; [exact Hr|]. intros s Hs.
    destruct (proj1 (nthN_Some_lt rows s)) as [row Hrow]; [by rewrite Hlen|].
    assert (Hsmall : lenN flat < u32_modulus).
    { rewrite (tb_flat _ _ _ Ht). eapply N.le_lt_trans; [|exact Hwords]. change (n * width) with (N.of_nat (length (states a)) * width). rewrite <-Hlen.
      apply length_concat_le. intros r [i Hr']%nthN_elem_of. by apply (Hrows i). }
    destruct (table_slice _ rows flat s row Ht Hsmall Hrow) as (lo & hi & H1 & H2 & H3).
    exists row. split; [|by apply (Hrows s)]. unfold ClosedStateTargets.words_for_state. rewrite H1, H2. cbn [mbind option_bind].
    rewrite Hi, Hw, (slice_fmap fst _ _ _ _ H3), (slice_fmap snd _ _ _ _ H3). done.
Qed.

Lemma start_closure_ok : start_state a < n →
  ∃ closure, build_start_closure (start_state a) (retained_state <$> states a) high n = Some closure ∧ sparse_ok width closure ∧
    ∀ y, SparseStateSet.contains closure y = true ↔ kept a kept_state (start_state a) y.
Proof using All.
  intros Hs. destruct Hhigh as [Hl Hr]. specialize (Hr _ Hs). unfold build_start_closure.
  assert (Hnew : ∀ y, SparseStateSet.contains (SparseStateSet.new n) y = true ↔ False).
  { intros y. by rewrite SparseFacts.contains_new. }
  destruct (high.[start_state a]) as [[key|]|]; [| |done]; cbn [mbind option_bind].
  - destruct (sparse_union_key width _ key _ (sparse_ok_new n) Hr) as (closure & Hu & Hsp & Hc). exists closure. split; [exact Hu|]. split; [done|].
    intros y. rewrite Hc, Hnew. tauto.
  - pose proof (kept_alone _ Hr) as Hk. rewrite nthN_fmap. destruct (proj1 (nthN_Some_lt (states a) (start_state a)) Hs) as [row Hrow]. rewrite Hrow. cbn [fmap option_fmap option_map mbind option_bind].
    assert (Hks : kept_state (start_state a) ↔ retained_state row = true) by (unfold kept_state; rewrite Hrow; naive_solver).
    destruct (retained_state row) eqn:Er.
    + destruct (sparse_ok_insert width _ (start_state a) (sparse_ok_new n) (state_word n _ Hs)) as (closure & Hi & Hsp & Hc). rewrite Hi. cbn [mbind option_bind].
      exists closure. split; [done|]. split; [done|]. intros y. rewrite Hc, Hnew, Hk. naive_solver.
    + exists (SparseStateSet.new n). split; [done|]. split; [apply sparse_ok_new|]. intros y. rewrite Hnew, Hk. naive_solver.
Qed.

(** * Transitions over classes *)

Context (class_map : list N) (count : N).
Context (Hcount : count ≤ 256) (Hmap : ∀ b, b < 256 → ∃ c, class_map.[b] = Some c ∧ c < count).
Context (Hsets : ∀ s row set t, (states a).[s] = Some row → (set, t) ∈ NFAState.transitions row → U8Set.wf set).

Definition class_holds (set : U8Set.t) (c : N) : Prop := ∃ b, b < 256 ∧ U8Set.contains set b = true ∧ class_map.[b] = Some c.

Lemma class_set_of_ok set : U8Set.wf set →
  ∃ cs, class_set_of class_map set = Some cs ∧ U8Set.wf cs ∧ ∀ c, c ∈ U8Set.iter cs ↔ class_holds set c.
Proof using All.
  intros Hset. unfold class_set_of.
  assert (Hloop : ∀ l cs, (∀ b, b ∈ l → b < 256) → U8Set.wf cs →
    ∃ cs', foldM (λ class_set byte, class ← class_map.[byte]; Some (U8Set.insert class_set class).1) cs l = Some cs' ∧ U8Set.wf cs' ∧
      ∀ c, U8Set.contains cs' c = true ↔ U8Set.contains cs c = true ∨ ∃ b, b ∈ l ∧ class_map.[b] = Some c).
  { induction l as [|b l IH]; intros cs Hl Hcs; cbn [foldM].
    - exists cs. split; [done|]. split; [done|]. intros c. split; [by left|]. by intros [?|(b & ?%elem_of_nil & _)].
    - destruct (Hmap b (Hl b ltac:(by left))) as (c0 & Hc0 & Hlt). rewrite Hc0. cbn [mbind option_bind].
      destruct (IH (U8Set.insert cs c0).1) as (cs' & Hr & Hwf & Hc); [intros; apply Hl; by right|apply U8SetFacts.insert_wf; [lia|done]|].
      exists cs'. split; [exact Hr|]. split; [done|]. intros c. rewrite Hc, U8SetFacts.contains_insert, orb_true_iff, N.eqb_eq. setoid_rewrite elem_of_cons. split.
      + intros [[->|?]|(b' & ? & ?)]; [right; exists b; auto|by left|right; exists b'; auto].
      + intros [?|(b' & [->|?] & ?)]; [by left; right|left; left; congruence|right; by exists b']. }
  destruct (Hloop (U8Set.iter set) U8Set.empty) as (cs & Hr & Hwf & Hc); [intros b Hb; by apply elem_of_iter in Hb as [? _]|apply U8SetFacts.empty_wf|].
  exists cs. split; [exact Hr|]. split; [done|]. intros c. rewrite elem_of_iter by done. rewrite Hc, U8SetFacts.contains_empty. unfold class_holds.
  setoid_rewrite (elem_of_iter set) at 1; [|done]. split.
  - intros [_ [?|(b & [Hb Hs] & Hm)]]; [done|]. by exists b.
  - intros (b & Hb & Hs & Hm). split; [|right; by exists b]. destruct (Hmap b Hb) as (c' & ? & ?). assert (c' = c) as -> by congruence. lia.
Qed.

(** The row of a state: the classes of its sets and their targets. *)
Definition class_row (transitions : list (U8Set.t * N)) (row : list (U8Set.t * N)) : Prop :=
  (∀ c t, (∃ cs, (cs, t) ∈ row ∧ c ∈ U8Set.iter cs) ↔ ∃ set, (set, t) ∈ transitions ∧ class_holds set c) ∧
  ∀ cs t, (cs, t) ∈ row → ∃ set, (set, t) ∈ transitions.

Definition cache_ok (cache : gmap U8Set.t U8Set.t) : Prop := ∀ set cs, cache !! set = Some cs → class_set_of class_map set = Some cs.

Lemma cached_class_set_ok cache set : U8Set.wf set → cache_ok cache →
  ∃ cache' cs, cached_class_set class_map cache set = Some (cache', cs) ∧ cache_ok cache' ∧ class_set_of class_map set = Some cs.
Proof using All.
  intros Hset Hc. unfold cached_class_set. destruct (cache !! set) as [cs|] eqn:E; [exists cache, cs; auto|].
  destruct (class_set_of_ok set Hset) as (cs & Hcs & _). rewrite Hcs. cbn [mbind option_bind]. do 2 eexists. split; [done|]. split; [|done].
  intros set' cs'. destruct (decide (set' = set)) as [->|Hne]; [rewrite lookup_insert_eq|rewrite lookup_insert_ne by done; apply Hc]. by intros [= <-].
Qed.

Lemma remap_transitions_ok trs cache flat : (∀ set t, (set, t) ∈ trs → U8Set.wf set) → cache_ok cache →
  ∃ cache' row, foldM (remap_transition class_map) (cache, flat.*1, flat.*2) trs = Some (cache', (flat ++ row).*1, (flat ++ row).*2) ∧
    cache_ok cache' ∧ class_row trs row ∧ length row = length trs.
Proof using All.
  revert cache flat. induction trs as [|[set t] trs IH]; intros cache flat Hs Hc; cbn [foldM].
  - exists cache, []. rewrite app_nil_r. split; [done|]. split; [done|]. split; [|done].
    split; [intros c t; split; by intros (x & ?%elem_of_nil & _)|by intros cs t ?%elem_of_nil].
  - destruct (cached_class_set_ok cache set (Hs set t ltac:(by left)) Hc) as (cache1 & cs & Hca & Hc1 & Hcs). cbn [remap_transition]. rewrite Hca. cbn [mbind option_bind].
    destruct (IH cache1 (flat ++ [(cs, t)])) as (cache2 & row & Hr & Hc2 & Hrow & Hlen); [intros set' t' Hin; apply (Hs set' t'); by right|done|].
    rewrite !fmap_app in Hr. cbn [fmap list_fmap fst snd] in Hr. exists cache2, ((cs, t) :: row).
    rewrite !fmap_app, <-!app_assoc in *. cbn [fmap list_fmap fst snd app] in *. split; [exact Hr|]. split; [done|]. split; [|by cbn; rewrite Hlen].
    destruct (class_set_of_ok set (Hs set t ltac:(by left))) as (cs' & Hcs' & _ & Hiter). assert (cs' = cs) as -> by congruence.
    destruct Hrow as [Hrow Hback].
    split; [|intros cs0 t' [[= -> ->]|Hin]%elem_of_cons; [exists set; by left|]; destruct (Hback cs0 t' Hin) as [set' ?]; exists set'; by right].
    intros c t'. setoid_rewrite elem_of_cons. split.
    + intros (cs0 & [[= -> ->]|Hin] & Hc0); [exists set; split; [by left|by apply Hiter]|]. destruct (proj1 (Hrow c t') ltac:(by exists cs0)) as (set' & ? & ?). exists set'. auto.
    + intros (set' & [[= -> ->]|Hin] & Hh); [exists cs; split; [by left|by apply Hiter]|]. destruct (proj2 (Hrow c t') ltac:(by exists set')) as (cs0 & ? & ?). exists cs0. auto.
Qed.

Definition transition_total : nat := sum_list_with (λ row, length (NFAState.transitions row)) (states a).
Context (Htotal : N.of_nat transition_total < u32_modulus).

Lemma remapped_ok : ∃ r, build_remapped_transitions a class_map = Some r ∧
  (∀ x, SparseStateSet.bit_at (RemappedTransitions.source_word_masks r) x = true ↔ ∃ row, (states a).[x] = Some row ∧ has_transitions row = true) ∧
  words_ok width (RemappedTransitions.source_word_masks r) ∧
  ∃ flat, RemappedTransitions.class_sets r = flat.*1 ∧ RemappedTransitions.targets r = flat.*2 ∧
  ∀ s srow, (states a).[s] = Some srow → ∃ lo hi row, (RemappedTransitions.offsets r).[s] = Some lo ∧ (RemappedTransitions.offsets r).[s + 1] = Some hi ∧
    slice flat lo hi = Some row ∧ class_row (NFAState.transitions srow) row.
Proof using All.
  unfold build_remapped_transitions. destruct (mark_words_ok has_transitions (states a)) as (masks & -> & Hmok & Hmb). cbn [mbind option_bind].
  assert (Hloop : ∀ suf pre st rows flat, states a = pre ++ suf → st.1.2 = flat.*1 → st.2 = flat.*2 → cache_ok st.1.1.1 → table_ok st.1.1.2 rows flat →
      Forall2 (λ srow row, class_row (NFAState.transitions srow) row ∧ length row = length (NFAState.transitions srow)) pre rows →
    ∃ cache offsets rows flat, foldM (remap_state class_map) st suf = Some (cache, offsets, flat.*1, flat.*2) ∧ table_ok offsets rows flat ∧
      Forall2 (λ srow row, class_row (NFAState.transitions srow) row ∧ length row = length (NFAState.transitions srow)) (states a) rows).
  { induction suf as [|srow suf IH]; intros pre [[[cache offsets] cs] ts] rows flat Heq Hcs Hts Hc Ht Hf; cbn [foldM fst snd] in *.
    - rewrite app_nil_r in Heq. subst pre cs ts. by exists cache, offsets, rows, flat.
    - subst cs ts. assert (Hsrow : ∃ i, (states a).[i] = Some srow) by (apply nthN_elem_of; rewrite Heq; set_solver).
      destruct Hsrow as [i Hsrow].
      destruct (remap_transitions_ok (NFAState.transitions srow) cache flat) as (cache' & row & Hr & Hc' & Hrow & Hlen); [intros set t; by apply (Hsets i srow)|done|].
      cbn [remap_state]. rewrite Hr. cbn [mbind option_bind].
      apply (IH (pre ++ [srow]) _ (rows ++ [row]) (flat ++ row)); cbn [fst snd]; [by rewrite <-app_assoc|done|done|done| |].
      + rewrite lenN_fmap. by apply table_push.
      + apply Forall2_app; [done|]. constructor; [done|constructor]. }
  destruct (Hloop (states a) [] (∅, [0], [], []) [] []) as (cache & offsets & rows & flat & -> & Ht & Hf); try done; [apply table_nil|].
  cbn [mbind option_bind]. eexists. split; [done|]. cbn. split; [done|]. split; [done|]. exists flat. split; [done|]. split; [done|]. intros s srow Hs.
  rewrite nthN_lookup in Hs. destruct (Forall2_lookup_l _ _ _ _ _ Hf Hs) as (row & Hrow & Hcr & _). rewrite <-nthN_lookup in Hrow.
  assert (Hsmall : lenN flat < u32_modulus).
  { eapply N.le_lt_trans; [|exact Htotal]. rewrite (tb_flat _ _ _ Ht). unfold transition_total, lenN. clear -Hf.
    induction Hf as [|srow row l k [_ Hl] _ IH]; [done|]. cbn [concat sum_list_with]. rewrite length_app. lia. }
  destruct (table_slice _ rows flat s row Ht Hsmall Hrow) as (lo & hi & H1 & H2 & H3). by exists lo, hi, row.
Qed.

(** * Collecting the targets of a subset *)

Section collect.
Context (r : RemappedTransitions.t) (closed : ClosedStateTargets.t) (flat : list (U8Set.t * N)).
Context (Hmask : ∀ x, SparseStateSet.bit_at (RemappedTransitions.source_word_masks r) x = true ↔
  ∃ row, (states a).[x] = Some row ∧ has_transitions row = true).
Context (Hmask_ok : words_ok width (RemappedTransitions.source_word_masks r)).
Context (Hclass_sets : RemappedTransitions.class_sets r = flat.*1) (Htargets : RemappedTransitions.targets r = flat.*2).
Context (Hrows : ∀ s srow, (states a).[s] = Some srow → ∃ lo hi row, (RemappedTransitions.offsets r).[s] = Some lo ∧
  (RemappedTransitions.offsets r).[s + 1] = Some hi ∧ slice flat lo hi = Some row ∧ class_row (NFAState.transitions srow) row).
Context (Hentries : ∀ s, s < n → ∃ entries, ClosedStateTargets.words_for_state closed s = Some (entries.*1, entries.*2) ∧
  entries_represent width entries (kept a kept_state s)).
Context (Hinside : ∀ s row set t, (states a).[s] = Some row → (set, t) ∈ NFAState.transitions row → t < n).

(** The tables hold the family [T]; the classes used are those with a mark, and
    every class with a target is used. *)
Record targets_ok (st : class_targets) (T : N → N → Prop) : Prop := {
  to_seen_len : lenN (seen_class st) = count;
  to_len : lenN (transition_targets st) = count;
  to_nodup : NoDup (used_classes st);
  to_used : ∀ c, c ∈ used_classes st → c < count;
  to_seen : ∀ c, (seen_class st).[c] = Some true ↔ c ∈ used_classes st;
  to_sets : ∀ c, c < count → ∃ s, (transition_targets st).[c] = Some s ∧ sparse_ok width s ∧
    ∀ x, SparseStateSet.contains s x = true ↔ T c x;
  to_marked : ∀ c x, c < count → T c x → c ∈ used_classes st;
}.

Lemma targets_ok_ext st T T' : (∀ c x, T c x ↔ T' c x) → targets_ok st T → targets_ok st T'.
Proof using All.
  intros He [H1 H2 H3 H4 H5 H6 H7]. split; try done.
  - intros c Hc. destruct (H6 c Hc) as (s & ? & ? & Hs). exists s. split; [done|]. split; [done|]. intros x. by rewrite Hs.
  - intros c x Hc Hx. eapply H7; [done|]. by apply He.
Qed.

Lemma sparse_union_indexed s entries S : sparse_ok width s → entries_represent width entries S →
  ∃ s', SparseStateSet.union_indexed_words s entries.*1 entries.*2 = Some s' ∧ sparse_ok width s' ∧
    ∀ x, SparseStateSet.contains s' x = true ↔ SparseStateSet.contains s x = true ∨ S x.
Proof using All.
  intros [Hs Hl] [H1 H2]. unfold SparseStateSet.union_indexed_words. rewrite zip_fst_snd.
  destruct (SparseFacts.union_words_spec s entries Hs) as (s' & Hu & Hs' & Hl' & Hc).
  { intros i w Hin. rewrite Hl. by destruct (H1 i w Hin) as (? & ? & _). }
  exists s'. split; [exact Hu|]. split; [split; [done|congruence]|]. intros x. rewrite Hc, orb_true_iff, existsb_exists, H2. split.
  - intros [?|([i w] & Hin%list_elem_of_In & [Hi%N.eqb_eq Ht]%andb_true_iff)]; [by left|right]. cbn in Hi, Ht. exists w. by rewrite Hi.
  - intros [?|(w & Hin & Ht)]; [by left|right]. exists (x / 64, w). split; [by apply list_elem_of_In|]. by rewrite N.eqb_refl.
Qed.

Lemma collect_class_ok entries S st T c : c < count → entries_represent width entries S → (∃ x, S x) → targets_ok st T →
  ∃ st', collect_class entries.*1 entries.*2 st c = Some st' ∧ targets_ok st' (λ c' x, T c' x ∨ c' = c ∧ S x).
Proof using All.
  intros Hc He Hne [H1 H2 H3 H4 H5 H6 H7]. unfold collect_class.
  destruct (proj1 (nthN_Some_lt (seen_class st) c) ltac:(lia)) as [seen Hseen]. rewrite Hseen. cbn [mbind option_bind].
  destruct (H6 c Hc) as (s & Hs & Hsp & Hst). destruct (sparse_union_indexed s entries S Hsp He) as (s' & Hu & Hsp' & Hs').
  set (used' := if seen then used_classes st else used_classes st ++ [c]).
  set (seen' := if seen then seen_class st else alterN (λ _, true) (seen_class st) c).
  assert (Hpair : (if seen then (used_classes st, seen_class st) else (used_classes st ++ [c], alterN (λ _, true) (seen_class st) c)) = (used', seen'))
    by (unfold used', seen'; by destruct seen).
  rewrite Hpair, Hs. cbn [mbind option_bind]. rewrite Hu. cbn [mbind option_bind]. eexists. split; [done|].
  assert (Hsiff : seen = true ↔ c ∈ used_classes st) by (rewrite <-H5, Hseen; split; congruence).
  assert (Hin : ∀ x, x ∈ used' ↔ x ∈ used_classes st ∨ x = c).
  { intros x. unfold used'. destruct seen; [|by rewrite elem_of_app, list_elem_of_singleton]. split; [by left|]. intros [?| ->]; [done|by apply Hsiff]. }
  split; cbn [seen_class transition_targets used_classes].
  - unfold seen'. destruct seen; [done|by rewrite lenN_alterN].
  - by rewrite lenN_alterN.
  - unfold used'. destruct seen; [done|]. apply NoDup_app. split; [done|]. split; [|apply NoDup_singleton]. intros x Hx ->%list_elem_of_singleton. by apply Hsiff in Hx.
  - intros x [?| ->]%Hin; auto.
  - intros x. rewrite Hin, <-H5. unfold seen'. destruct seen; [split; [by left|intros [?| ->]; [done|exact Hseen]]|].
    rewrite nthN_alterN. destruct (N.eqb_spec x c) as [->|]; [rewrite Hseen; cbn; split; [by right|done]|split; [by left|by intros [?|?]]].
  - intros x Hx. rewrite nthN_alterN. destruct (N.eqb_spec x c) as [->|Hxc].
    + rewrite Hs. cbn. exists s'. split; [done|]. split; [done|]. intros y. rewrite Hs', Hst. naive_solver.
    + destruct (H6 x Hx) as (s0 & ? & ? & H0). exists s0. split; [done|]. split; [done|]. intros y. rewrite H0. naive_solver.
  - intros x y Hx [?|[-> _]]; apply Hin; [left; by eapply H7|by right].
Qed.

(** What one row adds. *)
Definition row_adds (p : U8Set.t * N) (c x : N) : Prop := c ∈ U8Set.iter p.1 ∧ kept a kept_state p.2 x.

Lemma collect_pair_ok index p st T : flat.[index] = Some p → (∀ c, c ∈ U8Set.iter p.1 → c < count) → p.2 < n → targets_ok st T →
  ∃ st', collect_transition r closed st index = Some st' ∧ targets_ok st' (λ c x, T c x ∨ row_adds p c x).
Proof using All.
  intros Hp Hc Hn Hok. unfold collect_transition. rewrite Hclass_sets, Htargets, !nthN_fmap, Hp. cbn [fmap option_fmap option_map mbind option_bind].
  destruct (Hentries p.2 Hn) as (entries & Hw & He). rewrite Hw. cbn [mbind option_bind].
  destruct entries as [|e rest] eqn:Ee.
  - cbn [fmap list_fmap]. exists st. split; [done|]. eapply targets_ok_ext; [|exact Hok]. intros c x. unfold row_adds.
    split; [by left|]. intros [?|[_ Hk]]; [done|]. by eapply entries_empty in Hk.
  - rewrite <-Ee in *. assert (Hne : ∃ x, kept a kept_state p.2 x).
    { destruct e as [i w]. destruct (proj1 He i w) as (_ & Hw64 & Hwz); [rewrite Ee; by left|].
      exists (i * 64 + trailing_zeros w). apply (proj2 He). exists w. pose proof (trailing_zeros_bit w Hwz) as Ht.
      assert (Hlt : trailing_zeros w < 64) by (apply N.nle_gt; intros Hge; by rewrite (testbit_high w 64) in Ht).
      assert ((i * 64 + trailing_zeros w) / 64 = i) as -> by lia. assert ((i * 64 + trailing_zeros w) mod 64 = trailing_zeros w) as -> by lia.
      split; [rewrite Ee; by left|done]. }
    destruct (foldM_collect targets_ok (collect_class entries.*1 entries.*2) (λ c0 c x, c = c0 ∧ kept a kept_state p.2 x) (U8Set.iter p.1) st T) as (st' & Hf & Hok').
    + intros b T1 T2. apply targets_ok_ext.
    + intros c b T1 Hin Hb. apply collect_class_ok; auto.
    + done.
    + exists st'. split; [rewrite Ee in Hf |- *; exact Hf|]. eapply targets_ok_ext; [|exact Hok']. intros c x. unfold row_adds. naive_solver.
Qed.

Definition state_adds (s c x : N) : Prop :=
  ∃ srow set t, (states a).[s] = Some srow ∧ (set, t) ∈ NFAState.transitions srow ∧ class_holds set c ∧ kept a kept_state t x.

Lemma elem_of_slice lo hi row p : slice flat lo hi = Some row → p ∈ row ↔ ∃ i, i ∈ rangeN lo hi ∧ flat.[i] = Some p.
Proof using.
  clear. unfold slice, rangeN. destruct (N.leb_spec lo hi) as [Hle|]; [|done]. destruct (N.leb_spec hi (lenN flat)) as [Hhi|]; [|done].
  cbn [andb]. intros [= <-]. rewrite list_elem_of_lookup. setoid_rewrite list_elem_of_fmap. setoid_rewrite elem_of_seqN. split.
  - intros [j Hj]. apply lookup_take_Some in Hj as [Hj Hlt]. rewrite lookup_drop in Hj. exists (lo + N.of_nat j).
    split; [exists (N.of_nat j); split; [done|lia]|]. rewrite nthN_lookup. by replace (N.to_nat (lo + N.of_nat j)) with (N.to_nat lo + j)%nat by lia.
  - intros (i & (k & -> & Hk) & Hi). exists (N.to_nat k). apply lookup_take_Some. rewrite lookup_drop, nthN_lookup in *.
    split; [|lia]. by replace (N.to_nat lo + N.to_nat k)%nat with (N.to_nat (lo + k)) by lia.
Qed.

Lemma slice_some lo hi row i : slice flat lo hi = Some row → i ∈ rangeN lo hi → ∃ p, flat.[i] = Some p.
Proof using.
  clear. unfold slice, rangeN. destruct (N.leb_spec lo hi) as [Hle|]; [|done]. destruct (N.leb_spec hi (lenN flat)) as [Hhi|]; [|done].
  intros _ (k & -> & Hk%elem_of_seqN)%list_elem_of_fmap. apply nthN_Some_lt. lia.
Qed.

Lemma collect_source_ok i b st T srow : (states a).[i * 64 + b] = Some srow → targets_ok st T →
  ∃ st', collect_source r closed i st b = Some st' ∧ targets_ok st' (λ c x, T c x ∨ state_adds (i * 64 + b) c x).
Proof using All.
  intros Hs Hok. destruct (Hrows _ srow Hs) as (lo & hi & row & Hlo & Hhi & Hsl & Hrow & Hback). unfold collect_source. rewrite Hlo, Hhi. cbn [mbind option_bind].
  destruct (foldM_collect targets_ok (collect_transition r closed) (λ i c x, ∃ p, flat.[i] = Some p ∧ row_adds p c x) (rangeN lo hi) st T) as (st' & Hf & Hok').
  - intros b0 T1 T2. apply targets_ok_ext.
  - intros index b0 T1 Hin Hb. destruct (slice_some lo hi row index Hsl Hin) as [p Hp].
    assert (Hprow : p ∈ row) by (apply (elem_of_slice lo hi row p Hsl); by exists index). destruct p as [cs t].
    destruct (collect_pair_ok index (cs, t) b0 T1 Hp) as (st1 & H1 & Hok1); cbn [fst snd].
    + intros c Hc. destruct (proj1 (Hrow c t) ltac:(by exists cs)) as (set & _ & byte & Hb256 & _ & Hm).
      destruct (Hmap byte Hb256) as (c' & ? & ?). by assert (c' = c) as <- by congruence.
    + destruct (Hback cs t Hprow) as [set Hset]. by eapply Hinside.
    + done.
    + exists st1. split; [exact H1|]. eapply targets_ok_ext; [|exact Hok1]. intros c x. cbn beta.
      assert (Heq : row_adds (cs, t) c x ↔ ∃ p, flat.[index] = Some p ∧ row_adds p c x) by (rewrite Hp; naive_solver). by rewrite Heq.
  - done.
  - exists st'. split; [exact Hf|]. eapply targets_ok_ext; [|exact Hok']. intros c x. cbn beta.
    assert (Heq : (∃ y, y ∈ rangeN lo hi ∧ ∃ p, flat.[y] = Some p ∧ row_adds p c x) ↔ state_adds (i * 64 + b) c x); [|by rewrite Heq].
    unfold state_adds, row_adds. split.
    + intros (y & Hy & [cs t] & Hp & Hc & Hk). cbn [fst snd] in *. assert (Hin : (cs, t) ∈ row) by (apply (elem_of_slice lo hi row _ Hsl); by exists y).
      destruct (proj1 (Hrow c t) ltac:(by exists cs)) as (set & Hset & Hh). by exists srow, set, t.
    + intros (srow' & set & t & Hs' & Hset & Hh & Hk). assert (srow' = srow) as -> by congruence.
      destruct (proj2 (Hrow c t) ltac:(by exists set)) as (cs & Hin & Hc). apply (elem_of_slice lo hi row _ Hsl) in Hin as (y & Hy & Hp). exists y. split; [done|]. by exists (cs, t).
Qed.

Lemma collect_ok key S st T : represents width key S → targets_ok st T →
  ∃ st', collect_closed_transition_targets r closed key st = Some st' ∧ targets_ok st' (λ c x, T c x ∨ ∃ s, S s ∧ state_adds s c x).
Proof using All.
  intros Hkey Hok. destruct (represents_entries width key S Hkey) as [Hw HS].
  destruct (foldM_collect targets_ok (collect_word r closed)
    (λ e c x, ∃ b, b < 64 ∧ N.testbit e.2 b = true ∧ state_adds (e.1 * 64 + b) c x) (CompressedStateSet.words key) st T) as (st' & Hf & Hok').
  - intros b T1 T2. apply targets_ok_ext.
  - intros [i w] st1 T1 Hin Hok1. destruct (Hw i w Hin) as (Hi & Hw64 & _). cbn [collect_word fst snd]. destruct Hmask_ok as [Hml Hmw].
    destruct (proj1 (nthN_Some_lt (RemappedTransitions.source_word_masks r) i)) as [m Hm]; [by rewrite Hml|]. rewrite Hm. cbn [mbind option_bind].
    assert (Hland : N.land w m < 2 ^ 64) by by apply land_bound_l. rewrite (pop_bits_spec 64 64) by (done || by apply (count_ones_le 64)).
    assert (Hbit : ∀ b, b < 64 → N.testbit m b = SparseStateSet.bit_at (RemappedTransitions.source_word_masks r) (i * 64 + b)).
    { intros b Hb. unfold SparseStateSet.bit_at. assert ((i * 64 + b) / 64 = i) as -> by lia. assert ((i * 64 + b) mod 64 = b) as -> by lia. by rewrite Hm. }
    destruct (foldM_collect targets_ok (collect_source r closed i) (λ b c x, state_adds (i * 64 + b) c x) (word_bits 64 (N.land w m)) st1 T1) as (st2 & Hf2 & Hok2).
    + intros b T2 T3. apply targets_ok_ext.
    + intros b st2 T2 [Hb Ht]%elem_of_word_bits Hok2. change (N.of_nat 64) with 64 in Hb. rewrite N.land_spec, andb_true_iff in Ht. destruct Ht as [_ Ht].
      rewrite (Hbit b Hb) in Ht. apply Hmask in Ht as (srow & Hs & _). by apply (collect_source_ok i b st2 T2 srow).
    + done.
    + exists st2. split; [exact Hf2|]. eapply targets_ok_ext; [|exact Hok2]. intros c x. cbn beta.
      assert (Heq : (∃ y, y ∈ word_bits 64 (N.land w m) ∧ state_adds (i * 64 + y) c x) ↔ ∃ b, b < 64 ∧ N.testbit w b = true ∧ state_adds (i * 64 + b) c x); [|by rewrite Heq].
      setoid_rewrite elem_of_word_bits. change (N.of_nat 64) with 64. split.
      * intros (b & [Hb Ht] & Ha). rewrite N.land_spec, andb_true_iff in Ht. exists b. split; [done|]. by split; [apply Ht|].
      * intros (b & Hb & Ht & Ha). exists b. split; [|done]. split; [done|]. rewrite N.land_spec, Ht, (Hbit b Hb). apply Hmask.
        destruct Ha as (srow & set & t & Hs & Hin' & _). exists srow. split; [done|]. unfold has_transitions. by destruct (NFAState.transitions srow); [apply elem_of_nil in Hin'|].
  - done.
  - exists st'. split; [exact Hf|]. eapply targets_ok_ext; [|exact Hok']. intros c x. cbn beta.
    assert (Heq : (∃ y, y ∈ CompressedStateSet.words key ∧ ∃ b, b < 64 ∧ N.testbit y.2 b = true ∧ state_adds (y.1 * 64 + b) c x) ↔ ∃ s, S s ∧ state_adds s c x); [|by rewrite Heq].
    split.
    + intros ([i w] & Hin & b & Hb & Ht & Ha). cbn [fst snd] in *. exists (i * 64 + b). split; [|done]. apply HS. exists w.
      assert ((i * 64 + b) / 64 = i) as -> by lia. assert ((i * 64 + b) mod 64 = b) as -> by lia. done.
    + intros (s & (w & Hin & Ht)%HS & Ha). exists (s / 64, w). split; [done|]. exists (s mod 64). cbn [fst snd]. split; [lia|]. split; [done|].
      by replace (s / 64 * 64 + s mod 64) with s by lia.
Qed.

(** ** The tables emptied *)

Lemma reset_ok st T : targets_ok st T → ∃ st', reset_classes st = Some st' ∧ targets_ok st' (λ _ _, False) ∧ used_classes st' = [].
Proof using All.
  intros [H1 H2 H3 H4 H5 H6 H7]. unfold reset_classes.
  assert (Hloop : ∀ suf pre st0, used_classes st = pre ++ suf → used_classes st0 = used_classes st →
      lenN (seen_class st0) = count → lenN (transition_targets st0) = count → (∀ c, (seen_class st0).[c] = Some true ↔ c ∈ suf) →
      (∀ c, c < count → ∃ s, (transition_targets st0).[c] = Some s ∧ sparse_ok width s ∧
        ∀ x, SparseStateSet.contains s x = true → c ∈ suf) →
    ∃ st', foldM reset_class st0 suf = Some st' ∧ lenN (seen_class st') = count ∧ lenN (transition_targets st') = count ∧
      (∀ c, (seen_class st').[c] ≠ Some true) ∧
      ∀ c, c < count → ∃ s, (transition_targets st').[c] = Some s ∧ sparse_ok width s ∧ ∀ x, SparseStateSet.contains s x ≠ true).
  { induction suf as [|c suf IH]; intros pre st0 Heq Hu Hl1 Hl2 Hs Ht; cbn [foldM].
    - exists st0. split; [done|]. split; [done|]. split; [done|]. split; [intros c Hc; by apply Hs, elem_of_nil in Hc|].
      intros c Hc. destruct (Ht c Hc) as (s & ? & ? & Hno). exists s. split; [done|]. split; [done|]. intros x Hx. by apply Hno, elem_of_nil in Hx.
    - assert (Hc : c < count) by (apply H4; rewrite Heq; set_solver). unfold reset_class at 2. rewrite (proj2 (Hs c) ltac:(by left)). cbn [mbind option_bind].
      destruct (Ht c Hc) as (s & Hts & Hsp & _). rewrite Hts. cbn [mbind option_bind].
      destruct (sparse_ok_clear width s Hsp) as (s' & -> & Hsp' & Hno). cbn [mbind option_bind].
      assert (Hnc : c ∉ suf). { rewrite Heq in H3. apply NoDup_app in H3 as (_ & _ & H3). by apply NoDup_cons in H3 as [? _]. }
      apply (IH (pre ++ [c])); cbn [used_classes seen_class transition_targets]; [by rewrite <-app_assoc|done|by rewrite lenN_alterN|by rewrite lenN_alterN| |].
      + intros x. rewrite nthN_alterN. destruct (N.eqb_spec x c) as [->|Hne].
        * rewrite (proj2 (Hs c) ltac:(by left)). cbn. split; [done|]. intros ?. done.
        * rewrite Hs, elem_of_cons. naive_solver.
      + intros x Hx. rewrite nthN_alterN. destruct (N.eqb_spec x c) as [->|Hne].
        * rewrite Hts. cbn. exists s'. split; [done|]. split; [done|]. intros y. by rewrite Hno.
        * destruct (Ht x Hx) as (s0 & ? & ? & H0). exists s0. split; [done|]. split; [done|]. intros y Hy. specialize (H0 y Hy). by apply elem_of_cons in H0 as [?|?]. }
  destruct (Hloop (used_classes st) [] st eq_refl eq_refl H1 H2 H5) as (st' & -> & G1 & G2 & G3 & G4).
  { intros c Hc. destruct (H6 c Hc) as (s & ? & ? & Hs). exists s. split; [done|]. split; [done|]. intros x Hx%Hs. by eapply H7. }
  cbn [mbind option_bind]. eexists. split; [done|]. split; [|done]. split; cbn [used_classes seen_class transition_targets]; try done.
  - constructor.
  - by intros c ?%elem_of_nil.
  - intros c. rewrite elem_of_nil. split; [apply G3|done].
  - intros c Hc. destruct (G4 c Hc) as (s & ? & ? & Hno). exists s. split; [done|]. split; [done|]. intros x. split; [by intros ?%Hno|done].
Qed.
End collect.
End parts.
