(* ===== verification/LexDetRun.v ===== *)
(** Subset construction: the groups of a subset, the worklist over subsets, runs
    of the result, and automata that are deterministic already. *)

From stdpp Require Import relations.
From S2P Require Import Prelude Bits U8Set BitSet StateSet CharTransitions LexDfa LexNfa LexNfaClasses LexNfaScc LexReach LexReachCorrect LexDeterminize LexEpsilon LexDetParts.

Import Nfa.

Section metadata.
Context (a : Nfa.t) (groups : N) (reachable : list BitSet.t).
Let n := num_states a.
Let width := set_width n.
Context (Hgroups : ∀ s row g, (states a).[s] = Some row → g ∈ NFAState.finalizers row → g < groups).
Context (Hreach : reach_result a groups reachable).

(** The bits hold exactly the groups with [P]. *)
Definition bits_for (bits : BitSet.t) (P : GroupId → Prop) : Prop :=
  BitSet.wf bits ∧ BitSet.len bits = groups ∧ ∀ g, BitSet.get bits g = true ↔ P g.

(** The groups accepted in, and reachable from, a set of states. *)
Definition final_in (S : N → Prop) (g : GroupId) : Prop := ∃ s row, S s ∧ (states a).[s] = Some row ∧ g ∈ NFAState.finalizers row.
Definition future_in (S : N → Prop) (g : GroupId) : Prop := ∃ s, S s ∧ reaches_group a s g.

Lemma bits_for_ext bits P Q : (∀ g, P g ↔ Q g) → bits_for bits P → bits_for bits Q.
Proof using All. intros H (H1 & H2 & H3). split; [done|]. split; [done|]. intros g. by rewrite H3. Qed.

Lemma new_bits_for : bits_for (BitSet.new groups) (λ _, False).
Proof using. split; [apply BitSetFacts.new_wf|]. split; [done|]. intros g. by rewrite BitSetFacts.get_new. Qed.

Lemma set_groups_for bits P row s : (states a).[s] = Some row → bits_for bits P →
  bits_for (foldl BitSet.set bits (group_list (NFAState.finalizers row))) (λ g, P g ∨ g ∈ NFAState.finalizers row).
Proof using All.
  intros Hs (Hwf & Hl & Hg). destruct (BitSetFacts.foldl_set_spec bits (group_list (NFAState.finalizers row)) Hwf) as (Hwf' & Hl' & Hg').
  split; [done|]. split; [congruence|]. intros g. rewrite Hg', orb_true_iff, andb_true_iff, bool_decide_eq_true, elem_of_group_list, Hg, N.ltb_lt, Hl. split.
  - intros [[? _]|?]; [by right|by left].
  - intros [?|Hin]; [by right|left]. split; [done|]. by eapply Hgroups.
Qed.

Lemma union_for bits other P Q : bits_for bits P → bits_for other Q → bits_for (BitSet.union_with bits other) (λ g, P g ∨ Q g).
Proof using All.
  intros (Hw & Hl & Hg) (Hw' & Hl' & Hg'). destruct (BitSetFacts.union_spec bits other Hw Hw') as [Hwf Hget]; [lia|].
  split; [exact Hwf|]. split; [exact Hl|]. intros g. unfold BitSet.union_with. rewrite Hget, orb_true_iff, Hg, Hg'. done.
Qed.

Lemma single_bits_for flag : groups = 1 → bits_for (single_group_bits flag) (λ g, flag = true ∧ g = 0).
Proof using All.
  intros Hone. unfold single_group_bits. destruct flag.
  - destruct (BitSetFacts.set_spec (BitSet.new 1) 0 (BitSetFacts.new_wf 1)) as (H1 & H2 & H3). split; [done|]. split; [rewrite H2, Hone; done|].
    intros g. rewrite H3, BitSetFacts.get_new, orb_false_r, andb_true_r, N.eqb_eq. naive_solver.
  - split; [apply BitSetFacts.new_wf|]. split; [by rewrite Hone|]. intros g. rewrite BitSetFacts.get_new. naive_solver.
Qed.

(** ** One group *)

Lemma subset_flags_ok entries fin fut (hf hu : bool) : (∀ i w, (i, w) ∈ entries → i < width ∧ w < 2 ^ 64) → words_ok width fin → words_ok width fut →
  ∃ f u, subset_flags entries fin fut hf hu = Some (f, u) ∧
    (f = true ↔ hf = true ∨ ∃ i w b, (i, w) ∈ entries ∧ b < 64 ∧ N.testbit w b = true ∧ SparseStateSet.bit_at fin (i * 64 + b) = true) ∧
    (u = true ↔ hu = true ∨ ∃ i w b, (i, w) ∈ entries ∧ b < 64 ∧ N.testbit w b = true ∧ SparseStateSet.bit_at fut (i * 64 + b) = true).
Proof using All.
  intros He Hfin Hfut. revert hf hu. induction entries as [|[i w] entries IH]; intros hf hu; cbn [subset_flags].
  - exists hf, hu. split; [done|]. split; (split; [by left|by intros [?|(i & w & b & ?%elem_of_nil & _)]]).
  - destruct (He i w ltac:(by left)) as [Hi Hw].
    assert (Hword : ∀ ws, words_ok width ws → ∃ m, ws.[i] = Some m ∧
      (negb (N.land w m =? 0) = true ↔ ∃ b, b < 64 ∧ N.testbit w b = true ∧ SparseStateSet.bit_at ws (i * 64 + b) = true)).
    { intros ws [Hl Hb]. destruct (proj1 (nthN_Some_lt ws i) ltac:(lia)) as [m Hm]. exists m. split; [done|].
      rewrite negb_true_iff, N.eqb_neq. assert (Hbit : ∀ b, b < 64 → SparseStateSet.bit_at ws (i * 64 + b) = N.testbit m b).
      { intros b Hb64. unfold SparseStateSet.bit_at. destruct (BitSet.BitSetFacts.div_64_unique i b Hb64) as [-> ->]. by rewrite Hm. }
      split.
      - intros Hnz. exists (trailing_zeros (N.land w m)). pose proof (trailing_zeros_bit _ Hnz) as Ht.
        assert (Hlt : trailing_zeros (N.land w m) < 64).
        { apply N.nle_gt. intros Hge. rewrite (testbit_high (N.land w m) 64) in Ht; [done|by apply land_bound_l|done]. }
        rewrite N.land_spec, andb_true_iff in Ht. split; [done|]. split; [apply Ht|]. rewrite Hbit by done. apply Ht.
      - intros (b & Hb64 & Ht & Hm') Hz. rewrite Hbit in Hm' by done. assert (N.testbit (N.land w m) b = true) as Hc by (by rewrite N.land_spec, Ht, Hm').
        by rewrite Hz, N.bits_0 in Hc. }
    destruct (Hword fin Hfin) as (mf & -> & Hmf). destruct (Hword fut Hfut) as (mu & -> & Hmu). cbn [mbind option_bind].
    set (hf' := hf || negb (N.land w mf =? 0)). set (hu' := hu || negb (N.land w mu =? 0)).
    assert (Hstep : ∀ (h m : bool) ws, (m = true ↔ ∃ b, b < 64 ∧ N.testbit w b = true ∧ SparseStateSet.bit_at ws (i * 64 + b) = true) →
      ∀ P : Prop, (P ↔ h || m = true ∨ ∃ i w b, (i, w) ∈ entries ∧ b < 64 ∧ N.testbit w b = true ∧ SparseStateSet.bit_at ws (i * 64 + b) = true) →
      (P ↔ h = true ∨ ∃ i' w' b, (i', w') ∈ (i, w) :: entries ∧ b < 64 ∧ N.testbit w' b = true ∧ SparseStateSet.bit_at ws (i' * 64 + b) = true)).
    { intros h m ws Hm P ->. rewrite orb_true_iff, Hm. setoid_rewrite elem_of_cons. split.
      - intros [[?|(b & ?)]|(i' & w' & b & ? & ?)]; [by left|right; exists i, w, b; auto|right; exists i', w', b; auto].
      - intros [?|(i' & w' & b & [[= -> ->]|?] & ?)]; [by left; left|left; right; by exists b|right; by exists i', w', b]. }
    destruct (hf' && hu') eqn:Eb.
    + apply andb_true_iff in Eb as [Ef Eu]. exists hf', hu'. split; [done|].
      split; [apply (Hstep hf _ fin Hmf)|apply (Hstep hu _ fut Hmu)]; fold hf' hu'; rewrite ?Ef, ?Eu; (split; [by left|done]).
    + destruct (IH ltac:(intros; apply He; by right) hf' hu') as (f & u & Hr & Hf & Hu). exists f, u. split; [exact Hr|].
      split; [apply (Hstep hf _ fin Hmf)|apply (Hstep hu _ fut Hmu)]; [exact Hf|exact Hu].
Qed.

(** A bit of a mask and an entry of a key meet in a state of the set. *)
Lemma mask_meets key S ws (P : N → Prop) : represents width key S → (∀ x, SparseStateSet.bit_at ws x = true ↔ P x) →
  (∃ i w b, (i, w) ∈ CompressedStateSet.words key ∧ b < 64 ∧ N.testbit w b = true ∧ SparseStateSet.bit_at ws (i * 64 + b) = true) ↔
  ∃ s, S s ∧ P s.
Proof using All.
  intros Hkey HP. destruct (represents_entries width key S Hkey) as [_ HS]. split.
  - intros (i & w & b & Hin & Hb & Ht & Hm). exists (i * 64 + b). split; [|by apply HP]. apply HS. exists w.
    destruct (BitSet.BitSetFacts.div_64_unique i b Hb) as [-> ->]. done.
  - intros (s & (w & Hin & Ht)%HS & Hs). exists (s / 64), w, (s mod 64). split; [done|]. split; [by apply N.mod_lt|]. split; [done|].
    apply HP. by rewrite N.mul_comm, <-N.div_mod'.
Qed.

(** Both words of metadata of a set of states. *)
Definition metadata_of (S : N → Prop) (bits : BitSet.t * BitSet.t) : Prop :=
  bits_for bits.1 (final_in S) ∧ bits_for bits.2 (future_in S).

Lemma many_metadata key S : represents width key S → (∀ s, S s → s < n) →
  ∃ bits, foldM (subset_state_bits a reachable) (BitSet.new groups, BitSet.new groups) (StateSet.iter key) = Some bits ∧ metadata_of S bits.
Proof using All.
  intros Hkey HS. pose proof (represents_iter width key S Hkey) as Hiter.
  assert (Hloop : ∀ l st P Q, (∀ s, s ∈ l → s < n) → bits_for st.1 P → bits_for st.2 Q →
    ∃ st', foldM (subset_state_bits a reachable) st l = Some st' ∧
      bits_for st'.1 (λ g, P g ∨ final_in (λ s, s ∈ l) g) ∧ bits_for st'.2 (λ g, Q g ∨ future_in (λ s, s ∈ l) g)).
  { induction l as [|s l IH]; intros [f u] P Q Hl Hf Hu; cbn [foldM fst snd] in *.
    - exists (f, u). split; [done|]. split; (eapply bits_for_ext; [|eassumption]); intros g; (split; [by left|]).
      + by intros [?|(s & row & ?%elem_of_nil & _)].
      + by intros [?|(s & ?%elem_of_nil & _)].
    - destruct (proj1 (nthN_Some_lt (states a) s) (Hl s ltac:(by left))) as [row Hrow].
      destruct Hreach as [Hrl Hrb]. destruct (proj1 (nthN_Some_lt reachable s)) as [bits Hbits]; [rewrite Hrl; apply Hl; by left|].
      unfold subset_state_bits at 2. rewrite Hrow, Hbits. cbn [mbind option_bind].
      destruct (IH (foldl BitSet.set f (group_list (NFAState.finalizers row)), BitSet.union_with u bits)
        (λ g, P g ∨ g ∈ NFAState.finalizers row) (λ g, Q g ∨ reaches_group a s g)) as (st' & Hr & Hf' & Hu').
      + intros; apply Hl; by right.
      + by apply (set_groups_for f P row s).
      + apply union_for; [done|]. by apply Hrb.
      + exists st'. split; [exact Hr|]. split; (eapply bits_for_ext; [|eassumption]); intros g; cbn beta.
        * unfold final_in. setoid_rewrite elem_of_cons. split.
          -- intros [[?|?]|(t & r & Ht & ?)]; [by left|right; exists s, row; auto|right; exists t, r; auto].
          -- intros [?|(t & r & [->|Ht] & Hr' & ?)]; [by left; left|left; right; by assert (r = row) as <- by congruence|right; by exists t, r].
        * unfold future_in. setoid_rewrite elem_of_cons. split.
          -- intros [[?|?]|(t & Ht & ?)]; [by left|right; exists s; auto|right; exists t; auto].
          -- intros [?|(t & [->|Ht] & ?)]; [by left; left|by left; right|right; by exists t]. }
  destruct (Hloop (StateSet.iter key) (BitSet.new groups, BitSet.new groups) _ _ ltac:(intros s Hs; by apply HS, Hiter) new_bits_for new_bits_for) as (st & Hr & Hf & Hu).
  exists st. split; [exact Hr|]. split; (eapply bits_for_ext; [|eassumption]); intros g; unfold final_in, future_in; setoid_rewrite Hiter; naive_solver.
Qed.

Lemma single_metadata key S fin fut : groups = 1 → represents width key S → (∀ s, S s → s < n) →
  mark_words has_groups (states a) = Some fin → mark_words (λ groups, BitSet.contains groups 0) reachable = Some fut →
  ∃ f u, subset_flags (CompressedStateSet.words key) fin fut false false = Some (f, u) ∧ metadata_of S (single_group_bits f, single_group_bits u).
Proof using All.
  intros Hone Hkey HS Hfin Hfut.
  destruct (mark_words_ok has_groups (states a)) as (ws & Hws & Hok & Hb). assert (ws = fin) as -> by congruence.
  destruct (mark_words_ok (λ groups, BitSet.contains groups 0) reachable) as (ws & Hws' & Hok' & Hb'). assert (ws = fut) as -> by congruence.
  destruct Hreach as [Hrl Hrb]. rewrite Hrl in Hok'.
  destruct (subset_flags_ok (CompressedStateSet.words key) fin fut false false) as (f & u & Hr & Hf & Hu); [|done|done|].
  { intros i w Hin. by destruct (proj1 (represents_entries width key S Hkey) i w Hin) as (? & ? & _). }
  exists f, u. split; [exact Hr|]. rewrite (mask_meets key S fin _ Hkey Hb) in Hf. rewrite (mask_meets key S fut _ Hkey Hb') in Hu.
  split; (eapply bits_for_ext; [|by apply single_bits_for]); intros g; cbn beta.
  - rewrite Hf. split.
    + intros [[?|(s & Hs & row & Hrow & Hg)] ->]; [done|]. exists s, row. split; [done|]. split; [done|].
      unfold has_groups in Hg. apply negb_true_iff, bool_decide_eq_false in Hg. destruct (set_choose_L _ Hg) as [g Hin].
      pose proof (Hgroups s row g Hrow Hin). by replace 0 with g by lia.
    + intros (s & row & Hs & Hrow & Hg). pose proof (Hgroups s row g Hrow Hg). assert (g = 0) as -> by lia. split; [|done]. right. exists s. split; [done|]. exists row. split; [done|].
      unfold has_groups. apply negb_true_iff, bool_decide_eq_false. set_solver.
  - rewrite Hu. split.
    + intros [[?|(s & Hs & bits & Hbits & Hg)] ->]; [done|]. exists s. split; [done|]. destruct (Hrb s bits Hbits) as (_ & _ & Hget). by apply Hget.
    + intros (s & Hs & Hg). assert (g = 0) as ->. { destruct Hg as (t & row & _ & Hrow & Hin). pose proof (Hgroups t row g Hrow Hin). lia. }
      split; [|done]. right. exists s. split; [done|]. destruct (proj1 (nthN_Some_lt reachable s)) as [bits Hbits]; [rewrite Hrl; by apply HS|].
      exists bits. split; [done|]. by apply (Hrb s bits Hbits).
Qed.

(** The groups of a subset are those of its states. *)
Lemma metadata_ok : ∃ fin fut,
  (if groups =? 1 then Some <$> mark_words has_groups (states a) else Some None) = Some fin ∧
  (if groups =? 1 then Some <$> mark_words (λ groups, BitSet.contains groups 0) reachable else Some None) = Some fut ∧
  ∀ key S, represents width key S → (∀ s, S s → s < n) →
    ∃ bits, compute_subset_metadata a key groups reachable fin fut = Some bits ∧ metadata_of S bits.
Proof using All.
  unfold compute_subset_metadata. destruct (N.eqb_spec groups 1) as [Hone|Hne].
  - destruct (mark_words_ok has_groups (states a)) as (fin & Hfin & _). rewrite Hfin.
    destruct (mark_words_ok (λ groups, BitSet.contains groups 0) reachable) as (fut & Hfut & _). rewrite Hfut.
    exists (Some fin), (Some fut). split; [done|]. split; [done|]. intros key S Hkey HS. cbn [mbind option_bind].
    destruct (single_metadata key S fin fut Hone Hkey HS Hfin Hfut) as (f & u & -> & Hm). cbn [mbind option_bind]. by eexists.
  - exists None, None. split; [done|]. split; [done|]. intros key S. apply many_metadata.
Qed.
End metadata.

Lemma nthN_grow {A} (l k : list A) i x : l.[i] = Some x → (l ++ k).[i] = Some x.
Proof. intros H. rewrite nthN_app_l; [done|by eapply nthN_lt]. Qed.

Lemma elem_of_alterN {A} (f : A → A) l i x : x ∈ alterN f l i → x ∈ l ∨ ∃ y, x = f y ∧ y ∈ l.
Proof.
  intros [j Hj]%nthN_elem_of. rewrite nthN_alterN in Hj. destruct (j =? i); [|left; apply nthN_elem_of; by exists j].
  destruct (l.[j]) as [y|] eqn:Ey; [|done]. injection Hj as <-. right. exists y. split; [done|]. apply nthN_elem_of. by exists j.
Qed.

Lemma elem_of_sort_by_index l e : e ∈ sort_by_index l ↔ e ∈ l.
Proof. unfold sort_by_index. by rewrite merge_sort_Permutation. Qed.

Section subsets.
Context (a : Nfa.t) (class_map : list N) (count groups : N).
#[local] Abbreviation n := (Nfa.num_states a).
#[local] Abbreviation width := (set_width n).
Context (metadata : CompressedStateSet.t → option (BitSet.t * BitSet.t)).
Context (expand : bool) (class_members : list (list N)) (letters : N → list N).
Context (remapped : RemappedTransitions.t) (closed : ClosedStateTargets.t).

(** The states reached from [S] by a byte of class [c]. *)
Definition class_step (c : N) (S : N → Prop) (x : N) : Prop := ∃ s, S s ∧ state_adds a class_map s c x.
Definition inside (S : N → Prop) : Prop := ∀ s, S s → s < n.

Context (Hwidth : width ≤ u32_modulus) (Hcount : count ≤ 256).
Context (Hmeta : ∀ key S, represents width key S → inside S → is_Some (metadata key)).
Context (Hletters : ∀ c, c < count → (if expand then class_members.[c] else Some [c mod 256]) = Some (letters c)).
Context (Hnodup : ∀ c, c < count → NoDup (letters c)).
Context (Hdisjoint : ∀ c c' l, c < count → c' < count → l ∈ letters c → l ∈ letters c' → c = c').
Context (Hinside : ∀ s c x, state_adds a class_map s c x → x < n).
Context (Hcollect : ∀ key S st, represents width key S → targets_ok a count st (λ _ _, False) →
  ∃ st', collect_closed_transition_targets remapped closed key st = Some st' ∧ targets_ok a count st' (λ c x, class_step c S x)).
Context (Hreset : ∀ st T, targets_ok a count st T → ∃ st', reset_classes st = Some st' ∧ targets_ok a count st' (λ _ _, False) ∧ used_classes st' = []).

Lemma class_step_inside c S : inside (class_step c S).
Proof using All. intros x (s & _ & H). by eapply Hinside. Qed.

(** A number of the set [T]. *)
Definition names (subs : list CompressedStateSet.t) (T : N → Prop) (q : N) : Prop :=
  ∃ j key, subs.[j] = Some key ∧ represents width key T ∧ q = as_u32 j.

(** The entries of the classes [cs] of the set [S]. *)
Definition entries_ok subs S (cs : list N) (entries : list (N * N)) : Prop :=
  (∀ l q, (l, q) ∈ entries → ∃ c, c ∈ cs ∧ l ∈ letters c ∧ names subs (class_step c S) q ∧ ∃ x, class_step c S x) ∧
  ∀ c x, c ∈ cs → class_step c S x → ∃ q, names subs (class_step c S) q ∧ ∀ l, l ∈ letters c → (l, q) ∈ entries.

(** The row of the set [S] is complete. *)
Definition row_done subs S (row : CharTransitions.t N) : Prop :=
  CharTransitions.sorted row ∧ ∃ cs, (∀ c, c ∈ cs → c < count) ∧ (∀ c x, c < count → class_step c S x → c ∈ cs) ∧
  entries_ok subs S cs (CharTransitions.entries row).

Lemma names_grow subs new T q : names subs T q → names (subs ++ new) T q.
Proof using All. intros (j & key & Hj & H). exists j, key. split; [by apply nthN_grow|done]. Qed.

Lemma entries_grow subs new S cs entries : entries_ok subs S cs entries → entries_ok (subs ++ new) S cs entries.
Proof using All.
  intros [H1 H2]. split.
  - intros l q Hin. destruct (H1 l q Hin) as (c & ? & ? & ? & ?). exists c. split; [done|]. split; [done|]. split; [by apply names_grow|done].
  - intros c x Hc Hx. destruct (H2 c x Hc Hx) as (q & Hq & Hl). exists q. split; [by apply names_grow|done].
Qed.

Lemma row_done_grow subs new S row : row_done subs S row → row_done (subs ++ new) S row.
Proof using All. intros (Hs & cs & H1 & H2 & H3). split; [done|]. exists cs. split; [done|]. split; [done|]. by apply entries_grow. Qed.

(** Every key stands for a set; the rows are done but for the states left. The
    numbers are the positions as long as they fit in 32 bits. *)
Record builder_ok (pending : N → Prop) (b : subset_builder) : Prop := {
  bo_shape : LexDFA.num_groups (dfa b) = groups ∧ ∀ row, row ∈ LexDFA.states (dfa b) → LexState.epsilon_transitions row = [];
  bo_len : lenN (LexDFA.states (dfa b)) = lenN (subsets b);
  bo_nodup : NoDup (subsets b);
  bo_map : ∀ key q, subset_map b !! key = Some q ↔ ∃ j, (subsets b).[j] = Some key ∧ q = as_u32 j;
  bo_keys : ∀ key, key ∈ subsets b → ∃ S, represents width key S ∧ inside S;
  bo_work : ∀ q, q ∈ worklist b → q < lenN (subsets b);
  bo_meta : lenN (subsets b) ≤ u32_modulus → ∀ j key row, (subsets b).[j] = Some key → (LexDFA.states (dfa b)).[j] = Some row →
    metadata key = Some (LexState.finalizers row, LexState.possible_future_group_ids row);
  bo_rows : lenN (subsets b) ≤ u32_modulus → ∀ j key row, (subsets b).[j] = Some key → (LexDFA.states (dfa b)).[j] = Some row →
    j ∈ worklist b ∨ pending j ∨ ∃ S, represents width key S ∧ row_done (subsets b) S (LexState.transitions row);
}.

(** Every new set is put on the worklist. *)
Definition grew (b b' : subset_builder) : Prop :=
  ∃ new, subsets b' = subsets b ++ new ∧ length (worklist b') = (length (worklist b) + length new)%nat.

Lemma grew_refl b : grew b b.
Proof using All. exists []. rewrite app_nil_r. simpl. split; [done|lia]. Qed.

Lemma grew_trans b1 b2 b3 : grew b1 b2 → grew b2 b3 → grew b1 b3.
Proof using All.
  intros (new1 & E1 & L1) (new2 & E2 & L2). exists (new1 ++ new2). split; [by rewrite E2, E1, app_assoc|]. rewrite length_app. lia.
Qed.

(** ** The number of sets *)

Definition members_below (key : CompressedStateSet.t) : list N := filter (λ x, x ∈ StateSet.iter key) (seqN (N.to_nat n)).

Lemma subsets_bound subs : NoDup subs → (∀ key, key ∈ subs → ∃ S, represents width key S ∧ inside S) →
  (length subs ≤ 2 ^ N.to_nat n)%nat.
Proof using All.
  intros Hnd Hk. rewrite <-(length_seqN (N.to_nat n)), <-length_sublists, <-(length_fmap members_below subs).
  apply submseteq_length, NoDup_submseteq.
  - apply NoDup_fmap_2_strong; [|done]. intros k1 k2 H1 H2 Heq.
    destruct (Hk k1 H1) as (S1 & R1 & I1), (Hk k2 H2) as (S2 & R2 & I2). apply (represents_key width k1 k2 S1 S2 R1 R2).
    assert (Hmem : ∀ k S x, represents width k S → inside S → S x ↔ x ∈ members_below k).
    { intros k S x HR HI. unfold members_below. rewrite list_elem_of_filter, (represents_iter width k S HR), elem_of_seqN, N2Nat.id.
      split; [intros Hx; split; [done|by apply HI]|by intros [? _]]. }
    intros x. by rewrite (Hmem k1 S1 x R1 I1), (Hmem k2 S2 x R2 I2), Heq.
  - intros l (key & -> & _)%list_elem_of_fmap. apply filter_sublists.
Qed.

(** ** One class *)

Lemma intern_ok pending b S : builder_ok pending b → represents width (scratch_closure b) S → inside S →
  ∃ b' q, intern_subset metadata b = Some (b', q) ∧ builder_ok pending b' ∧ grew b b' ∧ names (subsets b') S q.
Proof using All.
  intros [H0 H1 H2 H3 H4 H5 H6 H7] Hrep HS. unfold intern_subset. set (key := scratch_closure b) in *.
  destruct (subset_map b !! key) as [q|] eqn:Eq.
  - exists b, q. split; [done|]. split; [done|]. split; [apply grew_refl|]. apply H3 in Eq as (j & Hj & ->). by exists j, key.
  - destruct (Hmeta key S Hrep HS) as [[fin fut] Hm]. cbn [LexDFA.add_state]. rewrite Hm. cbn [mbind option_bind].
    set (id := as_u32 (lenN (LexDFA.states (LexDFA.invalidate_structural_caches (dfa b))))).
    assert (Hid : id = as_u32 (lenN (subsets b))) by (unfold id; by rewrite <-H1).
    do 2 eexists. split; [done|].
    assert (Hnew : key ∉ subsets b).
    { intros [j Hj]%nthN_elem_of. assert (subset_map b !! key = Some (as_u32 j)) by (apply H3; by exists j). congruence. }
    split; [|split]; [|by exists [key]; simpl; split; [done|lia]|].
    2: { exists (lenN (subsets b)), key. cbn [subsets]. rewrite nthN_app_last. split; [done|]. split; [done|exact Hid]. }
    assert (Hrows : lenN (subsets b ++ [key]) ≤ u32_modulus → id = lenN (subsets b)).
    { rewrite lenN_snoc, Hid. intros ?. apply as_u32_small. lia. }
    split; cbn [dfa subset_map subsets worklist].
    + split; [apply H0|]. intros row. cbn. intros Hrow. apply elem_of_alterN in Hrow as [Hrow|(r & -> & Hrow)]; apply elem_of_app in Hrow as [Hrow|Hrow%list_elem_of_singleton]; [by apply H0|by rewrite Hrow|exact (proj2 H0 r Hrow)|by rewrite Hrow].
    + cbn. by rewrite lenN_alterN, !lenN_snoc, H1.
    + apply NoDup_app. split; [done|]. split; [|apply NoDup_singleton]. by intros x Hx ->%list_elem_of_singleton.
    + intros k q. setoid_rewrite nthN_snoc. destruct (decide (k = key)) as [->|Hk].
      * rewrite lookup_insert_eq. split.
        -- intros [= <-]. exists (lenN (subsets b)). rewrite N.eqb_refl. split; [done|exact Hid].
        -- intros (j & Hj & Hq). rewrite Hid, Hq. destruct (N.eqb_spec j (lenN (subsets b))) as [Hjl|_]; [by rewrite Hjl|]. exfalso. apply Hnew, nthN_elem_of. by exists j.
      * rewrite lookup_insert_ne by done. rewrite H3. split; intros (j & Hj & ->); exists j; (split; [|done]).
        -- destruct (N.eqb_spec j (lenN (subsets b))) as [Hjl|_]; [|done]. apply nthN_lt in Hj. lia.
        -- destruct (N.eqb_spec j (lenN (subsets b))) as [_|_]; [|done]. congruence.
    + intros k [Hk|Hk%list_elem_of_singleton]%elem_of_app; [auto|]. exists S. by subst k.
    + rewrite lenN_snoc. intros q [->|Hq]%elem_of_cons; [|specialize (H5 q Hq); lia]. rewrite Hid. unfold as_u32.
      eapply N.le_lt_trans; [apply N.Div0.mod_le|]. lia.
    + intros Hle j k row. rewrite nthN_snoc. cbn. rewrite nthN_alterN, (Hrows Hle), nthN_snoc, H1. rewrite lenN_snoc in Hle.
      destruct (N.eqb_spec j (lenN (subsets b))) as [_|Hj].
      * cbn. intros [= <-] [= <-]. done.
      * apply H6. lia.
    + intros Hle j k row. rewrite nthN_snoc. cbn. rewrite nthN_alterN, (Hrows Hle), nthN_snoc, H1. rewrite lenN_snoc in Hle.
      destruct (N.eqb_spec j (lenN (subsets b))) as [Hjl|Hj]; [intros _ _; left; rewrite Hjl; by left|].
      intros Hk Hr. destruct (H7 ltac:(lia) j k row Hk Hr) as [?|[?|(S' & ? & ?)]]; [left; by right|by right; left|right; right].
      exists S'. split; [done|]. by apply row_done_grow.
Qed.

Lemma builder_scratch pending b scratch : builder_ok pending b →
  builder_ok pending (SubsetBuilder (dfa b) (subset_map b) (subsets b) (worklist b) scratch).
Proof using All. intros [H0 H1 H2 H3 H4 H5 H6 H7]. split; done. Qed.

Definition class_table (targets : list SparseStateSet.t) S : Prop :=
  ∀ c, c < count → ∃ s, targets.[c] = Some s ∧ sparse_ok width s ∧ ∀ x, SparseStateSet.contains s x = true ↔ class_step c S x.

Lemma class_transition_ok pending S targets pre b entries c : class_table targets S →
  (∀ c, c ∈ pre → c < count) → c < count → c ∉ pre → builder_ok pending b → NoDup entries.*1 → entries_ok (subsets b) S pre entries →
  ∃ b' entries', class_transition metadata expand class_members targets (b, entries) c = Some (b', entries') ∧
    builder_ok pending b' ∧ grew b b' ∧ NoDup entries'.*1 ∧ entries_ok (subsets b') S (pre ++ [c]) entries'.
Proof using All.
  intros Ht Hpre Hc Hnc Hb Hnd He. unfold class_transition. destruct (Ht c Hc) as (s & -> & Hsp & Hs). cbn [mbind option_bind].
  destruct (key_from_sparse width Hwidth s (scratch_closure b) Hsp) as (key & -> & Hkey). cbn [mbind option_bind].
  assert (HT : represents width key (class_step c S)) by (eapply represents_ext; [|exact Hkey]; exact Hs).
  pose proof (builder_scratch pending b key Hb) as Hb1. set (b1 := SubsetBuilder _ _ _ _ _) in *.
  destruct (decide (CompressedStateSet.words key = [])) as [Hz|Hnz].
  - rewrite Hz. exists b1, entries. split; [done|]. split; [done|]. split; [exists []; rewrite app_nil_r; simpl; split; [done|lia]|]. split; [done|]. destruct He as [He1 He2]. split.
    + intros l q Hin. destruct (He1 l q Hin) as (c' & ? & ?). exists c'. split; [apply elem_of_app; by left|done].
    + intros c' x [Hc'| ->%list_elem_of_singleton]%elem_of_app; [by apply He2|]. intros Hx. by apply (proj1 (represents_empty width key _ HT) Hz) in Hx.
  - assert (Hne : ∃ x, class_step c S x).
    { destruct (represents_entries width key _ HT) as [Hw HS]. destruct (CompressedStateSet.words key) as [|[i w] l]; [done|].
      destruct (Hw i w ltac:(by left)) as (_ & Hw64 & Hwz). pose proof (trailing_zeros_bit w Hwz) as Hb2.
      assert (Hlt : trailing_zeros w < 64) by (apply N.nle_gt; intros Hge; by rewrite (testbit_high w 64) in Hb2).
      exists (i * 64 + trailing_zeros w). apply HS. exists w. destruct (BitSet.BitSetFacts.div_64_unique i _ Hlt) as [-> ->]. split; [by left|done]. }
    destruct (intern_ok pending b1 _ Hb1 HT (class_step_inside c S)) as (b' & q & Hi & Hb' & Hg & Hq). exists b', (entries ++ ((λ letter, (letter, q)) <$> letters c)).
    split; [destruct (CompressedStateSet.words key); [done|]; rewrite Hi; cbn [mbind option_bind]; by rewrite Hletters|].
    split; [done|]. split; [exact Hg|]. destruct He as [He1 He2]. split; [|split].
    + rewrite fmap_app, <-list_fmap_compose. change (fst ∘ _) with (@id N). rewrite list_fmap_id.
      apply NoDup_app. split; [done|]. split; [|by apply Hnodup]. intros l ([l' q'] & -> & Hin)%list_elem_of_fmap Hl. cbn [fst] in *.
      destruct (He1 l' q' Hin) as (c' & Hc' & Hl' & _). assert (c' = c) as -> by (eapply Hdisjoint; eauto). done.
    + destruct Hg as (new & Enew & _). rewrite Enew in *. intros l q' [Hin|(l' & [= -> ->] & Hl')%list_elem_of_fmap]%elem_of_app.
      * destruct (He1 l q' Hin) as (c' & ? & ? & ? & ?). exists c'. split; [apply elem_of_app; by left|]. split; [done|]. split; [by apply names_grow|done].
      * exists c. split; [apply elem_of_app; right; by left|done].
    + destruct Hg as (new & Enew & _). rewrite Enew in *. intros c' x [Hc'| ->%list_elem_of_singleton]%elem_of_app Hx.
      * destruct (He2 c' x Hc' Hx) as (q' & ? & Hall). exists q'. split; [by apply names_grow|]. intros l Hl. apply elem_of_app. left. by apply Hall.
      * exists q. split; [done|]. intros l Hl. apply elem_of_app. right. by apply (list_elem_of_fmap_2 (λ letter, (letter, q))).
Qed.

(** The classes of a round. *)
Lemma classes_ok pending S targets suf pre b entries : class_table targets S →
  NoDup (pre ++ suf) → (∀ c, c ∈ pre ++ suf → c < count) → builder_ok pending b → NoDup entries.*1 → entries_ok (subsets b) S pre entries →
  ∃ b' entries', foldM (class_transition metadata expand class_members targets) (b, entries) suf = Some (b', entries') ∧
    builder_ok pending b' ∧ grew b b' ∧ NoDup entries'.*1 ∧ entries_ok (subsets b') S (pre ++ suf) entries'.
Proof using All.
  intros Ht. revert pre b entries. induction suf as [|c suf IH]; intros pre b entries Hnd Hlt Hb Hne He; cbn [foldM].
  - exists b, entries. rewrite app_nil_r. split; [done|]. split; [done|]. split; [apply grew_refl|done].
  - destruct (class_transition_ok pending S targets pre b entries c Ht) as (b1 & e1 & -> & Hb1 & Hg1 & Hn1 & He1); [set_solver|set_solver| |done|done|done|].
    { apply NoDup_app in Hnd as (_ & Hnd & _). intros Hin. apply (Hnd c Hin). by left. }
    cbn [mbind option_bind]. destruct (IH (pre ++ [c]) b1 e1) as (b2 & e2 & Hr & Hb2 & Hg2 & Hn2 & He2); [by rewrite <-app_assoc|by rewrite <-app_assoc|done|done|done|].
    rewrite <-app_assoc in He2. exists b2, e2. split; [exact Hr|]. split; [done|]. split; [by eapply grew_trans|done].
Qed.

(** ** One state *)

Definition loop_ok (st : subset_builder * class_targets) : Prop :=
  builder_ok (λ _, False) st.1 ∧ targets_ok a count st.2 (λ _ _, False) ∧ used_classes st.2 = [].

Lemma round_ok st current rest : loop_ok st → worklist st.1 = current :: rest →
  ∃ st', subset_round metadata expand class_members remapped closed st = Some st' ∧ loop_ok st' ∧
    ∃ new, subsets st'.1 = subsets st.1 ++ new ∧ length (worklist st'.1) = (length rest + length new)%nat.
Proof using All.
  destruct st as [b scratch]. intros (Hb & Ht & Hu) Hw. cbn [fst snd] in *. unfold subset_round. rewrite Hw. cbn [dfa subset_map subsets worklist scratch_closure].
  assert (Hb1 : builder_ok (λ j, j = current) (SubsetBuilder (dfa b) (subset_map b) (subsets b) rest (scratch_closure b))).
  { destruct Hb as [H0 H1 H2 H3 H4 H5 H6 H7]. split; cbn [dfa subset_map subsets worklist]; try done.
    - intros q Hq. apply H5. rewrite Hw. by right.
    - intros Hle j key row Hk Hr. destruct (H7 Hle j key row Hk Hr) as [Hin|[?|?]]; [|done|by right; right]. rewrite Hw in Hin.
      apply elem_of_cons in Hin as [->|?]; [by right; left|by left]. }
  destruct (proj1 (nthN_Some_lt (subsets b) current)) as [key Hkey]; [apply (bo_work _ _ Hb); rewrite Hw; by left|].
  rewrite Hkey. cbn [mbind option_bind]. destruct (bo_keys _ _ Hb key) as (S & HS & Hin); [apply nthN_elem_of; by exists current|].
  destruct (Hcollect key S scratch HS Ht) as (scratch1 & -> & Ht1). cbn [mbind option_bind].
  destruct (classes_ok (λ j, j = current) S (transition_targets scratch1) (used_classes scratch1) [] _ [] (to_sets _ _ _ _ Ht1)
    (to_nodup _ _ _ _ Ht1) (to_used _ _ _ _ Ht1) Hb1 (NoDup_nil_2)) as (b2 & entries & -> & Hb2 & (new & Hnew & Hlen) & Hnd & He).
  { split; [by intros l q ?%elem_of_nil|by intros c x ?%elem_of_nil]. }
  cbn [mbind option_bind app subsets worklist] in *. destruct (Hreset scratch1 _ Ht1) as (scratch2 & -> & Ht2 & Hu2). cbn [mbind option_bind].
  eexists. split; [done|]. split; [|by exists new]. split; [|done]. cbn [fst].
  destruct Hb2 as [H0 H1 H2 H3 H4 H5 H6 H7]. split; cbn [dfa subset_map subsets worklist]; try done.
  - split; [apply H0|]. intros row. cbn. intros [Hrow|(r & -> & Hrow)]%elem_of_alterN; [by apply H0|exact (proj2 H0 r Hrow)].
  - cbn. by rewrite lenN_alterN.
  - intros Hle j k row Hk. cbn. rewrite nthN_alterN. destruct (N.eqb_spec j current) as [->|]; [|by apply H6].
    destruct ((LexDFA.states (dfa b2)).[current]) as [r|] eqn:Er; [|done]. cbn. intros [= <-]. by apply (H6 Hle current k r).
  - intros Hle j k row Hk. cbn. rewrite nthN_alterN. destruct (N.eqb_spec j current) as [->|Hne].
    + destruct ((LexDFA.states (dfa b2)).[current]) as [r|] eqn:Er; [|done]. cbn. intros [= <-]. right; right. exists S.
      assert (k = key) as ->. { rewrite Hnew, (nthN_grow _ new _ _ Hkey) in Hk. congruence. }
      split; [done|]. split; [by apply sort_by_index_sorted|]. exists (used_classes scratch1). split; [by apply (to_used _ _ _ _ Ht1)|].
      split; [intros c x Hc Hx; by eapply (to_marked _ _ _ _ Ht1)|]. cbn. destruct He as [He1 He2]. split.
      * intros l q Hl. apply He1. by apply elem_of_sort_by_index.
      * intros c x Hc Hx. destruct (He2 c x Hc Hx) as (q & Hq & Hall). exists q. split; [done|]. intros l Hl. apply elem_of_sort_by_index. by apply Hall.
    + intros Hr. destruct (H7 Hle j k row Hk Hr) as [?|[?|?]]; [by left|done|by right; right].
Qed.

(** ** The loop *)

Lemma subset_loop b scratch : loop_ok (b, scratch) → worklist b = [0] → length (subsets b) = 1%nat →
  ∃ d final, run (subset_step metadata expand class_members remapped closed) (S (N.to_nat n)) (b, scratch) = inr (Some d) ∧
    dfa final = d ∧ builder_ok (λ _, False) final ∧ worklist final = [] ∧ ∃ new, subsets final = subsets b ++ new.
Proof using All.
  intros Hok Hw Hl.
  destruct (run_terminates (subset_step metadata expand class_members remapped closed)
    (λ st m, loop_ok st ∧ (∃ new, subsets st.1 = subsets b ++ new) ∧
      m = (length (worklist st.1) + (2 ^ N.to_nat n - length (subsets st.1)))%nat) (S (N.to_nat n)) (b, scratch)
    (length (worklist b) + (2 ^ N.to_nat n - length (subsets b)))%nat) as (r & [final scratch'] & m & Hr & (Hok' & Hnew & _) & Hstep).
  - intros st st' m (Hst & (new & Hnew) & ->). unfold subset_step. destruct (worklist st.1) as [|current rest] eqn:Ew; [done|].
    destruct (round_ok st current rest Hst Ew) as (st1 & Hr & Hok1 & new' & Hn1 & Hl1). rewrite Hr. intros [= <-].
    eexists. split; [split; [done|]; split; [|reflexivity]|].
    + exists (new ++ new'). by rewrite Hn1, Hnew, app_assoc.
    + pose proof (subsets_bound (subsets st1.1) (bo_nodup _ _ (proj1 Hok1)) (bo_keys _ _ (proj1 Hok1))) as Hbound.
      rewrite Hn1, length_app in *. cbn [length]. lia.
  - split; [done|]. split; [exists []; by rewrite app_nil_r|done].
  - rewrite Hw, Hl. cbn [length Nat.pow]. pose proof (pow2_gt (N.to_nat n)). lia.
  - unfold subset_step in Hstep. cbn [fst] in *. destruct (worklist final) as [|c0 l] eqn:Ew.
    + injection Hstep as <-. exists (dfa final), final. split; [exact Hr|]. split; [done|]. split; [apply Hok'|]. done.
    + exfalso. destruct (round_ok (final, scratch') c0 l Hok' Ew) as (st1 & Hr1 & _). by rewrite Hr1 in Hstep.
Qed.
End subsets.

Import Nfa.

(** * Runs *)

Lemma lex_run_app d q w v : lex_run d q (w ++ v) = q' ← lex_run d q w; lex_run d q' v.
Proof.
  revert q. induction w as [|b w IH]; intros q; [done|]. cbn [lex_run app]. destruct (LexDFA.step d q b) as [q'|]; [apply IH|done].
Qed.

Lemma lex_run_snoc d q w b : lex_run d q (w ++ [b]) = q' ← lex_run d q w; LexDFA.step d q' b.
Proof. rewrite lex_run_app. destruct (lex_run d q w) as [q'|]; [|done]. cbn. by destruct (LexDFA.step d q' b). Qed.

Definition byte_word (w : list N) : Prop := Forall (λ b, b < 256) w.

Definition nfa_edge (a : Nfa.t) (s b t : N) : Prop :=
  ∃ row set, (states a).[s] = Some row ∧ (set, t) ∈ NFAState.transitions row ∧ U8Set.contains set b = true.

Lemma path_nil_inv a s y : nfa_path a s [] y ↔ rtc (epsilon a) s y.
Proof.
  split; [|intros Hr; eapply path_rtc; [exact Hr|constructor]].
  intros H. remember [] as w eqn:Ew. induction H as [s|s t u w Hst _ IH|]; [done|eapply rtc_l; [exact Hst|auto]|done].
Qed.

Lemma path_snoc_inv a s w b y : nfa_path a s (w ++ [b]) y ↔ ∃ x t, nfa_path a s w x ∧ nfa_edge a x b t ∧ rtc (epsilon a) t y.
Proof.
  split.
  - intros H. remember (w ++ [b]) as v eqn:Ev. revert w Ev. induction H as [s|s t u v Hst Hp IH|s t u c v row set Hrow Hin Hc Hp IH]; intros w Ev.
    + by destruct w.
    + destruct (IH w Ev) as (x & t' & Hx & He & Hr). exists x, t'. split; [by eapply path_epsilon|done].
    + destruct w as [|c' w]; injection Ev as -> Ev.
      * subst v. exists s, t. split; [constructor|]. split; [by exists row, set|by apply path_nil_inv].
      * destruct (IH w Ev) as (x & t' & Hx & He & Hr). exists x, t'. split; [by eapply path_byte|done].
  - intros (x & t & Hp & (row & set & Hrow & Hin & Hb) & Hr). induction Hp as [s|s t' u w Hst Hp IH|s t' u c w row' set' Hrow' Hin' Hc Hp IH].
    + eapply path_byte; [exact Hrow|exact Hin|exact Hb|by apply path_nil_inv].
    + eapply path_epsilon; [exact Hst|by apply IH].
    + cbn. eapply path_byte; [exact Hrow'|exact Hin'|exact Hc|by apply IH].
Qed.

(** A group can still be reached after a word. *)
Definition may_reach (a : Nfa.t) (w : list N) (g : GroupId) : Prop :=
  ∃ t, nfa_path a (start_state a) w t ∧ reaches_group a t g.

(** The automaton gives the groups of every word; [rel] relates the bytes to the
    letters of the automaton. *)
Definition recognizes_through (rel : N → N → Prop) (d : LexDFA.t) (a : Nfa.t) : Prop :=
  ∀ w letters, byte_word w → Forall2 rel w letters →
  match lex_run d 0 letters with
  | Some q => ∃ row, (LexDFA.states d).[q] = Some row ∧ ∀ g,
      (BitSet.get (LexState.finalizers row) g = true ↔ nfa_matches a w g) ∧
      (BitSet.get (LexState.possible_future_group_ids row) g = true ↔ may_reach a w g)
  | None => ∀ g, ¬ may_reach a w g
  end.

Definition recognizes : LexDFA.t → Nfa.t → Prop := recognizes_through eq.

(** ** Well-formed automata *)

(** A deterministic row: letters below [bound], each at most once, to states. *)
Record row_wf (bound num groups : N) (row : LexState.t) : Prop := {
  rw_sorted : CharTransitions.sorted (LexState.transitions row);
  rw_range : ∀ l t, (l, t) ∈ CharTransitions.entries (LexState.transitions row) → l < bound ∧ t < num;
  rw_epsilon : LexState.epsilon_transitions row = [];
  rw_finalizers : BitSet.wf (LexState.finalizers row) ∧ BitSet.len (LexState.finalizers row) = groups;
  rw_future : BitSet.wf (LexState.possible_future_group_ids row) ∧ BitSet.len (LexState.possible_future_group_ids row) = groups;
}.

Record lex_wf (bound groups : N) (d : LexDFA.t) : Prop := {
  lw_groups : LexDFA.num_groups d = groups;
  lw_start : 0 < LexDFA.num_states d;
  lw_rows : ∀ row, row ∈ LexDFA.states d → row_wf bound (LexDFA.num_states d) groups row;
}.

(** * The states kept *)

Section kept.
Context (a : Nfa.t).

Definition reached_kept (w : list N) (x : N) : Prop := kept_state a x ∧ nfa_path a (start_state a) w x.

Lemma first_kept t g : reaches_group a t g → ∃ x, rtc (epsilon a) t x ∧ kept_state a x ∧ reaches_group a x g.
Proof.
  intros (u & row & Hr & Hrow & Hg). induction Hr as [t|t t1 u (row1 & Hrow1 & Hin) Hr IH].
  - exists t. split; [done|]. split; [|by exists t, row]. exists row. split; [done|]. unfold retained_state, has_groups.
    rewrite orb_true_iff. right. apply negb_true_iff, bool_decide_eq_false. set_solver.
  - assert (Hhere : kept_state a t → ∃ x, rtc (epsilon a) t x ∧ kept_state a x ∧ reaches_group a x g).
    { intros Hk. exists t. split; [done|]. split; [done|]. exists u, row. split; [|done]. eapply rtc_l; [by exists row1|done]. }
    destruct (IH Hrow) as (x & Hx & Hk & Hg'). apply elem_of_app in Hin as [Hin|Hin].
    + exists x. split; [|done]. eapply rtc_l; [by exists row1|done].
    + apply Hhere. exists row1. split; [done|]. unfold retained_state, has_transitions. destruct (NFAState.transitions row1); [by apply elem_of_nil in Hin|done].
Qed.

Lemma final_in_matches w g : final_in a (reached_kept w) g ↔ nfa_matches a w g.
Proof.
  split; [by intros (s & row & [_ Hp] & Hrow & Hg); exists s, row|]. intros (t & row & Hp & Hrow & Hg). exists t, row. split; [|done]. split; [|done].
  exists row. split; [done|]. unfold retained_state, has_groups. rewrite orb_true_iff. right. apply negb_true_iff, bool_decide_eq_false. set_solver.
Qed.

Lemma future_in_reach w g : future_in a (reached_kept w) g ↔ may_reach a w g.
Proof.
  split; [by intros (s & [_ Hp] & Hg); exists s|]. intros (t & Hp & Hg). destruct (first_kept t g Hg) as (x & Hr & Hk & Hx).
  exists x. split; [|done]. split; [done|]. by eapply path_snoc_rtc.
Qed.

Lemma start_kept x : reached_kept [] x ↔ kept a (kept_state a) (start_state a) x.
Proof. unfold reached_kept, kept. by rewrite path_nil_inv. Qed.

Context (class_map : list N).
Context (Hclasses : ∀ b b', b < 256 → b' < 256 →
  class_map.[b] = class_map.[b'] ↔ ∀ set, set ∈ transition_sets a → U8Set.contains set b = U8Set.contains set b').

Lemma row_set_in s row set t : (states a).[s] = Some row → (set, t) ∈ NFAState.transitions row → set ∈ transition_sets a.
Proof.
  intros Hrow Hin. unfold transition_sets. apply list_elem_of_bind. exists row. split; [by apply (list_elem_of_fmap_2 fst _ (set, t))|].
  apply nthN_elem_of. by exists s.
Qed.

Lemma class_step_kept w b c : b < 256 → class_map.[b] = Some c → ∀ x, class_step a class_map c (reached_kept w) x ↔ reached_kept (w ++ [b]) x.
Proof.
  intros Hb Hc x. unfold class_step, state_adds, class_holds, reached_kept, kept. rewrite path_snoc_inv. split.
  - intros (s & [Hks Hp] & row & set & t & Hrow & Hin & (b' & Hb' & Hset & Hc') & Hkx & Hr). split; [done|].
    exists s, t. split; [done|]. split; [|done]. exists row, set. split; [done|]. split; [done|].
    rewrite (proj1 (Hclasses b b' Hb Hb')); [done|congruence|]. by eapply row_set_in.
  - intros [Hkx (s & t & Hp & (row & set & Hrow & Hin & Hset) & Hr)]. exists s. split.
    + split; [|done]. exists row. split; [done|]. unfold retained_state, has_transitions. destruct (NFAState.transitions row); [by apply elem_of_nil in Hin|done].
    + exists row, set, t. split; [done|]. split; [done|]. split; [by exists b|done].
Qed.
End kept.

(** * Runs of the constructed automaton *)

Section run.
Context (a : Nfa.t) (class_map : list N) (count : N) (groups : N) (letters : N → list N) (metadata : CompressedStateSet.t → option (BitSet.t * BitSet.t)).
#[local] Abbreviation n := (num_states a).
#[local] Abbreviation width := (set_width n).
Context (Hclasses : ∀ b b', b < 256 → b' < 256 →
  class_map.[b] = class_map.[b'] ↔ ∀ set, set ∈ transition_sets a → U8Set.contains set b = U8Set.contains set b').
Context (Hmap : ∀ b, b < 256 → ∃ c, class_map.[b] = Some c ∧ c < count).
Context (Hdisjoint : ∀ c c' l, c < count → c' < count → l ∈ letters c → l ∈ letters c' → c = c').
Context (final : subset_builder) (Hfinal : builder_ok a class_map count groups metadata letters (λ _, False) final) (Hdone : worklist final = []).
Context (Hsmall : LexDFA.num_states (dfa final) ≤ u32_modulus).
Context (Hstart : ∃ key, (subsets final).[0] = Some key ∧ represents width key (reached_kept a [])).
Context (Hmetadata : ∀ key S bits, represents width key S → inside a S → metadata key = Some bits → metadata_of a groups S bits).
Context (Hinside : ∀ s c x, state_adds a class_map s c x → x < n).

Lemma final_small : lenN (subsets final) ≤ u32_modulus.
Proof using All. rewrite <-(bo_len _ _ _ _ _ _ _ _ Hfinal). exact Hsmall. Qed.

(** One letter of class [c]. *)
Lemma step_ok j key S c l : (subsets final).[j] = Some key → represents width key S → c < count → l ∈ letters c →
  match LexDFA.step (dfa final) j l with
  | Some q => ∃ key', (subsets final).[q] = Some key' ∧ represents width key' (class_step a class_map c S)
  | None => ∀ x, ¬ class_step a class_map c S x
  end.
Proof using All.
  intros Hj HS Hc Hl. pose proof final_small as Hle. unfold LexDFA.step.
  destruct (proj1 (nthN_Some_lt (LexDFA.states (dfa final)) j)) as [row Hrow]; [rewrite (bo_len _ _ _ _ _ _ _ _ Hfinal); by eapply nthN_lt|]. rewrite Hrow.
  destruct (bo_rows _ _ _ _ _ _ _ _ Hfinal Hle j key row Hj Hrow) as [Hw|[?|(S' & HS' & Hsort & cs & Hcs & Hall & H1 & H2)]]; [rewrite Hdone in Hw; by apply elem_of_nil in Hw|done|].
  assert (Hstep : ∀ x, class_step a class_map c S x ↔ class_step a class_map c S' x).
  { intros x. unfold class_step. by setoid_rewrite (represents_set width key S S' HS HS'). }
  rewrite CharTransitionsFacts.get_spec by done. destruct (CharTransitions.to_map (LexState.transitions row) !! l) as [q|] eqn:Eq.
  - apply CharTransitionsFacts.to_map_lookup in Eq; [|done]. destruct (H1 l q Eq) as (c' & Hc' & Hl' & (i & key' & Hi & Hr & ->) & _).
    assert (c' = c) as -> by (eapply Hdisjoint; eauto). exists key'. rewrite as_u32_small; [|apply nthN_lt in Hi; lia]. split; [done|].
    eapply represents_ext; [|exact Hr]. intros x. by rewrite Hstep.
  - intros x Hx%Hstep. destruct (H2 c x (Hall c x Hc Hx) Hx) as (q & _ & Hin). specialize (Hin l Hl).
    apply CharTransitionsFacts.to_map_lookup in Hin; [congruence|done].
Qed.

Definition class_letter (b l : N) : Prop := ∃ c, class_map.[b] = Some c ∧ l ∈ letters c.

Lemma run_ok w ls : byte_word w → Forall2 class_letter w ls →
  match lex_run (dfa final) 0 ls with
  | Some q => ∃ key, (subsets final).[q] = Some key ∧ represents width key (reached_kept a w)
  | None => ∀ x, ¬ reached_kept a w x
  end.
Proof using All.
  revert ls. induction w as [|b w IH] using rev_ind; intros ls Hw Hls.
  - apply Forall2_nil_inv_l in Hls as ->. exact Hstart.
  - apply Forall2_app_inv_l in Hls as (ls1 & ls2 & H1 & H2 & ->). apply Forall2_cons_inv_l in H2 as (l & ls3 & (c & Hc & Hl) & Hnil & ->).
    apply Forall2_nil_inv_l in Hnil as ->. apply Forall_app in Hw as [Hw Hb]. apply Forall_cons in Hb as [Hb _].
    specialize (IH ls1 Hw H1). rewrite lex_run_snoc. pose proof (class_step_kept a class_map Hclasses w b c Hb Hc) as Hstep.
    destruct (Hmap b Hb) as (c' & Hc' & Hlt). assert (c' = c) as -> by congruence.
    destruct (lex_run (dfa final) 0 ls1) as [q|]; cbn [mbind option_bind].
    + destruct IH as (key & Hq & HR). pose proof (step_ok q key _ c l Hq HR Hlt Hl) as Hs. destruct (LexDFA.step (dfa final) q l) as [q'|].
      * destruct Hs as (key' & Hq' & HR'). exists key'. split; [done|]. eapply represents_ext; [|exact HR']. exact Hstep.
      * intros x Hx%Hstep. by apply Hs in Hx.
    + intros x Hx%Hstep. destruct Hx as (s & Hs & _). by apply IH in Hs.
Qed.

Lemma final_wf bound : (∀ c l, c < count → l ∈ letters c → l < bound) → lex_wf bound groups (dfa final).
Proof using All.
  intros Hbound. pose proof final_small as Hle. destruct (bo_shape _ _ _ _ _ _ _ _ Hfinal) as [Hg Heps]. pose proof (bo_len _ _ _ _ _ _ _ _ Hfinal) as Hlen.
  split; [done|destruct Hstart as (key & H0 & _); apply nthN_lt in H0; unfold LexDFA.num_states; lia|]. intros row Hin. pose proof Hin as [j Hrow]%nthN_elem_of.
  destruct (proj1 (nthN_Some_lt (subsets final) j)) as [key Hkey]; [rewrite <-Hlen; by eapply nthN_lt|].
  destruct (bo_rows _ _ _ _ _ _ _ _ Hfinal Hle j key row Hkey Hrow) as [Hw|[?|(S & HS & Hsort & cs & Hcs & _ & H1 & _)]]; [rewrite Hdone in Hw; by apply elem_of_nil in Hw|done|].
  destruct (bo_keys _ _ _ _ _ _ _ _ Hfinal key) as (S' & HS' & Hin'); [apply nthN_elem_of; by exists j|].
  destruct (Hmetadata key S' _ HS' Hin' (bo_meta _ _ _ _ _ _ _ _ Hfinal Hle j key row Hkey Hrow)) as [(? & ? & _) (? & ? & _)].
  split; [done| |by apply Heps|done|done]. intros l t Hl. destruct (H1 l t Hl) as (c & Hc & Hlc & (i & key' & Hi & _ & ->) & _).
  split; [by apply (Hbound c), Hlc; apply Hcs|]. apply nthN_lt in Hi. unfold LexDFA.num_states. rewrite as_u32_small; lia.
Qed.

Lemma final_recognizes : recognizes_through class_letter (dfa final) a.
Proof using All.
  intros w ls Hw Hls. pose proof (run_ok w ls Hw Hls) as Hrun. destruct (lex_run (dfa final) 0 ls) as [q|].
  - destruct Hrun as (key & Hq & HR). pose proof (nthN_lt _ _ _ Hq) as Hlt. rewrite <-(bo_len _ _ _ _ _ _ _ _ Hfinal) in Hlt.
    destruct (proj1 (nthN_Some_lt _ _) Hlt) as [row Hrow]. exists row. split; [done|].
    assert (Hin : inside a (reached_kept a w)) by (intros s [(r & Hr & _) _]; by eapply nthN_lt).
    destruct (Hmetadata key _ _ HR Hin (bo_meta _ _ _ _ _ _ _ _ Hfinal final_small q key row Hq Hrow)) as [(_ & _ & Hf) (_ & _ & Hu)].
    cbn [fst snd] in *. intros g. by rewrite Hf, Hu, final_in_matches, future_in_reach.
  - intros g (x & Hx & _)%future_in_reach. by apply Hrun in Hx.
Qed.
End run.

Import Nfa.

(** * Sets of bytes that do not meet *)

Lemma disjoint_spec s s' : U8Set.wf s → U8Set.wf s' →
  U8Set.is_disjoint s s' = true ↔ ∀ b, b < 256 → U8Set.contains s b = true → U8Set.contains s' b = true → False.
Proof.
  intros Hs Hs'. assert (Hw : U8Set.wf (U8Set.intersection s s')) by by apply U8SetFacts.intersection_wf.
  change (U8Set.is_disjoint s s') with (U8Set.is_empty (U8Set.intersection s s')). rewrite is_empty_iter by done. split.
  - intros He b Hb H1 H2. assert (Hin : b ∈ U8Set.iter (U8Set.intersection s s')); [|rewrite He in Hin; by apply elem_of_nil in Hin].
    apply elem_of_iter; [done|]. by rewrite U8SetFacts.contains_intersection, H1, H2.
  - intros H. destruct (U8Set.iter (U8Set.intersection s s')) as [|b l] eqn:E; [done|exfalso].
    assert (Hin : b ∈ U8Set.iter (U8Set.intersection s s')) by (rewrite E; by left). apply elem_of_iter in Hin as [Hb Hc]; [|done].
    rewrite U8SetFacts.contains_intersection, andb_true_iff in Hc. destruct Hc. by apply (H b).
Qed.

Lemma ensure_capacity_states d groups : LexDFA.states (LexDFA.ensure_group_capacity d groups) = LexDFA.resize_state_group_bits groups <$> LexDFA.states d.
Proof. unfold LexDFA.ensure_group_capacity. cbn. by case_match. Qed.

Lemma resize_epsilon g row : LexState.epsilon_transitions (LexDFA.resize_state_group_bits g row) = LexState.epsilon_transitions row.
Proof. unfold LexDFA.resize_state_group_bits. by case_match. Qed.

Lemma ensure_capacity_groups n groups : LexDFA.num_groups (LexDFA.ensure_group_capacity (LexDFA.new n) groups) = groups.
Proof.
  unfold LexDFA.ensure_group_capacity, LexDFA.num_groups, LexDFA.set_states. cbn [LexDFA.group_id_to_u8set].
  change (LexDFA.group_id_to_u8set (LexDFA.invalidate_structural_hash (LexDFA.new n))) with (@nil U8Set.t). change (lenN []) with 0.
  destruct (N.ltb_spec 0 groups); cbn [LexDFA.set_groups LexDFA.group_id_to_u8set]; [|unfold lenN; simpl; lia].
  change (LexDFA.group_id_to_u8set (LexDFA.invalidate_structural_hash (LexDFA.new n))) with (@nil U8Set.t).
  unfold resize_longer. rewrite lenN_app, lenN_replicate. unfold lenN. simpl. lia.
Qed.

(** The bytes of a row, one after the other. *)
Definition row_bytes (trs : list (U8Set.t * N)) : list N := e ← trs; U8Set.iter e.1.

Lemma disjoint_sets_bytes covered trs : U8Set.wf covered → (∀ set t, (set, t) ∈ trs → U8Set.wf set) →
  disjoint_sets covered trs = true → NoDup (row_bytes trs) ∧ ∀ b, b ∈ row_bytes trs → U8Set.contains covered b = false.
Proof.
  revert covered. induction trs as [|[set t] trs IH]; intros covered Hc Hs; cbn [disjoint_sets].
  - intros _. split; [constructor|]. by intros b ?%elem_of_nil.
  - assert (Hset : U8Set.wf set) by (eapply Hs; by left). destruct (U8Set.is_disjoint covered set) eqn:Ed; [|done]. cbn [negb]. intros Hd.
    rewrite disjoint_spec in Ed by done.
    destruct (IH (U8Set.union covered set)) as [Hnd Hout]; [by apply U8SetFacts.union_wf|intros s' t' Hin; eapply Hs; by right|done|].
    unfold row_bytes in *. cbn [fst]. split.
    + rewrite bind_cons. apply NoDup_app. split; [by apply strictly_sorted_NoDup, iter_sorted|]. split; [|done].
      intros b Hb%elem_of_iter Hin; [|done]. destruct Hb as [_ Hb]. cbn [fst] in Hb. specialize (Hout b Hin). rewrite U8SetFacts.contains_union, Hb, orb_true_r in Hout. done.
    + intros b. rewrite bind_cons. intros [[Hlt Hb]%elem_of_iter|Hin]%elem_of_app; [|done|].
      * destruct (U8Set.contains covered b) eqn:Ec; [|done]. by destruct (Ed b Hlt Ec Hb).
      * specialize (Hout b Hin). rewrite U8SetFacts.contains_union, orb_false_iff in Hout. apply Hout.
Qed.

Section direct.
Context (a : Nfa.t) (reachable : list BitSet.t).
#[local] Abbreviation n := (num_states a).
#[local] Abbreviation groups := (nfa_group_count a).
Context (Hclosed : nfa_closed a) (Hstart : start_state a < n) (Hsmall : n < u32_modulus).
Context (Hsets : ∀ s row set t, (states a).[s] = Some row → (set, t) ∈ NFAState.transitions row → U8Set.wf set).
Context (Hreach : reach_result a groups reachable).
Context (Hdet : is_epsilon_free_deterministic a = true).

Lemma det_row s row : (states a).[s] = Some row → NFAState.epsilon_transitions row = [] ∧ NoDup (row_bytes (NFAState.transitions row)).
Proof using All.
  intros Hs. unfold is_epsilon_free_deterministic in Hdet. rewrite forallb_forall in Hdet.
  assert (Hin : In row (states a)) by (apply list_elem_of_In, nthN_elem_of; by exists s). specialize (Hdet row Hin).
  destruct (NFAState.epsilon_transitions row); [|done]. split; [done|]. eapply disjoint_sets_bytes; [apply U8SetFacts.empty_wf| |exact Hdet]. intros set t. by apply (Hsets s).
Qed.

(** ** The order of the states *)

#[local] Abbreviation order := (state_order a).

Lemma order_perm : order ≡ₚ seqN (length (states a)).
Proof using All.
  unfold state_order. apply NoDup_Permutation.
  - apply NoDup_cons. split; [by intros [? _]%list_elem_of_filter|]. apply NoDup_filter, NoDup_seqN.
  - apply NoDup_seqN.
  - intros x. rewrite elem_of_cons, list_elem_of_filter, elem_of_seqN. change (N.of_nat (length (states a))) with n.
    split; [intros [->|[_ ?]]; done|]. intros ?. destruct (decide (x = start_state a)); [by left|by right].
Qed.

Lemma order_length : lenN order = n.
Proof using All. unfold lenN. rewrite order_perm, length_seqN. done. Qed.

Lemma order_lt k x : order.[k] = Some x → k < n ∧ x < n.
Proof using All.
  intros Hk. split; [rewrite <-order_length; by eapply nthN_lt|].
  assert (Hin : x ∈ order) by (apply nthN_elem_of; by exists k). rewrite order_perm in Hin. by apply elem_of_seqN in Hin.
Qed.

Lemma order_all x : x < n → ∃ k, order.[k] = Some x.
Proof using All. intros Hx. apply nthN_elem_of. rewrite order_perm. by apply elem_of_seqN. Qed.

Lemma order_inj j k x : order.[j] = Some x → order.[k] = Some x → j = k.
Proof using All.
  intros Hj Hk. rewrite nthN_lookup in Hj, Hk. assert (Hnd : NoDup order) by (rewrite order_perm; apply NoDup_seqN).
  pose proof (NoDup_lookup _ _ _ _ Hnd Hj Hk). lia.
Qed.

Lemma remap_ok : ∃ remap, remap_order order (length (states a)) = Some remap ∧ ∀ k x, order.[k] = Some x → remap.[x] = Some k.
Proof using All.
  unfold remap_order.
  destruct (foldM_enumerate (λ k remap, lenN remap = n ∧ ∀ j x, j < k → order.[j] = Some x → remap.[x] = Some j)
    (λ remap '(new_state, old_state), if old_state <? lenN remap then Some (alterN (λ _, as_u32 new_state) remap old_state) else None)
    (replicate (length (states a)) 0) order) as (remap & Hr & Hl & Hm).
  - intros k x remap Hk [Hl Hm]. destruct (order_lt k x Hk) as [Hkn Hxn]. rewrite (proj2 (N.ltb_lt _ _)) by lia. eexists. split; [done|].
    split; [by rewrite lenN_alterN|]. intros j y Hj Hy. rewrite nthN_alterN. destruct (N.eqb_spec y x) as [->|Hne].
    + assert (j = k) as -> by by eapply order_inj. destruct (proj1 (nthN_Some_lt remap x) ltac:(lia)) as [z Hz]. rewrite Hz. cbn. f_equal. apply as_u32_small. lia.
    + apply Hm; [|done]. assert (j ≠ k) by (intros ->; congruence). lia.
  - split; [rewrite lenN_replicate; done|]. intros j x Hj. lia.
  - exists remap. split; [exact Hr|]. intros k x Hk. apply Hm; [|done]. by eapply nthN_lt.
Qed.

(** ** A row *)

Section remapped.
Context (remap : list N) (Hremap : ∀ k x, order.[k] = Some x → remap.[x] = Some k).

Lemma remapped_row_ok trs : (∀ set t, (set, t) ∈ trs → U8Set.wf set ∧ t < n) →
  ∃ entries, remapped_row remap trs = Some entries ∧ entries.*1 = row_bytes trs ∧
    ∀ b to, (b, to) ∈ entries ↔ ∃ set t, (set, t) ∈ trs ∧ b ∈ U8Set.iter set ∧ order.[to] = Some t.
Proof using All.
  unfold remapped_row. induction trs as [|[set t] trs IH] using rev_ind; intros Hs.
  - exists []. split; [done|]. split; [done|]. intros b to. rewrite elem_of_nil. split; [done|]. by intros (? & ? & ?%elem_of_nil & _).
  - destruct IH as (entries & Hr & Hk & He); [intros s' t' Hin; apply Hs, elem_of_app; by left|]. rewrite foldM_app, Hr. cbn [mbind option_bind foldM].
    destruct (Hs set t) as [_ Ht]; [apply elem_of_app; right; by left|]. destruct (order_all t Ht) as [k Hkt].
    assert (Hnew : mapM (λ byte, to ← remap.[t]; Some (byte, to)) (U8Set.iter set) = Some ((λ byte, (byte, k)) <$> U8Set.iter set)).
    { rewrite (Hremap k t Hkt). cbn [mbind option_bind]. induction (U8Set.iter set) as [|b l IHl]; [done|]. cbn. by rewrite IHl. }
    rewrite Hnew. cbn [mbind option_bind]. eexists. split; [done|]. split.
    + unfold row_bytes in *. rewrite bind_app, fmap_app, Hk, <-list_fmap_compose. f_equal. cbn. rewrite app_nil_r. apply list_fmap_id.
    + intros b to. rewrite elem_of_app, He, list_elem_of_fmap. setoid_rewrite elem_of_app. setoid_rewrite list_elem_of_singleton. split.
      * intros [(s' & t' & ? & ? & ?)|(b' & [= -> ->] & Hb)]; [exists s', t'; auto|exists set, t; auto].
      * intros (s' & t' & [Hin|[= -> ->]] & Hb & Hto); [left; by exists s', t'|right]. exists b. split; [|done]. f_equal. by eapply order_inj.
Qed.

(** The row of the [k]th state. *)
Definition copied (k : N) (row : LexState.t) : Prop :=
  ∃ x nfa_row bits, order.[k] = Some x ∧ (states a).[x] = Some nfa_row ∧ reachable.[x] = Some bits ∧
    LexState.epsilon_transitions row = [] ∧
    LexState.finalizers row = group_bits groups (NFAState.finalizers nfa_row) ∧ LexState.possible_future_group_ids row = bits ∧
    CharTransitions.sorted (LexState.transitions row) ∧
    ∀ b to, (b, to) ∈ CharTransitions.entries (LexState.transitions row) ↔ ∃ t, nfa_edge a x b t ∧ b < 256 ∧ order.[to] = Some t.

Definition copy_shape (d : LexDFA.t) : Prop :=
  lenN (LexDFA.states d) = n ∧ LexDFA.num_groups d = groups ∧ ∀ row, row ∈ LexDFA.states d → LexState.epsilon_transitions row = [].

Lemma copy_ok k x d : order.[k] = Some x → copy_shape d → (∀ j row, j < k → (LexDFA.states d).[j] = Some row → copied j row) →
  ∃ d', copy_state a groups reachable remap d (k, x) = Some d' ∧ copy_shape d' ∧
    ∀ j row, j < k + 1 → (LexDFA.states d').[j] = Some row → copied j row.
Proof using All.
  intros Hk (Hl & Hg & Heps) Hd. destruct (order_lt k x Hk) as [Hkn Hxn]. unfold copy_state.
  destruct (proj1 (nthN_Some_lt (states a) x) Hxn) as [nrow Hrow]. rewrite Hrow. cbn [mbind option_bind]. destruct (det_row x nrow Hrow) as [_ Hnd].
  destruct (remapped_row_ok (NFAState.transitions nrow)) as (entries & -> & Hkeys & He).
  { intros set t Hin. split; [by eapply (Hsets x nrow)|]. by eapply (proj2 Hclosed). }
  cbn [mbind option_bind]. destruct Hreach as [Hrl _]. destruct (proj1 (nthN_Some_lt reachable x)) as [bits Hbits]; [by rewrite Hrl|]. rewrite Hbits. cbn [mbind option_bind].
  rewrite as_u32_small by lia. eexists. split; [done|]. split; [split; [cbn; by rewrite !lenN_alterN|split; [done|]]|].
  { cbn. intros row [Hin|(r & -> & Hin)]%elem_of_alterN; apply elem_of_alterN in Hin as [Hin|(r' & -> & Hin)]; [by apply Heps|exact (Heps r' Hin)|exact (Heps r Hin)|exact (Heps r' Hin)]. }
  cbn.
  intros j row Hj. rewrite nthN_alterN, nthN_alterN. destruct (N.eqb_spec j k) as [->|Hne]; [|apply Hd; lia].
  destruct ((LexDFA.states d).[k]) as [r|] eqn:Er; [|done]. cbn. intros [= <-]. exists x, nrow, bits. cbn. split; [done|]. split; [done|]. split; [done|]. split; [apply Heps, nthN_elem_of; by exists k|]. split; [done|]. split; [done|].
  split; [apply sort_by_index_sorted; by rewrite Hkeys|]. intros b to. rewrite elem_of_sort_by_index, He. unfold nfa_edge. split.
  - intros (set & t & Hin & Hb & Hto). apply elem_of_iter in Hb as [Hb Hset]; [|by eapply (Hsets x nrow)]. exists t. split; [by exists nrow, set|done].
  - intros (t & (nrow' & set & Hr' & Hin & Hset) & Hb & Hto). assert (nrow' = nrow) as -> by congruence. exists set, t. split; [done|]. split; [|done].
    apply elem_of_iter; [by eapply (Hsets x nrow)|done].
Qed.
End remapped.

(** ** The copy *)

Lemma direct_ok : ∃ d, determinize_epsilon_free_deterministic a groups reachable = Some d ∧ copy_shape d ∧
  ∀ k row, (LexDFA.states d).[k] = Some row → copied k row.
Proof using All.
  unfold determinize_epsilon_free_deterministic. destruct remap_ok as (remap & -> & Hremap). cbn [mbind option_bind].
  destruct (foldM_enumerate (λ k d, copy_shape d ∧ ∀ j row, j < k → (LexDFA.states d).[j] = Some row → copied j row)
    (copy_state a groups reachable remap) (LexDFA.ensure_group_capacity (LexDFA.new (N.max (lenN (states a)) 1)) groups) order) as (d & Hr & Hl & Hd).
  - intros k x d Hk [Hl Hd]. by apply copy_ok.
  - split; [|intros j row Hj; lia].     split; [|split].
    + rewrite ensure_capacity_states, lenN_fmap. cbn. rewrite lenN_replicate. change (lenN (states a)) with n. lia.
    + by rewrite ensure_capacity_groups.
    + intros row. rewrite ensure_capacity_states. intros (r & -> & Hr)%list_elem_of_fmap. cbn in Hr. apply elem_of_replicate in Hr as [-> _].
      apply resize_epsilon.
  - exists d. split; [exact Hr|]. split; [done|]. intros k row Hk. apply Hd; [|done]. rewrite order_length, <-(proj1 Hl). by eapply nthN_lt.
Qed.

Lemma no_epsilon s t : epsilon a s t → False.
Proof using All. intros (row & Hrow & Hin). destruct (det_row s row Hrow) as [He _]. rewrite He in Hin. by apply elem_of_nil in Hin. Qed.

Lemma rtc_epsilon s t : rtc (epsilon a) s t → s = t.
Proof using All. intros Hr. destruct Hr as [|s t' t He _]; [done|]. by apply no_epsilon in He. Qed.

Lemma direct_run d w : (∀ k row, (LexDFA.states d).[k] = Some row → copied k row) → lenN (LexDFA.states d) = n → byte_word w →
  match lex_run d 0 w with
  | Some q => ∃ t, order.[q] = Some t ∧ ∀ x, nfa_path a (start_state a) w x ↔ x = t
  | None => ∀ x, ¬ nfa_path a (start_state a) w x
  end.
Proof using All.
  intros Hd Hl. induction w as [|b w IH] using rev_ind; intros Hw.
  - exists (start_state a). split; [done|]. intros x. rewrite path_nil_inv. split; [by intros ->%rtc_epsilon|by intros ->].
  - apply Forall_app in Hw as [Hw Hb]. apply Forall_cons in Hb as [Hb _]. specialize (IH Hw). rewrite lex_run_snoc.
    destruct (lex_run d 0 w) as [q|]; cbn [mbind option_bind].
    + destruct IH as (t & Hq & Ht). unfold LexDFA.step. destruct (proj1 (nthN_Some_lt (LexDFA.states d) q)) as [row Hrow]; [rewrite Hl; by apply (order_lt q t)|].
      rewrite Hrow. destruct (Hd q row Hrow) as (t' & nrow & bits & Hq' & Hnrow & _ & _ & _ & _ & Hsort & He). assert (t' = t) as -> by congruence.
      assert (Hpath : ∀ y, nfa_path a (start_state a) (w ++ [b]) y ↔ nfa_edge a t b y).
      { intros y. rewrite path_snoc_inv. split; [intros (x & z & Hx%Ht & Hz & Hr%rtc_epsilon); by subst|]. intros Hy. exists t, y. split; [by apply Ht|done]. }
      rewrite CharTransitionsFacts.get_spec by done. destruct (CharTransitions.to_map (LexState.transitions row) !! b) as [q'|] eqn:Eq.
      * pose proof Eq as Ein. apply CharTransitionsFacts.to_map_lookup, He in Ein as (y & Hy & _ & Hto); [|done]. exists y. split; [done|].
        intros x. rewrite Hpath. split; [|by intros ->]. intros Hx.
        assert (x < n). { destruct Hx as (r & set & Hr & Hin & _). by eapply (proj2 Hclosed). } destruct (order_all x H) as [kx Hkx].
        assert (Hin : (b, kx) ∈ CharTransitions.entries (LexState.transitions row)) by (apply He; by exists x).
        apply CharTransitionsFacts.to_map_lookup in Hin; [|done]. congruence.
      * intros y Hy%Hpath. assert (y < n). { destruct Hy as (r & set & Hr & Hin & _). by eapply (proj2 Hclosed). } destruct (order_all y H) as [ky Hky].
        assert (Hin : (b, ky) ∈ CharTransitions.entries (LexState.transitions row)) by (apply He; by exists y).
        apply CharTransitionsFacts.to_map_lookup in Hin; [congruence|done].
    + intros x (s & t & Hs & _)%path_snoc_inv. by apply IH in Hs.
Qed.

Lemma direct_bits t row : (states a).[t] = Some row →
  bits_for groups (group_bits groups (NFAState.finalizers row)) (λ g, g ∈ NFAState.finalizers row).
Proof using All.
  intros Hrow. pose proof (λ s row g, group_count_bound a s row g) as Hbound.
  destruct (set_groups_for a groups reachable Hbound Hreach (BitSet.new groups) (λ _, False) row t Hrow (new_bits_for groups)) as (H1 & H2 & H3).
  split; [done|]. split; [done|]. intros g. unfold group_bits. rewrite H3. tauto.
Qed.

Lemma direct_recognizes : ∃ d, determinize_epsilon_free_deterministic a groups reachable = Some d ∧ LexDFA.num_states d = n ∧
  lex_wf 256 groups d ∧ recognizes d a.
Proof using All.
  destruct direct_ok as (d & Hr & (Hl & Hg & Heps) & Hd). exists d. split; [exact Hr|]. split; [exact Hl|]. destruct Hreach as [_ Hrb]. split.
  - split; [done|unfold LexDFA.num_states; rewrite Hl; lia|]. intros row [k Hk]%nthN_elem_of.
    destruct (Hd k row Hk) as (t & nrow & bits & Hq' & Hnrow & Hbits & He & Hf & Hu & Hsort & Hent). destruct (Hrb t bits Hbits) as (Hbw & Hbl & _).
    destruct (direct_bits t nrow Hnrow) as (Hfw & Hfl & _). split; [done| |done|by rewrite Hf|by rewrite Hu].
    intros b to (y & _ & Hb & Hto)%Hent. split; [done|]. unfold LexDFA.num_states. rewrite Hl. by apply (order_lt to y).
  - intros w ls Hw Hls. assert (ls = w) as ->. { clear -Hls. induction Hls; [done|congruence]. }
    pose proof (direct_run d w Hd Hl Hw) as Hrun. destruct (lex_run d 0 w) as [q|].
    + destruct Hrun as (t & Hq & Ht). destruct (proj1 (nthN_Some_lt (LexDFA.states d) q)) as [row Hrow]; [rewrite Hl; by apply (order_lt q t)|].
      exists row. split; [done|]. destruct (Hd q row Hrow) as (t' & nrow & bits & Hq' & Hnrow & Hbits & _ & Hf & Hu & _). assert (t' = t) as -> by congruence.
      destruct (Hrb t bits Hbits) as (_ & _ & Hget). destruct (direct_bits t nrow Hnrow) as (_ & _ & Hfin).
      intros g. rewrite Hf, Hu, Hget, Hfin. split.
      * split; [intros Hg'; exists t, nrow; split; [by apply Ht|done]|]. intros (t' & r & Hp%Ht & Hr' & Hg'). subst t'. by assert (r = nrow) as <- by congruence.
      * split; [intros Hg'; exists t; split; [by apply Ht|done]|]. by intros (t' & ->%Ht & Hg').
    + intros g (t & Hp & _). by apply Hrun in Hp.
Qed.
End direct.
