(* ===== verification/LexDetCorrect.v ===== *)
(** Determinization as a whole (crates/glrmask-lexer/src/automata/lexer/
    determinize.rs): the subset construction never panics, ends, and recognizes
    what the byte automaton does, over bytes or over their classes. *)

From stdpp Require Import relations.
From S2P Require Import Prelude Bits U8Set BitSet StateSet CharTransitions LexDfa LexNfa LexNfaClasses LexNfaScc LexReach LexReachCorrect LexDeterminize LexEpsilon LexDetParts LexDetRun.
Import Nfa.

(** An automaton whose tables fit in [u32]. *)
Record det_input (a : Nfa.t) : Prop := {
  di_closed : nfa_closed a;
  di_start : start_state a < num_states a;
  di_sets : ∀ s row set t, (states a).[s] = Some row → (set, t) ∈ NFAState.transitions row → U8Set.wf set;
  di_words : num_states a * set_width (num_states a) < u32_modulus;
  di_edges : lenN (edge_targets a) < u32_modulus;
  di_total : N.of_nat (transition_total a) < u32_modulus;
}.

(** [lia] with division and remainder by constants. *)
#[local] Ltac Zify.zify_post_hook ::= Z.to_euclidean_division_equations.

Lemma words_small n : n * set_width n < u32_modulus → n < 2147483648.
Proof.
  intros H. apply N.nle_gt. intros Hge. assert (33554432 ≤ set_width n) by (unfold set_width; lia). unfold u32_modulus in H. nia.
Qed.

Lemma mapM_seqN {A} (f : N → option A) (P : N → A → Prop) n : (∀ k, k < N.of_nat n → ∃ x, f k = Some x ∧ P k x) →
  ∃ l, mapM f (seqN n) = Some l ∧ lenN l = N.of_nat n ∧ ∀ k, k < N.of_nat n → ∃ x, l.[k] = Some x ∧ P k x.
Proof.
  intros H. assert (Hr : is_Some (mapM f (seqN n))).
  { apply mapM_is_Some_2, Forall_forall. intros k Hk%elem_of_seqN. destruct (H k Hk) as (x & Hx & _). by exists x. }
  destruct Hr as [l Hl]. exists l. split; [done|]. apply mapM_Some_1 in Hl as Hf. pose proof (Forall2_length _ _ _ Hf) as Hlen. rewrite length_seqN in Hlen.
  split; [unfold lenN; lia|]. intros k Hk. destruct (proj1 (nthN_Some_lt l k)) as [x Hx]; [unfold lenN; lia|]. exists x. split; [done|].
  rewrite nthN_lookup in Hx. destruct (Forall2_lookup_r _ _ _ _ _ Hf Hx) as (k' & Hk' & Hfx).
  rewrite <-nthN_lookup, nthN_seqN in Hk'. rewrite (proj2 (N.ltb_lt _ _)) in Hk' by done. injection Hk' as <-.
  destruct (H k Hk) as (x' & Hx' & HP). congruence.
Qed.

(** The out degrees are the lengths of the epsilon rows. *)
Lemma degrees_ok a : lenN (edge_targets a) < u32_modulus →
  ∃ degree, mapM (λ state, lo ← (CompactNFA.epsilon_offsets (build_compact_nfa a)).[state]; hi ← (CompactNFA.epsilon_offsets (build_compact_nfa a)).[state + 1];
      Some (u32_wrapping_sub hi lo)) (seqN (length (states a))) = Some degree ∧
    lenN degree = num_states a ∧ ∀ s, s < num_states a → degree.[s] = Some (lenN (eps_row a s)).
Proof.
  intros He. destruct (mapM_seqN (λ state, lo ← (CompactNFA.epsilon_offsets (build_compact_nfa a)).[state]; hi ← (CompactNFA.epsilon_offsets (build_compact_nfa a)).[state + 1];
      Some (u32_wrapping_sub hi lo)) (λ s x, x = lenN (eps_row a s)) (length (states a))) as (degree & Hr & Hl & Hd).
  - intros s Hs. destruct (compact_eps_row a He s Hs) as (lo & hi & -> & -> & Hsl). cbn [mbind option_bind]. eexists. split; [done|].
    assert (Ht : CompactNFA.epsilon_targets (build_compact_nfa a) = edge_targets a).
    { unfold build_compact_nfa. pose proof (compact_spec (states a)) as Hc. destruct (foldl _ _ (states a)) as [offsets targets]. cbn [fst snd] in Hc. cbn. apply Hc. }
    rewrite Ht in Hsl. unfold slice in Hsl. destruct (N.leb_spec lo hi) as [Hle|]; [|done]. destruct (N.leb_spec hi (lenN (edge_targets a))) as [Hhi|]; [|done].
    cbn [andb] in Hsl. injection Hsl as <-. rewrite u32_wrapping_sub_small by lia. unfold lenN in *. rewrite length_take, length_drop. lia.
  - exists degree. split; [exact Hr|]. split; [exact Hl|]. intros s Hs. destruct (Hd s Hs) as (x & Hx & ->). exact Hx.
Qed.


Lemma overwrite_states d s finalizers future : LexDFA.states (LexDFA.overwrite_state_metadata d s finalizers future) =
  alterN (λ row, LexState.set_future (λ _, future) (LexState.set_finalizers (λ _, finalizers) row)) (LexDFA.states d) s.
Proof. done. Qed.

(** The letters of a class: its bytes, or the class itself. *)
Definition class_letters (expand : bool) (members : list (list N)) (c : N) : list N :=
  if expand then default [] members.[c] else [c mod 256].

Section construction.
Context (a : Nfa.t) (Ha : det_input a) (reachable : list BitSet.t) (expand : bool).
#[local] Abbreviation n := (num_states a).
#[local] Abbreviation width := (set_width n).
#[local] Abbreviation groups := (nfa_group_count a).
Context (Hreach : reach_result a groups reachable).

Lemma wf_sets set : set ∈ transition_sets a → U8Set.wf set.
Proof using Ha.
  intros (row & ([set' t] & -> & Hin)%list_elem_of_fmap & [s Hs]%nthN_elem_of)%list_elem_of_bind. by eapply (di_sets a Ha s row).
Qed.

Section tables.
Context (class_map : list N) (count : N) (members : list (list N)).
Context (Hcount : count ≤ 256) (Hlen : lenN class_map = 256) (Hmembers : lenN members = count).
Context (Hclasses : ∀ b b', b < 256 → b' < 256 →
  class_map.[b] = class_map.[b'] ↔ ∀ set, set ∈ transition_sets a → U8Set.contains set b = U8Set.contains set b').
Context (Hbytes : ∀ c, c < count → ∃ bytes, members.[c] = Some bytes ∧ bytes ≠ [] ∧ strictly_sorted bytes ∧
  ∀ b, b ∈ bytes ↔ b < 256 ∧ class_map.[b] = Some c).
Context (Hmap : ∀ b, b < 256 → ∃ c, class_map.[b] = Some c ∧ c < count).

Lemma letters_ok c : c < count → (if expand then members.[c] else Some [c mod 256]) = Some (class_letters expand members c).
Proof using All. intros Hc. unfold class_letters. destruct expand; [|done]. by destruct (Hbytes c Hc) as (bytes & -> & _). Qed.

Lemma letters_nodup c : c < count → NoDup (class_letters expand members c).
Proof using All.
  intros Hc. unfold class_letters. destruct expand; [|apply NoDup_singleton]. destruct (Hbytes c Hc) as (bytes & -> & _ & Hs & _). by apply strictly_sorted_NoDup.
Qed.

Lemma letters_disjoint c c' l : c < count → c' < count → l ∈ class_letters expand members c → l ∈ class_letters expand members c' → c = c'.
Proof using All.
  intros Hc Hc'. unfold class_letters. destruct expand.
  - destruct (Hbytes c Hc) as (bytes & -> & _ & _ & Hb), (Hbytes c' Hc') as (bytes' & -> & _ & _ & Hb'). simpl default.
    intros [_ H]%Hb [_ H']%Hb'. congruence.
  - intros ->%list_elem_of_singleton H%list_elem_of_singleton. lia.
Qed.

Lemma letters_bound c l : c < count → l ∈ class_letters expand members c → l < if expand then 256 else count.
Proof using All.
  intros Hc. unfold class_letters. destruct expand; [|intros ->%list_elem_of_singleton; rewrite N.mod_small; lia].
  destruct (Hbytes c Hc) as (bytes & -> & _ & _ & Hb). by intros [? _]%Hb.
Qed.

Lemma adds_inside s c x : state_adds a class_map s c x → x < n.
Proof using All. intros (srow & set & t & _ & _ & _ & ((row & Hrow & _) & _)). by eapply nthN_lt. Qed.

(** From the tables to the automaton. *)
Lemma construction_ok : compute_equivalence_classes a = (class_map, count, members) →
  ∃ d, subset_construction a groups reachable expand = Some (d, members) ∧
    (LexDFA.num_states d ≤ u32_modulus → lex_wf (if expand then 256 else count) groups d ∧
      recognizes_through (class_letter class_map (class_letters expand members)) d a).
Proof using All.
  intros Hcls. pose proof Ha as [[Heps Hin] Hstart Hsets Hwords Hedges Htotal]. pose proof (words_small _ Hwords) as Hn.
  assert (Hwidth : width ≤ u32_modulus) by (unfold set_width, u32_modulus; lia).
  unfold subset_construction. rewrite Hcls.
  destruct (degrees_ok a Hedges) as (degree & Hdr & Hdl & Hdeg).
  destruct (mark_words_ok retained_state (states a)) as (masks & Hmasks & Hmok & Hmb).
  destruct (precompute_ok a degree Heps Hedges (conj Hdl Hdeg) (kept_state a) Hn masks Hmok Hmb) as (high & Hhr & Hhigh).
  destruct (closed_targets_ok a Heps Hwords high Hhigh) as (closed & Hclr & Hclosed).
  destruct (start_closure_ok a Heps Hwords high Hhigh Hstart) as (closure & Hsr & Hsp & Hsc).
  destruct (remapped_ok a Heps Hwords high Hhigh class_map count Hcount Hmap Hsets Htotal) as (r & Hrr & Hrm & Hrw & flat & Hf1 & Hf2 & Hrows).
  destruct (key_from_sparse width Hwidth closure CompressedStateSet.new Hsp) as (start_key & Hkr & Hkey).
  assert (Hkey' : represents width start_key (reached_kept a [])).
  { eapply represents_ext; [|exact Hkey]. intros x. by rewrite start_kept, <-Hsc. }
  assert (Hin0 : inside a (reached_kept a [])) by (intros s [(row & Hrow & _) _]; by eapply nthN_lt).
  destruct (metadata_ok a groups reachable (λ s row g, group_count_bound a s row g) Hreach) as (fin & fut & Hfin & Hfut & Hmeta).
  rewrite Hrr. cbn [mbind option_bind]. rewrite Hdr. cbn [mbind option_bind]. rewrite Hmasks. cbn [mbind option_bind].
  rewrite Hhr. cbn [mbind option_bind]. rewrite Hclr. cbn [mbind option_bind]. change (lenN (states a)) with n. rewrite Hsr. cbn [mbind option_bind].
  unfold from_sparse. rewrite Hkr. cbn [mbind option_bind]. rewrite Hfin. cbn [mbind option_bind]. rewrite Hfut. cbn [mbind option_bind].
  set (metadata := λ key, compute_subset_metadata a key groups reachable fin fut).
  destruct (Hmeta start_key _ Hkey' Hin0) as ([sf su] & Hsm & _). rewrite Hsm. cbn [mbind option_bind].
  set (d0 := LexDFA.overwrite_state_metadata _ 0 sf su).
  assert (Hd0 : ∃ row, LexDFA.states d0 = [row] ∧ LexState.finalizers row = sf ∧ LexState.possible_future_group_ids row = su ∧ LexState.epsilon_transitions row = []).
  { unfold d0. rewrite overwrite_states, ensure_capacity_states. eexists. split; [reflexivity|]. split; [done|]. split; [done|]. apply (resize_epsilon groups LexState.default). }
  destruct Hd0 as (row0 & Hd0 & Hrf & Hru & Hre).
  set (b0 := SubsetBuilder d0 _ _ _ _). set (scratch0 := ClassTargets _ _ _).
  assert (Hb0 : loop_ok a class_map count groups metadata (class_letters expand members) (b0, scratch0)).
  { split; [|split; [|done]].
    - split; cbn [fst dfa subset_map subsets worklist b0].
      + split; [exact (ensure_capacity_groups 1 groups)|]. rewrite Hd0. intros row ->%list_elem_of_singleton. exact Hre.
      + by rewrite Hd0.
      + apply NoDup_singleton.
      + intros key q. rewrite lookup_singleton_Some. split.
        * intros [<- <-]. by exists 0.
        * intros (j & Hj & ->). assert (j = 0) as -> by (apply nthN_lt in Hj; unfold lenN in Hj; simpl in Hj; lia). by injection Hj as <-.
      + intros key ->%list_elem_of_singleton. by eexists.
      + by intros q ->%list_elem_of_singleton.
      + intros _ j key row Hj. assert (j = 0) as -> by (apply nthN_lt in Hj; unfold lenN in Hj; simpl in Hj; lia). rewrite Hd0.
        injection Hj as <-. intros [= <-]. unfold metadata. by rewrite Hsm, Hrf, Hru.
      + intros _ j key row Hj _. left. assert (j = 0) as -> by (apply nthN_lt in Hj; unfold lenN in Hj; simpl in Hj; lia). by left.
    - split; cbn [snd seen_class transition_targets used_classes scratch0].
      + rewrite lenN_replicate. lia.
      + rewrite lenN_replicate. lia.
      + constructor.
      + by intros c ?%elem_of_nil.
      + intros c. rewrite nthN_replicate, elem_of_nil. destruct (_ <? _); done.
      + intros c Hc. exists (SparseStateSet.new n). rewrite nthN_replicate, (proj2 (N.ltb_lt _ _)) by lia. split; [done|]. split; [apply sparse_ok_new|].
        intros x. by rewrite SparseFacts.contains_new.
      + done. }
  destruct (subset_loop a class_map count groups metadata expand members (class_letters expand members) r closed Hwidth Hcount) with (b := b0) (scratch := scratch0)
    as (d & final & Hrun & Hd & Hok & Hdone & (new & Hnew)).
  - intros key S HS HI. destruct (Hmeta key S HS HI) as (bits & Hbits & _). by exists bits.
  - apply letters_ok.
  - apply letters_nodup.
  - apply letters_disjoint.
  - apply adds_inside.
  - intros key S st HS Hst. destruct (collect_ok a Heps Hwords high Hhigh class_map count Hcount Hmap Hsets Htotal r closed flat Hrm Hrw Hf1 Hf2 Hrows Hclosed Hin key S st _ HS Hst)
      as (st' & Hc & Hst'). exists st'. split; [exact Hc|]. eapply targets_ok_ext; [..|exact Hst']; try done. intros c x. unfold class_step. by split; [intros [?|?]|right].
  - intros st T Hst. by eapply reset_ok.
  - exact Hb0.
  - done.
  - done.
  - replace (N.to_nat n) with (length (states a)) in Hrun by (unfold num_states, lenN; lia). rewrite Hrun.
    exists d. split; [done|]. intros Hsmall. subst d.
    assert (Hst : ∃ key, (subsets final).[0] = Some key ∧ represents width key (reached_kept a [])) by (exists start_key; split; [by rewrite Hnew|done]).
    assert (Hmd : ∀ key S bits, represents width key S → inside a S → metadata key = Some bits → metadata_of a groups S bits).
    { intros key S bits HS HI Hbits. destruct (Hmeta key S HS HI) as (bits' & Hb' & Hm). unfold metadata in Hbits. by assert (bits' = bits) as <- by congruence. }
    split.
    + eapply (final_wf a class_map count groups); eauto using letters_disjoint, adds_inside, letters_bound.
    + eapply (final_recognizes a class_map count groups); eauto using letters_disjoint, adds_inside.
Qed.
End tables.
End construction.

(** Both ways to an automaton give one that recognizes; [rel] is the identity,
    or relates a byte to its class. *)
Lemma determinize_ok a expand : det_input a →
  ∃ d members, determinize_impl a expand = Some (d, members) ∧ (LexDFA.num_states d ≤ u32_modulus →
    match members with
    | None => lex_wf 256 (nfa_group_count a) d ∧ recognizes d a
    | Some members => expand = false ∧ ∃ class_map count, compute_equivalence_classes a = (class_map, count, members) ∧
        lex_wf count (nfa_group_count a) d ∧ recognizes_through (λ b c, class_map.[b] = Some c) d a
    end).
Proof.
  intros Ha. pose proof Ha as [Hclosed Hstart Hsets Hwords Hedges Htotal]. pose proof (words_small _ Hwords) as Hn. unfold determinize_impl.
  destruct (compute_reachable_groups_spec a (nfa_group_count a) Hclosed Hn (λ s row g, group_count_bound a s row g)) as (reachable & -> & Hreach).
  cbn [mbind option_bind]. destruct (is_epsilon_free_deterministic a) eqn:Edet.
  - destruct (direct_recognizes a reachable Hclosed Hstart) as (d & -> & _ & Hd); try done; [unfold u32_modulus; lia|]. by exists d, None.
  - destruct (equivalence_classes_spec a (wf_sets a Ha)) as (class_map & count & members & Hcls & Hcount & Hlen & Hmem & Hclasses & Hmap & Hbytes).
    destruct (construction_ok a Ha reachable expand Hreach class_map count members Hcount Hlen Hmem Hclasses Hbytes Hmap Hcls) as (d & -> & Hd).
    cbn [mbind option_bind]. do 2 eexists. split; [done|]. intros Hs. destruct (Hd Hs) as [Hwf Hrec]. destruct expand.
    + split; [done|]. intros w ls Hw Hls. apply (Hrec w ls Hw). clear -Hw Hls Hbytes Hmap.
      induction Hls as [|b l w ls -> _ IH]; constructor; apply Forall_cons in Hw as [Hb Hw]; [|by apply IH].
      destruct (Hmap l Hb) as (c & Hc & Hlt). exists c. split; [done|]. destruct (Hbytes c Hlt) as (bytes & Hm & _ & _ & Hin). unfold class_letters. rewrite Hm. by apply Hin.
    + split; [done|]. exists class_map, count. split; [done|]. split; [done|]. intros w ls Hw Hls. apply (Hrec w ls Hw). clear -Hw Hls Hmap Hcount.
      induction Hls as [|b c w ls Hc _ IH]; constructor; apply Forall_cons in Hw as [Hb Hw]; [|by apply IH].
      exists c. split; [done|]. destruct (Hmap b Hb) as (c' & Hc' & Hlt). assert (c' = c) as -> by congruence.
      cbn. rewrite N.mod_small by lia. by left.
Qed.

(** * From classes back to bytes *)

Section expand.
Context (class_map : list N) (count : N) (members : list (list N)).
Context (Hmap : ∀ b, b < 256 → ∃ c, class_map.[b] = Some c ∧ c < count).
Context (Hbytes : ∀ c, c < count → ∃ bytes, members.[c] = Some bytes ∧ strictly_sorted bytes ∧
  ∀ b, b ∈ bytes ↔ b < 256 ∧ class_map.[b] = Some c).

Lemma expand_row_ok num groups row : row_wf count num groups row →
  ∃ tr, expand_row members row = Some tr ∧ CharTransitions.sorted tr ∧
    ∀ b t, (b, t) ∈ CharTransitions.entries tr ↔ b < 256 ∧ ∃ c, class_map.[b] = Some c ∧ (c, t) ∈ CharTransitions.entries (LexState.transitions row).
Proof using All.
  intros [Hsort Hrange _ _ _]. unfold expand_row, CharTransitions.iter. set (entries := CharTransitions.entries (LexState.transitions row)) in *.
  pose proof (CharTransitionsFacts.sorted_nodup entries Hsort) as Hnd.
  assert (Hloop : ∀ l : list (N * N), (∀ c t, (c, t) ∈ l → c < count) → NoDup l.*1 →
    ∃ out, foldM (λ entries '(class, target), bytes ← members.[class]; Some (entries ++ ((λ byte : N, (byte, target)) <$> bytes))) ([] : list (N * N)) l = Some out ∧
      NoDup out.*1 ∧ ∀ b t, (b, t) ∈ out ↔ b < 256 ∧ ∃ c, class_map.[b] = Some c ∧ (c, t) ∈ l).
  { induction l as [|[c t] l IH] using rev_ind; intros Hlt Hn.
    - exists []. split; [done|]. split; [constructor|]. intros b t. rewrite elem_of_nil. split; [done|]. by intros (_ & c & _ & ?%elem_of_nil).
    - rewrite fmap_app in Hn. apply NoDup_app in Hn as (Hn & Hc & _).
      destruct IH as (out & Hr & Hno & Ho); [intros c' t' Hin; eapply Hlt, elem_of_app; by left|done|]. rewrite foldM_app, Hr. cbn [mbind option_bind foldM].
      destruct (Hbytes c) as (bytes & Hm & Hs & Hb); [apply (Hlt c t), elem_of_app; right; by left|]. rewrite Hm. cbn [mbind option_bind]. eexists. split; [done|]. split.
      + rewrite fmap_app, <-list_fmap_compose. change (fst ∘ _) with (@id N). rewrite list_fmap_id. apply NoDup_app. split; [done|]. split; [|by apply strictly_sorted_NoDup].
        intros b ([b' t'] & -> & Hin)%list_elem_of_fmap [_ Hcb]%Hb. cbn [fst] in *. apply Ho in Hin as (_ & c' & Hc' & Hin). assert (c' = c) as -> by congruence.
        apply (Hc c); [by apply (list_elem_of_fmap_2 fst _ (c, t'))|by left].
      + intros b t'. rewrite elem_of_app, Ho, list_elem_of_fmap. setoid_rewrite elem_of_app. setoid_rewrite list_elem_of_singleton. split.
        * intros [(Hlt' & c' & ? & ?)|(b' & [= -> ->] & [? ?]%Hb)]; [split; [done|]; exists c'; auto|split; [done|]; exists c; auto].
        * intros (Hlt' & c' & Hc' & [Hin|[= -> ->]]); [left; split; [done|]; by exists c'|right]. exists b. split; [done|]. by apply Hb. }
  destruct (Hloop entries) as (out & Hr & Hno & Ho); [intros c t Hin; by apply (Hrange c t)|done|].
  rewrite Hr. cbn [mbind option_bind]. eexists. split; [done|]. split; [by apply sort_by_index_sorted|]. intros b t. cbn. by rewrite elem_of_sort_by_index, Ho.
Qed.

(** The rows over bytes lead where the rows over classes do. *)
Lemma expand_ok groups d : lex_wf count groups d →
  ∃ d', expand_byte_class_transitions d members = Some d' ∧ lex_wf 256 groups d' ∧
    (∀ q row', (LexDFA.states d').[q] = Some row' → ∃ row, (LexDFA.states d).[q] = Some row ∧
      LexState.finalizers row' = LexState.finalizers row ∧ LexState.possible_future_group_ids row' = LexState.possible_future_group_ids row) ∧
    LexDFA.num_states d' = LexDFA.num_states d ∧
    ∀ q b c, b < 256 → class_map.[b] = Some c → LexDFA.step d' q b = LexDFA.step d q c.
Proof using All.
  intros [Hg Hst Hrows]. unfold expand_byte_class_transitions.
  assert (Hm : is_Some (mapM (expand_row members) (LexDFA.states d))).
  { apply mapM_is_Some_2, Forall_forall. intros row Hin. destruct (expand_row_ok _ groups row (Hrows row Hin)) as (tr & Htr & _). by exists tr. }
  destruct Hm as [expanded Hm]. rewrite Hm. cbn [mbind option_bind]. apply mapM_Some_1 in Hm. pose proof (Forall2_length _ _ _ Hm) as Hlen.
  set (d' := LexDFA.states_mut d _). exists d'. split; [done|]. set (rows' := zip_with (λ state transitions, LexState.set_transitions (λ _, transitions) state) (LexDFA.states d) expanded).
  assert (Hd' : LexDFA.states d' = rows') by done.
  assert (Hrow : ∀ q row', rows'.[q] = Some row' → ∃ row tr, (LexDFA.states d).[q] = Some row ∧ expand_row members row = Some tr ∧ row' = LexState.set_transitions (λ _, tr) row).
  { intros q row'. unfold rows'. rewrite nthN_lookup, lookup_zip_with_Some. intros (row & tr & -> & Hr & Ht). exists row, tr. rewrite nthN_lookup.
    split; [done|]. split; [|done]. by destruct (Forall2_lookup_lr _ _ _ _ _ _ Hm Hr Ht). }
  assert (Hnum : lenN rows' = lenN (LexDFA.states d)) by (unfold rows', lenN; rewrite length_zip_with; lia). split; [|split; [|split]].
  - split; [done|change (0 < lenN rows'); rewrite Hnum; exact Hst|]. intros row' [q Hq]%nthN_elem_of. change (rows'.[q] = Some row') in Hq. destruct (Hrow q row' Hq) as (row & tr & Hr & Htr & ->).
    pose proof (Hrows row ltac:(apply nthN_elem_of; by exists q)) as Hwf. destruct (expand_row_ok _ groups row Hwf) as (tr' & Htr' & Hs & He). assert (tr' = tr) as -> by congruence.
    destruct Hwf as [_ Hrange Heps Hf Hu]. split; cbn; try done. intros b t (Hb & c & _ & Hin)%He. split; [done|]. change (t < lenN rows'). rewrite Hnum. by apply (Hrange c t).
  - intros q row' Hq. destruct (Hrow q row' Hq) as (row & tr & Hr & _ & ->). by exists row.
  - exact Hnum.
  - intros q b c Hb Hc. unfold LexDFA.step. rewrite Hd'. destruct (rows'.[q]) as [row'|] eqn:Eq.
    + destruct (Hrow q row' Eq) as (row & tr & Hr & Htr & ->). rewrite Hr. cbn.
      pose proof (Hrows row ltac:(apply nthN_elem_of; by exists q)) as Hwf. destruct (expand_row_ok _ groups row Hwf) as (tr' & Htr' & Hs & He). assert (tr' = tr) as -> by congruence.
      cbn [LexState.transitions LexState.set_transitions]. rewrite (CharTransitionsFacts.get_spec tr b Hs), (CharTransitionsFacts.get_spec _ c (rw_sorted _ _ _ _ Hwf)).
      apply option_eq. intros t. rewrite (CharTransitionsFacts.to_map_lookup tr b t Hs), (CharTransitionsFacts.to_map_lookup _ c t (rw_sorted _ _ _ _ Hwf)), He.
      split; [intros (_ & c' & ? & ?); congruence|intros ?; split; [done|by exists c]].
    + apply nthN_None in Eq. rewrite Hnum in Eq. apply nthN_None in Eq. by rewrite Eq.
Qed.

Lemma expand_recognizes d d' a : lenN (LexDFA.states d') = lenN (LexDFA.states d) →
  (∀ q row', (LexDFA.states d').[q] = Some row' → ∃ row, (LexDFA.states d).[q] = Some row ∧
      LexState.finalizers row' = LexState.finalizers row ∧ LexState.possible_future_group_ids row' = LexState.possible_future_group_ids row) →
  (∀ q b c, b < 256 → class_map.[b] = Some c → LexDFA.step d' q b = LexDFA.step d q c) →
  recognizes_through (λ b c, class_map.[b] = Some c) d a → recognizes d' a.
Proof using All.
  intros Hlen Hrow Hstep Hd w ls Hw Hls. assert (ls = w) as ->. { clear -Hls. induction Hls; [done|congruence]. }
  assert (Hrun : ∃ cs, Forall2 (λ b c, class_map.[b] = Some c) w cs ∧ ∀ q, lex_run d' q w = lex_run d q cs).
  { clear -Hw Hmap Hstep. induction Hw as [|b w Hb Hw (cs & Hcs & IH)]; [by exists []|]. destruct (Hmap b Hb) as (c & Hc & _). exists (c :: cs). split; [by constructor|].
    intros q. cbn. rewrite (Hstep q b c Hb Hc). destruct (LexDFA.step d q c); [apply IH|done]. }
  destruct Hrun as (cs & Hcs & Hrun). specialize (Hd w cs Hw Hcs). rewrite Hrun. destruct (lex_run d 0 cs) as [q|]; [|done].
  destruct Hd as (row & Hq & Hbits). destruct (proj1 (nthN_Some_lt (LexDFA.states d') q)) as [row' Hq']; [rewrite Hlen; by eapply nthN_lt|].
  destruct (Hrow q row' Hq') as (row0 & Hq0 & Hf & Hu). assert (row0 = row) as -> by congruence. exists row'. split; [done|]. by rewrite Hf, Hu.
Qed.
End expand.

(** * The theorems *)

(** The check of the conditions, for concrete automata. *)
Definition det_input_b (a : Nfa.t) : bool :=
  nfa_closed_b a && (start_state a <? num_states a) && forallb (λ row, forallb (λ e, U8Set.wf_b e.1) (NFAState.transitions row)) (states a) &&
  (num_states a * set_width (num_states a) <? u32_modulus) && (lenN (edge_targets a) <? u32_modulus) && (N.of_nat (transition_total a) <? u32_modulus).

Lemma det_input_check a : det_input_b a = true → det_input a.
Proof.
  unfold det_input_b. rewrite !andb_true_iff, !N.ltb_lt. intros [[[[[H1 H2] H3] H4] H5] H6]. split; try done; [by apply nfa_closed_check|].
  intros s row set t Hrow Hin. rewrite forallb_forall in H3. specialize (H3 row). rewrite <-list_elem_of_In in H3.
  assert (Hr : row ∈ states a) by (apply nthN_elem_of; by exists s). specialize (H3 Hr). rewrite forallb_forall in H3.
  apply U8SetFacts.wf_b_spec, (H3 (set, t)). by apply list_elem_of_In.
Qed.

(** C9: Determinization decides the language of every group: on an automaton whose
    edges lead to states and whose tables fit in 32 bits, [to_dfa] does not panic
    and ends, its rows are sorted over bytes with targets in range, and after
    every byte word the state reached carries exactly the groups that accept the
    word and the groups still reachable; no state is left when none is. *)
Theorem to_dfa_correct (a : Nfa.t) : det_input a →
  ∃ d, to_dfa a = Some d ∧ (LexDFA.num_states d ≤ u32_modulus → lex_wf 256 (nfa_group_count a) d ∧ recognizes d a).
Proof.
  intros Ha. destruct (determinize_ok a true Ha) as (d & members & Hr & Hd). exists d. unfold to_dfa. rewrite Hr. split; [done|]. intros Hs.
  specialize (Hd Hs). destruct members as [members|]; [by destruct Hd|exact Hd].
Qed.

(** Determinizing over byte classes and expanding the classes afterwards, as
    [to_minimized_dfa] does around the minimization, gives an automaton that
    recognizes the same as determinizing over bytes. *)
Theorem class_expansion_correct (a : Nfa.t) : det_input a →
  ∃ d members, determinize_impl a false = Some (d, members) ∧ (LexDFA.num_states d ≤ u32_modulus →
    ∃ d', match members with Some members => expand_byte_class_transitions d members | None => Some d end = Some d' ∧
      LexDFA.num_states d' = LexDFA.num_states d ∧ lex_wf 256 (nfa_group_count a) d' ∧ recognizes d' a).
Proof.
  intros Ha. destruct (determinize_ok a false Ha) as (d & members & Hr & Hd). exists d, members. split; [done|]. intros Hs.
  specialize (Hd Hs). destruct members as [members|]; [|destruct Hd; by exists d].
  destruct Hd as (_ & class_map & count & Hcls & Hwf & Hrec).
  destruct (equivalence_classes_spec a (wf_sets a Ha)) as (class_map' & count' & members' & Hcls' & _ & _ & _ & _ & Hmap & Hbytes).
  rewrite Hcls in Hcls'. injection Hcls' as <- <- <-.
  assert (Hb : ∀ c, c < count → ∃ bytes, members.[c] = Some bytes ∧ strictly_sorted bytes ∧ ∀ b, b ∈ bytes ↔ b < 256 ∧ class_map.[b] = Some c).
  { intros c Hc. destruct (Hbytes c Hc) as (bytes & ? & _ & ? & ?). by exists bytes. }
  destruct (expand_ok class_map count members Hmap Hb _ d Hwf) as (d' & Hr' & Hwf' & Hrows & Hnum & Hstep). exists d'. split; [done|]. split; [done|]. split; [done|].
  by apply (expand_recognizes class_map count members Hmap Hb d d' a).
Qed.

(** On the automaton with overlapping sets: the groups after [b], and none after [cb]. *)
Lemma to_dfa_correct_witness : ∃ d, to_dfa nfa_overlap = Some d ∧ recognizes d nfa_overlap ∧
  nfa_matches nfa_overlap [98] 0 ∧ nfa_matches nfa_overlap [98] 1 ∧ ¬ may_reach nfa_overlap [99; 98] 0.
Proof.
  destruct (to_dfa_correct nfa_overlap) as (d & Hd & Hrec); [apply det_input_check; by vm_compute|].
  assert (Hc : (d ← to_dfa nfa_overlap; Some (LexDFA.num_states d, lex_run d 0 [98], lex_run d 0 [99; 98],
      (λ row, map (BitSet.get (LexState.finalizers row)) [0; 1]) <$> (LexDFA.states d).[1])) = Some (4, Some 1, None, Some [true; true])) by by vm_compute.
  rewrite Hd in Hc. cbn [mbind option_bind] in Hc. injection Hc as Hn H1 H2 Hrow. destruct Hrec as [_ Hrec]; [by rewrite Hn|].
  change (lex_run d 0 [98] = Some 1) in H1. change (lex_run d 0 [99; 98] = None) in H2. exists d. split; [done|]. split; [exact Hrec|].
  pose proof (Hrec [98] [98] ltac:(repeat constructor) ltac:(repeat constructor)) as G1. rewrite H1 in G1. destruct G1 as (row & Hr & Hg).
  rewrite Hr in Hrow. injection Hrow as G0 G1. split; [by apply (Hg 0)|]. split; [by apply (Hg 1)|].
  pose proof (Hrec [99; 98] [99; 98] ltac:(repeat constructor) ltac:(repeat constructor)) as G2. rewrite H2 in G2. apply G2.
Defined.

(** The same automaton by its four classes, expanded. *)
Lemma class_expansion_correct_witness : ∃ d members d', determinize_impl nfa_overlap false = Some (d, Some members) ∧ lenN members = 4 ∧
  expand_byte_class_transitions d members = Some d' ∧ recognizes d' nfa_overlap.
Proof.
  destruct (class_expansion_correct nfa_overlap) as (d & members & Hd & Hrec); [apply det_input_check; by vm_compute|].
  assert (Hc : match determinize_impl nfa_overlap false with Some (d, Some members) => (LexDFA.num_states d, lenN members) = (4, 4) | _ => False end) by by vm_compute.
  rewrite Hd in Hc. destruct members as [members|]; [|destruct Hc]. injection Hc as Hn Hlen. destruct Hrec as (d' & Hd' & _ & _ & Hrec); [by rewrite Hn|].
  exists d, members, d'. split; [exact Hd|]. split; [exact Hlen|]. split; [exact Hd'|exact Hrec].
Defined.
