(* ===== verification/LexHopcroft.v ===== *)
(** The refinement of partitions in the minimization of byte automata
    (crates/glrmask-lexer/src/automata/lexer/minimize.rs): the inverse
    transitions in flat storage and Hopcroft's loop over a queue of splitters,
    in the form that keeps the order of a block and in the canonical form that
    removes by swapping.

    [None] is a panic: an index out of range. *)

From S2P Require Import Prelude Bits CharTransitions LexDfa.

(** The transitions of the states, as rows of (byte, target). *)
Definition transition_rows (d : LexDFA.t) : list (list (N * N)) :=
  (λ state, CharTransitions.iter (LexState.transitions state)) <$> LexDFA.states d.

(** [l[i] += 1], with the addition of the counters' type. *)
Definition increment (add : N → N → N) (l : list N) (i : N) : option (list N) :=
  _ ← l.[i]; Some (alterN (λ x, add x 1) l i).

(** [l[i] = x] *)
Definition store {A} (l : list A) (i : N) (x : A) : option (list A) :=
  _ ← l.[i]; Some (alterN (λ _, x) l i).

(** * Inverse transitions *)

Module InverseEdges.
Inductive t :=
  | Packed (edges : list N)
  | Wide (edges : list (N * N)).
End InverseEdges.

Module InverseTransitions.
Record t := mk { offsets : list N; edges : InverseEdges.t }.

Definition PACKED_SOURCE_LIMIT : N := N.shiftl 1 24.

(** The counters are [u32] in [InverseTransitions] and [usize] elsewhere. *)
Section counters.
Context (add : N → N → N).

Definition count_targets (rows : list (list (N * N))) : option (list N) :=
  foldM (λ counts row, foldM (λ counts '(_, target), increment add counts target) counts row)
    (replicate (length rows) 0) rows.

(** [offsets[state + 1] = offsets[state] + counts[state]] *)
Definition prefix_sums (counts : list N) : list N :=
  foldl (λ offsets count, offsets ++ [add (default 0 (last offsets)) count]) [0] counts.

(** The loop over the rows that stores [encode input source] at the cursor of the target. *)
Definition place {A} (encode : N → N → A) (src : N) (st : list A * list N) (edge : N * N) : option (list A * list N) :=
  let '(edges, cursor) := st in
  let '(input, target) := edge in
  index ← cursor.[target];
  edges ← store edges index (encode input src);
  cursor ← increment add cursor target;
  Some (edges, cursor).

Definition place_rows {A} (encode : N → N → A) (empty : A) (rows : list (list (N * N))) (offsets : list N) : option (list A) :=
  edge_count ← offsets.[lenN rows];
  '(edges, _) ← foldM (λ st '(src, row), foldM (place encode src) st row)
    (replicate (N.to_nat edge_count) empty, take (length rows) offsets) (enumerate rows);
  Some edges.
End counters.

Definition pack (input src : N) : N := N.lor (as_u32 (N.shiftl input 24)) (as_u32 src).
Definition unpack (edge : N) : N * N := (N.shiftr edge 24 mod 256, N.land edge 16777215).

Definition build_from_projected_rows (rows : list (list (N * N))) : option t :=
  counts ← count_targets u32_wrapping_add rows;
  let offsets := prefix_sums u32_wrapping_add counts in
  if lenN rows <? PACKED_SOURCE_LIMIT
  then edges ← place_rows u32_wrapping_add pack 0 rows offsets; Some (mk offsets (InverseEdges.Packed edges))
  else edges ← place_rows u32_wrapping_add (λ input src, (input, as_u32 src)) (0, 0) rows offsets; Some (mk offsets (InverseEdges.Wide edges)).

(** The loops of [build] are those of [build_from_projected_rows], over the rows
    of the states. *)
Definition build (d : LexDFA.t) : option t := build_from_projected_rows (transition_rows d).

(** What [for_each_predecessor] hands to its closure. *)
Definition predecessors (inverse : t) (target : N) : option (list (N * N)) :=
  start ← (offsets inverse).[target]; stop ← (offsets inverse).[target + 1];
  match edges inverse with
  | InverseEdges.Packed edges => edges ← slice edges start stop; Some (map unpack edges)
  | InverseEdges.Wide edges => slice edges start stop
  end.

(** What [for_each_predecessor_source] hands to its closure. *)
Definition predecessor_sources (inverse : t) (target : N) : option (list N) :=
  start ← (offsets inverse).[target]; stop ← (offsets inverse).[target + 1];
  match edges inverse with
  | InverseEdges.Packed edges => edges ← slice edges start stop; Some (map (λ edge, N.land edge 16777215) edges)
  | InverseEdges.Wide edges => edges ← slice edges start stop; Some (edges.*2)
  end.
End InverseTransitions.

(** * The refinement *)

(** The tables of the loop; [worklist] is the queue, its front at the head. *)
Record hopcroft := Hopcroft {
  partition : list N;
  blocks : list (list N);
  worklist : list N;
  in_worklist : list bool;
  position_in_block : list N;
  source_set : list bool;
  block_touched : list bool;
  block_sources : list (list N);
}.

Definition set_partition (f : list N → list N) (h : hopcroft) : hopcroft :=
  Hopcroft (f (partition h)) (blocks h) (worklist h) (in_worklist h) (position_in_block h) (source_set h) (block_touched h) (block_sources h).
Definition set_blocks (f : list (list N) → list (list N)) (h : hopcroft) : hopcroft :=
  Hopcroft (partition h) (f (blocks h)) (worklist h) (in_worklist h) (position_in_block h) (source_set h) (block_touched h) (block_sources h).
Definition set_queue (f : list N → list N) (g : list bool → list bool) (h : hopcroft) : hopcroft :=
  Hopcroft (partition h) (blocks h) (f (worklist h)) (g (in_worklist h)) (position_in_block h) (source_set h) (block_touched h) (block_sources h).
Definition set_positions (f : list N → list N) (h : hopcroft) : hopcroft :=
  Hopcroft (partition h) (blocks h) (worklist h) (in_worklist h) (f (position_in_block h)) (source_set h) (block_touched h) (block_sources h).
Definition set_source_set (f : list bool → list bool) (h : hopcroft) : hopcroft :=
  Hopcroft (partition h) (blocks h) (worklist h) (in_worklist h) (position_in_block h) (f (source_set h)) (block_touched h) (block_sources h).
Definition set_touched (f : list bool → list bool) (h : hopcroft) : hopcroft :=
  Hopcroft (partition h) (blocks h) (worklist h) (in_worklist h) (position_in_block h) (source_set h) (f (block_touched h)) (block_sources h).
Definition set_sources (f : list (list N) → list (list N)) (h : hopcroft) : hopcroft :=
  Hopcroft (partition h) (blocks h) (worklist h) (in_worklist h) (position_in_block h) (source_set h) (block_touched h) (f (block_sources h)).

(** [for (position, state) in block.iter().enumerate() { positions[state] = position }] *)
Definition place_block (positions : list N) (block : list N) : option (list N) :=
  foldM (λ positions '(position, state), store positions state (as_u32 position)) positions (enumerate block).

Section refine.
Context (canonical : bool) (inverse : InverseTransitions.t).

(** The buckets of the sources by input, and the inputs with a source. *)
Definition note_predecessor (st : list (list N) * list N) (edge : N * N) : option (list (list N) * list N) :=
  let '(input_sources, touched_inputs) := st in
  let '(input, src) := edge in
  bucket ← input_sources.[input];
  Some (alterN (λ bucket, bucket ++ [src]) input_sources input,
        match bucket with [] => touched_inputs ++ [input] | _ => touched_inputs end).

Definition collect_target (st : list (list N) * list N) (target : N) : option (list (list N) * list N) :=
  edges ← InverseTransitions.predecessors inverse target; foldM note_predecessor st edges.

(** A source of the splitter is filed under its block. *)
Definition file_source (st : hopcroft * list N) (src : N) : option (hopcroft * list N) :=
  let '(h, touched_blocks) := st in
  block_id ← (partition h).[src];
  let '(h, touched_blocks) :=
    match (block_touched h).[block_id] with
    | Some false => (set_touched (λ l, alterN (λ _, true) l block_id) h, touched_blocks ++ [block_id])
    | _ => (h, touched_blocks)
    end in
  _ ← (block_sources h).[block_id];
  Some (set_sources (λ l, alterN (λ b, b ++ [src]) l block_id) h, touched_blocks).

(** The form that keeps the order marks the sources, to see each once. *)
Definition mark_source (st : hopcroft * list N * list N) (src : N) : option (hopcroft * list N * list N) :=
  let '(h, touched_blocks, sources_to_clear) := st in
  if canonical
  then '(h, touched_blocks) ← file_source (h, touched_blocks) src; Some (h, touched_blocks, sources_to_clear)
  else
    seen ← (source_set h).[src];
    if (seen : bool) then Some st
    else
      '(h, touched_blocks) ← file_source (set_source_set (λ l, alterN (λ _, true) l src) h, touched_blocks) src;
      Some (h, touched_blocks, sources_to_clear ++ [src]).

(** [block.swap_remove(position)] *)
Definition swap_remove (block : list N) (position : N) : option (list N) :=
  _ ← block.[position];
  final ← last block;
  Some (take (pred (length block)) (alterN (λ _, final) block position)).

(** One moved state taken out of its block, in the canonical form. *)
Definition take_out (block_idx : N) (h : hopcroft) (state : N) : option hopcroft :=
  position ← (position_in_block h).[state];
  block ← (blocks h).[block_idx];
  block ← swap_remove block position;
  let h := set_blocks (λ l, alterN (λ _, block) l block_idx) h in
  match block.[position] with
  | None => Some h
  | Some swapped => positions ← store (position_in_block h) swapped (as_u32 position); Some (set_positions (λ _, positions) h)
  end.

Definition keep_unmarked (marks : list bool) (block : list N) : option (list N) :=
  foldM (λ kept state, mark ← marks.[state]; Some (if (mark : bool) then kept else kept ++ [state])) [] block.

Definition mark_all (value : bool) (states : list N) (marks : list bool) : option (list bool) :=
  foldM (λ marks state, store marks state value) marks states.

(** The new block of the smaller or of the larger side; the other one stays. *)
Definition divide_block (h : hopcroft) (block_idx : N) (move_sources : bool) (block sources : list N) : option (hopcroft * list N) :=
  if canonical && move_sources
  then
    h ← foldM (take_out block_idx) (set_sources (λ l, alterN (λ _, []) l block_idx) h) sources;
    Some (h, sources)
  else
    marks ← (if canonical then mark_all true sources (source_set h) else Some (source_set h));
    unmarked ← keep_unmarked marks block;
    let '(remaining, new_block) := if move_sources then (unmarked, sources) else (sources, unmarked) in
    marks ← (if canonical then mark_all false remaining marks else Some marks);
    let h := set_source_set (λ _, marks) (set_blocks (λ l, alterN (λ _, remaining) l block_idx)
               (set_sources (λ l, alterN (λ _, []) l block_idx) h)) in
    positions ← (if canonical then place_block (position_in_block h) remaining else Some (position_in_block h));
    Some (set_positions (λ _, positions) h, new_block).

(** The smaller half goes to the queue, or the new block if the old one is there. *)
Definition enqueue_half (h : hopcroft) (block_idx new_block_idx : N) : option hopcroft :=
  let push idx := set_queue (λ l, l ++ [as_u32 idx]) (λ l, alterN (λ _, true) l idx) h in
  queued ← (in_worklist h).[block_idx];
  if (queued : bool) then Some (push new_block_idx)
  else
    block ← (blocks h).[block_idx]; new_block ← (blocks h).[new_block_idx];
    Some (if lenN block <=? lenN new_block then push block_idx else push new_block_idx).

Definition split_block (h : hopcroft) (block_idx : N) : option hopcroft :=
  match (blocks h).[block_idx] with
  | None => Some h
  | Some block =>
      if lenN block <=? 1 then Some h
      else
        sources ← (block_sources h).[block_idx];
        let source_count := lenN sources in
        if (source_count =? 0) || (source_count =? lenN block) then Some h
        else
          let new_block_idx := lenN (blocks h) in
          '(h, new_block) ← divide_block h block_idx (source_count <=? lenN block - source_count) block sources;
          partition ← foldM (λ partition state, store partition state (as_u32 new_block_idx)) (partition h) new_block;
          positions ← (if canonical then place_block (position_in_block h) new_block else Some (position_in_block h));
          enqueue_half
            (Hopcroft partition (blocks h ++ [new_block]) (worklist h) (in_worklist h ++ [false]) positions
               (source_set h) (block_touched h ++ [false]) (block_sources h ++ [[]]))
            block_idx new_block_idx
  end.

(** The scratch entries of a touched block. *)
Definition untouch (h : hopcroft) (block_id : N) : option hopcroft :=
  if block_id <? lenN (block_touched h)
  then _ ← (block_sources h).[block_id];
       Some (set_sources (λ l, alterN (λ _, []) l block_id) (set_touched (λ l, alterN (λ _, false) l block_id) h))
  else Some h.

(** The blocks are split by one input. *)
Definition split_by_input (st : hopcroft * list (list N)) (input : N) : option (hopcroft * list (list N)) :=
  let '(h, input_sources) := st in
  bucket ← input_sources.[input];
  '(h, touched_blocks, sources_to_clear) ← foldM mark_source (h, [], []) bucket;
  let input_sources := alterN (λ _, []) input_sources input in
  h ← foldM split_block h touched_blocks;
  marks ← (if canonical then Some (source_set h) else mark_all false sources_to_clear (source_set h));
  h ← foldM untouch (set_source_set (λ _, marks) h) touched_blocks;
  Some (h, input_sources).

(** One round of [while let Some(splitter_block) = worklist.pop_front()]. *)
Definition hopcroft_round (h : hopcroft) (splitter : N) (input_sources : list (list N)) : option (hopcroft * list (list N)) :=
  if lenN (in_worklist h) <=? splitter then Some (h, input_sources)
  else
    let h := set_queue id (λ l, alterN (λ _, false) l splitter) h in
    match (blocks h).[splitter] with
    | None | Some [] => Some (h, input_sources)
    | Some block =>
        '(input_sources, touched_inputs) ← foldM collect_target (input_sources, []) block;
        foldM split_by_input (h, input_sources) touched_inputs
    end.

Definition hopcroft_step (st : hopcroft * list (list N)) : (hopcroft * list (list N)) + option (list (list N)) :=
  let '(h, input_sources) := st in
  match worklist h with
  | [] => inr (Some (blocks h))
  | splitter :: _ =>
      match hopcroft_round (set_queue tail id h) splitter input_sources with Some st => inl st | None => inr None end
  end.

Definition initial_hopcroft (num_states : nat) (partition : list N) (blocks : list (list N)) : option hopcroft :=
  positions ← (if canonical then foldM place_block (replicate num_states 0) blocks else Some []);
  Some (Hopcroft partition blocks (seqN (length blocks)) (replicate (length blocks) true) positions
          (replicate num_states false) (replicate (length blocks) false) (replicate (length blocks) [])).

(** Every round takes a block off the queue, and every block enters it at most
    once more than it is split. *)
Definition hopcroft_refine_partition_impl_for_state_count (num_states : nat) (partition : list N) (blocks : list (list N))
    : option (list (list N)) :=
  h ← initial_hopcroft num_states partition blocks;
  match run hopcroft_step (S num_states) (h, replicate 256 []) with inr r => r | inl _ => None end.
End refine.

Definition hopcroft_refine_partition_impl (canonical : bool) (d : LexDFA.t) (partition : list N) (blocks : list (list N))
    (inverse : InverseTransitions.t) : option (list (list N)) :=
  hopcroft_refine_partition_impl_for_state_count canonical inverse (length (LexDFA.states d)) partition blocks.

Definition hopcroft_refine_partition (d : LexDFA.t) (partition : list N) (blocks : list (list N)) : option (list (list N)) :=
  inverse ← InverseTransitions.build d; hopcroft_refine_partition_impl false d partition blocks inverse.

(** The states by observation, in the order of first occurrence. *)
Section observe.
Context {K : Type} `{Countable K}.

Definition observe (st : gmap K N * list N * list (list N)) (entry : N * K) : option (gmap K N * list N * list (list N)) :=
  let '(by_observation, partition, blocks) := st in
  let '(state, observation) := entry in
  let '(by_observation, block, blocks) :=
    match by_observation !! observation with
    | Some block => (by_observation, block, blocks)
    | None => (<[observation := as_u32 (lenN blocks)]> by_observation, as_u32 (lenN blocks), blocks ++ [[]])
    end in
  partition ← store partition state block;
  _ ← blocks.[block];
  Some (by_observation, partition, alterN (λ b, b ++ [as_u32 state]) blocks block).
End observe.

Definition hopcroft_projected_observation_partition (rows : list (list (N * N))) (observations : list N) : option (list N) :=
  '(_, partition, blocks) ← foldM observe (∅, replicate (length rows) 0, []) (enumerate observations);
  inverse ← InverseTransitions.build_from_projected_rows rows;
  blocks ← hopcroft_refine_partition_impl_for_state_count false inverse (length rows) partition blocks;
  foldM (λ classes '(block, states), foldM (λ classes state, store classes state (as_u32 block + 1)) classes states)
    (replicate (length rows) 0) (enumerate blocks).

(** Three states of a row automaton: the first two are equivalent. *)
Example projected_partition : hopcroft_projected_observation_partition [[(97, 1); (98, 2)]; [(97, 0); (98, 2)]; []] [0; 0; 0] = Some [1; 1; 2].
Proof. vm_compute. reflexivity. Qed.
