(* ===== verification/LexInverse.v ===== *)
(** The inverse transitions of the minimization (crates/glrmask-lexer/src/
    automata/lexer/minimize.rs): the counting sort into flat storage, packed or
    wide, gives for every state the edges that enter it, in the order of their
    sources. *)

From S2P Require Import Prelude Bits CharTransitions LexDfa LexHopcroft.

(** * Flat loops *)

Lemma foldM_ext_in {A B} (f g : B → A → option B) b l : (∀ b x, x ∈ l → f b x = g b x) → foldM f b l = foldM g b l.
Proof.
  intros H. revert b. induction l as [|x l IH]; intros b; [done|]. cbn. rewrite (H b x) by by left.
  destruct (g b x); [|done]. apply IH. intros b' y Hy. apply H. by right.
Qed.

(** The entries of the rows, each with the index of its row. *)
Definition flatten_rows {B} (rows : list (list B)) : list (N * B) := '(src, row) ← enumerate rows; (λ e, (src, e)) <$> row.

Lemma flatten_snoc {B} (rows : list (list B)) row : flatten_rows (rows ++ [row]) = flatten_rows rows ++ ((λ e, (lenN rows, e)) <$> row).
Proof. unfold flatten_rows. rewrite enumerate_snoc, bind_app, bind_cons, app_nil_r. done. Qed.

Lemma foldM_fmap {A B C} (f : C → B → option C) (g : A → B) c l : foldM f c (g <$> l) = foldM (λ c x, f c (g x)) c l.
Proof. revert c. induction l as [|x l IH]; intros c; [done|]. cbn. destruct (f c (g x)); [apply IH|done]. Qed.

(** A loop over rows and their entries is a loop over the flat list. *)
Lemma foldM_rows {B C} (f : N → C → B → option C) c rows :
  foldM (λ c '(src, row), foldM (f src) c row) c (enumerate rows) = foldM (λ c e, f e.1 c e.2) c (flatten_rows rows).
Proof.
  induction rows as [|row rows IH] using rev_ind; [done|]. rewrite flatten_snoc, enumerate_snoc, !foldM_app, IH.
  destruct (foldM _ c (flatten_rows rows)) as [c'|]; [|done]. cbn [mbind option_bind foldM]. rewrite foldM_fmap. cbn. by destruct (foldM (f (lenN rows)) c' row).
Qed.

Lemma foldM_plain_rows {B C} (f : C → B → option C) c rows :
  foldM (λ c row, foldM f c row) c rows = foldM (λ c e, f c e.2) c (flatten_rows rows).
Proof.
  induction rows as [|row rows IH] using rev_ind; [done|]. rewrite flatten_snoc, !foldM_app, IH.
  destruct (foldM _ c (flatten_rows rows)) as [c'|]; [|done]. cbn [mbind option_bind foldM]. rewrite foldM_fmap. cbn. by destruct (foldM f c' row).
Qed.

Lemma elem_of_flatten {B} (rows : list (list B)) s e : (s, e) ∈ flatten_rows rows ↔ ∃ row, rows.[s] = Some row ∧ e ∈ row.
Proof.
  unfold flatten_rows. rewrite list_elem_of_bind. split.
  - intros ([s' row] & (e' & [= -> ->] & Hin)%list_elem_of_fmap & Hrow%elem_of_enumerate). by exists row.
  - intros (row & Hrow & Hin). exists (s, row). split; [by apply (list_elem_of_fmap_2 (λ e, (s, e)))|by apply elem_of_enumerate].
Qed.

Lemma NoDup_flatten {B} (rows : list (list B)) : (∀ row, row ∈ rows → NoDup row) → NoDup (flatten_rows rows).
Proof.
  induction rows as [|row rows IH] using rev_ind; intros H; [constructor|]. rewrite flatten_snoc.
  apply NoDup_app. split; [apply IH; intros r Hr; apply H, elem_of_app; by left|]. split.
  - intros [s e] (r & Hr & _)%elem_of_flatten (e' & [= -> ->] & _)%list_elem_of_fmap. apply nthN_lt in Hr. lia.
  - apply NoDup_fmap_2; [by intros x y [=]|]. apply H, elem_of_app. right. by left.
Qed.

(** Packed edges are read back. *)
Lemma unpack_pack a s : a < 256 → s < 16777216 → InverseTransitions.unpack (InverseTransitions.pack a s) = (a, s).
Proof.
  intros Ha Hs. unfold InverseTransitions.unpack, InverseTransitions.pack. rewrite !as_u32_small; [|unfold u32_modulus; lia|rewrite N.shiftl_mul_pow2; change (2 ^ 24) with 16777216; unfold u32_modulus; lia].
  change 16777215 with (N.ones 24). change 256 with (2 ^ 8). f_equal.
  - apply N.bits_inj. intros i. rewrite <-N.land_ones, N.land_spec, N.shiftr_spec, N.lor_spec, N.shiftl_spec_alt by lia.
    rewrite (testbit_high s 24 (i + 24)), orb_false_r by (done || lia). destruct (N.lt_ge_cases i 8) as [Hi|Hi].
    + by rewrite N.ones_spec_low, andb_true_r.
    + by rewrite N.ones_spec_high, andb_false_r, (testbit_high a 8 i).
  - apply N.bits_inj. intros i. rewrite N.land_spec, N.lor_spec. destruct (N.lt_ge_cases i 24) as [Hi|Hi].
    + by rewrite N.ones_spec_low, andb_true_r, N.shiftl_spec_low.
    + by rewrite N.ones_spec_high, andb_false_r, (testbit_high s 24 i).
Qed.

(** * The edges of the rows *)

Section edges.
Context (rows : list (list (N * N))).
#[local] Abbreviation n := (lenN rows).

(** The edges (source, (input, target)), in the order of the loops. *)
#[local] Abbreviation row_list := (flatten_rows rows).

(** The edges into [t]. *)
Definition into (t : N) (l : list (N * (N * N))) : list (N * (N * N)) := filter (λ e, e.2.2 = t) l.
Definition offset_of (t : N) (l : list (N * (N * N))) : N := lenN (filter (λ e, e.2.2 < t) l).

Lemma offset_next t l : offset_of (t + 1) l = offset_of t l + lenN (into t l).
Proof.
  unfold offset_of, into, lenN. induction l as [|e l IH]; [done|]. rewrite !filter_cons. repeat case_decide; cbn [length]; lia.
Qed.

Lemma offset_mono t u l : t ≤ u → offset_of t l ≤ offset_of u l.
Proof.
  intros Htu. unfold offset_of, lenN. induction l as [|e l IH]; [done|]. rewrite !filter_cons. repeat case_decide; cbn [length]; lia.
Qed.

Lemma offset_zero l : offset_of 0 l = 0.
Proof. unfold offset_of, lenN. induction l as [|e l IH]; [done|]. rewrite filter_cons. case_decide; [lia|done]. Qed.

Lemma offset_le t l : offset_of t l ≤ lenN l.
Proof. unfold offset_of, lenN. pose proof (length_filter (λ e : N * (N * N), e.2.2 < t) l). lia. Qed.

Context (Htargets : ∀ e, e ∈ row_list → e.2.2 < n) (limit : N) (Hsmall : lenN row_list < limit).
Context (add : N → N → N) (Hadd : ∀ x y, x + y < limit → add x y = x + y).

Lemma offset_all : offset_of n row_list = lenN row_list.
Proof using All.
  unfold offset_of. f_equal. revert Htargets. clear. generalize n as m. intros m. induction (flatten_rows rows) as [|e l IH]; intros Htargets; [done|]. rewrite filter_cons, decide_True by (apply Htargets; by left).
  rewrite IH; [done|]. intros e' He'. apply Htargets. by right.
Qed.

(** ** Counting *)

Lemma increment_ok l i x : l.[i] = Some x → x + 1 < limit → increment add l i = Some (alterN (λ _, x + 1) l i).
Proof using All.
  intros Hi Hx. unfold increment. rewrite Hi. cbn. f_equal. apply nthN_ext. intros j. rewrite !nthN_alterN. destruct (N.eqb_spec j i) as [->|]; [|done].
  rewrite Hi. cbn. f_equal. by apply Hadd.
Qed.

Lemma count_targets_ok : ∃ counts, InverseTransitions.count_targets add rows = Some counts ∧ lenN counts = n ∧
  ∀ t, t < n → counts.[t] = Some (lenN (into t row_list)).
Proof using All.
  unfold InverseTransitions.count_targets.
  rewrite (foldM_ext_in _ (λ counts row, foldM (λ counts (e : N * N), increment add counts e.2) counts row));
    [|intros counts row _; apply foldM_ext_in; by intros c [a t] _].
  rewrite foldM_plain_rows.
  assert (Hloop : ∀ suf pre counts, row_list = pre ++ suf → lenN counts = n → (∀ t, t < n → counts.[t] = Some (lenN (into t pre))) →
    ∃ counts', foldM (λ counts (e : N * (N * N)), increment add counts e.2.2) counts suf = Some counts' ∧ lenN counts' = n ∧ ∀ t, t < n → counts'.[t] = Some (lenN (into t row_list))).
  { induction suf as [|e suf IH]; intros pre counts Heq Hl Hc; cbn [foldM].
    - rewrite app_nil_r in Heq. subst pre. by exists counts.
    - assert (He : e.2.2 < n) by (apply Htargets; rewrite Heq; set_solver).
      assert (Hb : lenN (into e.2.2 pre) + 1 ≤ lenN row_list).
      { rewrite Heq, lenN_app. unfold into, lenN. pose proof (length_filter (λ e0 : N * (N * N), e0.2.2 = e.2.2) pre). cbn [length]. lia. }
      rewrite (increment_ok counts _ _ (Hc _ He)) by lia. cbn [mbind option_bind].
      apply (IH (pre ++ [e])); [by rewrite <-app_assoc|by rewrite lenN_alterN|]. intros t Ht. rewrite nthN_alterN. unfold into. rewrite filter_app, lenN_app, filter_cons.
      destruct (N.eqb_spec t e.2.2) as [->|Hne].
      + rewrite (Hc _ He), decide_True by done. cbn. by unfold into, lenN.
      + rewrite (Hc _ Ht), decide_False by congruence. unfold into, lenN. simpl. f_equal. lia. }
  apply (Hloop row_list [] (replicate (length rows) 0)); [done|by rewrite lenN_replicate|].
  intros t Ht. rewrite nthN_replicate, (proj2 (N.ltb_lt _ _)) by exact Ht. done.
Qed.

Lemma prefix_sums_ok counts : (∀ t, t < lenN counts → counts.[t] = Some (lenN (into t row_list))) →
  lenN (InverseTransitions.prefix_sums add counts) = lenN counts + 1 ∧
  ∀ t, t ≤ lenN counts → (InverseTransitions.prefix_sums add counts).[t] = Some (offset_of t row_list).
Proof using All.
  unfold InverseTransitions.prefix_sums. induction counts as [|c counts IH] using rev_ind; intros Hc.
  - split; [done|]. intros t Ht. assert (t = 0) as -> by (unfold lenN in Ht; simpl in Ht; lia). by rewrite offset_zero.
  - rewrite lenN_snoc in *. destruct IH as [Hl Hp]. { intros t Ht. rewrite <-Hc by lia. symmetry. apply nthN_app_l. lia. }
    rewrite foldl_snoc. set (sums := foldl _ _ counts) in *. rewrite !lenN_snoc, Hl. split; [done|]. intros t Ht. rewrite nthN_snoc, Hl.
    destruct (N.eqb_spec t (lenN counts + 1)) as [->|]; [|apply Hp; lia]. f_equal.
    assert (Hlast : last sums = Some (offset_of (lenN counts) row_list)).
    { rewrite last_lookup. rewrite <-(Hp (lenN counts)) by lia. rewrite nthN_lookup. f_equal. unfold lenN in *. lia. }
    rewrite Hlast. simpl default. assert (Hcv : c = lenN (into (lenN counts) row_list)).
    { specialize (Hc (lenN counts) ltac:(lia)). rewrite nthN_app_last in Hc. by injection Hc. }
    rewrite offset_next, Hcv. apply Hadd. rewrite <-offset_next. pose proof (offset_le (lenN counts + 1) row_list). lia.
Qed.

(** ** Placing *)

Section place.
Context {A : Type} (encode : N → N → A).

Definition encoded (t : N) (l : list (N * (N * N))) : list A := (λ e : N * (N * N), encode e.2.1 e.1) <$> into t l.

Lemma into_prefix pre suf t : row_list = pre ++ suf → lenN (into t pre) ≤ lenN (into t row_list).
Proof using All. intros ->. unfold into. rewrite filter_app, lenN_app. lia. Qed.

(** The slots of [t] end before those of a later state. *)
Lemma slot_lt pre e suf t k : row_list = pre ++ e :: suf → k < lenN (into t pre) → t < n →
  offset_of t row_list + k ≠ offset_of e.2.2 row_list + lenN (into e.2.2 pre).
Proof using All.
  intros Heq Hk Ht Hc. assert (He : lenN (into e.2.2 pre) < lenN (into e.2.2 row_list)).
  { rewrite Heq. unfold into. rewrite filter_app, filter_cons, decide_True by done. rewrite lenN_app. unfold lenN. cbn [length]. lia. }
  assert (Hkt : lenN (into t pre) ≤ lenN (into t row_list)) by by apply (into_prefix pre (e :: suf)).
  destruct (N.lt_trichotomy t e.2.2) as [Hlt|[->|Hlt]]; [|lia|].
  - pose proof (offset_mono (t + 1) e.2.2 row_list ltac:(lia)) as Hm. rewrite offset_next in Hm. lia.
  - pose proof (offset_mono (e.2.2 + 1) t row_list ltac:(lia)) as Hm. rewrite offset_next in Hm. lia.
Qed.

Lemma place_ok offsets empty : lenN offsets = n + 1 → (∀ t, t ≤ n → offsets.[t] = Some (offset_of t row_list)) →
  ∃ edges, InverseTransitions.place_rows add encode empty rows offsets = Some edges ∧ lenN edges = lenN row_list ∧
    ∀ t k x, t < n → (encoded t row_list).[k] = Some x → edges.[offset_of t row_list + k] = Some x.
Proof using All.
  intros Hlo Ho. unfold InverseTransitions.place_rows. rewrite (Ho n) by done. rewrite offset_all. cbn [mbind option_bind]. rewrite foldM_rows.
  assert (Hloop : ∀ suf pre edges cursor, row_list = pre ++ suf → lenN edges = lenN row_list → lenN cursor = n →
      (∀ t, t < n → cursor.[t] = Some (offset_of t row_list + lenN (into t pre))) →
      (∀ t k x, t < n → (encoded t pre).[k] = Some x → edges.[offset_of t row_list + k] = Some x) →
    ∃ edges' cursor', foldM (λ st e, InverseTransitions.place add encode e.1 st e.2) (edges, cursor) suf = Some (edges', cursor') ∧ lenN edges' = lenN row_list ∧
      ∀ t k x, t < n → (encoded t row_list).[k] = Some x → edges'.[offset_of t row_list + k] = Some x).
  { induction suf as [|e suf IH]; intros pre edges cursor Heq Hle Hlc Hc Hp; cbn [foldM].
    - rewrite app_nil_r in Heq. rewrite <-Heq in Hp. by exists edges, cursor.
    - assert (He : e.2.2 < n) by (apply Htargets; rewrite Heq; set_solver). destruct e as [src [a u]]. cbn [fst snd] in *.
      pose proof (offset_next u row_list) as Hn. pose proof (offset_le (u + 1) row_list) as Hle'.
      assert (Hu : lenN (into u pre) < lenN (into u row_list)).
      { rewrite Heq. unfold into. rewrite filter_app, filter_cons, decide_True by done. rewrite lenN_app. unfold lenN. cbn [length]. lia. }
      cbn [InverseTransitions.place]. rewrite (Hc u He). cbn [mbind option_bind]. unfold store.
      destruct (proj1 (nthN_Some_lt edges (offset_of u row_list + lenN (into u pre))) ltac:(lia)) as [y Hy]. rewrite Hy. cbn [mbind option_bind].
      rewrite (increment_ok cursor u _ (Hc u He)) by lia. cbn [mbind option_bind].
      apply (IH (pre ++ [(src, (a, u))])); [by rewrite <-app_assoc|by rewrite lenN_alterN|by rewrite lenN_alterN| |].
      + intros t Ht. rewrite nthN_alterN. unfold into. rewrite filter_app, lenN_app, filter_cons. cbn [fst snd]. destruct (N.eqb_spec t u) as [->|Hne].
        * rewrite (Hc u He), decide_True by done. cbn. f_equal. unfold into, lenN. simpl. lia.
        * rewrite (Hc t Ht), decide_False by congruence. f_equal. unfold into, lenN. simpl. lia.
      + intros t k x Ht. unfold encoded, into. rewrite filter_app, fmap_app, filter_cons, filter_nil. cbn [fst snd]. intros Hk. rewrite nthN_alterN.
        destruct (N.eq_dec u t) as [->|Hne].
        * rewrite decide_True in Hk by done. cbn [fmap list_fmap] in Hk. rewrite nthN_snoc, lenN_fmap in Hk. fold (into t pre) in Hk |- *. destruct (N.eqb_spec k (lenN (into t pre))) as [->|Hkn].
          -- rewrite N.eqb_refl, Hy. by injection Hk as <-.
          -- destruct (N.eqb_spec (offset_of t row_list + k) (offset_of t row_list + lenN (into t pre))); [lia|]. by apply Hp.
        * rewrite decide_False in Hk by done. cbn [fmap list_fmap] in Hk. rewrite app_nil_r in Hk. change ((encoded t pre).[k] = Some x) in Hk. fold (into u pre).
          destruct (N.eqb_spec (offset_of t row_list + k) (offset_of u row_list + lenN (into u pre))) as [Hc'|_]; [|by apply Hp].
          exfalso. apply (slot_lt pre (src, (a, u)) suf t k Heq); [|done|done]. apply nthN_lt in Hk. unfold encoded in Hk. by rewrite lenN_fmap in Hk. }
  destruct (Hloop row_list [] (replicate (N.to_nat (lenN row_list)) empty) (take (length rows) offsets)) as (edges & cursor & Hr & Hle & Hp); try done.
  - rewrite lenN_replicate. lia.
  - unfold lenN in *. rewrite length_take. lia.
  - intros t Ht. rewrite nthN_lookup, lookup_take_lt by (unfold lenN in Ht; lia). rewrite <-nthN_lookup, Ho by lia. f_equal. unfold into, lenN. simpl. lia.
  - rewrite Hr. cbn [mbind option_bind]. by exists edges.
Qed.

(** The slice of a state. *)
Lemma placed_slice edges t : lenN edges = lenN row_list →
  (∀ t k x, t < n → (encoded t row_list).[k] = Some x → edges.[offset_of t row_list + k] = Some x) → t < n →
  slice edges (offset_of t row_list) (offset_of (t + 1) row_list) = Some (encoded t row_list).
Proof using All.
  intros Hl Hp Ht. pose proof (offset_next t row_list) as Hn. pose proof (offset_le (t + 1) row_list) as Hle. unfold slice.
  rewrite !(proj2 (N.leb_le _ _)) by lia. cbn [andb]. f_equal. apply nthN_ext. intros k.
  assert (Hlen : lenN (encoded t row_list) = lenN (into t row_list)) by (unfold encoded; by rewrite lenN_fmap).
  destruct ((encoded t row_list).[k]) as [x|] eqn:Ek.
  - pose proof (nthN_lt _ _ _ Ek) as Hk. specialize (Hp t k x Ht Ek). rewrite nthN_lookup in *. rewrite lookup_take_lt by lia. rewrite lookup_drop.
    by replace (N.to_nat (offset_of t row_list) + N.to_nat k)%nat with (N.to_nat (offset_of t row_list + k)) by lia.
  - apply nthN_None in Ek. apply nthN_None. unfold lenN in *. rewrite length_take, length_drop. lia.
Qed.
End place.

End edges.

(** ** The predecessors *)

Section predecessors.
Context (rows : list (list (N * N))).
#[local] Abbreviation n := (lenN rows).
#[local] Abbreviation row_list := (flatten_rows rows).
Context (Htargets : ∀ e, e ∈ row_list → e.2.2 < n) (Hsmall : lenN row_list < u32_modulus).
Context (Hinputs : ∀ e, e ∈ row_list → e.2.1 < 256) (Hn : n ≤ u32_modulus).

(** The inverse table hands out the edges into a state, with their inputs, in the
    order of the sources. *)
Lemma inverse_ok : ∃ inverse, InverseTransitions.build_from_projected_rows rows = Some inverse ∧
  (∀ t, t < n → InverseTransitions.predecessors inverse t = Some (map (λ e : N * (N * N), (e.2.1, e.1)) (into t row_list)) ∧
    InverseTransitions.predecessor_sources inverse t = Some (map fst (into t row_list))) ∧
  ∀ t, n ≤ t → InverseTransitions.predecessor_sources inverse t = None.
Proof using All.
  unfold InverseTransitions.build_from_projected_rows. destruct (count_targets_ok rows Htargets u32_modulus Hsmall u32_wrapping_add u32_wrapping_add_small) as (counts & -> & Hl & Hc). cbn [mbind option_bind].
  destruct (prefix_sums_ok rows Htargets u32_modulus Hsmall u32_wrapping_add u32_wrapping_add_small counts) as [Hlo Ho]; [intros t Ht; apply Hc; lia|]. rewrite Hl in *. set (offsets := InverseTransitions.prefix_sums u32_wrapping_add counts) in *.
  destruct (N.ltb_spec n InverseTransitions.PACKED_SOURCE_LIMIT) as [Hlim|Hlim].
  - destruct (place_ok rows Htargets u32_modulus Hsmall u32_wrapping_add u32_wrapping_add_small InverseTransitions.pack offsets 0 Hlo Ho) as (edges & -> & Hle & Hp). cbn [mbind option_bind]. eexists. split; [done|].
    split; [|intros t Ht; unfold InverseTransitions.predecessor_sources; cbn; rewrite (proj2 (nthN_None offsets (t + 1))) by lia; by destruct (offsets.[t])].
    intros t Ht.
    unfold InverseTransitions.predecessors, InverseTransitions.predecessor_sources. cbn. rewrite (Ho t), (Ho (t + 1)) by lia. cbn [mbind option_bind].
    rewrite (placed_slice rows Htargets u32_modulus Hsmall u32_wrapping_add u32_wrapping_add_small InverseTransitions.pack edges t Hle Hp Ht). cbn [mbind option_bind]. unfold encoded.
    assert (Hd : ∀ e, e ∈ into t row_list → InverseTransitions.unpack (InverseTransitions.pack e.2.1 e.1) = (e.2.1, e.1)).
    { intros [s [a u]] [_ Hin]%list_elem_of_filter. apply unpack_pack; [by apply (Hinputs _ Hin)|]. apply elem_of_flatten in Hin as (row & Hrow & _).
      apply nthN_lt in Hrow. change InverseTransitions.PACKED_SOURCE_LIMIT with 16777216 in Hlim. cbn [fst]. lia. }
    change (λ e : N * (N * N), InverseTransitions.pack e.2.1 e.1) with (λ e : N * (N * N), InverseTransitions.pack e.2.1 e.1). clear -Hd.
    split; f_equal; (induction (into t row_list) as [|e l IH]; [done|]); cbn [fmap list_fmap map]; (f_equal; [|apply IH; intros e' He'; apply Hd; by right]).
    + by apply Hd; left.
    + change (N.land _ _) with (InverseTransitions.unpack (InverseTransitions.pack e.2.1 e.1)).2. by rewrite Hd by by left.
  - destruct (place_ok rows Htargets u32_modulus Hsmall u32_wrapping_add u32_wrapping_add_small (λ input src, (input, as_u32 src)) offsets (0, 0) Hlo Ho) as (edges & -> & Hle & Hp). cbn [mbind option_bind]. eexists. split; [done|].
    split; [|intros t Ht; unfold InverseTransitions.predecessor_sources; cbn; rewrite (proj2 (nthN_None offsets (t + 1))) by lia; by destruct (offsets.[t])].
    intros t Ht.
    unfold InverseTransitions.predecessors, InverseTransitions.predecessor_sources. cbn. rewrite (Ho t), (Ho (t + 1)) by lia. cbn [mbind option_bind].
    rewrite (placed_slice rows Htargets u32_modulus Hsmall u32_wrapping_add u32_wrapping_add_small _ edges t Hle Hp Ht). cbn [mbind option_bind]. unfold encoded.
    assert (Hd : ∀ e, e ∈ into t row_list → as_u32 e.1 = e.1).
    { intros [s e] [_ Hin]%list_elem_of_filter. apply elem_of_flatten in Hin as (row & Hrow & _). apply nthN_lt in Hrow. apply as_u32_small. cbn. lia. }
    clear -Hd. split; f_equal; (induction (into t row_list) as [|e l IH]; [done|]); cbn [fmap list_fmap map snd]; (f_equal; [|apply IH; intros e' He'; apply Hd; by right]).
    + f_equal. apply Hd. by left.
    + apply Hd. by left.
Qed.
End predecessors.

(** What the predecessors of a state are. *)
Lemma elem_of_predecessors rows t a s : (a, s) ∈ map (λ e : N * (N * N), (e.2.1, e.1)) (into t (flatten_rows rows)) ↔ ∃ row, rows.[s] = Some row ∧ (a, t) ∈ row.
Proof.
  rewrite <-elem_of_flatten. split.
  - intros ([s' [a' t']] & [= -> ->] & [Ht Hin]%list_elem_of_filter)%list_elem_of_fmap. cbn in Ht. by subst t'.
  - intros Hin. apply list_elem_of_fmap. exists (s, (a, t)). split; [done|]. by apply list_elem_of_filter.
Qed.

Lemma NoDup_predecessors rows t : (∀ row, row ∈ rows → NoDup row) → NoDup (map (λ e : N * (N * N), (e.2.1, e.1)) (into t (flatten_rows rows))).
Proof.
  intros H. apply NoDup_fmap_2_strong; [|apply NoDup_filter; by apply NoDup_flatten].
  intros [s1 [a1 t1]] [s2 [a2 t2]] [H1 _]%list_elem_of_filter [H2 _]%list_elem_of_filter [= -> ->]. cbn in H1, H2. by subst.
Qed.
