(* ===== verification/LexSplit.v ===== *)
(** Hopcroft's refinement: splitters as an abstract argument, and the tables under
    the division of a block, its registration and the split by one input. *)

From S2P Require Import Prelude LexDfa LexHopcroft.

Section split.
Context (delta : N → N → N → Prop).
Context (Hfun : ∀ s a t u, delta s a t → delta s a u → t = u).
Context (Hdelta : ∀ s a, (∃ t, delta s a t) ∨ ∀ t, ¬ delta s a t).

(** The block of the target. *)
Definition hits (p : list N) (s a b : N) : Prop := ∃ t, delta s a t ∧ p.[t] = Some b.

Definition same_block (p : list N) (s t : N) : Prop := ∃ b, p.[s] = Some b ∧ p.[t] = Some b.

(** The sources of a set of states. *)
Definition enters (C : N → Prop) (s a : N) : Prop := ∃ t, delta s a t ∧ C t.

(** Two states of a block part only through a queued block, or through the
    splitter [C] on an input that is still to be looked at. *)
Definition balanced (p : list N) (W : N → Prop) (C : N → Prop) (done : N → Prop) : Prop :=
  ∀ s t a b, same_block p s t → hits p s a b →
    hits p t a b ∨ W b ∨ (∃ b', hits p t a b' ∧ W b') ∨ ¬ done a ∧ ¬ (enters C s a ↔ enters C t a).

(** [p'] moves the states [New] of block [P] to the new block [new]; one of the
    halves is queued, both if the block was. *)
Record splits (p : list N) (W : N → Prop) (P new : N) (New : N → Prop) (p' : list N) (W' : N → Prop) : Prop := {
  sp_fresh : ∀ s, p.[s] ≠ Some new;
  sp_new : ∀ s, New s → p.[s] = Some P;
  sp_moved : ∀ s, New s → p'.[s] = Some new;
  sp_kept : ∀ s, ¬ New s → p'.[s] = p.[s];
  sp_dec : ∀ s, New s ∨ ¬ New s;
  sp_queue : ∀ b, W b → W' b;
  sp_both : W P → W' new;
  sp_half : W' P ∨ W' new;
}.

Lemma splits_same p W P new New p' W' s t : splits p W P new New p' W' →
  same_block p' s t ↔ same_block p s t ∧ (New s ↔ New t).
Proof.
  intros [Hfresh Hnew Hmoved Hkept Hdec _ _ _]. split.
  - intros (b & Hs & Ht). destruct (Hdec s) as [Ns|Ns], (Hdec t) as [Nt|Nt].
    + split; [|done]. exists P. split; by apply Hnew.
    + rewrite (Hmoved s Ns) in Hs. rewrite (Hkept t Nt) in Ht. injection Hs as <-. by apply Hfresh in Ht.
    + rewrite (Hmoved t Nt) in Ht. rewrite (Hkept s Ns) in Hs. injection Ht as <-. by apply Hfresh in Hs.
    + rewrite (Hkept s Ns) in Hs. rewrite (Hkept t Nt) in Ht. split; [by exists b|done].
  - intros [(b & Hs & Ht) HN]. destruct (Hdec s) as [Ns|Ns].
    + exists new. split; apply Hmoved; tauto.
    + exists b. rewrite !Hkept by tauto. done.
Qed.

Lemma splits_hits p W P new New p' W' s a b : splits p W P new New p' W' → hits p' s a b →
  ∃ t, delta s a t ∧ (New t ∧ b = new ∧ hits p s a P ∨ ¬ New t ∧ hits p s a b).
Proof.
  intros Hsp (t & Hd & Ht). exists t. split; [done|]. destruct (sp_dec _ _ _ _ _ _ _ Hsp t) as [Nt|Nt].
  - rewrite (sp_moved _ _ _ _ _ _ _ Hsp t Nt) in Ht. injection Ht as <-. left. split; [done|]. split; [done|]. exists t. split; [done|]. by apply (sp_new _ _ _ _ _ _ _ Hsp).
  - right. split; [done|]. exists t. split; [done|]. by rewrite <-(sp_kept _ _ _ _ _ _ _ Hsp t Nt).
Qed.

(** A target of an old block is, after the split, in the block or in the new one. *)
Lemma splits_hits_old p W P new New p' W' s a b : splits p W P new New p' W' → hits p s a b →
  ∃ t, delta s a t ∧ (New t ∧ b = P ∧ hits p' s a new ∨ ¬ New t ∧ hits p' s a b).
Proof.
  intros Hsp (t & Hd & Ht). exists t. split; [done|]. destruct (sp_dec _ _ _ _ _ _ _ Hsp t) as [Nt|Nt].
  - left. split; [done|]. pose proof (sp_new _ _ _ _ _ _ _ Hsp t Nt) as Hp. split; [congruence|]. exists t. split; [done|]. by apply (sp_moved _ _ _ _ _ _ _ Hsp).
  - right. split; [done|]. exists t. split; [done|]. by rewrite (sp_kept _ _ _ _ _ _ _ Hsp t Nt).
Qed.

Lemma splits_balanced p W P new New p' W' C done : splits p W P new New p' W' → balanced p W C done → balanced p' W' C done.
Proof.
  intros Hsp Hb s t a b Hsame Hs. apply (splits_same _ _ _ _ _ _ _ s t Hsp) in Hsame as [Hsame _].
  assert (Hold : ∃ b0, hits p s a b0 ∧ (b0 = b ∨ b0 = P ∧ b = new)).
  { destruct (splits_hits _ _ _ _ _ _ _ s a b Hsp Hs) as (u & _ & [(_ & -> & Hh)|(_ & Hh)]); [exists P; auto|exists b; auto]. }
  destruct Hold as (b0 & Hs0 & Hb0). destruct (Hb s t a b0 Hsame Hs0) as [Ht|[Hw|[(b' & Ht & Hw)|Hpend]]].
  - (* both entered the same block *)
    destruct (splits_hits_old _ _ _ _ _ _ _ t a b0 Hsp Ht) as (v & Hdv & Hv).
    destruct (splits_hits _ _ _ _ _ _ _ s a b Hsp Hs) as (u & Hdu & Hu).
    destruct Hu as [(Nu & -> & _)|(Nu & Hu)], Hv as [(Nv & HP & Hv)|(Nv & Hv)].
    + by left.
    + (* s to the new block, t stays in [P] *)
      assert (b0 = P) as ->. { destruct Hb0 as [->|[-> _]]; [|done]. destruct Hs0 as (u' & Hdu' & Hpu'). exfalso. by apply (sp_fresh _ _ _ _ _ _ _ Hsp u'). }
      destruct (sp_half _ _ _ _ _ _ _ Hsp) as [Hh|Hh]; [right; right; left; by exists P|by right; left].
    + (* s stays in [P], t to the new block *)
      assert (b = P) as ->. { destruct Hb0 as [->|[_ ->]]; [done|]. destruct Hu as (u' & _ & Hpu'). exfalso. by apply (sp_fresh _ _ _ _ _ _ _ Hsp u'). }
      destruct (sp_half _ _ _ _ _ _ _ Hsp) as [Hh|Hh]; [by right; left|right; right; left; by exists new].
    + assert (b = b0) as ->; [|by left]. destruct Hb0 as [->|[_ ->]]; [done|]. destruct Hu as (u' & _ & Hpu'). exfalso. by apply (sp_fresh _ _ _ _ _ _ _ Hsp u').
  - right; left. destruct Hb0 as [->|[-> ->]]; [by apply (sp_queue _ _ _ _ _ _ _ Hsp)|by apply (sp_both _ _ _ _ _ _ _ Hsp)].
  - right; right; left. destruct (splits_hits_old _ _ _ _ _ _ _ t a b' Hsp Ht) as (v & _ & [(_ & -> & Hv)|(_ & Hv)]);
      [exists new; split; [done|by apply (sp_both _ _ _ _ _ _ _ Hsp)]|exists b'; split; [done|by apply (sp_queue _ _ _ _ _ _ _ Hsp)]].
  - by right; right; right.
Qed.

Lemma hits_dec p s a b : hits p s a b ∨ ¬ hits p s a b.
Proof using All.
  destruct (Hdelta s a) as [(t & Ht)|Hn]; [|right; intros (t & Ht & _); by apply (Hn t)].
  destruct (decide (p.[t] = Some b)) as [Hp|Hp]; [left; by exists t|right]. intros (u & Hu & Hpu). by rewrite (Hfun s a t u Ht Hu) in Hp.
Qed.

Lemma hits_one p s a b c : hits p s a b → hits p s a c → b = c.
Proof using Hfun. intros (t & Ht & Hb) (u & Hu & Hc). rewrite (Hfun s a t u Ht Hu) in Hb. congruence. Qed.

(** A block leaves the queue to be the splitter. *)
Lemma balanced_pop p W C0 C done0 : balanced p W C0 done0 → (∀ a, done0 a) →
  balanced p (λ b, W b ∧ b ≠ C) (λ t, p.[t] = Some C) (λ _, False).
Proof using All.
  intros Hb Hd s t a b Hsame Hs.
  assert (Hen : ∀ s, enters (λ t, p.[t] = Some C) s a ↔ hits p s a C) by done.
  destruct (Hb s t a b Hsame Hs) as [?|[Hw|[(b' & Ht & Hw)|[Hn _]]]]; [by left| | |by destruct (Hn (Hd a))].
  - destruct (decide (b = C)) as [->|Hne]; [|by right; left]. destruct (hits_dec p t a C) as [Hc|Hc]; [by left|].
    right; right; right. split; [tauto|]. rewrite !Hen. tauto.
  - destruct (decide (b' = C)) as [->|Hne]; [|right; right; left; by exists b'].
    destruct (decide (b = C)) as [->|Hbc]; [by left|]. right; right; right. split; [tauto|]. rewrite !Hen. intros [_ Hback]. by apply Hbc, (hits_one p s a b C), Hback.
Qed.

(** After every input the partition is balanced but for the queue. *)
Lemma balanced_done p W C done done' : balanced p W C done →
  (∀ s t a, same_block p s t → done' a → ¬ done a → enters C s a ↔ enters C t a) →
  balanced p W C (λ a, done a ∨ done' a).
Proof.
  intros Hb Hd s t a b Hsame Hs. destruct (Hb s t a b Hsame Hs) as [?|[?|[?|[Hn Hne]]]]; [by left|by right; left|by right; right; left|].
  right; right; right. split; [|done]. intros [?|Ha]; [done|]. apply Hne. by apply Hd.
Qed.

(** With an empty queue the blocks are closed under the transitions. *)
Lemma balanced_stable p C done : balanced p (λ _, False) C done → (∀ a, done a) →
  ∀ s t a b, same_block p s t → hits p s a b → hits p t a b.
Proof. intros Hb Hd s t a b Hsame Hs. destruct (Hb s t a b Hsame Hs) as [?|[?|[(? & _ & ?)|[Hn _]]]]; [done|done|done|]. by destruct (Hn (Hd a)). Qed.
End split.

(** * A sequence of splits by one set of states *)

Section cuts.
Context (S : N → Prop).

(** Each split separates the states of its block that are in [S] from those
    that are not. *)
Inductive cuts (p : list N) (W : N → Prop) : list N → (N → Prop) → Prop :=
  | cuts_refl : cuts p W p W
  | cuts_step p1 W1 P new New p2 W2 : cuts p W p1 W1 → splits p1 W1 P new New p2 W2 →
      (∀ s t, p1.[s] = Some P → p1.[t] = Some P → (New s ↔ New t) ↔ (S s ↔ S t)) → cuts p W p2 W2.

Lemma cuts_trans p W p1 W1 p2 W2 : cuts p W p1 W1 → cuts p1 W1 p2 W2 → cuts p W p2 W2.
Proof. intros H1 H2. induction H2 as [|p2 W2 P new New p3 W3 _ IH Hsp HS]; [done|]. by apply (cuts_step p W p2 W2 P new New). Qed.

Lemma cuts_coarser p W p' W' s t : cuts p W p' W' → same_block p' s t → same_block p s t.
Proof. intros Hc. induction Hc as [|p1 W1 P new New p2 W2 _ IH Hsp _]; [done|]. intros H. apply IH. by apply (splits_same _ _ _ _ _ _ _ s t Hsp) in H as [H _]. Qed.

Lemma cuts_balanced (delta : N → N → N → Prop) C done p W p' W' : cuts p W p' W' → balanced delta p W C done → balanced delta p' W' C done.
Proof. intros Hc Hb. induction Hc as [|p1 W1 P new New p2 W2 _ IH Hsp _]; [done|]. by eapply splits_balanced. Qed.

(** States that [S] does not tell apart stay together. *)
Lemma cuts_keeps p W p' W' s t : cuts p W p' W' → (S s ↔ S t) → same_block p s t → same_block p' s t.
Proof.
  intros Hc HS Hs. induction Hc as [|p1 W1 P new New p2 W2 _ IH Hsp Hcut]; [done|]. apply (splits_same _ _ _ _ _ _ _ s t Hsp). split; [done|].
  destruct (sp_dec _ _ _ _ _ _ _ Hsp s) as [Ns|Ns], (sp_dec _ _ _ _ _ _ _ Hsp t) as [Nt|Nt]; try tauto.
  - pose proof (sp_new _ _ _ _ _ _ _ Hsp s Ns) as Hp. destruct IH as (b & Hsb & Htb). apply Hcut; [done|congruence|done].
  - pose proof (sp_new _ _ _ _ _ _ _ Hsp t Nt) as Hp. destruct IH as (b & Hsb & Htb). apply Hcut; [congruence|done|done].
Qed.
End cuts.

(** A loop that never panics, with the iterations already made. *)
Lemma foldM_prefix {A B} (P : list A → B → Prop) (f : B → A → option B) b l :
  P [] b → (∀ pre x suf b, l = pre ++ x :: suf → P pre b → ∃ b', f b x = Some b' ∧ P (pre ++ [x]) b') →
  ∃ b', foldM f b l = Some b' ∧ P l b'.
Proof.
  intros Hb Hf. revert P b Hb Hf. induction l as [|x l IH]; intros P b Hb Hf; [by exists b|].
  destruct (Hf [] x l b eq_refl Hb) as (b1 & Hb1 & HP). cbn. rewrite Hb1. cbn.
  apply (IH (λ pre, P (x :: pre))); [done|]. intros pre y suf b2 -> Hpre. by apply (Hf (x :: pre) y suf).
Qed.

(** * The loops that store *)

Lemma store_ok {A} (l : list A) i x : i < lenN l → store l i x = Some (alterN (λ _, x) l i).
Proof. intros [y Hy]%nthN_Some_lt. unfold store. by rewrite Hy. Qed.

Lemma nthN_store {A} (l : list A) i x j : i < lenN l → (alterN (λ _, x) l i).[j] = if j =? i then Some x else l.[j].
Proof. intros [y Hy]%nthN_Some_lt. rewrite nthN_alterN. destruct (N.eqb_spec j i) as [->|]; [by rewrite Hy|done]. Qed.

(** The same value stored at several indices. *)
Definition stored {A} (l : list A) (x : A) (states : list N) (l' : list A) : Prop :=
  lenN l' = lenN l ∧ ∀ s, l'.[s] = if decide (s ∈ states) then Some x else l.[s].

Lemma store_all_ok {A} (l : list A) x states : (∀ s, s ∈ states → s < lenN l) →
  ∃ l', foldM (λ l s, store l s x) l states = Some l' ∧ stored l x states l'.
Proof.
  intros Hs. apply (foldM_prefix (λ pre l', stored l x pre l')).
  - split; [done|]. intros s. rewrite decide_False; [done|]. set_solver.
  - intros pre s suf l' Heq [Hl Hpre]. assert (Hlt : s < lenN l) by (apply Hs; rewrite Heq; set_solver).
    exists (alterN (λ _, x) l' s). split; [apply store_ok; lia|]. split; [by rewrite lenN_alterN|]. intros t. rewrite nthN_store, Hpre by lia.
    destruct (N.eqb_spec t s) as [->|]; repeat case_decide; set_solver.
Qed.

Lemma mark_all_ok value states marks : (∀ s, s ∈ states → s < lenN marks) →
  ∃ marks', mark_all value states marks = Some marks' ∧ stored marks value states marks'.
Proof. apply store_all_ok. Qed.

(** The positions of the states of a block. *)
Definition placed (positions block : list N) : Prop := ∀ k s, block.[k] = Some s → positions.[s] = Some k.

Lemma nthN_NoDup {A} (l : list A) i j x : NoDup l → l.[i] = Some x → l.[j] = Some x → i = j.
Proof. rewrite !nthN_lookup. intros Hnd Hi Hj. pose proof (NoDup_lookup _ _ _ _ Hnd Hi Hj). lia. Qed.

Lemma place_block_ok positions block : NoDup block → (∀ s, s ∈ block → s < lenN positions) → lenN block ≤ u32_modulus →
  ∃ positions', place_block positions block = Some positions' ∧ lenN positions' = lenN positions ∧ placed positions' block ∧
    ∀ s, s ∉ block → positions'.[s] = positions.[s].
Proof.
  intros Hnd Hs Hsmall. unfold place_block.
  destruct (foldM_enumerate (λ k pos, lenN pos = lenN positions ∧ (∀ i s, i < k → block.[i] = Some s → pos.[s] = Some i) ∧ ∀ s, s ∉ block → pos.[s] = positions.[s])
    (λ positions '(position, state), store positions state (as_u32 position)) positions block) as (pos & Hpos & Hl & Hp & Ho).
  - intros k s pos Hk (Hl & Hp & Ho). assert (Hin : s ∈ block) by (apply nthN_elem_of; eauto). pose proof (nthN_lt _ _ _ Hk) as Hlt.
    rewrite as_u32_small by lia. exists (alterN (λ _, k) pos s). split; [apply store_ok; rewrite Hl; by apply Hs|]. split; [by rewrite lenN_alterN|]. split.
    + intros i t Hi Ht. rewrite nthN_store by (rewrite Hl; by apply Hs). destruct (N.eqb_spec t s) as [->|Hne].
      * f_equal. by apply (nthN_NoDup block k i s).
      * apply Hp; [|done]. assert (i ≠ k); [|lia]. intros ->. congruence.
    + intros t Ht. rewrite nthN_store by (rewrite Hl; by apply Hs). destruct (N.eqb_spec t s) as [->|]; [done|by apply Ho].
  - split; [done|]. split; [|done]. intros i s Hi. lia.
  - exists pos. split; [done|]. split; [done|]. split; [|done]. intros k s Hk. apply Hp; [by eapply nthN_lt|done].
Qed.

(** A partition, as the block of every state and as the list of the blocks. *)
Record partition_of (n : N) (p : list N) (blocks : list (list N)) : Prop := {
  po_length : lenN p = n;
  po_block : ∀ b block, blocks.[b] = Some block → NoDup block ∧ block ≠ [] ∧ ∀ s, s ∈ block ↔ p.[s] = Some b;
  po_id : ∀ s b, p.[s] = Some b → b < lenN blocks;
}.

(** No more blocks than states: the first states of the blocks differ. *)
Lemma partition_count n p blocks : partition_of n p blocks → lenN blocks ≤ n.
Proof.
  intros [Hl Hb _]. set (heads := (λ block, default 0 (head block)) <$> blocks).
  assert (Hhead : ∀ b s, heads.[b] = Some s → p.[s] = Some b).
  { intros b s Hs. unfold heads in Hs. rewrite nthN_fmap in Hs. destruct (blocks.[b]) as [block|] eqn:Eb; [|done]. injection Hs as <-.
    destruct (Hb b block Eb) as (_ & Hne & Hin). destruct block as [|x block]; [done|]. apply Hin. by left. }
  assert (Hnd : NoDup heads). { apply NoDup_alt. intros i j x Hi Hj. rewrite <-nthN_of_nat in Hi, Hj. apply Hhead in Hi, Hj. rewrite Hi in Hj. injection Hj. lia. }
  pose proof (NoDup_bounded_length heads (N.to_nat n) Hnd) as Hsz. unfold heads in Hsz at 2. rewrite length_fmap in Hsz. unfold lenN.
  assert (length blocks ≤ N.to_nat n)%nat; [|lia]. apply Hsz. intros s (b & Hbs)%nthN_elem_of. apply Hhead, nthN_lt in Hbs. lia.
Qed.

(** * Removing by swapping *)

Lemma nthN_split {A} (l : list A) i x : l.[i] = Some x → ∃ l1 l2, l = l1 ++ x :: l2 ∧ lenN l1 = i.
Proof.
  rewrite nthN_lookup. intros H. exists (take (N.to_nat i) l), (drop (S (N.to_nat i)) l). split; [by rewrite take_drop_middle|].
  apply lookup_lt_Some in H. unfold lenN. rewrite length_take. lia.
Qed.

Lemma alterN_middle {A} (f : A → A) l1 x l2 : alterN f (l1 ++ x :: l2) (lenN l1) = l1 ++ f x :: l2.
Proof. rewrite alterN_alter. unfold lenN. rewrite Nat2N.id. induction l1 as [|y l1 IH]; [done|]. simpl. f_equal. exact IH. Qed.

Lemma swap_remove_ok block position state : block.[position] = Some state →
  ∃ block', swap_remove block position = Some block' ∧ block ≡ₚ state :: block' ∧
    ∀ k s, block'.[k] = Some s → if k =? position then True else block.[k] = Some s.
Proof.
  intros Hp. destruct (nthN_split _ _ _ Hp) as (l1 & l2 & -> & <-). unfold swap_remove. rewrite Hp.
  destruct l2 as [|z l2 _] using rev_ind.
  - exists l1. rewrite last_snoc. cbn [mbind option_bind]. rewrite alterN_middle. rewrite length_app. simpl.
    replace (Init.Nat.pred (length l1 + 1)) with (length l1) by lia. rewrite take_app_length. split; [done|]. split; [by rewrite Permutation_app_comm|].
    intros k s Hk. destruct (N.eqb_spec k (lenN l1)); [done|]. rewrite nthN_app_l; [done|]. by eapply nthN_lt.
  - exists (l1 ++ z :: l2).
    assert (Hlast : last (l1 ++ state :: (l2 ++ [z])) = Some z) by (by rewrite app_comm_cons, app_assoc, last_snoc).
    rewrite Hlast. cbn [mbind option_bind]. rewrite alterN_middle.
    assert (Hlen : Init.Nat.pred (length (l1 ++ state :: (l2 ++ [z]))) = length (l1 ++ z :: l2)) by (rewrite !length_app; simpl; rewrite length_app; simpl; lia).
    rewrite Hlen, app_comm_cons, app_assoc, take_app_length. split; [done|]. split.
    + trans (state :: (l1 ++ l2 ++ [z])); [symmetry; apply Permutation_middle|]. apply perm_skip, Permutation_app_head. symmetry. apply Permutation_cons_append.
    + intros k s Hk. destruct (N.eqb_spec k (lenN l1)) as [|Hne]; [done|]. rewrite nthN_lookup in *.
      pose proof (lookup_lt_Some _ _ _ Hk) as Hlt. rewrite length_app in Hlt. simpl in Hlt.
      destruct (decide (N.to_nat k < length l1)%nat) as [Hlo|Hhi].
      * by rewrite lookup_app_l in * by lia.
      * unfold lenN in Hne. rewrite lookup_app_r in * by lia. destruct (N.to_nat k - length l1)%nat as [|i] eqn:Ei; [lia|]. simpl in *.
        rewrite lookup_app_l by lia. done.
Qed.

(** The moved states taken out one by one: what is left of the block, and the
    positions of what is left. *)
Lemma take_out_all b block h states : (blocks h).[b] = Some block → NoDup block → placed (position_in_block h) block →
  (∀ s, s ∈ block → s < lenN (position_in_block h)) → lenN block ≤ u32_modulus → NoDup states → (∀ s, s ∈ states → s ∈ block) →
  ∃ left pos, foldM (take_out b) h states = Some (set_positions (λ _, pos) (set_blocks (λ l, alterN (λ _, left) l b) h)) ∧
    block ≡ₚ states ++ left ∧ lenN pos = lenN (position_in_block h) ∧ placed pos left ∧ ∀ s, s ∉ block → pos.[s] = (position_in_block h).[s].
Proof.
  intros Hb Hnd Hpl Hlt Hsmall Hnds Hsub. destruct h as [p bl w iw pos ss bt bs]; cbn [blocks position_in_block] in *.
  destruct (foldM_prefix (λ pre h', ∃ left pos', h' = Hopcroft p (alterN (λ _, left) bl b) w iw pos' ss bt bs ∧
      block ≡ₚ pre ++ left ∧ lenN pos' = lenN pos ∧ placed pos' left ∧ ∀ s, s ∉ block → pos'.[s] = pos.[s])
    (take_out b) (Hopcroft p bl w iw pos ss bt bs) states) as (h' & Hh' & left & pos' & -> & H).
  - exists block, pos. split; [|done]. f_equal. apply nthN_ext. intros i. rewrite nthN_store by by eapply nthN_lt. by destruct (N.eqb_spec i b) as [->|].
  - intros pre x suf h' Heq (left & pos' & -> & Hperm & Hl & Hp & Ho).
    assert (Hxb : x ∈ block) by (apply Hsub; rewrite Heq; set_solver).
    assert (Hx : x ∈ left). { pose proof Hxb as Hx. rewrite Hperm in Hx. apply elem_of_app in Hx as [Hx|Hx]; [|done]. rewrite Heq in Hnds. apply NoDup_app in Hnds as (_ & Hd & _). destruct (Hd x Hx). by left. }
    apply nthN_elem_of in Hx as (k & Hk). destruct (swap_remove_ok left k x Hk) as (left' & Hsr & Hperm' & Hin).
    assert (Hnd' : NoDup left'). { rewrite Hperm in Hnd. apply NoDup_app in Hnd as (_ & _ & Hnd). rewrite Hperm' in Hnd. by apply NoDup_cons in Hnd as [_ Hnd]. }
    unfold take_out. cbn [position_in_block blocks]. rewrite (Hp k x Hk). cbn [mbind option_bind]. rewrite nthN_store by by eapply nthN_lt. rewrite N.eqb_refl. cbn [mbind option_bind]. rewrite Hsr. cbn [mbind option_bind].
    assert (Haa : alterN (λ _, left') (alterN (λ _, left) bl b) b = alterN (λ _, left') bl b).
    { apply nthN_ext. intros i. rewrite !nthN_store by (rewrite ?lenN_alterN; by eapply nthN_lt). by destruct (i =? b). }
    assert (Hperm2 : block ≡ₚ (pre ++ [x]) ++ left') by (rewrite Hperm, Hperm', <-app_assoc; done).
    assert (Hkm : k < u32_modulus). { pose proof (nthN_lt _ _ _ Hk) as Hkl. pose proof (Permutation_length Hperm) as Hlen. rewrite length_app in Hlen. unfold lenN in *. lia. }
    destruct (left'.[k]) as [z|] eqn:Ez.
    + assert (Hz : z ∈ block). { rewrite Hperm2. apply elem_of_app. right. apply nthN_elem_of. eauto. }
      rewrite as_u32_small by done. cbn [position_in_block set_blocks]. rewrite store_ok by (rewrite Hl; by apply Hlt). cbn [mbind option_bind].
      eexists. split; [done|]. exists left', (alterN (λ _, k) pos' z). split; [unfold set_positions, set_blocks; cbn; by rewrite Haa|]. split; [done|]. split; [by rewrite lenN_alterN|]. split.
      * intros j s Hj. rewrite nthN_store by (rewrite Hl; by apply Hlt). destruct (N.eqb_spec s z) as [->|Hne].
        -- f_equal. by apply (nthN_NoDup left' k j z).
        -- pose proof (Hin j s Hj) as Hjl. destruct (N.eqb_spec j k) as [->|]; [congruence|]. by apply Hp.
      * intros s Hs. rewrite nthN_store by (rewrite Hl; by apply Hlt). destruct (N.eqb_spec s z) as [->|]; [done|by apply Ho].
    + eexists. split; [done|]. exists left', pos'. split; [unfold set_blocks; cbn; by rewrite Haa|]. split; [done|]. split; [done|]. split; [|done].
      intros j s Hj. pose proof (Hin j s Hj) as Hjl. destruct (N.eqb_spec j k) as [->|]; [congruence|]. by apply Hp.
  - rewrite Hh'. by exists left, pos'.
Qed.

(** * Dividing a block *)

Lemma keep_unmarked_ok marks (block sources : list N) : (∀ s, s ∈ block → marks.[s] = Some (bool_decide (s ∈ sources))) →
  keep_unmarked marks block = Some (filter (λ s, s ∉ sources) block).
Proof.
  intros Hm. unfold keep_unmarked. destruct (foldM_prefix (λ pre kept, kept = filter (λ s, s ∉ sources) pre)
    (λ kept state, mark ← marks.[state]; Some (if (mark : bool) then kept else kept ++ [state])) [] block) as (kept & -> & ->); [done| |done].
  intros pre s suf kept Heq ->. rewrite Hm by (rewrite Heq; set_solver). cbn [mbind option_bind]. eexists. split; [done|].
  rewrite filter_app, filter_cons, filter_nil. destruct (bool_decide_reflect (s ∈ sources)) as [Hin|Hin]; [rewrite decide_False by tauto; by rewrite app_nil_r|by rewrite decide_True].
Qed.

Lemma sources_and_rest (block sources : list N) : NoDup block → NoDup sources → (∀ s, s ∈ sources → s ∈ block) →
  block ≡ₚ sources ++ filter (λ s, s ∉ sources) block.
Proof.
  intros Hb Hs Hsub. apply NoDup_Permutation; [done| |].
  - apply NoDup_app. split; [done|]. split; [|by apply NoDup_filter]. intros s Hin [Hn _]%list_elem_of_filter. done.
  - intros s. rewrite elem_of_app, list_elem_of_filter. destruct (decide (s ∈ sources)); naive_solver.
Qed.

Section divide.
Context (canonical : bool).

(** What the marks say of the states of a block before it is divided. *)
Definition marks_for (marks : list bool) (block sources : list N) : Prop :=
  ∀ s, s ∈ block → marks.[s] = Some (if canonical then false else bool_decide (s ∈ sources)).

Definition positions_for (positions block : list N) : Prop :=
  canonical = true → placed positions block ∧ ∀ s, s ∈ block → s < lenN positions.

Lemma divide_block_ok h b move block sources : (blocks h).[b] = Some block → NoDup block → lenN block ≤ u32_modulus →
  NoDup sources → (∀ s, s ∈ sources → s ∈ block) → marks_for (source_set h) block sources → positions_for (position_in_block h) block →
  ∃ remaining new_block pos,
    divide_block canonical h b move block sources =
      Some (Hopcroft (partition h) (alterN (λ _, remaining) (blocks h) b) (worklist h) (in_worklist h) pos (source_set h) (block_touched h)
              (alterN (λ _, []) (block_sources h) b), new_block) ∧
    block ≡ₚ new_block ++ remaining ∧ (new_block = sources ∨ remaining = sources) ∧
    lenN pos = lenN (position_in_block h) ∧ (canonical = true → placed pos remaining) ∧
    ∀ s, s ∉ block → pos.[s] = (position_in_block h).[s].
Proof.
  intros Hb Hnd Hsmall Hnds Hsub Hm Hp. unfold divide_block. pose proof (sources_and_rest block sources Hnd Hnds Hsub) as Hperm.
  set (rest := filter (λ s, s ∉ sources) block) in *. unfold marks_for, positions_for in *. destruct h as [p bl w iw pos ss bt bs]; cbn [blocks source_set position_in_block partition worklist in_worklist block_touched block_sources] in *.
  destruct canonical; cbn [andb].
  - destruct (Hp eq_refl) as [Hpl Hlt]. destruct move.
    + destruct (take_out_all b block (set_sources (λ l, alterN (λ _, []) l b) (Hopcroft p bl w iw pos ss bt bs)) sources) as (left & pos' & -> & Hperm' & Hl & Hpl' & Ho); try done.
      exists left, sources, pos'. split; [done|]. split; [done|]. split; [by left|]. done.
    + assert (Hss : ∀ s, s ∈ sources → s < lenN ss) by (intros s Hs; by eapply nthN_lt, Hm, Hsub).
      destruct (mark_all_ok true sources ss Hss) as (m1 & -> & [Hl1 H1]). cbn [mbind option_bind].
      rewrite (keep_unmarked_ok m1 block sources).
      2:{ intros s Hs. rewrite H1. rewrite (Hm s Hs). case_decide; [by rewrite bool_decide_true|by rewrite bool_decide_false]. }
      cbn [mbind option_bind]. destruct (mark_all_ok false sources m1) as (m2 & -> & [Hl2 H2]); [intros s Hs; rewrite Hl1; by apply Hss|]. cbn [mbind option_bind].
      assert (m2 = ss) as ->. { apply nthN_ext. intros s. rewrite H2, H1. case_decide as Hs; [by rewrite (Hm s (Hsub s Hs))|done]. }
      assert (Hlens : lenN sources ≤ lenN block) by (pose proof (Permutation_length Hperm) as Hlen; rewrite length_app in Hlen; unfold lenN; lia).
      cbn [position_in_block set_sources set_blocks set_source_set].
      destruct (place_block_ok pos sources Hnds) as (pos' & -> & Hl & Hpl' & Ho); [intros s Hs; by apply Hlt, Hsub|lia|]. cbn [mbind option_bind].
      exists sources, rest, pos'. split; [done|]. split; [by rewrite (Permutation_app_comm rest)|]. split; [by right|]. split; [done|]. split; [done|].
      intros s Hs. apply Ho. intros Hin. by apply Hs, Hsub.
  - cbn [mbind option_bind]. rewrite (keep_unmarked_ok ss block sources Hm). cbn [mbind option_bind]. fold rest. destruct move; cbn [mbind option_bind].
    + exists rest, sources, pos. split; [done|]. split; [done|]. split; [by left|]. done.
    + exists sources, rest, pos. split; [done|]. split; [by rewrite (Permutation_app_comm rest)|]. split; [by right|]. done.
Qed.
End divide.

Section tables.
Context (canonical : bool) (n : N).

Record tables (h : hopcroft) : Prop := {
  tb_partition : lenN (partition h) = n;
  tb_block : ∀ b block, (blocks h).[b] = Some block → NoDup block ∧ block ≠ [] ∧ ∀ s, s ∈ block ↔ (partition h).[s] = Some b;
  tb_id : ∀ s b, (partition h).[s] = Some b → b < lenN (blocks h);
  tb_in : lenN (in_worklist h) = lenN (blocks h);
  tb_touched : lenN (block_touched h) = lenN (blocks h);
  tb_sources : lenN (block_sources h) = lenN (blocks h);
  tb_queue : ∀ b, b ∈ worklist h ↔ (in_worklist h).[b] = Some true;
  tb_nodup : NoDup (worklist h);
  tb_positions : canonical = true → lenN (position_in_block h) = n ∧ ∀ b block, (blocks h).[b] = Some block → placed (position_in_block h) block;
}.

Lemma block_lt h b block s : tables h → (blocks h).[b] = Some block → s ∈ block → s < n.
Proof. intros Ht Hb Hs. destruct (tb_block h Ht b block Hb) as (_ & _ & Hin). apply Hin in Hs. rewrite <-(tb_partition h Ht). by eapply nthN_lt. Qed.

Lemma block_size h b block : tables h → (blocks h).[b] = Some block → lenN block ≤ n.
Proof.
  intros Ht Hb. destruct (tb_block h Ht b block Hb) as (Hnd & _ & _). pose proof (NoDup_bounded_length block (N.to_nat n) Hnd) as H.
  unfold lenN. assert (length block ≤ N.to_nat n)%nat; [|lia]. apply H. intros s Hs. pose proof (block_lt h b block s Ht Hb Hs). lia.
Qed.

Lemma tables_partition h : tables h → partition_of n (partition h) (blocks h).
Proof. intros Ht. split; [apply (tb_partition h Ht)|apply (tb_block h Ht)|apply (tb_id h Ht)]. Qed.

Lemma blocks_bound h : tables h → lenN (blocks h) ≤ n.
Proof. intros Ht. by eapply partition_count, tables_partition. Qed.

(** ** The queue *)

Lemma enqueue_half_ok h b new bb nb : (in_worklist h).[b] = Some bb → (blocks h).[b] ≠ None → (blocks h).[new] = Some nb → b < u32_modulus → new < u32_modulus →
  ∃ x, enqueue_half h b new = Some (set_queue (λ l, l ++ [x]) (λ l, alterN (λ _, true) l x) h) ∧ (x = b ∨ x = new) ∧ (bb = true → x = new).
Proof.
  intros Hq Hb Hn Hbs Hns. unfold enqueue_half. rewrite Hq. cbn [mbind option_bind]. rewrite !as_u32_small by done. destruct bb.
  - exists new. split; [done|]. split; [by right|done].
  - destruct ((blocks h).[b]) as [block|]; [|done]. cbn [mbind option_bind]. rewrite Hn. cbn [mbind option_bind]. destruct (_ <=? _).
    + exists b. split; [done|]. split; [by left|done].
    + exists new. split; [done|]. split; [by right|done].
Qed.

(** ** The division of a block, seen from the tables *)

(** The states [new_block] of block [b] in the tables of a new block. *)
Definition moved (h : hopcroft) (b : N) (remaining new_block p' pos' : list N) : hopcroft :=
  Hopcroft p' (alterN (λ _, remaining) (blocks h) b ++ [new_block]) (worklist h) (in_worklist h ++ [false]) pos'
    (source_set h) (block_touched h ++ [false]) (alterN (λ _, []) (block_sources h) b ++ [[]]).

Lemma moved_block h b block remaining new_block p' pos' c blk : (blocks h).[b] = Some block →
  (blocks (moved h b remaining new_block p' pos')).[c] = Some blk →
  c = lenN (blocks h) ∧ blk = new_block ∨ c = b ∧ c < lenN (blocks h) ∧ blk = remaining ∨ c ≠ b ∧ c < lenN (blocks h) ∧ (blocks h).[c] = Some blk.
Proof.
  intros Hb. pose proof (nthN_lt _ _ _ Hb) as Hlt. unfold moved. cbn [blocks]. rewrite nthN_snoc, lenN_alterN. destruct (N.eqb_spec c (lenN (blocks h))) as [Hc|Hc].
  - intros [= <-]. by left.
  - rewrite nthN_store by done. destruct (N.eqb_spec c b) as [Hcb|Hcb].
    + intros [= <-]. right; left. subst. done.
    + intros H. right; right. split; [done|]. split; [by eapply nthN_lt|done].
Qed.

Lemma moved_partition h b block remaining new_block p' s c : tables h → (blocks h).[b] = Some block → block ≡ₚ new_block ++ remaining →
  stored (partition h) (lenN (blocks h)) new_block p' →
  p'.[s] = Some c ↔ c = lenN (blocks h) ∧ s ∈ new_block ∨ c = b ∧ s ∈ remaining ∨ c ≠ b ∧ c ≠ lenN (blocks h) ∧ (partition h).[s] = Some c.
Proof.
  intros Ht Hb Hperm [_ Hp]. pose proof (nthN_lt _ _ _ Hb) as Hlt. destruct (tb_block h Ht b block Hb) as (Hnd & _ & Hin).
  assert (Hd : ∀ s, s ∈ new_block → s ∉ remaining) by (intros t H1 H2; rewrite Hperm in Hnd; apply NoDup_app in Hnd as (_ & Hd & _); by apply (Hd t)).
  assert (Hor : s ∈ block ↔ s ∈ new_block ∨ s ∈ remaining) by (by rewrite Hperm, elem_of_app). rewrite Hp. rewrite Hin in Hor. case_decide as Hs.
  - split; [intros [= <-]; by left|]. intros [[-> _]|[[_ Hr]|(Hne & _ & Hc)]]; [done|by destruct (Hd s Hs)|]. destruct Hne. assert ((partition h).[s] = Some b) by tauto. congruence.
  - split.
    + intros Hc. pose proof (tb_id h Ht s c Hc) as Hcl. destruct (decide (c = b)) as [->|Hne]; [right; left; tauto|right; right]. split; [done|]. split; [lia|done].
    + intros [[_ ?]|[[-> Hr]|(_ & _ & Hc)]]; [done|tauto|done].
Qed.

Lemma moved_splits h b block remaining new_block p' x : tables h → (blocks h).[b] = Some block → block ≡ₚ new_block ++ remaining →
  stored (partition h) (lenN (blocks h)) new_block p' → (x = b ∨ x = lenN (blocks h)) → ((in_worklist h).[b] = Some true → x = lenN (blocks h)) →
  splits (partition h) (λ c, c ∈ worklist h) b (lenN (blocks h)) (λ s, s ∈ new_block) p' (λ c, c ∈ worklist h ++ [x]).
Proof.
  intros Ht Hb Hperm Hp Hx Hq. destruct (tb_block h Ht b block Hb) as (Hnd & _ & Hin). destruct Hp as [Hpl Hp]. split.
  - intros s Hs. pose proof (tb_id h Ht s _ Hs). lia.
  - intros s Hs. apply Hin. rewrite Hperm. apply elem_of_app. by left.
  - intros s Hs. by rewrite Hp, decide_True.
  - intros s Hs. by rewrite Hp, decide_False.
  - intros s. destruct (decide (s ∈ new_block)); tauto.
  - intros c Hc. apply elem_of_app. by left.
  - intros Hc. apply elem_of_app. right. apply list_elem_of_singleton. symmetry. apply Hq. by apply (tb_queue h Ht).
  - destruct Hx as [-> | ->]; [left|right]; apply elem_of_app; right; by left.
Qed.

(** The tables after the division, but for the queue, are consistent. *)
Lemma moved_tables h b block remaining new_block p' pos' x : tables h → (blocks h).[b] = Some block → block ≡ₚ new_block ++ remaining → new_block ≠ [] → remaining ≠ [] →
  stored (partition h) (lenN (blocks h)) new_block p' → (x = b ∨ x = lenN (blocks h)) → ((in_worklist h).[b] = Some true → x = lenN (blocks h)) →
  (canonical = true → lenN pos' = n ∧ placed pos' new_block ∧ placed pos' remaining ∧ ∀ s, s ∉ block → pos'.[s] = (position_in_block h).[s]) →
  tables (set_queue (λ l, l ++ [x]) (λ l, alterN (λ _, true) l x) (moved h b remaining new_block p' pos')).
Proof.
  intros Ht Hb Hperm Hn Hr Hp Hx Hxq Hpos. destruct (tb_block h Ht b block Hb) as (Hnd & _ & Hin). pose proof (nthN_lt _ _ _ Hb) as Hlt.
  pose proof Hnd as Hnd'. rewrite Hperm in Hnd'. apply NoDup_app in Hnd' as (Hndn & Hd & Hndr).
  pose proof (λ s c, moved_partition h b block remaining new_block p' s c Ht Hb Hperm Hp) as Hpart.
  set (h' := moved h b remaining new_block p' pos') in *.
  assert (Hlen : lenN (blocks h') = lenN (blocks h) + 1) by (unfold h', moved; cbn [blocks]; by rewrite lenN_snoc, lenN_alterN).
  split; unfold set_queue; cbn [partition blocks worklist in_worklist position_in_block source_set block_touched block_sources].
  - rewrite <-(tb_partition h Ht). apply (proj1 Hp).
  - intros c blk Hc. apply (moved_block h b block) in Hc as [(-> & ->)|[(-> & _ & ->)|(Hne & Hcl & Hc)]]; [| | |done].
    + split; [done|]. split; [done|]. intros s. change (partition h') with p'. rewrite Hpart. split; [by left|]. intros [[_ ?]|[[Heq _]|(_ & ? & _)]]; [done|lia|done].
    + split; [done|]. split; [done|]. intros s. change (partition h') with p'. rewrite Hpart. split; [by right; left|]. intros [[Heq _]|[[_ ?]|(? & _ & _)]]; [lia|done|done].
    + destruct (tb_block h Ht c blk Hc) as (Hndc & Hnec & Hinc). split; [done|]. split; [done|]. intros s. change (partition h') with p'. rewrite Hpart, Hinc. split; [right; right; split; [done|]; split; [lia|done]|].
      intros [[Heq _]|[[Heq _]|(_ & _ & ?)]]; [lia|done|done].
  - intros s c Hc. rewrite Hlen. change (partition h') with p' in Hc. apply Hpart in Hc as [[-> _]|[[-> _]|(_ & _ & Hc)]]; [lia|lia|]. pose proof (tb_id h Ht s c Hc). lia.
  - rewrite lenN_alterN, Hlen. unfold h', moved. cbn [in_worklist]. by rewrite lenN_snoc, (tb_in h Ht).
  - rewrite Hlen. unfold h', moved. cbn [block_touched]. by rewrite lenN_snoc, (tb_touched h Ht).
  - rewrite Hlen. unfold h', moved. cbn [block_sources]. by rewrite lenN_snoc, lenN_alterN, (tb_sources h Ht).
  - intros c. unfold h', moved. cbn [worklist in_worklist]. pose proof (tb_in h Ht) as Hil.
    rewrite nthN_store by (rewrite lenN_snoc; destruct Hx as [-> | ->]; lia). rewrite elem_of_app, list_elem_of_singleton, nthN_snoc, Hil.
    destruct (N.eqb_spec c x) as [->|Hne]; [split; [done|by right]|]. rewrite (tb_queue h Ht). destruct (N.eqb_spec c (lenN (blocks h))) as [->|]; [|naive_solver].
    split; [|done]. intros [Hc|?]; [|done]. apply nthN_lt in Hc. lia.
  - unfold h', moved. cbn [worklist]. apply NoDup_app. split; [apply (tb_nodup h Ht)|]. split; [|apply NoDup_singleton]. intros c Hc ->%list_elem_of_singleton.
    apply (tb_queue h Ht) in Hc. pose proof (nthN_lt _ _ _ Hc) as Hcl. rewrite (tb_in h Ht) in Hcl. destruct Hx as [Heq|Heq]; [|lia]. rewrite Heq in Hc. specialize (Hxq Hc). lia.
  - intros Hcan. destruct (Hpos Hcan) as (Hlp & Hpn & Hpr & Hpo). destruct (tb_positions h Ht Hcan) as [_ Hold]. split; [done|].
    intros c blk Hc. change (position_in_block h') with pos'. apply (moved_block h b block) in Hc as [(-> & ->)|[(-> & _ & ->)|(Hne & Hcl & Hc)]]; [done|done| |done].
    intros k s Hk. rewrite Hpo; [by apply (Hold c blk Hc)|]. intros Hs. apply Hin in Hs. destruct (tb_block h Ht c blk Hc) as (_ & _ & Hinc).
    assert ((partition h).[s] = Some c) by (apply Hinc, nthN_elem_of; eauto). congruence.
Qed.

(** ** One block *)

(** What a split leaves of the other blocks and of the scratch tables. *)
Record splits_only (b : N) (h h' : hopcroft) : Prop := {
  so_set : source_set h' = source_set h;
  so_more : lenN (blocks h) ≤ lenN (blocks h');
  so_blocks : ∀ c, c ≠ b → c < lenN (blocks h) → (blocks h').[c] = (blocks h).[c];
  so_sources : ∀ c, c ≠ b → c < lenN (blocks h) → (block_sources h').[c] = (block_sources h).[c];
  so_new : ∀ c, lenN (blocks h) ≤ c → c < lenN (blocks h') → (block_sources h').[c] = Some [] ∧ (block_touched h').[c] = Some false;
  so_touched : ∀ c, c < lenN (blocks h) → (block_touched h').[c] = (block_touched h).[c];
  so_work : (length (worklist h') + length (blocks h) = length (worklist h) + length (blocks h'))%nat;
}.

Lemma splits_only_refl b h : splits_only b h h.
Proof. split; [done|done|done|done|intros c; lia|done|done]. Qed.

(** The queue as a set of blocks. *)
Definition queue (h : hopcroft) : N → Prop := λ c, c ∈ worklist h.

Context (Hn : n < u32_modulus).

Lemma split_block_ok (A : N → Prop) h b block srcs : tables h → (blocks h).[b] = Some block → (block_sources h).[b] = Some srcs →
  NoDup srcs → (∀ s, s ∈ srcs ↔ s ∈ block ∧ A s) → marks_for canonical (source_set h) block srcs →
  ∃ h', split_block canonical h b = Some h' ∧ tables h' ∧ splits_only b h h' ∧ cuts A (partition h) (queue h) (partition h') (queue h') ∧
    ∀ s t, s ∈ block → t ∈ block → same_block (partition h') s t → A s ↔ A t.
Proof using Hn.
  intros Ht Hb Hsrc Hnds HA Hm. destruct (tb_block h Ht b block Hb) as (Hnd & Hne & Hin). pose proof (nthN_lt _ _ _ Hb) as Hlt.
  pose proof (sources_and_rest block srcs Hnd Hnds (λ s Hs, proj1 (proj1 (HA s) Hs))) as Hperm0. pose proof (Permutation_length Hperm0) as Hl0. rewrite length_app in Hl0.
  set (rest := filter (λ s, s ∉ srcs) block) in *.
  assert (Hwhole : srcs = [] ∨ rest = [] → ∃ h', Some h = Some h' ∧ tables h' ∧ splits_only b h h' ∧ cuts A (partition h) (queue h) (partition h') (queue h') ∧
    ∀ s t, s ∈ block → t ∈ block → same_block (partition h') s t → A s ↔ A t).
  { intros Hw. exists h. split; [done|]. split; [done|]. split; [apply splits_only_refl|]. split; [apply cuts_refl|]. intros s t Hs Hst _.
    assert (Hiff : ∀ s, s ∈ block → A s ↔ s ∈ srcs) by (intros u Hu; rewrite HA; tauto). rewrite (Hiff s), (Hiff t) by done. destruct Hw as [->|Hw]; [set_solver|].
    rewrite Hw, app_nil_r in Hperm0. rewrite <-!Hperm0. tauto. }
  unfold split_block. rewrite Hb. destruct (N.leb_spec (lenN block) 1) as [H1|H1].
  { apply Hwhole. unfold lenN in H1. destruct srcs; [by left|]. right. destruct rest; [done|]. simpl in Hl0. lia. }
  rewrite Hsrc. cbn [mbind option_bind]. destruct (N.eqb_spec (lenN srcs) 0) as [H0|H0]; cbn [orb].
  { apply Hwhole. left. apply length_zero_iff_nil. unfold lenN in H0. lia. }
  destruct (N.eqb_spec (lenN srcs) (lenN block)) as [Hall|Hall].
  { apply Hwhole. right. apply length_zero_iff_nil. unfold lenN in Hall. lia. }
  clear Hwhole. pose proof (block_size h b block Ht Hb) as Hsize.
  destruct (divide_block_ok canonical h b (lenN srcs <=? lenN block - lenN srcs) block srcs) as (remaining & new_block & pos & -> & Hperm & Hside & Hlp & Hpr & Hpo); try done; [lia|by intros s [? _]%HA| |].
  { intros Hcan. destruct (tb_positions h Ht Hcan) as [Hpl Hp]. split; [by apply (Hp b block)|]. intros s Hs. rewrite Hpl. by apply (block_lt h b block s). }
  cbn [mbind option_bind partition blocks worklist in_worklist position_in_block source_set block_touched block_sources].
  pose proof (Permutation_length Hperm) as Hl. rewrite length_app in Hl.
  assert (Hnonempty : new_block ≠ [] ∧ remaining ≠ []).
  { unfold lenN in *. destruct Hside as [-> | ->]; split; intros ->; simpl in *; lia. }
  destruct Hnonempty as [Hnn Hrn]. pose proof (blocks_bound h Ht) as Hbb.
  rewrite as_u32_small by lia.
  destruct (store_all_ok (partition h) (lenN (blocks h)) new_block) as (p' & -> & Hp').
  { intros s Hs. rewrite (tb_partition h Ht). apply (block_lt h b block s Ht Hb). rewrite Hperm. apply elem_of_app. by left. }
  cbn [mbind option_bind].
  assert (Hplace : ∃ pos', (if canonical then place_block pos new_block else Some pos) = Some pos' ∧
    (canonical = true → lenN pos' = n ∧ placed pos' new_block ∧ placed pos' remaining ∧ ∀ s, s ∉ block → pos'.[s] = (position_in_block h).[s])).
  { rewrite Hperm in Hnd. apply NoDup_app in Hnd as (Hndn & Hdisj & _). destruct canonical eqn:Ecan; [|by exists pos]. destruct (tb_positions h Ht Ecan) as [Hpl _].
    destruct (place_block_ok pos new_block) as (pos' & -> & Hl' & Hpn & Ho); [done| |unfold lenN in *; lia|].
    - intros s Hs. rewrite Hlp, Hpl. apply (block_lt h b block s Ht Hb). rewrite Hperm. apply elem_of_app. by left.
    - exists pos'. split; [done|]. intros _. split; [by rewrite Hl', Hlp|]. split; [done|]. split.
      + intros k s Hk. rewrite Ho; [by apply Hpr|]. intros Hs. apply (Hdisj s Hs). apply nthN_elem_of. eauto.
      + intros s Hs. rewrite Ho; [by apply Hpo|]. intros Hs'. apply Hs. rewrite Hperm. apply elem_of_app. by left. }
  destruct Hplace as (pos' & -> & Hpos'). cbn [mbind option_bind]. fold (moved h b remaining new_block p' pos').
  set (h2 := moved h b remaining new_block p' pos') in *.
  assert (Hwb : ∃ bb, (in_worklist h).[b] = Some bb) by (apply nthN_Some_lt; rewrite (tb_in h Ht); done). destruct Hwb as (bb & Hwb).
  destruct (enqueue_half_ok h2 b (lenN (blocks h)) bb new_block) as (x & -> & Hx & Hq).
  { unfold h2, moved. cbn [in_worklist]. rewrite nthN_app_l; [done|]. by eapply nthN_lt. }
  { unfold h2, moved. cbn [blocks]. rewrite nthN_app_l by (rewrite lenN_alterN; done). rewrite nthN_store by done. by rewrite N.eqb_refl. }
  { unfold h2, moved. cbn [blocks]. rewrite nthN_snoc, lenN_alterN. by rewrite N.eqb_refl. }
  { lia. } { lia. }
  eexists. split; [done|]. assert (Hxq : (in_worklist h).[b] = Some true → x = lenN (blocks h)) by (intros Hw; apply Hq; congruence).
  split; [by apply (moved_tables h b block)|].
  assert (Hsplit := moved_splits h b block remaining new_block p' x Ht Hb Hperm Hp' Hx Hxq).
  assert (Hside' : ∀ s, s ∈ block → (s ∈ new_block ↔ A s) ∧ new_block = srcs ∨ (s ∈ new_block ↔ ¬ A s) ∧ remaining = srcs).
  { intros s Hs. assert (Hiff : s ∈ srcs ↔ A s) by (rewrite HA; tauto). destruct Hside as [Heq|Heq]; [left; split; [by rewrite Heq|done]|right; split; [|done]].
    rewrite <-Hiff, <-Heq. rewrite Hperm in Hnd, Hs. apply NoDup_app in Hnd as (_ & Hd & _). apply elem_of_app in Hs. split; [apply Hd|]. tauto. }
  assert (Hcut : ∀ s t, s ∈ block → t ∈ block → (s ∈ new_block ↔ t ∈ new_block) ↔ (A s ↔ A t)).
  { intros s t Hs Hst. assert (HdA : ∀ s, s ∈ block → A s ∨ ¬ A s) by (intros u Hu; destruct (decide (u ∈ srcs)) as [Hd|Hd]; rewrite HA in Hd; tauto).
    pose proof (HdA s Hs). pose proof (HdA t Hst).
    destruct (Hside' s Hs) as [[? Hs1]|[? Hs1]], (Hside' t Hst) as [[? Ht1]|[? Ht1]]; try tauto.
    all: exfalso; rewrite Hs1, Ht1 in Hperm; rewrite Hperm in Hnd; apply NoDup_app in Hnd as (_ & Hd & _); destruct srcs as [|u ?]; [done|]; apply (Hd u); by left. }
  split; [|split].
  - split; unfold set_queue, h2, moved; cbn [partition blocks worklist in_worklist position_in_block source_set block_touched block_sources].
    + done.
    + rewrite lenN_snoc, lenN_alterN. lia.
    + intros c Hc Hcl. rewrite nthN_app_l by (rewrite lenN_alterN; done). rewrite nthN_store by done. by destruct (N.eqb_spec c b).
    + intros c Hc Hcl. rewrite nthN_app_l by (rewrite lenN_alterN, (tb_sources h Ht); done). rewrite nthN_store by (rewrite (tb_sources h Ht); done). by destruct (N.eqb_spec c b).
    + intros c Hc Hcl. rewrite lenN_snoc, lenN_alterN in Hcl. assert (c = lenN (blocks h)) as -> by lia. rewrite !nthN_snoc, lenN_alterN, (tb_sources h Ht), (tb_touched h Ht), N.eqb_refl. done.
    + intros c Hc. apply nthN_app_l. by rewrite (tb_touched h Ht).
    + rewrite !length_app, length_alterN. simpl. lia.
  - eapply cuts_step; [apply cuts_refl|exact Hsplit|]. intros s t Hs Hst. apply Hcut; by apply Hin.
  - intros s t Hs Hst Hsame. apply Hcut; [done|done|]. by apply (splits_same _ _ _ _ _ _ _ s t Hsplit) in Hsame as [_ Hsame].
Qed.
End tables.

Section input.
Context (canonical : bool) (n : N) (Hn : n < u32_modulus).

Abbreviation tables := (tables canonical n).

(** Between two inputs the scratch tables are clean. *)
Record idle (h : hopcroft) : Prop := {
  id_tables : tables h;
  id_set_length : lenN (source_set h) = n;
  id_set : ∀ s, s < n → (source_set h).[s] = Some false;
  id_touched : ∀ c, c < lenN (blocks h) → (block_touched h).[c] = Some false;
  id_sources : ∀ c, c < lenN (blocks h) → (block_sources h).[c] = Some [];
}.

(** * Filing the sources *)

(** The tables once the sources [pre] are filed. *)
Record filed (h0 h : hopcroft) (touched pre : list N) : Prop := {
  fl_tables : tables h;
  fl_same : partition h = partition h0 ∧ blocks h = blocks h0 ∧ worklist h = worklist h0;
  fl_set_length : lenN (source_set h) = n;
  fl_set : ∀ s, s < n → (source_set h).[s] = Some (if canonical then false else bool_decide (s ∈ pre));
  fl_nodup : NoDup touched;
  fl_in : ∀ c, c ∈ touched ↔ ∃ s, s ∈ pre ∧ (partition h0).[s] = Some c;
  fl_touched : ∀ c, c < lenN (blocks h0) → (block_touched h).[c] = Some (bool_decide (c ∈ touched));
  fl_sources : ∀ c, c < lenN (blocks h0) → (block_sources h).[c] = Some (filter (λ s, (partition h0).[s] = Some c) pre);
}.

Lemma filed_idle h : idle h → filed h h [] [].
Proof.
  intros [Ht Hl Hs Hb Hc]. split; try done.
  - intros s Hsn. rewrite Hs by done. by destruct canonical.
  - constructor.
  - intros c. set_solver.
Qed.

(** The consistency of the tables does not depend on the contents of the scratch
    tables. *)
Lemma tables_scratch p bl w iw pos ss bt bs ss' bt' bs' : tables (Hopcroft p bl w iw pos ss bt bs) → lenN bt' = lenN bt → lenN bs' = lenN bs →
  tables (Hopcroft p bl w iw pos ss' bt' bs').
Proof. intros [H1 H2 H3 H4 H5 H6 H7 H8 H9] Hbt Hbs. split; cbn in *; try done; congruence. Qed.

Lemma file_source_ok h0 h touched pre s ss' : filed h0 h touched pre → s < n → s ∉ pre →
  lenN ss' = n → (∀ t, t < n → ss'.[t] = Some (if canonical then false else bool_decide (t ∈ pre ++ [s]))) →
  ∃ h' touched', file_source (set_source_set (λ _, ss') h, touched) s = Some (h', touched') ∧ filed h0 h' touched' (pre ++ [s]).
Proof.
  intros [Ht (Hp & Hb & Hw) Hsl Hs Hnd Hin Hbt Hbs] Hsn Hpre Hsl' Hs'. destruct h as [p bl w iw pos ss bt bs]; cbn [partition blocks worklist source_set block_touched block_sources] in *. subst p bl w.
  unfold file_source, set_source_set. cbn [partition blocks worklist in_worklist position_in_block source_set block_touched block_sources].
  destruct (nthN_Some_lt (partition h0) s) as [Hsome _]. pose proof (tb_partition _ _ _ Ht) as Hpl. cbn [partition] in Hpl. rewrite Hpl in Hsome.
  destruct (Hsome Hsn) as [c Hc]. rewrite Hc. cbn [mbind option_bind]. pose proof (tb_id _ _ _ Ht s c Hc) as Hcl. cbn [blocks] in Hcl. rewrite (Hbt c Hcl).
  pose proof (tb_touched _ _ _ Ht) as Hbtl. pose proof (tb_sources _ _ _ Ht) as Hbsl. cbn [block_touched block_sources blocks] in Hbtl, Hbsl.
  assert (Hbs' : ∀ c', c' < lenN (blocks h0) → (alterN (λ b, b ++ [s]) bs c).[c'] = Some (filter (λ s, (partition h0).[s] = Some c') (pre ++ [s]))).
  { intros c' Hc'. rewrite nthN_alterN, (Hbs c' Hc'), filter_app, filter_cons, filter_nil. destruct (N.eqb_spec c' c) as [->|Hne]; [by rewrite decide_True|].
    rewrite decide_False by congruence. by rewrite app_nil_r. }
  case_bool_decide as Hct.
  - cbn [block_sources]. rewrite (Hbs c Hcl). cbn [mbind option_bind]. eexists _, touched. split; [done|]. split; cbn; try done.
    + apply (tables_scratch _ _ _ _ _ _ _ _ _ _ _ Ht); [done|apply lenN_alterN].
    + intros c'. rewrite Hin. split; [intros (t & Htp & Htc); exists t; split; [set_solver|done]|]. intros (t & [Htp|Hts]%elem_of_app & Htc); [by exists t|].
      apply list_elem_of_singleton in Hts as ->. assert (c' = c) as -> by congruence. by apply Hin.
  - unfold set_touched. cbn [partition blocks worklist in_worklist position_in_block source_set block_touched block_sources]. rewrite (Hbs c Hcl). cbn [mbind option_bind]. eexists _, (touched ++ [c]). split; [done|]. split; cbn; try done.
    + apply (tables_scratch _ _ _ _ _ _ _ _ _ _ _ Ht); apply lenN_alterN.
    + apply NoDup_app. split; [done|]. split; [|apply NoDup_singleton]. intros x Hx ->%list_elem_of_singleton. done.
    + intros c'. rewrite elem_of_app, list_elem_of_singleton, Hin. split.
      * intros [(t & Htp & Htc)| ->]; [exists t; split; [set_solver|done]|]. exists s. split; [set_solver|done].
      * intros (t & [Htp|Hts]%elem_of_app & Htc); [left; by exists t|]. right. apply list_elem_of_singleton in Hts as ->. congruence.
    + intros c' Hc'. rewrite nthN_store by (rewrite Hbtl; done). destruct (N.eqb_spec c' c) as [->|Hne]; [by rewrite bool_decide_true by set_solver|].
      rewrite (Hbt c' Hc'). f_equal. apply bool_decide_ext. set_solver.
Qed.

Lemma set_source_set_same h : set_source_set (λ _, source_set h) h = h.
Proof. by destruct h. Qed.

Lemma mark_sources_ok h bucket : idle h → NoDup bucket → (∀ s, s ∈ bucket → s < n) →
  ∃ h1 touched clear, foldM (mark_source canonical) (h, [], []) bucket = Some (h1, touched, clear) ∧ filed h h1 touched bucket ∧ (canonical = false → clear = bucket).
Proof.
  intros Hid Hnd Hlt. destruct (foldM_prefix (λ pre '(h1, touched, clear), filed h h1 touched pre ∧ (canonical = false → clear = pre)) (mark_source canonical) (h, [], []) bucket) as ([[h1 touched] clear] & Hf & Hok & Hcl).
  - split; [by apply filed_idle|done].
  - intros pre s suf [[h1 touched] clear] Heq [Hf Hcl]. assert (Hsn : s < n) by (apply Hlt; rewrite Heq; set_solver).
    assert (Hpre : s ∉ pre) by (rewrite Heq in Hnd; apply NoDup_app in Hnd as (_ & Hd & _); intros Hs; apply (Hd s Hs); by left).
    unfold mark_source. pose proof (fl_set _ _ _ _ Hf) as Hset. pose proof (fl_set_length _ _ _ _ Hf) as Hsl. destruct canonical eqn:Ecan.
    + destruct (file_source_ok h h1 touched pre s (source_set h1) Hf Hsn Hpre Hsl) as (h2 & touched2 & Hfs & Hf2); [rewrite Ecan; done|].
      rewrite set_source_set_same in Hfs. rewrite Hfs. cbn. by exists (h2, touched2, clear).
    + rewrite (Hset s Hsn), bool_decide_false by done. cbn [mbind option_bind].
      destruct (file_source_ok h h1 touched pre s (alterN (λ _, true) (source_set h1) s) Hf Hsn Hpre) as (h2 & touched2 & Hfs & Hf2).
      * by rewrite lenN_alterN.
      * rewrite Ecan. intros t Ht. rewrite nthN_store by lia. destruct (N.eqb_spec t s) as [->|Hne]; [by rewrite bool_decide_true by set_solver|].
        rewrite Hset by done. f_equal. apply bool_decide_ext. set_solver.
      * change (set_source_set (λ l, alterN (λ _, true) l s) h1) with (set_source_set (λ _, alterN (λ _, true) (source_set h1) s) h1). rewrite Hfs. cbn.
        exists (h2, touched2, clear ++ [s]). split; [done|]. split; [done|]. intros _. by rewrite Hcl.
  - exists h1, touched, clear. done.
Qed.

(** * Splitting the touched blocks *)

(** The loop over the touched blocks, the blocks [pre] being split. *)
Record splitting (A : N → Prop) (h1 h : hopcroft) (pre : list N) : Prop := {
  sg_tables : tables h;
  sg_set : source_set h = source_set h1;
  sg_more : lenN (blocks h1) ≤ lenN (blocks h);
  sg_work : (length (worklist h) + length (blocks h1) = length (worklist h1) + length (blocks h))%nat;
  sg_cuts : cuts A (partition h1) (queue h1) (partition h) (queue h);
  sg_old : ∀ c, c < lenN (blocks h1) → c ∉ pre → (blocks h).[c] = (blocks h1).[c] ∧ (block_sources h).[c] = (block_sources h1).[c];
  sg_touched : ∀ c, c < lenN (blocks h1) → (block_touched h).[c] = (block_touched h1).[c];
  sg_new : ∀ c, lenN (blocks h1) ≤ c → c < lenN (blocks h) → (block_sources h).[c] = Some [] ∧ (block_touched h).[c] = Some false;
  sg_separate : ∀ c s t, c ∈ pre → (partition h1).[s] = Some c → (partition h1).[t] = Some c → same_block (partition h) s t → A s ↔ A t;
}.

Lemma splitting_step A h1 h pre b block : b ∉ pre → (blocks h1).[b] = Some block → tables h1 →
  (∀ s, s ∈ block → ∃ srcs, (block_sources h1).[b] = Some srcs ∧ NoDup srcs ∧ (∀ s, s ∈ srcs ↔ s ∈ block ∧ A s) ∧ marks_for canonical (source_set h1) block srcs) →
  splitting A h1 h pre → ∃ h', split_block canonical h b = Some h' ∧ splitting A h1 h' (pre ++ [b]).
Proof using Hn.
  intros Hpre Hb Ht1 Hsrc [Ht Hset Hmore Hwork Hcuts Hold Htouch Hnew Hsep]. pose proof (nthN_lt _ _ _ Hb) as Hlt.
  destruct (tb_block _ _ _ Ht1 b block Hb) as (_ & Hne & Hin1). destruct block as [|x block'] eqn:Ebl; [done|]. rewrite <-Ebl in *.
  destruct (Hsrc x) as (srcs & Hs & Hnds & HA & Hm); [rewrite Ebl; by left|]. destruct (Hold b Hlt Hpre) as [Hbo Hso]. rewrite <-Hset in Hm.
  destruct (split_block_ok canonical n Hn A h b block srcs Ht) as (h' & Hsp & Ht' & [S1 S2 S3 S4 S5 S6 S7] & Hc & Hsep'); [congruence|congruence|done|done|done|].
  exists h'. split; [done|]. split; [done|congruence|lia|lia|by eapply cuts_trans| | | |].
  - intros c Hc1 Hc2. rewrite not_elem_of_app, list_elem_of_singleton in Hc2. destruct Hc2 as [Hc2 Hcb]. destruct (Hold c Hc1 Hc2) as [Ho1 Ho2]. rewrite S3, S4 by (done || lia). done.
  - intros c Hc1. rewrite S6 by lia. by apply Htouch.
  - intros c Hc1 Hc2. destruct (N.lt_ge_cases c (lenN (blocks h))) as [Hcl|Hcl]; [|by apply S5]. rewrite S6, S4 by (done || lia || (intros ->; lia)). by apply Hnew.
  - intros c s t [Hc1|Hc1]%elem_of_app Hps Hpt Hsame; [apply (Hsep c); [done|done|done|by apply (cuts_coarser A _ _ _ _ _ _ Hc)]|]. apply list_elem_of_singleton in Hc1 as ->.
    apply Hsep'; [by apply Hin1|by apply Hin1|done].
Qed.

Lemma split_touched_ok h0 h1 touched bucket : filed h0 h1 touched bucket → NoDup bucket →
  ∃ h2, foldM (split_block canonical) h1 touched = Some h2 ∧ splitting (λ s, s ∈ bucket) h1 h2 touched ∧ ∀ s t, same_block (partition h2) s t → s ∈ bucket ↔ t ∈ bucket.
Proof using Hn.
  intros [Ht1 (Hp & Hb & Hw) Hsl Hs Hnd Hin Hbt Hbs] Hndb. rewrite <-Hp, <-Hb in *. clear h0 Hp Hb Hw.
  assert (Hlt : ∀ c, c ∈ touched → c < lenN (blocks h1)) by (intros c (s & _ & Hc)%Hin; by apply (tb_id _ _ _ Ht1 s)).
  destruct (foldM_prefix (λ pre h, splitting (λ s, s ∈ bucket) h1 h pre) (split_block canonical) h1 touched) as (h2 & Hf & Hok).
  - split; try done; [apply cuts_refl|intros c; lia|set_solver].
  - intros pre b suf h Heq Hsg. assert (Hbt' : b ∈ touched) by (rewrite Heq; set_solver). destruct (nthN_Some_lt (blocks h1) b) as [Hsome _]. destruct (Hsome (Hlt b Hbt')) as [block Hblock].
    destruct (tb_block _ _ _ Ht1 b block Hblock) as (_ & _ & Hinb).
    apply (splitting_step _ h1 h pre b block); [|done|done| |done].
    + rewrite Heq in Hnd. apply NoDup_app in Hnd as (_ & Hd & _). intros Hb. apply (Hd b Hb). by left.
    + intros _ _. eexists. split; [apply Hbs, Hlt, Hbt'|]. split; [by apply NoDup_filter|]. split.
      * intros s. rewrite list_elem_of_filter, Hinb. done.
      * intros s Hsb. rewrite Hs by by apply (block_lt canonical n h1 b block). f_equal. destruct canonical; [done|]. apply bool_decide_ext. rewrite list_elem_of_filter. apply Hinb in Hsb. tauto.
  - exists h2. split; [done|]. split; [done|]. intros s t Hsame. pose proof (cuts_coarser _ _ _ _ _ s t (sg_cuts _ _ _ _ Hok) Hsame) as (c & Hcs & Hct).
    destruct (decide (c ∈ touched)) as [Hc|Hc]; [by apply (sg_separate _ _ _ _ Hok c)|]. rewrite Hin in Hc. split; intros Hx; destruct Hc; eauto.
Qed.

(** * Cleaning the scratch tables *)

Lemma untouch_all_ok h touched : (∀ c, c ∈ touched → c < lenN (block_touched h)) → lenN (block_sources h) = lenN (block_touched h) →
  ∃ bt bs, foldM untouch h touched =
      Some (Hopcroft (partition h) (blocks h) (worklist h) (in_worklist h) (position_in_block h) (source_set h) bt bs) ∧
    stored (block_touched h) false touched bt ∧ stored (block_sources h) [] touched bs.
Proof.
  intros Hlt Hl. destruct h as [p bl w iw pos ss bt bs]; cbn [partition blocks worklist in_worklist position_in_block source_set block_touched block_sources] in *.
  destruct (foldM_prefix (λ pre h, ∃ bt' bs', h = Hopcroft p bl w iw pos ss bt' bs' ∧ stored bt false pre bt' ∧ stored bs [] pre bs') untouch (Hopcroft p bl w iw pos ss bt bs) touched)
    as (h' & Hf & bt' & bs' & -> & H1 & H2).
  - exists bt, bs. split; [done|]. split; (split; [done|]; intros s; rewrite decide_False; [done|set_solver]).
  - intros pre c suf h Heq (bt' & bs' & -> & [Hl1 H1] & [Hl2 H2]). assert (Hc : c < lenN bt) by (apply Hlt; rewrite Heq; set_solver).
    unfold untouch. cbn [block_touched block_sources]. rewrite (proj2 (N.ltb_lt _ _)) by lia. destruct (nthN_Some_lt bs' c) as [Hsome _]. destruct Hsome as [x Hx]; [lia|]. rewrite Hx. cbn [mbind option_bind].
    eexists. split; [done|]. exists (alterN (λ _, false) bt' c), (alterN (λ _, []) bs' c). split; [done|]. split; (split; [by rewrite lenN_alterN|]); intros s; rewrite nthN_store by lia.
    + rewrite H1. destruct (N.eqb_spec s c) as [->|]; repeat case_decide; set_solver.
    + rewrite H2. destruct (N.eqb_spec s c) as [->|]; repeat case_decide; set_solver.
  - exists bt', bs'. done.
Qed.

(** * One input *)

(** What one input of a splitter does to the partition and to the queue. *)
Record input_done (A : N → Prop) (h h' : hopcroft) : Prop := {
  ip_idle : idle h';
  ip_work : (length (worklist h') + length (blocks h) = length (worklist h) + length (blocks h'))%nat;
  ip_cuts : cuts A (partition h) (queue h) (partition h') (queue h');
  ip_separate : ∀ s t, same_block (partition h') s t → A s ↔ A t;
}.

Lemma split_by_input_ok h input_sources input bucket : idle h → input_sources.[input] = Some bucket → NoDup bucket → (∀ s, s ∈ bucket → s < n) →
  ∃ h', split_by_input canonical (h, input_sources) input = Some (h', alterN (λ _, []) input_sources input) ∧ input_done (λ s, s ∈ bucket) h h'.
Proof using Hn.
  intros Hid Hb Hnd Hlt. unfold split_by_input. rewrite Hb. cbn [mbind option_bind].
  destruct (mark_sources_ok h bucket Hid Hnd Hlt) as (h1 & touched & clear & -> & Hf & Hcl). cbn [mbind option_bind].
  destruct (split_touched_ok h h1 touched bucket Hf Hnd) as (h2 & -> & [Ht2 Hset Hmore Hwork Hcuts Hold Htouch Hnew Hsep] & Hsame). cbn [mbind option_bind].
  destruct Hf as [Ht1 (Hp & Hbl & Hw) Hsl Hs Hndt Hin Hbt Hbs].
  assert (Hmarks : ∃ marks, (if canonical then Some (source_set h2) else mark_all false clear (source_set h2)) = Some marks ∧ lenN marks = n ∧ ∀ s, s < n → marks.[s] = Some false).
  { destruct canonical eqn:Ecan; [exists (source_set h2); split; [done|]; rewrite Hset; done|]. rewrite (Hcl eq_refl).
    destruct (mark_all_ok false bucket (source_set h2)) as (marks & -> & [Hl Hm]); [rewrite Hset, Hsl; done|]. exists marks. split; [done|]. rewrite Hl, Hset. split; [done|].
    intros s Hsn. rewrite Hm, Hset, Hs by done. case_decide; [done|by rewrite bool_decide_false]. }
  destruct Hmarks as (marks & -> & Hml & Hm). cbn [mbind option_bind].
  assert (Hltt : ∀ c, c ∈ touched → c < lenN (blocks h1)) by (intros c (s & _ & Hc)%Hin; rewrite <-Hp in Hc; by apply (tb_id _ _ _ Ht1 s)).
  destruct (untouch_all_ok (set_source_set (λ _, marks) h2) touched) as (bt & bs & -> & [Hl1 Hu1] & [Hl2 Hu2]).
  { intros c Hc. cbn. rewrite (tb_touched _ _ _ Ht2). specialize (Hltt c Hc). lia. }
  { cbn. by rewrite (tb_touched _ _ _ Ht2), (tb_sources _ _ _ Ht2). }
  cbn [mbind option_bind]. eexists. split; [done|]. destruct h2 as [p2 bl2 w2 iw2 pos2 ss2 bt2 bs2]; cbn in *. split.
  - split; cbn; [by apply (tables_scratch _ _ _ _ _ _ _ _ _ _ _ Ht2)|done|done| |].
    + intros c Hc. rewrite Hu1. case_decide as Hct; [done|]. destruct (N.lt_ge_cases c (lenN (blocks h1))) as [Hcl'|Hcl']; [|by apply Hnew].
      rewrite Htouch, Hbt by (done || congruence). by rewrite bool_decide_false.
    + intros c Hc. rewrite Hu2. case_decide as Hct; [done|]. destruct (N.lt_ge_cases c (lenN (blocks h1))) as [Hcl'|Hcl']; [|by apply Hnew].
      rewrite (proj2 (Hold c Hcl' Hct)), Hbs by congruence. f_equal. apply elem_of_nil_inv. intros s [Hsc Hsb]%list_elem_of_filter. apply Hct, Hin. eauto.
  - rewrite Hbl, Hw in Hwork. done.
  - rewrite Hp in Hcuts. unfold queue in *. rewrite Hw in Hcuts. done.
  - done.
Qed.
End input.
