(* ===== verification/LexHopcroftLoop.v ===== *)
(** The loop over the queue of splitters: it ends, and it leaves the coarsest
    partition of the states that the transitions respect. *)

From S2P Require Import Prelude LexDfa LexHopcroft LexSplit.

Section loop.
Context (canonical : bool) (num_states : nat) (inverse : InverseTransitions.t) (preds : N → list (N * N)).

Abbreviation n := (N.of_nat num_states).

Definition delta (s a t : N) : Prop := t < n ∧ (a, s) ∈ preds t.

Context (Hn : n < u32_modulus).
Context (Hinv : ∀ t, t < n → InverseTransitions.predecessors inverse t = Some (preds t)).
Context (Hpreds : ∀ t a s, t < n → (a, s) ∈ preds t → a < 256 ∧ s < n).
Context (Hnodup : ∀ t, t < n → NoDup (preds t)).
Context (Hfun : ∀ s a t u, delta s a t → delta s a u → t = u).

Lemma delta_dec s a : (∃ t, delta s a t) ∨ ∀ t, ¬ delta s a t.
Proof using All.
  destruct (decide (Exists (λ t, (a, s) ∈ preds t) (seqN num_states))) as [He|He].
  - apply Exists_exists in He as (t & Ht & Hp). left. exists t. split; [by apply elem_of_seqN|done].
  - right. intros t [Ht Hp]. apply He, Exists_exists. exists t. split; [by apply elem_of_seqN|done].
Qed.

(** * The sources of a splitter *)

(** The edges [edges] filed under their inputs. *)
Definition bucket_of (edges : list (N * N)) (a : N) : list N := snd <$> filter (λ e, e.1 = a) edges.

Record collected (edges : list (N * N)) (st : list (list N) * list N) : Prop := {
  co_length : lenN st.1 = 256;
  co_bucket : ∀ a, a < 256 → st.1.[a] = Some (bucket_of edges a);
  co_nodup : NoDup st.2;
  co_touched : ∀ a, a ∈ st.2 ↔ bucket_of edges a ≠ [];
}.

Lemma bucket_snoc edges a s c : bucket_of (edges ++ [(a, s)]) c = if decide (c = a) then bucket_of edges c ++ [s] else bucket_of edges c.
Proof.
  unfold bucket_of. rewrite filter_app, filter_cons, filter_nil, fmap_app. cbn [fst]. destruct (decide (c = a)) as [->|Hne]; [by rewrite decide_True|].
  rewrite decide_False by congruence. by rewrite app_nil_r.
Qed.

Lemma elem_of_bucket edges a s : s ∈ bucket_of edges a ↔ (a, s) ∈ edges.
Proof.
  unfold bucket_of. rewrite list_elem_of_fmap. split.
  - intros ([a' s'] & -> & [Ha Hin]%list_elem_of_filter). cbn in Ha. by subst.
  - intros Hin. exists (a, s). split; [done|]. by apply list_elem_of_filter.
Qed.

Lemma NoDup_bucket edges a : NoDup edges → NoDup (bucket_of edges a).
Proof.
  intros Hnd. apply NoDup_fmap_2_strong; [|by apply NoDup_filter].
  intros [a1 s1] [a2 s2] [H1 _]%list_elem_of_filter [H2 _]%list_elem_of_filter Heq. cbn in *. congruence.
Qed.

Lemma note_ok edges st e : e.1 < 256 → collected edges st → ∃ st', note_predecessor st e = Some st' ∧ collected (edges ++ [e]) st'.
Proof.
  destruct st as [srcs touched], e as [a s]. cbn [fst]. intros Ha [Hl Hb Hnd Ht]. cbn [fst snd] in *. unfold note_predecessor. rewrite (Hb a Ha). cbn [mbind option_bind].
  eexists. split; [done|]. split; cbn [fst snd].
  - by rewrite lenN_alterN.
  - intros c Hc. rewrite nthN_alterN, bucket_snoc, (Hb c Hc). destruct (N.eqb_spec c a) as [->|]; [by rewrite decide_True|by rewrite decide_False].
  - destruct (bucket_of edges a) as [|x l] eqn:Eb; [|done]. apply NoDup_app. split; [done|]. split; [|apply NoDup_singleton]. intros c Hc ->%list_elem_of_singleton. by apply Ht in Hc.
  - intros c. rewrite bucket_snoc. destruct (bucket_of edges a) as [|x l] eqn:Eb.
    + rewrite elem_of_app, list_elem_of_singleton, Ht. destruct (decide (c = a)) as [->|Hne]; [rewrite Eb; naive_solver|naive_solver].
    + rewrite Ht. destruct (decide (c = a)) as [->|Hne]; [rewrite Eb; naive_solver|done].
Qed.

Lemma collect_all_ok block : (∀ t, t ∈ block → t < n) →
  ∃ st, foldM (collect_target inverse) (replicate 256 [], []) block = Some st ∧ collected (t ← block; preds t) st.
Proof using All.
  intros Hblock. apply (foldM_prefix (λ pre st, collected (t ← pre; preds t) st)).
  - split; cbn [fst snd]; [done| |constructor|].
    + intros a Ha. rewrite nthN_replicate. by rewrite (proj2 (N.ltb_lt _ _)).
    + intros a. cbn. set_solver.
  - intros pre t suf st Heq Hst. assert (Ht : t < n) by (apply Hblock; rewrite Heq; set_solver). unfold collect_target. rewrite (Hinv t Ht). cbn [mbind option_bind].
    rewrite bind_app. cbn [mbind list_bind]. rewrite app_nil_r.
    apply (foldM_prefix (λ done st, collected ((t ← pre; preds t) ++ done) st)); [by rewrite app_nil_r|].
    intros done' e rest st' Heq' Hst'. rewrite app_assoc. apply note_ok; [|done]. destruct e as [a s]. apply (Hpreds t a s Ht). rewrite Heq'. set_solver.
Qed.

Lemma block_edges_nodup block : NoDup block → (∀ t, t ∈ block → t < n) → NoDup (t ← block; preds t).
Proof using All.
  intros Hnd Hlt. induction Hnd as [|t block Hin Hnd IH]; [constructor|]. cbn. apply NoDup_app. split; [apply Hnodup, Hlt; by left|]. split.
  - intros [a s] H1 (u & H2 & Hu)%list_elem_of_bind. assert (t = u) as ->; [|done]. apply (Hfun s a); (split; [apply Hlt; set_solver|done]).
  - apply IH. intros u Hu. apply Hlt. by right.
Qed.

(** * One splitter *)

(** What the inputs [looked] of the splitter leave. *)
Record looking (h1 : hopcroft) (C : N → Prop) (edges : list (N * N)) (touched : list N) (looked : list N) (st : hopcroft * list (list N)) : Prop := {
  lk_idle : idle canonical n st.1;
  lk_work : (length (worklist st.1) + length (blocks h1) = length (worklist h1) + length (blocks st.1))%nat;
  lk_balanced : balanced delta (partition st.1) (queue st.1) C (λ a, a ∈ looked ∨ a ∉ touched);
  lk_coarser : ∀ s t, same_block (partition st.1) s t → same_block (partition h1) s t;
  lk_keeps : ∀ s t, (∀ a, enters delta C s a ↔ enters delta C t a) → same_block (partition h1) s t → same_block (partition st.1) s t;
  lk_length : lenN st.2 = 256;
  lk_sources : ∀ a, a < 256 → st.2.[a] = Some (if decide (a ∈ looked) then [] else bucket_of edges a);
}.

Lemma enters_edges block s a : (∀ t, t ∈ block → t < n) → enters delta (λ t, t ∈ block) s a ↔ (a, s) ∈ (t ← block; preds t).
Proof.
  intros Hlt. rewrite list_elem_of_bind. split.
  - intros (t & [_ Hp] & Ht). by exists t.
  - intros (t & Hp & Ht). exists t. split; [|done]. split; [by apply Hlt|done].
Qed.

Lemma looking_step h1 block touched pre a st : (∀ t, t ∈ block → t < n) → NoDup block → a < 256 → a ∉ pre →
  looking h1 (λ t, t ∈ block) (t ← block; preds t) touched pre st →
  ∃ st', split_by_input canonical st a = Some st' ∧ looking h1 (λ t, t ∈ block) (t ← block; preds t) touched (pre ++ [a]) st'.
Proof using All.
  intros Hlt Hnd Ha Hpre [Hid Hw Hb Hco Hk Hl Hs]. destruct st as [h srcs]; cbn [fst snd] in *. set (edges := t ← block; preds t) in *.
  assert (Hbucket : srcs.[a] = Some (bucket_of edges a)) by (rewrite Hs by done; by rewrite decide_False).
  assert (Hmem : ∀ s, s ∈ bucket_of edges a ↔ enters delta (λ t, t ∈ block) s a) by (intros s; by rewrite enters_edges, elem_of_bucket).
  destruct (split_by_input_ok canonical n Hn h srcs a (bucket_of edges a) Hid Hbucket) as (h' & -> & [Hid' Hw' Hc Hsep]).
  { apply NoDup_bucket. by apply block_edges_nodup. }
  { intros s (t & [Ht Hp] & _)%Hmem. by apply (Hpreds t a s). }
  eexists. split; [done|]. split; cbn [fst snd]; [done|lia| | | |by rewrite lenN_alterN|].
  - pose proof (cuts_balanced _ delta _ _ _ _ _ _ Hc Hb) as Hb'. pose proof (balanced_done delta _ _ _ _ (λ c, c = a) Hb') as Hb2.
    intros s t c b Hsame Hhits. destruct (Hb2 ltac:(intros u v c' Huv -> _; rewrite <-!Hmem; by apply Hsep) s t c b Hsame Hhits) as [?|[?|[?|[Hnot ?]]]]; [by left|by right; left|by right; right; left|].
    right; right; right. split; [|done]. intros Hc'. apply Hnot. rewrite elem_of_app, list_elem_of_singleton in Hc'. tauto.
  - intros s t Hsame. apply Hco. by apply (cuts_coarser _ _ _ _ _ _ _ Hc).
  - intros s t Hen Hsame. apply (cuts_keeps _ _ _ _ _ _ _ Hc); [rewrite !Hmem; apply Hen|by apply Hk].
  - intros c Hcl. rewrite nthN_store by lia. rewrite Hs by done. destruct (N.eqb_spec c a) as [->|Hne]; [by rewrite decide_True by set_solver|].
    destruct (decide (c ∈ pre)); [by rewrite decide_True by set_solver|]. by rewrite decide_False by set_solver.
Qed.

(** The splitter leaves the queue. *)
Lemma dequeue_idle h splitter rest : idle canonical n h → worklist h = splitter :: rest →
  idle canonical n (set_queue id (λ l, alterN (λ _, false) l splitter) (set_queue tail id h)) ∧ splitter < lenN (in_worklist h) ∧ splitter ∉ rest.
Proof.
  intros [Ht Hsl Hs Hbt Hbs] Hw. pose proof (tb_nodup _ _ _ Ht) as Hnd. rewrite Hw in Hnd. apply NoDup_cons in Hnd as [Hni Hnd].
  assert (Hq : (in_worklist h).[splitter] = Some true) by (apply (tb_queue _ _ _ Ht); rewrite Hw; by left). pose proof (nthN_lt _ _ _ Hq) as Hlt.
  destruct h as [p bl w iw pos ss bt bs]; cbn in *. subst w. split; [|done]. destruct Ht as [H1 H2 H3 H4 H5 H6 H7 H8 H9]; cbn in *. split; cbn; [|done|done|done|done].
  split; cbn; try done; [by rewrite lenN_alterN|]. intros c. rewrite nthN_store by done. destruct (N.eqb_spec c splitter) as [->|Hne]; [naive_solver|].
  rewrite <-H7. set_solver.
Qed.

(** What one round does to the partition. *)
Record round_done (C : N → Prop) (h h' : hopcroft) (input_sources : list (list N)) : Prop := {
  rd_idle : idle canonical n h';
  rd_work : (length (worklist h') + length (blocks h) < length (worklist h) + length (blocks h'))%nat;
  rd_balanced : balanced delta (partition h') (queue h') C (λ _, True);
  rd_coarser : ∀ s t, same_block (partition h') s t → same_block (partition h) s t;
  rd_keeps : ∀ s t, (∀ a, enters delta C s a ↔ enters delta C t a) → same_block (partition h) s t → same_block (partition h') s t;
  rd_sources : input_sources = replicate 256 [];
}.

Lemma balanced_ext p W W' C C' done done' : (∀ b, W b → W' b) → (∀ t, C t ↔ C' t) → (∀ a, done' a → done a) → balanced delta p W C done → balanced delta p W' C' done'.
Proof.
  intros HW HC Hd Hb s t a b Hsame Hs. destruct (Hb s t a b Hsame Hs) as [?|[?|[(b' & ? & ?)|[Hnot Hne]]]]; [by left|by right; left; apply HW|right; right; left; exists b'; auto|].
  right; right; right. split; [by intros ?%Hd|]. intros Hiff. apply Hne. unfold enters in *. setoid_rewrite HC. done.
Qed.

Lemma hopcroft_round_ok h splitter rest C0 : idle canonical n h → worklist h = splitter :: rest → balanced delta (partition h) (queue h) C0 (λ _, True) →
  ∃ h' srcs, hopcroft_round canonical inverse (set_queue tail id h) splitter (replicate 256 []) = Some (h', srcs) ∧
    round_done (λ t, (partition h).[t] = Some splitter) h h' srcs.
Proof using All.
  intros Hid Hw Hb. destruct (dequeue_idle h splitter rest Hid Hw) as (Hid1 & Hlt & Hni). unfold hopcroft_round.
  change (in_worklist (set_queue tail id h)) with (in_worklist h). rewrite (proj2 (N.leb_gt _ _)) by done.
  set (h1 := set_queue id (λ l, alterN (λ _, false) l splitter) (set_queue tail id h)) in *.
  assert (Hsame1 : partition h1 = partition h ∧ blocks h1 = blocks h ∧ worklist h1 = rest).
  { unfold h1, set_queue. cbn. by rewrite Hw. }
  destruct Hsame1 as (Hp1 & Hbl1 & Hw1). pose proof (id_tables _ _ _ Hid) as Ht. rewrite (tb_in _ _ _ Ht) in Hlt.
  rewrite Hbl1. destruct (nthN_Some_lt (blocks h) splitter) as [Hsome _]. destruct (Hsome Hlt) as [block Hblock]. rewrite Hblock.
  destruct (tb_block _ _ _ Ht splitter block Hblock) as (Hnd & Hne & Hin). destruct block as [|x block'] eqn:Ebl; [done|]. rewrite <-Ebl in *.
  assert (Hbn : ∀ t, t ∈ block → t < n) by (intros t; by apply (block_lt canonical n h splitter block t)).
  destruct (collect_all_ok block Hbn) as ([srcs touched] & -> & [Hcl Hcb Hcn Hct]). cbn [mbind option_bind fst snd] in *.
  set (edges := t ← block; preds t) in *.
  assert (Hstart : looking h1 (λ t, t ∈ block) edges touched [] (h1, srcs)).
  { split; cbn [fst snd]; try done.
    - assert (Hnone : ∀ s a, a ∉ touched → ¬ enters delta (λ t, t ∈ block) s a).
      { intros s a Ha Hen. apply (enters_edges block s a Hbn), elem_of_bucket in Hen. apply Ha, Hct. intros Hnil. fold edges in Hen. rewrite Hnil in Hen. set_solver. }
      rewrite Hp1. apply (balanced_ext _ (λ b, queue h b ∧ b ≠ splitter) _ (λ t, t ∈ block) _ (λ a, False ∨ a ∉ touched)); [| done|set_solver|].
      + intros b [Hq Hbs]. unfold queue in *. rewrite Hw1. rewrite Hw in Hq. set_solver.
      + apply balanced_done.
        * apply (balanced_ext _ (λ b, queue h b ∧ b ≠ splitter) _ (λ t, (partition h).[t] = Some splitter) _ (λ _, False)); [done|intros t; by rewrite Hin|done|].
          by apply (balanced_pop delta Hfun delta_dec _ _ C0 splitter (λ _, True)).
        * intros s t a _ Ha _. pose proof (Hnone s a Ha). pose proof (Hnone t a Ha). tauto.
  }
  destruct (foldM_prefix (λ pre st, looking h1 (λ t, t ∈ block) edges touched pre st)
    (split_by_input canonical) (h1, srcs) touched) as ([h' srcs'] & Hf & [Hid' Hwk Hbal Hco Hk Hl Hs]); [done| |].
  - intros pre a suf st Heq Hst. apply looking_step; try done.
    + assert (Ha : a ∈ touched) by (rewrite Heq; set_solver). apply Hct in Ha. destruct (bucket_of edges a) as [|s l] eqn:Eb; [done|].
      assert (Hs : s ∈ bucket_of edges a) by (rewrite Eb; by left). apply elem_of_bucket, list_elem_of_bind in Hs as (t & Hp & Ht'). by apply (Hpreds t a s); [apply Hbn|].
    + intros Ha. rewrite Heq in Hcn. apply NoDup_app in Hcn as (_ & Hd & _). apply (Hd a Ha). by left.
  - exists h', srcs'. split; [done|]. cbn [fst snd] in *. rewrite ?Hp1, ?Hbl1, ?Hw1 in *.
    assert (Hen : ∀ s a, enters delta (λ t, (partition h).[t] = Some splitter) s a ↔ enters delta (λ t, t ∈ block) s a).
    { intros s a. unfold enters. by setoid_rewrite Hin. }
    split; [done| | |done| |].
    + rewrite Hw. cbn [length]. lia.
    + eapply balanced_ext; [by intros b Hq| |  |exact Hbal]; [intros t; by rewrite Hin|]. intros a _. destruct (decide (a ∈ touched)); tauto.
    + intros s t Hst. apply Hk. intros a. rewrite <-!Hen. apply Hst.
    + apply nthN_ext. intros a. rewrite nthN_replicate. destruct (N.ltb_spec a (N.of_nat 256)) as [Ha|Ha]; [|apply nthN_None; lia].
      rewrite Hs by lia. case_decide as Hta; [done|]. f_equal. destruct (bucket_of edges a) eqn:Eb; [done|]. destruct Hta. apply Hct. by rewrite Eb.
Qed.

(** * The loop *)

Lemma place_all_ok p0 blocks0 : partition_of n p0 blocks0 →
  ∃ positions, foldM place_block (replicate num_states 0) blocks0 = Some positions ∧ lenN positions = n ∧ ∀ b block, blocks0.[b] = Some block → placed positions block.
Proof using Hn.
  intros [Hl Hb Hid]. assert (Hlt : ∀ b block s, blocks0.[b] = Some block → s ∈ block → s < n).
  { intros b block s Hbb Hs. apply (Hb b block Hbb) in Hs. rewrite <-Hl. by eapply nthN_lt. }
  apply (foldM_prefix (λ pre pos, lenN pos = n ∧ ∀ b block, pre.[b] = Some block → placed pos block)).
  - split; [by rewrite lenN_replicate|]. intros b block Hx. done.
  - intros pre block suf pos Heq [Hlp Hpl]. assert (Hbb : blocks0.[lenN pre] = Some block) by (rewrite Heq; unfold lenN; rewrite nthN_of_nat; by apply list_lookup_middle).
    destruct (Hb _ _ Hbb) as (Hnd & Hne & Hin).
    assert (Hsize : lenN block ≤ u32_modulus).
    { pose proof (NoDup_bounded_length block num_states Hnd) as Hsz. unfold lenN. assert (length block ≤ num_states)%nat; [|lia]. apply Hsz. intros s Hs. by apply (Hlt _ _ _ Hbb). }
    destruct (place_block_ok pos block Hnd) as (pos' & -> & Hl' & Hp' & Ho); [intros s Hs; rewrite Hlp; by apply (Hlt _ _ _ Hbb)|done|].
    exists pos'. split; [done|]. split; [congruence|]. intros b blk Hblk. rewrite nthN_snoc in Hblk. destruct (N.eqb_spec b (lenN pre)) as [Hbe|Hbe]; [by injection Hblk as <-|].
    intros k s Hk. rewrite Ho; [by apply (Hpl b blk)|]. intros Hs. apply Hin in Hs.
    assert (Hold : blocks0.[b] = Some blk) by (rewrite Heq; rewrite nthN_app_l; [done|by eapply nthN_lt]).
    assert (Hps : p0.[s] = Some b) by (apply (Hb b blk Hold), nthN_elem_of; eauto). congruence.
Qed.

Lemma initial_hopcroft_ok p0 blocks0 : partition_of n p0 blocks0 →
  ∃ h, initial_hopcroft canonical num_states p0 blocks0 = Some h ∧ idle canonical n h ∧ partition h = p0 ∧ blocks h = blocks0 ∧ worklist h = seqN (length blocks0).
Proof using Hn.
  intros Hpo. destruct (place_all_ok p0 blocks0 Hpo) as (positions & Hp & Hlp & Hpl). destruct Hpo as [Hl Hb Hid]. unfold initial_hopcroft.
  set (pos := if canonical then positions else []).
  assert (Hpos : (if canonical then foldM place_block (replicate num_states 0) blocks0 else Some []) = Some pos) by (unfold pos; by destruct canonical).
  rewrite Hpos. cbn [mbind option_bind]. eexists. split; [done|]. split; [|done]. split; cbn.
  - split; cbn; try done; [by rewrite lenN_replicate|by rewrite lenN_replicate|by rewrite lenN_replicate| |apply NoDup_seqN|].
    + intros b. rewrite elem_of_seqN, nthN_replicate. destruct (N.ltb_spec b (N.of_nat (length blocks0))); split; (done || lia).
    + intros Hcan. unfold pos. rewrite Hcan. done.
  - by rewrite lenN_replicate.
  - intros s Hs. rewrite nthN_replicate. by rewrite (proj2 (N.ltb_lt _ _)).
  - intros c Hc. rewrite nthN_replicate. by rewrite (proj2 (N.ltb_lt _ _)).
  - intros c Hc. rewrite nthN_replicate. by rewrite (proj2 (N.ltb_lt _ _)).
Qed.

(** The states that a relation cannot part stay together. *)
Definition bisimulation (E : N → N → Prop) : Prop :=
  (∀ s t, E s t → E t s) ∧ ∀ s t a u, E s t → delta s a u → ∃ v, delta t a v ∧ E u v.

Record loop_inv (p0 : list N) (st : hopcroft * list (list N)) (m : nat) : Prop := {
  li_idle : idle canonical n st.1;
  li_sources : st.2 = replicate 256 [];
  li_balanced : ∃ C, balanced delta (partition st.1) (queue st.1) C (λ _, True);
  li_coarser : ∀ s t, same_block (partition st.1) s t → same_block p0 s t;
  li_keeps : ∀ E, bisimulation E → (∀ s t, E s t → same_block p0 s t) → ∀ s t, E s t → same_block (partition st.1) s t;
  li_measure : (m + length (blocks st.1) = length (worklist st.1) + num_states)%nat;
}.

Lemma hopcroft_step_inv p0 st st' m : loop_inv p0 st m → hopcroft_step canonical inverse st = inl st' → ∃ m', loop_inv p0 st' m' ∧ (m' < m)%nat.
Proof using All.
  intros [Hid Hs (C & Hb) Hco Hk Hm] Hstep. destruct st as [h srcs]; cbn [fst snd] in *. subst srcs. unfold hopcroft_step in Hstep.
  destruct (worklist h) as [|splitter rest] eqn:Hw; [done|].
  destruct (hopcroft_round_ok h splitter rest C Hid Hw Hb) as (h' & srcs' & Hr & [Hid' Hwk Hb' Hco' Hk' Hs']). rewrite Hr in Hstep. injection Hstep as <-.
  pose proof (blocks_bound _ _ h' (id_tables _ _ _ Hid')) as Hbound. unfold lenN in Hbound. rewrite Hw in Hwk. cbn [length] in *.
  exists (length (worklist h') + num_states - length (blocks h'))%nat. split; [|lia]. split; cbn [fst snd]; [done|done|eauto|intros s t Hst; by apply Hco, Hco'| |lia].
  intros E HE H0 s t Hst. apply Hk'; [|by apply (Hk E)]. destruct HE as [Hsym Hbis].
  assert (Hhalf : ∀ s t a, E s t → enters delta (λ u, (partition h).[u] = Some splitter) s a → enters delta (λ u, (partition h).[u] = Some splitter) t a).
  { intros u v a Huv (x & Hd & Hx). destruct (Hbis u v a x Huv Hd) as (y & Hdy & Hxy). exists y. split; [done|].
    destruct (Hk E (conj Hsym Hbis) H0 x y Hxy) as (b & Hbx & Hby). congruence. }
  intros a. split; apply Hhalf; [done|by apply Hsym].
Qed.

(** The refinement ends; its blocks are a partition finer than the one it is
    given, the transitions respect it, and it is the coarsest such partition. *)
Lemma hopcroft_refines p0 blocks0 : partition_of n p0 blocks0 →
  ∃ p' blocks', hopcroft_refine_partition_impl_for_state_count canonical inverse num_states p0 blocks0 = Some blocks' ∧ partition_of n p' blocks' ∧
    (∀ s t, same_block p' s t → same_block p0 s t) ∧
    (∀ s t a u, same_block p' s t → delta s a u → ∃ v, delta t a v ∧ same_block p' u v) ∧
    ∀ E, bisimulation E → (∀ s t, E s t → same_block p0 s t) → ∀ s t, E s t → same_block p' s t.
Proof using All.
  intros Hpo. destruct (initial_hopcroft_ok p0 blocks0 Hpo) as (h & Hh & Hid & Hp & Hbl & Hw). unfold hopcroft_refine_partition_impl_for_state_count. rewrite Hh. cbn [mbind option_bind].
  destruct (run_terminates (hopcroft_step canonical inverse) (loop_inv p0) (S num_states) (h, replicate 256 []) num_states) as (r & [h' srcs] & m & -> & [Hid' Hs (C & Hb) Hco Hk _] & Hexit).
  - intros s s' m'. apply hopcroft_step_inv.
  - split; cbn [fst snd]; [done|done| |by rewrite Hp|by rewrite Hp; auto|rewrite Hw, Hbl, length_seqN; lia].
    exists (λ _, False). intros s t a b _ (u & Hd & Hu). right; left. unfold queue. rewrite Hw. apply elem_of_seqN.
    pose proof (tb_id _ _ _ (id_tables _ _ _ Hid) u b Hu) as Hlt. rewrite Hbl in Hlt. done.
  - pose proof (pow2_gt (S num_states)). lia.
  - cbn [fst snd] in *. destruct (worklist h') as [|splitter rest] eqn:Hw'.
    + unfold hopcroft_step in Hexit. rewrite Hw' in Hexit. injection Hexit as <-. exists (partition h'), (blocks h').
      destruct (id_tables _ _ _ Hid') as [T1 T2 T3 _ _ _ _ _ _]. split; [done|]. split; [by split|]. split; [done|]. split; [|done].
      intros s t a u Hst Hd. assert (Hu : ∃ b, (partition h').[u] = Some b) by (apply nthN_Some_lt; rewrite T1; apply Hd). destruct Hu as (b & Hu).
      destruct (Hb s t a b Hst) as [(v & Hdv & Hv)|[Hq|[(b' & _ & Hq)|[Hn' _]]]]; [by exists u|exists v; split; [done|by exists b]|unfold queue in Hq; rewrite Hw' in Hq; set_solver|unfold queue in Hq; rewrite Hw' in Hq; set_solver|by destruct (Hn' I)].
    + destruct (hopcroft_round_ok h' splitter rest C Hid' Hw' Hb) as (h2 & srcs2 & Hr & _). unfold hopcroft_step in Hexit. subst srcs. rewrite Hw', Hr in Hexit. done.
Qed.
End loop.
