(* ===== verification/LexClasses.v ===== *)
(** Hopcroft's refinement: blocks are the classes of states with the same
    observation after every word. *)

From S2P Require Import Prelude Bits CharTransitions LexDfa LexHopcroft LexInverse LexSplit LexHopcroftLoop.

(** * Rows as a transition function *)

(** The target of a row on an input. *)
Definition row_target (row : list (N * N)) (a : N) : option N := snd <$> head (filter (λ e, e.1 = a) row).

Definition row_next (rows : list (list (N * N))) (s a : N) : option N := row ← rows.[s]; row_target row a.

Fixpoint row_run (rows : list (list (N * N))) (s : N) (w : list N) : option N :=
  match w with
  | [] => Some s
  | a :: w => t ← row_next rows s a; row_run rows t w
  end.

(** The observation after a word: none once an edge is missing. *)
Definition row_observation (rows : list (list (N * N))) (observations : list N) (s : N) (w : list N) : option N :=
  t ← row_run rows s w; observations.[t].

(** Rows over bytes with at most one edge for each, that stay in range. *)
Record rows_ok (rows : list (list (N * N))) : Prop := {
  ro_keys : ∀ s row, rows.[s] = Some row → NoDup row.*1;
  ro_range : ∀ s row a t, rows.[s] = Some row → (a, t) ∈ row → a < 256 ∧ t < lenN rows;
  ro_states : lenN rows < u32_modulus;
  ro_edges : lenN (flatten_rows rows) < u32_modulus;
}.

Lemma row_target_iff row a t : NoDup row.*1 → row_target row a = Some t ↔ (a, t) ∈ row.
Proof.
  intros Hnd. unfold row_target. induction row as [|[b u] row IH]; [split; [done|set_solver]|]. cbn in Hnd. apply NoDup_cons in Hnd as [Hni Hnd]. rewrite filter_cons. cbn [fst].
  case_decide as Hb; cbn.
  - subst b. split; [intros [= ->]; by left|]. intros [[= ->]|Hin]%elem_of_cons; [done|]. destruct Hni. apply list_elem_of_fmap. by exists (a, t).
  - rewrite IH by done. rewrite elem_of_cons. naive_solver.
Qed.

(** * Words and partitions *)

Section observe.
Context (n : N) (next : N → N → option N) (p0 p' : list N).

Fixpoint next_run (s : N) (w : list N) : option N :=
  match w with [] => Some s | a :: w => t ← next s a; next_run t w end.

Definition observed (s : N) (w : list N) : option N := t ← next_run s w; p0.[t].

Context (Hp0 : ∀ s, s < n → is_Some p0.[s]) (Hrange : ∀ s a t, next s a = Some t → t < n).
Context (Hcoarser : ∀ s t, same_block p' s t → same_block p0 s t).
Context (Hstable : ∀ s t a u, same_block p' s t → next s a = Some u → ∃ v, next t a = Some v ∧ same_block p' u v).
Context (Hmax : ∀ E : N → N → Prop, (∀ s t, E s t → E t s) → (∀ s t a u, E s t → next s a = Some u → ∃ v, next t a = Some v ∧ E u v) →
  (∀ s t, E s t → same_block p0 s t) → ∀ s t, E s t → same_block p' s t).

Lemma same_block_sym p s t : same_block p s t → same_block p t s.
Proof. intros (b & Hs & Ht). by exists b. Qed.

Lemma same_block_step s t a : same_block p' s t →
  match next s a, next t a with Some u, Some v => same_block p' u v | None, None => True | _, _ => False end.
Proof using All.
  intros Hst. destruct (next s a) as [u|] eqn:Eu, (next t a) as [v|] eqn:Ev; [| | |done].
  - destruct (Hstable s t a u Hst Eu) as (v' & Hv & Hs). congruence.
  - destruct (Hstable s t a u Hst Eu) as (v' & Hv & Hs). congruence.
  - destruct (Hstable t s a v (same_block_sym _ _ _ Hst) Ev) as (v' & Hv & Hs). congruence.
Qed.

Lemma same_block_run s t w : same_block p' s t →
  match next_run s w, next_run t w with Some u, Some v => same_block p' u v | None, None => True | _, _ => False end.
Proof using All.
  revert s t. induction w as [|a w IH]; intros s t Hst; [done|]. cbn. pose proof (same_block_step s t a Hst) as Hstep.
  destruct (next s a) as [u|], (next t a) as [v|]; cbn; [by apply IH|done|done|done].
Qed.

(** The blocks are the classes of observational equality. *)
Lemma same_block_observed s t : s < n → t < n → same_block p' s t ↔ ∀ w, observed s w = observed t w.
Proof using All.
  intros Hs Ht. split.
  - intros Hst w. pose proof (same_block_run s t w Hst) as Hr. unfold observed. destruct (next_run s w) as [u|], (next_run t w) as [v|]; cbn; [|done|done|done].
    destruct (Hcoarser u v Hr) as (b & -> & ->). done.
  - intros Hobs. apply (Hmax (λ s t, s < n ∧ t < n ∧ ∀ w, observed s w = observed t w)); [| | |done].
    + intros x y (Hx & Hy & Hxy). split; [done|]. split; [done|]. intros w. by rewrite Hxy.
    + intros x y a u (Hx & Hy & Hxy) Hu. pose proof (Hrange x a u Hu) as Hun. destruct (next y a) as [v|] eqn:Ev.
      * exists v. split; [done|]. split; [done|]. split; [by apply (Hrange y a)|]. intros w. specialize (Hxy (a :: w)). unfold observed in *. cbn in Hxy. by rewrite Hu, Ev in Hxy.
      * specialize (Hxy [a]). unfold observed in Hxy. cbn in Hxy. rewrite Hu, Ev in Hxy. cbn in Hxy. destruct (Hp0 u Hun) as [b Hb]. congruence.
    + intros x y (Hx & Hy & Hxy). specialize (Hxy []). unfold observed in Hxy. cbn in Hxy. destruct (Hp0 x Hx) as [b Hb]. exists b. by rewrite <-Hxy.
Qed.
End observe.

(** * The refinement over the inverse transitions of rows *)

(** The partition that the refinement leaves, for the transition function of the rows. *)
Lemma refine_rows canonical rows p0 blocks0 : rows_ok rows → partition_of (lenN rows) p0 blocks0 →
  ∃ inverse p' blocks', InverseTransitions.build_from_projected_rows rows = Some inverse ∧
    hopcroft_refine_partition_impl_for_state_count canonical inverse (length rows) p0 blocks0 = Some blocks' ∧ partition_of (lenN rows) p' blocks' ∧
    ∀ s t, s < lenN rows → t < lenN rows → same_block p' s t ↔ ∀ w, observed (row_next rows) p0 s w = observed (row_next rows) p0 t w.
Proof.
  intros [Hkeys Hrange Hn Hedges] Hpo.
  assert (Hnd : ∀ row, row ∈ rows → NoDup row). { intros row (s & Hs)%nthN_elem_of. by eapply NoDup_fmap_1, Hkeys. }
  destruct (inverse_ok rows) as (inverse & Hb & Hpred & _); [|done| |lia|].
  { intros [s [a t]] (row & Hrow & Hin)%elem_of_flatten. by apply (Hrange s row a t). }
  { intros [s [a t]] (row & Hrow & Hin)%elem_of_flatten. by apply (Hrange s row a t). }
  set (preds := λ t, map (λ e : N * (N * N), (e.2.1, e.1)) (into t (flatten_rows rows))).
  assert (Hdelta : ∀ s a t, delta (length rows) preds s a t ↔ row_next rows s a = Some t).
  { intros s a t. unfold delta, preds. rewrite elem_of_predecessors. unfold row_next. split.
    - intros (_ & row & Hrow & Hin). rewrite Hrow. cbn. apply row_target_iff; [by eapply Hkeys|done].
    - destruct (rows.[s]) as [row|] eqn:Hrow; [|done]. cbn. intros Ht. apply row_target_iff in Ht; [|by eapply Hkeys]. split; [by apply (Hrange s row a t)|by exists row]. }
  destruct (hopcroft_refines canonical (length rows) inverse preds Hn) with (p0 := p0) (blocks0 := blocks0) as (p' & blocks' & Hr & Hpo' & Hco & Hst & Hmax).
  - intros t Ht. by apply Hpred.
  - intros t a s Ht Hin. apply elem_of_predecessors in Hin as (row & Hrow & Hin). split; [by apply (Hrange s row a t)|by eapply nthN_lt].
  - intros t Ht. by apply NoDup_predecessors.
  - intros s a t u H1 H2. apply Hdelta in H1, H2. congruence.
  - done.
  - exists inverse, p', blocks'. split; [done|]. split; [done|]. split; [done|]. intros s0 t0 Hs0 Ht0. apply (same_block_observed (lenN rows)); [| |done| | |done|done].
    + intros s Hs. apply nthN_Some_lt. by rewrite (po_length _ _ _ Hpo).
    + intros s a t Ht. by apply Hdelta in Ht as [Ht _].
    + intros s t a u Hsame Hu. apply Hdelta in Hu. destruct (Hst s t a u Hsame Hu) as (v & Hv & Huv). exists v. split; [by apply Hdelta|done].
    + intros E Hsym Hbis H0. apply Hmax; [|done]. split; [done|]. intros s t a u Hst' Hu. apply Hdelta in Hu. destruct (Hbis s t a u Hst' Hu) as (v & Hv & Huv). exists v. split; [by apply Hdelta|done].
Qed.

Section observe.
Context {K : Type} `{Countable K} (observations : list K).

(** The first [k] states filed. *)
Record observing (k : N) (st : gmap K N * list N * list (list N)) : Prop := {
  ob_length : lenN st.1.2 = lenN observations;
  ob_count : lenN st.2 ≤ k;
  ob_state : ∀ s o, s < k → observations.[s] = Some o → ∃ b, st.1.1 !! o = Some b ∧ st.1.2.[s] = Some b;
  ob_id : ∀ o b, st.1.1 !! o = Some b → b < lenN st.2;
  ob_inj : ∀ o o' b, st.1.1 !! o = Some b → st.1.1 !! o' = Some b → o = o';
  ob_block : ∀ b block, st.2.[b] = Some block → NoDup block ∧ block ≠ [] ∧ ∀ s, s ∈ block ↔ s < k ∧ st.1.2.[s] = Some b;
}.

Context (Hsmall : lenN observations < u32_modulus).

Lemma observe_step k o st : observations.[k] = Some o → observing k st → ∃ st', observe st (k, o) = Some st' ∧ observing (k + 1) st'.
Proof using All.
  intros Ho [Hl Hc Hs Hid Hinj Hb]. destruct st as [[m p] blocks]; cbn [fst snd] in *. pose proof (nthN_lt _ _ _ Ho) as Hk.
  set (b := match m !! o with Some b => b | None => lenN blocks end).
  set (blocks1 := match m !! o with Some _ => blocks | None => blocks ++ [[]] end).
  set (m1 := match m !! o with Some _ => m | None => <[o := lenN blocks]> m end).
  assert (Hb1 : b < lenN blocks1) by (unfold b, blocks1; destruct (m !! o) as [b0|] eqn:Em; [by apply (Hid o)|rewrite lenN_snoc; lia]).
  exists (m1, alterN (λ _, b) p k, alterN (λ b, b ++ [k]) blocks1 b). split.
  { unfold observe. destruct (nthN_Some_lt blocks1 b) as [Hsome _]. destruct (Hsome Hb1) as [blk Hblk]. unfold m1, b, blocks1 in *. destruct (m !! o) as [b0|].
    - rewrite store_ok by lia. cbn [mbind option_bind]. rewrite Hblk. cbn [mbind option_bind]. by rewrite as_u32_small by lia.
    - rewrite (as_u32_small (lenN blocks)) by lia. rewrite store_ok by lia. cbn [mbind option_bind]. rewrite Hblk. cbn [mbind option_bind]. by rewrite as_u32_small by lia. }
  assert (Hm1 : m1 !! o = Some b) by (unfold m1, b; destruct (m !! o) eqn:Em; [done|by rewrite lookup_insert_eq]).
  assert (Hm1o : ∀ o' c, o' ≠ o → m1 !! o' = Some c ↔ m !! o' = Some c) by (intros o' c Hne; unfold m1; destruct (m !! o); [done|by rewrite lookup_insert_ne]).
  assert (Hbo : ∀ o' , m !! o' = Some b → o' = o).
  { intros o' Ho'. unfold b in Ho'. destruct (m !! o) as [b0|] eqn:Em; [by apply (Hinj o' o b0)|]. apply Hid in Ho'. lia. }
  assert (Hp : ∀ s, (alterN (λ _, b) p k).[s] = if s =? k then Some b else p.[s]) by (intros s; apply nthN_store; lia).
  assert (Hlen : lenN blocks ≤ lenN blocks1 ≤ lenN blocks + 1) by (unfold blocks1; destruct (m !! o); rewrite ?lenN_snoc; lia).
  split; cbn [fst snd]; rewrite ?lenN_alterN; [done|lia| | | |].
  - intros s o' Hsk Hso. rewrite Hp. destruct (N.eqb_spec s k) as [->|Hne]; [exists b; split; [congruence|done]|].
    destruct (Hs s o' ltac:(lia) Hso) as (c & Hmc & Hpc). exists c. split; [|done]. destruct (decide (o' = o)) as [->|Hno]; [|by apply Hm1o].
    rewrite Hm1. f_equal. unfold b. by rewrite Hmc.
  - intros o' c Hc'. destruct (decide (o' = o)) as [->|Hno]; [assert (c = b) as -> by congruence; done|]. apply Hm1o in Hc'; [|done]. apply Hid in Hc'. lia.
  - intros o1 o2 c H1 H2. destruct (decide (o1 = o)) as [->|N1], (decide (o2 = o)) as [->|N2]; [done| | |].
    + apply Hm1o in H2; [|done]. assert (c = b) as -> by congruence. symmetry. by apply Hbo.
    + apply Hm1o in H1; [|done]. assert (c = b) as -> by congruence. by apply Hbo.
    + apply Hm1o in H1, H2; [|done..]. by apply (Hinj o1 o2 c).
  - intros c blk Hc'. rewrite nthN_alterN in Hc'. setoid_rewrite Hp.
    assert (Hold : ∀ blk', blocks1.[c] = Some blk' → NoDup blk' ∧ (blk' ≠ [] ∨ c = b) ∧ ∀ s, s ∈ blk' ↔ s < k ∧ p.[s] = Some c).
    { intros blk' Hblk'. unfold blocks1 in Hblk'. destruct (m !! o) as [b0|] eqn:Em; [destruct (Hb c blk' Hblk') as (? & ? & ?); by auto|].
      rewrite nthN_snoc in Hblk'. destruct (N.eqb_spec c (lenN blocks)) as [Hcl|Hcl]; [|destruct (Hb c blk' Hblk') as (? & ? & ?); by auto].
      injection Hblk' as <-. split; [constructor|]. split; [by right|]. intros s. split; [set_solver|]. intros [Hsk Hps]. exfalso.
      destruct (nthN_Some_lt observations s) as [Hsome _]. destruct (Hsome ltac:(lia)) as [o' Ho']. destruct (Hs s o' Hsk Ho') as (b' & Hmb & Hpb). apply Hid in Hmb. assert (b' = c) by congruence. lia. }
    destruct (N.eqb_spec c b) as [->|Hne].
    + destruct (blocks1.[b]) as [blk0|] eqn:Eb; [|done]. injection Hc' as <-. destruct (Hold blk0 eq_refl) as (Hnd & _ & Hin). split; [|split; [by destruct blk0|]].
      * apply NoDup_app. split; [done|]. split; [|apply NoDup_singleton]. intros x [Hx _]%Hin ->%list_elem_of_singleton. lia.
      * intros s. rewrite elem_of_app, list_elem_of_singleton, Hin. destruct (N.eqb_spec s k) as [->|Hsk]; [split; [intros _; split; [lia|done]|by right]|]. split; [intros [[? ?]|?]; [split; [lia|done]|done]|intros [? ?]; left; split; [lia|done]].
    + destruct (Hold blk Hc') as (Hnd & [Hne'|?] & Hin); [|done]. split; [done|]. split; [done|]. intros s. rewrite Hin. destruct (N.eqb_spec s k) as [->|Hsk]; [split; [lia|intros [_ [= ->]]; done]|].
      split; (intros [? ?]; split; [lia|done]).
Qed.

(** Two states are in one block when they are observed alike. *)
Lemma observe_ok : ∃ m p blocks, foldM observe (∅, replicate (length observations) 0, []) (enumerate observations) = Some (m, p, blocks) ∧
  partition_of (lenN observations) p blocks ∧ ∀ s t, s < lenN observations → t < lenN observations → p.[s] = p.[t] ↔ observations.[s] = observations.[t].
Proof using All.
  destruct (foldM_enumerate observing observe (∅, replicate (length observations) 0, []) observations) as ([[m p] blocks] & Hf & [Hl Hc Hs Hid Hinj Hb]).
  - intros k o st Ho Hst. by apply observe_step.
  - split; cbn [fst snd]; [by rewrite lenN_replicate|done|intros s o Hs; lia|done|done|done].
  - cbn [fst snd] in *. exists m, p, blocks. split; [done|]. split.
    + split; [done| |].
      * intros b block Hbb. destruct (Hb b block Hbb) as (? & ? & Hin). split; [done|]. split; [done|]. intros s. rewrite Hin. split; [by intros [_ ?]|]. intros Hps. split; [|done]. apply nthN_lt in Hps. lia.
      * intros s b Hps. pose proof (nthN_lt _ _ _ Hps) as Hlt. destruct (nthN_Some_lt observations s) as [Hsome _]. destruct (Hsome ltac:(lia)) as [o Ho].
        destruct (Hs s o ltac:(lia) Ho) as (b' & Hm & Hp). apply Hid in Hm. congruence.
    + intros s t Hsn Htn. destruct (nthN_Some_lt observations s) as [Hsome _]. destruct (Hsome Hsn) as [o Ho]. destruct (nthN_Some_lt observations t) as [Hsome' _]. destruct (Hsome' Htn) as [o' Ho'].
      destruct (Hs s o Hsn Ho) as (b & Hm & Hp). destruct (Hs t o' Htn Ho') as (b' & Hm' & Hp'). rewrite Hp, Hp', Ho, Ho'. split.
      * intros [= ->]. f_equal. by apply (Hinj o o' b').
      * intros [= ->]. congruence.
Qed.
End observe.

(** ** The classes of a projected automaton *)

(** The loops that store a number of its block for every state of every block. *)
Lemma block_table_ok (f : N → N) n p blocks : partition_of (N.of_nat n) p blocks →
  ∃ table, foldM (λ table '(block, states), foldM (λ table state, store table state (f block)) table states) (replicate n 0) (enumerate blocks) = Some table ∧
    lenN table = N.of_nat n ∧ ∀ s b, p.[s] = Some b → table.[s] = Some (f b).
Proof.
  intros [Hl Hb Hid].
  destruct (foldM_enumerate (λ k table, lenN table = N.of_nat n ∧ ∀ s b, p.[s] = Some b → b < k → table.[s] = Some (f b))
    (λ table '(block, states), foldM (λ table state, store table state (f block)) table states) (replicate n 0) blocks) as (table & Hf & Hlc & Hcl).
  - intros k block table Hk [Hlc Hcl]. destruct (Hb k block Hk) as (_ & _ & Hin).
    destruct (store_all_ok table (f k) block) as (table' & -> & [Hl' Hst]).
    { intros s Hs. apply Hin, nthN_lt in Hs. lia. }
    exists table'. split; [done|]. split; [lia|]. intros s b Hps Hbk. rewrite Hst. case_decide as Hsb.
    + apply Hin in Hsb. assert (b = k) as -> by congruence. done.
    + apply Hcl; [done|]. assert (b ≠ k); [|lia]. intros ->. by apply Hsb, Hin.
  - split; [by rewrite lenN_replicate|]. intros s b _ Hbk. lia.
  - exists table. split; [done|]. split; [done|]. intros s b Hps. apply Hcl; [done|]. by apply (Hid s).
Qed.

Lemma class_table_ok n p blocks : partition_of (N.of_nat n) p blocks → N.of_nat n < u32_modulus →
  ∃ classes, foldM (λ classes '(block, states), foldM (λ classes state, store classes state (as_u32 block + 1)) classes states) (replicate n 0) (enumerate blocks) = Some classes ∧
    lenN classes = N.of_nat n ∧ ∀ s b, p.[s] = Some b → classes.[s] = Some (b + 1).
Proof.
  intros Hpo Hn. pose proof (partition_count _ _ _ Hpo) as Hcount. destruct (block_table_ok (λ block, as_u32 block + 1) n p blocks Hpo) as (classes & Hf & Hl & Hc).
  exists classes. split; [exact Hf|]. split; [done|]. intros s b Hs. rewrite (Hc s b Hs), as_u32_small; [done|]. pose proof (po_id _ _ _ Hpo s b Hs). lia.
Qed.

Lemma row_run_next rows s w : row_run rows s w = next_run (row_next rows) s w.
Proof. revert s. induction w as [|a w IH]; intros s; [done|]. cbn. destruct (row_next rows s a); [apply IH|done]. Qed.

Lemma row_next_range rows s a t : rows_ok rows → row_next rows s a = Some t → t < lenN rows.
Proof.
  intros Hok. unfold row_next. destruct (rows.[s]) as [row|] eqn:Hrow; [|done]. cbn. intros Ht.
  apply row_target_iff in Ht; [|by eapply (ro_keys _ Hok)]. by apply (ro_range _ Hok s row a t).
Qed.

Lemma row_run_range rows s w t : rows_ok rows → s < lenN rows → row_run rows s w = Some t → t < lenN rows.
Proof.
  intros Hok. revert s. induction w as [|a w IH]; intros s Hs; [by intros [= <-]|]. cbn. destruct (row_next rows s a) as [u|] eqn:Hu; [|done]. cbn. apply IH. by apply (row_next_range rows s a).
Qed.

(** Observations that agree on states agree after words. *)
Lemma observed_alike {K} rows (p : list N) (observations : list K) s t : rows_ok rows → lenN p = lenN rows → lenN observations = lenN rows →
  (∀ u v, u < lenN rows → v < lenN rows → p.[u] = p.[v] ↔ observations.[u] = observations.[v]) → s < lenN rows → t < lenN rows →
  (∀ w, observed (row_next rows) p s w = observed (row_next rows) p t w) ↔
  ∀ w, (u ← row_run rows s w; observations.[u]) = (u ← row_run rows t w; observations.[u]).
Proof.
  intros Hok Hlp Hlo Halike Hs Ht. unfold observed. setoid_rewrite <-row_run_next.
  assert (Hw : ∀ w, (u ← row_run rows s w; p.[u]) = (u ← row_run rows t w; p.[u]) ↔ (u ← row_run rows s w; observations.[u]) = (u ← row_run rows t w; observations.[u])).
  { intros w. destruct (row_run rows s w) as [u|] eqn:Eu, (row_run rows t w) as [v|] eqn:Ev; cbn; [| | |done].
    - apply Halike; [by apply (row_run_range rows s w)|by apply (row_run_range rows t w)].
    - apply row_run_range in Eu; [|done|done]. rewrite !nthN_None. lia.
    - apply row_run_range in Ev; [|done|done]. rewrite !(eq_comm None), !nthN_None. lia. }
  split; intros Hall w; by apply Hw.
Qed.

(** C5: The classes of a projected automaton are never zero, and two states have
    the same class exactly when every word leads them to the same observation,
    a missing edge counting as one more observation. *)
Theorem projected_classes_correct rows observations : rows_ok rows → length observations = length rows →
  ∃ classes, hopcroft_projected_observation_partition rows observations = Some classes ∧ lenN classes = lenN rows ∧
    (∀ s, s < lenN rows → ∃ c, classes.[s] = Some c ∧ 1 ≤ c ∧ c ≤ lenN rows) ∧
    ∀ s t, s < lenN rows → t < lenN rows →
      classes.[s] = classes.[t] ↔ ∀ w, row_observation rows observations s w = row_observation rows observations t w.
Proof.
  intros Hok Hlen. assert (Hlo : lenN observations = lenN rows) by (unfold lenN; congruence).
  destruct (observe_ok observations) as (m & p & blocks & Hob & Hpo & Halike); [rewrite Hlo; apply (ro_states _ Hok)|]. rewrite Hlo in *.
  destruct (refine_rows false rows p blocks Hok Hpo) as (inverse & p' & blocks' & Hinv & Href & Hpo' & Hclass).
  destruct (class_table_ok (length rows) p' blocks' Hpo' (ro_states _ Hok)) as (classes & Hcl & Hlc & Hc).
  unfold hopcroft_projected_observation_partition. rewrite <-Hlen, Hob. cbn [mbind option_bind]. rewrite Hinv. cbn [mbind option_bind].
  rewrite Hlen, Href. cbn [mbind option_bind]. exists classes. split; [exact Hcl|]. split; [done|].
  assert (Hp' : ∀ s, s < lenN rows → ∃ b, p'.[s] = Some b ∧ classes.[s] = Some (b + 1) ∧ b < lenN blocks').
  { intros s Hs. destruct (nthN_Some_lt p' s) as [Hsome _]. rewrite (po_length _ _ _ Hpo') in Hsome. destruct (Hsome Hs) as [b Hb]. exists b. split; [done|]. split; [by apply Hc|by apply (po_id _ _ _ Hpo' s)]. }
  split.
  - intros s Hs. destruct (Hp' s Hs) as (b & _ & Hb & Hbl). exists (b + 1). pose proof (partition_count _ _ _ Hpo'). split; [done|]. lia.
  - intros s t Hs Ht. unfold row_observation. rewrite <-(observed_alike rows p observations s t Hok (po_length _ _ _ Hpo) Hlo Halike Hs Ht), <-(Hclass s t Hs Ht).
    destruct (Hp' s Hs) as (b & Hb & Hcs & _), (Hp' t Ht) as (c & Hc' & Hct & _). rewrite Hcs, Hct. unfold same_block. rewrite Hb, Hc'. split.
    + intros [= Hbc]. exists b. split; [done|]. f_equal. lia.
    + intros (x & [= ->] & [= ->]). done.
Qed.

Definition witness_rows : list (list (N * N)) := [[(97, 1); (98, 2)]; [(97, 0); (98, 2)]; []].

Lemma witness_rows_ok : rows_ok witness_rows.
Proof.
  split; [| |by vm_compute|by vm_compute].
  - intros s row Hrow. assert (Hin : row ∈ witness_rows) by (apply nthN_elem_of; eauto).
    assert (Hall : Forall (λ row : list (N * N), NoDup row.*1) witness_rows) by (apply (bool_decide_unpack _); vm_compute; exact I).
    by apply (proj1 (Forall_forall _ _) Hall).
  - intros s row a t Hrow. assert (Hin : row ∈ witness_rows) by (apply nthN_elem_of; eauto).
    assert (Hall : Forall (Forall (λ e : N * N, e.1 < 256 ∧ e.2 < 3)) witness_rows) by (apply (bool_decide_unpack _); vm_compute; exact I).
    intros Hat. apply (proj1 (Forall_forall _ _) Hall) in Hin. by apply (proj1 (Forall_forall _ _) Hin (a, t)).
Qed.

Lemma projected_classes_correct_witness : rows_ok witness_rows ∧
  hopcroft_projected_observation_partition witness_rows [0; 0; 0] = Some [1; 1; 2] ∧
  ∀ w, row_observation witness_rows [0; 0; 0] 0 w = row_observation witness_rows [0; 0; 0] 1 w.
Proof.
  split; [exact witness_rows_ok|]. split; [exact projected_partition|].
  destruct (projected_classes_correct witness_rows [0; 0; 0] witness_rows_ok eq_refl) as (classes & Hc & _ & _ & Hiff).
  assert (Heq : Some classes = Some [1; 1; 2]) by (rewrite <-Hc; exact projected_partition).
  injection Heq as ->. apply (Hiff 0 1); [vm_compute; reflexivity|vm_compute; reflexivity|reflexivity].
Defined.
