(* ===== verification/LexFutures.v ===== *)
(** The possible futures of the states of a byte automaton
    (crates/glrmask-lexer/src/automata/lexer/minimize.rs, the functions
    [recompute_*]): by a backward search when there is one group, over the
    components in Kahn's order when there are more, by iteration when there are
    epsilon edges.

    [None] is a panic. *)

From S2P Require Import Prelude Graph Bits U8Set BitSet CharTransitions LexDfa Search LexClosure LexNfa LexReach LexHopcroft.

Definition state_targets (state : LexState.t) : list N := (CharTransitions.iter (LexState.transitions state)).*2.

Definition is_accepting (state : LexState.t) : bool := negb (BitSet.is_empty (LexState.finalizers state)).

(** [targets.any(|target| marks[target])] *)
Fixpoint any_target (marks : list bool) (targets : list N) : option bool :=
  match targets with
  | [] => Some false
  | target :: targets => mark ← marks.[target]; if (mark : bool) then Some true else any_target marks targets
  end.

(** The states that can reach an accepting one, by a queue over the sources of
    the edges into a state. *)
Definition seed_accepting : list bool * list N → N * LexState.t → list bool * list N := mark_seed push_back is_accepting.

Definition reaching_states (d : LexDFA.t) (sources : N → option (list N)) : option (list bool) :=
  let n := length (LexDFA.states d) in
  mark_search_of push_back n sources (foldl seed_accepting (replicate n false, []) (enumerate (LexDFA.states d))).

Definition can_reach_accepting_from_inverse (d : LexDFA.t) (inverse : InverseTransitions.t) : option (list bool) :=
  reaching_states d (InverseTransitions.predecessor_sources inverse).

(** [self.set_possible_future_group_ids(state as u32, future)] *)
Definition assign_future (d : LexDFA.t) (entry : N * BitSet.t) : LexDFA.t :=
  let '(state, future) := entry in LexDFA.set_possible_future_group_ids d (as_u32 state) future.

Definition assign_futures (d : LexDFA.t) (futures : list BitSet.t) : LexDFA.t := foldl assign_future d (enumerate futures).

(** * One group *)

(** The slice of the predecessors of a state. *)
Definition flat_sources (offsets predecessors : list N) (target : N) : option (list N) :=
  start ← offsets.[target]; stop ← offsets.[target + 1]; slice predecessors start stop.

Definition recompute_single_group_possible_futures (d : LexDFA.t) : option LexDFA.t :=
  let rows := transition_rows d in
  predecessor_counts ← InverseTransitions.count_targets N.add rows;
  let offsets := InverseTransitions.prefix_sums N.add predecessor_counts in
  predecessors ← InverseTransitions.place_rows N.add (λ _ source, as_u32 source) 0 rows offsets;
  can_reach_accepting ← reaching_states d (flat_sources offsets predecessors);
  strict_future ← mapM (λ state, any_target can_reach_accepting (state_targets state)) (LexDFA.states d);
  Some (assign_futures d (map LexDFA.flag_bits strict_future)).

(** * Several groups *)

Definition dedup_adjacency (d : LexDFA.t) : list (list N) := (λ state, dedup (sort_N (state_targets state))) <$> LexDFA.states d.

(** The size of every component, its finalizers, and whether a state of it has a
    self loop. *)
Definition note_component (ids : list N) (st : list BitSet.t * list N * list bool) (entry : N * LexState.t)
    : option (list BitSet.t * list N * list bool) :=
  let '(scc_finalizers, scc_sizes, scc_has_self_loop) := st in
  let '(state_idx, state) := entry in
  sid ← ids.[state_idx];
  scc_sizes ← increment N.add scc_sizes sid;
  scc_finalizers ← foldM (λ finals bit, _ ← finals.[sid]; Some (alterN (λ bits, BitSet.set bits bit) finals sid))
    scc_finalizers (BitSet.iter_ones (LexState.finalizers state));
  scc_has_self_loop ← (if existsb (λ target, target =? state_idx) (state_targets state) then store scc_has_self_loop sid true else Some scc_has_self_loop);
  Some (scc_finalizers, scc_sizes, scc_has_self_loop).

(** A cyclic component reaches its own finalizers again. *)
Definition seed_futures (scc_finalizers : list BitSet.t) (scc_sizes : list N) (scc_has_self_loop : list bool)
    (scc_futures : list BitSet.t) (sid : N) : option (list BitSet.t) :=
  size ← scc_sizes.[sid];
  is_cyclic ← (if 1 <? size then Some true else scc_has_self_loop.[sid]);
  if (is_cyclic : bool)
  then finals ← scc_finalizers.[sid]; _ ← scc_futures.[sid]; Some (alterN (λ bits, BitSet.union_with bits finals) scc_futures sid)
  else Some scc_futures.

(** A component adds its finalizers and its futures to its predecessors. *)
Definition pass_futures (scc_finalizers : list BitSet.t) (sid : N) (futures : BitSet.t) : option (BitSet.t → BitSet.t) :=
  finals ← scc_finalizers.[sid]; Some (λ bits, BitSet.union_with (BitSet.union_with bits finals) futures).

Definition recompute_group_futures (d : LexDFA.t) : option LexDFA.t :=
  let num_groups := LexDFA.num_groups d in
  let adj := dedup_adjacency d in
  g ← reach_sccs adj;
  let ids := scc_id g in
  let count := N.to_nat (scc_count g) in
  '(scc_finalizers, scc_sizes, scc_has_self_loop) ← foldM (note_component ids)
    (replicate count (BitSet.new num_groups), replicate count 0, replicate count false) (enumerate (LexDFA.states d));
  scc_futures ← foldM (seed_futures scc_finalizers scc_sizes scc_has_self_loop) (replicate count (BitSet.new num_groups)) (seqN count);
  successors ← component_successors ids (scc_count g) adj;
  predecessors ← reverse_edges (length successors) (successor_edges successors);
  scc_futures ← propagate (pass_futures scc_finalizers) predecessors (lenN <$> successors) scc_futures;
  futures ← mapM (λ sid, scc_futures.[sid]) (take (length (LexDFA.states d)) ids);
  Some (assign_futures d futures).

(** * Epsilon edges *)

(** One target and its closure, and the groups met on the way. *)
Definition close_target (d : LexDFA.t) (st : list N * BitSet.t) (target : N) : option (list N * BitSet.t) :=
  closed ← epsilon_closure d [target];
  foldM (λ '(targets, finals) closed_target,
      state ← (LexDFA.states d).[closed_target];
      Some (if bool_decide (closed_target ∈ targets) then targets else targets ++ [closed_target],
            BitSet.union_with finals (LexState.finalizers state)))
    st closed.

(** The closed byte successors of a state and the groups they finalize. *)
Definition closed_successors (d : LexDFA.t) (state : N) : option (list N * BitSet.t) :=
  source_closure ← epsilon_closure d [state];
  '(targets, finals) ← foldM (λ st source, state ← (LexDFA.states d).[source]; foldM (close_target d) st (state_targets state))
    ([], BitSet.new (LexDFA.num_groups d)) source_closure;
  Some (dedup (sort_N targets), finals).

Definition iterate_future (rows : list (list N * BitSet.t)) (st : list BitSet.t * bool) (state : N) : option (list BitSet.t * bool) :=
  let '(futures, changed) := st in
  '(successors, immediate) ← rows.[state];
  next ← foldM (λ next target, future ← futures.[target]; Some (BitSet.union_with next future)) immediate successors;
  future ← futures.[state];
  Some (if bool_decide (next = future) then (futures, changed) else (alterN (λ _, next) futures state, true)).

Definition iterate_futures (rows : list (list N * BitSet.t)) (futures : list BitSet.t) : list BitSet.t + option (list BitSet.t) :=
  match foldM (iterate_future rows) (futures, false) (seqN (length rows)) with
  | Some (futures, true) => inl futures
  | Some (futures, false) => inr (Some futures)
  | None => inr None
  end.

(** Every pass but the last adds a group to a state. *)
Definition recompute_possible_futures_with_epsilon (d : LexDFA.t) : option LexDFA.t :=
  rows ← mapM (closed_successors d) (seqN (length (LexDFA.states d)));
  futures ← match run (iterate_futures rows) (S (length rows * N.to_nat (LexDFA.num_groups d))) rows.*2 with
            | inr r => r
            | inl _ => None
            end;
  Some (assign_futures d futures).

Definition recompute_possible_futures (d : LexDFA.t) : option LexDFA.t :=
  if LexDFA.num_states d =? 0 then Some d
  else
    let '(has_epsilon, d) := LexDFA.has_epsilon_transitions d in
    if (has_epsilon : bool) then recompute_possible_futures_with_epsilon d
    else if LexDFA.num_groups d =? 1 then recompute_single_group_possible_futures d
    else recompute_group_futures d.

(** A two-state cycle with an accepting exit, in two groups. *)
Definition future_example : LexDFA.t :=
  let d := (LexDFA.add_state (LexDFA.add_state (LexDFA.add_state (LexDFA.ensure_group_capacity (LexDFA.new 0) 2)).2).2).2 in
  let d := LexDFA.add_transition (LexDFA.add_transition (LexDFA.add_transition d 0 97 1) 1 97 0) 1 98 2 in
  LexDFA.overwrite_state_metadata (LexDFA.overwrite_state_metadata d 1 (BitSet.set (BitSet.new 2) 0) (BitSet.new 2)) 2 (BitSet.set (BitSet.new 2) 1) (BitSet.new 2).

Example future_example_bits :
  (λ d, (λ state, BitSet.iter_ones (LexState.possible_future_group_ids state)) <$> LexDFA.states d) <$> recompute_possible_futures future_example
  = Some [[0; 1]; [0; 1]; []].
Proof. by vm_compute. Qed.
