(* ===== verification/LexFutureGroups.v ===== *)
(** The possible futures of states: by components for all groups, and by one
    backward search for a single group. *)

From stdpp Require Import relations.
From S2P Require Import Prelude Graph Bits U8Set BitSet CharTransitions LexDfa Search LexNfa LexReach LexReachCorrect LexDetRun LexHopcroft LexInverse LexSplit LexFutures.

(** An edge of the automaton. *)
Definition dfa_edge (d : LexDFA.t) (s t : N) : Prop :=
  ∃ row a, (LexDFA.states d).[s] = Some row ∧ (a, t) ∈ CharTransitions.entries (LexState.transitions row).

(** A group of a state that is reached by a word that is not empty. *)
Definition strict_future (d : LexDFA.t) (s g : N) : Prop :=
  ∃ t row, tc (dfa_edge d) s t ∧ (LexDFA.states d).[t] = Some row ∧ BitSet.get (LexState.finalizers row) g = true.

Lemma elem_of_state_targets row t : t ∈ state_targets row ↔ ∃ a, (a, t) ∈ CharTransitions.entries (LexState.transitions row).
Proof.
  unfold state_targets, CharTransitions.iter. rewrite list_elem_of_fmap. split.
  - intros ([a u] & -> & Hin). by exists a.
  - intros (a & Hin). by exists (a, t).
Qed.

Lemma dfa_edge_targets d s t : dfa_edge d s t ↔ ∃ row, (LexDFA.states d).[s] = Some row ∧ t ∈ state_targets row.
Proof. unfold dfa_edge. setoid_rewrite elem_of_state_targets. naive_solver. Qed.

Section groups.
Context (d : LexDFA.t) (groups : N) (Hd : lex_wf 256 groups d).

Abbreviation n := (LexDFA.num_states d).

Lemma state_row s row : (LexDFA.states d).[s] = Some row → row_wf 256 n groups row.
Proof using Hd. intros Hs. apply (lw_rows _ _ _ Hd), nthN_elem_of. eauto. Qed.

Lemma edge_range s t : dfa_edge d s t → s < n ∧ t < n.
Proof using Hd.
  intros (row & a & Hrow & Hin). split; [by eapply nthN_lt|]. by apply (rw_range _ _ _ _ (state_row s row Hrow) a t).
Qed.

Lemma finalizer_lt s row g : (LexDFA.states d).[s] = Some row → BitSet.get (LexState.finalizers row) g = true → g < groups.
Proof using Hd. intros Hrow Hg%BitSetFacts.get_lt. by rewrite (proj2 (rw_finalizers _ _ _ _ (state_row s row Hrow))) in Hg. Qed.

Lemma dedup_edge s t : adj_edge (dedup_adjacency d) s t ↔ dfa_edge d s t.
Proof using.
  unfold adj_edge, dedup_adjacency. rewrite dfa_edge_targets. setoid_rewrite nthN_fmap. split.
  - intros (l & Hl & Hin). destruct ((LexDFA.states d).[s]) as [row|]; [|done]. injection Hl as <-. exists row. split; [done|]. by apply dedup_sort_spec.
  - intros (row & -> & Hin). eexists. split; [done|]. by apply dedup_sort_spec.
Qed.

Section components.
Context (ids : list N) (count : N) (preds : list (list N)).
Context (Hlen : lenN ids = n) (Hids : ∀ s, s < n → ∃ c, ids.[s] = Some c ∧ c < count).
Context (Hsame : ∀ u v c, ids.[u] = Some c → ids.[v] = Some c → rtc (dfa_edge d) u v).
Context (Hback : ∀ u v c e, dfa_edge d u v → ids.[u] = Some c → ids.[v] = Some e → e ≤ c).
Context (Hcount : lenN preds = count).

(** ** Sizes, finalizers and loops *)

(** The states below [k] of a component. *)
Definition members_below (k c : N) : list N := filter (λ s, ids.[s] = Some c) (seqN (N.to_nat k)).

Definition noted (k : N) (st : list BitSet.t * list N * list bool) : Prop :=
  let '(finals, sizes, loops) := st in
  all_bits groups preds finals ∧ lenN sizes = count ∧ lenN loops = count ∧
  (∀ c g, group_of finals c g ↔ ∃ s row, s < k ∧ (LexDFA.states d).[s] = Some row ∧ ids.[s] = Some c ∧ BitSet.get (LexState.finalizers row) g = true) ∧
  (∀ c, c < count → sizes.[c] = Some (lenN (members_below k c))) ∧
  ∀ c, c < count → ∃ b : bool, loops.[c] = Some b ∧ (b = true ↔ ∃ s, s < k ∧ ids.[s] = Some c ∧ dfa_edge d s s).

Lemma members_snoc k c : members_below (k + 1) c = members_below k c ++ (if decide (ids.[k] = Some c) then [k] else []).
Proof using All.
  unfold members_below. replace (N.to_nat (k + 1)) with (N.to_nat k + 1)%nat by lia. rewrite seqN_app, filter_app. f_equal. simpl. rewrite N2Nat.id, filter_cons, filter_nil.
  by repeat case_decide.
Qed.

Lemma note_component_ok k row st : (LexDFA.states d).[k] = Some row → noted k st → ∃ st', note_component ids st (k, row) = Some st' ∧ noted (k + 1) st'.
Proof using All.
  destruct st as [[finals sizes] loops]. intros Hk (Hfin & Hsl & Hll & Hfg & Hsz & Hlp). destruct (Hids k) as (sid & Hsid & Hlt); [by eapply nthN_lt|].
  unfold note_component. rewrite Hsid. cbn [mbind option_bind]. unfold increment at 1. rewrite (Hsz sid Hlt). cbn [mbind option_bind].
  destruct (own_row_ok groups count preds Hcount (BitSet.iter_ones (LexState.finalizers row)) finals sid Hfin Hlt) as (finals' & -> & Hfin' & Hfg').
  { intros g Hg. apply BitSetFacts.elem_of_iter_ones in Hg; [by apply (finalizer_lt k row)|apply (rw_finalizers _ _ _ _ (state_row k row Hk))]. }
  cbn [mbind option_bind].
  assert (Hself : existsb (λ target, target =? k) (state_targets row) = true ↔ dfa_edge d k k).
  { rewrite existsb_exists, dfa_edge_targets. split.
    - intros (t & Ht & ->%N.eqb_eq). exists row. split; [done|]. by apply list_elem_of_In.
    - intros (r & Hr & Hin). exists k. assert (r = row) as -> by congruence. split; [by apply list_elem_of_In|apply N.eqb_refl]. }
  set (loops' := if existsb (λ target, target =? k) (state_targets row) then alterN (λ _, true) loops sid else loops).
  assert (Hloops' : (if existsb (λ target, target =? k) (state_targets row) then store loops sid true else Some loops) = Some loops').
  { unfold loops'. destruct (existsb _ _); [|done]. apply store_ok. by rewrite Hll. }
  rewrite Hloops'. cbn [mbind option_bind]. eexists. split; [done|]. split; [done|]. split; [by rewrite lenN_alterN|]. split; [unfold loops'; destruct (existsb _ _); by rewrite ?lenN_alterN|]. split; [|split].
  - intros c g. rewrite Hfg', Hfg. rewrite BitSetFacts.elem_of_iter_ones by apply (rw_finalizers _ _ _ _ (state_row k row Hk)). split.
    + intros [(s & r & Hs & H)|[-> Hg]]; [exists s, r; split; [lia|done]|exists k, row; split; [lia|done]].
    + intros (s & r & Hs & Hr & Hc & Hg). destruct (N.eq_dec s k) as [->|Hne]; [right; split; congruence|left]. exists s, r. split; [lia|done].
  - intros c Hc. rewrite nthN_alterN, members_snoc, lenN_app, (Hsz c Hc). destruct (N.eqb_spec c sid) as [->|Hne]; cbn.
    + rewrite decide_True by done. done.
    + rewrite decide_False by congruence. f_equal. unfold lenN. simpl. lia.
  - intros c Hc. destruct (Hlp c Hc) as (b & Hb & Hiff). destruct (existsb (λ target, target =? k) (state_targets row)) eqn:Ex.
    + unfold loops'. rewrite nthN_store by lia. destruct (N.eqb_spec c sid) as [->|Hne].
      * exists true. split; [done|]. split; [|done]. intros _. exists k. split; [lia|]. split; [done|]. by apply Hself.
      * exists b. split; [done|]. rewrite Hiff. split; intros (s & Hs & Hc' & He); exists s; (split; [|done]); [lia|]. assert (s ≠ k) by (intros ->; congruence). lia.
    + exists b. split; [done|]. rewrite Hiff. split; intros (s & Hs & Hc' & He); exists s; (split; [|done]); [lia|]. assert (s ≠ k); [|lia]. intros ->. apply Hself in He. done.
Qed.

Definition cyclic (c : N) : Prop := (1 < lenN (members_below n c)) ∨ ∃ s, ids.[s] = Some c ∧ dfa_edge d s s.

Lemma member_iff c s : s ∈ members_below n c ↔ ids.[s] = Some c.
Proof using All.
  unfold members_below. rewrite list_elem_of_filter, elem_of_seqN, N2Nat.id. split; [by intros [? _]|]. intros Hs. split; [done|]. apply nthN_lt in Hs. lia.
Qed.

Lemma members_nodup c : NoDup (members_below n c).
Proof using All. apply NoDup_filter, NoDup_seqN. Qed.

Lemma two_members c s t : ids.[s] = Some c → ids.[t] = Some c → s ≠ t → 1 < lenN (members_below n c).
Proof using All.
  intros Hs Ht Hne. assert (Hsub : [s; t] ⊆+ members_below n c).
  { apply NoDup_submseteq; [apply NoDup_cons; split; [set_solver|apply NoDup_singleton]|]. intros x [->|[->|[]%elem_of_nil]%elem_of_cons]%elem_of_cons; by apply member_iff. }
  apply submseteq_length in Hsub. unfold lenN. simpl in Hsub. lia.
Qed.

Lemma other_member c s : 1 < lenN (members_below n c) → ids.[s] = Some c → ∃ t, ids.[t] = Some c ∧ t ≠ s.
Proof using All.
  intros Hl Hs. pose proof (members_nodup c) as Hnd. destruct (members_below n c) as [|x [|y l]] eqn:El; [done|done|].
  apply NoDup_cons in Hnd as [Hx Hnd]. assert (Hin : ∀ z, z ∈ x :: y :: l → ids.[z] = Some c) by (intros z Hz; apply member_iff; by rewrite El).
  destruct (N.eq_dec x s) as [->|Hne]; [|exists x; split; [apply Hin; by left|done]]. exists y. split; [apply Hin; set_solver|]. intros ->. apply Hx. by left.
Qed.

Lemma rtc_tc u v : u ≠ v → rtc (dfa_edge d) u v → tc (dfa_edge d) u v.
Proof using All. intros Hne Hr. apply rtc_tc in Hr as [?|?]; [done|done]. Qed.

Lemma cyclic_loop c s : cyclic c → ids.[s] = Some c → tc (dfa_edge d) s s.
Proof using All.
  intros [Hc|(x & Hx & He)] Hs.
  - destruct (other_member c s Hc Hs) as (t & Ht & Hne). apply tc_transitive with t; apply rtc_tc; try done; [by apply (Hsame s t c)|by apply (Hsame t s c)].
  - destruct (N.eq_dec s x) as [->|Hne]; [by apply tc_once|]. apply tc_transitive with x; apply rtc_tc; try done; [by apply (Hsame s x c)|by apply (Hsame x s c)].
Qed.

Lemma tc_within c s t : ids.[s] = Some c → ids.[t] = Some c → cyclic c → tc (dfa_edge d) s t.
Proof using All.
  intros Hs Ht Hc. destruct (N.eq_dec s t) as [->|Hne]; [by apply (cyclic_loop c)|]. apply rtc_tc; [done|]. by apply (Hsame s t c).
Qed.

Lemma edge_cyclic c s t : dfa_edge d s t → ids.[s] = Some c → ids.[t] = Some c → cyclic c.
Proof using All. intros He Hs Ht. destruct (N.eq_dec s t) as [->|Hne]; [right; by exists t|left; by apply (two_members c s t)]. Qed.

(** ** The futures of the components *)

Definition comp_next (c e : N) : Prop := ∃ u v, dfa_edge d u v ∧ ids.[u] = Some c ∧ ids.[v] = Some e ∧ c ≠ e.

Definition comp_final (c g : N) : Prop := ∃ s row, (LexDFA.states d).[s] = Some row ∧ ids.[s] = Some c ∧ BitSet.get (LexState.finalizers row) g = true.

Lemma futures_strict (F : N → N → Prop) :
  (∀ c g, c < count → F c g ↔ cyclic c ∧ comp_final c g ∨ ∃ e, comp_next c e ∧ (comp_final e g ∨ F e g)) →
  ∀ s c g, ids.[s] = Some c → F c g ↔ strict_future d s g.
Proof using All.
  intros HF. assert (Hclt : ∀ s c, ids.[s] = Some c → c < count).
  { intros s c Hs. pose proof (nthN_lt _ _ _ Hs) as Hlt. rewrite Hlen in Hlt. destruct (Hids s Hlt) as (c' & Hc' & ?). congruence. }
  assert (Hto : ∀ c s g, ids.[s] = Some c → F c g → strict_future d s g).
  { intros c. induction (N.lt_wf_0 c) as [c _ IH]. intros s g Hs Hf. apply HF in Hf as [[Hc (t & row & Hrow & Ht & Hg)]|(e & (u & v & He & Hu & Hv & Hne) & Hf)]; [| |by eapply Hclt].
    - exists t, row. split; [by apply (tc_within c)|done].
    - assert (Hsv : tc (dfa_edge d) s v) by (eapply tc_rtc_l; [by apply (Hsame s u c)|by apply tc_once]).
      destruct Hf as [(t & row & Hrow & Ht & Hg)|Hf].
      + exists t, row. split; [|done]. eapply tc_rtc_r; [exact Hsv|]. by apply (Hsame v t e).
      + pose proof (Hback u v c e He Hu Hv). destruct (IH e ltac:(lia) v g Hv Hf) as (t & row & Htc & Hrow & Hg). exists t, row. split; [by etrans|done]. }
  intros s c g Hs. split; [by apply Hto|]. intros (t & row & Htc & Hrow & Hg). revert c Hs. induction Htc as [x y He|x y z He Htc IH]; intros c Hs.
  - destruct (Hids y) as (e & Hy & _); [by eapply nthN_lt|]. apply HF; [by eapply Hclt|]. destruct (N.eq_dec e c) as [->|Hne].
    + left. split; [by apply (edge_cyclic c x y)|]. by exists y, row.
    + right. exists e. split; [exists x, y; by auto|]. left. by exists y, row.
  - destruct (Hids y) as (e & Hy & _); [by apply (edge_range x y)|]. specialize (IH Hrow e Hy). destruct (N.eq_dec e c) as [->|Hne]; [done|].
    apply HF; [by eapply Hclt|]. right. exists e. split; [exists x, y; by auto|]. by right.
Qed.
End components.

(** ** The assignment of the futures *)

(** The states keep their edges and finalizers, and have these futures. *)
Definition with_futures (d' : LexDFA.t) (futures : list BitSet.t) : Prop :=
  LexDFA.group_id_to_u8set d' = LexDFA.group_id_to_u8set d ∧ LexDFA.derived_stats d' = LexDFA.derived_stats d ∧ LexDFA.num_states d' = n ∧
  ∀ s row future, (LexDFA.states d).[s] = Some row → futures.[s] = Some future → (LexDFA.states d').[s] = Some (LexState.set_future (λ _, future) row).

Lemma assign_futures_ok futures : lenN futures = n → n ≤ u32_modulus → with_futures (assign_futures d futures) futures.
Proof using.
  intros Hl Hn. unfold assign_futures.
  assert (H : ∀ pre suf, futures = pre ++ suf → let d' := foldl assign_future d (enumerate pre) in
    LexDFA.group_id_to_u8set d' = LexDFA.group_id_to_u8set d ∧ LexDFA.derived_stats d' = LexDFA.derived_stats d ∧ LexDFA.num_states d' = n ∧
    ∀ s row, (LexDFA.states d).[s] = Some row → (LexDFA.states d').[s] = Some (match pre.[s] with Some future => LexState.set_future (λ _, future) row | None => row end)).
  { induction pre as [|x pre IH] using rev_ind; intros suf Heq; cbn zeta; [by repeat split|].
    rewrite <-app_assoc in Heq. destruct (IH _ Heq) as (Hg & Hst & Hns & Hrows). rewrite enumerate_snoc, foldl_snoc.
    set (d1 := foldl assign_future d (enumerate pre)) in *.
    assert (Hlt : lenN pre < n) by (rewrite <-Hl, Heq; unfold lenN; rewrite length_app; simpl; lia).
    unfold assign_future, LexDFA.set_possible_future_group_ids, LexDFA.with_state, LexDFA.set_states, LexDFA.invalidate_structural_hash.
    cbn [LexDFA.group_id_to_u8set LexDFA.derived_stats LexDFA.states LexDFA.num_states]. rewrite as_u32_small by lia. split; [done|]. split; [done|]. split.
    - unfold LexDFA.num_states in *. cbn [LexDFA.states]. by rewrite lenN_alterN.
    - intros s row Hs. rewrite nthN_alterN, (Hrows s row Hs), nthN_snoc. destruct (N.eqb_spec s (lenN pre)) as [->|Hne]; [|done].
      cbn. replace (pre.[lenN pre]) with (None : option BitSet.t); [done|]. symmetry. by apply nthN_None. }
  destruct (H futures [] ltac:(by rewrite app_nil_r)) as (Hg & Hst & Hns & Hrows). split; [done|]. split; [done|]. split; [done|].
  intros s row future Hs Hf. rewrite (Hrows s row Hs). by rewrite Hf.
Qed.

(** Each state has the strict futures. *)
Definition futures_ok (futures : list BitSet.t) : Prop :=
  lenN futures = n ∧ ∀ s future, futures.[s] = Some future → bits_ok groups future ∧ ∀ g, BitSet.get future g = true ↔ strict_future d s g.

Context (Hsmall : n < 2147483648).

Lemma group_futures_ok : ∃ futures, recompute_group_futures d = Some (assign_futures d futures) ∧ futures_ok futures.
Proof using All.
  unfold recompute_group_futures. rewrite (lw_groups _ _ _ Hd). set (adj := dedup_adjacency d).
  assert (Hadj : lenN adj = n) by apply lenN_fmap.
  assert (Hcl : ∀ s t, adj_edge adj s t → t < lenN adj) by (intros s t Hst%dedup_edge; rewrite Hadj; by apply (edge_range s)).
  destruct (component_graph_ok adj Hcl ltac:(by rewrite Hadj)) as (g & succ & preds & -> & Hsucc & Hpreds & [Hidl Hpc Hsl Hids Hsame Hback Hedge Hpr Hdeg Hac]).
  cbn [mbind option_bind]. set (ids := scc_id g) in *. set (count := scc_count g) in *.
  assert (Hrtc : ∀ u v, rtc (adj_edge adj) u v → rtc (dfa_edge d) u v) by (intros u v; induction 1 as [|x y z Hxy _ IH]; [done|]; eapply rtc_l; [by apply dedup_edge|done]).
  rewrite Hadj in *. assert (Hsame' : ∀ u v c, ids.[u] = Some c → ids.[v] = Some c → rtc (dfa_edge d) u v) by (intros u v c Hu Hv; by eapply Hrtc, Hsame).
  assert (Hback' : ∀ u v c e, dfa_edge d u v → ids.[u] = Some c → ids.[v] = Some e → e ≤ c) by (intros u v c e He%dedup_edge; by apply Hback).
  (* sizes, finalizers and loops *)
  destruct (foldM_enumerate (noted ids count preds) (note_component ids)
    (replicate (N.to_nat count) (BitSet.new groups), replicate (N.to_nat count) 0, replicate (N.to_nat count) false) (LexDFA.states d)) as ([[finals sizes] loops] & -> & Hfin & Hszl & Hlpl & Hfg & Hsz & Hlp).
  { intros k row st. by apply (note_component_ok ids count preds Hidl Hids Hsame' Hback' Hpc). }
  { assert (Hrep : ∀ {A} (x : A) c, c < count → (replicate (N.to_nat count) x).[c] = Some x) by (intros A x c Hc; rewrite nthN_replicate; by rewrite (proj2 (N.ltb_lt _ _)) by lia).
    split; [|split; [rewrite lenN_replicate; lia|split; [rewrite lenN_replicate; lia|split; [|split]]]].
    - split; [rewrite lenN_replicate; lia|]. intros bits [i Hi]%nthN_elem_of. rewrite nthN_replicate in Hi. case_match; [|done]. injection Hi as <-. split; [apply BitSetFacts.new_wf|done].
    - intros c g'. split; [|by intros (s & row & Hs & _); lia]. intros (bits & Hb & Hget). rewrite nthN_replicate in Hb. case_match; [|done]. injection Hb as <-. by rewrite BitSetFacts.get_new in Hget.
    - intros c Hc. by rewrite Hrep.
    - intros c Hc. exists false. rewrite Hrep by done. split; [done|]. split; [done|]. intros (s & Hs & _). lia. }
  cbn [mbind option_bind]. change (lenN (LexDFA.states d)) with n in *.
  assert (Hfinal : ∀ c g', group_of finals c g' ↔ comp_final ids c g').
  { intros c g'. rewrite Hfg. unfold comp_final. split; intros (s & row & H); exists s, row; [tauto|]. split; [|done]. destruct H as (Hs & _). by eapply nthN_lt. }
  (* the seeds *)
  assert (Hbits : ∀ c bits, finals.[c] = Some bits → bits_ok groups bits) by (intros c bits Hc; apply (proj2 Hfin), nthN_elem_of; eauto).
  destruct (foldM_seqN (λ k futures, all_bits groups preds futures ∧ ∀ c g', c < count → group_of futures c g' ↔ c < k ∧ cyclic ids c ∧ comp_final ids c g')
    (seed_futures finals sizes loops) (replicate (N.to_nat count) (BitSet.new groups)) (N.to_nat count)) as (seeds & -> & Hseeds & Hseed).
  { intros k futures Hk [[Hfl Hfb] Hfut]. assert (Hkc : k < count) by lia. unfold seed_futures. rewrite (Hsz k Hkc). cbn [mbind option_bind].
    destruct (Hlp k Hkc) as (b & Hb & Hbiff). set (cyc := if 1 <? lenN (members_below ids n k) then true else b).
    assert (Hcyc : (if 1 <? lenN (members_below ids n k) then Some true else loops.[k]) = Some cyc) by (unfold cyc; by destruct (1 <? _)).
    assert (Hciff : cyc = true ↔ cyclic ids k).
    { unfold cyc, cyclic. destruct (N.ltb_spec 1 (lenN (members_below ids n k))); [tauto|]. rewrite Hbiff. split.
      - intros (s & _ & Hs & He). right. by exists s.
      - intros [?|(s & Hs & He)]; [lia|]. exists s. split; [by apply (edge_range s s)|done]. }
    change (LexDFA.num_states d) with n. rewrite Hcyc. cbn [mbind option_bind].
    destruct (proj1 (nthN_Some_lt futures k) ltac:(lia)) as [bits Hbits'].
    destruct (proj1 (nthN_Some_lt finals k)) as [fin Hfk]; [rewrite (proj1 Hfin); lia|].
    destruct cyc.
    - rewrite Hfk, Hbits'. cbn [mbind option_bind]. eexists. split; [done|]. assert (Hcyc' : cyclic ids k) by by apply Hciff.
      destruct (Hbits k fin Hfk) as [Hwf Hlf]. destruct (Hfb bits) as [Hwb Hlb]; [apply nthN_elem_of; eauto|].
      destruct (BitSetFacts.union_spec bits fin Hwb Hwf) as [Hwu Hgu]; [lia|]. split.
      + split; [by rewrite lenN_alterN|]. intros x [i Hi]%nthN_elem_of. rewrite nthN_alterN in Hi. destruct (N.eqb_spec i k) as [Heq|_]; [subst i|apply Hfb, nthN_elem_of; eauto].
        rewrite Hbits' in Hi. injection Hi as <-. split; [exact Hwu|exact Hlb].
      + intros c g' Hc. unfold group_of at 1. rewrite nthN_alterN. destruct (N.eqb_spec c k) as [->|Hne].
        * rewrite Hbits'. cbn. assert (Hold : ¬ group_of futures k g') by (rewrite Hfut by done; lia).
          assert (Hgf : BitSet.get fin g' = true ↔ comp_final ids k g') by (rewrite <-Hfinal; unfold group_of; rewrite Hfk; naive_solver).
          split.
          -- intros (x & [= <-] & Hx). rewrite Hgu in Hx. apply orb_true_iff in Hx as [Hx|Hx]; [destruct Hold; by exists bits|]. split; [lia|]. split; [done|by apply Hgf].
          -- intros (_ & _ & Hx). eexists. split; [done|]. rewrite Hgu, (proj2 Hgf Hx). apply orb_true_r.
        * change (group_of futures c g' ↔ c < k + 1 ∧ cyclic ids c ∧ comp_final ids c g'). rewrite Hfut by done. split; intros (? & ?); (split; [lia|done]).
    - eexists. split; [done|]. split; [done|]. intros c g' Hc. rewrite Hfut by done. split; [intros (? & ?); split; [lia|done]|]. intros (Hck & Hc' & Hf). split; [|done].
      assert (c ≠ k); [|lia]. intros ->. by apply Hciff in Hc'. }
  { split; [split; [rewrite lenN_replicate; lia|]|].
    - intros bits [i Hi]%nthN_elem_of. rewrite nthN_replicate in Hi. case_match; [|done]. injection Hi as <-. split; [apply BitSetFacts.new_wf|done].
    - intros c g' _. split; [|by intros (? & _); lia]. intros (bits & Hb & Hget). rewrite nthN_replicate in Hb. case_match; [|done]. injection Hb as <-. by rewrite BitSetFacts.get_new in Hget. }
  cbn [mbind option_bind]. rewrite Hsucc. cbn [mbind option_bind]. rewrite Hpreds. cbn [mbind option_bind]. rewrite N2Nat.id in Hseed.
  (* the propagation *)
  assert (Hpass : ∀ s r, s < lenN preds → bits_ok groups r → ∃ add, pass_futures finals s r = Some add ∧ ∀ bits, bits_ok groups bits →
    bits_ok groups (add bits) ∧ ∀ g', BitSet.get (add bits) g' = true ↔ BitSet.get bits g' = true ∨ comp_final ids s g' ∨ BitSet.get r g' = true).
  { intros s r Hs [Hwr Hlr]. destruct (proj1 (nthN_Some_lt finals s)) as [fin Hfs]; [by rewrite (proj1 Hfin)|]. unfold pass_futures. rewrite Hfs. eexists. split; [done|].
    intros bits [Hw Hl]. destruct (Hbits s fin Hfs) as [Hwf Hlf]. destruct (BitSetFacts.union_spec bits fin Hw Hwf) as [Hw1 Hg1]; [lia|].
    destruct (BitSetFacts.union_spec (BitSet.union_with bits fin) r Hw1 Hwr) as [Hw2 Hg2]; [change (BitSet.len (BitSet.union_with bits fin)) with (BitSet.len bits); lia|].
    split; [split; [exact Hw2|exact Hl]|]. intros g'. rewrite Hg2, Hg1, !orb_true_iff, <-Hfinal. unfold group_of. rewrite Hfs. naive_solver. }
  destruct (propagate_kahn groups preds Hpr (pass_futures finals) (comp_final ids) Hpass seeds (lenN <$> succ)) as (V & Hprop & Htop & HndV & HV); [done|rewrite length_fmap; unfold lenN in *; lia|done|done|].
  rewrite Hprop. cbn [mbind option_bind].
  destruct (rounds_ok groups preds Hpr (pass_futures finals) (comp_final ids) Hpass seeds V Hseeds Htop HndV ltac:(intros t Ht; by apply HV)) as [[Hrl Hrb] Hrg].
  set (reach := foldl (push_groups preds (pass_futures finals)) seeds V) in *.
  assert (Hclt : ∀ s c, ids.[s] = Some c → c < count).
  { intros s c Hs. pose proof (nthN_lt _ _ _ Hs) as Hlt. rewrite Hidl in Hlt. destruct (Hids s Hlt) as (c' & Hc' & ?). congruence. }
  assert (Hlook : ∀ s c, ids.[s] = Some c → ∃ bits, reach.[c] = Some bits).
  { intros s c Hs. destruct (proj1 (nthN_Some_lt reach c)) as [bits ?]; [|by exists bits]. rewrite Hrl, Hpc. by eapply Hclt. }
  destruct (mapM_lookup_all ids reach Hlook) as (result & Hres & Hrlen & Hrlook).
  exists result. rewrite take_ge by (unfold lenN, LexDFA.num_states, lenN in *; lia). rewrite Hres. split; [done|]. split; [by rewrite Hrlen|].
  intros s bits Hs. apply Hrlook in Hs as (c & Hc & Hcb). split; [apply Hrb, nthN_elem_of; eauto|]. intros g'.
  rewrite <-(futures_strict ids count preds Hidl Hids Hsame' Hback' Hpc (group_of reach)) with (c := c); [|clear s bits c Hc Hcb g'|done].
  - unfold group_of. rewrite Hcb. naive_solver.
  - intros c g' Hc. rewrite Hrg by by rewrite Hpc. rewrite Hseed by done.
    assert (Hcomp : ∀ e, edge preds e c ↔ comp_next ids c e).
    { intros e. rewrite Hedge. unfold comp_edge, comp_next. split; intros (u & v & He & H); exists u, v; (split; [by apply dedup_edge|done]). }
    setoid_rewrite Hcomp. split.
    + intros [(_ & H)|(e & _ & H)]; [by left|right; by exists e].
    + intros [H|(e & He & H)]; [left; split; [done|exact H]|]. right. exists e. split; [|done]. apply HV. rewrite Hpc. destruct He as (u & v & _ & _ & Hv & _). by eapply Hclt.
Qed.
End groups.

Lemma accepting_iff row : BitSet.wf (LexState.finalizers row) → is_accepting row = true ↔ ∃ g, BitSet.get (LexState.finalizers row) g = true.
Proof.
  intros Hwf. unfold is_accepting, BitSet.is_empty. rewrite negb_true_iff. split.
  - intros Hz. destruct (BitSet.iter_ones (LexState.finalizers row)) as [|g l] eqn:E.
    + assert (BitSet.is_zero (LexState.finalizers row) = true); [|congruence]. apply BitSetFacts.is_zero_spec; [done|]. intros i.
      destruct (BitSet.get (LexState.finalizers row) i) eqn:Ei; [|done]. apply BitSetFacts.elem_of_iter_ones in Ei; [|done]. rewrite E in Ei. by apply elem_of_nil in Ei.
    + exists g. apply BitSetFacts.elem_of_iter_ones; [done|]. rewrite E. by left.
  - intros (g & Hg). destruct (BitSet.is_zero (LexState.finalizers row)) eqn:E; [|done]. apply BitSetFacts.is_zero_spec with (i := g) in E; [congruence|done].
Qed.

Section single.
Context (d : LexDFA.t) (groups : N) (Hd : lex_wf 256 groups d).

Abbreviation n := (LexDFA.num_states d).

(** ** The edges as rows *)

Lemma transition_rows_length : lenN (transition_rows d) = n.
Proof using. apply lenN_fmap. Qed.

Lemma elem_of_transition_rows s a t : (s, (a, t)) ∈ flatten_rows (transition_rows d) ↔
  ∃ row, (LexDFA.states d).[s] = Some row ∧ (a, t) ∈ CharTransitions.entries (LexState.transitions row).
Proof using.
  rewrite elem_of_flatten. unfold transition_rows. setoid_rewrite nthN_fmap. split.
  - intros (l & Hl & Hin). destruct ((LexDFA.states d).[s]) as [row|]; [|done]. injection Hl as <-. by exists row.
  - intros (row & -> & Hin). by eexists.
Qed.

Lemma row_edge_range e : e ∈ flatten_rows (transition_rows d) → e.2.1 < 256 ∧ e.2.2 < lenN (transition_rows d) ∧ e.1 < n.
Proof using Hd.
  destruct e as [s [a t]]. intros (row & Hrow & Hin)%elem_of_transition_rows. rewrite transition_rows_length. cbn.
  destruct (rw_range _ _ _ _ (state_row d groups Hd s row Hrow) a t Hin). split; [done|]. split; [done|]. by eapply nthN_lt.
Qed.

(** The sources of the edges into every state. *)
Definition source_rows : list (list N) := (λ t, map fst (into t (flatten_rows (transition_rows d)))) <$> seqN (N.to_nat n).

Lemma source_rows_lookup t : source_rows.[t] = if t <? n then Some (map fst (into t (flatten_rows (transition_rows d)))) else None.
Proof using. unfold source_rows. rewrite nthN_fmap, nthN_seqN, N2Nat.id. by destruct (t <? n). Qed.

Lemma source_rows_edge t s : row_edge source_rows t s ↔ dfa_edge d s t.
Proof using Hd.
  unfold row_edge. setoid_rewrite source_rows_lookup. split.
  - intros (l & Hl & Hin). destruct (N.ltb_spec t n) as [Ht|Ht]; [|done]. injection Hl as <-. apply list_elem_of_fmap in Hin as ([s' [a t']] & -> & [Hto Hin]%list_elem_of_filter).
    cbn in Hto. subst t'. apply elem_of_transition_rows in Hin as (row & Hrow & Hin). by exists row, a.
  - intros He. pose proof (edge_range d groups Hd s t He) as [_ Ht]. destruct He as (row & a & Hrow & Hin). rewrite (proj2 (N.ltb_lt _ _) Ht). eexists. split; [done|].
    apply list_elem_of_fmap. exists (s, (a, t)). split; [done|]. apply list_elem_of_filter. split; [done|]. apply elem_of_transition_rows. by exists row.
Qed.

(** ** The backward search *)

(** A state that can still accept, now or later. *)
Definition can_accept (s : N) : Prop := ∃ t row g, rtc (dfa_edge d) s t ∧ (LexDFA.states d).[t] = Some row ∧ BitSet.get (LexState.finalizers row) g = true.

Lemma reaching_states_ok sources : (∀ s, sources s = source_rows.[s]) →
  ∃ marks, reaching_states d sources = Some marks ∧ lenN marks = n ∧ ∀ s, marks.[s] = Some true ↔ can_accept s.
Proof using Hd.
  intros Hsrc. unfold reaching_states, seed_accepting.
  pose proof (mark_seed_spec push_back is_accepting (LexDFA.states d) push_back_perm) as Hseed. cbn zeta in Hseed.
  destruct (foldl (mark_seed push_back is_accepting) _ _) as [marks work]. cbn [fst snd] in Hseed. destruct Hseed as (Hl & Hnd & Hw & Hm).
  assert (Hlen : length source_rows = length (LexDFA.states d)) by (unfold source_rows, LexDFA.num_states, lenN; by rewrite length_fmap, length_seqN, Nat2N.id).
  rewrite <-Hlen, (mark_search_rows push_back source_rows sources _ Hsrc).
  assert (Hn : lenN source_rows = n) by (unfold LexDFA.num_states, lenN; by rewrite Hlen).
  destruct (mark_search_spec push_back push_back_perm source_rows) with (root := λ x, x ∈ work) (marks := marks) (work := work) as (marks' & Hs & Hl' & Hmk); [| |unfold lenN in *; congruence|done|done|done|].
  - intros row t (s & Hs)%nthN_elem_of Hin. rewrite Hn. apply (edge_range d groups Hd t s). apply source_rows_edge. by exists row.
  - intros r (row & Hrow & _)%Hw. rewrite Hn. by eapply nthN_lt.
  - exists marks'. split; [done|]. split; [congruence|]. intros s. rewrite Hmk. unfold reached, can_accept. split.
    + intros (t & (row & Hrow & Hacc)%Hw & Hr). apply accepting_iff in Hacc as (g & Hg); [|apply (rw_finalizers _ _ _ _ (state_row d groups Hd t row Hrow))].
      exists t, row, g. split; [|done]. clear -Hr Hd. induction Hr as [x|x y z Hxy _ IH]; [done|]. eapply rtc_r; [exact IH|]. by apply source_rows_edge.
    + intros (t & row & g & Hr & Hrow & Hg). exists t. split.
      * apply Hw. exists row. split; [done|]. apply accepting_iff; [apply (rw_finalizers _ _ _ _ (state_row d groups Hd t row Hrow))|eauto].
      * clear -Hr Hd. induction Hr as [x|x y z Hxy _ IH]; [done|]. eapply rtc_r; [exact IH|]. by apply source_rows_edge.
Qed.

Lemma any_target_ok marks targets : (∀ t, t ∈ targets → t < lenN marks) →
  ∃ b, any_target marks targets = Some b ∧ (b = true ↔ ∃ t, t ∈ targets ∧ marks.[t] = Some true).
Proof using.
  induction targets as [|t targets IH]; intros Hlt; cbn [any_target].
  - exists false. split; [done|]. split; [done|]. by intros (t & ?%elem_of_nil & _).
  - destruct (proj1 (nthN_Some_lt marks t)) as [m Hm]; [apply Hlt; by left|]. rewrite Hm. cbn [mbind option_bind]. destruct m.
    + exists true. split; [done|]. split; [|done]. intros _. exists t. split; [by left|done].
    + destruct IH as (b & -> & Hb); [intros u Hu; apply Hlt; by right|]. exists b. split; [done|]. rewrite Hb. setoid_rewrite elem_of_cons. split; [naive_solver|]. intros (u & [->|Hu] & Hmu); [congruence|eauto].
Qed.

(** The bits of the state are those of the flag. *)
Lemma flag_bits_spec flag : BitSet.wf (LexDFA.flag_bits flag) ∧ BitSet.len (LexDFA.flag_bits flag) = 1 ∧ ∀ g, BitSet.get (LexDFA.flag_bits flag) g = flag && (g =? 0).
Proof using.
  unfold LexDFA.flag_bits. destruct flag.
  - destruct (BitSetFacts.set_spec (BitSet.new 1) 0 (BitSetFacts.new_wf 1)) as (H1 & H2 & H3). split; [done|]. split; [done|]. intros g. rewrite H3, BitSetFacts.get_new, orb_false_r. cbn. apply andb_true_r.
  - split; [apply BitSetFacts.new_wf|]. split; [done|]. intros g. apply BitSetFacts.get_new.
Qed.

(** An edge to a state that can accept is a strict future. *)
Lemma edge_future marks s row b : (∀ s, marks.[s] = Some true ↔ can_accept s) → (LexDFA.states d).[s] = Some row →
  (b = true ↔ ∃ t, t ∈ state_targets row ∧ marks.[t] = Some true) → groups = 1 → ∀ g, BitSet.get (LexDFA.flag_bits b) g = true ↔ strict_future d s g.
Proof using Hd.
  intros Hm Hrow Hb H1 g. rewrite (proj2 (proj2 (flag_bits_spec b))), andb_true_iff, N.eqb_eq, Hb. setoid_rewrite Hm. unfold can_accept, strict_future. split.
  - intros ((t & Ht & u & r & g' & Hr & Hu & Hg) & ->). pose proof (finalizer_lt d groups Hd u r g' Hu Hg) as Hlt. assert (g' = 0) as -> by lia.
    exists u, r. split; [|done]. eapply tc_rtc_r; [|exact Hr]. apply tc_once, dfa_edge_targets. by exists row.
  - intros (u & r & Htc & Hu & Hg). pose proof (finalizer_lt d groups Hd u r g Hu Hg). split; [|lia].
    assert (Hstep : ∃ t, dfa_edge d s t ∧ rtc (dfa_edge d) t u).
    { inversion Htc as [? ? He|? y ? He Hrest]; subst; [by exists u|exists y; split; [done|by apply tc_rtc]]. }
    destruct Hstep as (t & He & Hr). apply dfa_edge_targets in He as (row' & Hrow' & Ht). assert (row' = row) as -> by congruence. exists t. split; [done|]. by exists u, r, g.
Qed.

Lemma single_group_futures_ok : groups = 1 → n < u32_modulus →
  ∃ futures, recompute_single_group_possible_futures d = Some (assign_futures d futures) ∧ futures_ok d groups futures.
Proof using Hd.
  intros H1 Hn. set (rows := transition_rows d). set (limit := lenN (flatten_rows rows) + 1).
  assert (Htargets : ∀ e, e ∈ flatten_rows rows → e.2.2 < lenN rows) by (intros e He; by apply row_edge_range in He as (_ & ? & _)).
  assert (Hsmall : lenN (flatten_rows rows) < limit) by (unfold limit; lia).
  unfold recompute_single_group_possible_futures. fold rows.
  destruct (count_targets_ok rows Htargets limit Hsmall N.add (λ _ _ _, eq_refl)) as (counts & -> & Hl & Hc). cbn [mbind option_bind].
  destruct (prefix_sums_ok rows Htargets limit Hsmall N.add (λ _ _ _, eq_refl) counts) as [Hlo Ho]; [intros t Ht; apply Hc; lia|]. rewrite Hl in *.
  set (offsets := InverseTransitions.prefix_sums N.add counts) in *.
  destruct (place_ok rows Htargets limit Hsmall N.add (λ _ _ _, eq_refl) (λ _ source, as_u32 source) offsets 0 Hlo Ho) as (sources & -> & Hls & Hp). cbn [mbind option_bind].
  destruct (reaching_states_ok (flat_sources offsets sources)) as (marks & -> & Hml & Hm).
  { intros t. rewrite source_rows_lookup. unfold flat_sources. change n with (LexDFA.num_states d). rewrite <-transition_rows_length. fold rows. destruct (N.ltb_spec t (lenN rows)) as [Ht|Ht].
    - rewrite (Ho t), (Ho (t + 1)) by lia. cbn [mbind option_bind].
      rewrite (placed_slice rows Htargets limit Hsmall N.add (λ _ _ _, eq_refl) (λ _ source, as_u32 source) sources t Hls Hp Ht). unfold encoded. f_equal.
      apply map_ext_in. intros [s e] Hin%list_elem_of_In. apply list_elem_of_filter in Hin as [_ Hin]. apply row_edge_range in Hin as (_ & _ & Hs). cbn in Hs |- *. apply as_u32_small. lia.
    - rewrite (proj2 (nthN_None offsets (t + 1))) by lia. by destruct (offsets.[t]). }
  cbn [mbind option_bind].
  assert (Hany : ∀ s row, (LexDFA.states d).[s] = Some row → ∃ b, any_target marks (state_targets row) = Some b ∧ (b = true ↔ ∃ t, t ∈ state_targets row ∧ marks.[t] = Some true)).
  { intros s row Hrow. apply any_target_ok. intros t Ht. rewrite Hml. apply (edge_range d groups Hd s t), dfa_edge_targets. by exists row. }
  assert (Hstrict : is_Some (mapM (λ state, any_target marks (state_targets state)) (LexDFA.states d))).
  { apply mapM_is_Some_2, Forall_forall. intros row (s & Hs)%nthN_elem_of. destruct (Hany s row Hs) as (b & Hb & _). by exists b. }
  destruct Hstrict as (strict & Hstrict). rewrite Hstrict. cbn [mbind option_bind]. exists (map LexDFA.flag_bits strict). split; [done|].
  apply mapM_Some_1 in Hstrict. pose proof (Forall2_length _ _ _ Hstrict) as Hlen. split; [change (map ?f ?l) with (f <$> l); rewrite lenN_fmap; unfold LexDFA.num_states, lenN; congruence|].
  intros s future Hf. change (map ?f ?l) with (f <$> l) in Hf. rewrite nthN_fmap in Hf. destruct (strict.[s]) as [b|] eqn:Eb; [|done]. injection Hf as <-.
  split; [destruct (flag_bits_spec b) as (? & ? & _); split; [done|congruence]|].
  rewrite nthN_lookup in Eb. destruct (Forall2_lookup_r _ _ _ _ _ Hstrict Eb) as (row & Hrow & Hb). rewrite <-nthN_lookup in Hrow. destruct (Hany s row Hrow) as (b' & Hb' & Hiff).
  assert (b' = b) as -> by congruence. by apply (edge_future marks s row b).
Qed.

(** From the inverse table of the refinement. *)
Lemma can_reach_from_inverse_ok inverse : lenN (flatten_rows (transition_rows d)) < u32_modulus → n < u32_modulus → InverseTransitions.build d = Some inverse →
  ∃ marks, can_reach_accepting_from_inverse d inverse = Some marks ∧ lenN marks = n ∧ ∀ s, marks.[s] = Some true ↔ can_accept s.
Proof using Hd.
  intros He Hn Hb. unfold InverseTransitions.build in Hb. destruct (inverse_ok (transition_rows d)) as (inverse' & Hb' & Hin & Hout); [intros e Hx; by apply row_edge_range in Hx as (_ & ? & _)|done|intros e Hx; by apply row_edge_range in Hx as (? & _)|rewrite transition_rows_length; lia|].
  assert (inverse' = inverse) as -> by congruence. apply reaching_states_ok. intros t. rewrite source_rows_lookup, <-transition_rows_length. destruct (N.ltb_spec t (lenN (transition_rows d))) as [Ht|Ht]; [by apply Hin|by apply Hout].
Qed.
End single.
