(* ===== verification/LexPrerefine.v ===== *)
(** What minimization does before and instead of the refinement
    (crates/glrmask-lexer/src/automata/lexer/minimize.rs): the partition by
    finalizers, and the labels by one pass over the states in post-order.

    [None] is a panic. *)

From S2P Require Import Prelude Bits U8Set BitSet CharTransitions LexDfa Search LexNfa LexReach LexHopcroft LexFutures.

#[export] Instance bit_set_countable : Countable BitSet.t.
Proof. by refine (inj_countable' (λ s, (BitSet.words s, BitSet.len s)) (λ p, BitSet.mk p.1 p.2) _); intros []. Defined.

Definition partition_by_finalizers (d : LexDFA.t) : option (list N * list (list N)) :=
  '(_, partition, blocks) ← foldM observe (∅, replicate (length (LexDFA.states d)) 0, []) (enumerate (LexState.finalizers <$> LexDFA.states d));
  Some (partition, blocks).

Definition clear_possible_futures_for_minimization (d : LexDFA.t) : LexDFA.t :=
  LexDFA.mask_possible_futures d (BitSet.new (LexDFA.num_groups d)).

(** * Post-order *)

(** One round of the [while let] over [dfs_stack], its last element at the head:
    the marks are 0, 1 for a state on the stack and 2 for one left. *)
Definition post_step (adj : list (list N)) (st : list N * list (N * nat) * list N) : (list N * list (N * nat) * list N) + option (list N * list N) :=
  let '(visited, dfs_stack, post_order) := st in
  match dfs_stack with
  | [] => inr (Some (visited, post_order))
  | (state, edge_index) :: rest =>
      match adj.[state] with
      | None => inr None
      | Some row =>
          match row !! edge_index with
          | Some target =>
              match visited.[target] with
              | Some mark =>
                  if mark =? 0
                  then inl (alterN (λ _, 1) visited target, (target, O) :: (state, S edge_index) :: rest, post_order)
                  else inl (visited, (state, S edge_index) :: rest, post_order)
              | None => inr None
              end
          | None => inl (alterN (λ _, 2) visited state, rest, post_order ++ [state])
          end
      end
  end.

Definition post_root (adj : list (list N)) (st : list N * list N) (root : N) : option (list N * list N) :=
  let '(visited, post_order) := st in
  mark ← visited.[root];
  if negb (mark =? 0) then Some st
  else match run (post_step adj) (reach_fuel adj) (alterN (λ _, 1) visited root, [(root, O)], post_order) with inr r => r | inl _ => None end.

Definition compute_post_order (adj : list (list N)) : option (list N) :=
  snd <$> foldM (post_root adj) (replicate (length adj) 0, []) (seqN (length adj)).

(** * Components by two searches *)

Definition reverse_adjacency (adj : list (list N)) : option (list (list N)) := reverse_edges (length adj) (successor_edges adj).

Definition claim (current_scc : N) (st : list N * list N) (pred : N) : option (list N * list N) :=
  let '(scc_id, scc_stack) := st in
  id ← scc_id.[pred];
  Some (if id =? u32_max then (alterN (λ _, current_scc) scc_id pred, pred :: scc_stack) else st).

Definition claim_step (reverse_adj : list (list N)) (current_scc : N) (st : list N * list N) : (list N * list N) + option (list N) :=
  let '(scc_id, scc_stack) := st in
  match scc_stack with
  | [] => inr (Some scc_id)
  | node :: scc_stack =>
      match reverse_adj.[node] ≫= foldM (claim current_scc) (scc_id, scc_stack) with Some st => inl st | None => inr None end
  end.

Definition claim_component (reverse_adj : list (list N)) (st : list N * N) (state : N) : option (list N * N) :=
  let '(scc_id, current_scc) := st in
  id ← scc_id.[state];
  if negb (id =? u32_max) then Some st
  else
    match run (claim_step reverse_adj current_scc) (S (length reverse_adj)) (alterN (λ _, current_scc) scc_id state, [state]) with
    | inr (Some scc_id) => Some (scc_id, u32_wrapping_add current_scc 1)
    | _ => None
    end.

Definition compute_kosaraju_scc_ids (adj : list (list N)) (post_order : list N) : option (list N) :=
  reverse_adj ← reverse_adjacency adj;
  fst <$> foldM (claim_component reverse_adj) (replicate (length adj) u32_max, 0) (rev post_order).

(** * Labels *)

Definition file_label (st : list N * list (list N)) (entry : N * N) : option (list N * list (list N)) :=
  let '(partition, blocks) := st in
  let '(state, label) := entry in
  partition ← store partition state label;
  _ ← blocks.[label];
  Some (partition, alterN (λ block, block ++ [as_u32 state]) blocks label).

Definition build_blocks_from_labels (labels : list N) (num_labels : N) : option (list N * list (list N)) :=
  foldM file_label (replicate (length labels) 0, replicate (N.to_nat num_labels) []) (enumerate labels).

Module TopologyPrerefine.
Inductive t :=
  | AlreadyMinimal (blocks : list (list N))
  | Refined (partition : list N) (blocks : list (list N))
  | Skip.
End TopologyPrerefine.

(** The signature of a state: its block, then every byte with the label of the
    target, or with the block of the target inside a component and before the
    target has a label. *)
Definition signature_target (partition scc_id labels : list N) (state target : N) : option N :=
  source_scc ← scc_id.[state]; target_scc ← scc_id.[target];
  if source_scc =? target_scc then partition.[target]
  else label ← labels.[target]; if label =? u32_max then partition.[target] else Some (N.lor label 2147483648).

Definition state_signature (d : LexDFA.t) (partition scc_id labels : list N) (state : N) : option (list N) :=
  first ← partition.[state];
  row ← (LexDFA.states d).[state];
  foldM (λ signature '(byte, target), value ← signature_target partition scc_id labels state target; Some (signature ++ [byte; value]))
    [first] (CharTransitions.iter (LexState.transitions row)).

Definition label_state (d : LexDFA.t) (partition scc_id : list N) (st : gmap (list N) N * list N * N) (state : N) : option (gmap (list N) N * list N * N) :=
  let '(label_map, labels, next_label) := st in
  signature ← state_signature d partition scc_id labels state;
  let '(label_map, label, next_label) :=
    match label_map !! signature with
    | Some label => (label_map, label, next_label)
    | None => (<[signature := next_label]> label_map, next_label, u32_wrapping_add next_label 1)
    end in
  labels ← store labels state label;
  Some (label_map, labels, next_label).

Definition topology_prerefine_partition (d : LexDFA.t) (partition : list N) : option (TopologyPrerefine.t * LexDFA.t) :=
  let adj := dedup_adjacency d in
  post_order ← compute_post_order adj;
  scc_id ← compute_kosaraju_scc_ids adj post_order;
  '(_, labels, next_label) ← foldM (label_state d partition scc_id) (∅, replicate (length (LexDFA.states d)) u32_max, 0) post_order;
  '(partition, blocks) ← build_blocks_from_labels labels next_label;
  if next_label =? LexDFA.num_states d
  then
    let '(has_self_loops, d) := LexDFA.has_self_loops d in
    Some (if (has_self_loops : bool) then TopologyPrerefine.Skip else TopologyPrerefine.AlreadyMinimal blocks, d)
  else Some (TopologyPrerefine.Refined partition blocks, d).
