(* ===== verification/LexPrerefineCorrect.v ===== *)
(** The partition by finalizers, the orders and components behind it, and the
    certificate of the labels. *)

From stdpp Require Import relations.
From S2P Require Import Prelude Bits U8Set BitSet CharTransitions LexDfa Search LexNfa LexReach LexReachCorrect LexDetRun LexHopcroft LexSplit LexClasses LexFutures LexFutureGroups LexPrerefine.

(** * Partitions with single states *)

Lemma partition_discrete n p blocks : partition_of n p blocks → (∀ block, block ∈ blocks → lenN block ≤ 1) → ∀ s t, same_block p s t → s = t.
Proof.
  intros [Hl Hb Hid] H1 s t (b & Hs & Ht). destruct (nthN_Some_lt blocks b) as [Hsome _]. destruct (Hsome (Hid s b Hs)) as [block Hblock].
  destruct (Hb b block Hblock) as (_ & _ & Hin). apply Hin in Hs, Ht. assert (Hlen : lenN block ≤ 1) by (apply H1, nthN_elem_of; eauto).
  destruct block as [|x [|y block]]; [by apply elem_of_nil in Hs| |unfold lenN in Hlen; simpl in Hlen; lia]. set_solver.
Qed.

(** As many blocks as states. *)
Lemma partition_full n p blocks : partition_of n p blocks → lenN blocks = n → ∀ s t, same_block p s t → s = t.
Proof.
  intros Hpo Hfull s t (b & Hs & Ht). destruct (N.eq_dec s t) as [|Hne]; [done|exfalso]. destruct Hpo as [Hl Hb Hid].
  set (heads := (λ block, default 0 (head block)) <$> blocks).
  assert (Hhead : ∀ c u, heads.[c] = Some u → p.[u] = Some c).
  { intros c u Hu. unfold heads in Hu. rewrite nthN_fmap in Hu. destruct (blocks.[c]) as [block|] eqn:Ec; [|done]. injection Hu as <-.
    destruct (Hb c block Ec) as (_ & Hnb & Hin). destruct block as [|x block]; [done|]. apply Hin. by left. }
  assert (Hz : ∃ z, p.[z] = Some b ∧ heads.[b] ≠ Some z).
  { destruct (decide (heads.[b] = Some s)) as [He|He]; [exists t; split; [done|congruence]|exists s; by split]. }
  destruct Hz as (z & Hz & Hzh).
  assert (Hnd : NoDup (z :: heads)).
  { apply NoDup_cons. split; [intros (c & Hc)%nthN_elem_of; pose proof (Hhead c z Hc); assert (c = b) as -> by congruence; done|].
    apply NoDup_alt. intros i j x Hi Hj. rewrite <-nthN_of_nat in Hi, Hj. apply Hhead in Hi, Hj. rewrite Hi in Hj. injection Hj. lia. }
  pose proof (NoDup_bounded_length (z :: heads) (N.to_nat n) Hnd) as Hsz. assert (length (z :: heads) ≤ N.to_nat n)%nat; [|unfold heads, lenN in *; cbn [length] in *; rewrite length_fmap in *; lia].
  apply Hsz. intros x [->|Hx]%elem_of_cons; [apply nthN_lt in Hz; lia|]. apply nthN_elem_of in Hx as (c & Hc). apply Hhead, nthN_lt in Hc. lia.
Qed.

(** * The partition by finalizers *)

Lemma partition_by_finalizers_ok d : LexDFA.num_states d < u32_modulus →
  ∃ p blocks, partition_by_finalizers d = Some (p, blocks) ∧ partition_of (LexDFA.num_states d) p blocks ∧
    ∀ s t, s < LexDFA.num_states d → t < LexDFA.num_states d → p.[s] = p.[t] ↔ LexDFA.finalizers d s = LexDFA.finalizers d t.
Proof.
  intros Hn. destruct (observe_ok (LexState.finalizers <$> LexDFA.states d)) as (m & p & blocks & Hob & Hpo & Halike); [by rewrite lenN_fmap|].
  rewrite lenN_fmap in *. rewrite length_fmap in Hob. unfold partition_by_finalizers. rewrite Hob. exists p, blocks. split; [done|]. split; [done|].
  intros s t Hs Ht. rewrite Halike, !nthN_fmap by done. done.
Qed.

(** * Post-order *)

Section adjacency.
Context (adj : list (list N)) (Hclosed : ∀ s t, adj_edge adj s t → t < lenN adj) (Hsmall : lenN adj < 2147483648).

Abbreviation n := (lenN adj).

(** The states [V] met so far are on the stack or in the order. *)
Record post_ok (V visited : list N) (dfs_stack : list (N * nat)) (post_order : list N) : Prop := {
  pk_length : lenN visited = n;
  pk_marks : ∀ s, s < n → ∃ mark, visited.[s] = Some mark ∧ (mark ≠ 0 ↔ s ∈ V);
  pk_split : V ≡ₚ dfs_stack.*1 ++ post_order;
  pk_nodup : NoDup V;
  pk_range : ∀ s, s ∈ V → s < n;
}.

Definition post_inv (V0 : list N) (st : list N * list (N * nat) * list N) (m : nat) : Prop :=
  ∃ V, post_ok V st.1.1 st.1.2 st.2 ∧ V0 ⊆ V ∧ (rounds_left adj V + sum_list_with (frame_rounds adj) st.1.2 ≤ m)%nat.

Lemma post_step_ok V0 st m : post_inv V0 st m → st.1.2 ≠ [] → ∃ st', post_step adj st = inl st' ∧ ∃ m', post_inv V0 st' m' ∧ (m' < m)%nat.
Proof using All.
  destruct st as [[visited stack] post]. intros (V & [Hl Hm Hsp Hnd Hr] & HV0 & Hms) Hne. cbn [fst snd] in *. destruct stack as [|[s i] rest]; [done|]. cbn [post_step].
  assert (Hs : s < n) by (apply Hr; rewrite Hsp; cbn; by left). destruct (proj1 (nthN_Some_lt adj s) Hs) as [row Hrow]. rewrite Hrow.
  assert (Hout : adj_out adj s = length row) by (unfold adj_out; by rewrite Hrow). cbn [sum_list_with] in Hms. unfold frame_rounds in Hms at 1. cbn [fst snd] in Hms. rewrite Hout in Hms.
  destruct (row !! i) as [target|] eqn:Ei.
  - pose proof (lookup_lt_Some _ _ _ Ei) as Hi. assert (Ht : target < n) by (apply (Hclosed s); exists row; split; [done|by eapply list_elem_of_lookup_2]).
    destruct (Hm target Ht) as (mark & Hmark & Hiff). rewrite Hmark. destruct (N.eqb_spec mark 0) as [Hz|Hz].
    + assert (HtV : target ∉ V) by tauto. eexists. split; [done|]. exists (m - 1)%nat. split; [|lia]. exists (V ++ [target]). cbn [fst snd].
      split; [|split; [set_solver|]].
      * split; [by rewrite lenN_alterN| | | |].
        -- intros u Hu. rewrite nthN_store by lia. destruct (N.eqb_spec u target) as [->|Hne']; [exists 1; split; [done|]; set_solver|]. destruct (Hm u Hu) as (mu & Hmu & Hmiff). exists mu. split; [done|]. set_solver.
        -- rewrite (Permutation_app_comm V [_]). cbn. by rewrite Hsp.
        -- apply NoDup_app. split; [done|]. split; [set_solver|apply NoDup_singleton].
        -- intros u [Hu| ->%list_elem_of_singleton]%elem_of_app; [by apply Hr|done].
      * pose proof (rounds_left_snoc adj V target Ht HtV) as Hrl. cbn [sum_list_with]. unfold frame_rounds at 1 2. cbn [fst snd]. rewrite Hout. lia.
    + eexists. split; [done|]. exists (m - 1)%nat. split; [|lia]. exists V. cbn [fst snd]. split; [by split|]. split; [done|]. cbn [sum_list_with]. unfold frame_rounds at 1. cbn [fst snd]. rewrite Hout. lia.
  - eexists. split; [done|]. exists (m - 1)%nat. split; [|lia]. exists V. cbn [fst snd]. split; [|split; [done|lia]]. split; [by rewrite lenN_alterN| | |done|done].
    + intros u Hu. rewrite nthN_store by lia. destruct (N.eqb_spec u s) as [->|Hne']; [exists 2; split; [done|]|by apply Hm]. split; [|done]. intros _. rewrite Hsp. cbn. by left.
    + rewrite Hsp. cbn. rewrite app_assoc. apply Permutation_cons_append.
Qed.

Lemma post_root_ok V visited post root : post_ok V visited [] post → root < n →
  ∃ V' visited' post', post_root adj (visited, post) root = Some (visited', post') ∧ post_ok V' visited' [] post' ∧ V ⊆ V' ∧ root ∈ V'.
Proof using All.
  intros Hok Hroot. pose proof Hok as [Hl Hm Hsp Hnd Hr]. destruct (Hm root Hroot) as (mark & Hmark & Hiff). unfold post_root. rewrite Hmark. cbn [mbind option_bind].
  destruct (N.eqb_spec mark 0) as [Hz|Hz]; cbn [negb].
  2:{ exists V, visited, post. split; [done|]. split; [done|]. split; [done|tauto]. }
  assert (HrV : root ∉ V) by tauto.
  destruct (run_terminates (post_step adj) (post_inv (root :: V)) (reach_fuel adj) (alterN (λ _, 1) visited root, [(root, O)], post) (rounds_left adj V)) as (r & [[visited' stack'] post'] & m & -> & (V' & Hok' & HV' & Hmm) & Hexit).
  - intros st st' m' Hinv Hstep. destruct (decide (st.1.2 = [])) as [Hnil|Hne].
    + destruct st as [[v stack] po]. cbn in Hnil. subst stack. done.
    + destruct (post_step_ok _ st m' Hinv Hne) as (st1 & H1 & Hm'). rewrite Hstep in H1. by injection H1 as <-.
  - exists (V ++ [root]). cbn [fst snd]. split; [|split; [set_solver|]].
    + split; [by rewrite lenN_alterN| | | |].
      * intros u Hu. rewrite nthN_store by lia. destruct (N.eqb_spec u root) as [->|Hne']; [exists 1; split; [done|]; set_solver|]. destruct (Hm u Hu) as (mu & Hmu & Hmiff). exists mu. split; [done|]. set_solver.
      * rewrite (Permutation_app_comm V [_]). cbn. by rewrite Hsp.
      * apply NoDup_app. split; [done|]. split; [set_solver|apply NoDup_singleton].
      * intros u [Hu| ->%list_elem_of_singleton]%elem_of_app; [by apply Hr|done].
    + pose proof (rounds_left_snoc adj V root Hroot HrV). cbn [sum_list_with]. unfold frame_rounds. cbn [fst snd]. lia.
  - unfold reach_fuel. pose proof (rounds_fuel adj Hsmall V). pose proof (pow2_gt (S (sum_list_with (λ row, S (length row)) adj))). lia.
  - cbn [fst snd] in *. destruct stack' as [|f stack'].
    + cbn in Hexit. injection Hexit as <-. exists V', visited', post'. split; [done|]. split; [done|]. set_solver.
    + destruct (post_step_ok (root :: V) (visited', f :: stack', post') m) as (st1 & H1 & _); [|done|congruence].
      exists V'. cbn [fst snd]. split; [done|]. split; [done|]. lia.
Qed.
Lemma post_order_ok : ∃ post, compute_post_order adj = Some post ∧ NoDup post ∧ ∀ s, s ∈ post ↔ s < n.
Proof using All.
  destruct (foldM_seqN (λ k st, ∃ V, post_ok V st.1 [] st.2 ∧ ∀ s, s < k → s ∈ V) (post_root adj) (replicate (length adj) 0, []) (length adj)) as ([visited post] & Hf & V & [Hl Hm Hsp Hnd Hr] & Hall).
  - intros k [visited post] Hk (V & Hok & Hall). destruct (post_root_ok V visited post k Hok Hk) as (V' & visited' & post' & Hp & Hok' & Hsub & Hin).
    exists (visited', post'). split; [done|]. exists V'. split; [done|]. intros s Hs. destruct (N.eq_dec s k) as [->|]; [done|]. apply Hsub, Hall. lia.
  - exists []. split; [|intros s Hs; lia]. split; cbn; [by rewrite lenN_replicate| |done|constructor|set_solver].
    intros s Hs. exists 0. rewrite nthN_replicate, (proj2 (N.ltb_lt _ _)) by done. split; [done|]. set_solver.
  - unfold compute_post_order. rewrite Hf. exists post. cbn [fst snd] in *. cbn in Hsp. split; [done|]. split; [by rewrite <-Hsp|]. intros s. rewrite <-Hsp. split; [apply Hr|apply Hall].
Qed.

(** * The two searches of the components *)

(** The states without a component. *)
Definition unclaimed (ids : list N) : nat := length (filter (λ id, id = u32_max) ids).

Lemma unclaimed_claim ids s c : ids.[s] = Some u32_max → c ≠ u32_max → (unclaimed (alterN (λ _, c) ids s) + 1 = unclaimed ids)%nat.
Proof using All.
  intros Hs Hc. destruct (nthN_split _ _ _ Hs) as (l1 & l2 & -> & <-). rewrite alterN_middle. unfold unclaimed. rewrite !filter_app, !filter_cons, !length_app.
  rewrite decide_False, decide_True by done. cbn [length]. lia.
Qed.

Lemma claim_ok c preds ids stack : c ≠ u32_max → lenN ids = n → (∀ p, p ∈ preds → p < n) → (∀ s, s ∈ stack → s < n) →
  ∃ ids' stack', foldM (claim c) (ids, stack) preds = Some (ids', stack') ∧ lenN ids' = n ∧ (∀ s, s ∈ stack' → s < n) ∧
    (unclaimed ids' + length stack' = unclaimed ids + length stack)%nat.
Proof using All.
  intros Hc. revert ids stack. induction preds as [|p preds IH]; intros ids stack Hl Hp Hs; [by exists ids, stack|]. cbn [foldM].
  change (claim c (ids, stack) p) with (id ← ids.[p]; Some (if id =? u32_max then (alterN (λ _, c) ids p, p :: stack) else (ids, stack))).
  assert (Hpn : p < n) by (apply Hp; by left). destruct (proj1 (nthN_Some_lt ids p)) as [id Hid]; [by rewrite Hl|]. rewrite Hid. cbn [mbind option_bind].
  destruct (N.eqb_spec id u32_max) as [Hm|Hm].
  - destruct (IH (alterN (λ _, c) ids p) (p :: stack)) as (ids' & stack' & Hf & Hl' & Hs' & Hu); [by rewrite lenN_alterN|intros q Hq; apply Hp; by right|set_solver|].
    exists ids', stack'. split; [exact Hf|]. split; [done|]. split; [done|]. rewrite Hu. subst id. pose proof (unclaimed_claim ids p c Hid Hc). cbn [length]. lia.
  - destruct (IH ids stack) as (ids' & stack' & Hf & H); [done|intros q Hq; apply Hp; by right|done|]. by exists ids', stack'.
Qed.

Lemma claim_component_ok reverse_adj st s : lenN reverse_adj = n → (∀ t u, row_edge reverse_adj t u → u < n) → st.2 < n → lenN st.1 = n → s < n →
  ∃ st', claim_component reverse_adj st s = Some st' ∧ lenN st'.1 = n ∧ st'.2 ≤ st.2 + 1.
Proof using All.
  destruct st as [ids c]. cbn [fst snd]. intros Hrl Hr Hc Hl Hs. unfold claim_component. destruct (proj1 (nthN_Some_lt ids s)) as [id Hid]; [by rewrite Hl|]. rewrite Hid. cbn [mbind option_bind].
  destruct (N.eqb_spec id u32_max) as [Hm|Hm]; cbn [negb].
  2:{ exists (ids, c). cbn. split; [done|]. split; [done|lia]. }
  assert (Hcm : c ≠ u32_max) by (unfold u32_max; lia). subst id.
  set (I := λ (st : list N * list N) (m : nat), lenN st.1 = n ∧ (∀ s, s ∈ st.2 → s < n) ∧ (unclaimed st.1 + length st.2 = m)%nat).
  assert (Hstep : ∀ st m, I st m → st.2 ≠ [] → ∃ st', claim_step reverse_adj c st = inl st' ∧ I st' (pred m) ∧ (m ≠ 0)%nat).
  { intros [i [|x stack]] m (H1 & H2 & H3) Hne; [done|]. cbn [fst snd] in *. cbn [claim_step]. destruct (proj1 (nthN_Some_lt reverse_adj x)) as [row Hrow]; [rewrite Hrl; apply H2; by left|]. rewrite Hrow. cbn [mbind option_bind].
    destruct (claim_ok c row i stack Hcm H1) as (i' & stack' & -> & Hl' & Hs' & Hu); [intros p Hp; apply (Hr x); by exists row|intros y Hy; apply H2; by right|].
    eexists. split; [done|]. cbn [length] in H3. split; [|lia]. split; [done|]. split; [done|]. cbn [fst snd]. lia. }
  assert (Hunc : (unclaimed ids ≤ N.to_nat n)%nat).
  { unfold unclaimed. pose proof (length_filter (λ id, id = u32_max) ids). unfold lenN in *. lia. }
  destruct (run_terminates (claim_step reverse_adj c) I (S (length reverse_adj)) (alterN (λ _, c) ids s, [s]) (unclaimed ids)) as (r & [i' stack'] & m & -> & Hinv & Hexit).
  - intros st st' m Hi He. destruct (decide (st.2 = [])) as [Hnil|Hne]; [destruct st as [i stack]; cbn in Hnil; by subst stack|].
    destruct (Hstep st m Hi Hne) as (st1 & H1 & H2 & Hm). rewrite He in H1. injection H1 as <-. exists (pred m). split; [done|lia].
  - pose proof (unclaimed_claim ids s c Hid Hcm). unfold I. cbn [fst snd]. split; [by rewrite lenN_alterN|]. split; [intros x [->|[]%elem_of_nil]%elem_of_cons; done|]. cbn [fst snd length]. lia.
  - pose proof (pow2_gt (S (length reverse_adj))). unfold lenN in *. lia.
  - destruct stack' as [|x stack'].
    + cbn in Hexit. injection Hexit as <-. eexists. split; [done|]. cbn [fst snd]. split; [apply Hinv|]. rewrite u32_wrapping_add_small by (unfold u32_modulus; lia). lia.
    + destruct (Hstep (i', x :: stack') m Hinv) as (st1 & H1 & _); [done|congruence].
Qed.

Lemma kosaraju_ok post : NoDup post → (∀ s, s ∈ post ↔ s < n) → ∃ ids, compute_kosaraju_scc_ids adj post = Some ids ∧ lenN ids = n.
Proof using All.
  intros Hnd Hpost. unfold compute_kosaraju_scc_ids, reverse_adjacency.
  destruct (reverse_edges_spec (length adj) (successor_edges adj)) as (rows & -> & Hrl & Hre).
  { intros s t He%elem_of_successor_edges. by apply (Hclosed s). }
  cbn [mbind option_bind]. assert (Hrl' : lenN rows = n) by (unfold lenN; by rewrite Hrl).
  assert (Hlen : (length (rev post) ≤ N.to_nat n)%nat).
  { rewrite length_rev. apply NoDup_bounded_length; [done|]. intros s Hs. apply Hpost in Hs. lia. }
  destruct (foldM_prefix (λ pre st, lenN st.1 = n ∧ st.2 ≤ lenN pre) (claim_component rows) (replicate (length adj) u32_max, 0) (rev post)) as ([ids c] & -> & Hl & _).
  - cbn [fst snd]. split; [by rewrite lenN_replicate|done].
  - intros pre s suf st Heq [Hl Hc]. assert (Hpl : lenN pre < n) by (rewrite Heq, length_app in Hlen; cbn [length] in Hlen; unfold lenN in *; lia).
    destruct (claim_component_ok rows st s Hrl') as (st' & -> & Hl' & Hc'); [|lia|done| |].
    + intros t u He. apply Hre, elem_of_successor_edges in He as (row & Hrow & _). by eapply nthN_lt.
    + apply Hpost, list_elem_of_In, in_rev, list_elem_of_In. rewrite Heq. set_solver.
    + exists st'. split; [done|]. split; [done|]. rewrite lenN_snoc. lia.
  - cbn. by exists ids.
Qed.
End adjacency.

(** * Blocks from labels *)

Lemma file_label_ok labels next k label st : lenN labels ≤ u32_modulus → labels.[k] = Some label → label < next →
  let filed k (st : list N * list (list N)) := lenN st.1 = lenN labels ∧ lenN st.2 = next ∧ (∀ s, s < k → st.1.[s] = labels.[s]) ∧
    ∀ b block, st.2.[b] = Some block → NoDup block ∧ ∀ s, s ∈ block ↔ s < k ∧ labels.[s] = Some b in
  filed k st → ∃ st', file_label st (k, label) = Some st' ∧ filed (k + 1) st'.
Proof.
  destruct st as [p blocks]. cbn. intros Hn Hk Hlt (Hl & Hb & Hp & Hin). pose proof (nthN_lt _ _ _ Hk) as Hkn. rewrite store_ok by lia. cbn [mbind option_bind].
  destruct (proj1 (nthN_Some_lt blocks label)) as [block Hblock]; [lia|]. rewrite Hblock. cbn [mbind option_bind]. eexists. split; [done|]. cbn [fst snd]. rewrite !lenN_alterN.
  split; [done|]. split; [done|]. split.
  - intros s Hs. rewrite nthN_store by lia. destruct (N.eqb_spec s k) as [->|]; [done|]. apply Hp. lia.
  - intros b bl Hbl. rewrite nthN_alterN in Hbl. rewrite as_u32_small in Hbl by lia. destruct (N.eqb_spec b label) as [->|Hne].
    + rewrite Hblock in Hbl. injection Hbl as <-. destruct (Hin _ _ Hblock) as [Hnd Hbi]. split.
      * apply NoDup_app. split; [done|]. split; [|apply NoDup_singleton]. intros x [Hx _]%Hbi ->%list_elem_of_singleton. lia.
      * intros s. rewrite elem_of_app, list_elem_of_singleton, Hbi. split; [intros [[? ?]| ->]; split; [lia|done|lia|done]|]. intros [Hs ?]. destruct (N.eq_dec s k) as [|]; [by right|left; split; [lia|done]].
    + destruct (Hin _ _ Hbl) as [Hnd Hbi]. split; [done|]. intros s. rewrite Hbi. split; [intros [? ?]; split; [lia|done]|]. intros [Hs Hsl]. split; [|done]. destruct (N.eq_dec s k) as [->|]; [congruence|lia].
Qed.

Lemma build_blocks_ok labels next : lenN labels ≤ u32_modulus → (∀ s l, labels.[s] = Some l → l < next) → (∀ l, l < next → ∃ s, labels.[s] = Some l) →
  ∃ p blocks, build_blocks_from_labels labels next = Some (p, blocks) ∧ partition_of (lenN labels) p blocks ∧ lenN blocks = next.
Proof.
  intros Hn Hlt Hsur. unfold build_blocks_from_labels.
  destruct (foldM_enumerate (λ k (st : list N * list (list N)), lenN st.1 = lenN labels ∧ lenN st.2 = next ∧ (∀ s, s < k → st.1.[s] = labels.[s]) ∧
    ∀ b block, st.2.[b] = Some block → NoDup block ∧ ∀ s, s ∈ block ↔ s < k ∧ labels.[s] = Some b) file_label (replicate (length labels) 0, replicate (N.to_nat next) []) labels) as ([p blocks] & Hf & Hl & Hb & Hp & Hin).
  - intros k label st Hk Hst. apply (file_label_ok labels next); [done|done|by eapply Hlt|done].
  - cbn [fst snd]. split; [by rewrite lenN_replicate|]. split; [rewrite lenN_replicate; lia|]. split; [intros s Hs; lia|]. intros b block Hbl. rewrite nthN_replicate in Hbl. destruct (b <? _); [|done]. injection Hbl as <-.
    split; [constructor|]. intros s. split; [set_solver|intros [? _]; lia].
  - cbn [fst snd] in *. exists p, blocks. split; [done|]. split; [|done].
    assert (Hpl : ∀ s, p.[s] = labels.[s]).
    { intros s. destruct (N.ltb_spec s (lenN labels)) as [Hs|Hs]; [by apply Hp|]. by rewrite (proj2 (nthN_None p s)), (proj2 (nthN_None labels s)) by lia. }
    split; [done| |].
    + intros b block Hbl. destruct (Hin b block Hbl) as [Hnd Hbi]. split; [done|]. split.
      * destruct (Hsur b) as [s Hs]; [rewrite <-Hb; by eapply nthN_lt|]. intros ->. assert (s ∈ []) by (apply Hbi; split; [by eapply nthN_lt|done]). set_solver.
      * intros s. rewrite Hbi, Hpl. split; [by intros [_ ?]|]. intros Hs. split; [by eapply nthN_lt|done].
    + intros s b Hs. rewrite Hb. rewrite Hpl in Hs. by eapply Hlt.
Qed.

(** * The pass *)

Section pass.
Context (d : LexDFA.t) (groups : N) (Hd : lex_wf 256 groups d) (Hsmall : LexDFA.num_states d < 2147483648).
Context (partition scc_id : list N) (Hpartition : lenN partition = LexDFA.num_states d) (Hscc : lenN scc_id = LexDFA.num_states d).

Abbreviation n := (LexDFA.num_states d).

Lemma signature_target_ok labels s t : lenN labels = n → s < n → t < n → is_Some (signature_target partition scc_id labels s t).
Proof using All.
  intros Hl Hs Ht. unfold signature_target. destruct (proj1 (nthN_Some_lt scc_id s)) as [a ->]; [lia|]. destruct (proj1 (nthN_Some_lt scc_id t)) as [b ->]; [lia|]. cbn [mbind option_bind].
  assert (Hp : is_Some partition.[t]) by (apply nthN_Some_lt; lia). destruct (a =? b); [done|]. destruct (proj1 (nthN_Some_lt labels t)) as [l ->]; [lia|]. cbn [mbind option_bind]. by destruct (l =? u32_max).
Qed.

Lemma state_signature_ok labels s : lenN labels = n → s < n → is_Some (state_signature d partition scc_id labels s).
Proof using All.
  intros Hl Hs. unfold state_signature. destruct (proj1 (nthN_Some_lt partition s)) as [a ->]; [lia|]. destruct (proj1 (nthN_Some_lt (LexDFA.states d) s)) as [row Hrow]; [done|]. rewrite Hrow. cbn [mbind option_bind].
  apply foldM_total. intros [byte t] sig Hin. destruct (signature_target_ok labels s t Hl Hs) as [v ->]; [|done].
  by apply (rw_range _ _ _ _ (state_row d groups Hd s row Hrow) byte t).
Qed.

(** The states of [pre] have labels below the next one, each used. *)
Record labelled (pre : list N) (st : gmap (list N) N * list N * N) : Prop := {
  la_length : lenN st.1.2 = n;
  la_next : st.2 ≤ lenN pre;
  la_label : ∀ s, s ∈ pre → ∃ l, st.1.2.[s] = Some l ∧ l < st.2;
  la_used : ∀ l, l < st.2 → ∃ s, s ∈ pre ∧ st.1.2.[s] = Some l;
  la_map : ∀ sig l, st.1.1 !! sig = Some l → l < st.2;
}.

Lemma label_state_ok pre s st : s < n → s ∉ pre → lenN pre < n → labelled pre st → ∃ st', label_state d partition scc_id st s = Some st' ∧ labelled (pre ++ [s]) st'.
Proof using All.
  intros Hs Hnew Hpre [Hl Hnext Hlab Hused Hmap]. destruct st as [[m labels] next]. cbn [fst snd] in *. unfold label_state.
  destruct (state_signature_ok labels s Hl Hs) as [sig ->]. cbn [mbind option_bind].
  destruct (m !! sig) as [l|] eqn:Em.
  - rewrite store_ok by lia. cbn [mbind option_bind]. eexists. split; [done|]. pose proof (Hmap _ _ Em) as Hln. split; cbn [fst snd]; [by rewrite lenN_alterN|rewrite lenN_snoc; lia| | |done].
    + intros t [Ht| ->%list_elem_of_singleton]%elem_of_app; rewrite nthN_store by lia; [|rewrite N.eqb_refl; by exists l].
      destruct (N.eqb_spec t s) as [->|]; [done|by apply Hlab].
    + intros k (t & Ht & Htk)%Hused. exists t. split; [set_solver|]. rewrite nthN_store by lia. by destruct (N.eqb_spec t s) as [->|].
  - rewrite u32_wrapping_add_small by (unfold u32_modulus; lia). rewrite store_ok by lia. cbn [mbind option_bind]. eexists. split; [done|]. split; cbn [fst snd]; [by rewrite lenN_alterN|rewrite lenN_snoc; lia| | |].
    + intros t [Ht| ->%list_elem_of_singleton]%elem_of_app; rewrite nthN_store by lia; [|rewrite N.eqb_refl; exists next; split; [done|lia]].
      destruct (N.eqb_spec t s) as [->|]; [done|]. destruct (Hlab t Ht) as (l & Hl' & Hlt). exists l. split; [done|lia].
    + intros k Hk. destruct (N.eq_dec k next) as [->|Hne].
      * exists s. split; [set_solver|]. by rewrite nthN_store, N.eqb_refl by lia.
      * destruct (Hused k ltac:(lia)) as (t & Ht & Htk). exists t. split; [set_solver|]. rewrite nthN_store by lia. by destruct (N.eqb_spec t s) as [->|].
    + intros sig' l. destruct (decide (sig' = sig)) as [->|]; [rewrite lookup_insert_eq; intros [= <-]; lia|]. rewrite lookup_insert_ne by done. intros ?%Hmap. lia.
Qed.

Lemma labels_ok post : NoDup post → (∀ s, s ∈ post ↔ s < n) →
  ∃ m labels next, foldM (label_state d partition scc_id) (∅, replicate (length (LexDFA.states d)) u32_max, 0) post = Some (m, labels, next) ∧
    lenN labels = n ∧ (∀ s l, labels.[s] = Some l → l < next) ∧ ∀ l, l < next → ∃ s, labels.[s] = Some l.
Proof using All.
  intros Hnd Hpost. assert (Hlen : (length post ≤ N.to_nat n)%nat).
  { apply NoDup_bounded_length; [done|]. intros s Hs. apply Hpost in Hs. lia. }
  destruct (foldM_prefix labelled (label_state d partition scc_id) (∅, replicate (length (LexDFA.states d)) u32_max, 0) post) as ([[m labels] next] & Hf & [Hl _ Hlab Hused _]).
  - split; cbn [fst snd]; [by rewrite lenN_replicate|done|set_solver|intros l Hl; lia|done].
  - intros pre s suf st Heq Hst. apply label_state_ok; [apply Hpost; rewrite Heq; set_solver| | |done].
    + rewrite Heq in Hnd. apply NoDup_app in Hnd as (_ & Hdis & _). intros Hin. by apply (Hdis s Hin); left.
    + rewrite Heq, length_app in Hlen. cbn [length] in Hlen. unfold lenN. lia.
  - cbn [fst snd] in *. exists m, labels, next. split; [done|]. split; [done|]. split.
    + intros s l Hs. destruct (Hlab s) as (l' & Hl' & Hlt); [apply Hpost; rewrite <-Hl; by eapply nthN_lt|]. congruence.
    + intros l (s & _ & Hs)%Hused. by exists s.
Qed.
End pass.

(** * The certificate *)

Lemma topology_ok d groups partition : lex_wf 256 groups d → LexDFA.num_states d < 2147483648 → lenN partition = LexDFA.num_states d →
  ∃ prerefine d', topology_prerefine_partition d partition = Some (prerefine, d') ∧ (d' = d ∨ d' = (LexDFA.has_self_loops d).2) ∧
    match prerefine with
    | TopologyPrerefine.AlreadyMinimal blocks => ∃ p, partition_of (LexDFA.num_states d) p blocks ∧ lenN blocks = LexDFA.num_states d
    | TopologyPrerefine.Refined p blocks => partition_of (LexDFA.num_states d) p blocks
    | TopologyPrerefine.Skip => True
    end.
Proof.
  intros Hd Hsmall Hp. set (n := LexDFA.num_states d) in *. unfold topology_prerefine_partition.
  assert (Hal : lenN (dedup_adjacency d) = n) by apply lenN_fmap.
  assert (Hclosed : ∀ s t, adj_edge (dedup_adjacency d) s t → t < lenN (dedup_adjacency d)).
  { intros s t He. apply dedup_edge in He. rewrite Hal. by apply (edge_range d groups Hd s t). }
  destruct (post_order_ok (dedup_adjacency d) Hclosed ltac:(lia)) as (post & -> & Hnd & Hpost). cbn [mbind option_bind].
  destruct (kosaraju_ok (dedup_adjacency d) Hclosed ltac:(lia) post Hnd Hpost) as (ids & -> & Hids). cbn [mbind option_bind].
  rewrite Hal in *. destruct (labels_ok d groups Hd Hsmall partition ids Hp Hids post Hnd Hpost) as (m & labels & next & -> & Hl & Hlt & Hsur). cbn [mbind option_bind].
  destruct (build_blocks_ok labels next) as (p & blocks & -> & Hpo & Hbl); [unfold u32_modulus; fold n in Hl; lia|done|done|]. cbn [mbind option_bind]. rewrite Hl in Hpo.
  destruct (N.eqb_spec next (LexDFA.num_states d)) as [->|Hne].
  - destruct (LexDFA.has_self_loops d) as [[] d'] eqn:Es; cbn [fst snd]; eexists _, _; (split; [done|]); (split; [by right|]); [done|]. by exists p.
  - eexists _, _. split; [done|]. split; [by left|done].
Qed.
