(* ===== verification/LexMinimize.v ===== *)
(** Minimization of byte automata
    (crates/glrmask-lexer/src/automata/lexer/minimize.rs): unreachable states
    dropped, the blocks of the refinement as the new states, and the futures
    computed anew.  A result comes with the automaton whose caches the run filled.

    [None] is a panic. *)

From S2P Require Import Prelude Bits U8Set BitSet CharTransitions LexDfa Search LexNfa LexReach LexHopcroft LexFutures LexPrerefine.

(** * Unreachable states *)

(** The search from state zero and the extra roots. *)
Definition push_root (n : N) (st : list bool * list N) (root : N) : option (list bool * list N) :=
  let '(reachable, queue) := st in
  if n <=? root then Some st
  else mark ← reachable.[root]; Some (if (mark : bool) then st else (alterN (λ _, true) reachable root, root :: queue)).

Definition reachable_states (d : LexDFA.t) (extra_roots : list N) : option (list bool) :=
  let n := LexDFA.num_states d in
  reachable ← store (replicate (length (LexDFA.states d)) false) 0 true;
  '(reachable, queue) ← foldM (push_root n) (reachable, [0]) extra_roots;
  mark_search_of push_top (length (LexDFA.states d)) (λ state, state_targets <$> (LexDFA.states d).[state]) (reachable, queue).

(** [state_mapping[next]], or the next number. *)
Definition number_reachable (st : list N * N) (is_reachable : bool) : list N * N :=
  let '(mapping, new_index) := st in
  if is_reachable then (mapping ++ [new_index], u32_wrapping_add new_index 1) else (mapping ++ [u32_max], new_index).

Definition map_entries (state_mapping : list N) (entries : list (N * N)) : option (list (N * N)) :=
  mapM (λ '(byte, next), mapped ← state_mapping.[next]; Some (byte, mapped)) entries.

Definition keep_state (state_mapping : list N) (state : LexState.t) : option LexState.t :=
  entries ← map_entries state_mapping (CharTransitions.iter (LexState.transitions state));
  epsilon ← mapM (λ next, state_mapping.[next]) (LexState.epsilon_transitions state);
  Some (LexState.set_epsilon (λ _, filter (λ mapped, mapped ≠ u32_max) epsilon)
          (LexState.set_transitions (λ _, CharTransitions.from_sorted_entries entries) state)).

Definition remove_unreachable_states_with_roots_with_mapping (d : LexDFA.t) (extra_roots : list N) : option (LexDFA.t * list N) :=
  reachable ← reachable_states d extra_roots;
  if forallb id reachable then Some (d, as_u32 <$> seqN (length (LexDFA.states d)))
  else
    let '(state_mapping, _) := foldl number_reachable ([], 0) reachable in
    new_states ← foldM (λ new_states '(is_reachable, state),
        if (is_reachable : bool) then new_state ← keep_state state_mapping state; Some (new_states ++ [new_state]) else Some new_states)
      [] (zip reachable (LexDFA.states d));
    Some (LexDFA.states_mut d (λ _, new_states), state_mapping).

Definition remove_unreachable_states_with_mapping (d : LexDFA.t) : option (LexDFA.t * list N) :=
  remove_unreachable_states_with_roots_with_mapping d [].

(** * The new states *)

(** [slice::swap(0, index)] *)
Definition swap_first {A} (l : list A) (index : N) : list A :=
  match l.[0], l.[index] with
  | Some first, Some other => alterN (λ _, first) (alterN (λ _, other) l 0) index
  | _, _ => l
  end.

(** The blocks that are not empty, the block of state zero first. *)
Definition start_block_first (blocks : list (list N)) : list (list N) :=
  let blocks := filter (λ block, block ≠ []) blocks in
  match list_find (λ block, 0 ∈ block) blocks with
  | Some (start_part_idx, _) => swap_first blocks (N.of_nat start_part_idx)
  | None => blocks
  end.

(** The block of every state. *)
Definition block_mapping (n : nat) (blocks : list (list N)) : option (list N) :=
  foldM (λ state_mapping '(new_idx, block), foldM (λ state_mapping old_idx, store state_mapping old_idx (as_u32 new_idx)) state_mapping block)
    (replicate n 0) (enumerate blocks).

(** [result.add_state()], then the row of the representative. *)
Definition add_block (d : LexDFA.t) (state_mapping : list N) (result : LexDFA.t) (block : list N) : option LexDFA.t :=
  representative ← head block;
  old_state ← (LexDFA.states d).[representative];
  let '(new_id, result) := LexDFA.add_state result in
  entries ← map_entries state_mapping (CharTransitions.iter (LexState.transitions old_state));
  epsilon ← mapM (λ old_next, state_mapping.[old_next]) (LexState.epsilon_transitions old_state);
  _ ← (LexDFA.states result).[new_id];
  Some (LexDFA.states_mut result (λ states, alterN (λ new_state,
          LexState.mk (CharTransitions.from_sorted_entries entries) (LexState.finalizers old_state) (LexState.possible_future_group_ids new_state) epsilon)
        states new_id)).

Definition copy_group (d : LexDFA.t) (result : LexDFA.t) (gid : N) : option LexDFA.t :=
  set ← (LexDFA.group_id_to_u8set d).[as_u32 gid];
  if gid <? LexDFA.num_groups result then Some (LexDFA.set_group_u8set result (as_u32 gid) set) else None.

Definition rebuild_from_blocks_with_mapping (d : LexDFA.t) (partition_blocks : list (list N)) : option (LexDFA.t * list N) :=
  let partition_blocks := start_block_first partition_blocks in
  state_mapping ← block_mapping (length (LexDFA.states d)) partition_blocks;
  let num_groups := LexDFA.num_groups d in
  result ← foldM (copy_group d) (LexDFA.ensure_group_capacity (LexDFA.new 0) num_groups) (seqN (N.to_nat num_groups));
  result ← foldM (add_block d state_mapping) result partition_blocks;
  result ← recompute_possible_futures result;
  Some (result, state_mapping).

(** In place: the representatives are kept, with their targets replaced. *)
Definition note_representative (representative_to_new : list N) (entry : N * list N) : option (list N) :=
  let '(new_idx, block) := entry in
  representative ← head block; store representative_to_new representative (as_u32 new_idx).

Definition flag_future (can_reach_accepting : option (list bool)) (state : LexState.t) : option LexState.t :=
  match can_reach_accepting with
  | None => Some state
  | Some marks => has_future ← any_target marks (state_targets state); Some (LexState.set_future (λ _, LexDFA.flag_bits has_future) state)
  end.

Definition move_representative (representative_to_new state_mapping : list N) (single_group_reachability : option (list bool))
    (representatives : list (option LexState.t)) (entry : N * LexState.t) : option (list (option LexState.t)) :=
  let '(old_idx, state) := entry in
  new_idx ← representative_to_new.[old_idx];
  if new_idx =? u32_max then Some representatives
  else
    state ← flag_future single_group_reachability state;
    entries ← map_entries state_mapping (CharTransitions.iter (LexState.transitions state));
    epsilon ← mapM (λ target, state_mapping.[target]) (LexState.epsilon_transitions state);
    store representatives new_idx
      (Some (LexState.set_epsilon (λ _, epsilon) (LexState.set_transitions (λ _, CharTransitions.from_sorted_entries entries) state))).

Definition rebuild_owned_from_blocks_with_mapping_impl (d : LexDFA.t) (partition_blocks : list (list N)) (single_group_reachability : option (list bool))
    : option (LexDFA.t * list N) :=
  let partition_blocks := start_block_first partition_blocks in
  let n := length (LexDFA.states d) in
  state_mapping ← block_mapping n partition_blocks;
  representative_to_new ← foldM note_representative (replicate n u32_max) (enumerate partition_blocks);
  representatives ← foldM (move_representative representative_to_new state_mapping single_group_reachability)
    (replicate (length partition_blocks) None) (enumerate (LexDFA.states d));
  states ← mapM id representatives;
  let d := LexDFA.states_mut d (λ _, states) in
  d ← match single_group_reachability with None => recompute_possible_futures d | Some _ => Some d end;
  Some (d, state_mapping).

Definition rebuild_owned_from_blocks (d : LexDFA.t) (partition_blocks : list (list N)) : option LexDFA.t :=
  fst <$> rebuild_owned_from_blocks_with_mapping_impl d partition_blocks None.

(** * Minimization *)

(** [sort_unstable_by_key(|block| block.first())]: the first states differ. *)
Definition first_state (block : list N) : N := default u32_max (head block).
Definition first_le (x y : list N) : Prop := first_state x ≤ first_state y.

#[export] Instance first_le_dec : RelDecision first_le.
Proof. intros x y. unfold first_le. apply _. Defined.

Definition canonicalize_partition_blocks (blocks : list (list N)) : list (list N) := merge_sort first_le (map sort_N blocks).

Definition compose_mappings (first second : list N) : option (list N) :=
  mapM (λ f, if f =? u32_max then Some u32_max else second.[f]) first.

(** The blocks of the automaton cleared of its futures. *)
Definition minimal_blocks (d : LexDFA.t) : option (list (list N) * LexDFA.t) :=
  '(partition, blocks) ← partition_by_finalizers d;
  let '(has_self_loops, d) := LexDFA.has_self_loops d in
  '(prerefine, d) ← (if (has_self_loops : bool) then Some (TopologyPrerefine.Skip, d) else topology_prerefine_partition d partition);
  match prerefine with
  | TopologyPrerefine.AlreadyMinimal blocks => Some (blocks, d)
  | _ =>
      let check := match prerefine with TopologyPrerefine.Refined _ refined => refined | _ => blocks end in
      if forallb (λ block, lenN block <=? 1) check then Some (check, d)
      else blocks ← hopcroft_refine_partition d partition blocks; Some (blocks, d)
  end.

Definition minimize_impl (d : LexDFA.t) (drop_unreachable canonicalize_blocks : bool) : option (LexDFA.t * list N) :=
  if LexDFA.num_states d =? 0 then Some (d, [])
  else
    '(working, old_to_working) ← (if drop_unreachable then remove_unreachable_states_with_mapping d else Some (d, as_u32 <$> seqN (length (LexDFA.states d))));
    let working := clear_possible_futures_for_minimization working in
    if LexDFA.num_states working <=? 1
    then working ← recompute_possible_futures working; Some (working, old_to_working)
    else
      '(blocks, working) ← minimal_blocks working;
      let blocks := if canonicalize_blocks then canonicalize_partition_blocks blocks else blocks in
      '(result, block_map) ← rebuild_from_blocks_with_mapping working blocks;
      composed ← compose_mappings old_to_working block_map;
      Some (result, composed).

Definition minimize (d : LexDFA.t) : option LexDFA.t :=
  let '(has_epsilon, d) := LexDFA.has_epsilon_transitions d in
  if (has_epsilon : bool) then Some d else fst <$> minimize_impl d true false.

Definition minimize_with_state_mapping (d : LexDFA.t) : option (LexDFA.t * list N) :=
  let '(has_epsilon, d) := LexDFA.has_epsilon_transitions d in
  if (has_epsilon : bool) then Some (d, as_u32 <$> seqN (length (LexDFA.states d))) else minimize_impl d true false.

(** Every state is reachable; a certificate of the labels is not looked at again. *)
Definition minimize_owned_reachable (d : LexDFA.t) : option LexDFA.t :=
  let '(has_epsilon, d) := LexDFA.has_epsilon_transitions d in
  if (has_epsilon : bool) || (LexDFA.num_states d <=? 1) then recompute_possible_futures d
  else
    let d := clear_possible_futures_for_minimization d in
    '(partition, blocks) ← partition_by_finalizers d;
    let '(has_self_loops, d) := LexDFA.has_self_loops d in
    '(blocks, d) ← (
      if (has_self_loops : bool) then blocks ← hopcroft_refine_partition d partition blocks; Some (blocks, d)
      else
        '(prerefine, d) ← topology_prerefine_partition d partition;
        match prerefine with
        | TopologyPrerefine.AlreadyMinimal blocks => Some (blocks, d)
        | TopologyPrerefine.Refined _ refined =>
            if forallb (λ block, lenN block <=? 1) refined then Some (refined, d)
            else blocks ← hopcroft_refine_partition d partition blocks; Some (blocks, d)
        | TopologyPrerefine.Skip => blocks ← hopcroft_refine_partition d partition blocks; Some (blocks, d)
        end);
    rebuild_owned_from_blocks d blocks.

(** Two equivalent states, and a third. *)
Definition minimize_example : LexDFA.t :=
  let d := (LexDFA.add_state (LexDFA.add_state (LexDFA.add_state (LexDFA.add_state (LexDFA.ensure_group_capacity (LexDFA.new 0) 1)).2).2).2).2 in
  let d := LexDFA.add_transition (LexDFA.add_transition (LexDFA.add_transition (LexDFA.add_transition d 0 97 1) 0 98 2) 1 99 3) 2 99 3 in
  LexDFA.overwrite_state_metadata d 3 (LexDFA.flag_bits true) (LexDFA.flag_bits false).

Example minimize_example_states : (λ d, (LexDFA.num_states d, (λ state, (CharTransitions.iter (LexState.transitions state), BitSet.iter_ones (LexState.possible_future_group_ids state))) <$> LexDFA.states d)) <$> minimize minimize_example
  = Some (3, [([(97, 2); (98, 2)], [0]); ([], []); ([(99, 1)], [0])]).
Proof. by vm_compute. Qed.
