(* ===== verification/LexSimulate.v ===== *)
(** Simulations between automata, automata with fresh futures, and the mapping of
    states that an operation returns. *)

From stdpp Require Import relations.
From S2P Require Import Prelude U8Set BitSet CharTransitions LexDfa LexNfa LexReachCorrect LexDeterminize LexDetRun LexHopcroft LexInverse LexSplit LexClasses LexFutures LexFutureGroups LexMinimize.

(** * Steps *)

Lemma get_sorted (tr : CharTransitions.t N) a t : CharTransitions.sorted tr → CharTransitions.get tr a = Some t ↔ (a, t) ∈ CharTransitions.entries tr.
Proof. intros Hs. rewrite CharTransitionsFacts.get_spec by done. by apply CharTransitionsFacts.to_map_lookup. Qed.

Lemma step_row d s row a : (LexDFA.states d).[s] = Some row → LexDFA.step d s a = CharTransitions.get (LexState.transitions row) a.
Proof. intros Hs. unfold LexDFA.step. by rewrite Hs. Qed.

Lemma tc_first {A} (R : relation A) x y : tc R x y → ∃ z, R x z ∧ rtc R z y.
Proof. destruct 1 as [x y H|x z y H Ht]; [by exists y|]. exists z. split; [done|by apply tc_rtc]. Qed.

Section runs.
Context (d : LexDFA.t) (groups : N) (Hd : lex_wf 256 groups d).

Lemma step_iff s a t : LexDFA.step d s a = Some t ↔ ∃ row, (LexDFA.states d).[s] = Some row ∧ (a, t) ∈ CharTransitions.entries (LexState.transitions row).
Proof using Hd.
  unfold LexDFA.step. destruct ((LexDFA.states d).[s]) as [row|] eqn:Hrow; [|naive_solver]. rewrite get_sorted by apply (rw_sorted _ _ _ _ (state_row d groups Hd s row Hrow)). naive_solver.
Qed.

Lemma step_edge s t : dfa_edge d s t ↔ ∃ a, LexDFA.step d s a = Some t.
Proof using Hd. unfold dfa_edge. setoid_rewrite step_iff. naive_solver. Qed.

Lemma step_range s a t : LexDFA.step d s a = Some t → s < LexDFA.num_states d ∧ t < LexDFA.num_states d.
Proof using Hd. intros Hst. apply (edge_range d groups Hd), step_edge. by exists a. Qed.

Lemma run_range s w t : s < LexDFA.num_states d → lex_run d s w = Some t → t < LexDFA.num_states d.
Proof using Hd.
  revert s. induction w as [|a w IH]; intros s Hs; [by intros [= <-]|]. cbn. destruct (LexDFA.step d s a) as [u|] eqn:Hu; [|done]. cbn. apply IH. by apply (step_range s a).
Qed.

Lemma edges_run s t : rtc (dfa_edge d) s t ↔ ∃ w, lex_run d s w = Some t.
Proof using Hd.
  split.
  - induction 1 as [s|s u t [a Ha]%step_edge _ [w Hw]]; [by exists []|]. exists (a :: w). cbn. by rewrite Ha.
  - intros [w Hw]. revert s Hw. induction w as [|a w IH]; intros s; [by intros [= ->]|]. cbn. destruct (LexDFA.step d s a) as [u|] eqn:Hu; [|done]. intros Hw%IH. eapply rtc_l; [|done]. apply step_edge. by exists a.
Qed.

(** The groups met later are those after the words that are not empty. *)
Lemma strict_future_run s g : strict_future d s g ↔ ∃ a w t row, lex_run d s (a :: w) = Some t ∧ (LexDFA.states d).[t] = Some row ∧ BitSet.get (LexState.finalizers row) g = true.
Proof using Hd.
  unfold strict_future. split.
  - intros (t & row & (u & [a Ha]%step_edge & [w Hw]%edges_run)%tc_first & Hrow & Hg). exists a, w, t, row. split; [|done]. cbn. by rewrite Ha.
  - intros (a & w & t & row & Hw & Hrow & Hg). exists t, row. split; [|done]. cbn in Hw. destruct (LexDFA.step d s a) as [u|] eqn:Hu; [|done]. eapply tc_rtc_r; [apply tc_once, step_edge; by exists a|apply edges_run; by exists w].
Qed.

(** The rows of the refinement are the transition function. *)
Lemma transition_rows_next s a : row_next (transition_rows d) s a = LexDFA.step d s a.
Proof using Hd.
  unfold row_next, transition_rows. rewrite nthN_fmap. unfold LexDFA.step. destruct ((LexDFA.states d).[s]) as [row|] eqn:Hrow; [|done]. cbn.
  apply option_eq. intros t. pose proof (rw_sorted _ _ _ _ (state_row d groups Hd s row Hrow)) as Hsort. rewrite get_sorted by done. apply row_target_iff. by apply CharTransitionsFacts.sorted_nodup.
Qed.
End runs.

(** * Simulations *)

(** The finalizers after a word. *)
Definition accepted (d : LexDFA.t) (s : N) (w : list N) : option BitSet.t := q ← lex_run d s w; LexDFA.finalizers d q.

Definition step_matched (M : N → N → Prop) (x y : option N) : Prop :=
  match x, y with Some t, Some t' => M t t' | None, None => True | _, _ => False end.

(** Related states have the same finalizers, and their steps are related. *)
Record simulated (M : N → N → Prop) (d d' : LexDFA.t) : Prop := {
  sm_finalizers : ∀ s s', M s s' → LexDFA.finalizers d s = LexDFA.finalizers d' s';
  sm_step : ∀ s s' a, M s s' → step_matched M (LexDFA.step d s a) (LexDFA.step d' s' a);
}.

Lemma simulated_run M d d' s s' w : simulated M d d' → M s s' → step_matched M (lex_run d s w) (lex_run d' s' w).
Proof.
  intros Hsim. revert s s'. induction w as [|a w IH]; intros s s' HM; [done|]. cbn. pose proof (sm_step _ _ _ Hsim s s' a HM) as Hstep.
  destruct (LexDFA.step d s a), (LexDFA.step d' s' a); [by apply IH|done..].
Qed.

Lemma simulated_accepted M d d' s s' w : simulated M d d' → M s s' → accepted d s w = accepted d' s' w.
Proof.
  intros Hsim HM. unfold accepted. pose proof (simulated_run M d d' s s' w Hsim HM) as Hr.
  destruct (lex_run d s w), (lex_run d' s' w); [by apply (sm_finalizers _ _ _ Hsim)|done..].
Qed.

Lemma simulated_compose M M' d d' d'' : simulated M d d' → simulated M' d' d'' → simulated (λ s u, ∃ t, M s t ∧ M' t u) d d''.
Proof.
  intros H1 H2. split.
  - intros s u (t & Hst & Htu). rewrite (sm_finalizers _ _ _ H1 s t Hst). by apply (sm_finalizers _ _ _ H2).
  - intros s u a (t & Hst & Htu). pose proof (sm_step _ _ _ H1 s t a Hst) as S1. pose proof (sm_step _ _ _ H2 t u a Htu) as S2.
    destruct (LexDFA.step d s a), (LexDFA.step d' t a), (LexDFA.step d'' u a); cbn in *; try done. eauto.
Qed.

(** Rows with the same edges and finalizers. *)
Definition same_edges (d d' : LexDFA.t) : Prop :=
  (λ row, (LexState.transitions row, LexState.epsilon_transitions row, LexState.finalizers row)) <$> LexDFA.states d =
  (λ row, (LexState.transitions row, LexState.epsilon_transitions row, LexState.finalizers row)) <$> LexDFA.states d'.

#[export] Instance same_edges_equivalence : Equivalence same_edges.
Proof. unfold same_edges. split; [done|by intros x y|intros x y z; congruence]. Qed.

Lemma same_edges_row d d' s row : same_edges d d' → (LexDFA.states d).[s] = Some row →
  ∃ row', (LexDFA.states d').[s] = Some row' ∧ LexState.transitions row' = LexState.transitions row ∧ LexState.epsilon_transitions row' = LexState.epsilon_transitions row ∧ LexState.finalizers row' = LexState.finalizers row.
Proof.
  intros He Hrow. apply (f_equal (λ l, nthN l s)) in He. rewrite !nthN_fmap, Hrow in He. destruct ((LexDFA.states d').[s]) as [row'|]; [|done]. cbn in He. exists row'. split; [done|]. by simplify_eq.
Qed.

Lemma same_edges_num d d' : same_edges d d' → LexDFA.num_states d' = LexDFA.num_states d.
Proof. intros He. apply (f_equal lenN) in He. by rewrite !lenN_fmap in He. Qed.

Lemma same_edges_step d d' s a : same_edges d d' → LexDFA.step d' s a = LexDFA.step d s a.
Proof.
  intros He. unfold LexDFA.step. destruct ((LexDFA.states d).[s]) as [row|] eqn:Hrow.
  - destruct (same_edges_row d d' s row He Hrow) as (row' & -> & -> & _). done.
  - apply nthN_None in Hrow. pose proof (same_edges_num _ _ He) as Hn. unfold LexDFA.num_states in Hn. by rewrite (proj2 (nthN_None (LexDFA.states d') s)) by lia.
Qed.

Lemma same_edges_finalizers d d' s : same_edges d d' → LexDFA.finalizers d' s = LexDFA.finalizers d s.
Proof.
  intros He. unfold LexDFA.finalizers. destruct ((LexDFA.states d).[s]) as [row|] eqn:Hrow.
  - destruct (same_edges_row d d' s row He Hrow) as (row' & -> & _ & _ & Hf). cbn. by rewrite Hf.
  - apply nthN_None in Hrow. pose proof (same_edges_num _ _ He) as Hn. unfold LexDFA.num_states in Hn. by rewrite (proj2 (nthN_None (LexDFA.states d') s)) by lia.
Qed.

Lemma same_edges_simulated d d' : same_edges d d' → simulated eq d d'.
Proof.
  intros He. split; [by intros s s' <-; rewrite (same_edges_finalizers d d')|]. intros s s' a <-. rewrite (same_edges_step d d') by done. by destruct (LexDFA.step d s a).
Qed.

(** * The derived statistics *)

(** A filled cache holds what would be computed. *)
Definition stats_ok (d : LexDFA.t) : Prop := ∀ stats, LexDFA.derived_stats d = Some stats → stats = LexDFA.compute_derived_stats d.

(** The statistics of a prefix of the states. *)
Definition stats_step (stats : LexStats.t) (entry : N * LexState.t) : LexStats.t :=
  LexStats.mk (LexStats.byte_transition_count stats + CharTransitions.len (LexState.transitions entry.2))
    (LexStats.epsilon_transition_count stats + lenN (LexState.epsilon_transitions entry.2))
    (LexStats.has_self_loops stats || existsb (λ e, e.2 =? entry.1) (CharTransitions.iter (LexState.transitions entry.2))).

Lemma compute_stats_fold d : LexDFA.compute_derived_stats d = foldl stats_step (LexStats.mk 0 0 false) (enumerate (LexDFA.states d)).
Proof. unfold LexDFA.compute_derived_stats. generalize (LexStats.mk 0 0 false) (enumerate (LexDFA.states d)). intros st l. revert st. induction l as [|[i row] l IH]; intros st; [done|apply IH]. Qed.

Lemma same_edges_stats d d' : same_edges d d' → LexDFA.compute_derived_stats d' = LexDFA.compute_derived_stats d.
Proof.
  rewrite !compute_stats_fold. unfold same_edges. generalize (LexDFA.states d) (LexDFA.states d'). intros l. induction l as [|row l IH] using rev_ind; intros l' He.
  - symmetry in He. apply fmap_nil_inv in He. by subst l'.
  - rewrite fmap_app in He. symmetry in He. apply fmap_app_inv in He as (l1 & l2 & H1 & H2 & ->). cbn in H2. destruct l2 as [|row' [|]]; try done. cbn in H2. injection H2 as Ht He' Hf.
    rewrite !enumerate_snoc, !foldl_snoc, (IH l1) by done. assert (lenN l1 = lenN l) as ->. { apply (f_equal lenN) in H1. by rewrite !lenN_fmap in H1. }
    unfold stats_step at 1 3. cbn [fst snd]. by rewrite Ht, He'.
Qed.

Lemma stats_self_loops d : LexStats.has_self_loops (LexDFA.compute_derived_stats d) = true ↔ ∃ s, dfa_edge d s s.
Proof.
  rewrite compute_stats_fold. unfold dfa_edge. generalize (LexDFA.states d). intros l.
  assert (H : LexStats.has_self_loops (foldl stats_step (LexStats.mk 0 0 false) (enumerate l)) = true ↔ ∃ s row, l.[s] = Some row ∧ ∃ a, (a, s) ∈ CharTransitions.entries (LexState.transitions row)).
  { induction l as [|row l IH] using rev_ind; [naive_solver|]. rewrite enumerate_snoc, foldl_snoc. cbn [stats_step LexStats.has_self_loops fst snd]. rewrite orb_true_iff, IH, existsb_exists. setoid_rewrite nthN_snoc. split.
    - intros [(s & r & Hr & He)|([a t] & Hin & Ht)].
      + exists s, r. apply nthN_lt in Hr as Hlt. destruct (N.eqb_spec s (lenN l)); [lia|done].
      + exists (lenN l), row. rewrite N.eqb_refl. split; [done|]. exists a. cbn in Ht. apply N.eqb_eq in Ht as <-. by apply list_elem_of_In.
    - intros (s & r & Hr & a & Hin). destruct (N.eqb_spec s (lenN l)) as [->|]; [|left; eauto]. injection Hr as ->. right. exists (a, lenN l). split; [by apply list_elem_of_In|apply N.eqb_refl]. }
  rewrite H. naive_solver.
Qed.

Lemma stats_no_epsilon d : (∀ row, row ∈ LexDFA.states d → LexState.epsilon_transitions row = []) → LexStats.epsilon_transition_count (LexDFA.compute_derived_stats d) = 0.
Proof.
  rewrite compute_stats_fold. generalize (LexDFA.states d). intros l. induction l as [|row l IH] using rev_ind; intros H; [done|].
  rewrite enumerate_snoc, foldl_snoc. cbn [stats_step LexStats.epsilon_transition_count fst snd]. rewrite IH by set_solver. by rewrite H by set_solver.
Qed.

(** The automaton with its statistics looked up. *)
Definition recached (d d' : LexDFA.t) : Prop := LexDFA.same d d' ∧ stats_ok d'.

Lemma derived_stats_valid d : stats_ok d → (LexDFA.get_derived_stats d).1 = LexDFA.compute_derived_stats d ∧ recached d (LexDFA.get_derived_stats d).2.
Proof.
  intros Hok. unfold LexDFA.get_derived_stats. cbn [fst snd]. assert (Hs : match LexDFA.derived_stats d with Some stats => stats | None => LexDFA.compute_derived_stats d end = LexDFA.compute_derived_stats d).
  { destruct (LexDFA.derived_stats d) as [st|] eqn:Est; [by apply Hok|done]. }
  rewrite Hs. split; [done|]. split; [done|]. by intros st [= <-].
Qed.

Lemma has_epsilon_ok d bound groups : lex_wf bound groups d → stats_ok d → ∃ d', LexDFA.has_epsilon_transitions d = (false, d') ∧ recached d d'.
Proof.
  intros Hd Hok. destruct (derived_stats_valid d Hok) as [Hst Hre]. unfold LexDFA.has_epsilon_transitions, LexDFA.epsilon_transition_count.
  destruct (LexDFA.get_derived_stats d) as [st d']. cbn [fst snd] in *. subst st. exists d'. split; [|done]. rewrite stats_no_epsilon; [done|]. intros row Hrow. by apply (lw_rows _ _ _ Hd) in Hrow as [].
Qed.

Lemma self_loops_ok d : stats_ok d → ∃ loops d', LexDFA.has_self_loops d = (loops, d') ∧ recached d d' ∧ (loops = true ↔ ∃ s, dfa_edge d s s).
Proof.
  intros Hok. destruct (derived_stats_valid d Hok) as [Hst Hre]. unfold LexDFA.has_self_loops. destruct (LexDFA.get_derived_stats d) as [st d']. cbn [fst snd] in *. subst st.
  eexists _, d'. split; [done|]. split; [done|]. apply stats_self_loops.
Qed.

Lemma recached_wf bound groups d d' : recached d d' → lex_wf bound groups d → lex_wf bound groups d'.
Proof. intros [[Hs Hg] _] [H1 H2 H3]. unfold LexDFA.num_groups, LexDFA.num_states in *. split; unfold LexDFA.num_groups, LexDFA.num_states; rewrite <-?Hs, <-?Hg; done. Qed.

Lemma recached_edges d d' : recached d d' → same_edges d d'.
Proof. intros [[Hs _] _]. unfold same_edges. by rewrite Hs. Qed.

(** The same automaton but for the futures, which are the strict ones. *)
Record refreshed (groups : N) (d d' : LexDFA.t) : Prop := {
  rf_groups : LexDFA.group_id_to_u8set d' = LexDFA.group_id_to_u8set d;
  rf_edges : same_edges d d';
  rf_stats : stats_ok d';
  rf_future : ∀ s row, (LexDFA.states d').[s] = Some row → bits_ok groups (LexState.possible_future_group_ids row) ∧
    ∀ g, BitSet.get (LexState.possible_future_group_ids row) g = true ↔ strict_future d' s g;
}.

Lemma same_edges_wf bound groups d d' : same_edges d d' → LexDFA.group_id_to_u8set d' = LexDFA.group_id_to_u8set d →
  (∀ s row, (LexDFA.states d').[s] = Some row → bits_ok groups (LexState.possible_future_group_ids row)) → lex_wf bound groups d → lex_wf bound groups d'.
Proof.
  intros He Hg Hb [H1 H2 H3]. pose proof (same_edges_num _ _ He) as Hn. split; [unfold LexDFA.num_groups in *; by rewrite Hg|by rewrite Hn|].
  intros row (s & Hs)%nthN_elem_of. symmetry in He. destruct (same_edges_row d' d s row He Hs) as (row' & Hs' & Ht & Hep & Hf).
  destruct (H3 row') as [W1 W2 W3 W4 W5]; [apply nthN_elem_of; eauto|]. rewrite Ht in W1, W2. rewrite Hep in W3. rewrite Hf in W4. rewrite Hn. split; [done|done|done|done|]. apply (Hb s row Hs).
Qed.

Lemma same_edges_future d d' s g : same_edges d d' → strict_future d' s g → strict_future d s g.
Proof.
  intros He. assert (Hedge : ∀ x y, dfa_edge d' x y → dfa_edge d x y).
  { intros x y (row & a & Hrow & Hin). symmetry in He. destruct (same_edges_row d' d x row He Hrow) as (row' & Hr' & Ht & _). exists row', a. by rewrite Ht. }
  intros (t & row & Htc & Hrow & Hg). symmetry in He. destruct (same_edges_row d' d t row He Hrow) as (row' & Hr' & _ & _ & Hf). exists t, row'. split; [|by rewrite Hf].
  clear -Htc Hedge. induction Htc as [x y H|x y z H _ IH]; [by apply relations.tc_once, Hedge|]. eapply relations.tc_l; [by apply Hedge|done].
Qed.

Lemma refreshed_of d d0 groups futures : lex_wf 256 groups d → recached d0 d → LexDFA.num_states d ≤ u32_modulus → futures_ok d groups futures → refreshed groups d0 (assign_futures d futures).
Proof.
  intros Hd Hre Hn [Hl Hf]. destruct (assign_futures_ok d futures Hl Hn) as (Hg & Hst & Hns & Hrows).
  assert (Hrow : ∀ s row', (LexDFA.states (assign_futures d futures)).[s] = Some row' → ∃ row future, (LexDFA.states d).[s] = Some row ∧ futures.[s] = Some future ∧ row' = LexState.set_future (λ _, future) row).
  { intros s row' Hs. pose proof (nthN_lt _ _ _ Hs) as Hlt. change (s < LexDFA.num_states (assign_futures d futures)) in Hlt. rewrite Hns in Hlt.
    destruct (proj1 (nthN_Some_lt (LexDFA.states d) s)) as [row Hrow]; [done|]. destruct (proj1 (nthN_Some_lt futures s)) as [future Hfu]; [by rewrite Hl|]. exists row, future. split; [done|]. split; [done|].
    specialize (Hrows s row future Hrow Hfu). congruence. }
  assert (He : same_edges d (assign_futures d futures)).
  { unfold same_edges. apply nthN_ext. intros s. rewrite !nthN_fmap. destruct ((LexDFA.states (assign_futures d futures)).[s]) as [row'|] eqn:Es.
    - destruct (Hrow s row' Es) as (row & future & -> & _ & ->). done.
    - apply nthN_None in Es. change (LexDFA.num_states (assign_futures d futures) ≤ s) in Es. rewrite Hns in Es. by rewrite (proj2 (nthN_None (LexDFA.states d) s)). }
  pose proof (recached_edges _ _ Hre) as He0. destruct Hre as [[_ Hg0] Hstats]. split; [by rewrite Hg, Hg0|by etrans| |].
  - intros stats. rewrite Hst, (same_edges_stats d _ He). apply Hstats.
  - intros s row' Hs. destruct (Hrow s row' Hs) as (row & future & Hr & Hfu & ->). destruct (Hf s future Hfu) as [Hb Hget]. split; [done|]. intros g. cbn. rewrite Hget. split; apply same_edges_future; [by symmetry|done].
Qed.

Lemma recompute_futures_ok d groups : lex_wf 256 groups d → stats_ok d → LexDFA.num_states d < 2147483648 →
  ∃ d', recompute_possible_futures d = Some d' ∧ refreshed groups d d'.
Proof.
  intros Hd Hok Hn. unfold recompute_possible_futures. pose proof (lw_start _ _ _ Hd) as H0. destruct (N.eqb_spec (LexDFA.num_states d) 0); [lia|].
  destruct (has_epsilon_ok d 256 groups Hd Hok) as (d1 & -> & Hre). pose proof (recached_wf _ _ _ _ Hre Hd) as Hd1. pose proof (same_edges_num _ _ (recached_edges _ _ Hre)) as Hn1.
  rewrite (lw_groups _ _ _ Hd1). destruct (N.eqb_spec groups 1) as [H1|H1].
  - destruct (single_group_futures_ok d1 groups Hd1 H1) as (futures & -> & Hf); [unfold u32_modulus; lia|]. eexists. split; [done|]. apply refreshed_of; [done|done|unfold u32_modulus; lia|done].
  - destruct (group_futures_ok d1 groups Hd1) as (futures & -> & Hf); [lia|]. eexists. split; [done|]. apply refreshed_of; [done|done|unfold u32_modulus; lia|done].
Qed.

Lemma refreshed_wf groups d d' : refreshed groups d d' → lex_wf 256 groups d → lex_wf 256 groups d'.
Proof. intros [Hg He _ Hf]. apply same_edges_wf; [done|done|]. intros s row Hs. by apply (Hf s row). Qed.

(** The row [row'] is [row] with its targets looked up in [m]. *)
Record row_mapped (m : list N) (row row' : LexState.t) : Prop := {
  rm_sorted : CharTransitions.sorted (LexState.transitions row');
  rm_entries : ∀ a t', (a, t') ∈ CharTransitions.entries (LexState.transitions row') ↔ ∃ t, (a, t) ∈ CharTransitions.entries (LexState.transitions row) ∧ m.[t] = Some t';
  rm_epsilon : LexState.epsilon_transitions row' = [];
  rm_finalizers : LexState.finalizers row' = LexState.finalizers row;
}.

Lemma sorted_keys (l k : list (N * N)) : l.*1 = k.*1 → CharTransitions.sorted (CharTransitions.mk l) → CharTransitions.sorted (CharTransitions.mk k).
Proof.
  unfold CharTransitions.sorted. cbn. revert k. induction l as [|[a t] l IH]; intros [|[b u] k]; [done|done|done|]. cbn. intros [= -> Hk] Hs.
  apply StronglySorted_inv in Hs as [Hs Hall]. constructor; [by apply IH|]. rewrite Forall_forall in *. intros [c v] Hin. cbn.
  assert (Hc : c ∈ l.*1) by (rewrite Hk; apply list_elem_of_fmap; by exists (c, v)). apply list_elem_of_fmap in Hc as ([c' v'] & -> & Hin'). by apply (Hall (c', v')).
Qed.

Lemma map_entries_ok m entries : (∀ a t, (a, t) ∈ entries → t < lenN m) →
  ∃ entries', map_entries m entries = Some entries' ∧ entries.*1 = entries'.*1 ∧ ∀ a t', (a, t') ∈ entries' ↔ ∃ t, (a, t) ∈ entries ∧ m.[t] = Some t'.
Proof.
  unfold map_entries. induction entries as [|[a t] entries IH]; intros Hlt; [exists []; split; [done|]; split; [done|set_solver]|].
  destruct IH as (entries' & He & Hk & Hin); [intros b u Hu; apply (Hlt b u); by right|]. destruct (proj1 (nthN_Some_lt m t)) as [t' Ht']; [apply (Hlt a t); by left|].
  exists ((a, t') :: entries'). cbn [mapM]. rewrite Ht'. cbn [mbind option_bind]. rewrite He. split; [done|]. split; [cbn; by rewrite Hk|].
  intros b u. rewrite elem_of_cons, Hin. setoid_rewrite elem_of_cons. split.
  - intros [[= -> ->]|(v & Hv & Hu)]; [exists t; split; [by left|done]|exists v; split; [by right|done]].
  - intros (v & [[= -> ->]|Hv] & Hu); [left; congruence|right; by exists v].
Qed.

(** The entries of a row, mapped. *)
Lemma row_entries_ok bound num groups m row finalizers future : row_wf bound num groups row → num ≤ lenN m → finalizers = LexState.finalizers row →
  ∃ entries, map_entries m (CharTransitions.iter (LexState.transitions row)) = Some entries ∧
    row_mapped m row (LexState.mk (CharTransitions.from_sorted_entries entries) finalizers future []).
Proof.
  intros [Hs Hr _ _ _] Hm ->. destruct (map_entries_ok m (CharTransitions.iter (LexState.transitions row))) as (entries & -> & Hk & Hin).
  - intros a t Hat. destruct (Hr a t Hat). lia.
  - exists entries. split; [done|]. split; [|done|done|done]. apply (sorted_keys (CharTransitions.entries (LexState.transitions row))); [done|]. by destruct (LexState.transitions row).
Qed.

Lemma row_mapped_get m row row' a : CharTransitions.sorted (LexState.transitions row) → row_mapped m row row' →
  (∀ t, (a, t) ∈ CharTransitions.entries (LexState.transitions row) → t < lenN m) →
  CharTransitions.get (LexState.transitions row') a = t ← CharTransitions.get (LexState.transitions row) a; m.[t].
Proof.
  intros Hs [Hs' Hin _ _] Hlt. apply option_eq. intros t'. rewrite get_sorted by done. rewrite Hin. destruct (CharTransitions.get (LexState.transitions row) a) as [t|] eqn:Et; cbn.
  - apply get_sorted in Et as Ein; [|done]. split; [|by exists t]. intros (u & Hu & Hut). apply get_sorted in Hu; [|done]. congruence.
  - split; [|done]. intros (u & Hu & _). apply get_sorted in Hu; [|done]. congruence.
Qed.

Lemma row_mapped_wf bound num num' groups m row row' : row_wf bound num groups row → row_mapped m row row' →
  (∀ a t t', (a, t) ∈ CharTransitions.entries (LexState.transitions row) → m.[t] = Some t' → t' < num') → bits_ok groups (LexState.possible_future_group_ids row') →
  row_wf bound num' groups row'.
Proof.
  intros [H1 H2 H3 H4 H5] [Hs Hin He Hf] Hlt Hb. split; [done| |done|by rewrite Hf|done].
  intros a t' (t & Ht & Hmt)%Hin. split; [by apply (H2 a t)|by apply (Hlt a t)].
Qed.
