(* ===== verification/LexRebuild.v ===== *)
(** Minimization: removal of the unreachable states, the automaton of a
    partition, and the partitions that are good for it. *)

From stdpp Require Import relations.
From S2P Require Import Prelude U8Set BitSet CharTransitions LexDfa Search LexNfa LexReachCorrect LexDeterminize LexDetRun LexHopcroft LexInverse LexSplit LexClasses LexFutures LexFutureGroups LexPrerefine LexPrerefineCorrect LexMinimize LexSimulate.

(** * The numbering *)

Lemma number_reachable_app pre suf st : ∃ k, (foldl number_reachable st (pre ++ suf)).1 = (foldl number_reachable st pre).1 ++ k.
Proof.
  rewrite foldl_app. generalize (foldl number_reachable st pre). intros st'. revert st'. induction suf as [|b suf IH]; intros [m i]; [exists []; by rewrite app_nil_r|].
  cbn [foldl]. destruct b; [destruct (IH (m ++ [i], u32_wrapping_add i 1)) as [k Hk]|destruct (IH (m ++ [u32_max], i)) as [k Hk]]; cbn [number_reachable]; rewrite Hk; cbn [fst]; rewrite <-app_assoc; by eexists.
Qed.

Definition numbered (marks : list bool) (st : list N * N) : Prop :=
  lenN st.1 = lenN marks ∧ st.2 ≤ lenN marks ∧ (∀ s, marks.[s] = Some true → ∃ i, st.1.[s] = Some i ∧ i < st.2) ∧ ∀ s, marks.[s] = Some false → st.1.[s] = Some u32_max.

Lemma number_reachable_ok marks : lenN marks < u32_modulus → numbered marks (foldl number_reachable ([], 0) marks).
Proof.
  unfold numbered. induction marks as [|b marks IH] using rev_ind; intros Hm; [by repeat split|]. rewrite lenN_snoc in *. destruct IH as (Hl & Hc & Ht & Hf); [lia|]. rewrite foldl_snoc.
  destruct (foldl number_reachable ([], 0) marks) as [m i]. cbn [fst snd] in *. destruct b; cbn [number_reachable fst snd]; rewrite ?lenN_snoc, Hl.
  - rewrite u32_wrapping_add_small by (unfold u32_modulus in *; lia). split; [done|]. split; [lia|]. split; intros s; rewrite !nthN_snoc, Hl; destruct (N.eqb_spec s (lenN marks)) as [->|Hne].
    + intros _. exists i. split; [done|lia].
    + intros (j & Hj & Hlt)%Ht. exists j. split; [done|lia].
    + done.
    + apply Hf.
  - split; [done|]. split; [lia|]. split; intros s; rewrite !nthN_snoc, Hl; destruct (N.eqb_spec s (lenN marks)) as [->|Hne]; [done|apply Ht|done|apply Hf].
Qed.
(** * The automaton that is left *)

Section unreachable.
Context (d : LexDFA.t) (groups : N) (Hd : lex_wf 256 groups d) (Hok : stats_ok d) (Hsmall : LexDFA.num_states d < 2147483648) (extra_roots : list N).

Abbreviation n := (LexDFA.num_states d).

Definition a_root (s : N) : Prop := s = 0 ∨ (s ∈ extra_roots ∧ s < n).
Definition is_kept (s : N) : Prop := reached (dfa_edge d) a_root s.

Lemma kept_lt s : is_kept s → s < n.
Proof using All.
  intros (r & Hr & Hrs). pose proof (lw_start _ _ _ Hd). assert (Hrn : r < n) by (destruct Hr as [->|[_ ?]]; done).
  destruct (rtc_inv_r _ _ Hrs) as [<-|(y & _ & He)]; [done|]. by apply (edge_range d groups Hd y s).
Qed.

Lemma kept_step s a t : is_kept s → LexDFA.step d s a = Some t → is_kept t.
Proof using All. intros (r & Hr & Hrs) Ht. exists r. split; [done|]. eapply rtc_r; [done|]. apply (step_edge d groups Hd). by exists a. Qed.

(** ** The search *)

Lemma reachable_states_ok : ∃ marks, reachable_states d extra_roots = Some marks ∧ lenN marks = n ∧ ∀ s, marks.[s] = Some true ↔ is_kept s.
Proof using All.
  pose proof (lw_start _ _ _ Hd) as H0. unfold reachable_states. rewrite store_ok by (rewrite lenN_replicate; done). cbn [mbind option_bind].
  set (marks0 := alterN (λ _, true) (replicate (length (LexDFA.states d)) false) 0).
  destruct (foldM_prefix (λ pre (st : list bool * list N), lenN st.1 = n ∧ NoDup st.2 ∧ (∀ x, x ∈ st.2 ↔ x = 0 ∨ (x ∈ pre ∧ x < n)) ∧ ∀ x, st.1.[x] = Some true ↔ x ∈ st.2)
    (push_root n) (marks0, [0]) extra_roots) as ([marks work] & -> & Hl & Hnd & Hw & Hm).
  - cbn [fst snd]. unfold marks0. split; [by rewrite lenN_alterN, lenN_replicate|]. split; [apply NoDup_singleton|]. split; [set_solver|].
    intros x. rewrite nthN_store by (rewrite lenN_replicate; done). rewrite list_elem_of_singleton. destruct (N.eqb_spec x 0) as [->|Hne]; [done|]. rewrite nthN_replicate. by destruct (x <? _).
  - intros pre r suf [marks work] _ (Hl & Hnd & Hw & Hm). cbn [fst snd] in *. unfold push_root. destruct (N.leb_spec n r) as [Hr|Hr].
    + exists (marks, work). split; [done|]. cbn [fst snd]. split; [done|]. split; [done|]. split; [|done]. intros x. rewrite Hw, elem_of_app, list_elem_of_singleton. split; [tauto|]. intros [?|[[?| ->] ?]]; [by left|by right|lia].
    + destruct (proj1 (nthN_Some_lt marks r)) as [b Hb]; [by rewrite Hl|]. rewrite Hb. cbn [mbind option_bind]. destruct b.
      * exists (marks, work). split; [done|]. cbn [fst snd]. split; [done|]. split; [done|]. split; [|done]. apply Hm, Hw in Hb. intros x. rewrite Hw, elem_of_app, list_elem_of_singleton. split; [tauto|]. intros [?|[[?| ->] ?]]; [by left|by right|done].
      * eexists. split; [done|]. cbn [fst snd]. split; [by rewrite lenN_alterN|]. assert (Hr' : r ∉ work) by (intros Hin%Hm; congruence). split; [by constructor|]. split.
        -- intros x. rewrite elem_of_cons, Hw, elem_of_app, list_elem_of_singleton. split; [intros [->|[?|[? ?]]]; auto|]. intros [?|[[?| ->] ?]]; auto.
        -- intros x. rewrite nthN_store by (by rewrite Hl). rewrite elem_of_cons. destruct (N.eqb_spec x r) as [->|Hne]; [by split; [left|]|]. rewrite Hm. tauto.
  - cbn [mbind option_bind fst snd] in *. set (rows := state_targets <$> LexDFA.states d). assert (Hlen : length rows = length (LexDFA.states d)) by apply length_fmap.
    assert (Hrows : ∀ s t, row_edge rows s t ↔ dfa_edge d s t).
    { intros s t. unfold row_edge, rows. rewrite dfa_edge_targets. setoid_rewrite nthN_fmap. split; [|intros (row & -> & Hin); by eexists]. intros (l & Hl' & Hin). destruct ((LexDFA.states d).[s]) as [row|]; [|done]. injection Hl' as <-. by exists row. }
    rewrite <-Hlen, (mark_search_rows push_top rows) by (intros s; unfold rows; by rewrite nthN_fmap).
    destruct (mark_search_spec push_top push_top_perm rows) with (root := a_root) (marks := marks) (work := work) as (marks' & Hs & Hl' & Hmk).
    + intros row t (s & Hs)%nthN_elem_of Hin. unfold lenN. rewrite Hlen. apply (edge_range d groups Hd s t), Hrows. by exists row.
    + intros r Hr. unfold lenN. rewrite Hlen. destruct Hr as [->|[_ ?]]; done.
    + unfold lenN in *. rewrite Hlen. done.
    + done.
    + intros x. by rewrite Hw.
    + done.
    + exists marks'. split; [done|]. split; [rewrite Hl'; unfold lenN; by rewrite Hlen|]. intros s. rewrite Hmk. unfold is_kept, reached. split; intros (r & Hr & Hrs); exists r; (split; [done|]); (eapply rtc_subrel; [|exact Hrs]); intros x y ?; by apply Hrows.
Qed.

(** ** The states kept *)

(** What is left: the states kept, renumbered in their order. *)
Record kept_as (w : LexDFA.t) (mapping : list N) : Prop := {
  ka_wf : lex_wf 256 groups w;
  ka_groups : LexDFA.group_id_to_u8set w = LexDFA.group_id_to_u8set d;
  ka_stats : stats_ok w;
  ka_count : LexDFA.num_states w ≤ n;
  ka_length : lenN mapping = n;
  ka_start : mapping.[0] = Some 0;
  ka_kept : ∀ s, is_kept s → ∃ s', mapping.[s] = Some s' ∧ s' < LexDFA.num_states w;
  ka_onto : ∀ s', s' < LexDFA.num_states w → ∃ s, is_kept s ∧ mapping.[s] = Some s';
  ka_dropped : ∀ s, s < n → ¬ is_kept s → mapping.[s] = Some u32_max;
  ka_range : ∀ s f, mapping.[s] = Some f → f = u32_max ∨ f < LexDFA.num_states w;
  ka_simulated : simulated (λ s s', is_kept s ∧ mapping.[s] = Some s') d w;
}.

Lemma nthN_zip {A B} (l : list A) (k : list B) i x y : (zip l k).[i] = Some (x, y) ↔ l.[i] = Some x ∧ k.[i] = Some y.
Proof using. rewrite !nthN_lookup, lookup_zip_with_Some. naive_solver. Qed.

Lemma keep_state_ok m s row : lenN m = n → (LexDFA.states d).[s] = Some row →
  ∃ row', keep_state m row = Some row' ∧ row_mapped m row row' ∧ LexState.possible_future_group_ids row' = LexState.possible_future_group_ids row.
Proof using All.
  intros Hm Hs. pose proof (state_row d groups Hd s row Hs) as Hrow. destruct (row_entries_ok 256 n groups m row (LexState.finalizers row) (LexState.possible_future_group_ids row) Hrow) as (entries & He & Hmap); [lia|done|].
  unfold keep_state. rewrite He. cbn [mbind option_bind]. rewrite (rw_epsilon _ _ _ _ Hrow). cbn. eexists. split; [done|]. by split.
Qed.

(** The states pushed to the new vector. *)
Lemma keep_states_ok marks m : lenN marks = n → m = (foldl number_reachable ([], 0) marks).1 →
  ∃ states, foldM (λ new_states '(is_reachable, state), if (is_reachable : bool) then new_state ← keep_state m state; Some (new_states ++ [new_state]) else Some new_states) [] (zip marks (LexDFA.states d)) = Some states ∧
    lenN states = (foldl number_reachable ([], 0) marks).2 ∧
    (∀ s row, marks.[s] = Some true → (LexDFA.states d).[s] = Some row → ∃ i row', m.[s] = Some i ∧ states.[i] = Some row' ∧ keep_state m row = Some row') ∧
    ∀ i row', states.[i] = Some row' → ∃ s, marks.[s] = Some true ∧ m.[s] = Some i.
Proof using All.
  intros Hl Hm. assert (Hml : lenN m = n) by (rewrite Hm, <-Hl; apply (number_reachable_ok marks); unfold u32_modulus; lia).
  assert (Hfst : (zip marks (LexDFA.states d)).*1 = marks) by (apply fst_zip; unfold LexDFA.num_states, lenN in Hl; lia).
  edestruct (foldM_prefix (λ pre states, let st := foldl number_reachable ([], 0) pre.*1 in lenN states = st.2 ∧
      (∀ s row, pre.[s] = Some (true, row) → ∃ i row', st.1.[s] = Some i ∧ states.[i] = Some row' ∧ keep_state m row = Some row') ∧
      ∀ i row', states.[i] = Some row' → ∃ s row, pre.[s] = Some (true, row) ∧ st.1.[s] = Some i)) as (states & Hf & Hlen & Hkept & Honto);
    [|intros pre [b row] suf states Heq (Hlen & Hkept & Honto)|exists states; split; [exact Hf|]].
  - split; [done|]. split; [intros s row; by rewrite nthN_lookup, lookup_nil|intros i row'; by rewrite nthN_lookup, lookup_nil].
  - assert (Hpl : lenN pre < n) by (rewrite <-Hl, <-Hfst, Heq; rewrite lenN_fmap, lenN_app; unfold lenN at 3; cbn; lia).
    destruct (number_reachable_ok pre.*1) as (Nl & Nc & _); [rewrite lenN_fmap; unfold u32_modulus; lia|]. rewrite lenN_fmap in Nl, Nc. cbn zeta. rewrite fmap_app, foldl_app.
    destruct (foldl number_reachable ([], 0) pre.*1) as [mp idx]. cbn [fst snd fmap list_fmap foldl number_reachable] in *.
    assert (Hrow : (LexDFA.states d).[lenN pre] = Some row). { assert ((zip marks (LexDFA.states d)).[lenN pre] = Some (b, row)) as [_ ?]%nthN_zip; [|done]. rewrite Heq, nthN_lookup. unfold lenN. rewrite Nat2N.id. by apply list_lookup_middle. }
    destruct b; cbn [number_reachable fst snd].
    + destruct (keep_state_ok m (lenN pre) row Hml Hrow) as (row' & Hk & _). rewrite Hk. cbn [mbind option_bind]. eexists. split; [done|]. rewrite lenN_snoc, u32_wrapping_add_small by (unfold u32_modulus; lia). split; [by rewrite Hlen|]. split.
      * intros s r. rewrite nthN_snoc. destruct (N.eqb_spec s (lenN pre)) as [->|Hne].
        -- intros [= <-]. exists idx, row'. rewrite <-Nl, nthN_app_last, <-Hlen, nthN_app_last. done.
        -- intros (i & r' & Hi & Hr' & Hkr)%Hkept. exists i, r'. split; [by apply nthN_grow|]. split; [by apply nthN_grow|done].
      * intros i r'. rewrite nthN_snoc. destruct (N.eqb_spec i (lenN states)) as [->|Hne].
        -- intros [= <-]. exists (lenN pre), row. rewrite nthN_app_last, <-Nl, nthN_app_last, Hlen. done.
        -- intros (s & r & Hs & Hi)%Honto. exists s, r. split; [by apply nthN_grow|by apply nthN_grow].
    + exists states. split; [done|]. split; [done|]. split.
      * intros s r. rewrite nthN_snoc. destruct (N.eqb_spec s (lenN pre)); [done|]. intros (i & r' & Hi & Hr')%Hkept. exists i, r'. split; [by apply nthN_grow|done].
      * intros i r' (s & r & Hs & Hi)%Honto. exists s, r. split; by apply nthN_grow.
  - cbn zeta in *. rewrite Hfst, <-Hm in *. split; [done|]. split.
    + intros s row Hs Hrow. apply Hkept. by apply nthN_zip.
    + intros i row' (s & row & [Hs _]%nthN_zip & Hi)%Honto. by exists s.
Qed.

Lemma remove_unreachable_ok : ∃ w mapping, remove_unreachable_states_with_roots_with_mapping d extra_roots = Some (w, mapping) ∧ kept_as w mapping.
Proof using All.
  pose proof (lw_start _ _ _ Hd) as H0. destruct reachable_states_ok as (marks & Hr & Hl & Hm). unfold remove_unreachable_states_with_roots_with_mapping. rewrite Hr. cbn [mbind option_bind].
  assert (Hk0 : is_kept 0) by (exists 0; split; [by left|done]).
  destruct (forallb id marks) eqn:Eall.
  - assert (Hall : ∀ s, s < n → is_kept s). { intros s Hs. apply Hm. destruct (proj1 (nthN_Some_lt marks s)) as [b Hb]; [by rewrite Hl|]. rewrite forallb_forall in Eall. rewrite Hb. f_equal. apply (Eall b), list_elem_of_In, nthN_elem_of. eauto. }
    assert (Hid : ∀ s, s < n → (as_u32 <$> seqN (length (LexDFA.states d))).[s] = Some s). { intros s Hs. rewrite nthN_fmap, nthN_seqN, (proj2 (N.ltb_lt _ _)) by done. cbn. rewrite as_u32_small; [done|unfold u32_modulus; lia]. }
    eexists _, _. split; [done|]. split; [done|done|done|done| |by apply Hid| | | | |].
    + rewrite lenN_fmap. unfold lenN. by rewrite length_seqN.
    + intros s Hs%kept_lt. exists s. split; [by apply Hid|done].
    + intros s Hs. exists s. split; [by apply Hall|by apply Hid].
    + intros s Hs Hn. by destruct Hn; apply Hall.
    + intros s f Hf. right. pose proof (nthN_lt _ _ _ Hf) as Hs. rewrite lenN_fmap in Hs. unfold lenN in Hs. rewrite length_seqN in Hs. rewrite Hid in Hf by done. injection Hf as <-. done.
    + assert (He : ∀ s s', is_kept s → (as_u32 <$> seqN (length (LexDFA.states d))).[s] = Some s' → s = s'). { intros s s' Hs Hs'. rewrite Hid in Hs' by (by apply kept_lt). congruence. }
      split; intros s s'; [by intros [Hs <-%He]|]. intros a [Hs <-%He]; [|done]. destruct (LexDFA.step d s a) as [t|] eqn:Et; [|done]. pose proof (kept_step s a t Hs Et). split; [done|]. by apply Hid, kept_lt.
  - destruct (number_reachable_ok marks) as (Nl & Nc & Nt & Nf); [unfold u32_modulus; lia|]. destruct (keep_states_ok marks _ Hl eq_refl) as (states & Hf & Hlen & Hkept & Honto).
    destruct (number_reachable_app [true] (tail marks) ([], 0)) as [k Hk].
    destruct (foldl number_reachable ([], 0) marks) as [m idx] eqn:Em. cbn [fst snd] in *. rewrite Hf. cbn [mbind option_bind].
    assert (Hm0 : m.[0] = Some 0). { assert (Hmk : marks = [true] ++ tail marks). { apply Hm in Hk0. destruct marks as [|b marks]; [done|]. by injection Hk0 as ->. } rewrite <-Hmk, Em in Hk. cbn in Hk. by rewrite Hk. }
    assert (Hrows : ∀ s, is_kept s → ∃ row i row', (LexDFA.states d).[s] = Some row ∧ m.[s] = Some i ∧ states.[i] = Some row' ∧ row_mapped m row row' ∧ LexState.possible_future_group_ids row' = LexState.possible_future_group_ids row).
    { intros s Hs. destruct (proj1 (nthN_Some_lt (LexDFA.states d) s)) as [row Hrow]; [by apply kept_lt|]. destruct (Hkept s row) as (i & row' & Hi & Hr' & Hks); [by apply Hm|done|].
      destruct (keep_state_ok m s row) as (row1 & Hk1 & Hmap & Hfu); [lia|done|]. assert (row1 = row') as -> by congruence. by exists row, i, row'. }
    assert (Hnum : LexDFA.num_states (LexDFA.states_mut d (λ _, states)) = lenN states) by done.
    eexists _, m. split; [done|]. split; [|done|done|rewrite Hnum, Hlen; lia|lia|done| | | | |].
    + split; [apply (lw_groups _ _ _ Hd)| |].
      * rewrite Hnum. destruct (Hrows 0 Hk0) as (row & i & row' & _ & Hi & Hr' & _). apply nthN_lt in Hr'. lia.
      * intros row' (i & Hi)%nthN_elem_of. cbn [LexDFA.states_mut LexDFA.set_states LexDFA.states] in Hi. destruct (Honto i row' Hi) as (s & Hs & Hsi). apply Hm in Hs. destruct (Hrows s Hs) as (row & i' & row1 & Hrow & Hi' & Hr1 & Hmap & Hfu).
        assert (i' = i) as -> by congruence. assert (row1 = row') as -> by congruence. pose proof (state_row d groups Hd s row Hrow) as Hw. apply (row_mapped_wf 256 n _ groups m row row' Hw Hmap).
        -- intros a t t' Hat Ht'. assert (Ht : is_kept t) by (apply (kept_step s a t Hs), (step_iff d groups Hd); by exists row). destruct (Hrows t Ht) as (rt & it & rt' & _ & Hit & Hrt & _). rewrite Hnum. apply nthN_lt in Hrt. congruence.
        -- rewrite Hfu. apply (rw_future _ _ _ _ Hw).
    + intros s Hs. destruct (Hrows s Hs) as (row & i & row' & _ & Hi & Hr' & _). exists i. split; [done|]. rewrite Hnum. by eapply nthN_lt.
    + intros i Hi. rewrite Hnum in Hi. destruct (proj1 (nthN_Some_lt states i) Hi) as [row' Hr']. destruct (Honto i row' Hr') as (s & Hs & Hsi). exists s. split; [by apply Hm|done].
    + intros s Hs Hn. apply Nf. destruct (proj1 (nthN_Some_lt marks s)) as [b Hb]; [lia|]. destruct b; [by destruct Hn; apply Hm|done].
    + intros s f Hsf. destruct (proj1 (nthN_Some_lt marks s)) as [b Hb]; [rewrite <-Nl; by eapply nthN_lt|]. destruct b; [right|left; specialize (Nf s Hb); congruence]. destruct (Nt s Hb) as (i & Hi & Hlt). rewrite Hnum, Hlen. congruence.
    + assert (Hst : ∀ s s', is_kept s → m.[s] = Some s' → ∃ row row', (LexDFA.states d).[s] = Some row ∧ (LexDFA.states (LexDFA.states_mut d (λ _, states))).[s'] = Some row' ∧ row_mapped m row row').
      { intros s s' Hs Hs'. destruct (Hrows s Hs) as (row & i & row' & Hrow & Hi & Hr' & Hmap & _). assert (i = s') as -> by congruence. by exists row, row'. }
      split.
      * intros s s' [Hs Hs']. destruct (Hst s s' Hs Hs') as (row & row' & Hrow & Hrow' & Hmap). unfold LexDFA.finalizers. rewrite Hrow, Hrow'. cbn. by rewrite (rm_finalizers _ _ _ Hmap).
      * intros s s' a [Hs Hs']. destruct (Hst s s' Hs Hs') as (row & row' & Hrow & Hrow' & Hmap). rewrite (step_row _ _ _ a Hrow'). pose proof (state_row d groups Hd s row Hrow) as Hw.
        rewrite (row_mapped_get m row row' a); [|apply (rw_sorted _ _ _ _ Hw)|done|intros t Ht; apply (rw_range _ _ _ _ Hw) in Ht as [_ ?]; lia].
        rewrite <-(step_row d s row a Hrow). destruct (LexDFA.step d s a) as [t|] eqn:Et; cbn; [|done]. pose proof (kept_step s a t Hs Et) as Ht. destruct (Hrows t Ht) as (_ & i & _ & _ & Hi & _). rewrite Hi. by split.
Qed.
End unreachable.

(** * The block of state zero *)

Definition swapped (i b : N) : N := if b =? 0 then i else if b =? i then 0 else b.

Lemma swapped_twice i b : swapped i (swapped i b) = b.
Proof. unfold swapped. destruct (N.eqb_spec b 0) as [->|H0]; [destruct (N.eqb_spec i 0) as [->|Hi]; [done|by rewrite N.eqb_refl]|]. destruct (N.eqb_spec b i) as [->|Hi]; [done|]. by rewrite (proj2 (N.eqb_neq b 0)), (proj2 (N.eqb_neq b i)). Qed.

Lemma swapped_lt i b m : i < m → b < m ↔ swapped i b < m.
Proof. unfold swapped. intros Hi. destruct (N.eqb_spec b 0); [lia|]. destruct (N.eqb_spec b i); lia. Qed.

Lemma swap_first_ok {A} (l : list A) i : i < lenN l → lenN (swap_first l i) = lenN l ∧ ∀ b, (swap_first l i).[b] = l.[swapped i b].
Proof.
  intros Hi. unfold swap_first. destruct (proj1 (nthN_Some_lt l 0)) as [x Hx]; [lia|]. destruct (proj1 (nthN_Some_lt l i) Hi) as [y Hy]. rewrite Hx, Hy.
  split; [by rewrite !lenN_alterN|]. intros b. rewrite !nthN_alterN. unfold swapped. destruct (N.eqb_spec b i) as [Hbi|Hbi], (N.eqb_spec b 0) as [Hb0|Hb0].
  - assert (x = y) as -> by congruence. by rewrite Hbi, Hy.
  - by rewrite Hbi, Hy, Hx.
  - by rewrite Hb0, Hx, Hy.
  - done.
Qed.

Lemma list_filter_id {A} (P : A → Prop) `{∀ x, Decision (P x)} (l : list A) : (∀ x, x ∈ l → P x) → filter P l = l.
Proof. induction l as [|x l IH]; intros Hl; [done|]. rewrite filter_cons, decide_True by (apply Hl; by left). f_equal. apply IH. intros y Hy. apply Hl. by right. Qed.

Lemma start_block_first_ok n p blocks : partition_of n p blocks → 0 < n →
  ∃ p', partition_of n p' (start_block_first blocks) ∧ lenN (start_block_first blocks) = lenN blocks ∧ p'.[0] = Some 0 ∧ ∀ s t, same_block p' s t ↔ same_block p s t.
Proof.
  intros [Hl Hb Hid] Hn. unfold start_block_first.
  assert (Hfilter : filter (λ block : list N, block ≠ []) blocks = blocks).
  { apply list_filter_id. intros block (b & Hbl)%nthN_elem_of. by apply (Hb b block). }
  rewrite Hfilter. destruct (proj1 (nthN_Some_lt p 0)) as [b0 Hb0]; [lia|]. destruct (proj1 (nthN_Some_lt blocks b0) (Hid _ _ Hb0)) as [block0 Hblock0].
  destruct (list_find (λ block : list N, 0 ∈ block) blocks) as [[i block]|] eqn:Ef.
  2:{ apply list_find_None in Ef. rewrite Forall_forall in Ef. destruct (Ef block0); [apply nthN_elem_of; eauto|]. by apply (Hb b0 block0 Hblock0). }
  apply list_find_Some in Ef as (Hi & H0 & _). rewrite <-nthN_of_nat in Hi. pose proof (nthN_lt _ _ _ Hi) as Hil. apply (Hb _ _ Hi) in H0. destruct (swap_first_ok blocks (N.of_nat i) Hil) as [Hsl Hsn].
  set (i' := N.of_nat i) in *. exists (swapped i' <$> p). split; [split|].
  - by rewrite lenN_fmap.
  - intros b bl Hbl. rewrite Hsn in Hbl. destruct (Hb _ _ Hbl) as (Hnd & Hne & Hin). split; [done|]. split; [done|]. intros s. rewrite Hin, nthN_fmap. split; [intros ->; cbn; by rewrite swapped_twice|].
    destruct (p.[s]) as [c|]; [|done]. cbn. intros [= <-]. by rewrite swapped_twice.
  - intros s b. rewrite nthN_fmap. destruct (p.[s]) as [c|] eqn:Ec; [|done]. cbn. intros [= <-]. rewrite Hsl, <-swapped_lt by done. by apply (Hid s).
  - split; [done|]. split; [rewrite nthN_fmap, H0; cbn; f_equal; unfold swapped; destruct (N.eqb_spec i' 0) as [->|]; [done|by rewrite N.eqb_refl]|].
    intros s t. unfold same_block. setoid_rewrite nthN_fmap. split.
    + intros (b & Hs & Ht). destruct (p.[s]) as [c|], (p.[t]) as [e|]; try done. cbn in Hs, Ht. injection Hs as Hs. injection Ht as Ht. exists c. split; [done|]. f_equal. by rewrite <-(swapped_twice i' c), <-(swapped_twice i' e), Hs, Ht.
    + intros (b & -> & ->). by exists (swapped i' b).
Qed.

Lemma block_mapping_ok n p blocks : partition_of (N.of_nat n) p blocks → N.of_nat n < u32_modulus → block_mapping n blocks = Some p.
Proof.
  intros Hpo Hn. destruct (block_table_ok as_u32 n p blocks Hpo) as (table & Ht & Hl & Hs). unfold block_mapping. rewrite Ht. f_equal. apply nthN_ext. intros s.
  pose proof (partition_count _ _ _ Hpo) as Hc. destruct (p.[s]) as [b|] eqn:Eb.
  - rewrite (Hs s b Eb). pose proof (po_id _ _ _ Hpo s b Eb). by rewrite as_u32_small by lia.
  - apply nthN_None in Eb. rewrite (po_length _ _ _ Hpo) in Eb. apply nthN_None. lia.
Qed.

(** * The new automaton *)

Section rebuild.
Context (d : LexDFA.t) (groups : N) (Hd : lex_wf 256 groups d) (Hsmall : LexDFA.num_states d < 2147483648) (Hgroups : groups ≤ u32_modulus).

Abbreviation n := (LexDFA.num_states d).

Lemma copy_groups_ok : ∃ r, foldM (copy_group d) (LexDFA.ensure_group_capacity (LexDFA.new 0) groups) (seqN (N.to_nat groups)) = Some r ∧
  LexDFA.group_id_to_u8set r = LexDFA.group_id_to_u8set d ∧ LexDFA.states r = [] ∧ LexDFA.derived_stats r = None.
Proof using All.
  pose proof (lw_groups _ _ _ Hd) as Hg. unfold LexDFA.num_groups in Hg.
  destruct (foldM_seqN (λ k r, LexDFA.num_groups r = groups ∧ LexDFA.states r = [] ∧ LexDFA.derived_stats r = None ∧ ∀ i, i < k → (LexDFA.group_id_to_u8set r).[i] = (LexDFA.group_id_to_u8set d).[i])
    (copy_group d) (LexDFA.ensure_group_capacity (LexDFA.new 0) groups) (N.to_nat groups)) as (r & Hf & Hn & Hs & Hst & Hall).
  - intros k r Hk (Hn & Hs & Hst & Hall). unfold copy_group. rewrite as_u32_small by lia. destruct (proj1 (nthN_Some_lt (LexDFA.group_id_to_u8set d) k)) as [set Hset]; [lia|]. rewrite Hset. cbn [mbind option_bind].
    rewrite Hn, (proj2 (N.ltb_lt _ _)) by lia. eexists. split; [done|]. unfold LexDFA.num_groups in *. cbn [LexDFA.set_group_u8set LexDFA.set_groups LexDFA.group_id_to_u8set LexDFA.states LexDFA.derived_stats LexDFA.invalidate_structural_hash].
    split; [by rewrite lenN_alterN|]. split; [done|]. split; [done|]. intros i Hi. rewrite nthN_store by lia. destruct (N.eqb_spec i k) as [->|]; [done|]. apply Hall. lia.
  - split; [apply ensure_capacity_groups|]. split; [by rewrite ensure_capacity_states|]. split; [unfold LexDFA.ensure_group_capacity; by case_match|]. intros i Hi. lia.
  - exists r. split; [done|]. split; [|done]. apply nthN_ext. intros i. unfold LexDFA.num_groups in Hn. destruct (N.ltb_spec i groups); [apply Hall; lia|]. by rewrite (proj2 (nthN_None _ i)), (proj2 (nthN_None (LexDFA.group_id_to_u8set d) i)) by lia.
Qed.

Context (p : list N) (blocks : list (list N)) (Hpo : partition_of n p blocks).

(** The state of a block: the row of its first state, mapped. *)
Definition built_from (block : list N) (row : LexState.t) : Prop :=
  ∃ representative old, head block = Some representative ∧ (LexDFA.states d).[representative] = Some old ∧ row_mapped p old row ∧ LexState.possible_future_group_ids row = BitSet.new groups.

Lemma add_blocks_ok r : LexDFA.group_id_to_u8set r = LexDFA.group_id_to_u8set d → LexDFA.states r = [] → LexDFA.derived_stats r = None →
  ∃ r', foldM (add_block d p) r blocks = Some r' ∧ LexDFA.group_id_to_u8set r' = LexDFA.group_id_to_u8set d ∧ LexDFA.derived_stats r' = None ∧ LexDFA.num_states r' = lenN blocks ∧
    ∀ b row, (LexDFA.states r').[b] = Some row → ∃ block, blocks.[b] = Some block ∧ built_from block row.
Proof using All.
  intros Hg Hs Hst. pose proof (partition_count _ _ _ Hpo) as Hcount. destruct Hpo as [Hl Hb Hid].
  apply (foldM_prefix (λ pre r', LexDFA.group_id_to_u8set r' = LexDFA.group_id_to_u8set d ∧ LexDFA.derived_stats r' = None ∧ LexDFA.num_states r' = lenN pre ∧
    ∀ b row, (LexDFA.states r').[b] = Some row → ∃ block, pre.[b] = Some block ∧ built_from block row)).
  - split; [done|]. split; [done|]. unfold LexDFA.num_states. rewrite Hs. split; [done|]. intros b row. by rewrite nthN_lookup, lookup_nil.
  - intros pre block suf r' Heq (Hg' & Hst' & Hn' & Hrows).
    assert (Hbl : blocks.[lenN pre] = Some block) by (rewrite Heq, nthN_lookup; unfold lenN; rewrite Nat2N.id; by apply list_lookup_middle).
    destruct (Hb _ _ Hbl) as (_ & Hne & Hin). destruct block as [|rep block]; [done|]. assert (Hrep : rep < n) by (rewrite <-Hl; eapply nthN_lt, Hin; by left).
    destruct (proj1 (nthN_Some_lt (LexDFA.states d) rep) Hrep) as [old Hold]. pose proof (state_row d groups Hd rep old Hold) as Hw.
    destruct (row_entries_ok 256 n groups p old (LexState.finalizers old) (BitSet.new groups) Hw) as (entries & He & Hmap); [lia|done|].
    assert (Hpl : lenN pre < lenN blocks) by (by eapply nthN_lt).
    assert (Hgr : lenN (LexDFA.group_id_to_u8set r') = groups) by (rewrite Hg'; apply (lw_groups _ _ _ Hd)).
    unfold add_block. cbn [head mbind option_bind]. rewrite Hold. cbn [mbind option_bind LexDFA.add_state]. rewrite He. cbn [mbind option_bind]. rewrite (rw_epsilon _ _ _ _ Hw). cbn [mapM mbind option_bind mret option_ret].
    unfold LexDFA.num_states in Hn'. cbn [LexDFA.set_states LexDFA.states LexDFA.invalidate_structural_caches]. rewrite as_u32_small by (unfold u32_modulus in *; lia). rewrite nthN_app_last. cbn [mbind option_bind].
    eexists. split; [done|]. unfold LexDFA.num_states. cbn [LexDFA.states_mut LexDFA.set_states LexDFA.states LexDFA.invalidate_structural_caches LexDFA.group_id_to_u8set LexDFA.derived_stats].
    split; [done|]. split; [done|]. rewrite alterN_middle, !lenN_snoc. split; [by rewrite Hn'|]. intros b row. rewrite nthN_snoc, Hn'. destruct (N.eqb_spec b (lenN pre)) as [->|Hbne].
    + intros [= <-]. exists (rep :: block). split; [apply nthN_app_last|]. exists rep, old. cbn. rewrite Hgr. done.
    + intros Hrow. destruct (Hrows b row Hrow) as (bl & Hbl' & Hbf). exists bl. split; [by apply nthN_grow|done].
Qed.

Context (Hgood : ∀ s t, same_block p s t → LexDFA.finalizers d s = LexDFA.finalizers d t ∧ ∀ a, step_matched (same_block p) (LexDFA.step d s a) (LexDFA.step d t a)).

Lemma blocks_simulated r : LexDFA.num_states r = lenN blocks → (∀ b row, (LexDFA.states r).[b] = Some row → ∃ block, blocks.[b] = Some block ∧ built_from block row) →
  simulated (λ s b, p.[s] = Some b) d r.
Proof using All.
  intros Hn Hrows.
  assert (Hrow : ∀ s b, p.[s] = Some b → ∃ row rep old, (LexDFA.states r).[b] = Some row ∧ (LexDFA.states d).[rep] = Some old ∧ row_mapped p old row ∧ same_block p s rep).
  { intros s b Hs. destruct (proj1 (nthN_Some_lt (LexDFA.states r) b)) as [row Hrow]; [change (b < LexDFA.num_states r); rewrite Hn; by apply (po_id _ _ _ Hpo s)|].
    destruct (Hrows b row Hrow) as (block & Hbl & rep & old & Hhead & Hold & Hmap & _). exists row, rep, old. split; [done|]. split; [done|]. split; [done|].
    exists b. split; [done|]. apply (po_block _ _ _ Hpo b block Hbl). destruct block; [done|]. injection Hhead as ->. by left. }
  split.
  - intros s b Hs. destruct (Hrow s b Hs) as (row & rep & old & Hr & Hold & Hmap & Hsame). rewrite (proj1 (Hgood s rep Hsame)). unfold LexDFA.finalizers. rewrite Hr, Hold. cbn. by rewrite (rm_finalizers _ _ _ Hmap).
  - intros s b a Hs. destruct (Hrow s b Hs) as (row & rep & old & Hr & Hold & Hmap & Hsame). pose proof (proj2 (Hgood s rep Hsame) a) as Ha. pose proof (state_row d groups Hd rep old Hold) as Hw.
    rewrite (step_row _ _ _ a Hr), (row_mapped_get p old row a); [|apply (rw_sorted _ _ _ _ Hw)|done|intros t Ht; apply (rw_range _ _ _ _ Hw) in Ht as [_ ?]; by rewrite (po_length _ _ _ Hpo)].
    rewrite <-(step_row d rep old a Hold). destruct (LexDFA.step d s a) as [t|], (LexDFA.step d rep a) as [u|]; cbn in *; [|done..]. destruct Ha as (c & Ht & ->). done.
Qed.

(** What the blocks become. *)
Record rebuilt (d' : LexDFA.t) : Prop := {
  rb_wf : lex_wf 256 groups d';
  rb_groups : LexDFA.group_id_to_u8set d' = LexDFA.group_id_to_u8set d;
  rb_stats : stats_ok d';
  rb_count : LexDFA.num_states d' = lenN blocks;
  rb_future : ∀ s row, (LexDFA.states d').[s] = Some row → ∀ g, BitSet.get (LexState.possible_future_group_ids row) g = true ↔ strict_future d' s g;
  rb_simulated : simulated (λ s b, p.[s] = Some b) d d';
}.

Lemma simulated_edges M r d' : simulated M d r → same_edges r d' → simulated M d d'.
Proof using.
  intros [H1 H2] He. split; [intros s s' Hs; by rewrite (same_edges_finalizers r d'), (H1 s s')|]. intros s s' a Hs. rewrite (same_edges_step r d') by done. by apply H2.
Qed.

Lemma built_wf r : 0 < lenN blocks → LexDFA.group_id_to_u8set r = LexDFA.group_id_to_u8set d → LexDFA.num_states r = lenN blocks →
  (∀ b row, (LexDFA.states r).[b] = Some row → ∃ block, blocks.[b] = Some block ∧ built_from block row) → lex_wf 256 groups r.
Proof using All.
  intros H0 Hg Hn Hrows. split; [unfold LexDFA.num_groups; rewrite Hg; apply (lw_groups _ _ _ Hd)|by rewrite Hn|].
  intros row (b & Hb)%nthN_elem_of. destruct (Hrows b row Hb) as (block & Hbl & rep & old & _ & Hold & Hmap & Hfu). pose proof (state_row d groups Hd rep old Hold) as Hw.
  apply (row_mapped_wf 256 n _ groups p old row Hw Hmap).
  - intros a t t' _ Ht. rewrite Hn. by apply (po_id _ _ _ Hpo t).
  - rewrite Hfu. split; [apply BitSetFacts.new_wf|done].
Qed.
End rebuild.

(** The states of a good partition, the block of state zero first, become the
    states of an automaton that behaves alike. *)
Lemma rebuild_ok d groups p blocks : lex_wf 256 groups d → LexDFA.num_states d < 2147483648 → groups ≤ u32_modulus → partition_of (LexDFA.num_states d) p blocks →
  (∀ s t, same_block p s t → LexDFA.finalizers d s = LexDFA.finalizers d t ∧ ∀ a, step_matched (same_block p) (LexDFA.step d s a) (LexDFA.step d t a)) →
  ∃ d' p', rebuild_from_blocks_with_mapping d blocks = Some (d', p') ∧ p'.[0] = Some 0 ∧ (∀ s t, same_block p' s t ↔ same_block p s t) ∧
    partition_of (LexDFA.num_states d) p' (start_block_first blocks) ∧ rebuilt d groups p' (start_block_first blocks) d'.
Proof.
  intros Hd Hsmall Hgroups Hpo Hgood. pose proof (lw_start _ _ _ Hd) as H0. destruct (start_block_first_ok _ p blocks Hpo H0) as (p' & Hpo' & _ & Hp0 & Hsame).
  unfold rebuild_from_blocks_with_mapping. rewrite (block_mapping_ok (length (LexDFA.states d)) p') by (first [exact Hpo'|change (LexDFA.num_states d < u32_modulus); unfold u32_modulus; lia]).
  cbn [mbind option_bind]. rewrite (lw_groups _ _ _ Hd). destruct (copy_groups_ok d groups Hd Hsmall Hgroups) as (r0 & -> & Hg0 & Hs0 & Hst0). cbn [mbind option_bind].
  destruct (add_blocks_ok d groups Hd Hsmall Hgroups p' _ Hpo' r0 Hg0 Hs0 Hst0) as (r & -> & Hg & Hst & Hn & Hrows). cbn [mbind option_bind].
  assert (Hgood' : ∀ s t, same_block p' s t → LexDFA.finalizers d s = LexDFA.finalizers d t ∧ ∀ a, step_matched (same_block p') (LexDFA.step d s a) (LexDFA.step d t a)).
  { intros s t Hst'. apply Hsame in Hst'. destruct (Hgood s t Hst') as [Hf Ha]. split; [done|]. intros a. specialize (Ha a). destruct (LexDFA.step d s a), (LexDFA.step d t a); [by apply Hsame|done..]. }
  assert (Hb0 : 0 < lenN (start_block_first blocks)) by (by apply (po_id _ _ _ Hpo' 0)).
  pose proof (built_wf d groups Hd Hsmall Hgroups p' _ Hpo' Hgood' r Hb0 Hg Hn Hrows) as Hwf. pose proof (partition_count _ _ _ Hpo') as Hc.
  destruct (recompute_futures_ok r groups Hwf) as (d' & -> & Hrf); [intros st Hs; congruence|lia|]. cbn [mbind option_bind]. exists d', p'. split; [done|]. split; [done|]. split; [done|]. split; [done|].
  pose proof (rf_edges _ _ _ Hrf) as He. split.
  - by apply (refreshed_wf groups r).
  - by rewrite (rf_groups _ _ _ Hrf).
  - apply (rf_stats _ _ _ Hrf).
  - by rewrite (same_edges_num _ _ He).
  - intros s row Hs. by apply (rf_future _ _ _ Hrf).
  - apply (simulated_edges d _ r); [|done]. by apply (blocks_simulated d groups Hd Hsmall Hgroups p' (start_block_first blocks)).
Qed.

(** * Rows of an automaton *)

Lemma flatten_bound {B} (rows : list (list B)) k : (∀ row, row ∈ rows → lenN row ≤ k) → lenN (flatten_rows rows) ≤ k * lenN rows.
Proof.
  induction rows as [|row rows IH] using rev_ind; intros Hk; [unfold lenN; cbn; lia|]. rewrite flatten_snoc, lenN_app, lenN_fmap, lenN_snoc.
  assert (lenN row ≤ k) by (apply Hk; set_solver). assert (lenN (flatten_rows rows) ≤ k * lenN rows) by (apply IH; intros r Hr; apply Hk; set_solver). lia.
Qed.

Lemma byte_row_length (row : list (N * N)) : NoDup row.*1 → (∀ a t, (a, t) ∈ row → a < 256) → lenN row ≤ 256.
Proof.
  intros Hnd Hlt. pose proof (NoDup_bounded_length row.*1 256 Hnd) as H. rewrite length_fmap in H. unfold lenN. assert (length row ≤ 256)%nat; [|lia]. apply H.
  intros a ([b t] & -> & Hin)%list_elem_of_fmap. specialize (Hlt b t Hin). cbn. lia.
Qed.

Section blocks.
Context (d : LexDFA.t) (groups : N) (Hd : lex_wf 256 groups d) (Hsmall : LexDFA.num_states d < 16777216).

Abbreviation n := (LexDFA.num_states d).

Lemma transition_rows_ok : rows_ok (transition_rows d).
Proof using All.
  assert (Hrow : ∀ s l, (transition_rows d).[s] = Some l → ∃ row, (LexDFA.states d).[s] = Some row ∧ l = CharTransitions.entries (LexState.transitions row)).
  { intros s l. unfold transition_rows. rewrite nthN_fmap. destruct ((LexDFA.states d).[s]) as [row|]; [|done]. intros [= <-]. by exists row. }
  assert (Hkeys : ∀ s l, (transition_rows d).[s] = Some l → NoDup l.*1 ∧ ∀ a t, (a, t) ∈ l → a < 256 ∧ t < n).
  { intros s l (row & Hs & ->)%Hrow. destruct (state_row d groups Hd s row Hs) as [Hsort Hr _ _ _]. split; [by apply CharTransitionsFacts.sorted_nodup|done]. }
  pose proof (transition_rows_length d) as Hl. split.
  - intros s l Hs. by apply (Hkeys s l).
  - intros s l a t Hs Hin. rewrite Hl. by apply (Hkeys s l).
  - rewrite Hl. unfold u32_modulus. lia.
  - pose proof (flatten_bound (transition_rows d) 256) as Hb. rewrite Hl in Hb. unfold u32_modulus. assert (lenN (flatten_rows (transition_rows d)) ≤ 256 * n); [|lia].
    apply Hb. intros l (s & Hs)%nthN_elem_of. destruct (Hkeys s l Hs) as [Hnd Hin]. apply byte_row_length; [done|]. intros a t Hat. by apply (Hin a t).
Qed.

(** * Observations and finalizers *)

Definition alike (s t : N) : Prop := ∀ w, accepted d s w = accepted d t w.

Lemma finalizers_some s : s < n → is_Some (LexDFA.finalizers d s).
Proof using All. intros [row Hrow]%nthN_Some_lt. unfold LexDFA.finalizers. rewrite Hrow. by eexists. Qed.

Lemma next_run_lex s w : next_run (row_next (transition_rows d)) s w = lex_run d s w.
Proof using All. revert s. induction w as [|a w IH]; intros s; [done|]. cbn. rewrite (transition_rows_next d groups Hd). destruct (LexDFA.step d s a); [apply IH|done]. Qed.

Lemma observed_alike_states p s t : lenN p = n → (∀ u v, u < n → v < n → p.[u] = p.[v] ↔ LexDFA.finalizers d u = LexDFA.finalizers d v) → s < n → t < n →
  (∀ w, observed (row_next (transition_rows d)) p s w = observed (row_next (transition_rows d)) p t w) ↔ alike s t.
Proof using All.
  intros Hl Hp Hs Ht. unfold alike, observed, accepted.
  assert (Hw : ∀ w, (u ← lex_run d s w; p.[u]) = (u ← lex_run d t w; p.[u]) ↔ (u ← lex_run d s w; LexDFA.finalizers d u) = (u ← lex_run d t w; LexDFA.finalizers d u)).
  { intros w. destruct (lex_run d s w) as [u|] eqn:Eu, (lex_run d t w) as [v|] eqn:Ev; cbn; [| | |done].
    - apply Hp; [by apply (run_range d groups Hd s w)|by apply (run_range d groups Hd t w)].
    - assert (Hu : u < n) by (by apply (run_range d groups Hd s w)). destruct (finalizers_some u Hu) as [f Hf]. destruct (proj1 (nthN_Some_lt p u)) as [b Hb]; [lia|]. rewrite Hf, Hb. by split.
    - assert (Hv : v < n) by (by apply (run_range d groups Hd t w)). destruct (finalizers_some v Hv) as [f Hf]. destruct (proj1 (nthN_Some_lt p v)) as [b Hb]; [lia|]. rewrite Hf, Hb. by split. }
  setoid_rewrite next_run_lex. split; intros H w; by apply Hw.
Qed.

(** * Good partitions *)

Definition good (p : list N) : Prop :=
  ∀ s t, same_block p s t → LexDFA.finalizers d s = LexDFA.finalizers d t ∧ ∀ a, step_matched (same_block p) (LexDFA.step d s a) (LexDFA.step d t a).

Lemma good_discrete p : lenN p = n → (∀ s t, same_block p s t → s = t) → good p.
Proof using All.
  intros Hl Heq s t <-%Heq. split; [done|]. intros a. destruct (LexDFA.step d s a) as [u|] eqn:Eu; [|done]. cbn. destruct (proj1 (nthN_Some_lt p u)) as [b Hb]; [|by exists b].
  rewrite Hl. by apply (step_range d groups Hd s a).
Qed.

Lemma good_alike p : lenN p = n → (∀ s t, s < n → t < n → same_block p s t ↔ alike s t) → good p.
Proof using All.
  intros Hl Heq s t Hst. assert (Hs : s < n) by (destruct Hst as (b & Hs & _); rewrite <-Hl; by eapply nthN_lt). assert (Ht : t < n) by (destruct Hst as (b & _ & Ht); rewrite <-Hl; by eapply nthN_lt).
  apply Heq in Hst; [|done..]. split; [apply (Hst [])|]. intros a. assert (Ha : ∀ w, accepted d s (a :: w) = accepted d t (a :: w)) by (intros w; apply Hst). unfold accepted in Ha. cbn [lex_run] in Ha.
  destruct (LexDFA.step d s a) as [u|] eqn:Eu, (LexDFA.step d t a) as [v|] eqn:Ev; cbn in *.
  - apply Heq; [by apply (step_range d groups Hd s a)|by apply (step_range d groups Hd t a)|]. intros w. apply Ha.
  - specialize (Ha []). cbn in Ha. destruct (finalizers_some u) as [f Hf]; [by apply (step_range d groups Hd s a)|congruence].
  - specialize (Ha []). cbn in Ha. destruct (finalizers_some v) as [f Hf]; [by apply (step_range d groups Hd t a)|congruence].
  - done.
Qed.

Lemma hopcroft_ok p0 blocks0 : partition_of n p0 blocks0 → (∀ s t, s < n → t < n → p0.[s] = p0.[t] ↔ LexDFA.finalizers d s = LexDFA.finalizers d t) →
  ∃ p blocks, hopcroft_refine_partition d p0 blocks0 = Some blocks ∧ partition_of n p blocks ∧ ∀ s t, s < n → t < n → same_block p s t ↔ alike s t.
Proof using All.
  intros Hpo Hp. pose proof (transition_rows_length d) as Hl. rewrite <-Hl in Hpo. destruct (refine_rows false (transition_rows d) p0 blocks0 transition_rows_ok Hpo) as (inverse & p & blocks & Hb & Hr & Hpo' & Hsame).
  exists p, blocks. unfold hopcroft_refine_partition, InverseTransitions.build. rewrite Hb. cbn [mbind option_bind]. unfold hopcroft_refine_partition_impl. rewrite Hl in *. unfold transition_rows in Hr at 1. rewrite length_fmap in Hr. split; [done|]. split; [done|].
  intros s t Hs Ht. rewrite Hsame by done. apply observed_alike_states; [by apply (po_length _ _ _ Hpo)|done..].
Qed.
End blocks.

(** * The blocks *)

Lemma recached_trans d d1 d2 : recached d d1 → recached d1 d2 → recached d d2.
Proof. intros [[H1 H2] _] [[H3 H4] H5]. split; [split; congruence|done]. Qed.

Lemma recached_alike d d' s t : recached d d' → alike d' s t ↔ alike d s t.
Proof.
  intros He%recached_edges. unfold alike. assert (Ha : ∀ s w, accepted d s w = accepted d' s w). { intros s0 w. apply (simulated_accepted eq); [by apply same_edges_simulated|done]. }
  by setoid_rewrite Ha.
Qed.

Lemma forallb_small (blocks : list (list N)) : forallb (λ block, lenN block <=? 1) blocks = true → ∀ block, block ∈ blocks → lenN block ≤ 1.
Proof. intros H block Hin. rewrite forallb_forall in H. apply N.leb_le, H. by apply list_elem_of_In. Qed.

Lemma minimal_blocks_ok d groups : lex_wf 256 groups d → stats_ok d → LexDFA.num_states d < 16777216 →
  ∃ p blocks d', minimal_blocks d = Some (blocks, d') ∧ recached d d' ∧ partition_of (LexDFA.num_states d) p blocks ∧ good d p ∧
    ((∃ s, dfa_edge d s s) → ∀ s t, s < LexDFA.num_states d → t < LexDFA.num_states d → alike d s t → same_block p s t).
Proof.
  intros Hd Hok Hsmall. unfold minimal_blocks. destruct (partition_by_finalizers_ok d) as (p0 & blocks0 & -> & Hpo0 & Hp0); [unfold u32_modulus; lia|]. cbn [mbind option_bind].
  destruct (self_loops_ok d Hok) as (loops & d1 & -> & Hre & Hloops).
  assert (Hrefine : ∀ d2, recached d d2 → ∃ p blocks, hopcroft_refine_partition d2 p0 blocks0 = Some blocks ∧ partition_of (LexDFA.num_states d) p blocks ∧ ∀ s t, s < LexDFA.num_states d → t < LexDFA.num_states d → same_block p s t ↔ alike d s t).
  { intros d2 Hre2. pose proof (same_edges_num _ _ (recached_edges _ _ Hre2)) as Hn2. destruct (hopcroft_ok d2 groups (recached_wf _ _ _ _ Hre2 Hd)) with (p0 := p0) (blocks0 := blocks0) as (p & blocks & Hh & Hpo & Hsame); rewrite ?Hn2 in *; [done|done| |].
    - intros s t Hs Ht. rewrite !(same_edges_finalizers d d2) by (by apply recached_edges). by apply Hp0.
    - exists p, blocks. split; [done|]. split; [done|]. intros s t Hs Ht. rewrite Hsame by done. by apply recached_alike. }
  assert (Hsingle : ∀ p blocks, partition_of (LexDFA.num_states d) p blocks → forallb (λ block, lenN block <=? 1) blocks = true → good d p).
  { intros p blocks Hpo Hall. apply (good_discrete d groups Hd Hsmall); [apply (po_length _ _ _ Hpo)|]. apply (partition_discrete _ _ _ Hpo). by apply forallb_small. }
  destruct loops.
  - cbn [mbind option_bind]. destruct (forallb _ blocks0) eqn:Eall.
    + exists p0, blocks0, d1. split; [done|]. split; [done|]. split; [done|]. split; [by apply (Hsingle p0 blocks0)|]. intros _ s t Hs Ht Hst. assert (p0.[s] = p0.[t]) as He by (apply Hp0; [done..|]; apply (Hst [])).
      destruct (proj1 (nthN_Some_lt p0 s)) as [b Hb]; [by rewrite (po_length _ _ _ Hpo0)|]. exists b. by rewrite <-He.
    + destruct (Hrefine d1 Hre) as (p & blocks & -> & Hpo & Hsame). cbn [mbind option_bind]. exists p, blocks, d1. split; [done|]. split; [done|]. split; [done|]. split; [|intros _ s t Hs Ht; by apply Hsame].
      apply (good_alike d groups Hd Hsmall); [apply (po_length _ _ _ Hpo)|done].
  - assert (Hno : ¬ ∃ s, dfa_edge d s s) by (intros He%Hloops; done). pose proof (same_edges_num _ _ (recached_edges _ _ Hre)) as Hn1.
    destruct (topology_ok d1 groups p0 (recached_wf _ _ _ _ Hre Hd)) as (pre & d2 & -> & Hd2 & Hpre); rewrite ?Hn1 in *; [lia|apply (po_length _ _ _ Hpo0)|]. cbn [mbind option_bind].
    assert (Hre2 : recached d d2). { destruct Hd2 as [->| ->]; [done|]. apply (recached_trans d d1); [done|]. destruct (self_loops_ok d1 (proj2 Hre)) as (b & d3 & -> & Hre3 & _). done. }
    destruct (Hrefine d2 Hre2) as (p & blocks & Hh & Hpo & Hsame). assert (Hg : good d p) by (apply (good_alike d groups Hd Hsmall); [apply (po_length _ _ _ Hpo)|done]).
    destruct pre as [bl|pl bl|].
    + destruct Hpre as (q & Hq & Hfull). exists q, bl, d2. split; [done|]. split; [done|]. split; [done|]. split; [|done]. apply (good_discrete d groups Hd Hsmall); [apply (po_length _ _ _ Hq)|]. by apply (partition_full _ _ _ Hq).
    + destruct (forallb _ bl) eqn:Eall; [exists pl, bl, d2; split; [done|]; split; [done|]; split; [done|]; split; [by apply (Hsingle pl bl)|done]|].
      rewrite Hh. exists p, blocks, d2. done.
    + destruct (forallb _ blocks0) eqn:Eall; [exists p0, blocks0, d2; split; [done|]; split; [done|]; split; [done|]; split; [by apply (Hsingle p0 blocks0)|done]|].
      rewrite Hh. exists p, blocks, d2. done.
Qed.
