(* ===== verification/LexMinimal.v ===== *)
(** Minimization: the whole operation, a decision procedure for
    well-formedness, and how small the result is. *)

From stdpp Require Import relations.
From S2P Require Import Prelude U8Set BitSet CharTransitions LexDfa Search LexNfa LexReachCorrect LexDeterminize LexDetRun LexHopcroft LexSplit LexFutures LexFutureGroups LexPrerefine LexMinimize LexSimulate LexRebuild.

(** * The futures cleared *)

Lemma clear_futures_ok d groups : lex_wf 256 groups d → stats_ok d → let d' := clear_possible_futures_for_minimization d in
  lex_wf 256 groups d' ∧ stats_ok d' ∧ same_edges d d' ∧ LexDFA.group_id_to_u8set d' = LexDFA.group_id_to_u8set d.
Proof.
  intros Hd Hok. cbn zeta. unfold clear_possible_futures_for_minimization. rewrite (lw_groups _ _ _ Hd). set (d' := LexDFA.mask_possible_futures d (BitSet.new groups)).
  assert (He : same_edges d d').
  { unfold same_edges, d'. cbn [LexDFA.mask_possible_futures LexDFA.set_states LexDFA.states LexDFA.invalidate_structural_hash]. rewrite <-list_fmap_compose. by apply list_fmap_ext. }
  split; [|split; [|by split]].
  - apply (same_edges_wf 256 groups d); [done|done| |done]. intros s row Hs. unfold d' in Hs. cbn [LexDFA.mask_possible_futures LexDFA.set_states LexDFA.states LexDFA.invalidate_structural_hash] in Hs. rewrite nthN_fmap in Hs.
    destruct ((LexDFA.states d).[s]) as [r|] eqn:Er; [|done]. injection Hs as <-. destruct (rw_future _ _ _ _ (state_row d groups Hd s r Er)) as [Hw Hl]. cbn.
    destruct (BitSetFacts.intersection_spec (LexState.possible_future_group_ids r) (BitSet.new groups) Hw (BitSetFacts.new_wf groups)) as (H1 & _); [done|]. by split.
  - intros st Hs. rewrite (same_edges_stats d d' He). by apply Hok.
Qed.

(** * The composed mapping *)

Lemma compose_mappings_ok first second : (∀ s f, first.[s] = Some f → f = u32_max ∨ f < lenN second) →
  ∃ m, compose_mappings first second = Some m ∧ lenN m = lenN first ∧ ∀ s, m.[s] = f ← first.[s]; if f =? u32_max then Some u32_max else second.[f].
Proof.
  intros Hlt. unfold compose_mappings. destruct (mapM (λ f, if f =? u32_max then Some u32_max else second.[f]) first) as [m|] eqn:Em.
  - apply mapM_Some in Em. exists m. split; [done|]. split; [unfold lenN; by rewrite (Forall2_length _ _ _ Em)|]. intros s. rewrite !nthN_lookup. destruct (first !! N.to_nat s) as [f|] eqn:Ef.
    + destruct (Forall2_lookup_l _ _ _ _ _ Em Ef) as (x & -> & Hx). done.
    + apply lookup_ge_None. rewrite <-(Forall2_length _ _ _ Em). by apply lookup_ge_None.
  - exfalso. apply mapM_None, Exists_exists in Em as (f & (s & Hs)%nthN_elem_of & Hf). destruct (Hlt s f Hs) as [->|Hlen]; [by rewrite N.eqb_refl in Hf|]. destruct (f =? u32_max); [done|]. apply nthN_None in Hf. lia.
Qed.

(** * Minimization *)

(** The new automaton and the new state of every state that is reached. *)
Record minimized (groups : N) (d d' : LexDFA.t) (m : list N) : Prop := {
  mz_wf : lex_wf 256 groups d';
  mz_groups : LexDFA.group_id_to_u8set d' = LexDFA.group_id_to_u8set d;
  mz_stats : stats_ok d';
  mz_count : LexDFA.num_states d' ≤ LexDFA.num_states d;
  mz_length : lenN m = LexDFA.num_states d;
  mz_start : m.[0] = Some 0;
  mz_onto : ∀ b, b < LexDFA.num_states d' → ∃ s, is_kept d [] s ∧ m.[s] = Some b;
  mz_kept : ∀ s, is_kept d [] s → ∃ b, m.[s] = Some b ∧ b < LexDFA.num_states d';
  mz_dropped : ∀ s, s < LexDFA.num_states d → ¬ is_kept d [] s → m.[s] = Some u32_max;
  mz_simulated : simulated (λ s b, is_kept d [] s ∧ m.[s] = Some b) d d';
  mz_future : ∀ s row, (LexDFA.states d').[s] = Some row → ∀ g, BitSet.get (LexState.possible_future_group_ids row) g = true ↔ strict_future d' s g;
  mz_apart : (∃ s, is_kept d [] s ∧ dfa_edge d s s) → ∀ b c, b < LexDFA.num_states d' → c < LexDFA.num_states d' → alike d' b c → b = c;
}.

(** The states removed, then the blocks. *)
Lemma minimized_compose groups d w mapping p blocks d' m : LexDFA.num_states d < 16777216 → lex_wf 256 groups d → kept_as d groups [] w mapping → partition_of (LexDFA.num_states w) p blocks → p.[0] = Some 0 →
  rebuilt w groups p blocks d' → lenN m = lenN mapping → (∀ s, m.[s] = f ← mapping.[s]; if f =? u32_max then Some u32_max else p.[f]) →
  ((∃ s, dfa_edge w s s) → ∀ s t, s < LexDFA.num_states w → t < LexDFA.num_states w → alike w s t → same_block p s t) → minimized groups d d' m.
Proof.
  intros Hsmall Hd Hk Hpo Hp0 Hrb Hlen Hm Hapart. destruct Hpo as [Hpl Hpb Hpi]. pose proof (ka_count _ _ _ _ _ Hk) as Hcw.
  assert (Hmk : ∀ s, is_kept d [] s → ∃ s', mapping.[s] = Some s' ∧ s' < LexDFA.num_states w ∧ m.[s] = p.[s']).
  { intros s Hs. destruct (ka_kept _ _ _ _ _ Hk s Hs) as (s' & Hs' & Hlt). exists s'. split; [done|]. split; [done|]. rewrite Hm, Hs'. cbn. destruct (N.eqb_spec s' u32_max) as [->|]; [unfold u32_max in Hlt; lia|done]. }
  assert (Hpcount : lenN blocks ≤ LexDFA.num_states w) by (by apply (partition_count _ p)).
  assert (Hsim : simulated (λ s b, is_kept d [] s ∧ m.[s] = Some b) d d').
  { pose proof (simulated_compose _ _ _ _ _ (ka_simulated _ _ _ _ _ Hk) (rb_simulated _ _ _ _ _ Hrb)) as [H1 H2].
    assert (Hrel : ∀ s b, (is_kept d [] s ∧ m.[s] = Some b) ↔ ∃ t, (is_kept d [] s ∧ mapping.[s] = Some t) ∧ p.[t] = Some b).
    { intros s b. split; [intros [Hs Hb]|intros (t & [Hs Ht] & Hb)]; destruct (Hmk s Hs) as (s' & Hs' & _ & Hms); [exists s'; split; [done|congruence]|split; [done|congruence]]. }
    split; [intros s b Hsb%Hrel; by apply H1|]. intros s b a Hsb%Hrel. specialize (H2 s b a Hsb). destruct (LexDFA.step d s a), (LexDFA.step d' b a); cbn in *; [|done..]. by apply Hrel. }
  split.
  - apply (rb_wf _ _ _ _ _ Hrb).
  - by rewrite (rb_groups _ _ _ _ _ Hrb), (ka_groups _ _ _ _ _ Hk).
  - apply (rb_stats _ _ _ _ _ Hrb).
  - rewrite (rb_count _ _ _ _ _ Hrb). lia.
  - rewrite Hlen. apply (ka_length _ _ _ _ _ Hk).
  - rewrite Hm, (ka_start _ _ _ _ _ Hk). done.
  - intros b Hb. rewrite (rb_count _ _ _ _ _ Hrb) in Hb. destruct (proj1 (nthN_Some_lt blocks b) Hb) as [block Hblock]. destruct (Hpb b block Hblock) as (_ & Hne & Hin). destruct block as [|t block]; [done|].
    assert (Ht : p.[t] = Some b) by (apply Hin; by left). destruct (ka_onto _ _ _ _ _ Hk t) as (s & Hs & Hst); [rewrite <-Hpl; by eapply nthN_lt|]. exists s. split; [done|]. destruct (Hmk s Hs) as (s' & Hs' & _ & ->). congruence.
  - intros s Hs. destruct (Hmk s Hs) as (s' & Hs' & Hlt & ->). destruct (proj1 (nthN_Some_lt p s')) as [b Hb]; [lia|]. exists b. split; [done|]. rewrite (rb_count _ _ _ _ _ Hrb). by apply (Hpi s').
  - intros s Hs Hn. by rewrite Hm, (ka_dropped _ _ _ _ _ Hk s Hs Hn).
  - done.
  - apply (rb_future _ _ _ _ _ Hrb).
  - intros (s & Hs & He) b c Hb Hc Hbc. rewrite (rb_count _ _ _ _ _ Hrb) in Hb, Hc.
    assert (Hw : ∃ s, dfa_edge w s s).
    { destruct (ka_kept _ _ _ _ _ Hk s Hs) as (s' & Hs' & _). exists s'. apply (step_edge d groups Hd) in He as [a Ha]. apply (step_edge w groups (ka_wf _ _ _ _ _ Hk)). exists a.
      pose proof (sm_step _ _ _ (ka_simulated _ _ _ _ _ Hk) s s' a (conj Hs Hs')) as Hst. rewrite Ha in Hst. destruct (LexDFA.step w s' a) as [t|]; [|done]. destruct Hst as [_ Ht]. congruence. }
    assert (Hrep : ∀ b, b < lenN blocks → ∃ t, t < LexDFA.num_states w ∧ p.[t] = Some b).
    { intros b' Hb'. destruct (proj1 (nthN_Some_lt blocks b') Hb') as [block Hblock]. destruct (Hpb b' block Hblock) as (_ & Hne & Hin). destruct block as [|t block]; [done|]. exists t. assert (p.[t] = Some b') by (apply Hin; by left). split; [rewrite <-Hpl; by eapply nthN_lt|done]. }
    destruct (Hrep b Hb) as (t & Ht & Htb). destruct (Hrep c Hc) as (u & Hu & Huc). destruct (Hapart Hw t u Ht Hu) as (e & H1 & H2); [|congruence].
    intros x. rewrite (simulated_accepted _ w d' t b x (rb_simulated _ _ _ _ _ Hrb) Htb), (simulated_accepted _ w d' u c x (rb_simulated _ _ _ _ _ Hrb) Huc). apply Hbc.
Qed.

Lemma kept_as_edges d groups w w' mapping : kept_as d groups [] w mapping → lex_wf 256 groups w' → stats_ok w' → same_edges w w' → LexDFA.group_id_to_u8set w' = LexDFA.group_id_to_u8set w → kept_as d groups [] w' mapping.
Proof.
  intros [H1 H2 H3 H4 H5 H6 H7 H8 H9 H10 H11] Hw Hok He Hg. pose proof (same_edges_num _ _ He) as Hn. split; rewrite ?Hn; try done; [congruence|].
  by apply (simulated_edges d _ w).
Qed.

Lemma good_edges d d' p : same_edges d d' → good d p → good d' p.
Proof.
  intros He Hg s t Hst. destruct (Hg s t Hst) as [Hf Ha]. split; [by rewrite !(same_edges_finalizers d d')|]. intros a. rewrite !(same_edges_step d d') by done. apply Ha.
Qed.

(** One state: it is its own block. *)
Lemma single_rebuilt groups w d' : lex_wf 256 groups w → LexDFA.num_states w ≤ 1 → refreshed groups w d' → partition_of (LexDFA.num_states w) [0] [[0]] ∧ rebuilt w groups [0] [[0]] d'.
Proof.
  intros Hw H1 Hrf. pose proof (lw_start _ _ _ Hw) as H0. pose proof (rf_edges _ _ _ Hrf) as He. assert (Hn : LexDFA.num_states w = 1) by lia.
  assert (Hone : ∀ s b, [0].[s] = Some b ↔ s = 0 ∧ b = 0). { intros s b. split; [|by intros [-> ->]]. intros Hs. pose proof (nthN_lt _ _ _ Hs) as Hlt. change (lenN [0]) with 1 in Hlt. assert (s = 0) as -> by lia. by injection Hs as <-. }
  split; [split|split].
  - by rewrite Hn.
  - intros b block Hb. pose proof (nthN_lt _ _ _ Hb) as Hlt. change (lenN [[0]]) with 1 in Hlt. assert (b = 0) as -> by lia. injection Hb as <-. split; [apply NoDup_singleton|]. split; [done|]. intros s. rewrite list_elem_of_singleton, Hone. naive_solver.
  - intros s b [_ ->]%Hone. done.
  - by apply (refreshed_wf groups w).
  - apply (rf_groups _ _ _ Hrf).
  - apply (rf_stats _ _ _ Hrf).
  - by rewrite (same_edges_num _ _ He).
  - intros s row Hs. by apply (rf_future _ _ _ Hrf).
  - split; [intros s b [-> ->]%Hone; by rewrite (same_edges_finalizers w d')|]. intros s b a [-> ->]%Hone. rewrite (same_edges_step w d') by done. destruct (LexDFA.step w 0 a) as [t|] eqn:Et; [|done].
    apply (step_range w groups Hw) in Et as [_ Ht]. apply Hone. split; lia.
Qed.

Lemma minimize_impl_ok d groups : lex_wf 256 groups d → stats_ok d → LexDFA.num_states d < 16777216 → groups ≤ u32_modulus →
  ∃ d' m, minimize_impl d true false = Some (d', m) ∧ minimized groups d d' m.
Proof.
  intros Hd Hok Hsmall Hgroups. pose proof (lw_start _ _ _ Hd) as H0. unfold minimize_impl. rewrite (proj2 (N.eqb_neq _ 0)) by lia. unfold remove_unreachable_states_with_mapping.
  destruct (remove_unreachable_ok d groups Hd Hok ltac:(lia) []) as (w & mapping & -> & Hk). cbn [mbind option_bind].
  destruct (clear_futures_ok w groups (ka_wf _ _ _ _ _ Hk) (ka_stats _ _ _ _ _ Hk)) as (Hw1 & Hok1 & He1 & Hg1). set (w1 := clear_possible_futures_for_minimization w) in *.
  pose proof (kept_as_edges d groups w w1 mapping Hk Hw1 Hok1 He1 Hg1) as Hk1. pose proof (ka_count _ _ _ _ _ Hk1) as Hc1. destruct (N.leb_spec (LexDFA.num_states w1) 1) as [Hone|Hmany].
  - destruct (recompute_futures_ok w1 groups Hw1 Hok1 ltac:(lia)) as (d' & -> & Hrf). cbn [mbind option_bind]. exists d', mapping. split; [done|].
    destruct (single_rebuilt groups w1 d' Hw1 Hone Hrf) as [Hpo Hrb]. apply (minimized_compose groups d w1 mapping [0] [[0]]); try done.
    + intros s. destruct (mapping.[s]) as [f|] eqn:Ef; [|done]. cbn. destruct (ka_range _ _ _ _ _ Hk1 s f Ef) as [->|Hf]; [done|]. assert (f = 0) as -> by lia. done.
    + intros _ s t Hs Ht _. assert (s = 0) as -> by lia. assert (t = 0) as -> by lia. by exists 0.
  - destruct (minimal_blocks_ok w1 groups Hw1 Hok1 ltac:(lia)) as (p & blocks & w2 & -> & Hre & Hpo & Hgood & Hapart). cbn [mbind option_bind].
    pose proof (recached_edges _ _ Hre) as He2. pose proof (same_edges_num _ _ He2) as Hn2. pose proof (recached_wf _ _ _ _ Hre Hw1) as Hw2.
    pose proof (kept_as_edges d groups w1 w2 mapping Hk1 Hw2 (proj2 Hre) He2 (eq_sym (proj2 (proj1 Hre)))) as Hk2. rewrite <-Hn2 in Hpo, Hapart.
    destruct (rebuild_ok w2 groups p blocks Hw2 ltac:(lia) Hgroups Hpo (good_edges w1 w2 p He2 Hgood)) as (d' & p' & -> & Hp0 & Hsame & Hpo' & Hrb). cbn [mbind option_bind].
    destruct (compose_mappings_ok mapping p') as (m & -> & Hml & Hm). { intros s f Hf. destruct (ka_range _ _ _ _ _ Hk2 s f Hf) as [->|Hlt]; [by left|right]. by rewrite (po_length _ _ _ Hpo'). }
    cbn [mbind option_bind]. exists d', m. split; [done|]. apply (minimized_compose groups d w2 mapping p' (start_block_first blocks)); try done.
    intros Hloop s t Hs Ht Hst. apply Hsame, Hapart; [|done|done|].
    + destruct Hloop as (x & row & a & Hx & Hin). symmetry in He2. destruct (same_edges_row w2 w1 x row He2 Hx) as (row' & Hx' & Htr & _). exists x, row', a. by rewrite Htr.
    + by apply (recached_alike w1 w2).
Qed.

Definition bits_b (groups : N) (bits : BitSet.t) : bool :=
  (BitSet.len bits =? groups) && (lenN (BitSet.words bits) =? BitSet.div_ceil_64 groups) && forallb (λ w, w <? 2 ^ 64) (BitSet.words bits)
  && forallb (λ i, (i <? groups) || negb (BitSet.bit_at (BitSet.words bits) i)) (seqN (64 * length (BitSet.words bits))).

Fixpoint sorted_b (l : list (N * N)) : bool :=
  match l with
  | [] => true
  | e :: l => forallb (λ f, e.1 <? f.1) l && sorted_b l
  end.

Definition row_b (bound num groups : N) (row : LexState.t) : bool :=
  sorted_b (CharTransitions.entries (LexState.transitions row))
  && forallb (λ e, (e.1 <? bound) && (e.2 <? num)) (CharTransitions.entries (LexState.transitions row))
  && bool_decide (LexState.epsilon_transitions row = []) && bits_b groups (LexState.finalizers row) && bits_b groups (LexState.possible_future_group_ids row).

Definition lex_wf_b (bound groups : N) (d : LexDFA.t) : bool :=
  (LexDFA.num_groups d =? groups) && (0 <? LexDFA.num_states d) && forallb (row_b bound (LexDFA.num_states d) groups) (LexDFA.states d).

Lemma bits_check groups bits : bits_b groups bits = true → bits_ok groups bits.
Proof.
  unfold bits_b. rewrite !andb_true_iff, !N.eqb_eq, !forallb_forall. intros [[[Hl Hw] H64] Hun]. split; [|done]. split; [by rewrite Hl| |].
  - intros i w Hi. apply N.ltb_lt, H64, list_elem_of_In, nthN_elem_of. eauto.
  - intros i Hi. destruct (N.ltb_spec i (64 * lenN (BitSet.words bits))) as [Hlt|Hge].
    + specialize (Hun i). rewrite orb_true_iff, negb_true_iff, N.ltb_lt in Hun. destruct Hun as [?|?]; [|lia|done]. apply list_elem_of_In, elem_of_seqN. unfold lenN in Hlt. lia.
    + unfold BitSet.bit_at. rewrite (proj2 (nthN_None _ _)); [done|]. apply N.div_le_lower_bound; lia.
Qed.

Lemma sorted_check l : sorted_b l = true → CharTransitions.sorted (CharTransitions.mk l).
Proof.
  unfold CharTransitions.sorted. cbn. induction l as [|e l IH]; intros H; [constructor|]. cbn in H. apply andb_true_iff in H as [He Hl]. constructor; [by apply IH|].
  apply Forall_forall. intros f Hf. rewrite forallb_forall in He. apply N.ltb_lt, He. by apply list_elem_of_In.
Qed.

Lemma row_check bound num groups row : row_b bound num groups row = true → row_wf bound num groups row.
Proof.
  unfold row_b. rewrite !andb_true_iff, bool_decide_eq_true. intros [[[[Hs Hr] He] Hf] Hu]. split; [|intros l t Hin|done|by apply bits_check|by apply bits_check].
  - apply sorted_check in Hs. by destruct (LexState.transitions row).
  - rewrite forallb_forall in Hr. specialize (Hr (l, t)). rewrite andb_true_iff, !N.ltb_lt in Hr. apply Hr. by apply list_elem_of_In.
Qed.

Lemma lex_wf_check bound groups d : lex_wf_b bound groups d = true → lex_wf bound groups d.
Proof.
  unfold lex_wf_b. rewrite !andb_true_iff, N.eqb_eq, N.ltb_lt, forallb_forall. intros [[Hg H0] Hr]. split; [done|done|]. intros row Hrow. apply row_check, Hr. by apply list_elem_of_In.
Qed.

(** The states that a word leads to. *)
Lemma kept_run d groups s : lex_wf 256 groups d → is_kept d [] s ↔ ∃ w, lex_run d 0 w = Some s.
Proof.
  intros Hd. unfold is_kept, reached, a_root. rewrite <-(edges_run d groups Hd). split.
  - intros (r & [->|[?%elem_of_nil _]] & Hr); done.
  - intros Hr. exists 0. split; [by left|done].
Qed.

Lemma minimize_ok d groups : lex_wf 256 groups d → stats_ok d → LexDFA.num_states d < 16777216 → groups ≤ u32_modulus →
  ∃ d0 d' m, LexDFA.same d d0 ∧ minimize d = Some d' ∧ minimize_with_state_mapping d = Some (d', m) ∧ lex_wf 256 groups d0 ∧ minimized groups d0 d' m.
Proof.
  intros Hd Hok Hn Hg. destruct (has_epsilon_ok d 256 groups Hd Hok) as (d0 & He & Hre). pose proof (recached_wf _ _ _ _ Hre Hd) as Hd0. pose proof (same_edges_num _ _ (recached_edges _ _ Hre)) as Hn0.
  destruct (minimize_impl_ok d0 groups Hd0 (proj2 Hre) ltac:(lia) Hg) as (d' & m & Hi & Hm). exists d0, d', m. split; [apply Hre|]. unfold minimize, minimize_with_state_mapping. rewrite He, Hi. done.
Qed.

Lemma same_accepted d d0 s w : LexDFA.same d d0 → accepted d0 s w = accepted d s w.
Proof. intros [Hs _]. symmetry. apply (simulated_accepted eq); [|done]. apply same_edges_simulated. unfold same_edges. by rewrite Hs. Qed.

Lemma same_run d d0 s w : LexDFA.same d d0 → lex_run d0 s w = lex_run d s w.
Proof. intros [Hs _]. revert s. induction w as [|a w IH]; intros s; [done|]. cbn. unfold LexDFA.step. rewrite <-Hs. destruct ((LexDFA.states d).[s]) as [row|]; [|done]. cbn. destruct (CharTransitions.get _ a); [apply IH|done]. Qed.

Lemma mapped_run groups d d' m w s b : lex_wf 256 groups d → minimized groups d d' m → lex_run d 0 w = Some s → m.[s] = Some b → lex_run d' 0 w = Some b.
Proof.
  intros Hd Hm Hs Hb. assert (H0 : is_kept d [] 0) by (apply (kept_run d groups); [done|by exists []]).
  pose proof (simulated_run _ d d' 0 0 w (mz_simulated _ _ _ _ Hm) (conj H0 (mz_start _ _ _ _ Hm))) as Hr. rewrite Hs in Hr. destruct (lex_run d' 0 w) as [b'|]; [|done]. destruct Hr as [_ Hb']. congruence.
Qed.

Lemma minimized_accepted groups d d' m w : lex_wf 256 groups d → minimized groups d d' m → accepted d' 0 w = accepted d 0 w.
Proof.
  intros Hd Hm. symmetry. apply (simulated_accepted _ _ _ _ _ _ (mz_simulated _ _ _ _ Hm)). split; [|apply (mz_start _ _ _ _ Hm)]. apply (kept_run d groups); [done|by exists []].
Qed.

Lemma minimized_reached groups d d' m q : lex_wf 256 groups d → minimized groups d d' m → q < LexDFA.num_states d' → ∃ w, lex_run d' 0 w = Some q.
Proof.
  intros Hd Hm Hq. destruct (mz_onto _ _ _ _ Hm q Hq) as (s & Hs & Hsq). apply (kept_run d groups) in Hs as [w Hw]; [|done]. exists w. by apply (mapped_run groups d d' m w s q).
Qed.

Lemma future_accepted groups d s g : lex_wf 256 groups d → strict_future d s g ↔ ∃ a w fin, accepted d s (a :: w) = Some fin ∧ BitSet.get fin g = true.
Proof.
  intros Hd. rewrite (strict_future_run d groups Hd). unfold accepted. split.
  - intros (a & w & t & row & Hw & Hrow & Hg). exists a, w, (LexState.finalizers row). split; [|done]. rewrite Hw. cbn [mbind option_bind]. unfold LexDFA.finalizers. by rewrite Hrow.
  - intros (a & w & fin & Hf & Hg). destruct (lex_run d s (a :: w)) as [t|] eqn:Ew; [|done]. cbn [mbind option_bind] in Hf. unfold LexDFA.finalizers in Hf. destruct ((LexDFA.states d).[t]) as [row|] eqn:Er; [|done]. injection Hf as <-. by exists a, w, t, row.
Qed.

Lemma minimize_spec d groups : lex_wf 256 groups d → stats_ok d → LexDFA.num_states d < 16777216 → groups ≤ u32_modulus →
  ∃ d', minimize d = Some d' ∧ stats_ok d' ∧ lex_wf 256 groups d' ∧ LexDFA.group_id_to_u8set d' = LexDFA.group_id_to_u8set d ∧ LexDFA.num_states d' ≤ LexDFA.num_states d ∧
    (∀ w, accepted d' 0 w = accepted d 0 w) ∧ (∀ q, q < LexDFA.num_states d' → ∃ w, lex_run d' 0 w = Some q) ∧
    ∀ q row g, (LexDFA.states d').[q] = Some row → BitSet.get (LexState.possible_future_group_ids row) g = true ↔
      ∃ a w fin, accepted d' q (a :: w) = Some fin ∧ BitSet.get fin g = true.
Proof.
  intros Hd Hok Hn Hg. destruct (minimize_ok d groups Hd Hok Hn Hg) as (d0 & d' & m & Hsame & Hmin & _ & Hd0 & Hm). pose proof (mz_wf _ _ _ _ Hm) as Hd'. exists d'. split; [done|]. split; [apply (mz_stats _ _ _ _ Hm)|]. split; [done|].
  split; [by rewrite (mz_groups _ _ _ _ Hm), (proj2 Hsame)|]. split; [rewrite (mz_count _ _ _ _ Hm); unfold LexDFA.num_states; by rewrite (proj1 Hsame)|]. split; [|split].
  - intros w. rewrite (minimized_accepted groups d0 d' m w Hd0 Hm). by apply same_accepted.
  - intros q. by apply (minimized_reached groups d0 d' m).
  - intros q row g Hq. rewrite (mz_future _ _ _ _ Hm q row Hq g). by apply (future_accepted groups).
Qed.

(** C3: Minimization never panics.  The new automaton is well formed with the same
    group sets and no more states, gives every word the finalizers it had, has
    only states that a word leads to, and the futures of every state are the
    groups that a word that is not empty leads it to. *)
Theorem minimize_correct d groups : lex_wf 256 groups d → stats_ok d → LexDFA.num_states d < 16777216 → groups ≤ u32_modulus →
  ∃ d', minimize d = Some d' ∧ lex_wf 256 groups d' ∧ LexDFA.group_id_to_u8set d' = LexDFA.group_id_to_u8set d ∧ LexDFA.num_states d' ≤ LexDFA.num_states d ∧
    (∀ w, accepted d' 0 w = accepted d 0 w) ∧ (∀ q, q < LexDFA.num_states d' → ∃ w, lex_run d' 0 w = Some q) ∧
    ∀ q row g, (LexDFA.states d').[q] = Some row → BitSet.get (LexState.possible_future_group_ids row) g = true ↔
      ∃ a w fin, accepted d' q (a :: w) = Some fin ∧ BitSet.get fin g = true.
Proof.
  intros Hd Hok Hn Hg. destruct (minimize_spec d groups Hd Hok Hn Hg) as (d' & Hmin & _ & H). by exists d'.
Qed.

(** * No smaller automaton *)

Lemma choose_states (R : N → N → Prop) k : (∀ q, q < N.of_nat k → ∃ x, R q x) → ∃ l, length l = k ∧ ∀ q x, l.[q] = Some x → R q x.
Proof.
  induction k as [|k IH]; intros H; [exists []; split; [done|]; intros q x; by rewrite nthN_lookup, lookup_nil|].
  destruct IH as (l & Hl & HR); [intros q Hq; apply H; lia|]. destruct (H (N.of_nat k)) as [x Hx]; [lia|]. exists (l ++ [x]). split; [rewrite length_app; simpl; lia|].
  intros q y. rewrite nthN_snoc. unfold lenN. rewrite Hl. destruct (N.eqb_spec q (N.of_nat k)) as [->|]; [congruence|apply HR].
Qed.

(** An automaton whose states words lead to and tell apart is the smallest. *)
Lemma smallest groups d e : lex_wf 256 groups d → lex_wf 256 groups e → (∀ q, q < LexDFA.num_states d → ∃ w, lex_run d 0 w = Some q) →
  (∀ q r, q < LexDFA.num_states d → r < LexDFA.num_states d → alike d q r → q = r) → (∀ w, accepted e 0 w = accepted d 0 w) → LexDFA.num_states d ≤ LexDFA.num_states e.
Proof.
  intros Hd He Hreach Hapart Hacc.
  assert (Hsplit : ∀ a s w v x, lex_run a s w = Some x → accepted a s (w ++ v) = accepted a x v). { intros a s w v x Hw. unfold accepted. rewrite lex_run_app, Hw. done. }
  destruct (choose_states (λ q x, ∃ w, lex_run d 0 w = Some q ∧ lex_run e 0 w = Some x) (length (LexDFA.states d))) as (l & Hl & HR).
  - intros q Hq. destruct (Hreach q Hq) as [w Hw]. specialize (Hacc w). unfold accepted in Hacc. rewrite Hw in Hacc. cbn in Hacc. destruct (proj1 (nthN_Some_lt (LexDFA.states d) q) Hq) as [row Hrow]. unfold LexDFA.finalizers in Hacc at 2. rewrite Hrow in Hacc.
    destruct (lex_run e 0 w) as [x|] eqn:Ex; [|done]. exists x, w. done.
  - assert (Hnd : NoDup l).
    { apply NoDup_alt. intros i j x Hi Hj. rewrite <-nthN_of_nat in Hi, Hj. pose proof (nthN_lt _ _ _ Hi) as Hil. pose proof (nthN_lt _ _ _ Hj) as Hjl. unfold lenN in Hil, Hjl. rewrite Hl in Hil, Hjl.
      destruct (HR _ _ Hi) as (w & Hw & Hwx). destruct (HR _ _ Hj) as (v & Hv & Hvx). assert (N.of_nat i = N.of_nat j) as Hij; [|lia]. apply Hapart; [done|done|].
      intros u. rewrite <-(Hsplit d 0 w u _ Hw), <-(Hsplit d 0 v u _ Hv), <-!Hacc, (Hsplit e 0 w u x Hwx), (Hsplit e 0 v u x Hvx). done. }
    pose proof (NoDup_bounded_length l (N.to_nat (LexDFA.num_states e)) Hnd) as Hb. rewrite Hl in Hb. unfold LexDFA.num_states at 1, lenN. assert (length (LexDFA.states d) ≤ N.to_nat (LexDFA.num_states e))%nat; [|lia].
    apply Hb. intros x (q & Hq)%nthN_elem_of. destruct (HR q x Hq) as (w & _ & Hx). rewrite N2Nat.id. apply (run_range e groups He 0 w); [apply (lw_start _ _ _ He)|done].
Qed.

(** C4: When some word leads to a state with an edge to itself, two states of the
    new automaton that give the same finalizers after every word are one state,
    and no automaton that gives every word the same finalizers has fewer states. *)
Theorem minimize_smallest d groups : lex_wf 256 groups d → stats_ok d → LexDFA.num_states d < 16777216 → groups ≤ u32_modulus →
  (∃ w a s, lex_run d 0 w = Some s ∧ LexDFA.step d s a = Some s) →
  ∃ d', minimize d = Some d' ∧ (∀ q r, q < LexDFA.num_states d' → r < LexDFA.num_states d' → (∀ w, accepted d' q w = accepted d' r w) → q = r) ∧
    ∀ e, lex_wf 256 groups e → (∀ w, accepted e 0 w = accepted d 0 w) → LexDFA.num_states d' ≤ LexDFA.num_states e.
Proof.
  intros Hd Hok Hn Hg (w & a & s & Hw & Ha). destruct (minimize_ok d groups Hd Hok Hn Hg) as (d0 & d' & m & Hsame & Hmin & _ & Hd0 & Hm). exists d'. split; [done|].
  assert (Hloop : ∃ s, is_kept d0 [] s ∧ dfa_edge d0 s s).
  { exists s. split; [apply (kept_run d0 groups); [done|]; exists w; by rewrite (same_run d d0)|]. apply (step_edge d0 groups Hd0). exists a. pose proof (same_run d d0 s [a] Hsame) as Hr. cbn in Hr. rewrite Ha in Hr. cbn in Hr. by destruct (LexDFA.step d0 s a). }
  pose proof (mz_apart _ _ _ _ Hm Hloop) as Hapart. split; [exact Hapart|]. intros e He Hacc. apply (smallest groups); [apply (mz_wf _ _ _ _ Hm)|done|intros q; by apply (minimized_reached groups d0 d' m)|done|].
  intros v. rewrite Hacc, (minimized_accepted groups d0 d' m v Hd0 Hm). symmetry. by apply same_accepted.
Qed.

(** The mapping of the states sends every state that a word leads to where the
    word leads in the new automaton, which behaves there as the old one did, and
    marks every other state as dropped. *)
Theorem minimize_mapping_correct d groups : lex_wf 256 groups d → stats_ok d → LexDFA.num_states d < 16777216 → groups ≤ u32_modulus →
  ∃ d' m, minimize_with_state_mapping d = Some (d', m) ∧ minimize d = Some d' ∧ lenN m = LexDFA.num_states d ∧
    (∀ w s, lex_run d 0 w = Some s → ∃ b, m.[s] = Some b ∧ lex_run d' 0 w = Some b ∧ ∀ v, accepted d' b v = accepted d s v) ∧
    ∀ s, s < LexDFA.num_states d → (∀ w, lex_run d 0 w ≠ Some s) → m.[s] = Some u32_max.
Proof.
  intros Hd Hok Hn Hg. destruct (minimize_ok d groups Hd Hok Hn Hg) as (d0 & d' & m & Hsame & Hmin & Hmap & Hd0 & Hm). exists d', m. split; [done|]. split; [done|].
  assert (Hn0 : LexDFA.num_states d0 = LexDFA.num_states d) by (unfold LexDFA.num_states; by rewrite (proj1 Hsame)). split; [by rewrite (mz_length _ _ _ _ Hm)|]. split.
  - intros w s Hw. assert (Hk : is_kept d0 [] s) by (apply (kept_run d0 groups); [done|]; exists w; by rewrite (same_run d d0)). destruct (mz_kept _ _ _ _ Hm s Hk) as (b & Hb & _). exists b. split; [done|]. split.
    + apply (mapped_run groups d0 d' m w s b Hd0 Hm); [by rewrite (same_run d d0)|done].
    + intros v. rewrite <-(same_accepted d d0) by done. symmetry. by apply (simulated_accepted _ _ _ _ _ _ (mz_simulated _ _ _ _ Hm)).
  - intros s Hs Hno. apply (mz_dropped _ _ _ _ Hm); [by rewrite Hn0|]. intros [w Hw]%(kept_run d0 groups); [|done]. apply (Hno w). by rewrite <-(same_run d d0).
Qed.

(** * Examples *)

(** An automaton in two groups with a loop: two of its states are alike, and no
    word leads to a third. *)
Definition loop_example : LexDFA.t :=
  let d := (LexDFA.add_state (LexDFA.add_state (LexDFA.add_state (LexDFA.add_state (LexDFA.ensure_group_capacity (LexDFA.new 0) 2)).2).2).2).2 in
  let d := LexDFA.add_transition (LexDFA.add_transition (LexDFA.add_transition d 0 97 1) 1 97 0) 3 97 0 in
  let d := LexDFA.add_transition (LexDFA.add_transition (LexDFA.add_transition d 0 98 2) 1 98 2) 2 99 2 in
  LexDFA.overwrite_state_metadata d 2 (BitSet.set (BitSet.new 2) 1) (BitSet.new 2).

Lemma minimize_correct_witness : lex_wf 256 2 loop_example ∧ stats_ok loop_example ∧
  ∃ d', minimize loop_example = Some d' ∧ LexDFA.num_states d' = 2 ∧ (∀ w, accepted d' 0 w = accepted loop_example 0 w) ∧
    (λ row, BitSet.iter_ones (LexState.possible_future_group_ids row)) <$> LexDFA.states d' = [[1]; [1]].
Proof.
  assert (Hd : lex_wf 256 2 loop_example) by (apply lex_wf_check; by vm_compute). assert (Hok : stats_ok loop_example) by (intros st Hst; by vm_compute in Hst). split; [done|]. split; [done|].
  destruct (minimize_correct loop_example 2) as (d' & Hmin & _ & _ & _ & Hacc & _); [done|done|by vm_compute|by vm_compute|]. exists d'. split; [done|].
  assert (Hc : (λ d', (LexDFA.num_states d', (λ row, BitSet.iter_ones (LexState.possible_future_group_ids row)) <$> LexDFA.states d')) <$> minimize loop_example = Some (2, [[1]; [1]])) by by vm_compute.
  rewrite Hmin in Hc. injection Hc as H1 H2. split; [exact H1|]. split; [exact Hacc|exact H2].
Defined.

Lemma minimize_smallest_witness : ∃ d', minimize loop_example = Some d' ∧ LexDFA.num_states d' = 2 ∧
  ∀ e, lex_wf 256 2 e → (∀ w, accepted e 0 w = accepted loop_example 0 w) → 2 ≤ LexDFA.num_states e.
Proof.
  destruct (minimize_smallest loop_example 2) as (d' & Hmin & _ & Hsmall); [apply lex_wf_check; by vm_compute|intros st Hst; by vm_compute in Hst|by vm_compute|by vm_compute|exists [98], 99, 2; by vm_compute|].
  exists d'. split; [done|]. assert (Hc : LexDFA.num_states <$> minimize loop_example = Some 2) by by vm_compute. rewrite Hmin in Hc. injection Hc as Hn. split; [exact Hn|]. intros e He Hacc. pose proof (Hsmall e He Hacc) as H. rewrite Hn in H. exact H.
Defined.

Lemma minimize_mapping_correct_witness : ∃ d', minimize_with_state_mapping loop_example = Some (d', [0; 0; 1; u32_max]) ∧
  ∃ b, lex_run d' 0 [97] = Some b ∧ ∀ v, accepted d' b v = accepted loop_example 1 v.
Proof.
  destruct (minimize_mapping_correct loop_example 2) as (d' & m & Hmin & _ & _ & Hmap & _); [apply lex_wf_check; by vm_compute|intros st Hst; by vm_compute in Hst|by vm_compute|by vm_compute|].
  assert (Hc : snd <$> minimize_with_state_mapping loop_example = Some [0; 0; 1; u32_max]) by by vm_compute. rewrite Hmin in Hc. injection Hc as Hm. exists d'. rewrite <-Hm. split; [exact Hmin|].
  destruct (Hmap [97] 1 ltac:(by vm_compute)) as (b & _ & Hb & Hv). exists b. split; [exact Hb|exact Hv].
Defined.

(** * The certificate of the labels *)

(** A cycle of two states and a third with an edge into it. *)
Definition cycle_example : LexDFA.t :=
  let d := (LexDFA.add_state (LexDFA.add_state (LexDFA.add_state (LexDFA.ensure_group_capacity (LexDFA.new 0) 1)).2).2).2 in
  let d := LexDFA.add_transition (LexDFA.add_transition (LexDFA.add_transition d 0 97 1) 1 97 2) 2 97 1 in
  LexDFA.overwrite_state_metadata d 1 (LexDFA.flag_bits true) (LexDFA.flag_bits false).

(** C40: An automaton without an edge from a state to itself may be certified minimal
    by the labels although two of its states give the same finalizers after every
    word: the label of an edge into another component is not comparable with the
    block of an edge inside one. *)
Theorem minimize_not_smallest : ∃ d', minimize cycle_example = Some d' ∧ LexDFA.num_states d' = 3 ∧ ∀ w, accepted d' 0 w = accepted d' 2 w.
Proof.
  destruct (minimize cycle_example) as [d'|] eqn:Hmin; [|by vm_compute in Hmin]. exists d'. split; [done|].
  assert (Hc : (λ d, (LexDFA.num_states d, LexDFA.finalizers d 0, (λ row, CharTransitions.entries (LexState.transitions row)) <$> LexDFA.states d)) <$> minimize cycle_example = Some (3, Some (BitSet.new 1), [[(97, 1)]; [(97, 2)]; [(97, 1)]])) by by vm_compute.
  assert (Hf : (λ d, LexDFA.finalizers d 2) <$> minimize cycle_example = Some (Some (BitSet.new 1))) by by vm_compute.
  rewrite Hmin in Hc, Hf. injection Hc as Hn H0 Hrows. injection Hf as H2. split; [done|]. intros [|a w]; [unfold accepted; cbn; by rewrite H0, H2|].
  assert (Hstep : LexDFA.step d' 0 a = LexDFA.step d' 2 a); [|unfold accepted; cbn [lex_run]; by rewrite Hstep].
  unfold LexDFA.step. destruct (LexDFA.states d') as [|[[e0] f0 u0 p0] [|r1 [|[[e2] f2 u2 p2] l]]]; [done..|]. cbn in Hrows. injection Hrows as -> _ -> _. done.
Qed.
