(* ===== verification/LexToMinimized.v ===== *)
(** From the byte NFA to the minimal automaton: determinization over byte classes,
    minimization, and the classes expanded to bytes. *)

From S2P Require Import Prelude Bits U8Set BitSet StateSet CharTransitions LexDfa LexNfa LexNfaClasses LexNfaScc LexReach LexReachCorrect LexDeterminize LexDetRun LexDetCorrect LexFutures LexFutureGroups LexPrerefine LexMinimize LexSimulate LexRebuild LexMinimal.

(** The profile output is left out; the statistics it looks up are kept. *)
Definition to_minimized_dfa (nfa : Nfa.t) : option LexDFA.t :=
  '(dfa, class_members) ← determinize_impl nfa false;
  let '(_, dfa) := LexDFA.transition_count dfa in
  minimized ← minimize dfa;
  let '(_, minimized) := LexDFA.transition_count minimized in
  match class_members with
  | Some class_members => expand_byte_class_transitions minimized class_members
  | None => Some minimized
  end.

(** * The caches of a new automaton *)

Definition uncached (d : LexDFA.t) : Prop := LexDFA.derived_stats d = None.

Lemma foldM_uncached {A B} (get : B → LexDFA.t) (f : B → A → option B) b b' l :
  (∀ x b b', uncached (get b) → f b x = Some b' → uncached (get b')) → uncached (get b) → foldM f b l = Some b' → uncached (get b').
Proof. intros Hf Hb. apply (foldM_inv_prefix (λ _ b, uncached (get b))); [|done]. intros _ x b1 b2 _ H1. by apply Hf. Qed.

Lemma ensure_uncached d groups : uncached d → uncached (LexDFA.ensure_group_capacity d groups).
Proof. unfold LexDFA.ensure_group_capacity, uncached. cbn. by destruct (_ <? groups). Qed.

Lemma direct_uncached a groups reachable d : determinize_epsilon_free_deterministic a groups reachable = Some d → uncached d.
Proof.
  unfold determinize_epsilon_free_deterministic. destruct (remap_order _ _) as [remap|]; [|done]. cbn [mbind option_bind]. apply (foldM_uncached id); [|by apply ensure_uncached].
  intros [new old] d1 d2 _. unfold copy_state. intros H. destruct ((Nfa.states a).[old]) as [row|]; [|done]. cbn [mbind option_bind] in H. destruct (remapped_row _ _) as [tr|]; [|done]. cbn [mbind option_bind] in H.
  destruct (reachable.[old]) as [future|]; [|done]. by injection H as <-.
Qed.

Section subsets.
Context (metadata : CompressedStateSet.t → option (BitSet.t * BitSet.t)) (expand : bool) (members : list (list N)) (remapped : RemappedTransitions.t) (closed : ClosedStateTargets.t).

Lemma class_transition_uncached targets c st st' : uncached (dfa st.1) → class_transition metadata expand members targets st c = Some st' → uncached (dfa st'.1).
Proof using.
  destruct st as [b entries]. unfold class_transition. intros Hu H. destruct (targets.[c]) as [set|]; [|done]. cbn [mbind option_bind] in H. destruct (reuse_from_sparse set (scratch_closure b)) as [scratch|]; [|done]. cbn [mbind option_bind] in H.
  destruct (CompressedStateSet.words scratch) as [|w ws]; [by injection H as <-|]. unfold intern_subset in H. cbn [subset_map scratch_closure dfa] in H. destruct (subset_map b !! scratch) as [q|]; cbn [mbind option_bind] in H.
  - destruct (if expand then members.[c] else Some [c mod 256]) as [ls|]; [|done]. by injection H as <-.
  - destruct (metadata scratch) as [[fin fut]|]; [|done]. cbn [mbind option_bind LexDFA.add_state] in H. destruct (if expand then members.[c] else Some [c mod 256]) as [ls|]; [|done]. by injection H as <-.
Qed.

Lemma subset_step_uncached st : uncached (dfa st.1) →
  match subset_step metadata expand members remapped closed st with inl st' => uncached (dfa st'.1) | inr (Some d) => uncached d | inr None => True end.
Proof using.
  intros Hu. destruct st as [b scratch]. unfold subset_step. cbn [fst] in *. destruct (worklist b) as [|current rest] eqn:Ew; [done|]. unfold subset_round. rewrite Ew. cbn [subsets].
  destruct ((subsets b).[current]) as [set|]; [|done]. cbn [mbind option_bind]. destruct (collect_closed_transition_targets _ _ _ _) as [scratch'|]; [|done]. cbn [mbind option_bind].
  destruct (foldM _ _ _) as [[b' entries]|] eqn:Ef; [|done]. cbn [mbind option_bind]. destruct (reset_classes scratch') as [scratch''|]; [|done]. done.
Qed.
End subsets.

Lemma construction_uncached a groups reachable expand d members : subset_construction a groups reachable expand = Some (d, members) → uncached d.
Proof.
  unfold subset_construction. destruct (Nfa.compute_equivalence_classes a) as [[class_map count] mem].
  repeat match goal with |- context [?x ≫= _] => let E := fresh "E" in destruct x eqn:E; [|done]; cbn [mbind option_bind] end.
  destruct p as [fin fut]. match goal with |- context [run ?f ?k ?s0] => pose proof (run_inv f (λ st : subset_builder * class_targets, uncached (dfa st.1)) k s0) as Hrun; destruct (run f k s0) as [|[d'|]]; [done| |done] end.
  intros [= <- _]. destruct Hrun as (st' & Hu & Hst).
  - intros st1 st2 H1 H2. match type of H2 with subset_step ?me ?ex ?mm ?re ?cl _ = _ => pose proof (subset_step_uncached me ex mm re cl st1 H1) as H end. by rewrite H2 in H.
  - exact (ensure_uncached (LexDFA.new 1) groups eq_refl).
  - match type of Hst with subset_step ?me ?ex ?mm ?re ?cl _ = _ => pose proof (subset_step_uncached me ex mm re cl st' Hu) as H end. by rewrite Hst in H.
Qed.

Lemma determinize_uncached a expand d members : determinize_impl a expand = Some (d, members) → uncached d.
Proof.
  unfold determinize_impl. destruct (compute_reachable_groups _ _) as [reachable|]; [|done]. cbn [mbind option_bind]. destruct (is_epsilon_free_deterministic a).
  - destruct (determinize_epsilon_free_deterministic _ _ _) as [d'|] eqn:E; [|done]. intros [= <- _]. by eapply direct_uncached.
  - destruct (subset_construction _ _ _ _) as [[d' mem]|] eqn:E; [|done]. intros [= <- _]. by eapply construction_uncached.
Qed.

Lemma transition_count_ok d : stats_ok d → ∃ k d', LexDFA.transition_count d = (k, d') ∧ recached d d'.
Proof.
  intros Hok. destruct (derived_stats_valid d Hok) as [_ Hre]. unfold LexDFA.transition_count. destruct (LexDFA.get_derived_stats d) as [st d']. by eexists _, d'.
Qed.

(** * What is recognized after the minimization *)

(** The futures are those of the words that go on. *)
Definition recognizes_strictly (d : LexDFA.t) (a : Nfa.t) : Prop :=
  ∀ w, byte_word w →
  match lex_run d 0 w with
  | Some q => ∃ row, (LexDFA.states d).[q] = Some row ∧ ∀ g,
      (BitSet.get (LexState.finalizers row) g = true ↔ nfa_matches a w g) ∧
      (BitSet.get (LexState.possible_future_group_ids row) g = true ↔ ∃ b v, byte_word (b :: v) ∧ nfa_matches a (w ++ b :: v) g)
  | None => ∀ g, ¬ may_reach a w g
  end.

Lemma matches_reach a w g : nfa_matches a w g → may_reach a w g.
Proof. intros (t & row & Hp & Hrow & Hg). exists t. split; [done|]. by exists t, row. Qed.

Section letters.
Context (a : Nfa.t) (rel : N → N → Prop) (bound groups : N) (d m : LexDFA.t) (Hd : lex_wf 256 groups d).
Context (Hletters : ∀ q l t, LexDFA.step d q l = Some t → l < bound) (Hback : ∀ l, l < bound → ∃ b, b < 256 ∧ rel b l) (Htotal : ∀ b, b < 256 → ∃ l, rel b l).
(** After a word, the automaton over letters tells what the NFA accepts. *)
Context (Hrec : ∀ w ls, byte_word w → Forall2 rel w ls → match accepted d 0 ls with Some fin => ∀ g, BitSet.get fin g = true ↔ nfa_matches a w g | None => ∀ g, ¬ may_reach a w g end).
Context (Hfuture : ∀ q row g, (LexDFA.states d).[q] = Some row → BitSet.get (LexState.possible_future_group_ids row) g = true ↔ ∃ l ls fin, accepted d q (l :: ls) = Some fin ∧ BitSet.get fin g = true).
(** The automaton over bytes. *)
Context (Hrows : ∀ q row, (LexDFA.states d).[q] = Some row → ∃ row', (LexDFA.states m).[q] = Some row' ∧
  LexState.finalizers row' = LexState.finalizers row ∧ LexState.possible_future_group_ids row' = LexState.possible_future_group_ids row).
Context (Hstep : ∀ q b l, b < 256 → rel b l → LexDFA.step m q b = LexDFA.step d q l).

Lemma letters_of w : byte_word w → ∃ ls, Forall2 rel w ls ∧ ∀ q, lex_run m q w = lex_run d q ls.
Proof using All.
  induction w as [|b w IH]; intros Hw; [by exists []|]. apply Forall_cons in Hw as [Hb Hw]. destruct (IH Hw) as (ls & Hls & Hr). destruct (Htotal b Hb) as [l Hl]. exists (l :: ls). split; [by constructor|].
  intros q. cbn. rewrite (Hstep q b l Hb Hl). destruct (LexDFA.step d q l); [apply Hr|done].
Qed.

Lemma bytes_of q ls t : lex_run d q ls = Some t → ∃ w, byte_word w ∧ Forall2 rel w ls.
Proof using All.
  revert q. induction ls as [|l ls IH]; intros q; [intros _; exists []; split; [constructor|constructor]|]. cbn. destruct (LexDFA.step d q l) as [u|] eqn:Eu; [|done]. cbn. intros (w & Hw & Hls)%IH. destruct (Hback l) as (b & Hb & Hl); [by eapply Hletters|].
  exists (b :: w). split; by constructor.
Qed.

Lemma letters_recognize : recognizes_strictly m a.
Proof using All.
  intros w Hw. destruct (letters_of w Hw) as (ls & Hls & Hr). rewrite Hr. pose proof (Hrec w ls Hw Hls) as Hacc. unfold accepted in Hacc. destruct (lex_run d 0 ls) as [q|] eqn:Eq; [|done]. cbn [mbind option_bind] in Hacc.
  assert (Hq : q < LexDFA.num_states d) by (apply (run_range d groups Hd 0 ls); [apply (lw_start _ _ _ Hd)|done]). destruct (proj1 (nthN_Some_lt (LexDFA.states d) q) Hq) as [row Hrow].
  destruct (Hrows q row Hrow) as (row' & Hrow' & Hf & Hu). exists row'. split; [done|]. intros g. unfold LexDFA.finalizers in Hacc. rewrite Hrow in Hacc. cbn in Hacc. rewrite Hf, Hu. split; [apply Hacc|]. rewrite (Hfuture q row g Hrow).
  assert (Happ : ∀ ks, accepted d 0 (ls ++ ks) = accepted d q ks) by (intros ks; unfold accepted; by rewrite lex_run_app, Eq). split.
  - intros (l & ks & fin & Hfin & Hg). destruct (lex_run d q (l :: ks)) as [t|] eqn:Et; [|unfold accepted in Hfin; by rewrite Et in Hfin]. destruct (bytes_of q (l :: ks) t Et) as (v & Hv & Hvs). inversion Hvs as [|b l' v' ks' Hbl Hks]; subst.
    exists b, v'. split; [done|]. specialize (Hrec (w ++ b :: v') (ls ++ l :: ks)). rewrite Happ, Hfin in Hrec. apply Hrec; [by apply Forall_app|by apply Forall2_app|done].
  - intros (b & v & Hbv & Hm). destruct (letters_of (b :: v) Hbv) as (ks & Hks & _). specialize (Hrec (w ++ b :: v) (ls ++ ks)). rewrite Happ in Hrec. pose proof (Hrec ltac:(by apply Forall_app) ltac:(by apply Forall2_app)) as Hr'.
    destruct (accepted d q ks) as [fin|] eqn:Ek; [|by destruct (Hr' g); apply matches_reach]. inversion Hks as [|b' l v' ks' Hbl Hks']; subst. exists l, ks', fin. split; [done|]. by apply Hr'.
Qed.

Lemma run_letters w ls q : byte_word w → Forall2 rel w ls → lex_run m q w = lex_run d q ls.
Proof using Hstep.
  intros Hw Hls. revert q. induction Hls as [|b l w ls Hbl _ IH]; intros q; [done|]. apply Forall_cons in Hw as [Hb Hw]. cbn. rewrite (Hstep q b l Hb Hbl). destruct (LexDFA.step d q l); [by apply IH|done].
Qed.

(** Every state is reached by bytes, when it is by letters. *)
Lemma letters_correct : (∀ q, q < LexDFA.num_states d → ∃ ls, lex_run d 0 ls = Some q) →
  recognizes_strictly m a ∧ ∀ q, q < LexDFA.num_states d → ∃ w, byte_word w ∧ lex_run m 0 w = Some q.
Proof using All.
  intros Hreach. split; [exact letters_recognize|]. intros q [ls Hls]%Hreach. destruct (bytes_of 0 ls q Hls) as (w & Hw & Hr). exists w. split; [done|]. by rewrite (run_letters w ls 0).
Qed.
End letters.

(** * The pipeline *)

Lemma lex_wf_mono bound bound' groups d : bound ≤ bound' → lex_wf bound groups d → lex_wf bound' groups d.
Proof. intros Hb [H1 H2 H3]. split; [done|done|]. intros row Hrow. destruct (H3 row Hrow) as [W1 W2 W3 W4 W5]. split; [done| |done|done|done]. intros l t Hin. destruct (W2 l t Hin). split; [lia|done]. Qed.

(** The letters of a minimized automaton are letters of the one before. *)
Lemma minimized_letters bound groups d d' : lex_wf bound groups d → lex_wf 256 groups d → lex_wf 256 groups d' → (∀ w, accepted d' 0 w = accepted d 0 w) → (∀ q, q < LexDFA.num_states d' → ∃ w, lex_run d' 0 w = Some q) →
  lex_wf bound groups d'.
Proof.
  intros Hb Hd Hd' Hacc Hreach. pose proof Hd' as [H1 H2 H3]. split; [done|done|]. intros row (q & Hq)%nthN_elem_of. destruct (H3 row) as [W1 W2 W3 W4 W5]; [apply nthN_elem_of; eauto|]. split; [done| |done|done|done].
  intros l t Hin. split; [|by apply (W2 l t)]. destruct (Hreach q) as [w Hw]; [by eapply nthN_lt|].
  assert (Ht : LexDFA.step d' q l = Some t) by (apply (step_iff d' groups Hd'); by exists row).
  assert (Hsome : is_Some (accepted d 0 (w ++ [l]))).
  { rewrite <-Hacc. unfold accepted. rewrite lex_run_snoc, Hw. cbn [mbind option_bind]. rewrite Ht. cbn [mbind option_bind]. apply (step_range d' groups Hd') in Ht as [_ Ht]. destruct (proj1 (nthN_Some_lt (LexDFA.states d') t) Ht) as [r Hr]. unfold LexDFA.finalizers. rewrite Hr. by eexists. }
  unfold accepted in Hsome. rewrite lex_run_snoc in Hsome. destruct (lex_run d 0 w) as [s|]; [|by destruct Hsome]. cbn [mbind option_bind] in Hsome. destruct (LexDFA.step d s l) as [u|] eqn:Eu; [|by destruct Hsome].
  apply (step_iff d groups Hd) in Eu as (r & Hr & Hin'). apply (rw_range bound (LexDFA.num_states d) groups r) in Hin' as [? _]; [done|]. apply (lw_rows _ _ _ Hb), nthN_elem_of. eauto.
Qed.

Lemma recognized_accepted rel groups d a w ls : lex_wf 256 groups d → recognizes_through rel d a → byte_word w → Forall2 rel w ls →
  match accepted d 0 ls with Some fin => ∀ g, BitSet.get fin g = true ↔ nfa_matches a w g | None => ∀ g, ¬ may_reach a w g end.
Proof.
  intros Hd Hrec Hw Hls. specialize (Hrec w ls Hw Hls). unfold accepted. destruct (lex_run d 0 ls) as [q|]; [|done]. destruct Hrec as (row & Hrow & Hg). cbn [mbind option_bind]. unfold LexDFA.finalizers. rewrite Hrow. cbn. intros g. apply Hg.
Qed.

Lemma to_minimized_spec (a : Nfa.t) : det_input a →
  ∃ d members, determinize_impl a false = Some (d, members) ∧ (LexDFA.num_states d < 16777216 → nfa_group_count a ≤ u32_modulus →
    ∃ m, to_minimized_dfa a = Some m ∧ LexDFA.num_states m ≤ LexDFA.num_states d ∧ lex_wf 256 (nfa_group_count a) m ∧ recognizes_strictly m a ∧
      ∀ q, q < LexDFA.num_states m → ∃ w, byte_word w ∧ lex_run m 0 w = Some q).
Proof.
  intros Ha. destruct (determinize_ok a false Ha) as (d & members & Hr & Hd). exists d, members. split; [done|]. intros Hsmall Hgroups. set (groups := nfa_group_count a) in *.
  assert (Hok : stats_ok d) by (intros st Hst; apply determinize_uncached in Hr; unfold uncached in Hr; congruence).
  destruct (transition_count_ok d Hok) as (k & d1 & Hk & Hre). pose proof (same_edges_num _ _ (recached_edges _ _ Hre)) as Hn1. specialize (Hd ltac:(unfold u32_modulus; lia)).
  assert (Hwf : lex_wf 256 groups d).
  { destruct members as [members|]; [|by destruct Hd]. destruct Hd as (_ & class_map & count & Hcls & Hwf & _). destruct (equivalence_classes_spec a (wf_sets a Ha)) as (cm & count' & mem' & Hcls' & Hcount & _). rewrite Hcls in Hcls'. injection Hcls' as <- <- <-. by apply (lex_wf_mono count). }
  pose proof (recached_wf _ _ _ _ Hre Hwf) as Hwf1. destruct (minimize_spec d1 groups Hwf1 (proj2 Hre) ltac:(lia) Hgroups) as (d2 & Hmin & Hok2 & Hwf2 & _ & Hn2 & Hacc & Hreach & Hfut).
  destruct (transition_count_ok d2 Hok2) as (k2 & d3 & Hk2 & Hre2). pose proof (recached_wf _ _ _ _ Hre2 Hwf2) as Hwf3. pose proof (same_edges_num _ _ (recached_edges _ _ Hre2)) as Hn3.
  assert (Hacc3 : ∀ q w, accepted d3 q w = accepted d2 q w) by (intros q w; apply same_accepted, Hre2).
  assert (Hacc' : ∀ w, accepted d3 0 w = accepted d 0 w) by (intros w; rewrite Hacc3, Hacc; apply same_accepted, Hre).
  assert (Hfut3 : ∀ q row g, (LexDFA.states d3).[q] = Some row → BitSet.get (LexState.possible_future_group_ids row) g = true ↔ ∃ l ls fin, accepted d3 q (l :: ls) = Some fin ∧ BitSet.get fin g = true).
  { intros q row g Hq. rewrite <-(proj1 (proj1 Hre2)) in Hq. rewrite (Hfut q row g Hq). by setoid_rewrite Hacc3. }
  assert (Hreach3 : ∀ q, q < LexDFA.num_states d3 → ∃ w, lex_run d3 0 w = Some q). { intros q Hq. destruct (Hreach q) as [w Hw]; [lia|]. exists w. by rewrite (same_run d2 d3) by apply Hre2. }
  unfold to_minimized_dfa. rewrite Hr. cbn [mbind option_bind]. rewrite Hk, Hmin. cbn [mbind option_bind]. rewrite Hk2. destruct members as [members|].
  - destruct Hd as (_ & class_map & count & Hcls & Hwfc & Hrec). destruct (equivalence_classes_spec a (wf_sets a Ha)) as (cm & count' & mem' & Hcls' & _ & _ & _ & _ & Hmap & Hbytes). rewrite Hcls in Hcls'. injection Hcls' as <- <- <-.
    pose proof (minimized_letters count groups d d3 Hwfc Hwf Hwf3 Hacc' Hreach3) as Hwfc3.
    destruct (expand_ok class_map count members Hmap) with (groups := groups) (d := d3) as (m & Hm & Hwfm & Hrows & Hnm & Hstep); [|done|].
    { intros c Hc. destruct (Hbytes c Hc) as (bytes & ? & _ & ? & ?). by exists bytes. }
    exists m. split; [done|]. split; [rewrite Hnm; lia|]. split; [done|]. rewrite Hnm. apply (letters_correct a (λ b c, class_map.[b] = Some c) count groups d3 m Hwf3).
    + intros q l t Hl. apply (step_iff d3 groups Hwf3) in Hl as (row & Hrow & Hin). apply (rw_range count (LexDFA.num_states d3) groups row) in Hin as [? _]; [done|]. apply (lw_rows _ _ _ Hwfc3), nthN_elem_of. eauto.
    + intros c Hc. destruct (Hbytes c Hc) as (bytes & _ & Hne & _ & Hin). destruct bytes as [|b bytes]; [done|]. exists b. apply Hin. by left.
    + intros b Hb. destruct (Hmap b Hb) as (c & Hc & _). by exists c.
    + intros w ls Hw Hls. rewrite Hacc'. by apply (recognized_accepted (λ b c, class_map.[b] = Some c) groups d a w ls).
    + done.
    + intros q row Hq. destruct (proj1 (nthN_Some_lt (LexDFA.states m) q)) as [row' Hrow']; [change (q < LexDFA.num_states m); rewrite Hnm; by eapply nthN_lt|]. destruct (Hrows q row' Hrow') as (row0 & Hr0 & Hf & Hu). assert (row0 = row) as -> by congruence. by exists row'.
    + intros q b c Hb Hc. by apply Hstep.
    + done.
  - destruct Hd as [_ Hrec]. exists d3. split; [done|]. split; [lia|]. split; [done|]. apply (letters_correct a eq 256 groups d3 d3 Hwf3).
    + intros q l t Hl. apply (step_iff d3 groups Hwf3) in Hl as (row & Hrow & Hin). apply (rw_range 256 (LexDFA.num_states d3) groups row) in Hin as [? _]; [done|]. apply (lw_rows _ _ _ Hwf3), nthN_elem_of. eauto.
    + intros l Hl. by exists l.
    + intros b _. by exists b.
    + intros w ls Hw Hls. rewrite Hacc'. by apply (recognized_accepted eq groups d a w ls).
    + done.
    + intros q row Hq. by exists row.
    + by intros q b l _ <-.
    + done.
Qed.

(** C2: The minimal automaton of a byte NFA: on an NFA whose edges lead to states
    and whose tables fit in 32 bits, with fewer than 2^24 subsets, determinizing
    over byte classes, minimizing and expanding the classes does not panic and
    does not add states; after every byte word the state reached carries exactly
    the groups that accept the word and, as its futures, those that accept the
    word followed by one more byte or more; no state is left when no group can
    be reached any more. *)
Theorem to_minimized_dfa_correct (a : Nfa.t) : det_input a →
  ∃ d members, determinize_impl a false = Some (d, members) ∧ (LexDFA.num_states d < 16777216 → nfa_group_count a ≤ u32_modulus →
    ∃ m, to_minimized_dfa a = Some m ∧ LexDFA.num_states m ≤ LexDFA.num_states d ∧ lex_wf 256 (nfa_group_count a) m ∧ recognizes_strictly m a).
Proof.
  intros Ha. destruct (to_minimized_spec a Ha) as (d & members & Hd & Hm). exists d, members. split; [done|]. intros Hs Hg.
  destruct (Hm Hs Hg) as (m & ? & ? & ? & ? & _). by exists m.
Qed.

(** Overlapping sets: the futures after [b] are those of the words that go on. *)
Lemma to_minimized_dfa_correct_witness : det_input nfa_overlap ∧ ∃ m, to_minimized_dfa nfa_overlap = Some m ∧ recognizes_strictly m nfa_overlap ∧ lex_groups m [98] = Some ([0; 1], [0]).
Proof.
  assert (Ha : det_input nfa_overlap) by (apply det_input_check; by vm_compute). split; [exact Ha|].
  destruct (to_minimized_dfa_correct nfa_overlap Ha) as (d & members & Hd & Hm).
  assert (Hc : (λ p, LexDFA.num_states p.1) <$> determinize_impl nfa_overlap false = Some 4) by by vm_compute. rewrite Hd in Hc. apply (inj Some) in Hc.
  assert (Hn : LexDFA.num_states d < 16777216) by (change (LexDFA.num_states d = 4) in Hc; rewrite Hc; apply N.ltb_lt; vm_compute; reflexivity).
  destruct (Hm Hn) as (m & Hm' & _ & _ & Hrec); [apply N.leb_le; vm_compute; reflexivity|]. clear Hm. exists m. split; [exact Hm'|]. split; [exact Hrec|].
  assert (Hg : (λ m, lex_groups m [98]) <$> to_minimized_dfa nfa_overlap = Some (Some ([0; 1], [0]))) by by vm_compute. rewrite Hm' in Hg. apply (inj Some) in Hg. exact Hg.
Defined.
