(* ===== verification/LexFragment.v ===== *)
(** Automaton fragments: what an operation adds to the byte NFA between visible
    states, read as a graph whose edges carry languages.  A fragment appended
    between two states acts as one edge, whatever states it adds inside. *)

From S2P Require Import Prelude Bits U8Set LexDfa Lang LexAstLang LexNfa.
Import Nfa.

Definition edges : Type := N → lang → N → Prop.

Definition edge1 (s : N) (L : lang) (t : N) : edges := λ x K y, x = s ∧ K = L ∧ y = t.
Inductive no_edges : N → lang → N → Prop := .
Definition eor (M M' : edges) : edges := λ x K y, M x K y ∨ M' x K y.

(** The edges of an automaton. *)
Inductive nfa_edge (a : Nfa.t) (s : N) : lang → N → Prop :=
  | nfa_byte row set t : (states a).[s] = Some row → (set, t) ∈ NFAState.transitions row → nfa_edge a s (class_lang set) t
  | nfa_epsilon row t : (states a).[s] = Some row → t ∈ NFAState.epsilon_transitions row → nfa_edge a s leps t.

Definition fins (a : Nfa.t) (s : N) : gset GroupId :=
  match (states a).[s] with Some row => NFAState.finalizers row | None => ∅ end.

(** * Paths of unions *)

Section union.
Context (F1 F2 M1 M2 : edges) (V1 V2 O O2 : N → Prop).
Context (HF1 : ∀ x L y, F1 x L y → V1 x ∧ V1 y) (HF2 : ∀ x L y, F2 x L y → V2 x ∧ V2 y).
Context (HM1 : ∀ x L y, M1 x L y → O x ∧ O y) (HM2 : ∀ x L y, M2 x L y → O2 x ∧ O2 y).
Context (HO : ∀ x, O2 x → O x) (HVV : ∀ x, V1 x → V2 x → O2 x) (HVO : ∀ x, V2 x → O x → O2 x).
Context (HP1 : ∀ x y w, O x → O y → gpath F1 x w y ↔ gpath M1 x w y).
Context (HP2 : ∀ x y w, O2 x → O2 y → gpath F2 x w y ↔ gpath M2 x w y).

Let M := eor M1 M2.

Lemma path_in_M1 x w y : O x → O y → gpath F1 x w y → gpath M x w y.
Proof using HP1. intros Hx Hy H%HP1; [|done..]. eapply gpath_mono; [|exact H]. by left. Qed.

Lemma path_in_M2 x w y : O2 x → O2 y → gpath F2 x w y → gpath M x w y.
Proof using HP2. intros Hx Hy H%HP2; [|done..]. eapply gpath_mono; [|exact H]. by right. Qed.

(** A path stays in one part up to a visible state. *)
Lemma union_split x w y : gpath (eor F1 F2) x w y → O y →
  ∃ z u v, w = u ++ v ∧ gpath M z v y ∧ (gpath F1 x u z ∧ O z ∨ gpath F2 x u z ∧ O2 z).
Proof using All.
  intros Hp Hy. induction Hp as [x|x L x' y u v [HF|HF] Hu _ IH].
  - exists x, [], []. split; [done|]. split; [constructor|]. left. split; [constructor|done].
  - destruct (IH Hy) as (z & w1 & w2 & -> & HM & [[Hw Hz]|[Hw Hz]]).
    + exists z, (u ++ w1), w2. rewrite app_assoc. split; [done|]. split; [done|]. left. split; [|done]. by eapply gpath_step.
    + exists x', u, (w1 ++ w2). split; [done|]. assert (HO2 : O2 x').
      { apply gpath_inv in Hw as [[-> _]|(K & z' & ? & ? & _ & HK & _)]; [done|]. apply HVV; [by apply (HF1 _ _ _ HF)|by apply (HF2 _ _ _ HK)]. }
      split; [apply (gpath_app _ _ z); [by apply path_in_M2|done]|]. left. split; [by eapply gpath_one|by apply HO].
  - destruct (IH Hy) as (z & w1 & w2 & -> & HM & [[Hw Hz]|[Hw Hz]]).
    + exists x', u, (w1 ++ w2). split; [done|]. assert (HO2 : O2 x').
      { apply gpath_inv in Hw as [[-> _]|(K & z' & ? & ? & _ & HK & _)].
        - apply HVO; [by apply (HF2 _ _ _ HF)|done].
        - apply HVV; [by apply (HF1 _ _ _ HK)|by apply (HF2 _ _ _ HF)]. }
      split; [apply (gpath_app _ _ z); [apply path_in_M1; [by apply HO|done..]|done]|]. right. split; [by eapply gpath_one|done].
    + exists z, (u ++ w1), w2. rewrite app_assoc. split; [done|]. split; [done|]. right. split; [|done]. by eapply gpath_step.
Qed.

Lemma union_paths x y w : O x → O y → gpath (eor F1 F2) x w y ↔ gpath M x w y.
Proof using All.
  intros Hx Hy. split.
  - intros Hp. destruct (union_split _ _ _ Hp Hy) as (z & u & v & -> & HM & [[Hu Hz]|[Hu Hz]]); (apply (gpath_app _ _ z); [|exact HM]).
    + by apply path_in_M1.
    + apply path_in_M2; [|done..]. apply gpath_inv in Hu as [[-> _]|(K & z' & ? & ? & _ & HK & _)]; [done|].
      apply HVO; [by apply (HF2 _ _ _ HK)|done].
  - apply gpath_map. intros x' L y' u [HM|HM] Hu.
    + destruct (HM1 _ _ _ HM). eapply gpath_mono; [|apply HP1; [done..|by eapply gpath_one]]. by left.
    + destruct (HM2 _ _ _ HM). eapply gpath_mono; [|apply HP2; [done..|by eapply gpath_one]]. by right.
Qed.
End union.

(** * Fragments *)

(** [a'] is [a] with the edges [F]; what it accepts is decided elsewhere. *)
Record extends (a a' : Nfa.t) (F : edges) : Prop := {
  ext_len : num_states a ≤ num_states a';
  ext_start : start_state a' = start_state a;
  ext_fins : ∀ s, fins a' s = fins a s;
  ext_edge : ∀ x L y, nfa_edge a' x L y ↔ nfa_edge a x L y ∨ F x L y;
}.

(** Between the visible states [O], what was added acts as the graph [M]. *)
Definition frag (a a' : Nfa.t) (O : N → Prop) (M : edges) : Prop :=
  ∃ F, extends a a' F ∧
    (∀ x L y, F x L y → (O x ∨ num_states a ≤ x < num_states a') ∧ (O y ∨ num_states a ≤ y < num_states a')) ∧
    (∀ x y w, O x → O y → gpath F x w y ↔ gpath M x w y) ∧
    (∀ x, O x → x < num_states a') ∧
    ∀ x L y, M x L y → O x ∧ O y.

Definition two (s t : N) : N → Prop := λ x, x = s ∨ x = t.

(** One edge from [s] to [t]. *)
Definition part (a a' : Nfa.t) (s : N) (L : lang) (t : N) : Prop := frag a a' (two s t) (edge1 s L t).

Lemma frag_len a a' O M : frag a a' O M → num_states a ≤ num_states a'.
Proof. by intros (F & [] & _). Qed.
Lemma frag_range a a' O M x : frag a a' O M → O x → x < num_states a'.
Proof. intros (F & _ & _ & _ & H & _). apply H. Qed.
Lemma frag_ends a a' O M x L y : frag a a' O M → M x L y → O x ∧ O y.
Proof. intros (F & _ & _ & _ & _ & H). apply H. Qed.

Lemma gpath_into M x w y : (∀ z L, ¬ M z L y) → gpath M x w y → x = y ∧ w = [].
Proof.
  intros H Hp. induction Hp as [|x L z y u v HM Hu Hp IH]; [done|]. destruct (IH H) as [-> _]. by apply H in HM.
Qed.

Lemma gpath_none x w y : gpath no_edges x w y ↔ x = y ∧ w = [].
Proof. split; [intros Hp%gpath_stuck; [done|by intros L z []]|]. intros [-> ->]. constructor. Qed.

Lemma frag_nil a (O : N → Prop) : (∀ x, O x → x < num_states a) → frag a a O no_edges.
Proof.
  intros HO. exists no_edges. split; [split; try done; intros x L y; split; [by left|by intros [?|[]]]|].
  split; [done|]. split; [done|]. split; done.
Qed.

(** A fragment appended between visible states. *)
Lemma frag_join a a1 a2 (O O2 : N → Prop) M M2 :
  frag a a1 O M → (∀ x, O2 x → O x) → frag a1 a2 O2 M2 → frag a a2 O (eor M M2).
Proof.
  intros (F1 & [El1 Es1 Ef1 Ee1] & HF1 & HP1 & HR1 & HM1) HO (F2 & [El2 Es2 Ef2 Ee2] & HF2 & HP2 & HR2 & HM2).
  exists (eor F1 F2). split; [split|split; [|split; [|split]]].
  - lia.
  - congruence.
  - intros x. by rewrite Ef2.
  - intros x K y. rewrite Ee2, Ee1. unfold eor. tauto.
  - intros x K y [H|H].
    + destruct (HF1 _ _ _ H) as [[?|?] [?|?]]; split; (by left) || (right; lia).
    + destruct (HF2 _ _ _ H) as [[?|?] [?|?]]; split; (left; by apply HO) || (right; lia).
  - apply (union_paths F1 F2 M M2 (λ x, O x ∨ num_states a ≤ x < num_states a1)
      (λ x, O2 x ∨ num_states a1 ≤ x < num_states a2) O O2); try done.
    + intros x [Hx|Hx] [?|Hx']; try done; [apply HR1 in Hx|]; lia.
    + intros x [?|Hx'] Hx; [done|]. apply HR1 in Hx. lia.
  - intros x Hx. apply HR1 in Hx. lia.
  - intros x K y [H|H]; [by apply (HM1 _ _ _ H)|]. destruct (HM2 _ _ _ H). split; by apply HO.
Qed.

(** A part is an edge. *)
Lemma frag_part a a1 a2 O M s L t :
  frag a a1 O M → O s → O t → part a1 a2 s L t → frag a a2 O (eor M (edge1 s L t)).
Proof. intros Hf Hs Ht Hp. eapply frag_join; [exact Hf| |exact Hp]. intros x [Hx|Hx]; by subst x. Qed.

(** A fresh visible state. *)
Lemma nfa_edge_range a s L t : nfa_edge a s L t → s < num_states a.
Proof. by destruct 1 as [row set t Hr|row t Hr]; eapply nthN_lt. Qed.

Lemma add_state_ext a id a' : add_state a = (id, a') → num_states a < u32_modulus →
  id = num_states a ∧ num_states a' = num_states a + 1 ∧ extends a a' no_edges.
Proof.
  intros [= <- <-] Hlt. split; [by apply as_u32_small|]. unfold num_states. cbn. rewrite lenN_snoc. split; [done|].
  assert (Hrow : ∀ s, (states a ++ [NFAState.new]).[s] = if s =? lenN (states a) then Some NFAState.new else (states a).[s])
    by (intros; apply nthN_snoc).
  split; [unfold num_states; cbn; rewrite lenN_snoc; lia|done|..].
  - intros s. unfold fins. cbn. rewrite Hrow. destruct (N.eqb_spec s (lenN (states a))) as [->|]; [|done].
    by rewrite (proj2 (nthN_None (states a) _)) by done.
  - intros x L y. split.
    + destruct 1 as [row set t Hr Hin|row t Hr Hin]; cbn in Hr; rewrite Hrow in Hr; left;
        (destruct (x =? lenN (states a)); [injection Hr as <-; by apply elem_of_nil in Hin|]); [by eapply nfa_byte|by eapply nfa_epsilon].
    + intros [H|[]]. pose proof (nfa_edge_range _ _ _ _ H) as Hx. unfold num_states in Hx.
      destruct H as [row set t Hr Hin|row t Hr Hin]; [eapply nfa_byte|eapply nfa_epsilon]; try exact Hin; cbn;
        rewrite Hrow, (proj2 (N.eqb_neq x _)) by lia; exact Hr.
Qed.

Lemma frag_add_state a a1 O M id a2 :
  frag a a1 O M → add_state a1 = (id, a2) → num_states a1 < u32_modulus →
  id = num_states a1 ∧ num_states a2 = num_states a1 + 1 ∧ frag a a2 (λ x, O x ∨ x = id) M.
Proof.
  intros (F & [El Es Ef Ee] & HF & HP & HR & HM) Hadd Hlt.
  destruct (add_state_ext a1 id a2 Hadd Hlt) as (-> & Hn & [El' Es' Ef' Ee']). split; [done|]. split; [done|].
  assert (Hend : ∀ x L y, F x L y → x < num_states a1 ∧ y < num_states a1).
  { intros x L y H. destruct (HF _ _ _ H) as [[Hx|?] [Hy|?]]; split; try lia; by apply HR. }
  assert (Hfresh : ∀ (G : edges) x w y, (∀ x L y, G x L y → x < num_states a1 ∧ y < num_states a1) →
    x = num_states a1 ∨ y = num_states a1 → gpath G x w y ↔ x = y ∧ w = []).
  { intros G x w y HG Hxy. split; [|intros [-> ->]; constructor]. intros Hp. destruct Hxy as [->| ->].
    - apply gpath_stuck in Hp; [done|]. intros L z H. apply HG in H. lia.
    - apply gpath_into in Hp; [done|]. intros z L H. apply HG in H. lia. }
  exists F. split; [split|split; [|split; [|split]]].
  - lia.
  - congruence.
  - intros x. by rewrite Ef'.
  - intros x L y. rewrite Ee', Ee. split; [by intros [?|[]]|by left].
  - intros x L y H. destruct (HF _ _ _ H) as [[?|?] [?|?]]; split; (by left; left) || (right; lia).
  - assert (HMend : ∀ x L y, M x L y → x < num_states a1 ∧ y < num_states a1).
    { intros x L y H. destruct (HM _ _ _ H). split; by apply HR. }
    intros x y w [Hx| ->] [Hy| ->]; try (rewrite !Hfresh by auto; done). by apply HP.
  - intros x [Hx| ->]; [apply HR in Hx; lia|lia].
  - intros x L y H. destruct (HM _ _ _ H). split; by left.
Qed.

(** Fewer visible states. *)
Lemma frag_hide a a' (O O' : N → Prop) (M M' : edges) :
  frag a a' O M → (∀ x, O' x → O x) → (∀ x, O x → O' x ∨ num_states a ≤ x) →
  (∀ x L y, M' x L y → O' x ∧ O' y) →
  (∀ x y w, O' x → O' y → gpath M x w y ↔ gpath M' x w y) → frag a a' O' M'.
Proof.
  intros (F & E & HF & HP & HR & HM) Hsub Hfresh HM' Hpaths. exists F. split; [done|]. split; [|split; [|split; [|done]]].
  - assert (Hv : ∀ x, O x ∨ num_states a ≤ x < num_states a' → O' x ∨ num_states a ≤ x < num_states a').
    { intros x [Hx|]; [|by right]. destruct (Hfresh x Hx); [by left|]. right. split; [done|by apply HR]. }
    intros x L y H. destruct (HF _ _ _ H). split; by apply Hv.
  - intros x y w Hx Hy. rewrite HP by auto. by apply Hpaths.
  - intros x Hx. by apply HR, Hsub.
Qed.

(** ** Single edges *)

Lemma gpath_edge1 s L t x w y : s ≠ t →
  gpath (edge1 s L t) x w y ↔ (x = y ∧ w = []) ∨ (x = s ∧ y = t ∧ L w).
Proof.
  intros Hne. split.
  - intros [?|(K & z & u & v & -> & (-> & -> & ->) & Hu & Hp)]%gpath_inv; [by left|]. right. split; [done|].
    apply gpath_stuck in Hp as [<- ->]; [by rewrite app_nil_r|]. by intros K z (? & _).
  - intros [[-> ->]|(-> & -> & HL)]; [constructor|]. by eapply gpath_one.
Qed.

(** A fragment whose only words go from [s] to [t] is a part. *)
Lemma frag_to_part a a' O M s L t :
  frag a a' O M → s ≠ t → O s → O t → (∀ x, O x → two s t x ∨ num_states a ≤ x) →
  (∀ x K y, M x K y → x ≠ t ∧ y ≠ s) → (∀ w, gpath M s w t ↔ L w) → part a a' s L t.
Proof.
  intros Hf Hne Hs Ht Hfresh Hends Hw. apply (frag_hide a a' O _ M); [done|(intros x [Hx|Hx]; by subst x)|done|..].
  - intros x K y (-> & _ & ->). split; [by left|by right].
  - assert (Hst : ∀ w, gpath M t w s ↔ False).
    { intros w. split; [|done]. intros Hp%gpath_stuck; [|intros K z H%Hends; tauto]. destruct Hp; congruence. }
    assert (Hss : ∀ w, gpath M s w s ↔ w = []).
    { intros w. split; [|intros ->; constructor]. intros Hp%gpath_into; [tauto|]. intros z K H%Hends. tauto. }
    assert (Htt : ∀ w, gpath M t w t ↔ w = []).
    { intros w. split; [|intros ->; constructor]. intros Hp%gpath_stuck; [tauto|]. intros K z H%Hends. tauto. }
    intros x y w [->| ->] [->| ->]; rewrite gpath_edge1 by done; rewrite ?Hst, ?Hss, ?Htt, ?Hw; naive_solver.
Qed.

Lemma part_lang a a' s L L' t : s ≠ t → part a a' s L t → (∀ w, L w ↔ L' w) → part a a' s L' t.
Proof.
  intros Hne Hp HL. eapply frag_to_part; [exact Hp|done|by left|by right|by left|..].
  - intros x K y (-> & _ & ->). done.
  - intros w. rewrite gpath_edge1 by done. rewrite <-HL. split; [intros [[? _]|(_ & _ & ?)]; done|by right].
Qed.

(** ** Adding an edge *)

Lemma with_state_rows a s f x : (states (with_state a s f)).[x] = if x =? s then f <$> (states a).[x] else (states a).[x].
Proof. apply nthN_alterN. Qed.

Lemma add_epsilon_part a s t : s < num_states a → t < num_states a → part a (add_epsilon a s t) s leps t.
Proof.
  intros Hs Ht. exists (edge1 s leps t). assert (Hn : num_states (add_epsilon a s t) = num_states a) by apply lenN_alterN.
  split; [split|split; [|split; [|split]]].
  - by rewrite Hn.
  - done.
  - intros x. unfold fins, add_epsilon. rewrite with_state_rows. destruct (x =? s); [|done]. by destruct ((states a).[x]).
  - destruct (proj1 (nthN_Some_lt (states a) s) Hs) as [row Hrow]. intros x L y. split.
    + destruct 1 as [row' set z Hr Hin|row' z Hr Hin]; unfold add_epsilon in Hr; rewrite with_state_rows in Hr;
        (destruct (N.eqb_spec x s) as [->|]; [rewrite Hrow in Hr; injection Hr as <-; cbn in Hin|]).
      * left. by eapply nfa_byte.
      * left. by eapply nfa_byte.
      * apply elem_of_app in Hin as [Hin|Hin%list_elem_of_singleton]; [left; by eapply nfa_epsilon|]. subst. by right.
      * left. by eapply nfa_epsilon.
    + intros [[row' set z Hr Hin|row' z Hr Hin]|(-> & -> & ->)]; unfold add_epsilon.
      * destruct (N.eqb_spec x s) as [->|Hne].
        -- eapply (nfa_byte _ _ _ set); [rewrite with_state_rows, N.eqb_refl, Hr; reflexivity|]. done.
        -- eapply nfa_byte; [rewrite with_state_rows, (proj2 (N.eqb_neq x s)) by done; exact Hr|done].
      * destruct (N.eqb_spec x s) as [->|Hne].
        -- eapply nfa_epsilon; [rewrite with_state_rows, N.eqb_refl, Hr; reflexivity|]. cbn. apply elem_of_app. by left.
        -- eapply nfa_epsilon; [rewrite with_state_rows, (proj2 (N.eqb_neq x s)) by done; exact Hr|done].
      * eapply nfa_epsilon; [rewrite with_state_rows, N.eqb_refl, Hrow; reflexivity|]. cbn. apply elem_of_app. right. by left.
  - intros x L y (-> & _ & ->). split; left; [by left|by right].
  - done.
  - intros x [->| ->]; by rewrite Hn.
  - intros x L y (-> & _ & ->). split; [by left|by right].
Qed.

Lemma add_u8set_part a s set t : s < num_states a → t < num_states a → part a (add_u8set_transition a s set t) s (class_lang set) t.
Proof.
  intros Hs Ht. exists (edge1 s (class_lang set) t). assert (Hn : num_states (add_u8set_transition a s set t) = num_states a) by apply lenN_alterN.
  split; [split|split; [|split; [|split]]].
  - by rewrite Hn.
  - done.
  - intros x. unfold fins, add_u8set_transition. rewrite with_state_rows. destruct (x =? s); [|done]. by destruct ((states a).[x]).
  - destruct (proj1 (nthN_Some_lt (states a) s) Hs) as [row Hrow]. intros x L y. split.
    + destruct 1 as [row' set' z Hr Hin|row' z Hr Hin]; unfold add_u8set_transition in Hr; rewrite with_state_rows in Hr;
        (destruct (N.eqb_spec x s) as [->|]; [rewrite Hrow in Hr; injection Hr as <-; cbn in Hin|]).
      * apply elem_of_app in Hin as [Hin|Hin%list_elem_of_singleton]; [left; by eapply nfa_byte|]. injection Hin as -> ->. by right.
      * left. by eapply nfa_byte.
      * left. by eapply nfa_epsilon.
      * left. by eapply nfa_epsilon.
    + intros [[row' set' z Hr Hin|row' z Hr Hin]|(-> & -> & ->)]; unfold add_u8set_transition.
      * destruct (N.eqb_spec x s) as [->|Hne].
        -- eapply (nfa_byte _ _ _ set'); [rewrite with_state_rows, N.eqb_refl, Hr; reflexivity|]. cbn. apply elem_of_app. by left.
        -- eapply nfa_byte; [rewrite with_state_rows, (proj2 (N.eqb_neq x s)) by done; exact Hr|done].
      * destruct (N.eqb_spec x s) as [->|Hne].
        -- eapply nfa_epsilon; [rewrite with_state_rows, N.eqb_refl, Hr; reflexivity|]. done.
        -- eapply nfa_epsilon; [rewrite with_state_rows, (proj2 (N.eqb_neq x s)) by done; exact Hr|done].
      * eapply (nfa_byte _ _ _ set); [rewrite with_state_rows, N.eqb_refl, Hrow; reflexivity|]. cbn. apply elem_of_app. right. by left.
  - intros x L y (-> & _ & ->). split; left; [by left|by right].
  - done.
  - intros x [->| ->]; by rewrite Hn.
  - intros x L y (-> & _ & ->). split; [by left|by right].
Qed.

(** * Parts after parts *)

(** What is appended from [c] to [t]: edges leave [c] only. *)
Definition tail_part (a a' : Nfa.t) (c : N) (K : lang) (t : N) : Prop :=
  ∃ G, frag a a' (two c t) G ∧ (∀ x L y, G x L y → x = c) ∧ ∀ w, gpath G c w t ↔ K w.

Lemma part_tail a a' s L t : s ≠ t → part a a' s L t → tail_part a a' s L t.
Proof.
  intros Hne Hp. exists (edge1 s L t). split; [done|]. split; [by intros x K y (-> & _)|].
  intros w. rewrite gpath_edge1 by done. split; [intros [[? _]|(_ & _ & ?)]; done|by right].
Qed.

Lemma two_fresh a (s t m : N) : s < num_states a → t < num_states a → m = num_states a → s ≠ m ∧ t ≠ m.
Proof. lia. Qed.

(** A part to a fresh state, then what leads from it to the end. *)
Lemma part_then a a1 a2 a3 s L m K t :
  s < num_states a → t < num_states a → s ≠ t → num_states a < u32_modulus → add_state a = (m, a1) →
  part a1 a2 s L m → tail_part a2 a3 m K t → part a a3 s (lcat L K) t.
Proof.
  intros Hs Ht Hne Hlt Hadd Hp (G & HG & Hout & HK).
  assert (H0 : frag a a (two s t) no_edges) by (apply frag_nil; intros x [Hx|Hx]; by subst x).
  destruct (frag_add_state _ _ _ _ _ _ H0 Hadd Hlt) as (Hm & _ & H1).
  destruct (two_fresh a s t m Hs Ht Hm) as [Hsm Htm].
  pose proof (frag_part _ _ _ _ _ s L m H1 ltac:(by left; left) ltac:(by right) Hp) as H2.
  assert (H3 := frag_join _ _ _ _ (two m t) _ _ H2 ltac:(intros x [Hx|Hx]; subst x; [by right|by left; right]) HG).
  assert (HGe : ∀ x L y, G x L y → two m t y) by (intros x J y H; by apply (frag_ends _ _ _ _ _ _ _ HG H)).
  eapply frag_to_part; [exact H3|done|by left; left|by left; right|..].
  - intros x [[->| ->]| ->]; [by left; left|by left; right|right; lia].
  - intros x J y [[[]|(-> & _ & ->)]|H]; [done|]. rewrite (Hout _ _ _ H). destruct (HGe _ _ _ H); subst y; split; congruence.
  - intros w. split.
    + intros [[? _]|(J & z & u & v & -> & [[[]|(_ & -> & ->)]|H] & Hu & Hv)]%gpath_inv; [done| |by rewrite (Hout _ _ _ H) in Hsm].
      exists u, v. split; [done|]. split; [done|]. apply HK.
      assert (Hin : ∀ x w, gpath (eor (eor no_edges (edge1 s L m)) G) x w t → two m t x → gpath G x w t).
      { intros x w' Hp'. induction Hp' as [x|x J z y u' v' HM Hu' Hp' IH]; intros Hx; [constructor|].
        destruct HM as [[[]|(-> & _ & ->)]|HM]; [by destruct Hx|].
        eapply gpath_step; [exact HM|exact Hu'|]. apply IH; [done..|by apply (HGe _ _ _ HM)]. }
      apply Hin; [done|by left].
    + intros (u & v & -> & Hu & Hv). apply (gpath_app _ _ m).
      * eapply gpath_one; [|exact Hu]. left. by right.
      * eapply gpath_mono; [|by apply HK]. intros x J y H. by right.
Qed.

Lemma part_or a a1 a2 s L K t :
  s < num_states a → t < num_states a → s ≠ t → part a a1 s L t → part a1 a2 s K t → part a a2 s (lor L K) t.
Proof.
  intros Hs Ht Hne H1 H2. eapply frag_to_part;
    [by eapply (frag_part _ _ _ _ _ s K t); [exact H1|by left|by right|exact H2]|done|by left|by right|by left|..].
  - intros x J y [(-> & _ & ->)|(-> & _ & ->)]; done.
  - intros w. split.
    + intros [[? _]|(J & z & u & v & -> & HM & Hu & Hv)]%gpath_inv; [done|].
      assert (Hz : z = t ∧ (L u ∨ K u)) by (destruct HM as [(_ & -> & ->)|(_ & -> & ->)]; auto). destruct Hz as [-> Hor].
      apply gpath_stuck in Hv as [_ ->]; [by rewrite app_nil_r|]. intros J' y [(? & _)|(? & _)]; congruence.
    + intros [Hw|Hw]; (eapply gpath_one; [|exact Hw]); [by left|by right].
Qed.

(** Nothing is added. *)
Lemma part_none a s t : s < num_states a → t < num_states a → s ≠ t → part a a s lempty t.
Proof.
  intros Hs Ht Hne. eapply frag_to_part; [apply (frag_nil a (two s t)); intros x [Hx|Hx]; by subst x|done|by left|by right|by left|done|].
  intros w. rewrite gpath_none. unfold lempty. naive_solver.
Qed.
