(* ===== verification/LexCompile.v ===== *)
(** Compiling expressions into the byte NFA of the lexer
    (crates/glrmask-lexer/src/automata/lexer/compile.rs): one fragment per
    constructor, the shared fragments of bounded repetitions, the prefix tree of
    the terminals and the direct automaton of a bounded repetition.

    [None] is a panic: [unreachable!] on a nested intersection or exclusion, or
    an index out of range. *)

From S2P Require Import Prelude Bits U8Set BitSet CharTransitions LexDfa Lang LexAst LexNfa.
Import Expr.

(** * Helpers *)

Definition highest_power_of_two_leq (value : N) : N := N.shiftl 1 (N.log2 value).

Fixpoint unwrap_shared (e : Expr.t) : Expr.t :=
  match e with Shared inner => unwrap_shared inner | other => other end.

Definition seq_from_parts (parts : list Expr.t) : Expr.t :=
  match parts with [] => Epsilon | [single] => single | _ => Seq parts end.

Fixpoint expr_accepts_empty (e : Expr.t) : option bool :=
  match e with
  | U8Seq bytes => Some (bool_decide (bytes = []))
  | U8Class _ => Some false
  | Dfa d => dfa_accepts_empty d
  | Intersect expr intersect => b ← expr_accepts_empty expr; if (b : bool) then expr_accepts_empty intersect else Some false
  | Seq parts => allM expr_accepts_empty parts
  | Choice options => anyM expr_accepts_empty options
  | Exclude expr exclude => b ← expr_accepts_empty expr; if (b : bool) then negb <$> expr_accepts_empty exclude else Some false
  | Repeat _ min _ => Some (min =? 0)
  | Shared inner => expr_accepts_empty inner
  | Epsilon => Some true
  end.

(** * Fragments between two states *)

(** The last byte leads to [last]; before it a state is added per byte. *)
Fixpoint append_byte_sequence_expr (bytes : list N) (nfa : Nfa.t) (state last : N) : Nfa.t :=
  match bytes with
  | [] => Nfa.add_epsilon nfa state last
  | [byte] => Nfa.add_transition nfa state byte last
  | byte :: bytes =>
      let '(next, nfa) := Nfa.add_state nfa in
      append_byte_sequence_expr bytes (Nfa.add_transition nfa state byte next) next last
  end.

Definition add_states (nfa : Nfa.t) (count : nat) : list N * Nfa.t :=
  Nat.iter count (λ '(ids, nfa), let '(id, nfa) := Nfa.add_state nfa in (ids ++ [id], nfa)) ([], nfa).

Definition append_dfa_state (state_map : list N) (last : N) (nfa : Nfa.t) (entry : N * LexState.t) : option Nfa.t :=
  let '(state_id, state) := entry in
  mapped_state ← state_map.[state_id];
  nfa ← foldM (λ nfa '(byte, target), mapped ← state_map.[target]; Some (Nfa.add_transition nfa mapped_state byte mapped))
    nfa (CharTransitions.iter (LexState.transitions state));
  nfa ← foldM (λ nfa target, mapped ← state_map.[target]; Some (Nfa.add_epsilon nfa mapped_state mapped))
    nfa (LexState.epsilon_transitions state);
  Some (if BitSet.is_empty (LexState.finalizers state) then nfa else Nfa.add_epsilon nfa mapped_state last).

Definition append_dfa_expr (d : LexDFA.t) (nfa : Nfa.t) (start last : N) : option Nfa.t :=
  let '(state_map, nfa) := add_states nfa (length (LexDFA.states d)) in
  first ← state_map.[0];
  foldM (append_dfa_state state_map last) (Nfa.add_epsilon nfa start first) (enumerate (LexDFA.states d)).

Section append.
(** The fragment of a part. *)
Context (append : Expr.t → Nfa.t → N → N → option Nfa.t).

(** The last part leads to [last]; an empty sequence is an epsilon edge. *)
Definition append_sequence_expr (last : N) : list Expr.t → Nfa.t → N → option Nfa.t :=
  fix go parts nfa state :=
    match parts with
    | [] => Some (Nfa.add_epsilon nfa state last)
    | part :: rest =>
        match rest with
        | [] => append part nfa state last
        | _ :: _ =>
            let '(next, nfa) := Nfa.add_state nfa in
            nfa ← append part nfa state next;
            go rest nfa next
        end
    end.

Definition append_options (start last : N) : list Expr.t → Nfa.t → option Nfa.t :=
  fix go options nfa :=
    match options with
    | [] => Some nfa
    | option :: options => nfa ← append option nfa start last; go options nfa
    end.

Definition append_choice_expr (options : list Expr.t) (nfa : Nfa.t) (start last : N) : option Nfa.t :=
  match options with
  | [] => Some (Nfa.add_epsilon nfa start last)
  | _ :: _ => append_options start last options nfa
  end.
End append.

(** ** Repetitions *)

Module RepeatCompiler.
Record t := mk {
  nfa : Nfa.t;
  power_cache : gmap (N * N) N;
  upto_cache : gmap (N * N) N;
}.

Definition new (nfa : Nfa.t) : t := mk nfa ∅ ∅.
Definition set_nfa (rc : t) (nfa : Nfa.t) : t := mk nfa (power_cache rc) (upto_cache rc).

Section compile.
(** [append_compiled_expr(self.expr, ..)] *)
Context (append : Nfa.t → N → N → option Nfa.t).

(** The fuel bounds the halvings. *)
Fixpoint compile_power (fuel : nat) (rc : t) (copies last : N) : option (N * t) :=
  match fuel with
  | O => None
  | S fuel =>
      match power_cache rc !! (copies, last) with
      | Some start => Some (start, rc)
      | None =>
          '(start, rc) ←
            (if copies =? 1
             then
               let '(start, nfa) := Nfa.add_state (nfa rc) in
               nfa ← append nfa start last;
               Some (start, set_nfa rc nfa)
             else
               let half := copies / 2 in
               '(suffix_start, rc) ← compile_power fuel rc half last;
               compile_power fuel rc half suffix_start);
          Some (start, mk (nfa rc) (<[(copies, last) := start]> (power_cache rc)) (upto_cache rc))
      end
  end.

(** Bits of a number of copies *)
Definition power_fuel (copies : N) : nat := S (N.size_nat copies).

Fixpoint compile_exact (fuel : nat) (rc : t) (copies last : N) : option (N * t) :=
  match fuel with
  | O => None
  | S fuel =>
      if copies =? 0 then Some (last, rc)
      else
        let largest_power := highest_power_of_two_leq copies in
        '(suffix_start, rc) ← compile_exact fuel rc (copies - largest_power) last;
        compile_power (power_fuel largest_power) rc largest_power suffix_start
  end.

Fixpoint compile_upto (fuel : nat) (rc : t) (copies last : N) : option (N * t) :=
  match fuel with
  | O => None
  | S fuel =>
      if copies =? 0 then Some (last, rc)
      else
        match upto_cache rc !! (copies, last) with
        | Some start => Some (start, rc)
        | None =>
            let largest_power := highest_power_of_two_leq copies in
            let '(split, nfa0) := Nfa.add_state (nfa rc) in
            '(smaller_start, rc) ← compile_upto fuel (set_nfa rc nfa0) (largest_power - 1) last;
            let rc := set_nfa rc (Nfa.add_epsilon (nfa rc) split smaller_start) in
            '(suffix_start, rc) ← compile_upto fuel rc (copies - largest_power) last;
            '(power_start, rc) ← compile_power (power_fuel largest_power) rc largest_power suffix_start;
            Some (split, mk (Nfa.add_epsilon (nfa rc) split power_start) (power_cache rc)
                           (<[(copies, last) := split]> (upto_cache rc)))
        end
  end.
End compile.
End RepeatCompiler.

(** * Literal prefixes *)

Module PrefixAtom.
Inductive t := Byte (byte : N) | Class (set : U8Set.t).

#[global] Instance eq_dec : EqDecision t.
Proof. solve_decision. Defined.
#[global] Instance countable : Countable t.
Proof.
  refine (inj_countable' (λ a, match a with Byte b => inl b | Class s => inr s end)
    (λ x, match x with inl b => Byte b | inr s => Class s end) _). by intros [].
Defined.
End PrefixAtom.

(** The atoms an expression starts with, and what follows them. *)
Fixpoint collect_prefix (e : Expr.t) (atoms : list PrefixAtom.t) : list PrefixAtom.t * Expr.t :=
  match e with
  | Shared inner => collect_prefix inner atoms
  | U8Seq bytes => (atoms ++ map PrefixAtom.Byte bytes, Epsilon)
  | U8Class set => (atoms ++ [PrefixAtom.Class set], Epsilon)
  | Seq parts =>
      (fix go parts atoms :=
        match parts with
        | [] => (atoms, Epsilon)
        | part :: rest =>
            let '(atoms, remainder) := collect_prefix part atoms in
            match remainder with
            | Epsilon => go rest atoms
            | remainder => (atoms, seq_from_parts (remainder :: rest))
            end
        end) parts atoms
  | other => (atoms, other)
  end.

Definition deterministic_prefix (e : Expr.t) : list PrefixAtom.t * Expr.t := collect_prefix e [].

(** The child of a state under an atom. *)
Abbreviation prefix_table := (gmap (N * PrefixAtom.t) N).

Section compile.
(** [build_bounded_repeat_dfa], which compiles the body with the functions below:
    the recursion is open here and closed in [LexPipeline], where
    [LexPipeline.build_bounded_repeat_dfa] is the function of the code.  It gives
    the direct automaton when there is one; the outer option is a panic. *)
Context (build_bounded_repeat_dfa : Expr.t → N → N → option (option LexDFA.t)).

Definition append_bounded_repeat_expr (append : Nfa.t → N → N → option Nfa.t) (expr : Expr.t) (min max : N)
    (nfa : Nfa.t) (start last : N) : option Nfa.t :=
  if max <? min then Some nfa
  else
    dfa ← build_bounded_repeat_dfa expr min max;
    match dfa with
    | Some dfa => append_dfa_expr dfa nfa start last
    | None =>
        let optional := max - min in
        '(tail_start, rc) ← RepeatCompiler.compile_upto append (RepeatCompiler.power_fuel optional) (RepeatCompiler.new nfa) optional last;
        '(repeat_start, rc) ← RepeatCompiler.compile_exact append (RepeatCompiler.power_fuel min) rc min tail_start;
        Some (Nfa.add_epsilon (RepeatCompiler.nfa rc) start repeat_start)
    end.

(** [for _ in 0..min] *)
Fixpoint append_copies (append : Nfa.t → N → N → option Nfa.t) (count : nat) (nfa : Nfa.t) (current : N) : option (N * Nfa.t) :=
  match count with
  | O => Some (current, nfa)
  | S count =>
      let '(next, nfa) := Nfa.add_state nfa in
      nfa ← append nfa current next;
      append_copies append count nfa next
  end.

Definition append_unbounded_repeat_expr (append : Nfa.t → N → N → option Nfa.t) (expr : Expr.t) (min : N)
    (nfa : Nfa.t) (start last : N) : option Nfa.t :=
  '(current, nfa) ← append_copies append (N.to_nat min) nfa start;
  let '(current, nfa) :=
    if current =? start
    then let '(fresh, nfa) := Nfa.add_state nfa in (fresh, Nfa.add_epsilon nfa start fresh)
    else (current, nfa) in
  let nfa := Nfa.add_epsilon nfa current last in
  let '(loop_state, nfa) := Nfa.add_state nfa in
  nfa ← append nfa current loop_state;
  let nfa := Nfa.add_epsilon nfa loop_state current in
  accepts_empty ← expr_accepts_empty expr;
  Some (if (accepts_empty : bool) then Nfa.add_epsilon nfa loop_state last else nfa).

Fixpoint append_compiled_expr (e : Expr.t) (nfa : Nfa.t) (start last : N) : option Nfa.t :=
  match e with
  | U8Seq bytes => Some (append_byte_sequence_expr bytes nfa start last)
  | U8Class set => Some (Nfa.add_u8set_transition nfa start set last)
  | Dfa d => append_dfa_expr d nfa start last
  | Intersect _ _ => None
  | Seq parts => append_sequence_expr append_compiled_expr last parts nfa start
  | Choice options => append_choice_expr append_compiled_expr options nfa start last
  | Exclude _ _ => None
  | Repeat expr min max =>
      match max with
      | Some max => append_bounded_repeat_expr (append_compiled_expr expr) expr min max nfa start last
      | None => append_unbounded_repeat_expr (append_compiled_expr expr) expr min nfa start last
      end
  | Shared inner => append_compiled_expr inner nfa start last
  | Epsilon => Some (Nfa.add_epsilon nfa start last)
  end.

(** ** The prefix tree of the terminals *)

Definition append_atom (atom : PrefixAtom.t) (nfa : Nfa.t) (state target : N) : option Nfa.t :=
  match atom with
  | PrefixAtom.Byte byte => append_compiled_expr (U8Seq [byte]) nfa state target
  | PrefixAtom.Class set => append_compiled_expr (U8Class set) nfa state target
  end.

Definition follow_atom (st : Nfa.t * prefix_table * N) (atom : PrefixAtom.t) : option (Nfa.t * prefix_table * N) :=
  let '(nfa, transitions, state) := st in
  match transitions !! (state, atom) with
  | Some target => Some (nfa, transitions, target)
  | None =>
      let '(target, nfa) := Nfa.add_state nfa in
      nfa ← append_atom atom nfa state target;
      Some (nfa, <[(state, atom) := target]> transitions, target)
  end.

(** The automaton and the tree, the terminals that end in the tree, the
    terminals with a rest. *)
Definition share_prefix (st : Nfa.t * prefix_table * list (N * N) * list (N * N * Expr.t)) (entry : N * Expr.t)
    : option (Nfa.t * prefix_table * list (N * N) * list (N * N * Expr.t)) :=
  let '(nfa, transitions, finals, opaque) := st in
  let '(group_id, expr) := entry in
  let '(prefix, remainder) := deterministic_prefix expr in
  '(nfa, transitions, state) ← foldM follow_atom (nfa, transitions, 0) prefix;
  match remainder with
  | Epsilon => Some (nfa, transitions, finals ++ [(state, group_id)], opaque)
  | remainder => Some (nfa, transitions, finals, opaque ++ [(state, group_id, remainder)])
  end.

Definition append_opaque (nfa : Nfa.t) (entry : N * N * Expr.t) : option Nfa.t :=
  let '(state, group_id, expr) := entry in
  let '(accept, nfa) := Nfa.add_state nfa in
  nfa ← append_compiled_expr expr nfa state accept;
  Some (Nfa.add_finalizer nfa accept group_id).

Definition append_prefix_shared_expressions (nfa : Nfa.t) (expressions : list (N * Expr.t)) : option Nfa.t :=
  '(nfa, _, finals, opaque) ← foldM share_prefix (nfa, ∅, [], []) expressions;
  let nfa := foldl (λ nfa '(state, group_id), Nfa.add_finalizer nfa state group_id) nfa finals in
  foldM append_opaque nfa opaque.

Definition build_regex_nfa_impl (exprs : list Expr.t) : option Nfa.t :=
  optimized ← mapM optimize exprs;
  append_prefix_shared_expressions (Nfa.new 1) ((λ '(i, e), (as_u32 i, e)) <$> enumerate optimized).

Definition build_regex_nfa (exprs : list Expr.t) : option Nfa.t := build_regex_nfa_impl exprs.
End compile.
