(* ===== verification/LexParts.v ===== *)
(** The fragments of literals, automata, sequences, choices and unbounded
    repetitions, each proved to act as one edge carrying the language of the
    expression. *)

From S2P Require Import Prelude Bits U8Set BitSet CharTransitions LexDfa Lang LexAst LexAstLang LexNfa LexFragment LexCompile.
Import Expr Nfa.

(** An operation that appends a part for [L]: it never fails, never removes a
    state, and is correct while state numbers fit [u32]. *)
Definition good (f : Nfa.t → N → N → option Nfa.t) (L : lang) : Prop := ∀ a s t,
  ∃ a', f a s t = Some a' ∧ num_states a ≤ num_states a' ∧
    (num_states a' ≤ u32_modulus → s < num_states a → t < num_states a → s ≠ t → part a a' s L t).

Lemma good_lang f L L' : (∀ w, L w ↔ L' w) → good f L → good f L'.
Proof.
  intros HL Hf a s t. destruct (Hf a s t) as (a' & ? & ? & Hp). exists a'. split; [done|]. split; [done|].
  intros. eapply part_lang; [done| |exact HL]. auto.
Qed.

Lemma num_add_state a id a' : add_state a = (id, a') → num_states a' = num_states a + 1.
Proof. intros [= <- <-]. unfold num_states. cbn. by rewrite lenN_snoc. Qed.
Lemma num_add_epsilon a s t : num_states (add_epsilon a s t) = num_states a.
Proof. apply lenN_alterN. Qed.
Lemma num_add_transition a s b t : num_states (add_transition a s b t) = num_states a.
Proof. apply lenN_alterN. Qed.

Lemma class_single b w : class_lang (U8Set.single b) w ↔ w = [b].
Proof.
  unfold class_lang, U8Set.single. setoid_rewrite U8SetFacts.contains_from_byte. setoid_rewrite N.eqb_eq. naive_solver.
Qed.

Lemma add_transition_part a s b t : s ≠ t → s < num_states a → t < num_states a → part a (add_transition a s b t) s (lword [b]) t.
Proof.
  intros Hne Hs Ht. eapply part_lang; [done|by apply add_u8set_part|]. intros w. apply class_single.
Qed.

(** * Literals *)

Lemma literal_good bytes : good (λ a s t, Some (append_byte_sequence_expr bytes a s t)) (lword bytes).
Proof.
  induction bytes as [|b bytes IH]; intros a s t; cbn [append_byte_sequence_expr].
  - eexists. split; [done|]. rewrite num_add_epsilon. split; [done|]. intros. by apply add_epsilon_part.
  - destruct bytes as [|b' bytes].
    { eexists. split; [done|]. rewrite num_add_transition. split; [done|]. intros. by apply add_transition_part. }
    destruct (add_state a) as [m a1] eqn:Hadd. pose proof (num_add_state _ _ _ Hadd) as Hn.
    destruct (IH (add_transition a1 s b m) m t) as (a' & Heq & Hle & Hp). rewrite num_add_transition in Hle, Hp.
    exists a'. split; [exact Heq|]. split; [lia|]. intros Hb Hs Ht Hne.
    destruct (add_state_ext a m a1 Hadd ltac:(lia)) as (Hm & _ & _).
    apply (part_lang _ _ _ (lcat (lword [b]) (lword (b' :: bytes)))); [done| |by intros w; apply (lcat_word [b])].
    eapply part_then; [done..|lia|exact Hadd|apply add_transition_part; lia|].
    apply part_tail; [lia|]. apply Hp; lia.
Qed.

(** * Sequences and choices *)

Section append.
Context (append : Expr.t → Nfa.t → N → N → option Nfa.t).

Lemma sequence_good parts : Forall (λ e, good (append e) (denote e)) parts →
  good (λ a s t, append_sequence_expr append t parts a s) (lcats (map denote parts)).
Proof.
  induction 1 as [|e rest He Hrest IH]; intros a s t; cbn [append_sequence_expr].
  - eexists. split; [done|]. rewrite num_add_epsilon. split; [done|]. intros. by apply add_epsilon_part.
  - destruct rest as [|e' rest].
    { destruct (He a s t) as (a' & Ha & Hle & Hp). exists a'. split; [exact Ha|]. split; [done|]. intros.
      eapply part_lang; [done|by apply Hp|]. intros w. symmetry. apply denote_seq_one. }
    destruct (add_state a) as [m a1] eqn:Hadd. pose proof (num_add_state _ _ _ Hadd) as Hn.
    destruct (He a1 s m) as (a2 & -> & Hle & Hp). cbn [mbind option_bind].
    destruct (IH a2 m t) as (a3 & Ha3 & Hle' & Hp'). exists a3. split; [exact Ha3|]. split; [lia|]. intros Hb Hs Ht Hne.
    destruct (add_state_ext a m a1 Hadd ltac:(lia)) as (Hm & _ & _).
    eapply part_then; [done..|lia|exact Hadd|apply Hp; lia|].
    apply part_tail; [lia|]. apply Hp'; lia.
Qed.

Lemma options_good options : Forall (λ e, good (append e) (denote e)) options →
  good (λ a s t, append_options append s t options a) (lors (map denote options)).
Proof.
  induction 1 as [|e rest He Hrest IH]; intros a s t; cbn [append_options].
  - eexists. split; [done|]. split; [done|]. intros. by apply part_none.
  - destruct (He a s t) as (a1 & -> & Hle & Hp). cbn [mbind option_bind].
    destruct (IH a1 s t) as (a2 & Ha2 & Hle' & Hp'). exists a2. split; [exact Ha2|]. split; [lia|]. intros Hb Hs Ht Hne.
    apply (part_or a a1 a2 s (denote e) (lors (map denote rest))); [done..|apply Hp; [lia|done..]|apply Hp'; lia].
Qed.

Lemma choice_good options : options ≠ [] → Forall (λ e, good (append e) (denote e)) options →
  good (append_choice_expr append options) (lors (map denote options)).
Proof. intros Hne H a s t. destruct options as [|e rest]; [done|]. exact (options_good _ H a s t). Qed.
End append.

(** * Unbounded repetitions *)

Lemma lrep_star_cons L u v : L u → lrep L 0 None v → lrep L 0 None (u ++ v).
Proof. intros Hu (n & _ & _ & Hv). exists (S n). split; [lia|]. split; [done|]. by exists u, v. Qed.

Lemma lrep_star_nil L : lrep L 0 None [].
Proof. by exists 0%nat. Qed.

Lemma lrep_star_app L u v : lrep L 0 None u → lrep L 0 None v → lrep L 0 None (u ++ v).
Proof.
  intros (n & _ & _ & Hu) Hv. revert u Hu. induction n as [|n IH]; intros u; cbn [lpow]; [by intros ->|].
  intros (x & y & -> & Hx & Hy). rewrite <-app_assoc. by apply lrep_star_cons, IH.
Qed.

Lemma lrep_min_star L n : lcat (lpow L n) (lrep L 0 None) ≡ lrep L (N.of_nat n) None.
Proof.
  intros w. split.
  - intros (u & v & -> & Hu & (m & _ & _ & Hv)). exists (n + m)%nat. split; [lia|]. split; [done|].
    apply lpow_add. by exists u, v.
  - intros (m & Hm & _ & Hw). replace m with (n + (m - n))%nat in Hw by lia. apply lpow_add in Hw as (u & v & -> & Hu & Hv).
    exists u, v. split; [done|]. split; [done|]. exists (m - n)%nat. split; [lia|done].
Qed.

(** The loop state [l] between [c] and [t]. *)
Inductive loop_edges (c l t : N) (L : lang) (extra : bool) : edges :=
  | loop_exit : loop_edges c l t L extra c leps t
  | loop_body : loop_edges c l t L extra c L l
  | loop_back : loop_edges c l t L extra l leps c
  | loop_last : extra = true → loop_edges c l t L extra l leps t.

Inductive star_edges (c t : N) (L : lang) : edges :=
  | star_again : star_edges c t L c L c
  | star_exit : star_edges c t L c L t.

Lemma loop_paths c l t L extra : c ≠ t → l ≠ c → l ≠ t → ∀ x y w, two c t x → two c t y →
  gpath (loop_edges c l t L extra) x w y ↔ gpath (star_edges c t (lrep L 0 None)) x w y.
Proof.
  intros Hct Hlc Hlt x y w Hx Hy. set (S0 := lrep L 0 None). split.
  - assert (Hto : ∀ R : N → lang, R y [] → (∀ v, R c v → R l v) → (∀ u v, L u → R l v → R c (u ++ v)) →
      (∀ v, R t v → R c v) → (∀ v, R t v → R l v) → gpath (loop_edges c l t L extra) x w y → R x w).
    { intros R H0 H1 H2 H3 H4. apply gpath_to; [exact H0|]. intros p K q [| | |_] u v Hu Hv; try (rewrite Hu; cbn); auto. }
    intros Hp. destruct Hy as [-> | ->].
    + assert (HR : (λ q, if decide (q = t) then lempty else S0) x w).
      { apply Hto; [|..|exact Hp]; repeat case_decide; try done.
        - apply lrep_star_nil.
        - apply lrep_star_cons. }
      cbn in HR. case_decide; [done|]. destruct Hx as [->| ->]; [|done]. eapply gpath_one; [constructor|exact HR].
    + assert (HR : (λ q, if decide (q = t) then leps else S0) x w).
      { apply Hto; [|..|exact Hp]; repeat case_decide; try done.
        - apply lrep_star_cons.
        - intros v ->. apply lrep_star_nil.
        - intros v ->. apply lrep_star_nil. }
      cbn in HR. case_decide as Hxt; [subst x; rewrite HR; constructor|]. destruct Hx as [->| ->]; [|done].
      eapply gpath_one; [apply star_exit|exact HR].
  - assert (Hloop : ∀ u, S0 u → gpath (loop_edges c l t L extra) c u c).
    { intros u (n & _ & _ & Hn). revert u Hn. induction n as [|n IH]; intros u; cbn [lpow]; [intros ->; constructor|].
      intros (v & v' & -> & Hv & Hv'). eapply gpath_step; [apply loop_body|exact Hv|].
      rewrite <-(app_nil_l v'). eapply gpath_step; [apply loop_back|done|]. by apply IH. }
    apply gpath_map. intros p K q u [|] Hu; [by apply Hloop|].
    rewrite <-(app_nil_r u). eapply gpath_snoc; [by apply Hloop|apply loop_exit|done].
Qed.

Lemma frag_edges a a' O (M M' : edges) :
  (∀ x L y, M x L y ↔ M' x L y) → frag a a' O M → frag a a' O M'.
Proof.
  intros H Hf. apply (frag_hide a a' O _ M); [done|done|by left|..].
  - intros x L y Hxy%H. by eapply frag_ends.
  - intros x y w _ _. split; apply gpath_mono; intros p L q; apply H.
Qed.

(** The end of an unbounded repetition, from a state [c] other than the start. *)
Definition append_loop (append : Nfa.t → N → N → option Nfa.t) (extra : bool) (nfa : Nfa.t) (c t : N) : option Nfa.t :=
  let nfa := add_epsilon nfa c t in
  let '(l, nfa) := add_state nfa in
  nfa ← append nfa c l;
  let nfa := add_epsilon nfa l c in
  Some (if extra then add_epsilon nfa l t else nfa).

Lemma loop_good append L extra : good append L → ∀ a c t,
  ∃ a', append_loop append extra a c t = Some a' ∧ num_states a ≤ num_states a' ∧
    (num_states a' ≤ u32_modulus → c < num_states a → t < num_states a → c ≠ t → tail_part a a' c (lrep L 0 None) t).
Proof.
  intros Hf a c t. unfold append_loop. destruct (add_state (add_epsilon a c t)) as [l a1] eqn:Hadd.
  pose proof (num_add_state _ _ _ Hadd) as Hn. rewrite num_add_epsilon in Hn.
  destruct (Hf a1 c l) as (a2 & -> & Hle & Hp). cbn [mbind option_bind]. eexists. split; [done|].
  assert (Hlen : num_states (if extra then add_epsilon (add_epsilon a2 l c) l t else add_epsilon a2 l c) = num_states a2)
    by (destruct extra; rewrite ?num_add_epsilon; done).
  rewrite Hlen. split; [lia|]. intros Hb Hc Ht Hne.
  assert (H0 : frag a a (two c t) no_edges) by (apply frag_nil; intros x [Hx|Hx]; by subst x).
  pose proof (frag_part _ _ _ _ _ c leps t H0 ltac:(by left) ltac:(by right) (add_epsilon_part a c t Hc Ht)) as H1.
  destruct (frag_add_state _ _ _ _ _ _ H1 Hadd) as (Hl & _ & H2); [rewrite num_add_epsilon; lia|].
  rewrite num_add_epsilon in Hl.
  pose proof (frag_part _ _ _ _ _ c L l H2 ltac:(by left; left) ltac:(by right) ltac:(apply Hp; lia)) as H3.
  pose proof (frag_part _ _ _ _ _ l leps c H3 ltac:(by right) ltac:(by left; left) (add_epsilon_part a2 l c ltac:(lia) ltac:(lia))) as H4.
  assert (H5 : frag a (if extra then add_epsilon (add_epsilon a2 l c) l t else add_epsilon a2 l c)
    (λ x, two c t x ∨ x = l) (loop_edges c l t L extra)).
  { destruct extra.
    - eapply frag_edges; [|eapply (frag_part _ _ _ _ _ l leps t); [exact H4|by right|by left; right|apply add_epsilon_part; rewrite num_add_epsilon; lia]].
      intros x K y. split.
      + intros [[[[[]|(-> & -> & ->)]|(-> & -> & ->)]|(-> & -> & ->)]|(-> & -> & ->)]; by constructor.
      + intros []; [left; left; left; by right|left; left; by right|left; by right|by right].
    - eapply frag_edges; [|exact H4]. intros x K y. split.
      + intros [[[[]|(-> & -> & ->)]|(-> & -> & ->)]|(-> & -> & ->)]; by constructor.
      + intros []; [left; left; by right|left; by right|by right|done]. }
  exists (star_edges c t (lrep L 0 None)). split; [|split].
  - eapply frag_hide; [exact H5|by left| |..].
    + intros x [?| ->]; [by left|right; lia].
    + intros x K y []; split; (by left) || by right.
    + apply loop_paths; lia.
  - by intros x K y [].
  - intros w. split.
    + intros Hw. pose proof (gpath_to (star_edges c t (lrep L 0 None)) (λ q, if decide (q = t) then leps else lrep L 0 None) t c w) as Hto.
      cbn in Hto. rewrite (decide_False (P := c = t)) in Hto by done. apply Hto; [by rewrite decide_True|intros x K y []|exact Hw].
      * rewrite (decide_False (P := c = t)) by done. apply lrep_star_app.
      * rewrite (decide_False (P := c = t)), decide_True by done. intros u v Hu ->. by rewrite app_nil_r.
    + intros Hw. eapply gpath_one; [apply star_exit|exact Hw].
Qed.

Lemma tail_lang a a' c K K' t : (∀ w, K w ↔ K' w) → tail_part a a' c K t → tail_part a a' c K' t.
Proof. intros HK (G & ? & ? & Hw). exists G. split; [done|]. split; [done|]. intros w. by rewrite Hw. Qed.

(** The copies before the loop, then what leads to the end. *)
Lemma copies_good append L : good append L → ∀ count a c,
  ∃ c' a1, append_copies append count a c = Some (c', a1) ∧ num_states a ≤ num_states a1 ∧
    (count = O → c' = c ∧ a1 = a) ∧
    (num_states a1 ≤ u32_modulus → count ≠ O → num_states a ≤ c' < num_states a1) ∧
    ∀ a2 K t, num_states a1 ≤ u32_modulus → c < num_states a → t < num_states a → c ≠ t →
      tail_part a1 a2 c' K t → tail_part a a2 c (lcat (lpow L count) K) t ∧
      (count ≠ O → part a a2 c (lcat (lpow L count) K) t).
Proof.
  intros Hf. induction count as [|count IH]; intros a c; cbn [append_copies].
  - exists c, a. split; [done|]. split; [done|]. split; [done|]. split; [done|]. intros a2 K t _ _ _ _ H. split; [|done].
    eapply tail_lang; [|exact H]. intros w. cbn [lpow]. symmetry. apply lcat_eps_l.
  - destruct (add_state a) as [m a1] eqn:Hadd. pose proof (num_add_state _ _ _ Hadd) as Hn.
    destruct (Hf a1 c m) as (a2 & -> & Hle & Hp). cbn [mbind option_bind].
    destruct (IH a2 m) as (c' & a3 & Hc & Hle' & Hz & Hfresh & Htail). exists c', a3. split; [exact Hc|].
    split; [lia|]. split; [done|]. split.
    + intros Hb _. destruct (add_state_ext a m a1 Hadd ltac:(lia)) as (Hm & _ & _).
      destruct count; [destruct (Hz eq_refl) as [-> ->]; lia|]. pose proof (Hfresh Hb ltac:(lia)). lia.
    + intros a4 K t Hb Hc' Ht Hne Hk. destruct (add_state_ext a m a1 Hadd ltac:(lia)) as (Hm & _ & _).
      destruct (Htail a4 K t Hb ltac:(lia) ltac:(lia) ltac:(lia) Hk) as [Htp _].
      assert (Hpart : part a a4 c (lcat (lpow L (S count)) K) t).
      { apply (part_lang _ _ _ (lcat L (lcat (lpow L count) K))); [done| |].
        - eapply part_then; [done..|lia|exact Hadd|apply Hp; lia|exact Htp].
        - intros w. cbn [lpow]. symmetry. apply lcat_assoc. }
      split; [by apply part_tail|done].
Qed.

Lemma unbounded_unfold append e min a s t extra : expr_accepts_empty e = Some extra →
  append_unbounded_repeat_expr append e min a s t =
    '(c, a) ← append_copies append (N.to_nat min) a s;
    if c =? s then let '(fresh, a) := add_state a in append_loop append extra (add_epsilon a s fresh) fresh t
    else append_loop append extra a c t.
Proof.
  intros He. unfold append_unbounded_repeat_expr, append_loop. rewrite He.
  destruct (append_copies _ _ _ _) as [[c a1]|]; [|done]. cbn [mbind option_bind].
  destruct (c =? s).
  - destruct (add_state a1) as [m a2]. cbn [fst snd]. destruct (add_state (add_epsilon _ m t)) as [l a3].
    by destruct (append a3 m l).
  - destruct (add_state (add_epsilon a1 c t)) as [l a3]. by destruct (append a3 c l).
Qed.

Lemma unbounded_good append e min L extra : expr_accepts_empty e = Some extra → good append L →
  good (append_unbounded_repeat_expr append e min) (lrep L min None).
Proof.
  intros He Hf a s t. rewrite (unbounded_unfold append e min a s t extra He).
  destruct (copies_good append L Hf (N.to_nat min) a s) as (c & a1 & -> & Hle & Hz & Hfresh & Htail). cbn [mbind option_bind].
  assert (Hlang : ∀ w, lcat (lpow L (N.to_nat min)) (lrep L 0 None) w ↔ lrep L min None w).
  { intros w. rewrite (lrep_min_star L (N.to_nat min) w). by rewrite N2Nat.id. }
  destruct (N.eqb_spec c s) as [->|Hcs].
  - destruct (add_state a1) as [m a2] eqn:Hadd. pose proof (num_add_state _ _ _ Hadd) as Hn.
    destruct (loop_good append L extra Hf (add_epsilon a2 s m) m t) as (a3 & Ha3 & Hle' & Hp). rewrite num_add_epsilon in Hle', Hp.
    exists a3. split; [exact Ha3|]. split; [lia|]. intros Hb Hs Ht Hne.
    assert (Hmin : N.to_nat min = O).
    { destruct (N.to_nat min); [done|]. pose proof (Hfresh ltac:(lia) ltac:(lia)). lia. }
    destruct (Hz Hmin) as [_ ->]. destruct (add_state_ext a m a2 Hadd ltac:(lia)) as (Hm & _ & _).
    apply (part_lang _ _ _ (lcat leps (lrep L 0 None))); [done| |].
    + eapply part_then; [done..|lia|exact Hadd|apply add_epsilon_part; lia|]. apply Hp; lia.
    + intros w. rewrite <-Hlang, Hmin. done.
  - destruct (loop_good append L extra Hf a1 c t) as (a3 & Ha3 & Hle' & Hp).
    exists a3. split; [exact Ha3|]. split; [lia|]. intros Hb Hs Ht Hne.
    assert (Hmin : N.to_nat min ≠ O) by (intros H0; by destruct (Hz H0)).
    pose proof (Hfresh ltac:(lia) Hmin) as Hc.
    destruct (Htail a3 (lrep L 0 None) t ltac:(lia) Hs Ht Hne (Hp Hb ltac:(lia) ltac:(lia) ltac:(lia))) as [_ Hpart].
    eapply part_lang; [done|exact (Hpart Hmin)|exact Hlang].
Qed.

(** * Automata *)

(** State 0 exists and every edge leads to a state. *)
Definition dfa_ok (d : LexDFA.t) : Prop :=
  0 < LexDFA.num_states d ∧
  ∀ row, row ∈ LexDFA.states d →
    (∀ b t, (b, t) ∈ CharTransitions.iter (LexState.transitions row) → t < LexDFA.num_states d) ∧
    ∀ t, t ∈ LexState.epsilon_transitions row → t < LexDFA.num_states d.

Lemma add_states_spec a n : ∃ ids a', add_states a n = (ids, a') ∧ lenN ids = N.of_nat n ∧
  num_states a' = num_states a + N.of_nat n ∧
  (num_states a' ≤ u32_modulus →
    (∀ i, i < N.of_nat n → ids.[i] = Some (num_states a + i)) ∧
    ∀ a0 O M, frag a0 a O M → frag a0 a' (λ x, O x ∨ num_states a ≤ x < num_states a + N.of_nat n) M).
Proof.
  induction n as [|n (ids & a1 & Heq & Hlen & Hn & Hspec)].
  - exists [], a. split; [done|]. split; [done|]. split; [lia|]. intros _. split; [lia|]. intros a0 O M Hf.
    apply (frag_hide a0 a O _ M); [done|..].
    + intros x [?|?]; [done|lia].
    + intros x Hx. by left; left.
    + intros x L y H. destruct (frag_ends _ _ _ _ _ _ _ Hf H). split; by left.
    + done.
  - unfold add_states in *. rewrite Nat.iter_succ, Heq. destruct (add_state a1) as [m a2] eqn:Hadd.
    pose proof (num_add_state _ _ _ Hadd) as Hn2. exists (ids ++ [m]), a2. split; [done|].
    split; [rewrite lenN_snoc; lia|]. split; [lia|]. intros Hb. destruct (Hspec ltac:(lia)) as [Hids Hfr].
    destruct (add_state_ext a1 m a2 Hadd ltac:(lia)) as (Hm & _ & _). split.
    + intros i Hi. rewrite nthN_snoc, Hlen. destruct (N.eqb_spec i (N.of_nat n)) as [->|]; [f_equal; lia|]. apply Hids. lia.
    + intros a0 O M Hf. destruct (frag_add_state _ _ _ _ _ _ (Hfr _ _ _ Hf) Hadd ltac:(lia)) as (_ & _ & Hf2).
      apply (frag_hide a0 a2 _ _ M _ Hf2).
      * intros x [Hx|Hx]; [by left; left|]. destruct (decide (x = m)); [by right|]. left; right. lia.
      * intros x [[Hx|Hx]|Hx]; left; [by left|right; lia|right; lia].
      * intros x L y H. destruct (frag_ends _ _ _ _ _ _ _ Hf2 H) as [[Hx|Hx] [Hy|Hy]]; destruct (frag_ends _ _ _ _ _ _ _ Hf H); split; by left.
      * done.
Qed.

(** A loop that adds edges between visible states. *)
Lemma frag_list {A} a (O : N → Prop) (C : Prop) (step : Nfa.t → A → option Nfa.t) (E : A → edges) l :
  (∀ nfa x, x ∈ l → ∃ nfa', step nfa x = Some nfa' ∧ num_states nfa' = num_states nfa ∧
    (C → ∀ M, frag a nfa O M → frag a nfa' O (eor M (E x)))) →
  ∀ nfa, ∃ nfa', foldM step nfa l = Some nfa' ∧ num_states nfa' = num_states nfa ∧
    (C → ∀ M, frag a nfa O M → frag a nfa' O (eor M (λ p K q, ∃ x, x ∈ l ∧ E x p K q))).
Proof.
  induction l as [|x l IH]; intros Hstep nfa; cbn [foldM].
  - exists nfa. split; [done|]. split; [done|]. intros _ M Hf. eapply frag_edges; [|exact Hf]. intros p K q. split; [by left|].
    intros [?|(x & Hx & _)]; [done|]. by apply elem_of_nil in Hx.
  - destruct (Hstep nfa x ltac:(by left)) as (n1 & -> & Hn1 & Hf1). cbn [mbind option_bind].
    destruct (IH ltac:(intros; apply Hstep; by right) n1) as (n2 & Hn2 & Hlen & Hf2). exists n2. split; [exact Hn2|]. split; [congruence|].
    intros HC M Hf. eapply frag_edges; [|exact (Hf2 HC _ (Hf1 HC _ Hf))]. intros p K q. unfold eor.
    setoid_rewrite elem_of_cons. split.
    + intros [[?|?]|(y & Hy & ?)]; [by left|right; exists x; auto|right; exists y; auto].
    + intros [?|(y & [->|Hy] & ?)]; [by left; left|by left; right|right; eauto].
Qed.

(** The rows of the automaton, moved to the states from [base] on. *)
Inductive row_edges (base t i : N) (row : LexState.t) : edges :=
  | row_byte b u : (b, u) ∈ CharTransitions.iter (LexState.transitions row) → row_edges base t i row (base + i) (class_lang (U8Set.single b)) (base + u)
  | row_epsilon u : u ∈ LexState.epsilon_transitions row → row_edges base t i row (base + i) leps (base + u)
  | row_final : BitSet.is_empty (LexState.finalizers row) = false → row_edges base t i row (base + i) leps t.

Definition dfa_graph (base s t : N) (d : LexDFA.t) : edges :=
  eor (edge1 s leps base) (λ p K q, ∃ e, e ∈ enumerate (LexDFA.states d) ∧ row_edges base t e.1 e.2 p K q).

Lemma dfa_graph_paths base s t d w : s < base → t < base → s ≠ t →
  gpath (dfa_graph base s t d) s w t ↔ dfa_lang d w.
Proof.
  intros Hs Ht Hne. split.
  - intros Hp. set (R := λ (p : N) (v : list N), (p = t → v = []) ∧ (p = s → dfa_lang d v) ∧
      ∀ i, p = base + i → ∃ j row, gpath (dfa_edge d) i v j ∧ (LexDFA.states d).[j] = Some row ∧ BitSet.is_empty (LexState.finalizers row) = false).
    enough (HR : R s w) by (destruct HR as (_ & HR & _); by apply HR). revert Hp. apply gpath_to.
    + split; [done|]. split; [congruence|lia].
    + intros p K q [(-> & -> & ->)|([i row] & He & Hrow)] u v Hu (Hv1 & Hv2 & Hv3).
      * rewrite Hu. split; [congruence|]. split; [|lia]. intros _. destruct (Hv3 0 ltac:(lia)) as (j & row & Hj & ? & ?). by exists j, row.
      * apply elem_of_enumerate in He. cbn [fst snd] in *.
        assert (Hp : p = base + i) by (by destruct Hrow). split; [lia|]. split; [lia|]. intros i' Hi'. assert (i' = i) as -> by lia.
        destruct Hrow as [b z Hin|z Hin|Hfin].
        -- destruct (Hv3 z ltac:(lia)) as (j & row' & Hj & ? & ?). exists j, row'. split; [|done].
           apply class_single in Hu as ->. eapply gpath_step; [by eapply dfa_byte|done|exact Hj].
        -- destruct (Hv3 z ltac:(lia)) as (j & row' & Hj & ? & ?). exists j, row'. split; [|done].
           eapply gpath_step; [by eapply dfa_epsilon|exact Hu|exact Hj].
        -- rewrite Hu, (Hv1 eq_refl). exists i, row. split; [constructor|done].
  - intros (j & row & Hp & Hrow & Hfin).
    assert (Hwalk : ∀ i v j, gpath (dfa_edge d) i v j → gpath (dfa_graph base s t d) (base + i) v (base + j)).
    { intros i v j'. induction 1 as [i|i L z k u v' HE Hu _ IH]; [constructor|]. destruct HE as [r b z Hr Hin|r z Hr Hin];
        (eapply gpath_step; [right; exists (i, r); split; [by apply elem_of_enumerate|by constructor]| |exact IH]); [by apply class_single|exact Hu]. }
    rewrite <-(app_nil_l w). eapply gpath_step; [left; split; [done|split; reflexivity]|done|].
    rewrite <-(app_nil_r w). eapply gpath_snoc; [replace base with (base + 0) at 2 by lia; by apply Hwalk| |by instantiate (1 := leps)].
    right. exists (j, row). split; [by apply elem_of_enumerate|]. by constructor.
Qed.

Lemma dfa_row_step a O (C : Prop) ids base t d i row :
  dfa_ok d → lenN ids = LexDFA.num_states d → (LexDFA.states d).[i] = Some row →
  (C → (∀ i, i < LexDFA.num_states d → ids.[i] = Some (base + i)) ∧ (∀ i, i < LexDFA.num_states d → O (base + i)) ∧ O t) →
  ∀ nfa, ∃ nfa', append_dfa_state ids t nfa (i, row) = Some nfa' ∧ num_states nfa' = num_states nfa ∧
    (C → ∀ M, frag a nfa O M → frag a nfa' O (eor M (row_edges base t i row))).
Proof.
  intros [_ Hok] Hlen Hrow HC nfa. pose proof (nthN_lt _ _ _ Hrow) as Hi. fold (LexDFA.num_states d) in Hi.
  destruct (Hok row ltac:(apply nthN_elem_of; by exists i)) as [Hbytes Heps].
  assert (Hids : ∀ u, u < LexDFA.num_states d → ∃ m, ids.[u] = Some m ∧ (C → m = base + u)).
  { intros u Hu. destruct (proj1 (nthN_Some_lt ids u) ltac:(lia)) as [m Hm]. exists m. split; [done|]. intros Hc.
    destruct (HC Hc) as [H _]. rewrite H in Hm by done. congruence. }
  destruct (Hids i Hi) as (m & Hm & Hmb). unfold append_dfa_state. rewrite Hm. cbn [mbind option_bind].
  destruct (frag_list a O C (λ nfa '(byte, target), mapped ← ids.[target]; Some (add_transition nfa m byte mapped))
    (λ e, edge1 (base + i) (class_lang (U8Set.single e.1)) (base + e.2)) (CharTransitions.iter (LexState.transitions row))) with (nfa := nfa) as (n1 & -> & Hn1 & Hf1).
  { intros n0 [b u] Hin. pose proof (Hbytes b u Hin) as Hu. destruct (Hids u Hu) as (mu & -> & Hmu). cbn [mbind option_bind].
    eexists. split; [done|]. split; [apply num_add_transition|]. intros Hc M Hf. rewrite (Hmb Hc), (Hmu Hc). cbn [fst snd].
    destruct (HC Hc) as (_ & HO & _). eapply frag_part; [exact Hf|by apply HO|by apply HO|].
    apply add_u8set_part; eapply frag_range; try exact Hf; by apply HO. }
  cbn [mbind option_bind].
  destruct (frag_list a O C (λ nfa target, mapped ← ids.[target]; Some (add_epsilon nfa m mapped))
    (λ u, edge1 (base + i) leps (base + u)) (LexState.epsilon_transitions row)) with (nfa := n1) as (n2 & -> & Hn2 & Hf2).
  { intros n0 u Hin. pose proof (Heps u Hin) as Hu. destruct (Hids u Hu) as (mu & -> & Hmu). cbn [mbind option_bind].
    eexists. split; [done|]. split; [apply num_add_epsilon|]. intros Hc M Hf. rewrite (Hmb Hc), (Hmu Hc).
    destruct (HC Hc) as (_ & HO & _). eapply frag_part; [exact Hf|by apply HO|by apply HO|].
    apply add_epsilon_part; eapply frag_range; try exact Hf; by apply HO. }
  cbn [mbind option_bind]. eexists. split; [done|]. split; [destruct (BitSet.is_empty _); rewrite ?num_add_epsilon; congruence|].
  intros Hc M Hf. specialize (Hf2 Hc _ (Hf1 Hc _ Hf)). destruct (HC Hc) as (_ & HO & HOt). rewrite (Hmb Hc).
  destruct (BitSet.is_empty (LexState.finalizers row)) eqn:Efin.
  - eapply frag_edges; [|exact Hf2]. intros p K q. unfold eor. split.
    + intros [[?|([b u] & Hin & -> & -> & ->)]|(u & Hin & -> & -> & ->)]; [by left|right; by constructor..].
    + intros [?|[b u Hin|u Hin|?]]; [by left; left| | |congruence].
      * left; right. by exists (b, u).
      * right. by exists u.
  - eapply frag_edges; [|eapply (frag_part _ _ _ _ _ (base + i) leps t); [exact Hf2|by apply HO|done|]].
    + intros p K q. unfold eor. split.
      * intros [[[?|([b u] & Hin & -> & -> & ->)]|(u & Hin & -> & -> & ->)]|(-> & -> & ->)]; [by left|right; by constructor..].
      * intros [?|[b u Hin|u Hin|?]]; [by left; left; left| | |by right].
        -- left; left; right. by exists (b, u).
        -- left; right. by exists u.
    + apply add_epsilon_part; eapply frag_range; try exact Hf2; [by apply HO|done].
Qed.

Lemma dfa_good d : dfa_ok d → good (append_dfa_expr d) (dfa_lang d).
Proof.
  intros Hok a s t. unfold append_dfa_expr.
  destruct (add_states_spec a (length (LexDFA.states d))) as (ids & a1 & -> & Hlen & Hn & Hspec).
  change (N.of_nat (length (LexDFA.states d))) with (LexDFA.num_states d) in *.
  destruct (proj1 (nthN_Some_lt ids 0)) as [m0 Hm0]; [rewrite Hlen; apply Hok|]. rewrite Hm0. cbn [mbind option_bind].
  set (C := num_states a1 ≤ u32_modulus ∧ s < num_states a ∧ t < num_states a ∧ s ≠ t).
  set (O := λ x, two s t x ∨ num_states a ≤ x < num_states a + LexDFA.num_states d).
  destruct (frag_list a O C (append_dfa_state ids t) (λ e, row_edges (num_states a) t e.1 e.2) (enumerate (LexDFA.states d)))
    with (nfa := add_epsilon a1 s m0) as (a2 & -> & Hn2 & Hf2).
  { intros nfa [i row] He. apply elem_of_enumerate in He. apply (dfa_row_step a O C ids (num_states a) t d i row Hok Hlen He).
    intros (Hb & _). destruct (Hspec Hb) as [Hids _]. split; [done|]. split; [intros j Hj; right; lia|by left; right]. }
  rewrite num_add_epsilon in Hn2. eexists. split; [done|]. split; [lia|]. intros Hb Hs Ht Hne. rewrite Hn2 in Hb.
  assert (HC : C) by done. destruct (Hspec Hb) as [Hids Hfr]. rewrite (Hids 0) in Hm0 by (by apply Hok). injection Hm0 as <-. rewrite N.add_0_r in Hf2.
  assert (H0 : frag a a (two s t) no_edges) by (apply frag_nil; intros x [Hx|Hx]; by subst x).
  pose proof (Hfr _ _ _ H0) as H1. fold O in H1. destruct Hok as [Hpos Hok].
  assert (H2 := frag_part _ _ _ _ _ s leps (num_states a) H1 ltac:(by left; left) ltac:(right; lia) (add_epsilon_part a1 s (num_states a) ltac:(lia) ltac:(lia))).
  specialize (Hf2 HC _ H2).
  eapply (frag_to_part a a2 O (dfa_graph (num_states a) s t d)); [|done|by left; left|by left; right|..].
  - eapply frag_edges; [|exact Hf2]. intros p K q. unfold dfa_graph, eor. split; [intros [[[]|?]|?]; auto|intros [?|?]; auto].
  - intros x [?|?]; [by left|right; lia].
  - intros x K y [(-> & _ & ->)|([i row] & _ & Hrow)]; [lia|]. destruct Hrow; lia.
  - intros w. apply dfa_graph_paths; [lia..|done].
Qed.
