(* ===== verification/LexRepeat.v ===== *)
(** The shared fragments of a bounded repetition: states reused through the
    caches of the repeat compiler lead to the end along the number of copies
    they stand for. *)

From S2P Require Import Prelude Bits U8Set BitSet CharTransitions LexDfa Lang LexAst LexAstLang LexNfa LexFragment LexCompile LexParts.
Import Expr Nfa.

(** * Powers of two *)

Lemma highest_power_spec n : 0 < n →
  ∃ j, highest_power_of_two_leq n = 2 ^ N.of_nat j ∧ 2 ^ N.of_nat j ≤ n < 2 * 2 ^ N.of_nat j.
Proof.
  intros Hn. exists (N.to_nat (N.log2 n)). rewrite N2Nat.id. unfold highest_power_of_two_leq.
  rewrite N.shiftl_1_l. split; [done|]. pose proof (N.log2_spec n Hn) as [? Hs]. by rewrite N.pow_succ_r' in Hs.
Qed.

Lemma size_nat_bound n : n < 2 ^ N.of_nat (N.size_nat n).
Proof.
  destruct (N.eq_dec n 0) as [->|Hn]; [done|]. replace (N.of_nat (N.size_nat n)) with (N.size n).
  - apply N.size_gt.
  - destruct n as [|p]; [done|]. cbn [N.size N.size_nat]. clear Hn.
    induction p as [p IH|p IH|]; cbn [Pos.size Pos.size_nat]; rewrite ?Nat2N.inj_succ, <-?IH; lia.
Qed.

Lemma size_nat_pow2 j : (N.size_nat (2 ^ N.of_nat j) = S j)%nat.
Proof.
  induction j as [|j IH]; [done|]. replace (2 ^ N.of_nat (S j)) with (2 * 2 ^ N.of_nat j) by (by rewrite Nat2N.inj_succ, N.pow_succ_r').
  destruct (2 ^ N.of_nat j) as [|p] eqn:E; [by apply N.pow_nonzero in E|]. change (S (Pos.size_nat p) = S (S j)). change (Pos.size_nat p = S j) in IH. by rewrite IH.
Qed.

(** * Between zero and [n] copies *)

Lemma upto_split L m n w : m ≤ n →
  lrep L 0 (Some n) w ↔ lrep L 0 (Some (m - 1)) w ∨ lcat (lpow L (N.to_nat m)) (lrep L 0 (Some (n - m))) w ∨ (m = 0 ∧ lrep L 0 (Some n) w).
Proof.
  intros Hm. split.
  - intros (k & _ & Hk & Hw). destruct (N.eq_dec m 0) as [->|Hm0].
    { right; right. split; [done|]. exists k. split; [lia|]. split; [lia|done]. }
    destruct (decide (N.of_nat k < m)) as [Hlt|Hge].
    + left. exists k. split; [lia|]. split; [lia|done].
    + right; left. replace k with (N.to_nat m + (k - N.to_nat m))%nat in Hw by lia.
      apply lpow_add in Hw as (u & v & -> & Hu & Hv). exists u, v. split; [done|]. split; [done|].
      exists (k - N.to_nat m)%nat. split; [lia|]. split; [lia|done].
  - intros [(k & _ & Hk & Hw)|[(u & v & -> & Hu & (k & _ & Hk & Hv))|[_ ?]]]; [|..|done].
    + exists k. split; [lia|]. split; [lia|done].
    + exists (N.to_nat m + k)%nat. split; [lia|]. split; [lia|]. apply lpow_add. by exists u, v.
Qed.

Lemma lrep_exact_upto L n m : lcat (lpow L (N.to_nat n)) (lrep L 0 (Some m)) ≡ lrep L n (Some (n + m)).
Proof.
  intros w. split.
  - intros (u & v & -> & Hu & (k & _ & Hk & Hv)). exists (N.to_nat n + k)%nat. split; [lia|]. split; [lia|].
    apply lpow_add. by exists u, v.
  - intros (k & Hn & Hk & Hw). replace k with (N.to_nat n + (k - N.to_nat n))%nat in Hw by lia.
    apply lpow_add in Hw as (u & v & -> & Hu & Hv). exists u, v. split; [done|]. split; [done|].
    exists (k - N.to_nat n)%nat. split; [lia|]. split; [lia|done].
Qed.

Section repeat.
Context (append : Nfa.t → N → N → option Nfa.t) (L : lang) (Hgood : good append L).
Context (a : Nfa.t) (s t : N).
Context (Hs : s < num_states a) (Ht : t < num_states a) (Hne : s ≠ t).

Abbreviation nfa := RepeatCompiler.nfa.
Abbreviation power_cache := RepeatCompiler.power_cache.
Abbreviation upto_cache := RepeatCompiler.upto_cache.

Implicit Types (D : N → Prop) (P : list N) (M : edges) (rc : RepeatCompiler.t).

(** The words from a state to the end. *)
Definition to_end M (x : N) : lang := λ w, gpath M x w t.

(** [D]: the states whose edges are complete.  [P]: the states still to be
    completed. *)
Record rc_inv D P M rc : Prop := {
  rc_frag : frag a (nfa rc) (λ x, x = s ∨ D x ∨ x ∈ P) M;
  rc_fresh : ∀ x, D x ∨ x ∈ P → x = t ∨ num_states a ≤ x;
  rc_t : D t;
  rc_disj : ∀ x, D x → x ∉ P;
  rc_edges : ∀ x K y, M x K y → x ≠ s ∧ x ≠ t ∧ D y;
  rc_power : ∀ k x q, power_cache rc !! (k, x) = Some q →
    D x ∧ D q ∧ ∀ w, to_end M q w ↔ lcat (lpow L (N.to_nat k)) (to_end M x) w;
  rc_upto : ∀ k x q, upto_cache rc !! (k, x) = Some q →
    D x ∧ D q ∧ ∀ w, to_end M q w ↔ lcat (lrep L 0 (Some k)) (to_end M x) w;
}.

(** Completed states keep their words, and the states of [P] get no edge. *)
Record grows P D M D' M' : Prop := {
  g_done : ∀ x, D x → D' x;
  g_words : ∀ x w, D x → to_end M' x w ↔ to_end M x w;
  g_edges : ∀ p K y, p ∈ P → M' p K y ↔ M p K y;
}.

Lemma grows_refl P D M : grows P D M D M.
Proof. done. Qed.

Lemma grows_trans P D M D1 M1 D2 M2 : grows P D M D1 M1 → grows P D1 M1 D2 M2 → grows P D M D2 M2.
Proof.
  intros [H1 H2 H3] [H4 H5 H6]. split; [auto|..].
  - intros x w Hx. by rewrite H5, H2 by auto.
  - intros p K y Hp. by rewrite H6, H3.
Qed.

Lemma rc_not_s D P M rc x : rc_inv D P M rc → D x ∨ x ∈ P → x ≠ s.
Proof using All. intros Hi Hx ->. destruct (rc_fresh _ _ _ _ Hi s Hx); [done|lia]. Qed.

(** Edges of a state that is not complete do not change the completed ones. *)
Lemma closed_paths D M p K q x w :
  (∀ x K y, M x K y → D y) → ¬ D p → D x → to_end (eor M (edge1 p K q)) x w ↔ to_end M x w.
Proof.
  intros HM Hp Hx. split; [|apply gpath_mono; by left]. unfold to_end. intros Hpath.
  clear -HM Hp Hx Hpath. induction Hpath as [x|x J z y u v [H|(-> & _ & _)] Hu _ IH]; [constructor| |done].
  eapply gpath_step; [exact H|exact Hu|]. apply IH. by eapply HM.
Qed.

(** A part is appended from a state still to be completed. *)
Lemma rc_append D P M rc p K q a2 :
  rc_inv D P M rc → p ∈ P → D q → part (nfa rc) a2 p K q →
  rc_inv D P (eor M (edge1 p K q)) (RepeatCompiler.set_nfa rc a2) ∧
  ∀ P', p ∉ P' → grows P' D M D (eor M (edge1 p K q)).
Proof using All.
  intros Hi Hp Hq Hpart. pose proof (rc_not_s _ _ _ _ p Hi (or_intror Hp)) as Hps.
  assert (HpD : ¬ D p) by (intros HD; by apply (rc_disj _ _ _ _ Hi p)).
  assert (Hg : ∀ x w, D x → to_end (eor M (edge1 p K q)) x w ↔ to_end M x w).
  { intros x w Hx. apply (closed_paths D); [|done..]. intros y J z H. by apply (rc_edges _ _ _ _ Hi) in H as (_ & _ & ?). }
  split; [|intros P' Hp'; split; [done|done|]; intros p' J y Hin; split; [intros [?|(-> & _)]; done|by left]].
  destruct Hi as [Hf Hfr HtD Hd He Hpow Hup]. split; try done.
  - eapply frag_part; [exact Hf|by right; right|by right; left|exact Hpart].
  - intros x J y [H|(-> & _ & ->)]; [by apply (He x J)|]. split; [done|]. split; [|done]. by intros ->.
  - intros k x y Hc. destruct (Hpow k x y Hc) as (Hx & Hy & Hw). split; [done|]. split; [done|]. intros w.
    rewrite Hg by done. rewrite Hw. split; apply lcat_mono; try done; intros v; by apply Hg.
  - intros k x y Hc. destruct (Hup k x y Hc) as (Hx & Hy & Hw). split; [done|]. split; [done|]. intros w.
    rewrite Hg by done. rewrite Hw. split; apply lcat_mono; try done; intros v; by apply Hg.
Qed.

Lemma rc_add_state D P M rc m a2 :
  rc_inv D P M rc → add_state (nfa rc) = (m, a2) → num_states (nfa rc) < u32_modulus →
  rc_inv D (m :: P) M (RepeatCompiler.set_nfa rc a2) ∧ ¬ D m ∧ m ∉ P ∧ ∀ K y, ¬ M m K y.
Proof using All.
  intros [Hf Hfr HtD Hd He Hpow Hup] Hadd Hlt.
  destruct (frag_add_state _ _ _ _ _ _ Hf Hadd Hlt) as (-> & Hn & Hf2).
  pose proof (frag_len _ _ _ _ Hf) as Hle.
  assert (HmD : ¬ D (num_states (nfa rc))).
  { intros HD. assert (num_states (nfa rc) < num_states (nfa rc)); [|lia]. eapply frag_range; [exact Hf|]. by right; left. }
  assert (HmP : num_states (nfa rc) ∉ P).
  { intros HP. assert (num_states (nfa rc) < num_states (nfa rc)); [|lia]. eapply frag_range; [exact Hf|]. by right; right. }
  split; [split|split; [done|split; [done|]]]; try done.
  - apply (frag_hide _ _ _ _ M _ Hf2).
    + intros x [?|[?|[->|?]%elem_of_cons]]; [by left; left|by left; right; left|by right|by left; right; right].
    + intros x [[?|[?|?]]| ->]; left; [by left|by right; left|right; right; by right|right; right; by left].
    + intros x K y H. destruct (frag_ends _ _ _ _ _ _ _ Hf H) as [[?|[?|?]] [?|[?|?]]];
        split; (by left) || (right; by left) || (right; right; by right).
    + done.
  - intros x [Hx|[->|Hx]%elem_of_cons]; [by apply Hfr; left|right; lia|by apply Hfr; right].
  - intros x Hx. rewrite not_elem_of_cons. split; [by intros ->|by apply Hd].
  - intros K y H. destruct (frag_ends _ _ _ _ _ _ _ Hf H) as [Hx _].
    assert (num_states (nfa rc) < num_states (nfa rc)); [|lia]. by eapply frag_range.
Qed.

(** A completed state. *)
Lemma rc_done D p P M rc : rc_inv D (p :: P) M rc → p ∉ P → rc_inv (λ x, D x ∨ x = p) P M rc.
Proof using All.
  intros [Hf Hfr HtD Hd He Hpow Hup] Hp. split.
  - apply (frag_hide _ _ _ _ M _ Hf).
    + intros x [?|[[?| ->]|?]]; [by left|by right; left|right; right; by left|right; right; by right].
    + intros x [?|[?|[->|?]%elem_of_cons]]; left; [by left|by right; left; left|by right; left; right|by right; right].
    + intros x K y H. destruct (frag_ends _ _ _ _ _ _ _ Hf H) as [Hx Hy].
      assert (Hin : ∀ z, z = s ∨ D z ∨ z ∈ p :: P → z = s ∨ (D z ∨ z = p) ∨ z ∈ P)
        by (intros z [?|[?|[->|?]%elem_of_cons]]; [by left|by right; left; left|by right; left; right|by right; right]).
      split; by apply Hin.
    + done.
  - intros x [[?| ->]|?]; apply Hfr; [by left|right; by left|right; by right].
  - by left.
  - intros x [Hx| ->]; [|done]. apply Hd in Hx. rewrite not_elem_of_cons in Hx. tauto.
  - intros x K y H. destruct (He x K y H) as (? & ? & ?). split; [done|]. split; [done|by left].
  - intros k x q Hc. destruct (Hpow k x q Hc) as (? & ? & ?). split; [by left|]. split; [by left|done].
  - intros k x q Hc. destruct (Hup k x q Hc) as (? & ? & ?). split; [by left|]. split; [by left|done].
Qed.

(** What a state returned for a number of copies stands for. *)
Definition compiled (K : lang) (rc : RepeatCompiler.t) (last : N) (r : option (N * RepeatCompiler.t)) : Prop :=
  ∃ q rc', r = Some (q, rc') ∧ num_states (nfa rc) ≤ num_states (nfa rc') ∧
    (num_states (nfa rc') ≤ u32_modulus → ∀ D P M, rc_inv D P M rc → D last →
      ∃ D' M', rc_inv D' P M' rc' ∧ grows P D M D' M' ∧ D' q ∧
        ∀ w, to_end M' q w ↔ lcat K (to_end M' last) w).

Lemma compiled_lang K K' rc last r : (∀ w, K w ↔ K' w) → compiled K rc last r → compiled K' rc last r.
Proof.
  intros HK (q & rc' & Hr & Hle & Hspec). exists q, rc'. split; [done|]. split; [done|]. intros Hb D P M Hi Hl.
  destruct (Hspec Hb D P M Hi Hl) as (D' & M' & H1 & H2 & H3 & H4). exists D', M'. split; [done|]. split; [done|].
  split; [done|]. intros w. rewrite H4. split; apply lcat_mono; auto; intros u; apply HK.
Qed.

(** Copies before copies. *)
Lemma compiled_then K J rc last r (f : N → RepeatCompiler.t → option (N * RepeatCompiler.t)) :
  compiled K rc last r → (∀ rc' last', compiled J rc' last' (f last' rc')) →
  compiled (lcat J K) rc last ('(q, rc') ← r; f q rc').
Proof.
  intros (q & rc1 & -> & Hle & Hspec) Hf. destruct (Hf rc1 q) as (q2 & rc2 & Hr2 & Hle2 & Hspec2).
  exists q2, rc2. split; [exact Hr2|]. split; [lia|]. intros Hb D P M Hi Hl.
  destruct (Hspec ltac:(lia) D P M Hi Hl) as (D1 & M1 & Hi1 & Hg1 & Hq1 & Hw1).
  destruct (Hspec2 Hb D1 P M1 Hi1 Hq1) as (D2 & M2 & Hi2 & Hg2 & Hq2 & Hw2).
  exists D2, M2. split; [done|]. split; [by eapply grows_trans|]. split; [done|]. intros w. rewrite Hw2.
  rewrite (lcat_assoc J K (to_end M2 last) w). split; apply lcat_mono; try done; intros v Hv.
  - rewrite (g_words _ _ _ _ _ Hg2) in Hv by done. apply Hw1 in Hv. eapply lcat_mono; [..|exact Hv]; [done|]. intros u Hu.
    rewrite (g_words _ _ _ _ _ Hg2) by (by apply Hg1). done.
  - rewrite (g_words _ _ _ _ _ Hg2) by done. apply Hw1. eapply lcat_mono; [..|exact Hv]; [done|]. intros u Hu.
    rewrite (g_words _ _ _ _ _ Hg2) in Hu by (by apply Hg1). done.
Qed.

(** Remembering a start state in the cache of powers. *)
Definition remember_power (k last : N) (r : option (N * RepeatCompiler.t)) : option (N * RepeatCompiler.t) :=
  '(start, rc) ← r;
  Some (start, RepeatCompiler.mk (nfa rc) (<[(k, last) := start]> (power_cache rc)) (upto_cache rc)).

Lemma compiled_remember k rc last r :
  compiled (lpow L (N.to_nat k)) rc last r → compiled (lpow L (N.to_nat k)) rc last (remember_power k last r).
Proof.
  intros (q & rc' & -> & Hle & Hspec). eexists q, _. split; [reflexivity|]. split; [exact Hle|]. cbn. intros Hb D P M Hi Hl.
  destruct (Hspec Hb D P M Hi Hl) as (D' & M' & [Hf Hfr HtD Hd He Hpow Hup] & Hg & Hq & Hw). exists D', M'.
  split; [split; try done|done]. intros k' x y. cbn. rewrite lookup_insert_Some. intros [[[= <- <-] <-]|[_ Hc]]; [|by apply Hpow].
  split; [by apply Hg|]. done.
Qed.

Lemma compile_power_correct j fuel : (j < fuel)%nat → ∀ rc last,
  compiled (lpow L (N.to_nat (2 ^ N.of_nat j))) rc last (RepeatCompiler.compile_power append fuel rc (2 ^ N.of_nat j) last).
Proof using All.
  revert j. induction fuel as [|fuel IH]; intros j Hj rc last; [lia|]. cbn [RepeatCompiler.compile_power].
  destruct (power_cache rc !! (2 ^ N.of_nat j, last)) as [q|] eqn:Hc.
  { exists q, rc. split; [done|]. split; [done|]. intros _ D P M Hi Hl. exists D, M.
    destruct (rc_power _ _ _ _ Hi _ _ _ Hc) as (_ & Hq & Hw). done. }
  apply compiled_remember. destruct j as [|j].
  - cbn [N.of_nat N.pow N.eqb Pos.eqb]. change (2 ^ 0 =? 1) with true. cbn iota.
    destruct (add_state (nfa rc)) as [m a1] eqn:Hadd. pose proof (num_add_state _ _ _ Hadd) as Hn.
    destruct (Hgood a1 m last) as (a2 & -> & Hle & Hp). cbn [mbind option_bind].
    eexists m, _. split; [done|]. cbn. split; [lia|]. intros Hb D P M Hi Hl.
    destruct (rc_add_state _ _ _ _ _ _ Hi Hadd ltac:(lia)) as (Hi1 & HmD & HmP & Hout).
    assert (Hll : last < num_states a1) by (eapply (frag_range _ _ _ _ _ (rc_frag _ _ _ _ Hi1)); by right; left).
    assert (Hml : m < num_states a1) by (eapply (frag_range _ _ _ _ _ (rc_frag _ _ _ _ Hi1)); right; right; by left).
    destruct (rc_append D (m :: P) M _ m L last a2 Hi1 ltac:(by left) Hl) as (Hi2 & Hg).
    { apply Hp; [lia|done..|]. by intros ->. }
    exists (λ x, D x ∨ x = m), (eor M (edge1 m L last)). split; [exact (rc_done _ _ _ _ _ Hi2 HmP)|].
    specialize (Hg P HmP). split; [split; [by left|apply Hg|apply Hg]|]. split; [by right|]. intros w.
    assert (Hone : to_end (eor M (edge1 m L last)) m w ↔ lcat L (to_end (eor M (edge1 m L last)) last) w).
    { split.
      - intros [[-> _]|(K & z & u & v & -> & [H|(_ & -> & ->)] & Hu & Hv)]%gpath_inv; [by destruct (HmD (rc_t _ _ _ _ Hi))|by apply Hout in H|].
        by exists u, v.
      - intros (u & v & -> & Hu & Hv). eapply gpath_step; [by right|exact Hu|exact Hv]. }
    rewrite Hone. split; apply lcat_mono; try done; intros u; apply (lpow_1 L u).
  - replace (2 ^ N.of_nat (S j)) with (2 * 2 ^ N.of_nat j) by (rewrite Nat2N.inj_succ, N.pow_succ_r'; lia).
    pose proof (N.pow_nonzero 2 (N.of_nat j) ltac:(lia)) as Hpos.
    rewrite (proj2 (N.eqb_neq _ 1)) by lia. replace (2 * 2 ^ N.of_nat j / 2) with (2 ^ N.of_nat j) by (rewrite N.mul_comm, N.div_mul; lia).
    eapply compiled_lang; [|apply compiled_then; [apply IH; lia|intros; apply IH; lia]].
    intros w. rewrite <-(lpow_add L _ _ w). by replace (N.to_nat (2 * 2 ^ N.of_nat j)) with (N.to_nat (2 ^ N.of_nat j) + N.to_nat (2 ^ N.of_nat j))%nat by lia.
Qed.

Lemma compile_power_highest n rc last : 0 < n →
  compiled (lpow L (N.to_nat (highest_power_of_two_leq n))) rc last
    (RepeatCompiler.compile_power append (RepeatCompiler.power_fuel (highest_power_of_two_leq n)) rc (highest_power_of_two_leq n) last).
Proof using All.
  intros Hn. destruct (highest_power_spec n Hn) as (j & -> & _). apply compile_power_correct.
  unfold RepeatCompiler.power_fuel. rewrite size_nat_pow2. lia.
Qed.

Lemma compiled_zero rc last : compiled leps rc last (Some (last, rc)).
Proof.
  exists last, rc. split; [done|]. split; [done|]. intros _ D P M Hi Hl. exists D, M. split; [done|]. split; [done|].
  split; [done|]. intros w. symmetry. apply lcat_eps_l.
Qed.

Lemma compile_exact_correct fuel n : n < 2 ^ N.of_nat fuel → ∀ rc last,
  compiled (lpow L (N.to_nat n)) rc last (RepeatCompiler.compile_exact append (S fuel) rc n last).
Proof using All.
  revert n. induction fuel as [|fuel IH]; intros n Hn rc last; cbn [RepeatCompiler.compile_exact].
  - assert (n = 0) as -> by (cbn in Hn; lia). apply compiled_zero.
  - destruct (N.eqb_spec n 0) as [->|Hn0]; [apply compiled_zero|].
    destruct (highest_power_spec n ltac:(lia)) as (j & Hh & Hlo & Hhi).
    rewrite Nat2N.inj_succ, N.pow_succ_r' in Hn.
    eapply compiled_lang; [|apply compiled_then; [apply (IH (n - highest_power_of_two_leq n)); rewrite Hh; lia|
      intros; apply compile_power_highest; lia]].
    intros w. rewrite <-(lpow_add L _ _ w). rewrite Hh. by replace (N.to_nat (2 ^ N.of_nat j) + N.to_nat (n - 2 ^ N.of_nat j))%nat with (N.to_nat n) by lia.
Qed.

Definition remember_upto (k last : N) (r : option (N * RepeatCompiler.t)) : option (N * RepeatCompiler.t) :=
  '(start, rc) ← r;
  Some (start, RepeatCompiler.mk (nfa rc) (power_cache rc) (<[(k, last) := start]> (upto_cache rc))).

Lemma compiled_remember_upto k rc last r :
  compiled (lrep L 0 (Some k)) rc last r → compiled (lrep L 0 (Some k)) rc last (remember_upto k last r).
Proof.
  intros (q & rc' & -> & Hle & Hspec). eexists q, _. split; [reflexivity|]. split; [exact Hle|]. cbn. intros Hb D P M Hi Hl.
  destruct (Hspec Hb D P M Hi Hl) as (D' & M' & [Hf Hfr HtD Hd He Hpow Hup] & Hg & Hq & Hw). exists D', M'.
  split; [split; try done|done]. intros k' x y. cbn. rewrite lookup_insert_Some. intros [[[= <- <-] <-]|[_ Hc]]; [|by apply Hup].
  split; [by apply Hg|]. done.
Qed.

(** An epsilon edge from the state being completed to a completed one. *)
Lemma rc_add_epsilon D P M rc p q :
  rc_inv D P M rc → p ∈ P → D q →
  rc_inv D P (eor M (edge1 p leps q)) (RepeatCompiler.set_nfa rc (add_epsilon (nfa rc) p q)) ∧
  ∀ P', p ∉ P' → grows P' D M D (eor M (edge1 p leps q)).
Proof using All.
  intros Hi Hp Hq. apply (rc_append D P M rc p leps q _ Hi Hp Hq). apply add_epsilon_part.
  - eapply (frag_range _ _ _ _ _ (rc_frag _ _ _ _ Hi)). by right; right.
  - eapply (frag_range _ _ _ _ _ (rc_frag _ _ _ _ Hi)). by right; left.
Qed.

(** Two alternatives from a fresh state, each compiled to its own start. *)
Definition alternatives (f g : RepeatCompiler.t → option (N * RepeatCompiler.t)) (rc : RepeatCompiler.t)
    : option (N * RepeatCompiler.t) :=
  let '(split, nfa0) := add_state (nfa rc) in
  '(q1, rc) ← f (RepeatCompiler.set_nfa rc nfa0);
  let rc := RepeatCompiler.set_nfa rc (add_epsilon (nfa rc) split q1) in
  '(q2, rc) ← g rc;
  Some (split, RepeatCompiler.set_nfa rc (add_epsilon (nfa rc) split q2)).

Lemma compiled_alternatives K J rc last f g :
  (∀ rc, compiled K rc last (f rc)) → (∀ rc, compiled J rc last (g rc)) →
  compiled (lor K J) rc last (alternatives f g rc).
Proof using All.
  intros Hf Hg. unfold alternatives. destruct (add_state (nfa rc)) as [p a0] eqn:Hadd.
  pose proof (num_add_state _ _ _ Hadd) as Hn.
  destruct (Hf (RepeatCompiler.set_nfa rc a0)) as (q1 & rc1 & -> & Hle1 & Hs1). cbn [mbind option_bind].
  destruct (Hg (RepeatCompiler.set_nfa rc1 (add_epsilon (nfa rc1) p q1))) as (q2 & rc2 & -> & Hle2 & Hs2). cbn [mbind option_bind].
  eexists p, _. split; [done|]. cbn [nfa RepeatCompiler.set_nfa] in *. rewrite num_add_epsilon in *. split; [lia|].
  intros Hb D P M Hi Hl.
  destruct (rc_add_state _ _ _ _ _ _ Hi Hadd ltac:(lia)) as (Hi0 & HpD & HpP & Hout).
  destruct (Hs1 ltac:(lia) D (p :: P) M Hi0 Hl) as (D1 & M1 & Hi1 & Hg1 & Hq1 & Hw1).
  destruct (rc_add_epsilon _ _ _ _ p q1 Hi1 ltac:(by left) Hq1) as (Hi1' & Hg1').
  assert (Hl1 : D1 last) by (by apply Hg1).
  destruct (Hs2 ltac:(lia) D1 (p :: P) _ Hi1' Hl1) as (D2 & M2 & Hi2 & Hg2 & Hq2 & Hw2).
  destruct (rc_add_epsilon _ _ _ _ p q2 Hi2 ltac:(by left) Hq2) as (Hi2' & Hg2').
  exists (λ x, D2 x ∨ x = p), (eor M2 (edge1 p leps q2)). split; [exact (rc_done _ _ _ _ _ Hi2' HpP)|].
  assert (Hpt : p ≠ t) by (intros ->; by apply HpD, (rc_t _ _ _ _ Hi)).
  assert (Hgrow : grows P D M D2 (eor M2 (edge1 p leps q2))).
  { assert (HP : ∀ D M D' M', grows (p :: P) D M D' M' → grows P D M D' M')
      by (intros ???? [? ? He]; split; [done|done|]; intros x K' y Hx; apply He; by right).
    eapply grows_trans; [apply HP, Hg1|]. eapply grows_trans; [by apply Hg1'|]. eapply grows_trans; [apply HP, Hg2|]. by apply Hg2'. }
  split; [split; [left; by apply Hgrow|apply Hgrow|apply Hgrow]|]. split; [by right|]. intros w.
  assert (Hedge : ∀ K' y, eor M2 (edge1 p leps q2) p K' y ↔ K' = leps ∧ (y = q1 ∨ y = q2)).
  { intros K' y. unfold eor. rewrite (g_edges _ _ _ _ _ Hg2) by by left. unfold eor. rewrite (g_edges _ _ _ _ _ Hg1) by by left.
    split; [intros [[H|(_ & -> & ->)]|(_ & -> & ->)]; [by apply Hout in H|auto..]|].
    intros [-> [-> | ->]]; [left; right; done|by right]. }
  assert (Hp : to_end (eor M2 (edge1 p leps q2)) p w ↔ to_end (eor M2 (edge1 p leps q2)) q1 w ∨ to_end (eor M2 (edge1 p leps q2)) q2 w).
  { split.
    - intros [[? _]|(K' & z & u & v & -> & [-> Hz]%Hedge & -> & Hv)]%gpath_inv; [done|]. destruct Hz as [-> | ->]; [by left|by right].
    - intros [Hv|Hv]; rewrite <-(app_nil_l w); (eapply (gpath_step _ p leps); [|done|exact Hv]); apply Hedge; auto. }
  pose proof (Hg1' [] (not_elem_of_nil _)) as Hgn1. pose proof (Hg2' [] (not_elem_of_nil _)) as Hgn2.
  assert (Hst : ∀ x w, D2 x → to_end (eor M2 (edge1 p leps q2)) x w ↔ to_end M2 x w) by (apply Hgn2).
  assert (Hlast : ∀ w, to_end M2 last w ↔ to_end M1 last w).
  { intros v. rewrite (g_words _ _ _ _ _ Hg2) by done. by apply Hgn1. }
  rewrite Hp, (Hst q1), (Hst q2), (Hw2 w) by (done || by apply Hg2).
  assert (Hq1w : to_end M2 q1 w ↔ lcat K (to_end M2 last) w).
  { rewrite (g_words _ _ _ _ _ Hg2) by done. rewrite (g_words _ _ _ _ _ Hgn1) by done.
    rewrite Hw1. split; apply lcat_mono; try done; intros v; apply Hlast. }
  rewrite Hq1w.
  assert (Hll : ∀ v, to_end (eor M2 (edge1 p leps q2)) last v ↔ to_end M2 last v) by (intros v; apply Hst; by apply Hg2).
  split.
  - intros [(u & v & -> & Hu & Hv)|(u & v & -> & Hu & Hv)]; exists u, v; (split; [done|]); split; try (by apply Hll); [by left|by right].
  - intros (u & v & -> & [Hu|Hu] & Hv%Hll); [left|right]; by exists u, v.
Qed.

Lemma compile_upto_correct fuel n : n < 2 ^ N.of_nat fuel → ∀ rc last,
  compiled (lrep L 0 (Some n)) rc last (RepeatCompiler.compile_upto append (S fuel) rc n last).
Proof using All.
  revert n. induction fuel as [|fuel IH]; intros n Hn rc last.
  - assert (n = 0) as -> by (cbn in Hn; lia). cbn [RepeatCompiler.compile_upto]. change (0 =? 0) with true. cbn iota.
    eapply compiled_lang; [|apply compiled_zero]. intros w. symmetry. apply lrep_exact.
  - assert (Hunfold : RepeatCompiler.compile_upto append (S (S fuel)) rc n last =
      if n =? 0 then Some (last, rc)
      else match upto_cache rc !! (n, last) with
           | Some start => Some (start, rc)
           | None => remember_upto n last (alternatives
               (λ rc, RepeatCompiler.compile_upto append (S fuel) rc (highest_power_of_two_leq n - 1) last)
               (λ rc, '(q, rc) ← RepeatCompiler.compile_upto append (S fuel) rc (n - highest_power_of_two_leq n) last;
                  RepeatCompiler.compile_power append (RepeatCompiler.power_fuel (highest_power_of_two_leq n)) rc (highest_power_of_two_leq n) q) rc)
           end).
    { change (RepeatCompiler.compile_upto append (S (S fuel)) rc n last) with
        (if n =? 0 then Some (last, rc)
         else match upto_cache rc !! (n, last) with
           | Some start => Some (start, rc)
           | None =>
            let largest_power := highest_power_of_two_leq n in
            let '(split, nfa0) := Nfa.add_state (nfa rc) in
            '(smaller_start, rc) ← RepeatCompiler.compile_upto append (S fuel) (RepeatCompiler.set_nfa rc nfa0) (largest_power - 1) last;
            let rc := RepeatCompiler.set_nfa rc (Nfa.add_epsilon (nfa rc) split smaller_start) in
            '(suffix_start, rc) ← RepeatCompiler.compile_upto append (S fuel) rc (n - largest_power) last;
            '(power_start, rc) ← RepeatCompiler.compile_power append (RepeatCompiler.power_fuel largest_power) rc largest_power suffix_start;
            Some (split, RepeatCompiler.mk (Nfa.add_epsilon (nfa rc) split power_start) (power_cache rc)
                           (<[(n, last) := split]> (upto_cache rc)))
           end).
      destruct (n =? 0); [done|]. destruct (upto_cache rc !! (n, last)); [done|]. cbv zeta. unfold alternatives, remember_upto.
      destruct (add_state (nfa rc)) as [p a0]. destruct (RepeatCompiler.compile_upto append (S fuel) _ (_ - 1) last) as [[q1 rc1]|]; [|done].
      cbn [mbind option_bind]. destruct (RepeatCompiler.compile_upto append (S fuel) _ (n - _) last) as [[q2 rc2]|]; [|done].
      cbn [mbind option_bind]. by destruct (RepeatCompiler.compile_power _ _ _ _ _) as [[q3 rc3]|]. }
    rewrite Hunfold. clear Hunfold. destruct (N.eqb_spec n 0) as [->|Hn0].
    { eapply compiled_lang; [|apply compiled_zero]. intros w. symmetry. apply lrep_exact. }
    destruct (upto_cache rc !! (n, last)) as [q|] eqn:Hc.
    { exists q, rc. split; [done|]. split; [done|]. intros _ D P M Hi Hl. exists D, M.
      destruct (rc_upto _ _ _ _ Hi _ _ _ Hc) as (_ & Hq & Hw). done. }
    apply compiled_remember_upto. destruct (highest_power_spec n ltac:(lia)) as (j & Hh & Hlo & Hhi).
    rewrite Nat2N.inj_succ, N.pow_succ_r' in Hn.
    assert (Hle : highest_power_of_two_leq n ≤ n) by lia.
    assert (Hpos : highest_power_of_two_leq n ≠ 0) by (rewrite Hh; apply N.pow_nonzero; lia).
    eapply compiled_lang; [|apply compiled_alternatives].
    + intros w. rewrite (upto_split L (highest_power_of_two_leq n) n w Hle). unfold lor.
      split; [intros [H|H]; [left; exact H|right; left; exact H]|intros [H|[H|[? _]]]; [by left|by right|done]].
    + intros rc'. apply IH. rewrite Hh. assert (N.of_nat j < N.succ (N.of_nat fuel)).
      { apply (N.pow_lt_mono_r_iff 2); [lia|]. rewrite N.pow_succ_r'. lia. }
      pose proof (N.pow_le_mono_r 2 (N.of_nat j) (N.of_nat fuel) ltac:(lia) ltac:(lia)). rewrite Hh in Hpos. lia.
    + intros rc'. apply compiled_then; [apply IH; rewrite Hh; lia|]. intros. apply compile_power_highest. lia.
Qed.
End repeat.

(** * Bounded repetitions *)

Lemma bounded_good append L min max : good append L → min ≤ max →
  good (λ a s t,
    '(tail_start, rc) ← RepeatCompiler.compile_upto append (RepeatCompiler.power_fuel (max - min)) (RepeatCompiler.new a) (max - min) t;
    '(repeat_start, rc) ← RepeatCompiler.compile_exact append (RepeatCompiler.power_fuel min) rc min tail_start;
    Some (add_epsilon (RepeatCompiler.nfa rc) s repeat_start)) (lrep L min (Some max)).
Proof.
  intros Hgood Hmin a s t.
  destruct (decide (s < num_states a ∧ t < num_states a ∧ s ≠ t)) as [(Hs & Ht & Hne)|Hno].
  - pose proof (compile_upto_correct append L Hgood a s t Hs Ht Hne _ _ (size_nat_bound (max - min)) (RepeatCompiler.new a) t) as Hup.
    pose proof (λ rc q, compile_exact_correct append L Hgood a s t Hs Ht Hne _ _ (size_nat_bound min) rc q) as Hex.
    destruct (compiled_then L a s t Hs Ht Hne _ _ _ _ (RepeatCompiler.compile_upto append (RepeatCompiler.power_fuel (max - min)) (RepeatCompiler.new a) (max - min) t) (λ q rc, RepeatCompiler.compile_exact append (RepeatCompiler.power_fuel min) rc min q) Hup Hex)
      as (q & rc & Hr & Hle & Hspec).
    exists (add_epsilon (RepeatCompiler.nfa rc) s q). split; [|split].
    + unfold RepeatCompiler.power_fuel in *. apply bind_Some in Hr as ([q1 rc1] & -> & Hr). cbn [mbind option_bind]. rewrite Hr. done.
    + rewrite num_add_epsilon. exact Hle.
    + rewrite num_add_epsilon. intros Hb _ _ _.
      assert (H0 : rc_inv L a s t (λ x, x = t) [] no_edges (RepeatCompiler.new a)).
      { split.
        - apply frag_nil. intros x [->|[->|Hx]]; [done|done|by apply elem_of_nil in Hx].
        - intros x [->|Hx]; [by left|by apply elem_of_nil in Hx].
        - done.
        - intros x _. apply not_elem_of_nil.
        - done.
        - intros k x y. cbn. by rewrite lookup_empty.
        - intros k x y. cbn. by rewrite lookup_empty. }
      destruct (Hspec Hb _ _ _ H0 eq_refl) as (D & M & Hi & Hg & Hq & Hw).
      assert (Hqn : q < num_states (RepeatCompiler.nfa rc)) by (eapply (frag_range _ _ _ _ _ (rc_frag _ _ _ _ _ _ _ _ Hi)); by right; left).
      pose proof (frag_len _ _ _ _ (rc_frag _ _ _ _ _ _ _ _ Hi)) as Hlen.
      assert (HsD : ¬ D s) by (intros HD; destruct (rc_fresh _ _ _ _ _ _ _ _ Hi s (or_introl HD)); [done|lia]).
      eapply frag_to_part; [eapply (frag_part _ _ _ _ _ s leps q); [apply (rc_frag _ _ _ _ _ _ _ _ Hi)|by left|by right; left|apply add_epsilon_part; lia]|done|by left|by right; left; apply Hi|..].
      * intros x [->|Hx]; [by left; left|]. destruct (rc_fresh _ _ _ _ _ _ _ _ Hi x Hx) as [->|]; [left; by right|by right].
      * intros x K y [H|(-> & _ & ->)].
        -- destruct (rc_edges _ _ _ _ _ _ _ _ Hi x K y H) as (? & ? & ?). split; [done|]. by intros ->.
        -- split; [done|]. by intros ->.
      * intros w. rewrite <-(N.sub_add min max) at 1 by done. rewrite (N.add_comm (max - min)), <-(lrep_exact_upto L min (max - min) w).
        assert (Hqw : gpath (eor M (edge1 s leps q)) q w t ↔ lcat (lpow L (N.to_nat min)) (lrep L 0 (Some (max - min))) w).
        { change (to_end t (eor M (edge1 s leps q)) q w ↔ lcat (lpow L (N.to_nat min)) (lrep L 0 (Some (max - min))) w).
          rewrite (closed_paths t D) by (done || intros x K y H; by apply (rc_edges _ _ _ _ _ _ _ _ Hi) in H as (_ & _ & ?)).
          rewrite Hw. assert (Hend : ∀ v, to_end t M t v ↔ v = []).
          { intros v. split; [|intros ->; constructor]. intros Hp%gpath_stuck; [tauto|]. intros K z H. by apply (rc_edges _ _ _ _ _ _ _ _ Hi) in H as (_ & ? & _). }
          rewrite <-(lcat_eps_r (lcat (lpow L (N.to_nat min)) (lrep L 0 (Some (max - min)))) w). split; apply lcat_mono; try done; intros v; apply Hend. }
        rewrite <-Hqw. split.
        -- intros [[? _]|(K & z & u & v & -> & [H|(_ & -> & ->)] & Hu & Hv)]%gpath_inv; [done| |].
           ++ by apply (rc_edges _ _ _ _ _ _ _ _ Hi) in H as (? & _).
           ++ by rewrite Hu.
        -- intros Hv. rewrite <-(app_nil_l w). eapply gpath_step; [by right|done|exact Hv].
  - assert (Hs : 0 < num_states (Nfa.new 2)) by done. assert (Ht : 1 < num_states (Nfa.new 2)) by done.
    pose proof (compile_upto_correct append L Hgood (Nfa.new 2) 0 1 Hs Ht ltac:(done) _ _ (size_nat_bound (max - min)) (RepeatCompiler.new a) t) as Hup.
    destruct Hup as (q1 & rc1 & Hr1 & Hle1 & _).
    destruct (compile_exact_correct append L Hgood (Nfa.new 2) 0 1 Hs Ht ltac:(done) _ _ (size_nat_bound min) rc1 q1) as (q2 & rc2 & Hr2 & Hle2 & _).
    exists (add_epsilon (RepeatCompiler.nfa rc2) s q2). unfold RepeatCompiler.power_fuel. rewrite Hr1. cbn [mbind option_bind]. rewrite Hr2.
    split; [done|]. rewrite num_add_epsilon. cbn in Hle1. split; [lia|]. tauto.
Qed.
