(* ===== verification/LexCompileCorrect.v ===== *)
(** Expressions to byte automata: one expression between two states, and the
    shape of expressions. *)

From S2P Require Import Prelude Bits U8Set BitSet CharTransitions LexDfa Lang LexAst LexAstLang LexNfa LexFragment LexCompile LexParts LexRepeat.

Import Expr Nfa.

(** * Expressions the compiler accepts *)

Section compilable.
(** The bodies and bounds for which the direct construction of a repetition is
    trusted. *)
Context (ok : Expr.t → N → N → Prop).

(** Intersections and exclusions are lowered before, a choice has options, an
    automaton has its edges inside. *)
Fixpoint compilable (e : Expr.t) : Prop :=
  match e with
  | U8Seq _ | U8Class _ | Epsilon => True
  | Dfa d => dfa_ok d
  | Intersect _ _ | Exclude _ _ => False
  | Seq l => all_P compilable l
  | Choice l => l ≠ [] ∧ all_P compilable l
  | Repeat expr min (Some max) => ok expr min max ∧ compilable expr
  | Repeat expr _ None | Shared expr => compilable expr
  end.

(** What the direct construction of bounded repetitions promises: it answers,
    and an automaton it returns accepts the repetition.  [LexPipeline] closes the
    recursion of the compiler and proves it of the construction of the code. *)
Class BoundedRepeat (build : Expr.t → N → N → option (option LexDFA.t)) : Prop := {
  build_total e min max : wf e → compilable e → ok e min max → min ≤ max → is_Some (build e min max);
  build_sound e min max d : wf e → compilable e → ok e min max → min ≤ max → build e min max = Some (Some d) →
    dfa_ok d ∧ ∀ w, dfa_lang d w ↔ lrep (denote e) min (Some max) w;
}.
End compilable.

(** Never building one keeps the promise, too: what is left are the fragments. *)
Definition never_direct (e : Expr.t) (min max : N) : option (option LexDFA.t) := Some None.

#[export] Instance never_direct_bounded ok : BoundedRepeat ok never_direct.
Proof. split; [by eexists|done]. Qed.

Lemma accepts_empty_total ok e : compilable ok e → is_Some (expr_accepts_empty e).
Proof.
  assert (Hall : ∀ l, Forall (λ e, compilable ok e → is_Some (expr_accepts_empty e)) l → all_P (compilable ok) l →
    is_Some (allM expr_accepts_empty l) ∧ is_Some (anyM expr_accepts_empty l)).
  { induction 1 as [|e' l He _ IH]; [intros _; split; by eexists|]. intros [Hc Hl]. destruct (He Hc) as [b Hb]. destruct (IH Hl).
    cbn [allM anyM]. rewrite Hb. destruct b; split; try done; by eexists. }
  induction e as [bytes|set|d|e x IHe IHx|l IH|l IH|e x IHe IHx|e min max IHe|e IHe|] using expr_ind; intros Hc; cbn [expr_accepts_empty]; try (by destruct Hc); try (eexists; reflexivity).
  - destruct Hc as [Hn _]. unfold dfa_accepts_empty, LexDFA.finalizers. apply nthN_Some_lt in Hn as [row ->]. by eexists.
  - by apply Hall.
  - by apply Hall, Hc.
  - by apply IHe.
Qed.

Section compile.
Context (ok : Expr.t → N → N → Prop) (build : Expr.t → N → N → option (option LexDFA.t)) `{!BoundedRepeat ok build}.

Lemma append_good e : wf e → compilable ok e → good (append_compiled_expr build e) (denote e).
Proof using All.
  induction e as [bytes|set|d|e x IHe IHx|l IH|l IH|e x IHe IHx|e min max IHe|e IHe|] using expr_ind; intros Hw Hc.
  - apply literal_good.
  - intros a s t. eexists. split; [done|]. split; [by rewrite (lenN_alterN _ _ _ : num_states (add_u8set_transition a s set t) = num_states a)|].
    intros. by apply add_u8set_part.
  - by apply dfa_good.
  - destruct Hc.
  - intros a s t. apply (sequence_good (append_compiled_expr build)). cbn in Hw, Hc. rewrite all_P_Forall in Hw, Hc.
    rewrite Forall_forall in *. auto.
  - apply (choice_good (append_compiled_expr build)); [apply Hc|]. cbn in Hw, Hc. destruct Hc as [_ Hc]. rewrite all_P_Forall in Hw, Hc.
    rewrite Forall_forall in *. auto.
  - destruct Hc.
  - cbn [append_compiled_expr denote]. destruct max as [max|].
    + destruct Hc as [Hok Hc]. specialize (IHe Hw Hc). intros a s t. unfold append_bounded_repeat_expr. destruct (N.ltb_spec max min) as [Hlt|Hle].
      * eexists. split; [done|]. split; [done|]. intros. eapply part_lang; [done|by apply part_none|].
        intros w. split; [done|]. intros (n & ? & ? & _). lia.
      * destruct (build_total ok e min max Hw Hc Hok Hle) as [r Hr]. rewrite Hr. cbn [mbind option_bind]. destruct r as [d|].
        -- destruct (build_sound ok e min max d Hw Hc Hok Hle Hr) as [Hd Hlang].
           apply (good_lang (append_dfa_expr d) (dfa_lang d)); [exact Hlang|by apply dfa_good].
        -- by apply (bounded_good _ _ min max IHe Hle).
    + specialize (IHe Hw Hc). destruct (accepts_empty_total ok e Hc) as [extra He]. by eapply unbounded_good.
  - by apply IHe.
  - intros a s t. eexists. split; [done|]. rewrite num_add_epsilon. split; [done|]. intros. by apply add_epsilon_part.
Qed.
End compile.

(** * Whole automata *)

(** Between its visible states [O] the automaton acts as the graph [M]. *)
Record acts (a : Nfa.t) (O : N → Prop) (M : edges) : Prop := {
  acts_closed : ∀ x L y, nfa_edge a x L y → y < num_states a;
  acts_range : ∀ x, O x → x < num_states a;
  acts_ends : ∀ x L y, M x L y → O x ∧ O y;
  acts_paths : ∀ x y w, O x → O y → gpath (nfa_edge a) x w y ↔ gpath M x w y;
}.

Lemma acts_self a : (∀ x L y, nfa_edge a x L y → y < num_states a) → acts a (λ x, x < num_states a) (nfa_edge a).
Proof. intros H. split; try done. intros x L y Hxy. split; [by eapply nfa_edge_range|by eapply H]. Qed.

(** A fresh automaton has no edges. *)
Lemma new_rows n z row : (states (Nfa.new n)).[z] = Some row → row = NFAState.new.
Proof. cbn. unfold build_states. rewrite nthN_replicate. case_match; congruence. Qed.

Lemma new_edges n x L y : ¬ nfa_edge (Nfa.new n) x L y.
Proof. destruct 1 as [row set t Hr%new_rows Hin|row t Hr%new_rows Hin]; subst row; by apply elem_of_nil in Hin. Qed.

Lemma new_fins n x : fins (Nfa.new n) x = ∅.
Proof. unfold fins. destruct (_.[x]) as [row|] eqn:Hr; [|done]. by rewrite (new_rows n x row Hr). Qed.

(** Appending a part adds an edge. *)
Lemma acts_part a1 a2 O M s L t : acts a1 O M → O s → O t → part a1 a2 s L t → acts a2 O (eor M (edge1 s L t)).
Proof.
  intros [Hcl Hr He Hp] Hs Ht (F & [Hlen _ _ Hedge] & HF & HP & HR & _).
  assert (HFr : ∀ x K y, F x K y → x < num_states a2 ∧ y < num_states a2).
  { intros x K y H. destruct (HF x K y H) as [[?|?] [?|?]]; split; try lia; by apply HR. }
  assert (HO : ∀ x, two s t x → O x) by (intros x [Hx|Hx]; rewrite Hx; assumption).
  split.
  - intros x K y [H|H]%Hedge; [apply Hcl in H; lia|by destruct (HFr _ _ _ H)].
  - intros x Hx. apply Hr in Hx. lia.
  - intros x K y [H|(-> & _ & ->)]; [exact (He _ _ _ H)|done].
  - intros x y w Hx Hy. rewrite <-(union_paths (nfa_edge a1) F M (edge1 s L t) (λ x, x < num_states a1)
      (λ x, two s t x ∨ num_states a1 ≤ x < num_states a2) O (two s t)); try done.
    + split; apply gpath_mono; intros p K q; apply Hedge.
    + intros p K q H. split; [by eapply nfa_edge_range|by apply Hcl in H].
    + intros p K q (-> & _ & ->). split; [by left|by right].
    + intros p Hp1 [?|?]; [done|lia].
    + intros p [?|?] HOp; [done|]. apply Hr in HOp. lia.
Qed.

Lemma acts_add_state a O M m a2 : acts a O M → add_state a = (m, a2) → num_states a < u32_modulus →
  m = num_states a ∧ acts a2 (λ x, O x ∨ x = m) M.
Proof.
  intros [Hcl Hr He Hp] Hadd Hlt. destruct (add_state_ext a m a2 Hadd Hlt) as (-> & Hn & [_ _ _ Hedge]). split; [done|].
  assert (Heq : ∀ x K y, nfa_edge a2 x K y ↔ nfa_edge a x K y) by (intros x K y; rewrite Hedge; split; [by intros [?|[]]|by left]).
  assert (Hfresh : ∀ (G : edges) x w y, (∀ x L y, G x L y → x < num_states a ∧ y < num_states a) →
    x = num_states a ∨ y = num_states a → gpath G x w y ↔ x = y ∧ w = []).
  { intros G x w y HG Hxy. split; [|intros [-> ->]; constructor]. intros Hpath. destruct Hxy as [->| ->].
    - apply gpath_stuck in Hpath; [done|]. intros L z H. apply HG in H. lia.
    - apply gpath_into in Hpath; [done|]. intros z L H. apply HG in H. lia. }
  split.
  - intros x K y H%Heq%Hcl. lia.
  - intros x [Hx|Hx]; [apply Hr in Hx; lia|lia].
  - intros x K y H. destruct (He _ _ _ H). split; by left.
  - assert (HM : ∀ x L y, M x L y → x < num_states a ∧ y < num_states a).
    { intros x L y H. destruct (He _ _ _ H). split; by apply Hr. }
    assert (HN : ∀ x L y, nfa_edge a2 x L y → x < num_states a ∧ y < num_states a).
    { intros x L y H%Heq. split; [by eapply nfa_edge_range|by apply Hcl in H]. }
    intros x y w [Hx|Hx] [Hy|Hy]; try (subst; rewrite !Hfresh by auto; done).
    rewrite <-Hp by done. split; apply gpath_mono; intros p K q; apply Heq.
Qed.

(** Finalizers are not edges. *)
Lemma finalizer_edges a s g x K y : nfa_edge (add_finalizer a s g) x K y ↔ nfa_edge a x K y.
Proof.
  assert (Hrow : ∀ x row, (states (add_finalizer a s g)).[x] = Some row → ∃ row', (states a).[x] = Some row' ∧
    NFAState.transitions row' = NFAState.transitions row ∧ NFAState.epsilon_transitions row' = NFAState.epsilon_transitions row).
  { intros z row. unfold add_finalizer. rewrite with_state_rows. destruct (z =? s); [|by exists row].
    destruct ((states a).[z]) as [row'|]; [|done]. intros [= <-]. by exists row'. }
  assert (Hrow' : ∀ x row', (states a).[x] = Some row' → ∃ row, (states (add_finalizer a s g)).[x] = Some row ∧
    NFAState.transitions row = NFAState.transitions row' ∧ NFAState.epsilon_transitions row = NFAState.epsilon_transitions row').
  { intros z row' Hr. unfold add_finalizer. rewrite with_state_rows, Hr. destruct (z =? s); by eexists. }
  split.
  - destruct 1 as [row set t (row' & ? & Ht & _)%Hrow Hin|row t (row' & ? & _ & Ht)%Hrow Hin]; rewrite <-Ht in Hin; [by eapply nfa_byte|by eapply nfa_epsilon].
  - destruct 1 as [row set t (row' & ? & Ht & _)%Hrow' Hin|row t (row' & ? & _ & Ht)%Hrow' Hin]; rewrite <-Ht in Hin; [by eapply nfa_byte|by eapply nfa_epsilon].
Qed.

Lemma finalizer_num a s g : num_states (add_finalizer a s g) = num_states a.
Proof. apply lenN_alterN. Qed.

Lemma finalizer_fins a s g x : fins (add_finalizer a s g) x = if (x =? s) && (x <? num_states a) then {[g]} ∪ fins a x else fins a x.
Proof.
  unfold fins, add_finalizer. rewrite with_state_rows. destruct (x =? s) eqn:E; [|done]. cbn [andb].
  destruct (N.ltb_spec x (num_states a)) as [Hlt|Hge].
  - apply nthN_Some_lt in Hlt as [row ->]. done.
  - by rewrite (proj2 (nthN_None _ _) Hge).
Qed.

Lemma acts_finalizer a O M s g : acts a O M → acts (add_finalizer a s g) O M.
Proof.
  intros [Hcl Hr He Hp]. split; rewrite ?finalizer_num; try done.
  - intros x K y H%finalizer_edges. by apply Hcl in H.
  - intros x y w Hx Hy. rewrite <-Hp by done. split; apply gpath_mono; intros p K q; apply finalizer_edges.
Qed.

Lemma part_fins a a' s L t x : part a a' s L t → fins a' x = fins a x.
Proof. intros (F & [_ _ Hf _] & _). apply Hf. Qed.

(** C7: appending the fragment of a [compilable] expression (lowered, with options
    in its choices, and bounded repetitions for which the construction [build] is
    trusted) between two states of an automaton does not panic, and the words
    between the old states are those read along the old edges and one new edge
    that carries the language of the expression.  No state is lost and no finalizer changes. *)
Theorem append_compiled_expr_correct (ok : Expr.t → N → N → Prop) (build : Expr.t → N → N → option (option LexDFA.t)) (e : Expr.t) (a : Nfa.t) (s t : N) :
  BoundedRepeat ok build → wf e → compilable ok e →
  (∀ x L y, nfa_edge a x L y → y < num_states a) → s < num_states a → t < num_states a → s ≠ t →
  ∃ a', append_compiled_expr build e a s t = Some a' ∧ num_states a ≤ num_states a' ∧
    (num_states a' ≤ u32_modulus →
      (∀ x, fins a' x = fins a x) ∧
      ∀ x y w, x < num_states a → y < num_states a →
        gpath (nfa_edge a') x w y ↔ gpath (eor (nfa_edge a) (edge1 s (denote e) t)) x w y).
Proof.
  intros Hb Hw Hc Hcl Hs Ht Hne. destruct (append_good ok build e Hw Hc a s t) as (a' & Ha & Hle & Hp).
  exists a'. split; [done|]. split; [done|]. intros Hn. specialize (Hp Hn Hs Ht Hne).
  split; [intros x; by eapply part_fins|]. intros x y w Hx Hy.
  by apply (acts_paths _ _ _ (acts_part _ _ _ _ _ _ _ (acts_self a Hcl) Hs Ht Hp)).
Qed.

(** [a{2,5}|(bc)*] between the two states of an automaton. *)
Definition expr_repeat : Expr.t := Choice [Repeat (byte 97) 2 (Some 5); star (bytes [98; 99])].

Lemma append_compiled_expr_correct_witness :
  ∃ a', append_compiled_expr never_direct expr_repeat (Nfa.new 2) 0 1 = Some a' ∧ num_states a' = 12 ∧
    gpath (nfa_edge a') 0 [97; 97; 97] 1 ∧ ¬ gpath (nfa_edge a') 0 [97] 1.
Proof.
  assert (Hnone := new_edges 2).
  destruct (append_compiled_expr_correct (λ _ _ _, True) never_direct expr_repeat (Nfa.new 2) 0 1) as (a' & Ha & Hle & Hp).
  - apply never_direct_bounded.
  - cbn. repeat (split || constructor).
  - cbn. repeat (split || constructor). discriminate.
  - intros x L y H. destruct (Hnone x L y H).
  - reflexivity.
  - reflexivity.
  - discriminate.
  - exists a'. split; [exact Ha|].
    assert (Hn : num_states a' = 12) by (vm_compute in Ha; injection Ha as <-; reflexivity). split; [exact Hn|].
    rewrite Hn in Hp. destruct Hp as [_ Hp]; [vm_compute; discriminate|].
    assert (Hone : ∀ w, gpath (nfa_edge a') 0 w 1 ↔ denote expr_repeat w).
    { intros w. rewrite Hp by reflexivity. split.
      - intros H. apply (gpath_mono _ (edge1 0 (denote expr_repeat) 1)) in H.
        + apply gpath_edge1 in H; [|discriminate]. destruct H as [[? _]|(_ & _ & ?)]; [discriminate|assumption].
        + intros x L y [Hx|Hx]; [destruct (Hnone x L y Hx)|exact Hx].
      - intros H. eapply gpath_one; [right; repeat split|exact H]. }
    split.
    + apply Hone. left. exists 3%nat. split; [lia|]. split; [lia|]. exists [97], [97; 97]. repeat split. exists [97], [97]. repeat split. exists [97], []. repeat split.
    + intros H. apply Hone in H as [(n & Hn1 & _ & Hpow)|[(n & _ & _ & Hpow)|[]]].
      * destruct n as [|[|n]]; [lia|lia|]. destruct Hpow as (u & v & Heq & -> & (u' & v' & -> & -> & _)). discriminate.
      * destruct n as [|n]; [discriminate|]. destruct Hpow as (u & v & Heq & -> & _). discriminate.
Defined.

Import Expr.

(** Every byte class has a byte. *)
Fixpoint inhabited (e : Expr.t) : Prop :=
  match e with
  | U8Seq _ | Dfa _ | Epsilon => True
  | U8Class set => U8Set.is_empty set = false
  | Intersect expr other | Exclude expr other => inhabited expr ∧ inhabited other
  | Seq l | Choice l => all_P inhabited l
  | Repeat expr _ _ | Shared expr => inhabited expr
  end.

(** * Sequences keep what their parts have *)

Section sequences.
Context (P : Expr.t → Prop) (P_seq : ∀ l, P (Seq l) ↔ Forall P l) (P_word : ∀ bs, P (U8Seq bs)) (P_epsilon : P Epsilon).

Lemma Forall_snoc l e : Forall P (l ++ [e]) ↔ Forall P l ∧ P e.
Proof using Type. by rewrite Forall_app, Forall_singleton. Qed.

Lemma flatten_sequence_keeps l : Forall P l → Forall P (flatten_sequence_parts l).
Proof using P_seq.
  induction l as [|e l IH] using rev_ind; [constructor|]. rewrite Forall_snoc. intros [Hl He]. specialize (IH Hl).
  unfold flatten_sequence_parts in *. rewrite foldl_app. cbn [foldl]. set (flat := foldl _ [] l) in *. clearbody flat.
  destruct e; try (by apply Forall_snoc); [|done]. apply Forall_app. split; [done|]. by apply P_seq.
Qed.

Lemma single_byte_keeps e e' : P e → simplify_single_byte_class e = Some e' → P e'.
Proof using P_word.
  destruct e; try (by intros He [= <-]). intros He. cbn [simplify_single_byte_class].
  case_match; [|by intros [= <-]]. destruct (head _); [|done]. intros [= <-]. apply P_word.
Qed.

Lemma mapM_keeps (f : Expr.t → option Expr.t) l l' :
  Forall (λ e, ∀ e', P e → f e = Some e' → P e') l → Forall P l → mapM f l = Some l' → Forall P l'.
Proof using Type.
  intros Hf Hl Hm%mapM_Some. induction Hm as [|e e' l l' He _ IH]; [constructor|].
  apply Forall_cons in Hf as [Hf Hfs]. apply Forall_cons in Hl as [Hl Hls]. constructor; eauto.
Qed.

Lemma merge_sequences_keeps l : Forall P l → Forall P (merge_adjacent_byte_sequences l).
Proof using P_word.
  induction l as [|e l IH] using rev_ind; [constructor|]. rewrite Forall_snoc. intros [Hl He]. specialize (IH Hl).
  unfold merge_adjacent_byte_sequences in *. rewrite foldl_app. cbn [foldl]. set (merged := foldl _ [] l) in *. clearbody merged.
  destruct e as [current| | | | | | | | |]; try (by apply Forall_snoc). cbn [merge_byte_sequence].
  destruct merged as [|top merged _] using rev_ind; [by apply Forall_snoc|]. rewrite last_snoc.
  destruct top; try (by apply Forall_snoc). rewrite alter_last. apply Forall_snoc in IH as [IH _]. by apply Forall_snoc.
Qed.

Lemma make_seq_keeps l e : Forall P l → make_seq l = Some e → P e.
Proof using P_seq P_word P_epsilon.
  intros Hl%flatten_sequence_keeps. unfold make_seq. destruct (flatten_sequence_parts l) as [|e0 flat]; [by intros [= <-]|].
  destruct (simplify_single_byte_classes (e0 :: flat)) as [flat'|] eqn:Hf; [|done]. cbn [mbind option_bind].
  assert (Hm : Forall P (merge_adjacent_byte_sequences flat')).
  { apply merge_sequences_keeps. eapply mapM_keeps; [|exact Hl|exact Hf]. apply Forall_forall. intros x _. apply single_byte_keeps. }
  destruct (merge_adjacent_byte_sequences flat') as [|single [|next rest]]; intros [= <-]; try (by apply P_seq).
  by rewrite Forall_singleton in Hm.
Qed.
End sequences.

Section shape.
Context (ok : N → N → Prop).

(** Expressions whose repetitions have trusted bounds. *)
Definition solid (e : Expr.t) : Prop := compilable (λ _, ok) e ∧ inhabited e.

Lemma solid_seq l : solid (Seq l) ↔ Forall solid l.
Proof. unfold solid. cbn [compilable inhabited]. rewrite !all_P_Forall. symmetry. apply Forall_and. Qed.

Lemma solid_choice l : solid (Choice l) ↔ l ≠ [] ∧ Forall solid l.
Proof. unfold solid. cbn [compilable inhabited]. rewrite !all_P_Forall. pose proof (Forall_and (compilable (λ _, ok)) (Q := inhabited) l). tauto. Qed.

Lemma solid_snoc l e : Forall solid (l ++ [e]) ↔ Forall solid l ∧ solid e.
Proof. apply Forall_snoc. Qed.

Lemma make_seq_solid l e : Forall solid l → make_seq l = Some e → solid e.
Proof. apply make_seq_keeps; [exact solid_seq|done|done]. Qed.

(** * Choices *)

Lemma flatten_choice_solid l flat : Forall solid l → l ≠ [] → flatten_choice_parts l = Some flat → Forall solid flat ∧ flat ≠ [].
Proof.
  intros Hl Hne. unfold flatten_choice_parts. destruct (run _ _ _) as [|r] eqn:Hrun; [done|]. intros [= ->].
  edestruct (run_inr flatten_choice_step (λ st, Forall solid (st.1 ++ st.2) ∧ st.1 ++ st.2 ≠ []))
    as ([[|e worklist] flat'] & [Hs Hn] & Hexit); [| |exact Hrun|..].
  - intros [[|e worklist] flat'] st' [Hs Hn]; [done|]. cbn [fst snd app] in Hs, Hn. apply Forall_cons in Hs as [He Hs].
    destruct e; cbn [flatten_choice_step]; intros [= <-]; cbn [fst snd].
    all: try (rewrite app_assoc, solid_snoc; split; [done|by destruct (worklist ++ flat')]).
    apply solid_choice in He as [Ho He]. rewrite <-app_assoc. split.
    { apply Forall_app. split; [by apply Forall_reverse|done]. }
    intros [Hr _]%app_eq_nil. apply Ho. by rewrite <-(reverse_involutive options), Hr.
  - cbn [fst snd]. rewrite app_nil_r. split; [by apply Forall_reverse|]. intros Hr. apply Hne. by rewrite <-(reverse_involutive l), Hr.
  - by injection Hexit as <-.
  - by destruct e.
Qed.

Lemma union_inhabited a b : U8Set.is_empty (U8Set.union a b) = U8Set.is_empty a && U8Set.is_empty b.
Proof.
  assert (Hlor : ∀ x y, (N.lor x y =? 0) = (x =? 0) && (y =? 0)).
  { intros x y. apply eq_true_iff_eq. rewrite andb_true_iff, !N.eqb_eq. apply N.lor_eq_0_iff. }
  unfold U8Set.is_empty. cbn. rewrite !Hlor. by destruct (U8Set.lo a =? 0), (U8Set.hi a =? 0), (U8Set.lo b =? 0), (U8Set.hi b =? 0).
Qed.

Lemma insert_inhabited a b : U8Set.is_empty (U8Set.insert a b).1 = false.
Proof.
  apply not_true_iff_false. intros He. unfold U8Set.is_empty in He. apply andb_true_iff in He as [Hl%N.eqb_eq Hh%N.eqb_eq].
  assert (Hc := U8SetFacts.contains_insert a b b). rewrite N.eqb_refl, U8SetFacts.contains_spec, Hl, Hh in Hc. cbn in Hc.
  by destruct (b <? 128).
Qed.

(** Something is left: an option or a byte. *)
Lemma fold_choice_solid l classes complex : Forall solid l → Forall solid complex →
  let r := foldl fold_choice_part (classes, complex) l in
  Forall solid r.2 ∧ (complex ≠ [] ∨ U8Set.is_empty classes = false ∨ l ≠ [] → r.2 ≠ [] ∨ U8Set.is_empty r.1 = false).
Proof.
  intros Hl. revert classes complex. induction Hl as [|e l He _ IH]; intros classes complex Hx r; subst r; cbn [foldl].
  { split; [done|]. cbn [fst snd]. tauto. }
  assert (Hother : let r := foldl fold_choice_part (classes, complex ++ [e]) l in
    Forall solid r.2 ∧ (complex ≠ [] ∨ U8Set.is_empty classes = false ∨ e :: l ≠ [] → r.2 ≠ [] ∨ U8Set.is_empty r.1 = false)).
  { destruct (IH classes (complex ++ [e])) as [H1 H2]; [by apply solid_snoc|]. split; [done|]. intros _. apply H2. left. by destruct complex. }
  assert (Hone : ∀ classes', U8Set.is_empty classes' = false → let r := foldl fold_choice_part (classes', complex) l in
    Forall solid r.2 ∧ (complex ≠ [] ∨ U8Set.is_empty classes = false ∨ e :: l ≠ [] → r.2 ≠ [] ∨ U8Set.is_empty r.1 = false)).
  { intros classes' Hc r. destruct (IH classes' complex Hx) as [H1 H2]. split; [done|]. intros _. apply H2. right. by left. }
  destruct e as [bytes|set| | | | | | | |]; try exact Hother; cbn [fold_choice_part].
  - destruct bytes as [|b [|b' bytes]]; try exact Hother. apply Hone, insert_inhabited.
  - apply Hone. rewrite union_inhabited. destruct He as [_ He]. cbn in He. by rewrite He, andb_false_r.
Qed.

Lemma make_choice_solid l e : Forall solid l → l ≠ [] → make_choice l = Some e → solid e.
Proof.
  intros Hl Hne. unfold make_choice. destruct (flatten_choice_parts l) as [flat|] eqn:Hf; [|done]. cbn [mbind option_bind].
  destruct (flatten_choice_solid l flat Hl Hne Hf) as [Hs Hn].
  assert (Hk : Forall solid (fold_choice_byte_classes flat) ∧ fold_choice_byte_classes flat ≠ []).
  { unfold fold_choice_byte_classes. destruct (fold_choice_solid flat U8Set.empty [] Hs ltac:(constructor)) as [H1 H2].
    destruct (foldl _ _ _) as [classes complex]. cbn [fst snd] in *. specialize (H2 ltac:(tauto)).
    destruct (U8Set.is_empty classes) eqn:Ec; [by destruct H2|].
    split; [by apply solid_snoc|by destruct complex]. }
  assert (Hmany : ∀ k e, Forall solid k ∧ k ≠ [] → (match k with [single] => Some single | complex => Some (Choice complex) end) = Some e → solid e).
  { intros [|x [|y k]] e' [Hk1 Hk2]; [done|..]; intros [= <-]; [by rewrite Forall_singleton in Hk1|by apply solid_choice]. }
  destruct flat as [|x [|y flat]]; [done|..].
  - by apply (Hmany [x]).
  - intros He. apply (Hmany _ _ Hk). by destruct (fold_choice_byte_classes _) as [|? [|? ?]].
Qed.

(** Simplification keeps the accepted expressions. *)
Lemma optimize_solid e e' : solid e → optimize e = Some e' → solid e'.
Proof.
  revert e'. induction e as [bytes|set|d|e x IHe IHx|l IH|l IH|e x IHe IHx|e min max IHe|e IHe|] using expr_ind; intros e' Hs;
    try (by intros [= <-]).
  - by destruct Hs as [[] _].
  - apply solid_seq in Hs. cbn [optimize]. destruct (mapM optimize l) as [l'|] eqn:Hl; [|done]. cbn [mbind option_bind].
    apply make_seq_solid. eapply mapM_keeps; [|exact Hs|exact Hl]. eapply Forall_impl; [exact IH|]. auto.
  - apply solid_choice in Hs as [Hn Hs]. cbn [optimize]. destruct (mapM optimize l) as [l'|] eqn:Hl; [|done]. cbn [mbind option_bind].
    apply make_choice_solid.
    + eapply mapM_keeps; [|exact Hs|exact Hl]. eapply Forall_impl; [exact IH|]. auto.
    + apply mapM_Some in Hl. intros ->. by apply Hn, (Forall2_nil_inv_r _ _ Hl).
  - by destruct Hs as [[] _].
  - cbn [optimize]. destruct (optimize e) as [c|]; [|done]. cbn [mbind option_bind].
    assert (Hc : solid e → solid c) by (intros; by apply IHe). clear IHe.
    assert (He : solid e) by (destruct Hs as [Hs Hi]; split; [|done]; by destruct max; [apply Hs|]).
    assert (Hr : solid (Repeat c min max)) by (destruct Hs as [Hs _]; destruct (Hc He); split; [|done]; destruct max; [split; [apply Hs|done]|done]).
    unfold optimize_repeat_expr. destruct min as [|[p|p|]]; [|by intros [= <-]..|].
    + destruct max as [[|p]|]; by intros [= <-].
    + destruct max as [[|[p|p|]]|]; intros [= <-]; try done. by apply Hc.
  - cbn [optimize]. destruct (optimize e) as [c|]; [|done]. intros [= <-]. exact (IHe c Hs eq_refl).
Qed.
End shape.
