(* ===== verification/LexBuild.v ===== *)
(** The byte NFA of a list of terminals: the prefix tree that terminals share,
    what follows their literal prefixes, and the language of every group. *)

From S2P Require Import Prelude Bits U8Set BitSet LexDfa Lang LexAst LexAstLang LexNfa LexNfaClasses LexNfaScc LexFragment LexCompile LexParts LexCompileCorrect.
Import Expr Nfa.

(** * Literal prefixes *)

Definition atom_lang (atom : PrefixAtom.t) : lang :=
  match atom with PrefixAtom.Byte b => lword [b] | PrefixAtom.Class set => class_lang set end.

Definition atoms_lang (atoms : list PrefixAtom.t) : lang := lcats (map atom_lang atoms).

Lemma atoms_lang_app l k : atoms_lang (l ++ k) ≡ lcat (atoms_lang l) (atoms_lang k).
Proof. unfold atoms_lang. rewrite map_app. apply lcats_app. Qed.

Lemma atoms_lang_one atom : atoms_lang [atom] ≡ atom_lang atom.
Proof. apply lcat_eps_r. Qed.

Lemma atoms_bytes bytes : atoms_lang (map PrefixAtom.Byte bytes) ≡ lword bytes.
Proof.
  induction bytes as [|b bytes IH]; [done|].
  change (lcat (lword [b]) (atoms_lang (map PrefixAtom.Byte bytes)) ≡ lword ([b] ++ bytes)). rewrite IH. apply lcat_word.
Qed.

Lemma denote_parts l : denote (seq_from_parts l) ≡ lcats (map denote l).
Proof. destruct l as [|e [|e' l]]; cbn [seq_from_parts]; [done| |done]. symmetry. apply denote_seq_one. Qed.

Section prefix.
Context (ok : Expr.t → N → N → Prop).

Lemma parts_compilable l : wf (Seq l) ∧ compilable ok (Seq l) → wf (seq_from_parts l) ∧ compilable ok (seq_from_parts l).
Proof. destruct l as [|e [|e' l]]; cbn [seq_from_parts]; [done| |done]. by intros [[] []]. Qed.

(** The prefix and the remainder spell the expression. *)
Definition splits (e : Expr.t) (new : list PrefixAtom.t) (rest : Expr.t) : Prop :=
  denote e ≡ lcat (atoms_lang new) (denote rest) ∧ (wf e ∧ compilable ok e → wf rest ∧ compilable ok rest).

Lemma splits_none e : splits e [] e.
Proof. split; [|done]. symmetry. apply lcat_eps_l. Qed.

Lemma splits_all e new : denote e ≡ atoms_lang new → splits e new Epsilon.
Proof. intros He. split; [|done]. rewrite He. symmetry. apply lcat_eps_r. Qed.

Lemma collect_prefix_spec e atoms : ∃ new rest, collect_prefix e atoms = (atoms ++ new, rest) ∧ splits e new rest.
Proof.
  revert atoms. induction e as [bytes|set|d|e x IHe IHx|l IH|l IH|e x IHe IHx|e min max IHe|e IHe|] using expr_ind; intros atoms;
    try (eexists [], _; rewrite app_nil_r; split; [reflexivity|apply splits_none]).
  - exists (map PrefixAtom.Byte bytes), Epsilon. split; [done|]. apply splits_all. symmetry. apply atoms_bytes.
  - exists [PrefixAtom.Class set], Epsilon. split; [done|]. apply splits_all. symmetry. apply atoms_lang_one.
  - cbn [collect_prefix]. revert atoms. induction IH as [|e l He _ IHl]; intros atoms.
    { exists [], Epsilon. rewrite app_nil_r. split; [done|]. by apply splits_all. }
    destruct (He atoms) as (new & rest & -> & Hd & Hc).
    assert (Hstop : splits (Seq (e :: l)) new (seq_from_parts (rest :: l))).
    { split.
      - rewrite denote_parts. cbn [denote map]. change (lcat (denote e) (lcats (map denote l)) ≡ lcat (atoms_lang new) (lcat (denote rest) (lcats (map denote l)))).
        by rewrite Hd, lcat_assoc.
      - intros [[Hw Hws] [Hk Hks]]. destruct (Hc (conj Hw Hk)). by apply parts_compilable. }
    destruct rest; try (exists new; eexists; split; [reflexivity|exact Hstop]). clear Hstop.
    destruct (IHl (atoms ++ new)) as (new' & rest & -> & Hd' & Hc'). exists (new ++ new'), rest. rewrite app_assoc. split; [done|]. split.
    + cbn [denote map] in *. change (lcat (denote e) (lcats (map denote l)) ≡ lcat (atoms_lang (new ++ new')) (denote rest)).
      rewrite Hd, Hd', atoms_lang_app, lcat_eps_r. symmetry. apply lcat_assoc.
    + intros [[Hw Hws] [Hk Hks]]. by apply Hc'.
  - destruct (IHe atoms) as (new & rest & Heq & Hd & Hc). exists new, rest. split; [exact Heq|]. by split.
Qed.

Lemma deterministic_prefix_spec e : ∃ new rest, deterministic_prefix e = (new, rest) ∧ splits e new rest.
Proof. apply (collect_prefix_spec e []). Qed.
End prefix.

(** * Paths into a state *)

Lemma gpath_last M x w y : gpath M x w y → (x = y ∧ w = []) ∨ ∃ z L u v, w = u ++ v ∧ gpath M x u z ∧ M z L y ∧ L v.
Proof.
  induction 1 as [x|x L z y u v HM Hu _ IH]; [by left|]. right. destruct IH as [[-> ->]|(z' & K & u' & v' & -> & Hp & HM' & Hv)].
  - exists x, L, [], u. rewrite app_nil_r. split; [done|]. split; [constructor|done].
  - exists z', K, (u ++ u'), v'. rewrite app_assoc. split; [done|]. split; [by eapply gpath_step|done].
Qed.

(** The words to a state with one edge into it. *)
Lemma gpath_only M x w s L t : x ≠ t → M s L t → (∀ z K, M z K t → z = s ∧ K = L) →
  gpath M x w t ↔ lcat (λ u, gpath M x u s) L w.
Proof.
  intros Hne HM Hin. split.
  - intros [[? _]|(z & K & u & v & -> & Hp & [-> ->]%Hin & Hv)]%gpath_last; [done|]. by exists u, v.
  - intros (u & v & -> & Hp & Hv). by eapply gpath_snoc.
Qed.

Section leaf.
Context (M : edges) (s : N) (L : lang) (t : N).
Context (Hout : ∀ K y, ¬ M t K y) (Hin : ∀ x K, ¬ M x K t) (Hne : s ≠ t).

(** A new leaf changes no path to another state. *)
Lemma gpath_leaf_old x w y : y ≠ t → gpath (eor M (edge1 s L t)) x w y ↔ gpath M x w y.
Proof using All.
  intros Hy. split; [|apply gpath_mono; by left].
  induction 1 as [|x K z y u v [HM|(-> & -> & ->)] Hu Hp IH]; [constructor|eapply gpath_step; eauto|].
  apply gpath_stuck in Hp; [by destruct Hp as [-> _]|]. intros K z [H|(H & _)]; [by eapply Hout|congruence].
Qed.

Lemma gpath_leaf_new x w : x ≠ t → gpath (eor M (edge1 s L t)) x w t ↔ lcat (λ u, gpath M x u s) L w.
Proof using All.
  intros Hx. rewrite (gpath_only _ x w s L t); [|done|by right|].
  - split; apply lcat_mono; try done; intros u; by apply gpath_leaf_old.
  - intros z K [H|(-> & -> & _)]; [by apply Hin in H|done].
Qed.
End leaf.

Lemma acts_ext a (O O' : N → Prop) (M M' : edges) :
  (∀ x, O x ↔ O' x) → (∀ x L y, M x L y ↔ M' x L y) → acts a O M → acts a O' M'.
Proof.
  intros HO HM [Hcl Hr He Hp]. split.
  - done.
  - intros x Hx. by apply Hr, HO.
  - intros x L y H%HM. destruct (He _ _ _ H). split; by apply HO.
  - intros x y w Hx Hy. rewrite Hp by (by apply HO). split; apply gpath_mono; intros p K q; apply HM.
Qed.

(** * Growing an automaton up to a size *)

(** A loop that does not panic and whose result is at most [m]: what holds as
    long as the size stays within [m]. *)
Lemma foldM_grow {A B} (size : B → N) (m : N) (J I : list A → B → Prop) (f : B → A → option B) l b :
  (∀ pre x b, x ∈ l → J pre b → ∃ b', f b x = Some b' ∧ J (pre ++ [x]) b' ∧ size b ≤ size b' ∧ (size b' ≤ m → I pre b → I (pre ++ [x]) b')) →
  J [] b → I [] b → ∃ b', foldM f b l = Some b' ∧ J l b' ∧ size b ≤ size b' ∧ (size b' ≤ m → I l b').
Proof.
  induction l as [|x l IH] using rev_ind; intros Hf HJ HI; [by exists b|].
  destruct IH as (b1 & H1 & HJ1 & Hs1 & HI1); [|done..|].
  { intros pre y b1 Hy. apply Hf, elem_of_app. by left. }
  destruct (Hf l x b1) as (b2 & H2 & HJ2 & Hs2 & HI2); [apply elem_of_app; right; by left|done|].
  exists b2. rewrite foldM_app, H1. cbn [mbind option_bind foldM]. rewrite H2. split; [done|]. split; [done|].
  split; [lia|]. intros Hm. apply HI2; [done|]. apply HI1. lia.
Qed.

(** * The prefix tree *)

Section build.
Context (ok : Expr.t → N → N → Prop) (build : Expr.t → N → N → option (option LexDFA.t)) `{!BoundedRepeat ok build}.

Definition tree_edges (T : prefix_table) : edges := λ x L y, ∃ atom, T !! (x, atom) = Some y ∧ L = atom_lang atom.

(** The words to a state of the tree. *)
Definition words (T : prefix_table) (z : N) : lang := λ w, gpath (tree_edges T) 0 w z.

Record tree (a : Nfa.t) (T : prefix_table) : Prop := {
  tree_root : 0 < num_states a;
  tree_start : start_state a = 0;
  tree_acts : acts a (λ x, x < num_states a) (tree_edges T);
  tree_fins : ∀ x, fins a x = ∅;
  tree_up : ∀ k y, T !! k = Some y → y ≠ 0;
  tree_parent : ∀ k1 k2 y, T !! k1 = Some y → T !! k2 = Some y → k1 = k2;
}.

Lemma append_atom_spec atom a s t : ∃ a', append_atom build atom a s t = Some a' ∧ num_states a' = num_states a ∧ start_state a' = start_state a ∧
  (s < num_states a → t < num_states a → s ≠ t → part a a' s (atom_lang atom) t).
Proof using Type.
  destruct atom as [b|set]; cbn [append_atom append_compiled_expr]; eexists; (split; [done|]).
  - cbn [append_byte_sequence_expr]. rewrite num_add_transition. split; [done|]. split; [done|]. intros. by apply add_transition_part.
  - split; [apply (lenN_alterN _ _ _ : num_states (add_u8set_transition a s set t) = _)|]. split; [done|]. intros. by apply add_u8set_part.
Qed.

Lemma tree_child a T x atom y w : tree a T → T !! (x, atom) = Some y → words T y w ↔ lcat (words T x) (atom_lang atom) w.
Proof using Type.
  intros [_ _ _ _ Hup Hpar] HT. unfold words. apply gpath_only.
  - intros <-. by apply Hup in HT.
  - by exists atom.
  - intros z K (atom' & HT' & ->). pose proof (Hpar _ _ _ HT HT'). by simplify_eq.
Qed.

(** The tree after one atom; the words to the old states are the same. *)
Definition followed (a : Nfa.t) (T : prefix_table) (K : lang) (st : Nfa.t * prefix_table * N) : Prop :=
  let '(a', T', s') := st in
  tree a' T' ∧ s' < num_states a' ∧ num_states a ≤ num_states a' ∧
  (∀ z w, z < num_states a → words T' z w ↔ words T z w) ∧ ∀ w, words T' s' w ↔ K w.

Lemma follow_atom_spec a T s atom : ∃ a' T' s', follow_atom build (a, T, s) atom = Some (a', T', s') ∧
  num_states a ≤ num_states a' ∧
  (num_states a' ≤ u32_modulus → tree a T → s < num_states a →
    followed a T (lcat (words T s) (atom_lang atom)) (a', T', s')).
Proof using Type.
  unfold follow_atom. destruct (T !! (s, atom)) as [target|] eqn:HT.
  - exists a, T, target. split; [done|]. split; [lia|]. intros _ Ht Hs. split; [done|].
    assert (He : tree_edges T s (atom_lang atom) target) by by exists atom.
    destruct (acts_ends _ _ _ (tree_acts _ _ Ht) _ _ _ He) as [_ Hlt]. split; [exact Hlt|]. split; [lia|]. split; [done|].
    intros w. by apply (tree_child a).
  - destruct (add_state a) as [t a1] eqn:Hadd. destruct (append_atom_spec atom a1 s t) as (a2 & Ha2 & Hn2 & Hst2 & Hp).
    pose proof (num_add_state _ _ _ Hadd) as Hn1. rewrite Ha2. cbn [mbind option_bind]. do 3 eexists. split; [done|]. split; [lia|].
    intros Hm Ht Hs. destruct Ht as [Hroot Hstart Hacts Hfins Hup Hpar].
    destruct (acts_add_state a _ _ t a1 Hacts Hadd ltac:(lia)) as [Hte Hacts1].
    destruct (add_state_ext a t a1 Hadd ltac:(lia)) as (_ & _ & [_ Hst1 Hf1 _]).
    specialize (Hp ltac:(lia) ltac:(lia) ltac:(lia)).
    assert (Hends : ∀ x L y, tree_edges T x L y → x < num_states a ∧ y < num_states a) by apply Hacts.
    assert (HnT : ∀ x atom' y, T !! (x, atom') = Some y → x < num_states a ∧ y < num_states a).
    { intros x atom' y H. apply (Hends x (atom_lang atom') y). by exists atom'. }
    assert (Hedges : ∀ x L y, eor (tree_edges T) (edge1 s (atom_lang atom) t) x L y ↔ tree_edges (<[(s, atom) := t]> T) x L y).
    { intros x L y. split.
      - intros [(atom' & H & ->)|(-> & -> & ->)].
        + exists atom'. rewrite lookup_insert_ne by congruence. done.
        + exists atom. by rewrite lookup_insert_eq.
      - intros (atom' & H & ->). destruct (decide ((s, atom) = (x, atom'))) as [Heq|Hne].
        + injection Heq as <- <-. rewrite lookup_insert_eq in H. injection H as <-. by right.
        + rewrite lookup_insert_ne in H by done. left. by exists atom'. }
    assert (Hnew : tree a2 (<[(s, atom) := t]> T)).
    { split.
      - lia.
      - congruence.
      - eapply acts_ext; [|exact Hedges|eapply (acts_part _ a2); [exact Hacts1| | |exact Hp]].
        + intros x. cbn. lia.
        + by left.
        + by right.
      - intros x. rewrite (part_fins _ _ _ _ _ _ Hp), Hf1. apply Hfins.
      - intros k y [[<- <-]|[_ H]]%lookup_insert_Some; [lia|by eapply Hup].
      - intros k1 k2 y [[<- <-]|[_ H1]]%lookup_insert_Some [[<- H2]|[_ H2]]%lookup_insert_Some; [done|..].
        + destruct k2 as [x2 at2]. apply HnT in H2. lia.
        + destruct k1 as [x1 at1]. apply HnT in H1. lia.
        + by eapply Hpar. }
    assert (Hold : ∀ z w, z < num_states a → words (<[(s, atom) := t]> T) z w ↔ words T z w).
    { intros z w Hz. unfold words. rewrite <-(gpath_leaf_old (tree_edges T) s (atom_lang atom) t); [|..|lia].
      - split; apply gpath_mono; intros; by apply Hedges.
      - intros K y H. apply Hends in H. lia.
      - intros x K H. apply Hends in H. lia.
      - lia. }
    split; [done|]. split; [lia|]. split; [lia|]. split; [done|].
    intros w. rewrite (tree_child a2 _ s atom t w Hnew) by apply lookup_insert_eq.
    split; apply lcat_mono; try done; intros u; by apply Hold.
Qed.

Lemma follow_prefix_spec a T prefix : ∃ a' T' s', foldM (follow_atom build) (a, T, 0) prefix = Some (a', T', s') ∧
  num_states a ≤ num_states a' ∧
  (num_states a' ≤ u32_modulus → tree a T → followed a T (atoms_lang prefix) (a', T', s')).
Proof using Type.
  destruct (foldM_grow (λ st : Nfa.t * prefix_table * N, num_states st.1.1) u32_modulus (λ _ _, True)
    (λ pre st, tree a T → followed a T (atoms_lang pre) st) (follow_atom build) prefix (a, T, 0))
    as ([[a' T'] s'] & Heq & _ & Hle & Hpost).
  - intros pre atom [[a1 T1] s1] _ _. destruct (follow_atom_spec a1 T1 s1 atom) as (a2 & T2 & s2 & Heq & Hle & Hpost).
    exists (a2, T2, s2). split; [done|]. split; [done|]. split; [done|]. cbn [fst]. intros Hm HI Ht.
    destruct (HI Ht) as (Ht1 & Hs1 & Hle1 & Hold1 & Hw1). destruct (Hpost Hm Ht1 Hs1) as (Ht2 & Hs2 & Hle2 & Hold2 & Hw2).
    split; [done|]. split; [done|]. split; [lia|]. split.
    + intros z w Hz. rewrite Hold2 by lia. by apply Hold1.
    + intros w. rewrite Hw2, (atoms_lang_app pre [atom] w). apply lcat_proper; [exact Hw1|]. symmetry. apply atoms_lang_one.
  - done.
  - intros Ht. split; [done|]. split; [apply (tree_root _ _ Ht)|]. split; [lia|]. split; [done|].
    intros w. unfold words. cbn. split.
    + intros [[_ ->]|(z & L & u & v & _ & _ & (atom & HT & _) & _)]%gpath_last; [done|]. by apply (tree_up _ _ Ht) in HT.
    + intros ->. constructor.
  - exists a', T', s'. split; [done|]. split; [exact Hle|]. intros Hm Ht. by apply Hpost.
Qed.

(** ** The terminals *)

(** The words of group [g] among the states that end and the states with a rest. *)
Definition ends (W : N → lang) (finals : list (N * N)) (opaque : list (N * N * Expr.t)) (g : N) : lang := λ w,
  (∃ z, (z, g) ∈ finals ∧ W z w) ∨ ∃ z rest, (z, g, rest) ∈ opaque ∧ lcat (W z) (denote rest) w.

Definition terminals (entries : list (N * Expr.t)) (g : N) : lang := λ w, ∃ e, (g, e) ∈ entries ∧ denote e w.

Abbreviation sharing := (Nfa.t * prefix_table * list (N * N) * list (N * N * Expr.t))%type.

Record shared (entries : list (N * Expr.t)) (st : sharing) : Prop := {
  shared_tree : tree st.1.1.1 st.1.1.2;
  shared_finals : ∀ z g, (z, g) ∈ st.1.2 → z < num_states st.1.1.1;
  shared_opaque : ∀ z g rest, (z, g, rest) ∈ st.2 → z < num_states st.1.1.1;
  shared_words : ∀ g w, terminals entries g w ↔ ends (words st.1.1.2) st.1.2 st.2 g w;
}.

Definition rests (st : sharing) : Prop := ∀ z g rest, (z, g, rest) ∈ st.2 → wf rest ∧ compilable ok rest.

Lemma ends_mono W W' finals opaque g w n :
  (∀ z g, (z, g) ∈ finals → z < n) → (∀ z g rest, (z, g, rest) ∈ opaque → z < n) →
  (∀ z w, z < n → W' z w ↔ W z w) → ends W' finals opaque g w ↔ ends W finals opaque g w.
Proof using Type.
  intros Hf Ho HW. split; (intros [(z & Hz & Hw)|(z & rest & Hz & Hw)]; [left; exists z; (split; [done|]); apply HW; eauto|]);
    right; exists z, rest; (split; [done|]); (eapply lcat_mono; [|done|exact Hw]); intros u; apply HW; eauto.
Qed.

Lemma share_prefix_spec st entry entries : ∃ st', share_prefix build st entry = Some st' ∧
  num_states st.1.1.1 ≤ num_states st'.1.1.1 ∧
  (rests st → wf entry.2 → compilable ok entry.2 → rests st') ∧
  (num_states st'.1.1.1 ≤ u32_modulus → shared entries st → shared (entries ++ [entry]) st').
Proof using Type.
  destruct st as [[[a T] finals] opaque], entry as [g e]. unfold share_prefix.
  destruct (deterministic_prefix_spec ok e) as (prefix & rest & -> & Hd & Hc).
  destruct (follow_prefix_spec a T prefix) as (a' & T' & s' & -> & Hle & Hpost). cbn [mbind option_bind].
  assert (Hterm : ∀ g' w, terminals (entries ++ [(g, e)]) g' w ↔ terminals entries g' w ∨ g' = g ∧ denote e w).
  { intros g' w. unfold terminals. split.
    - intros (e' & [He|He%list_elem_of_singleton]%elem_of_app & Hw); [left; eauto|]. injection He as -> ->. by right.
    - intros [(e' & He & Hw)|[-> Hw]]; eexists; (split; [apply elem_of_app|exact Hw]); [by left|right; by left]. }
  assert (Hgen : ∀ finals' opaque',
    (∀ z g', (z, g') ∈ finals' → (z, g') ∈ finals ∨ z = s') → (∀ z g' r, (z, g', r) ∈ opaque' → (z, g', r) ∈ opaque ∨ z = s' ∧ r = rest) →
    (∀ W g' w, ends W finals' opaque' g' w ↔ ends W finals opaque g' w ∨ g' = g ∧ lcat (W s') (denote rest) w) →
    num_states a ≤ num_states a' ∧ (rests (a, T, finals, opaque) → wf e → compilable ok e → rests (a', T', finals', opaque')) ∧
    (num_states a' ≤ u32_modulus → shared entries (a, T, finals, opaque) → shared (entries ++ [(g, e)]) (a', T', finals', opaque'))).
  { intros finals' opaque' Hf Ho HW. split; [done|]. split.
    - intros Hr Hwf Hok z g' r [H|[_ ->]]%Ho; [by apply (Hr z g' r)|]. by apply Hc.
    - intros Hm [Ht Hfin Hop Hw]. cbn [fst snd] in *. destruct (Hpost Hm Ht) as (Ht' & Hs' & _ & Hold & Hnew). split; cbn [fst snd].
      + done.
      + intros z g' [H|H]%Hf; [apply Hfin in H; lia|by subst z].
      + intros z g' r [H|[H _]]%Ho; [apply Hop in H; lia|by subst z].
      + intros g' w. rewrite Hterm, Hw, HW, <-(ends_mono (words T) (words T') finals opaque g' w (num_states a)) by eauto.
        enough (denote e w ↔ lcat (words T' s') (denote rest) w) by tauto. rewrite (Hd w).
        apply lcat_proper; [|done]. intros u. symmetry. apply Hnew. }
  assert (Hrest : ∃ st', (match rest with
      | Epsilon => Some (a', T', finals ++ [(s', g)], opaque) | remainder => Some (a', T', finals, opaque ++ [(s', g, remainder)]) end) = Some st' ∧
    num_states a ≤ num_states st'.1.1.1 ∧ (rests (a, T, finals, opaque) → wf e → compilable ok e → rests st') ∧
    (num_states st'.1.1.1 ≤ u32_modulus → shared entries (a, T, finals, opaque) → shared (entries ++ [(g, e)]) st')); [|exact Hrest].
  assert (Hother : let st' := (a', T', finals, opaque ++ [(s', g, rest)]) in
    num_states a ≤ num_states a' ∧ (rests (a, T, finals, opaque) → wf e → compilable ok e → rests st') ∧
    (num_states a' ≤ u32_modulus → shared entries (a, T, finals, opaque) → shared (entries ++ [(g, e)]) st')).
  { apply Hgen.
    - by left.
    - intros z g' r [?|H%list_elem_of_singleton]%elem_of_app; [by left|]. injection H as -> -> ->. by right.
    - intros W g' w. unfold ends. setoid_rewrite elem_of_app. setoid_rewrite list_elem_of_singleton. split.
      + intros [?|(z & r & [?|[= -> -> ->]] & Hw)]; [by left; left|left; right; eauto|by right].
      + intros [[?|(z & r & ? & Hw)]|[-> Hw]]; [by left|right; eauto|right; eauto]. }
  destruct rest; try (eexists; split; [reflexivity|exact Hother]). clear Hother. eexists. split; [reflexivity|]. apply Hgen.
  - intros z g' [?|H%list_elem_of_singleton]%elem_of_app; [by left|]. injection H as -> ->. by right.
  - by left.
  - intros W g' w. rewrite (lcat_eps_r (W s') w). unfold ends. setoid_rewrite elem_of_app. setoid_rewrite list_elem_of_singleton. split.
    + intros [(z & [?|[= -> ->]] & Hw)|?]; [left; left; eauto|by right|by left; right].
    + intros [[(z & ? & Hw)|?]|[-> Hw]]; [left; eauto|by right|left; eauto].
Qed.

(** ** Finalizers and what follows the tree *)

Lemma add_finals_spec finals a : 
  let a' := foldl (λ nfa '(state, group_id), add_finalizer nfa state group_id) a finals in
  num_states a' = num_states a ∧ start_state a' = start_state a ∧ (∀ O M, acts a O M → acts a' O M) ∧
  ((∀ z g, (z, g) ∈ finals → z < num_states a) → ∀ x g, g ∈ fins a' x ↔ g ∈ fins a x ∨ (x, g) ∈ finals).
Proof using Type.
  induction finals as [|[z h] finals IH] using rev_ind; cbn zeta; cbn [foldl].
  { split; [done|]. split; [done|]. split; [done|]. intros _ x g. split; [by left|]. by intros [?|?%elem_of_nil]. }
  rewrite foldl_app. cbn [foldl]. cbn zeta in IH. set (a1 := foldl _ a finals) in *. destruct IH as (Hn & Hs & Ha & Hf).
  rewrite finalizer_num. split; [done|]. split; [done|]. split; [intros; by apply acts_finalizer, Ha|].
  intros Hr x g. rewrite finalizer_fins, Hn.
  assert (Hz : z < num_states a) by (eapply Hr; apply elem_of_app; right; by left).
  assert (Hf' := Hf ltac:(intros z' g' ?; eapply Hr; apply elem_of_app; by left) x g).
  rewrite elem_of_app, list_elem_of_singleton. destruct (N.eqb_spec x z) as [->|Hne]; cbn [andb].
  - rewrite (proj2 (N.ltb_lt _ _) Hz), elem_of_union, elem_of_singleton, Hf'. split; [intros [->|[?|?]]|intros [?|[?|[= ->]]]]; tauto.
  - rewrite Hf'. split; [intros [?|?]|intros [?|[?|[= -> ->]]]]; tauto.
Qed.

(** The groups of a word among the visible states. *)
Definition accepts (a : Nfa.t) (O : N → Prop) (M : edges) (g : N) : lang := λ w, ∃ x, O x ∧ gpath M 0 w x ∧ g ∈ fins a x.

Record opened (W : N → lang) (n : N) (finals : list (N * N)) (done : list (N * N * Expr.t)) (a : Nfa.t) (O : N → Prop) (M : edges) : Prop := {
  opened_acts : acts a O M;
  opened_root : O 0;
  opened_start : start_state a = 0;
  opened_old : ∀ z w, z < n → O z ∧ (gpath M 0 w z ↔ W z w);
  opened_fins : ∀ x g, g ∈ fins a x → O x;
  opened_words : ∀ g w, accepts a O M g w ↔ ends W finals done g w;
}.

Lemma append_opaque_spec W n finals z g rest done a : wf rest → compilable ok rest →
  ∃ a', append_opaque build a (z, g, rest) = Some a' ∧ num_states a ≤ num_states a' ∧
    (num_states a' ≤ u32_modulus → z < n → (∃ O M, opened W n finals done a O M) → ∃ O M, opened W n finals (done ++ [(z, g, rest)]) a' O M).
Proof using BoundedRepeat0.
  intros Hwf Hok. unfold append_opaque. destruct (add_state a) as [t a1] eqn:Hadd. pose proof (num_add_state _ _ _ Hadd) as Hn1.
  destruct (append_good ok build rest Hwf Hok a1 z t) as (a2 & -> & Hle & Hp). cbn [mbind option_bind].
  eexists. split; [reflexivity|]. rewrite finalizer_num. split; [lia|].
  intros Hm Hz (O & M & [Hacts Hroot Hstart Hold Hvis Hw]). destruct (acts_add_state a _ _ t a1 Hacts Hadd ltac:(lia)) as [Ht Hacts1].
  destruct (add_state_ext a t a1 Hadd ltac:(lia)) as (_ & _ & [_ Hst1 Hf1 _]).
  destruct (Hold z [] Hz) as [HOz _]. pose proof (acts_range _ _ _ Hacts z HOz) as Hzr.
  assert (HOt : ¬ O t) by (intros H%(acts_range _ _ _ Hacts); lia).
  specialize (Hp Hm ltac:(lia) ltac:(lia) ltac:(lia)).
  assert (Hout : ∀ K y, ¬ M t K y) by (intros K y H; by destruct (acts_ends _ _ _ Hacts _ _ _ H)).
  assert (Hin : ∀ x K, ¬ M x K t) by (intros x K H; by destruct (acts_ends _ _ _ Hacts _ _ _ H)).
  assert (Hfins : ∀ x h, h ∈ fins (add_finalizer a2 t g) x ↔ h ∈ fins a x ∨ x = t ∧ h = g).
  { intros x h. rewrite finalizer_fins, (part_fins _ _ _ _ _ _ Hp), Hf1. destruct (N.eqb_spec x t) as [->|Hne]; cbn [andb].
    - rewrite (proj2 (N.ltb_lt t (num_states a2))) by lia. rewrite elem_of_union, elem_of_singleton. tauto.
    - tauto. }
  assert (Hstart2 : start_state a2 = start_state a1) by (by destruct Hp as (F & [_ Hs2 _ _] & _)).
  exists (λ x, O x ∨ x = t), (eor M (edge1 z (denote rest) t)). split.
  - apply acts_finalizer. eapply acts_part; [exact Hacts1| | |exact Hp]; [by left|by right].
  - by left.
  - cbn. congruence.
  - intros y w Hy. destruct (Hold y w Hy) as [HOy Hyw]. split; [by left|]. rewrite <-Hyw. apply gpath_leaf_old; try done; [congruence|].
    intros ->. done.
  - intros x h [H|[-> _]]%Hfins; [left; by eapply Hvis|by right].
  - intros h w.
    assert (Hnew : gpath (eor M (edge1 z (denote rest) t)) 0 w t ↔ lcat (W z) (denote rest) w).
    { rewrite gpath_leaf_new; try done; [|congruence|congruence]. apply lcat_proper; [|done]. intros u. by apply Hold. }
    assert (Hends : ends W finals (done ++ [(z, g, rest)]) h w ↔ ends W finals done h w ∨ h = g ∧ lcat (W z) (denote rest) w).
    { unfold ends. setoid_rewrite elem_of_app. setoid_rewrite list_elem_of_singleton. split.
      - intros [?|(z' & r & [?|[= -> -> ->]] & Hr)]; [by left; left|left; right; eauto|by right].
      - intros [[?|(z' & r & ? & Hr)]|[-> Hr]]; [by left|right; eauto|right; eauto]. }
    rewrite Hends, <-Hw, <-Hnew. unfold accepts. setoid_rewrite Hfins. split.
    + intros (x & [HO| ->] & Hpath & [Hh|[Hx ->]]).
      * left. exists x. split; [done|]. split; [|done]. apply gpath_leaf_old in Hpath; try done; [congruence|]. by intros ->.
      * by subst x.
      * by apply Hvis in Hh.
      * by right.
    + intros [(x & HO & Hpath & Hh)|[-> Hpath]].
      * exists x. split; [by left|]. split; [|by left]. apply gpath_mono with (2 := Hpath). by left.
      * exists t. split; [by right|]. split; [done|by right].
Qed.

(** ** The whole automaton *)

Lemma append_expressions_spec entries : Forall (λ entry, wf entry.2 ∧ compilable ok entry.2) entries →
  ∃ a', append_prefix_shared_expressions build (Nfa.new 1) entries = Some a' ∧
    (num_states a' ≤ u32_modulus → ∃ O M, acts a' O M ∧ O 0 ∧ start_state a' = 0 ∧ (∀ x g, g ∈ fins a' x → O x) ∧
      ∀ g w, accepts a' O M g w ↔ terminals entries g w).
Proof using BoundedRepeat0.
  intros Hall. rewrite Forall_forall in Hall. unfold append_prefix_shared_expressions.
  destruct (foldM_grow (λ st : sharing, num_states st.1.1.1) u32_modulus (λ _, rests) shared (share_prefix build) entries (Nfa.new 1, ∅, [], []))
    as ([[[a1 T] finals] opaque] & Heq & Hrests & Hle & Hshared).
  - intros pre entry st Hin Hr. destruct (share_prefix_spec st entry pre) as (st' & ? & ? & Hr' & ?).
    exists st'. destruct (Hall entry Hin). split; [done|]. split; [by apply Hr'|]. by split.
  - intros z g r H. by apply elem_of_nil in H.
  - split; cbn [fst snd].
    + split; cbn [fst snd].
      * reflexivity.
      * reflexivity.
      * apply (acts_ext _ (λ x, x < num_states (Nfa.new 1)) _ (nfa_edge (Nfa.new 1))); [done| |apply acts_self; intros x L y H; by apply new_edges in H].
        intros x L y. split; [intros H; by apply new_edges in H|]. intros (atom & H & _). by rewrite lookup_empty in H.
      * apply new_fins.
      * intros k y H. by rewrite lookup_empty in H.
      * intros k1 k2 y H. by rewrite lookup_empty in H.
    + intros z g H. by apply elem_of_nil in H.
    + intros z g r H. by apply elem_of_nil in H.
    + intros g w. split; [by intros (e & ?%elem_of_nil & _)|]. intros [(z & ?%elem_of_nil & _)|(z & r & ?%elem_of_nil & _)]; done.
  - rewrite Heq. cbn [mbind option_bind]. destruct (add_finals_spec finals a1) as (Hn2 & Hst2 & Hacts2 & Hf2). cbn zeta in *.
    match type of Hn2 with num_states ?x = _ => set (a2 := x) in * end. clearbody a2. cbn [fst snd] in *.
    destruct (foldM_grow num_states u32_modulus (λ _ _, True)
      (λ pre a, shared entries (a1, T, finals, opaque) → ∃ O M, opened (words T) (num_states a1) finals pre a O M) (append_opaque build) opaque a2)
      as (a3 & Ha3 & _ & Hle3 & Hpost).
    + intros pre [[z g] rest] a Hin _. destruct (Hrests z g rest Hin) as [Hwf Hok].
      destruct (append_opaque_spec (words T) (num_states a1) finals z g rest pre a Hwf Hok) as (a' & ? & ? & Hp).
      exists a'. split; [done|]. split; [done|]. split; [done|]. intros Hm HI Hs.
      apply Hp; [done|by eapply (shared_opaque _ _ Hs)|by apply HI].
    + done.
    + intros [[Hroot Hstart Hacts Hnone Hup Hpar] Hfr _ _]. cbn [fst snd] in *. specialize (Hf2 Hfr).
      assert (Hin : ∀ x g, g ∈ fins a2 x ↔ (x, g) ∈ finals) by (intros x g; rewrite Hf2, Hnone; split; [intros [?%elem_of_empty|?]; done|by right]).
      exists (λ x, x < num_states a1), (tree_edges T). split; try done.
      * by apply Hacts2.
      * congruence.
      * intros x g Hg%Hin. by eapply Hfr.
      * intros g w. unfold accepts, ends. setoid_rewrite Hin. split.
        -- intros (x & _ & Hp & Hg). left. by exists x.
        -- intros [(x & Hg & Hp)|(z & r & ?%elem_of_nil & _)]; [|done]. exists x. split; [by eapply Hfr|done].
    + exists a3. split; [done|]. intros Hm. specialize (Hshared ltac:(lia)).
      destruct (Hpost Hm Hshared) as (O & M & [Ha Hr Hs Ho Hf Hw]). exists O, M. split; [done|]. split; [done|]. split; [done|]. split; [done|].
      intros g w. rewrite Hw. symmetry. apply (shared_words _ _ Hshared).
Qed.

Lemma nfa_path_gpath a x w y : nfa_path a x w y ↔ gpath (nfa_edge a) x w y.
Proof using Type.
  split.
  - induction 1 as [s|s t u w (row & Hrow & Hin) _ IH|s t u b w row set Hrow Hin Hb _ IH]; [constructor|..].
    + apply (gpath_step _ s leps t u [] w); [by eapply nfa_epsilon|done|done].
    + apply (gpath_step _ s (class_lang set) t u [b] w); [by eapply nfa_byte|by exists b|done].
  - induction 1 as [s|s L z t u v [row set z' Hrow Hin|row z' Hrow Hin] Hu _ IH]; [constructor|..].
    + destruct Hu as (b & -> & Hb). by eapply path_byte.
    + red in Hu. subst u. eapply path_epsilon; [by exists row|done].
Qed.

Lemma matches_accepts a O M g w : acts a O M → O 0 → start_state a = 0 → (∀ x h, h ∈ fins a x → O x) →
  nfa_matches a w g ↔ accepts a O M g w.
Proof using Type.
  intros Ha H0 Hs Hf. unfold nfa_matches, accepts. rewrite Hs. split.
  - intros (x & row & Hp%nfa_path_gpath & Hrow & Hg). assert (Hin : g ∈ fins a x) by (unfold fins; by rewrite Hrow).
    exists x. split; [by eapply Hf|]. split; [|done]. apply (acts_paths _ _ _ Ha); [done|by eapply Hf|done].
  - intros (x & HO & Hp & Hg). unfold fins in Hg. destruct ((states a).[x]) as [row|] eqn:Hrow; [|by apply elem_of_empty in Hg].
    exists x, row. split; [|done]. apply nfa_path_gpath. by apply (acts_paths _ _ _ Ha).
Qed.

(** What simplification leaves is what the compiler accepts. *)
Definition compiles (e : Expr.t) : Prop := wf e ∧ ∀ e', optimize e = Some e' → compilable ok e'.

Lemma build_spec exprs : Forall compiles exprs → lenN exprs ≤ u32_modulus →
  ∃ a, build_regex_nfa build exprs = Some a ∧
    (num_states a ≤ u32_modulus → start_state a = 0 ∧ 0 < num_states a ∧ nfa_closed a ∧
      ∀ w g, nfa_matches a w g ↔ ∃ e, exprs.[g] = Some e ∧ denote e w).
Proof using BoundedRepeat0.
  intros Hall Hlen. assert (Hwf : Forall wf exprs) by (eapply Forall_impl; [exact Hall|]; by intros e []). unfold build_regex_nfa, build_regex_nfa_impl.
  destruct (mapM_refines optimize exprs) as (opt & Hopt & Hr).
  { eapply Forall_impl; [exact Hwf|]. intros e He. by apply optimize_spec. }
  rewrite Hopt. cbn [mbind option_bind].
  assert (Hs : Forall (compilable ok) opt).
  { apply mapM_Some in Hopt. clear Hr Hwf Hlen. induction Hopt as [|e e' l l' He _ IH]; [constructor|].
    apply Forall_cons in Hall as [[_ Hc] Hall]. constructor; [by apply Hc|by apply IH]. }
  assert (Hw : Forall wf opt) by by destruct (refines_list _ _ Hr).
  set (entries := (λ '(i, e), (as_u32 i, e)) <$> enumerate opt).
  assert (Hel : length opt = length exprs) by (symmetry; by eapply Forall2_length).
  assert (Hin : ∀ g e, (g, e) ∈ entries ↔ opt.[g] = Some e).
  { intros g e. unfold entries. rewrite list_elem_of_fmap. split.
    - intros ([i e'] & [= -> ->] & Hi%elem_of_enumerate). rewrite as_u32_small; [done|]. apply nthN_lt in Hi. unfold lenN in *. lia.
    - intros Hg. exists (g, e). split; [|by apply elem_of_enumerate]. rewrite as_u32_small; [done|]. apply nthN_lt in Hg. unfold lenN in *. lia. }
  destruct (append_expressions_spec entries) as (a & Ha & Hpost).
  { apply Forall_forall. intros [g e] He%Hin. cbn. rewrite nthN_lookup in He. split.
    - by eapply Forall_lookup in Hw.
    - by eapply Forall_lookup in Hs. }
  exists a. split; [done|]. intros Hm. destruct (Hpost Hm) as (O & M & Hacts & HO & Hst & Hvis & Hacc). split; [done|].
  split; [by apply (acts_range _ _ _ Hacts) in HO; lia|]. split.
  - split.
    + intros s t (row & Hrow & Ht). apply (acts_closed _ _ _ Hacts s leps t). by eapply nfa_epsilon.
    + intros s row set t Hrow Ht. apply (acts_closed _ _ _ Hacts s (class_lang set) t). by eapply nfa_byte.
  - intros w g. rewrite (matches_accepts a O M g w Hacts HO Hst Hvis), Hacc. unfold terminals. setoid_rewrite Hin.
    split; intros (e & He & Hd); rewrite nthN_lookup in He.
    + destruct (Forall2_lookup_r _ _ _ _ _ Hr He) as (e' & He' & _ & Hde). exists e'. rewrite nthN_lookup. split; [done|]. by apply Hde.
    + destruct (Forall2_lookup_l _ _ _ _ _ Hr He) as (e' & He' & _ & Hde). exists e'. rewrite nthN_lookup. split; [done|]. by apply Hde.
Qed.
End build.

(** A choice between byte classes without bytes. *)
Definition hollow_choice : Expr.t := Choice [U8Class U8Set.empty; U8Class U8Set.empty].

(** C39: a choice of empty byte classes denotes no word, but simplification
    drops both classes and the compiler reads the choice without options as an
    epsilon edge: the automaton accepts the empty word. *)
Theorem build_regex_nfa_hollow_choice (build : Expr.t → N → N → option (option LexDFA.t)) :
  (∀ w, ¬ denote hollow_choice w) ∧ is_nullable hollow_choice = Some false ∧
  ∃ a, build_regex_nfa build [hollow_choice] = Some a ∧ nfa_matches a [] 0.
Proof.
  split; [|split; [reflexivity|]].
  - intros w [(b & _ & Hb)|[(b & _ & Hb)|[]]]; by rewrite U8SetFacts.contains_empty in Hb.
  - eexists. split; [reflexivity|]. exists 1. eexists. split; [|split; [reflexivity|vm_compute; reflexivity]].
    eapply path_epsilon; [|constructor]. eexists. split; [reflexivity|by left].
Qed.
