(* ===== verification/LexBounded.v ===== *)
(** The direct automaton of a bounded repetition
    (crates/glrmask-lexer/src/automata/lexer/compile.rs): one copy of the
    automaton of the body per number of repetitions done, when no word of the
    body is a prefix of another; what it accepts, and the bodies it gets wrong. *)

From stdpp Require Import relations.
From S2P Require Import Prelude Bits U8Set BitSet CharTransitions LexDfa Search Lang LexAst LexAstLang LexFragment LexParts LexBuild.

(** * Definitions *)

Definition state_accepts (state : LexState.t) : bool := negb (BitSet.is_empty (LexState.finalizers state)).

(** The pairs pushed on [reverse_edges], in order. *)
Definition transition_edges (d : LexDFA.t) : list (N * N) :=
  '(state_id, state) ← enumerate (LexDFA.states d);
  (λ '(_, target), (as_u32 state_id, target)) <$> CharTransitions.iter (LexState.transitions state).

(** The accepting states are marked and stacked. *)
Definition push_accepting : list bool * list N → N * LexState.t → list bool * list N := mark_seed push_top state_accepts.

Definition productive_dfa_states (d : LexDFA.t) : option (list bool) :=
  let n := length (LexDFA.states d) in
  reverse ← reverse_edges n (transition_edges d);
  mark_search push_top reverse (foldl push_accepting (replicate n false, []) (enumerate (LexDFA.states d))).

(** No edge from an accepting state to a productive one. *)
Definition row_prefix_free (productive : list bool) (state : LexState.t) : option bool :=
  if negb (state_accepts state) then Some true
  else Expr.allM (λ '(_, target), negb <$> productive.[target]) (CharTransitions.iter (LexState.transitions state)).

Definition dfa_is_nonnullable_and_prefix_free (d : LexDFA.t) : option bool :=
  first ← LexDFA.finalizers d 0;
  if negb (BitSet.is_empty first) then Some false
  else productive ← productive_dfa_states d; Expr.allM (row_prefix_free productive) (LexDFA.states d).

(** [x.checked_add(y)] and [x.checked_mul(y)] on [usize] *)
Definition usize_try (x : N) : option N := if x <=? usize_max then Some x else None.

Section layers.
Context (base : LexDFA.t) (productive : list bool) (min max : N).
Let n := LexDFA.num_states base.

Definition layer_target (copies_done target : N) : option N :=
  finalizers ← LexDFA.finalizers base target;
  Some (if negb (BitSet.is_empty finalizers) then as_u32 ((copies_done + 1) * n) else as_u32 (copies_done * n + target)).

(** The body of the loops: one state of one copy. *)
Definition layer_state (copies_done : N) (dfa : LexDFA.t) (entry : N * LexState.t) : option LexDFA.t :=
  let '(state_id, state) := entry in
  let mapped_state := as_u32 (copies_done * n + state_id) in
  let finalizers := if (state_id =? 0) && (min <=? copies_done) then BitSet.set (BitSet.new 1) 0 else BitSet.new 1 in
  live ← (if copies_done <? max then productive.[state_id] else Some false);
  let future := if (live : bool) then BitSet.set (BitSet.new 1) 0 else BitSet.new 1 in
  let dfa := LexDFA.overwrite_state_metadata dfa mapped_state finalizers future in
  stop ← (if copies_done =? max then Some true
          else base_finalizers ← LexDFA.finalizers base (as_u32 state_id); Some (negb (BitSet.is_empty base_finalizers)));
  if (stop : bool) then Some dfa
  else
    transitions ← mapM (λ '(byte, target), mapped_target ← layer_target copies_done target; Some (byte, mapped_target))
      (CharTransitions.iter (LexState.transitions state));
    Some (LexDFA.set_transitions_from_sorted_entries dfa mapped_state transitions).

Definition layer (dfa : LexDFA.t) (copies_done : N) : option LexDFA.t :=
  foldM (layer_state copies_done) dfa (enumerate (LexDFA.states base)).
End layers.

(** The outer option is a panic, the inner one declines. *)
Definition build_bounded_repeat_dfa_from_base (base_dfa : LexDFA.t) (min max : N) : option (option LexDFA.t) :=
  if max <? min then Some None
  else
    let base_state_count := lenN (LexDFA.states base_dfa) in
    match (layers ← usize_try (max + 1); total ← usize_try (layers * base_state_count); u32_try_from total) with
    | None => Some None
    | Some total_states =>
        productive ← productive_dfa_states base_dfa;
        dfa ← foldM (layer base_dfa productive min max) (LexDFA.ensure_group_capacity (LexDFA.new total_states) 1) (seqN (N.to_nat (max + 1)));
        Some (Some dfa)
    end.

(** * Productive states *)

Lemma set_one_not_empty : BitSet.is_empty (BitSet.set (BitSet.new 1) 0) = false.
Proof. reflexivity. Qed.

Lemma new_one_empty : BitSet.is_empty (BitSet.new 1) = true.
Proof. reflexivity. Qed.

(** The byte edges of an automaton without their labels. *)
Definition target_edge (d : LexDFA.t) (s t : N) : Prop :=
  ∃ row b, (LexDFA.states d).[s] = Some row ∧ (b, t) ∈ CharTransitions.iter (LexState.transitions row).

Definition accepts_at (d : LexDFA.t) (s : N) : Prop := ∃ row, (LexDFA.states d).[s] = Some row ∧ state_accepts row = true.

Definition productive_at (d : LexDFA.t) (s : N) : Prop := ∃ t, accepts_at d t ∧ rtc (target_edge d) s t.

Lemma elem_of_transition_edges d s t : LexDFA.num_states d ≤ u32_modulus → (s, t) ∈ transition_edges d ↔ target_edge d s t.
Proof.
  intros Hn. unfold transition_edges. rewrite list_elem_of_bind. split.
  - intros ([i row] & Hin%list_elem_of_fmap & Hrow%elem_of_enumerate). destruct Hin as ([b u] & [= -> ->] & Hin).
    rewrite as_u32_small; [by exists row, b|]. apply nthN_lt in Hrow. fold (LexDFA.num_states d) in Hrow. lia.
  - intros (row & b & Hrow & Hin). exists (s, row). split; [|by apply elem_of_enumerate].
    apply list_elem_of_fmap. exists (b, t). split; [|done]. rewrite as_u32_small; [done|].
    apply nthN_lt in Hrow. fold (LexDFA.num_states d) in Hrow. lia.
Qed.

Lemma target_edge_lt d s t : dfa_ok d → target_edge d s t → s < LexDFA.num_states d ∧ t < LexDFA.num_states d.
Proof.
  intros [_ Hok] (row & b & Hrow & Hin). split; [by eapply nthN_lt|].
  destruct (Hok row ltac:(apply nthN_elem_of; by exists s)) as [Hb _]. by eapply Hb.
Qed.

(** The states from which a word is accepted. *)
Lemma productive_states_spec d : dfa_ok d → LexDFA.num_states d ≤ u32_modulus →
  ∃ productive, productive_dfa_states d = Some productive ∧ lenN productive = LexDFA.num_states d ∧
    ∀ s, productive.[s] = Some true ↔ productive_at d s.
Proof.
  intros Hok Hn. unfold productive_dfa_states, push_accepting. pose proof (mark_seed_spec push_top state_accepts (LexDFA.states d) push_top_perm) as Hp. cbn zeta in Hp.
  destruct (foldl (mark_seed push_top state_accepts) _ _) as [marks work]. cbn [fst snd] in Hp. destruct Hp as (Hl & Hnd & Hw & Hm).
  destruct (backward_search_spec push_top (length (LexDFA.states d)) (transition_edges d) marks work) as (rows & marks' & -> & Hs & Hl' & Hmk).
  - done.
  - intros s t Hst%elem_of_transition_edges; [|done]. by apply target_edge_lt.
  - done.
  - done.
  - done.
  - cbn [mbind option_bind]. exists marks'. split; [done|]. split; [unfold lenN; by rewrite Hl'|]. intros s. rewrite Hmk. unfold productive_at.
    assert (Hrtc : ∀ x y, rtc (λ s t, (s, t) ∈ transition_edges d) x y ↔ rtc (target_edge d) x y).
    { intros x y. split; (induction 1 as [|u v w Huv _ IH]; [done|]; eapply rtc_l; [|exact IH]); by apply elem_of_transition_edges. }
    split; intros (t & Ht & Hr); exists t; (split; [by apply Hw|by apply Hrtc]).
Qed.

(** * What an accepted check promises *)

Lemma allM_true {A} (f : A → option bool) l : Expr.allM f l = Some true → ∀ x, x ∈ l → f x = Some true.
Proof.
  induction l as [|y l IH]; cbn [Expr.allM]; intros H x Hx; [by apply elem_of_nil in Hx|].
  destruct (f y) as [[|]|] eqn:Hy; cbn in H; try discriminate. apply elem_of_cons in Hx as [->|Hx]; [done|by apply IH].
Qed.

(** State 0 accepts nothing and an accepting state leads to no accepting state. *)
Lemma prefix_free_check d : dfa_ok d → LexDFA.num_states d ≤ u32_modulus → dfa_is_nonnullable_and_prefix_free d = Some true →
  ¬ accepts_at d 0 ∧ ∀ s t, accepts_at d s → target_edge d s t → ¬ productive_at d t.
Proof.
  intros Hok Hn. unfold dfa_is_nonnullable_and_prefix_free, LexDFA.finalizers.
  destruct ((LexDFA.states d).[0]) as [row0|] eqn:H0; [|done]. cbn [fmap option_fmap option_map mbind option_bind].
  destruct (BitSet.is_empty (LexState.finalizers row0)) eqn:Ef; [|done]. cbn [negb].
  destruct (productive_states_spec d Hok Hn) as (productive & -> & _ & Hp). cbn [mbind option_bind]. intros Hall. split.
  - intros (row & Hrow & Ha). rewrite H0 in Hrow. injection Hrow as <-. unfold state_accepts in Ha. by rewrite Ef in Ha.
  - intros s t (row & Hrow & Ha) (row' & b & Hrow' & Hin) Hpt. rewrite Hrow in Hrow'. injection Hrow' as <-.
    pose proof (allM_true _ _ Hall row ltac:(apply nthN_elem_of; by exists s)) as Hr. unfold row_prefix_free in Hr. rewrite Ha in Hr. cbn [negb] in Hr.
    pose proof (allM_true _ _ Hr (b, t) Hin) as Ht. cbn in Ht. apply Hp in Hpt. by rewrite Hpt in Ht.
Qed.

(** * The layers *)

Section layers.
Context (base : LexDFA.t) (productive : list bool) (min max total : N).
Let n := LexDFA.num_states base.
Context (Hok : dfa_ok base) (Hprod : lenN productive = n) (Htotal : total = (max + 1) * n) (Hsmall : total < u32_modulus).

Definition final (t : N) : bool := match (LexDFA.states base).[t] with Some row => state_accepts row | None => false end.

Lemma final_accepts t : final t = true ↔ accepts_at base t.
Proof using All.
  unfold final, accepts_at. destruct (_.[t]) as [row|]; [|by split; [|intros (? & ? & _)]].
  split; [by exists row|]. by intros (? & [= <-] & ?).
Qed.

Definition target_of (c t : N) : N := if final t then (c + 1) * n else c * n + t.

(** Row [c * n + s] of the result. *)
Definition layer_row (c s : N) (row : LexState.t) : Prop :=
  LexState.epsilon_transitions row = [] ∧ state_accepts row = (s =? 0) && (min <=? c) ∧
  ∀ b y, (b, y) ∈ CharTransitions.iter (LexState.transitions row) ↔
    c < max ∧ final s = false ∧ ∃ brow t, (LexDFA.states base).[s] = Some brow ∧ (b, t) ∈ CharTransitions.iter (LexState.transitions brow) ∧ y = target_of c t.

Definition blank_row (row : LexState.t) : Prop :=
  LexState.epsilon_transitions row = [] ∧ CharTransitions.iter (LexState.transitions row) = [].

(** The first [m] rows are written. *)
Definition written (m : N) (d : LexDFA.t) : Prop :=
  LexDFA.num_states d = total ∧ ∀ x row, (LexDFA.states d).[x] = Some row →
    if x <? m then ∀ c s, x = c * n + s → s < n → layer_row c s row else blank_row row.

Lemma n_pos : 0 < n.
Proof using All. apply Hok. Qed.

Lemma index_lt c s : c ≤ max → s < n → c * n + s < total.
Proof using All. intros Hc Hs. rewrite Htotal. nia. Qed.

Lemma index_inj c s c' s' : s < n → s' < n → c * n + s = c' * n + s' → c = c' ∧ s = s'.
Proof using All. intros Hs Hs' Heq. assert (c = c') by nia. subst. lia. Qed.

Lemma final_lookup t : t < n → (finalizers ← LexDFA.finalizers base t; Some (negb (BitSet.is_empty finalizers))) = Some (final t).
Proof using All. intros [row Hrow]%nthN_Some_lt. unfold LexDFA.finalizers, final. rewrite Hrow. done. Qed.

Lemma layer_target_spec c t : t < n → c < max → layer_target base c t = Some (target_of c t).
Proof using All.
  intros Ht Hc. unfold layer_target. pose proof (final_lookup t Ht) as Hf. destruct (LexDFA.finalizers base t) as [f|]; [|done].
  cbn [mbind option_bind] in *. injection Hf as ->. unfold target_of. fold n.
  rewrite !as_u32_small; [done|..]; rewrite Htotal in Hsmall; nia.
Qed.

Lemma layer_state_spec c s state d : c ≤ max → (LexDFA.states base).[s] = Some state → written (c * n + s) d →
  ∃ d', layer_state base productive min max c d (s, state) = Some d' ∧ written (c * n + s + 1) d'.
Proof using All.
  intros Hc Hstate [Hnum Hw]. pose proof (nthN_lt _ _ _ Hstate) as Hs. fold (LexDFA.num_states base) n in Hs.
  pose proof (index_lt c s Hc Hs) as Hidx. unfold layer_state. fold n. rewrite (as_u32_small (c * n + s)) by lia.
  assert (Hlive : ∃ live, (if c <? max then productive.[s] else Some false) = Some live).
  { destruct (c <? max); [|by eexists]. destruct (proj1 (nthN_Some_lt productive s)) as [y Hy]; [lia|]. by exists y. }
  destruct Hlive as [live ->]. cbn [mbind option_bind].
  set (fin := if (s =? 0) && (min <=? c) then _ else _). set (fut := if live then _ else _). clearbody fut.
  assert (Hfin : negb (BitSet.is_empty fin) = (s =? 0) && (min <=? c)).
  { unfold fin. destruct (_ && _); [by rewrite set_one_not_empty|by rewrite new_one_empty]. } clearbody fin.
  assert (Hstop : (if c =? max then Some true else base_finalizers ← LexDFA.finalizers base (as_u32 s); Some (negb (BitSet.is_empty base_finalizers))) =
    Some ((c =? max) || final s)).
  { destruct (c =? max); [done|]. rewrite as_u32_small; [by apply final_lookup|]. rewrite Htotal in Hsmall. nia. }
  rewrite Hstop. cbn [mbind option_bind]. clear Hstop.
  set (d1 := LexDFA.overwrite_state_metadata d (c * n + s) fin fut).
  assert (Hrow1 : ∀ x, (LexDFA.states d1).[x] = if x =? c * n + s then (λ st, LexState.set_future (λ _, fut) (LexState.set_finalizers (λ _, fin) st)) <$> (LexDFA.states d).[x] else (LexDFA.states d).[x]).
  { intros x. apply nthN_alterN. }
  assert (Hn1 : LexDFA.num_states d1 = total) by (rewrite <-Hnum; apply lenN_alterN).
  assert (Hold : ∀ x row, x ≠ c * n + s → (LexDFA.states d).[x] = Some row →
    if x <? c * n + s + 1 then ∀ c' s', x = c' * n + s' → s' < n → layer_row c' s' row else blank_row row).
  { intros x row Hne Hr. specialize (Hw x row Hr). destruct (N.ltb_spec x (c * n + s)), (N.ltb_spec x (c * n + s + 1)); try done; lia. }
  assert (Hblank : ∀ row, (LexDFA.states d).[c * n + s] = Some row → blank_row row).
  { intros row Hr. specialize (Hw _ _ Hr). by rewrite N.ltb_irrefl in Hw. }
  assert (Hnew : ∀ d' trs, LexDFA.num_states d' = total →
    (∀ x, (LexDFA.states d').[x] = if x =? c * n + s then (λ st, LexState.set_transitions trs (LexState.set_future (λ _, fut) (LexState.set_finalizers (λ _, fin) st))) <$> (LexDFA.states d).[x] else (LexDFA.states d).[x]) →
    (∀ row b y, blank_row row → (b, y) ∈ CharTransitions.iter (trs (LexState.transitions row)) ↔
      c < max ∧ final s = false ∧ ∃ brow t, (LexDFA.states base).[s] = Some brow ∧ (b, t) ∈ CharTransitions.iter (LexState.transitions brow) ∧ y = target_of c t) →
    written (c * n + s + 1) d').
  { intros d' trs Hn' Hrows Htrs. split; [done|]. intros x row. rewrite Hrows. destruct (N.eqb_spec x (c * n + s)) as [->|Hne]; [|by apply Hold].
    destruct ((LexDFA.states d).[c * n + s]) as [row0|] eqn:Hr0; [|done]. intros [= <-]. specialize (Hblank row0 eq_refl).
    rewrite (proj2 (N.ltb_lt _ _)) by lia. intros c' s' Heq Hs'. destruct (index_inj c s c' s' Hs Hs' Heq) as [<- <-].
    split; [apply Hblank|]. split; [exact Hfin|]. intros b y. by apply Htrs. }
  destruct ((c =? max) || final s) eqn:Est.
  - eexists. split; [done|]. apply (Hnew d1 (λ t, t)); [done| |].
    + intros x. rewrite Hrow1. destruct (x =? _); [|done]. by destruct (_.[x]) as [[]|].
    + intros row b y [_ ->]. split; [by intros ?%elem_of_nil|]. intros (Hlt & Hf & _). rewrite Hf, orb_false_r in Est. apply N.eqb_eq in Est. lia.
  - apply orb_false_iff in Est as [Hcm%N.eqb_neq Hfs].
    assert (Hmap : ∀ l, (∀ b t, (b, t) ∈ l → t < n) →
      mapM (λ '(byte, target), mapped_target ← layer_target base c target; Some (byte, mapped_target)) l = Some ((λ e : N * N, (e.1, target_of c e.2)) <$> l)).
    { induction l as [|[b t] l IH]; intros Hl; [done|]. cbn [mapM]. rewrite layer_target_spec; [|by eapply Hl; left|lia].
      cbn [mbind option_bind]. rewrite IH; [done|]. intros b' t' ?. eapply Hl. by right. }
    rewrite Hmap.
    2:{ intros b t Hin. destruct Hok as [_ Hok']. destruct (Hok' state ltac:(apply nthN_elem_of; by exists s)) as [Hb _]. by eapply Hb. }
    cbn [mbind option_bind]. set (entries := _ <$> _).
    eexists. split; [done|]. apply (Hnew _ (λ _, CharTransitions.from_sorted_entries entries)); [by rewrite <-Hn1; apply lenN_alterN|..].
    + intros x. unfold LexDFA.set_transitions_from_sorted_entries, LexDFA.with_state, LexDFA.set_states. cbn [LexDFA.states].
      rewrite nthN_alterN. change (LexDFA.states (LexDFA.invalidate_structural_caches d1)) with (LexDFA.states d1). rewrite Hrow1.
      destruct (x =? c * n + s); [|done]. by destruct (_.[x]).
    + intros row b y _. change (CharTransitions.iter (CharTransitions.from_sorted_entries entries)) with entries. unfold entries. rewrite list_elem_of_fmap. split.
      * intros ([b' t] & [= -> ->] & Hin). split; [lia|]. split; [done|]. exists state, t. done.
      * intros (_ & _ & brow & t & Hbr & Hin & ->). rewrite Hstate in Hbr. injection Hbr as <-. by exists (b, t).
Qed.
Lemma layer_spec c d : c ≤ max → written (c * n) d → ∃ d', layer base productive min max d c = Some d' ∧ written ((c + 1) * n) d'.
Proof using All.
  intros Hc Hw. unfold layer.
  destruct (foldM_enumerate (λ k, written (c * n + k)) (layer_state base productive min max c) d (LexDFA.states base)) as (d' & Hd' & Hw').
  - intros k state dk Hk Hwk. rewrite N.add_assoc. by apply layer_state_spec.
  - by rewrite N.add_0_r.
  - exists d'. split; [done|]. fold (LexDFA.num_states base) n in Hw'. by replace ((c + 1) * n) with (c * n + n) by lia.
Qed.

Lemma layers_spec d : written 0 d →
  ∃ d', foldM (layer base productive min max) d (seqN (N.to_nat (max + 1))) = Some d' ∧ LexDFA.num_states d' = total ∧
    ∀ c s, c ≤ max → s < n → ∃ row, (LexDFA.states d').[c * n + s] = Some row ∧ layer_row c s row.
Proof using All.
  intros Hw.
  destruct (foldM_seqN (λ c, written (c * n)) (layer base productive min max) d (N.to_nat (max + 1))) as (d' & Hd' & Hw').
  - intros c dc Hc Hwc. apply layer_spec; [lia|done].
  - by rewrite N.mul_0_l.
  - exists d'. split; [done|]. replace (N.of_nat (N.to_nat (max + 1)) * n) with total in Hw' by lia. destruct Hw' as [Hn Hrows]. split; [done|].
    intros c s Hc Hs. pose proof (index_lt c s Hc Hs) as Hi. rewrite <-Hn in Hi. apply nthN_Some_lt in Hi as [row Hrow]. exists row. split; [done|].
    specialize (Hrows _ _ Hrow). rewrite (proj2 (N.ltb_lt _ _)) in Hrows by (by apply index_lt). by apply Hrows.
Qed.

Lemma start_written : written 0 (LexDFA.ensure_group_capacity (LexDFA.new total) 1).
Proof using All.
  assert (Hst : LexDFA.states (LexDFA.ensure_group_capacity (LexDFA.new total) 1) =
    LexDFA.resize_state_group_bits 1 <$> replicate (N.to_nat total) LexState.default) by reflexivity.
  unfold written, LexDFA.num_states. rewrite Hst. split.
  - unfold lenN. rewrite length_fmap, length_replicate. lia.
  - intros x row. replace (x <? 0) with false by (symmetry; apply N.ltb_ge; lia). rewrite nthN_fmap, nthN_replicate.
    case_match; [|done]. by intros [= <-].
Qed.

(** ** The language *)

Context (Heps : ∀ row, row ∈ LexDFA.states base → LexState.epsilon_transitions row = []).
Context (Hstart : ¬ accepts_at base 0) (Hfree : ∀ s t, accepts_at base s → target_edge base s t → ¬ productive_at base t).
Context (Hback : ∀ s, ¬ target_edge base s 0).
Context (d : LexDFA.t) (Hnum : LexDFA.num_states d = total).
Context (Hrows : ∀ c s, c ≤ max → s < n → ∃ row, (LexDFA.states d).[c * n + s] = Some row ∧ layer_row c s row).

Let K := dfa_lang base.

Definition byte_edge (s b t : N) : Prop := ∃ row, (LexDFA.states base).[s] = Some row ∧ (b, t) ∈ CharTransitions.iter (LexState.transitions row).

(** Edges between states that do not accept. *)
Definition inner : edges := λ s L t, ∃ b, byte_edge s b t ∧ final s = false ∧ final t = false ∧ L = lword [b].

Lemma base_edge s L t : dfa_edge base s L t ↔ ∃ b, byte_edge s b t ∧ L = lword [b].
Proof using All.
  split.
  - destruct 1 as [row b t Hrow Hin|row t Hrow Hin]; [exists b; split; [by exists row|done]|].
    rewrite Heps in Hin by (apply nthN_elem_of; by exists s). by apply elem_of_nil in Hin.
  - intros (b & (row & Hrow & Hin) & ->). by eapply dfa_byte.
Qed.

Lemma byte_target s b t : byte_edge s b t → target_edge base s t.
Proof using Type. intros (row & ? & ?). by exists row, b. Qed.

(** On the way to acceptance nothing accepts before. *)
Lemma inner_path s w t f : gpath (dfa_edge base) s w t → target_edge base t f → final f = true →
  gpath inner s w t ∧ final s = false ∧ rtc (target_edge base) s f.
Proof using All.
  intros Hp Htf Hf. assert (Hlast : ∀ x y, target_edge base x y → rtc (target_edge base) y f → final x = false).
  { intros x y Hxy Hyf. destruct (final x) eqn:Hx; [|done]. exfalso. apply final_accepts in Hx, Hf. apply (Hfree x y Hx Hxy). by exists f. }
  induction Hp as [x|x L z y u v HM Hu Hp IH].
  - split; [constructor|]. split; [by apply (Hlast x f)|by apply rtc_once].
  - destruct (IH Htf) as (Hi & Hz & Hr). apply base_edge in HM as (b & Hb & ->).
    assert (Hx : final x = false) by (apply (Hlast x z); [by eapply byte_target|done]). split; [|split; [done|]].
    + eapply gpath_step; [|exact Hu|exact Hi]. by exists b.
    + eapply rtc_l; [by eapply byte_target|done].
Qed.

Lemma base_words w : K w ↔ ∃ v b s f, w = v ++ [b] ∧ gpath inner 0 v s ∧ byte_edge s b f ∧ final s = false ∧ final f = true.
Proof using All.
  split.
  - intros (f & row & Hp & Hrow & He). assert (Hf : final f = true) by (unfold final; rewrite Hrow; unfold state_accepts; by rewrite He).
    apply gpath_last in Hp as [[<- _]|(s & L & u & v & -> & Hp & HM & Hv)]; [by apply final_accepts in Hf|].
    apply base_edge in HM as (b & Hb & ->). red in Hv. subst v. exists u, b, s, f. split; [done|].
    destruct (inner_path 0 u s f Hp (byte_target _ _ _ Hb) Hf) as (Hi & _ & _). split; [done|]. split; [done|]. split; [|done].
    destruct (inner_path s [] s f (gpath_nil _ _) (byte_target _ _ _ Hb) Hf) as (_ & ? & _). done.
  - intros (v & b & s & f & -> & Hi & Hb & _ & Hf). apply final_accepts in Hf as (row & Hrow & Ha). exists f, row.
    split; [|split; [done|unfold state_accepts in Ha; by destruct (BitSet.is_empty _)]]. eapply gpath_snoc; [|apply base_edge; by exists b|done].
    eapply gpath_mono; [|exact Hi]. intros x L y (b' & Hb' & _ & _ & ->). apply base_edge. by exists b'.
Qed.

(** An edge of the result. *)
Lemma layered_edge c s L y : c ≤ max → s < n →
  dfa_edge d (c * n + s) L y ↔ ∃ b t, L = lword [b] ∧ byte_edge s b t ∧ c < max ∧ final s = false ∧ y = target_of c t.
Proof using All.
  intros Hc Hs. destruct (Hrows c s Hc Hs) as (row & Hrow & Hepsr & _ & Htr). split.
  - destruct 1 as [row' b y Hrow' Hin|row' y Hrow' Hin]; rewrite Hrow in Hrow'; injection Hrow' as <-.
    + apply Htr in Hin as (? & ? & brow & t & Hb & Hin & ->). exists b, t. split; [done|]. split; [by exists brow|done].
    + rewrite Hepsr in Hin. by apply elem_of_nil in Hin.
  - intros (b & t & -> & (brow & Hb & Hin) & ? & ? & ->). eapply dfa_byte; [exact Hrow|]. apply Htr. split; [done|]. split; [done|]. by exists brow, t.
Qed.

(** The state after a word: the copies done and the state of the body. *)
Definition progress (x : N) (w : list N) : Prop :=
  ∃ c t u v, x = c * n + t ∧ t < n ∧ c ≤ max ∧ w = u ++ v ∧ lpow K (N.to_nat c) u ∧ gpath inner 0 v t.

Lemma progress_step x w L y v : progress x w → dfa_edge d x L y → L v → progress y (w ++ v).
Proof using All.
  intros (c & t & u & v' & -> & Ht & Hc & -> & Hu & Hv) He HL. apply layered_edge in He as (b & t' & -> & Hb & Hcm & Hf & ->); [|done..].
  red in HL. subst v. unfold target_of. destruct (final t') eqn:Hf'.
  - exists (c + 1), 0, (u ++ v' ++ [b]), []. split; [lia|]. split; [apply n_pos|]. split; [lia|]. split; [by rewrite app_nil_r, <-app_assoc|].
    split; [|constructor]. replace (N.to_nat (c + 1)) with (S (N.to_nat c)) by lia. apply lpow_snoc. exists u, (v' ++ [b]). split; [done|]. split; [done|].
    apply base_words. by exists v', b, t, t'.
  - exists c, t', u, (v' ++ [b]). split; [done|]. split; [by destruct (target_edge_lt base t t' Hok (byte_target _ _ _ Hb))|]. split; [done|].
    split; [by rewrite app_assoc|]. split; [done|]. eapply gpath_snoc; [exact Hv|by exists b|done].
Qed.

Lemma progress_path x w y u : progress x u → gpath (dfa_edge d) x w y → progress y (u ++ w).
Proof using All.
  intros Hx Hp. revert u Hx. induction Hp as [x|x L z y v w HM Hv _ IH]; intros u Hx; [by rewrite app_nil_r|].
  rewrite app_assoc. apply IH. by eapply progress_step.
Qed.

Lemma inner_layer c s v t : c < max → s < n → gpath inner s v t → gpath (dfa_edge d) (c * n + s) v (c * n + t).
Proof using All.
  intros Hc Hs Hp. induction Hp as [x|x L z y u v (b & Hb & Hx & Hz & ->) Hu _ IH]; [constructor|].
  eapply gpath_step; [|exact Hu|].
  - apply layered_edge; [lia|done|]. exists b, z. split; [done|]. split; [done|]. split; [done|]. split; [done|]. unfold target_of. by rewrite Hz.
  - apply IH. by destruct (target_edge_lt base x z Hok (byte_target _ _ _ Hb)).
Qed.

Lemma copies_path k w : k ≤ max → lpow K (N.to_nat k) w → gpath (dfa_edge d) 0 w (k * n).
Proof using All.
  intros Hk. remember (N.to_nat k) as m eqn:Hm. revert k Hk Hm w. induction m as [|m IH]; intros k Hk Hm w.
  - intros ->. replace (k * n) with 0 by lia. constructor.
  - intros (u & v & -> & Hu & Hv)%lpow_snoc. apply base_words in Hv as (v' & b & s & f & -> & Hi & Hb & Hs & Hf).
    replace k with (k - 1 + 1) by lia. apply (gpath_app _ _ ((k - 1) * n)); [apply IH; [lia|lia|done]|].
    pose proof (proj1 (target_edge_lt base s f Hok (byte_target _ _ _ Hb))) as Hsn.
    apply (gpath_app _ _ ((k - 1) * n + s)).
    + rewrite <-(N.add_0_r ((k - 1) * n)) at 1. apply inner_layer; [lia|apply n_pos|done].
    + eapply (gpath_one _ _ (lword [b])); [|done]. apply layered_edge; [lia|done|]. exists b, f. split; [done|]. split; [done|]. split; [lia|].
      split; [done|]. unfold target_of. by rewrite Hf.
Qed.

Lemma layered_lang w : dfa_lang d w ↔ lrep K min (Some max) w.
Proof using All.
  split.
  - intros (x & row & Hp & Hrow & He).
    destruct (progress_path 0 w x [] ltac:(exists 0, 0, [], []; split; [lia|]; split; [apply n_pos|]; split; [lia|]; split; [done|]; split; [done|constructor]) Hp)
      as (c & t & u & v & -> & Ht & Hc & Heq & Hu & Hv). cbn in Heq. subst w.
    destruct (Hrows c t Hc Ht) as (row' & Hrow' & _ & Ha & _). rewrite Hrow in Hrow'. injection Hrow' as <-.
    unfold state_accepts in Ha. rewrite He in Ha. cbn in Ha. symmetry in Ha. apply andb_true_iff in Ha as [->%N.eqb_eq Hmin%N.leb_le].
    apply gpath_into in Hv as [_ ->]; [|intros z L (b & Hb & _); by eapply Hback, byte_target].
    exists (N.to_nat c). rewrite app_nil_r, N2Nat.id. done.
  - intros (m & Hmin & Hmax & Hw). destruct (Hrows (N.of_nat m) 0 Hmax n_pos) as (row & Hrow & _ & Ha & _).
    exists (N.of_nat m * n), row. split; [apply copies_path; [done|by rewrite Nat2N.id]|]. split; [by rewrite N.add_0_r in Hrow|].
    rewrite (proj2 (N.leb_le _ _) Hmin) in Ha. unfold state_accepts in Ha. by destruct (BitSet.is_empty _).
Qed.

Lemma layered_ok : dfa_ok d.
Proof using All.
  pose proof n_pos as Hp. split; [rewrite Hnum, Htotal; nia|]. intros row Hin. apply nthN_elem_of in Hin as [x Hx].
  pose proof (nthN_lt _ _ _ Hx) as Hlt. fold (LexDFA.num_states d) in Hlt. rewrite Hnum, Htotal in Hlt.
  assert (Hx' : x = x / n * n + x mod n) by (rewrite N.mul_comm; apply N.div_mod; lia).
  assert (Hs : x mod n < n) by (apply N.mod_lt; lia). assert (Hc : x / n ≤ max) by (apply N.lt_succ_r, N.Div0.div_lt_upper_bound; nia).
  destruct (Hrows _ _ Hc Hs) as (row' & Hrow' & Heps' & _ & Htr). rewrite <-Hx', Hx in Hrow'. injection Hrow' as <-. split.
  - intros b t Hbt. apply Htr in Hbt as (Hcm & _ & brow & t' & Hb & Hin' & ->).
    assert (t' < n) by (destruct (target_edge_lt base (x mod n) t' Hok); [by exists brow, b|done]).
    unfold target_of. rewrite Hnum, Htotal. destruct (final t'); nia.
  - intros t. rewrite Heps'. by intros ?%elem_of_nil.
Qed.
End layers.

(** The check answers. *)
Lemma prefix_free_total d : dfa_ok d → LexDFA.num_states d ≤ u32_modulus → is_Some (dfa_is_nonnullable_and_prefix_free d).
Proof.
  intros Hok Hn. unfold dfa_is_nonnullable_and_prefix_free, LexDFA.finalizers. destruct (proj1 (nthN_Some_lt (LexDFA.states d) 0) (proj1 Hok)) as [row ->].
  cbn [fmap option_fmap option_map mbind option_bind]. destruct (BitSet.is_empty _); [|by eexists]. cbn [negb].
  destruct (productive_states_spec d Hok Hn) as (productive & -> & Hl & _). cbn [mbind option_bind].
  assert (Hall : ∀ {A} (f : A → option bool) l, (∀ x, x ∈ l → is_Some (f x)) → is_Some (Expr.allM f l)).
  { intros A f l. induction l as [|x l IH]; intros Hf; [by eexists|]. cbn [Expr.allM]. destruct (Hf x) as [b ->]; [by left|]. destruct b; [|by eexists]. cbn. apply IH. intros y Hy. apply Hf. by right. }
  apply Hall. intros st Hst. unfold row_prefix_free. destruct (negb _); [by eexists|]. apply Hall. intros [b t] Hbt.
  destruct (proj1 (nthN_Some_lt productive t)) as [x ->]; [rewrite Hl; by apply (proj1 (proj2 Hok st Hst) b t)|]. by eexists.
Qed.

Lemma from_base_spec (base : LexDFA.t) (min max : N) :
  dfa_ok base → (∀ row, row ∈ LexDFA.states base → LexState.epsilon_transitions row = []) → LexDFA.num_states base ≤ u32_modulus →
  dfa_is_nonnullable_and_prefix_free base = Some true → (∀ s, ¬ target_edge base s 0) →
  ∃ r, build_bounded_repeat_dfa_from_base base min max = Some r ∧
    (r = None ↔ max < min ∨ u32_modulus ≤ (max + 1) * LexDFA.num_states base) ∧
    ∀ d, r = Some d → dfa_ok d ∧ ∀ w, dfa_lang d w ↔ lrep (dfa_lang base) min (Some max) w.
Proof.
  intros Hok Heps Hn Hcheck Hback. pose proof (proj1 Hok) as Hpos. unfold build_bounded_repeat_dfa_from_base.
  destruct (N.ltb_spec max min) as [Hlt|Hle]; [exists None; split; [done|]; split; [split; [by left|done]|done]|].
  fold (LexDFA.num_states base). set (total := (max + 1) * LexDFA.num_states base).
  assert (Hfit : (layers ← usize_try (max + 1); total ← usize_try (layers * LexDFA.num_states base); u32_try_from total) =
    if total <? u32_modulus then Some total else None).
  { unfold usize_try, u32_try_from. fold total. change usize_max with 18446744073709551615.
    assert (Hm : u32_modulus = 4294967296) by reflexivity. rewrite Hm. clear Hm.
    destruct (N.leb_spec (max + 1) 18446744073709551615); cbn [mbind option_bind].
    - fold total. destruct (N.leb_spec total 18446744073709551615); cbn [mbind option_bind]; [done|].
      by rewrite (proj2 (N.ltb_ge total 4294967296)) by lia.
    - rewrite (proj2 (N.ltb_ge total 4294967296)); [done|]. unfold total. nia. }
  rewrite Hfit. destruct (N.ltb_spec total u32_modulus) as [Hs|Hs].
  - destruct (productive_states_spec base Hok Hn) as (productive & -> & Hpl & _). cbn [mbind option_bind].
    destruct (layers_spec base productive min max total Hok Hpl eq_refl Hs _ (start_written base productive min max total Hok Hpl eq_refl Hs)) as (d & -> & Hd & Hrows).
    destruct (prefix_free_check base Hok Hn Hcheck) as [Hstart Hfree]. cbn [mbind option_bind].
    eexists. split; [done|]. split; [split; [done|intros [?|?]; lia]|]. intros d' [= <-]. split.
    + exact (layered_ok base productive min max total Hok Hpl eq_refl Hs Heps Hstart Hfree Hback d Hd Hrows).
    + exact (layered_lang base productive min max total Hok Hpl eq_refl Hs Heps Hstart Hfree Hback d Hd Hrows).
  - exists None. split; [done|]. split; [|done]. split; [by right|done].
Qed.


(** C8: for a base automaton without epsilon edges that passes the check and
    whose start state is never entered again, the layered automaton accepts
    exactly the bounded repetition of the base; it is declined exactly when the
    bounds are crossed or the states do not fit 32 bits. *)
Theorem bounded_repeat_from_base_correct (base : LexDFA.t) (min max : N) :
  dfa_ok base → (∀ row, row ∈ LexDFA.states base → LexState.epsilon_transitions row = []) → LexDFA.num_states base ≤ u32_modulus →
  dfa_is_nonnullable_and_prefix_free base = Some true → (∀ s, ¬ target_edge base s 0) →
  ∃ r, build_bounded_repeat_dfa_from_base base min max = Some r ∧
    (r = None ↔ max < min ∨ u32_modulus ≤ (max + 1) * LexDFA.num_states base) ∧
    ∀ d, r = Some d → dfa_ok d ∧ ∀ w, dfa_lang d w ↔ lrep (dfa_lang base) min (Some max) w.
Proof. apply from_base_spec. Qed.

(** One state of the examples below. *)
Definition example_row (entries : list (N * N)) (accepts : bool) : LexState.t :=
  LexState.mk (CharTransitions.from_sorted_entries entries) (if accepts then BitSet.set (BitSet.new 1) 0 else BitSet.new 1) (BitSet.new 1) [].

(** The word [ab]. *)
Definition base_ab : LexDFA.t := LexDFA.fresh [example_row [(97, 1)] false; example_row [(98, 2)] false; example_row [] true] [].

Lemma bounded_repeat_from_base_correct_witness :
  ∃ d, build_bounded_repeat_dfa_from_base base_ab 1 2 = Some (Some d) ∧ LexDFA.num_states d = 9 ∧
    ∀ w, dfa_lang d w ↔ lrep (dfa_lang base_ab) 1 (Some 2) w.
Proof.
  destruct (bounded_repeat_from_base_correct base_ab 1 2) as (r & Hr & _ & Hd).
  - split; [reflexivity|]. intros row Hin. split; [|intros t Ht].
    + repeat (apply elem_of_cons in Hin as [->|Hin]; [intros b t Hbt; repeat (apply elem_of_cons in Hbt as [[= -> ->]|Hbt]; [reflexivity|]); by apply elem_of_nil in Hbt|]). by apply elem_of_nil in Hin.
    + repeat (apply elem_of_cons in Hin as [->|Hin]; [by apply elem_of_nil in Ht|]). by apply elem_of_nil in Hin.
  - intros row Hin. repeat (apply elem_of_cons in Hin as [->|Hin]; [reflexivity|]). by apply elem_of_nil in Hin.
  - vm_compute. discriminate.
  - vm_compute. reflexivity.
  - intros s (row & b & Hrow & Hin). assert (Hrow' : row ∈ LexDFA.states base_ab) by (apply nthN_elem_of; by exists s).
    repeat (apply elem_of_cons in Hrow' as [->|Hrow']; [repeat (apply elem_of_cons in Hin as [Hin|Hin]; [discriminate Hin|]); by apply elem_of_nil in Hin|]). by apply elem_of_nil in Hrow'.
  - destruct r as [d|]; [|vm_compute in Hr; discriminate Hr]. exists d. split; [exact Hr|].
    split; [vm_compute in Hr; injection Hr as <-; reflexivity|]. by apply Hd.
Defined.

(** The words [(ab)*c]: the start state is entered again after [ab]. *)
Definition base_abc : LexDFA.t := LexDFA.fresh [example_row [(97, 1); (99, 2)] false; example_row [(98, 0)] false; example_row [] true] [].

Lemma base_abc_last w : dfa_lang base_abc w → last w = Some 99.
Proof.
  intros (f & row & Hp & Hrow & He).
  assert (Hf : f = 2).
  { cbn in Hrow. destruct (N.eqb_spec f 0) as [->|]; [injection Hrow as <-; discriminate He|].
    destruct (N.eqb_spec (N.pred f) 0) as [|]; [injection Hrow as <-; discriminate He|].
    destruct (N.eqb_spec (N.pred (N.pred f)) 0); [lia|done]. }
  apply gpath_last in Hp as [[? _]|(s & L & u & v & -> & _ & HM & Hv)]; [congruence|].
  destruct HM as [row' b t Hrow' Hin|row' t Hrow' Hin].
  - red in Hv. subst v. rewrite last_snoc. f_equal. assert (Hin' : row' ∈ LexDFA.states base_abc) by (apply nthN_elem_of; by exists s).
    repeat (apply elem_of_cons in Hin' as [->|Hin']; [repeat (apply elem_of_cons in Hin as [Hin|Hin]; [congruence|]); by apply elem_of_nil in Hin|]). by apply elem_of_nil in Hin'.
  - assert (Hin' : row' ∈ LexDFA.states base_abc) by (apply nthN_elem_of; by exists s).
    repeat (apply elem_of_cons in Hin' as [->|Hin']; [by apply elem_of_nil in Hin|]). by apply elem_of_nil in Hin'.
Qed.

(** C38: a base whose start state is entered again passes the check, but the
    layered automaton takes the way back to the start for a finished copy: for
    [((ab)*c){0,32}] it accepts [ab]. *)
Theorem bounded_repeat_reentered_start :
  dfa_is_nonnullable_and_prefix_free base_abc = Some true ∧
  ∃ d, build_bounded_repeat_dfa_from_base base_abc 0 32 = Some (Some d) ∧
    dfa_lang d [97; 98] ∧ ¬ lrep (dfa_lang base_abc) 0 (Some 32) [97; 98].
Proof.
  split; [vm_compute; reflexivity|]. destruct (build_bounded_repeat_dfa_from_base base_abc 0 32) as [[d|]|] eqn:Hb; [|vm_compute in Hb; discriminate Hb..].
  exists d. split; [done|]. split.
  - vm_compute in Hb. injection Hb as <-. exists 0. eexists. split; [|split; reflexivity].
    apply (gpath_step _ 0 (lword [97]) 1 0 [97] [98]); [|reflexivity|].
    + eapply dfa_byte; [reflexivity|by left].
    + eapply (gpath_one _ 1 (lword [98])); [|reflexivity]. eapply dfa_byte; [reflexivity|by left].
  - intros (m & _ & _ & Hw). destruct m as [|m]; [discriminate Hw|]. apply lpow_snoc in Hw as (u & v & Heq & _ & Hv%base_abc_last).
    destruct v as [|x v _] using rev_ind; [done|]. rewrite last_snoc in Hv. injection Hv as ->. rewrite app_assoc in Heq.
    apply (f_equal last) in Heq. rewrite last_snoc in Heq. discriminate Heq.
Qed.
