(* ===== verification/LexPipeline.v ===== *)
(** One expression compiled to its minimal automaton: the byte NFA, its epsilon
    cycles condensed, determinized and minimized; the recursion between this and
    the direct automaton of a bounded repetition, whose body is compiled the same
    way (crates/glrmask-lexer/src/automata/lexer/compile.rs). *)

From stdpp Require Import relations.
From Stdlib Require Import FunctionalExtensionality.
From S2P Require Import Prelude Bits U8Set BitSet StateSet CharTransitions LexDfa Lang LexAst LexAstLang LexNfa LexNfaClasses LexNfaScc LexReach LexReachCorrect LexDeterminize LexEpsilon LexDetParts LexDetRun LexDetCorrect LexCache LexInverse LexSimulate LexToMinimized LexFragment LexCompile LexParts LexCompileCorrect LexBuild LexBounded.
Import Expr Nfa.

(** * The program *)

Definition DIRECT_BOUNDED_REPEAT_THRESHOLD : N := 32.

Section recursion.
(** [compile_expr_to_dfa] *)
Context (compile : Expr.t → option LexDFA.t).

(** The outer option is a panic, the inner one declines. *)
Definition compile_direct_bounded_repeat_base_dfa_unconditionally (expr : Expr.t) : option (option LexDFA.t) :=
  base_dfa ← compile expr;
  if LexDFA.num_states base_dfa =? 0 then Some None
  else
    direct ← dfa_is_nonnullable_and_prefix_free base_dfa;
    Some (if (direct : bool) then Some base_dfa else None).

(** Here no cache is passed. *)
Definition cached_direct_bounded_repeat_base_dfa_unconditionally (expr : Expr.t) : option (option LexDFA.t) :=
  compile_direct_bounded_repeat_base_dfa_unconditionally (unwrap_shared expr).

Definition cached_direct_bounded_repeat_base_dfa (expr : Expr.t) (max : N) : option (option LexDFA.t) :=
  if max <? DIRECT_BOUNDED_REPEAT_THRESHOLD then Some None
  else cached_direct_bounded_repeat_base_dfa_unconditionally expr.

Definition build_bounded_repeat_dfa_with (expr : Expr.t) (min max : N) : option (option LexDFA.t) :=
  base_dfa ← cached_direct_bounded_repeat_base_dfa expr max;
  match base_dfa with
  | Some base_dfa => build_bounded_repeat_dfa_from_base base_dfa min max
  | None => Some None
  end.

Definition compile_expr_to_dfa_with (expr : Expr.t) : option LexDFA.t :=
  nfa ← build_regex_nfa_impl build_bounded_repeat_dfa_with [expr];
  nfa ← condense_epsilon_sccs nfa;
  to_minimized_dfa nfa.
End recursion.

Fixpoint compile_expr_to_dfa_fuel (fuel : nat) (expr : Expr.t) : option LexDFA.t :=
  match fuel with
  | O => None
  | S fuel => compile_expr_to_dfa_with (compile_expr_to_dfa_fuel fuel) expr
  end.

(** The nesting of the bounded repetitions that reach the threshold. *)
Fixpoint repeat_depth (e : Expr.t) : nat :=
  match e with
  | U8Seq _ | U8Class _ | Dfa _ | Epsilon => 0
  | Intersect expr other | Exclude expr other => Nat.max (repeat_depth expr) (repeat_depth other)
  | Seq l | Choice l => max_list_with repeat_depth l
  | Repeat expr _ (Some max) => if max <? DIRECT_BOUNDED_REPEAT_THRESHOLD then repeat_depth expr else S (repeat_depth expr)
  | Repeat expr _ None | Shared expr => repeat_depth expr
  end.

(** The recursion ends: more fuel changes nothing
    ([compile_expr_to_dfa_equation]). *)
Definition compile_expr_to_dfa (expr : Expr.t) : option LexDFA.t := compile_expr_to_dfa_fuel (S (repeat_depth expr)) expr.

Definition build_bounded_repeat_dfa (expr : Expr.t) (min max : N) : option (option LexDFA.t) :=
  build_bounded_repeat_dfa_with compile_expr_to_dfa expr min max.

(** * Simplification does not nest repetitions deeper *)

Section depth.
Context (n : nat).

Definition shallow (e : Expr.t) : Prop := (repeat_depth e ≤ n)%nat.

Lemma shallow_list l : (max_list_with repeat_depth l ≤ n)%nat ↔ Forall shallow l.
Proof. induction l as [|e l IH]; cbn; [split; [constructor|lia]|]. rewrite Forall_cons, <-IH. unfold shallow. lia. Qed.

Lemma shallow_word bs : shallow (U8Seq bs).
Proof. apply Nat.le_0_l. Qed.

Lemma make_seq_shallow l e : Forall shallow l → make_seq l = Some e → shallow e.
Proof. apply make_seq_keeps; [exact shallow_list|exact shallow_word|apply Nat.le_0_l]. Qed.

Lemma flatten_choice_shallow l flat : Forall shallow l → flatten_choice_parts l = Some flat → Forall shallow flat.
Proof.
  intros Hl. unfold flatten_choice_parts. destruct (run _ _ _) as [|r] eqn:Hrun; [done|]. intros [= ->].
  edestruct (run_inr flatten_choice_step (λ st, Forall shallow (st.1 ++ st.2))) as ([[|e worklist] flat'] & Hs & Hexit); [| |exact Hrun|..].
  - intros [[|e worklist] flat'] st' Hs; [done|]. cbn [fst snd app] in Hs. apply Forall_cons in Hs as [He Hs].
    destruct e; cbn [flatten_choice_step]; intros [= <-]; cbn [fst snd]; try (by rewrite app_assoc, Forall_snoc).
    rewrite <-app_assoc. apply Forall_app. split; [|done]. by apply Forall_reverse, shallow_list.
  - cbn [fst snd]. rewrite app_nil_r. by apply Forall_reverse.
  - by injection Hexit as <-.
  - by destruct e.
Qed.

Lemma fold_choice_shallow l classes complex : Forall shallow l → Forall shallow complex →
  Forall shallow (foldl fold_choice_part (classes, complex) l).2.
Proof.
  intros Hl. revert classes complex. induction Hl as [|e l He _ IH]; intros classes complex Hx; [done|]. cbn [foldl].
  assert (Hother : Forall shallow (complex ++ [e])) by by apply Forall_snoc.
  destruct e as [bytes|set| | | | | | | |]; cbn [fold_choice_part]; try (by apply IH). destruct bytes as [|b [|b' bytes]]; by apply IH.
Qed.

Lemma make_choice_shallow l e : Forall shallow l → make_choice l = Some e → shallow e.
Proof.
  intros Hl. unfold make_choice. destruct (flatten_choice_parts l) as [flat|] eqn:Hf; [|done]. cbn [mbind option_bind].
  pose proof (flatten_choice_shallow l flat Hl Hf) as Hs.
  assert (Hk : Forall shallow (fold_choice_byte_classes flat)).
  { unfold fold_choice_byte_classes. pose proof (fold_choice_shallow flat U8Set.empty [] Hs ltac:(constructor)) as H.
    destruct (foldl _ _ _) as [classes complex]. destruct (U8Set.is_empty classes); [done|]. apply Forall_snoc. split; [done|apply Nat.le_0_l]. }
  assert (Hmany : ∀ k e, Forall shallow k → (match k with [single] => Some single | complex => Some (Choice complex) end) = Some e → shallow e).
  { intros [|x [|y k]] e' Hk1; intros [= <-]; [by apply shallow_list|by rewrite Forall_singleton in Hk1|by apply shallow_list]. }
  destruct flat as [|x [|y flat]].
  - by apply (Hmany []).
  - by apply (Hmany [x]).
  - intros He. apply (Hmany _ _ Hk). by destruct (fold_choice_byte_classes _) as [|? [|? ?]].
Qed.
End depth.

Lemma optimize_depth e e' : optimize e = Some e' → (repeat_depth e' ≤ repeat_depth e)%nat.
Proof.
  assert (Hlist : ∀ l l', Forall (λ e, ∀ e', optimize e = Some e' → (repeat_depth e' ≤ repeat_depth e)%nat) l → mapM optimize l = Some l' →
    Forall (shallow (max_list_with repeat_depth l)) l').
  { intros l l' IH Hl. eapply mapM_keeps; [|by apply shallow_list|exact Hl]. eapply Forall_impl; [exact IH|]. unfold shallow. intros x Hx x' ? ?%Hx. lia. }
  revert e'. induction e as [bytes|set|d|e x IHe IHx|l IH|l IH|e x IHe IHx|e min max IHe|e IHe|] using expr_ind; intros e'; cbn [optimize];
    try (by intros [= <-]).
  - destruct (optimize e) as [e1|]; [|done]. destruct (optimize x) as [x1|]; [|done]. intros [= <-]. cbn. specialize (IHe _ eq_refl). specialize (IHx _ eq_refl). lia.
  - destruct (mapM optimize l) as [l'|] eqn:Hl; [|done]. cbn [mbind option_bind]. apply make_seq_shallow. by apply Hlist.
  - destruct (mapM optimize l) as [l'|] eqn:Hl; [|done]. cbn [mbind option_bind]. apply make_choice_shallow. by apply Hlist.
  - destruct (optimize e) as [e1|]; [|done]. destruct (optimize x) as [x1|]; [|done]. intros [= <-]. cbn. specialize (IHe _ eq_refl). specialize (IHx _ eq_refl). lia.
  - destruct (optimize e) as [c|]; [|done]. cbn [mbind option_bind]. specialize (IHe c eq_refl).
    assert (Hr : (repeat_depth (Repeat c min max) ≤ repeat_depth (Repeat e min max))%nat) by (cbn; destruct max as [m|]; [destruct (m <? _)|]; lia).
    assert (Hc : (repeat_depth c ≤ repeat_depth (Repeat e min max))%nat) by (cbn; destruct max as [m|]; [destruct (m <? _)|]; lia).
    unfold optimize_repeat_expr. destruct min as [|[p|p|]]; destruct max as [[|[q|q|]]|]; intros [= <-]; try done; apply Nat.le_0_l.
  - destruct (optimize e) as [c|]; [|done]. intros [= <-]. exact (IHe c eq_refl).
Qed.

(** * The recursion ends *)

Lemma unwrap_shared_depth e : repeat_depth (unwrap_shared e) = repeat_depth e.
Proof. by induction e using expr_ind. Qed.

Section agree.
Context (n : nat) (b b' : Expr.t → N → N → option (option LexDFA.t)).
(** Two constructions that agree below the threshold and on the bodies of nested repetitions. *)
Context (Hb : ∀ body min max, (32 ≤ max → (repeat_depth body < n)%nat) → b body min max = b' body min max).

Lemma append_agree e : shallow n e → append_compiled_expr b e = append_compiled_expr b' e.
Proof using Hb.
  induction e as [bytes|set|d|e x IHe IHx|l IH|l IH|e x IHe IHx|e min max IHe|e IHe|] using expr_ind; intros Hs; try done.
  - apply shallow_list in Hs. extensionality a. extensionality s. extensionality t. cbn [append_compiled_expr].
    revert a s. induction IH as [|e l He _ IHl]; intros a s; [done|]. apply Forall_cons in Hs as [Hse Hsl]. cbn [append_sequence_expr].
    rewrite (He Hse). destruct l as [|e' l]; [done|]. destruct (add_state a) as [next a1]. destruct (append_compiled_expr b' e a1 s next); [|done].
    by apply IHl.
  - apply shallow_list in Hs. extensionality a. extensionality s. extensionality t. cbn [append_compiled_expr]. unfold append_choice_expr.
    destruct l as [|e0 l0]; [done|]. revert a. induction IH as [|e l He _ IHl]; intros a; [done|]. apply Forall_cons in Hs as [Hse Hsl]. cbn [append_options].
    rewrite (He Hse). destruct (append_compiled_expr b' e a s t); [|done]. by apply IHl.
  - unfold shallow in Hs. cbn in Hs. extensionality a. extensionality s. extensionality t. cbn [append_compiled_expr].
    destruct max as [max|]; [|by rewrite (IHe Hs)]. assert (He : shallow n e) by (unfold shallow; destruct (max <? _); lia).
    unfold append_bounded_repeat_expr. rewrite (IHe He), (Hb e min max); [done|]. intros Hmax.
    rewrite (proj2 (N.ltb_ge max DIRECT_BOUNDED_REPEAT_THRESHOLD) Hmax) in Hs. lia.
  - extensionality a. extensionality s. extensionality t. cbn [append_compiled_expr]. by rewrite (IHe Hs).
Qed.

Lemma collect_prefix_shallow e atoms : shallow n e → shallow n (collect_prefix e atoms).2.
Proof using Type.
  revert atoms. induction e as [bytes|set|d|e x IHe IHx|l IH|l IH|e x IHe IHx|e min max IHe|e IHe|] using expr_ind; intros atoms Hs; try done.
  - apply shallow_list in Hs. cbn [collect_prefix]. revert atoms. induction IH as [|e l He _ IHl]; intros atoms; [apply Nat.le_0_l|].
    apply Forall_cons in Hs as [Hse Hsl]. specialize (He atoms Hse). destruct (collect_prefix e atoms) as [atoms' rest]. cbn [snd] in He.
    assert (Hstop : shallow n (seq_from_parts (rest :: l))) by (destruct l; [done|]; by apply shallow_list, Forall_cons).
    destruct rest; try exact Hstop. by apply IHl.
  - exact (IHe atoms Hs).
Qed.

Lemma share_prefix_agree st entry : share_prefix b st entry = share_prefix b' st entry.
Proof using Type.
  assert (Hf : ∀ st atom, follow_atom b st atom = follow_atom b' st atom).
  { intros [[a T] s] atom. unfold follow_atom. destruct (T !! (s, atom)); [done|]. destruct (add_state a). by destruct atom. }
  destruct st as [[[a T] finals] opaque], entry as [g e]. unfold share_prefix. destruct (deterministic_prefix e) as [prefix rest].
  by rewrite (foldM_ext (follow_atom b) (follow_atom b') _ _ Hf).
Qed.

Lemma opaque_shallow entries a T finals opaque : Forall (λ entry, shallow n entry.2) entries →
  foldM (share_prefix b') (Nfa.new 1, ∅, [], []) entries = Some (a, T, finals, opaque) → Forall (λ entry, shallow n entry.2) opaque.
Proof using Type.
  intros Hall H. revert H. apply (foldM_inv_prefix (λ _ st, Forall (λ entry : N * N * Expr.t, shallow n entry.2) st.2)); [|by constructor].
  intros pre [g e] [[[a1 T1] f1] o1] st' [suf ->] Ho H. apply Forall_app in Hall as [_ Hall]. apply Forall_cons in Hall as [He _]. cbn [snd] in *.
  unfold share_prefix in H. pose proof (collect_prefix_shallow e [] He) as Hp. unfold deterministic_prefix in H. destruct (collect_prefix e []) as [prefix rest].
  destruct (foldM (follow_atom b') _ prefix) as [[[a2 T2] s2]|]; [|done]. cbn [mbind option_bind] in H.
  destruct rest; injection H as <-; cbn [snd]; try (apply Forall_app; split; [done|by constructor]); done.
Qed.

Lemma build_agree exprs : Forall (shallow n) exprs → build_regex_nfa_impl b exprs = build_regex_nfa_impl b' exprs.
Proof using Hb.
  intros Hall. unfold build_regex_nfa_impl. destruct (mapM optimize exprs) as [opt|] eqn:Ho; [|done]. cbn [mbind option_bind].
  assert (Hopt : Forall (shallow n) opt).
  { eapply mapM_keeps; [|exact Hall|exact Ho]. apply Forall_forall. intros e _ e' He ?%optimize_depth. unfold shallow in *. lia. }
  unfold append_prefix_shared_expressions. rewrite (foldM_ext (share_prefix b) (share_prefix b') _ _ share_prefix_agree).
  destruct (foldM (share_prefix b') _ _) as [[[[a T] finals] opaque]|] eqn:Hsh; [|done]. cbn [mbind option_bind].
  apply opaque_shallow in Hsh.
  - apply foldM_ext_in. intros a1 [[s g] rest] Hin. rewrite Forall_forall in Hsh. specialize (Hsh _ Hin). unfold append_opaque.
    destruct (add_state a1) as [accept a2]. by rewrite (append_agree rest Hsh).
  - apply Forall_fmap, Forall_forall. intros [i e] He%elem_of_enumerate. rewrite nthN_lookup in He. by eapply Forall_lookup in Hopt.
Qed.
End agree.

Lemma compile_agree n (c c' : Expr.t → option LexDFA.t) e :
  (∀ body, (repeat_depth body < n)%nat → c body = c' body) → (repeat_depth e ≤ n)%nat → compile_expr_to_dfa_with c e = compile_expr_to_dfa_with c' e.
Proof.
  intros Hc He. unfold compile_expr_to_dfa_with. rewrite (build_agree n (build_bounded_repeat_dfa_with c) (build_bounded_repeat_dfa_with c')); [done| |by constructor].
  intros body min max Hbody. unfold build_bounded_repeat_dfa_with, cached_direct_bounded_repeat_base_dfa, cached_direct_bounded_repeat_base_dfa_unconditionally, compile_direct_bounded_repeat_base_dfa_unconditionally.
  destruct (N.ltb_spec max DIRECT_BOUNDED_REPEAT_THRESHOLD) as [|Hmax]; [done|]. rewrite Hc; [done|]. rewrite unwrap_shared_depth. by apply Hbody.
Qed.

(** Enough fuel gives the result. *)
Lemma compile_fuel_enough fuel fuel' e : (repeat_depth e < fuel)%nat → (repeat_depth e < fuel')%nat →
  compile_expr_to_dfa_fuel fuel e = compile_expr_to_dfa_fuel fuel' e.
Proof.
  revert fuel' e. induction fuel as [|fuel IH]; intros [|fuel'] e He He'; [lia..|]. cbn [compile_expr_to_dfa_fuel].
  apply (compile_agree (repeat_depth e)); [|done]. intros body Hbody. apply IH; lia.
Qed.

(** The equation of the code: the body of a repetition is compiled by the same function. *)
Lemma compile_expr_to_dfa_equation e :
  compile_expr_to_dfa e = (nfa ← build_regex_nfa_impl build_bounded_repeat_dfa [e]; nfa ← condense_epsilon_sccs nfa; to_minimized_dfa nfa).
Proof.
  change (compile_expr_to_dfa e = compile_expr_to_dfa_with compile_expr_to_dfa e). unfold compile_expr_to_dfa at 1. cbn [compile_expr_to_dfa_fuel].
  apply (compile_agree (repeat_depth e)); [|done]. intros body Hbody. unfold compile_expr_to_dfa. apply compile_fuel_enough; lia.
Qed.

(** * Compiled automata *)

(** The tables of an automaton fit in 32 bits, and its byte sets hold bytes. *)
Record nfa_fits (a : Nfa.t) : Prop := {
  nf_sets : ∀ set, set ∈ transition_sets a → U8Set.wf set;
  nf_words : num_states a * set_width (num_states a) < u32_modulus;
  nf_edges : lenN (edge_targets a) < u32_modulus;
  nf_total : N.of_nat (transition_total a) < u32_modulus;
  nf_groups : nfa_group_count a ≤ u32_modulus;
}.

Definition nfa_fits_b (a : Nfa.t) : bool :=
  forallb U8Set.wf_b (transition_sets a) && (num_states a * set_width (num_states a) <? u32_modulus) && (lenN (edge_targets a) <? u32_modulus)
  && (N.of_nat (transition_total a) <? u32_modulus) && (nfa_group_count a <=? u32_modulus).

Lemma nfa_fits_check a : nfa_fits_b a = true → nfa_fits a.
Proof.
  unfold nfa_fits_b. rewrite !andb_true_iff, !N.ltb_lt, N.leb_le, forallb_forall. intros [[[[H1 H2] H3] H4] H5]. split; try done. intros set Hin. apply U8SetFacts.wf_b_spec, H1. by apply list_elem_of_In.
Qed.

Lemma fits_input a : nfa_closed a → start_state a < num_states a → nfa_fits a → det_input a.
Proof.
  intros Hc Hs [H1 H2 H3 H4 _]. split; try done. intros s row set t Hrow Hin. apply H1. apply list_elem_of_bind. exists row. split; [apply list_elem_of_fmap; by exists (set, t)|]. apply nthN_elem_of. eauto.
Qed.

(** The empty word is none, and no word begins another one. *)
Definition prefix_free (L : lang) : Prop := ¬ L [] ∧ ∀ w v, L w → L (w ++ v) → v = [].

(** After some word the language begins again. *)
Definition returns (L : lang) : Prop := ∃ w, w ≠ [] ∧ ∀ v, L (w ++ v) ↔ L v.

(** What is compiled accepts the expression, over bytes, and keeps only states
    that a word leads to. *)
Record compiled (e : Expr.t) (m : LexDFA.t) : Prop := {
  compiled_wf : ∃ groups, lex_wf 256 groups m;
  compiled_size : LexDFA.num_states m ≤ u32_modulus;
  compiled_reached : ∀ q, q < LexDFA.num_states m → ∃ w, byte_word w ∧ lex_run m 0 w = Some q;
  compiled_accepts : ∀ w, byte_word w →
    (∃ q row, lex_run m 0 w = Some q ∧ (LexDFA.states m).[q] = Some row ∧ BitSet.is_empty (LexState.finalizers row) = false) ↔ denote e w;
}.

Definition answers (e : Expr.t) : Prop := ∃ m, compile_expr_to_dfa e = Some m ∧ compiled e m.

Section wf.
Context (m : LexDFA.t) (groups : N) (Hm : lex_wf 256 groups m).

Lemma wf_row s row : (LexDFA.states m).[s] = Some row → row_wf 256 (LexDFA.num_states m) groups row.
Proof using Hm. intros Hrow. apply (lw_rows _ _ _ Hm), nthN_elem_of. eauto. Qed.

Lemma wf_dfa_ok : dfa_ok m.
Proof using Hm.
  split; [apply Hm|]. intros row Hrow. apply (lw_rows _ _ _ Hm) in Hrow as [_ Hr He _ _]. split; [intros b t Hin; by apply (Hr b t)|].
  intros t. rewrite He. by intros ?%elem_of_nil.
Qed.

Lemma wf_no_epsilon row : row ∈ LexDFA.states m → LexState.epsilon_transitions row = [].
Proof using Hm. intros Hrow. by apply (lw_rows _ _ _ Hm) in Hrow as []. Qed.

Lemma wf_dfa_bytes : dfa_bytes m.
Proof using Hm. intros row b t Hrow Hin. apply (lw_rows _ _ _ Hm) in Hrow as [_ Hr _ _ _]. by apply (Hr b t). Qed.

Lemma step_target s t : target_edge m s t ↔ ∃ b, LexDFA.step m s b = Some t.
Proof using Hm. unfold target_edge. setoid_rewrite (step_iff m groups Hm). naive_solver. Qed.

Lemma run_path s w t : gpath (LexAstLang.dfa_edge m) s w t ↔ lex_run m s w = Some t.
Proof using Hm.
  split.
  - induction 1 as [s|s L z t u v HM Hu _ IH]; [done|]. destruct HM as [row b z Hrow Hin|row z Hrow Hin].
    + red in Hu. subst u. cbn. rewrite (proj2 (step_iff m groups Hm s b z)); [done|]. by exists row.
    + rewrite (wf_no_epsilon row) in Hin by (apply nthN_elem_of; eauto). by apply elem_of_nil in Hin.
  - revert s. induction w as [|b w IH]; intros s; [intros [= <-]; constructor|]. cbn. destruct (LexDFA.step m s b) as [z|] eqn:Hz; [|done]. cbn. intros Hw.
    apply (step_iff m groups Hm) in Hz as (row & Hrow & Hin). apply (gpath_step _ s (lword [b]) z t [b] w); [by eapply LexAstLang.dfa_byte|done|by apply IH].
Qed.

Lemma run_targets s w t : lex_run m s w = Some t → rtc (target_edge m) s t.
Proof using Hm.
  revert s. induction w as [|b w IH]; intros s; [by intros [= <-]|]. cbn. destruct (LexDFA.step m s b) as [z|] eqn:Hz; [|done]. cbn. intros Hw.
  eapply rtc_l; [apply step_target; by exists b|by apply IH].
Qed.
End wf.

Section compiled.
Context (e : Expr.t) (m : LexDFA.t) (Hw : wf e) (Hc : compiled e m).

Lemma compiled_denotes w : dfa_lang m w ↔ denote e w.
Proof using Hw Hc.
  destruct (compiled_wf _ _ Hc) as [groups Hm].
  assert (Hrun : dfa_lang m w ↔ ∃ q row, lex_run m 0 w = Some q ∧ (LexDFA.states m).[q] = Some row ∧ BitSet.is_empty (LexState.finalizers row) = false).
  { unfold dfa_lang. by setoid_rewrite (run_path m groups Hm). }
  split.
  - intros Hd. apply (compiled_accepts _ _ Hc); [|by apply Hrun]. destruct Hd as (t & row & Hp & _). eapply byte_words_path; [by eapply wf_dfa_bytes|exact Hp].
  - intros Hd. apply Hrun, (compiled_accepts _ _ Hc); [|done]. by apply (denote_bytes e).
Qed.

Lemma lang_run w : denote e w ↔ ∃ q, lex_run m 0 w = Some q ∧ accepts_at m q.
Proof using Hw Hc.
  destruct (compiled_wf _ _ Hc) as [groups Hm]. rewrite <-compiled_denotes. unfold dfa_lang, accepts_at, state_accepts. setoid_rewrite (run_path m groups Hm).
  split; [intros (q & row & ? & ? & He); exists q; split; [done|]; exists row; by rewrite He|].
  intros (q & ? & row & ? & He). exists q, row. split; [done|]. split; [done|]. by destruct (BitSet.is_empty _).
Qed.

(** What the check accepts is free of prefixes. *)
Lemma checked_prefix_free : dfa_is_nonnullable_and_prefix_free m = Some true → prefix_free (denote e).
Proof using Hw Hc.
  destruct (compiled_wf _ _ Hc) as [groups Hm]. intros Hcheck.
  destruct (prefix_free_check m (wf_dfa_ok m groups Hm) (compiled_size _ _ Hc) Hcheck) as [Hstart Hfree]. split.
  - intros (q & [= <-] & Hq)%lang_run. done.
  - intros w [|b v] H1 H2; [done|]. apply lang_run in H1 as (q & Hq & Ha), H2 as (t & Ht & Hb). exfalso.
    rewrite lex_run_app, Hq in Ht. cbn in Ht. destruct (LexDFA.step m q b) as [u|] eqn:Hu; [|done]. cbn in Ht.
    apply (Hfree q u Ha); [apply (step_target m groups Hm); by exists b|]. exists t. split; [done|by eapply run_targets].
Qed.

(** An edge into the start is a word after which the language starts again. *)
Lemma start_returns s : target_edge m s 0 → returns (denote e).
Proof using Hw Hc.
  destruct (compiled_wf _ _ Hc) as [groups Hm]. intros Hs. pose proof (proj1 (target_edge_lt m s 0 (wf_dfa_ok m groups Hm) Hs)) as Hlt.
  destruct (compiled_reached _ _ Hc s Hlt) as (w & _ & Hrun). apply (step_target m groups Hm) in Hs as [b Hb]. exists (w ++ [b]). split; [by destruct w|].
  intros v. rewrite !lang_run, lex_run_app, lex_run_snoc, Hrun. cbn [mbind option_bind]. by rewrite Hb.
Qed.
End compiled.

(** A word that is accepted is still reachable from each of its prefixes. *)
Lemma path_targets a s w t : nfa_path a s w t → rtc (nfa_target a) s t.
Proof.
  induction 1 as [s|s t u w He _ IH|s t u b w row set Hrow Hin _ _ IH]; [done| |].
  - eapply rtc_l; [|exact IH]. destruct He as (row & Hrow & Hin). exists row. split; [done|]. unfold row_targets. set_solver.
  - eapply rtc_l; [|exact IH]. exists row. split; [done|]. unfold row_targets. apply elem_of_app. right. apply list_elem_of_fmap. by exists (set, t).
Qed.

Lemma path_split a s w v t : nfa_path a s (w ++ v) t → ∃ x, nfa_path a s w x ∧ nfa_path a x v t.
Proof.
  intros Hp. remember (w ++ v) as u eqn:Hu. revert w v Hu. induction Hp as [s|s t u w' He Hp IH|s t u b w' row set Hrow Hin Hb Hp IH]; intros w v Hu.
  - symmetry in Hu. apply app_nil in Hu as [-> ->]. exists s. split; constructor.
  - destruct (IH w v Hu) as (x & H1 & H2). exists x. split; [by eapply path_epsilon|done].
  - destruct w as [|c w]; cbn in Hu.
    + subst v. exists s. split; [constructor|]. by eapply path_byte.
    + injection Hu as <- Hu. destruct (IH w v Hu) as (x & H1 & H2). exists x. split; [by eapply path_byte|done].
Qed.

Lemma matches_prefix a w v g : nfa_matches a (w ++ v) g → may_reach a w g.
Proof.
  intros (t & row & Hp & Hrow & Hg). apply path_split in Hp as (x & H1 & H2). exists x. split; [done|]. exists t, row. split; [by eapply path_targets|done].
Qed.

(** The automaton of an expression: a word leads to a state that tells whether
    the word is one of the language and whether a longer word is. *)
Definition expr_automaton (m : LexDFA.t) (e : Expr.t) : Prop :=
  ∀ w, byte_word w →
  match lex_run m 0 w with
  | Some q => ∃ row, (LexDFA.states m).[q] = Some row ∧
      (BitSet.get (LexState.finalizers row) 0 = true ↔ denote e w) ∧
      (BitSet.get (LexState.possible_future_group_ids row) 0 = true ↔ ∃ b v, byte_word (b :: v) ∧ denote e (w ++ b :: v))
  | None => ∀ v, ¬ denote e (w ++ v)
  end.


(** * The direct automata of bounded repetitions *)

Lemma unwrap_shared_denote e : denote (unwrap_shared e) = denote e.
Proof. by induction e using expr_ind. Qed.

Lemma unwrap_shared_wf e : wf e → wf (unwrap_shared e).
Proof. by induction e using expr_ind. Qed.

(** Below the threshold there is no direct automaton; above it the body
    compiles, and a body that passes the check does not return to its start. *)
Definition direct_ok (expr : Expr.t) (min max : N) : Prop :=
  32 ≤ max → answers (unwrap_shared expr) ∧ (prefix_free (denote expr) → ¬ returns (denote expr)).

(** The construction of the code keeps the promise of the compiler. *)
#[export] Instance build_bounded : BoundedRepeat direct_ok build_bounded_repeat_dfa.
Proof.
  assert (Hcase : ∀ e min max, wf e → direct_ok e min max → min ≤ max → ∃ r, build_bounded_repeat_dfa e min max = Some r ∧
    ∀ d, r = Some d → dfa_ok d ∧ ∀ w, dfa_lang d w ↔ lrep (denote e) min (Some max) w).
  { intros e min max Hw%unwrap_shared_wf Hok Hle. unfold build_bounded_repeat_dfa, build_bounded_repeat_dfa_with, cached_direct_bounded_repeat_base_dfa.
    destruct (N.ltb_spec max DIRECT_BOUNDED_REPEAT_THRESHOLD) as [|Hmax]; [by exists None|].
    destruct (Hok Hmax) as [(m & Hm & Hc) Hret]. unfold cached_direct_bounded_repeat_base_dfa_unconditionally, compile_direct_bounded_repeat_base_dfa_unconditionally. rewrite Hm. cbn [mbind option_bind].
    destruct (compiled_wf _ _ Hc) as [groups Hwf]. pose proof (wf_dfa_ok m groups Hwf) as Hdfa.
    rewrite (proj2 (N.eqb_neq _ _)) by (pose proof (proj1 Hdfa); lia).
    destruct (prefix_free_total m Hdfa (compiled_size _ _ Hc)) as [direct Hcheck]. rewrite Hcheck. cbn [mbind option_bind].
    destruct direct; [|by exists None].
    pose proof (checked_prefix_free _ m Hw Hc Hcheck) as Hfree. rewrite unwrap_shared_denote in Hfree.
    destruct (from_base_spec m min max Hdfa (wf_no_epsilon m groups Hwf) (compiled_size _ _ Hc) Hcheck) as (r & Hr & _ & Hd).
    - intros s Hs%(start_returns _ m Hw Hc). rewrite unwrap_shared_denote in Hs. by apply Hret.
    - exists r. split; [done|]. intros d [? Hlang]%Hd. split; [done|]. intros w. rewrite Hlang. apply lrep_proper; [|done..].
      intros v. rewrite <-(unwrap_shared_denote e). by apply compiled_denotes. }
  split.
  - intros e min max Hw _ Hok Hle. destruct (Hcase e min max Hw Hok Hle) as (r & -> & _). by eexists.
  - intros e min max d Hw _ Hok Hle Hd. destruct (Hcase e min max Hw Hok Hle) as (r & Hr & H). apply H. congruence.
Qed.

(** * The expressions that compile *)

(** Compiling runs within the 32-bit tables, at every step. *)
Definition tables_fit (e : Expr.t) : Prop :=
  ∀ a, build_regex_nfa_impl build_bounded_repeat_dfa [e] = Some a →
  num_states a < 2147483648 ∧ ∀ a', condense_epsilon_sccs a = Some a' →
  nfa_fits a' ∧ ∀ d members, determinize_impl a' false = Some (d, members) → LexDFA.num_states d < 16777216.

(** A bounded repetition in an expression, by its body and upper bound. *)
Inductive repeats (body : Expr.t) (max : N) : Expr.t → Prop :=
  | repeats_here expr min : body = unwrap_shared expr → repeats body max (Repeat expr min (Some max))
  | repeats_body expr min bound : repeats body max expr → repeats body max (Repeat expr min bound)
  | repeats_seq l expr : expr ∈ l → repeats body max expr → repeats body max (Seq l)
  | repeats_choice l expr : expr ∈ l → repeats body max expr → repeats body max (Choice l)
  | repeats_shared expr : repeats body max expr → repeats body max (Shared expr).

(** No intersection or exclusion is left, a choice has options. *)
Definition lowered : Expr.t → Prop := compilable (λ _ _ _, True).

(** The expression is valid; what simplification makes of it is lowered; and the
    body of each of its bounded repetitions from the threshold on is compiled
    within the tables, is itself such an expression, and does not return to its
    start when it passes for free of prefixes. *)
Inductive handled (e : Expr.t) : Prop :=
  | handled_intro :
      wf e →
      (∀ e', optimize e = Some e' → lowered e') →
      (∀ e' body max, optimize e = Some e' → repeats body max e' → 32 ≤ max →
        tables_fit body ∧ (prefix_free (denote body) → ¬ returns (denote body))) →
      (∀ e' body max, optimize e = Some e' → repeats body max e' → 32 ≤ max → handled body) →
      handled e.

Lemma lowered_direct e : lowered e →
  (∀ body max, repeats body max e → 32 ≤ max → answers body ∧ (prefix_free (denote body) → ¬ returns (denote body))) →
  compilable direct_ok e.
Proof.
  induction e as [bytes|set|d|e x IHe IHx|l IH|l IH|e x IHe IHx|e min max IHe|e IHe|] using expr_ind; intros Hl Hr; try done.
  - unfold lowered in *. cbn [compilable] in *. rewrite all_P_Forall in *. rewrite Forall_forall in *. intros x Hx. apply IH; [done|by apply Hl|].
    intros body max Hb. apply Hr. by eapply repeats_seq.
  - unfold lowered in *. cbn [compilable] in *. destruct Hl as [Hne Hl]. split; [done|]. rewrite all_P_Forall in *. rewrite Forall_forall in *. intros x Hx.
    apply IH; [done|by apply Hl|]. intros body max Hb. apply Hr. by eapply repeats_choice.
  - unfold lowered in *. cbn [compilable] in *.
    assert (He : compilable (λ _ _ _, True) e → compilable direct_ok e) by (intros H; apply IHe; [done|]; intros body b Hb; by apply Hr, repeats_body).
    destruct max as [max|]; [|by apply He]. split; [|by apply He, Hl]. intros Hmax.
    destruct (Hr (unwrap_shared e) max) as [Ha Hret]; [by apply repeats_here|done|]. by rewrite unwrap_shared_denote in Hret.
  - apply IHe; [done|]. intros body max Hb. by apply Hr, repeats_shared.
Qed.

Lemma answers_intro e : compiles direct_ok e → tables_fit e →
  ∃ m groups, compile_expr_to_dfa e = Some m ∧ lex_wf 256 groups m ∧ expr_automaton m e ∧ compiled e m.
Proof.
  intros He Hfit. destruct (build_spec direct_ok build_bounded_repeat_dfa [e]) as (a & Ha & Hp); [by apply Forall_singleton|by vm_compute|].
  destruct (Hfit a Ha) as [Hn Hfit']. destruct Hp as (Hst & H0 & Hclosed & Hm); [unfold u32_modulus; lia|].
  destruct (condense_spec a Hclosed) as (a' & Hc & _ & Hst' & Hm' & Hclosed' & _); [exact Hn|by rewrite Hst|].
  destruct (Hfit' a' Hc) as [Hfits Hdet]. destruct (to_minimized_spec a' (fits_input a' Hclosed' Hst' Hfits)) as (d & members & Hd & Hmin).
  pose proof (Hdet d members Hd) as Hsmall. destruct (Hmin Hsmall (nf_groups _ Hfits)) as (m & Hto & Hnm & Hwf & Hrec & Hreach).
  assert (Hlang : ∀ w g, nfa_matches a' w g ↔ g = 0 ∧ denote e w).
  { intros w g. rewrite Hm', Hm. split; [|intros [-> ?]; by exists e]. intros (e' & He' & ?).
    cbn in He'. destruct (N.eqb_spec g 0) as [->|]; [by injection He' as <-|done]. }
  exists m, (nfa_group_count a'). rewrite compile_expr_to_dfa_equation.
  change (build_regex_nfa build_bounded_repeat_dfa [e] = Some a) in Ha. unfold build_regex_nfa in Ha. rewrite Ha. cbn [mbind option_bind]. rewrite Hc. cbn [mbind option_bind].
  split; [done|]. split; [done|]. split.
  - intros w Hbw. specialize (Hrec w Hbw). destruct (lex_run m 0 w) as [q|].
    + destruct Hrec as (row & Hrow & Hg). exists row. split; [done|]. destruct (Hg 0) as [-> ->]. setoid_rewrite Hlang. naive_solver.
    + intros v Hv. apply (Hrec 0), (matches_prefix a' w v). by apply Hlang.
  - split; [by exists (nfa_group_count a')|unfold u32_modulus; lia|done|]. intros w Hbw. specialize (Hrec w Hbw). destruct (lex_run m 0 w) as [q|].
    + destruct Hrec as (row & Hrow & Hg). pose proof (lw_rows _ _ _ Hwf row ltac:(apply nthN_elem_of; eauto)) as [_ _ _ [Hfin _] _].
      assert (Heq : BitSet.is_empty (LexState.finalizers row) = false ↔ denote e w).
      { rewrite (LexBits.is_empty_false _ Hfin). split; [intros [g H]; by apply Hg, Hlang in H as [_ ?]|]. intros H. exists 0. by apply Hg, Hlang. }
      rewrite <-Heq. split; [intros (q' & row' & [= <-] & Hrow' & H); congruence|]. intros H. by exists q, row.
    + split; [by intros (? & ? & ? & _)|]. intros H. exfalso. apply (Hrec 0), matches_reach. by apply Hlang.
Qed.

Lemma handled_compiles e : handled e → compiles direct_ok e.
Proof.
  induction 1 as [e Hw Hlow Hrep _ IH]. split; [done|]. intros e' He'. apply lowered_direct; [by apply Hlow|]. intros body max Hb Hmax.
  destruct (Hrep e' body max He' Hb Hmax) as [Hfit Hret]. split; [|done]. destruct (answers_intro body (IH e' body max He' Hb Hmax) Hfit) as (m & _ & ? & _ & _ & ?). by exists m.
Qed.

(** Expressions whose counts stay below the threshold, with options in their
    choices and bytes in their classes. *)
Lemma solid_handled e : wf e → solid (λ _ max, max < 32) e → handled e.
Proof.
  intros Hw Hs. assert (Hopt : ∀ e', optimize e = Some e' → compilable (λ _ _ max, max < 32) e') by (intros e' He'; by apply (optimize_solid _ e)).
  assert (Hlow : ∀ e, compilable (λ _ _ max, max < 32) e → lowered e ∧ ∀ body max, repeats body max e → max < 32).
  { clear. induction e as [bytes|set|d|e x IHe IHx|l IH|l IH|e x IHe IHx|e min max IHe|e IHe|] using expr_ind; intros Hc; try done; try (split; [done|by inversion 1]).
    - unfold lowered. cbn [compilable] in *. rewrite all_P_Forall in *. rewrite Forall_forall in *. split; [intros x Hx; by apply IH, Hc|].
      inversion 1; subst. by eapply IH; [|apply Hc|].
    - unfold lowered. cbn [compilable] in *. destruct Hc as [Hne Hc]. rewrite all_P_Forall in *. rewrite Forall_forall in *. split; [split; [done|]; intros x Hx; by apply IH, Hc|].
      inversion 1; subst. by eapply IH; [|apply Hc|].
    - unfold lowered in *. cbn [compilable] in *. destruct max as [max|].
      + destruct Hc as [Hmax Hc]. destruct (IHe Hc) as [? Hr]. split; [done|]. inversion 1; subst; [done|by eapply Hr].
      + destruct (IHe Hc) as [? Hr]. split; [done|]. inversion 1; subst. by eapply Hr.
    - destruct (IHe Hc) as [? Hr]. split; [done|]. inversion 1; subst. by eapply Hr. }
  split; [done|..].
  - intros e' He'. by apply Hlow, Hopt.
  - intros e' body max He' Hr Hmax. apply (proj2 (Hlow e' (Hopt e' He'))) in Hr. lia.
  - intros e' body max He' Hr Hmax. apply (proj2 (Hlow e' (Hopt e' He'))) in Hr. lia.
Qed.

(** A language whose words have a bounded length does not return to its start. *)
Lemma bounded_no_return L n : (∃ w, L w) → (∀ w, L w → (length w ≤ n)%nat) → ¬ returns L.
Proof.
  intros [v Hv] Hlen (w & Hne & Hret).
  assert (Hpow : ∀ k, ∃ u, L u ∧ (k ≤ length u)%nat).
  { induction k as [|k (u & Hu & Hk)]; [exists v; split; [done|lia]|]. exists (w ++ u). split; [by apply Hret|]. rewrite length_app. destruct w; [done|]. cbn. lia. }
  destruct (Hpow (S n)) as (u & Hu%Hlen & Hk). lia.
Qed.

Definition tables_fit_b (e : Expr.t) : bool :=
  match build_regex_nfa_impl build_bounded_repeat_dfa [e] with
  | None => true
  | Some a => (num_states a <? 2147483648) &&
      match condense_epsilon_sccs a with
      | None => true
      | Some a' => nfa_fits_b a' && match determinize_impl a' false with None => true | Some (d, _) => LexDFA.num_states d <? 16777216 end
      end
  end.

Lemma tables_fit_check e : tables_fit_b e = true → tables_fit e.
Proof.
  unfold tables_fit_b. intros H a Ha. rewrite Ha in H. apply andb_true_iff in H as [Hn%N.ltb_lt H]. split; [done|]. intros a' Hc. rewrite Hc in H.
  apply andb_true_iff in H as [Hf%nfa_fits_check H]. split; [done|]. intros d members Hd. rewrite Hd in H. by apply N.ltb_lt.
Qed.

(** C1: An expression compiles to an automaton of its language.  Two conditions:
    the expression is [handled] (its bytes are bytes; simplification leaves no
    intersection or exclusion in it and no choice without options; and, in turn,
    so are the bodies of its bounded repetitions with an upper bound of 32 or
    more, which in addition, when their language is free of prefixes, do not
    return to their start), and the tables of the passes fit in their 32 bits.
    Then compiling ends without a panic, with any fuel above the nesting of those
    repetitions; the rows of the automaton are over bytes; it finalizes its group
    exactly after the words of the expression, has a future exactly where a longer
    word is one, and is left with no state where no word of the expression begins
    so. *)
Theorem compile_expr_to_dfa_correct (e : Expr.t) :
  handled e → tables_fit e →
  ∃ m groups, compile_expr_to_dfa e = Some m ∧ (∀ fuel, (repeat_depth e < fuel)%nat → compile_expr_to_dfa_fuel fuel e = Some m) ∧
    lex_wf 256 groups m ∧ expr_automaton m e.
Proof.
  intros He%handled_compiles Hfit. destruct (answers_intro e He Hfit) as (m & groups & Hm & Hwf & Ha & _). exists m, groups. split; [done|]. split; [|done].
  intros fuel Hfuel. rewrite <-Hm. apply compile_fuel_enough; lia.
Qed.

(** ["[ab]{0,40}"]: the repetition is built from the automaton of its body. *)
Definition quoted_expr : Expr.t := Seq [byte 34; Repeat (Choice [byte 97; byte 98]) 0 (Some 40); byte 34].

Lemma quoted_handled : handled quoted_expr.
Proof.
  assert (Hopt : ∃ set, optimize quoted_expr = Some (Seq [U8Seq [34]; Repeat (U8Class set) 0 (Some 40); U8Seq [34]]) ∧
    U8Set.wf_b set = true ∧ U8Set.contains set 97 = true ∧ tables_fit_b (U8Class set) = true ∧ optimize (U8Class set) = Some (U8Class set)).
  { eexists. split; [vm_compute; reflexivity|]. split; [by vm_compute|]. split; [by vm_compute|]. split; by vm_compute. }
  destruct Hopt as (set & Hopt & Hset%U8SetFacts.wf_b_spec & Ha & Hfit & Hself).
  assert (Hrep : ∀ body max, repeats body max (Seq [U8Seq [34]; Repeat (U8Class set) 0 (Some 40); U8Seq [34]]) → body = U8Class set).
  { intros body max Hr. inversion Hr as [| |l x Hin Hx| |]; subst. apply elem_of_cons in Hin as [->|Hin]; [by inversion Hx|].
    apply elem_of_cons in Hin as [->|Hin]; [|apply elem_of_cons in Hin as [->|Hin]; [by inversion Hx|by apply elem_of_nil in Hin]].
    inversion Hx as [x' min' Heq|x' min' b' Hb| | |]; subst; [done|by inversion Hb]. }
  split.
  - cbn. repeat (split || constructor).
  - intros e' He'. rewrite Hopt in He'. injection He' as <-. cbn. repeat split.
  - intros e' body max He' Hr _. rewrite Hopt in He'. injection He' as <-. apply Hrep in Hr as ->. split; [by apply tables_fit_check|]. intros _.
    apply (bounded_no_return _ 1); [by exists [97], 97|]. by intros w (b & -> & _).
  - intros e' body max He' Hr _. rewrite Hopt in He'. injection He' as <-. apply Hrep in Hr as ->. split; [exact Hset|..].
    + intros e' He'. rewrite Hself in He'. by injection He' as <-.
    + intros e' body b He' Hb. rewrite Hself in He'. injection He' as <-. inversion Hb.
    + intros e' body b He' Hb. rewrite Hself in He'. injection He' as <-. inversion Hb.
Qed.

Lemma compile_expr_to_dfa_correct_witness : ∃ m, compile_expr_to_dfa quoted_expr = Some m ∧ expr_automaton m quoted_expr ∧ LexDFA.num_states m = 43.
Proof.
  destruct (compile_expr_to_dfa_correct quoted_expr quoted_handled) as (m & groups & Hm & _ & _ & Ha); [apply tables_fit_check; vm_compute; reflexivity|].
  exists m. split; [exact Hm|]. split; [exact Ha|].
  assert (Hb : LexDFA.num_states <$> compile_expr_to_dfa quoted_expr = Some 43) by (vm_compute; reflexivity). rewrite Hm in Hb. by apply (inj Some) in Hb.
Defined.

(** C6: Building the NFA of a list of terminals does not panic, and group [g]
    accepts exactly the words of terminal [g], although terminals share their
    literal prefixes and repetitions share their fragments.  The terminals are
    [handled] (valid; simplified to expressions without intersections, exclusions
    and choices without options; the bodies of their bounded repetitions from 32
    on compile within the tables, are handled in turn and do not return to their
    start), and the states stay within their 32-bit numbers. *)
Theorem build_regex_nfa_correct (exprs : list Expr.t) :
  Forall handled exprs → lenN exprs ≤ u32_modulus →
  ∃ a, build_regex_nfa build_bounded_repeat_dfa exprs = Some a ∧
    (num_states a ≤ u32_modulus → start_state a = 0 ∧ nfa_closed a ∧
      ∀ w g, nfa_matches a w g ↔ ∃ e, exprs.[g] = Some e ∧ denote e w).
Proof.
  intros Hh Hl. destruct (build_spec direct_ok build_bounded_repeat_dfa exprs) as (a & Ha & Hp).
  - eapply Forall_impl; [exact Hh|]. apply handled_compiles.
  - done.
  - exists a. split; [done|]. intros Hm. by destruct (Hp Hm) as (? & _ & ? & ?).
Qed.

(** [ab], [a(b|c)] and [ab*]: the first byte is shared. *)
Definition terminals_ab : list Expr.t :=
  [bytes [97; 98]; Seq [byte 97; Choice [byte 98; byte 99]]; Seq [byte 97; star (byte 98)]].

Lemma build_regex_nfa_correct_witness :
  ∃ a, build_regex_nfa build_bounded_repeat_dfa terminals_ab = Some a ∧ num_states a = 7 ∧
    nfa_matches a [97; 98] 0 ∧ nfa_matches a [97; 98] 1 ∧ nfa_matches a [97; 98] 2 ∧ ¬ nfa_matches a [97; 99] 0.
Proof.
  destruct (build_regex_nfa_correct terminals_ab) as (a & Ha & Hp).
  - apply Forall_forall. intros e He. repeat (apply elem_of_cons in He as [->|He]; [apply solid_handled; [repeat constructor|repeat constructor; discriminate]|]). by apply elem_of_nil in He.
  - vm_compute. discriminate.
  - exists a. split; [exact Ha|].
    assert (Hn : num_states a = 7) by (vm_compute in Ha; injection Ha as <-; reflexivity). split; [exact Hn|].
    rewrite Hn in Hp. destruct Hp as (_ & _ & Hp); [vm_compute; discriminate|].
    split; [|split; [|split]].
    + apply Hp. exists (bytes [97; 98]). split; reflexivity.
    + apply Hp. eexists. split; [reflexivity|]. exists [97], [98]. split; [reflexivity|]. split; [reflexivity|].
      exists [98], []. split; [reflexivity|]. split; [by left|reflexivity].
    + apply Hp. eexists. split; [reflexivity|]. exists [97], [98]. split; [reflexivity|]. split; [reflexivity|].
      exists [98], []. split; [reflexivity|]. split; [|reflexivity]. exists 1%nat. split; [lia|]. split; [exact I|].
      exists [98], []. repeat split.
    + intros H. apply Hp in H as (e & He & Hd). injection He as <-. discriminate Hd.
Defined.
