(* ===== verification/RangeSets.v ===== *)
(** Sets of integers kept as ranges.

    The vocabulary keeps its sets in [RangeSetBlaze], a third-party crate.  The
    class [RangeSet] has the operations the source calls and [RangeSetLaws]
    what the crate documents of them: a set, iterated in ascending order, whose
    [ranges] are disjoint, in order and not adjacent.  Finite sets are an
    instance. *)

From S2P Require Import Prelude.

(** * Range vectors *)

(** [start..=end], in order, with a gap between neighbours. *)
Fixpoint normal (l : list (N * N)) : Prop :=
  match l with
  | [] => True
  | r :: l => r.1 ≤ r.2 ∧ match l with [] => True | r' :: _ => r.2 + 1 < r'.1 end ∧ normal l
  end.

Definition covers (l : list (N * N)) (x : N) : Prop := ∃ r, r ∈ l ∧ r.1 ≤ x ≤ r.2.

Lemma covers_nil x : ¬ covers [] x.
Proof. intros (r & Hr & _). by apply elem_of_nil in Hr. Qed.

Lemma covers_cons r l x : covers (r :: l) x ↔ r.1 ≤ x ≤ r.2 ∨ covers l x.
Proof.
  unfold covers. split.
  - intros (r' & [->|Hr']%elem_of_cons & Hx); [by left|right; eauto].
  - intros [Hx|(r' & Hr' & Hx)]; [exists r; split; [by left|done]|exists r'; split; [by right|done]].
Qed.

Lemma normal_tail r l : normal (r :: l) → normal l.
Proof. by intros (_ & _ & ?). Qed.

(** What comes later lies behind a gap. *)
Lemma normal_gap r l x : normal (r :: l) → covers l x → r.2 + 1 < x.
Proof.
  revert r. induction l as [|r' l IH]; intros r Hn Hx; [by destruct (covers_nil x)|].
  destruct Hn as (_ & Hgap & Hn). apply covers_cons in Hx as [Hx|Hx]; [lia|].
  specialize (IH r' Hn Hx). destruct Hn as (Hr' & _ & _). lia.
Qed.

Lemma normal_ranges l r r' : normal l → r ∈ l → r' ∈ l → r.1 ≤ r'.1 → r = r' ∨ r.2 + 1 < r'.1.
Proof.
  induction l as [|r0 l IH]; intros Hn Hr Hr' Hle; [by apply elem_of_nil in Hr|].
  assert (Hend : ∀ y, y ∈ l → y.1 ≤ y.2).
  { clear -Hn. apply normal_tail in Hn. induction l as [|z l IHl]; intros y Hy; [by apply elem_of_nil in Hy|].
    destruct Hn as (Hz & _ & Hn). apply elem_of_cons in Hy as [->|Hy]; [done|by apply IHl]. }
  assert (Hgap : ∀ y, y ∈ l → r0.2 + 1 < y.1).
  { intros y Hy. apply (normal_gap r0 l); [done|]. exists y. specialize (Hend y Hy). split; [done|lia]. }
  apply elem_of_cons in Hr as [->|Hr], Hr' as [->|Hr'].
  - by left.
  - right. by apply Hgap.
  - specialize (Hgap r Hr). destruct Hn as (Hr0 & _). lia.
  - apply IH; [by eapply normal_tail|done..].
Qed.

(** Range vectors of the same set are the same. *)
Lemma normal_canonical l l' : normal l → normal l' → (∀ x, covers l x ↔ covers l' x) → l = l'.
Proof.
  revert l'. induction l as [|[a b] l IH]; intros [|[a' b'] l'] Hn Hn' Heq; [done| | |].
  - exfalso. apply (covers_nil a'). apply Heq, covers_cons. left. destruct Hn' as (? & _). simpl in *. lia.
  - exfalso. apply (covers_nil a). apply Heq, covers_cons. left. destruct Hn as (? & _). simpl in *. lia.
  - pose proof (λ x, normal_gap (a, b) l x Hn) as Hg. pose proof (λ x, normal_gap (a', b') l' x Hn') as Hg'.
    pose proof (normal_tail _ _ Hn) as Ht. pose proof (normal_tail _ _ Hn') as Ht'.
    setoid_rewrite covers_cons in Heq. simpl in *.
    assert (Hab : a ≤ b) by (by destruct Hn). assert (Hab' : a' ≤ b') by (by destruct Hn').
    assert (a = a') as <-.
    { destruct (proj1 (Heq a) ltac:(left; lia)) as [?|H1%Hg']; destruct (proj2 (Heq a') ltac:(left; lia)) as [?|H2%Hg]; lia. }
    assert (b = b') as <-.
    { destruct (N.lt_trichotomy b b') as [Hlt|[|Hlt]]; [|done|].
      - destruct (proj2 (Heq (b + 1)) ltac:(left; lia)) as [?|H1%Hg]; lia.
      - destruct (proj1 (Heq (b' + 1)) ltac:(left; lia)) as [?|H1%Hg']; lia. }
    f_equal. apply IH; [done|done|]. intros x. split; intros Hx.
    + destruct (proj1 (Heq x)) as [?|]; [by right| |done]. specialize (Hg x Hx). lia.
    + destruct (proj2 (Heq x)) as [?|]; [by right| |done]. specialize (Hg' x Hx). lia.
Qed.

(** * The interface *)

Class RangeSet (RS : Type) := {
  rs_empty : RS;
  rs_insert : RS → N → RS;
  rs_union : RS → RS → RS;
  rs_len : RS → N;
  rs_iter : RS → list N;
  rs_from_ranges : list (N * N) → RS;
  rs_ranges : RS → list (N * N);
}.

Class RangeSetLaws (RS : Type) `{RangeSet RS} := {
  rs_iter_sorted s : strictly_sorted (rs_iter s);
  rs_len_iter s : rs_len s = lenN (rs_iter s);
  rs_iter_empty : rs_iter rs_empty = [];
  rs_iter_insert s x y : x ∈ rs_iter (rs_insert s y) ↔ x = y ∨ x ∈ rs_iter s;
  rs_iter_union s t x : x ∈ rs_iter (rs_union s t) ↔ x ∈ rs_iter s ∨ x ∈ rs_iter t;
  rs_iter_from_ranges l x : x ∈ rs_iter (rs_from_ranges l) ↔ covers l x;
  rs_ranges_normal s : normal (rs_ranges s);
  rs_ranges_covers s x : covers (rs_ranges s) x ↔ x ∈ rs_iter s;
}.

(** * Finite sets are range sets *)

Definition range (a b : N) : list N := (λ i, a + i) <$> seqN (N.to_nat (b + 1 - a)).

Lemma elem_of_range a b x : x ∈ range a b ↔ a ≤ x ≤ b.
Proof.
  unfold range. rewrite list_elem_of_fmap. setoid_rewrite elem_of_seqN. split.
  - intros (i & -> & Hi). lia.
  - intros Hx. exists (x - a). split; lia.
Qed.

(** The ranges of an ascending vector. *)
Fixpoint ranges_of (l : list N) : list (N * N) :=
  match l with
  | [] => []
  | x :: l => match ranges_of l with
              | r :: rs => if r.1 =? x + 1 then (x, r.2) :: rs else (x, x) :: r :: rs
              | [] => [(x, x)]
              end
  end.

Lemma ranges_of_ok l :
  strictly_sorted l →
  normal (ranges_of l) ∧ (∀ x, covers (ranges_of l) x ↔ x ∈ l) ∧
  match ranges_of l with r :: _ => head l = Some r.1 | [] => l = [] end.
Proof.
  induction 1 as [|x l Hs IH Hx]; [split; [done|]; split; [|done]; intros y; rewrite elem_of_nil; split; [apply covers_nil|done]|].
  destruct IH as (Hn & Hc & Hhead). cbn [ranges_of]. rewrite Forall_forall in Hx.
  destruct (ranges_of l) as [|[a b] rs].
  - subst l. split; [by simpl|]. split; [|done]. intros y. rewrite covers_cons, elem_of_cons. simpl.
    rewrite (Hc y), elem_of_nil. split; [intros [?|[]]; left; lia|intros [->|[]]; left; lia].
  - assert (Hxa : x < a) by (apply Hx; destruct l; [done|]; injection Hhead as ->; left). simpl in *.
    destruct (N.eqb_spec a (x + 1)) as [->|Hne].
    + split; [|split; [|done]].
      * destruct Hn as (Hab & Hgap & Hn). simpl. split; [lia|]. split; done.
      * intros y. rewrite elem_of_cons, <-Hc, !covers_cons. simpl. destruct Hn as (Hab & _). split.
        -- intros [?|?]; [|right; by right]. destruct (decide (y = x)) as [->|]; [by left|right; left; lia].
        -- intros [->|[?|?]]; [left; lia|left; lia|by right].
    + split; [|split; [|done]].
      * simpl. split; [lia|]. split; [lia|exact Hn].
      * intros y. rewrite covers_cons, elem_of_cons, Hc. simpl. split; [intros [?|?]; [left; lia|by right]|intros [->|?]; [left; lia|by right]].
Qed.

#[export] Instance gset_range_set : RangeSet (gset N) := {
  rs_empty := ∅;
  rs_insert s x := {[x]} ∪ s;
  rs_union s t := s ∪ t;
  rs_len s := N.of_nat (size s);
  rs_iter s := sort_N (elements s);
  rs_from_ranges l := list_to_set (concat ((λ r : N * N, range r.1 r.2) <$> l));
  rs_ranges s := ranges_of (sort_N (elements s));
}.

Lemma elem_of_gset_iter (s : gset N) x : x ∈ rs_iter s ↔ x ∈ s.
Proof. simpl. by rewrite elem_of_sort_N, elem_of_elements. Qed.

#[export] Instance gset_range_set_laws : RangeSetLaws (gset N).
Proof.
  assert (Hsort : ∀ s : gset N, strictly_sorted (rs_iter s)) by (intros s; apply strictly_sorted_sort_N, NoDup_elements).
  split.
  - exact Hsort.
  - intros s. simpl. unfold lenN. by rewrite length_sort_N.
  - done.
  - intros s x y. rewrite !elem_of_gset_iter. simpl. set_solver.
  - intros s t x. rewrite !elem_of_gset_iter. simpl. set_solver.
  - intros l x. rewrite elem_of_gset_iter. simpl. rewrite elem_of_list_to_set, list_elem_of_In, in_concat.
    setoid_rewrite <-list_elem_of_In. unfold covers. split.
    + intros (xs & (r & -> & Hr)%list_elem_of_fmap & Hx%elem_of_range). eauto.
    + intros (r & Hr & Hx). exists (range r.1 r.2). split; [|by apply elem_of_range]. apply list_elem_of_fmap. eauto.
  - intros s. apply ranges_of_ok, Hsort.
  - intros s x. apply ranges_of_ok, Hsort.
Qed.

Lemma rs_iter_ext `{RangeSetLaws RS} (s t : RS) : (∀ x, x ∈ rs_iter s ↔ x ∈ rs_iter t) → rs_iter s = rs_iter t.
Proof. apply strictly_sorted_ext; apply rs_iter_sorted. Qed.

Lemma rs_ranges_ext `{RangeSetLaws RS} (s t : RS) :
  (∀ x, x ∈ rs_iter s ↔ x ∈ rs_iter t) → rs_ranges s = rs_ranges t.
Proof. intros Heq. apply normal_canonical; [apply rs_ranges_normal..|]. intros x. by rewrite !rs_ranges_covers. Qed.
