(* ===== verification/Vocab.v ===== *)
(** Token sets and vocabularies (crates/glrmask-vocab/src/lib.rs), over any
    implementation of range sets. *)

From stdpp Require Import strings.
From S2P Require Import Prelude RangeSets.

(** * Token sets *)

Module Bound.
(** [std::ops::Bound] *)
Inductive t := Included (x : N) | Excluded (x : N) | Unbounded.
End Bound.

Module TokenSet.
Record t := mk { ranges : list (N * N) }.

Section token_set.
Context {RS : Type} `{RangeSet RS}.

Definition from_pairs (pairs : list (N * N)) : t := mk (rs_ranges (rs_from_ranges pairs : RS)).

Definition new (ids : list N) : t := from_pairs ((λ id, (id, id)) <$> ids).

(** [None] is the [continue] of a bound that does not exist. *)
Definition start_of (b : Bound.t) : option N :=
  match b with
  | Bound.Included x => Some x
  | Bound.Excluded x => if x =? u32_max then None else Some (x + 1)
  | Bound.Unbounded => Some 0
  end.

Definition end_of (b : Bound.t) : option N :=
  match b with
  | Bound.Included x => Some x
  | Bound.Excluded x => if x =? 0 then None else Some (x - 1)
  | Bound.Unbounded => Some u32_max
  end.

Definition pair_of (r : Bound.t * Bound.t) : option (N * N) :=
  start ← start_of r.1; stop ← end_of r.2;
  if stop <? start then None else Some (start, stop).

Definition from_ranges (ranges : list (Bound.t * Bound.t)) : t := from_pairs (omap pair_of ranges).

(** [From<u32>] *)
Definition from (id : N) : t := from_pairs [(id, id)].
End token_set.

Definition range_pairs (s : t) : list (N * N) := ranges s.

(** The IDs of the set. *)
Definition member (s : t) (id : N) : Prop := covers (ranges s) id.

(** [start <= id <= end] for the bounds of a [u32] range. *)
Definition within (r : Bound.t * Bound.t) (id : N) : Prop :=
  match r.1 with Bound.Included x => x ≤ id | Bound.Excluded x => x < id | Bound.Unbounded => True end ∧
  match r.2 with Bound.Included x => id ≤ x | Bound.Excluded x => id < x | Bound.Unbounded => id ≤ u32_max end.
End TokenSet.

(** * Searching range vectors *)

(** [partition_point]: how many leading elements satisfy the predicate, on a
    vector that it partitions. *)
Fixpoint partition_point {A} (pred : A → bool) (l : list A) : N :=
  match l with
  | [] => 0
  | x :: l => if pred x then N.succ (partition_point pred l) else 0
  end.

(** [(start..=end).find(pred)] *)
Definition find_in_range (pred : N → bool) (start stop : N) : option N :=
  snd <$> list_find (λ id, pred id = true) (range start stop).

(** [iter().find_map(f)] *)
Fixpoint find_map {A B} (f : A → option B) (l : list A) : option B :=
  match l with
  | [] => None
  | x :: l => match f x with Some y => Some y | None => find_map f l end
  end.

(** * Vocabularies *)

Module Vocab.
(** What is derived from the bytes, by the name of its type: the bytes of
    [VocabRelevantBytes], or an artifact of another crate. *)
Inductive artifact := RelevantBytes (bytes : list N) | Other.

Record t := mk {
  entries : gmap N (list N);
  compiler_cache : gmap string artifact;
  event_token_ranges : list (N * N);
  byte_token_ranges : list (N * N);
  max_len : option N;
}.

(** Entries by ascending ID. *)
Definition iter (v : t) : list (N * list N) := bt_iter N.le (entries v).

Definition max_byte_len (entries : gmap N (list N)) : N :=
  foldr N.max 0 ((λ e : N * list N, lenN e.2) <$> bt_iter N.le entries).

Section vocab.
Context (RS : Type) `{RangeSet RS}.

Definition single (id : N) : N * N := (id, id).

Definition rebuild_event_ranges (v : t) : t :=
  mk (entries v) (compiler_cache v)
    (rs_ranges (rs_from_ranges (single <$> (iter v).*1) : RS))
    (rs_ranges (rs_from_ranges (single <$> (filter (λ e, e.2 ≠ []) (iter v)).*1) : RS))
    (max_len v).

(** The IDs are inserted one by one; a duplicate panics. *)
Definition insert_id (ids : gset N) (e : N * list N) : option (gset N) :=
  if decide (e.1 ∈ ids) then None else Some ({[e.1]} ∪ ids).

Definition new (l : list (N * list N)) : option t :=
  _ ← foldM insert_id ∅ l;
  let entries := bt_collect l in
  Some (rebuild_event_ranges (mk entries ∅ [] [] (Some (max_byte_len entries)))).
End vocab.

Definition contains_token_id (v : t) (id : N) : bool := bool_decide (is_Some (entries v !! id)).

Definition first_unknown_token_id (v : t) (s : TokenSet.t) : option N :=
  find_map (λ r, find_in_range (λ id, negb (contains_token_id v id)) r.1 r.2) (TokenSet.range_pairs s).

(** The range before the partition point at [start], if it reaches [stop]. *)
Definition reaches (ranges : list (N * N)) (start stop : N) : option N :=
  let index := partition_point (λ r, r.1 <=? start) ranges in
  if 0 <? index then
    match ranges.[index - 1] with
    | Some r => if stop <=? r.2 then Some r.2 else None
    | None => None
    end
  else None.

Definition contains_token_range (v : t) (start stop : N) : bool :=
  if stop <? start then false else bool_decide (is_Some (reaches (event_token_ranges v) start stop)).

Definition max_token_byte_len (v : t) : N * t :=
  match max_len v with
  | Some n => (n, v)
  | None =>
      let n := max_byte_len (entries v) in
      (n, mk (entries v) (compiler_cache v) (event_token_ranges v) (byte_token_ranges v) (Some n))
  end.

Definition relevant_bytes_key : string := "VocabRelevantBytes".

(** [observed[byte] = true] for every byte of every token. *)
Definition observed_bytes (entries : gmap N (list N)) : list bool :=
  foldl (λ seen e, foldl (λ seen byte, alterN (λ _, true) seen byte) seen e.2)
    (replicate 256 false) (bt_iter N.le entries).

Definition present (p : N * bool) : option N := if p.2 then Some p.1 else None.

(** [entry(..).or_insert(..)] in the shared cache. *)
Definition cache_set (v : t) (key : string) (x : artifact) : t :=
  mk (entries v)
    (match compiler_cache v !! key with Some _ => compiler_cache v | None => <[key := x]> (compiler_cache v) end)
    (event_token_ranges v) (byte_token_ranges v) (max_len v).

Definition relevant_bytes (v : t) : list N * t :=
  match compiler_cache v !! relevant_bytes_key with
  | Some (RelevantBytes bytes) => (bytes, v)
  | _ =>
      let bytes := omap present (enumerate (observed_bytes (entries v))) in
      (bytes, cache_set v relevant_bytes_key (RelevantBytes bytes))
  end.

Definition len (v : t) : N := N.of_nat (size (entries v)).
Definition is_empty (v : t) : bool := bool_decide (entries v = ∅).
Definition max_event_token_id (v : t) : option N := snd <$> last (event_token_ranges v).

Definition next_available_token_id (v : t) (start : N) : option N :=
  match reaches (event_token_ranges v) start start with
  | Some stop => if stop =? u32_max then None else Some (stop + 1)
  | None => Some start
  end.

Definition intersects_token_range (v : t) (start stop : N) : bool :=
  if stop <? start then false
  else
    let index := partition_point (λ r, r.2 <? start) (event_token_ranges v) in
    match (event_token_ranges v).[index] with Some r => r.1 <=? stop | None => false end.

(** Shared entries are equal, so the test of the pointers adds nothing. *)
Definition same_model_vocab (v w : t) : bool := bool_decide (entries v = entries w).

(** [last_key_value] *)
Definition max_token_id (v : t) : N := match last (iter v) with Some e => e.1 | None => 0 end.
Definition get (v : t) (id : N) : option (list N) := entries v !! id.
Definition entries_map (v : t) : gmap N (list N) := entries v.
Definition compiler_cache_entry_count (v : t) : N := N.of_nat (size (compiler_cache v)).

(** [Clone]: everything is shared, and the length is copied if known. *)
Definition clone (v : t) : t :=
  mk (entries v) (compiler_cache v) (event_token_ranges v) (byte_token_ranges v)
    (match max_len v with Some n => Some n | None => None end).

(** * The invariant *)

Record ok (v : t) : Prop := {
  ok_ids : ∀ id bytes, entries v !! id = Some bytes → id ≤ u32_max ∧ Forall (λ byte, byte < 256) bytes;
  ok_events : normal (event_token_ranges v);
  ok_events_covers : ∀ id, covers (event_token_ranges v) id ↔ is_Some (entries v !! id);
  ok_bytes : normal (byte_token_ranges v);
  ok_bytes_covers : ∀ id, covers (byte_token_ranges v) id ↔ ∃ bytes, entries v !! id = Some bytes ∧ bytes ≠ [];
  ok_max_len : ∀ n, max_len v = Some n → n = max_byte_len (entries v);
  ok_cache : ∀ bytes, compiler_cache v !! relevant_bytes_key = Some (RelevantBytes bytes) →
    bytes = omap present (enumerate (observed_bytes (entries v)));
}.
End Vocab.

(** * Token sets are canonical *)

Section token_sets.
Context {RS : Type} `{RangeSetLaws RS}.
Import TokenSet.

Lemma from_pairs_member pairs id : member (from_pairs (RS := RS) pairs) id ↔ covers pairs id.
Proof. unfold member, from_pairs. simpl. by rewrite rs_ranges_covers, rs_iter_from_ranges. Qed.

Lemma from_pairs_normal pairs : normal (ranges (from_pairs (RS := RS) pairs)).
Proof. apply rs_ranges_normal. Qed.

Lemma pair_of_ok r id :
  within r id → id ≤ u32_max → ∃ p, pair_of r = Some p ∧ p.1 ≤ id ≤ p.2.
Proof.
  intros [Hs He] Hid. unfold pair_of.
  assert (∃ s, start_of r.1 = Some s ∧ s ≤ id) as (s & -> & Hs').
  { destruct r.1 as [x|x|]; simpl; [eauto| |exists 0; split; [done|lia]].
    destruct (N.eqb_spec x u32_max) as [->|]; [lia|]. exists (x + 1). split; [done|lia]. }
  assert (∃ e, end_of r.2 = Some e ∧ id ≤ e) as (e & -> & He').
  { destruct r.2 as [x|x|]; simpl; [eauto| |by exists u32_max].
    destruct (N.eqb_spec x 0) as [->|]; [lia|]. exists (x - 1). split; [done|lia]. }
  cbn [mbind option_bind]. destruct (N.ltb_spec e s); [lia|]. by exists (s, e).
Qed.

Lemma pair_of_within r p id : pair_of r = Some p → p.1 ≤ id ≤ p.2 → within r id.
Proof.
  unfold pair_of, within. destruct (start_of r.1) as [s|] eqn:Es; [|done].
  destruct (end_of r.2) as [e|] eqn:Ee; [|done]. cbn [mbind option_bind].
  destruct (N.ltb_spec e s); [done|]. intros [= <-] Hid. simpl in *. split.
  - destruct r.1 as [x|x|]; simpl in Es; [injection Es as ->; lia| |done].
    destruct (N.eqb_spec x u32_max); [done|]. injection Es as <-. lia.
  - destruct r.2 as [x|x|]; simpl in Ee; [injection Ee as ->; lia| |injection Ee as <-; lia].
    destruct (N.eqb_spec x 0); [done|]. injection Ee as <-. lia.
Qed.
End token_sets.

(** A token set built from ranges with any bounds has the IDs that lie in
    one of them, its range vector is in normal form, and two token sets are
    equal exactly when they have the same IDs. *)
Theorem token_set_canonical {RS : Type} `{RangeSetLaws RS} (l l' : list (Bound.t * Bound.t)) :
  (∀ id, id ≤ u32_max → TokenSet.member (TokenSet.from_ranges (RS := RS) l) id ↔ ∃ r, r ∈ l ∧ TokenSet.within r id) ∧
  normal (TokenSet.range_pairs (TokenSet.from_ranges (RS := RS) l)) ∧
  (TokenSet.from_ranges (RS := RS) l = TokenSet.from_ranges (RS := RS) l' ↔
    ∀ id, TokenSet.member (TokenSet.from_ranges (RS := RS) l) id ↔ TokenSet.member (TokenSet.from_ranges (RS := RS) l') id).
Proof.
  split; [|split].
  - intros id Hid. unfold TokenSet.from_ranges. rewrite from_pairs_member. unfold covers. split.
    + intros (p & (r & Hr & Hp)%list_elem_of_omap & Hin). exists r. split; [done|]. by eapply pair_of_within.
    + intros (r & Hr & Hw). destruct (pair_of_ok r id Hw Hid) as (p & Hp & Hin). exists p.
      split; [|done]. apply list_elem_of_omap. eauto.
  - apply from_pairs_normal.
  - split; [by intros ->|]. intros Heq. unfold TokenSet.from_ranges, TokenSet.from_pairs in *. f_equal.
    apply normal_canonical; [apply rs_ranges_normal..|exact Heq].
Qed.

(** * Searching *)

Lemma partition_point_le {A} (pred : A → bool) l : partition_point pred l ≤ lenN l.
Proof. induction l as [|x l IH]; simpl; [done|]. unfold lenN in *. simpl. destruct (pred x); lia. Qed.

Lemma partition_point_before {A} (pred : A → bool) l i x :
  i < partition_point pred l → l.[i] = Some x → pred x = true.
Proof.
  revert i. induction l as [|y l IH]; intros i Hi Hx; [done|]. simpl in *.
  destruct (pred y) eqn:E; [|lia]. destruct (N.eqb_spec i 0); [congruence|].
  apply (IH (N.pred i)); [lia|done].
Qed.

Lemma partition_point_at {A} (pred : A → bool) l x : l.[partition_point pred l] = Some x → pred x = false.
Proof.
  induction l as [|y l IH]; [done|]. simpl. destruct (pred y) eqn:E; [|by intros [= <-]].
  destruct (N.eqb_spec (N.succ (partition_point pred l)) 0); [lia|]. by rewrite N.pred_succ.
Qed.

Lemma normal_wide l r : normal l → r ∈ l → r.1 ≤ r.2.
Proof.
  induction l as [|z l IH]; intros Hn Hr; [by apply elem_of_nil in Hr|].
  destruct Hn as (Hz & _ & Hn). apply elem_of_cons in Hr as [->|Hr]; [done|by apply IH].
Qed.

Lemma normal_positions l i j r r' :
  normal l → l.[i] = Some r → l.[j] = Some r' → i < j → r.2 + 1 < r'.1.
Proof.
  revert i j. induction l as [|z l IH]; intros i j Hn Hi Hj Hij; [done|]. simpl in Hi, Hj.
  destruct (N.eqb_spec j 0) as [|Hj0]; [lia|]. destruct (N.eqb_spec i 0) as [|Hi0].
  - injection Hi as <-. apply (normal_gap z l _ Hn). assert (r' ∈ l) as Hr' by (apply nthN_elem_of; eauto).
    exists r'. split; [done|]. pose proof (normal_wide l r' (normal_tail _ _ Hn) Hr'). lia.
  - apply (IH (N.pred i) (N.pred j)); [by eapply normal_tail|done|done|lia].
Qed.

(** The range before the partition point is the only one that can hold [start];
    later ones lie behind it. *)
Lemma normal_before l start r :
  let index := partition_point (λ r, r.1 <=? start) l in
  normal l → 0 < index → l.[index - 1] = Some r →
  r.1 ≤ start ∧ ∀ x, covers l x → start ≤ x → x ≤ r.2 ∨ (r.2 + 1 < x ∧ start < x).
Proof.
  intros index Hn Hpos Hr. split.
  - apply N.leb_le. eapply (partition_point_before (λ r, r.1 <=? start)); [|exact Hr]. fold index. lia.
  - intros x (r' & Hin & Hx) Hs. apply nthN_elem_of in Hin as [j Hj].
    destruct (N.lt_trichotomy j (index - 1)) as [Hlt|[->|Hgt]].
    + pose proof (normal_positions l j (index - 1) r' r Hn Hj Hr Hlt).
      pose proof (normal_wide l r Hn ltac:(apply nthN_elem_of; eauto)). left. lia.
    + left. rewrite Hr in Hj. injection Hj as <-. lia.
    + right. pose proof (normal_positions l (index - 1) j r r' Hn Hr Hj Hgt). split; [lia|].
      assert (Hi : index < lenN l ∨ index = lenN l) by (pose proof (partition_point_le (λ r, r.1 <=? start) l) as Hpp; fold index in Hpp; lia).
      destruct Hi as [Hi|Hi]; [|apply nthN_lt in Hj; lia].
      destruct (proj1 (nthN_Some_lt _ _) Hi) as [ri Hri].
      pose proof (partition_point_at (λ r, r.1 <=? start) l ri Hri) as Hf%N.leb_gt.
      destruct (decide (j = index)) as [Heq|Hne]; [assert (r' = ri) as -> by (rewrite Heq in Hj; congruence); lia|].
      pose proof (normal_positions l index j ri r' Hn Hri Hj ltac:(lia)).
      pose proof (normal_wide l ri Hn ltac:(apply nthN_elem_of; eauto)). lia.
Qed.

Lemma normal_none_before l start x :
  normal l → partition_point (λ r, r.1 <=? start) l = 0 → covers l x → start < x.
Proof.
  intros Hn Hz (r' & Hin & Hx). apply nthN_elem_of in Hin as [j Hj].
  assert (Hl : 0 < lenN l) by (apply nthN_lt in Hj; lia).
  destruct (proj1 (nthN_Some_lt _ _) Hl) as [r0 Hr0].
  pose proof (partition_point_at (λ r, r.1 <=? start) l r0) as Hf. rewrite Hz in Hf. specialize (Hf Hr0).
  apply N.leb_gt in Hf. destruct (decide (j = 0)) as [->|Hj0]; [rewrite Hr0 in Hj; injection Hj as <-; lia|].
  pose proof (normal_positions l 0 j r0 r' Hn Hr0 Hj ltac:(lia)).
  pose proof (normal_wide l r0 Hn ltac:(apply nthN_elem_of; eauto)). lia.
Qed.

(** Everything from [start] to [stop] and on to the end of the range is there,
    or something in between is missing. *)
Lemma reaches_ok l start stop :
  normal l → start ≤ stop →
  match Vocab.reaches l start stop with
  | Some e => stop ≤ e ∧ (∀ x, start ≤ x ≤ e → covers l x) ∧ ¬ covers l (e + 1)
  | None => ∃ x, start ≤ x ≤ stop ∧ ¬ covers l x
  end.
Proof.
  intros Hn Hle. unfold Vocab.reaches. set (index := partition_point _ l).
  destruct (N.ltb_spec 0 index) as [Hpos|Hz].
  - assert (Hi : index - 1 < lenN l) by (pose proof (partition_point_le (λ r, r.1 <=? start) l) as Hpp; fold index in Hpp; lia).
    destruct (proj1 (nthN_Some_lt _ _) Hi) as [r Hr]. rewrite Hr.
    destruct (normal_before l start r Hn Hpos Hr) as [Hr1 Hall].
    destruct (N.leb_spec stop r.2) as [Hstop|Hstop].
    + split; [done|]. split.
      * intros x Hx. exists r. split; [apply nthN_elem_of; eauto|lia].
      * intros Hc. destruct (Hall (r.2 + 1) Hc); lia.
    + exists (N.max start (r.2 + 1)). split; [lia|]. intros Hc. destruct (Hall _ Hc); lia.
  - exists start. split; [lia|]. intros Hc. apply (normal_none_before l start start) in Hc; [lia|done|lia].
Qed.

Lemma intersects_ok l start stop :
  normal l → start ≤ stop →
  match l.[partition_point (λ r, r.2 <? start) l] with Some r => r.1 <=? stop | None => false end = true ↔
  ∃ x, start ≤ x ≤ stop ∧ covers l x.
Proof.
  intros Hn Hle. set (index := partition_point _ l).
  assert (Hlow : ∀ j r', l.[j] = Some r' → j < index → r'.2 < start).
  { intros j r' Hj Hji. apply N.ltb_lt. by apply (partition_point_before (λ r, r.2 <? start) l j). }
  split.
  - destruct (l.[index]) as [r|] eqn:Hr; [|done]. intros Hr1%N.leb_le.
    pose proof (partition_point_at (λ r, r.2 <? start) l r Hr) as Hge%N.ltb_ge.
    pose proof (normal_wide l r Hn ltac:(apply nthN_elem_of; eauto)).
    exists (N.max start r.1). split; [lia|]. exists r. split; [apply nthN_elem_of; eauto|lia].
  - intros (x & Hx & r' & Hin & Hrx). apply nthN_elem_of in Hin as [j Hj].
    assert (Hij : index ≤ j) by (destruct (N.le_gt_cases index j) as [|Hlt]; [done|specialize (Hlow j r' Hj Hlt); lia]).
    assert (Hi : index < lenN l) by (apply nthN_lt in Hj; lia).
    destruct (proj1 (nthN_Some_lt _ _) Hi) as [r Hr]. rewrite Hr. apply N.leb_le.
    destruct (decide (j = index)) as [Heq|Hne]; [assert (r' = r) as -> by (rewrite Heq in Hj; congruence); lia|].
    pose proof (normal_positions l index j r r' Hn Hr Hj ltac:(lia)).
    pose proof (normal_wide l r Hn ltac:(apply nthN_elem_of; eauto)). lia.
Qed.

Lemma find_in_range_ok pred start stop :
  match find_in_range pred start stop with
  | Some x => start ≤ x ≤ stop ∧ pred x = true ∧ ∀ y, start ≤ y < x → pred y = false
  | None => ∀ y, start ≤ y ≤ stop → pred y = false
  end.
Proof.
  unfold find_in_range. destruct (list_find _ (range start stop)) as [[i x]|] eqn:E; simpl.
  - apply list_find_Some in E as (Hi & Hp & Hbefore). pose proof (list_elem_of_lookup_2 _ _ _ Hi) as Hin%elem_of_range.
    split; [done|]. split; [done|]. intros y Hy. unfold range in Hi. rewrite list_lookup_fmap in Hi.
    apply fmap_Some in Hi as (k & Hk & ->). rewrite <-nthN_of_nat, nthN_seqN in Hk.
    destruct (N.ltb_spec (N.of_nat i) (N.of_nat (N.to_nat (stop + 1 - start)))) as [Hlt|]; [|done]. injection Hk as <-.
    apply not_true_iff_false. apply (Hbefore (N.to_nat (y - start)) y); [|lia].
    unfold range. rewrite list_lookup_fmap, <-nthN_of_nat, nthN_seqN.
    rewrite (proj2 (N.ltb_lt _ _)) by lia. simpl. f_equal. lia.
  - apply list_find_None in E. rewrite Forall_forall in E. intros y Hy. apply not_true_iff_false, E. by apply elem_of_range.
Qed.

Lemma find_map_ok {A B} (f : A → option B) l :
  match find_map f l with
  | Some y => ∃ pre x suf, l = pre ++ x :: suf ∧ f x = Some y ∧ ∀ z, z ∈ pre → f z = None
  | None => ∀ x, x ∈ l → f x = None
  end.
Proof.
  induction l as [|x l IH]; simpl; [by intros x ?%elem_of_nil|]. destruct (f x) as [y|] eqn:E.
  - exists [], x, l. split; [done|]. split; [done|]. by intros z ?%elem_of_nil.
  - destruct (find_map f l) as [y|].
    + destruct IH as (pre & x' & suf & -> & Hx' & Hpre). exists (x :: pre), x', suf. split; [done|]. split; [done|].
      intros z [->|Hz]%elem_of_cons; auto.
    + intros z [->|Hz]%elem_of_cons; auto.
Qed.

(** * Construction *)

Definition u32_entry (e : N * list N) : Prop := e.1 ≤ u32_max ∧ Forall (λ byte, byte < 256) e.2.

Section construction.
Context {RS : Type} `{RangeSetLaws RS}.
Import Vocab.

Lemma insert_ids_ok l ids :
  match foldM insert_id ids l with
  | Some ids' => NoDup l.*1 ∧ (∀ id, id ∈ l.*1 → id ∉ ids)
  | None => ¬ (NoDup l.*1 ∧ (∀ id, id ∈ l.*1 → id ∉ ids))
  end.
Proof using All.
  revert ids. induction l as [|[id bytes] l IH]; intros ids; [split; [constructor|by intros id ?%elem_of_nil]|].
  cbn [foldM]. rewrite fmap_cons. cbn [fst].
  assert (insert_id ids (id, bytes) = if decide (id ∈ ids) then None else Some ({[id]} ∪ ids)) as -> by done.
  { destruct (decide (id ∈ ids)) as [Hid|Hid]; cbn [mbind option_bind].
    + intros [_ Hn]. apply (Hn id); [by left|done].
    + specialize (IH ({[id]} ∪ ids)). destruct (foldM insert_id _ l) as [ids'|].
      * destruct IH as [Hnd Hni]. split.
        -- constructor; [|done]. intros Hin. specialize (Hni id Hin). set_solver.
        -- intros x [->|Hx]%elem_of_cons; [done|]. specialize (Hni x Hx). set_solver.
      * intros [[Hni Hnd]%NoDup_cons Hn]. apply IH. split; [done|]. intros x Hx.
        assert (x ≠ id) by (by intros ->). specialize (Hn x ltac:(by right)). set_solver. }
Qed.

Lemma covers_singles ids id : covers (single <$> ids) id ↔ id ∈ ids.
Proof using All.
  unfold covers. split.
  - intros (r & (x & -> & Hx)%list_elem_of_fmap & Hr). simpl in Hr. by assert (id = x) as -> by lia.
  - intros Hid. exists (id, id). split; [apply list_elem_of_fmap; eauto|simpl; lia].
Qed.

Lemma vocab_rebuild_ok entries cache n :
  (∀ id bytes, entries !! id = Some bytes → u32_entry (id, bytes)) →
  (∀ bytes, cache !! relevant_bytes_key = Some (RelevantBytes bytes) →
    bytes = omap present (enumerate (observed_bytes entries))) →
  n = max_byte_len entries →
  ok (rebuild_event_ranges RS (mk entries cache [] [] (Some n))).
Proof using All.
  intros Hu Hc Hn. split; simpl; [exact Hu|apply rs_ranges_normal| |apply rs_ranges_normal| |by intros n' [= <-]|done].
  - intros id. rewrite rs_ranges_covers, rs_iter_from_ranges, covers_singles. unfold iter. simpl.
    apply (elem_of_bt_keys N.le entries).
  - intros id. rewrite rs_ranges_covers, rs_iter_from_ranges, covers_singles, list_elem_of_fmap. unfold iter. simpl. split.
    + intros ([x bytes] & -> & [Hne Hin]%list_elem_of_filter). exists bytes. split; [by apply (elem_of_bt_iter N.le)|done].
    + intros (bytes & Hin & Hne). exists (id, bytes). split; [done|]. apply list_elem_of_filter.
      split; [done|]. by apply (elem_of_bt_iter N.le).
Qed.

Lemma vocab_new_ok l :
  Forall u32_entry l →
  match Vocab.new RS l with
  | Some v => NoDup l.*1 ∧ ok v ∧ ∀ id bytes, get v id = Some bytes ↔ (id, bytes) ∈ l
  | None => ¬ NoDup l.*1
  end.
Proof using All.
  intros Hl. unfold Vocab.new. pose proof (insert_ids_ok l ∅) as Hids.
  destruct (foldM insert_id ∅ l) as [ids|]; cbn [mbind option_bind].
  - destruct Hids as [Hnd _]. pose proof (λ id bytes, bt_collect_lookup l id bytes Hnd) as Hlook.
    split; [done|]. split; [|exact Hlook]. apply vocab_rebuild_ok; [|by intros bytes Hb; rewrite lookup_empty in Hb|done].
    intros id bytes Hin%Hlook. rewrite Forall_forall in Hl. by apply Hl.
  - intros Hnd. apply Hids. split; [done|]. intros id _. apply not_elem_of_empty.
Qed.
End construction.

(** C35: A vocabulary is built exactly when no ID appears twice; it then has the
    given entries and coherent range vectors. *)
Theorem vocab_new_correct {RS : Type} `{RangeSetLaws RS} (l : list (N * list N)) :
  Forall u32_entry l →
  match Vocab.new RS l with
  | Some v => NoDup l.*1 ∧ Vocab.ok v ∧ ∀ id bytes, Vocab.get v id = Some bytes ↔ (id, bytes) ∈ l
  | None => ¬ NoDup l.*1
  end.
Proof. apply vocab_new_ok. Qed.

(** ** Queries on ranges *)

Lemma normal_suffix pre l : normal (pre ++ l) → normal l.
Proof. induction pre as [|r pre IH]; [done|]. intros Hn. by apply IH, (normal_tail r). Qed.

Lemma token_contains_spec v id : Vocab.ok v → Vocab.contains_token_id v id = true ↔ covers (Vocab.event_token_ranges v) id.
Proof. intros Hv. unfold Vocab.contains_token_id. by rewrite bool_decide_eq_true, (Vocab.ok_events_covers _ Hv). Qed.

Lemma covers_u32 v id : Vocab.ok v → covers (Vocab.event_token_ranges v) id → id ≤ u32_max.
Proof. intros Hv [bytes Hb]%(Vocab.ok_events_covers _ Hv). by apply (Vocab.ok_ids _ Hv id bytes). Qed.

(** On a vocabulary the range queries answer about its IDs: whether a range
    is defined throughout, whether it meets the vocabulary, the least free ID
    at or above a start, and the first ID of a token set that is unknown. *)
Theorem vocab_ranges_correct (v : Vocab.t) (start stop : N) (s : TokenSet.t) :
  Vocab.ok v → start ≤ u32_max →
  let defined id := Vocab.contains_token_id v id = true in
  (Vocab.contains_token_range v start stop = true ↔ start ≤ stop ∧ ∀ id, start ≤ id ≤ stop → defined id) ∧
  (Vocab.intersects_token_range v start stop = true ↔ ∃ id, start ≤ id ≤ stop ∧ defined id) ∧
  match Vocab.next_available_token_id v start with
  | Some id => start ≤ id ≤ u32_max ∧ ¬ defined id ∧ ∀ y, start ≤ y < id → defined y
  | None => ∀ y, start ≤ y ≤ u32_max → defined y
  end ∧
  match Vocab.first_unknown_token_id v s with
  | Some id => TokenSet.member s id ∧ ¬ defined id ∧
      (normal (TokenSet.range_pairs s) → ∀ y, TokenSet.member s y → y < id → defined y)
  | None => ∀ id, TokenSet.member s id → defined id
  end.
Proof.
  intros Hv Hstart defined. pose proof (λ id, token_contains_spec v id Hv) as Hdef.
  pose proof (Vocab.ok_events _ Hv) as Hn. split; [|split; [|split]].
  - unfold Vocab.contains_token_range. destruct (N.ltb_spec stop start) as [Hlt|Hle].
    + split; [done|]. intros [? _]. lia.
    + rewrite bool_decide_eq_true. pose proof (reaches_ok _ start stop Hn Hle) as Hr.
      destruct (Vocab.reaches _ start stop) as [e|].
      * destruct Hr as (He & Hall & _). split; [|by eexists]. intros _. split; [done|].
        intros id Hid. apply Hdef, Hall. lia.
      * destruct Hr as (x & Hx & Hni). split; [by intros []|]. intros [_ Hall]. destruct Hni. by apply Hdef, Hall.
  - unfold Vocab.intersects_token_range. destruct (N.ltb_spec stop start) as [Hlt|Hle].
    + split; [done|]. intros (id & Hid & _). lia.
    + rewrite intersects_ok by done. unfold defined. by setoid_rewrite Hdef.
  - unfold Vocab.next_available_token_id. pose proof (reaches_ok _ start start Hn (N.le_refl _)) as Hr.
    destruct (Vocab.reaches _ start start) as [e|].
    + destruct Hr as (He & Hall & Hni). destruct (N.eqb_spec e u32_max) as [->|Hne].
      * intros y Hy. by apply Hdef, Hall.
      * assert (e ≤ u32_max) by (apply (covers_u32 v); [done|]; apply Hall; lia).
        split; [lia|]. split; [by rewrite <-Hdef in Hni|]. intros y Hy. apply Hdef, Hall. lia.
    + destruct Hr as (x & Hx & Hni). assert (x = start) as -> by lia. split; [lia|].
      split; [by rewrite <-Hdef in Hni|]. intros y Hy. lia.
  - unfold Vocab.first_unknown_token_id. set (f := λ r : N * N, _).
    assert (Hf : ∀ r, match f r with
      | Some x => r.1 ≤ x ≤ r.2 ∧ ¬ defined x ∧ ∀ y, r.1 ≤ y < x → defined y
      | None => ∀ y, r.1 ≤ y ≤ r.2 → defined y end).
    { intros r. unfold f. pose proof (find_in_range_ok (λ id, negb (Vocab.contains_token_id v id)) r.1 r.2) as Hr.
      destruct (find_in_range _ r.1 r.2) as [x|].
      - destruct Hr as (Hx & Hp%negb_true_iff & Hb). split; [done|]. split; [unfold defined; congruence|].
        intros y Hy. specialize (Hb y Hy). by apply negb_false_iff in Hb.
      - intros y Hy. specialize (Hr y Hy). by apply negb_false_iff in Hr. }
    pose proof (find_map_ok f (TokenSet.range_pairs s)) as Hm. destruct (find_map f _) as [x|].
    + destruct Hm as (pre & r & suf & Hs & Hfr & Hpre). specialize (Hf r) as Hr. rewrite Hfr in Hr.
      destruct Hr as (Hx & Hnd & Hbefore). split.
      { exists r. split; [|done]. unfold TokenSet.range_pairs in Hs. rewrite Hs. apply elem_of_app. right. by left. }
      split; [done|]. intros Hnorm y (r' & Hr' & Hy) Hyx. unfold TokenSet.range_pairs in *. rewrite Hs in Hr'.
      apply elem_of_app in Hr' as [Hr'|[->|Hr']%elem_of_cons].
      * specialize (Hf r'). rewrite (Hpre r' Hr') in Hf. by apply Hf.
      * apply Hbefore. lia.
      * exfalso. rewrite Hs in Hnorm. pose proof (normal_gap r suf y (normal_suffix pre _ Hnorm)) as Hg.
        specialize (Hg ltac:(by exists r')). lia.
    + intros id (r & Hr & Hid). specialize (Hm r Hr). specialize (Hf r). rewrite Hm in Hf. by apply Hf.
Qed.

(** * Derived data *)

(** The flags seen so far are those of the bytes gone through. *)
Definition flags_ok (seen : list bool) (known : N → Prop) : Prop :=
  length seen = 256%nat ∧ ∀ b, b < 256 → ∃ flag, seen.[b] = Some flag ∧ (flag = true ↔ known b).

Lemma flag_byte seen known byte :
  flags_ok seen known → flags_ok (alterN (λ _, true) seen byte) (λ b, known b ∨ b = byte).
Proof.
  intros [Hl Hf]. split; [by rewrite length_alterN|]. intros b Hb. destruct (Hf b Hb) as (flag & Hflag & Hk).
  rewrite nthN_alterN. destruct (N.eqb_spec b byte) as [->|Hne].
  - exists true. rewrite Hflag. split; [done|]. naive_solver.
  - exists flag. split; [done|]. rewrite Hk. naive_solver.
Qed.

Lemma flag_token seen known token :
  flags_ok seen known →
  flags_ok (foldl (λ seen byte, alterN (λ _, true) seen byte) seen token) (λ b, known b ∨ b ∈ token).
Proof.
  revert seen known. induction token as [|byte token IH]; intros seen known Hs; simpl.
  - destruct Hs as [Hl Hf]. split; [done|]. intros b Hb. destruct (Hf b Hb) as (flag & ? & Hk). exists flag.
    split; [done|]. rewrite Hk, elem_of_nil. tauto.
  - destruct (IH _ _ (flag_byte seen known byte Hs)) as [Hl Hf]. split; [done|]. intros b Hb.
    destruct (Hf b Hb) as (flag & ? & Hk). exists flag. split; [done|]. rewrite Hk, elem_of_cons. tauto.
Qed.

Lemma observed_ok entries :
  flags_ok (Vocab.observed_bytes entries) (λ b, ∃ id token, entries !! id = Some token ∧ b ∈ token).
Proof.
  unfold Vocab.observed_bytes.
  assert (Hall : flags_ok (foldl (λ seen e, foldl (λ seen byte, alterN (λ _, true) seen byte) seen e.2)
      (replicate 256 false) (bt_iter N.le entries)) (λ b, ∃ e, e ∈ bt_iter N.le entries ∧ b ∈ e.2)).
  { apply (foldl_inv_prefix (λ pre seen, flags_ok seen (λ b, ∃ e, e ∈ pre ∧ b ∈ e.2))).
    - intros pre e seen _ Hs. destruct (flag_token seen _ e.2 Hs) as [Hl Hf]. split; [done|]. intros b Hb.
      destruct (Hf b Hb) as (flag & ? & Hk). exists flag. split; [done|]. rewrite Hk. split.
      + intros [(e' & He' & Hb')|Hb']; [exists e'|exists e]; (split; [|done]); apply elem_of_app; [by left|right; by left].
      + intros (e' & [He'| ->%list_elem_of_singleton]%elem_of_app & Hb'); [left; eauto|by right].
    - split; [apply length_replicate|]. intros b Hb. exists false. rewrite nthN_replicate.
      rewrite (proj2 (N.ltb_lt _ _)) by (simpl; lia). split; [done|]. split; [done|]. by intros (e & ?%elem_of_nil & _). }
  destruct Hall as [Hl Hf]. split; [done|]. intros b Hb. destruct (Hf b Hb) as (flag & ? & Hk). exists flag. split; [done|].
  rewrite Hk. split.
  - intros ([id token] & He%(elem_of_bt_iter N.le) & Hb'). eauto.
  - intros (id & token & He%(elem_of_bt_iter N.le) & Hb'). by exists (id, token).
Qed.

Lemma present_bytes seen :
  strictly_sorted (omap Vocab.present (enumerate seen)) ∧
  ∀ b, b ∈ omap Vocab.present (enumerate seen) ↔ seen.[b] = Some true.
Proof.
  split.
  - assert (Hs : ∀ k, StronglySorted N.lt (omap Vocab.present (imap (λ i x, (N.of_nat (k + i), x)) seen)) ∧
        Forall (λ b, N.of_nat k ≤ b) (omap Vocab.present (imap (λ i x, (N.of_nat (k + i), x)) seen))).
    { induction seen as [|x seen IH]; intros k; [split; constructor|]. rewrite imap_cons.
      assert (Heq : imap ((λ i x, (N.of_nat (k + i), x)) ∘ S) seen = imap (λ i x, (N.of_nat (S k + i), x)) seen).
      { apply imap_ext. intros i y _. simpl. do 2 f_equal. lia. }
      rewrite Heq. destruct (IH (S k)) as [Hs Hf]. cbn [omap list_omap Vocab.present snd fst].
      assert (Hf' : Forall (λ b, N.of_nat k < b) (omap Vocab.present (imap (λ i x, (N.of_nat (S k + i), x)) seen))).
      { eapply Forall_impl; [exact Hf|]. simpl. intros b Hb. lia. }
      destruct x; cbn [Vocab.present snd fst].
      - rewrite Nat.add_0_r. split; [by constructor|]. constructor; [done|]. eapply Forall_impl; [exact Hf'|]. simpl. lia.
      - split; [done|]. eapply Forall_impl; [exact Hf'|]. simpl. lia. }
    apply (Hs 0%nat).
  - intros b. rewrite list_elem_of_omap. split.
    + intros ([i x] & Hin%elem_of_enumerate & Hp). unfold Vocab.present in Hp. simpl in Hp. destruct x; [|done].
      by injection Hp as ->.
    + intros Hb. exists (b, true). split; [by apply elem_of_enumerate|done].
Qed.

Lemma max_byte_len_ok entries id token : entries !! id = Some token → lenN token ≤ Vocab.max_byte_len entries.
Proof.
  intros Hin%(elem_of_bt_iter N.le). unfold Vocab.max_byte_len.
  induction (bt_iter N.le entries) as [|e l IH]; [by apply elem_of_nil in Hin|]. cbn [fmap list_fmap foldr].
  apply elem_of_cons in Hin as [<-|Hin]; simpl; [lia|]. specialize (IH Hin). lia.
Qed.

Lemma cache_set_ok v key x :
  Vocab.ok v → (x = Vocab.RelevantBytes (omap Vocab.present (enumerate (Vocab.observed_bytes (Vocab.entries v)))) ∨
    key ≠ Vocab.relevant_bytes_key) → Vocab.ok (Vocab.cache_set v key x).
Proof.
  intros [H1 H2 H3 H4 H5 H6 H7] Hx. split; simpl; try done. intros bytes.
  destruct (Vocab.compiler_cache v !! key) as [y|] eqn:E; [apply H7|]. rewrite lookup_insert.
  case_decide as Hk; [|apply H7]. subst key. intros [= ->]. destruct Hx as [[= ->]|]; done.
Qed.

(** What is derived from the bytes of a vocabulary is the same whether it
    was cached or not, and caching keeps the vocabulary coherent: the relevant
    bytes are the bytes of the tokens in order, and the maximal length bounds
    every token. *)
Theorem vocab_caches_correct (v : Vocab.t) :
  Vocab.ok v →
  let '(bytes, v1) := Vocab.relevant_bytes v in
  let '(n, v2) := Vocab.max_token_byte_len v in
  (strictly_sorted bytes ∧
   ∀ b, b ∈ bytes ↔ ∃ id token, Vocab.get v id = Some token ∧ b ∈ token) ∧
  (Vocab.ok v1 ∧ Vocab.entries v1 = Vocab.entries v ∧ (Vocab.relevant_bytes v1).1 = bytes) ∧
  (∀ id token, Vocab.get v id = Some token → lenN token ≤ n) ∧
  (Vocab.ok v2 ∧ Vocab.entries v2 = Vocab.entries v ∧ Vocab.max_token_byte_len (Vocab.clone v2) = (n, Vocab.clone v2)).
Proof.
  intros Hv. set (bytes0 := omap Vocab.present (enumerate (Vocab.observed_bytes (Vocab.entries v)))).
  assert (Hrel : ∃ v1, Vocab.relevant_bytes v = (bytes0, v1) ∧ Vocab.ok v1 ∧ Vocab.entries v1 = Vocab.entries v).
  { unfold Vocab.relevant_bytes. destruct (Vocab.compiler_cache v !! _) as [[bytes|]|] eqn:E.
    - exists v. by rewrite (Vocab.ok_cache _ Hv bytes E).
    - eexists. split; [done|]. split; [|done]. apply cache_set_ok; [done|by left].
    - eexists. split; [done|]. split; [|done]. apply cache_set_ok; [done|by left]. }
  assert (Hagain : ∀ w, Vocab.ok w → Vocab.entries w = Vocab.entries v → (Vocab.relevant_bytes w).1 = bytes0).
  { intros w Hw He. unfold Vocab.relevant_bytes. destruct (Vocab.compiler_cache w !! _) as [[bytes|]|] eqn:E; simpl.
    - rewrite (Vocab.ok_cache _ Hw bytes E), He. done.
    - by rewrite He.
    - by rewrite He. }
  destruct Hrel as (v1 & -> & Hv1 & He1).
  assert (Hmax : ∃ v2, Vocab.max_token_byte_len v = (Vocab.max_byte_len (Vocab.entries v), v2) ∧ Vocab.ok v2 ∧
    Vocab.entries v2 = Vocab.entries v ∧ Vocab.max_len v2 = Some (Vocab.max_byte_len (Vocab.entries v))).
  { unfold Vocab.max_token_byte_len. destruct (Vocab.max_len v) as [n|] eqn:E.
    - exists v. by rewrite <-(Vocab.ok_max_len _ Hv n E).
    - eexists. split; [done|]. split; [|done]. destruct Hv. split; simpl; try done. by intros n [= <-]. }
  destruct Hmax as (v2 & -> & Hv2 & He2 & Hm2).
  split; [|split; [|split]].
  - destruct (present_bytes (Vocab.observed_bytes (Vocab.entries v))) as [Hs Hin]. split; [done|]. intros b.
    unfold bytes0. rewrite (Hin b). destruct (observed_ok (Vocab.entries v)) as [Hl Hf]. split.
    + intros Hb. assert (b < 256) as Hlt by (apply nthN_lt in Hb; unfold lenN in Hb; lia).
      destruct (Hf b Hlt) as (flag & Hflag & Hk). apply Hk. congruence.
    + intros Hk. assert (b < 256) as Hlt.
      { destruct Hk as (id & token & Hid & Hb). destruct (Vocab.ok_ids _ Hv id token Hid) as [_ Hu].
        rewrite Forall_forall in Hu. by apply Hu. }
      destruct (Hf b Hlt) as (flag & Hflag & Hk'). rewrite Hflag. f_equal. by apply Hk'.
  - split; [done|]. split; [done|]. by apply Hagain.
  - intros id token Hid. by apply (max_byte_len_ok _ id).
  - split; [done|]. split; [done|]. unfold Vocab.max_token_byte_len, Vocab.clone. simpl. by rewrite Hm2.
Qed.

(** ** An example *)

Definition example_vocab : option Vocab.t :=
  Vocab.new (gset N) [(0, []); (1, []); (3, [98; 97]); (4, [97]); (4294967295, [])].

Lemma token_set_canonical_witness :
  TokenSet.range_pairs (TokenSet.from_ranges (RS := gset N)
    [(Bound.Included 0, Bound.Excluded 10); (Bound.Included 5, Bound.Excluded 13); (Bound.Excluded 19, Bound.Included 29)]) =
    [(0, 12); (20, 29)] ∧
  normal (TokenSet.range_pairs (TokenSet.from_ranges (RS := gset N)
    [(Bound.Included 0, Bound.Excluded 10); (Bound.Included 5, Bound.Excluded 13); (Bound.Excluded 19, Bound.Included 29)])).
Proof. split; [vm_compute; reflexivity|]. exact (proj1 (proj2 (token_set_canonical (RS := gset N) _ []))). Defined.

Lemma example_entries_u32 : Forall u32_entry [(0, []); (1, []); (3, [98; 97]); (4, [97]); (4294967295, [])].
Proof.
  assert (Hb : forallb (λ e, (e.1 <=? u32_max) && forallb (λ b, b <? 256) e.2)
    [(0, []); (1, []); (3, [98; 97]); (4, [97]); (4294967295, [])] = true) by (vm_compute; reflexivity).
  rewrite forallb_forall in Hb. apply Forall_forall. intros e He%list_elem_of_In. specialize (Hb e He).
  apply andb_true_iff in Hb as [H1%N.leb_le H2]. split; [done|]. rewrite forallb_forall in H2.
  apply Forall_forall. intros b Hin%list_elem_of_In. by apply N.ltb_lt, H2.
Qed.

Lemma vocab_new_correct_witness :
  match example_vocab with
  | Some v => Vocab.event_token_ranges v = [(0, 1); (3, 4); (4294967295, 4294967295)] ∧
      Vocab.byte_token_ranges v = [(3, 4)] ∧ Vocab.ok v
  | None => False
  end.
Proof.
  pose proof (vocab_new_correct (RS := gset N) _ example_entries_u32) as Hv. fold example_vocab in Hv.
  destruct example_vocab as [v|] eqn:E; [|apply Hv; apply (bool_decide_unpack _); vm_compute; exact I].
  assert (Hq : (λ v, (Vocab.event_token_ranges v, Vocab.byte_token_ranges v)) <$> example_vocab =
    Some ([(0, 1); (3, 4); (4294967295, 4294967295)], [(3, 4)])) by (vm_compute; reflexivity).
  rewrite E in Hq. apply (inj Some) in Hq. split; [exact (f_equal fst Hq)|]. split; [exact (f_equal snd Hq)|apply Hv].
Defined.

Lemma vocab_ranges_correct_witness :
  match example_vocab with
  | Some v => Vocab.contains_token_range v 0 1 = true ∧ Vocab.contains_token_range v 0 2 = false ∧
      Vocab.next_available_token_id v 0 = Some 2 ∧ Vocab.next_available_token_id v 4294967295 = None ∧
      Vocab.intersects_token_range v 2 2 = false ∧ ∀ id, 0 ≤ id ≤ 1 → Vocab.contains_token_id v id = true
  | None => False
  end.
Proof.
  pose proof (vocab_new_correct (RS := gset N) _ example_entries_u32) as Hv. fold example_vocab in Hv.
  destruct example_vocab as [v|] eqn:E; [|apply Hv; apply (bool_decide_unpack _); vm_compute; exact I].
  destruct Hv as (_ & Hv & _). pose proof (vocab_ranges_correct v 0 1 (TokenSet.mk []) Hv ltac:(vm_compute; discriminate)) as [Hc _].
  assert (Hq : (λ v, (Vocab.contains_token_range v 0 1, Vocab.contains_token_range v 0 2, Vocab.next_available_token_id v 0,
      Vocab.next_available_token_id v 4294967295, Vocab.intersects_token_range v 2 2)) <$> example_vocab =
    Some (true, false, Some 2, None, false)) by (vm_compute; reflexivity).
  rewrite E in Hq. apply (inj Some) in Hq.
  assert (H01 : Vocab.contains_token_range v 0 1 = true) by exact (f_equal (λ x, x.1.1.1.1) Hq).
  split; [exact H01|]. split; [exact (f_equal (λ x, x.1.1.1.2) Hq)|]. split; [exact (f_equal (λ x, x.1.1.2) Hq)|].
  split; [exact (f_equal (λ x, x.1.2) Hq)|]. split; [exact (f_equal (λ x, x.2) Hq)|].
  apply Hc, H01.
Defined.

Lemma vocab_caches_correct_witness :
  match example_vocab with
  | Some v => (Vocab.relevant_bytes v).1 = [97; 98] ∧ (Vocab.max_token_byte_len v).1 = 2 ∧
      let '(bytes, v1) := Vocab.relevant_bytes v in (Vocab.relevant_bytes v1).1 = bytes
  | None => False
  end.
Proof.
  pose proof (vocab_new_correct (RS := gset N) _ example_entries_u32) as Hv. fold example_vocab in Hv.
  destruct example_vocab as [v|] eqn:E; [|apply Hv; apply (bool_decide_unpack _); vm_compute; exact I].
  destruct Hv as (_ & Hv & _). pose proof (vocab_caches_correct v Hv) as Hc.
  assert (Hq : (λ v, ((Vocab.relevant_bytes v).1, (Vocab.max_token_byte_len v).1)) <$> example_vocab = Some ([97; 98], 2))
    by (vm_compute; reflexivity).
  rewrite E in Hq. apply (inj Some) in Hq. split; [exact (f_equal fst Hq)|]. split; [exact (f_equal snd Hq)|].
  destruct (Vocab.relevant_bytes v) as [bytes v1]. destruct (Vocab.max_token_byte_len v) as [n v2].
  exact (proj2 (proj2 (proj1 (proj2 Hc)))).
Defined.

(** A token without bytes is counted, and its ID can be the highest. *)
Lemma vocab_len_counts_special {RS : Type} `{RangeSet RS} :
  ∃ v, Vocab.new RS [(7, [])] = Some v ∧
    Vocab.len v = 1 ∧ Vocab.is_empty v = false ∧ Vocab.max_token_id v = 7 ∧ Vocab.iter v = [(7, [])].
Proof. eexists. split; [done|]. repeat split. Qed.
