(* ===== verification/PrefixTree.v ===== *)
(** The prefix tree of a vocabulary
    (crates/glrmask-vocab/src/vocab_prefix_tree.rs): a radix tree over the bytes
    of the tokens, with the IDs and the edge bytes below every node. *)

From S2P Require Import Prelude RangeSets.

(** * Bytes and masks *)

(** The order of [slice::cmp]. *)
Fixpoint bytes_lt (a b : list N) : Prop :=
  match a, b with
  | _, [] => False
  | [], _ :: _ => True
  | x :: a, y :: b => x < y ∨ (x = y ∧ bytes_lt a b)
  end.

Definition bytes_le (a b : list N) : Prop := a = b ∨ bytes_lt a b.

#[export] Instance bytes_lt_dec : RelDecision bytes_lt.
Proof.
  intros a. induction a as [|x a IH]; intros [|y b]; simpl; [right; tauto|left; done|right; tauto|].
  destruct (decide (x < y)) as [Hlt|Hge]; [left; by left|].
  destruct (decide (x = y)) as [Heq|Hne]; [|right; tauto].
  destruct (IH b) as [Hb|Hb]; [left; by right|right; tauto].
Defined.

#[export] Instance bytes_le_dec : RelDecision bytes_le.
Proof. intros a b. unfold bytes_le. apply _. Defined.

(** [[u64; 4]] masks over bytes. *)
Definition mask_empty : list N := [0; 0; 0; 0].

Definition mask_bit (byte : N) : N := N.shiftl 1 (N.land byte 63).

Definition mask_contains (mask : list N) (byte : N) : bool :=
  match mask.[N.shiftr byte 6] with Some word => negb (N.land word (mask_bit byte) =? 0) | None => false end.

Definition insert_bytes_into_mask (mask : list N) (bytes : list N) : list N :=
  foldl (λ mask byte, alterN (λ word, N.lor word (mask_bit byte)) mask (N.shiftr byte 6)) mask bytes.

Definition mask_union (mask other : list N) : list N := zip_with N.lor mask other.

Definition mask_intersects (mask other : list N) : bool :=
  existsb (λ w, negb (N.land w.1 w.2 =? 0)) (zip mask other).

(** [&bytes[n..]] and [&bytes[..n]] *)
Definition slice_from (bytes : list N) (n : N) : option (list N) :=
  if n <=? lenN bytes then Some (drop (N.to_nat n) bytes) else None.
Definition slice_to (bytes : list N) (n : N) : option (list N) :=
  if n <=? lenN bytes then Some (take (N.to_nat n) bytes) else None.

Fixpoint starts_with (bytes edge : list N) {struct edge} : bool :=
  match edge, bytes with
  | [], _ => true
  | x :: edge, y :: bytes => (x =? y) && starts_with bytes edge
  | _ :: _, [] => false
  end.

(** * Nodes *)

Inductive node (RS : Type) :=
  Node (token_id : N) (has_token : bool) (prefix : list N) (children : list (node RS))
       (reachable_token_ids : RS) (subtree_bytes : list N).
Arguments Node {RS}.

Definition entry : Type := N * list N.

(** What a query gives: a panic, [None], or a result. *)
Inductive outcome (A : Type) := Panics | Declines | Gives (x : A).
Arguments Panics {A}.
Arguments Declines {A}.
Arguments Gives {A}.

Definition outcome_bind {A B} (m : outcome A) (f : A → outcome B) : outcome B :=
  match m with Panics => Panics | Declines => Declines | Gives x => f x end.

(** A computation that may panic, and a value that may be missing. *)
Definition or_panic {A} (m : option A) : outcome A := match m with Some x => Gives x | None => Panics end.
Definition or_decline {A} (m : option A) : outcome A := match m with Some x => Gives x | None => Declines end.

Declare Scope tree_scope.
Notation "x <- m ;; k" := (outcome_bind m (λ x, k)) (at level 100, m at next level, right associativity) : tree_scope.
#[local] Open Scope tree_scope.

Fixpoint fold_outcome {A B} (f : B → A → outcome B) (b : B) (l : list A) : outcome B :=
  match l with
  | [] => Gives b
  | x :: l => b <- f b x ;; fold_outcome f b l
  end.

Definition usize_max : N := 18446744073709551615.
Definition checked_sub (x y : N) : option N := if y <=? x then Some (x - y) else None.
Definition checked_add (x y : N) : option N := if x + y <=? usize_max then Some (x + y) else None.

Section tree.
Context {RS : Type} `{RangeSet RS}.

Definition token_id (n : node RS) : N := match n with Node id _ _ _ _ _ => id end.
Definition has_token (n : node RS) : bool := match n with Node _ has _ _ _ _ => has end.
Definition prefix (n : node RS) : list N := match n with Node _ _ prefix _ _ _ => prefix end.
Definition children (n : node RS) : list (node RS) := match n with Node _ _ _ cs _ _ => cs end.
Definition reachable_token_ids (n : node RS) : RS := match n with Node _ _ _ _ ids _ => ids end.
Definition subtree_bytes (n : node RS) : list N := match n with Node _ _ _ _ _ mask => mask end.
Definition prefix_length (n : node RS) : N := lenN (prefix n).

Definition new_node (id : N) (prefix : list N) (has : bool) : node RS := Node id has prefix [] rs_empty mask_empty.

(** The edge labels are implicit. *)
Definition child_edge_label (n child : node RS) : option (list N) := slice_from (prefix child) (prefix_length n).
Definition child_key_byte (n child : node RS) : option N := (prefix child).[prefix_length n].

Definition iter_children (n : node RS) : option (list (list N * node RS)) :=
  mapM (λ child, edge ← child_edge_label n child; Some (edge, child)) (children n).

(** [binary_search_by_key] over children in ascending order of their keys. *)
Fixpoint find_child_in (n : node RS) (next_byte : N) (cs : list (node RS)) : outcome (node RS) :=
  match cs with
  | [] => Declines
  | child :: cs =>
      key <- or_panic (child_key_byte n child) ;;
      if key =? next_byte then Gives child else find_child_in n next_byte cs
  end.

Definition find_child (n : node RS) (next_byte : N) : outcome (node RS) := find_child_in n next_byte (children n).

Definition next_matching_child (current : node RS) (remaining : list N) : outcome (node RS * list N) :=
  byte <- or_decline (head remaining) ;;
  child <- find_child current byte ;;
  edge <- or_panic (child_edge_label current child) ;;
  if starts_with remaining edge then Gives (child, drop (length edge) remaining) else Declines.

(** * Building *)

Definition merge_child_metadata (reachable : RS) (mask : list N) (parent_prefix_len : N) (child : node RS)
    : option (RS * list N) :=
  edge ← slice_from (prefix child) parent_prefix_len;
  Some (rs_union reachable (reachable_token_ids child),
        mask_union (insert_bytes_into_mask mask edge) (subtree_bytes child)).

Definition merge_children (reachable : RS) (parent_prefix_len : N) (cs : list (node RS)) : option (RS * list N) :=
  foldM (λ st child, merge_child_metadata st.1 st.2 parent_prefix_len child) (reachable, mask_empty) cs.

(** The position of the first difference, from [i] on. *)
Fixpoint lcp_loop (fuel : nat) (a b : list N) (max_len i : N) : N :=
  match fuel with
  | O => i
  | S fuel =>
      if (i <? max_len) && bool_decide (a.[i] = b.[i]) then lcp_loop fuel a b max_len (i + 1) else i
  end.

Definition lcp_len (a b : list N) (from : N) : N := lcp_loop (length a) a b (N.min (lenN a) (lenN b)) from.

(** The entries that go on with [byte], and the rest. *)
Fixpoint take_group (byte parent_prefix_len : N) (entries : list entry) : option (list entry * list entry) :=
  match entries with
  | [] => Some ([], [])
  | e :: rest =>
      b ← (e.2).[parent_prefix_len];
      if b =? byte then '(group, rest) ← take_group byte parent_prefix_len rest; Some (e :: group, rest)
      else Some ([], e :: rest)
  end.

Fixpoint groups (fuel : nat) (parent_prefix_len : N) (entries : list entry) : option (list (list entry)) :=
  match fuel, entries with
  | _, [] => Some []
  | O, _ => None
  | S fuel, e :: rest =>
      byte ← (e.2).[parent_prefix_len];
      '(group, rest) ← take_group byte parent_prefix_len rest;
      gs ← groups fuel parent_prefix_len rest;
      Some ((e :: group) :: gs)
  end.

(** [fuel] bounds the depth: every level has a longer prefix. *)
Fixpoint build_subtree (fuel : nat) (entries : list entry) (parent_prefix_len : N) : option (node RS) :=
  match fuel with
  | O => None
  | S fuel =>
      first ← head entries;
      last ← last entries;
      let prefix_len := lcp_len first.2 last.2 parent_prefix_len in
      let has := lenN first.2 =? prefix_len in
      let id := if has then first.1 else 0 in
      prefix ← slice_to first.2 prefix_len;
      let child_entries := if has then tail entries else entries in
      gs ← groups (length child_entries) prefix_len child_entries;
      cs ← mapM (λ group, build_subtree fuel group prefix_len) gs;
      '(reachable, mask) ← merge_children (if has then rs_insert rs_empty id else rs_empty) prefix_len cs;
      Some (Node id has prefix cs reachable mask)
  end.

Definition build_children (fuel : nat) (entries : list entry) (parent_prefix_len : N) : option (list (node RS)) :=
  gs ← groups (length entries) parent_prefix_len entries;
  mapM (λ group, build_subtree fuel group parent_prefix_len) gs.

Record tree := Tree { root : node RS; max_token_id : N; has_empty_string_token : bool }.

Definition new : tree := Tree (new_node 0 [] false) 0 false.

(** The longest token bounds the depth. *)
Definition depth_of (tokens : list entry) : nat := S (N.to_nat (foldr N.max 0 ((λ e : entry, lenN e.2) <$> tokens))).

Definition build_presorted (tokens : list entry) : option tree :=
  let max_id := foldr N.max 0 tokens.*1 in
  match tokens with
  | [] => Some (Tree (root new) max_id false)
  | t :: rest =>
      let empty := bool_decide (t.2 = []) in
      let id := if empty then t.1 else 0 in
      let reachable := if empty then rs_insert rs_empty id else rs_empty in
      let entries := if empty then rest else tokens in
      match entries with
      | [] => Some (Tree (Node id empty [] [] reachable mask_empty) max_id empty)
      | _ =>
          cs ← build_children (depth_of tokens) entries 0;
          '(reachable, mask) ← merge_children reachable 0 cs;
          Some (Tree (Node id empty [] cs reachable mask) max_id empty)
      end
  end.

(** [sort_unstable_by] on the bytes: some ordered permutation. *)
Context (sort_by_bytes : list entry → list entry).

(** Equal neighbours are merged in place: the later ID stays. *)
Definition dedup_step (st : list entry * N) (read_index : N) : option (list entry * N) :=
  let '(tokens, write_index) := st in
  cur ← tokens.[read_index];
  let previous := if 0 <? write_index then tokens.[write_index - 1] else None in
  if match previous with Some p => bool_decide (p.2 = cur.2) | None => false end
  then Some (alterN (λ t, (cur.1, t.2)) tokens (write_index - 1), write_index)
  else if write_index =? read_index then Some (tokens, write_index + 1)
  else
    other ← tokens.[write_index];
    Some (alterN (λ _, other) (alterN (λ _, cur) tokens write_index) read_index, write_index + 1).

Definition sort_and_dedup_tokens (tokens : list entry) : option (list entry) :=
  let tokens := sort_by_bytes tokens in
  '(tokens, write_index) ← foldM dedup_step (tokens, 0) (seqN (length tokens));
  Some (take (N.to_nat write_index) tokens).

Definition build_owned (tokens : list entry) : option tree :=
  tokens ← sort_and_dedup_tokens tokens; build_presorted tokens.

(** [build] clones the tokens first. *)
Definition build (tokens : list entry) : option tree := build_owned tokens.

(** * Looking tokens up *)

(** [fuel] bounds the rounds: every round consumes a byte. *)
Fixpoint find_token_loop (fuel : nat) (current : node RS) (remaining : list N) : outcome N :=
  match fuel with
  | O => Panics
  | S fuel =>
      next <- next_matching_child current remaining ;;
      let '(child, remaining) := next in
      match remaining with
      | [] => if has_token child then Gives (token_id child) else Declines
      | _ => find_token_loop fuel child remaining
      end
  end.

Definition find_token (t : tree) (bytes : list N) : outcome N :=
  match bytes with
  | [] => if has_empty_string_token t then Gives (token_id (root t)) else Declines
  | _ => find_token_loop (length bytes) (root t) bytes
  end.

Fixpoint longest_loop (fuel : nat) (current : node RS) (remaining : list N) (best : option (N * list N))
    : outcome (option (N * list N)) :=
  match remaining with
  | [] => Gives best
  | _ =>
      match fuel with
      | O => Panics
      | S fuel =>
          match next_matching_child current remaining with
          | Panics => Panics
          | Declines => Gives best
          | Gives (child, remaining) =>
              longest_loop fuel child remaining
                (if has_token child then Some (token_id child, prefix child) else best)
          end
      end
  end.

Definition find_longest_prefix_token (t : tree) (bytes : list N) : outcome (option (N * list N)) :=
  longest_loop (length bytes) (root t) bytes
    (if has_empty_string_token t then Some (token_id (root t), prefix (root t)) else None).

(** * Tokens with a byte in a proper prefix *)

Record query := Query {
  pending : list (node RS);
  subtrees : list (node RS * bool);
  token_count : N;
  work_limit : N;
}.

(** [edge.iter().position(pred)] *)
Fixpoint position (pred : N → bool) (edge : list N) : option N :=
  match edge with
  | [] => None
  | x :: edge => if pred x then Some 0 else N.succ <$> position pred edge
  end.

(** One child of a node whose own bytes do not match. *)
Definition visit_child (bytes : list N) (q : query) (e : list N * node RS) : outcome query :=
  let '(edge, child) := e in
  limit <- or_decline (checked_sub (work_limit q) 1) ;;
  match position (mask_contains bytes) edge with
  | Some offset =>
      let exclude_endpoint := (offset + 1 =? lenN edge) && has_token child in
      let available := rs_len (reachable_token_ids child) in
      count <- or_decline (if available <=? usize_max then checked_sub available (if exclude_endpoint then 1 else 0) else None) ;;
      limit <- or_decline (checked_sub limit count) ;;
      total <- or_decline (checked_add (token_count q) count) ;;
      Gives (Query (pending q) (if count =? 0 then subtrees q else subtrees q ++ [(child, exclude_endpoint)]) total limit)
  | None =>
      Gives (Query (if mask_intersects (subtree_bytes child) bytes then child :: pending q else pending q)
               (subtrees q) (token_count q) limit)
  end.

(** The stack of pending nodes has its top first. *)
Definition query_step (bytes : list N) (q : query) : query + outcome query :=
  match pending q with
  | [] => inr (Gives q)
  | n :: rest =>
      match
        (limit <- or_decline (checked_sub (work_limit q) 1) ;;
         let q := Query rest (subtrees q) (token_count q) limit in
         if mask_intersects (subtree_bytes n) bytes
         then cs <- or_panic (iter_children n) ;; fold_outcome (visit_child bytes) q cs
         else Gives q)
      with
      | Gives q => inl q
      | Declines => inr Declines
      | Panics => inr Panics
      end
  end.

Definition emitted (s : node RS * bool) : list N :=
  filter (λ id, s.2 = false ∨ id ≠ token_id s.1) (rs_iter (reachable_token_ids s.1)).

Definition token_ids_with_proper_prefix_byte (t : tree) (bytes : list N) (work_limit : N) : outcome (list N) :=
  if forallb (λ word, word =? 0) bytes then Gives []
  else
    match run (query_step bytes) (S (N.size_nat work_limit)) (Query [root t] [] 0 work_limit) with
    | inl _ => Panics
    | inr r => q <- r ;; Gives (concat (emitted <$> subtrees q))
    end.

Definition root_children (t : tree) : option (list (list N * node RS)) := iter_children (root t).
End tree.
Arguments tree : clear implicits.
Arguments query : clear implicits.
