(* ===== verification/PrefixTreeFind.v ===== *)
(** What a prefix tree holds: the tokens below a node, in order, the invariant
    that ties its edges, masks and ID sets to them, and the lookups. *)

From S2P Require Import Prelude RangeSets PrefixTree.

(** * The order of byte strings *)

Lemma bytes_lt_irrefl a : ¬ bytes_lt a a.
Proof. induction a as [|x a IH]; simpl; [tauto|]. intros [?|[_ ?]]; [lia|tauto]. Qed.

Lemma bytes_lt_trans a b c : bytes_lt a b → bytes_lt b c → bytes_lt a c.
Proof.
  revert b c. induction a as [|x a IH]; intros [|y b] [|z c]; simpl; try done.
  intros [Hxy|[-> Hab]] [Hyz|[-> Hbc]]; [left; lia|by left|by left|]. right. split; [done|]. by eapply IH.
Qed.

#[export] Instance bytes_le_trans : Transitive bytes_le.
Proof. intros a b c [->|Hab] [->|Hbc]; [by left|by right|by right|right; by eapply bytes_lt_trans]. Qed.

#[export] Instance bytes_le_total : Total bytes_le.
Proof.
  assert (H : ∀ a b, bytes_lt a b ∨ a = b ∨ bytes_lt b a).
  { induction a as [|x a IH]; intros [|y b]; simpl; [by right; left|by left|by right; right|].
    destruct (N.lt_trichotomy x y) as [?|[->|?]]; [by left; left| |by right; right; left].
    destruct (IH b) as [?|[->|?]]; [left; by right|right; by left|right; right; by right]. }
  intros a b. unfold bytes_le. destruct (H a b) as [?|[?|?]]; [left; by right|left; by left|right; by right].
Qed.

(** Between strings with a common prefix all strings have it. *)
Lemma bytes_between p a b x :
  p `prefix_of` a → p `prefix_of` b → bytes_le a x → bytes_le x b → p `prefix_of` x.
Proof.
  revert a b x. induction p as [|c p IH]; intros a b x Ha Hb Hax Hxb; [apply prefix_nil|].
  destruct Ha as [a' ->], Hb as [b' ->]. destruct x as [|y x].
  - destruct Hax as [?|?]; done.
  - assert (y = c) as ->.
    { destruct Hax as [[= ?]|[?|[? _]]], Hxb as [[= ?]|[?|[? _]]]; simpl in *; lia. }
    apply prefix_cons. apply (IH (p ++ a') (p ++ b')); [by eexists|by eexists| |].
    + destruct Hax as [[= ->]|[?|[_ ?]]]; [by left|lia|by right].
    + destruct Hxb as [[= ->]|[?|[_ ?]]]; [by left|lia|by right].
Qed.

(** * Masks *)

Definition mask_ok (mask : list N) : Prop := length mask = 4%nat.

Lemma mask_bit_testbit b i : N.testbit (mask_bit b) i = (i =? N.land b 63).
Proof.
  unfold mask_bit. destruct (N.eqb_spec i (N.land b 63)) as [->|Hne].
  - by rewrite N.shiftl_spec_high', N.sub_diag by lia.
  - destruct (N.lt_ge_cases i (N.land b 63)); [by rewrite N.shiftl_spec_low|].
    rewrite N.shiftl_spec_high' by done.
    destruct (i - N.land b 63) as [|p] eqn:E; [lia|]. by destruct p.
Qed.

Lemma land_mask_bit w b : negb (N.land w (mask_bit b) =? 0) = N.testbit w (N.land b 63).
Proof.
  destruct (N.testbit w (N.land b 63)) eqn:E.
  - apply negb_true_iff, N.eqb_neq. intros Hz. apply (f_equal (λ z, N.testbit z (N.land b 63))) in Hz.
    rewrite N.land_spec, E, mask_bit_testbit, N.eqb_refl, N.bits_0 in Hz. done.
  - apply negb_false_iff, N.eqb_eq, N.bits_inj. intros i. rewrite N.land_spec, mask_bit_testbit, N.bits_0.
    destruct (N.eqb_spec i (N.land b 63)) as [->|]; [by rewrite E|apply andb_false_r].
Qed.

Lemma mask_contains_testbit mask b :
  mask_contains mask b = match mask.[N.shiftr b 6] with Some w => N.testbit w (N.land b 63) | None => false end.
Proof. unfold mask_contains. destruct (mask.[_]); [apply land_mask_bit|done]. Qed.

Lemma byte_split b b' : N.shiftr b 6 = N.shiftr b' 6 → N.land b 63 = N.land b' 63 → b = b'.
Proof.
  intros Hs Hl. rewrite (N.div_mod b 64), (N.div_mod b' 64) by done.
  change 63 with (N.ones 6) in Hl. rewrite !N.land_ones in Hl. rewrite !N.shiftr_div_pow2 in Hs.
  change (2 ^ 6) with 64 in *. by rewrite Hs, Hl.
Qed.

Lemma byte_word b : b < 256 → N.shiftr b 6 < 4.
Proof. intros Hb. rewrite N.shiftr_div_pow2. change (2 ^ 6) with 64. apply N.Div0.div_lt_upper_bound. lia. Qed.

Lemma insert_bytes_ok mask bytes b :
  mask_ok mask → Forall (λ x, x < 256) bytes →
  mask_ok (insert_bytes_into_mask mask bytes) ∧
  (mask_contains (insert_bytes_into_mask mask bytes) b = true ↔ mask_contains mask b = true ∨ b ∈ bytes).
Proof.
  unfold insert_bytes_into_mask. revert mask. induction bytes as [|x bytes IH]; intros mask Hm Hb; simpl.
  - split; [done|]. rewrite elem_of_nil. tauto.
  - apply Forall_cons in Hb as [Hx Hb].
    assert (Hm' : mask_ok (alterN (λ word, N.lor word (mask_bit x)) mask (N.shiftr x 6))).
    { unfold mask_ok. by rewrite length_alterN. }
    destruct (IH _ Hm' Hb) as [Hok Hin]. split; [done|]. rewrite Hin, elem_of_cons.
    enough (mask_contains (alterN (λ word, N.lor word (mask_bit x)) mask (N.shiftr x 6)) b = true ↔
      mask_contains mask b = true ∨ b = x) by tauto.
    rewrite !mask_contains_testbit, nthN_alterN.
    assert (Hw : is_Some (mask.[N.shiftr x 6])).
    { apply nthN_Some_lt. unfold mask_ok in Hm. unfold lenN. rewrite Hm. by apply byte_word. }
    destruct Hw as [w Hw]. destruct (N.eqb_spec (N.shiftr b 6) (N.shiftr x 6)) as [Heq|Hne].
    + rewrite Heq, Hw. simpl. rewrite N.lor_spec, mask_bit_testbit, orb_true_iff, N.eqb_eq.
      split; (intros [?|?]; [by left|right]); [by apply byte_split|congruence].
    + split; [by left|]. intros [?| ->]; done.
Qed.

Lemma mask_union_ok mask other b :
  mask_ok mask → mask_ok other →
  mask_ok (mask_union mask other) ∧
  (mask_contains (mask_union mask other) b = true ↔ mask_contains mask b = true ∨ mask_contains other b = true).
Proof.
  unfold mask_ok. intros Hm Ho. split; [unfold mask_union; rewrite length_zip_with; lia|].
  rewrite !mask_contains_testbit. unfold mask_union. rewrite !nthN_lookup, lookup_zip_with.
  set (i := N.to_nat (N.shiftr b 6)).
  destruct (mask !! i) as [x|] eqn:Ex, (other !! i) as [y|] eqn:Ey; simpl.
  - by rewrite N.lor_spec, orb_true_iff.
  - apply lookup_lt_Some in Ex. apply lookup_ge_None in Ey. lia.
  - apply lookup_lt_Some in Ey. apply lookup_ge_None in Ex. lia.
  - tauto.
Qed.

Lemma mask_empty_contains b : mask_contains mask_empty b = false.
Proof.
  rewrite mask_contains_testbit. unfold mask_empty. simpl.
  repeat (destruct (_ =? 0); [apply N.bits_0|]). done.
Qed.

(** Masks of bytes meet when they share a byte below 256. *)
Lemma mask_intersects_ok mask other :
  mask_ok mask → mask_ok other → Forall (λ w, w < 2 ^ 64) mask →
  mask_intersects mask other = true ↔ ∃ b, b < 256 ∧ mask_contains mask b = true ∧ mask_contains other b = true.
Proof.
  unfold mask_ok. intros Hm Ho Hw. unfold mask_intersects. rewrite existsb_exists. split.
  - intros ([x y] & Hin & Hne). simpl in Hne. apply list_elem_of_In, list_elem_of_lookup in Hin as [i Hi].
    assert (mask !! i = Some x ∧ other !! i = Some y) as [Hx Hy].
    { rewrite lookup_zip_with in Hi. by destruct (mask !! i), (other !! i); simplify_eq/=. }
    apply negb_true_iff, N.eqb_neq in Hne.
    assert (∃ k, N.testbit (N.land x y) k = true) as [k Hk].
    { exists (N.log2 (N.land x y)). by apply N.bit_log2. }
    rewrite N.land_spec in Hk. apply andb_true_iff in Hk as [Hkx Hky].
    assert (Hk64 : k < 64).
    { rewrite Forall_forall in Hw. specialize (Hw x (list_elem_of_lookup_2 _ _ _ Hx)).
      apply N.nle_gt. intros Hge. rewrite N.bits_above_log2 in Hkx; [done|].
      destruct (decide (x = 0)) as [->|]; [simpl; lia|]. apply N.log2_lt_pow2; [lia|]. eapply N.lt_le_trans; [exact Hw|].
      by apply N.pow_le_mono_r. }
    assert (Hi4 : (i < 4)%nat) by (apply lookup_lt_Some in Hx; lia).
    exists (N.of_nat i * 64 + k). split; [lia|].
    assert (Hs : N.shiftr (N.of_nat i * 64 + k) 6 = N.of_nat i).
    { rewrite N.shiftr_div_pow2. change (2 ^ 6) with 64. rewrite N.div_add_l by done. rewrite N.div_small by done. lia. }
    assert (Hl : N.land (N.of_nat i * 64 + k) 63 = k).
    { change 63 with (N.ones 6). rewrite N.land_ones. change (2 ^ 6) with 64.
      rewrite N.add_comm, N.Div0.mod_add. by apply N.mod_small. }
    rewrite !mask_contains_testbit, Hs, Hl, !nthN_of_nat, Hx, Hy. done.
  - intros (b & Hb & Hmb & Hob). rewrite mask_contains_testbit in Hmb, Hob. rewrite nthN_lookup in Hmb, Hob.
    set (i := N.to_nat (N.shiftr b 6)) in *.
    destruct (mask !! i) as [x|] eqn:Ex; [|done]. destruct (other !! i) as [y|] eqn:Ey; [|done].
    exists (x, y). split.
    + apply list_elem_of_In, list_elem_of_lookup. exists i. rewrite lookup_zip_with, Ex, Ey. done.
    + simpl. apply negb_true_iff, N.eqb_neq. intros Hz. apply (f_equal (λ z, N.testbit z (N.land b 63))) in Hz.
      by rewrite N.land_spec, Hmb, Hob, N.bits_0 in Hz.
Qed.

Lemma starts_with_ok bytes edge : starts_with bytes edge = true ↔ edge `prefix_of` bytes.
Proof.
  revert bytes. induction edge as [|x edge IH]; intros bytes; simpl; [split; [intros _; apply prefix_nil|done]|].
  destruct bytes as [|y bytes]; [split; [done|by intros [k ?]]|].
  rewrite andb_true_iff, N.eqb_eq, IH. split.
  - intros [-> Hp]. by apply prefix_cons.
  - intros Hp. split; [by eapply prefix_cons_inv_1|by eapply prefix_cons_inv_2].
Qed.

(** * The tokens of a tree *)

Section tree.
Context {RS : Type} `{RangeSetLaws RS}.

(** Induction with the hypothesis for every child. *)
Lemma node_ind_children (P : node RS → Prop) :
  (∀ id has pre cs ids mask, Forall P cs → P (Node id has pre cs ids mask)) → ∀ n, P n.
Proof using.
  intros HP. fix IH 1. intros [id has pre cs ids mask]. apply HP.
  induction cs as [|c cs IHcs]; constructor; [apply IH|exact IHcs].
Qed.

(** The tokens below a node, its own first. *)
Fixpoint tokens_of (n : node RS) : list entry :=
  match n with
  | Node id has pre cs _ _ => (if has then [(id, pre)] else []) ++ concat (map tokens_of cs)
  end.

Definition below (n : node RS) : list entry := concat (map tokens_of (children n)).

Lemma tokens_of_below n : tokens_of n = (if has_token n then [(token_id n, prefix n)] else []) ++ below n.
Proof using. by destruct n. Qed.

Lemma elem_of_below n e : e ∈ below n ↔ ∃ c, c ∈ children n ∧ e ∈ tokens_of c.
Proof using.
  unfold below. rewrite list_elem_of_In, in_concat. setoid_rewrite <-list_elem_of_In. split.
  - intros (es & Hes & He). apply list_elem_of_In, in_map_iff in Hes as (c & <- & Hc). exists c. by rewrite list_elem_of_In.
  - intros (c & Hc & He). exists (tokens_of c). split; [|done]. apply list_elem_of_In, in_map_iff. exists c. by rewrite <-list_elem_of_In.
Qed.

(** The edge to a child, and the byte it starts with. *)
Definition edge_of (n c : node RS) : list N := drop (length (prefix n)) (prefix c).

Record child_ok (n c : node RS) (key : N) : Prop := {
  co_prefix : ∃ edge, prefix c = prefix n ++ key :: edge;
}.

(** The invariant of one node. *)
Record node_wf (n : node RS) : Prop := {
  nw_keys : ∃ keys, Forall2 (child_ok n) (children n) keys ∧ strictly_sorted keys;
  nw_bytes : Forall (λ b, b < 256) (prefix n);
  nw_ids : ∀ id, id ∈ rs_iter (reachable_token_ids n) ↔ id ∈ (tokens_of n).*1;
  nw_mask : mask_ok (subtree_bytes n);
  nw_words : Forall (λ w, w < 2 ^ 64) (subtree_bytes n);
  nw_subtree : ∀ b, mask_contains (subtree_bytes n) b = true ↔
    ∃ c, c ∈ children n ∧ (b ∈ edge_of n c ∨ mask_contains (subtree_bytes c) b = true);
}.

Inductive wf : node RS → Prop :=
| wf_node n : node_wf n → Forall wf (children n) → wf n.

Lemma wf_inv n : wf n → node_wf n ∧ ∀ c, c ∈ children n → wf c.
Proof using. destruct 1 as [n Hn Hcs]. split; [done|]. by rewrite Forall_forall in Hcs. Qed.

(** ** Children *)

Lemma child_key n c : wf n → c ∈ children n → ∃ key edge, prefix c = prefix n ++ key :: edge.
Proof using.
  intros [Hn _]%wf_inv Hc. destruct (nw_keys _ Hn) as (keys & Hf & _). apply list_elem_of_lookup in Hc as [i Hi].
  destruct (Forall2_lookup_l _ _ _ _ _ Hf Hi) as (key & _ & [Hp]). destruct Hp as [edge Hp]. eauto.
Qed.

Lemma edge_of_key n c key edge : prefix c = prefix n ++ key :: edge → edge_of n c = key :: edge.
Proof using. intros Hp. unfold edge_of. by rewrite Hp, drop_app_length. Qed.

Lemma child_prefix n c : wf n → c ∈ children n → prefix c = prefix n ++ edge_of n c ∧ edge_of n c ≠ [].
Proof using.
  intros Hn Hc. destruct (child_key n c Hn Hc) as (key & edge & Hp). by rewrite (edge_of_key n c key edge Hp), Hp.
Qed.

(** Children with the same first byte are the same. *)
Lemma child_unique n c c' key edge edge' :
  wf n → c ∈ children n → c' ∈ children n →
  prefix c = prefix n ++ key :: edge → prefix c' = prefix n ++ key :: edge' → c = c'.
Proof using.
  intros [Hn _]%wf_inv Hc Hc' Hp Hp'. destruct (nw_keys _ Hn) as (keys & Hf & Hs).
  apply list_elem_of_lookup in Hc as [i Hi]. apply list_elem_of_lookup in Hc' as [j Hj].
  destruct (Forall2_lookup_l _ _ _ _ _ Hf Hi) as (k & Hk & [[x Hx]]).
  destruct (Forall2_lookup_l _ _ _ _ _ Hf Hj) as (k' & Hk' & [[x' Hx']]).
  rewrite Hp in Hx. rewrite Hp' in Hx'. apply app_inv_head in Hx as [= -> ->]. apply app_inv_head in Hx' as [= -> ->].
  rewrite (NoDup_lookup _ _ _ _ (strictly_sorted_NoDup _ Hs) Hk Hk') in Hi. congruence.
Qed.

(** Everything below a node goes on from its prefix. *)
Lemma tokens_prefix n : wf n → ∀ id bytes, (id, bytes) ∈ tokens_of n → prefix n `prefix_of` bytes.
Proof using.
  induction n as [tid has pre cs ids mask IH] using node_ind_children. intros Hwf id bytes.
  rewrite tokens_of_below, elem_of_app, elem_of_below. simpl. rewrite Forall_forall in IH. intros [Hin|(c & Hc & Hin)].
  - destruct has; [|by apply elem_of_nil in Hin]. apply list_elem_of_singleton in Hin as [= -> ->]. done.
  - destruct (child_prefix _ c Hwf Hc) as [Hp _]. simpl in Hp.
    specialize (IH c Hc (proj2 (wf_inv _ Hwf) c Hc) id bytes Hin). rewrite Hp in IH.
    eapply prefix_app_l, IH.
Qed.

Lemma below_prefix n c id bytes :
  wf n → c ∈ children n → (id, bytes) ∈ tokens_of c → ∃ rest, bytes = prefix n ++ edge_of n c ++ rest.
Proof using.
  intros Hn Hc Hin. destruct (child_prefix n c Hn Hc) as [Hp _].
  destruct (tokens_prefix c (proj2 (wf_inv _ Hn) c Hc) id bytes Hin) as [rest ->]. exists rest. by rewrite Hp, <-app_assoc.
Qed.

(** A token of the node itself or of a longer string. *)
Lemma tokens_own n id : wf n → (id, prefix n) ∈ tokens_of n ↔ has_token n = true ∧ id = token_id n.
Proof using.
  intros Hn. rewrite tokens_of_below, elem_of_app, elem_of_below. split.
  - intros [Hin|(c & Hc & Hin)].
    + destruct (has_token n); [|by apply elem_of_nil in Hin]. by apply list_elem_of_singleton in Hin as [= ->].
    + destruct (below_prefix n c id _ Hn Hc Hin) as [rest Hr]. destruct (child_prefix n c Hn Hc) as [_ Hne].
      rewrite <-(app_nil_r (prefix n)) in Hr at 1. apply app_inv_head in Hr. by destruct (edge_of n c).
  - intros [-> ->]. left. by left.
Qed.

Lemma slice_edge n c : wf n → c ∈ children n → child_edge_label n c = Some (edge_of n c).
Proof using.
  intros Hn Hc. destruct (child_prefix n c Hn Hc) as [Hp _]. unfold child_edge_label, slice_from, edge_of, prefix_length.
  rewrite (proj2 (N.leb_le _ _)).
  - f_equal. unfold lenN. by rewrite Nat2N.id.
  - rewrite Hp. unfold lenN. rewrite length_app. lia.
Qed.
End tree.

(** The token a lookup of the longest prefix should give. *)
Definition longest_prefix (es : list entry) (bytes : list N) (r : option entry) : Prop :=
  match r with
  | None => ∀ e, e ∈ es → ¬ e.2 `prefix_of` bytes
  | Some e => e ∈ es ∧ e.2 `prefix_of` bytes ∧ ∀ e', e' ∈ es → e'.2 `prefix_of` bytes → (length e'.2 ≤ length e.2)%nat
  end.

Section find.
Context {RS : Type} `{RangeSetLaws RS}.
Implicit Types n c : node RS.

(** * One step down *)

Lemma find_child_in_ok n cs byte :
  wf n → (∀ c, c ∈ cs → c ∈ children n) →
  match find_child_in n byte cs with
  | Panics => False
  | Declines => ∀ c edge, c ∈ cs → prefix c ≠ prefix n ++ byte :: edge
  | Gives c => c ∈ cs ∧ ∃ edge, prefix c = prefix n ++ byte :: edge
  end.
Proof using.
  intros Hn. induction cs as [|c cs IH]; intros Hin; cbn [find_child_in]; [intros c edge Hc; by apply elem_of_nil in Hc|].
  destruct (child_key n c Hn (Hin c ltac:(left))) as (key & edge & Hp).
  assert (Hk : child_key_byte n c = Some key).
  { unfold child_key_byte, prefix_length. rewrite Hp. unfold lenN. rewrite nthN_of_nat.
    by rewrite lookup_app_r, Nat.sub_diag by lia. }
  rewrite Hk. cbn [or_panic outcome_bind]. destruct (N.eqb_spec key byte) as [->|Hne]; [split; [left|eauto]|].
  specialize (IH (λ c' Hc', Hin c' (list_elem_of_further _ _ _ Hc'))). destruct (find_child_in n byte cs) as [| |c'].
  - done.
  - intros c' edge' [->|Hc']%elem_of_cons; [|by apply IH]. rewrite Hp. intros [= ?]%app_inv_head. done.
  - destruct IH as [Hc' He]. split; [by right|done].
Qed.

Lemma next_matching_child_ok n remaining :
  wf n →
  match next_matching_child n remaining with
  | Panics => False
  | Declines => ∀ c, c ∈ children n → ¬ edge_of n c `prefix_of` remaining
  | Gives (c, rest) => c ∈ children n ∧ remaining = edge_of n c ++ rest
  end.
Proof using.
  intros Hn. unfold next_matching_child. destruct remaining as [|byte remaining]; cbn [head or_decline outcome_bind].
  - intros c Hc Hp. destruct (child_prefix n c Hn Hc) as [_ Hne]. by apply prefix_nil_inv in Hp.
  - unfold find_child. pose proof (find_child_in_ok n (children n) byte Hn (λ c Hc, Hc)) as Hf.
    destruct (find_child_in n byte (children n)) as [| |c]; cbn [outcome_bind]; [done| |].
    + intros c Hc Hp. destruct (child_key n c Hn Hc) as (key & edge & Hpc).
      rewrite (edge_of_key n c key edge Hpc) in Hp. apply prefix_cons_inv_1 in Hp as ->. by apply (Hf c edge Hc).
    + destruct Hf as [Hc [edge Hpc]]. rewrite (slice_edge n c Hn Hc). cbn [or_panic outcome_bind].
      destruct (starts_with (byte :: remaining) (edge_of n c)) eqn:Es.
      * apply starts_with_ok in Es. split; [done|]. destruct Es as [rest Hr]. by rewrite Hr, drop_app_length.
      * intros c' Hc' Hp. destruct (child_key n c' Hn Hc') as (key & edge' & Hpc').
        pose proof Hp as Hp'. rewrite (edge_of_key n c' key edge' Hpc') in Hp'. apply prefix_cons_inv_1 in Hp' as ->.
        rewrite <-(child_unique n c c' byte edge edge' Hn Hc Hc' Hpc Hpc') in Hp.
        apply starts_with_ok in Hp. congruence.
Qed.

(** The tokens below that a string can reach are those below one child. *)
Lemma below_child n c rest e :
  wf n → c ∈ children n → e ∈ below n → e.2 `prefix_of` prefix n ++ edge_of n c ++ rest → e ∈ tokens_of c.
Proof using.
  intros Hn Hc (c' & Hc' & He)%elem_of_below Hp. destruct e as [id bytes]. simpl in Hp.
  destruct (below_prefix n c' id bytes Hn Hc' He) as [rest' ->]. apply prefix_app_inv in Hp.
  destruct (child_key n c Hn Hc) as (key & edge & Hpc). destruct (child_key n c' Hn Hc') as (key' & edge' & Hpc').
  rewrite (edge_of_key n c key edge Hpc), (edge_of_key n c' key' edge' Hpc') in Hp. simpl in Hp.
  apply prefix_cons_inv_1 in Hp as ->. by rewrite (child_unique n c c' key edge edge' Hn Hc Hc' Hpc Hpc').
Qed.

Lemma tokens_below n c e : c ∈ children n → e ∈ tokens_of c → e ∈ below n.
Proof using. intros Hc He. apply elem_of_below. eauto. Qed.

(** * Looking a token up *)

Lemma find_token_loop_ok fuel n remaining :
  wf n → remaining ≠ [] → (length remaining ≤ fuel)%nat →
  find_token_loop fuel n remaining ≠ Panics ∧
  ∀ id, find_token_loop fuel n remaining = Gives id ↔ (id, prefix n ++ remaining) ∈ tokens_of n.
Proof using.
  revert n remaining. induction fuel as [|fuel IH]; intros n remaining Hn Hne Hlen; [destruct remaining; [done|simpl in Hlen; lia]|].
  assert (Hown : ∀ id, (id, prefix n ++ remaining) ∈ tokens_of n ↔ (id, prefix n ++ remaining) ∈ below n).
  { intros id. rewrite tokens_of_below, elem_of_app. split; [|by right]. intros [Hin|?]; [|done].
    destruct (has_token n); [|by apply elem_of_nil in Hin]. apply list_elem_of_singleton in Hin as [= _ Hr].
    rewrite <-(app_nil_r (prefix n)) in Hr at 2. by apply app_inv_head in Hr. }
  cbn [find_token_loop]. pose proof (next_matching_child_ok n remaining Hn) as Hnext.
  destruct (next_matching_child n remaining) as [| |[c rest]]; cbn [outcome_bind]; [done| |].
  - split; [done|]. intros id. rewrite Hown, elem_of_below. split; [done|]. intros (c & Hc & Hin).
    destruct (below_prefix n c id _ Hn Hc Hin) as [rest Hr]. apply app_inv_head in Hr as ->.
    destruct (Hnext c Hc). by exists rest.
  - destruct Hnext as [Hc ->]. destruct (child_prefix n c Hn Hc) as [Hp Hedge].
    pose proof (proj2 (wf_inv _ Hn) c Hc) as Hwc.
    assert (Heq : ∀ id, (id, prefix n ++ edge_of n c ++ rest) ∈ tokens_of n ↔ (id, prefix c ++ rest) ∈ tokens_of c).
    { intros id. rewrite Hown, Hp, <-app_assoc. split; [intros Hin; by apply (below_child n c rest)|by apply tokens_below]. }
    setoid_rewrite Heq. rewrite length_app in Hlen.
    assert (length (edge_of n c) ≠ 0%nat) by (by destruct (edge_of n c)).
    destruct rest as [|x rest]; [|apply IH; [done|done|lia]].
    rewrite app_nil_r. setoid_rewrite (tokens_own c); [|done].
    destruct (has_token c); split; try done; intros id; split; [by intros [= ->]|by intros [_ ->]|done|by intros [? _]].
Qed.

(** * The longest prefix *)

Lemma longest_loop_ok fuel n remaining best :
  wf n → (length remaining ≤ fuel)%nat →
  ∃ r, longest_loop fuel n remaining best = Gives r ∧
    ((r = best ∧ longest_prefix (below n) (prefix n ++ remaining) None) ∨
     (is_Some r ∧ longest_prefix (below n) (prefix n ++ remaining) r)).
Proof using.
  revert n remaining best. induction fuel as [|fuel IH]; intros n remaining best Hn Hlen;
    destruct remaining as [|byte remaining]; cbn [longest_loop]; [|simpl in Hlen; lia| |].
  1,2: exists best; split; [done|]; left; split; [done|]; intros [id bytes] (c & Hc & Hin)%elem_of_below Hpre;
    destruct (below_prefix n c id bytes Hn Hc Hin) as [rest ->]; simpl in Hpre;
    apply prefix_app_inv in Hpre; apply prefix_nil_inv in Hpre;
    destruct (child_prefix n c Hn Hc) as [_ Hne]; by destruct (edge_of n c).
  pose proof (next_matching_child_ok n (byte :: remaining) Hn) as Hnext.
  destruct (next_matching_child n (byte :: remaining)) as [| |[c rest]]; [done| |].
  - exists best. split; [done|]. left. split; [done|]. intros [id bytes] (c & Hc & Hin)%elem_of_below Hpre.
    destruct (below_prefix n c id bytes Hn Hc Hin) as [rest ->]. apply prefix_app_inv in Hpre.
    apply (Hnext c Hc). by eapply prefix_app_l.
  - destruct Hnext as [Hc Heq]. rewrite Heq in Hlen. rewrite Heq. destruct (child_prefix n c Hn Hc) as [Hp Hedge].
    pose proof (proj2 (wf_inv _ Hn) c Hc) as Hwc. rewrite length_app in Hlen.
    assert (length (edge_of n c) ≠ 0%nat) by (by destruct (edge_of n c)).
    destruct (IH c rest (if has_token c then Some (token_id c, prefix c) else best) Hwc ltac:(lia)) as (r & Hr & Hcase).
    exists r. split; [done|].
    assert (Hcut : prefix c ++ rest = prefix n ++ edge_of n c ++ rest) by (by rewrite Hp, <-app_assoc).
    rewrite Hcut in Hcase.
    set (bytes := prefix n ++ edge_of n c ++ rest) in *.
    assert (Hdown : ∀ e, e ∈ below n → e.2 `prefix_of` bytes →
      (has_token c = true ∧ e = (token_id c, prefix c)) ∨ e ∈ below c).
    { intros e He Hpre. pose proof (below_child n c rest e Hn Hc He Hpre) as Hin.
      rewrite tokens_of_below, elem_of_app in Hin. destruct Hin as [Hin|?]; [left|by right].
      destruct (has_token c); [|by apply elem_of_nil in Hin]. by apply list_elem_of_singleton in Hin. }
    assert (Hup : ∀ e, e ∈ below c → e ∈ below n).
    { intros e He. apply (tokens_below n c); [done|]. rewrite tokens_of_below. apply elem_of_app. by right. }
    destruct Hcase as [[-> Hnone]|[Hsome Hlong]].
    + destruct (has_token c) eqn:Ec.
      * right. split; [done|]. simpl. split; [|split].
        -- apply (tokens_below n c); [done|]. rewrite tokens_of_below, Ec. by left.
        -- exists rest. symmetry. exact Hcut.
        -- intros e He Hpre. destruct (Hdown e He Hpre) as [[_ ->]|Hb]; [done|]. by destruct (Hnone e Hb).
      * left. split; [done|]. intros e He Hpre. destruct (Hdown e He Hpre) as [[? _]|Hb]; [done|]. by apply (Hnone e Hb).
    + right. split; [done|]. destruct r as [e|]; [|by destruct Hsome]. destruct Hlong as (He & Hpre & Hmax).
      split; [by apply Hup|]. split; [done|]. intros e' He' Hpre'.
      destruct (Hdown e' He' Hpre') as [[_ ->]|Hb]; [|by apply Hmax]. simpl.
      apply elem_of_below in He as (c' & Hc' & He). destruct e as [id b].
      destruct (below_prefix c c' id b Hwc Hc' He) as [rest' ->]. simpl. rewrite length_app. lia.
Qed.

(** * Whole trees *)

(** The tree holds the entries. *)
Record holds (t : tree RS) (es : list entry) : Prop := {
  ho_wf : wf (root t);
  ho_root : prefix (root t) = [];
  ho_tokens : tokens_of (root t) = es;
  ho_empty : has_empty_string_token t = has_token (root t);
}.

Lemma find_token_ok t es bytes :
  holds t es →
  find_token t bytes ≠ Panics ∧ ∀ id, find_token t bytes = Gives id ↔ (id, bytes) ∈ es.
Proof using.
  intros [Hwf Hroot Htok Hempty]. unfold find_token. destruct bytes as [|b bytes].
  - rewrite Hempty, <-Htok, <-Hroot. setoid_rewrite (tokens_own _ _ Hwf).
    destruct (has_token (root t)); split; try done; intros id; split; [by intros [= ->]|by intros [_ ->]|done|by intros [? _]].
  - pose proof (find_token_loop_ok (length (b :: bytes)) (root t) (b :: bytes) Hwf ltac:(done) ltac:(done)) as Hf.
    rewrite Hroot in Hf. by rewrite Htok in Hf.
Qed.

Lemma find_longest_ok t es bytes :
  holds t es → ∃ r, find_longest_prefix_token t bytes = Gives r ∧ longest_prefix es bytes r.
Proof using.
  intros [Hwf Hroot Htok Hempty]. unfold find_longest_prefix_token. rewrite Hempty.
  destruct (longest_loop_ok (length bytes) (root t) bytes
    (if has_token (root t) then Some (token_id (root t), prefix (root t)) else None) Hwf ltac:(done)) as (r & Hr & Hcase).
  exists r. split; [done|]. rewrite tokens_of_below in Htok. rewrite Hroot in Hcase, Htok. simpl in Hcase. subst es.
  destruct Hcase as [[-> Hnone]|[Hsome Hlong]].
  - destruct (has_token (root t)).
    + simpl. split; [by left|]. split; [apply prefix_nil|]. intros e [->|He]%elem_of_cons Hp; [done|].
      by destruct (Hnone e He).
    + done.
  - destruct r as [e|]; [|by destruct Hsome]. destruct Hlong as (He & Hpre & Hmax). split; [|split; [done|]].
    + apply elem_of_app. by right.
    + intros e' [Hin|Hin]%elem_of_app Hp; [|by apply Hmax].
      destruct (has_token (root t)); [|by apply elem_of_nil in Hin]. apply list_elem_of_singleton in Hin as ->. simpl. lia.
Qed.
End find.
