(* ===== verification/PrefixTreeQuery.v ===== *)
(** The tokens with a byte of a mask in a proper prefix: the query over the
    metadata of the tree against a scan of the tokens. *)

From S2P Require Import Prelude RangeSets PrefixTree PrefixTreeFind.

(** * The scan *)

(** Every byte but the last is looked up (the [reference] of the tests). *)
Definition proper_match (mask bytes : list N) : bool :=
  existsb (mask_contains mask) (take (pred (length bytes)) bytes).

Definition reference (es : list entry) (mask : list N) : list N :=
  (filter (λ e : entry, proper_match mask e.2 = true) es).*1.

Definition clean (mask bytes : list N) : Prop := Forall (λ b, mask_contains mask b = false) bytes.

Lemma proper_match_spec mask bytes :
  proper_match mask bytes = true ↔ ∃ a x b, bytes = a ++ x :: b ∧ b ≠ [] ∧ mask_contains mask x = true.
Proof.
  unfold proper_match. rewrite existsb_exists. split.
  - intros (x & Hin & Hx). apply list_elem_of_In, list_elem_of_split in Hin as (a & b & Heq).
    pose proof (take_drop (pred (length bytes)) bytes) as Hb. rewrite Heq in Hb.
    exists a, x, (b ++ drop (pred (length bytes)) bytes). split; [by rewrite <-Hb at 1; rewrite <-app_assoc|]. split; [|done].
    intros Hnil. apply (f_equal length) in Hnil. rewrite length_app, length_drop in Hnil.
    assert (length bytes ≠ 0%nat) by (destruct bytes; [by destruct a|done]). simpl in Hnil. lia.
  - intros (a & x & b & -> & Hb & Hx). exists x. split; [|done]. apply list_elem_of_In.
    rewrite take_app, length_app. simpl. destruct b as [|y b]; [done|]. apply elem_of_app. right. simpl.
    replace (pred (length a + S (S (length b))) - length a)%nat with (S (length b)) by lia. simpl. left.
Qed.

Lemma clean_not mask a x b : clean mask (a ++ x :: b) → mask_contains mask x = true → False.
Proof. unfold clean. rewrite Forall_app, Forall_cons. intros (_ & Hx & _). congruence. Qed.

Lemma proper_match_clean mask bytes : clean mask bytes → proper_match mask bytes = false.
Proof.
  intros Hc. destruct (proper_match mask bytes) eqn:E; [|done]. apply proper_match_spec in E as (a & x & b & -> & _ & Hx).
  by destruct (clean_not _ _ _ _ Hc Hx).
Qed.

(** A match at the last byte alone is no match. *)
Lemma proper_match_last mask a x :
  clean mask a → proper_match mask (a ++ [x]) = false.
Proof.
  intros Hc. unfold proper_match. rewrite length_app, Nat.add_comm. cbn [pred length plus]. rewrite take_app_length.
  destruct (existsb _ _) eqn:E; [|done]. apply existsb_exists in E as (y & Hy & Hm). apply list_elem_of_In in Hy.
  unfold clean in Hc. rewrite Forall_forall in Hc. rewrite (Hc y Hy) in Hm. done.
Qed.

Lemma position_ok (pred : N → bool) edge :
  match position pred edge with
  | Some i => ∃ a x b, edge = a ++ x :: b ∧ i = lenN a ∧ pred x = true ∧ Forall (λ y, pred y = false) a
  | None => Forall (λ y, pred y = false) edge
  end.
Proof.
  induction edge as [|y edge IH]; cbn [position]; [constructor|]. destruct (pred y) eqn:Ey.
  - exists [], y, edge. done.
  - destruct (position pred edge) as [i|]; cbn [fmap option_fmap option_map].
    + destruct IH as (a & x & b & -> & -> & Hx & Ha). exists (y :: a), x, b. split; [done|].
      split; [unfold lenN; simpl; lia|]. split; [done|]. by constructor.
    + by constructor.
Qed.

Lemma filter_true {A} (P : A → Prop) `{!∀ x, Decision (P x)} (l : list A) : (∀ x, x ∈ l → P x) → filter P l = l.
Proof.
  induction l as [|x l IH]; intros Hl; [done|]. rewrite filter_cons_True by (apply Hl; left).
  f_equal. apply IH. intros y Hy. apply Hl. by right.
Qed.

Lemma filter_false {A} (P : A → Prop) `{!∀ x, Decision (P x)} (l : list A) : (∀ x, x ∈ l → ¬ P x) → filter P l = [].
Proof.
  induction l as [|x l IH]; intros Hl; [done|]. rewrite filter_cons_False by (apply Hl; left).
  apply IH. intros y Hy. apply Hl. by right.
Qed.

Lemma filter_concat {A} (P : A → Prop) `{!∀ x, Decision (P x)} (ls : list (list A)) :
  filter P (concat ls) = concat (map (filter P) ls).
Proof. induction ls as [|l ls IH]; [done|]. simpl. by rewrite filter_app, IH. Qed.

Lemma of_nat_le (x y : nat) : (x <= y)%nat → N.of_nat x ≤ N.of_nat y.
Proof. lia. Qed.

Section query.
Context {RS : Type} `{RangeSetLaws RS}.
Context (mask : list N) (Hmask : mask_ok mask).
Implicit Types n c : node RS.

Abbreviation hit := (λ e : entry, proper_match mask e.2 = true).

(** * What lies below a node *)

Lemma subtree_covers n e b :
  wf n → e ∈ below n → b ∈ drop (length (prefix n)) e.2 → mask_contains (subtree_bytes n) b = true.
Proof using.
  revert e b. induction n as [tid has pre cs ids msk IH] using node_ind_children. intros [id bytes] b Hn He Hb.
  rewrite Forall_forall in IH. apply elem_of_below in He as (c & Hc & He).
  pose proof (wf_inv _ Hn) as [Hw Hcs]. apply (nw_subtree _ Hw). exists c. split; [done|].
  destruct (below_prefix _ c id bytes Hn Hc He) as [rest ->].
  destruct (child_prefix _ c Hn Hc) as [Hp _]. simpl in Hb. rewrite drop_app_length in Hb.
  apply elem_of_app in Hb as [Hb|Hb]; [by left|right].
  rewrite tokens_of_below, elem_of_app in He. destruct He as [He|He].
  - destruct (has_token c); [|by apply elem_of_nil in He]. apply list_elem_of_singleton in He as [= _ Heq].
    rewrite Hp in Heq. simpl in Heq. rewrite <-(app_nil_r (edge_of _ c)) in Heq at 2. rewrite app_assoc in Heq at 1.
    rewrite app_assoc in Heq. apply app_inv_head in Heq as ->. by apply elem_of_nil in Hb.
  - apply (IH c Hc _ b (Hcs c Hc) He). simpl. simpl in Hp. rewrite Hp, app_assoc, drop_app_length. done.
Qed.

(** A node whose prefix has no byte of the mask, and its matching tokens. *)
Definition hits (n : node RS) : list N := (filter hit (tokens_of n)).*1.

Lemma hits_clean n : clean mask (prefix n) → filter hit (tokens_of n) = filter hit (below n).
Proof using.
  intros Hc. rewrite tokens_of_below, filter_app. destruct (has_token n); [|done].
  rewrite filter_cons_False; [done|]. simpl. rewrite proper_match_clean by done. done.
Qed.

Lemma hits_children n : clean mask (prefix n) → hits n = concat (hits <$> children n).
Proof using.
  intros Hc. unfold hits. rewrite hits_clean by done. unfold below. rewrite filter_concat.
  induction (children n) as [|c cs IH]; [done|]. simpl. by rewrite fmap_app, IH.
Qed.

Lemma hits_disjoint n :
  wf n → clean mask (prefix n) → mask_intersects (subtree_bytes n) mask = false → hits n = [].
Proof using Hmask H0.
  intros Hn Hc Hi. unfold hits. rewrite hits_clean by done. rewrite filter_false; [done|].
  intros [id bytes] He Hhit. apply proper_match_spec in Hhit as (a & x & b & Heq & _ & Hx). simpl in Heq.
  apply not_true_iff_false in Hi. apply Hi. pose proof (wf_inv _ Hn) as [Hw _].
  apply mask_intersects_ok; [apply Hw|done|apply Hw|]. exists x.
  assert (Hin : x ∈ drop (length (prefix n)) bytes).
  { apply elem_of_below in He as He'. destruct He' as (c & Hcc & He').
    destruct (below_prefix n c id bytes Hn Hcc He') as [rest Hr]. rewrite Hr. rewrite drop_app_length.
    assert (x ∈ prefix n ++ edge_of n c ++ rest) as [Hp|?]%elem_of_app; [|exfalso|done].
    - rewrite <-Hr, Heq. apply elem_of_app. right. left.
    - unfold clean in Hc. rewrite Forall_forall in Hc. rewrite (Hc x Hp) in Hx. done. }
  split; [|split; [by apply (subtree_covers n (id, bytes))|done]].
  destruct (N.lt_ge_cases x 256) as [|Hge]; [done|exfalso]. rewrite mask_contains_testbit in Hx.
  rewrite (proj2 (nthN_None mask (N.shiftr x 6))) in Hx; [done|]. unfold lenN. rewrite Hmask.
  rewrite N.shiftr_div_pow2. change (2 ^ 6) with 64. apply (N.Div0.div_le_mono 256 x 64); done.
Qed.

(** ** A child whose edge has a byte of the mask *)

(** What a child gives, with or without its own token. *)
Definition part (c : node RS) (exclude_endpoint : bool) : list entry :=
  if exclude_endpoint then below c else tokens_of c.

Lemma hits_matching n c offset :
  wf n → c ∈ children n → clean mask (prefix n) → position (mask_contains mask) (edge_of n c) = Some offset →
  filter hit (tokens_of c) = part c ((offset + 1 =? lenN (edge_of n c)) && has_token c).
Proof using.
  unfold part.
  intros Hn Hc Hclean Hpos. pose proof (position_ok (mask_contains mask) (edge_of n c)) as Hp. rewrite Hpos in Hp.
  destruct Hp as (a & x & b & Hedge & -> & Hx & Ha). destruct (child_prefix n c Hn Hc) as [Hpre _].
  pose proof (proj2 (wf_inv _ Hn) c Hc) as Hwc.
  assert (Hbelow : ∀ e, e ∈ below c → hit e).
  { intros [id bytes] (c' & Hc' & He)%elem_of_below. destruct (below_prefix c c' id bytes Hwc Hc' He) as [rest ->].
    destruct (child_prefix c c' Hwc Hc') as [_ Hne]. simpl. apply proper_match_spec.
    exists (prefix n ++ a), x, (b ++ edge_of c c' ++ rest). rewrite Hpre, Hedge.
    split; [by simplify_list_eq|]. split; [|done]. by destruct b, (edge_of c c'). }
  rewrite tokens_of_below, filter_app. rewrite (filter_true hit (below c)) by exact Hbelow.
  destruct (has_token c); [|by rewrite andb_false_r]. rewrite andb_true_r.
  destruct (N.eqb_spec (lenN a + 1) (lenN (edge_of n c))) as [Hlen|Hlen].
  - rewrite filter_cons_False; [done|]. simpl. rewrite Hpre, Hedge. destruct b as [|y b].
    + rewrite app_assoc, proper_match_last; [done|]. by apply Forall_app.
    + rewrite Hedge in Hlen. unfold lenN in Hlen. rewrite length_app in Hlen. simpl in Hlen. lia.
  - rewrite filter_cons_True; [done|]. simpl. apply proper_match_spec. exists (prefix n ++ a), x, b.
    rewrite Hpre, Hedge. split; [by simplify_list_eq|]. split; [|done]. intros ->. apply Hlen. rewrite Hedge.
    unfold lenN. rewrite length_app. simpl. lia.
Qed.

Lemma emitted_ok c excl :
  wf c → NoDup (tokens_of c).*1 → (excl = true → has_token c = true) →
  emitted (c, excl) ≡ₚ (part c excl).*1.
Proof using Hmask H0.
  intros Hwc Hnd Hexcl. pose proof (wf_inv _ Hwc) as [Hw _].
  pose proof (strictly_sorted_NoDup _ (rs_iter_sorted (reachable_token_ids c))) as Hnd'.
  rewrite tokens_of_below in Hnd. unfold emitted, part. cbn [fst snd]. apply NoDup_Permutation.
  - by apply NoDup_filter.
  - destruct excl; [|by rewrite tokens_of_below]. rewrite fmap_app in Hnd. by apply NoDup_app in Hnd as (_ & _ & Hnd).
  - intros id. rewrite list_elem_of_filter, (nw_ids _ Hw), tokens_of_below. destruct excl.
    + rewrite (Hexcl eq_refl) in Hnd |- *. simpl in Hnd |- *. apply NoDup_cons in Hnd as [Hni _].
      rewrite elem_of_cons. split.
      * intros [[?|Hne] [->|?]]; done.
      * intros Hin. split; [|by right]. right. by intros ->.
    + split; [by intros [_ ?]|intros ?; split; [by left|done]].
Qed.

(** * One step *)

Fixpoint size (n : node RS) : N :=
  match n with Node _ _ _ cs _ _ => 1 + foldr (λ c m, size c + m) 0 cs end.

(** The work for a child that is visited, and for a node that is popped. *)
Definition visit_cost (c : node RS) : N := 2 * size c + lenN (tokens_of c).
Definition pop_cost (n : node RS) : N := 1 + foldr (λ c m, visit_cost c + m) 0 (children n).
Definition total (f : node RS → N) (l : list (node RS)) : N := foldr (λ n m, f n + m) 0 l.

Lemma visit_pop c : 1 + pop_cost c ≤ visit_cost c.
Proof using.
  destruct c as [id has pre cs ids msk]. unfold visit_cost, pop_cost. rewrite tokens_of_below.
  rewrite lenN_app. cbn [size children]. unfold below. cbn [children].
  enough (foldr (λ c m, visit_cost c + m) 0 cs = 2 * foldr (λ c m, size c + m) 0 cs + lenN (concat (map tokens_of cs))) by (unfold visit_cost in *; lia).
  induction cs as [|c cs IH]; [done|]. cbn [foldr map concat]. rewrite lenN_app, IH. unfold visit_cost. lia.
Qed.

Definition good (n : node RS) : Prop := wf n ∧ clean mask (prefix n) ∧ NoDup (tokens_of n).*1.

Definition gathered (q : query RS) : list N := concat (emitted <$> subtrees q).

Record inv (R : list N) (todo : list (node RS)) (q : query RS) : Prop := {
  iv_good : Forall good (pending q);
  iv_ids : gathered q ++ concat (hits <$> todo) ++ concat (hits <$> pending q) ≡ₚ R;
  iv_count : token_count q = lenN (gathered q);
}.

Definition funded (todo : list (node RS)) (q : query RS) : Prop :=
  total visit_cost todo + total pop_cost (pending q) ≤ work_limit q.

Lemma visit_child_ok R n c todo q :
  good n → c ∈ children n → inv R (c :: todo) q →
  match visit_child mask q (edge_of n c, c) with
  | Panics => False
  | Declines => lenN R < usize_max → ¬ funded (c :: todo) q
  | Gives q' => inv R todo q' ∧ work_limit q' < work_limit q ∧ (funded (c :: todo) q → funded todo q')
  end.
Proof using Hmask H0.
  intros (Hn & Hclean & Hnd) Hc [Hgood Hids Hcount]. pose proof (proj2 (wf_inv _ Hn) c Hc) as Hwc.
  assert (Hndc : NoDup (tokens_of c).*1).
  { rewrite tokens_of_below, fmap_app in Hnd. apply NoDup_app in Hnd as (_ & _ & Hnd). unfold below in Hnd.
    apply list_elem_of_split in Hc as (l1 & l2 & Hl). rewrite Hl, map_app, concat_app, fmap_app in Hnd.
    apply NoDup_app in Hnd as (_ & _ & Hnd). simpl in Hnd. rewrite fmap_app in Hnd. by apply NoDup_app in Hnd as (Hnd & _). }
  unfold visit_child, funded. cbn [total foldr]. fold (total visit_cost todo). pose proof (visit_pop c) as Hcost.
  unfold checked_sub at 1. destruct (N.leb_spec 1 (work_limit q)) as [Hl|Hl]; cbn [or_decline outcome_bind]; [|intros _; unfold pop_cost in Hcost; lia].
  cbn [fmap list_fmap concat] in Hids.
  destruct (position (mask_contains mask) (edge_of n c)) as [offset|] eqn:Epos.
  - pose proof (hits_matching n c offset Hn Hc Hclean Epos) as Hhits.
    set (excl := (offset + 1 =? lenN (edge_of n c)) && has_token c) in *. fold excl. 
    assert (Hexcl : excl = true → has_token c = true) by (unfold excl; by intros [_ ?]%andb_true_iff).
    pose proof (emitted_ok c excl Hwc Hndc Hexcl) as Hem. rewrite <-Hhits in Hem. fold (hits c) in Hem.
    assert (Hlen : rs_len (reachable_token_ids c) = lenN (emitted (c, excl)) + (if excl then 1 else 0)).
    { rewrite rs_len_iter. pose proof (emitted_ok c false Hwc Hndc ltac:(done)) as Hall. unfold lenN.
      rewrite (Permutation_length Hem). unfold hits. rewrite length_fmap, Hhits.
      unfold part in Hall |- *.
      assert (Hf : emitted (c, false) = rs_iter (reachable_token_ids c)).
      { unfold emitted. apply filter_true. intros id _. by left. }
      rewrite Hf in Hall. rewrite (Permutation_length Hall), length_fmap, tokens_of_below, length_app.
      destruct excl; [rewrite (Hexcl eq_refl); simpl; lia|]. rewrite ?length_app. lia. }
    assert (Hle : token_count q + lenN (emitted (c, excl)) ≤ lenN R).
    { rewrite Hcount. unfold lenN. rewrite <-(Permutation_length Hids), !length_app, (Permutation_length Hem). lia. }
    assert (Hcap : lenN (emitted (c, excl)) ≤ lenN (tokens_of c)).
    { unfold lenN. rewrite (Permutation_length Hem). unfold hits. rewrite length_fmap. apply of_nat_le, length_filter. }
    assert (Hvisit : 1 + lenN (emitted (c, excl)) ≤ visit_cost c).
    { unfold visit_cost. destruct c as [? ? ? ? ? ?]. cbn [size]. lia. }
    unfold checked_sub, checked_add. rewrite Hlen.
    destruct (N.leb_spec (lenN (emitted (c, excl)) + (if excl then 1 else 0)) usize_max) as [Hu|Hu];
      cbn [or_decline outcome_bind]; [|intros HR; exfalso; destruct excl; lia].
    rewrite (proj2 (N.leb_le (if excl then 1 else 0) _)) by lia. cbn [or_decline outcome_bind].
    replace (lenN (emitted (c, excl)) + (if excl then 1 else 0) - (if excl then 1 else 0)) with (lenN (emitted (c, excl))) by lia.
    destruct (N.leb_spec (lenN (emitted (c, excl))) (work_limit q - 1)) as [Hw|Hw]; cbn [or_decline outcome_bind];
      [|intros _ Hf; lia].
    destruct (N.leb_spec (token_count q + lenN (emitted (c, excl))) usize_max) as [Ht|Ht]; cbn [or_decline outcome_bind];
      [|intros HR; lia].
    assert (Hgather : gathered (Query (pending q) (if lenN (emitted (c, excl)) =? 0 then subtrees q else subtrees q ++ [(c, excl)])
      (token_count q + lenN (emitted (c, excl))) (work_limit q - 1 - lenN (emitted (c, excl)))) = gathered q ++ emitted (c, excl)).
    { unfold gathered. cbn [subtrees]. destruct (N.eqb_spec (lenN (emitted (c, excl))) 0) as [Hz|Hz].
      - destruct (emitted (c, excl)); [by rewrite app_nil_r|unfold lenN in Hz; simpl in Hz; lia].
      - rewrite fmap_app, concat_app. simpl. by rewrite app_nil_r. }
    cbn [work_limit pending]. split; [|split; [lia|]].
    + split; [done| |].
      * rewrite Hgather. cbn [pending]. rewrite <-Hids, Hem. by rewrite <-!app_assoc.
      * rewrite Hgather. cbn [token_count]. by rewrite lenN_app, Hcount.
    + intros Hf. lia.
  - pose proof (position_ok (mask_contains mask) (edge_of n c)) as Hp. rewrite Epos in Hp.
    assert (Hcc : clean mask (prefix c)).
    { destruct (child_prefix n c Hn Hc) as [-> _]. by apply Forall_app. }
    cbn [work_limit pending]. destruct (mask_intersects (subtree_bytes c) mask) eqn:Ei.
    + split; [|split; [lia|cbn [total foldr]; unfold total; lia]]. split; [by constructor| |done].
      cbn [pending fmap list_fmap concat]. rewrite <-Hids. unfold gathered. cbn [subtrees]. solve_Permutation.
    + rewrite (hits_disjoint c Hwc Hcc Ei) in Hids. split; [|split; [lia|lia]]. by split.
Qed.

Lemma fold_visit_ok R n cs todo q :
  good n → (∀ c, c ∈ cs → c ∈ children n) → inv R (cs ++ todo) q →
  match fold_outcome (visit_child mask) q ((λ c, (edge_of n c, c)) <$> cs) with
  | Panics => False
  | Declines => lenN R < usize_max → ¬ funded (cs ++ todo) q
  | Gives q' => inv R todo q' ∧ work_limit q' ≤ work_limit q ∧ (funded (cs ++ todo) q → funded todo q')
  end.
Proof using Hmask H0.
  intros Hn. revert q. induction cs as [|c cs IH]; intros q Hin Hq; cbn [fmap list_fmap fold_outcome].
  { split; [done|]. split; [lia|done]. }
  pose proof (visit_child_ok R n c (cs ++ todo) q Hn (Hin c ltac:(left)) Hq) as Hc.
  destruct (visit_child mask q (edge_of n c, c)) as [| |q']; cbn [outcome_bind]; [done|exact Hc|].
  destruct Hc as (Hq' & Hlt & Hf). specialize (IH q' (λ c' Hc', Hin c' (list_elem_of_further _ _ _ Hc')) Hq').
  destruct (fold_outcome _ q' _) as [| |q'']; [done| |].
  - intros HR Hfund. by apply (IH HR), Hf.
  - destruct IH as (Hq'' & Hle & Hf'). split; [done|]. split; [lia|]. intros Hfund. by apply Hf', Hf.
Qed.

Lemma iter_children_ok n : wf n → iter_children n = Some ((λ c, (edge_of n c, c)) <$> children n).
Proof using.
  intros Hn. unfold iter_children. assert (Hin : ∀ c, c ∈ children n → c ∈ children n) by done.
  revert Hin. generalize (children n) at 1 3 4. intros cs. induction cs as [|c cs IH]; intros Hin; [done|].
  cbn [mapM list_fmap fmap]. rewrite (slice_edge n c Hn (Hin c ltac:(left))). cbn [mbind option_bind].
  rewrite IH; [done|]. intros c' Hc'. apply Hin. by right.
Qed.

Lemma query_step_ok R q :
  inv R [] q →
  match query_step mask q with
  | inl q' => inv R [] q' ∧ work_limit q' < work_limit q ∧ (funded [] q → funded [] q')
  | inr Panics => False
  | inr Declines => lenN R < usize_max → ¬ funded [] q
  | inr (Gives q') => gathered q' ≡ₚ R
  end.
Proof using Hmask H0.
  intros [Hgood Hids Hcount]. unfold query_step. destruct q as [pend subs count limit]. cbn [pending] in *.
  destruct pend as [|n rest]; [by rewrite app_nil_r in Hids|].
  apply Forall_cons in Hgood as [Hn Hrest]. destruct Hn as (Hwf & Hclean & Hnd).
  cbn [work_limit subtrees token_count fmap list_fmap concat] in *. unfold funded. cbn [pending work_limit total foldr].
  fold (total pop_cost rest). rewrite N.add_0_l.
  unfold checked_sub. destruct (N.leb_spec 1 limit) as [Hl|Hl]; cbn [or_decline outcome_bind]; [|intros _; unfold pop_cost; lia].
  destruct (mask_intersects (subtree_bytes n) mask) eqn:Ei.
  - rewrite (iter_children_ok n Hwf). cbn [or_panic outcome_bind].
    assert (Hstart : inv R (children n ++ []) (Query rest subs count (limit - 1))).
    { split; [done| |done]. rewrite app_nil_r. cbn [pending]. rewrite (hits_children n Hclean) in Hids. exact Hids. }
    pose proof (fold_visit_ok R n (children n) [] _ (conj Hwf (conj Hclean Hnd)) (λ c Hc, Hc) Hstart) as Hfold.
    rewrite app_nil_r in Hfold. unfold funded in Hfold. cbn [pending work_limit total foldr] in Hfold.
    fold (total pop_cost rest) (total visit_cost (children n)) in Hfold.
    assert (Hcost : pop_cost n = 1 + total visit_cost (children n)) by done.
    destruct (fold_outcome _ _ _) as [| |q']; [done| |].
    + intros HR Hf. apply (Hfold HR). lia.
    + destruct Hfold as (Hq' & Hle & Hf). rewrite N.add_0_l in Hf. split; [done|]. split; [cbn [work_limit]; lia|].
      intros Hfund. apply Hf. lia.
  - rewrite (hits_disjoint n Hwf Hclean Ei) in Hids. unfold pop_cost.
    split; [by split|]. cbn [work_limit pending]. split; [lia|]. lia.
Qed.

(** * The query *)

Lemma work_fuel limit : (N.to_nat limit < 2 ^ S (N.size_nat limit))%nat.
Proof using.
  assert (N.to_nat limit < 2 ^ N.size_nat limit)%nat; [|simpl; lia].
  destruct limit as [|p]; [simpl; lia|]. simpl.
  induction p as [p IH|p IH|]; cbn [Pos.size_nat Nat.pow]; lia.
Qed.

Lemma zero_mask_reference es : forallb (λ word, word =? 0) mask = true → reference es mask = [].
Proof using.
  intros Hz. unfold reference. rewrite filter_false; [done|]. intros e _ Hhit.
  apply proper_match_spec in Hhit as (a & x & b & _ & _ & Hx). rewrite mask_contains_testbit in Hx.
  destruct (mask.[N.shiftr x 6]) as [w|] eqn:Ew; [|done]. rewrite forallb_forall in Hz.
  assert (Hin : w ∈ mask) by (apply nthN_elem_of; eauto). apply list_elem_of_In, Hz, N.eqb_eq in Hin as ->.
  by rewrite N.bits_0 in Hx.
Qed.

Lemma query_ok (t : tree RS) es limit :
  holds t es → NoDup es.*1 →
  match token_ids_with_proper_prefix_byte t mask limit with
  | Panics => False
  | Declines => lenN es < usize_max → limit < 1 + 2 * size (root t) + lenN es
  | Gives ids => ids ≡ₚ reference es mask
  end.
Proof using Hmask H0.
  intros [Hwf Hroot Htok Hempty] Hnd. unfold token_ids_with_proper_prefix_byte.
  destruct (forallb (λ word, word =? 0) mask) eqn:Ez; [by rewrite zero_mask_reference|].
  set (q0 := Query [root t] [] 0 limit).
  assert (Hq0 : inv (reference es mask) [] q0).
  { split; [|by unfold gathered, reference; cbn; rewrite app_nil_r; unfold hits; rewrite Htok|done].
    constructor; [|done]. split; [done|]. rewrite Hroot, Htok. split; [constructor|done]. }
  set (I := λ q (m : nat), inv (reference es mask) [] q ∧ (funded [] q0 → funded [] q) ∧ (N.to_nat (work_limit q) ≤ m)%nat).
  destruct (run_terminates (query_step mask) I (S (N.size_nat limit)) q0 (N.to_nat limit)) as (r & q & m & -> & Hq & Hr).
  - intros q q' m (Hq & Hf & Hm) Hstep. pose proof (query_step_ok _ q Hq) as Hok. rewrite Hstep in Hok.
    destruct Hok as (Hq' & Hlt & Hf'). exists (N.to_nat (work_limit q')). split; [|lia]. split; [done|]. split; [by auto|lia].
  - split; [done|]. split; [done|]. simpl. lia.
  - apply work_fuel.
  - destruct Hq as (Hq & Hf & _). pose proof (query_step_ok _ q Hq) as Hok. rewrite Hr in Hok.
    destruct r as [| |q']; cbn [outcome_bind]; [done| |done].
    intros Hes. apply N.nle_gt. intros Hlimit. apply Hok.
    + assert (lenN (reference es mask) ≤ lenN es); [|lia]. unfold reference, lenN. rewrite length_fmap.
      apply of_nat_le, length_filter.
    + apply Hf. unfold funded. cbn [q0 pending work_limit total foldr]. pose proof (visit_pop (root t)) as Hp.
      unfold visit_cost in Hp. rewrite Htok in Hp. unfold q0. cbn [pending work_limit total foldr]. lia.
Qed.
End query.
