(* ===== verification/PrefixTreeBuild.v ===== *)
(** Building a prefix tree from sorted, distinct entries. *)

From S2P Require Import Prelude Bits RangeSets PrefixTree PrefixTreeFind.

(** * Sorted entries *)

Definition entry_lt (e e' : entry) : Prop := bytes_lt e.2 e'.2.
Definition entries_sorted (es : list entry) : Prop := StronglySorted entry_lt es.

(** The entries of a group go on from [p]. *)
Definition under (p : list N) (es : list entry) : Prop := Forall (λ e : entry, p `prefix_of` e.2) es.

Lemma bytes_lt_app p a b : bytes_lt (p ++ a) (p ++ b) ↔ bytes_lt a b.
Proof.
  induction p as [|x p IH]; [done|]. simpl. rewrite IH. split; [|by right]. intros [?|[_ ?]]; [lia|done].
Qed.

Lemma prefix_bytes_le p a : p `prefix_of` a → bytes_le p a.
Proof.
  intros [k ->]. destruct k as [|x k]; [rewrite app_nil_r; by left|right].
  rewrite <-(app_nil_r p) at 1. by apply bytes_lt_app.
Qed.

Lemma sorted_bounds es first last_ e :
  entries_sorted es → head es = Some first → last es = Some last_ → e ∈ es →
  bytes_le first.2 e.2 ∧ bytes_le e.2 last_.2.
Proof.
  intros Hs Hh Hl He. split.
  - destruct Hs as [|x es Hs Hx]; [done|]. injection Hh as ->. apply elem_of_cons in He as [->|He]; [by left|right].
    rewrite Forall_forall in Hx. by apply Hx.
  - revert first Hh. induction Hs as [|x es Hs IH Hx]; intros first Hh; [done|]. destruct es as [|y es].
    + injection Hl as ->. apply list_elem_of_singleton in He as ->. by left.
    + cbn [last] in Hl. apply elem_of_cons in He as [->|He]; [|by apply (IH Hl He y)].
      right. rewrite Forall_forall in Hx. apply Hx. by apply last_Some_elem_of.
Qed.

(** * The common prefix *)

Lemma lcp_loop_ok fuel a b i :
  (i ≤ N.min (lenN a) (lenN b)) → (lenN a ≤ i + N.of_nat fuel) → take (N.to_nat i) a = take (N.to_nat i) b →
  let l := lcp_loop fuel a b (N.min (lenN a) (lenN b)) i in
  i ≤ l ∧ l ≤ N.min (lenN a) (lenN b) ∧ take (N.to_nat l) a = take (N.to_nat l) b ∧
  (l < N.min (lenN a) (lenN b) → a.[l] ≠ b.[l]).
Proof.
  revert i. induction fuel as [|fuel IH]; intros i Hi Hf Ht; cbn zeta; cbn [lcp_loop]; [split; [lia|split; [done|split; [done|lia]]]|].
  destruct (N.ltb_spec i (N.min (lenN a) (lenN b))) as [Hlt|Hge]; cbn [andb]; [|split; [lia|split; [done|split; [done|lia]]]].
  destruct (bool_decide_reflect (a.[i] = b.[i])) as [Heq|Hne]; [|split; [lia|split; [done|split; [done|done]]]].
  specialize (IH (i + 1)). cbn zeta in IH. destruct IH as (H1 & H2 & H3); [lia|lia| |split; [lia|done]].
  rewrite N.add_1_r, N2Nat.inj_succ.
  destruct (proj1 (nthN_Some_lt a i) ltac:(lia)) as [x Hx]. rewrite Hx in Heq. symmetry in Heq.
  rewrite nthN_lookup in Hx, Heq. by rewrite (take_S_r _ _ x), (take_S_r _ _ x), Ht.
Qed.

Lemma bytes_le_antisym a b : bytes_le a b → bytes_le b a → a = b.
Proof.
  intros [?|Hab] [Hba|Hba]; [done|done|done|]. destruct (bytes_lt_irrefl a). by apply (bytes_lt_trans _ b).
Qed.

(** Two strings that go on from [q] with different bytes. *)
Definition branches (q a b : list N) : Prop :=
  ∃ k r k' r', a = q ++ k :: r ∧ b = q ++ k' :: r' ∧ k ≠ k'.

Lemma lcp_branches a b l :
  l ≤ N.min (lenN a) (lenN b) → take (N.to_nat l) a = take (N.to_nat l) b → bytes_le a b →
  (l < N.min (lenN a) (lenN b) → a.[l] ≠ b.[l]) → lenN a = l ∨ branches (take (N.to_nat l) a) a b.
Proof.
  intros Hl Ht Hle Hne. destruct (N.lt_ge_cases l (N.min (lenN a) (lenN b))) as [Hlt|Hge]; [right|left].
  - specialize (Hne Hlt). destruct (proj1 (nthN_Some_lt a l) ltac:(lia)) as [x Hx]. destruct (proj1 (nthN_Some_lt b l) ltac:(lia)) as [y Hy].
    rewrite Hx, Hy in Hne. rewrite nthN_lookup in Hx, Hy. exists x, (drop (S (N.to_nat l)) a), y, (drop (S (N.to_nat l)) b).
    split; [symmetry; by apply take_drop_middle|]. split; [rewrite Ht; symmetry; by apply take_drop_middle|]. congruence.
  - destruct (N.eq_dec (lenN a) l) as [|Hna]; [done|]. assert (Hb : lenN b = l) by lia.
    rewrite (take_ge b) in Ht by (unfold lenN in Hb; lia).
    rewrite (bytes_le_antisym a b); [done|done|]. apply prefix_bytes_le. rewrite <-Ht. eexists. symmetry. apply take_drop.
Qed.

(** What the first and the last entry share is shared by all. *)
Lemma lcp_common p k es first last_ :
  entries_sorted es → under (p ++ [k]) es → head es = Some first → last es = Some last_ →
  let l := lcp_len first.2 last_.2 (lenN p) in
  let q := take (N.to_nat l) first.2 in
  slice_to first.2 l = Some q ∧ lenN q = l ∧ (∃ edge, q = p ++ k :: edge) ∧ under q es ∧
  (lenN first.2 = l ∨ branches q first.2 last_.2).
Proof.
  intros Hs Hu Hh Hl. cbn zeta. unfold under in Hu. rewrite Forall_forall in Hu.
  assert (Hfirst : first ∈ es) by (by apply head_Some_elem_of).
  assert (Hlast : last_ ∈ es) by (by apply last_Some_elem_of).
  destruct (Hu first Hfirst) as [x Hx], (Hu last_ Hlast) as [y Hy].
  assert (Hlen : lenN p < N.min (lenN first.2) (lenN last_.2)).
  { rewrite Hx, Hy. unfold lenN. rewrite !length_app. simpl. lia. }
  destruct (lcp_loop_ok (length first.2) first.2 last_.2 (lenN p)) as (H1 & H2 & H3 & H4).
  - lia.
  - unfold lenN. lia.
  - unfold lenN. rewrite Nat2N.id, Hx, Hy, <-!app_assoc. by rewrite !take_app_length.
  - unfold lcp_len. set (l := lcp_loop _ _ _ _ _) in *.
    assert (Hlt : lenN p < l).
    { destruct (N.lt_ge_cases (lenN p) l) as [|Hge]; [done|]. assert (l = lenN p) as Heq by lia.
      destruct H4; [lia|]. rewrite Heq, Hx, Hy. unfold lenN. rewrite !nthN_of_nat, <-!app_assoc.
      simpl. by rewrite !(list_lookup_middle p). }
    split; [unfold slice_to; by rewrite (proj2 (N.leb_le _ _)) by lia|].
    split; [unfold lenN at 1; rewrite length_take; unfold lenN in H2; lia|]. split.
    + exists (take (N.to_nat l - S (length p)) x). rewrite Hx, <-app_assoc. simpl.
      rewrite take_app_ge by (unfold lenN in Hlt; lia). f_equal.
      replace (N.to_nat l - length p)%nat with (S (N.to_nat l - S (length p))) by (unfold lenN in Hlt; lia). done.
    + split; [|apply lcp_branches; [done|done| |done]; by apply (sorted_bounds es first last_ first)].
      apply Forall_forall. intros e He. destruct (sorted_bounds es first last_ e Hs Hh Hl He) as [Hle Hge].
      apply (bytes_between _ first.2 last_.2); [|rewrite H3|done|done]; eexists; symmetry; apply take_drop.
Qed.

(** * Groups *)

Lemma under_byte p (e : entry) k rest : e.2 = p ++ k :: rest → (e.2).[lenN p] = Some k.
Proof. intros ->. unfold lenN. rewrite nthN_of_nat. by rewrite lookup_app_r, Nat.sub_diag by lia. Qed.

Definition longer (p : list N) (es : list entry) : Prop :=
  Forall (λ e : entry, ∃ k rest, e.2 = p ++ k :: rest) es.

Lemma take_group_ok p k es :
  longer p es → entries_sorted es →
  ∃ group rest, take_group k (lenN p) es = Some (group, rest) ∧ es = group ++ rest ∧ under (p ++ [k]) group ∧
    match rest with e :: _ => ∃ k' x, e.2 = p ++ k' :: x ∧ k' ≠ k | [] => True end.
Proof.
  induction es as [|e es IH]; intros Hl Hs; cbn [take_group]; [exists [], []; repeat split; constructor|].
  apply Forall_cons in Hl as [(k' & x & He) Hl]. rewrite (under_byte p e k' x He). cbn [mbind option_bind].
  apply StronglySorted_inv in Hs as [Hs _]. destruct (N.eqb_spec k' k) as [->|Hne].
  - destruct (IH Hl Hs) as (group & rest & -> & -> & Hu & Hr). cbn [mbind option_bind].
    exists (e :: group), rest. split; [done|]. split; [done|]. split; [|done]. constructor; [|done].
    exists x. by rewrite He, <-app_assoc.
  - exists [], (e :: es). split; [done|]. split; [done|]. split; [constructor|]. eauto.
Qed.

Lemma sorted_app_inv es es' : entries_sorted (es ++ es') → entries_sorted es ∧ entries_sorted es'.
Proof.
  induction es as [|e es IH]; intros Hs; [split; [constructor|done]|].
  apply StronglySorted_inv in Hs as [Hs He]. destruct (IH Hs) as [H1 H2]. split; [|done].
  constructor; [done|]. by apply Forall_app in He as [He _].
Qed.

(** A group per byte that follows [p], in ascending order. *)
Definition grouped (p : list N) (gs : list (list entry)) (keys : list N) : Prop :=
  Forall2 (λ g k, g ≠ [] ∧ under (p ++ [k]) g ∧ entries_sorted g) gs keys ∧ strictly_sorted keys.

Lemma groups_ok p fuel es :
  (length es ≤ fuel)%nat → longer p es → entries_sorted es →
  ∃ gs keys, groups fuel (lenN p) es = Some gs ∧ concat gs = es ∧ grouped p gs keys ∧
    Forall (λ k, ∃ e x, e ∈ es ∧ e.2 = p ++ k :: x) keys.
Proof.
  revert es. induction fuel as [|fuel IH]; intros es Hf Hl Hs; destruct es as [|e es]; cbn [groups].
  1,3: exists [], []; repeat split; constructor.
  { simpl in Hf. lia. }
  apply Forall_cons in Hl as [(k & x & He) Hl]. rewrite (under_byte p e k x He). cbn [mbind option_bind].
  apply StronglySorted_inv in Hs as [Hs Hlt].
  destruct (take_group_ok p k es Hl Hs) as (group & rest & -> & -> & Hu & Hr). cbn [mbind option_bind].
  apply Forall_app in Hl as [_ Hl]. pose proof Hs as Hs'. apply sorted_app_inv in Hs' as [Hsg Hsr].
  apply Forall_app in Hlt as [Hltg Hltr].
  destruct (IH rest) as (gs & keys & -> & Hc & [Hg Hk] & Hkeys); [simpl in Hf; rewrite length_app in Hf; lia|done|done|].
  cbn [mbind option_bind]. exists ((e :: group) :: gs), (k :: keys). split; [done|].
  split; [simpl; by rewrite Hc|]. split; [split|].
  - constructor; [|done]. split; [done|]. split; [constructor; [exists x; by rewrite He, <-app_assoc|done]|].
    by constructor.
  - constructor; [done|]. apply Forall_forall. intros k' Hk'. rewrite Forall_forall in Hkeys.
    destruct (Hkeys k' Hk') as (e' & x' & Hin & He'). destruct rest as [|e0 rest]; [by apply elem_of_nil in Hin|].
    destruct Hr as (k0 & x0 & He0 & Hne).
    assert (H0 : k < k0).
    { apply Forall_cons in Hltr as [H0 _]. unfold entry_lt in H0. rewrite He, He0 in H0. apply bytes_lt_app in H0.
      simpl in H0. lia. }
    apply elem_of_cons in Hin as [->|Hin]; [rewrite He0 in He'; apply app_inv_head in He' as [= -> _]; done|].
    apply StronglySorted_inv in Hsr as [_ Hr]. rewrite Forall_forall in Hr. specialize (Hr e' Hin). unfold entry_lt in Hr.
    rewrite He0, He' in Hr. apply bytes_lt_app in Hr. simpl in Hr. lia.
  - constructor; [exists e, x; split; [left|done]|]. rewrite Forall_forall in Hkeys |- *. intros k' Hk'.
    destruct (Hkeys k' Hk') as (e' & x' & Hin & He'). exists e', x'. split; [|done]. right. apply elem_of_app. by right.
Qed.

(** * The metadata of a node *)

Definition words (mask : list N) : Prop := Forall (λ w, w < 2 ^ 64) mask.

Lemma mask_bit_word b : mask_bit b < 2 ^ 64.
Proof.
  unfold mask_bit. rewrite N.shiftl_1_l. apply N.pow_lt_mono_r; [lia|].
  change 63 with (N.ones 6). rewrite N.land_ones. by apply N.mod_lt.
Qed.

Lemma insert_bytes_words mask bytes : words mask → words (insert_bytes_into_mask mask bytes).
Proof.
  unfold insert_bytes_into_mask. revert mask. induction bytes as [|x bytes IH]; intros mask Hm; simpl; [done|].
  apply IH. unfold words in *. rewrite alterN_alter. apply Forall_alter; [done|]. intros w _ Hw. apply lor_bound; [done|apply mask_bit_word].
Qed.

Lemma mask_union_words mask other : words mask → words other → words (mask_union mask other).
Proof.
  unfold words, mask_union. intros Hm. revert other. induction Hm as [|x mask Hx Hm IH]; intros [|y other] Ho; simpl; try constructor.
  - apply Forall_cons in Ho as [Hy Ho]. by apply lor_bound.
  - apply Forall_cons in Ho as [Hy Ho]. by apply IH.
Qed.

Section build.
Context {RS : Type} `{RangeSetLaws RS}.
Implicit Types n c : node RS.

(** What merging [cs] into a set and a mask gives. *)
Record merged (p : list N) (cs : list (node RS)) (ids : RS) (mask : list N) (ids' : RS) (mask' : list N) : Prop := {
  me_ids : ∀ x, x ∈ rs_iter ids' ↔ x ∈ rs_iter ids ∨ ∃ c, c ∈ cs ∧ x ∈ rs_iter (reachable_token_ids c);
  me_mask : mask_ok mask';
  me_words : words mask';
  me_bytes : ∀ b, mask_contains mask' b = true ↔
    mask_contains mask b = true ∨ ∃ c, c ∈ cs ∧ (b ∈ drop (length p) (prefix c) ∨ mask_contains (subtree_bytes c) b = true);
}.

Lemma merge_children_ok p cs ids mask :
  Forall wf cs → Forall (λ c, p `prefix_of` prefix c) cs → mask_ok mask → words mask →
  ∃ ids' mask', foldM (λ st child, merge_child_metadata st.1 st.2 (lenN p) child) (ids, mask) cs = Some (ids', mask') ∧
    merged p cs ids mask ids' mask'.
Proof using H0.
  intros Hwf Hpre. revert ids mask. induction cs as [|c cs IH]; intros ids mask Hm Hw.
  { exists ids, mask. split; [done|]. split; [|done|done|]; intros x; (split; [by left|]); intros [?|(c & Hc & _)]; [done|by apply elem_of_nil in Hc|done|by apply elem_of_nil in Hc]. }
  apply Forall_cons in Hwf as [Hc Hwf]. apply Forall_cons in Hpre as [Hpc Hpre].
  pose proof (wf_inv _ Hc) as [Hn _]. set (edge := drop (length p) (prefix c)).
  assert (Hstep : merge_child_metadata ids mask (lenN p) c =
    Some (rs_union ids (reachable_token_ids c), mask_union (insert_bytes_into_mask mask edge) (subtree_bytes c))).
  { unfold merge_child_metadata, slice_from.
    rewrite (proj2 (N.leb_le (lenN p) (lenN (prefix c)))) by (unfold lenN; destruct Hpc as [z ->]; rewrite length_app; lia).
    cbn [mbind option_bind]. unfold lenN at 1. by rewrite Nat2N.id. }
  cbn [foldM fst snd]. rewrite Hstep. cbn [mbind option_bind].
  assert (Hedge : Forall (λ x, x < 256) edge) by apply Forall_drop, Hn.
  destruct (insert_bytes_ok mask edge 0 Hm Hedge) as [Hm1 _].
  destruct (mask_union_ok (insert_bytes_into_mask mask edge) (subtree_bytes c) 0 Hm1 (nw_mask _ Hn)) as [Hm2 _].
  destruct (IH Hwf Hpre (rs_union ids (reachable_token_ids c)) (mask_union (insert_bytes_into_mask mask edge) (subtree_bytes c))) as (ids' & mask' & Heq & [H1 H2 H3 H4]).
  { done. }
  { apply mask_union_words; [by apply insert_bytes_words|apply Hn]. }
  exists ids', mask'. split; [exact Heq|]. split; [|done|done|].
  - intros x. rewrite H1, rs_iter_union. setoid_rewrite elem_of_cons. split.
    + intros [[?|?]|(c' & Hc' & Hx)]; [by left|right; eauto|right; eauto].
    + intros [?|(c' & [->|Hc'] & Hx)]; [by left; left|by left; right|right; eauto].
  - intros b. rewrite H4. destruct (mask_union_ok (insert_bytes_into_mask mask edge) (subtree_bytes c) b Hm1 (nw_mask _ Hn)) as [_ ->].
    destruct (insert_bytes_ok mask edge b Hm Hedge) as [_ ->]. setoid_rewrite elem_of_cons. split.
    + intros [[[?|?]|?]|(c' & Hc' & Hx)]; [by left|right; exists c; eauto..|right; eauto].
    + intros [?|(c' & [->|Hc'] & Hx)]; [by left; left; left| |right; eauto].
      destruct Hx as [Hx|Hx]; [left; left; by right|left; by right].
Qed.

(** Every node has a token or branches. *)
Inductive compact : node RS → Prop :=
| compact_node n :
    has_token n = true ∨ (2 ≤ length (children n))%nat → Forall compact (children n) → compact n.

(** Children in the order of their groups. *)
Definition child_of (p : list N) (g : list entry) (k : N) (c : node RS) : Prop :=
  (wf c ∧ compact c) ∧ (∃ edge, prefix c = p ++ k :: edge) ∧ tokens_of c = g.

Definition children_of (p : list N) : list (list entry) → list N → list (node RS) → Prop := Forall3 (child_of p).

Lemma children_of_ok p gs keys cs :
  children_of p gs keys cs →
  concat (map tokens_of cs) = concat gs ∧ (Forall wf cs ∧ Forall compact cs ∧ length cs = length gs) ∧ Forall2 (λ c k, ∃ edge, prefix c = p ++ k :: edge) cs keys.
Proof using.
  induction 1 as [|g k c gs keys cs ([Hw Hcp] & Hp & Ht) _ (IH1 & (IH2 & IH3 & IH4) & IH5)]; [repeat constructor|].
  split; [simpl; by rewrite IH1, Ht|]. split; [|by constructor]. simpl. rewrite IH4. repeat split; by constructor.
Qed.

(** A node over merged children is well-formed. *)
Lemma make_node p cs keys id has ids :
  Forall wf cs → Forall2 (λ c k, ∃ edge, prefix c = p ++ k :: edge) cs keys → strictly_sorted keys →
  Forall (λ b, b < 256) p → (∀ x, x ∈ rs_iter ids ↔ has = true ∧ x = id) →
  ∃ ids' mask', merge_children ids (lenN p) cs = Some (ids', mask') ∧ wf (Node id has p cs ids' mask').
Proof using H0.
  intros Hwf Hkeys Hs Hp Hids.
  assert (Hpre : Forall (λ c, p `prefix_of` prefix c) cs).
  { apply Forall_forall. intros c Hc. apply list_elem_of_lookup in Hc as [i Hi].
    destruct (Forall2_lookup_l _ _ _ _ _ Hkeys Hi) as (k & _ & [edge Hk]). by exists (k :: edge). }
  destruct (merge_children_ok p cs ids mask_empty Hwf Hpre) as (ids' & mask' & Heq & [H1 H2 H3 H4]); [done|by repeat constructor|].
  exists ids', mask'. split; [exact Heq|]. constructor; [|done]. rewrite Forall_forall in Hwf. split; cbn [children prefix reachable_token_ids subtree_bytes]; try done.
  - exists keys. split; [|done]. eapply Forall2_impl; [exact Hkeys|]. intros c k Hc. by split.
  - intros x. rewrite H1, Hids, tokens_of_below, fmap_app, elem_of_app. cbn [has_token token_id prefix].
    f_equiv.
    + destruct has; simpl; [rewrite list_elem_of_singleton; naive_solver|rewrite elem_of_nil; naive_solver].
    + rewrite list_elem_of_fmap. setoid_rewrite elem_of_below. cbn [children]. split.
      * intros (c & Hc & Hx). apply (nw_ids _ (proj1 (wf_inv _ (Hwf c Hc)))), list_elem_of_fmap in Hx as (e & -> & He). eauto.
      * intros (e & -> & c & Hc & He). exists c. split; [done|]. apply (nw_ids _ (proj1 (wf_inv _ (Hwf c Hc)))), list_elem_of_fmap. eauto.
  - intros b. rewrite H4, mask_empty_contains. unfold edge_of. cbn [prefix]. split; [by intros [?|?]|by right].
Qed.

Definition octets (es : list entry) : Prop := Forall (λ e : entry, Forall (λ b, b < 256) e.2) es.

(** [fuel] covers what the entries are longer than [p]. *)
Definition short (p : list N) (fuel : nat) (es : list entry) : Prop :=
  Forall (λ e : entry, lenN e.2 < lenN p + N.of_nat fuel) es.

Lemma grouped_children (f : list entry → option (node RS)) p gs keys :
  grouped p gs keys →
  (∀ g k, g ∈ gs → g ≠ [] → under (p ++ [k]) g → entries_sorted g → ∃ c, f g = Some c ∧ child_of p g k c) →
  ∃ cs, mapM f gs = Some cs ∧ children_of p gs keys cs.
Proof using.
  intros [Hg _] Hf. induction Hg as [|g k gs keys (Hne & Hu & Hs) _ IH]; [exists []; split; [done|constructor]|].
  destruct (Hf g k ltac:(left) Hne Hu Hs) as (c & Hc & Hok).
  destruct IH as (cs & Hcs & Hoks); [intros g' k' Hin; apply Hf; by right|].
  exists (c :: cs). split; [|by constructor]. cbn [mapM]. rewrite Hc. cbn [mbind option_bind]. by rewrite Hcs.
Qed.

Lemma grouped_branches q gs keys (e e' : entry) :
  grouped q gs keys → e ∈ concat gs → e' ∈ concat gs → branches q e.2 e'.2 → (2 ≤ length gs)%nat.
Proof using.
  intros [Hg _] He He' (k & r & k' & r' & Hk & Hk' & Hne). destruct Hg as [|g key gs keys (_ & Hu & _) Hg]; [by apply elem_of_nil in He|].
  destruct Hg as [|]; [exfalso|simpl; lia]. simpl in He, He'. rewrite app_nil_r in He, He'. unfold under in Hu. rewrite Forall_forall in Hu.
  destruct (Hu e He) as [z Hz], (Hu e' He') as [z' Hz']. rewrite Hk, <-app_assoc in Hz. rewrite Hk', <-app_assoc in Hz'.
  apply app_inv_head in Hz as [= -> _]. by apply app_inv_head in Hz' as [= -> _].
Qed.

Lemma in_concat_group {A} (P : A → Prop) (gs : list (list A)) g : Forall P (concat gs) → g ∈ gs → Forall P g.
Proof using.
  intros HP Hg. apply list_elem_of_split in Hg as (l1 & l2 & ->). rewrite concat_app in HP.
  apply Forall_app in HP as [_ HP]. by apply Forall_app in HP as [HP _].
Qed.

(** The entries after the one that is the prefix itself. *)
Lemma child_entries_ok q es first :
  es ≠ [] → entries_sorted es → under q es → head es = Some first →
  longer q (if lenN first.2 =? lenN q then tail es else es) ∧
  es = (if lenN first.2 =? lenN q then [(first.1, q)] else []) ++ (if lenN first.2 =? lenN q then tail es else es).
Proof using.
  intros Hne Hs Hu Hh. destruct es as [|e es]; [done|]. injection Hh as ->. simpl.
  assert (Hstrict : ∀ e : entry, q `prefix_of` e.2 → q ≠ e.2 → ∃ k rest, e.2 = q ++ k :: rest).
  { intros e' [[|k rest] ->] Hne'; [by rewrite app_nil_r in Hne'|eauto]. }
  pose proof Hs as Hs'. apply StronglySorted_inv in Hs' as [_ Hlt]. apply Forall_cons in Hu as [Hf Hu].
  unfold longer. destruct (N.eqb_spec (lenN first.2) (lenN q)) as [Heq|Hneq].
  - assert (Hq : first.2 = q).
    { destruct Hf as [rest Hr]. rewrite Hr in Heq |- *. unfold lenN in Heq. rewrite length_app in Heq.
      destruct rest; [by rewrite app_nil_r|simpl in Heq; lia]. }
    split; [|destruct first; simpl in *; by subst]. rewrite Forall_forall in Hlt |- *. unfold under in Hu. rewrite Forall_forall in Hu.
    intros e He. apply Hstrict; [by apply Hu|]. intros Hqe. specialize (Hlt e He). unfold entry_lt in Hlt.
    rewrite Hq, Hqe in Hlt. by apply bytes_lt_irrefl in Hlt.
  - split; [|done]. constructor; [apply Hstrict; [done|intros Hqe; apply Hneq; by rewrite <-Hqe]|]. rewrite Forall_forall in Hlt |- *. unfold under in Hu. rewrite Forall_forall in Hu.
    intros e He. apply Hstrict; [by apply Hu|]. intros Hqe. specialize (Hlt e He). unfold entry_lt in Hlt. rewrite <-Hqe in Hlt.
    destruct (prefix_bytes_le q first.2 Hf) as [Heq|Hlt']; [congruence|].
    by apply (bytes_lt_irrefl q), (bytes_lt_trans _ first.2).
Qed.

Lemma build_subtree_ok fuel p k es :
  es ≠ [] → under (p ++ [k]) es → entries_sorted es → octets es → short p fuel es →
  ∃ c, build_subtree fuel es (lenN p) = Some c ∧ child_of p es k c.
Proof using H0.
  revert p k es. induction fuel as [|fuel IH]; intros p k es Hne Hu Hs Ho Hf.
  { destruct es as [|e es]; [done|]. apply Forall_cons in Hf as [Hf _]. apply Forall_cons in Hu as [[z Hz] _].
    rewrite Hz in Hf. unfold lenN in Hf. rewrite !length_app in Hf. lia. }
  destruct (head es) as [first|] eqn:Hh; [|by destruct es]. destruct (last es) as [last_|] eqn:Hl; [|by apply last_None in Hl].
  cbn [build_subtree]. rewrite Hh, Hl. cbn [mbind option_bind].
  destruct (lcp_common p k es first last_ Hs Hu Hh Hl) as (Hslice & Hlen & (edge & Hedge) & Hq & Hbranch).
  set (l := lcp_len first.2 last_.2 (lenN p)) in *. set (q := take (N.to_nat l) first.2) in *. clearbody l q. subst l.
  rewrite Hslice. cbn [mbind option_bind].
  destruct (child_entries_ok q es first Hne Hs Hq Hh) as [Hlonger Hes].
  set (has := lenN first.2 =? lenN q) in *. set (ces := if has then tail es else es) in *.
  assert (Hsub : entries_sorted ces ∧ octets ces ∧ short p (S fuel) ces).
  { unfold octets, short in *. rewrite Hes in Hs, Ho, Hf. apply sorted_app_inv in Hs as [_ Hs]. apply Forall_app in Ho as [_ Ho]. by apply Forall_app in Hf as [_ Hf]. }
  destruct Hsub as (Hsc & Hoc & Hfc).
  destruct (groups_ok q (length ces) ces (le_n _) Hlonger Hsc) as (gs & keys & -> & Hconcat & Hg & _). cbn [mbind option_bind].
  destruct (grouped_children (λ group, build_subtree fuel group (lenN q)) q gs keys Hg) as (cs & -> & Hcs).
  { intros g k' Hin Hgne Hgu Hgs. apply IH; [done|done|done| |].
    - apply (in_concat_group _ gs); [by rewrite Hconcat|done].
    - apply (in_concat_group _ gs); [rewrite Hconcat|done]. unfold short in *. eapply Forall_impl; [exact Hfc|].
      intros e He. simpl in He. rewrite Hedge. unfold lenN in *. rewrite length_app. simpl. lia. }
  cbn [mbind option_bind]. destruct (children_of_ok q gs keys cs Hcs) as (Htok & (Hwf & Hcompact & Hlen) & Hkeys).
  set (id := if has then first.1 else 0).
  destruct (make_node q cs keys id has (if has then rs_insert rs_empty id else rs_empty) Hwf Hkeys (proj2 Hg)) as (ids' & mask' & -> & Hnode).
  { unfold under in Hq. destruct es as [|e es]; [done|]. apply Forall_cons in Hq as [[z Hz] _]. apply Forall_cons in Ho as [Ho _].
    rewrite Hz in Ho. by apply Forall_app in Ho as [Ho _]. }
  { intros x. destruct has; [rewrite rs_iter_insert|]; rewrite rs_iter_empty, elem_of_nil; naive_solver. }
  cbn [mbind option_bind]. eexists. split; [done|]. split; [split; [done|]|split; [exists edge; by rewrite Hedge|]].
  { constructor; [|done]. cbn [has_token children]. rewrite Hlen. unfold has in *. destruct (N.eqb_spec (lenN first.2) (lenN q)) as [|Hneq]; [by left|right].
    destruct Hbranch as [?|Hbranch]; [done|]. apply (grouped_branches q gs keys first last_ Hg); [..|done].
    - rewrite Hconcat. unfold ces. by apply head_Some_elem_of.
    - rewrite Hconcat. unfold ces. by apply last_Some_elem_of. }
  cbn [tokens_of]. rewrite Htok, Hconcat, Hes. f_equal. unfold id. by destruct has.
Qed.

Lemma depth_covers tokens : short [] (depth_of tokens) tokens.
Proof using.
  unfold short, depth_of. rewrite Nat2N.inj_succ, N2Nat.id. unfold lenN at 2. simpl.
  induction tokens as [|e es IH]; [constructor|]. cbn [fmap list_fmap foldr]. constructor; [lia|].
  eapply Forall_impl; [exact IH|]. intros e' He. simpl in He |- *. lia.
Qed.

Lemma build_presorted_ok es :
  entries_sorted es → octets es →
  ∃ t : tree RS, build_presorted es = Some t ∧ holds t es ∧ Forall compact (children (root t)) ∧
    max_token_id t = foldr N.max 0 es.*1.
Proof using H0.
  intros Hs Ho. unfold build_presorted. destruct es as [|e es].
  { eexists. split; [done|]. split; [|by split]. split; try done.
    destruct (make_node [] [] [] 0 false rs_empty) as (ids' & mask' & Heq & Hwf);
      [constructor..|intros x; rewrite rs_iter_empty, elem_of_nil; naive_solver|].
    unfold merge_children in Heq. cbn [foldM] in Heq. injection Heq as <- <-. exact Hwf. }
  pose proof (child_entries_ok [] (e :: es) e ltac:(done) Hs) as Hce. destruct Hce as [Hlonger Hes]; [apply Forall_true; intros; apply prefix_nil|done|].
  assert (Hempty : (lenN e.2 =? lenN (@nil N)) = bool_decide (e.2 = [])) by (destruct e as [id [|b bs]]; done).
  rewrite Hempty in Hlonger, Hes. cbn [tail] in Hlonger, Hes. set (has := bool_decide (e.2 = [])) in *.
  set (ces := if has then es else e :: es) in *. set (id := if has then e.1 else 0).
  assert (Hsub : entries_sorted ces ∧ octets ces ∧ short [] (depth_of (e :: es)) ces).
  { pose proof (depth_covers (e :: es)) as Hf. revert Hf. generalize (depth_of (e :: es)). intros depth Hf. unfold octets, short in *.
    rewrite Hes in Hs, Ho, Hf. apply sorted_app_inv in Hs as [_ Hs]. apply Forall_app in Ho as [_ Ho]. by apply Forall_app in Hf as [_ Hf]. }
  destruct Hsub as (Hsc & Hoc & Hfc).
  assert (Hids : ∀ x, x ∈ rs_iter (if has then rs_insert rs_empty id else rs_empty) ↔ has = true ∧ x = id).
  { intros x. destruct has; [rewrite rs_iter_insert|]; rewrite rs_iter_empty, elem_of_nil; naive_solver. }
  destruct (groups_ok [] (length ces) ces (le_n _) Hlonger Hsc) as (gs & keys & Hgroups & Hconcat & Hg & _).
  destruct (grouped_children (λ group, build_subtree (depth_of (e :: es)) group 0) [] gs keys Hg) as (cs & Hmap & Hcs).
  { intros g k' Hin Hgne Hgu Hgs. apply (build_subtree_ok _ []); [done|done|done| |];
      apply (in_concat_group _ gs); try done; by rewrite Hconcat. }
  destruct (children_of_ok [] gs keys cs Hcs) as (Htok & (Hwf & Hcompact & Hlen) & Hkeys).
  destruct (make_node [] cs keys id has _ Hwf Hkeys (proj2 Hg) (List.Forall_nil _) Hids) as (ids' & mask' & Hmerge & Hnode).
  assert (Htokens : (if has then [(id, [])] else []) ++ concat (map tokens_of cs) = e :: es).
  { rewrite Htok, Hconcat, Hes. f_equal. unfold id. by destruct has. }
  destruct ces as [|e' ces'] eqn:Eces.
  - cbn [length groups] in Hgroups. injection Hgroups as <-. injection Hmap as <-.
    unfold merge_children in Hmerge. cbn [foldM] in Hmerge. injection Hmerge as <- <-.
    eexists. split; [done|]. split; [by split|]. by split.
  - unfold build_children. change (lenN (@nil N)) with 0 in Hgroups, Hmerge. rewrite Hgroups. cbn [mbind option_bind].
    rewrite Hmap. cbn [mbind option_bind]. rewrite Hmerge. cbn [mbind option_bind].
    eexists. split; [done|]. split; [by split|]. by split.
Qed.
End build.
