(* ===== verification/PrefixTreeCorrect.v ===== *)
(** The prefix tree of a vocabulary: sorting and merging the tokens, and what
    the tree that is built from them answers. *)

From S2P Require Import Prelude Bits RangeSets PrefixTree PrefixTreeFind PrefixTreeQuery PrefixTreeBuild.

(** * Sorting *)

(** [sort_unstable_by] on the bytes: the order of equal byte strings is open. *)
Class ByteSort (sort : list entry → list entry) := {
  bs_perm l : sort l ≡ₚ l;
  bs_sorted l : StronglySorted (λ e e' : entry, bytes_le e.2 e'.2) (sort l);
}.

Definition entry_le (e e' : entry) : Prop := bytes_le e.2 e'.2.

#[export] Instance entry_le_dec : RelDecision entry_le.
Proof. intros e e'. unfold entry_le. apply _. Defined.

#[export] Instance entry_le_trans : Transitive entry_le.
Proof. intros e e' e''. apply bytes_le_trans. Qed.

#[export] Instance entry_le_total : Total entry_le.
Proof. intros e e'. apply bytes_le_total. Qed.

#[export] Instance merge_sort_bytes : ByteSort (merge_sort entry_le).
Proof. split; intros l; [apply merge_sort_Permutation|apply (StronglySorted_merge_sort entry_le)]. Qed.

(** * Merging equal byte strings *)

Lemma alterN_at_middle {A} (f : A → A) a x b : alterN f (a ++ x :: b) (lenN a) = a ++ f x :: b.
Proof.
  rewrite alterN_alter. unfold lenN. rewrite Nat2N.id. rewrite alter_app_r_alt by lia.
  by rewrite Nat.sub_diag.
Qed.

Lemma nthN_middle {A} (a : list A) x b : (a ++ x :: b).[lenN a] = Some x.
Proof. unfold lenN. rewrite nthN_of_nat. by apply list_lookup_middle. Qed.

Lemma alterN_after {A} (f : A → A) a x b y c :
  alterN f (a ++ x :: b ++ y :: c) (lenN (a ++ x :: b)) = a ++ x :: b ++ f y :: c.
Proof. pose proof (alterN_at_middle f (a ++ x :: b) y c) as Ha. rewrite <-!app_assoc in Ha. exact Ha. Qed.

Section dedup.
Context (sorted : list entry) (Hsorted : StronglySorted (λ e e' : entry, bytes_le e.2 e'.2) sorted).

(** After [i] entries: the kept ones, the dropped ones, the rest. *)
Record dedup_inv (i : N) (st : list entry * N) (kept dropped : list entry) : Prop := {
  di_tokens : st.1 = kept ++ dropped ++ drop (N.to_nat i) sorted;
  di_write : st.2 = lenN kept;
  di_length : i = lenN (kept ++ dropped);
  di_sorted : entries_sorted kept;
  di_from : ∀ e, e ∈ kept → e ∈ take (N.to_nat i) sorted;
  di_all : ∀ e, e ∈ take (N.to_nat i) sorted → ∃ id, (id, e.2) ∈ kept;
}.

Lemma sorted_take_lookup i e cur : e ∈ take (N.to_nat i) sorted → sorted.[i] = Some cur → bytes_le e.2 cur.2.
Proof using Hsorted.
  rewrite nthN_lookup. intros He Hcur. rewrite <-(take_drop_middle _ _ _ Hcur) in Hsorted.
  clear Hcur. induction (take (N.to_nat i) sorted) as [|x l IH]; [by apply elem_of_nil in He|].
  apply StronglySorted_inv in Hsorted as [Hs Hx]. apply elem_of_cons in He as [->|He]; [|by apply IH].
  rewrite Forall_forall in Hx. apply Hx. apply elem_of_app. right. left.
Qed.

Lemma sorted_snoc kept (cur : entry) :
  entries_sorted kept → (∀ e, e ∈ kept → entry_lt e cur) → entries_sorted (kept ++ [cur]).
Proof using.
  induction 1 as [|e kept Hs IH He]; intros Hlt; [repeat constructor|]. simpl. constructor.
  - apply IH. intros e' He'. apply Hlt. by right.
  - apply Forall_app. split; [done|]. constructor; [|done]. apply Hlt. left.
Qed.

Lemma previous_last (kept rest : list entry) :
  (if 0 <? lenN kept then (kept ++ rest).[lenN kept - 1] else None) = last kept.
Proof using.
  destruct kept as [|p kept _] using rev_ind; [done|].
  rewrite lenN_snoc, last_snoc, N.add_sub, <-app_assoc. cbn [app]. rewrite nthN_middle.
  by rewrite (proj2 (N.ltb_lt _ _)) by lia.
Qed.

(** Reading the entry at [i]. *)
Section step.
Context (i : N) (cur : entry) (kept dropped : list entry) (Hcur : sorted.[i] = Some cur).
Context (Hinv : dedup_inv i (kept ++ dropped ++ drop (N.to_nat i) sorted, lenN kept) kept dropped).

Abbreviation later := (drop (N.to_nat (i + 1)) sorted).

Lemma take_next : take (N.to_nat (i + 1)) sorted = take (N.to_nat i) sorted ++ [cur].
Proof using Hcur. rewrite N.add_1_r, N2Nat.inj_succ. apply take_S_r. by rewrite <-nthN_lookup. Qed.

Lemma drop_next : drop (N.to_nat i) sorted = cur :: later.
Proof using Hcur. rewrite N.add_1_r, N2Nat.inj_succ. apply drop_S. by rewrite <-nthN_lookup. Qed.

Lemma kept_le e : e ∈ kept → bytes_le e.2 cur.2.
Proof using All. intros He. apply (sorted_take_lookup i); [by apply (di_from _ _ _ _ Hinv)|done]. Qed.

(** The later ID of the same byte string stays. *)
Lemma replace_last kept0 p :
  kept = kept0 ++ [p] → p.2 = cur.2 →
  dedup_inv (i + 1) (kept0 ++ cur :: dropped ++ cur :: later, lenN kept) (kept0 ++ [cur]) (dropped ++ [cur]).
Proof using Hcur Hinv.
  intros -> Hp. destruct Hinv as [_ _ Hlen Hs Hfrom Hall].
  split; cbn [fst snd]; [by simplify_list_eq|by rewrite !lenN_snoc| | | |].
  - rewrite Hlen, !lenN_app. unfold lenN. simpl. lia.
  - pose proof (sorted_app_inv _ _ Hs) as [Hs0 _]. apply sorted_snoc; [done|]. intros e He. unfold entry_lt. rewrite <-Hp.
    clear -Hs He. induction kept0 as [|x kept0 IH]; [by apply elem_of_nil in He|].
    apply StronglySorted_inv in Hs as [Hs Hx]. apply elem_of_cons in He as [->|He]; [|by apply IH].
    rewrite Forall_forall in Hx. apply Hx. apply elem_of_app. right. left.
  - intros e. rewrite take_next, !elem_of_app. intros [He|He]; [left; apply Hfrom, elem_of_app; by left|by right].
  - intros e. rewrite take_next, elem_of_app. setoid_rewrite elem_of_app. setoid_rewrite list_elem_of_singleton.
    intros [He| ->]; [|exists cur.1; right; by destruct cur].
    destruct (Hall e He) as [id [Hid|Hid%list_elem_of_singleton]%elem_of_app]; [exists id; by left|].
    exists cur.1. right. destruct cur, e, p. simpl in *. congruence.
Qed.

(** A new byte string. *)
Lemma keep_new dropped' :
  match last kept with Some p => p.2 ≠ cur.2 | None => True end → lenN dropped' = lenN dropped →
  dedup_inv (i + 1) (kept ++ cur :: dropped' ++ later, lenN kept + 1) (kept ++ [cur]) dropped'.
Proof using All.
  intros Hnew Hd. pose proof kept_le as Hle. destruct Hinv as [_ _ Hlen Hs Hfrom Hall].
  assert (Hlt : ∀ e, e ∈ kept → entry_lt e cur).
  { intros e He. destruct (last kept) as [p|] eqn:El; [|apply last_None in El as ->; by apply elem_of_nil in He].
    destruct (Hle p) as [?|Hpc]; [by apply last_Some_elem_of|done|].
    destruct (head kept) as [x|] eqn:Eh; [|by destruct kept].
    destruct (sorted_bounds kept x p e Hs Eh El He) as [_ [Heq|Hep]]; unfold entry_lt; [by rewrite Heq|by eapply bytes_lt_trans]. }
  split; cbn [fst snd]; [by simplify_list_eq|by rewrite lenN_snoc| |by apply sorted_snoc| |].
  - rewrite Hlen, !lenN_app, Hd. unfold lenN. simpl. lia.
  - intros e. rewrite take_next, !elem_of_app. intros [He|He]; [left; by apply Hfrom|by right].
  - intros e. rewrite take_next, elem_of_app. setoid_rewrite elem_of_app. setoid_rewrite list_elem_of_singleton.
    intros [He| ->]; [destruct (Hall e He) as [id Hid]; eauto|exists cur.1; right; by destruct cur].
Qed.

Lemma dedup_step_ok :
  ∃ st' kept' dropped', dedup_step (kept ++ dropped ++ drop (N.to_nat i) sorted, lenN kept) i = Some st' ∧
    dedup_inv (i + 1) st' kept' dropped'.
Proof using All.
  pose proof (di_length _ _ _ _ Hinv) as Hlen.
  assert (Hread : (kept ++ dropped ++ drop (N.to_nat i) sorted).[i] = Some cur).
  { rewrite drop_next, app_assoc. by rewrite <-(nthN_middle (kept ++ dropped) cur later), <-Hlen. }
  unfold dedup_step. rewrite Hread. cbn [mbind option_bind]. rewrite previous_last, drop_next.
  destruct (last kept) as [p|] eqn:El; [destruct (bool_decide_reflect (p.2 = cur.2)) as [Hp|Hp]|].
  { apply last_Some in El as [kept0 El]. eexists _, _, _. split; [|by apply (replace_last kept0 p)].
    rewrite El at 1 2. rewrite lenN_snoc, N.add_sub, <-app_assoc. cbn [app]. rewrite alterN_at_middle, Hp. by destruct cur. }
  all: pose proof keep_new as Hkeep; rewrite El in Hkeep; destruct dropped as [|m dropped'];
    [rewrite app_nil_r in Hlen; rewrite (proj2 (N.eqb_eq _ _)) by done; eexists _, _, _; (split; [|by apply (Hkeep [])]); done|].
  all: rewrite (proj2 (N.eqb_neq (lenN kept) i)) by (rewrite Hlen, lenN_app; unfold lenN; simpl; lia).
  all: cbn [app]; rewrite nthN_middle; cbn [mbind option_bind]; rewrite alterN_at_middle.
  all: eexists _, _, _; (split; [|apply (Hkeep (dropped' ++ [m])); [done|by rewrite lenN_snoc; unfold lenN; simpl; lia]]).
  all: assert (Hi : i = lenN (kept ++ cur :: dropped')) by (rewrite Hlen, !lenN_app; unfold lenN; simpl; lia).
  all: do 2 f_equal; pose proof (alterN_after (λ _, m) kept cur dropped' cur later) as Ha.
  all: rewrite <-Hi in Ha; etrans; [exact Ha|by simplify_list_eq].
Qed.
End step.

Lemma dedup_loop_ok :
  ∃ kept, (tokens ← foldM dedup_step (sorted, 0) (seqN (length sorted)); Some (take (N.to_nat tokens.2) tokens.1)) = Some kept ∧
    entries_sorted kept ∧ (∀ e, e ∈ kept → e ∈ sorted) ∧ (∀ e, e ∈ sorted → ∃ id, (id, e.2) ∈ kept).
Proof using Hsorted.
  destruct (foldM_seqN (λ i st, ∃ kept dropped, dedup_inv i st kept dropped) dedup_step (sorted, 0) (length sorted)) as ([tokens w] & -> & kept & dropped & [Htok Hw Hlen Hs Hfrom Hall]).
  - intros i st Hi (kept & dropped & Hinv). destruct st as [tokens w]. pose proof (di_tokens _ _ _ _ Hinv) as Htok.
    pose proof (di_write _ _ _ _ Hinv) as Hw. cbn [fst snd] in Htok, Hw. subst tokens w.
    destruct (proj1 (nthN_Some_lt sorted i)) as [cur Hcur]; [unfold lenN; lia|].
    destruct (dedup_step_ok i cur kept dropped Hcur Hinv) as (st' & kept' & dropped' & ? & ?). eauto.
  - exists [], []. split; [done|done|done|constructor|by intros e He%elem_of_nil|by intros e He%elem_of_nil].
  - cbn [fst snd mbind option_bind] in *. subst tokens w. rewrite Nat2N.id in Hfrom, Hall. rewrite take_ge in Hfrom, Hall by done.
    exists kept. unfold lenN. by rewrite Nat2N.id, take_app_length.
Qed.
End dedup.

(** * Whole trees *)

Section trees.
Context {RS : Type} `{RangeSetLaws RS}.
Context (sort : list entry → list entry) `{HS : ByteSort sort}.

(** One entry per byte string. *)
Record kept_of (tokens kept : list entry) : Prop := {
  ko_sorted : entries_sorted kept;
  ko_from : ∀ e, e ∈ kept → e ∈ tokens;
  ko_all : ∀ e, e ∈ tokens → ∃ id, (id, e.2) ∈ kept;
}.

Lemma sort_and_dedup_ok tokens : ∃ kept, sort_and_dedup_tokens sort tokens = Some kept ∧ kept_of tokens kept.
Proof using HS.
  destruct (dedup_loop_ok (sort tokens) (bs_sorted tokens)) as (kept & Hkept & Hs & Hfrom & Hall).
  exists kept. split.
  - unfold sort_and_dedup_tokens. destruct (foldM _ _ _) as [[ts w]|]; exact Hkept.
  - split; [done| |]; [intros e He|intros e He].
    + rewrite <-(bs_perm tokens). by apply Hfrom.
    + apply Hall. by rewrite bs_perm.
Qed.

Lemma sorted_NoDup es : entries_sorted es → NoDup es.
Proof using.
  induction 1 as [|e es Hs IH He]; constructor; [|done]. intros Hin. rewrite Forall_forall in He.
  by apply (bytes_lt_irrefl e.2), (He e Hin).
Qed.

(** Without equal byte strings every entry is kept. *)
Lemma kept_perm tokens kept : kept_of tokens kept → NoDup tokens.*2 → kept ≡ₚ tokens.
Proof using.
  intros [Hs Hfrom Hall] Hnd. apply NoDup_Permutation; [by apply sorted_NoDup|by apply NoDup_fmap_1 in Hnd|].
  intros e. split; [apply Hfrom|]. intros He. destruct (Hall e He) as [id Hid].
  pose proof (Hfrom _ Hid) as Hin. apply list_elem_of_lookup in He as [i Hi]. apply list_elem_of_lookup in Hin as [j Hj].
  assert (i = j) as ->; [|rewrite Hi in Hj; by injection Hj as ->].
  apply (NoDup_lookup _ i j e.2 Hnd);
    [exact (list_lookup_fmap_Some_2 snd tokens i _ Hi)|exact (list_lookup_fmap_Some_2 snd tokens j _ Hj)].
Qed.

Lemma octets_kept tokens kept : kept_of tokens kept → octets tokens → octets kept.
Proof using.
  intros Hk. unfold octets. rewrite !Forall_forall. intros Ho e He. by apply Ho, (ko_from _ _ Hk).
Qed.

Lemma build_tree_ok tokens :
  octets tokens →
  ∃ (t : tree RS) kept, build sort tokens = Some t ∧ kept_of tokens kept ∧ holds t kept ∧
    Forall compact (children (root t)) ∧ max_token_id t = foldr N.max 0 kept.*1.
Proof using H0 HS.
  intros Ho. destruct (sort_and_dedup_ok tokens) as (kept & Hsort & Hkept).
  destruct (build_presorted_ok (RS := RS) kept (ko_sorted _ _ Hkept) (octets_kept _ _ Hkept Ho)) as (t & Ht & Hok & Hmax).
  exists t, kept. split; [|done]. unfold build, build_owned. rewrite Hsort. exact Ht.
Qed.

Lemma built_holds tokens (t : tree RS) :
  octets tokens → build sort tokens = Some t →
  ∃ kept, kept_of tokens kept ∧ holds t kept ∧ Forall compact (children (root t)).
Proof using H0 HS.
  intros Ho Ht. destruct (build_tree_ok tokens Ho) as (t' & kept & Ht' & Hkept & Hok & Hc & _). rewrite Ht in Ht'.
  injection Ht' as <-. eauto.
Qed.

(** A compact tree has less than two nodes per token. *)
Lemma compact_size (n : node RS) : compact n → size n + 1 ≤ 2 * lenN (tokens_of n).
Proof using.
  induction n as [id has pre cs ids msk IH] using node_ind_children. intros Hc. inversion Hc as [n Hor Hcs Heq]; subst n.
  cbn [has_token children] in Hor, Hcs. rewrite tokens_of_below, lenN_app. cbn [size]. unfold below. cbn [children].
  assert (Hsum : foldr (λ c m, size c + m) 0 cs + N.of_nat (length cs) ≤ 2 * lenN (concat (map tokens_of cs))).
  { clear -IH Hcs. induction cs as [|c cs IHcs]; [done|]. apply Forall_cons in IH as [Hc IH]. apply Forall_cons in Hcs as [Hcc Hcs].
    cbn [foldr map concat length]. rewrite lenN_app. specialize (IHcs IH Hcs). specialize (Hc Hcc). lia. }
  destruct has; cbn [has_token]; [unfold lenN at 1; cbn [length]; lia|].
  destruct Hor as [?|Hor]; [done|]. unfold lenN at 1. cbn [length]. lia.
Qed.

Lemma root_size (n : node RS) : Forall compact (children n) → size n ≤ 1 + 2 * lenN (tokens_of n).
Proof using.
  destruct n as [id has pre cs ids msk]. cbn [children]. intros Hcs. rewrite tokens_of_below, lenN_app. cbn [size]. unfold below. cbn [children].
  enough (foldr (λ c m, size c + m) 0 cs ≤ 2 * lenN (concat (map tokens_of cs))) by lia.
  induction Hcs as [|c cs Hc _ IH]; [done|]. cbn [foldr map concat]. rewrite lenN_app. pose proof (compact_size c Hc). lia.
Qed.

(** C32: the tree of a list of tokens is built without a panic, whatever order
    the sort gives to equal byte strings.  It holds one token per byte string,
    every node knows exactly the IDs and the edge bytes below it, and every node
    but the root has a token or branches. *)
Theorem prefix_tree_build_correct tokens :
  octets tokens →
  ∃ (t : tree RS) kept, build sort tokens = Some t ∧ kept_of tokens kept ∧
    wf (root t) ∧ tokens_of (root t) = kept ∧ Forall compact (children (root t)) ∧
    max_token_id t = foldr N.max 0 kept.*1 ∧ (NoDup tokens.*2 → kept ≡ₚ tokens).
Proof using H0 HS.
  intros Ho. destruct (build_tree_ok tokens Ho) as (t & kept & Ht & Hkept & Hok & Hc & Hmax).
  exists t, kept. split; [done|]. split; [done|]. split; [apply Hok|]. split; [apply Hok|]. split; [done|].
  split; [done|]. by apply kept_perm.
Qed.

(** C33: a byte string is found when it is a token, and only then; the ID is that
    of one of the tokens with these bytes. *)
Theorem find_token_correct tokens (t : tree RS) bytes :
  octets tokens → build sort tokens = Some t →
  match find_token t bytes with
  | Panics => False
  | Declines => ∀ id, (id, bytes) ∉ tokens
  | Gives id => (id, bytes) ∈ tokens
  end.
Proof using H0 HS.
  intros Ho Ht. destruct (built_holds tokens t Ho Ht) as (kept & Hkept & Hok & _).
  destruct (find_token_ok t kept bytes Hok) as [Hnp Hf]. destruct (find_token t bytes) as [| |id]; [done| |].
  - intros id Hin. destruct (ko_all _ _ Hkept _ Hin) as [id' Hid]. apply Hf in Hid. done.
  - apply (ko_from _ _ Hkept). by apply Hf.
Qed.

(** the longest token that starts a byte string is found. *)
Theorem find_longest_prefix_token_correct tokens (t : tree RS) bytes :
  octets tokens → build sort tokens = Some t →
  ∃ r, find_longest_prefix_token t bytes = Gives r ∧ longest_prefix tokens bytes r.
Proof using H0 HS.
  intros Ho Ht. destruct (built_holds tokens t Ho Ht) as (kept & Hkept & Hok & _).
  destruct (find_longest_ok t kept bytes Hok) as (r & Hr & Hlong). exists r. split; [done|].
  destruct r as [e|]; simpl in Hlong |- *.
  - destruct Hlong as (He & Hp & Hmax). split; [by apply (ko_from _ _ Hkept)|]. split; [done|]. intros e' He' Hp'.
    destruct (ko_all _ _ Hkept e' He') as [id Hid]. by apply (Hmax _ Hid).
  - intros e He Hp. destruct (ko_all _ _ Hkept e He) as [id Hid]. by apply (Hlong _ Hid).
Qed.

(** C34: the query gives the tokens a scan of all proper prefixes finds.  It
    never gives a part of them, and declines only when its work is limited to
    less than five steps per token. *)
Theorem proper_prefix_query_correct tokens (t : tree RS) mask limit :
  octets tokens → NoDup tokens.*1 → NoDup tokens.*2 → mask_ok mask → build sort tokens = Some t →
  match token_ids_with_proper_prefix_byte t mask limit with
  | Panics => False
  | Declines => lenN tokens < usize_max → limit < 3 + 5 * lenN tokens
  | Gives ids => ids ≡ₚ reference tokens mask
  end.
Proof using H0 HS.
  intros Ho Hid Hnd Hm Ht. destruct (built_holds tokens t Ho Ht) as (kept & Hkept & Hok & Hc).
  pose proof (kept_perm tokens kept Hkept Hnd) as Hperm.
  assert (Hid' : NoDup kept.*1) by (by rewrite Hperm).
  pose proof (query_ok mask Hm t kept limit Hok Hid') as Hq.
  assert (Hlen : lenN kept = lenN tokens) by (unfold lenN; by rewrite (Permutation_length Hperm)).
  destruct (token_ids_with_proper_prefix_byte t mask limit) as [| |ids]; [done| |].
  - intros Hl. rewrite Hlen in Hq. specialize (Hq Hl). pose proof (root_size (root t) Hc) as Hsize.
    rewrite (ho_tokens _ _ Hok), Hlen in Hsize. lia.
  - rewrite Hq. unfold reference. by rewrite Hperm.
Qed.
End trees.

(** * On a vocabulary *)

Definition sample : list entry :=
  [(7, [104; 105]); (3, [104]); (9, [104; 101; 108; 112]); (2, [104; 101; 108; 108; 111]); (5, []); (4, [104])].

Definition distinct : list entry := [(7, [104; 105]); (9, [104; 101; 108; 112]); (2, [104; 101; 108; 108; 111]); (5, [])].

Lemma octets_sample : octets sample.
Proof. by repeat constructor. Qed.

Lemma octets_distinct : octets distinct.
Proof. by repeat constructor. Qed.

(** The mask of [e], [f]. *)
Definition sample_mask : list N := insert_bytes_into_mask mask_empty [101; 102].

Lemma prefix_tree_build_correct_witness :
  ∃ (t : tree (gset N)) kept, build (merge_sort entry_le) sample = Some t ∧ kept_of sample kept ∧ tokens_of (root t) = kept.
Proof.
  destruct (prefix_tree_build_correct (RS := gset N) (merge_sort entry_le) sample octets_sample) as (t & kept & ? & ? & _ & ? & _).
  by exists t, kept.
Defined.

Lemma find_token_correct_witness :
  ∃ t : tree (gset N), build (merge_sort entry_le) sample = Some t ∧ find_token t [104; 101; 108; 112] = Gives 9 ∧ (9, [104; 101; 108; 112]) ∈ sample.
Proof.
  destruct (build (RS := gset N) (merge_sort entry_le) sample) as [t|] eqn:Ht; [|vm_compute in Ht; discriminate].
  exists t. pose proof (find_token_correct (merge_sort entry_le) sample t [104; 101; 108; 112] octets_sample Ht) as Hf.
  assert (Hg : find_token t [104; 101; 108; 112] = Gives 9).
  { assert (Hs : ((λ t : tree (gset N), find_token t [104; 101; 108; 112]) <$> build (merge_sort entry_le) sample) = Some (Gives 9)) by (vm_compute; reflexivity).
    rewrite Ht in Hs. by injection Hs. }
  rewrite Hg in Hf. done.
Defined.

Lemma find_longest_prefix_token_correct_witness :
  ∃ (t : tree (gset N)) r, build (merge_sort entry_le) sample = Some t ∧
    find_longest_prefix_token t [104; 101; 108] = Gives r ∧ longest_prefix sample [104; 101; 108] r.
Proof.
  destruct (build (RS := gset N) (merge_sort entry_le) sample) as [t|] eqn:Ht; [|vm_compute in Ht; discriminate].
  destruct (find_longest_prefix_token_correct (merge_sort entry_le) sample t [104; 101; 108] octets_sample Ht) as (r & ? & ?).
  by exists t, r.
Defined.

Lemma proper_prefix_query_correct_witness :
  ∃ t : tree (gset N), build (merge_sort entry_le) distinct = Some t ∧
    token_ids_with_proper_prefix_byte t sample_mask 100 = Gives [2; 9] ∧ [2; 9] ≡ₚ reference distinct sample_mask.
Proof.
  destruct (build (RS := gset N) (merge_sort entry_le) distinct) as [t|] eqn:Ht; [|vm_compute in Ht; discriminate].
  exists t. pose proof (proper_prefix_query_correct (merge_sort entry_le) distinct t sample_mask 100 octets_distinct) as Hf.
  assert (Hg : token_ids_with_proper_prefix_byte t sample_mask 100 = Gives [2; 9]).
  { assert (Hs : ((λ t : tree (gset N), token_ids_with_proper_prefix_byte t sample_mask 100) <$> build (merge_sort entry_le) distinct) = Some (Gives [2; 9])) by (vm_compute; reflexivity).
    rewrite Ht in Hs. by injection Hs. }
  rewrite Hg in Hf. split; [done|]. split; [done|]. apply Hf; [by apply (bool_decide_unpack _); vm_compute|by apply (bool_decide_unpack _); vm_compute|done|done].
Defined.
