(* ===== verification/Grammar.v ===== *)
(** Flat grammars (crates/glrmask-grammar/src/grammar/flat.rs): terminals, rules,
    and the question whether the start generates the empty word. *)

From stdpp Require Import strings.
From S2P Require Import Prelude Bits U8Set BitSet CharTransitions LexDfa Lang LexAst LexAstLang.

(** * Data *)

Inductive Symbol := Terminal (id : N) | Nonterminal (id : N).

#[export] Instance symbol_eq_dec : EqDecision Symbol.
Proof. solve_decision. Defined.

Definition nonterminal_id (s : Symbol) : option N :=
  match s with Nonterminal id => Some id | Terminal _ => None end.

Module Rule.
Record t := mk { lhs : N; rhs : list Symbol }.

Definition nonterminal_ids (r : t) : list N := lhs r :: omap nonterminal_id (rhs r).
End Rule.

Module TerminalDef.
(** [enum Terminal] *)
Inductive t :=
  | Literal (id : N) (bytes : list N)
  | Pattern (id : N) (pattern : string) (utf8 : bool)
  | Expr (id : N) (expr : Expr.t)
  (** Exact model tokens: events, not byte spellings. *)
  | SpecialToken (id token_id : N)
  | SpecialTokenRange (id start stop : N)
  | MarkerProbe (id marker_id : N).

Definition id (d : t) : N :=
  match d with
  | Literal id _ | Pattern id _ _ | Expr id _ | SpecialToken id _ | SpecialTokenRange id _ _ | MarkerProbe id _ => id
  end.
End TerminalDef.

Module DirectRegularState.
Record t := mk { is_accepting : bool; transitions : gmap N (list N); epsilons : list N }.
End DirectRegularState.

Module DirectRegularAutomaton.
Record t := mk { states : list DirectRegularState.t; start_states : list N }.
End DirectRegularAutomaton.

Module GrammarDef.
Record t := mk {
  rules : list Rule.t;
  start : N;
  terminals : list TerminalDef.t;
  nonterminal_names : gmap N string;
  terminal_names : gmap N string;
  ignore_terminal : option N;
  lexer_partitions : gmap N string;
  residual_isolation_classes : gmap N N;
  requires_global_terminal_observation : bool;
  direct_regular_automaton : option DirectRegularAutomaton.t;
}.

(** [GrammarDef { start, rules, terminals, ..Default::default() }] *)
Definition of_rules (start : N) (rules : list Rule.t) (terminals : list TerminalDef.t) : t :=
  mk rules start terminals ∅ ∅ None ∅ ∅ false None.

Definition num_terminals (g : t) : N := as_u32 (lenN (terminals g)).

Definition num_nonterminals (g : t) : N :=
  u32_wrapping_add (foldr N.max 0 (concat (Rule.nonterminal_ids <$> rules g) ++ [start g])) 1.

Definition terminal_by_id (g : t) (terminal : N) : option TerminalDef.t :=
  snd <$> list_find (λ d, TerminalDef.id d = terminal) (terminals g).
End GrammarDef.

Section nullability.
(** The parser of textual patterns; [None] is its failure. *)
Context (parse_regex : string → bool → option Expr.t).

(** ** Terminals *)

Definition is_nullable (d : TerminalDef.t) : option bool :=
  match d with
  | TerminalDef.Literal _ bytes => Some (bool_decide (bytes = []))
  | TerminalDef.Pattern _ pattern utf8 => e ← parse_regex pattern utf8; Expr.is_nullable e
  | TerminalDef.Expr _ expr => Expr.is_nullable expr
  | _ => Some false
  end.

Definition collect_nullable (ids : gset N) (d : TerminalDef.t) : option (gset N) :=
  b ← is_nullable d; Some (if (b : bool) then {[TerminalDef.id d]} ∪ ids else ids).

Definition nullable_terminals (g : GrammarDef.t) : option (gset N) := foldM collect_nullable ∅ (GrammarDef.terminals g).

(** ** The direct automaton *)

(** [if seen.insert(target) { reachable.push(target) }]; the queue is
    [reachable] from the cursor on. *)
Definition push_fresh (st : gset N * list N) (target : N) : gset N * list N :=
  let '(seen, queue) := st in
  if bool_decide (target ∈ seen) then st else ({[target]} ∪ seen, queue ++ [target]).

Definition empty_targets (nullable : gset N) (node : DirectRegularState.t) : list N :=
  DirectRegularState.epsilons node ++
  concat (filter (λ e, e.1 ∈ nullable) (bt_iter N.le (DirectRegularState.transitions node))).*2.

Definition direct_step (a : DirectRegularAutomaton.t) (nullable : gset N) (st : gset N * list N)
    : (gset N * list N) + bool :=
  let '(seen, queue) := st in
  match queue with
  | [] => inr false
  | state :: queue =>
      match (DirectRegularAutomaton.states a).[state] with
      | None => inl (seen, queue)
      | Some node =>
          if DirectRegularState.is_accepting node then inr true
          else inl (foldl push_fresh (seen, queue) (empty_targets nullable node))
      end
  end.

Definition direct_targets (a : DirectRegularAutomaton.t) (nullable : gset N) : list N :=
  concat (empty_targets nullable <$> DirectRegularAutomaton.states a).

(** Every start is visited, and every target once. *)
Definition direct_accepts_empty (a : DirectRegularAutomaton.t) (nullable : gset N) : option bool :=
  let starts := DirectRegularAutomaton.start_states a in
  match run (direct_step a nullable) (S (length starts + length (direct_targets a nullable))) (list_to_set starts, starts) with
  | inr b => Some b
  | inl _ => None
  end.

(** ** The rules *)

Definition usize_max : N := 18446744073709551615.

Definition add_dependent (dependents : gmap N (list N)) (nonterminal index : N) : gmap N (list N) :=
  <[nonterminal := default [] (dependents !! nonterminal) ++ [index]]> dependents.

(** The symbols of a rule up to the first terminal that is not nullable, which
    gives [None]. *)
Fixpoint scan_symbols (nullable : gset N) (index : N) (dependents : gmap N (list N)) (count : N) (rhs : list Symbol)
    : gmap N (list N) * option N :=
  match rhs with
  | [] => (dependents, Some count)
  | Terminal terminal :: rhs =>
      if bool_decide (terminal ∈ nullable) then scan_symbols nullable index dependents count rhs else (dependents, None)
  | Nonterminal nonterminal :: rhs =>
      scan_symbols nullable index (add_dependent dependents nonterminal index) (count + 1) rhs
  end.

Record counters := Counters {
  remaining : list N;
  dependents : gmap N (list N);
  nullable : gset N;
  queue : list N;
}.

Definition scan_rule (terminals : gset N) (st : counters) (entry : N * Rule.t) : counters :=
  let '(index, rule) := entry in
  let '(deps, count) := scan_symbols terminals index (dependents st) 0 (Rule.rhs rule) in
  match count with
  | None => Counters (remaining st) deps (nullable st) (queue st)
  | Some count =>
      let '(nullable, queue) :=
        if count =? 0 then push_fresh (nullable st, queue st) (Rule.lhs rule) else (nullable st, queue st) in
      Counters (alterN (λ _, count) (remaining st) index) deps nullable queue
  end.

Definition scan_rules (terminals : gset N) (g : GrammarDef.t) : counters :=
  foldl (scan_rule terminals) (Counters (replicate (length (GrammarDef.rules g)) usize_max) ∅ ∅ [])
    (enumerate (GrammarDef.rules g)).

(** One occurrence of a nullable nonterminal in a rule. *)
Definition release (rules : list Rule.t) (st : counters) (index : N) : option counters :=
  left ← (remaining st).[index];
  if (left =? usize_max) || (left =? 0) then Some st
  else
    let remaining := alterN (λ n, n - 1) (remaining st) index in
    if left - 1 =? 0 then
      rule ← rules.[index];
      let '(nullable, queue) := push_fresh (nullable st, queue st) (Rule.lhs rule) in
      Some (Counters remaining (dependents st) nullable queue)
    else Some (Counters remaining (dependents st) (nullable st) (queue st)).

Definition nullable_step (rules : list Rule.t) (st : counters) : counters + option (gset N) :=
  match queue st with
  | [] => inr (Some (nullable st))
  | nonterminal :: rest =>
      match foldM (release rules) (Counters (remaining st) (dependents st) (nullable st) rest)
              (default [] (dependents st !! nonterminal)) with
      | Some st => inl st
      | None => inr None
      end
  end.

(** A left side is queued once. *)
Definition nullable_nonterminals (terminals : gset N) (g : GrammarDef.t) : option (gset N) :=
  match run (nullable_step (GrammarDef.rules g)) (S (length (GrammarDef.rules g))) (scan_rules terminals g) with
  | inr r => r
  | inl _ => None
  end.

Definition start_is_nullable (g : GrammarDef.t) : option bool :=
  terminals ← nullable_terminals g;
  direct ← match GrammarDef.direct_regular_automaton g with
           | Some a => direct_accepts_empty a terminals
           | None => Some false
           end;
  if (direct : bool) then Some true
  else
    nonterminals ← nullable_nonterminals terminals g;
    Some (bool_decide (GrammarDef.start g ∈ nonterminals)).

(** * The language of a grammar *)

(** The byte words of a terminal; events have none. *)
Definition terminal_lang (d : TerminalDef.t) : lang :=
  match d with
  | TerminalDef.Literal _ bytes => lword bytes
  | TerminalDef.Pattern _ pattern utf8 => λ w, ∃ e, parse_regex pattern utf8 = Some e ∧ denote e w
  | TerminalDef.Expr _ expr => denote expr
  | _ => lempty
  end.

Definition terminal_word (g : GrammarDef.t) (terminal : N) : lang :=
  λ w, ∃ d, d ∈ GrammarDef.terminals g ∧ TerminalDef.id d = terminal ∧ terminal_lang d w.

Inductive generates (g : GrammarDef.t) : Symbol → list N → Prop :=
| generates_terminal t w : terminal_word g t w → generates g (Terminal t) w
| generates_rule r w : r ∈ GrammarDef.rules g → generates_all g (Rule.rhs r) w → generates g (Nonterminal (Rule.lhs r)) w
with generates_all (g : GrammarDef.t) : list Symbol → list N → Prop :=
| generates_nil : generates_all g [] []
| generates_cons s l u v : generates g s u → generates_all g l v → generates_all g (s :: l) (u ++ v).

(** The words along the direct automaton. *)
Inductive direct_from (g : GrammarDef.t) (a : DirectRegularAutomaton.t) : N → lang :=
| direct_end s node :
    (DirectRegularAutomaton.states a).[s] = Some node → DirectRegularState.is_accepting node = true → direct_from g a s []
| direct_epsilon s node t w :
    (DirectRegularAutomaton.states a).[s] = Some node → t ∈ DirectRegularState.epsilons node →
    direct_from g a t w → direct_from g a s w
| direct_terminal s node terminal targets t u w :
    (DirectRegularAutomaton.states a).[s] = Some node → DirectRegularState.transitions node !! terminal = Some targets →
    t ∈ targets → terminal_word g terminal u → direct_from g a t w → direct_from g a s (u ++ w).

Definition grammar_lang (g : GrammarDef.t) : lang := λ w,
  (∃ a s, GrammarDef.direct_regular_automaton g = Some a ∧ s ∈ DirectRegularAutomaton.start_states a ∧ direct_from g a s w) ∨
  generates g (Nonterminal (GrammarDef.start g)) w.
End nullability.
