(* ===== verification/GrammarCorrect.v ===== *)
(** Nullability of flat grammars: the counters over the rules and the search of
    the direct automaton decide whether the empty word is generated. *)

From stdpp Require Import strings.
From S2P Require Import Prelude Bits U8Set BitSet CharTransitions LexDfa Search Lang LexAst LexAstLang Grammar.

Lemma filter_none {A} (P : A → Prop) `{!∀ x, Decision (P x)} (l : list A) : (∀ x, x ∈ l → ¬ P x) → filter P l = [].
Proof.
  induction l as [|x l IH]; intros Hl; [done|]. rewrite filter_cons_False by (apply Hl; left). apply IH. intros y Hy. apply Hl. by right.
Qed.

Section nullability.
Context (parse_regex : string → bool → option Expr.t) (g : GrammarDef.t).

Scheme generates_mind := Minimality for generates Sort Prop
with generates_all_mind := Minimality for generates_all Sort Prop.
Combined Scheme generates_both from generates_mind, generates_all_mind.

(** The expressions of the terminals are ones whose nullability is decided. *)
Definition terminals_ok : Prop := ∀ d, d ∈ GrammarDef.terminals g →
  match d with
  | TerminalDef.Pattern _ pattern utf8 => ∃ e, parse_regex pattern utf8 = Some e ∧ nullable_ok e
  | TerminalDef.Expr _ expr => nullable_ok expr
  | _ => True
  end.

Abbreviation empty_word s := (generates parse_regex g s []).

(** * Terminals *)

Lemma terminal_nullable d :
  d ∈ GrammarDef.terminals g → terminals_ok →
  ∃ b, is_nullable parse_regex d = Some b ∧ (b = true ↔ terminal_lang parse_regex d []).
Proof.
  intros Hd Hok. specialize (Hok d Hd).
  destruct d as [id bytes|id pattern utf8|id expr|id token|id start stop|id marker]; cbn.
  - eexists. split; [done|]. rewrite bool_decide_eq_true. unfold lword. split; [by intros ->|done].
  - destruct Hok as (e & -> & He). destruct (is_nullable_spec e He) as (b & Hb & Hiff). exists b. split; [exact Hb|].
    rewrite Hiff. split; [by exists e|]. by intros (e' & [= <-] & ?).
  - by apply is_nullable_spec.
  - by exists false.
  - by exists false.
  - by exists false.
Qed.

Lemma nullable_terminals_ok :
  terminals_ok → ∃ T, nullable_terminals parse_regex g = Some T ∧ ∀ t, t ∈ T ↔ terminal_word parse_regex g t [].
Proof.
  intros Hok. unfold nullable_terminals, terminal_word.
  assert (H : ∀ l T0, (∀ d, d ∈ l → d ∈ GrammarDef.terminals g) →
    ∃ T, foldM (collect_nullable parse_regex) T0 l = Some T ∧
      ∀ t, t ∈ T ↔ t ∈ T0 ∨ ∃ d, d ∈ l ∧ TerminalDef.id d = t ∧ terminal_lang parse_regex d []).
  { induction l as [|d l IH]; intros T0 Hin; cbn [foldM].
    - exists T0. split; [done|]. intros t. split; [by left|]. intros [?|(d & Hd & _)]; [done|by apply elem_of_nil in Hd].
    - destruct (terminal_nullable d (Hin d ltac:(left)) Hok) as (b & Hb & Hiff).
      assert (Hstep : collect_nullable parse_regex T0 d = Some (if b then {[TerminalDef.id d]} ∪ T0 else T0)).
      { unfold collect_nullable. by rewrite Hb. }
      rewrite Hstep. cbn [mbind option_bind].
      destruct (IH (if b then {[TerminalDef.id d]} ∪ T0 else T0)) as (T & HT & Hspec); [intros; apply Hin; by right|].
      exists T. split; [exact HT|]. intros t. rewrite Hspec. setoid_rewrite elem_of_cons. destruct b.
      + rewrite elem_of_union, elem_of_singleton. split.
        * intros [[->|?]|(d' & ? & ?)]; [right; exists d; split; [by left|]; split; [done|by apply Hiff]|by left|right; eauto].
        * intros [?|(d' & [->|?] & <- & ?)]; [left; by right|left; by left|right; eauto].
      + split; [intros [?|(d' & ? & ?)]; [by left|right; eauto]|].
        intros [?|(d' & [->|?] & <- & Hw)]; [by left| |right; eauto]. by apply Hiff in Hw. }
  destruct (H (GrammarDef.terminals g) ∅ ltac:(done)) as (T & HT & Hspec). exists T. split; [exact HT|].
  intros t. rewrite Hspec. set_solver.
Qed.

Context (T : gset N) (HT : ∀ t, t ∈ T ↔ terminal_word parse_regex g t []).

(** * Queues *)

Lemma push_fresh_elem seen queue t :
  let '(seen', queue') := push_fresh (seen, queue) t in
  (∀ x, x ∈ seen' ↔ x ∈ seen ∨ x = t) ∧ (∀ x, x ∈ queue' ↔ x ∈ queue ∨ (x = t ∧ t ∉ seen)) ∧
  queue' = queue ++ (if bool_decide (t ∈ seen) then [] else [t]).
Proof using.
  clear HT. cbn [push_fresh]. case_bool_decide as Hin.
  - split; [intros x; split; [by left|by intros [?| ->]]|]. split; [|by rewrite app_nil_r].
    intros x. split; [by left|]. intros [?|[_ ?]]; done.
  - split; [set_solver|]. split; [|done]. intros x. rewrite elem_of_app, list_elem_of_singleton. naive_solver.
Qed.

(** * The direct automaton *)

Section direct.
Context (a : DirectRegularAutomaton.t).
Let starts := DirectRegularAutomaton.start_states a.

Definition silent (s t : N) : Prop :=
  ∃ node, (DirectRegularAutomaton.states a).[s] = Some node ∧ t ∈ empty_targets T node.

Definition accepting (s : N) : Prop :=
  ∃ node, (DirectRegularAutomaton.states a).[s] = Some node ∧ DirectRegularState.is_accepting node = true.

Abbreviation silently := (reached silent (λ s, s ∈ starts)).

Lemma elem_of_empty_targets node t :
  t ∈ empty_targets T node ↔
    t ∈ DirectRegularState.epsilons node ∨
    ∃ terminal targets, terminal ∈ T ∧ DirectRegularState.transitions node !! terminal = Some targets ∧ t ∈ targets.
Proof using.
  unfold empty_targets. rewrite elem_of_app. f_equiv. rewrite list_elem_of_In, in_concat. setoid_rewrite <-list_elem_of_In. split.
  - intros (ts & ([k ts'] & -> & [Hk Hin]%list_elem_of_filter)%list_elem_of_fmap & Ht). exists k, ts'.
    split; [done|]. split; [by apply (elem_of_bt_iter N.le)|done].
  - intros (k & ts & Hk & Hts & Ht). exists ts. split; [|done]. apply list_elem_of_fmap. exists (k, ts).
    split; [done|]. apply list_elem_of_filter. split; [done|]. by apply (elem_of_bt_iter N.le).
Qed.

Lemma silent_word s t : silent s t → direct_from parse_regex g a t [] → direct_from parse_regex g a s [].
Proof using HT.
  intros (node & Hn & [Ht|(k & ts & Hk & Hts & Ht)]%elem_of_empty_targets) Hw.
  - by eapply direct_epsilon.
  - change (@nil N) with (@nil N ++ []). eapply direct_terminal; [done|done|done|by apply HT|done].
Qed.

Lemma direct_empty_ok s : direct_from parse_regex g a s [] ↔ ∃ t, rtc silent s t ∧ accepting t.
Proof using HT.
  split.
  - enough (H : ∀ w, direct_from parse_regex g a s w → w = [] → ∃ t, rtc silent s t ∧ accepting t) by (by intros ?%H).
    intros w Hd Hw. induction Hd as [s node Hn Ha|s node t w Hn Ht _ IH|s node k ts t u w Hn Hts Ht Hu _ IH].
    + exists s. split; [done|by exists node].
    + destruct (IH Hw) as (t' & Hr & Ha). exists t'. split; [|done]. eapply rtc_l; [|done].
      exists node. split; [done|]. apply elem_of_empty_targets. by left.
    + apply app_eq_nil in Hw as [-> ->]. destruct (IH eq_refl) as (t' & Hr & Ha). exists t'. split; [|done].
      eapply rtc_l; [|done]. exists node. split; [done|]. apply elem_of_empty_targets. right. exists k, ts. by rewrite HT.
  - intros (t & Hr & Ha). induction Hr as [s|s u t Hsu _ IH]; [|by eapply silent_word; [|apply IH]].
    destruct Ha as (node & ? & ?). by eapply direct_end.
Qed.

Definition universe : gset N := list_to_set (direct_targets a T).

Lemma silent_universe s t : silent s t → t ∈ universe.
Proof using.
  intros (node & Hn & Ht). unfold universe, direct_targets. rewrite elem_of_list_to_set, list_elem_of_In, in_concat.
  exists (empty_targets T node). rewrite <-!list_elem_of_In. split; [|done]. apply list_elem_of_fmap. exists node.
  split; [done|]. apply nthN_elem_of. eauto.
Qed.

(** Everything seen is queued or was expanded without success. *)
Record direct_inv (pending : list N) (st : gset N * list N) (m : nat) : Prop := {
  dv_starts : ∀ s, s ∈ starts → s ∈ st.1;
  dv_reached : ∀ s, s ∈ st.1 ∨ s ∈ st.2 → silently s;
  dv_done : ∀ s, s ∈ st.1 → s ∉ st.2 → ¬ accepting s ∧ ∀ t, silent s t → t ∈ st.1 ∨ t ∈ pending;
  dv_measure : (length st.2 + size (universe ∖ st.1) = m)%nat;
}.

Lemma direct_push_ok pending t st m :
  silently t → t ∈ universe → direct_inv (t :: pending) st m → direct_inv pending (push_fresh st t) m.
Proof using.
  clear HT.
  destruct st as [seen queue]. intros Ht Hu [H1 H2 H3 H4]. pose proof (push_fresh_elem seen queue t) as Hp.
  destruct (push_fresh (seen, queue) t) as [seen' queue']. destruct Hp as (Hs & Hq & Heq). cbn [fst snd] in *.
  split; cbn [fst snd].
  - intros s Hin. rewrite Hs. left. by apply H1.
  - intros s. rewrite Hs, Hq. intros [[?| ->]|[?|[-> _]]]; [apply H2; by left|done|apply H2; by right|done].
  - intros s. rewrite Hs, Hq. intros Hin Hni. destruct (decide (s ∈ seen)) as [Hse|Hne].
    + destruct (H3 s Hse) as [Ha Hd]; [by intros ?; apply Hni; left|]. split; [done|]. intros t' Ht'. rewrite Hs.
      destruct (Hd t' Ht') as [|[->|]%elem_of_cons]; auto.
    + destruct Hin as [?| ->]; [done|]. destruct Hni. by right.
  - subst queue'. case_bool_decide as Hin.
    + rewrite app_nil_r. replace seen' with seen; [done|]. apply leibniz_equiv. intros x. rewrite Hs. set_solver.
    + assert (universe ∖ seen = {[t]} ∪ universe ∖ seen') as Hsz.
      { apply leibniz_equiv. intros x. rewrite elem_of_union, !elem_of_difference, elem_of_singleton, Hs.
        destruct (decide (x = t)) as [->|]; naive_solver. }
      rewrite Hsz, size_union, size_singleton in H4.
      * rewrite length_app. cbn [length]. lia.
      * intros x. rewrite elem_of_singleton, elem_of_difference, Hs. naive_solver.
Qed.

Lemma direct_push_all_ok targets st m :
  (∀ t, t ∈ targets → silently t ∧ t ∈ universe) → direct_inv targets st m → direct_inv [] (foldl push_fresh st targets) m.
Proof using.
  revert st. induction targets as [|t targets IH]; intros st Ht Hinv; [done|]. cbn [foldl].
  apply IH; [intros; apply Ht; by right|]. destruct (Ht t ltac:(left)). by apply direct_push_ok.
Qed.

Lemma direct_step_ok st m :
  direct_inv [] st m →
  match direct_step a T st with
  | inl st' => ∃ m', direct_inv [] st' m' ∧ (m' < m)%nat
  | inr b => b = true ↔ ∃ s, silently s ∧ accepting s
  end.
Proof using.
  destruct st as [seen [|s queue]]; intros [H1 H2 H3 H4]; cbn [direct_step fst snd] in *.
  - split; [done|]. intros (s & Hr & Ha). assert (Hin : s ∈ seen); [|by destruct (H3 s Hin) as [? _]; [intros ?%elem_of_nil|]].
    clear Ha. destruct Hr as (r & Hr & Hrs). apply H1 in Hr. induction Hrs as [|x y z Hxy _ IH]; [done|].
    apply IH. destruct (H3 x Hr) as [_ Hd]; [by intros ?%elem_of_nil|]. destruct (Hd y Hxy) as [|?%elem_of_nil]; done.
  - assert (Hsr : silently s) by (apply H2; right; left).
    destruct ((DirectRegularAutomaton.states a).[s]) as [node|] eqn:En.
    + destruct (DirectRegularState.is_accepting node) eqn:Ea; [split; [intros _; exists s; split; [done|by exists node]|done]|].
      exists (m - 1)%nat. cbn [length] in H4. split; [|lia]. apply direct_push_all_ok.
      * intros t Ht. assert (silent s t) by (by exists node). split; [by eapply reached_step|by eapply silent_universe].
      * split; cbn [fst snd]; [done| | |lia].
        -- intros x [?|?]; apply H2; [by left|right; by right].
        -- intros x Hx Hq. destruct (decide (x = s)) as [->|Hne].
           ++ split; [intros (n & Hn & ?); congruence|]. intros t (n & Hn & ?). right. congruence.
           ++ destruct (H3 x Hx) as [Ha Hd]; [by intros [?|?]%elem_of_cons|]. split; [done|]. intros t Ht.
              destruct (Hd t Ht) as [|?%elem_of_nil]; [by left|done].
    + exists (m - 1)%nat. cbn [length] in H4. split; [|lia]. split; cbn [fst snd]; [done| | |lia].
      * intros x [?|?]; apply H2; [by left|right; by right].
      * intros x Hx Hq. destruct (decide (x = s)) as [->|Hne].
        -- split; [intros (n & Hn & ?); congruence|]. intros t (n & Hn & ?). congruence.
        -- apply H3; [done|by intros [?|?]%elem_of_cons].
Qed.

Lemma direct_nullable_ok :
  ∃ b, direct_accepts_empty a T = Some b ∧ (b = true ↔ ∃ s, s ∈ starts ∧ direct_from parse_regex g a s []).
Proof using HT.
  unfold direct_accepts_empty. fold starts.
  destruct (run_terminates (direct_step a T) (direct_inv []) (S (length starts + length (direct_targets a T)))
    (list_to_set starts, starts) (length starts + size (universe ∖ list_to_set starts))) as (b & st & m & -> & Hinv & Hexit).
  - intros st st' m Hinv Hstep. pose proof (direct_step_ok st m Hinv) as Hok. rewrite Hstep in Hok. exact Hok.
  - split; cbn [fst snd]; [|by intros s [Hs%elem_of_list_to_set|Hs]; exists s| |done].
    + intros s Hs. by apply elem_of_list_to_set.
    + intros s Hs%elem_of_list_to_set Hns. done.
  - assert (size (universe ∖ list_to_set starts) ≤ length (direct_targets a T))%nat.
    { etrans; [apply subseteq_size, subseteq_difference_l; reflexivity|]. unfold universe.
apply size_list_to_set_le. }
    pose proof (pow2_S_gt (length starts + length (direct_targets a T))). lia.
  - exists b. split; [done|]. pose proof (direct_step_ok st m Hinv) as Hok. rewrite Hexit in Hok. rewrite Hok.
    setoid_rewrite direct_empty_ok. split.
    + intros (s & (r & Hr & Hrs) & Ha). eauto.
    + intros (r & Hr & t & Hrt & Ha). exists t. split; [by exists r|done].
Qed.
End direct.
(** * The rules *)

(** A rule without a terminal that must be spelled, and its nonterminals. *)
Definition possible (rhs : list Symbol) : bool :=
  forallb (λ s, match s with Terminal t => bool_decide (t ∈ T) | Nonterminal _ => true end) rhs.
Definition nts (rhs : list Symbol) : list N := omap nonterminal_id rhs.

Definition times (i : N) (l : list N) : N := lenN (filter (λ j, j = i) l).
(** The nonterminals of a rule that are not expanded yet. *)
Definition open_nts (rhs : list Symbol) (popped : list N) : N := lenN (filter (λ n, n ∉ popped) (nts rhs)).

Lemma times_nil i : times i [] = 0.
Proof using. done. Qed.

Lemma times_app i l k : times i (l ++ k) = times i l + times i k.
Proof using. unfold times. by rewrite filter_app, lenN_app. Qed.

Lemma times_cons i j l : times i (j :: l) = (if decide (j = i) then 1 else 0) + times i l.
Proof using. unfold times. rewrite filter_cons. case_decide; unfold lenN; simpl; lia. Qed.

Lemma times_pos i l : i ∈ l → 0 < times i l.
Proof using.
  intros Hi. unfold times. assert (i ∈ filter (λ j, j = i) l) as Hin by (by apply list_elem_of_filter).
  destruct (filter _ l); [by apply elem_of_nil in Hin|]. unfold lenN. simpl. lia.
Qed.

(** What is registered for a nonterminal. *)
Definition users (deps : gmap N (list N)) (n : N) : list N := default [] (deps !! n).

Lemma users_add deps m i n : users (add_dependent deps m i) n = users deps n ++ (if decide (m = n) then [i] else []).
Proof using.
  unfold users, add_dependent. rewrite lookup_insert. destruct (decide (m = n)) as [->|]; [done|]. by rewrite app_nil_r.
Qed.

Lemma scan_symbols_ok index rhs deps count :
  let '(deps', r) := scan_symbols T index deps count rhs in
  (∀ i n, i ≠ index → times i (users deps' n) = times i (users deps n)) ∧
  (∀ i n, i ∈ users deps' n → i ∈ users deps n ∨ i = index) ∧
  if possible rhs
  then r = Some (count + lenN (nts rhs)) ∧ ∀ n, times index (users deps' n) = times index (users deps n) + times n (nts rhs)
  else r = None.
Proof using.
  clear HT. revert deps count. induction rhs as [|[t|m] rhs IH]; intros deps count; cbn [scan_symbols possible forallb nts omap list_omap nonterminal_id].
  - split; [done|]. split; [by left|]. split; [unfold lenN; simpl; f_equal; lia|]. intros n. unfold times, lenN. simpl. lia.
  - case_bool_decide as Ht; [exact (IH deps count)|]. split; [done|]. split; [by left|]. done.
  - specialize (IH (add_dependent deps m index) (count + 1)).
    destruct (scan_symbols T index (add_dependent deps m index) (count + 1) rhs) as [deps' r].
    destruct IH as (H1 & H2 & H3). split; [|split].
    + intros i n Hi. rewrite H1 by done. rewrite users_add, times_app. case_decide; [|unfold times at 2, lenN; simpl; lia].
      rewrite times_cons, decide_False by done. unfold times at 2, lenN. simpl. lia.
    + intros i n Hi. destruct (H2 i n Hi) as [Hin|]; [|by right]. rewrite users_add in Hin. apply elem_of_app in Hin as [?|Hin]; [by left|].
      case_decide; [|by apply elem_of_nil in Hin]. apply list_elem_of_singleton in Hin. by right.
    + cbn [andb]. fold (possible rhs). fold (nts rhs). destruct (possible rhs); [|done]. destruct H3 as [-> H3]. split.
      * f_equal. unfold lenN. simpl. lia.
      * intros n. rewrite H3, users_add, times_app, times_cons. case_decide as Hm.
        -- rewrite times_cons, decide_True by done. unfold times at 2, lenN. simpl. lia.
        -- unfold times at 2, lenN. simpl. lia.
Qed.

Abbreviation rules := (GrammarDef.rules g).
Abbreviation row i r := (rules.[i] = Some r).

(** The counters after [popped], inside the expansion of [x] when [part] of its
    users are done. *)
Record counters_ok (popped part : list N) (st : counters) : Prop := {
  co_length : lenN (remaining st) = lenN rules;
  co_users : ∀ i n r, row i r → possible (Rule.rhs r) = true → times i (users (dependents st) n) = times n (nts (Rule.rhs r));
  co_range : ∀ i n, i ∈ users (dependents st) n → i < lenN rules;
  co_open : ∀ i r, row i r → possible (Rule.rhs r) = true →
    ∃ left, (remaining st).[i] = Some left ∧ left + times i part = open_nts (Rule.rhs r) popped;
  co_stuck : ∀ i r, row i r → possible (Rule.rhs r) = false → (remaining st).[i] = Some usize_max;
  co_sound : ∀ n, n ∈ nullable st → empty_word (Nonterminal n);
  co_zero : ∀ i r, row i r → possible (Rule.rhs r) = true → (remaining st).[i] = Some 0 → Rule.lhs r ∈ nullable st;
}.

Definition queue_ok (popped : list N) (st : counters) : Prop :=
  NoDup (popped ++ queue st) ∧ (∀ n, n ∈ nullable st ↔ n ∈ popped ++ queue st) ∧ (∀ n, n ∈ nullable st → n ∈ Rule.lhs <$> rules).

Lemma generates_all_empty l : generates_all parse_regex g l [] ↔ Forall (λ s, empty_word s) l.
Proof using.
  split.
  - enough (H : ∀ w, generates_all parse_regex g l w → w = [] → Forall (λ s, empty_word s) l) by (by intros ?%H).
    intros w Hw. induction Hw as [|s l u v Hs _ IH]; [constructor|]. intros [-> ->]%app_eq_nil. constructor; auto.
  - induction 1 as [|s l Hs _ IH]; [constructor|]. change (@nil N) with (@nil N ++ []). by constructor.
Qed.

Lemma rule_empty r :
  r ∈ rules → possible (Rule.rhs r) = true → (∀ n, n ∈ nts (Rule.rhs r) → empty_word (Nonterminal n)) →
  empty_word (Nonterminal (Rule.lhs r)).
Proof using HT.
  intros Hr Hp Hn. constructor; [done|]. apply generates_all_empty. apply Forall_forall. intros [t|n] Hs.
  - constructor. apply HT. unfold possible in Hp. rewrite forallb_forall in Hp. apply list_elem_of_In in Hs.
    specialize (Hp _ Hs). by apply bool_decide_eq_true in Hp.
  - apply Hn. apply list_elem_of_omap. by exists (Nonterminal n).
Qed.

(** A left side becomes nullable. *)
Lemma push_queue_ok popped rem deps null q n :
  queue_ok popped (Counters rem deps null q) → n ∈ Rule.lhs <$> rules →
  let '(null', q') := push_fresh (null, q) n in queue_ok popped (Counters rem deps null' q').
Proof using.
  clear HT. intros (Hnd & Hiff & Hlhs) Hn. pose proof (push_fresh_elem null q n) as Hp.
  destruct (push_fresh (null, q) n) as [null' q']. destruct Hp as (Hs & _ & ->). unfold queue_ok in *. cbn [nullable queue] in *.
  split; [|split].
  - case_bool_decide as Hin; [by rewrite app_nil_r|]. rewrite app_assoc. apply NoDup_app. split; [done|]. split; [|apply NoDup_singleton].
    intros x Hx ->%list_elem_of_singleton. by apply Hin, Hiff.
  - intros x. rewrite Hs, Hiff. case_bool_decide as Hin; rewrite !elem_of_app.
    + rewrite elem_of_nil. split; [intros [?| ->]; [tauto|]|tauto]. apply Hiff, elem_of_app in Hin. tauto.
    + rewrite list_elem_of_singleton. tauto.
  - intros x. rewrite Hs. intros [?| ->]; auto.
Qed.

(** ** Scanning the rules *)

Lemma scan_rules_prefix l k :
  rules = l ++ k → Forall (λ r, lenN (nts (Rule.rhs r)) < usize_max) rules →
  let st := foldl (scan_rule T) (Counters (replicate (length rules) usize_max) ∅ ∅ []) (enumerate l) in
  lenN (remaining st) = lenN rules ∧
  (∀ i n r, i < lenN l → row i r → possible (Rule.rhs r) = true → times i (users (dependents st) n) = times n (nts (Rule.rhs r))) ∧
  (∀ i n, i ∈ users (dependents st) n → i < lenN l) ∧
  (∀ i r, i < lenN l → row i r → possible (Rule.rhs r) = true → (remaining st).[i] = Some (lenN (nts (Rule.rhs r)))) ∧
  (∀ i, lenN l ≤ i → i < lenN rules → (remaining st).[i] = Some usize_max) ∧
  (∀ i r, row i r → possible (Rule.rhs r) = false → (remaining st).[i] = Some usize_max) ∧
  (∀ n, n ∈ nullable st → empty_word (Nonterminal n)) ∧
  (∀ i r, i < lenN l → row i r → possible (Rule.rhs r) = true → nts (Rule.rhs r) = [] → Rule.lhs r ∈ nullable st) ∧
  queue_ok [] st.
Proof using HT.
  intros Hl Hbig. revert k Hl. induction l as [|r l IH] using rev_ind; intros k Hl; cbn zeta.
  - cbn. unfold users. setoid_rewrite lookup_empty. cbn. split; [apply lenN_replicate|].
    assert (Hno : ∀ i, ¬ i < lenN (@nil Rule.t)) by (intros i Hi; by apply N.nlt_0_r in Hi).
    split; [intros i n r Hi; by destruct (Hno i)|]. split; [by intros ? ? ?%elem_of_nil|].
    split; [intros i r Hi; by destruct (Hno i)|]. split; [|split; [|split; [set_solver|split; [intros i r Hi; by destruct (Hno i)|]]]].
    + intros i _ Hi. rewrite nthN_replicate. by rewrite (proj2 (N.ltb_lt _ _)) by done.
    + intros i r Hr%nthN_lt _. rewrite nthN_replicate. by rewrite (proj2 (N.ltb_lt _ _)) by done.
    + unfold queue_ok. cbn. split; [constructor|]. split; [|set_solver]. intros n. rewrite elem_of_nil. set_solver.
  - specialize (IH (r :: k) ltac:(by rewrite Hl, <-app_assoc)). cbn zeta in IH.
    rewrite enumerate_snoc, foldl_app. cbn [foldl].
    destruct (foldl (scan_rule T) _ (enumerate l)) as [rem deps null q]. cbn [remaining dependents nullable] in IH.
    destruct IH as (H1 & H2 & H3 & H4 & H5 & H6 & H7 & H8 & H9).
    assert (Hrow : row (lenN l) r) by (rewrite Hl, <-app_assoc; unfold lenN; rewrite nthN_of_nat; by apply list_lookup_middle).
    assert (Hlt : lenN l < lenN rules) by (by apply nthN_lt in Hrow).
    assert (Hlook : ∀ i r', i < lenN (l ++ [r]) → row i r' → i = lenN l ∧ r' = r ∨ i < lenN l).
    { intros i r' Hi Hr. rewrite lenN_snoc in Hi. destruct (decide (i = lenN l)) as [->|]; [left; split; [done|congruence]|right; lia]. }
    cbn [scan_rule dependents remaining nullable queue].
    pose proof (scan_symbols_ok (lenN l) (Rule.rhs r) deps 0) as Hscan.
    destruct (scan_symbols T (lenN l) deps 0 (Rule.rhs r)) as [deps' count]. destruct Hscan as (S1 & S2 & S3).
    assert (Hnew : ∀ n, times (lenN l) (users deps n) = 0).
    { intros n. unfold times. rewrite filter_none; [done|]. intros j Hj ->. apply H3 in Hj. lia. }
    assert (Husers : ∀ i n, i ∈ users deps' n → i < lenN (l ++ [r])).
    { intros i n Hi. rewrite lenN_snoc. destruct (S2 i n Hi) as [?%H3| ->]; lia. }
    assert (Hold : ∀ i n r', i < lenN l → row i r' → possible (Rule.rhs r') = true → times i (users deps' n) = times n (nts (Rule.rhs r'))).
    { intros i n r' Hi Hr' Hp'. rewrite S1 by lia. by apply H2. }
    destruct (possible (Rule.rhs r)) eqn:Hp.
    + destruct S3 as [-> S3]. rewrite N.add_0_l in *.
      assert (Hcount : ∀ i r', i < lenN (l ++ [r]) → row i r' → possible (Rule.rhs r') = true →
        (alterN (λ _, lenN (nts (Rule.rhs r))) rem (lenN l)).[i] = Some (lenN (nts (Rule.rhs r')))).
      { intros i r' Hi Hr' Hp'. rewrite nthN_alterN. destruct (Hlook i r' Hi Hr') as [[-> ->]|Hlt'].
        - rewrite N.eqb_refl, H5 by lia. done.
        - rewrite (proj2 (N.eqb_neq _ _)) by lia. by apply H4. }
      assert (Hq : let '(null', q') := (if lenN (nts (Rule.rhs r)) =? 0 then push_fresh (null, q) (Rule.lhs r) else (null, q)) in
        queue_ok [] (Counters (alterN (λ _, lenN (nts (Rule.rhs r))) rem (lenN l)) deps' null' q') ∧
        (∀ n, n ∈ null' ↔ n ∈ null ∨ (nts (Rule.rhs r) = [] ∧ n = Rule.lhs r))).
      { destruct (N.eqb_spec (lenN (nts (Rule.rhs r))) 0) as [Hz|Hz].
        - pose proof (push_queue_ok [] (alterN (λ _, lenN (nts (Rule.rhs r))) rem (lenN l)) deps' null q (Rule.lhs r) H9) as Hpq.
          pose proof (push_fresh_elem null q (Rule.lhs r)) as Hpf. destruct (push_fresh (null, q) (Rule.lhs r)) as [null' q'].
          split; [apply Hpq, list_elem_of_fmap; exists r; split; [done|]; apply nthN_elem_of; eauto|].
          destruct Hpf as [Hpf _]. intros n. rewrite Hpf. assert (nts (Rule.rhs r) = []) by (by destruct (nts _)). tauto.
        - split; [exact H9|]. intros n. split; [by left|]. intros [?|[Hnil _]]; [done|]. by rewrite Hnil in Hz. }
      destruct (if lenN (nts (Rule.rhs r)) =? 0 then push_fresh (null, q) (Rule.lhs r) else (null, q)) as [null' q'].
      destruct Hq as [Hq Hnull]. cbn [remaining dependents nullable].
      split; [by rewrite lenN_alterN|]. split; [|split; [exact Husers|split; [exact Hcount|split; [|split; [|split; [|split; [|exact Hq]]]]]]].
      * intros i n r' Hi Hr' Hp'. destruct (Hlook i r' Hi Hr') as [[-> ->]|Hlt']; [by rewrite S3, Hnew|by apply Hold].
      * intros i Hi Hi'. rewrite lenN_snoc in Hi. rewrite nthN_alterN, (proj2 (N.eqb_neq _ _)) by lia. apply H5; lia.
      * intros i r' Hr' Hp'. rewrite nthN_alterN. destruct (N.eqb_spec i (lenN l)) as [->|]; [congruence|by apply (H6 i r')].
      * intros n [Hn|[Hnil ->]]%Hnull; [by apply H7|]. apply rule_empty; [apply nthN_elem_of; eauto|done|].
        rewrite Hnil. by intros n ?%elem_of_nil.
      * intros i r' Hi Hr' Hp' Hnil. apply Hnull. destruct (Hlook i r' Hi Hr') as [[-> ->]|Hlt']; [by right|left; by apply (H8 i r')].
    + subst count. cbn [remaining dependents nullable].
      split; [done|]. split; [|split; [exact Husers|split; [|split; [|split; [exact H6|split; [exact H7|split; [|exact H9]]]]]]].
      * intros i n r' Hi Hr' Hp'. destruct (Hlook i r' Hi Hr') as [[-> ->]|Hlt']; [congruence|by apply Hold].
      * intros i r' Hi Hr' Hp'. destruct (Hlook i r' Hi Hr') as [[-> ->]|Hlt']; [congruence|by apply H4].
      * intros i Hi Hi'. rewrite lenN_snoc in Hi. apply H5; lia.
      * intros i r' Hi Hr' Hp' Hnil. destruct (Hlook i r' Hi Hr') as [[-> ->]|Hlt']; [congruence|by apply (H8 i r')].
Qed.
Context (Hbig : Forall (λ r, lenN (nts (Rule.rhs r)) < usize_max) rules).

Lemma open_start rhs : open_nts rhs [] = lenN (nts rhs).
Proof using.
  unfold open_nts. f_equal. clear HT Hbig. induction (nts rhs) as [|n l IH]; [done|]. rewrite filter_cons_True by (by intros ?%elem_of_nil).
  by rewrite IH.
Qed.

(** ** Expanding a nonterminal *)

Lemma open_snoc rhs popped x : x ∉ popped → open_nts rhs popped = times x (nts rhs) + open_nts rhs (popped ++ [x]).
Proof using.
  clear HT Hbig. intros Hx. unfold open_nts. induction (nts rhs) as [|n l IH]; [done|].
  rewrite times_cons, !filter_cons. destruct (decide (n = x)) as [->|Hne].
  - rewrite decide_True by done. rewrite decide_False by (intros H; apply H, elem_of_app; right; by left).
    unfold lenN in *. simpl. lia.
  - destruct (decide (n ∉ popped)) as [Hn|Hn].
    + rewrite decide_True by (rewrite elem_of_app, list_elem_of_singleton; tauto). unfold lenN in *. simpl. lia.
    + rewrite decide_False by (rewrite elem_of_app; tauto). unfold lenN in *. lia.
Qed.

Lemma open_zero rhs popped : open_nts rhs popped = 0 ↔ ∀ n, n ∈ nts rhs → n ∈ popped.
Proof using.
  clear HT Hbig. unfold open_nts. induction (nts rhs) as [|n l IH]; [split; [by intros _ ? ?%elem_of_nil|done]|].
  rewrite filter_cons. case_decide as Hn.
  - split; [unfold lenN; simpl; lia|]. intros H. destruct Hn. apply H. left.
  - rewrite IH. setoid_rewrite elem_of_cons. split; [|by auto]. intros H m [->|Hm]; [|by apply H].
    exact Hn.
Qed.

Lemma release_ok popped x done_ index rest st :
  users (dependents st) x = done_ ++ index :: rest → x ∉ popped →
  counters_ok popped done_ st → queue_ok (popped ++ [x]) st →
  ∃ st', release rules st index = Some st' ∧ counters_ok popped (done_ ++ [index]) st' ∧ queue_ok (popped ++ [x]) st' ∧
    dependents st' = dependents st.
Proof using HT Hbig.
  intros Hds Hx [C1 C2 C3 C4 C5 C6 C7] Hq.
  assert (Hi : index < lenN rules) by (apply (C3 index x); rewrite Hds; apply elem_of_app; right; left).
  destruct (proj1 (nthN_Some_lt rules index) Hi) as [r Hr].
  assert (Hother : ∀ i, times i (done_ ++ [index]) = times i done_ + (if decide (index = i) then 1 else 0)).
  { intros i. rewrite times_app, times_cons, times_nil. lia. }
  unfold release. destruct (possible (Rule.rhs r)) eqn:Hp.
  - destruct (C4 index r Hr Hp) as (left & Hleft & Hsum). rewrite Hleft. cbn [mbind option_bind].
    assert (Huse : times index done_ + 1 ≤ times x (nts (Rule.rhs r))).
    { rewrite <-(C2 index x r Hr Hp), Hds, times_app, times_cons, decide_True by done. lia. }
    pose proof (open_snoc (Rule.rhs r) popped x Hx) as Hopen.
    assert (Hle : open_nts (Rule.rhs r) popped ≤ lenN (nts (Rule.rhs r))).
    { unfold open_nts, lenN. pose proof (length_filter (λ n, n ∉ popped) (nts (Rule.rhs r))). lia. }
    rewrite Forall_forall in Hbig. pose proof (Hbig r ltac:(apply nthN_elem_of; eauto)) as Hsmall.
    rewrite (proj2 (N.eqb_neq left usize_max)) by lia. rewrite (proj2 (N.eqb_neq left 0)) by lia. cbn [orb].
    set (rem := alterN (λ n, n - 1) (remaining st) index).
    assert (Hrem : ∀ i, rem.[i] = if i =? index then Some (left - 1) else (remaining st).[i]).
    { intros i. unfold rem. rewrite nthN_alterN. destruct (N.eqb_spec i index) as [->|]; [by rewrite Hleft|done]. }
    assert (Hopen' : ∀ i r', row i r' → possible (Rule.rhs r') = true →
      ∃ left', rem.[i] = Some left' ∧ left' + times i (done_ ++ [index]) = open_nts (Rule.rhs r') popped).
    { intros i r' Hr' Hp'. rewrite Hrem, Hother. destruct (N.eqb_spec i index) as [->|Hne].
      - exists (left - 1). split; [done|]. rewrite decide_True by done. assert (r' = r) as -> by congruence. lia.
      - destruct (C4 i r' Hr' Hp') as (left' & ? & ?). exists left'. split; [done|]. rewrite decide_False by done. lia. }
    assert (Hstuck : ∀ i r', row i r' → possible (Rule.rhs r') = false → rem.[i] = Some usize_max).
    { intros i r' Hr' Hp'. rewrite Hrem. destruct (N.eqb_spec i index) as [->|]; [congruence|by apply (C5 i r')]. }
    destruct (N.eqb_spec (left - 1) 0) as [Hz|Hz].
    + rewrite Hr. cbn [mbind option_bind].
      assert (Hempty : empty_word (Nonterminal (Rule.lhs r))).
      { apply rule_empty; [apply nthN_elem_of; eauto|done|]. intros n Hn. apply C6. destruct Hq as (_ & Hq & _). apply Hq, elem_of_app. left.
        apply (open_zero (Rule.rhs r)); [lia|done]. }
      destruct st as [rem0 deps null q]. cbn [remaining dependents nullable queue] in *.
      assert (Hlhs : Rule.lhs r ∈ Rule.lhs <$> rules) by (apply list_elem_of_fmap; exists r; split; [done|]; apply nthN_elem_of; eauto).
      pose proof (push_queue_ok (popped ++ [x]) rem0 deps null q (Rule.lhs r) Hq Hlhs) as Hpq.
      pose proof (push_fresh_elem null q (Rule.lhs r)) as Hpf. destruct (push_fresh (null, q) (Rule.lhs r)) as [null' q'].
      destruct Hpf as [Hnull _]. eexists. split; [done|]. split; [|split; [exact Hpq|done]].
      split; cbn [remaining dependents nullable]; try done.
      * unfold rem. by rewrite lenN_alterN.
      * intros n [?| ->]%Hnull; [by apply C6|done].
      * intros i r' Hr' Hp'. rewrite Hrem, Hnull. destruct (N.eqb_spec i index) as [->|]; [right; congruence|]. left. by apply (C7 i r').
    + eexists. split; [done|]. split; [|split; [exact Hq|done]]. split; cbn [remaining dependents nullable]; try done.
      * unfold rem. by rewrite lenN_alterN.
      * intros i r' Hr' Hp'. rewrite Hrem. destruct (N.eqb_spec i index) as [->|]; [by intros [= ?]|by apply (C7 i r')].
  - rewrite (C5 index r Hr Hp). cbn [mbind option_bind]. rewrite N.eqb_refl. cbn [orb]. exists st. split; [done|]. split; [|done].
    split; try done. intros i r' Hr' Hp'. destruct (C4 i r' Hr' Hp') as (left & ? & ?). exists left. split; [done|].
    rewrite Hother. rewrite decide_False by (intros ->; congruence). lia.
Qed.

Lemma release_all_ok popped x rest done_ st :
  users (dependents st) x = done_ ++ rest → x ∉ popped → counters_ok popped done_ st → queue_ok (popped ++ [x]) st →
  ∃ st', foldM (release rules) st rest = Some st' ∧ counters_ok popped (done_ ++ rest) st' ∧ queue_ok (popped ++ [x]) st' ∧
    dependents st' = dependents st.
Proof using HT Hbig.
  revert done_ st. induction rest as [|index rest IH]; intros done_ st Hds Hx Hc Hq.
  { exists st. by rewrite app_nil_r. }
  destruct (release_ok popped x done_ index rest st Hds Hx Hc Hq) as (st1 & Hst1 & Hc1 & Hq1 & Hd1).
  destruct (IH (done_ ++ [index]) st1) as (st2 & Hst2 & Hc2 & Hq2 & Hd2); [by rewrite Hd1, Hds, <-app_assoc|done..|].
  exists st2. cbn [foldM]. rewrite Hst1. rewrite <-app_assoc in Hc2. split; [exact Hst2|]. split; [done|]. split; [done|congruence].
Qed.

Definition round_inv (st : counters) (m : nat) : Prop :=
  ∃ popped, counters_ok popped [] st ∧ queue_ok popped st ∧ (m + length popped = length rules)%nat.

Lemma popped_bound popped st : queue_ok popped st → (length (popped ++ queue st) ≤ length rules)%nat.
Proof using.
  clear HT Hbig. intros (Hnd & Hiff & Hlhs). rewrite <-(length_fmap Rule.lhs rules). apply submseteq_length, NoDup_submseteq; [done|].
  intros n Hn. by apply Hlhs, Hiff.
Qed.

Lemma nullable_step_ok st m :
  round_inv st m →
  match nullable_step rules st with
  | inl st' => ∃ m', round_inv st' m' ∧ (m' < m)%nat
  | inr r => r = Some (nullable st) ∧ ∀ n, n ∈ nullable st ↔ empty_word (Nonterminal n)
  end.
Proof using HT Hbig.
  intros (popped & Hc & Hq & Hm). pose proof (popped_bound popped st Hq) as Hbound.
  unfold nullable_step. destruct (queue st) as [|x rest] eqn:Eq.
  - split; [done|]. destruct Hc as [C1 C2 C3 C4 C5 C6 C7]. destruct Hq as (_ & Hq & _). rewrite Eq, app_nil_r in Hq.
    intros n. split; [apply C6|].
    enough (H : (∀ s w, generates parse_regex g s w → w = [] → match s with Nonterminal n => n ∈ nullable st | Terminal t => t ∈ T end) ∧
      (∀ l w, generates_all parse_regex g l w → w = [] → possible l = true ∧ ∀ n, n ∈ nts l → n ∈ nullable st)) by (intros Hn; by apply (proj1 H _ _ Hn)).
    apply generates_both.
    + intros t w Hw ->. by apply HT.
    + intros r w Hr _ IH Hw. destruct (IH Hw) as [Hp Hn]. apply nthN_elem_of in Hr as [i Hi].
      apply (C7 i r Hi Hp). destruct (C4 i r Hi Hp) as (left & Hl & Hsum). rewrite Hl. f_equal.
      assert (open_nts (Rule.rhs r) popped = 0); [|lia]. apply open_zero. intros n' Hn'. apply Hq. by apply Hn.
    + intros _. split; [done|by intros ? ?%elem_of_nil].
    + intros s l u v _ IHs _ IHl [-> ->]%app_eq_nil. specialize (IHs eq_refl). destruct (IHl eq_refl) as [Hp Hn].
      destruct s as [t|n']; cbn [possible forallb nts omap list_omap nonterminal_id].
      * split; [by rewrite bool_decide_true|exact Hn].
      * split; [exact Hp|]. intros m' [->|Hm']%elem_of_cons; [done|by apply Hn].
  - rewrite length_app in Hbound. cbn [length] in Hbound.
    assert (Hx : x ∉ popped).
    { destruct Hq as (Hnd & _). rewrite Eq in Hnd. apply NoDup_app in Hnd as (_ & Hnd & _). intros Hin. apply (Hnd x Hin). left. }
    assert (Hq' : queue_ok (popped ++ [x]) (Counters (remaining st) (dependents st) (nullable st) rest)).
    { unfold queue_ok in *. cbn [queue nullable]. rewrite Eq in Hq. by rewrite <-app_assoc. }
    assert (Hc' : counters_ok popped [] (Counters (remaining st) (dependents st) (nullable st) rest)) by (by destruct Hc).
    destruct (release_all_ok popped x (users (dependents st) x) [] (Counters (remaining st) (dependents st) (nullable st) rest) eq_refl Hx Hc' Hq')
      as (st' & Hst' & Hc1 & Hq1 & Hd).
    unfold users in Hst' at 1. rewrite Hst'. exists (m - 1)%nat. split; [|lia]. exists (popped ++ [x]). split; [|split; [done|rewrite length_app; simpl; lia]].
    cbn [app] in Hc1. destruct Hc1 as [C1 C2 C3 C4 C5 C6 C7]. split; try done.
    intros i r Hr Hp. destruct (C4 i r Hr Hp) as (left & Hl & Hsum). exists left. split; [done|].
    rewrite (open_snoc (Rule.rhs r) popped x Hx) in Hsum. rewrite <-(C2 i x r Hr Hp), Hd in Hsum. cbn [dependents] in Hsum.
    rewrite times_nil. unfold users in *. lia.
Qed.

Lemma nullable_nonterminals_ok :
  ∃ S, nullable_nonterminals T g = Some S ∧ ∀ n, n ∈ S ↔ empty_word (Nonterminal n).
Proof using HT Hbig.
  unfold nullable_nonterminals.
  destruct (run_terminates (nullable_step rules) round_inv (S (length rules)) (scan_rules T g) (length rules)) as (r & st & m & -> & Hinv & Hexit).
  - intros st st' m Hinv Hstep. pose proof (nullable_step_ok st m Hinv) as Hok. by rewrite Hstep in Hok.
  - exists []. pose proof (scan_rules_prefix rules [] ltac:(by rewrite app_nil_r) Hbig) as Hscan. cbn zeta in Hscan.
    unfold scan_rules. destruct Hscan as (H1 & H2 & H3 & H4 & H5 & H6 & H7 & H8 & H9).
    split; [|split; [exact H9|simpl; lia]]. split; [done| |done| |done|done|].
    + intros i n r Hr. apply H2; [by apply nthN_lt in Hr|done].
    + intros i r Hr Hp. eexists. split; [apply (H4 i r); [by apply nthN_lt in Hr|done..]|]. rewrite open_start. unfold times, lenN. simpl. lia.
    + intros i r Hr Hp Hz. apply (H8 i r); [by apply nthN_lt in Hr|done|done|].
      rewrite (H4 i r) in Hz; [|by apply nthN_lt in Hr|done|done]. injection Hz as Hz. by destruct (nts (Rule.rhs r)).
  - pose proof (pow2_S_gt (length rules)). lia.
  - pose proof (nullable_step_ok st m Hinv) as Hok. rewrite Hexit in Hok. destruct Hok as [-> Hok]. by exists (nullable st).
Qed.
End nullability.

(** * Results *)

(** The number of symbols of a rule fits in memory. *)
Definition rules_fit (g : GrammarDef.t) : Prop :=
  Forall (λ r, lenN (nts (Rule.rhs r)) < usize_max) (GrammarDef.rules g).

(** C23: the start of a grammar is reported nullable exactly when the grammar
    generates the empty word, by its rules or along its direct automaton; both
    searches end. *)
Theorem start_is_nullable_correct (parse_regex : string → bool → option Expr.t) (g : GrammarDef.t) :
  terminals_ok parse_regex g → rules_fit g →
  ∃ b, start_is_nullable parse_regex g = Some b ∧ (b = true ↔ grammar_lang parse_regex g []).
Proof.
  intros Hok Hfit. destruct (nullable_terminals_ok parse_regex g Hok) as (T & HT & Hspec).
  unfold start_is_nullable, grammar_lang. rewrite HT. cbn [mbind option_bind].
  destruct (nullable_nonterminals_ok parse_regex g T Hspec Hfit) as (S & HS & Hns).
  assert (Hrules : ∃ b, (nonterminals ← nullable_nonterminals T g; Some (bool_decide (GrammarDef.start g ∈ nonterminals))) = Some b ∧
    (b = true ↔ generates parse_regex g (Nonterminal (GrammarDef.start g)) [])).
  { rewrite HS. cbn [mbind option_bind]. eexists. split; [done|]. rewrite bool_decide_eq_true. apply Hns. }
  destruct Hrules as (br & Hbr & Hiffr). destruct (GrammarDef.direct_regular_automaton g) as [a|]; cbn [mbind option_bind].
  - destruct (direct_nullable_ok parse_regex g T Hspec a) as (bd & -> & Hiffd). cbn [mbind option_bind]. destruct bd.
    + exists true. split; [done|]. split; [|done]. intros _. left. destruct (proj1 Hiffd eq_refl) as (s & ? & ?). eauto.
    + exists br. split; [exact Hbr|]. rewrite Hiffr. split; [by right|]. intros [(a' & s & [= <-] & ? & ?)|?]; [|done].
      assert (false = true) by (apply Hiffd; eauto). done.
  - exists br. split; [exact Hbr|]. rewrite Hiffr. split; [by right|]. by intros [(a' & s & ? & _)|?].
Qed.

Lemma foldr_max_le (l : list N) x : x ∈ l → x ≤ foldr N.max 0 l.
Proof. induction l as [|y l IH]; intros Hx; [by apply elem_of_nil in Hx|]. apply elem_of_cons in Hx as [->|Hx]; simpl; [lia|]. specialize (IH Hx). lia. Qed.

Lemma foldr_max_in (l : list N) : l ≠ [] → foldr N.max 0 l ∈ l.
Proof.
  induction l as [|y l IH]; [done|]. intros _. simpl. destruct l as [|z l]; [simpl; rewrite N.max_0_r; left|].
  destruct (N.max_spec y (foldr N.max 0 (z :: l))) as [[_ ->]|[_ ->]]; [right; by apply IH|left].
Qed.

(** all nonterminals, the start included even when it has no rule, are
    numbered below [num_nonterminals], and the bound is tight; this needs the
    last 32-bit number to be unused. *)
Theorem num_nonterminals_correct (g : GrammarDef.t) :
  Forall (λ n, n < u32_max) (concat (Rule.nonterminal_ids <$> GrammarDef.rules g) ++ [GrammarDef.start g]) →
  (∀ r n, r ∈ GrammarDef.rules g → n = Rule.lhs r ∨ Nonterminal n ∈ Rule.rhs r → n < GrammarDef.num_nonterminals g) ∧
  GrammarDef.start g < GrammarDef.num_nonterminals g ∧
  ∃ n, n + 1 = GrammarDef.num_nonterminals g ∧
    (n = GrammarDef.start g ∨ ∃ r, r ∈ GrammarDef.rules g ∧ (n = Rule.lhs r ∨ Nonterminal n ∈ Rule.rhs r)).
Proof.
  intros Hsmall. unfold GrammarDef.num_nonterminals.
  set (ids := concat (Rule.nonterminal_ids <$> GrammarDef.rules g) ++ [GrammarDef.start g]) in *.
  assert (Hids : ∀ n, n ∈ ids ↔ n = GrammarDef.start g ∨ ∃ r, r ∈ GrammarDef.rules g ∧ (n = Rule.lhs r ∨ Nonterminal n ∈ Rule.rhs r)).
  { intros n. unfold ids. rewrite elem_of_app, list_elem_of_singleton, list_elem_of_In, in_concat. setoid_rewrite <-list_elem_of_In.
    assert (Hr : ∀ r, n ∈ Rule.nonterminal_ids r ↔ n = Rule.lhs r ∨ Nonterminal n ∈ Rule.rhs r).
    { intros r. unfold Rule.nonterminal_ids. rewrite elem_of_cons, list_elem_of_omap. f_equiv. split.
      - intros ([t|m] & Hs & Hm); [done|]. by injection Hm as ->.
      - intros Hs. by exists (Nonterminal n). }
    split.
    - intros [(l & (r & -> & Hin)%list_elem_of_fmap & Hn)|?]; [right; exists r; split; [done|by apply Hr]|by left].
    - intros [?|(r & Hin & Hn)]; [by right|left]. exists (Rule.nonterminal_ids r). split; [apply list_elem_of_fmap; eauto|by apply Hr]. }
  assert (Hmax : foldr N.max 0 ids ∈ ids) by (apply foldr_max_in; unfold ids; by destruct (concat _)).
  rewrite Forall_forall in Hsmall. pose proof (Hsmall _ Hmax) as Hlt.
  rewrite u32_wrapping_add_small by (unfold u32_max, u32_modulus in *; lia).
  split; [|split].
  - intros r n Hr Hn. assert (n ≤ foldr N.max 0 ids); [|lia]. apply foldr_max_le, Hids. eauto.
  - assert (GrammarDef.start g ≤ foldr N.max 0 ids); [|lia]. apply foldr_max_le, Hids. by left.
  - exists (foldr N.max 0 ids). split; [done|]. by apply Hids.
Qed.

(** * Examples *)

(** S → A A, A → "" | b, with a dead rule. *)
Definition sample_grammar : GrammarDef.t :=
  GrammarDef.of_rules 9 [Rule.mk 9 [Nonterminal 7; Nonterminal 7]; Rule.mk 8 [Nonterminal 7; Terminal 2]; Rule.mk 7 [Terminal 1]; Rule.mk 7 [Terminal 2]]
    [TerminalDef.Literal 1 []; TerminalDef.Literal 2 [98]; TerminalDef.SpecialToken 3 0].

Lemma start_is_nullable_correct_witness :
  start_is_nullable (λ _ _, None) sample_grammar = Some true ∧ grammar_lang (λ _ _, None) sample_grammar [].
Proof.
  destruct (start_is_nullable_correct (λ _ _, None) sample_grammar) as (b & Hb & Hiff).
  - intros d Hd. repeat (apply elem_of_cons in Hd as [->|Hd]; [done|]). by apply elem_of_nil in Hd.
  - by repeat constructor.
  - split; [vm_compute; reflexivity|]. apply Hiff. assert (Some b = Some true) as [= ->]; [|done]. rewrite <-Hb. vm_compute. reflexivity.
Defined.

Lemma num_nonterminals_correct_witness :
  GrammarDef.num_nonterminals sample_grammar = 10 ∧ 9 < GrammarDef.num_nonterminals sample_grammar.
Proof.
  split; [vm_compute; reflexivity|]. destruct (num_nonterminals_correct sample_grammar) as (_ & Hs & _); [by repeat constructor|exact Hs].
Defined.
