(* ===== verification/Accumulator.v ===== *)
(** The terminal exclusions of a parser path
    (crates/glrmask-glr/src/glr/accumulator.rs): a set of pairs of a tokenizer
    state and a terminal, stored inline while it is small. *)

From stdpp Require Import sorting.
From S2P Require Import Prelude.

(** [trait Merge], with its default [subsumes] *)
Class Merge (A : Type) := { merge : A → A → A; subsumes : A → A → bool }.

(** * Sorted pairs *)

Definition pair_le : relation (N * N) := λ p q, p.1 < q.1 ∨ (p.1 = q.1 ∧ p.2 ≤ q.2).
Definition pair_lt : relation (N * N) := λ p q, p.1 < q.1 ∨ (p.1 = q.1 ∧ p.2 < q.2).

#[export] Instance pair_le_dec : RelDecision pair_le.
Proof. intros p q. unfold pair_le. apply _. Defined.

Definition sort_pairs (l : list (N * N)) : list (N * N) := merge_sort pair_le l.

(** [pairs.dedup()] *)
Fixpoint dedup_pairs (l : list (N * N)) : list (N * N) :=
  match l with
  | x :: l' => match l' with
               | y :: _ => if decide (x = y) then dedup_pairs l' else x :: dedup_pairs l'
               | [] => [x]
               end
  | [] => []
  end.

(** [pairs.binary_search(&pair)] on strictly sorted pairs: where the pair is,
    or where it belongs. *)
Fixpoint binary_search (pairs : list (N * N)) (pair : N * N) : N + N :=
  match pairs with
  | [] => inr 0
  | q :: rest =>
      if decide (q = pair) then inl 0
      else if decide (pair_le pair q) then inr 0
      else match binary_search rest pair with inl i => inl (i + 1) | inr i => inr (i + 1) end
  end.

(** [pairs.insert(index, pair)] *)
Definition insert_at (index : N) (pair : N * N) (pairs : list (N * N)) : list (N * N) :=
  take (N.to_nat index) pairs ++ pair :: drop (N.to_nat index) pairs.

(** [&pairs[start..stop]] *)
Definition slice (start stop : N) (pairs : list (N * N)) : list (N * N) :=
  take (N.to_nat (stop - start)) (drop (N.to_nat start) pairs).

(** How many of the next pairs belong to [state]: the loop that moves [end]. *)
Fixpoint same_state (state : N) (rest : list (N * N)) : N :=
  match rest with
  | (s, _) :: rest => if s =? state then same_state state rest + 1 else 0
  | [] => 0
  end.

Definition group_end (pairs : list (N * N)) (start state : N) : N :=
  start + 1 + same_state state (drop (N.to_nat (start + 1)) pairs).

(** A [for] loop calls [next] until it gives nothing. *)
Fixpoint drain {I A} (next : I → option A * I) (fuel : nat) (it : I) : list A :=
  match fuel with
  | O => []
  | S fuel => match next it with (None, _) => [] | (Some a, it) => a :: drain next fuel it end
  end.

(** The values of a [BTreeSet] in order. *)
Definition set_values (s : gset N) : list N := sort_N (elements s).

Module TerminalSetRef.
Inductive t := One (terminal : N) | Few (pairs : list (N * N)) | Many (values : gset N).

Definition is_empty (r : t) : bool := false.

Definition len (r : t) : N :=
  match r with One _ => 1 | Few values => lenN values | Many values => N.of_nat (size values) end.

Definition contains (r : t) (terminal : N) : bool :=
  match r with
  | One value => value =? terminal
  | Few values => existsb (λ p, p.2 =? terminal) values
  | Many values => bool_decide (terminal ∈ values)
  end.

(** [TerminalSetIter] *)
Inductive iterator := IterOne (value : option N) | IterFew (values : list (N * N)) | IterMany (values : list N).

Definition next (it : iterator) : option N * iterator :=
  match it with
  | IterOne value => (value, IterOne None)
  | IterFew [] => (None, it)
  | IterFew ((_, terminal) :: values) => (Some terminal, IterFew values)
  | IterMany [] => (None, it)
  | IterMany (value :: values) => (Some value, IterMany values)
  end.

Definition iter (r : t) : iterator :=
  match r with One value => IterOne (Some value) | Few values => IterFew values | Many values => IterMany (set_values values) end.

(** The values a loop over [iter] visits. *)
Definition values (r : t) : list N := drain next (S (N.to_nat (len r))) (iter r).

Definition to_btree_set (r : t) : gset N := list_to_set (values r).
End TerminalSetRef.

(** * The set of exclusions *)

Definition INLINE_PAIR_CAPACITY : N := 4.

Inductive TerminalsDisallowed :=
  | Empty
  | One (state terminal : N)
  | Few (pairs : list (N * N))
  | Many (map : gmap N (gset N)).

Definition new : TerminalsDisallowed := Empty.

Definition from_inline_pairs (pairs : list (N * N)) : TerminalsDisallowed :=
  match dedup_pairs (sort_pairs pairs) with
  | [] => new
  | [(state, terminal)] => One state terminal
  | pairs => Few pairs
  end.

Definition inline_pairs (t : TerminalsDisallowed) : option (list (N * N)) :=
  match t with
  | Empty => Some []
  | One state terminal => Some [(state, terminal)]
  | Few pairs => Some pairs
  | Many _ => None
  end.

(** The pairs of a map in the order of the nested loops over it. *)
Definition map_pairs (m : gmap N (gset N)) : list (N * N) :=
  concat ((λ e, (λ terminal, (e.1, terminal)) <$> set_values e.2) <$> bt_iter N.le m).

Definition from_map (m : gmap N (gset N)) : TerminalsDisallowed :=
  let pair_count := foldl N.add 0 ((λ s : gset N, N.of_nat (size s)) <$> bt_values N.le m) in
  if pair_count <=? INLINE_PAIR_CAPACITY then from_inline_pairs (map_pairs m) else Many m.

Definition is_empty (t : TerminalsDisallowed) : bool := match t with Empty => true | _ => false end.
Definition is_inline (t : TerminalsDisallowed) : bool := match t with Many _ => false | _ => true end.

Definition try_with_insert_inline (t : TerminalsDisallowed) (state terminal : N) : option TerminalsDisallowed :=
  pairs ← inline_pairs t;
  match binary_search pairs (state, terminal) with
  | inl _ => Some t
  | inr index =>
      if lenN pairs <? INLINE_PAIR_CAPACITY then Some (from_inline_pairs (insert_at index (state, terminal) pairs)) else None
  end.

Definition merge_pair (pairs : list (N * N)) (pair : N * N) : option (list (N * N)) :=
  match binary_search pairs pair with
  | inl _ => Some pairs
  | inr index => if lenN pairs <? INLINE_PAIR_CAPACITY then Some (insert_at index pair pairs) else None
  end.

Definition try_merge_inline (t other : TerminalsDisallowed) : option TerminalsDisallowed :=
  pairs ← inline_pairs t;
  others ← inline_pairs other;
  pairs ← foldM merge_pair pairs others;
  Some (from_inline_pairs pairs).

Definition remap_pair (remapped : list (N * N)) (pair : N * N) : option (list (N * N)) :=
  match binary_search remapped pair with
  | inl _ => Some remapped
  | inr index => if lenN remapped =? INLINE_PAIR_CAPACITY then None else Some (insert_at index pair remapped)
  end.

Definition try_remap_single_state_inline (t : TerminalsDisallowed) (source_state : N) (end_states : list N)
    : option TerminalsDisallowed :=
  pairs ← inline_pairs t;
  let terminals := omap (λ p, if p.1 =? source_state then Some p.2 else None) pairs in
  if bool_decide (terminals = []) || bool_decide (end_states = []) then Some new
  else
    remapped ← foldM (λ remapped end_state, foldM (λ r terminal, remap_pair r (end_state, terminal)) remapped terminals) [] end_states;
    Some (from_inline_pairs remapped).

Definition count_state (acc : N * option N) (pair : N * N) : N * option N :=
  let '(count, prior) := acc in
  if bool_decide (prior = Some pair.1) then acc else (count + 1, Some pair.1).

(** The number of states. *)
Definition len (t : TerminalsDisallowed) : N :=
  match t with
  | Empty => 0
  | One _ _ => 1
  | Few pairs => (foldl count_state (0, None) pairs).1
  | Many values => N.of_nat (size values)
  end.

Definition get (t : TerminalsDisallowed) (state : N) : option TerminalSetRef.t :=
  match t with
  | Empty => None
  | One existing terminal => if existing =? state then Some (TerminalSetRef.One terminal) else None
  | Few pairs =>
      start ← N.of_nat ∘ fst <$> list_find (λ p : N * N, p.1 = state) pairs;
      Some (TerminalSetRef.Few (slice start (group_end pairs start state) pairs))
  | Many values => TerminalSetRef.Many <$> values !! state
  end.

(** [TerminalsDisallowedIter] *)
Inductive iterator :=
  | IterEmpty
  | IterOne (state : option N) (terminal : N)
  | IterFew (pairs : list (N * N)) (index : N)
  | IterMany (rest : list (N * gset N)).

Definition next (it : iterator) : option (N * TerminalSetRef.t) * iterator :=
  match it with
  | IterEmpty => (None, it)
  | IterOne state terminal => ((λ s, (s, TerminalSetRef.One terminal)) <$> state, IterOne None terminal)
  | IterFew pairs start =>
      match pairs.[start] with
      | None => (None, it)
      | Some (state, _) =>
          let stop := group_end pairs start state in
          (Some (state, TerminalSetRef.Few (slice start stop pairs)), IterFew pairs stop)
      end
  | IterMany [] => (None, it)
  | IterMany ((state, terminals) :: rest) => (Some (state, TerminalSetRef.Many terminals), IterMany rest)
  end.

Definition iter (t : TerminalsDisallowed) : iterator :=
  match t with
  | Empty => IterEmpty
  | One state terminal => IterOne (Some state) terminal
  | Few pairs => IterFew pairs 0
  | Many values => IterMany (bt_iter N.le values)
  end.

(** The groups a loop over [iter] visits; there is at most one per pair or per
    key. *)
Definition iter_bound (t : TerminalsDisallowed) : nat :=
  match t with Empty => 1 | One _ _ => 2 | Few pairs => S (length pairs) | Many values => S (size values) end.

Definition groups (t : TerminalsDisallowed) : list (N * TerminalSetRef.t) := drain next (iter_bound t) (iter t).

Definition is_subset_of (t other : TerminalsDisallowed) : bool :=
  is_empty t ||
  forallb (λ e, match get other e.1 with
                | None => false
                | Some other_terminals => forallb (TerminalSetRef.contains other_terminals) (TerminalSetRef.values e.2)
                end) (groups t).

(** [map.entry(state).or_default().extend(terminals)] *)
Definition extend_entry (m : gmap N (gset N)) (state : N) (terminals : list N) : gmap N (gset N) :=
  <[state := list_to_set terminals ∪ default ∅ (m !! state)]> m.

Definition to_map (t : TerminalsDisallowed) : gmap N (gset N) :=
  match t with
  | Empty => ∅
  | One state terminal => {[state := {[terminal]}]}
  | Few pairs => foldl (λ m p, extend_entry m p.1 [p.2]) ∅ pairs
  | Many values => values
  end.

Definition with_insert (t : TerminalsDisallowed) (state terminal : N) : TerminalsDisallowed :=
  match try_with_insert_inline t state terminal with
  | Some updated => updated
  | None => from_map (extend_entry (to_map t) state [terminal])
  end.

(** [PartialEq]: [ptr_eq] tells whether both sides share one allocation. *)
Definition eq (ptr_eq : bool) (t other : TerminalsDisallowed) : bool :=
  match t, other with
  | Many _, Many _ => ptr_eq || (is_subset_of t other && is_subset_of other t)
  | _, _ => is_subset_of t other && is_subset_of other t
  end.

(** What [hash] feeds the hasher. *)
Inductive hash_write := WriteU32 (x : N) | WriteUsize (x : N).

Definition hash (t : TerminalsDisallowed) : list hash_write :=
  concat ((λ e, WriteU32 e.1 :: (WriteU32 <$> TerminalSetRef.values e.2) ++ [WriteUsize (lenN (TerminalSetRef.values e.2))]) <$> groups t)
  ++ [WriteUsize (len t)].

Definition merge_into (t other : TerminalsDisallowed) : TerminalsDisallowed :=
  if is_subset_of t other then other
  else if is_subset_of other t then t
  else match try_merge_inline t other with
       | Some merged => merged
       | None => from_map (foldl (λ m e, extend_entry m e.1 (TerminalSetRef.values e.2)) (to_map t) (groups other))
       end.

#[export] Instance terminals_disallowed_merge : Merge TerminalsDisallowed :=
  { merge := merge_into; subsumes := λ t other, is_subset_of other t }.

#[export] Instance unit_merge : Merge unit := { merge := λ _ _, tt; subsumes := λ _ _, true }.

(** * What a value stands for *)

(** The pairs in order. *)
Definition flat (t : TerminalsDisallowed) : list (N * N) :=
  match t with
  | Empty => []
  | One state terminal => [(state, terminal)]
  | Few pairs => pairs
  | Many m => map_pairs m
  end.

Definition pairs_of (t : TerminalsDisallowed) : gset (N * N) := list_to_set (flat t).

(** Small sets are inline, and no state is listed without a terminal. *)
Definition wf (t : TerminalsDisallowed) : Prop :=
  match t with
  | Empty | One _ _ => True
  | Few pairs => StronglySorted pair_lt pairs ∧ 2 ≤ lenN pairs ≤ INLINE_PAIR_CAPACITY
  | Many m => map_Forall (λ _ s, s ≠ ∅) m ∧ INLINE_PAIR_CAPACITY < lenN (map_pairs m)
  end.

(** What a mergeable value promises to the parser stacks that hold it. *)
Class MergeLaws (A : Type) `{Merge A} (valid : A → Prop) := {
  merge_valid a b : valid a → valid b → valid (merge a b);
  merge_idem a : valid a → merge a a = a;
  merge_comm a b : valid a → valid b → merge a b = merge b a;
  merge_assoc a b c : valid a → valid b → valid c → merge a (merge b c) = merge (merge a b) c;
  subsumes_merge a b : valid a → valid b → subsumes a b = true ↔ merge a b = a;
}.
