(* ===== verification/AccumulatorCorrect.v ===== *)
(** The terminal exclusions are exactly a set of pairs, with one representation
    for each set. *)

From stdpp Require Import sorting.
From S2P Require Import Prelude Accumulator.

#[local] Arguments TerminalSetRef.values : simpl never.

(** * Strictly sorted pairs *)

#[export] Instance pair_le_trans : Transitive pair_le.
Proof. intros [] [] []. unfold pair_le. simpl. lia. Qed.

#[export] Instance pair_le_total : Total pair_le.
Proof. intros [] []. unfold pair_le. simpl. lia. Qed.

Lemma pair_lt_irrefl p : ¬ pair_lt p p.
Proof. unfold pair_lt. lia. Qed.

Lemma pair_lt_of_le p q : pair_le p q → p ≠ q → pair_lt p q.
Proof.
  destruct p as [a b], q as [c d]. unfold pair_le, pair_lt. simpl. intros H Hne.
  destruct (decide (a = c)) as [->|]; [|lia]. assert (b ≠ d) by (by intros ->). lia.
Qed.

Lemma pair_lt_not_le p q : ¬ pair_le p q → pair_lt q p.
Proof. unfold pair_le, pair_lt. lia. Qed.

Lemma pair_lt_trans p q r : pair_lt p q → pair_lt q r → pair_lt p r.
Proof. unfold pair_lt. lia. Qed.

Abbreviation sorted_pairs := (StronglySorted pair_lt).

Lemma sorted_pairs_NoDup l : sorted_pairs l → NoDup l.
Proof.
  induction 1 as [|x l Hs IH Hx]; constructor; [|done].
  rewrite Forall_forall in Hx. intros Hin. by eapply pair_lt_irrefl, Hx.
Qed.

Lemma sorted_pairs_ext l k : sorted_pairs l → sorted_pairs k → (∀ x, x ∈ l ↔ x ∈ k) → l = k.
Proof.
  intros Hl Hk Heq. eapply (StronglySorted_unique_strong pair_lt); [|done|done|].
  - intros x y _ _. unfold pair_lt. lia.
  - by apply NoDup_Permutation; auto using sorted_pairs_NoDup.
Qed.

Lemma dedup_pairs_elem l x : x ∈ dedup_pairs l ↔ x ∈ l.
Proof.
  induction l as [|y l IH]; [done|]. cbn [dedup_pairs]. destruct l as [|z l]; [done|].
  destruct (decide (y = z)) as [->|Hne].
  - rewrite IH, !elem_of_cons. naive_solver.
  - by rewrite elem_of_cons, IH, (elem_of_cons (z :: l)).
Qed.

Lemma dedup_pairs_sorted l : StronglySorted pair_le l → sorted_pairs (dedup_pairs l).
Proof.
  induction 1 as [|x l Hl IH Hx]; [constructor|]. cbn [dedup_pairs]. destruct l as [|y l]; [repeat constructor|].
  destruct (decide (x = y)) as [->|Hne]; [done|]. constructor; [done|].
  apply Forall_forall. intros z Hz. rewrite dedup_pairs_elem in Hz. rewrite Forall_forall in Hx.
  pose proof (pair_lt_of_le _ _ (Hx y ltac:(by left)) Hne) as Hxy.
  apply elem_of_cons in Hz as [->|Hz]; [done|].
  apply StronglySorted_inv in Hl as [_ Hy]. rewrite Forall_forall in Hy. specialize (Hy z Hz).
  revert Hxy Hy. unfold pair_lt, pair_le. lia.
Qed.

Lemma sort_dedup_elem l x : x ∈ dedup_pairs (sort_pairs l) ↔ x ∈ l.
Proof. rewrite dedup_pairs_elem. unfold sort_pairs. by rewrite merge_sort_Permutation. Qed.

Lemma sort_dedup_sorted l : sorted_pairs (dedup_pairs (sort_pairs l)).
Proof. apply dedup_pairs_sorted, (StronglySorted_merge_sort pair_le). Qed.

(** Sorting a strictly sorted vector changes nothing. *)
Lemma sort_dedup_id l : sorted_pairs l → dedup_pairs (sort_pairs l) = l.
Proof. intros Hl. apply sorted_pairs_ext; [apply sort_dedup_sorted|done|]. intros x. apply sort_dedup_elem. Qed.

Lemma sorted_pairs_app l k : sorted_pairs (l ++ k) ↔ sorted_pairs l ∧ sorted_pairs k ∧ ∀ x y, x ∈ l → y ∈ k → pair_lt x y.
Proof. rewrite StronglySorted_app. naive_solver. Qed.

(** ** Search *)

Lemma binary_search_spec l p : sorted_pairs l →
  match binary_search l p with
  | inl _ => p ∈ l
  | inr i => p ∉ l ∧ sorted_pairs (insert_at i p l) ∧ (∀ q, q ∈ insert_at i p l ↔ q = p ∨ q ∈ l) ∧ lenN (insert_at i p l) = lenN l + 1
  end.
Proof.
  assert (Hlen : ∀ i, lenN (insert_at i p l) = lenN l + 1).
  { intros i. unfold insert_at, lenN. rewrite length_app. simpl. rewrite length_take, length_drop. lia. }
  assert (Hin : ∀ i q, q ∈ insert_at i p l ↔ q = p ∨ q ∈ l).
  { intros i q. unfold insert_at. rewrite elem_of_app, elem_of_cons. rewrite <-(take_drop (N.to_nat i) l) at 3. rewrite elem_of_app. tauto. }
  enough (Hmain : sorted_pairs l → match binary_search l p with inl _ => p ∈ l | inr i => p ∉ l ∧ sorted_pairs (insert_at i p l) end).
  { intros Hs. specialize (Hmain Hs). destruct (binary_search l p); naive_solver. }
  clear Hlen Hin. unfold insert_at. induction 1 as [|x l Hs IH Hx]; [split; [by intros ?%elem_of_nil|repeat constructor]|].
  cbn [binary_search]. destruct (decide (x = p)) as [->|Hne]; [by left|]. rewrite Forall_forall in Hx.
  destruct (decide (pair_le p x)) as [Hle|Hgt].
  - apply pair_lt_of_le in Hle; [|done]. assert (Hall : ∀ y, y ∈ x :: l → pair_lt p y).
    { intros y [->|Hy]%elem_of_cons; [done|]. eapply pair_lt_trans; [done|by apply Hx]. }
    split; [intros H; by eapply pair_lt_irrefl, Hall|]. simpl. constructor; [|by apply Forall_forall].
    constructor; [done|by apply Forall_forall].
  - apply pair_lt_not_le in Hgt. destruct (binary_search l p) as [i|i]; [by right|]. destruct IH as [Hni Hs'].
    split; [by rewrite not_elem_of_cons|]. rewrite N2Nat.inj_add, Nat.add_comm. simpl. constructor; [done|].
    apply Forall_forall. intros y. rewrite elem_of_app, elem_of_cons. intros [Hy|[->|Hy]]; [|done|].
    + apply Hx. by eapply subseteq_take.
    + apply Hx. by eapply subseteq_drop.
Qed.

(** * Maps *)

Lemma elem_of_set_values s x : x ∈ set_values s ↔ x ∈ s.
Proof. unfold set_values. by rewrite elem_of_sort_N, elem_of_elements. Qed.

Lemma set_values_sorted s : strictly_sorted (set_values s).
Proof. apply strictly_sorted_sort_N, NoDup_elements. Qed.

Lemma length_set_values s : length (set_values s) = size s.
Proof. unfold set_values. by rewrite length_sort_N. Qed.

Lemma elem_of_map_pairs m s x : (s, x) ∈ map_pairs m ↔ ∃ ts, m !! s = Some ts ∧ x ∈ ts.
Proof.
  unfold map_pairs. rewrite elem_of_concat. setoid_rewrite list_elem_of_fmap. split.
  - intros (l & Hin & ([s' ts] & -> & Hm%elem_of_bt_iter)). apply list_elem_of_fmap in Hin as (y & [= -> ->] & Hy).
    exists ts. by rewrite <-elem_of_set_values.
  - intros (ts & Hm & Hx). exists ((λ t, (s, t)) <$> set_values ts). split.
    + apply list_elem_of_fmap. exists x. by rewrite elem_of_set_values.
    + exists (s, ts). by rewrite elem_of_bt_iter.
Qed.

Lemma blocks_sorted (l : list (N * gset N)) :
  StronglySorted (key_le N.le) l → NoDup l.*1 →
  sorted_pairs (concat ((λ e, (λ terminal, (e.1, terminal)) <$> set_values e.2) <$> l)).
Proof.
  induction 1 as [|[s ts] l Hl IH Hx]; intros Hnd; [constructor|]. cbn [fmap list_fmap concat fst snd] in *.
  apply NoDup_cons in Hnd as [Hni Hnd]. apply sorted_pairs_app. split; [|split; [by apply IH|]].
  - pose proof (set_values_sorted ts) as Hts. induction Hts as [|t l' Hl' IH' Ht]; [constructor|]. cbn. constructor; [done|].
    rewrite Forall_fmap. eapply Forall_impl; [exact Ht|]. intros y Hy. right. by split.
  - intros [s1 t1] [s2 t2] (y & [= -> ->] & Hy)%list_elem_of_fmap. rewrite elem_of_concat.
    intros (blk & Hin & ([s' ts'] & -> & Hl')%list_elem_of_fmap). apply list_elem_of_fmap in Hin as (z & [= -> ->] & Hz).
    left. cbn. rewrite Forall_forall in Hx. specialize (Hx _ Hl'). unfold key_le in Hx. cbn in Hx.
    assert (s ≠ s'); [|lia]. intros ->. apply Hni. apply list_elem_of_fmap. by exists (s', ts').
Qed.

Lemma map_pairs_sorted m : sorted_pairs (map_pairs m).
Proof. apply blocks_sorted; [apply (bt_iter_sorted N.le)|apply (NoDup_bt_keys N.le)]. Qed.

Lemma foldl_add_start l a : foldl N.add a l = a + foldl N.add 0 l.
Proof. revert a. induction l as [|x l IH]; intros a; cbn [foldl]; [lia|]. rewrite (IH (a + x)), (IH (0 + x)). lia. Qed.

Lemma pair_count_length m :
  foldl N.add 0 ((λ s : gset N, N.of_nat (size s)) <$> bt_values N.le m) = lenN (map_pairs m).
Proof.
  unfold bt_values, map_pairs. induction (bt_iter N.le m) as [|[s ts] l IH]; [done|].
  cbn [fmap list_fmap concat foldl fst snd] in *. rewrite lenN_app, foldl_add_start, IH.
  unfold lenN. rewrite length_fmap, length_set_values. lia.
Qed.

(** * Inline values *)

Lemma from_inline_pairs_ok l :
  lenN (dedup_pairs (sort_pairs l)) ≤ INLINE_PAIR_CAPACITY →
  wf (from_inline_pairs l) ∧ flat (from_inline_pairs l) = dedup_pairs (sort_pairs l).
Proof.
  intros Hlen. unfold from_inline_pairs. pose proof (sort_dedup_sorted l) as Hs.
  destruct (dedup_pairs (sort_pairs l)) as [|[s t] [|q l']]; [done..|]. split; [|done].
  split; [done|]. unfold lenN in *. simpl in *. lia.
Qed.

Lemma from_sorted_pairs_ok l : sorted_pairs l → lenN l ≤ INLINE_PAIR_CAPACITY → wf (from_inline_pairs l) ∧ flat (from_inline_pairs l) = l.
Proof. intros Hs Hl. pose proof (from_inline_pairs_ok l) as H. rewrite sort_dedup_id in H by done. by apply H. Qed.

Lemma flat_sorted t : wf t → sorted_pairs (flat t).
Proof. destruct t; cbn; [repeat constructor..|by intros [? _]|intros _; apply map_pairs_sorted]. Qed.

Lemma inline_pairs_flat t l : inline_pairs t = Some l → l = flat t.
Proof. destruct t; by intros [= <-]. Qed.

Lemma inline_pairs_Some t : is_inline t = true → inline_pairs t = Some (flat t).
Proof. by destruct t. Qed.

Lemma inline_length t : wf t → (is_inline t = true ↔ lenN (flat t) ≤ INLINE_PAIR_CAPACITY).
Proof. unfold INLINE_PAIR_CAPACITY. destruct t as [| |l|m]; cbn; [done..|naive_solver|]. intros [_ H]. unfold INLINE_PAIR_CAPACITY in H. split; [done|]. unfold lenN in *. lia. Qed.

Lemma from_map_ok m :
  map_Forall (λ _ s, s ≠ ∅) m → wf (from_map m) ∧ flat (from_map m) = map_pairs m.
Proof.
  intros Hm. unfold from_map. rewrite pair_count_length. destruct (N.leb_spec (lenN (map_pairs m)) INLINE_PAIR_CAPACITY) as [Hl|Hl].
  - by apply from_sorted_pairs_ok; [apply map_pairs_sorted|].
  - by split.
Qed.

(** ** One representation for each set *)

Lemma map_pairs_inj m m' :
  map_Forall (λ _ s, s ≠ ∅) m → map_Forall (λ _ s, s ≠ ∅) m' → map_pairs m = map_pairs m' → m = m'.
Proof.
  intros Hm Hm' Heq.
  assert (Hsub : ∀ m1 m2 : gmap N (gset N), map_Forall (λ _ s, s ≠ ∅) m1 → map_pairs m1 = map_pairs m2 → ∀ s ts, m1 !! s = Some ts → m2 !! s = Some ts).
  { intros m1 m2 H1 He s ts Hs. destruct (set_choose_L ts (H1 _ _ Hs)) as [x Hx].
    assert (Hp : ∀ y, (∃ ts1, m1 !! s = Some ts1 ∧ y ∈ ts1) ↔ ∃ ts2, m2 !! s = Some ts2 ∧ y ∈ ts2).
    { intros y. by rewrite <-!elem_of_map_pairs, He. }
    destruct (proj1 (Hp x) ltac:(eauto)) as (ts2 & Hs2 & _). rewrite Hs2. f_equal. apply set_eq. intros y.
    specialize (Hp y). rewrite Hs, Hs2 in Hp. split; intros Hy.
    - destruct (proj2 Hp ltac:(eauto)) as (? & [= <-] & ?). done.
    - destruct (proj1 Hp ltac:(eauto)) as (? & [= <-] & ?). done. }
  apply map_eq. intros s. apply option_eq. intros ts. split; apply Hsub; auto.
Qed.

Lemma wf_canonical t u : wf t → wf u → flat t = flat u → t = u.
Proof.
  intros Ht Hu Heq. pose proof (inline_length t Ht) as Hit. pose proof (inline_length u Hu) as Hiu. rewrite Heq, <-Hiu in Hit.
  destruct t as [|s x|l|m], u as [|s' x'|l'|m']; cbn [flat is_inline] in *; try done; try congruence.
  all: try (by discriminate (proj1 Hit eq_refl)); try (by discriminate (proj2 Hit eq_refl)).
  all: try (subst; destruct Ht as [_ [Ht _]]; unfold lenN in Ht; simpl in Ht; lia).
  all: try (subst; destruct Hu as [_ [Hu _]]; unfold lenN in Hu; simpl in Hu; lia).
  f_equal. apply map_pairs_inj; [apply Ht|apply Hu|done].
Qed.

Lemma exclusions_ext t u : wf t → wf u → (∀ p, p ∈ flat t ↔ p ∈ flat u) → t = u.
Proof. intros Ht Hu H. apply wf_canonical; [done..|]. apply sorted_pairs_ext; auto using flat_sorted. Qed.

Lemma elem_of_pairs_of t p : p ∈ pairs_of t ↔ p ∈ flat t.
Proof. apply elem_of_list_to_set. Qed.

(** * Reading *)

Lemma values_few ps : drain TerminalSetRef.next (S (length ps)) (TerminalSetRef.IterFew ps) = ps.*2.
Proof. induction ps as [|[s x] ps IH]; [done|]. exact (f_equal (cons x) IH). Qed.

Lemma values_many l : drain TerminalSetRef.next (S (length l)) (TerminalSetRef.IterMany l) = l.
Proof. induction l as [|x l IH]; [done|]. exact (f_equal (cons x) IH). Qed.

Definition set_terminals (r : TerminalSetRef.t) : list N :=
  match r with TerminalSetRef.One x => [x] | TerminalSetRef.Few ps => ps.*2 | TerminalSetRef.Many s => set_values s end.

Lemma values_spec r : TerminalSetRef.values r = set_terminals r.
Proof.
  destruct r as [x|ps|s]; [done|..]; unfold TerminalSetRef.values; cbn [TerminalSetRef.len TerminalSetRef.iter set_terminals].
  - unfold lenN. rewrite Nat2N.id. apply values_few.
  - rewrite Nat2N.id, <-length_set_values. apply values_many.
Qed.

Lemma contains_values r x : TerminalSetRef.contains r x = true ↔ x ∈ TerminalSetRef.values r.
Proof.
  rewrite values_spec. destruct r as [y|ps|s]; cbn [TerminalSetRef.contains set_terminals].
  - rewrite N.eqb_eq, list_elem_of_singleton. naive_solver.
  - rewrite existsb_exists, list_elem_of_fmap. setoid_rewrite <-list_elem_of_In. setoid_rewrite N.eqb_eq. naive_solver.
  - by rewrite bool_decide_eq_true, elem_of_set_values.
Qed.

(** ** The pairs of one state are together *)

Lemma same_state_split state x rest : sorted_pairs ((state, x) :: rest) →
  (∀ p, p ∈ take (N.to_nat (same_state state rest)) rest → p.1 = state) ∧
  (∀ p, p ∈ drop (N.to_nat (same_state state rest)) rest → state < p.1).
Proof.
  revert x. induction rest as [|[s y] rest IH]; intros x Hs; [split; by intros ? ?%elem_of_nil|].
  apply StronglySorted_inv in Hs as [Hs Hx]. cbn [same_state]. destruct (N.eqb_spec s state) as [->|Hne].
  - rewrite N2Nat.inj_add, Nat.add_comm. simpl. destruct (IH y Hs) as [H1 H2]. split; [|done]. intros p [->|Hp]%elem_of_cons; auto.
  - simpl. split; [by intros ? ?%elem_of_nil|]. rewrite Forall_forall in Hx.
    assert (state < s) by (pose proof (Hx (s, y) ltac:(by left)) as H; unfold pair_lt in H; simpl in H; lia).
    apply StronglySorted_inv in Hs as [_ Hy]. rewrite Forall_forall in Hy.
    intros p [->|Hp]%elem_of_cons; [done|]. specialize (Hy p Hp). unfold pair_lt in Hy. simpl in Hy. lia.
Qed.

(** A group runs from its first pair to the next state. *)
Lemma group_split pairs start state x :
  sorted_pairs pairs → pairs.[start] = Some (state, x) →
  let stop := group_end pairs start state in
  drop (N.to_nat start) pairs = slice start stop pairs ++ drop (N.to_nat stop) pairs ∧
  start < stop ∧ slice start stop pairs ≠ [] ∧
  (∀ p, p ∈ slice start stop pairs → p.1 = state) ∧ (∀ p, p ∈ drop (N.to_nat stop) pairs → state < p.1).
Proof.
  intros Hs Hx stop. rewrite nthN_lookup in Hx. pose proof (drop_S _ _ _ Hx) as Hd.
  assert (Hs' : sorted_pairs ((state, x) :: drop (S (N.to_nat start)) pairs)).
  { rewrite <-Hd. rewrite <-(take_drop (N.to_nat start) pairs) in Hs. by apply sorted_pairs_app in Hs as (_ & ? & _). }
  assert (Hstart : N.to_nat (start + 1) = S (N.to_nat start)) by lia.
  set (n := same_state state (drop (S (N.to_nat start)) pairs)).
  assert (Hstop : stop = start + 1 + n) by (unfold stop, group_end; by rewrite Hstart).
  assert (Hslice : slice start stop pairs = (state, x) :: take (N.to_nat n) (drop (S (N.to_nat start)) pairs)).
  { unfold slice. rewrite Hd, Hstop. by replace (N.to_nat (start + 1 + n - start)) with (S (N.to_nat n)) by lia. }
  assert (Hdrop : drop (N.to_nat stop) pairs = drop (N.to_nat n) (drop (S (N.to_nat start)) pairs)).
  { rewrite drop_drop. f_equal. lia. }
  destruct (same_state_split state x _ Hs') as [H1 H2]. rewrite Hslice, Hdrop.
  split; [by rewrite Hd; simpl; rewrite take_drop|]. split; [lia|]. split; [done|]. split; [|done].
  intros p [->|Hp]%elem_of_cons; [done|by apply H1].
Qed.

Lemma pair_group (l : list (N * N)) state : (∀ p, p ∈ l → p.1 = state) → (λ x, (state, x)) <$> l.*2 = l.
Proof.
  induction l as [|[s x] l IH]; intros H; [done|]. cbn. rewrite (H (s, x) ltac:(by left) : s = state). f_equal.
  apply IH. intros p Hp. apply H. by right.
Qed.

(** ** Lookup *)

Lemma group_sorted l state : sorted_pairs l → (∀ p, p ∈ l → p.1 = state) → strictly_sorted l.*2.
Proof.
  induction 1 as [|[s x] l Hl IH Hx]; intros Hin; [constructor|]. cbn. constructor; [apply IH; intros p Hp; apply Hin; by right|].
  rewrite Forall_fmap. rewrite Forall_forall in Hx |- *. intros [s' x'] Hp. specialize (Hx _ Hp). unfold pair_lt in Hx. cbn in *.
  pose proof (Hin (s, x) ltac:(by left)). pose proof (Hin (s', x') ltac:(by right)). cbn in *. lia.
Qed.

(** The group that starts at the first pair of a state. *)
Lemma first_group pairs start state x :
  sorted_pairs pairs → pairs.[start] = Some (state, x) → (∀ p, p ∈ take (N.to_nat start) pairs → p.1 ≠ state) →
  let l := slice start (group_end pairs start state) pairs in
  l.*2 ≠ [] ∧ strictly_sorted l.*2 ∧ ∀ y, y ∈ l.*2 ↔ (state, y) ∈ pairs.
Proof.
  intros Hs Hx Hbefore l. destruct (group_split pairs start state x Hs Hx) as (Hsplit & _ & Hne & Hin & Hout).
  fold l in Hsplit, Hne, Hin. set (tl := drop (N.to_nat (group_end pairs start state)) pairs) in *.
  assert (Hpairs : pairs = take (N.to_nat start) pairs ++ l ++ tl) by (by rewrite <-Hsplit, take_drop).
  split; [by destruct l|]. split.
  - apply (group_sorted l state); [|done]. rewrite Hpairs in Hs. apply sorted_pairs_app in Hs as (_ & Hs & _).
    by apply sorted_pairs_app in Hs as (Hs & _ & _).
  - intros y. split.
    + intros ([s' y'] & -> & Hp)%list_elem_of_fmap. pose proof (Hin _ Hp) as Heq. cbn in Heq |- *. subst s'.
      rewrite Hpairs, !elem_of_app. auto.
    + rewrite Hpairs, !elem_of_app. intros [Hp|[Hp|Hp]].
      * by destruct (Hbefore _ Hp).
      * apply list_elem_of_fmap. by exists (state, y).
      * specialize (Hout _ Hp). cbn in Hout. lia.
Qed.

Lemma get_ok t state : wf t →
  match get t state with
  | None => ∀ x, (state, x) ∉ flat t
  | Some r => TerminalSetRef.values r ≠ [] ∧ strictly_sorted (TerminalSetRef.values r) ∧ (∀ x, x ∈ TerminalSetRef.values r ↔ (state, x) ∈ flat t)
  end.
Proof.
  intros Hwf. destruct t as [|s y|pairs|m]; cbn [get flat].
  - by intros x ?%elem_of_nil.
  - destruct (N.eqb_spec s state) as [->|Hne].
    + rewrite values_spec. split; [done|]. split; [repeat constructor|]. intros x. cbn. rewrite !list_elem_of_singleton. naive_solver.
    + intros x [= -> ->]%list_elem_of_singleton. done.
  - destruct Hwf as [Hs _]. destruct (list_find (λ p, p.1 = state) pairs) as [[start [s x]]|] eqn:Hf; cbn [fmap option_fmap option_map mbind option_bind].
    + apply list_find_Some in Hf as (Hx & Heq & Hbefore). cbn in Heq. subst s.
      rewrite values_spec. apply (first_group pairs (N.of_nat start) state x Hs); [by rewrite nthN_of_nat|].
      cbn. rewrite Nat2N.id. intros p Hp. apply list_elem_of_lookup in Hp as [i Hi]. apply lookup_take_Some in Hi as [Hi Hlt].
      by apply (Hbefore i _ Hi Hlt).
    + intros x Hx. apply list_find_None in Hf. rewrite Forall_forall in Hf. by destruct (Hf _ Hx).
  - destruct Hwf as [Hm _]. destruct (m !! state) as [ts|] eqn:Ht; cbn [fmap option_fmap option_map].
    + rewrite values_spec. cbn [set_terminals]. split; [|split; [apply set_values_sorted|]].
      * destruct (set_choose_L ts (Hm _ _ Ht)) as [x Hx%elem_of_set_values]. intros H. rewrite H in Hx. by apply elem_of_nil in Hx.
      * intros x. rewrite elem_of_set_values, elem_of_map_pairs, Ht. naive_solver.
    + intros x. rewrite elem_of_map_pairs, Ht. naive_solver.
Qed.

(** ** Iteration *)

Definition ungroup (gs : list (N * TerminalSetRef.t)) : list (N * N) :=
  concat ((λ e, (λ x, (e.1, x)) <$> TerminalSetRef.values e.2) <$> gs).

Definition groups_ok_for (gs : list (N * TerminalSetRef.t)) (l : list (N * N)) : Prop :=
  ungroup gs = l ∧ strictly_sorted gs.*1 ∧ Forall (λ e, TerminalSetRef.values e.2 ≠ []) gs.

Lemma groups_few_ok pairs fuel start :
  sorted_pairs pairs → (length pairs - N.to_nat start < fuel)%nat →
  groups_ok_for (drain next fuel (IterFew pairs start)) (drop (N.to_nat start) pairs).
Proof.
  intros Hs. revert start. induction fuel as [|fuel IH]; intros start Hf; [lia|]. cbn [drain next].
  destruct (pairs.[start]) as [[state x]|] eqn:Hx.
  - destruct (group_split pairs start state x Hs Hx) as (Hsplit & Hlt & Hne & Hin & Hout).
    set (stop := group_end pairs start state) in *. pose proof (nthN_lt _ _ _ Hx) as Hl. unfold lenN in Hl.
    destruct (IH stop ltac:(lia)) as (Hcat & Hkeys & Hnonempty). unfold groups_ok_for, ungroup in *. cbn [fmap list_fmap concat fst snd].
    rewrite Hcat, Hsplit, values_spec. cbn [set_terminals]. rewrite (pair_group _ _ Hin). split; [done|]. split.
    + constructor; [done|]. rewrite Forall_fmap, Forall_forall. intros [s r] Hr. cbn.
      rewrite Forall_forall in Hnonempty. specialize (Hnonempty _ Hr). cbn in Hnonempty.
      destruct (TerminalSetRef.values r) as [|y ys] eqn:Hv; [done|]. apply (Hout (s, y)). rewrite <-Hcat. apply elem_of_concat.
      exists ((λ x, (s, x)) <$> TerminalSetRef.values r). split; [rewrite Hv; by left|]. apply list_elem_of_fmap. by exists (s, r).
    + constructor; [|done]. rewrite values_spec. cbn [set_terminals snd]. by destruct (slice start stop pairs).
  - apply nthN_None in Hx. unfold lenN in Hx. rewrite drop_ge by lia. repeat constructor.
Qed.

Lemma drain_many (l : list (N * gset N)) : drain next (S (length l)) (IterMany l) = (λ e, (e.1, TerminalSetRef.Many e.2)) <$> l.
Proof. induction l as [|[s ts] l IH]; [done|]. exact (f_equal (cons (s, TerminalSetRef.Many ts)) IH). Qed.

Lemma terminal_groups_ok t : wf t → groups_ok_for (groups t) (flat t).
Proof.
  destruct t as [|s x|pairs|m]; intros Hwf; unfold groups; cbn [iter iter_bound flat].
  - repeat constructor.
  - repeat constructor. done.
  - apply (groups_few_ok pairs _ 0); [by destruct Hwf|lia].
  - destruct Hwf as [Hm _]. replace (size m) with (length (bt_iter N.le m)).
    2:{ unfold bt_iter. by rewrite merge_sort_Permutation, length_map_to_list. }
    rewrite drain_many. unfold groups_ok_for, ungroup. split; [|split].
    + unfold map_pairs. f_equal. rewrite <-list_fmap_compose. apply list_fmap_ext. intros _ [s ts] _. cbn. by rewrite values_spec.
    + rewrite <-list_fmap_compose. apply StronglySorted_lt_of_le; [|apply (NoDup_bt_keys N.le)].
      pose proof (bt_iter_sorted N.le m) as Hs. induction Hs as [|e l Hl IH Hx]; [constructor|]. cbn. constructor; [done|].
      by rewrite Forall_fmap.
    + rewrite Forall_fmap, Forall_forall. intros [s ts] Hin%elem_of_bt_iter. cbn. rewrite values_spec. cbn [set_terminals].
      destruct (set_choose_L ts (Hm _ _ Hin)) as [y Hy%elem_of_set_values]. intros H. rewrite H in Hy. by apply elem_of_nil in Hy.
Qed.

Lemma elem_of_ungroup gs s x : (s, x) ∈ ungroup gs ↔ ∃ r, (s, r) ∈ gs ∧ x ∈ TerminalSetRef.values r.
Proof.
  unfold ungroup. rewrite elem_of_concat. split.
  - intros (l & Hin & ([s' r] & -> & Hr)%list_elem_of_fmap). apply list_elem_of_fmap in Hin as (y & [= -> ->] & Hy). eauto.
  - intros (r & Hr & Hx). exists ((λ x, (s, x)) <$> TerminalSetRef.values r). split; apply list_elem_of_fmap; [eauto|by exists (s, r)].
Qed.

(** ** Inclusion *)

Lemma is_subset_of_ok t u : wf t → wf u → is_subset_of t u = true ↔ ∀ p, p ∈ flat t → p ∈ flat u.
Proof.
  intros Ht Hu. unfold is_subset_of. destruct (is_empty t) eqn:He.
  { destruct t; try done. split; [|done]. by intros _ p ?%elem_of_nil. }
  cbn [orb]. destruct (terminal_groups_ok t Ht) as (Hflat & _ & Hne). rewrite <-Hflat, forallb_forall. setoid_rewrite <-list_elem_of_In. split.
  - intros H [s x] (r & Hr & Hx)%elem_of_ungroup. specialize (H _ Hr). cbn in H. pose proof (get_ok u s Hu) as Hg.
    destruct (get u s) as [r'|]; [|done]. rewrite forallb_forall in H. apply Hg, contains_values, H. by apply list_elem_of_In.
  - intros H [s r] Hr. cbn. rewrite Forall_forall in Hne. specialize (Hne _ Hr). cbn in Hne.
    assert (Hall : ∀ x, x ∈ TerminalSetRef.values r → (s, x) ∈ flat u) by (intros x Hx; apply H, elem_of_ungroup; eauto).
    pose proof (get_ok u s Hu) as Hg. destruct (get u s) as [r'|].
    + apply forallb_forall. intros x Hx%list_elem_of_In. apply contains_values, Hg. by apply Hall.
    + destruct (TerminalSetRef.values r) as [|y ys]; [done|]. destruct (Hg y). apply Hall. by left.
Qed.

Lemma is_subset_of_refl t : wf t → is_subset_of t t = true.
Proof. intros Ht. by apply is_subset_of_ok. Qed.

(** * Writing *)

Lemma extend_entry_nonempty m s ts : ts ≠ [] → map_Forall (λ _ v, v ≠ ∅) m → map_Forall (λ _ v, v ≠ ∅) (extend_entry m s ts).
Proof.
  intros Hts Hm. unfold extend_entry. apply map_Forall_insert_2; [|done]. destruct ts as [|x ts]; [done|]. set_solver.
Qed.

Lemma elem_of_extend_entry m s ts s' x : (s', x) ∈ map_pairs (extend_entry m s ts) ↔ (s' = s ∧ x ∈ ts) ∨ (s', x) ∈ map_pairs m.
Proof.
  rewrite !elem_of_map_pairs. unfold extend_entry. destruct (decide (s = s')) as [->|Hne].
  - rewrite lookup_insert_eq. split.
    + intros (v & [= <-] & [Hx%elem_of_list_to_set|Hx]%elem_of_union); [by left|right]. destruct (m !! s'); [by eauto|by apply elem_of_empty in Hx].
    + intros H. eexists. split; [done|]. apply elem_of_union. destruct H as [[_ ?]|(v & Hv & ?)]; [left; by apply elem_of_list_to_set|right]. by rewrite Hv.
  - rewrite lookup_insert_ne by done. naive_solver.
Qed.

(** A fold of [extend_entry] over entries that each list something. *)
Lemma extend_all {A} (f : A → N) (g : A → list N) (l : list A) m :
  Forall (λ e, g e ≠ []) l → map_Forall (λ _ v, v ≠ ∅) m →
  let m' := foldl (λ m e, extend_entry m (f e) (g e)) m l in
  map_Forall (λ _ v, v ≠ ∅) m' ∧ ∀ s x, (s, x) ∈ map_pairs m' ↔ (∃ e, e ∈ l ∧ s = f e ∧ x ∈ g e) ∨ (s, x) ∈ map_pairs m.
Proof.
  revert m. induction l as [|e l IH]; intros m Hl Hm; cbn [foldl].
  - split; [done|]. intros s x. setoid_rewrite elem_of_nil. naive_solver.
  - apply Forall_cons in Hl as [He Hl]. destruct (IH _ Hl (extend_entry_nonempty m (f e) (g e) He Hm)) as [H1 H2]. split; [done|].
    intros s x. rewrite H2, elem_of_extend_entry. setoid_rewrite elem_of_cons. naive_solver.
Qed.

Lemma to_map_ok t : wf t → map_Forall (λ _ v, v ≠ ∅) (to_map t) ∧ ∀ p, p ∈ map_pairs (to_map t) ↔ p ∈ flat t.
Proof.
  intros Hwf. destruct t as [|s x|pairs|m]; cbn [to_map flat].
  - split; [apply map_Forall_empty|done].
  - split; [apply map_Forall_singleton; set_solver|]. intros [s' x']. rewrite elem_of_map_pairs, list_elem_of_singleton. split.
    + intros (ts & [<- <-]%lookup_singleton_Some & ->%elem_of_singleton). done.
    + intros [= -> ->]. exists {[x]}. rewrite lookup_singleton_eq. set_solver.
  - destruct (extend_all fst (λ p, [p.2]) pairs ∅) as [H1 H2]; [by apply Forall_forall|apply map_Forall_empty|].
    split; [done|]. intros [s x]. rewrite H2. setoid_rewrite list_elem_of_singleton. split.
    + intros [([s' x'] & Hp & -> & ->)|Hp]; [done|]. by apply elem_of_map_pairs in Hp as (? & ?%lookup_empty_Some & _).
    + intros Hp. left. by exists (s, x).
  - split; [apply Hwf|done].
Qed.

Lemma try_with_insert_inline_ok t state terminal r : wf t →
  try_with_insert_inline t state terminal = Some r → wf r ∧ ∀ p, p ∈ flat r ↔ p = (state, terminal) ∨ p ∈ flat t.
Proof.
  intros Hwf. unfold try_with_insert_inline. destruct (inline_pairs t) as [l|] eqn:Hl; [|done]. apply inline_pairs_flat in Hl as ->.
  cbn [mbind option_bind]. pose proof (binary_search_spec (flat t) (state, terminal) (flat_sorted t Hwf)) as Hb.
  destruct (binary_search (flat t) (state, terminal)) as [i|i].
  - intros [= <-]. split; [done|]. intros p. split; [by right|]. by intros [->|?].
  - destruct (N.ltb_spec (lenN (flat t)) INLINE_PAIR_CAPACITY); [|done]. intros [= <-]. destruct Hb as (_ & Hs & Hin & Hlen).
    destruct (from_sorted_pairs_ok _ Hs) as [Hw Hf]; [lia|]. split; [done|]. rewrite Hf. apply Hin.
Qed.

Lemma with_insert_ok t state terminal : wf t →
  wf (with_insert t state terminal) ∧ ∀ p, p ∈ flat (with_insert t state terminal) ↔ p = (state, terminal) ∨ p ∈ flat t.
Proof.
  intros Hwf. unfold with_insert. destruct (try_with_insert_inline t state terminal) as [r|] eqn:Hr.
  - by eapply try_with_insert_inline_ok.
  - destruct (to_map_ok t Hwf) as [Hne Hp]. destruct (from_map_ok (extend_entry (to_map t) state [terminal])) as [Hw Hf].
    { by apply extend_entry_nonempty. }
    split; [done|]. rewrite Hf. intros [s x]. rewrite elem_of_extend_entry, Hp, list_elem_of_singleton. naive_solver.
Qed.

(** ** Adding pairs inline *)

Definition inline_ok (l : list (N * N)) : Prop := sorted_pairs l ∧ lenN l ≤ INLINE_PAIR_CAPACITY.

Lemma merge_pair_ok l p : inline_ok l →
  match merge_pair l p with
  | Some l' => inline_ok l' ∧ ∀ q, q ∈ l' ↔ q = p ∨ q ∈ l
  | None => p ∉ l ∧ lenN l = INLINE_PAIR_CAPACITY
  end.
Proof.
  intros [Hs Hl]. unfold merge_pair. pose proof (binary_search_spec l p Hs) as Hb. destruct (binary_search l p) as [i|i].
  - split; [by split|]. naive_solver.
  - destruct Hb as (Hni & Hs' & Hin & Hlen). destruct (N.ltb_spec (lenN l) INLINE_PAIR_CAPACITY).
    + split; [split; [done|lia]|done].
    + split; [done|lia].
Qed.

(** When the pairs do not fit, no larger inline value holds them. *)
Lemma merge_pairs_ok l ps : inline_ok l →
  match foldM merge_pair l ps with
  | Some l' => inline_ok l' ∧ ∀ q, q ∈ l' ↔ q ∈ ps ∨ q ∈ l
  | None => ∀ k : list (N * N), (∀ q, q ∈ ps ∨ q ∈ l → q ∈ k) → INLINE_PAIR_CAPACITY < lenN k
  end.
Proof.
  revert l. induction ps as [|p ps IH]; intros l Hl; cbn [foldM].
  - split; [done|]. intros q. rewrite elem_of_nil. naive_solver.
  - pose proof (merge_pair_ok l p Hl) as Hp. destruct (merge_pair l p) as [l1|].
    + destruct Hp as [Hl1 Hin1]. specialize (IH l1 Hl1). cbn [mbind option_bind]. destruct (foldM merge_pair l1 ps) as [l'|].
      * split; [apply IH|]. intros q. rewrite elem_of_cons. destruct IH as [_ ->]. rewrite Hin1. tauto.
      * intros k Hk. apply IH. intros q Hq. apply Hk. rewrite elem_of_cons. rewrite Hin1 in Hq. tauto.
    + cbn [mbind option_bind]. destruct Hp as [Hni Hlen]. intros k Hk.
      assert (Hsub : p :: l ⊆+ k).
      { apply NoDup_submseteq; [constructor; [done|apply sorted_pairs_NoDup, Hl]|].
        intros q [->|Hq]%elem_of_cons; apply Hk; [left; by left|by right]. }
      apply submseteq_length in Hsub. unfold lenN in *. simpl in Hsub. lia.
Qed.

Lemma try_merge_inline_ok t u r : wf t → wf u →
  try_merge_inline t u = Some r → wf r ∧ ∀ p, p ∈ flat r ↔ p ∈ flat t ∨ p ∈ flat u.
Proof.
  intros Ht Hu. unfold try_merge_inline. destruct (inline_pairs t) as [l|] eqn:Hl; [|done].
  destruct (inline_pairs u) as [k|] eqn:Hk; [|done]. cbn [mbind option_bind].
  assert (Hil : inline_ok l).
  { pose proof (inline_pairs_flat _ _ Hl) as ->. split; [by apply flat_sorted|]. apply inline_length; [done|]. by destruct t. }
  pose proof (merge_pairs_ok l k Hil) as Hm. destruct (foldM merge_pair l k) as [l'|]; [|done]. cbn [mbind option_bind].
  intros [= <-]. destruct Hm as [[Hs Hlen] Hin]. destruct (from_sorted_pairs_ok _ Hs Hlen) as [Hw Hf]. split; [done|].
  rewrite Hf. intros p. rewrite Hin, (inline_pairs_flat _ _ Hl), (inline_pairs_flat _ _ Hk). tauto.
Qed.

Lemma merge_into_ok t u : wf t → wf u → wf (merge_into t u) ∧ ∀ p, p ∈ flat (merge_into t u) ↔ p ∈ flat t ∨ p ∈ flat u.
Proof.
  intros Ht Hu. unfold merge_into. destruct (is_subset_of t u) eqn:H1.
  { rewrite is_subset_of_ok in H1 by done. split; [done|]. naive_solver. }
  destruct (is_subset_of u t) eqn:H2.
  { rewrite is_subset_of_ok in H2 by done. split; [done|]. naive_solver. }
  destruct (try_merge_inline t u) as [r|] eqn:Hr; [by eapply try_merge_inline_ok|].
  destruct (to_map_ok t Ht) as [Hne Hp]. destruct (terminal_groups_ok u Hu) as (Hflat & _ & Hgs).
  destruct (extend_all fst (λ e, TerminalSetRef.values e.2) (groups u) (to_map t) Hgs Hne) as [H3 H4].
  destruct (from_map_ok _ H3) as [Hw Hf]. split; [done|]. rewrite Hf. intros [s x]. rewrite H4, Hp, <-Hflat, elem_of_ungroup. split.
  - intros [([s' r] & Hin & -> & Hx)|?]; [right; by exists r|by left].
  - intros [?|(r & Hin & Hx)]; [by right|left; by exists (s, r)].
Qed.

(** ** Remapping *)

Lemma remap_pair_eq l p : lenN l ≤ INLINE_PAIR_CAPACITY → remap_pair l p = merge_pair l p.
Proof.
  intros Hl. unfold remap_pair, merge_pair. destruct (binary_search l p); [done|].
  destruct (N.eqb_spec (lenN l) INLINE_PAIR_CAPACITY), (N.ltb_spec (lenN l) INLINE_PAIR_CAPACITY); done || lia.
Qed.

Lemma foldM_remap l ps : inline_ok l → foldM remap_pair l ps = foldM merge_pair l ps.
Proof.
  revert l. induction ps as [|p ps IH]; intros l Hl; [done|]. cbn [foldM]. rewrite remap_pair_eq by apply Hl.
  pose proof (merge_pair_ok l p Hl) as Hp. destruct (merge_pair l p); [|done]. apply IH, Hp.
Qed.

Lemma foldM_nested {A B C} (f : B → C → option B) (g : A → list C) (l : list A) (b : B) :
  foldM (λ b a, foldM f b (g a)) b l = foldM f b (concat (g <$> l)).
Proof.
  revert b. induction l as [|a l IH]; intros b; [done|]. cbn [foldM fmap list_fmap concat]. rewrite foldM_app.
  destruct (foldM f b (g a)); [apply IH|done].
Qed.

Lemma remap_terminals (l : list (N * N)) source x : x ∈ omap (λ p : N * N, if p.1 =? source then Some p.2 else None) l ↔ (source, x) ∈ l.
Proof.
  rewrite list_elem_of_omap. split.
  - intros ([s y] & Hp & Hm). cbn in Hm. destruct (N.eqb_spec s source) as [->|]; [|done]. by injection Hm as ->.
  - intros Hp. exists (source, x). split; [done|]. cbn. by rewrite N.eqb_refl.
Qed.

Lemma remap_inline_ok t source ends : wf t →
  match try_remap_single_state_inline t source ends with
  | Some r => is_inline t = true ∧ wf r ∧ ∀ e x, (e, x) ∈ flat r ↔ e ∈ ends ∧ (source, x) ∈ flat t
  | None => is_inline t = false ∨
      ∀ k : list (N * N), (∀ e x, e ∈ ends → (source, x) ∈ flat t → (e, x) ∈ k) → INLINE_PAIR_CAPACITY < lenN k
  end.
Proof.
  intros Hwf. unfold try_remap_single_state_inline. destruct (inline_pairs t) as [l|] eqn:Hl; [|left; by destruct t].
  assert (Hi : is_inline t = true) by (by destruct t). apply inline_pairs_flat in Hl as ->. cbn [mbind option_bind].
  pose proof (remap_terminals (flat t) source) as Hterm. set (ts := omap _ (flat t)) in *.
  destruct (decide (ts = [])) as [Hts|Hts]; [rewrite bool_decide_true by done|rewrite bool_decide_false by done]; cbn [orb].
  { split; [done|]. split; [done|]. intros e x. cbn. rewrite elem_of_nil, <-Hterm, Hts, elem_of_nil. tauto. }
  destruct (decide (ends = [])) as [->|He]; [rewrite bool_decide_true by done|rewrite bool_decide_false by done].
  { split; [done|]. split; [done|]. intros e x. cbn. rewrite !elem_of_nil. tauto. }
  set (ps := concat ((λ e, (λ x, (e, x)) <$> ts) <$> ends)).
  assert (Hps : ∀ e x, (e, x) ∈ ps ↔ e ∈ ends ∧ (source, x) ∈ flat t).
  { intros e x. unfold ps. rewrite elem_of_concat. setoid_rewrite list_elem_of_fmap. setoid_rewrite <-Hterm. split.
    - intros (lb & Hin & (e' & -> & He')). apply list_elem_of_fmap in Hin as (y & [= -> ->] & Hy). done.
    - intros [Hin Hx]. exists ((λ y, (e, y)) <$> ts). split; [apply list_elem_of_fmap; eauto|eauto]. }
  assert (Hfold : foldM (λ remapped e, foldM (λ r x, remap_pair r (e, x)) remapped ts) [] ends = foldM merge_pair [] ps).
  { rewrite <-foldM_remap by (split; [constructor|done]). unfold ps. rewrite <-foldM_nested.
    assert (Hin : ∀ e r l, foldM (λ r x, remap_pair r (e, x)) r l = foldM remap_pair r ((λ x, (e, x)) <$> l)).
    { intros e r l. revert r. induction l as [|x l IH]; intros r; [done|]. cbn. destruct (remap_pair r (e, x)); [apply IH|done]. }
    clear Hps ps He. generalize (@nil (N * N)). clearbody ts. induction ends as [|e l IH]; intros r; [done|]. cbn [foldM]. rewrite Hin.
    destruct (foldM remap_pair r _); [apply IH|done]. }
  rewrite Hfold. pose proof (merge_pairs_ok [] ps ltac:(by split; [constructor|])) as Hm.
  destruct (foldM merge_pair [] ps) as [l'|]; cbn [mbind option_bind].
  - destruct Hm as [[Hs Hlen] Hin]. destruct (from_sorted_pairs_ok _ Hs Hlen) as [Hw Hf]. split; [done|]. split; [done|].
    intros e x. rewrite Hf, Hin, Hps, elem_of_nil. tauto.
  - right. intros k Hk. apply Hm. intros [e x] [[? ?]%Hps|?%elem_of_nil]; [by apply Hk|done].
Qed.

(** * Counting *)

Lemma count_state_foldl gs acc :
  strictly_sorted gs.*1 → Forall (λ e, TerminalSetRef.values e.2 ≠ []) gs →
  (∀ s, acc.2 = Some s → s ∉ gs.*1) →
  (foldl count_state acc (ungroup gs)).1 = acc.1 + lenN gs.
Proof.
  revert acc. induction gs as [|[s r] gs IH]; intros [count prior] Hs Hne Hp; [unfold lenN; simpl; lia|].
  unfold ungroup. cbn [fmap list_fmap concat fst snd] in *. rewrite foldl_app. apply Forall_cons in Hne as [Hr Hne]. cbn in Hr.
  pose proof (strictly_sorted_NoDup _ Hs) as Hnd. apply NoDup_cons in Hnd as [Hni _]. apply StronglySorted_inv in Hs as [Hs _].
  destruct (TerminalSetRef.values r) as [|x xs]; [done|]. cbn [fmap list_fmap foldl count_state fst].
  rewrite bool_decide_false by (intros ->; apply (Hp s eq_refl); by left).
  assert (Hrest : ∀ l, foldl count_state (count + 1, Some s) ((λ x, (s, x)) <$> l) = (count + 1, Some s)).
  { intros l. induction l as [|y l IHl]; [done|]. cbn [fmap list_fmap foldl count_state fst]. by rewrite bool_decide_true. }
  rewrite Hrest. rewrite IH; [|done|done|by intros s' [= <-]]. cbn. unfold lenN. simpl. lia.
Qed.

Lemma len_ok t : wf t → len t = lenN (groups t).
Proof.
  intros Hwf. destruct (terminal_groups_ok t Hwf) as (Hflat & Hkeys & Hne). destruct t as [|s x|pairs|m]; [done..| |].
  - cbn [len flat] in *. rewrite <-Hflat at 1. rewrite count_state_foldl; [cbn; lia|done..].
  - unfold groups. cbn [len iter iter_bound]. replace (size m) with (length (bt_iter N.le m)).
    2:{ unfold bt_iter. by rewrite merge_sort_Permutation, length_map_to_list. }
    rewrite drain_many. unfold lenN. by rewrite length_fmap.
Qed.

(** * Results *)

#[export] Instance terminals_disallowed_laws : MergeLaws TerminalsDisallowed wf.
Proof.
  split; cbn [merge subsumes terminals_disallowed_merge].
  - intros. by apply merge_into_ok.
  - intros t Ht. unfold merge_into. by rewrite is_subset_of_refl.
  - intros t u Ht Hu. apply exclusions_ext; [by apply merge_into_ok..|]. intros p. rewrite (proj2 (merge_into_ok t u Ht Hu)), (proj2 (merge_into_ok u t Hu Ht)). tauto.
  - intros a b c Ha Hb Hc. pose proof (merge_into_ok a b Ha Hb) as [H1 H2]. pose proof (merge_into_ok b c Hb Hc) as [H3 H4].
    apply exclusions_ext; [by apply merge_into_ok..|]. intros p. rewrite (proj2 (merge_into_ok _ _ Ha H3)), (proj2 (merge_into_ok _ _ H1 Hc)), H2, H4. tauto.
  - intros t u Ht Hu. rewrite is_subset_of_ok by done. pose proof (merge_into_ok t u Ht Hu) as [H1 H2]. split.
    + intros Hsub. apply exclusions_ext; [done..|]. intros p. rewrite H2. naive_solver.
    + intros Heq p Hp. rewrite <-Heq, H2. by right.
Qed.

#[export] Instance unit_laws : MergeLaws unit (λ _, True).
Proof. by split; intros; repeat match goal with x : () |- _ => destruct x end. Qed.

(** The values the parser builds; its maps list no state without a terminal. *)
Inductive built : TerminalsDisallowed → Prop :=
| built_new : built new
| built_from_map m : map_Forall (λ _ s, s ≠ ∅) m → built (from_map m)
| built_insert t state terminal : built t → built (with_insert t state terminal)
| built_merge t u : built t → built u → built (merge t u)
| built_remap t r source ends : built t → try_remap_single_state_inline t source ends = Some r → built r.

Lemma built_ok t : built t → wf t.
Proof.
  induction 1 as [|m Hm|t s x _ IH|t u _ IHt _ IHu|t r src ends _ IH Hr]; [done|by apply from_map_ok|by apply with_insert_ok|by apply merge_into_ok|].
  pose proof (remap_inline_ok t src ends IH) as H. rewrite Hr in H. by apply H.
Qed.

Lemma pairs_of_inj t u : wf t → wf u → pairs_of t = pairs_of u → t = u.
Proof. intros Ht Hu H. apply exclusions_ext; [done..|]. intros p. by rewrite <-!elem_of_pairs_of, H. Qed.

Lemma pairs_of_merge t u : wf t → wf u → pairs_of (merge t u) = pairs_of t ∪ pairs_of u.
Proof. intros Ht Hu. apply set_eq. intros p. rewrite elem_of_union, !elem_of_pairs_of. by apply merge_into_ok. Qed.

(** Comparing values compares sets of pairs. *)
Lemma eq_ok ptr_eq t u : wf t → wf u → (ptr_eq = true → t = u) → eq ptr_eq t u = true ↔ t = u.
Proof.
  intros Ht Hu Hptr. split.
  - intros H. assert (Hboth : t = u ∨ (is_subset_of t u && is_subset_of u t) = true).
    { unfold eq in H. destruct t, u; auto. apply orb_true_iff in H as [H|H]; auto. }
    destruct Hboth as [->|[H1 H2]%andb_true_iff]; [done|].
    rewrite is_subset_of_ok in H1, H2 by done. apply exclusions_ext; [done..|]. naive_solver.
  - intros ->. unfold eq. pose proof (is_subset_of_refl u Hu) as Hr. destruct u; rewrite !Hr; by rewrite ?orb_true_r.
Qed.

(** C21: a value of exclusions that the parser builds is well-formed, inline
    exactly when it has at most four pairs, and represents its set of pairs
    alone: two values compare equal, whether or not they share an allocation,
    exactly when they have the same pairs, and then they are the same value and
    write the same to a hasher. *)
Theorem exclusions_canonical (ptr_eq : bool) (t u : TerminalsDisallowed) :
  built t → built u → (ptr_eq = true → t = u) →
  wf t ∧ (is_inline t = true ↔ N.of_nat (size (pairs_of t)) ≤ INLINE_PAIR_CAPACITY) ∧
  (eq ptr_eq t u = true ↔ pairs_of t = pairs_of u) ∧
  (pairs_of t = pairs_of u → t = u ∧ hash t = hash u).
Proof.
  intros Ht%built_ok Hu%built_ok Hptr. pose proof (pairs_of_inj t u Ht Hu) as Heq.
  split; [done|]. split; [|split; [|intros H; by rewrite (Heq H)]].
  - rewrite inline_length by done. unfold pairs_of, lenN. rewrite size_list_to_set; [done|]. by apply sorted_pairs_NoDup, flat_sorted.
  - rewrite eq_ok by done. split; [by intros ->|done].
Qed.

(** C22: the exclusions refine sets of pairs: insertion, union, inclusion,
    lookup, the number of states and iteration by ascending state are those of
    the set, inline or not. *)
Theorem exclusions_refine_sets (t u : TerminalsDisallowed) :
  wf t → wf u →
  (∀ state terminal, pairs_of (with_insert t state terminal) = {[(state, terminal)]} ∪ pairs_of t) ∧
  pairs_of (merge t u) = pairs_of t ∪ pairs_of u ∧
  (is_subset_of t u = true ↔ pairs_of t ⊆ pairs_of u) ∧ (is_empty t = true ↔ pairs_of t = ∅) ∧
  (∀ state, match get t state with
            | None => ∀ x, (state, x) ∉ pairs_of t
            | Some r => ∀ x, TerminalSetRef.contains r x = true ↔ (state, x) ∈ pairs_of t
            end) ∧
  strictly_sorted (groups t).*1 ∧ len t = lenN (groups t) ∧
  (∀ state x, (state, x) ∈ pairs_of t ↔ ∃ r, (state, r) ∈ groups t ∧ x ∈ TerminalSetRef.values r).
Proof.
  intros Ht Hu. split; [|split; [|split; [|split; [|split; [|split; [|split]]]]]].
  - intros s x. apply set_eq. intros p. rewrite elem_of_union, elem_of_singleton, !elem_of_pairs_of. by apply with_insert_ok.
  - by apply pairs_of_merge.
  - rewrite is_subset_of_ok by done. unfold subseteq, set_subseteq_instance. by setoid_rewrite elem_of_pairs_of.
  - split; [by destruct t|]. intros He. assert (Hn : ∀ p, p ∉ flat t) by (intros p; rewrite <-elem_of_pairs_of, He; apply not_elem_of_empty).
    assert (Hnil : flat t = flat Empty) by (destruct (flat t) as [|p l]; [done|]; destruct (Hn p); by left).
    by rewrite (wf_canonical t Empty Ht I Hnil).
  - intros s. pose proof (get_ok t s Ht) as Hg. destruct (get t s) as [r|]; intros x; rewrite elem_of_pairs_of; [|done].
    rewrite contains_values. apply Hg.
  - by apply terminal_groups_ok.
  - by apply len_ok.
  - intros s x. rewrite elem_of_pairs_of. destruct (terminal_groups_ok t Ht) as (<- & _). apply elem_of_ungroup.
Qed.

(** moving the exclusions of one state to others keeps exactly the
    terminals of that state, for each new state; it is refused only for a large
    value or when the result has more than four pairs. *)
Theorem remap_single_state_correct (t : TerminalsDisallowed) (source : N) (ends : list N) :
  wf t →
  match try_remap_single_state_inline t source ends with
  | Some r => is_inline t = true ∧ wf r ∧ ∀ e x, (e, x) ∈ pairs_of r ↔ e ∈ ends ∧ (source, x) ∈ pairs_of t
  | None => is_inline t = false ∨
      ∀ S : gset (N * N), (∀ e x, (e, x) ∈ S ↔ e ∈ ends ∧ (source, x) ∈ pairs_of t) → INLINE_PAIR_CAPACITY < N.of_nat (size S)
  end.
Proof.
  intros Hwf. pose proof (remap_inline_ok t source ends Hwf) as Hr.
  destruct (try_remap_single_state_inline t source ends).
  { destruct Hr as (? & ? & Hr). split; [done|]. split; [done|]. intros e x. by rewrite !elem_of_pairs_of. }
  destruct Hr as [Hr|Hr]; [by left|right].
  intros S HS. unfold size, set_size. simpl. apply (Hr (elements S)). intros e x He Hx.
  by apply elem_of_elements, HS; rewrite elem_of_pairs_of.
Qed.

(** * Examples *)

Definition sample_exclusions : TerminalsDisallowed :=
  with_insert (with_insert (with_insert (with_insert new 3 7) 1 9) 3 7) 3 2.

Definition sample_large : TerminalsDisallowed := merge sample_exclusions (with_insert (with_insert new 8 1) 1 4).

Example sample_exclusions_pairs : flat sample_large = [(1, 4); (1, 9); (3, 2); (3, 7); (8, 1)].
Proof. vm_compute. reflexivity. Qed.

Lemma exclusions_canonical_witness :
  is_inline sample_large = false ∧ eq false sample_large (with_insert sample_large 3 2) = true.
Proof.
  assert (Hb : built sample_exclusions) by repeat constructor.
  assert (Hl : built sample_large) by repeat constructor.
  split; [vm_compute; reflexivity|].
  destruct (exclusions_canonical false sample_large (with_insert sample_large 3 2) Hl (built_insert _ _ _ Hl)) as (_ & _ & H & _); [done|].
  apply H. vm_compute. reflexivity.
Defined.

Lemma exclusions_refine_sets_witness : len sample_large = 3 ∧ is_subset_of sample_exclusions sample_large = true.
Proof.
  assert (Hw : wf sample_exclusions) by (apply built_ok; repeat constructor).
  assert (Hl : wf sample_large) by (apply built_ok; repeat constructor).
  split; [vm_compute; reflexivity|].
  destruct (exclusions_refine_sets sample_exclusions sample_large Hw Hl) as (_ & _ & H & _). apply H.
  apply (bool_decide_eq_true_1 (pairs_of sample_exclusions ⊆ pairs_of sample_large)). vm_compute. reflexivity.
Defined.

Lemma remap_single_state_correct_witness :
  ∃ r, try_remap_single_state_inline sample_exclusions 3 [5; 4; 5] = Some r ∧ (5, 7) ∈ pairs_of r.
Proof.
  assert (Hw : wf sample_exclusions) by (apply built_ok; repeat constructor).
  pose proof (remap_single_state_correct sample_exclusions 3 [5; 4; 5] Hw) as H.
  destruct (try_remap_single_state_inline sample_exclusions 3 [5; 4; 5]) as [r|] eqn:Hr; [|vm_compute in Hr; discriminate].
  exists r. split; [done|]. apply H. split; [by left|]. apply elem_of_pairs_of. right. right. left.
Defined.
