(* ===== verification/CompactMap.v ===== *)
(** The small maps inside the parser stack
    (crates/glrmask-glr/src/ds/leveled_gss.rs): [CompactMap] and
    [CompactOrdMap], which keep a few entries inline and then move to a hash map
    or an ordered map. *)

From S2P Require Import Prelude.

(** The entries in iteration order, inline or not. *)
Inductive compact (K V : Type) :=
  | Inline (sv : list (K * V))
  | Large (m : list (K * V)).
#[global] Arguments Inline {K V} sv.
#[global] Arguments Large {K V} m.

Definition entries {K V} (m : compact K V) : list (K * V) :=
  match m with Inline l | Large l => l end.

Section compact.
Context {K V : Type} `{EqDecision K}.
Implicit Types (l : list (K * V)) (m : compact K V).

Definition compact_new : compact K V := Inline [].
Definition compact_unit (key : K) (value : V) : compact K V := Inline [(key, value)].
Definition compact_len m : N := lenN (entries m).
Definition compact_is_empty m : bool := bool_decide (length (entries m) = 0%nat).

(** [iter().find(|(k, _)| k == key)] *)
Fixpoint assoc (key : K) l : option V :=
  match l with [] => None | (k, v) :: l => if decide (k = key) then Some v else assoc key l end.

Definition compact_get m (key : K) : option V := assoc key (entries m).
Definition compact_contains_key m (key : K) : bool := existsb (λ e : K * V, bool_decide (e.1 = key)) (entries m).
Definition compact_keys m : list K := (entries m).*1.
Definition compact_values m : list V := (entries m).*2.
Definition compact_iter m : list (K * V) := entries m.

(** Replace the value of the key, with the old value; [None] when it is absent. *)
Fixpoint replace (key : K) (value : V) l : option (V * list (K * V)) :=
  match l with
  | [] => None
  | (k, v) :: l =>
      if decide (k = key) then Some (v, (k, value) :: l)
      else '(old, l) ← replace key value l; Some (old, (k, v) :: l)
  end.

(** [insert] of a map that keeps its entries in the order [place] chooses for a
    new key. *)
Definition large_insert (place : K → V → list (K * V) → list (K * V)) (key : K) (value : V) l
    : option V * list (K * V) :=
  match replace key value l with
  | Some (old, l) => (Some old, l)
  | None => (None, place key value l)
  end.

(** The inline entries are in insertion order; one entry over [capacity] moves
    them all, in order, to the large map. *)
Definition compact_insert (place : K → V → list (K * V) → list (K * V)) (capacity : N) (key : K) (value : V) m
    : option V * compact K V :=
  match m with
  | Inline sv =>
      match replace key value sv with
      | Some (old, sv) => (Some old, Inline sv)
      | None =>
          if lenN sv <? capacity then (None, Inline (sv ++ [(key, value)]))
          else
            let moved := foldl (λ (acc : list (K * V)) e, (large_insert place e.1 e.2 acc).2) [] sv in
            let '(old, m) := large_insert place key value moved in
            (old, Large m)
      end
  | Large m => let '(old, m) := large_insert place key value m in (old, Large m)
  end.

(** [*get_mut(key) = f(...)] *)
Definition alter_entries (f : V → V) (key : K) l : list (K * V) :=
  (λ e, if decide (e.1 = key) then (e.1, f e.2) else e) <$> l.

Definition compact_alter (f : V → V) (key : K) m : compact K V :=
  match m with Inline l => Inline (alter_entries f key l) | Large l => Large (alter_entries f key l) end.
End compact.

(** Derived equality: inline entries compare in order, large maps as maps. *)
Definition compact_eqb {K V} `{EqDecision K} (eqb : V → V → bool) (a b : compact K V) : bool :=
  match a, b with
  | Inline l, Inline k =>
      (fix go (l k : list (K * V)) : bool :=
        match l, k with
        | [], [] => true
        | (x, v) :: l, (y, w) :: k => bool_decide (x = y) && eqb v w && go l k
        | _, _ => false
        end) l k
  | Large l, Large k =>
      (length l =? length k)%nat &&
      (fix go (l : list (K * V)) : bool :=
        match l with
        | [] => true
        | (x, v) :: l => match assoc x k with Some w => eqb v w | None => false end && go l
        end) l
  | _, _ => false
  end.

(** ** [CompactOrdMap]: the large map is in key order *)

Fixpoint place_sorted {V} (key : N) (value : V) (l : list (N * V)) : list (N * V) :=
  match l with
  | [] => [(key, value)]
  | (k, v) :: rest => if key <? k then (key, value) :: l else (k, v) :: place_sorted key value rest
  end.

Definition ord_insert {V} (key : N) (value : V) (m : compact N V) : option V * compact N V :=
  compact_insert place_sorted 2 key value m.

(** [max_by_key], which takes the last of equals; the last entry of an ordered
    map. *)
Definition ord_get_max {V} (m : compact N V) : option (N * V) :=
  match m with
  | Inline sv =>
      foldl (λ acc e, match acc with Some best => if best.1 <=? e.1 then Some e else acc | None => Some e end) None sv
  | Large m => last m
  end.

Definition ord_from_iter {V} (l : list (N * V)) : compact N V :=
  foldl (λ m e, (ord_insert e.1 e.2 m).2) compact_new l.

(** * A map, whatever the layout *)

Section lemmas.
Context {K V : Type} `{EqDecision K}.
Implicit Types (l : list (K * V)) (m : compact K V).

Lemma assoc_elem k v l : NoDup l.*1 → assoc k l = Some v ↔ (k, v) ∈ l.
Proof.
  induction l as [|[k' v'] l IH]; intros Hnd; [split; [done|by intros ?%elem_of_nil]|].
  cbn in Hnd |- *. apply NoDup_cons in Hnd as [Hni Hnd]. rewrite elem_of_cons. case_decide as Hk.
  - subst. split; [intros [= ->]; by left|]. intros [[= ->]|Hin]; [done|].
    destruct Hni. apply list_elem_of_fmap. by exists (k, v).
  - rewrite IH by done. split; [by right|]. intros [[= -> ->]|?]; [done|done].
Qed.

Lemma assoc_None k l : assoc k l = None ↔ k ∉ l.*1.
Proof.
  induction l as [|[k' v'] l IH]; [split; [by intros _ ?%elem_of_nil|done]|]. cbn. rewrite not_elem_of_cons. case_decide; naive_solver.
Qed.

Lemma replace_spec k v l :
  match replace k v l with
  | Some (old, l') => assoc k l = Some old ∧ l'.*1 = l.*1 ∧ ∀ k' v', NoDup l.*1 → (k', v') ∈ l' ↔ (k' = k ∧ v' = v) ∨ (k' ≠ k ∧ (k', v') ∈ l)
  | None => k ∉ l.*1
  end.
Proof.
  induction l as [|[k1 v1] l IH]; [by intros ?%elem_of_nil|]. cbn [replace assoc fmap list_fmap fst]. case_decide as Hk.
  - subst k1. split; [done|]. split; [done|]. intros k' v' Hnd. apply NoDup_cons in Hnd as [Hni _].
    rewrite !elem_of_cons. split.
    + intros [[= -> ->]|Hin]; [by left|]. right. split; [|by right]. intros ->. apply Hni, list_elem_of_fmap. by exists (k, v').
    + intros [[-> ->]|[Hne [[= -> ->]|Hin]]]; [by left|done|by right].
  - destruct (replace k v l) as [[old l']|]; cbn [mbind option_bind].
    + destruct IH as (H1 & H2 & H3). split; [done|]. split; [cbn; by rewrite H2|]. intros k' v' Hnd. apply NoDup_cons in Hnd as [Hni Hnd].
      rewrite !elem_of_cons, H3 by done. split.
      * intros [[= -> ->]|[?|[? ?]]]; [right; auto|by left|right; auto].
      * intros [[-> ->]|[Hne [[= -> ->]|?]]]; auto.
    + rewrite not_elem_of_cons. done.
Qed.

(** Where a map puts a new key: anywhere. *)
Definition place_ok (place : K → V → list (K * V) → list (K * V)) : Prop :=
  ∀ k v l, place k v l ≡ₚ (k, v) :: l.

(** The content of a map and of the map after an insertion. *)
Definition inserted (k : K) (v : V) l l' : Prop :=
  NoDup l'.*1 ∧ ∀ k' v', (k', v') ∈ l' ↔ (k' = k ∧ v' = v) ∨ (k' ≠ k ∧ (k', v') ∈ l).

Lemma inserted_fresh k v l l' : NoDup l.*1 → k ∉ l.*1 → l' ≡ₚ (k, v) :: l → inserted k v l l'.
Proof.
  intros Hnd Hni Hp. split.
  - rewrite Hp. by constructor.
  - intros k' v'. rewrite Hp, elem_of_cons. split.
    + intros [[= -> ->]|Hin]; [by left|]. right. split; [|done]. intros ->. apply Hni, list_elem_of_fmap. by exists (k, v').
    + intros [[-> ->]|[_ ?]]; auto.
Qed.

Lemma large_insert_ok place k v l : place_ok place → NoDup l.*1 →
  (large_insert place k v l).1 = assoc k l ∧ inserted k v l (large_insert place k v l).2.
Proof.
  intros Hp Hnd. unfold large_insert. pose proof (replace_spec k v l) as Hr. destruct (replace k v l) as [[old l']|]; cbn.
  - destruct Hr as (-> & Hk & Hin). split; [done|]. split; [by rewrite Hk|]. intros k' v'. by apply Hin.
  - split; [by apply eq_sym, assoc_None|]. by apply inserted_fresh.
Qed.

Lemma large_moved_ok place l : place_ok place → NoDup l.*1 →
  foldl (λ (acc : list (K * V)) e, (large_insert place e.1 e.2 acc).2) [] l ≡ₚ l.
Proof.
  intros Hp. induction l as [|[k v] l IH] using rev_ind; [done|]. intros Hnd. rewrite fmap_app in Hnd.
  apply NoDup_app in Hnd as (Hnd & Hni & _). rewrite foldl_app. cbn [foldl fst snd]. unfold large_insert at 1.
  pose proof (replace_spec k v (foldl (λ (acc : list (K * V)) e, (large_insert place e.1 e.2 acc).2) [] l)) as Hr. specialize (IH Hnd).
  destruct (replace k v _) as [[old l']|]; cbn [snd].
  - destruct Hr as (Hr & _). assert (Hk : k ∈ l.*1).
    { rewrite <-IH. destruct (decide (k ∈ (foldl (λ (acc : list (K * V)) e, (large_insert place e.1 e.2 acc).2) [] l).*1)) as [|Hn]; [done|].
      apply assoc_None in Hn. by rewrite Hn in Hr. }
    destruct (Hni k Hk). cbn. by left.
  - rewrite (Hp k v _), IH. by rewrite Permutation_app_comm.
Qed.

Lemma compact_insert_ok place capacity k v m : place_ok place → NoDup (entries m).*1 →
  (compact_insert place capacity k v m).1 = compact_get m k ∧
  inserted k v (entries m) (entries (compact_insert place capacity k v m).2).
Proof.
  intros Hp Hnd. destruct m as [sv|l]; cbn [compact_insert entries] in *.
  - pose proof (replace_spec k v sv) as Hr. unfold compact_get. cbn [entries]. destruct (replace k v sv) as [[old sv']|] eqn:Hreq.
    + destruct Hr as (-> & Hk & Hin). split; [done|]. split; [cbn; by rewrite Hk|]. intros k' v'. by apply Hin.
    + rewrite (proj2 (assoc_None k sv) Hr). destruct (lenN sv <? capacity).
      * split; [done|]. apply inserted_fresh; [done|done|]. cbn. by rewrite Permutation_app_comm.
      * pose proof (large_moved_ok place sv Hp Hnd) as Hm. set (moved := foldl _ [] sv) in *.
        destruct (large_insert_ok place k v moved Hp) as [H1 [H2 H3]]; [by rewrite Hm|].
        destruct (large_insert place k v moved) as [old l]. cbn [fst snd entries] in *. split.
        -- rewrite H1. apply assoc_None. by rewrite Hm.
        -- split; [done|]. intros k' v'. by rewrite H3, Hm.
  - destruct (large_insert_ok place k v l Hp Hnd) as [H1 H2]. by destruct (large_insert place k v l).
Qed.

Lemma compact_get_elem m k v : NoDup (entries m).*1 → compact_get m k = Some v ↔ (k, v) ∈ entries m.
Proof. apply assoc_elem. Qed.

Lemma compact_get_None m k : compact_get m k = None ↔ k ∉ (entries m).*1.
Proof. apply assoc_None. Qed.

Lemma alter_entries_keys f k l : (alter_entries f k l).*1 = l.*1.
Proof. unfold alter_entries. rewrite <-list_fmap_compose. apply list_fmap_ext. intros _ [k' v'] _. cbn. by case_decide. Qed.

Lemma entries_alter f k m : entries (compact_alter f k m) = alter_entries f k (entries m).
Proof. by destruct m. Qed.

Lemma elem_of_alter_entries f k l k' v' :
  (k', v') ∈ alter_entries f k l ↔ ∃ v, (k', v) ∈ l ∧ v' = (if decide (k' = k) then f v else v).
Proof.
  unfold alter_entries. rewrite list_elem_of_fmap. split.
  - intros ([k1 v1] & Heq & Hin). cbn in Heq. case_decide; injection Heq as -> ->; exists v1; (split; [done|]).
    + by rewrite decide_True.
    + by rewrite decide_False.
  - intros (v & Hin & ->). exists (k', v). split; [|done]. cbn. by case_decide.
Qed.

(** An insertion under a present key only changes its value. *)
Lemma inserted_elem k v l l' e : inserted k v l l' → e ∈ l' → e = (k, v) ∨ e ∈ l.
Proof. destruct e as [k' v']. intros [_ H] Hin. apply H in Hin as [[-> ->]|[_ ?]]; auto. Qed.

Lemma inserted_self k v l l' : inserted k v l l' → (k, v) ∈ l'.
Proof. intros [_ H]. apply H. by left. Qed.

Lemma inserted_old k v l l' k' v' : inserted k v l l' → k' ≠ k → (k', v') ∈ l → (k', v') ∈ l'.
Proof. intros [_ H] Hne Hin. apply H. by right. Qed.
End lemmas.

Lemma place_sorted_ok {V} : place_ok (@place_sorted V).
Proof.
  intros k v l. induction l as [|[k' v'] l IH]; [done|]. cbn. destruct (k <? k'); [done|]. rewrite IH. apply Permutation_swap.
Qed.

Lemma ord_insert_ok {V} k (v : V) m : NoDup (entries m).*1 →
  (ord_insert k v m).1 = compact_get m k ∧ inserted k v (entries m) (entries (ord_insert k v m).2).
Proof. apply compact_insert_ok, place_sorted_ok. Qed.

(** A large ordered map is sorted. *)
Definition ord_sorted {V} (m : compact N V) : Prop :=
  match m with Inline _ => True | Large l => strictly_sorted l.*1 end.

Lemma place_sorted_sorted {V} k (v : V) l : strictly_sorted l.*1 → k ∉ l.*1 → strictly_sorted (place_sorted k v l).*1.
Proof.
  induction l as [|[k' v'] l IH]; [repeat constructor|]. cbn. intros Hs Hni. apply not_elem_of_cons in Hni as [Hne Hni].
  pose proof Hs as Hs'. apply StronglySorted_inv in Hs as [Hs Hall]. destruct (N.ltb_spec k k').
  - cbn. constructor; [done|]. constructor; [done|]. eapply Forall_impl; [exact Hall|]. intros x Hx. lia.
  - cbn. constructor; [by apply IH|]. rewrite (place_sorted_ok k v l). cbn. constructor; [lia|done].
Qed.

Lemma large_insert_sorted {V} k (v : V) l : strictly_sorted l.*1 → strictly_sorted (large_insert place_sorted k v l).2.*1.
Proof.
  intros Hs. unfold large_insert. pose proof (replace_spec k v l) as Hr. destruct (replace k v l) as [[old l']|]; cbn.
  - destruct Hr as (_ & -> & _). done.
  - by apply place_sorted_sorted.
Qed.

Lemma ord_insert_sorted {V} k (v : V) m : ord_sorted m → ord_sorted (ord_insert k v m).2.
Proof.
  intros Hs. unfold ord_insert. destruct m as [sv|l]; cbn [compact_insert].
  - destruct (replace k v sv) as [[old sv']|]; [done|]. destruct (lenN sv <? 2); [done|].
    assert (Hm : strictly_sorted (foldl (λ (acc : list (N * V)) e, (large_insert place_sorted e.1 e.2 acc).2) [] sv).*1).
    { apply (foldl_inv (λ acc : list (N * V), strictly_sorted acc.*1)); [|constructor]. intros acc x _ Hx. by apply large_insert_sorted. }
    pose proof (large_insert_sorted k v _ Hm) as H. by destruct (large_insert place_sorted k v _).
  - pose proof (large_insert_sorted k v _ Hs) as H. by destruct (large_insert place_sorted k v l).
Qed.

Lemma ord_get_max_spec {V} (m : compact N V) : NoDup (entries m).*1 → ord_sorted m →
  match ord_get_max m with
  | Some (k, v) => (k, v) ∈ entries m ∧ ∀ k' v', (k', v') ∈ entries m → k' ≤ k
  | None => entries m = []
  end.
Proof.
  intros Hnd Hs. destruct m as [sv|l]; cbn [ord_get_max entries] in *.
  - clear Hs Hnd. induction sv as [|[k v] sv IH] using rev_ind; [done|]. rewrite foldl_app. cbn [foldl].
    destruct (foldl _ None sv) as [[k1 v1]|].
    + destruct IH as [H1 H2]. cbn [fst]. destruct (N.leb_spec k1 k); (split; [apply elem_of_app; try (by left); right; by left|]);
        intros k' v' [Hin|[= -> ->]%list_elem_of_singleton]%elem_of_app; try lia; specialize (H2 _ _ Hin); lia.
    + subst sv. split; [by left|]. intros k' v' [= -> ->]%list_elem_of_singleton. lia.
  - destruct l as [|e l _] using rev_ind; [done|]. rewrite last_snoc. destruct e as [k v]. split; [apply elem_of_app; right; by left|].
    intros k' v' [Hin|[= -> ->]%list_elem_of_singleton]%elem_of_app; [|lia]. cbn [ord_sorted] in Hs. unfold strictly_sorted in Hs. rewrite fmap_app in Hs.
    apply StronglySorted_app in Hs as (Hlt & _ & _). assert (k' < k); [|lia]. apply Hlt; [apply list_elem_of_fmap; by exists (k', v')|by left].
Qed.
