(* ===== verification/Gss.v ===== *)
(** The graph-structured parser stack
    (crates/glrmask-glr/src/ds/leveled_gss.rs): many stacks, shared from the
    bottom, each with an accumulator. *)

From S2P Require Import Prelude Accumulator CompactMap.

(** * Computations

    Whether two [Arc]s are one allocation depends on the whole run and not on
    the values they point to. [W] is that run: it answers each question, and
    all that is known is that equal pointers have equal contents. [None] is a
    panic. *)

Section computations.
Context {W : Type}.

Definition M (A : Type) : Type := W → option (A * W).
Definition ret {A} (a : A) : M A := λ w, Some (a, w).
Definition bind {A B} (m : M A) (k : A → M B) : M B :=
  λ w, match m w with Some (a, w) => k a w | None => None end.
Definition panic {A} : M A := λ _, None.

Definition unwrap {A} (x : option A) : M A := match x with Some a => ret a | None => panic end.

Fixpoint for_each {A B} (f : B → A → M B) (b : B) (l : list A) : M B :=
  match l with [] => ret b | a :: l => bind (f b a) (λ b, for_each f b l) end.

(** A search that asks about one element after the other. *)
Fixpoint find_m {A} (p : A → M bool) (l : list A) : M (option A) :=
  match l with
  | [] => ret None
  | a :: l => bind (p a) (λ b, if (b : bool) then ret (Some a) else find_m p l)
  end.
End computations.
#[global] Arguments M W A : clear implicits.

Notation "'let!' x := m 'in' k" := (bind m (λ x, k)) (at level 200, x binder, right associativity).

(** * Lower nodes *)

Abbreviation children_of T V := (compact T (compact N V)).

Section lower.
Context {T : Type} `{EqDecision T} {W : Type}.
(** [Arc::ptr_eq] and [HashMap::ptr_eq] *)
Context (ptr_eq : ∀ V : Type, V → V → M W bool).
(** Where a hash map puts the entry of a new key. *)
Context (place : ∀ V : Type, T → V → list (T * V) → list (T * V)).

(** [Segment]'s [rest] cell caches what [segment_rest_arc] computes. *)
Inductive Lower :=
  | General (children : children_of T Lower) (empty : bool) (max_depth : N)
  | Segment (values : list T) (next : Lower) (max_depth : N) (segments_len : N).

Definition map_insert {V} (key : T) (value : V) (m : compact T V) : compact T V :=
  (compact_insert (place V) 4 key value m).2.
Definition kids_insert {V} (key : N) (value : V) (m : compact N V) : compact N V := (ord_insert key value m).2.

Definition lower_empty (l : Lower) : bool := match l with General _ empty _ => empty | Segment _ _ _ _ => false end.
Definition lower_max_depth (l : Lower) : N := match l with General _ _ d => d | Segment _ _ d _ => d end.
Definition lower_segments_len (l : Lower) : N := match l with General _ _ _ => 0 | Segment _ _ _ n => n end.
Definition is_segment (l : Lower) : bool := match l with Segment _ _ _ _ => true | General _ _ _ => false end.
Definition children_is_empty (l : Lower) : bool :=
  match l with General children _ _ => compact_is_empty children | Segment _ _ _ _ => false end.
Definition children_len (l : Lower) : N := match l with General children _ _ => compact_len children | Segment _ _ _ _ => 1 end.
Definition children_contains_key (l : Lower) (key : T) : M W bool :=
  match l with
  | General children _ _ => ret (compact_contains_key children key)
  | Segment values _ _ _ => let! v := unwrap (last values) in ret (bool_decide (v = key))
  end.
Definition segment_top_value (l : Lower) : M W T :=
  match l with Segment values _ _ _ => unwrap (last values) | General _ _ _ => panic end.
Definition segment_next (l : Lower) : M W Lower := match l with Segment _ next _ _ => ret next | General _ _ _ => panic end.
Definition segment_values (l : Lower) : M W (list T) := match l with Segment values _ _ _ => ret values | General _ _ _ => panic end.

(** [values.take(values.len() - 1)] under the rest of the segment. *)
Definition segment_rest_arc (l : Lower) : M W Lower :=
  match l with
  | Segment values next max_depth segments_len =>
      if (length values =? 1)%nat then ret next
      else if (length values =? 0)%nat then panic
      else ret (Segment (take (length values - 1) values) next (u32_wrapping_sub max_depth 1) (segments_len - 1))
  | General _ _ _ => panic
  end.

Definition lower_children (l : Lower) : M W (children_of T Lower) :=
  match l with
  | General children _ _ => ret children
  | Segment values _ _ _ =>
      let! top_value := unwrap (last values) in
      let! child := segment_rest_arc l in
      ret (compact_unit top_value (compact_unit (lower_max_depth child) child))
  end.

(** Derived equality. *)
Fixpoint lower_eqb (a b : Lower) : bool :=
  match a, b with
  | General c1 e1 d1, General c2 e2 d2 => compact_eqb (compact_eqb lower_eqb) c1 c2 && Bool.eqb e1 e2 && (d1 =? d2)
  | Segment v1 n1 d1 s1, Segment v2 n2 d2 s2 => bool_decide (v1 = v2) && lower_eqb n1 n2 && (d1 =? d2) && (s1 =? s2)
  | _, _ => false
  end.

Definition max_depth_from_children {V} (depth_of : V → N) (children : children_of T V) : N :=
  match depth_of <$> concat (compact_values <$> compact_values children) with
  | [] => 0
  | d :: l => u32_wrapping_add (foldl N.max d l) 1
  end.

Definition new_segment (values : list T) (next : Lower) : Lower :=
  match next with
  | Segment child_values child_next _ _ =>
      let merged := child_values ++ values in
      Segment merged child_next (u32_wrapping_add (lower_max_depth child_next) (as_u32 (lenN merged)))
        (lenN merged + lower_segments_len child_next)
  | General _ _ _ =>
      Segment values next (u32_wrapping_add (lower_max_depth next) (as_u32 (lenN values)))
        (lenN values + lower_segments_len next)
  end.

(** [Arc::ptr_eq(a, b) || a == b] *)
Definition lower_same (a b : Lower) : M W bool :=
  let! p := ptr_eq Lower a b in
  ret (p || lower_eqb a b).

(** The first node seen with the depth and the content. *)
Definition find_seen (seen : list (N * Lower)) (depth : N) (child : Lower) : M W (option (N * Lower)) :=
  find_m (λ e : N * Lower, if e.1 =? depth then lower_same e.2 child else ret false) seen.

Definition canonicalize_entry (key : T) (st : children_of T Lower * list (N * Lower)) (entry : N * Lower)
    : M W (children_of T Lower * list (N * Lower)) :=
  let '(children, seen) := st in
  let! canonical := find_seen seen entry.1 entry.2 in
  match canonical with
  | Some (_, existing) =>
      let! p := ptr_eq Lower existing entry.2 in
      if (p : bool) then ret (children, seen) else ret (compact_alter (kids_insert entry.1 existing) key children, seen)
  | None => ret (children, seen ++ [entry])
  end.

Definition canonicalize_key (st : children_of T Lower * list (N * Lower)) (key : T)
    : M W (children_of T Lower * list (N * Lower)) :=
  let kids := default [] (compact_iter <$> compact_get st.1 key) in
  for_each (canonicalize_entry key) st kids.

Definition canonicalize_lower_children (children : children_of T Lower) : M W (children_of T Lower) :=
  if compact_len children <=? 1 then ret children
  else let! st := for_each canonicalize_key (children, []) (compact_keys children) in ret st.1.

(** A node with one edge is a segment, unless it accepts. *)
Definition compress (children : children_of T Lower) (empty : bool) : Lower :=
  let general := General children empty (max_depth_from_children lower_max_depth children) in
  if negb empty then
    match entries children with
    | [(key, kids)] => match entries kids with [(_, next)] => new_segment [key] next | _ => general end
    | _ => general
    end
  else general.

Definition new_lower (children : children_of T Lower) (empty : bool) : M W Lower :=
  let! children := canonicalize_lower_children children in
  ret (compress children empty).

(** ** Merging *)

(** The entries of the second map one after the other. *)
Definition merge_kids {V} (merge_fn : V → V → M W V) (kids : compact N V) (other : compact N V) : M W (compact N V) :=
  for_each (λ new_map (e : N * V),
    match compact_get new_map e.1 with
    | Some child1 => let! merged_child := merge_fn child1 e.2 in ret (kids_insert e.1 merged_child new_map)
    | None => ret (kids_insert e.1 e.2 new_map)
    end) kids (compact_iter other).

(** [ptr_eq] of two maps: only large ones can be shared. *)
Definition map_ptr_eq {V} (a b : compact T V) : M W bool :=
  match a, b with Large l, Large k => ptr_eq (compact T V) a b | _, _ => ret false end.

Definition merge_children {V} (merge_fn : V → V → M W V) (c1 c2 : children_of T V) : M W (children_of T V) :=
  let! p := map_ptr_eq c1 c2 in
  if (p : bool) then ret c1
  else
    for_each (λ merged (e : T * compact N V),
      match compact_get merged e.1 with
      | Some v1_map => let! new_map := merge_kids merge_fn v1_map e.2 in ret (map_insert e.1 new_map merged)
      | None => ret (map_insert e.1 e.2 merged)
      end) c1 (compact_iter c2).

(** A segment against a map of children. *)
Definition merge_segment_children (merge_fn : Lower → Lower → M W Lower) (seg : Lower) (children : children_of T Lower)
    : M W (children_of T Lower) :=
  let! value := segment_top_value seg in
  let! rest := segment_rest_arc seg in
  let depth := lower_max_depth rest in
  match compact_get children value with
  | Some existing =>
      match compact_get existing depth with
      | Some existing_child =>
          let! merged := merge_fn existing_child rest in
          ret (map_insert value (kids_insert depth merged existing) children)
      | None => ret (map_insert value (kids_insert depth rest existing) children)
      end
  | None => ret (map_insert value (compact_unit depth rest) children)
  end.

Definition merge_segments (merge_fn : Lower → Lower → M W Lower) (l1 l2 : Lower) : M W (children_of T Lower) :=
  let! v1 := segment_top_value l1 in
  let! v2 := segment_top_value l2 in
  let! r1 := segment_rest_arc l1 in
  let! r2 := segment_rest_arc l2 in
  if decide (v1 = v2) then
    let! merged_next := merge_fn r1 r2 in
    ret (compact_unit v1 (compact_unit (lower_max_depth merged_next) merged_next))
  else
    let c := compact_unit v1 (compact_unit (lower_max_depth r1) r1) in
    ret (map_insert v2 (compact_unit (lower_max_depth r2) r2) c).

(** Both segments stand on one node and have the same values. *)
Definition same_segment (l1 l2 : Lower) : M W bool :=
  match l1, l2 with
  | Segment v1 n1 _ _, Segment v2 n2 _ _ =>
      let! p := ptr_eq Lower n1 n2 in
      ret (p && bool_decide (v1 = v2))
  | _, _ => ret false
  end.

Definition merge_lower_body (merge_fn : Lower → Lower → M W Lower) (l1 l2 : Lower) : M W Lower :=
  let! p := ptr_eq Lower l1 l2 in
  if (p : bool) then ret l1
  else
    let! same := same_segment l1 l2 in
    if (same : bool) then ret l1
    else
      let! merged_children :=
        match l1, l2 with
        | Segment _ _ _ _, Segment _ _ _ _ => merge_segments merge_fn l1 l2
        | Segment _ _ _ _, General children _ _ => merge_segment_children merge_fn l1 children
        | General children _ _, Segment _ _ _ _ => merge_segment_children merge_fn l2 children
        | General c1 _ _, General c2 _ _ => merge_children merge_fn c1 c2
        end in
      new_lower merged_children (lower_empty l1 || lower_empty l2).

Fixpoint merge_lower_fuel (fuel : nat) : Lower → Lower → M W Lower :=
  match fuel with
  | 0%nat => λ _ _, panic
  | S fuel => merge_lower_body (merge_lower_fuel fuel)
  end.

(** The number of values on the longest way down; the recursion of [merge_lower]
    goes down in both nodes. *)
Fixpoint lower_height (l : Lower) : nat :=
  match l with
  | General children _ _ =>
      S (foldr (λ e : T * compact N Lower, Nat.max (foldr (λ e : N * Lower, Nat.max (lower_height e.2)) 0%nat (entries e.2))) 0%nat
           (entries children))
  | Segment values next _ _ => length values + lower_height next
  end.

Definition merge_lower (l1 l2 : Lower) : M W Lower := merge_lower_fuel (lower_height l1 + lower_height l2) l1 l2.
End lower.
#[global] Arguments Lower T : clear implicits.

(** * Upper nodes *)

(** The equality of accumulators. *)
Class AccEq (A : Type) := acc_eqb : A → A → bool.

(** [Arc<UpperBranch>] and [Arc<Interface>] under one enum. *)
Inductive Upper (T A : Type) :=
  | Branch (children : children_of T (Upper T A)) (empty : option A) (max_depth : N)
  | Interface (inner : Lower T) (acc : A).
#[global] Arguments Branch {T A} children empty max_depth.
#[global] Arguments Interface {T A} inner acc.

Section upper.
Context {T : Type} `{EqDecision T} {W : Type}.
Context (ptr_eq : ∀ V : Type, V → V → M W bool).
Context (place : ∀ V : Type, T → V → list (T * V) → list (T * V)).
Context {A : Type} `{Merge A, AccEq A}.
Abbreviation merge_lower := (merge_lower ptr_eq place).
Abbreviation new_lower := (new_lower (W:=W) ptr_eq).
Abbreviation map_insert := (map_insert place).

Definition upper_max_depth (u : Upper T A) : N :=
  match u with Branch _ _ d => d | Interface inner _ => lower_max_depth inner end.
Definition new_branch (children : children_of T (Upper T A)) (empty : option A) : Upper T A :=
  Branch children empty (max_depth_from_children upper_max_depth children).
Definition empty_upper_inner : Upper T A := new_branch compact_new None.

Definition merge_optional_acc (a b : option A) : option A :=
  match a, b with
  | None, Some bv => Some bv
  | Some av, None => Some av
  | Some av, Some bv => Some (merge av bv)
  | None, None => None
  end.

Definition all_kids {V} (children : children_of T V) : list V := concat (compact_values <$> compact_values children).

(** [accs.insert(acc)] of a [HashSet] *)
Definition acc_insert (accs : list A) (acc : A) : list A :=
  if existsb (acc_eqb acc) accs then accs else accs ++ [acc].

Definition is_interface (u : Upper T A) : bool := match u with Interface _ _ => true | Branch _ _ _ => false end.

Definition lower_kids (kids : compact N (Upper T A)) : compact N (Lower T) :=
  foldl (λ v_map child, match child with
                        | Interface lower _ => kids_insert (lower_max_depth lower) lower v_map
                        | Branch _ _ _ => v_map
                        end) compact_new (compact_values kids).

Definition lower_children_of (children : children_of T (Upper T A)) : children_of T (Lower T) :=
  foldl (λ l_children e,
    let v_map := lower_kids e.2 in
    if compact_is_empty v_map then l_children else map_insert e.1 v_map l_children) compact_new (compact_iter children).

(** A branch whose accumulators are all one becomes an interface. *)
Definition try_promote (node : Upper T A) : M W (Upper T A) :=
  match node with
  | Interface _ _ => ret node
  | Branch children empty _ =>
      let kids := all_kids children in
      if negb (forallb is_interface kids) then ret node
      else
        match kids with
        | [] =>
            match empty with
            | Some acc => let! lower_root := new_lower compact_new true in ret (Interface lower_root acc)
            | None => ret node
            end
        | _ =>
            let accs := foldl (λ accs c, match c with Interface _ acc => acc_insert accs acc | Branch _ _ _ => accs end)
                          (match empty with Some acc => acc_insert [] acc | None => [] end) kids in
            match accs with
            | [the_acc] =>
                let! lower_root := new_lower (lower_children_of children) (bool_decide (is_Some empty)) in
                ret (Interface lower_root the_acc)
            | [] => ret empty_upper_inner
            | _ => ret node
            end
        end
  end.

Definition interface_kids (acc : A) (kids : compact N (Lower T)) : compact N (Upper T A) :=
  foldl (λ v_map lchild, let ci := Interface lchild acc in kids_insert (upper_max_depth ci) ci v_map) compact_new (compact_values kids).

Definition interface_children (acc : A) (children : children_of T (Lower T)) : children_of T (Upper T A) :=
  foldl (λ result e,
    let v_map := interface_kids acc e.2 in
    if compact_is_empty v_map then result else map_insert e.1 v_map result) compact_new (compact_iter children).

Definition interface_to_upperbranch (inner : Lower T) (acc : A) : M W (Upper T A) :=
  let! children :=
    match inner with
    | Segment _ _ _ _ =>
        let! value := segment_top_value inner in
        let! rest := segment_rest_arc inner in
        let ci := Interface rest acc in
        ret (map_insert value (compact_unit (upper_max_depth ci) ci) compact_new)
    | General children _ _ => ret (interface_children acc children)
    end in
  ret (new_branch children (if lower_empty inner then Some acc else None)).

Definition nonempty_deterministic_top_step (lower : Lower T) : M W (option (T * Lower T)) :=
  match lower with
  | Segment values _ _ _ =>
      match last values with
      | Some value => let! rest := segment_rest_arc lower in ret (Some (value, rest))
      | None => ret None
      end
  | General children empty _ =>
      match entries children with
      | [(value, kids)] =>
          if empty then ret None
          else match entries kids with [(_, child)] => ret (Some (value, child)) | _ => ret None end
      | _ => ret None
      end
  end.

Fixpoint shared_nonempty_deterministic_prefix (fuel : nat) (left right : Lower T) : M W (list T * Lower T * Lower T) :=
  match fuel with
  | 0%nat => panic
  | S fuel =>
      let! l := nonempty_deterministic_top_step left in
      match l with
      | None => ret ([], left, right)
      | Some (left_value, next_left) =>
          let! r := nonempty_deterministic_top_step right in
          match r with
          | None => ret ([], left, right)
          | Some (right_value, next_right) =>
              if decide (left_value = right_value) then
                let! rest := shared_nonempty_deterministic_prefix fuel next_left next_right in
                let '(prefix, left_rest, right_rest) := rest in
                ret (left_value :: prefix, left_rest, right_rest)
              else ret ([], left, right)
          end
      end
  end.

Definition merge_upperbranches (merge_fn : Upper T A → Upper T A → M W (Upper T A)) (a b : Upper T A) : M W (Upper T A) :=
  match a, b with
  | Branch c1 e1 d1, Branch c2 e2 d2 =>
      let! p := ptr_eq (Upper T A) a b in
      if (p : bool) then ret a
      else
        let new_empty := merge_optional_acc e1 e2 in
        let! merged_children := merge_children ptr_eq place merge_fn c1 c2 in
        try_promote (Branch merged_children new_empty (N.max d1 d2))
  | _, _ => panic
  end.

(** The values of the prefix, pushed back one by one. *)
Definition push_prefix (merged : Upper T A) (value : T) : M W (Upper T A) :=
  try_promote (new_branch (compact_unit value (compact_unit (upper_max_depth merged) merged)) None).

Fixpoint merge_upper_fuel (fuel : nat) (u1 u2 : Upper T A) : M W (Upper T A) :=
  match fuel with
  | 0%nat => panic
  | S fuel =>
      let! p := ptr_eq (Upper T A) u1 u2 in
      if (p : bool) then ret u1
      else
        match u1, u2 with
        | Interface i1 a1, Interface i2 a2 => merge_interfaces_fuel fuel i1 a1 i2 a2
        | Branch _ _ _, Branch _ _ _ => merge_upperbranches (merge_upper_fuel fuel) u1 u2
        | Branch _ _ _, Interface i a => let! ub := interface_to_upperbranch i a in merge_upperbranches (merge_upper_fuel fuel) u1 ub
        | Interface i a, Branch _ _ _ => let! ub := interface_to_upperbranch i a in merge_upperbranches (merge_upper_fuel fuel) u2 ub
        end
  end
with merge_interfaces_fuel (fuel : nat) (i1 : Lower T) (a1 : A) (i2 : Lower T) (a2 : A) : M W (Upper T A) :=
  match fuel with
  | 0%nat => panic
  | S fuel =>
      let acc_equal := acc_eqb a1 a2 in
      let! inner_ptr_eq := ptr_eq (Lower T) i1 i2 in
      if (inner_ptr_eq : bool) then
        if subsumes a2 a1 then ret (Interface i2 a2)
        else if subsumes a1 a2 then ret (Interface i1 a1)
        else ret (Interface i1 (merge a1 a2))
      else if acc_equal then
        let! merged_lower := merge_lower i1 i2 in
        ret (Interface merged_lower (merge a1 a2))
      else
        let! shared := shared_nonempty_deterministic_prefix (S (lower_height i1)) i1 i2 in
        let '(shared_prefix, left_rest, right_rest) := shared in
        if bool_decide (shared_prefix = []) then
          let! ub1 := interface_to_upperbranch i1 a1 in
          let! ub2 := interface_to_upperbranch i2 a2 in
          merge_upperbranches (merge_upper_fuel fuel) ub1 ub2
        else
          let! merged := merge_interfaces_fuel fuel left_rest a1 right_rest a2 in
          for_each push_prefix merged (rev shared_prefix)
  end.

Fixpoint upper_height (u : Upper T A) : nat :=
  match u with
  | Branch children _ _ =>
      S (foldr (λ e : T * compact N (Upper T A), Nat.max (foldr (λ e : N * Upper T A, Nat.max (upper_height e.2)) 0%nat (entries e.2))) 0%nat
           (entries children))
  | Interface inner _ => lower_height inner
  end.

(** Each level takes at most two calls. *)
Definition merge_upper (u1 u2 : Upper T A) : M W (Upper T A) :=
  merge_upper_fuel (2 * (upper_height u1 + upper_height u2) + 2) u1 u2.

(** * The stacks *)

(** [LeveledGSS { inner }] *)
Abbreviation LeveledGSS := (Upper T A).

Definition gss_empty : LeveledGSS := empty_upper_inner.
Definition gss_is_empty (g : LeveledGSS) : bool :=
  match g with Branch children empty _ => compact_is_empty children && negb (bool_decide (is_Some empty)) | Interface _ _ => false end.
Definition contains_empty_stack (g : LeveledGSS) : bool :=
  match g with Branch _ empty _ => bool_decide (is_Some empty) | Interface inner _ => lower_empty inner end.

Definition from_single_stack (values : list T) (acc : A) : M W LeveledGSS :=
  let! floor := new_lower compact_new true in
  if bool_decide (values = []) then ret (Interface floor acc) else ret (Interface (new_segment values floor) acc).

Definition gss_push (g : LeveledGSS) (value : T) : LeveledGSS :=
  if gss_is_empty g then g
  else
    match g with
    | Interface inner acc => Interface (new_segment [value] inner) acc
    | Branch _ _ _ => new_branch (map_insert value (compact_unit (upper_max_depth g) g) compact_new) None
    end.

Definition gss_merge (g other : LeveledGSS) : M W LeveledGSS :=
  if gss_is_empty g then ret other
  else if gss_is_empty other then ret g
  else merge_upper g other.

(** One round over the list, two by two. *)
Fixpoint merge_round (items : list LeveledGSS) : M W (list LeveledGSS) :=
  match items with
  | a :: b :: rest => let! m := gss_merge a b in let! next := merge_round rest in ret (m :: next)
  | [a] => ret [a]
  | [] => ret []
  end.

Fixpoint merge_rounds (fuel : nat) (items : list LeveledGSS) : M W LeveledGSS :=
  match fuel, items with
  | _, [g] => ret g
  | S fuel, _ :: _ => let! items := merge_round items in merge_rounds fuel items
  | _, _ => panic
  end.

Definition merge_many (items : list LeveledGSS) : M W LeveledGSS :=
  match items with
  | [] => ret gss_empty
  | _ => merge_rounds (length items) items
  end.

Definition isolate_unchanged (g : LeveledGSS) (value : option T) : M W bool :=
  match value with
  | Some v =>
      match g with
      | Branch children empty _ =>
          ret (negb (bool_decide (is_Some empty)) && (compact_len children =? 1) && compact_contains_key children v)
      | Interface inner _ =>
          if negb (lower_empty inner) && (children_len inner =? 1) then children_contains_key inner v else ret false
      end
  | None =>
      match g with
      | Branch children _ _ => ret (compact_is_empty children)
      | Interface inner _ => ret (children_is_empty inner && lower_empty inner)
      end
  end.

Definition isolate (g : LeveledGSS) (value : option T) : M W LeveledGSS :=
  let! unchanged := isolate_unchanged g value in
  if (unchanged : bool) then ret g
  else
    match value with
    | Some val =>
        match g with
        | Branch children _ _ =>
            let kids := compact_get children val in
            let filtered_children := match kids with Some kids => compact_unit val kids | None => compact_new end in
            let max_depth := match kids ≫= ord_get_max with Some (depth, _) => u32_wrapping_add depth 1 | None => 0 end in
            try_promote (Branch filtered_children None max_depth)
        | Interface (Segment _ _ _ _ as inner) acc =>
            let! top := segment_top_value inner in
            if decide (top = val) then
              let! rest := segment_rest_arc inner in
              let! lower_root := new_lower (compact_unit val (compact_unit (lower_max_depth rest) rest)) false in
              ret (Interface lower_root acc)
            else ret empty_upper_inner
        | Interface (General children _ _) acc =>
            match compact_get children val with
            | Some kids => let! lower_root := new_lower (compact_unit val kids) false in ret (Interface lower_root acc)
            | None => ret empty_upper_inner
            end
        end
    | None =>
        let empty_acc := match g with
                         | Branch _ empty _ => empty
                         | Interface inner acc => if lower_empty inner then Some acc else None
                         end in
        try_promote (new_branch compact_new empty_acc)
    end.

(** ** Popping *)

(** A memo table is keyed by a node's address and a count. *)
Definition memo_get {V} (memo : list (V * Z * V)) (node : V) (k : Z) : M W (option V) :=
  let! r := find_m (λ e : V * Z * V, if (e.1.2 =? k)%Z then ptr_eq V e.1.1 node else ret false) memo in
  ret (snd <$> r).

Abbreviation lower_memo := (list (Lower T * Z * Lower T)).
Abbreviation upper_memo := (list (Upper T A * Z * Upper T A)).

(** [m = Some(match m { Some(acc) => merge(acc, popped), None => popped })] *)
Definition merge_popped {V} (merge_fn : V → V → M W V) (m : option V) (popped : V) : M W (option V) :=
  match m with
  | Some acc => let! r := merge_fn acc popped in ret (Some r)
  | None => ret (Some popped)
  end.

(** The empty stack stays where the last pop meets it. *)
Definition keep_empty (node : Lower T) (k : Z) (res : Lower T) : M W (Lower T) :=
  if lower_empty node && (k =? 1)%Z then
    let! terminal_node := new_lower compact_new true in
    merge_lower res terminal_node
  else ret res.

Fixpoint popn_lower (fuel : nat) (node : Lower T) (k : Z) (memo : lower_memo) : M W (Lower T * lower_memo) :=
  match fuel with
  | 0%nat => panic
  | S fuel =>
      if (k =? 0)%Z then ret (node, memo)
      else
        let! cached := memo_get memo node k in
        match cached with
        | Some cached => ret (cached, memo)
        | None =>
            let! '(merged, memo) :=
              match node with
              | Segment values next _ _ =>
                  let seg_len := Z.of_N (lenN values) in
                  if (seg_len <=? k)%Z then
                    let! '(popped, memo) := popn_lower fuel next (k - seg_len)%Z memo in
                    ret (Some popped, memo)
                  else ret (Some (new_segment (take (Z.to_nat (seg_len - k)) values) next), memo)
              | General children _ _ =>
                  for_each (λ '(m, memo) child,
                    let! '(popped_child, memo) := popn_lower fuel child (k - 1)%Z memo in
                    let! m := merge_popped merge_lower m popped_child in
                    ret (m, memo)) (None, memo) (all_kids children)
              end in
            let! res := match merged with Some r => ret r | None => new_lower compact_new false end in
            let! res := keep_empty node k res in
            ret (res, memo ++ [((node, k), res)])
        end
  end.

Fixpoint popn_upper (fuel : nat) (node : Upper T A) (k : Z) (memo : upper_memo * lower_memo)
    : M W (Upper T A * (upper_memo * lower_memo)) :=
  match fuel with
  | 0%nat => panic
  | S fuel =>
      if (k =? 0)%Z then ret (node, memo)
      else
        let! cached := memo_get memo.1 node k in
        match cached with
        | Some cached => ret (cached, memo)
        | None =>
            let! '(res, memo) :=
              match node with
              | Branch children empty _ =>
                  let! '(merged, memo) :=
                    for_each (λ '(m, memo) child,
                      let! '(popped_child, memo) := popn_upper fuel child (k - 1)%Z memo in
                      let! m := merge_popped merge_upper m popped_child in
                      ret (m, memo)) (None, memo) (all_kids children) in
                  let! merged :=
                    match empty with
                    | Some acc =>
                        if (k =? 1)%Z then
                          let! terminal_lower := new_lower compact_new true in
                          merge_popped merge_upper merged (Interface terminal_lower acc)
                        else ret merged
                    | None => ret merged
                    end in
                  match merged with
                  | Some merged => let! res := try_promote merged in ret (res, memo)
                  | None => ret (empty_upper_inner, memo)
                  end
              | Interface inner acc =>
                  let! '(popped_lower, lmemo) := popn_lower (S (Z.to_nat k)) inner k memo.2 in
                  if children_is_empty popped_lower && negb (lower_empty popped_lower) then ret (empty_upper_inner, (memo.1, lmemo))
                  else ret (Interface popped_lower acc, (memo.1, lmemo))
              end in
            ret (res, (memo.1 ++ [((node, k), res)], memo.2))
        end
  end.

(** What one turn of the single-path loop finds: an answer ([None] gives up), or
    the next node and what remains. *)
Inductive path_step :=
  | Answer (r : option (Upper T A))
  | Next (next_child : option (Lower T)) (remaining : Z).

(** Whether popping inside a segment is enabled, read once from the
    environment. *)
Context (partial_segment_pop : bool).

Definition single_path_step (current : Lower T) (acc : A) (remaining : Z) : path_step :=
  match current with
  | Segment values next _ _ =>
      let len := Z.of_N (lenN values) in
      if (len <=? remaining)%Z then Next (Some next) (remaining - (len - 1))%Z
      else if partial_segment_pop then
        let keep := (length values - Z.to_nat remaining)%nat in
        Answer (Some (Interface (new_segment (take keep values) next) acc))
      else Answer None
  | General children _ _ =>
      match entries children with
      | [] => Next None remaining
      | [(_, kids)] => match entries kids with [(_, kid)] => Next (Some kid) remaining | _ => Answer None end
      | _ => Answer None
      end
  end.

Definition nonempty_interface (l : Lower T) (acc : A) : Upper T A :=
  if children_is_empty l && negb (lower_empty l) then gss_empty else Interface l acc.

Fixpoint popn_single_interface_path (fuel : nat) (current : Lower T) (acc : A) (remaining : Z) : M W (option (Upper T A)) :=
  match fuel with
  | 0%nat => panic
  | S fuel =>
      if (remaining <=? 0)%Z then ret (Some (nonempty_interface current acc))
      else
        match single_path_step current acc remaining with
        | Answer r => ret r
        | Next next_child remaining =>
            if (remaining =? 1)%Z then
              let! result := match next_child with Some c => ret c | None => new_lower compact_new false end in
              let! result := keep_empty current 1 result in
              ret (Some (nonempty_interface result acc))
            else
              match next_child with
              | None => ret (Some gss_empty)
              | Some child => popn_single_interface_path fuel child acc (remaining - 1)%Z
              end
        end
  end.

Definition popn (g : LeveledGSS) (n : Z) : M W LeveledGSS :=
  if (n <=? 0)%Z then ret g
  else if gss_is_empty g then ret g
  else
    let! fast := match g with
                 | Interface inner acc => popn_single_interface_path (S (Z.to_nat n)) inner acc n
                 | Branch _ _ _ => ret None
                 end in
    match fast with
    | Some fast => ret fast
    | None => let! r := popn_upper (S (Z.to_nat n)) g n ([], []) in ret r.1
    end.

Definition pop (g : LeveledGSS) : M W LeveledGSS := popn g 1.

(** The kids of one value, merged. *)
Definition merge_all {V} (merge_fn : V → V → M W V) (kids : list V) : M W (option V) :=
  match kids with
  | [] => ret None
  | first :: rest => let! r := for_each merge_fn first rest in ret (Some r)
  end.

Definition pop_top_value (g : LeveledGSS) (value : T) : M W LeveledGSS :=
  match g with
  | Interface inner acc =>
      let! popped :=
        match inner with
        | Segment _ _ _ _ =>
            let! top := segment_top_value inner in
            if decide (top = value) then let! rest := segment_rest_arc inner in ret (Some rest) else ret None
        | General children _ _ =>
            match compact_get children value with
            | None => ret None
            | Some kids => merge_all merge_lower (compact_values kids)
            end
        end in
      match popped with
      | None => ret gss_empty
      | Some popped => ret (nonempty_interface popped acc)
      end
  | Branch _ _ _ => let! isolated := isolate g (Some value) in popn isolated 1
  end.

(** What [for_each_decomposed] passes to its callback, in order. *)
Definition decompose_lower (acc : A) (out : list (T * LeveledGSS)) (entry : T * compact N (Lower T)) : M W (list (T * LeveledGSS)) :=
  let! lower := merge_all merge_lower (compact_values entry.2) in
  let! lower := unwrap lower in
  if negb (children_is_empty lower) || lower_empty lower then ret (out ++ [(entry.1, Interface lower acc)]) else ret out.

Definition decompose_upper (out : list (T * LeveledGSS)) (entry : T * compact N (Upper T A)) : M W (list (T * LeveledGSS)) :=
  let! m := merge_all merge_upper (compact_values entry.2) in
  let! m := unwrap m in
  let! inner := if is_interface m then ret m else try_promote m in
  if gss_is_empty inner then ret out else ret (out ++ [(entry.1, inner)]).

Definition for_each_decomposed (g : LeveledGSS) : M W (list (T * LeveledGSS)) :=
  match g with
  | Branch children _ _ => for_each decompose_upper [] (compact_iter children)
  | Interface (Segment _ _ _ _ as inner) acc =>
      let! val := segment_top_value inner in
      let! lower := segment_rest_arc inner in
      if negb (children_is_empty lower) || lower_empty lower then ret [(val, Interface lower acc)] else ret []
  | Interface (General children _ _) acc => for_each (decompose_lower acc) [] (compact_iter children)
  end.
End upper.
