(* ===== verification/GssKit.v ===== *)
(** Total correctness of the parser stack's computations, and its maps of
    children. *)

From S2P Require Import Prelude Accumulator CompactMap Gss.

(** * Computations that do not panic *)

Section twp.
Context {W : Type}.

(** Whatever the run, the computation ends without a panic, and its result
    satisfies [P]. *)
Definition twp {A} (m : M W A) (P : A → Prop) : Prop := ∀ w, ∃ a w', m w = Some (a, w') ∧ P a.

Lemma twp_ret {A} (a : A) (P : A → Prop) : P a → twp (ret a) P.
Proof. intros Hp w. by exists a, w. Qed.

Lemma twp_bind {A B} (m : M W A) (k : A → M W B) (P : B → Prop) : twp m (λ a, twp (k a) P) → twp (bind m k) P.
Proof. intros Hm w. destruct (Hm w) as (a & w1 & Hw & Hk). destruct (Hk w1) as (b & w2 & Hw2 & Hp). exists b, w2. unfold bind. by rewrite Hw. Qed.

Lemma twp_mono {A} (m : M W A) (P Q : A → Prop) : twp m P → (∀ a, P a → Q a) → twp m Q.
Proof. intros Hm HPQ w. destruct (Hm w) as (a & w1 & Hw & Hp). exists a, w1. auto. Qed.

Lemma twp_unwrap {A} (x : option A) (a : A) (P : A → Prop) : x = Some a → P a → twp (unwrap x) P.
Proof. intros ->. apply twp_ret. Qed.

(** The invariant of a loop speaks of the elements done so far. *)
Lemma twp_for_each {A B} (I : list A → B → Prop) (f : B → A → M W B) b l :
  I [] b →
  (∀ done_ a rest b, l = done_ ++ a :: rest → I done_ b → twp (f b a) (I (done_ ++ [a]))) →
  twp (for_each f b l) (I l).
Proof.
  intros Hb Hf.
  enough (Hgen : ∀ done_ rest b, l = done_ ++ rest → I done_ b → twp (for_each f b rest) (I l)) by (by apply (Hgen [])).
  intros done_ rest. revert done_. induction rest as [|a rest IH]; intros done_ b' Hl HI; cbn [for_each].
  - apply twp_ret. by rewrite Hl, app_nil_r.
  - apply twp_bind. eapply twp_mono; [eapply Hf; [exact Hl|exact HI]|]. intros b'' HI'. eapply IH; [|exact HI']. by rewrite <-app_assoc.
Qed.

Lemma twp_find_m {A} (p : A → M W bool) (Q : A → Prop) l :
  (∀ a, a ∈ l → twp (p a) (λ b, b = true → Q a)) →
  twp (find_m p l) (λ r, match r with Some a => a ∈ l ∧ Q a | None => True end).
Proof.
  induction l as [|a l IH]; intros Hp; cbn [find_m]; [by apply twp_ret|]. apply twp_bind.
  eapply twp_mono; [apply Hp; by left|]. intros [|] HQ; cbn.
  - apply twp_ret. split; [by left|by apply HQ].
  - eapply twp_mono; [apply IH; intros a' Ha'; apply Hp; by right|]. intros [a'|]; [|done]. intros [? ?]. split; [by right|done].
Qed.
End twp.

(** * Children *)

Section children.
Context {T V : Type} `{EqDecision T}.
Context (depth_of : V → N) (ok : V → Prop).
Implicit Types (kids : compact N V) (ch : children_of T V).

(** A child sits under its depth, and a parent's depth fits in 32 bits. *)
Record kids_wf kids : Prop := {
  kw_nodup : NoDup (entries kids).*1;
  kw_nonempty : entries kids ≠ [];
  kw_sorted : ord_sorted kids;
  kw_depth : ∀ k c, (k, c) ∈ entries kids → k = depth_of c ∧ k < u32_max;
  kw_ok : ∀ k c, (k, c) ∈ entries kids → ok c;
}.

Record children_wf ch : Prop := {
  cw_nodup : NoDup (entries ch).*1;
  cw_kids : ∀ v kids, (v, kids) ∈ entries ch → kids_wf kids;
}.

(** There is a child [c] under the value [v]. *)
Definition edge ch (v : T) (c : V) : Prop := ∃ kids k, (v, kids) ∈ entries ch ∧ (k, c) ∈ entries kids.

Lemma elem_of_compact_values {K} (m : compact K V) c : c ∈ compact_values m ↔ ∃ k, (k, c) ∈ entries m.
Proof.
  unfold compact_values. rewrite list_elem_of_fmap. split.
  - intros ([k c'] & -> & ?). eauto.
  - intros [k ?]. by exists (k, c).
Qed.

Lemma elem_of_all_kids ch c : c ∈ all_kids ch ↔ ∃ v, edge ch v c.
Proof.
  unfold all_kids, edge. rewrite elem_of_concat. split.
  - intros (l & Hc & (kids & -> & Hk)%list_elem_of_fmap). apply elem_of_compact_values in Hc as [k Hk'].
    unfold compact_values in Hk. apply list_elem_of_fmap in Hk as ([v kids'] & -> & Hv). eauto.
  - intros (v & kids & k & Hv & Hk). exists (compact_values kids). split; [by apply elem_of_compact_values; eauto|].
    apply list_elem_of_fmap. exists kids. split; [done|]. unfold compact_values. apply list_elem_of_fmap. by exists (v, kids).
Qed.

(** ** The depth of a parent *)

Definition depth_is ch (d : N) : Prop :=
  (d = 0 ∧ ∀ v c, ¬ edge ch v c) ∨ (∃ v c, edge ch v c ∧ d = depth_of c + 1 ∧ ∀ v' c', edge ch v' c' → depth_of c' ≤ depth_of c).

Lemma depth_is_unique ch d d' : depth_is ch d → depth_is ch d' → d = d'.
Proof.
  intros [[-> Hn]|(v & c & He & -> & Hm)] [[-> Hn']|(v' & c' & He' & -> & Hm')]; [done| | |].
  - by destruct (Hn v' c').
  - by destruct (Hn' v c).
  - pose proof (Hm _ _ He'). pose proof (Hm' _ _ He). lia.
Qed.

Lemma foldl_max_spec (l : list N) a : (foldl N.max a l = a ∨ foldl N.max a l ∈ l) ∧ a ≤ foldl N.max a l ∧ ∀ x, x ∈ l → x ≤ foldl N.max a l.
Proof.
  revert a. induction l as [|y l IH]; intros a; cbn; [split; [by left|]; split; [lia|by intros ? ?%elem_of_nil]|].
  destruct (IH (N.max a y)) as (H1 & H2 & H3). split; [|split; [lia|]].
  - destruct H1 as [->|?]; [|right; by right]. destruct (N.max_spec a y) as [[_ ->]|[_ ->]]; [right; by left|by left].
  - intros x [->|Hx]%elem_of_cons; [lia|by apply H3].
Qed.

Lemma max_depth_spec ch : (∀ v c, edge ch v c → depth_of c < u32_max) → depth_is ch (max_depth_from_children depth_of ch).
Proof.
  intros Hb. unfold max_depth_from_children. fold (all_kids ch). destruct (all_kids ch) as [|c l] eqn:Hk; cbn [fmap list_fmap].
  - left. split; [done|]. intros v c He. assert (Hc : c ∈ all_kids ch) by (apply elem_of_all_kids; eauto). rewrite Hk in Hc. by apply elem_of_nil in Hc.
  - right. destruct (foldl_max_spec (depth_of <$> l) (depth_of c)) as (H1 & H2 & H3). set (d := foldl N.max _ _) in *.
    assert (Hd : ∃ c', c' ∈ c :: l ∧ d = depth_of c').
    { destruct H1 as [->|(c' & Heq & Hin)%list_elem_of_fmap]; [exists c; split; [by left|done]|exists c'; split; [by right|done]]. }
    destruct Hd as (c' & Hin & Hd). rewrite <-Hk in Hin. apply elem_of_all_kids in Hin as [v' He]. exists v', c'.
    split; [done|]. pose proof (Hb _ _ He). rewrite Hd. split; [rewrite u32_wrapping_add_small; unfold u32_max, u32_modulus in *; lia|].
    intros v'' c'' He''. rewrite <-Hd. assert (Hin : c'' ∈ c :: l) by (rewrite <-Hk; apply elem_of_all_kids; eauto).
    apply elem_of_cons in Hin as [->|Hin]; [done|]. apply H3. apply list_elem_of_fmap. eauto.
Qed.

Lemma wf_edge ch v c : children_wf ch → edge ch v c → ok c ∧ depth_of c < u32_max.
Proof. intros [_ Hk] (kids & k & Hv & Hc). specialize (Hk _ _ Hv). destruct (kw_depth _ Hk _ _ Hc) as [-> ?]. split; [by apply (kw_ok _ Hk _ _ Hc)|done]. Qed.

Lemma wf_depth ch : children_wf ch → depth_is ch (max_depth_from_children depth_of ch).
Proof. intros Hw. apply max_depth_spec. intros v c He. by apply (wf_edge ch v c). Qed.

(** The depths of the children determine that of the parent. *)
Lemma depth_is_same (ch ch' : children_of T V) d :
  depth_is ch d → (∀ x, (∃ v c, edge ch v c ∧ depth_of c = x) ↔ (∃ v c, edge ch' v c ∧ depth_of c = x)) → depth_is ch' d.
Proof.
  intros [[-> Hn]|(v & c & He & -> & Hm)] Hsame.
  - left. split; [done|]. intros v c He. destruct (proj2 (Hsame (depth_of c)) ltac:(eauto)) as (v' & c' & He' & _). by destruct (Hn v' c').
  - right. destruct (proj1 (Hsame (depth_of c)) ltac:(eauto)) as (v' & c' & He' & Hd). exists v', c'. split; [done|]. split; [lia|].
    intros v2 c2 He2. destruct (proj2 (Hsame (depth_of c2)) ltac:(eauto)) as (v3 & c3 & He3 & Hd3). rewrite Hd, <-Hd3. by apply (Hm v3 c3).
Qed.

(** ** Building kids *)

Lemma kids_wf_unit c : ok c → depth_of c < u32_max → kids_wf (compact_unit (depth_of c) c).
Proof.
  intros Hc Hd. split; [by constructor; [intros ?%elem_of_nil|constructor]|done|done|..]; intros k c' [= -> ->]%list_elem_of_singleton; done.
Qed.

(** Inserting a child under its own depth. *)
Lemma kids_insert_ok k c kids :
  NoDup (entries kids).*1 → inserted k c (entries kids) (entries (kids_insert k c kids)).
Proof. apply ord_insert_ok. Qed.

Lemma kids_wf_insert kids c : kids_wf kids → ok c → depth_of c < u32_max → kids_wf (kids_insert (depth_of c) c kids).
Proof.
  intros [H1 H2 H3 H4 H5] Hc Hd. pose proof (kids_insert_ok (depth_of c) c kids H1) as Hi. split.
  - apply Hi.
  - intros Hn. pose proof (inserted_self _ _ _ _ Hi) as Hs. rewrite Hn in Hs. by apply elem_of_nil in Hs.
  - by apply ord_insert_sorted.
  - intros k c' [[= -> ->]|Hin]%(inserted_elem _ _ _ _ _ Hi); [done|by apply H4].
  - intros k c' [[= -> ->]|Hin]%(inserted_elem _ _ _ _ _ Hi); [done|by apply (H5 k)].
Qed.

Context (place : ∀ V : Type, T → V → list (T * V) → list (T * V)).
Context (place_perm : ∀ V : Type, place_ok (place V)).

Lemma map_insert_ok {V'} v (x : V') (m : compact T V') :
  NoDup (entries m).*1 → inserted v x (entries m) (entries (map_insert place v x m)).
Proof. intros Hnd. by apply compact_insert_ok. Qed.

Lemma children_wf_insert ch v kids : children_wf ch → kids_wf kids → children_wf (map_insert place v kids ch).
Proof.
  intros [H1 H2] Hk. pose proof (map_insert_ok v kids ch H1) as Hi. split; [apply Hi|].
  intros v' kids' [[= -> ->]|Hin]%(inserted_elem _ _ _ _ _ Hi); [done|by apply (H2 v')].
Qed.

Lemma edge_insert ch v kids v' c : NoDup (entries ch).*1 →
  edge (map_insert place v kids ch) v' c ↔ (v' = v ∧ ∃ k, (k, c) ∈ entries kids) ∨ (v' ≠ v ∧ edge ch v' c).
Proof.
  clear depth_of ok. intros Hnd. destruct (map_insert_ok v kids ch Hnd) as [_ Hi]. unfold edge. setoid_rewrite Hi. naive_solver.
Qed.

Lemma children_wf_new : children_wf compact_new.
Proof. split; [constructor|by intros ? ? ?%elem_of_nil]. Qed.

Lemma edge_new v c : ¬ edge compact_new v c.
Proof. by intros (? & ? & ?%elem_of_nil & _). Qed.

Lemma children_wf_unit v kids : kids_wf kids → children_wf (compact_unit v kids).
Proof.
  intros Hk. split; [by constructor; [intros ?%elem_of_nil|constructor]|]. by intros v' kids' [= -> ->]%list_elem_of_singleton.
Qed.

Lemma edge_unit v kids v' c : edge (compact_unit v kids) v' c ↔ v' = v ∧ ∃ k, (k, c) ∈ entries kids.
Proof using. clear depth_of ok place place_perm. unfold edge. cbn. setoid_rewrite list_elem_of_singleton. naive_solver. Qed.

Lemma edge_unit_unit v k c v' c' : edge (compact_unit v (compact_unit k c)) v' c' ↔ v' = v ∧ c' = c.
Proof using. clear depth_of ok place place_perm. rewrite edge_unit. cbn. setoid_rewrite list_elem_of_singleton. naive_solver. Qed.
End children.

Lemma or_assoc_l (A B C : Prop) : A ∨ B ∨ C ↔ (A ∨ B) ∨ C.
Proof. tauto. Qed.

Lemma and_assoc_l (A B C : Prop) : A ∧ B ∧ C ↔ (A ∧ B) ∧ C.
Proof. tauto. Qed.

(** * Merging children

    [test] are the observations a merge must respect: a node passes on a stack
    when each of its ways to that stack does. *)

Section merging.
Context {T V I : Type} `{EqDecision T}.
Context (depth_of : V → N) (ok : V → Prop) (test : I → V → list T → Prop).
Context (place : ∀ V : Type, T → V → list (T * V) → list (T * V)) (place_perm : ∀ V : Type, place_ok (place V)).

Definition merged (a b r : V) : Prop :=
  ok r ∧ depth_of r = depth_of a ∧ ∀ i s, test i r s ↔ test i a s ∧ test i b s.

Definition list_test (l : list (N * V)) (i : I) (s : list T) : Prop := ∀ k c, (k, c) ∈ l → test i c s.
Definition ch_test (ch : children_of T V) (i : I) (v : T) (s : list T) : Prop := ∀ c, edge ch v c → test i c s.

Lemma list_test_app l k i s : list_test (l ++ k) i s ↔ list_test l i s ∧ list_test k i s.
Proof. unfold list_test. setoid_rewrite elem_of_app. naive_solver. Qed.

Lemma list_test_one k c i s : list_test [(k, c)] i s ↔ test i c s.
Proof. unfold list_test. setoid_rewrite list_elem_of_singleton. naive_solver. Qed.

Lemma kids_test_insert k c kids i s :
  NoDup (entries kids).*1 →
  list_test (entries (kids_insert k c kids)) i s ↔ test i c s ∧ ∀ k' c', k' ≠ k → (k', c') ∈ entries kids → test i c' s.
Proof.
  intros Hnd. destruct (kids_insert_ok k c kids Hnd) as [_ Hi]. unfold list_test. setoid_rewrite Hi. naive_solver.
Qed.

Abbreviation kids_wf := (kids_wf depth_of ok).
Abbreviation children_wf := (children_wf depth_of ok).

Record kids_merging (kids : compact N V) (done_ : list (N * V)) (r : compact N V) : Prop := {
  km_wf : kids_wf r;
  km_keys : ∀ k, k ∈ (entries r).*1 ↔ k ∈ (entries kids).*1 ∨ k ∈ done_.*1;
  km_test : ∀ i s, list_test (entries r) i s ↔ list_test (entries kids) i s ∧ list_test done_ i s;
  km_rest : ∀ k c, k ∉ done_.*1 → (k, c) ∈ entries r ↔ (k, c) ∈ entries kids;
}.

Definition list_edge (l : list (T * compact N V)) (v : T) (c : V) : Prop := ∃ kids k, (v, kids) ∈ l ∧ (k, c) ∈ entries kids.
Definition has_depth (l : list (T * compact N V)) (d : N) : Prop := ∃ v c, list_edge l v c ∧ depth_of c = d.
Definition edges_test (l : list (T * compact N V)) (i : I) (v : T) (s : list T) : Prop := ∀ c, list_edge l v c → test i c s.

Lemma list_edge_app l k v c : list_edge (l ++ k) v c ↔ list_edge l v c ∨ list_edge k v c.
Proof. unfold list_edge. setoid_rewrite elem_of_app. naive_solver. Qed.

Lemma list_edge_one v kids v' c : list_edge [(v, kids)] v' c ↔ v' = v ∧ ∃ k, (k, c) ∈ entries kids.
Proof. unfold list_edge. setoid_rewrite list_elem_of_singleton. naive_solver. Qed.

Record children_merging (c1 : children_of T V) (done_ : list (T * compact N V)) (r : children_of T V) : Prop := {
  cm_wf : children_wf r;
  cm_test : ∀ i v s, ch_test r i v s ↔ ch_test c1 i v s ∧ edges_test done_ i v s;
  cm_depth : ∀ d, has_depth (entries r) d ↔ has_depth (entries c1) d ∨ has_depth done_ d;
  cm_rest : ∀ v kids, v ∉ done_.*1 → (v, kids) ∈ entries r ↔ (v, kids) ∈ entries c1;
}.

(** Replacing the kids under a value, by kids with all the old depths. *)
Lemma children_merging_step c1 done_ r v kids kids' :
  children_merging c1 done_ r → kids_wf kids' →
  (∀ k, k ∈ (entries kids').*1 ↔ k ∈ (entries kids).*1 ∨ ∃ c, edge r v c ∧ depth_of c = k) →
  (∀ k c, (k, c) ∈ entries kids → k = depth_of c) →
  (∀ i s, list_test (entries kids') i s ↔ ch_test r i v s ∧ list_test (entries kids) i s) →
  children_merging c1 (done_ ++ [(v, kids)]) (map_insert place v kids' r).
Proof using place_perm.
  intros [R1 R2 R3 R4] Hk Hkeys Hdepth Htest. pose proof (cw_nodup _ _ _ R1) as Hnd.
  assert (Hedge : ∀ v' c, edge (map_insert place v kids' r) v' c ↔ (v' = v ∧ ∃ k, (k, c) ∈ entries kids') ∨ (v' ≠ v ∧ edge r v' c)) by (intros; by apply edge_insert).
  split.
  - by apply children_wf_insert.
  - intros i v' s. assert (Hdone : edges_test (done_ ++ [(v, kids)]) i v' s ↔ edges_test done_ i v' s ∧ (v' = v → list_test (entries kids) i s)).
    { unfold edges_test, list_test. setoid_rewrite list_edge_app. setoid_rewrite list_edge_one. naive_solver. }
    rewrite Hdone, and_assoc_l, <-R2. unfold ch_test at 1. setoid_rewrite Hedge. destruct (decide (v' = v)) as [->|Hne].
    + specialize (Htest i s). unfold list_test at 1 in Htest. naive_solver.
    + unfold ch_test. naive_solver.
  - intros d. assert (Hdone : has_depth (done_ ++ [(v, kids)]) d ↔ has_depth done_ d ∨ d ∈ (entries kids).*1).
    { unfold has_depth. setoid_rewrite list_edge_app. setoid_rewrite list_edge_one. split.
      - intros (v' & c & [?|[-> [k Hc]]] & Hd); [left; eauto|right]. apply list_elem_of_fmap. exists (k, c). split; [by rewrite (Hdepth k c Hc)|done].
      - intros [(v' & c & ? & ?)|([k c] & -> & Hc)%list_elem_of_fmap]; [by exists v', c; auto|]. exists v, c. cbn. rewrite (Hdepth k c Hc). eauto. }
    rewrite Hdone, or_assoc_l, <-R3. unfold has_depth at 1, list_edge. fold (edge (map_insert place v kids' r)). setoid_rewrite Hedge. split.
    + intros (v' & c & [[-> [k Hc]]|[Hne He]] & Hd).
      * destruct (kw_depth _ _ _ Hk _ _ Hc) as [-> _]. rewrite Hd in Hc. assert (Hin : d ∈ (entries kids').*1) by (apply list_elem_of_fmap; by exists (d, c)).
        apply Hkeys in Hin as [Hin|(c' & He & Hd')]; [by right|left]. by exists v, c'.
      * left. by exists v', c.
    + intros H. assert (Hcases : d ∈ (entries kids').*1 ∨ ∃ v' c, v' ≠ v ∧ edge r v' c ∧ depth_of c = d).
      { destruct H as [(v' & c & He & Hd)|Hin]; [|left; apply Hkeys; by left].
        destruct (decide (v' = v)) as [->|Hne]; [left; apply Hkeys; right; by exists c|right; by exists v', c]. }
      destruct Hcases as [([k c] & -> & Hc)%list_elem_of_fmap|(v' & c & Hne & He & Hd)]; [|exists v', c; auto].
      exists v, c. cbn. destruct (kw_depth _ _ _ Hk _ _ Hc) as [-> _]. eauto.
  - intros v' kids1 Hn. rewrite fmap_app, not_elem_of_app in Hn. destruct Hn as [Hn Hne]. cbn in Hne. rewrite list_elem_of_singleton in Hne.
    destruct (map_insert_ok place place_perm v kids' r Hnd) as [_ Hi]. rewrite Hi, <-(R4 v') by done. naive_solver.
Qed.

Lemma ch_test_get ch v kids i s : children_wf ch → (v, kids) ∈ entries ch → ch_test ch i v s ↔ list_test (entries kids) i s.
Proof.
  intros Hw Hin. unfold ch_test, edge, list_test. split; [naive_solver|]. intros H c (kids' & k & Hin' & Hc).
  pose proof (cw_nodup _ _ _ Hw) as Hnd. apply (assoc_elem _ _ _ Hnd) in Hin, Hin'. assert (kids' = kids) as -> by congruence. by apply (H k).
Qed.

Context {W : Type}.
Context (ptr_eq : ∀ V : Type, V → V → M W bool) (ptr_eq_sound : ∀ (V : Type) (a b : V), twp (ptr_eq V a b) (λ p, p = true → a = b)).
Context (merge_fn : V → V → M W V).

Lemma merge_kids_ok kids other :
  kids_wf kids → kids_wf other →
  (∀ k a b, (k, a) ∈ entries kids → (k, b) ∈ entries other → twp (merge_fn a b) (merged a b)) →
  twp (merge_kids merge_fn kids other) (kids_merging kids (entries other)).
Proof using Type.
  intros Hk Ho Hf. unfold merge_kids, compact_iter. apply (twp_for_each (kids_merging kids)).
  { split; [done|intros k; cbn; rewrite elem_of_nil; tauto| |done]. intros i s. split; [|tauto]. intros H. split; [done|]. by intros k c ?%elem_of_nil. }
  intros done_ [k b] rest r Hl [R1 R2 R3 R4]. cbn [fst snd].
  assert (Hin : (k, b) ∈ entries other) by (rewrite Hl; apply elem_of_app; right; by left).
  assert (Hni : k ∉ done_.*1).
  { intros Hd. pose proof (kw_nodup _ _ _ Ho) as Hnd. rewrite Hl, fmap_app in Hnd. apply NoDup_app in Hnd as (_ & Hnd & _). apply (Hnd k Hd). by left. }
  destruct (kw_depth _ _ _ Ho _ _ Hin) as [Hkb Hsmall]. pose proof (kw_ok _ _ _ Ho _ _ Hin) as Hokb.
  assert (Hkeys : ∀ c, inserted k c (entries r) (entries (kids_insert k c r)) → ∀ k', k' ∈ (entries (kids_insert k c r)).*1 ↔ k' ∈ (entries kids).*1 ∨ k' ∈ (done_ ++ [(k, b)]).*1).
  { intros c Hi k'. rewrite fmap_app, elem_of_app. cbn. rewrite list_elem_of_singleton, or_assoc_l, <-R2. split.
    - intros ([k1 c1] & -> & Hin1)%list_elem_of_fmap. apply (inserted_elem _ _ _ _ _ Hi) in Hin1 as [[= -> ->]|Hin1]; [by right|left].
      apply list_elem_of_fmap. by exists (k1, c1).
    - destruct (decide (k' = k)) as [->|Hne].
      + intros _. apply list_elem_of_fmap. exists (k, c). split; [done|]. by eapply inserted_self.
      + intros [([k1 c1] & -> & Hin1)%list_elem_of_fmap|?]; [|done]. apply list_elem_of_fmap. exists (k1, c1). split; [done|]. by eapply inserted_old. }
  assert (Hrest : ∀ c k' c', k' ∉ (done_ ++ [(k, b)]).*1 → (k', c') ∈ entries (kids_insert k c r) ↔ (k', c') ∈ entries kids).
  { intros c k' c' Hn. rewrite fmap_app, not_elem_of_app in Hn. destruct Hn as [Hn Hne]. cbn in Hne. rewrite list_elem_of_singleton in Hne.
    destruct (kids_insert_ok k c r (kw_nodup _ _ _ R1)) as [_ Hi]. rewrite Hi, <-(R4 k') by done. naive_solver. }
  assert (Hin' : ∀ c, inserted k c (entries r) (entries (kids_insert k c r))) by (intros c; apply kids_insert_ok, R1).
  destruct (compact_get r k) as [a|] eqn:Hget.
  - apply compact_get_elem in Hget; [|apply R1]. pose proof Hget as Hget'. apply R4 in Hget'; [|done].
    apply twp_bind. eapply twp_mono; [by apply (Hf k)|]. intros m (Hm1 & Hm2 & Hm3). apply twp_ret.
    destruct (kw_depth _ _ _ Hk _ _ Hget') as [Hka _]. split; [|by apply Hkeys| |by apply Hrest].
    + rewrite Hka, <-Hm2. apply kids_wf_insert; [done..|]. by rewrite Hm2, <-Hka.
    + intros i s. rewrite kids_test_insert by apply R1. rewrite list_test_app, list_test_one, and_assoc_l, <-R3, Hm3. split.
      * intros [[Ha Hb] Hr]. split; [|done]. intros k' c' Hc'. destruct (decide (k' = k)) as [->|Hne]; [|by apply (Hr k')].
        apply (assoc_elem _ _ _ (kw_nodup _ _ _ R1)) in Hc', Hget. congruence.
      * intros [Hr Hb]. split; [split; [by apply (Hr k)|done]|]. intros k' c' _. apply Hr.
  - apply compact_get_None in Hget. apply twp_ret. split; [|by apply Hkeys| |by apply Hrest].
    + rewrite Hkb. apply kids_wf_insert; [done..|]. by rewrite <-Hkb.
    + intros i s. rewrite kids_test_insert by apply R1. rewrite list_test_app, list_test_one, and_assoc_l, <-R3. split.
      * intros [Hb Hr]. split; [|done]. intros k' c' Hc'. apply (Hr k'); [|done]. intros ->. apply Hget. apply list_elem_of_fmap. by exists (k, c').
      * intros [Hr Hb]. split; [done|]. intros k' c' _. apply Hr.
Qed.

Lemma merge_edges_ok c1 c2 :
  children_wf c1 → children_wf c2 →
  (∀ v kids1 kids2 k a b, (v, kids1) ∈ entries c1 → (v, kids2) ∈ entries c2 → (k, a) ∈ entries kids1 → (k, b) ∈ entries kids2 →
    twp (merge_fn a b) (merged a b)) →
  twp (merge_children ptr_eq place merge_fn c1 c2) (λ r,
    children_wf r ∧ (∀ i v s, ch_test r i v s ↔ ch_test c1 i v s ∧ ch_test c2 i v s) ∧
    ∀ d, has_depth (entries r) d ↔ has_depth (entries c1) d ∨ has_depth (entries c2) d).
Proof using place_perm ptr_eq_sound.
  intros H1 H2 Hf. unfold merge_children. apply twp_bind.
  assert (Hptr : twp (map_ptr_eq ptr_eq c1 c2) (λ p, p = true → c1 = c2)).
  { unfold map_ptr_eq. destruct c1, c2; try (by apply twp_ret). apply ptr_eq_sound. }
  eapply twp_mono; [exact Hptr|]. clear Hptr. intros [|] Hp; cbn beta iota.
  { apply twp_ret. rewrite (Hp eq_refl). split; [done|]. split; [tauto|]. intros d. tauto. }
  eapply twp_mono; [unfold compact_iter; apply (twp_for_each (children_merging c1))|].
  - split; [done| | |done].
    + intros i v s. split; [|tauto]. intros H. split; [done|]. by intros c (? & ? & ?%elem_of_nil & _).
    + intros d. split; [by left|]. intros [?|(v & c & (? & ? & ?%elem_of_nil & _) & _)]; done.
  - intros done_ [v kids2] rest r Hl R. cbn [fst snd]. pose proof (cm_wf _ _ _ R) as Hw.
    assert (Hin : (v, kids2) ∈ entries c2) by (rewrite Hl; apply elem_of_app; right; by left).
    assert (Hni : v ∉ done_.*1).
    { intros Hd. pose proof (cw_nodup _ _ _ H2) as Hnd. rewrite Hl, fmap_app in Hnd. apply NoDup_app in Hnd as (_ & Hnd & _). apply (Hnd v Hd). by left. }
    pose proof (cw_kids _ _ _ H2 _ _ Hin) as Hk2.
    assert (Hd2 : ∀ k c, (k, c) ∈ entries kids2 → k = depth_of c) by (intros k c Hc; by apply (kw_depth _ _ _ Hk2)).
    destruct (compact_get r v) as [kids1|] eqn:Hget.
    + apply compact_get_elem in Hget; [|apply Hw]. pose proof Hget as Hget'. apply (cm_rest _ _ _ R) in Hget'; [|done].
      pose proof (cw_kids _ _ _ H1 _ _ Hget') as Hk1. apply twp_bind.
      eapply twp_mono; [apply merge_kids_ok; [done|done|]; intros k a b Ha Hb; by apply (Hf v kids1 kids2 k)|].
      intros new_map [N1 N2 N3 _]. apply twp_ret. apply children_merging_step; [done|done| |done|].
      * intros k. rewrite N2. transitivity (k ∈ (entries kids2).*1 ∨ k ∈ (entries kids1).*1); [tauto|]. f_equiv. rewrite list_elem_of_fmap. split.
        -- intros ([k' c] & -> & Hc). exists c. split; [by exists kids1, k'|]. symmetry. by apply (kw_depth _ _ _ Hk1).
        -- intros (c & (kids' & k' & Hin' & Hc) & <-). assert (kids' = kids1) as ->.
           { apply (assoc_elem _ _ _ (cw_nodup _ _ _ Hw)) in Hin', Hget. congruence. }
           exists (k', c). split; [|done]. cbn. symmetry. by apply (kw_depth _ _ _ Hk1).
      * intros i s. by rewrite N3, (ch_test_get r v kids1).
    + apply compact_get_None in Hget. apply twp_ret.
      assert (Hnone : ∀ c, ¬ edge r v c) by (intros c (kids' & k & Hin' & _); apply Hget, list_elem_of_fmap; by exists (v, kids')).
      apply children_merging_step; [done|done| |done|].
      * intros k. split; [by left|]. intros [?|(c & He & _)]; [done|]. by destruct (Hnone c).
      * intros i s. split; [|tauto]. intros H. split; [|done]. intros c He. by destruct (Hnone c).
  - intros r R. split; [apply R|]. split; [|apply R]. intros i v s. apply R.
Qed.
End merging.

(** The depth over the children of two nodes. *)
Lemma depth_is_max {T V} (depth_of : V → N) (ch1 ch2 ch : children_of T V) d1 d2 :
  depth_is depth_of ch1 d1 → depth_is depth_of ch2 d2 →
  (∀ d, has_depth depth_of (entries ch) d ↔ has_depth depth_of (entries ch1) d ∨ has_depth depth_of (entries ch2) d) →
  depth_is depth_of ch (N.max d1 d2).
Proof.
  intros H1 H2 Hd.
  assert (Hup : ∀ (ch0 : children_of T V) d0 v c, depth_is depth_of ch0 d0 → edge ch0 v c → depth_of c + 1 ≤ d0).
  { intros ch0 d0 v c [[_ Hn]|(v' & c' & _ & -> & Hm)] He; [by destruct (Hn v c)|]. specialize (Hm _ _ He). lia. }
  assert (Hle : ∀ v c, edge ch v c → depth_of c + 1 ≤ N.max d1 d2).
  { intros v c He. destruct (proj1 (Hd (depth_of c)) ltac:(by exists v, c)) as [(v' & c' & He' & <-)|(v' & c' & He' & <-)].
    - pose proof (Hup _ _ _ _ H1 He'). lia.
    - pose proof (Hup _ _ _ _ H2 He'). lia. }
  assert (Hatt : ∀ (ch0 : children_of T V) v c, edge ch0 v c → N.max d1 d2 = depth_of c + 1 →
    (∀ d, has_depth depth_of (entries ch0) d → has_depth depth_of (entries ch) d) → depth_is depth_of ch (N.max d1 d2)).
  { intros ch0 v c He Hdc Hsub. destruct (Hsub (depth_of c) ltac:(by exists v, c)) as (v' & c' & He' & Heq). right. exists v', c'. split; [done|].
    split; [lia|]. intros v2 c2 He2. specialize (Hle _ _ He2). lia. }
  destruct (N.max_spec d1 d2) as [[Hlt Hm]|[Hlt Hm]].
  - destruct H2 as [[-> _]|(v & c & He & Hdc & _)]; [lia|]. apply (Hatt ch2 v c He); [lia|]. intros d Hin. apply Hd. by right.
  - destruct H1 as [[-> Hn]|(v & c & He & Hdc & _)]; [|apply (Hatt ch1 v c He); [lia|]; intros d Hin; apply Hd; by left].
    assert (d2 = 0) as -> by lia. left. split; [done|]. intros v c He. specialize (Hle _ _ He). lia.
Qed.

(** * Rebuilding children

    A pass over the children that maps each child keeps the entries, because a
    child's new depth is its old one. *)

Section rebuild.
Context {T V V' : Type} `{EqDecision T}.
Context (depth_of : V → N) (ok : V → Prop) (depth_of' : V' → N) (ok' : V' → Prop).
Context (place : ∀ V : Type, T → V → list (T * V) → list (T * V)) (place_perm : ∀ V : Type, place_ok (place V)).

(** [rel] relates a child to its image. *)
Context (rel : V → V' → Prop).
Context (rel_depth : ∀ c c', rel c c' → depth_of' c' = depth_of c).

Definition kids_image (kids : list (N * V)) (kids' : list (N * V')) : Prop :=
  (∀ k c, (k, c) ∈ kids → ∃ c', (k, c') ∈ kids' ∧ rel c c') ∧ (∀ k c', (k, c') ∈ kids' → ∃ c, (k, c) ∈ kids ∧ rel c c').

Lemma rebuild_kids (step : compact N V' → V → compact N V') (kids : compact N V) :
  kids_wf depth_of ok kids →
  (∀ m k c, (k, c) ∈ entries kids → ∃ c', step m c = kids_insert (depth_of' c') c' m ∧ rel c c' ∧ ok' c') →
  kids_wf depth_of' ok' (foldl step compact_new (compact_values kids)) ∧
  kids_image (entries kids) (entries (foldl step compact_new (compact_values kids))).
Proof using rel_depth.
  intros Hw Hstep. pose proof (kw_nodup _ _ _ Hw) as Hnd.
  assert (Hgen : ∀ l, (∀ e, e ∈ l → e ∈ entries kids) → NoDup l.*1 →
    (l ≠ [] → kids_wf depth_of' ok' (foldl step compact_new l.*2)) ∧ NoDup (entries (foldl step compact_new l.*2)).*1 ∧
    kids_image l (entries (foldl step compact_new l.*2))).
  { induction l as [|[k c] l IH] using rev_ind; intros Hsub Hl.
    { split; [done|]. split; [constructor|]. split; by intros ? ? ?%elem_of_nil. }
    rewrite fmap_app in Hl. apply NoDup_app in Hl as (Hl & Hni & _).
    destruct IH as (W1 & W2 & W3 & W4); [intros e He; apply Hsub, elem_of_app; by left|done|].
    rewrite fmap_app, foldl_app. cbn [foldl fmap list_fmap snd]. set (m := foldl step compact_new l.*2) in *.
    assert (Hin : (k, c) ∈ entries kids) by (apply Hsub, elem_of_app; right; by left).
    destruct (Hstep m k c Hin) as (c' & -> & Hrel & Hok). destruct (kw_depth _ _ _ Hw _ _ Hin) as [Hk Hsmall].
    pose proof (rel_depth _ _ Hrel) as Hd. rewrite Hd, <-Hk. pose proof (kids_insert_ok k c' m W2) as Hi.
    assert (Hkl : ∀ x, (k, x) ∉ l) by (intros x Hx; apply (Hni k); [apply list_elem_of_fmap; by exists (k, x)|by left]).
    split; [|split; [apply Hi|split]].
    - intros _. destruct (decide (l = [])) as [->|Hne].
      + unfold m. cbn. rewrite Hk, <-Hd. apply kids_wf_unit; [done|]. by rewrite Hd, <-Hk.
      + rewrite Hk, <-Hd. apply kids_wf_insert; [by apply W1|done|]. by rewrite Hd, <-Hk.
    - intros k1 c1 [Hin1|[= -> ->]%list_elem_of_singleton]%elem_of_app.
      + destruct (W3 _ _ Hin1) as (x & Hx & ?). exists x. split; [|done]. eapply inserted_old; [exact Hi| |done]. intros ->. by apply (Hkl c1).
      + exists c'. split; [by eapply inserted_self|done].
    - intros k1 c1 [[= -> ->]|Hin1]%(inserted_elem _ _ _ _ _ Hi).
      + exists c. split; [apply elem_of_app; right; by left|done].
      + destruct (W4 _ _ Hin1) as (x & ? & ?). exists x. split; [apply elem_of_app; by left|done]. }
  destruct (Hgen (entries kids) ltac:(done) Hnd) as (H1 & _ & H2). split; [by apply H1, (kw_nonempty _ _ _ Hw)|done].
Qed.

Lemma rebuild_children (g : compact N V → compact N V') (ch : children_of T V) :
  children_wf depth_of ok ch →
  (∀ v kids, (v, kids) ∈ entries ch → kids_wf depth_of' ok' (g kids) ∧ kids_image (entries kids) (entries (g kids))) →
  let r := foldl (λ acc (e : T * compact N V), let v_map := g e.2 in if compact_is_empty v_map then acc else map_insert place e.1 v_map acc)
             compact_new (compact_iter ch) in
  children_wf depth_of' ok' r ∧
  (∀ v c, edge ch v c → ∃ c', edge r v c' ∧ rel c c') ∧ (∀ v c', edge r v c' → ∃ c, edge ch v c ∧ rel c c').
Proof using place_perm.
  intros Hw Hg. cbv zeta. unfold compact_iter. set (step := λ acc e, _).
  assert (Hgen : ∀ l, (∀ e, e ∈ l → e ∈ entries ch) → NoDup l.*1 →
    children_wf depth_of' ok' (foldl step compact_new l) ∧
    ∀ v kids', (v, kids') ∈ entries (foldl step compact_new l) ↔ ∃ kids, (v, kids) ∈ l ∧ kids' = g kids).
  { induction l as [|[v kids] l IH] using rev_ind; intros Hsub Hl.
    { split; [apply children_wf_new|]. intros v kids'. cbn. setoid_rewrite elem_of_nil. naive_solver. }
    rewrite fmap_app in Hl. apply NoDup_app in Hl as (Hl & Hni & _).
    destruct IH as (W1 & W2); [intros e He; apply Hsub, elem_of_app; by left|done|]. rewrite foldl_app. cbn [foldl].
    set (m := foldl step compact_new l) in *. destruct (Hg v kids) as [Hgw _]; [apply Hsub, elem_of_app; right; by left|].
    unfold step. cbn [fst snd]. unfold compact_is_empty. rewrite bool_decide_false.
    2:{ intros H0. apply (kw_nonempty _ _ _ Hgw). by apply nil_length_inv. }
    split; [by apply children_wf_insert|]. intros v' kids'.
    destruct (map_insert_ok place place_perm v (g kids) m (cw_nodup _ _ _ W1)) as [_ Hi]. rewrite Hi, W2. setoid_rewrite elem_of_app. setoid_rewrite list_elem_of_singleton.
    split.
    - intros [[-> ->]|[Hne (k0 & ? & ?)]]; eauto.
    - intros (k0 & [Hin|[= -> ->]] & ->); [|by left]. right. split; [|eauto]. intros ->. apply (Hni v); [apply list_elem_of_fmap; by exists (v, k0)|by left]. }
  destruct (Hgen (entries ch) ltac:(done) (cw_nodup _ _ _ Hw)) as [H1 H2]. split; [done|]. split.
  - intros v c (kids & k & Hv & Hk). destruct (Hg v kids Hv) as [_ [H3 _]]. destruct (H3 _ _ Hk) as (c' & Hc' & ?).
    exists c'. split; [|done]. exists (g kids), k. split; [apply H2; eauto|done].
  - intros v c' (kids' & k & Hv & Hk). apply H2 in Hv as (kids & Hv & ->). destruct (Hg v kids Hv) as [_ [_ H3]]. destruct (H3 _ _ Hk) as (c & Hc & ?).
    exists c. split; [|done]. by exists kids, k.
Qed.

(** The parent's depth is kept too. *)
Lemma rebuild_depth (ch : children_of T V) (r : children_of T V') d :
  (∀ v c, edge ch v c → ∃ c', edge r v c' ∧ rel c c') → (∀ v c', edge r v c' → ∃ c, edge ch v c ∧ rel c c') →
  depth_is depth_of ch d → depth_is depth_of' r d.
Proof using rel_depth.
  intros H1 H2 [[-> Hn]|(v & c & He & -> & Hm)].
  - left. split; [done|]. intros v c' He. destruct (H2 _ _ He) as (c & Hc & _). by destruct (Hn v c).
  - right. destruct (H1 _ _ He) as (c' & Hc' & Hr). exists v, c'. split; [done|]. split; [by rewrite (rel_depth _ _ Hr)|].
    intros v' x' Hx'. destruct (H2 _ _ Hx') as (x & Hx & Hrx). rewrite (rel_depth _ _ Hrx), (rel_depth _ _ Hr). by apply (Hm v').
Qed.
End rebuild.
