(* ===== verification/GssLower.v ===== *)
(** The lower part of the parser stack: the stacks of a node, and merging as
    union. *)

From S2P Require Import Prelude Accumulator CompactMap Gss GssKit.

Section lower.
Context {T : Type} `{EqDecision T} {W : Type}.
Context (ptr_eq : ∀ V : Type, V → V → M W bool) (ptr_eq_sound : ∀ (V : Type) (a b : V), twp (ptr_eq V a b) (λ p, p = true → a = b)).
Context (place : ∀ V : Type, T → V → list (T * V) → list (T * V)) (place_perm : ∀ V : Type, place_ok (place V)).
Abbreviation Lower := (Lower T).
Implicit Types (l : Lower) (ch : children_of T Lower) (s : list T).

(** * The stacks of a node *)

(** Stacks are read from the top. *)
Inductive in_lower : Lower → list T → Prop :=
  | in_accept ch d : in_lower (General ch true d) []
  | in_child ch e d v c s : edge ch v c → in_lower c s → in_lower (General ch e d) (v :: s)
  | in_segment vs next d n s : in_lower next s → in_lower (Segment vs next d n) (rev vs ++ s).

(** Depths are exact and fit in 32 bits, and a segment is not empty. *)
Inductive wf_lower : Lower → Prop :=
  | wf_general ch e : children_wf lower_max_depth wf_lower ch → wf_lower (General ch e (max_depth_from_children lower_max_depth ch))
  | wf_segment vs next d n :
      vs ≠ [] → wf_lower next → d = lower_max_depth next + lenN vs → d ≤ u32_max → n = lenN vs + lower_segments_len next →
      wf_lower (Segment vs next d n).

Abbreviation lower_children_wf := (children_wf lower_max_depth wf_lower).
Abbreviation lower_kids_wf := (kids_wf lower_max_depth wf_lower).

(** The stacks of a node with the children [ch]. *)
Definition parent_lang ch (empty : bool) s : Prop :=
  match s with [] => empty = true | v :: s => ∃ c, edge ch v c ∧ in_lower c s end.

Lemma in_general ch e d s : in_lower (General ch e d) s ↔ parent_lang ch e s.
Proof using.
  split.
  - intros H. inversion H; subst; cbn; eauto.
  - destruct s as [|v s]; cbn; [intros ->; constructor|]. intros (c & He & Hc). by econstructor.
Qed.

Lemma in_segment_iff vs next d n s : in_lower (Segment vs next d n) s ↔ ∃ s', s = rev vs ++ s' ∧ in_lower next s'.
Proof using. split; [intros H; inversion H; subst; eauto|]. intros (s' & -> & H). by constructor. Qed.

Lemma wf_general_inv ch e d : wf_lower (General ch e d) → lower_children_wf ch ∧ d = max_depth_from_children lower_max_depth ch.
Proof using. by inversion 1. Qed.

Lemma wf_segment_inv vs next d n : wf_lower (Segment vs next d n) →
  vs ≠ [] ∧ wf_lower next ∧ d = lower_max_depth next + lenN vs ∧ d ≤ u32_max ∧ n = lenN vs + lower_segments_len next.
Proof using. by inversion 1. Qed.

Lemma wf_depth_bound l : wf_lower l → lower_max_depth l ≤ u32_max.
Proof using.
  intros H. inversion H as [ch e Hw|]; subst; [|done]. cbn. destruct (wf_depth _ _ ch Hw) as [[-> _]|(v & c & He & -> & _)]; [done|].
  destruct (wf_edge _ _ ch v c Hw He). lia.
Qed.

Lemma edge_wf ch v c : lower_children_wf ch → edge ch v c → wf_lower c.
Proof using. intros Hw He. by destruct (wf_edge _ _ ch v c Hw He). Qed.

Lemma edge_child_wf ch e d v c : wf_lower (General ch e d) → edge ch v c → wf_lower c.
Proof using. intros [Hw _]%wf_general_inv He. by apply (edge_wf ch v). Qed.

(** ** Heights *)

Lemma foldr_max_member {B} (f : B → nat) (l : list B) x : x ∈ l → (f x ≤ foldr (λ e, Nat.max (f e)) 0 l)%nat.
Proof using. induction l as [|y l IH]; [by intros ?%elem_of_nil|]. cbn. intros [->|Hx]%elem_of_cons; [lia|]. specialize (IH Hx). lia. Qed.

Lemma edge_height ch e d v c : edge ch v c → (lower_height c < lower_height (General ch e d))%nat.
Proof using.
  intros (kids & k & Hv & Hk). cbn [lower_height].
  pose proof (foldr_max_member (λ e : T * compact N Lower, foldr (λ e : N * Lower, Nat.max (lower_height e.2)) 0%nat (entries e.2)) _ _ Hv) as H1.
  pose proof (foldr_max_member (λ e : N * Lower, lower_height e.2) _ _ Hk) as H2. cbn in H1, H2. lia.
Qed.

Lemma height_pos l : wf_lower l → (0 < lower_height l)%nat.
Proof using. intros H. inversion H as [|vs]; subst; cbn [lower_height]; [lia|]. destruct vs; [done|]. cbn. lia. Qed.

(** ** The derived equality *)

Definition equiv l l' : Prop := lower_max_depth l = lower_max_depth l' ∧ ∀ s, in_lower l s ↔ in_lower l' s.

Lemma compact_eqb_spec {K V} `{EqDecision K} (eqb : V → V → bool) (a b : compact K V) :
  compact_eqb eqb a b = true → NoDup (entries a).*1 → NoDup (entries b).*1 →
  (∀ k v, (k, v) ∈ entries a → ∃ w, (k, w) ∈ entries b ∧ eqb v w = true) ∧
  (∀ k w, (k, w) ∈ entries b → ∃ v, (k, v) ∈ entries a ∧ eqb v w = true).
Proof using.
  destruct a as [l|l], b as [k|k]; cbn [compact_eqb entries]; try done.
  - intros Heq _ _. revert k Heq. induction l as [|[x v] l IH]; intros [|[y w] k]; try done.
    { intros _. split; by intros ? ? ?%elem_of_nil. }
    intros [[->%bool_decide_eq_true Hv]%andb_true_iff Hl]%andb_true_iff. destruct (IH _ Hl) as [H1 H2]. split.
    + intros k' v' [[= -> ->]|Hin]%elem_of_cons; [exists w; split; [by left|done]|]. destruct (H1 _ _ Hin) as (w' & ? & ?). exists w'. split; [by right|done].
    + intros k' w' [[= -> ->]|Hin]%elem_of_cons; [exists v; split; [by left|done]|]. destruct (H2 _ _ Hin) as (v' & ? & ?). exists v'. split; [by right|done].
  - intros [Hlen%Nat.eqb_eq Hall]%andb_true_iff Hl Hk.
    assert (H1 : ∀ x v, (x, v) ∈ l → ∃ w, (x, w) ∈ k ∧ eqb v w = true).
    { clear Hlen Hl. induction l as [|[x v] l IH]; [by intros ? ? ?%elem_of_nil|]. apply andb_true_iff in Hall as [Hx Hall].
      intros x' v' [[= -> ->]|Hin]%elem_of_cons; [|by apply IH]. destruct (assoc x k) as [w|] eqn:Hw; [|done]. exists w. split; [by apply (assoc_elem _ _ _ Hk)|done]. }
    split; [done|]. intros x w Hw.
    assert (Hsub : k.*1 ⊆ l.*1).
    { assert (Hp : l.*1 ⊆+ k.*1).
      { apply NoDup_submseteq; [done|]. intros y ([y' v] & -> & Hin)%list_elem_of_fmap. destruct (H1 _ _ Hin) as (w' & ? & _). apply list_elem_of_fmap. by exists (y', w'). }
      apply submseteq_length_Permutation in Hp; [|by rewrite !length_fmap, Hlen]. intros y. by rewrite Hp. }
    assert (Hx : x ∈ l.*1) by (apply Hsub, list_elem_of_fmap; by exists (x, w)).
    apply list_elem_of_fmap in Hx as ([x' v] & -> & Hv). exists v. split; [done|]. destruct (H1 _ _ Hv) as (w' & Hw' & He).
    apply (assoc_elem _ _ _ Hk) in Hw, Hw'. cbn in *. congruence.
Qed.

(** Equal maps of children have the same edges, up to equality. *)
Lemma children_eqb_edges ch ch' : lower_children_wf ch → lower_children_wf ch' → compact_eqb (compact_eqb lower_eqb) ch ch' = true →
  (∀ v c, edge ch v c → ∃ c', edge ch' v c' ∧ lower_eqb c c' = true) ∧
  (∀ v c', edge ch' v c' → ∃ c, edge ch v c ∧ lower_eqb c c' = true).
Proof using.
  intros Hw Hw' Heq. destruct (compact_eqb_spec _ _ _ Heq (cw_nodup _ _ _ Hw) (cw_nodup _ _ _ Hw')) as [H1 H2]. split.
  - intros v c (kids & k & Hv & Hk). destruct (H1 _ _ Hv) as (kids' & Hv' & He).
    pose proof (cw_kids _ _ _ Hw _ _ Hv) as Hkw. pose proof (cw_kids _ _ _ Hw' _ _ Hv') as Hkw'.
    destruct (compact_eqb_spec _ _ _ He (kw_nodup _ _ _ Hkw) (kw_nodup _ _ _ Hkw')) as [H3 _]. destruct (H3 _ _ Hk) as (c' & Hc' & ?).
    exists c'. split; [by exists kids', k|done].
  - intros v c' (kids' & k & Hv' & Hk). destruct (H2 _ _ Hv') as (kids & Hv & He).
    pose proof (cw_kids _ _ _ Hw _ _ Hv) as Hkw. pose proof (cw_kids _ _ _ Hw' _ _ Hv') as Hkw'.
    destruct (compact_eqb_spec _ _ _ He (kw_nodup _ _ _ Hkw) (kw_nodup _ _ _ Hkw')) as [_ H3]. destruct (H3 _ _ Hk) as (c & Hc & ?).
    exists c. split; [by exists kids, k|done].
Qed.

Lemma lower_eqb_equiv l l' : wf_lower l → wf_lower l' → lower_eqb l l' = true → equiv l l'.
Proof using.
  intros Hl Hl' Heq. split.
  { destruct l, l'; cbn in Heq |- *; try done.
    - apply andb_true_iff in Heq as [_ ?%N.eqb_eq]. done.
    - apply andb_true_iff in Heq as [[_ ?%N.eqb_eq]%andb_true_iff _]. done. }
  enough (Hgen : ∀ h l l', (lower_height l < h)%nat → wf_lower l → wf_lower l' → lower_eqb l l' = true → ∀ s, in_lower l s ↔ in_lower l' s) by (by apply (Hgen (S (lower_height l))); [lia|..]).
  clear l l' Hl Hl' Heq. induction h as [|h IH]; intros l l' Hh Hl Hl' Heq s; [lia|].
  destruct l as [ch e d|vs next d n], l' as [ch' e' d'|vs' next' d' n']; cbn [lower_eqb] in Heq; try done.
  - apply andb_true_iff in Heq as [[Hch He%eqb_prop]%andb_true_iff _]. subst e'. apply wf_general_inv in Hl as [Hw _], Hl' as [Hw' _].
    destruct (children_eqb_edges ch ch' Hw Hw' Hch) as [H1 H2]. rewrite !in_general. destruct s as [|v s]; [done|]. cbn. split.
    + intros (c & Hc & Hs). destruct (H1 _ _ Hc) as (c' & Hc' & Heqc). exists c'. split; [done|].
      apply (IH c c'); [pose proof (edge_height ch e d v c Hc); lia|by apply (edge_wf ch v)|by apply (edge_wf ch' v)|done|done].
    + intros (c' & Hc' & Hs). destruct (H2 _ _ Hc') as (c & Hc & Heqc). exists c. split; [done|].
      apply (IH c c'); [pose proof (edge_height ch e d v c Hc); lia|by apply (edge_wf ch v)|by apply (edge_wf ch' v)|done|done].
  - apply andb_true_iff in Heq as [[[Hv%bool_decide_eq_true Hn]%andb_true_iff _]%andb_true_iff _]. subst vs'.
    apply wf_segment_inv in Hl as (Hne & Hl & _), Hl' as (_ & Hl' & _). rewrite !in_segment_iff.
    assert (Hiff : ∀ s', in_lower next s' ↔ in_lower next' s').
    { apply IH; [|done..]. cbn [lower_height] in Hh. destruct vs; [done|]. cbn in Hh. lia. }
    setoid_rewrite Hiff. done.
Qed.

(** * Sharing *)

Lemma equiv_refl l : equiv l l.
Proof using. by split. Qed.

Lemma equiv_trans a b c : equiv a b → equiv b c → equiv a c.
Proof using. intros [H1 H2] [H3 H4]. split; [congruence|]. intros s. by rewrite H2, H4. Qed.

Lemma equiv_sym a b : equiv a b → equiv b a.
Proof using. intros [H1 H2]. split; [done|]. intros s. by rewrite H2. Qed.

Lemma lower_same_ok l l' : wf_lower l → wf_lower l' → twp (lower_same ptr_eq l l') (λ b, b = true → equiv l l').
Proof using ptr_eq_sound.
  intros Hl Hl'. unfold lower_same. apply twp_bind. eapply twp_mono; [apply ptr_eq_sound|]. intros [|] Hp; cbn beta; apply twp_ret; cbn [orb].
  - intros _. rewrite (Hp eq_refl). apply equiv_refl.
  - by apply lower_eqb_equiv.
Qed.

(** The same keys, with equivalent nodes under them. *)
Definition kids_similar (kids kids' : compact N Lower) : Prop :=
  (∀ k c, (k, c) ∈ entries kids → ∃ c', (k, c') ∈ entries kids' ∧ equiv c c') ∧
  (∀ k c', (k, c') ∈ entries kids' → ∃ c, (k, c) ∈ entries kids ∧ equiv c c').

Definition similar ch ch' : Prop :=
  (∀ v kids, (v, kids) ∈ entries ch → ∃ kids', (v, kids') ∈ entries ch' ∧ kids_similar kids kids') ∧
  (∀ v kids', (v, kids') ∈ entries ch' → ∃ kids, (v, kids) ∈ entries ch ∧ kids_similar kids kids').

Lemma kids_similar_refl kids : kids_similar kids kids.
Proof using. split; intros k c Hc; exists c; split; [done|apply equiv_refl|done|apply equiv_refl]. Qed.

Lemma kids_similar_trans a b c : kids_similar a b → kids_similar b c → kids_similar a c.
Proof using.
  intros [H1 H2] [H3 H4]. split.
  - intros k x Hx. destruct (H1 _ _ Hx) as (y & Hy & ?). destruct (H3 _ _ Hy) as (z & Hz & ?). eauto using equiv_trans.
  - intros k z Hz. destruct (H4 _ _ Hz) as (y & Hy & ?). destruct (H2 _ _ Hy) as (x & Hx & ?). eauto using equiv_trans.
Qed.

Lemma similar_refl ch : similar ch ch.
Proof using. split; intros v kids Hv; exists kids; (split; [done|apply kids_similar_refl]). Qed.

Lemma similar_trans a b c : similar a b → similar b c → similar a c.
Proof using.
  intros [H1 H2] [H3 H4]. split.
  - intros v x Hx. destruct (H1 _ _ Hx) as (y & Hy & ?). destruct (H3 _ _ Hy) as (z & Hz & ?). eauto using kids_similar_trans.
  - intros v z Hz. destruct (H4 _ _ Hz) as (y & Hy & ?). destruct (H2 _ _ Hy) as (x & Hx & ?). eauto using kids_similar_trans.
Qed.

Lemma similar_edges ch ch' : similar ch ch' →
  (∀ v c, edge ch v c → ∃ c', edge ch' v c' ∧ equiv c c') ∧ (∀ v c', edge ch' v c' → ∃ c, edge ch v c ∧ equiv c c').
Proof using.
  intros [H1 H2]. split.
  - intros v c (kids & k & Hv & Hk). destruct (H1 _ _ Hv) as (kids' & Hv' & H3 & _). destruct (H3 _ _ Hk) as (c' & Hc' & He).
    exists c'. split; [by exists kids', k|done].
  - intros v c' (kids' & k & Hv' & Hk). destruct (H2 _ _ Hv') as (kids & Hv & _ & H3). destruct (H3 _ _ Hk) as (c & Hc & He).
    exists c. split; [by exists kids, k|done].
Qed.

Lemma similar_lang ch ch' e s : similar ch ch' → parent_lang ch e s ↔ parent_lang ch' e s.
Proof using.
  intros [H1 H2]%similar_edges. destruct s as [|v s]; [done|]. cbn. split.
  - intros (c & Hc & Hs). destruct (H1 _ _ Hc) as (c' & Hc' & _ & He). exists c'. split; [done|by apply He].
  - intros (c' & Hc' & Hs). destruct (H2 _ _ Hc') as (c & Hc & _ & He). exists c. split; [done|by apply He].
Qed.

Lemma similar_depth ch ch' d : similar ch ch' → depth_is lower_max_depth ch d → depth_is lower_max_depth ch' d.
Proof using.
  intros [H1 H2]%similar_edges Hd. eapply depth_is_same; [exact Hd|]. intros x. split.
  - intros (v & c & Hc & <-). destruct (H1 _ _ Hc) as (c' & Hc' & He & _). eauto.
  - intros (v & c' & Hc' & <-). destruct (H2 _ _ Hc') as (c & Hc & He & _). eauto.
Qed.

Record seen_ok (seen : list (N * Lower)) : Prop := {
  so_wf : ∀ k c, (k, c) ∈ seen → wf_lower c ∧ k = lower_max_depth c ∧ k < u32_max;
}.

Lemma find_seen_ok seen depth child : seen_ok seen → wf_lower child →
  twp (find_seen ptr_eq seen depth child) (λ r, match r with Some (k, c) => (k, c) ∈ seen ∧ k = depth ∧ equiv c child | None => True end).
Proof using ptr_eq_sound.
  intros Hs Hc. unfold find_seen. eapply twp_mono; [apply (twp_find_m _ (λ e : N * Lower, e.1 = depth ∧ equiv e.2 child))|].
  - intros [k c] Hin. cbn. destruct (N.eqb_spec k depth) as [->|Hne]; [|by apply twp_ret].
    eapply twp_mono; [apply lower_same_ok; [|done]; by apply (so_wf _ Hs _ _ Hin)|]. auto.
  - intros [[k c]|]; [|done]. cbn. tauto.
Qed.

(** Putting an equivalent node under the same depth. *)
Lemma alter_similar ch0 ch key kids0 k c c' :
  similar ch0 ch → lower_children_wf ch0 → lower_children_wf ch → (key, kids0) ∈ entries ch0 → (k, c) ∈ entries kids0 →
  wf_lower c' → k = lower_max_depth c' → equiv c' c →
  similar ch0 (compact_alter (kids_insert k c') key ch) ∧ lower_children_wf (compact_alter (kids_insert k c') key ch).
Proof using.
  intros [S1 S2] Hw0 Hw Hkey Hk Hc' Hkc' Heq.
  assert (Hsmall : k < u32_max) by (by apply (kw_depth _ _ _ (cw_kids _ _ _ Hw0 _ _ Hkey) _ _ Hk)).
  assert (Hnew : ∀ kids, (key, kids) ∈ entries ch → kids_similar kids0 kids → kids_similar kids0 (kids_insert k c' kids) ∧ lower_kids_wf (kids_insert k c' kids)).
  { intros kids Hin [K1 K2]. pose proof (cw_kids _ _ _ Hw _ _ Hin) as Hkw. destruct (kids_insert_ok k c' kids (kw_nodup _ _ _ Hkw)) as [_ Hi]. split; [split|].
    - intros k1 c1 Hc1. destruct (decide (k1 = k)) as [->|Hne].
      + exists c'. split; [apply Hi; by left|]. assert (c1 = c) as ->; [|by apply equiv_sym].
        pose proof (kw_nodup _ _ _ (cw_kids _ _ _ Hw0 _ _ Hkey)) as Hnd. apply (assoc_elem _ _ _ Hnd) in Hc1, Hk. congruence.
      + destruct (K1 _ _ Hc1) as (c2 & Hc2 & ?). exists c2. split; [apply Hi; by right|done].
    - intros k1 c1 [[-> ->]|[Hne Hc1]]%Hi; [exists c; split; [done|by apply equiv_sym]|by apply K2].
    - rewrite Hkc'. apply kids_wf_insert; [done..|]. by rewrite <-Hkc'. }
  split; [split|split].
  - intros v kids Hv. destruct (S1 _ _ Hv) as (kids' & Hv' & Hks). rewrite entries_alter. setoid_rewrite elem_of_alter_entries.
    destruct (decide (v = key)) as [->|Hne].
    + exists (kids_insert k c' kids'). split; [by exists kids'|].
      assert (kids = kids0) as ->; [|by apply Hnew]. pose proof (cw_nodup _ _ _ Hw0) as Hnd. apply (assoc_elem _ _ _ Hnd) in Hv, Hkey. congruence.
    + exists kids'. split; [|done]. by exists kids'.
  - intros v kids'. rewrite entries_alter, elem_of_alter_entries. intros (kids1 & Hv1 & ->). destruct (S2 _ _ Hv1) as (kids & Hv & Hks).
    exists kids. split; [done|]. case_decide as Hvk; [|done]. subst v.
    assert (kids = kids0) as ->; [|by apply Hnew]. pose proof (cw_nodup _ _ _ Hw0) as Hnd. apply (assoc_elem _ _ _ Hnd) in Hv, Hkey. congruence.
  - rewrite entries_alter, alter_entries_keys. apply Hw.
  - intros v kids'. rewrite entries_alter, elem_of_alter_entries. intros (kids1 & Hv1 & ->). case_decide as Hvk; [|by apply (cw_kids _ _ _ Hw v)].
    subst v. destruct (S2 _ _ Hv1) as (kids & Hv & Hks). assert (kids = kids0) as ->; [|by apply Hnew]. pose proof (cw_nodup _ _ _ Hw0) as Hnd. apply (assoc_elem _ _ _ Hnd) in Hv, Hkey. congruence.
Qed.

Definition canonical_inv ch (st : children_of T Lower * list (N * Lower)) : Prop :=
  similar ch st.1 ∧ lower_children_wf st.1 ∧ seen_ok st.2.

Lemma canonicalize_key_ok ch key st : canonical_inv ch st → twp (canonicalize_key ptr_eq st key) (canonical_inv ch).
Proof using ptr_eq_sound.
  destruct st as [ch0 seen0]. intros (Hs0 & Hw0 & Hseen0). cbn [fst snd] in *. unfold canonicalize_key. cbn [fst snd].
  destruct (compact_get ch0 key) as [kids0|] eqn:Hget; cbn [fmap option_fmap option_map from_option]; [|by apply twp_ret].
  change (id (compact_iter kids0)) with (entries kids0).
  apply compact_get_elem in Hget; [|apply Hw0]. pose proof (cw_kids _ _ _ Hw0 _ _ Hget) as Hkw.
  eapply twp_mono; [apply (twp_for_each (λ _, canonical_inv ch0))|].
  - split; [apply similar_refl|done].
  - intros done_ [k c] rest [ch1 seen1] Hl (Hs1 & Hw1 & Hseen1). cbn [fst snd] in *.
    assert (Hin : (k, c) ∈ entries kids0) by (rewrite Hl; apply elem_of_app; right; by left).
    pose proof (kw_ok _ _ _ Hkw _ _ Hin) as Hc. destruct (kw_depth _ _ _ Hkw _ _ Hin) as [Hkc Hsmall].
    unfold canonicalize_entry. cbn [fst snd]. apply twp_bind. eapply twp_mono; [by apply (find_seen_ok seen1 k c)|].
    intros [[k1 c1]|] Hf; cbn beta iota.
    + destruct Hf as (Hin1 & -> & Heq). destruct (so_wf _ Hseen1 _ _ Hin1) as (Hwc1 & Hk1 & _). apply twp_bind.
      eapply twp_mono; [apply ptr_eq_sound|]. intros [|] _; cbn beta iota; apply twp_ret; [done|].
      destruct (alter_similar ch0 ch1 key kids0 k c c1) as [H1 H2]; [done..|]. done.
    + apply twp_ret. split; [done|]. split; [done|]. split. intros k1 c1 [Hk1|[= -> ->]%list_elem_of_singleton]%elem_of_app; [by apply (so_wf _ Hseen1)|done].
  - intros [ch1 seen1] (Hs1 & Hw1 & Hseen1). split; [by eapply similar_trans|done].
Qed.

Lemma canonicalize_lower_ok ch : lower_children_wf ch → twp (canonicalize_lower_children ptr_eq ch) (λ r, lower_children_wf r ∧ similar ch r).
Proof using ptr_eq_sound.
  intros Hw. unfold canonicalize_lower_children. destruct (compact_len ch <=? 1); [apply twp_ret; split; [done|apply similar_refl]|].
  apply twp_bind. eapply twp_mono; [apply (twp_for_each (λ _, canonical_inv ch))|].
  - split; [apply similar_refl|]. split; [done|]. split. by intros k c ?%elem_of_nil.
  - intros _ key _ st _ Hst. by apply canonicalize_key_ok.
  - intros st (Hs & Hw' & _). apply twp_ret. by split.
Qed.

(** * Segments *)

Lemma new_segment_ok vs next :
  vs ≠ [] → wf_lower next → lower_max_depth next + lenN vs ≤ u32_max →
  wf_lower (new_segment vs next) ∧ lower_max_depth (new_segment vs next) = lower_max_depth next + lenN vs ∧
  ∀ s, in_lower (new_segment vs next) s ↔ ∃ s', s = rev vs ++ s' ∧ in_lower next s'.
Proof using.
  intros Hne Hw Hd. assert (Hadd : ∀ x y, x + y ≤ u32_max → u32_wrapping_add x (as_u32 y) = x + y).
  { intros x y Hxy. rewrite as_u32_small, u32_wrapping_add_small; unfold u32_max, u32_modulus in *; lia. }
  destruct next as [ch e d|cvs cnext d n]; cbn [new_segment].
  - rewrite Hadd by done. split; [by constructor|]. split; [done|]. intros s. apply in_segment_iff.
  - apply wf_segment_inv in Hw as (Hcne & Hcw & -> & Hcd & ->). cbn [lower_max_depth] in Hd |- *.
    assert (Hlen : lenN (cvs ++ vs) = lenN cvs + lenN vs) by apply lenN_app. rewrite Hadd by lia. split; [|split; [lia|]].
    + constructor; [by destruct cvs|done|done|lia|done].
    + intros s. rewrite in_segment_iff, rev_app_distr. setoid_rewrite in_segment_iff. setoid_rewrite <-app_assoc. naive_solver.
Qed.

Lemma segment_rest_ok vs next d n : wf_lower (Segment vs next d n) →
  ∃ v r, last vs = Some v ∧ segment_rest_arc (W:=W) (Segment vs next d n) = ret r ∧
    wf_lower r ∧ lower_max_depth r + 1 = d ∧ (lower_height r < lower_height (Segment vs next d n))%nat ∧
    ∀ s, in_lower (Segment vs next d n) s ↔ ∃ s', s = v :: s' ∧ in_lower r s'.
Proof using.
  intros (Hne & Hw & -> & Hd & ->)%wf_segment_inv. destruct vs as [|v vs _] using rev_ind; [done|].
  unfold segment_rest_arc. rewrite length_app. cbn [length lower_height]. destruct vs as [|v0 vs].
  - exists v, next. split; [done|]. split; [done|]. split; [done|]. split; [unfold lenN; cbn; lia|]. split; [cbn; lia|].
    intros s. rewrite in_segment_iff. done.
  - replace (length (v0 :: vs) + 1 =? 1)%nat with false by (symmetry; apply Nat.eqb_neq; cbn; lia).
    replace (length (v0 :: vs) + 1 =? 0)%nat with false by (symmetry; apply Nat.eqb_neq; cbn; lia).
    replace (length (v0 :: vs) + 1 - 1)%nat with (length (v0 :: vs)) by lia. rewrite take_app_length. rewrite lenN_snoc in *.
    assert (Hpos : 0 < lenN (v0 :: vs)) by (unfold lenN; cbn; lia).
    rewrite u32_wrapping_sub_small by (unfold u32_max, u32_modulus in *; lia). eexists v, _. split; [by rewrite last_snoc|].
    split; [done|]. split; [|split; [|split]].
    + constructor; [done|done|lia|lia|lia].
    + cbn. lia.
    + cbn [lower_height]. rewrite ?length_app. cbn. lia.
    + intros s. rewrite !in_segment_iff, rev_app_distr. cbn [rev app]. setoid_rewrite in_segment_iff. naive_solver.
Qed.

(** * Building a node *)

Lemma compress_ok ch e : lower_children_wf ch →
  wf_lower (compress ch e) ∧ lower_max_depth (compress ch e) = max_depth_from_children lower_max_depth ch ∧
  ∀ s, in_lower (compress ch e) s ↔ parent_lang ch e s.
Proof using.
  intros Hw.
  assert (Hgen : let g := General ch e (max_depth_from_children lower_max_depth ch) in
    wf_lower g ∧ lower_max_depth g = max_depth_from_children lower_max_depth ch ∧ ∀ s, in_lower g s ↔ parent_lang ch e s).
  { split; [by constructor|]. split; [done|]. intros s. apply in_general. }
  unfold compress. destruct e; [exact Hgen|]. cbn [negb].
  destruct (entries ch) as [|[key kids] [|e1 l1]] eqn:Hch; [exact Hgen| |exact Hgen].
  destruct (entries kids) as [|[k next] [|e2 l2]] eqn:Hkids; [exact Hgen| |exact Hgen].
  assert (He : edge ch key next) by (exists kids, k; rewrite Hch, Hkids; split; by left).
  assert (Hedges : ∀ v c, edge ch v c ↔ v = key ∧ c = next).
  { intros v c. split; [|by intros [-> ->]]. intros (kids' & k' & Hv & Hk). rewrite Hch, list_elem_of_singleton in Hv. injection Hv as -> ->.
    rewrite Hkids, list_elem_of_singleton in Hk. by injection Hk as -> ->. }
  destruct (wf_edge _ _ ch key next Hw He) as [Hn Hsmall].
  assert (Hdepth : max_depth_from_children lower_max_depth ch = lower_max_depth next + 1).
  { eapply depth_is_unique; [by apply (wf_depth lower_max_depth wf_lower)|]. right. exists key, next. split; [done|]. split; [done|]. by intros v c [-> ->]%Hedges. }
  destruct (new_segment_ok [key] next) as (H1 & H2 & H3); [done|done|unfold lenN; cbn; lia|].
  split; [done|]. split; [rewrite H2, Hdepth; done|]. intros s. rewrite H3. destruct s as [|v s]; cbn.
  - split; [by intros (? & ? & _)|done].
  - setoid_rewrite Hedges. naive_solver.
Qed.

Lemma new_lower_ok ch e : lower_children_wf ch →
  twp (new_lower ptr_eq ch e) (λ r, wf_lower r ∧ lower_max_depth r = max_depth_from_children lower_max_depth ch ∧ ∀ s, in_lower r s ↔ parent_lang ch e s).
Proof using ptr_eq_sound.
  intros Hw. unfold new_lower. apply twp_bind. eapply twp_mono; [by apply canonicalize_lower_ok|]. intros ch' [Hw' Hsim]. apply twp_ret.
  destruct (compress_ok ch' e Hw') as (H1 & H2 & H3). split; [done|]. split.
  - rewrite H2. symmetry. eapply depth_is_unique; [|by apply (wf_depth lower_max_depth wf_lower)]. eapply similar_depth; [exact Hsim|]. by apply (wf_depth lower_max_depth wf_lower).
  - intros s. rewrite H3. symmetry. by apply similar_lang.
Qed.

(** * Merging *)

(** [r] holds the stacks of both nodes. *)
Definition lower_union l1 l2 r : Prop :=
  wf_lower r ∧ lower_max_depth r = N.max (lower_max_depth l1) (lower_max_depth l2) ∧ ∀ s, in_lower r s ↔ in_lower l1 s ∨ in_lower l2 s.

(** The observations of a lower node: what follows when it has a stack. *)
Definition lower_test (p : Prop) l s : Prop := in_lower l s → p.

Lemma lower_union_merged l1 l2 r : lower_max_depth l1 = lower_max_depth l2 →
  lower_union l1 l2 r → merged lower_max_depth wf_lower lower_test l1 l2 r.
Proof using.
  intros Hd (H1 & H2 & H3). split; [done|]. split; [lia|]. intros p s. unfold lower_test. rewrite H3. tauto.
Qed.

(** The children of both nodes. *)
Definition children_union l1 l2 ch : Prop :=
  lower_children_wf ch ∧ depth_is lower_max_depth ch (N.max (lower_max_depth l1) (lower_max_depth l2)) ∧
  ∀ v s, (∃ c, edge ch v c ∧ in_lower c s) ↔ in_lower l1 (v :: s) ∨ in_lower l2 (v :: s).

(** [ch] are the children of [l]. *)
Definition children_view l ch : Prop :=
  lower_children_wf ch ∧ depth_is lower_max_depth ch (lower_max_depth l) ∧
  ∀ v s, in_lower l (v :: s) ↔ ∃ c, edge ch v c ∧ in_lower c s.

Lemma general_view ch e d : wf_lower (General ch e d) → children_view (General ch e d) ch.
Proof using.
  intros [Hw ->]%wf_general_inv. split; [done|]. split; [by apply (wf_depth lower_max_depth wf_lower)|]. intros v s. by rewrite in_general.
Qed.

Lemma rest_view l v r : wf_lower r → lower_max_depth r + 1 = lower_max_depth l → lower_max_depth l ≤ u32_max →
  (∀ s, in_lower l s ↔ ∃ s', s = v :: s' ∧ in_lower r s') → children_view l (compact_unit v (compact_unit (lower_max_depth r) r)).
Proof using.
  intros Hr Hd Hl Hin. split; [|split].
  - apply children_wf_unit, kids_wf_unit; [done|lia].
  - right. exists v, r. split; [by apply edge_unit_unit|]. split; [by rewrite Hd|]. by intros v' c' [-> ->]%edge_unit_unit.
  - intros v' s. rewrite Hin. setoid_rewrite edge_unit_unit. naive_solver.
Qed.

(** Merging the children of the two nodes, when the node merges below agree. *)
Lemma views_union merge_fn l1 l2 ch1 ch2 :
  children_view l1 ch1 → children_view l2 ch2 →
  (∀ v1 v2 a b, edge ch1 v1 a → edge ch2 v2 b → twp (merge_fn a b) (lower_union a b)) →
  twp (merge_children ptr_eq place merge_fn ch1 ch2) (children_union l1 l2).
Proof using place_perm ptr_eq_sound.
  intros (W1 & D1 & L1) (W2 & D2 & L2) Hf.
  eapply twp_mono; [apply (merge_edges_ok lower_max_depth wf_lower lower_test place place_perm ptr_eq ptr_eq_sound); [done|done|]|].
  - intros v kids1 kids2 k a b Hv1 Hv2 Ha Hb. eapply twp_mono; [apply (Hf v v); [by exists kids1, k|by exists kids2, k]|].
    intros r. apply lower_union_merged. pose proof (kw_depth _ _ _ (cw_kids _ _ _ W1 _ _ Hv1) _ _ Ha) as [<- _].
    apply (kw_depth _ _ _ (cw_kids _ _ _ W2 _ _ Hv2) _ _ Hb).
  - intros ch (Hw & Htest & Hdepth). split; [done|]. split; [by eapply (depth_is_max lower_max_depth ch1 ch2)|].
    intros v s. rewrite L1, L2. specialize (Htest ((∃ c, edge ch1 v c ∧ in_lower c s) ∨ ∃ c, edge ch2 v c ∧ in_lower c s) v s) as Ht1.
    specialize (Htest (∃ c, edge ch v c ∧ in_lower c s) v s) as Ht2. unfold ch_test, lower_test in *. split.
    + intros (c & He & Hc). apply (proj2 Ht1) with c; [|done|done]. split; intros c' He' Hc'; [left|right]; eauto.
    + destruct (proj1 Ht2 ltac:(eauto)) as [T1 T2]. intros [(c & He & Hc)|(c & He & Hc)]; eauto.
Qed.

(** A segment goes into a map of children like a node with one child. *)
Lemma merge_segment_children_ok merge_fn seg v r children (P : children_of T Lower → Prop) :
  twp (W:=W) (segment_top_value seg) (λ v', v' = v) → twp (W:=W) (segment_rest_arc seg) (λ r', r' = r) →
  twp (merge_children ptr_eq place merge_fn children (compact_unit v (compact_unit (lower_max_depth r) r))) P →
  twp (merge_segment_children place merge_fn seg children) P.
Proof using.
  intros Hv Hr Hm. unfold merge_segment_children. apply twp_bind. eapply twp_mono; [exact Hv|]. intros v' ->. cbn beta.
  apply twp_bind. eapply twp_mono; [exact Hr|]. intros r' ->. cbn beta. intros w. specialize (Hm w). revert Hm.
  unfold merge_children, map_ptr_eq, merge_kids, bind, ret. replace (match children with Inline _ => _ | Large _ => _ end) with (λ w0 : W, Some (false, w0)) by (by destruct children).
  cbn. destruct (compact_get children v) as [existing|]; cbn; [|done]. destruct (compact_get existing (lower_max_depth r)) as [l|]; cbn; [|done].
  unfold bind, ret. by destruct (merge_fn l r w) as [[? ?]|].
Qed.

(** A segment splits into its top value and the rest. *)
Lemma segment_view vs next d n : wf_lower (Segment vs next d n) →
  ∃ v r, segment_top_value (W:=W) (Segment vs next d n) = ret v ∧ segment_rest_arc (W:=W) (Segment vs next d n) = ret r ∧
    wf_lower r ∧ (lower_height r < lower_height (Segment vs next d n))%nat ∧ last vs = Some v ∧ lower_max_depth r + 1 = d ∧
    children_view (Segment vs next d n) (compact_unit v (compact_unit (lower_max_depth r) r)) ∧
    ∀ s, in_lower (Segment vs next d n) s ↔ ∃ s', s = v :: s' ∧ in_lower r s'.
Proof using.
  intros Hw. destruct (segment_rest_ok vs next d n Hw) as (v & r & Hv & Hr & Hwr & Hd & Hh & Hin). exists v, r.
  split; [unfold segment_top_value; by rewrite Hv|]. do 5 (split; [done|]). split; [|done].
  apply rest_view; [done|done|by apply (wf_depth_bound (Segment vs next d n))|done].
Qed.

Lemma merge_segments_ok (merge_fn : Lower → Lower → M W Lower) l1 l2 v1 r1 v2 r2 :
  segment_top_value (W:=W) l1 = ret v1 → segment_rest_arc (W:=W) l1 = ret r1 →
  segment_top_value (W:=W) l2 = ret v2 → segment_rest_arc (W:=W) l2 = ret r2 →
  children_view l1 (compact_unit v1 (compact_unit (lower_max_depth r1) r1)) →
  children_view l2 (compact_unit v2 (compact_unit (lower_max_depth r2) r2)) →
  lower_max_depth r1 + 1 = lower_max_depth l1 → lower_max_depth r2 + 1 = lower_max_depth l2 →
  twp (merge_fn r1 r2) (lower_union r1 r2) →
  twp (merge_segments place merge_fn l1 l2) (children_union l1 l2).
Proof using place_perm.
  intros T1 R1 T2 R2 (W1 & D1 & L1) (W2 & D2 & L2) E1 E2 Hm. unfold merge_segments. rewrite T1, R1, T2, R2.
  apply twp_bind, twp_ret, twp_bind, twp_ret, twp_bind, twp_ret, twp_bind, twp_ret.
  assert (B1 : lower_max_depth r1 < u32_max) by (by apply (wf_edge _ _ _ v1 r1 W1), edge_unit_unit).
  assert (B2 : lower_max_depth r2 < u32_max) by (by apply (wf_edge _ _ _ v2 r2 W2), edge_unit_unit).
  case_decide as Hv.
  - subst v2. apply twp_bind. eapply twp_mono; [exact Hm|]. intros r (Hr & Hd & Hin). apply twp_ret. split; [|split].
    + apply children_wf_unit, kids_wf_unit; [done|lia].
    + right. exists v1, r. split; [by apply edge_unit_unit|]. split; [lia|]. by intros v' c' [-> ->]%edge_unit_unit.
    + intros v s. rewrite L1, L2. setoid_rewrite edge_unit_unit. naive_solver.
  - apply twp_ret. assert (Hnd : NoDup (entries (compact_unit v1 (compact_unit (lower_max_depth r1) r1))).*1) by apply W1.
    assert (Hedge : ∀ v c, edge (map_insert place v2 (compact_unit (lower_max_depth r2) r2) (compact_unit v1 (compact_unit (lower_max_depth r1) r1))) v c ↔
      (v = v2 ∧ c = r2) ∨ (v = v1 ∧ c = r1)).
    { intros v c. rewrite edge_insert by done. rewrite edge_unit_unit. cbn. setoid_rewrite list_elem_of_singleton. naive_solver. }
    split; [|split].
    + apply children_wf_insert; [done|done|]. by apply (cw_kids _ _ _ W2 v2); left.
    + right. rewrite <-E1, <-E2. destruct (N.max_spec (lower_max_depth r1 + 1) (lower_max_depth r2 + 1)) as [[Hlt ->]|[Hlt ->]].
      * exists v2, r2. split; [apply Hedge; by left|]. split; [done|]. intros v c [[-> ->]|[-> ->]]%Hedge; lia.
      * exists v1, r1. split; [apply Hedge; by right|]. split; [done|]. intros v c [[-> ->]|[-> ->]]%Hedge; lia.
    + intros v s. rewrite L1, L2. setoid_rewrite Hedge. setoid_rewrite edge_unit_unit. naive_solver.
Qed.

Lemma children_union_comm l1 l2 ch : children_union l1 l2 ch → children_union l2 l1 ch.
Proof using. intros (H1 & H2 & H3). split; [done|]. split; [by rewrite N.max_comm|]. intros v s. rewrite H3. tauto. Qed.

Lemma lower_empty_ok l : wf_lower l → lower_empty l = true ↔ in_lower l [].
Proof using.
  intros Hw. destruct l as [ch e d|vs next d n]; [by rewrite in_general|]. cbn. split; [done|].
  intros (s' & Heq & _)%in_segment_iff. apply wf_segment_inv in Hw as (Hne & _). symmetry in Heq. apply app_eq_nil in Heq as [Heq _].
  destruct Hne. rewrite <-(rev_involutive vs), Heq. done.
Qed.

Lemma merge_lower_body_ok (merge_fn : Lower → Lower → M W Lower) l1 l2 :
  wf_lower l1 → wf_lower l2 →
  (∀ a b, wf_lower a → wf_lower b → (lower_height a < lower_height l1)%nat → (lower_height b < lower_height l2)%nat → twp (merge_fn a b) (lower_union a b)) →
  (∀ a b, wf_lower a → wf_lower b → (lower_height a < lower_height l2)%nat → (lower_height b < lower_height l1)%nat → twp (merge_fn a b) (lower_union a b)) →
  twp (merge_lower_body ptr_eq place merge_fn l1 l2) (lower_union l1 l2).
Proof using place_perm ptr_eq_sound.
  intros H1 H2 Hf Hg. unfold merge_lower_body. apply twp_bind. eapply twp_mono; [apply ptr_eq_sound|]. intros [|] Hp; cbn beta iota.
  { apply twp_ret. rewrite <-(Hp eq_refl). split; [done|]. split; [lia|]. tauto. }
  clear Hp. apply twp_bind. eapply twp_mono with (P := λ p, p = true → equiv l1 l2).
  { destruct l1 as [|v1 n1 d1 s1], l2 as [|v2 n2 d2 s2]; cbn [same_segment]; try (by apply twp_ret). apply twp_bind.
    eapply twp_mono; [apply ptr_eq_sound|]. intros p Hp. apply twp_ret. intros [-> ->%bool_decide_eq_true]%andb_true_iff. rewrite (Hp eq_refl) in *.
    apply wf_segment_inv in H1 as (_ & _ & -> & _), H2 as (_ & _ & -> & _). split; [done|]. intros s. by rewrite !in_segment_iff. }
  intros [|] Hp; cbn beta iota.
  { apply twp_ret. destruct (Hp eq_refl) as [Hd Hin]. split; [done|]. split; [lia|]. intros s. rewrite Hin. tauto. }
  clear Hp. apply twp_bind. eapply twp_mono with (P := children_union l1 l2).
  { destruct l1 as [c1 e1 d1|v1 n1 d1 s1], l2 as [c2 e2 d2|v2 n2 d2 s2].
    - apply views_union; [by apply general_view..|]. intros v1 v2 a b Ha Hb. apply Hf.
      + by apply (edge_child_wf _ _ _ _ _ H1 Ha).
      + by apply (edge_child_wf _ _ _ _ _ H2 Hb).
      + by eapply edge_height.
      + by eapply edge_height.
    - destruct (segment_view _ _ _ _ H2) as (v & r & Hv & Hr & Hwr & Hh & _ & _ & Hview & _).
      apply (merge_segment_children_ok merge_fn _ v r); [by rewrite Hv; apply twp_ret|by rewrite Hr; apply twp_ret|].
      apply views_union; [by apply general_view|done|]. intros v' v'' a b Ha [-> ->]%edge_unit_unit. apply Hf; [|done| |done].
      + by apply (edge_child_wf _ _ _ _ _ H1 Ha).
      + by eapply edge_height.
    - destruct (segment_view _ _ _ _ H1) as (v & r & Hv & Hr & Hwr & Hh & _ & _ & Hview & _).
      apply (merge_segment_children_ok merge_fn _ v r); [by rewrite Hv; apply twp_ret|by rewrite Hr; apply twp_ret|].
      eapply twp_mono; [|apply children_union_comm].
      apply views_union; [by apply general_view|done|]. intros v' v'' a b Ha [-> ->]%edge_unit_unit. apply Hg; [|done| |done].
      + by apply (edge_child_wf _ _ _ _ _ H2 Ha).
      + by eapply edge_height.
    - destruct (segment_view _ _ _ _ H1) as (u1 & r1 & Hu1 & Hr1 & Hwr1 & Hh1 & _ & Hd1 & Hview1 & _).
      destruct (segment_view _ _ _ _ H2) as (u2 & r2 & Hu2 & Hr2 & Hwr2 & Hh2 & _ & Hd2 & Hview2 & _).
      eapply merge_segments_ok; [exact Hu1|exact Hr1|exact Hu2|exact Hr2|done|done|done|done|]. by apply Hf. }
  intros ch (Hw & Hd & Hin). eapply twp_mono; [by apply (new_lower_ok ch)|]. intros r (Hr & Hrd & Hrin). split; [done|]. split.
  - rewrite Hrd. eapply depth_is_unique; [by apply (wf_depth lower_max_depth wf_lower)|done].
  - intros [|v s]; rewrite Hrin; cbn; [|apply Hin]. rewrite orb_true_iff, !lower_empty_ok by done. done.
Qed.

Lemma merge_lower_fuel_ok fuel l1 l2 :
  wf_lower l1 → wf_lower l2 → (lower_height l1 + lower_height l2 ≤ fuel)%nat → twp (merge_lower_fuel ptr_eq place fuel l1 l2) (lower_union l1 l2).
Proof using place_perm ptr_eq_sound.
  revert l1 l2. induction fuel as [|fuel IH]; intros l1 l2 H1 H2 Hf; [pose proof (height_pos l1 H1); lia|].
  cbn [merge_lower_fuel]. apply merge_lower_body_ok; [done..| |]; intros a b Ha Hb Hha Hhb; apply IH; done || lia.
Qed.

Lemma merge_lower_ok l1 l2 : wf_lower l1 → wf_lower l2 → twp (merge_lower ptr_eq place l1 l2) (lower_union l1 l2).
Proof using place_perm ptr_eq_sound. intros H1 H2. by apply merge_lower_fuel_ok. Qed.

(** The node that holds the empty stack alone, and the one that holds none. *)
Lemma leaf_ok e : twp (new_lower ptr_eq compact_new e) (λ r, wf_lower r ∧ lower_max_depth r = 0 ∧ ∀ s, in_lower r s ↔ e = true ∧ s = []).
Proof using ptr_eq_sound.
  eapply twp_mono; [apply new_lower_ok, children_wf_new|]. intros r (H1 & H2 & H3). split; [done|]. split; [done|].
  intros s. rewrite H3. destruct s as [|v s]; cbn; [tauto|]. split; [|naive_solver]. intros (c & He & _). by apply edge_new in He.
Qed.
End lower.
