(* ===== verification/GssUpper.v ===== *)
(** The upper part of the parser stack: accumulators on the ways down, and
    merging. *)

From S2P Require Import Prelude Accumulator CompactMap Gss GssKit GssLower.

Section upper.
Context {T : Type} `{EqDecision T} {W : Type}.
Context (ptr_eq : ∀ V : Type, V → V → M W bool) (ptr_eq_sound : ∀ (V : Type) (a b : V), twp (ptr_eq V a b) (λ p, p = true → a = b)).
Context (place : ∀ V : Type, T → V → list (T * V) → list (T * V)) (place_perm : ∀ V : Type, place_ok (place V)).
Context {A : Type} `{Merge A, AccEq A} (valid : A → Prop) `{!MergeLaws A valid}.
Context (acc_eqb_spec : ∀ a b, valid a → valid b → acc_eqb a b = true ↔ a = b).
Abbreviation Lower := (Lower T).
Abbreviation Upper := (Upper T A).
Implicit Types (u : Upper) (ch : children_of T Upper) (s : list T).

(** * The ways down *)

(** [path u s a]: a way down from [u] spells [s], from the top, and carries
    [a]. *)
Inductive path : Upper → list T → A → Prop :=
  | path_interface i a s : in_lower i s → path (Interface i a) s a
  | path_empty ch a d : path (Branch ch (Some a) d) [] a
  | path_child ch e d v c s a : edge ch v c → path c s a → path (Branch ch e d) (v :: s) a.

Inductive wf_upper : Upper → Prop :=
  | wf_branch ch e : children_wf upper_max_depth wf_upper ch → (∀ a, e = Some a → valid a) →
      wf_upper (Branch ch e (max_depth_from_children upper_max_depth ch))
  | wf_interface i a : wf_lower i → valid a → wf_upper (Interface i a).

Abbreviation upper_children_wf := (children_wf upper_max_depth wf_upper).

Lemma path_interface_iff i a s b : path (Interface i a) s b ↔ in_lower i s ∧ b = a.
Proof using. split; [by inversion 1|]. intros [? ->]. by constructor. Qed.

Lemma path_branch_nil ch e d a : path (Branch ch e d) [] a ↔ e = Some a.
Proof using. split; [by inversion 1|]. intros ->. constructor. Qed.

Lemma path_branch_cons ch e d v s a : path (Branch ch e d) (v :: s) a ↔ ∃ c, edge ch v c ∧ path c s a.
Proof using. split; [inversion 1; eauto|]. intros (c & ? & ?). by econstructor. Qed.

Lemma wf_branch_inv ch e d : wf_upper (Branch ch e d) →
  upper_children_wf ch ∧ d = max_depth_from_children upper_max_depth ch ∧ ∀ a, e = Some a → valid a.
Proof using. by inversion 1. Qed.

Lemma wf_interface_inv i a : wf_upper (Interface i a) → wf_lower i ∧ valid a.
Proof using. by inversion 1. Qed.

Lemma upper_depth_bound u : wf_upper u → upper_max_depth u ≤ u32_max.
Proof using.
  intros Hu. inversion Hu as [ch e Hw|i a Hi]; subst; cbn; [|by apply wf_depth_bound].
  destruct (wf_depth _ _ ch Hw) as [[-> _]|(v & c & He & -> & _)]; [done|]. destruct (wf_edge _ _ ch v c Hw He). lia.
Qed.

Lemma upper_edge_wf ch v c : upper_children_wf ch → edge ch v c → wf_upper c.
Proof using. intros Hw He. by destruct (wf_edge _ _ ch v c Hw He). Qed.

Lemma upper_edge_height ch e d v c : edge ch v c → (upper_height c < upper_height (Branch ch e d))%nat.
Proof using.
  intros (kids & k & Hv & Hk). cbn [upper_height].
  pose proof (foldr_max_member (λ e : T * compact N Upper, foldr (λ e : N * Upper, Nat.max (upper_height e.2)) 0%nat (entries e.2)) _ _ Hv) as H1.
  pose proof (foldr_max_member (λ e : N * Upper, upper_height e.2) _ _ Hk) as H2. cbn in H1, H2. lia.
Qed.

Lemma path_valid u s a : wf_upper u → path u s a → valid a.
Proof using.
  intros Hu Hp. revert Hu. induction Hp as [i a s Hi|ch a d|ch e d v c s a He Hp IH]; intros Hu.
  - by destruct (wf_interface_inv _ _ Hu).
  - apply wf_branch_inv in Hu as (_ & _ & Hv). by apply Hv.
  - apply wf_branch_inv in Hu as (Hw & _ & _). by eapply IH, upper_edge_wf.
Qed.

(** ** Observations of accumulators *)

(** A property of accumulators that a merged one has exactly when both have
    it. *)
Record acc_test := {
  holds : A → Prop;
  holds_merge : ∀ a b, valid a → valid b → holds (merge a b) ↔ holds a ∧ holds b;
}.

Definition upper_test (t : acc_test) u s : Prop := ∀ a, path u s a → holds t a.

(** [r] carries what both nodes carry. *)
Definition upper_union u1 u2 (r : Upper) : Prop :=
  wf_upper r ∧ upper_max_depth r = N.max (upper_max_depth u1) (upper_max_depth u2) ∧
  ∀ t s, upper_test t r s ↔ upper_test t u1 s ∧ upper_test t u2 s.

(** [r] has the very same ways. *)
Definition same_paths u (r : Upper) : Prop :=
  wf_upper r ∧ upper_max_depth r = upper_max_depth u ∧ ∀ s a, path r s a ↔ path u s a.

Lemma upper_union_merged u1 u2 r : upper_max_depth u1 = upper_max_depth u2 →
  upper_union u1 u2 r → merged upper_max_depth wf_upper upper_test u1 u2 r.
Proof using. intros Hd (H1 & H2 & H3). split; [done|]. split; [lia|done]. Qed.

Lemma upper_union_comm u1 u2 r : upper_union u1 u2 r → upper_union u2 u1 r.
Proof using. intros (H1 & H2 & H3). split; [done|]. split; [lia|]. intros t s. rewrite H3. tauto. Qed.

Lemma upper_union_same u1 u2 r r' : upper_union u1 u2 r → same_paths r r' → upper_union u1 u2 r'.
Proof using.
  intros (H1 & H2 & H3) (H4 & H5 & H6). split; [done|]. split; [congruence|]. intros t s. rewrite <-H3. unfold upper_test. by setoid_rewrite H6.
Qed.

Lemma same_paths_refl u : wf_upper u → same_paths u u.
Proof using. intros Hu. by split. Qed.

Lemma new_branch_wf ch e : upper_children_wf ch → (∀ a, e = Some a → valid a) → wf_upper (new_branch ch e).
Proof using. intros Hw He. by constructor. Qed.

(** * Promotion *)

Lemma acc_insert_ok accs a : Forall valid accs → valid a →
  Forall valid (acc_insert accs a) ∧ a ∈ acc_insert accs a ∧ ∀ b, b ∈ accs → b ∈ acc_insert accs a.
Proof using acc_eqb_spec.
  intros Hv Ha. unfold acc_insert. destruct (existsb (acc_eqb a) accs) eqn:He.
  - apply existsb_exists in He as (b & Hb%list_elem_of_In & Heq). rewrite Forall_forall in Hv. apply acc_eqb_spec in Heq as ->; [|done|by apply Hv].
    split; [by apply Forall_forall|]. done.
  - split; [apply Forall_app; by repeat constructor|]. split; [apply elem_of_app; right; by left|]. intros b Hb. apply elem_of_app. by left.
Qed.

Definition collect (accs : list A) (c : Upper) : list A := match c with Interface _ acc => acc_insert accs acc | Branch _ _ _ => accs end.

Lemma collect_accs_ok kids accs : Forall valid accs → (∀ i a, Interface i a ∈ kids → valid a) →
  Forall valid (foldl collect accs kids) ∧ (∀ i a, Interface i a ∈ kids → a ∈ foldl collect accs kids) ∧
  ∀ b, b ∈ accs → b ∈ foldl collect accs kids.
Proof using acc_eqb_spec.
  revert accs. induction kids as [|c kids IH]; intros accs Hv Hk; cbn [foldl]; [split; [done|]; split; [by intros ? ? ?%elem_of_nil|done]|].
  destruct c as [ch e d|i a]; cbn [collect].
  - destruct (IH accs Hv) as (H1 & H2 & H3); [intros i a Hin; eapply Hk; by right|]. split; [done|]. split; [|done].
    intros i a [?|?]%elem_of_cons; [done|by eapply H2].
  - destruct (acc_insert_ok accs a Hv) as (V1 & V2 & V3); [eapply Hk; by left|].
    destruct (IH _ V1) as (H1 & H2 & H3); [intros i' a' Hin; eapply Hk; by right|]. split; [done|]. split; [|auto].
    intros i' a' [[= -> ->]|?]%elem_of_cons; [by apply H3|by eapply H2].
Qed.

(** An upper child and the lower node inside it. *)
Definition inner_of (c : Upper) (l : Lower) : Prop := ∃ a, c = Interface l a.

Lemma lower_children_of_ok ch :
  upper_children_wf ch → (∀ v c, edge ch v c → is_interface c = true) →
  children_wf lower_max_depth wf_lower (lower_children_of place ch) ∧
  (∀ v c, edge ch v c → ∃ l, edge (lower_children_of place ch) v l ∧ inner_of c l) ∧
  (∀ v l, edge (lower_children_of place ch) v l → ∃ c, edge ch v c ∧ inner_of c l).
Proof using place_perm.
  intros Hw Hint. apply (rebuild_children upper_max_depth wf_upper lower_max_depth wf_lower place place_perm inner_of lower_kids ch Hw).
  intros v kids Hv. apply (rebuild_kids upper_max_depth wf_upper lower_max_depth wf_lower inner_of).
  - by intros c c' [a ->].
  - by apply (cw_kids _ _ _ Hw v).
  - intros m k c Hc. assert (He : edge ch v c) by (by exists kids, k). pose proof (Hint _ _ He) as Hi. pose proof (upper_edge_wf _ _ _ Hw He) as Hcw.
    destruct c as [|i a]; [done|]. exists i. split; [done|]. split; [by exists a|]. by destruct (wf_interface_inv _ _ Hcw).
Qed.

(** Between a branch with interfaces below and an interface with one
    accumulator. *)
Lemma promoted_ok ch e acc l :
  upper_children_wf ch → (∀ a, e = Some a → a = acc) → (∀ v c, edge ch v c → ∃ i, c = Interface i acc) → valid acc →
  wf_lower l → lower_max_depth l = max_depth_from_children lower_max_depth (lower_children_of place ch) →
  (∀ s, in_lower l s ↔ parent_lang (lower_children_of place ch) (bool_decide (is_Some e)) s) →
  same_paths (Branch ch e (max_depth_from_children upper_max_depth ch)) (Interface l acc).
Proof using place_perm.
  intros Hw He Hkids Hacc Hl Hd Hin.
  destruct (lower_children_of_ok ch Hw) as (H1 & H2 & H3); [intros v c Hc; by destruct (Hkids _ _ Hc) as [i ->]|].
  split; [by constructor|]. split.
  - cbn. rewrite Hd. eapply depth_is_unique; [by apply (wf_depth lower_max_depth wf_lower)|].
    eapply (rebuild_depth upper_max_depth lower_max_depth inner_of); [|exact H2|exact H3|by apply (wf_depth upper_max_depth wf_upper)]. by intros c c' [a ->].
  - intros s a. rewrite path_interface_iff, Hin. destruct s as [|v s]; cbn.
    + rewrite path_branch_nil, bool_decide_eq_true. split.
      * intros [[b ->] ->]. f_equal. by apply He.
      * intros ->. split; [by eexists|]. by apply He.
    + rewrite path_branch_cons. split.
      * intros [(i & Hi & Hs) ->]. destruct (H3 _ _ Hi) as (c & Hc & a' & ->). destruct (Hkids _ _ Hc) as [i' [= -> ->]].
        exists (Interface i' acc). split; [done|by constructor].
      * intros (c & Hc & Hp). destruct (Hkids _ _ Hc) as [i ->]. apply path_interface_iff in Hp as [Hs ->]. split; [|done].
        destruct (H2 _ _ Hc) as (l' & Hl' & a' & [= <- _]). by exists i.
Qed.

Lemma leaf_promoted e acc l d : valid acc → e = Some acc → wf_lower l → lower_max_depth l = 0 → (∀ s, in_lower l s ↔ true = true ∧ s = []) →
  ∀ ch, (∀ v c, ¬ edge ch v c) → wf_upper (Branch ch e d) → same_paths (Branch ch e d) (Interface l acc).
Proof using.
  clear acc_eqb_spec. intros Hacc -> Hl Hd Hin ch Hn Hw. apply wf_branch_inv in Hw as (Hw & -> & _). split; [by constructor|]. split.
  - cbn. rewrite Hd. eapply depth_is_unique; [|by apply (wf_depth upper_max_depth wf_upper)]. by left.
  - intros s a. rewrite path_interface_iff, Hin. destruct s as [|v s].
    + rewrite path_branch_nil. naive_solver.
    + rewrite path_branch_cons. split; [naive_solver|]. intros (c & Hc & _). by destruct (Hn v c).
Qed.

Lemma try_promote_ok u : wf_upper u → twp (try_promote ptr_eq place u) (same_paths u).
Proof using acc_eqb_spec place_perm ptr_eq_sound.
  intros Hu. destruct u as [ch e d|i a]; cbn [try_promote]; [|by apply twp_ret, same_paths_refl].
  pose proof (wf_branch_inv _ _ _ Hu) as (Hw & -> & He).
  destruct (forallb is_interface (all_kids ch)) eqn:Hall; cbn [negb]; [|by apply twp_ret, same_paths_refl].
  rewrite forallb_forall in Hall. setoid_rewrite <-list_elem_of_In in Hall.
  pose proof (elem_of_all_kids ch) as Hkids. destruct (all_kids ch) as [|c0 l0] eqn:Hak.
  - destruct e as [acc|]; [|by apply twp_ret, same_paths_refl]. apply twp_bind. eapply twp_mono; [by apply leaf_ok|].
    intros l (H1 & H2 & H3). apply twp_ret. eapply leaf_promoted; [by apply He|done|done|done|done| |done].
    intros v c Hc. assert (Hin : c ∈ @nil Upper) by (apply Hkids; eauto). by apply elem_of_nil in Hin.
  - rewrite <-Hak in *. fold collect. set (init := match e with Some acc => acc_insert [] acc | None => [] end).
    assert (Hinit : Forall valid init ∧ ∀ a, e = Some a → a ∈ init).
    { unfold init. destruct e as [acc|]; [|by split]. destruct (acc_insert_ok [] acc) as (V1 & V2 & _); [done|by apply He|]. split; [done|]. by intros a [= <-]. }
    destruct Hinit as [Hiv Hie]. destruct (collect_accs_ok (all_kids ch) init Hiv) as (V1 & V2 & V3).
    { intros i a Hin. apply Hkids in Hin as [v Hc]. pose proof (upper_edge_wf _ _ _ Hw Hc) as Hcw. by destruct (wf_interface_inv _ _ Hcw). }
    destruct (foldl collect init (all_kids ch)) as [|acc [|b accs]] eqn:Haccs.
    + exfalso. assert (Hin : c0 ∈ all_kids ch) by (rewrite Hak; by left). pose proof (Hall _ Hin) as Hi. destruct c0 as [|i a]; [done|].
      apply V2 in Hin. by apply elem_of_nil in Hin.
    + assert (Hone : ∀ v c, edge ch v c → ∃ i, c = Interface i acc).
      { intros v c Hc. assert (Hin : c ∈ all_kids ch) by (apply Hkids; eauto). pose proof (Hall _ Hin) as Hi. destruct c as [|i a]; [done|].
        apply V2, list_elem_of_singleton in Hin as ->. by exists i. }
      destruct (lower_children_of_ok ch Hw) as (H1 & _); [intros v c Hc; by destruct (Hone _ _ Hc) as [i ->]|].
      apply twp_bind. eapply twp_mono; [by apply new_lower_ok|]. intros l (L1 & L2 & L3). apply twp_ret. rewrite Forall_singleton in V1.
      apply promoted_ok; [done| |done|done|done|done|done]. intros a Ha%Hie%V3%list_elem_of_singleton. done.
    + by apply twp_ret, same_paths_refl.
Qed.

(** * Splitting an interface *)

Definition outer_of (acc : A) (l : Lower) (c : Upper) : Prop := c = Interface l acc.

Lemma interface_children_ok acc (ch : children_of T Lower) :
  children_wf lower_max_depth wf_lower ch → valid acc →
  upper_children_wf (interface_children place acc ch) ∧
  (∀ v l, edge ch v l → ∃ c, edge (interface_children place acc ch) v c ∧ outer_of acc l c) ∧
  (∀ v c, edge (interface_children place acc ch) v c → ∃ l, edge ch v l ∧ outer_of acc l c).
Proof using place_perm.
  intros Hw Ha. apply (rebuild_children lower_max_depth wf_lower upper_max_depth wf_upper place place_perm (outer_of acc) (interface_kids acc) ch Hw).
  intros v kids Hv. apply (rebuild_kids lower_max_depth wf_lower upper_max_depth wf_upper (outer_of acc)).
  - by intros c c' ->.
  - by apply (cw_kids _ _ _ Hw v).
  - intros m k l Hl. exists (Interface l acc). split; [done|]. split; [done|]. constructor; [|done]. by apply (kw_ok _ _ _ (cw_kids _ _ _ Hw _ _ Hv) k).
Qed.

(** A branch with the ways of [Interface i a], over smaller nodes. *)
Definition opened (i : Lower) (a : A) (r : Upper) : Prop :=
  ∃ ch e, r = new_branch ch e ∧ same_paths (Interface i a) r ∧ ∀ v c, edge ch v c → (upper_height c < lower_height i)%nat.

Lemma interface_to_upperbranch_ok i a : wf_lower i → valid a → twp (W:=W) (interface_to_upperbranch place i a) (opened i a).
Proof using place_perm.
  clear acc_eqb_spec. intros Hi Ha. unfold interface_to_upperbranch.
  assert (Hempty : ∀ b, (if lower_empty i then Some a else None) = Some b → valid b) by (intros b; destruct (lower_empty i); [by intros [= <-]|done]).
  assert (Hnil : ∀ b, (if lower_empty i then Some a else None) = Some b ↔ in_lower i [] ∧ b = a).
  { intros b. rewrite <-lower_empty_ok by done. destruct (lower_empty i); naive_solver. }
  apply twp_bind. destruct i as [ch e d|vs next d n].
  - apply twp_ret, twp_ret. destruct (wf_general_inv _ _ _ Hi) as [Hw ->]. destruct (interface_children_ok a ch Hw Ha) as (H1 & H2 & H3).
    eexists _, _. split; [done|]. split; [split; [by apply new_branch_wf|split]|].
    + cbn. eapply depth_is_unique; [by apply (wf_depth upper_max_depth wf_upper)|].
      eapply (rebuild_depth lower_max_depth upper_max_depth (outer_of a)); [|exact H2|exact H3|by apply (wf_depth lower_max_depth wf_lower)]. by intros c c' ->.
    + intros s b. unfold new_branch. rewrite path_interface_iff. destruct s as [|v s]; [rewrite path_branch_nil; apply Hnil|]. rewrite path_branch_cons, in_general. cbn. split.
      * intros (c & Hc & Hp). destruct (H3 _ _ Hc) as (l & Hl & ->). apply path_interface_iff in Hp as [? ->]. eauto.
      * intros [(l & Hl & Hs) ->]. destruct (H2 _ _ Hl) as (c & Hc & ->). exists (Interface l a). split; [done|by constructor].
    + intros v c Hc. destruct (H3 _ _ Hc) as (l & Hl & ->). by eapply edge_height.
  - destruct (segment_view (W:=W) _ _ _ _ Hi) as (v & r & -> & -> & Hr & Hh & _ & Hd & _ & Hin). apply twp_bind, twp_ret, twp_bind, twp_ret, twp_ret, twp_ret.
    pose proof (wf_depth_bound _ Hi) as Hb. cbn [lower_max_depth] in Hb.
    assert (Hedge : ∀ v' c, edge (map_insert place v (compact_unit (upper_max_depth (Interface r a)) (Interface r a)) compact_new) v' c ↔ v' = v ∧ c = Interface r a).
    { intros v' c. rewrite edge_insert by (done || constructor). cbn. setoid_rewrite list_elem_of_singleton. pose proof (edge_new (V:=Upper) v' c). naive_solver. }
    assert (Hchw : upper_children_wf (map_insert place v (compact_unit (upper_max_depth (Interface r a)) (Interface r a)) compact_new)).
    { apply children_wf_insert; [done|apply children_wf_new|]. apply kids_wf_unit; [by constructor|cbn; lia]. }
    eexists _, _. split; [done|]. split; [split; [by apply new_branch_wf|split]|].
    + cbn. rewrite <-Hd. eapply depth_is_unique; [by apply (wf_depth upper_max_depth wf_upper)|]. right. exists v, (Interface r a).
      split; [by apply Hedge|]. split; [done|]. by intros v' c' [-> ->]%Hedge.
    + intros s b. unfold new_branch. rewrite path_interface_iff. destruct s as [|v' s]; [rewrite path_branch_nil; apply Hnil|]. rewrite path_branch_cons, Hin. setoid_rewrite Hedge. split.
      * intros (c & [-> ->] & [Hs ->]%path_interface_iff). eauto.
      * intros [(s' & [= -> ->] & Hs) ->]. exists (Interface r a). split; [done|by constructor].
    + intros v' c [-> ->]%Hedge. exact Hh.
Qed.

(** ** The common prefix *)

(** [p] leads down from [i], deterministically, to [j]. *)
Definition leads (p : list T) (i j : Lower) : Prop :=
  wf_lower j ∧ lower_max_depth i = lenN p + lower_max_depth j ∧ (length p + lower_height j ≤ lower_height i)%nat ∧
  ∀ s, in_lower i s ↔ ∃ s', s = p ++ s' ∧ in_lower j s'.

Lemma leads_nil i : wf_lower i → leads [] i i.
Proof using. clear acc_eqb_spec. intros Hi. split; [done|]. split; [done|]. split; [done|]. intros s. cbn. naive_solver. Qed.

Lemma leads_cons v i j p k : leads [v] i j → leads p j k → leads (v :: p) i k.
Proof using.
  clear acc_eqb_spec ptr_eq_sound place_perm. intros (H1 & H2 & H3 & H4) (H5 & H6 & H7 & H8). split; [done|]. split; [unfold lenN in *; cbn in *; lia|]. split; [cbn in *; lia|].
  intros s. rewrite H4. setoid_rewrite H8. naive_solver.
Qed.

Lemma top_step_ok i : wf_lower i →
  twp (W:=W) (nonempty_deterministic_top_step i) (λ r, match r with Some (v, j) => leads [v] i j | None => True end).
Proof using.
  clear acc_eqb_spec ptr_eq_sound place_perm. intros Hi. destruct i as [ch e d|vs next d n]; cbn [nonempty_deterministic_top_step].
  - destruct (wf_general_inv _ _ _ Hi) as [Hw ->]. destruct (entries ch) as [|[v kids] [|? ?]] eqn:Hch; [by apply twp_ret| |by apply twp_ret].
    destruct e; [by apply twp_ret|]. destruct (entries kids) as [|[k c] [|? ?]] eqn:Hk; [by apply twp_ret| |by apply twp_ret]. apply twp_ret.
    assert (He : edge ch v c) by (exists kids, k; rewrite Hch, Hk; split; by left).
    assert (Hedges : ∀ v' c', edge ch v' c' ↔ v' = v ∧ c' = c).
    { intros v' c'. split; [|by intros [-> ->]]. intros (kids' & k' & Hv' & Hk'). rewrite Hch, list_elem_of_singleton in Hv'. injection Hv' as -> ->.
      rewrite Hk, list_elem_of_singleton in Hk'. by injection Hk' as -> ->. }
    split; [by apply (edge_wf ch v)|]. split; [|split].
    + cbn. eapply depth_is_unique; [by apply (wf_depth lower_max_depth wf_lower)|]. right. exists v, c. split; [done|]. split; [unfold lenN; cbn; lia|].
      by intros v' c' [-> ->]%Hedges.
    + pose proof (edge_height ch false (max_depth_from_children lower_max_depth ch) v c He). cbn [length]. lia.
    + intros s. rewrite in_general. destruct s as [|v' s]; cbn; [split; [done|by intros (? & ? & _)]|]. setoid_rewrite Hedges. naive_solver.
  - destruct (segment_view (W:=W) _ _ _ _ Hi) as (v & r & _ & -> & Hr & Hh & -> & Hd & _ & Hin). apply twp_bind, twp_ret, twp_ret.
    split; [done|]. split; [cbn; unfold lenN; cbn; lia|]. split; [cbn [length]; lia|]. intros s. rewrite Hin. done.
Qed.

Lemma shared_prefix_ok fuel i j : wf_lower i → wf_lower j → (lower_height i < fuel)%nat →
  twp (W:=W) (shared_nonempty_deterministic_prefix fuel i j) (λ r, leads r.1.1 i r.1.2 ∧ leads r.1.1 j r.2).
Proof using.
  revert i j. induction fuel as [|fuel IH]; intros i j Hi Hj Hf; [lia|]. cbn [shared_nonempty_deterministic_prefix].
  assert (Hstop : twp (W:=W) (ret ([], i, j)) (λ r : list T * Lower * Lower, leads r.1.1 i r.1.2 ∧ leads r.1.1 j r.2)) by (apply twp_ret; split; by apply leads_nil).
  apply twp_bind. eapply twp_mono; [by apply top_step_ok|]. intros [[v i']|] Hl; [|exact Hstop].
  apply twp_bind. eapply twp_mono; [by apply (top_step_ok j)|]. intros [[v' j']|] Hr; [|exact Hstop].
  case_decide as Hv; [|exact Hstop]. subst v'. apply twp_bind. eapply twp_mono; [apply IH; [apply Hl|apply Hr|]|].
  - destruct Hl as (_ & _ & Hh & _). cbn in Hh. lia.
  - intros [[p i''] j''] [H1 H2]. apply twp_ret. cbn in *. split; by eapply leads_cons.
Qed.

(** [r] is [u] under the values [p]. *)
Definition pushed (p : list T) u (r : Upper) : Prop :=
  wf_upper r ∧ upper_max_depth r = lenN p + upper_max_depth u ∧ ∀ s a, path r s a ↔ ∃ s', s = p ++ s' ∧ path u s' a.

Lemma push_prefix_ok u v : wf_upper u → upper_max_depth u < u32_max → twp (push_prefix ptr_eq place u v) (pushed [v] u).
Proof using acc_eqb_spec place_perm ptr_eq_sound.
  intros Hu Hd. unfold push_prefix.
  assert (Hw : upper_children_wf (compact_unit v (compact_unit (upper_max_depth u) u))) by (by apply children_wf_unit, kids_wf_unit).
  eapply twp_mono; [apply try_promote_ok, new_branch_wf; [done|by intros ? [=]]|]. intros r (H1 & H2 & H3). split; [done|]. split.
  - rewrite H2. unfold new_branch. cbn [upper_max_depth].
    eapply depth_is_unique; [by apply (wf_depth upper_max_depth wf_upper)|]. right. exists v, u. split; [by apply edge_unit_unit|].
    split; [unfold lenN; cbn; lia|]. by intros v' c' [-> ->]%edge_unit_unit.
  - intros s a. rewrite H3. unfold new_branch. destruct s as [|v' s]; [rewrite path_branch_nil; split; [done|by intros (? & ? & _)]|].
    rewrite path_branch_cons. setoid_rewrite edge_unit_unit. cbn. naive_solver.
Qed.

Lemma push_prefixes_ok u p : wf_upper u → lenN p + upper_max_depth u ≤ u32_max → twp (for_each (push_prefix ptr_eq place) u (rev p)) (pushed p u).
Proof using acc_eqb_spec place_perm ptr_eq_sound.
  intros Hu Hd. eapply twp_mono; [apply (twp_for_each (λ done_, pushed (rev done_) u))|].
  - split; [done|]. split; [done|]. intros s a. cbn. naive_solver.
  - intros done_ v rest r Hl (R1 & R2 & R3). assert (Hlen : lenN p = lenN done_ + 1 + lenN rest).
    { unfold lenN. rewrite <-(length_rev p), Hl, length_app. cbn. lia. }
    assert (Hrev : lenN (rev done_) = lenN done_) by (unfold lenN; by rewrite length_rev).
    eapply twp_mono; [apply push_prefix_ok; [done|lia]|]. intros r' (R4 & R5 & R6). split; [done|]. rewrite rev_app_distr. cbn [rev app].
    split; [rewrite R5, R2; unfold lenN in *; cbn; lia|]. intros s a. rewrite R6. setoid_rewrite R3. naive_solver.
  - intros r. by rewrite rev_involutive.
Qed.

(** * Merging *)

Lemma upper_test_nil t ch e d : upper_test t (Branch ch e d) [] ↔ ∀ a, e = Some a → holds t a.
Proof using. unfold upper_test. by setoid_rewrite path_branch_nil. Qed.

Lemma upper_test_cons t ch e d v s : upper_test t (Branch ch e d) (v :: s) ↔ ch_test upper_test ch t v s.
Proof using. clear acc_eqb_spec ptr_eq_sound place_perm. unfold upper_test, ch_test. setoid_rewrite path_branch_cons. naive_solver. Qed.

Lemma upper_test_interface t i a s : upper_test t (Interface i a) s ↔ (in_lower i s → holds t a).
Proof using. clear acc_eqb_spec ptr_eq_sound place_perm. unfold upper_test. setoid_rewrite path_interface_iff. naive_solver. Qed.

Lemma merge_optional_ok t e1 e2 : (∀ a, e1 = Some a → valid a) → (∀ a, e2 = Some a → valid a) →
  (∀ a, merge_optional_acc e1 e2 = Some a → valid a) ∧
  ((∀ a, merge_optional_acc e1 e2 = Some a → holds t a) ↔ (∀ a, e1 = Some a → holds t a) ∧ (∀ a, e2 = Some a → holds t a)).
Proof using MergeLaws0.
  clear acc_eqb_spec ptr_eq_sound place_perm. intros H1 H2. destruct e1 as [a1|], e2 as [a2|]; cbn.
  2-4: split; [done|]; split; [intros Hh; by split|by intros [? ?]].
  specialize (H1 _ eq_refl). specialize (H2 _ eq_refl). split.
  - intros a [= <-]. by apply merge_valid.
  - pose proof (holds_merge t a1 a2 H1 H2) as Hm. split.
    + intros Ha. specialize (Ha _ eq_refl). apply Hm in Ha as [? ?]. by split; intros a [= <-].
    + intros [Ha1 Ha2] a [= <-]. apply Hm. auto.
Qed.

Lemma merge_upperbranches_ok (merge_fn : Upper → Upper → M W Upper) c1 e1 d1 c2 e2 d2 :
  wf_upper (Branch c1 e1 d1) → wf_upper (Branch c2 e2 d2) →
  (∀ v1 v2 a b, edge c1 v1 a → edge c2 v2 b → twp (merge_fn a b) (upper_union a b)) →
  twp (merge_upperbranches ptr_eq place merge_fn (Branch c1 e1 d1) (Branch c2 e2 d2)) (upper_union (Branch c1 e1 d1) (Branch c2 e2 d2)).
Proof using MergeLaws0 acc_eqb_spec place_perm ptr_eq_sound.
  intros Hu1 Hu2 Hf. destruct (wf_branch_inv _ _ _ Hu1) as (W1 & -> & E1). destruct (wf_branch_inv _ _ _ Hu2) as (W2 & -> & E2).
  cbn [merge_upperbranches]. apply twp_bind. eapply twp_mono; [apply ptr_eq_sound|]. intros [|] Hp; cbn beta iota.
  { apply twp_ret. rewrite <-(Hp eq_refl). split; [done|]. split; [lia|]. tauto. }
  clear Hp. apply twp_bind.
  eapply twp_mono; [apply (merge_edges_ok upper_max_depth wf_upper upper_test place place_perm ptr_eq ptr_eq_sound merge_fn c1 c2); [done|done|]|].
  - intros v kids1 kids2 k a b Hv1 Hv2 Ha Hb. eapply twp_mono; [apply (Hf v v); [by exists kids1, k|by exists kids2, k]|].
    intros r. apply upper_union_merged. pose proof (kw_depth _ _ _ (cw_kids _ _ _ W1 _ _ Hv1) _ _ Ha) as [<- _].
    apply (kw_depth _ _ _ (cw_kids _ _ _ W2 _ _ Hv2) _ _ Hb).
  - intros ch (Hw & Htest & Hdepth).
    assert (Hd : N.max (max_depth_from_children upper_max_depth c1) (max_depth_from_children upper_max_depth c2) = max_depth_from_children upper_max_depth ch).
    { eapply depth_is_unique; [|by apply (wf_depth upper_max_depth wf_upper)].
      apply (depth_is_max upper_max_depth c1 c2 ch); [by apply (wf_depth upper_max_depth wf_upper)|by apply (wf_depth upper_max_depth wf_upper)|done]. }
    rewrite Hd. set (node := Branch ch (merge_optional_acc e1 e2) (max_depth_from_children upper_max_depth ch)).
    assert (Hnode : upper_union (Branch c1 e1 (max_depth_from_children upper_max_depth c1)) (Branch c2 e2 (max_depth_from_children upper_max_depth c2)) node).
    { split; [|split; [by cbn; rewrite Hd|]].
      - constructor; [done|]. intros a Ha. destruct (merge_optional_ok {| holds := λ _, True; holds_merge := λ _ _ _ _, conj (λ _, conj I I) (λ _, I) |} e1 e2 E1 E2) as [Hv _]. by apply Hv.
      - intros t [|v s]; unfold node; [rewrite !upper_test_nil; by apply merge_optional_ok|]. rewrite !upper_test_cons. apply Htest. }
    eapply twp_mono; [apply try_promote_ok, Hnode|]. intros r Hr. by eapply upper_union_same.
Qed.

(** Opening both sides first. *)
Lemma upper_union_opened u1 u2 r1 r2 r : same_paths u1 r1 → same_paths u2 r2 → upper_union r1 r2 r → upper_union u1 u2 r.
Proof using.
  intros (_ & D1 & P1) (_ & D2 & P2) (H1 & H2 & H3). split; [done|]. split; [congruence|]. intros t s. rewrite H3. unfold upper_test. by setoid_rewrite P1; setoid_rewrite P2.
Qed.

Lemma same_accs_ok i1 i2 a r : valid a → lower_union i1 i2 r → upper_union (Interface i1 a) (Interface i2 a) (Interface r (merge a a)).
Proof using MergeLaws0.
  intros Ha (H1 & H2 & H3). rewrite merge_idem by done. split; [by constructor|]. split; [done|]. intros t s. rewrite !upper_test_interface, H3. tauto.
Qed.

(** One node with two accumulators. *)
Lemma same_inner_ok i a1 a2 : wf_lower i → valid a1 → valid a2 →
  upper_union (Interface i a1) (Interface i a2)
    (if subsumes a2 a1 then Interface i a2 else if subsumes a1 a2 then Interface i a1 else Interface i (merge a1 a2)).
Proof using MergeLaws0.
  intros Hi H1 H2.
  assert (Hgen : ∀ a, valid a → a = merge a1 a2 → upper_union (Interface i a1) (Interface i a2) (Interface i a)).
  { intros a Ha ->. split; [by constructor|]. split; [cbn; lia|]. intros t s. rewrite !upper_test_interface, holds_merge by done. tauto. }
  destruct (subsumes a2 a1) eqn:S1.
  { apply subsumes_merge in S1; [|done..]. apply Hgen; [done|]. by rewrite merge_comm. }
  destruct (subsumes a1 a2) eqn:S2.
  { apply subsumes_merge in S2; [|done..]. by apply Hgen. }
  apply Hgen; [by apply merge_valid|done].
Qed.

(** What was merged below the common prefix. *)
Lemma prefix_union_ok p i1 a1 i2 a2 j1 j2 m r :
  leads p i1 j1 → leads p i2 j2 → upper_union (Interface j1 a1) (Interface j2 a2) m → pushed p m r →
  upper_union (Interface i1 a1) (Interface i2 a2) r.
Proof using.
  intros (_ & D1 & _ & L1) (_ & D2 & _ & L2) (_ & H2 & H3) (R1 & R2 & R3). split; [done|]. split; [cbn in *; lia|].
  intros t s. rewrite !upper_test_interface, L1, L2. unfold upper_test at 1. setoid_rewrite R3.
  assert (Hs : ∀ s', upper_test t m s' ↔ (in_lower j1 s' → holds t a1) ∧ (in_lower j2 s' → holds t a2)) by (intros s'; by rewrite H3, !upper_test_interface).
  unfold upper_test in Hs. split.
  - intros Hr. split; intros (s' & -> & Hin); (destruct (proj1 (Hs s')) as [Ha1 Ha2]; [intros a Ha; apply Hr; eauto|auto]).
  - intros [Ha1 Ha2] a (s' & -> & Hp). apply (proj2 (Hs s')); [|done]. split; intros Hin; [apply Ha1|apply Ha2]; eauto.
Qed.

Definition merges_below (h : nat) (f : Upper → Upper → M W Upper) : Prop :=
  ∀ u1 u2, wf_upper u1 → wf_upper u2 → (upper_height u1 + upper_height u2 + 2 ≤ h)%nat → twp (f u1 u2) (upper_union u1 u2).

(** Two interfaces without a common top value are merged child by child. *)
Lemma open_both_ok fn i1 a1 i2 a2 :
  wf_lower i1 → wf_lower i2 → valid a1 → valid a2 → merges_below (lower_height i1 + lower_height i2) fn →
  twp (let! ub1 := interface_to_upperbranch place i1 a1 in let! ub2 := interface_to_upperbranch place i2 a2 in
      merge_upperbranches ptr_eq place fn ub1 ub2) (upper_union (Interface i1 a1) (Interface i2 a2)).
Proof using MergeLaws0 acc_eqb_spec place_perm ptr_eq_sound.
  intros Hi1 Hi2 Ha1 Ha2 Hf. apply twp_bind. eapply twp_mono; [by apply interface_to_upperbranch_ok|]. intros ub1 (c1 & e1 & -> & S1 & B1).
  apply twp_bind. eapply twp_mono; [by apply interface_to_upperbranch_ok|]. intros ub2 (c2 & e2 & -> & S2 & B2).
  destruct S1 as (W1 & S1), S2 as (W2 & S2). unfold new_branch in *. eapply twp_mono; [apply merge_upperbranches_ok; [done|done|]|].
  - intros v1 v2 a b E1 E2. apply Hf.
    + apply wf_branch_inv in W1 as (W1 & _). by eapply upper_edge_wf.
    + apply wf_branch_inv in W2 as (W2 & _). by eapply upper_edge_wf.
    + specialize (B1 _ _ E1). specialize (B2 _ _ E2). lia.
  - intros r. by apply upper_union_opened.
Qed.

(** A branch and an interface. *)
Lemma open_one_ok fn ch e d i a :
  wf_upper (Branch ch e d) → wf_lower i → valid a → merges_below (upper_height (Branch ch e d) + lower_height i) fn →
  twp (let! ub := interface_to_upperbranch place i a in merge_upperbranches ptr_eq place fn (Branch ch e d) ub)
     (upper_union (Branch ch e d) (Interface i a)).
Proof using MergeLaws0 acc_eqb_spec place_perm ptr_eq_sound.
  intros Hu Hi Ha Hf. apply twp_bind. eapply twp_mono; [by apply interface_to_upperbranch_ok|]. intros ub (c2 & e2 & -> & (W2 & S2) & B2).
  unfold new_branch in *. eapply twp_mono; [apply merge_upperbranches_ok; [done|done|]|].
  - intros v1 v2 x y E1 E2. pose proof (upper_edge_height ch e d v1 x E1). apply Hf.
    + apply wf_branch_inv in Hu as (W1 & _). by eapply upper_edge_wf.
    + apply wf_branch_inv in W2 as (W2 & _). by eapply upper_edge_wf.
    + specialize (B2 _ _ E2). lia.
  - intros r. apply upper_union_opened; [by apply same_paths_refl|by split].
Qed.

Definition merges_interfaces (h : nat) (f : Lower → A → Lower → A → M W Upper) : Prop :=
  ∀ i1 a1 i2 a2, wf_lower i1 → wf_lower i2 → valid a1 → valid a2 → (lower_height i1 + lower_height i2 + 2 ≤ h)%nat →
    twp (f i1 a1 i2 a2) (upper_union (Interface i1 a1) (Interface i2 a2)).

Lemma merge_interfaces_step fuel i1 a1 i2 a2 :
  wf_lower i1 → wf_lower i2 → valid a1 → valid a2 →
  merges_below (lower_height i1 + lower_height i2) (merge_upper_fuel ptr_eq place fuel) →
  merges_interfaces (lower_height i1 + lower_height i2) (merge_interfaces_fuel ptr_eq place fuel) →
  twp (merge_interfaces_fuel ptr_eq place (S fuel) i1 a1 i2 a2) (upper_union (Interface i1 a1) (Interface i2 a2)).
Proof using MergeLaws0 acc_eqb_spec place_perm ptr_eq_sound.
  intros Hi1 Hi2 Ha1 Ha2 Hup Hint. cbn [merge_interfaces_fuel]. apply twp_bind. eapply twp_mono; [apply ptr_eq_sound|]. intros [|] Hp; cbn beta iota.
  { rewrite <-(Hp eq_refl). pose proof (same_inner_ok i1 a1 a2 Hi1 Ha1 Ha2) as Hs. destruct (subsumes a2 a1); [by apply twp_ret|]. destruct (subsumes a1 a2); by apply twp_ret. }
  clear Hp. destruct (acc_eqb a1 a2) eqn:Heq.
  { apply acc_eqb_spec in Heq as <-; [|done..]. apply twp_bind. eapply twp_mono; [by apply merge_lower_ok|]. intros r Hr. apply twp_ret. by apply same_accs_ok. }
  apply twp_bind. eapply twp_mono; [apply (shared_prefix_ok (S (lower_height i1))); [done|done|lia]|]. intros [[p j1] j2] [L1 L2]. cbn [fst snd] in *. cbv beta iota.
  destruct (decide (p = [])) as [->|Hne].
  - rewrite bool_decide_true by done. by apply open_both_ok.
  - rewrite bool_decide_false by done. apply twp_bind.
    pose proof L1 as (J1 & D1 & H1 & _). pose proof L2 as (J2 & D2 & H2 & _).
    assert (Hlen : (0 < length p)%nat) by (destruct p; [done|cbn; lia]).
    eapply twp_mono; [apply Hint; [done|done|done|done|lia]|]. intros m Hm. pose proof Hm as (Hmw & Hmd & _).
    eapply twp_mono; [apply push_prefixes_ok; [done|]|].
    + pose proof (wf_depth_bound i1 Hi1). pose proof (wf_depth_bound i2 Hi2). cbn in Hmd. lia.
    + intros r Hr. eapply prefix_union_ok; [exact L1|exact L2|exact Hm|exact Hr].
Qed.

Lemma merge_upper_step fuel u1 u2 :
  wf_upper u1 → wf_upper u2 →
  merges_below (upper_height u1 + upper_height u2) (merge_upper_fuel ptr_eq place fuel) →
  merges_interfaces (upper_height u1 + upper_height u2 + 2) (merge_interfaces_fuel ptr_eq place fuel) →
  twp (merge_upper_fuel ptr_eq place (S fuel) u1 u2) (upper_union u1 u2).
Proof using MergeLaws0 acc_eqb_spec place_perm ptr_eq_sound.
  intros H1 H2 Hup Hint. cbn [merge_upper_fuel]. apply twp_bind. eapply twp_mono; [apply ptr_eq_sound|]. intros [|] Hp; cbn beta iota.
  { apply twp_ret. rewrite <-(Hp eq_refl). split; [done|]. split; [lia|]. tauto. }
  clear Hp. destruct u1 as [c1 e1 d1|i1 a1], u2 as [c2 e2 d2|i2 a2].
  - apply merge_upperbranches_ok; [done|done|]. intros v1 v2 a b E1 E2. apply Hup.
    + apply wf_branch_inv in H1 as (W1 & _). by eapply upper_edge_wf.
    + apply wf_branch_inv in H2 as (W2 & _). by eapply upper_edge_wf.
    + pose proof (upper_edge_height c1 e1 d1 v1 a E1). pose proof (upper_edge_height c2 e2 d2 v2 b E2). lia.
  - destruct (wf_interface_inv _ _ H2). by apply open_one_ok.
  - destruct (wf_interface_inv _ _ H1). eapply twp_mono; [|apply upper_union_comm]. apply open_one_ok; [done..|].
    intros x y Hx Hy Hxy. apply Hup; [done..|]. cbn [upper_height] in *. lia.
  - destruct (wf_interface_inv _ _ H1), (wf_interface_inv _ _ H2). by apply Hint.
Qed.

(** Both recursions end within the fuel. *)
Lemma merge_fuel_ok fuel :
  (∀ u1 u2, wf_upper u1 → wf_upper u2 → (2 * (upper_height u1 + upper_height u2) + 2 ≤ fuel)%nat →
    twp (merge_upper_fuel ptr_eq place fuel u1 u2) (upper_union u1 u2)) ∧
  (∀ i1 a1 i2 a2, wf_lower i1 → wf_lower i2 → valid a1 → valid a2 → (2 * (lower_height i1 + lower_height i2) + 1 ≤ fuel)%nat →
    twp (merge_interfaces_fuel ptr_eq place fuel i1 a1 i2 a2) (upper_union (Interface i1 a1) (Interface i2 a2))).
Proof using MergeLaws0 acc_eqb_spec place_perm ptr_eq_sound.
  induction fuel as [|fuel [IHu IHi]]; [split; intros; lia|]. split.
  - intros u1 u2 H1 H2 Hf. apply merge_upper_step; [done|done| |].
    + intros x y Hx Hy Hxy. apply IHu; [done|done|lia].
    + intros i1 a1 i2 a2 ? ? ? ? Hh. apply IHi; [done..|lia].
  - intros i1 a1 i2 a2 H1 H2 Ha1 Ha2 Hf. apply merge_interfaces_step; [done..| |].
    + intros x y Hx Hy Hxy. apply IHu; [done|done|lia].
    + intros j1 b1 j2 b2 ? ? ? ? Hh. apply IHi; [done..|lia].
Qed.

Lemma merge_upper_ok u1 u2 : wf_upper u1 → wf_upper u2 → twp (merge_upper ptr_eq place u1 u2) (upper_union u1 u2).
Proof using MergeLaws0 acc_eqb_spec place_perm ptr_eq_sound. intros H1 H2. by apply merge_fuel_ok. Qed.
End upper.
