(* ===== verification/GssOps.v ===== *)
(** The operations of the parser stack, on the stacks it stands for. *)

From S2P Require Import Prelude Accumulator AccumulatorCorrect CompactMap Gss GssKit GssLower GssUpper.

(** Popping [k] values off [s'], from the top, leaves [s]; one pop of the empty
    stack leaves it empty, further pops lose the stack. *)
Definition pops {T} (k : Z) (s' s : list T) : Prop := (k ≤ Z.of_nat (length s') + 1)%Z ∧ s = drop (Z.to_nat k) s'.

Lemma pops_zero {T} (s' s : list T) : pops 0 s' s ↔ s = s'.
Proof. unfold pops. cbn. split; [by intros [_ ->]|]. intros ->. split; [lia|done]. Qed.

Lemma pops_cons {T} k (v : T) s' s : (0 < k)%Z → pops k (v :: s') s ↔ pops (k - 1) s' s.
Proof.
  intros Hk. unfold pops. replace (Z.to_nat k) with (S (Z.to_nat (k - 1))) by lia. cbn [length drop]. f_equiv. lia.
Qed.

Lemma pops_nil {T} k (s : list T) : (0 < k)%Z → pops k [] s ↔ k = 1%Z ∧ s = [].
Proof. intros Hk. unfold pops. rewrite drop_nil. cbn. f_equiv. lia. Qed.

Lemma pops_app {T} k (p s' s : list T) : (Z.of_nat (length p) ≤ k)%Z → pops k (p ++ s') s ↔ pops (k - Z.of_nat (length p)) s' s.
Proof.
  intros Hk. unfold pops. rewrite length_app. replace (Z.to_nat k) with (length p + Z.to_nat (k - Z.of_nat (length p)))%nat by lia.
  rewrite drop_app_add. f_equiv. lia.
Qed.

Lemma pops_inside {T} k (vs s' s : list T) : (0 < k)%Z → (k < Z.of_nat (length vs))%Z →
  pops k (rev vs ++ s') s ↔ s = rev (take (length vs - Z.to_nat k) vs) ++ s'.
Proof.
  intros Hk Hlt. unfold pops. set (m := (length vs - Z.to_nat k)%nat).
  assert (Hrev : rev vs = rev (drop m vs) ++ rev (take m vs)) by (by rewrite <-rev_app_distr, take_drop).
  assert (Hlen : length (rev (drop m vs)) = Z.to_nat k) by (rewrite length_rev, length_drop; unfold m; lia).
  rewrite Hrev, <-app_assoc, drop_app_length' by done. rewrite !length_app, Hlen. split; [by intros [_ ?]|]. intros ->. split; [lia|done].
Qed.

Section ops.
Context {T : Type} `{EqDecision T} {W : Type}.
Context (ptr_eq : ∀ V : Type, V → V → M W bool) (ptr_eq_sound : ∀ (V : Type) (a b : V), twp (ptr_eq V a b) (λ p, p = true → a = b)).
Context (place : ∀ V : Type, T → V → list (T * V) → list (T * V)) (place_perm : ∀ V : Type, place_ok (place V)).
Context {A : Type} `{Merge A, AccEq A} (valid : A → Prop) `{!MergeLaws A valid}.
Context (acc_eqb_spec : ∀ a b, valid a → valid b → acc_eqb a b = true ↔ a = b).
Abbreviation Lower := (Lower T).
Abbreviation Upper := (Upper T A).
Abbreviation wf_upper := (wf_upper (T:=T) valid).
Abbreviation acc_test := (acc_test valid).
Abbreviation upper_test := (upper_test (T:=T) valid).
Implicit Types (u g : Upper) (s : list T).

Lemma gss_empty_ok : wf_upper gss_empty ∧ ∀ s (a : A), ¬ path gss_empty s a.
Proof using.
  split; [by apply new_branch_wf; [apply children_wf_new|by intros ? [=]]|]. intros s a Hp. inversion Hp as [| |ch e d v c s' a' He]; subst.
  by apply edge_new in He.
Qed.

Lemma gss_is_empty_ok g s a : gss_is_empty g = true → ¬ path g s a.
Proof using.
  destruct g as [ch e d|i b]; [|done]. cbn. intros [Hch%bool_decide_eq_true He%negb_true_iff%bool_decide_eq_false]%andb_true_iff.
  apply nil_length_inv in Hch. destruct s as [|v s].
  - rewrite path_branch_nil. intros ->. by apply He.
  - rewrite path_branch_cons. intros (c & (kids & k & Hv & _) & _). rewrite Hch in Hv. by apply elem_of_nil in Hv.
Qed.

Lemma contains_empty_ok g : wf_upper g → contains_empty_stack g = true ↔ ∃ a, path g [] a.
Proof using.
  clear acc_eqb_spec ptr_eq_sound place_perm. intros Hg. destruct g as [ch e d|i b]; cbn.
  - rewrite bool_decide_eq_true. by setoid_rewrite path_branch_nil.
  - apply wf_interface_inv in Hg as [Hi _]. rewrite lower_empty_ok by done. setoid_rewrite path_interface_iff. naive_solver.
Qed.

(** * Merging *)

(** [r] carries what [g] and [h] carry. *)
Definition carries_both g h r : Prop := wf_upper r ∧ ∀ t s, upper_test t r s ↔ upper_test t g s ∧ upper_test t h s.

Lemma upper_union_carries g h r : upper_union valid g h r → carries_both g h r.
Proof using. intros (H1 & _ & H2). by split. Qed.

Lemma gss_merge_ok g h : wf_upper g → wf_upper h → twp (gss_merge ptr_eq place g h) (carries_both g h).
Proof using MergeLaws0 acc_eqb_spec place_perm ptr_eq_sound.
  intros Hg Hh. unfold gss_merge.
  assert (Hnone : ∀ x t s, gss_is_empty x = true → upper_test t x s) by (intros x t s Hx a Hp; by destruct (gss_is_empty_ok x s a Hx)).
  destruct (gss_is_empty g) eqn:Eg; [apply twp_ret; split; [done|]; intros t s; split; [auto|tauto]|].
  destruct (gss_is_empty h) eqn:Eh; [apply twp_ret; split; [done|]; intros t s; split; [auto|tauto]|].
  eapply twp_mono; [by apply (merge_upper_ok ptr_eq ptr_eq_sound place place_perm valid acc_eqb_spec)|]. apply upper_union_carries.
Qed.

(** A property common to all accumulators of a stack, as a test. *)
Definition const_test (p : Prop) : acc_test := {| holds := λ _, p; holds_merge := λ _ _ _ _, conj (λ x, conj x x) (λ x, proj1 x) |}.

Lemma carries_contains g h r s : carries_both g h r → (∃ a, path r s a) ↔ (∃ a, path g s a) ∨ (∃ a, path h s a).
Proof using.
  intros [_ Hr]. specialize (Hr (const_test ((∃ a, path g s a) ∨ (∃ a, path h s a))) s) as H1.
  specialize (Hr (const_test (∃ a, path r s a)) s) as H2. unfold GssUpper.upper_test in *. cbn in *. split.
  - intros [a Ha]. apply (proj2 H1) with a; [|done]. split; intros b Hb; [left|right]; eauto.
  - destruct (proj1 H2) as [H3 H4]; [eauto|]. intros [[a Ha]|[a Ha]]; eauto.
Qed.

(** ** Merging a list *)

Definition carries_all (items : list Upper) r : Prop := wf_upper r ∧ ∀ t s, upper_test t r s ↔ ∀ g, g ∈ items → upper_test t g s.

Lemma merge_round_ok (n : nat) items : (length items ≤ n)%nat → Forall wf_upper items →
  twp (merge_round ptr_eq place items) (λ next, Forall wf_upper next ∧ length next = Nat.div2 (S (length items)) ∧
    ∀ t s, (∀ g, g ∈ next → upper_test t g s) ↔ ∀ g, g ∈ items → upper_test t g s).
Proof using MergeLaws0 acc_eqb_spec place_perm ptr_eq_sound.
  revert items. induction n as [|n IH]; intros items Hn Hw; [destruct items; [by apply twp_ret|cbn in Hn; lia]|].
  destruct items as [|a [|b rest]]; [by apply twp_ret..|]. cbn [merge_round]. apply Forall_cons in Hw as [Ha Hw]. apply Forall_cons in Hw as [Hb Hw].
  apply twp_bind. eapply twp_mono; [by apply gss_merge_ok|]. intros m [Hm Hmt]. apply twp_bind. eapply twp_mono; [apply (IH rest); [cbn in Hn; lia|done]|].
  intros next (H1 & H2 & H3). apply twp_ret. split; [by constructor|]. split; [cbn [length]; by rewrite H2|].
  intros t s. setoid_rewrite elem_of_cons. setoid_rewrite elem_of_cons.
  transitivity (upper_test t m s ∧ ∀ g, g ∈ next → upper_test t g s); [clear; naive_solver|]. rewrite Hmt, H3. clear. naive_solver.
Qed.

Lemma merge_rounds_ok fuel items : items ≠ [] → (length items ≤ S fuel)%nat → Forall wf_upper items →
  twp (merge_rounds ptr_eq place fuel items) (carries_all items).
Proof using MergeLaws0 acc_eqb_spec place_perm ptr_eq_sound.
  revert items. induction fuel as [|fuel IH]; intros items Hne Hl Hw.
  - destruct items as [|a [|b rest]]; [done| |cbn in Hl; lia]. apply twp_ret. rewrite Forall_singleton in Hw. split; [done|].
    intros t s. setoid_rewrite list_elem_of_singleton. split; [by intros ? ? ->|by auto].
  - destruct items as [|a [|b rest]]; [done| |].
    + apply twp_ret. rewrite Forall_singleton in Hw. split; [done|]. intros t s. setoid_rewrite list_elem_of_singleton. split; [by intros ? ? ->|by auto].
    + cbn [merge_rounds]. apply twp_bind. eapply twp_mono; [by apply (merge_round_ok (length (a :: b :: rest)))|]. intros next (H1 & H2 & H3).
      pose proof (Nat.div2_decr (S (length rest)) (length rest) ltac:(lia)) as Hd. change (length next = S (Nat.div2 (S (length rest)))) in H2. cbn [length] in Hl.
      eapply twp_mono; [apply IH; [by destruct next|lia|done]|]. intros r [H4 H5]. split; [done|]. intros t s. by rewrite H5, H3.
Qed.

Lemma merge_many_ok items : Forall wf_upper items → twp (merge_many ptr_eq place items) (carries_all items).
Proof using MergeLaws0 acc_eqb_spec place_perm ptr_eq_sound.
  intros Hw. unfold merge_many. destruct items as [|a rest].
  - apply twp_ret. split; [apply gss_empty_ok|]. intros t s. split; [by intros _ g ?%elem_of_nil|]. intros _ a Hp. by apply gss_empty_ok in Hp.
  - apply merge_rounds_ok; [done|lia|done].
Qed.

(** * Pushing *)

Lemma gss_push_ok g v : wf_upper g → upper_max_depth g < u32_max →
  wf_upper (gss_push place g v) ∧ ∀ s a, path (gss_push place g v) s a ↔ ∃ s', s = v :: s' ∧ path g s' a.
Proof using place_perm.
  intros Hg Hd. unfold gss_push. destruct (gss_is_empty g) eqn:Hempty.
  { split; [done|]. intros s a. split; [intros Hp; by destruct (gss_is_empty_ok g s a Hempty)|]. intros (s' & _ & Hp). by destruct (gss_is_empty_ok g s' a Hempty). }
  destruct g as [ch e d|i b].
  - set (u := Branch ch e d) in *.
    assert (Hedge : ∀ v' c, edge (map_insert place v (compact_unit (upper_max_depth u) u) compact_new) v' c ↔ v' = v ∧ c = u).
    { intros v' c. rewrite edge_insert by (done || constructor). cbn [entries compact_unit]. setoid_rewrite list_elem_of_singleton.
      pose proof (edge_new (V:=Upper) v' c). clear -H1. naive_solver. }
    split.
    + apply new_branch_wf; [|by intros ? [=]]. apply children_wf_insert; [done|apply children_wf_new|]. by apply kids_wf_unit.
    + intros s a. unfold new_branch. destruct s as [|v' s]; [rewrite path_branch_nil; split; [done|by intros (? & ? & _)]|].
      rewrite path_branch_cons. setoid_rewrite Hedge. clear. naive_solver.
  - apply wf_interface_inv in Hg as [Hi Hb]. destruct (new_segment_ok [v] i) as (H1 & H2 & H3); [done|done|cbn in *; unfold lenN; cbn; lia|].
    split; [by constructor|]. intros s a. rewrite path_interface_iff, H3. setoid_rewrite path_interface_iff. clear. cbn. naive_solver.
Qed.

Lemma from_single_stack_ok values acc : valid acc → lenN values ≤ u32_max →
  twp (from_single_stack ptr_eq values acc) (λ g, wf_upper g ∧ ∀ s a, path g s a ↔ s = rev values ∧ a = acc).
Proof using ptr_eq_sound.
  intros Ha Hl. unfold from_single_stack. apply twp_bind. eapply twp_mono; [by apply leaf_ok|]. intros floor (H1 & H2 & H3).
  destruct (decide (values = [])) as [->|Hne]; [rewrite bool_decide_true by done|rewrite bool_decide_false by done]; apply twp_ret.
  - split; [by constructor|]. intros s a. rewrite path_interface_iff, H3. clear. cbn. naive_solver.
  - destruct (new_segment_ok values floor) as (H4 & H5 & H6); [done|done|lia|]. split; [by constructor|]. intros s a.
    rewrite path_interface_iff, H6. setoid_rewrite H3. clear. split.
    + intros [(s' & -> & _ & ->) ->]. by rewrite app_nil_r.
    + intros [-> ->]. split; [|done]. exists []. by rewrite app_nil_r.
Qed.

(** * Isolating *)

(** [r] has the ways of [g] that satisfy [Q]. *)
Definition restricted g (Q : list T → Prop) r : Prop := wf_upper r ∧ ∀ s a, path r s a ↔ Q s ∧ path g s a.

Lemma same_paths_restricted u g Q r : restricted g Q u → same_paths valid u r → restricted g Q r.
Proof using. intros [H1 H2] (H3 & _ & H4). split; [done|]. intros s a. by rewrite H4. Qed.

Definition tops (v : T) (s : list T) : Prop := ∃ s', s = v :: s'.

Lemma none_restricted g (Q : list T → Prop) : (∀ s a, Q s → ¬ path g s a) → restricted g Q gss_empty.
Proof using.
  intros Hn. destruct gss_empty_ok as [H1 H2]. split; [done|]. intros s a. split; [intros Hp; by destruct (H2 s a)|]. intros [Hq Hp]. by destruct (Hn s a).
Qed.

Lemma edge_get {V} (ch : children_of T V) v kids c : NoDup (entries ch).*1 → compact_get ch v = Some kids → edge ch v c ↔ ∃ k, (k, c) ∈ entries kids.
Proof using.
  intros Hnd Hget. apply compact_get_elem in Hget; [|done]. split.
  - intros (kids' & k & Hv & Hk). apply (assoc_elem _ _ _ Hnd) in Hv, Hget. assert (kids' = kids) as -> by congruence. eauto.
  - intros [k Hk]. by exists kids, k.
Qed.

Lemma edge_get_None {V} (ch : children_of T V) v c : compact_get ch v = None → ¬ edge ch v c.
Proof using. intros Hget%compact_get_None (kids & k & Hv & _). apply Hget, list_elem_of_fmap. by exists (v, kids). Qed.

Lemma unit_kids_wf {V} (depth_of : V → N) (ok : V → Prop) (ch : children_of T V) v kids :
  children_wf depth_of ok ch → compact_get ch v = Some kids →
  children_wf depth_of ok (compact_unit v kids) ∧ ∀ v' c, edge (compact_unit v kids) v' c ↔ v' = v ∧ edge ch v c.
Proof using.
  intros Hw Hget. pose proof (cw_nodup _ _ _ Hw) as Hnd. pose proof Hget as Hin. apply compact_get_elem in Hin; [|done]. split.
  - apply children_wf_unit. by apply (cw_kids _ _ _ Hw v).
  - intros v' c. by rewrite edge_unit, edge_get.
Qed.

Lemma one_key {V} (ch : children_of T V) v : compact_len ch = 1 → compact_contains_key ch v = true → ∀ v' c, edge ch v' c → v' = v.
Proof using.
  unfold compact_len, lenN, compact_contains_key. intros Hlen Hin v' c (kids & k & Hv & _).
  destruct (entries ch) as [|[v1 k1] [|? ?]]; cbn in *; try lia. apply list_elem_of_singleton in Hv as [= -> ->].
  rewrite orb_false_r in Hin. by apply bool_decide_eq_true in Hin.
Qed.

Lemma isolate_top_ok g v : wf_upper g → twp (isolate ptr_eq place g (Some v)) (restricted g (tops v)).
Proof using acc_eqb_spec place_perm ptr_eq_sound.
  intros Hg. unfold isolate. apply twp_bind. eapply twp_mono with (P := λ b, b = true → ∀ s a, path g s a → tops v s).
  { destruct g as [ch e d|i b]; cbn [isolate_unchanged].
    - apply twp_ret. intros [[He%negb_true_iff%bool_decide_eq_false Hl%N.eqb_eq]%andb_true_iff Hk]%andb_true_iff s a Hp.
      destruct s as [|v' s]; [apply path_branch_nil in Hp; destruct He; by exists a|]. apply path_branch_cons in Hp as (c & Hc & _).
      exists s. by rewrite (one_key ch v Hl Hk v' c Hc).
    - apply wf_interface_inv in Hg as [Hi Hb]. destruct (negb (lower_empty i) && (children_len i =? 1)) eqn:Hcond; [|by apply twp_ret].
      apply andb_true_iff in Hcond as [He%negb_true_iff Hl%N.eqb_eq]. destruct i as [ch e d|vs next d n]; cbn [children_contains_key].
      + apply twp_ret. intros Hk s a [Hs _]%path_interface_iff. apply in_general in Hs. destruct s as [|v' s]; [cbn in *; congruence|].
        destruct Hs as (c & Hc & _). exists s. by rewrite (one_key ch v Hl Hk v' c Hc).
      + destruct (segment_view (W:=W) _ _ _ _ Hi) as (v0 & r & _ & _ & _ & _ & -> & _ & _ & Hin). apply twp_bind, twp_ret, twp_ret.
        intros ->%bool_decide_eq_true s a [Hs _]%path_interface_iff. apply Hin in Hs as (s' & -> & _). by exists s'. }
  intros [|] Hb; cbn beta iota.
  { apply twp_ret. split; [done|]. intros s a. specialize (Hb eq_refl s a). clear -Hb. naive_solver. }
  clear Hb. destruct g as [ch e d|i b].
  - apply wf_branch_inv in Hg as (Hw & -> & He). destruct (compact_get ch v) as [kids|] eqn:Hget; cbn [mbind option_bind].
    + destruct (unit_kids_wf _ _ ch v kids Hw Hget) as [H1 H2]. pose proof Hget as Hin. apply compact_get_elem in Hin; [|apply Hw].
      pose proof (cw_kids _ _ _ Hw _ _ Hin) as Hk. pose proof (ord_get_max_spec kids (kw_nodup _ _ _ Hk) (kw_sorted _ _ _ Hk)) as Hmax.
      destruct (ord_get_max kids) as [[k c]|]; [|by destruct (kw_nonempty _ _ _ Hk)]. destruct Hmax as [Hkc Hmax].
      destruct (kw_depth _ _ _ Hk _ _ Hkc) as [-> Hsmall].
      assert (Hd : u32_wrapping_add (upper_max_depth c) 1 = max_depth_from_children upper_max_depth (compact_unit v kids)).
      { rewrite u32_wrapping_add_small by (unfold u32_max, u32_modulus in *; lia).
        eapply depth_is_unique; [|by apply (wf_depth upper_max_depth wf_upper)]. right. exists v, c. split; [apply H2; split; [done|]; by exists kids, (upper_max_depth c)|].
        split; [done|]. intros v' c' [-> Hc']%H2. apply (edge_get ch v kids) in Hc' as [k' Hk']; [|apply Hw|done].
        destruct (kw_depth _ _ _ Hk _ _ Hk') as [<- _]. by eapply Hmax. }
      rewrite Hd. eapply twp_mono; [apply (try_promote_ok ptr_eq ptr_eq_sound place place_perm valid acc_eqb_spec); by constructor|].
      intros r. apply same_paths_restricted. split; [by constructor|]. intros s a. destruct s as [|v' s].
      * rewrite path_branch_nil. split; [done|by intros [[s' ?] _]].
      * rewrite !path_branch_cons. setoid_rewrite H2. unfold tops. clear. naive_solver.
    + eapply twp_mono; [apply (try_promote_ok ptr_eq ptr_eq_sound place place_perm valid acc_eqb_spec)|].
      { apply (wf_branch valid compact_new None); [apply children_wf_new|by intros ? [=]]. }
      intros r. apply same_paths_restricted. apply none_restricted. intros s a [s' ->] (c & Hc & _)%path_branch_cons. by apply (edge_get_None ch v c).
  - apply wf_interface_inv in Hg as [Hi Hb]. destruct i as [ch e d|vs next d n].
    + apply wf_general_inv in Hi as [Hw _]. destruct (compact_get ch v) as [kids|] eqn:Hget.
      * destruct (unit_kids_wf _ _ ch v kids Hw Hget) as [H1 H2]. apply twp_bind. eapply twp_mono; [by apply new_lower_ok|]. intros r (R1 & _ & R3). apply twp_ret.
        split; [by constructor|]. intros s a. rewrite !path_interface_iff, R3, in_general. destruct s as [|v' s]; cbn.
        -- split; [by intros [? _]|by intros [[s' ?] _]].
        -- setoid_rewrite H2. unfold tops. clear. naive_solver.
      * apply twp_ret, none_restricted. intros s a [s' ->] [Hs _]%path_interface_iff. apply in_general in Hs as (c & Hc & _). by apply (edge_get_None ch v c).
    + destruct (segment_view (W:=W) _ _ _ _ Hi) as (v0 & r & -> & -> & Hr & Hh & _ & Hd & Hview & Hin). apply twp_bind, twp_ret. case_decide as Hv.
      * subst v0. apply twp_bind, twp_ret, twp_bind. eapply twp_mono; [apply new_lower_ok; [done|]; apply Hview|]. intros r' (R1 & _ & R3). apply twp_ret.
        split; [by constructor|]. intros s a. rewrite !path_interface_iff, R3, Hin. destruct s as [|v' s]; cbn.
        -- split; [by intros [? _]|by intros [[s' ?] _]].
        -- setoid_rewrite edge_unit_unit. unfold tops. clear. naive_solver.
      * apply twp_ret, none_restricted. intros s a [s' ->] [Hs _]%path_interface_iff. apply Hin in Hs as (s'' & [= -> _] & _). done.
Qed.

Lemma isolate_empty_ok g : wf_upper g → twp (isolate ptr_eq place g None) (restricted g (λ s, s = [])).
Proof using acc_eqb_spec place_perm ptr_eq_sound.
  intros Hg. unfold isolate. cbn [isolate_unchanged]. apply twp_bind. eapply twp_mono with (P := λ b, b = true → ∀ s a, path g s a → s = []).
  { destruct g as [ch e d|i b]; apply twp_ret.
    - intros Hch%bool_decide_eq_true s a Hp. apply nil_length_inv in Hch. destruct s as [|v s]; [done|].
      apply path_branch_cons in Hp as (c & (kids & k & Hv & _) & _). rewrite Hch in Hv. by apply elem_of_nil in Hv.
    - intros [Hch He]%andb_true_iff s a [Hs _]%path_interface_iff. destruct i as [ch e d|]; [|done]. cbn in Hch. apply bool_decide_eq_true, nil_length_inv in Hch.
      apply in_general in Hs. destruct s as [|v s]; [done|]. destruct Hs as (c & (kids & k & Hv & _) & _). rewrite Hch in Hv. by apply elem_of_nil in Hv. }
  intros [|] Hb; cbn beta iota.
  { apply twp_ret. split; [done|]. intros s a. specialize (Hb eq_refl s a). clear -Hb. naive_solver. }
  clear Hb. set (e := match g with Branch _ empty _ => empty | Interface inner acc => if lower_empty inner then Some acc else None end).
  assert (He : ∀ a, e = Some a ↔ path g [] a).
  { intros a. unfold e. destruct g as [ch e0 d|i b]; [by rewrite path_branch_nil|]. apply wf_interface_inv in Hg as [Hi _].
    rewrite path_interface_iff, <-lower_empty_ok by done. destruct (lower_empty i); clear; naive_solver. }
  eapply twp_mono; [apply (try_promote_ok ptr_eq ptr_eq_sound place place_perm valid acc_eqb_spec)|].
  { apply new_branch_wf; [apply children_wf_new|]. intros a Ha%He. by eapply path_valid. }
  intros r. apply same_paths_restricted. split.
  - apply new_branch_wf; [apply children_wf_new|]. intros a Ha%He. by eapply path_valid.
  - intros s a. unfold new_branch. destruct s as [|v s].
    + rewrite path_branch_nil, He. clear. naive_solver.
    + rewrite path_branch_cons. split; [intros (c & Hc & _); by apply edge_new in Hc|by intros [? _]].
Qed.

(** * Popping *)

Definition popped_lower (node : Lower) (k : Z) (r : Lower) : Prop :=
  wf_lower r ∧ ∀ s, in_lower r s ↔ ∃ s', in_lower node s' ∧ pops k s' s.

Definition lower_memo_ok (memo : list (Lower * Z * Lower)) : Prop := ∀ node k r, (node, k, r) ∈ memo → popped_lower node k r.

Lemma memo_get_ok {V} (Q : V → Z → V → Prop) (memo : list (V * Z * V)) node k :
  (∀ n k r, (n, k, r) ∈ memo → Q n k r) → twp (memo_get ptr_eq memo node k) (λ r, match r with Some c => Q node k c | None => True end).
Proof using ptr_eq_sound.
  intros Hm. unfold memo_get. apply twp_bind. eapply twp_mono; [apply (twp_find_m _ (λ e : V * Z * V, e.1.2 = k ∧ e.1.1 = node))|].
  - intros [[n k'] r] _. cbn. destruct (Z.eqb_spec k' k) as [->|]; [|by apply twp_ret]. eapply twp_mono; [apply ptr_eq_sound|]. auto.
  - intros [[[n k'] r]|] Hf; apply twp_ret; [|done]. destruct Hf as (Hin & Hk & Hn). cbn in *. subst. by apply Hm.
Qed.

Lemma memo_snoc memo node k r : lower_memo_ok memo → popped_lower node k r → lower_memo_ok (memo ++ [((node, k), r)]).
Proof using. intros Hm Hr n k' r' [Hin|[= -> -> ->]%list_elem_of_singleton]%elem_of_app; [by apply Hm|done]. Qed.

Lemma keep_empty_ok node k res (Q : list T → Prop) : wf_lower node → wf_lower res → (∀ s, in_lower res s ↔ Q s) →
  twp (keep_empty ptr_eq place node k res) (λ r, wf_lower r ∧ ∀ s, in_lower r s ↔ (in_lower node [] ∧ k = 1%Z ∧ s = []) ∨ Q s).
Proof using place_perm ptr_eq_sound.
  intros Hn Hr HQ. unfold keep_empty. pose proof (lower_empty_ok node Hn) as He. destruct (lower_empty node); cbn [andb].
  - destruct (Z.eqb_spec k 1) as [->|Hk].
    + apply twp_bind. eapply twp_mono; [by apply leaf_ok|]. intros t (T1 & _ & T3). eapply twp_mono; [by apply (merge_lower_ok ptr_eq ptr_eq_sound place place_perm)|].
      intros r (R1 & _ & R3). split; [done|]. intros s. rewrite R3, T3, HQ, <-He. clear. tauto.
    + apply twp_ret. split; [done|]. intros s. rewrite HQ. clear -Hk. tauto.
  - apply twp_ret. split; [done|]. intros s. rewrite HQ, <-He. clear. split; [auto|]. intros [[? _]|?]; done.
Qed.

(** The stacks of the nodes merged so far. *)
Definition merged_so_far (Q : Lower → list T → Prop) (done_ : list Lower) (m : option Lower) : Prop :=
  match m with
  | None => done_ = []
  | Some r => wf_lower r ∧ ∀ s, in_lower r s ↔ ∃ c, c ∈ done_ ∧ Q c s
  end.

Lemma merge_popped_ok (Q : Lower → list T → Prop) done_ m c p :
  merged_so_far Q done_ m → wf_lower p → (∀ s, in_lower p s ↔ Q c s) →
  twp (merge_popped (merge_lower ptr_eq place) m p) (merged_so_far Q (done_ ++ [c])).
Proof using place_perm ptr_eq_sound.
  intros Hm Hp HQ. destruct m as [acc|]; cbn [merge_popped].
  - destruct Hm as [Ha Hin]. apply twp_bind. eapply twp_mono; [by apply (merge_lower_ok ptr_eq ptr_eq_sound place place_perm)|]. intros r (R1 & _ & R3).
    apply twp_ret. split; [done|]. intros s. rewrite R3, Hin, HQ. setoid_rewrite elem_of_app. setoid_rewrite list_elem_of_singleton. clear. naive_solver.
  - apply twp_ret. cbn in Hm. subst done_. split; [done|]. intros s. rewrite HQ. setoid_rewrite list_elem_of_singleton. clear. naive_solver.
Qed.

(** What popping leaves of the stacks of a node. *)
Definition left_after (node : Lower) (k : Z) (s : list T) : Prop := ∃ s', in_lower node s' ∧ pops k s' s.

Lemma left_general ch e d k s : (0 < k)%Z →
  left_after (General ch e d) k s ↔ (in_lower (General ch e d) [] ∧ k = 1%Z ∧ s = []) ∨ ∃ c, c ∈ all_kids ch ∧ left_after c (k - 1) s.
Proof using.
  intros Hk. unfold left_after. setoid_rewrite elem_of_all_kids. split.
  - intros ([|v s'] & Hl & Hp).
    + left. apply pops_nil in Hp as [-> ->]; [|done]. done.
    + right. apply in_general in Hl as (c & Hc & Hs'). exists c. split; [eauto|]. exists s'. split; [done|]. by apply pops_cons in Hp.
  - intros [(Hl & -> & ->)|(c & [v Hc] & s' & Hs' & Hp)]; [exists []; split; [done|by apply pops_nil]|].
    exists (v :: s'). split; [apply in_general; by exists c|by apply pops_cons].
Qed.

Lemma left_past_segment vs next d n k s : (Z.of_N (lenN vs) ≤ k)%Z →
  left_after (Segment vs next d n) k s ↔ left_after next (k - Z.of_N (lenN vs)) s.
Proof using.
  intros Hk. unfold left_after, lenN in *. rewrite nat_N_Z in *.
  assert (Hp : ∀ s', pops k (rev vs ++ s') s ↔ pops (k - Z.of_nat (length vs)) s' s) by (intros s'; rewrite pops_app, length_rev by (rewrite length_rev; lia); done).
  setoid_rewrite in_segment_iff. split.
  - intros (s' & (s'' & -> & Hs) & Hq). exists s''. split; [done|by apply Hp].
  - intros (s'' & Hs & Hq). exists (rev vs ++ s''). split; [eauto|by apply Hp].
Qed.

(** Popping inside a segment. *)
Lemma take_segment_ok vs next d n k (m : nat) : wf_lower (Segment vs next d n) → (0 < k)%Z → (k < Z.of_N (lenN vs))%Z →
  m = (length vs - Z.to_nat k)%nat →
  let r := new_segment (take m vs) next in wf_lower r ∧ lenN (take m vs) = N.of_nat m ∧ ∀ s, in_lower r s ↔ left_after (Segment vs next d n) k s.
Proof using.
  intros (Hne & Hw & -> & Hd & _)%wf_segment_inv Hk Hlt Hm. cbv zeta. unfold lenN in *.
  assert (Hlen : length (take m vs) = m) by (rewrite length_take; lia).
  destruct (new_segment_ok (take m vs) next) as (H1 & H2 & H3); [|done|unfold lenN; lia|].
  { intros Hn. rewrite Hn in Hlen. cbn in Hlen. lia. }
  split; [done|]. split; [by rewrite Hlen|]. intros s. rewrite H3. unfold left_after. setoid_rewrite in_segment_iff.
  assert (Hp : ∀ s', pops k (rev vs ++ s') s ↔ s = rev (take m vs) ++ s') by (intros s'; rewrite pops_inside, Hm; [done|lia|lia]). split.
  - intros (s' & Heq & Hs). exists (rev vs ++ s'). split; [eauto|by apply Hp].
  - intros (s' & (s'' & -> & Hs) & Hq). exists s''. split; [by apply Hp|done].
Qed.

(** The result before the empty stack is added back. *)
Definition almost_popped (node : Lower) (k : Z) (m : option Lower) : Prop :=
  match m with
  | Some p => wf_lower p ∧ ∀ s, left_after node k s ↔ (in_lower node [] ∧ k = 1%Z ∧ s = []) ∨ in_lower p s
  | None => ∀ s, left_after node k s ↔ (in_lower node [] ∧ k = 1%Z ∧ s = [])
  end.

Lemma almost_segment vs next d n k p : wf_lower (Segment vs next d n) → wf_lower p →
  (∀ s, in_lower p s ↔ left_after (Segment vs next d n) k s) → almost_popped (Segment vs next d n) k (Some p).
Proof using.
  intros Hw Hp Hin. split; [done|]. intros s. rewrite Hin. split; [by right|]. intros [(Hn & _)|?]; [|done].
  apply lower_empty_ok in Hn; done.
Qed.

Lemma finish_pop node k m : wf_lower node → almost_popped node k m →
  twp (let! res := match m with Some r => ret r | None => new_lower ptr_eq compact_new false end in keep_empty ptr_eq place node k res)
     (popped_lower node k).
Proof using place_perm ptr_eq_sound.
  intros Hn Hm. apply twp_bind. destruct m as [p|].
  - apply twp_ret. destruct Hm as [Hp Hin]. eapply twp_mono; [by apply (keep_empty_ok node k p (in_lower p))|]. intros r [R1 R2]. split; [done|].
    intros s. rewrite R2. symmetry. apply Hin.
  - eapply twp_mono; [by apply leaf_ok|]. intros t (T1 & _ & T3). eapply twp_mono; [by apply (keep_empty_ok node k t (in_lower t))|]. intros r [R1 R2]. split; [done|].
    intros s. rewrite R2, T3. fold (left_after node k s). rewrite (Hm s). clear. split; [|auto]. intros [?|[? _]]; done.
Qed.

Lemma popn_lower_ok fuel node k memo :
  wf_lower node → lower_memo_ok memo → (0 ≤ k)%Z → (Z.to_nat k < fuel)%nat →
  twp (popn_lower ptr_eq place fuel node k memo) (λ r, popped_lower node k r.1 ∧ lower_memo_ok r.2).
Proof using place_perm ptr_eq_sound.
  revert node k memo. induction fuel as [|fuel IH]; intros node k memo Hn Hm Hk Hf; [lia|]. cbn [popn_lower].
  destruct (Z.eqb_spec k 0) as [->|Hk0].
  { apply twp_ret. split; [|done]. split; [done|]. intros s. setoid_rewrite pops_zero. clear. naive_solver. }
  assert (Hpos : (0 < k)%Z) by lia. apply twp_bind. eapply twp_mono; [by apply (memo_get_ok popped_lower)|].
  intros [cached|] Hc; [by apply twp_ret|]. clear Hc.
  apply twp_bind. eapply twp_mono with (P := λ r, almost_popped node k r.1 ∧ lower_memo_ok r.2).
  - destruct node as [ch e d|vs next d n].
    + destruct (wf_general_inv _ _ _ Hn) as [Hw Hd].
      eapply twp_mono; [apply (twp_for_each (λ done_ r, merged_so_far (λ c, left_after c (k - 1)) done_ r.1 ∧ lower_memo_ok r.2))|].
      * by split.
      * intros done_ c rest [m memo'] Hl [Hm1 Hm2]. assert (Hc : c ∈ all_kids ch) by (rewrite Hl; apply elem_of_app; right; by left).
        apply elem_of_all_kids in Hc as [v Hc]. apply twp_bind. eapply twp_mono; [apply (IH c); [by apply (edge_wf ch v)|exact Hm2|lia|lia]|].
        intros [p memo2] [[Hp1 Hp2] Hm3]. cbn [fst snd] in *. apply twp_bind. eapply twp_mono; [by apply (merge_popped_ok (λ c, left_after c (k - 1)) done_ m c p)|].
        intros m' Hm'. by apply twp_ret.
      * intros [[p|] memo'] [Hm1 Hm2]; (split; [|done]); cbn [fst snd merged_so_far almost_popped] in *.
        -- destruct Hm1 as [Hp Hin]. split; [done|]. intros s. by rewrite left_general, Hin.
        -- intros s. rewrite left_general, Hm1 by done. setoid_rewrite elem_of_nil. clear. naive_solver.
    + destruct (wf_segment_inv _ _ _ _ Hn) as (Hne & Hw & _). assert (Hlen : (0 < lenN vs)) by (destruct vs; [done|unfold lenN; cbn; lia]).
      destruct (Z.leb_spec (Z.of_N (lenN vs)) k) as [Hle|Hgt].
      * apply twp_bind. eapply twp_mono; [apply (IH next); [done|done|lia|lia]|]. intros [p memo'] [[Hp1 Hp2] Hm']. apply twp_ret. split; [|done].
        apply almost_segment; [done|done|]. intros s. rewrite left_past_segment by done. apply Hp2.
      * apply twp_ret. split; [|done]. cbn [fst]. destruct (take_segment_ok vs next d n k (Z.to_nat (Z.of_N (lenN vs) - k)) Hn Hpos Hgt) as (H1 & _ & H3).
        { unfold lenN in *. lia. }
        by apply almost_segment.
  - intros [m memo'] [Hm1 Hm2]. cbn [fst snd] in *.
    assert (Hfin : twp (let! res := (let! res := match m with Some r => ret r | None => new_lower ptr_eq compact_new false end in keep_empty ptr_eq place node k res) in
      ret (res, memo' ++ [((node, k), res)])) (λ r, popped_lower node k r.1 ∧ lower_memo_ok r.2)).
    { apply twp_bind. eapply twp_mono; [by apply finish_pop|]. intros r Hr. apply twp_ret. split; [done|]. by apply memo_snoc. }
    intros w. specialize (Hfin w). unfold bind in *. by destruct (match m with Some r => ret r | None => new_lower ptr_eq compact_new false end w) as [[? ?]|].
Qed.

(** ** The upper part *)

Definition left_test (k : Z) (t : acc_test) u s : Prop := ∀ s', pops k s' s → upper_test t u s'.
Definition popped_upper u (k : Z) r : Prop := wf_upper r ∧ ∀ t s, upper_test t r s ↔ left_test k t u s.
Definition upper_memo_ok (memo : list (Upper * Z * Upper)) : Prop := ∀ u k r, (u, k, r) ∈ memo → popped_upper u k r.

Lemma empty_lower_none l s : children_is_empty l = true → lower_empty l = false → ¬ in_lower l s.
Proof using.
  destruct l as [ch e d|]; [|done]. cbn. intros Hch%bool_decide_eq_true -> Hin%in_general. apply nil_length_inv in Hch.
  destruct s as [|v s]; [done|]. destruct Hin as (c & (kids & k & Hv & _) & _). rewrite Hch in Hv. by apply elem_of_nil in Hv.
Qed.

Lemma nonempty_interface_ok l a : wf_lower l → valid a →
  wf_upper (nonempty_interface l a) ∧ ∀ s b, path (nonempty_interface l a) s b ↔ path (Interface l a) s b.
Proof using.
  intros Hl Ha. unfold nonempty_interface. destruct (children_is_empty l && negb (lower_empty l)) eqn:He; [|by split; [constructor|]].
  apply andb_true_iff in He as [He Hn%negb_true_iff]. destruct gss_empty_ok as [H1 H2]. split; [done|]. intros s b. split.
  - intros Hp. by destruct (H2 s b).
  - intros [Hin _]%path_interface_iff. by destruct (empty_lower_none l s He Hn).
Qed.

(** An interface over the popped node. *)
Lemma interface_popped i a k l r : popped_lower i k l → wf_upper r → (∀ s b, path r s b ↔ path (Interface l a) s b) → popped_upper (Interface i a) k r.
Proof using.
  intros [Hl Hin] Hr Hp. split; [done|]. intros t s. unfold left_test, GssUpper.upper_test. setoid_rewrite Hp. setoid_rewrite path_interface_iff. setoid_rewrite Hin.
  clear. naive_solver.
Qed.

Lemma left_branch ch e d k t s : (0 < k)%Z →
  left_test k t (Branch ch e d) s ↔ (k = 1%Z → s = [] → ∀ a, e = Some a → holds valid t a) ∧ ∀ c, c ∈ all_kids ch → left_test (k - 1) t c s.
Proof using.
  intros Hk. unfold left_test. setoid_rewrite elem_of_all_kids. split.
  - intros Hall. split.
    + intros -> -> a He. apply (Hall []); [by apply pops_nil|]. by apply path_branch_nil.
    + intros c [v Hc] s' Hp a Ha. apply (Hall (v :: s')); [by apply pops_cons|]. apply path_branch_cons. eauto.
  - intros [He Hc] [|v s'] Hp a Ha.
    + apply pops_nil in Hp as [-> ->]; [|done]. apply path_branch_nil in Ha. by apply He.
    + apply path_branch_cons in Ha as (c & Hcv & Ha). apply pops_cons in Hp; [|done]. by eapply (Hc c); [eauto|..].
Qed.

(** The nodes merged so far, and the observations they make. *)
Definition uppers_so_far (Q : Upper → acc_test → list T → Prop) (done_ : list Upper) (m : option Upper) : Prop :=
  match m with
  | None => done_ = []
  | Some r => wf_upper r ∧ ∀ t s, upper_test t r s ↔ ∀ c, c ∈ done_ → Q c t s
  end.

Lemma merge_upper_popped_ok (Q : Upper → acc_test → list T → Prop) done_ m c p :
  uppers_so_far Q done_ m → wf_upper p → (∀ t s, upper_test t p s ↔ Q c t s) →
  twp (merge_popped (merge_upper ptr_eq place) m p) (uppers_so_far Q (done_ ++ [c])).
Proof using MergeLaws0 acc_eqb_spec place_perm ptr_eq_sound.
  intros Hm Hp HQ. destruct m as [acc|]; cbn [merge_popped].
  - destruct Hm as [Ha Hin]. apply twp_bind. eapply twp_mono; [by apply (merge_upper_ok ptr_eq ptr_eq_sound place place_perm valid acc_eqb_spec)|]. intros r (R1 & _ & R3).
    apply twp_ret. split; [done|]. intros t s. rewrite R3, Hin, HQ. setoid_rewrite elem_of_app. setoid_rewrite list_elem_of_singleton. clear. naive_solver.
  - apply twp_ret. cbn in Hm. subst done_. split; [done|]. intros t s. rewrite HQ. setoid_rewrite list_elem_of_singleton. clear. naive_solver.
Qed.

(** The empty stack of a branch joins what its children leave. *)
Lemma branch_finish ch e d k m : (0 < k)%Z → wf_upper (Branch ch e d) →
  uppers_so_far (λ c t s, left_test (k - 1) t c s) (all_kids ch) m →
  twp (let! merged :=
        match e with
        | Some acc =>
            if (k =? 1)%Z then
              let! terminal_lower := new_lower ptr_eq compact_new true in
              merge_popped (merge_upper ptr_eq place) m (Interface terminal_lower acc)
            else ret m
        | None => ret m
        end in
      match merged with
      | Some merged => try_promote ptr_eq place merged
      | None => ret empty_upper_inner
      end) (popped_upper (Branch ch e d) k).
Proof using MergeLaws0 acc_eqb_spec place_perm ptr_eq_sound.
  intros Hk Hu Hm. apply wf_branch_inv in Hu as (_ & _ & He).
  set (Q := λ t s, (k = 1%Z → s = [] → ∀ a, e = Some a → holds valid t a) ∧ ∀ c, c ∈ all_kids ch → left_test (k - 1) t c s).
  apply twp_bind. eapply twp_mono with (P := λ m', match m' with Some r => wf_upper r ∧ ∀ t s, upper_test t r s ↔ Q t s | None => ∀ t s, Q t s end).
  - assert (Hkeep : (∀ t s, (k = 1%Z → s = [] → ∀ a, e = Some a → holds valid t a)) →
      twp (W:=W) (ret m) (λ m', match m' with Some r => wf_upper r ∧ ∀ t s, upper_test t r s ↔ Q t s | None => ∀ t s, Q t s end)).
    { intros Htriv. apply twp_ret. destruct m as [r|].
      - destruct Hm as [Hr Hin]. split; [done|]. intros t s. rewrite Hin. unfold Q. split; [intros Hc; split; [apply Htriv|done]|by intros [_ ?]].
      - intros t s. split; [apply Htriv|]. cbn in Hm. rewrite Hm. by intros c ?%elem_of_nil. }
    destruct e as [acc|]; [|by apply Hkeep]. destruct (Z.eqb_spec k 1) as [Hk1|]; [|by apply Hkeep].
    apply twp_bind. eapply twp_mono; [by apply leaf_ok|]. intros l (L1 & _ & L3). specialize (He acc eq_refl).
    assert (Hterm : wf_upper (Interface l acc) ∧ ∀ t s, upper_test t (Interface l acc) s ↔ (s = [] → holds valid t acc)).
    { split; [by constructor|]. intros t s. rewrite upper_test_interface, L3. clear. tauto. }
    destruct Hterm as [Hw Ht]. unfold merge_popped. destruct m as [r|].
    + destruct Hm as [Hr Hin]. apply twp_bind. eapply twp_mono; [by apply (merge_upper_ok ptr_eq ptr_eq_sound place place_perm valid acc_eqb_spec)|].
      intros r' (R1 & _ & R3). apply twp_ret. split; [done|]. intros t s. rewrite R3, Hin, Ht. unfold Q. clear -Hk1. naive_solver.
    + apply twp_ret. split; [done|]. intros t s. rewrite Ht. unfold Q. cbn in Hm. rewrite Hm. setoid_rewrite elem_of_nil. clear -Hk1. naive_solver.
  - intros [r|] Hr.
    + destruct Hr as [Hr Hin]. eapply twp_mono; [by apply (try_promote_ok ptr_eq ptr_eq_sound place place_perm valid acc_eqb_spec)|]. intros r' (R1 & _ & R3).
      split; [done|]. intros t s. rewrite left_branch by done. fold (Q t s). rewrite <-Hin. unfold GssUpper.upper_test. by setoid_rewrite R3.
    + apply twp_ret. destruct gss_empty_ok as [H1 H2]. split; [done|]. intros t s. rewrite left_branch by done. split; [intros _; apply Hr|].
      intros _ a Hp. by destruct (H2 s a).
Qed.

Lemma popn_upper_ok fuel u k memo :
  wf_upper u → upper_memo_ok memo.1 → lower_memo_ok memo.2 → (0 ≤ k)%Z → (Z.to_nat k < fuel)%nat →
  twp (popn_upper ptr_eq place fuel u k memo) (λ r, popped_upper u k r.1 ∧ upper_memo_ok r.2.1 ∧ lower_memo_ok r.2.2).
Proof using MergeLaws0 acc_eqb_spec place_perm ptr_eq_sound.
  revert u k memo. induction fuel as [|fuel IH]; intros u k memo Hu Hm1 Hm2 Hk Hf; [lia|]. cbn [popn_upper].
  destruct (Z.eqb_spec k 0) as [->|Hk0].
  { apply twp_ret. split; [|done]. split; [done|]. intros t s. unfold left_test. setoid_rewrite pops_zero. clear. naive_solver. }
  assert (Hpos : (0 < k)%Z) by lia. apply twp_bind. eapply twp_mono; [by apply (memo_get_ok popped_upper)|].
  intros [cached|] Hc; [by apply twp_ret|]. clear Hc.
  apply twp_bind. eapply twp_mono with (P := λ r, popped_upper u k r.1 ∧ upper_memo_ok r.2.1 ∧ lower_memo_ok r.2.2).
  - destruct u as [ch e d|i a].
    + pose proof (wf_branch_inv _ _ _ _ Hu) as (Hw & Hd & He). apply twp_bind.
      eapply twp_mono; [apply (twp_for_each (λ done_ r, uppers_so_far (λ c t s, left_test (k - 1) t c s) done_ r.1 ∧ upper_memo_ok r.2.1 ∧ lower_memo_ok r.2.2))|].
      * by split.
      * intros done_ c rest [m memo'] Hl (I1 & I2 & I3). assert (Hc : c ∈ all_kids ch) by (rewrite Hl; apply elem_of_app; right; by left).
        apply elem_of_all_kids in Hc as [v Hc]. apply twp_bind. eapply twp_mono; [apply (IH c); [by apply (upper_edge_wf valid ch v)|exact I2|exact I3|lia|lia]|].
        intros [p memo2] ([Hp1 Hp2] & I4 & I5). cbn [fst snd] in *. apply twp_bind.
        eapply twp_mono; [by apply (merge_upper_popped_ok (λ c t s, left_test (k - 1) t c s) done_ m c p)|]. intros m' Hm'. by apply twp_ret.
      * intros [m memo'] (I1 & I2 & I3). cbn [fst snd] in *.
        pose proof (branch_finish ch e d k m Hpos Hu I1) as Hfin. intros w. destruct (Hfin w) as (r & w' & Hrun & Hr). exists (r, memo'), w'. split; [|done].
        revert Hrun. unfold bind. destruct (match e with Some acc => _ | None => ret m end w) as [[[p|] w1]|]; [|by intros [= <- <-]|done].
        by destruct (try_promote ptr_eq place p w1) as [[? ?]|]; [intros [= <- <-]|].
    + apply wf_interface_inv in Hu as [Hi Ha]. apply twp_bind. eapply twp_mono; [apply (popn_lower_ok (S (Z.to_nat k)) i k memo.2); [done|done|lia|lia]|].
      intros [l lmemo] [Hl Hlm]. cbn [fst snd] in *. pose proof (nonempty_interface_ok l a (proj1 Hl) Ha) as [N1 N2].
      pose proof (interface_popped i a k l _ Hl N1 N2) as Hpop. unfold nonempty_interface in Hpop.
      destruct (children_is_empty l && negb (lower_empty l)); apply twp_ret; by split.
  - intros [r [um lm]] (Hr & I2 & I3). apply twp_ret. cbn [fst snd] in *. split; [done|]. split; [|done].
    intros u' k' r' [Hin|[= -> -> ->]%list_elem_of_singleton]%elem_of_app; [by apply I2|done].
Qed.

(** ** The single way *)

Lemma single_path_step_ok current a rem : wf_lower current → valid a → (0 < rem)%Z →
  match single_path_step true current a rem with
  | Answer (Some u) => popped_upper (Interface current a) rem u
  | Answer None => True
  | Next nc r => (1 ≤ r ≤ rem)%Z ∧ (∀ c, nc = Some c → wf_lower c) ∧ (in_lower current [] → r = rem) ∧
      ∀ s, left_after current rem s ↔ (in_lower current [] ∧ rem = 1%Z ∧ s = []) ∨ ∃ c, nc = Some c ∧ left_after c (r - 1) s
  end.
Proof using.
  intros Hw Ha Hrem. destruct current as [ch e d|vs next d n]; cbn [single_path_step].
  - destruct (wf_general_inv _ _ _ Hw) as [Hch _].
    assert (Hleft : ∀ s, left_after (General ch e d) rem s ↔ (in_lower (General ch e d) [] ∧ rem = 1%Z ∧ s = []) ∨ ∃ c, c ∈ all_kids ch ∧ left_after c (rem - 1) s) by (intros s; by apply left_general).
    unfold all_kids, compact_values in Hleft. destruct (entries ch) as [|[v kids] [|? ?]] eqn:Hentries; [| |done].
    + split; [lia|]. split; [done|]. split; [done|]. intros s. rewrite Hleft. cbn. setoid_rewrite elem_of_nil. clear. naive_solver.
    + destruct (entries kids) as [|[k c] [|? ?]] eqn:Hk; [done| |done]. split; [lia|]. split; [|split; [done|]].
      * intros c' [= <-]. apply (edge_wf ch v); [done|]. exists kids, k. rewrite Hentries, Hk. split; by left.
      * intros s. rewrite Hleft. cbn [fmap list_fmap concat snd app]. rewrite Hk. cbn [fmap list_fmap snd app]. setoid_rewrite list_elem_of_singleton. clear. naive_solver.
  - destruct (wf_segment_inv _ _ _ _ Hw) as (Hne & Hnext & _). assert (Hlen : 0 < lenN vs) by (destruct vs; [done|unfold lenN; cbn; lia]).
    assert (Hnil : ¬ in_lower (Segment vs next d n) []) by (intros Hn%lower_empty_ok; done).
    destruct (Z.leb_spec (Z.of_N (lenN vs)) rem) as [Hle|Hgt].
    + split; [lia|]. split; [by intros c [= <-]|]. split; [done|]. intros s. rewrite left_past_segment by done.
      replace (rem - (Z.of_N (lenN vs) - 1) - 1)%Z with (rem - Z.of_N (lenN vs))%Z by lia. clear -Hnil. naive_solver.
    + destruct (take_segment_ok vs next d n rem (length vs - Z.to_nat rem)%nat Hw Hrem Hgt eq_refl) as (H1 & _ & H3).
      eapply interface_popped; [split; [exact H1|exact H3]|by constructor|done].
Qed.

Lemma single_path_ok (enabled : bool) fuel current a rem : wf_lower current → valid a → (0 < rem)%Z → (Z.to_nat rem < fuel)%nat →
  twp (popn_single_interface_path ptr_eq place enabled fuel current a rem)
     (λ r, match r with Some u => popped_upper (Interface current a) rem u | None => True end).
Proof using place_perm ptr_eq_sound.
  revert current rem. induction fuel as [|fuel IH]; intros current rem Hw Ha Hrem Hf; [lia|]. cbn [popn_single_interface_path].
  rewrite (proj2 (Z.leb_gt rem 0) Hrem). pose proof (single_path_step_ok current a rem Hw Ha Hrem) as Hstep.
  assert (Hsame : single_path_step enabled current a rem = single_path_step true current a rem ∨ single_path_step enabled current a rem = Answer None).
  { destruct enabled; [by left|]. destruct current as [|vs]; [by left|]. cbn. destruct (Z.of_N (lenN vs) <=? rem)%Z; [by left|by right]. }
  destruct Hsame as [-> | ->]; [|by apply twp_ret]. destruct (single_path_step true current a rem) as [[u|]|nc r]; [by apply twp_ret..|].
  destruct Hstep as (Hr & Hwc & Heq & Hleft). destruct (Z.eqb_spec r 1) as [->|Hr1].
  - apply twp_bind. eapply twp_mono with (P := λ result, wf_lower result ∧ ∀ s, in_lower result s ↔ ∃ c, nc = Some c ∧ in_lower c s).
    { destruct nc as [c|]; [apply twp_ret; split; [by apply Hwc|]; intros s; clear; naive_solver|].
      eapply twp_mono; [by apply leaf_ok|]. intros l (L1 & _ & L3). split; [done|]. intros s. rewrite L3. clear. naive_solver. }
    intros result [Hres Hin]. apply twp_bind. eapply twp_mono; [by apply (keep_empty_ok current 1 result (λ s, ∃ c, nc = Some c ∧ in_lower c s))|].
    intros l [L1 L2]. apply twp_ret. destruct (nonempty_interface_ok l a L1 Ha) as [N1 N2]. eapply interface_popped; [|exact N1|exact N2].
    split; [done|]. intros s. fold (left_after current rem s). rewrite L2, Hleft. unfold left_after. setoid_rewrite pops_zero. clear -Heq. naive_solver.
  - destruct nc as [c|].
    + eapply twp_mono; [apply (IH c (r - 1)%Z); [by apply Hwc|done|lia|lia]|]. intros [u|] Hu; [|done]. destruct Hu as [Hu Ht]. split; [done|].
      intros t s. rewrite Ht. unfold left_test. setoid_rewrite upper_test_interface.
      assert (Hiff : ∀ p : Prop, (left_after c (r - 1) s → p) ↔ (left_after current rem s → p)).
      { intros p. rewrite (Hleft s). assert (Hno : ¬ (in_lower current [] ∧ rem = 1%Z)) by (intros [? ->]; lia). clear -Hno. naive_solver. }
      specialize (Hiff (holds valid t a)). unfold left_after in Hiff. clear -Hiff. naive_solver.
    + apply twp_ret. destruct gss_empty_ok as [H1 H2]. split; [done|]. intros t s. split; [|intros _ b Hp; by destruct (H2 s b)].
      intros _ s' Hp b [Hs ->]%path_interface_iff. assert (Hl : left_after current rem s) by (by exists s'). apply Hleft in Hl as [(He & -> & _)|(c & ? & _)]; [|done].
      specialize (Heq He). lia.
Qed.

Lemma popn_ok (enabled : bool) g n : wf_upper g → (0 < n)%Z → twp (popn ptr_eq place enabled g n) (popped_upper g n).
Proof using MergeLaws0 acc_eqb_spec place_perm ptr_eq_sound.
  intros Hg Hn. unfold popn. rewrite (proj2 (Z.leb_gt n 0) Hn). destruct (gss_is_empty g) eqn:He.
  { apply twp_ret. split; [done|]. intros t s. split; [intros _ s' _ a Hp|intros _ a Hp]; by eapply gss_is_empty_ok in Hp. }
  apply twp_bind. eapply twp_mono with (P := λ r, match r with Some u => popped_upper g n u | None => True end).
  { destruct g as [|i a]; [by apply twp_ret|]. destruct (wf_interface_inv _ _ _ Hg). apply single_path_ok; [done|done|done|lia]. }
  intros [u|] Hu; [by apply twp_ret|]. apply twp_bind. eapply twp_mono; [apply popn_upper_ok; [done|by intros ? ? ? ?%elem_of_nil|by intros ? ? ? ?%elem_of_nil|lia|lia]|].
  intros r [Hr _]. by apply twp_ret.
Qed.

(** * Taking the top value off *)

(** [r] has the stacks of [g] that were under [v]. *)
Definition below_top g (v : T) r : Prop := wf_upper r ∧ ∀ t s, upper_test t r s ↔ upper_test t g (v :: s).

Lemma merge_all_lower_ok (kids : list Lower) : (∀ c, c ∈ kids → wf_lower c) → twp (merge_all (merge_lower ptr_eq place) kids) (merged_so_far in_lower kids).
Proof using place_perm ptr_eq_sound.
  intros Hk. destruct kids as [|first rest]; [by apply twp_ret|]. cbn [merge_all]. apply twp_bind.
  eapply twp_mono; [apply (twp_for_each (λ done_ r, merged_so_far in_lower (first :: done_) (Some r)))|].
  - split; [apply Hk; by left|]. intros s. setoid_rewrite list_elem_of_singleton. clear. naive_solver.
  - intros done_ c rest' r Hl [Hr Hin]. assert (Hc : wf_lower c) by (apply Hk; right; rewrite Hl; apply elem_of_app; right; by left).
    eapply twp_mono; [by apply (merge_lower_ok ptr_eq ptr_eq_sound place place_perm)|]. intros r' (R1 & _ & R3). split; [done|]. intros s. rewrite R3, Hin.
    setoid_rewrite elem_of_cons. setoid_rewrite elem_of_app. setoid_rewrite list_elem_of_singleton. clear. naive_solver.
  - intros r Hr. by apply twp_ret.
Qed.

Lemma merge_all_upper_ok (kids : list Upper) : (∀ c, c ∈ kids → wf_upper c) →
  twp (merge_all (merge_upper ptr_eq place) kids) (uppers_so_far (λ c t s, upper_test t c s) kids).
Proof using MergeLaws0 acc_eqb_spec place_perm ptr_eq_sound.
  intros Hk. destruct kids as [|first rest]; [by apply twp_ret|]. cbn [merge_all]. apply twp_bind.
  eapply twp_mono; [apply (twp_for_each (λ done_ r, uppers_so_far (λ c t s, upper_test t c s) (first :: done_) (Some r)))|].
  - split; [apply Hk; by left|]. intros t s. setoid_rewrite list_elem_of_singleton. split; [by intros ? ? ->|by auto].
  - intros done_ c rest' r Hl [Hr Hin]. assert (Hc : wf_upper c) by (apply Hk; right; rewrite Hl; apply elem_of_app; right; by left).
    eapply twp_mono; [by apply (merge_upper_ok ptr_eq ptr_eq_sound place place_perm valid acc_eqb_spec)|]. intros r' (R1 & _ & R3). split; [done|]. intros t s. rewrite R3, Hin.
    setoid_rewrite elem_of_cons. setoid_rewrite elem_of_app. setoid_rewrite list_elem_of_singleton. clear. naive_solver.
  - intros r Hr. by apply twp_ret.
Qed.

Lemma interface_below i a v l r : wf_upper r → (∀ s b, path r s b ↔ path (Interface l a) s b) →
  (∀ s, in_lower l s ↔ in_lower i (v :: s)) → below_top (Interface i a) v r.
Proof using.
  intros Hr Hp Hin. split; [done|]. intros t s. unfold GssUpper.upper_test. setoid_rewrite Hp. setoid_rewrite path_interface_iff. by setoid_rewrite Hin.
Qed.

Lemma none_below g v : (∀ s a, ¬ path g (v :: s) a) → below_top g v gss_empty.
Proof using.
  intros Hn. destruct gss_empty_ok as [H1 H2]. split; [done|]. intros t s. split; intros _ a Hp; [by destruct (Hn s a)|by destruct (H2 s a)].
Qed.

(** Keeping the top value, then popping once. *)
Lemma isolate_pop_ok (enabled : bool) g v : wf_upper g →
  twp (let! isolated := isolate ptr_eq place g (Some v) in popn ptr_eq place enabled isolated 1) (below_top g v).
Proof using MergeLaws0 acc_eqb_spec place_perm ptr_eq_sound.
  intros Hg. apply twp_bind. eapply twp_mono; [by apply isolate_top_ok|]. intros u [Hu Hp].
  eapply twp_mono; [by apply popn_ok|]. intros r [Hr Ht]. split; [done|]. intros t s. rewrite Ht. unfold left_test, GssUpper.upper_test. setoid_rewrite Hp. split.
  - intros H1 a Ha. apply (H1 (v :: s)); [apply pops_cons; [lia|]; by apply pops_zero|]. split; [by exists s|done].
  - intros H1 s' Hs a [[s'' ->] Ha]. apply pops_cons in Hs; [|lia]. apply pops_zero in Hs as ->. by apply H1.
Qed.

Lemma pop_top_value_ok (enabled : bool) g v : wf_upper g → twp (pop_top_value ptr_eq place enabled g v) (below_top g v).
Proof using MergeLaws0 acc_eqb_spec place_perm ptr_eq_sound.
  intros Hg. destruct g as [ch e d|i a]; cbn [pop_top_value]; [by apply isolate_pop_ok|].
  destruct (wf_interface_inv _ _ _ Hg) as [Hi Ha]. apply twp_bind.
  eapply twp_mono with (P := λ m, match m with Some l => wf_lower l ∧ ∀ s, in_lower l s ↔ in_lower i (v :: s) | None => ∀ s, ¬ in_lower i (v :: s) end).
  - destruct i as [ch e d|vs next d n].
    + destruct (wf_general_inv _ _ _ Hi) as [Hw _]. destruct (compact_get ch v) as [kids|] eqn:Hget.
      * eapply twp_mono; [apply merge_all_lower_ok|].
        -- intros c [k Hk]%elem_of_compact_values. apply (edge_wf ch v); [done|]. apply (edge_get ch v kids); [apply Hw|done|eauto].
        -- intros [l|] Hl; cbn [merged_so_far] in Hl.
           ++ destruct Hl as [Hl Hin]. split; [done|]. intros s. rewrite Hin, in_general. cbn. setoid_rewrite elem_of_compact_values.
              setoid_rewrite (edge_get ch v kids); [done|apply Hw|done].
           ++ intros s (c & Hc & _)%in_general. apply (edge_get ch v kids) in Hc; [|apply Hw|done]. apply elem_of_compact_values in Hc. rewrite Hl in Hc. by apply elem_of_nil in Hc.
      * apply twp_ret. intros s (c & Hc & _)%in_general. by apply (edge_get_None ch v c).
    + destruct (segment_view (W:=W) _ _ _ _ Hi) as (v0 & r & -> & -> & Hr & Hh & _ & Hd & Hview & Hin). apply twp_bind, twp_ret. case_decide as Hv.
      * subst v0. apply twp_bind, twp_ret, twp_ret. split; [done|]. intros s. rewrite Hin. clear. naive_solver.
      * apply twp_ret. intros s (s' & [= -> _] & _)%Hin. done.
  - intros [l|] Hl; apply twp_ret.
    + destruct Hl as [Hl Hin]. destruct (nonempty_interface_ok l a Hl Ha) as [N1 N2]. by eapply interface_below.
    + apply none_below. intros s b [Hs _]%path_interface_iff. by destruct (Hl s).
Qed.

(** * One value at a time *)

(** [out] lists every top value of [g] once, with the stacks under it. *)
Definition decomposed g (out : list (T * Upper)) : Prop :=
  (∀ v h, (v, h) ∈ out → below_top g v h) ∧ NoDup out.*1 ∧ ∀ v s a, path g (v :: s) a → v ∈ out.*1.

(** What the callback is passed for one key. *)
Definition key_done g (v : T) out out' : Prop :=
  (∃ h, out' = out ++ [(v, h)] ∧ below_top g v h) ∨ (out' = out ∧ ∀ s a, ¬ path g (v :: s) a).

Lemma decompose_loop {V} (step : list (T * Upper) → T * compact N V → M W (list (T * Upper))) (l : list (T * compact N V)) g :
  NoDup l.*1 → (∀ v kids out, (v, kids) ∈ l → twp (step out (v, kids)) (key_done g v out)) →
  (∀ v s a, path g (v :: s) a → v ∈ l.*1) → twp (for_each step [] l) (decomposed g).
Proof using.
  intros Hnd Hstep Hall.
  eapply twp_mono; [apply (twp_for_each (λ done_ out, (∀ v h, (v, h) ∈ out → below_top g v h) ∧ NoDup out.*1 ∧
    (∀ v, v ∈ out.*1 → v ∈ done_.*1) ∧ ∀ v s a, v ∈ done_.*1 → path g (v :: s) a → v ∈ out.*1))|].
  - split; [by intros ? ? ?%elem_of_nil|]. split; [constructor|]. split; [done|]. by intros ? ? ? ?%elem_of_nil.
  - intros done_ [v kids] rest out Hl (I1 & I2 & I3 & I4).
    assert (Hni : v ∉ done_.*1).
    { intros Hd. rewrite Hl, fmap_app in Hnd. apply NoDup_app in Hnd as (_ & Hnd & _). apply (Hnd v Hd). by left. }
    eapply twp_mono; [apply Hstep; rewrite Hl; apply elem_of_app; right; by left|]. intros out' [(h & -> & Hh)|[-> Hno]]; rewrite !fmap_app; cbn [fmap list_fmap fst].
    + split; [intros v' h' [?|Hv]%elem_of_app; [by apply I1|]; by apply list_elem_of_singleton in Hv as [= -> ->]|].
      split; [apply NoDup_app; split; [done|]; split; [intros v' Hv' ->%list_elem_of_singleton; by apply Hni, I3|apply NoDup_singleton]|].
      split; intros v'; rewrite ?elem_of_app; [|intros s a]; rewrite ?elem_of_app, ?list_elem_of_singleton; [intros [?|?]; [left; by apply I3|by right]|].
      intros [?|?] Hp; [left; by eapply I4|by right].
    + split; [done|]. split; [done|]. split; intros v'; [intros ?; apply elem_of_app; left; by apply I3|].
      intros s a [?|Hv]%elem_of_app Hp; [by eapply I4|]. apply list_elem_of_singleton in Hv as ->. by destruct (Hno s a).
  - intros out (I1 & I2 & I3 & I4). split; [done|]. split; [done|]. intros v s a Hp. by eapply I4; [eapply Hall|].
Qed.

Lemma edge_kids {V} (ch : children_of T V) v kids c : NoDup (entries ch).*1 → (v, kids) ∈ entries ch → edge ch v c ↔ c ∈ compact_values kids.
Proof using EqDecision0.
  intros Hnd Hin. rewrite elem_of_compact_values. apply edge_get; [done|]. by apply compact_get_elem.
Qed.

Lemma edge_key {V} (ch : children_of T V) v c : edge ch v c → v ∈ (entries ch).*1.
Proof using. intros (kids & k & Hv & _). apply list_elem_of_fmap. by exists (v, kids). Qed.

(** An interface is reported unless nothing stands under the value. *)
Lemma reported_ok i a v l out : wf_lower l → valid a → (∀ s, in_lower l s ↔ in_lower i (v :: s)) →
  key_done (Interface i a) v out (if negb (children_is_empty l) || lower_empty l then out ++ [(v, Interface l a)] else out).
Proof using.
  intros Hl Ha Hin. destruct (negb (children_is_empty l) || lower_empty l) eqn:Hc; [left|right].
  - eexists. split; [done|]. eapply interface_below; [by constructor|done|done].
  - apply orb_false_iff in Hc as [He%negb_false_iff Hn]. split; [done|]. intros s b [Hs _]%path_interface_iff. apply Hin in Hs. by eapply empty_lower_none.
Qed.

Lemma decompose_lower_ok ch e d a v kids out : wf_lower (General ch e d) → valid a → (v, kids) ∈ entries ch →
  twp (decompose_lower ptr_eq place a out (v, kids)) (key_done (Interface (General ch e d) a) v out).
Proof using place_perm ptr_eq_sound.
  intros Hi Ha Hin. destruct (wf_general_inv _ _ _ Hi) as [Hw _]. pose proof (cw_nodup _ _ _ Hw) as Hnd. unfold decompose_lower. cbn [fst snd].
  pose proof (edge_kids ch v kids) as Hedge. apply twp_bind.
  eapply twp_mono; [apply merge_all_lower_ok; intros c Hc; apply (edge_wf ch v); [done|by apply Hedge]|].
  intros [l|] Hl; cbn [merged_so_far] in Hl.
  - destruct Hl as [Hl Hs]. apply twp_bind. eapply twp_unwrap; [done|]. pose proof (reported_ok (General ch e d) a v l out Hl Ha) as Hr.
    cbv zeta. destruct (negb (children_is_empty l) || lower_empty l); apply twp_ret, Hr; intros s; rewrite Hs, in_general; cbn; by setoid_rewrite Hedge.
  - pose proof (kw_nonempty _ _ _ (cw_kids _ _ _ Hw _ _ Hin)) as Hne. unfold compact_values in Hl. by destruct (entries kids).
Qed.

Lemma decompose_upper_ok ch e d v kids out : wf_upper (Branch ch e d) → (v, kids) ∈ entries ch →
  twp (decompose_upper ptr_eq place out (v, kids)) (key_done (Branch ch e d) v out).
Proof using MergeLaws0 acc_eqb_spec place_perm ptr_eq_sound.
  intros Hu Hin. destruct (wf_branch_inv _ _ _ _ Hu) as (Hw & _). pose proof (cw_nodup _ _ _ Hw) as Hnd. unfold decompose_upper. cbn [fst snd].
  pose proof (edge_kids ch v kids) as Hedge. apply twp_bind.
  eapply twp_mono; [apply merge_all_upper_ok; intros c Hc; apply (upper_edge_wf valid ch v); [done|by apply Hedge]|].
  intros [m|] Hm; cbn [uppers_so_far] in Hm.
  - destruct Hm as [Hm Ht]. apply twp_bind. eapply twp_unwrap; [done|]. apply twp_bind. eapply twp_mono with (P := same_paths valid m).
    { destruct (is_interface m); [apply twp_ret; by apply same_paths_refl|]. by apply (try_promote_ok ptr_eq ptr_eq_sound place place_perm valid acc_eqb_spec). }
    intros r (R1 & _ & R3).
    assert (Hb : below_top (Branch ch e d) v r).
    { split; [done|]. intros t s. unfold GssUpper.upper_test at 1. setoid_rewrite R3. fold (upper_test t m s). rewrite Ht. unfold GssUpper.upper_test. setoid_rewrite path_branch_cons.
      setoid_rewrite Hedge; [clear; naive_solver|done|done]. }
    destruct (gss_is_empty r) eqn:He; apply twp_ret; [right|left; eauto]. split; [done|]. intros s a Hp.
    apply (proj1 (proj2 Hb (const_test False) s)) with a; [|done]. intros b Hb'. by eapply gss_is_empty_ok in Hb'.
  - pose proof (kw_nonempty _ _ _ (cw_kids _ _ _ Hw _ _ Hin)) as Hne. unfold compact_values in Hm. by destruct (entries kids).
Qed.

Lemma for_each_decomposed_ok g : wf_upper g → twp (for_each_decomposed ptr_eq place g) (decomposed g).
Proof using MergeLaws0 acc_eqb_spec place_perm ptr_eq_sound.
  intros Hg. destruct g as [ch e d|i a]; cbn [for_each_decomposed]; unfold compact_iter.
  - destruct (wf_branch_inv _ _ _ _ Hg) as (Hw & _). apply decompose_loop; [apply Hw|intros v kids out Hin; by apply decompose_upper_ok|].
    intros v s a (c & Hc & _)%path_branch_cons. by eapply edge_key.
  - destruct (wf_interface_inv _ _ _ Hg) as [Hi Ha]. destruct i as [ch e d|vs next d n].
    + destruct (wf_general_inv _ _ _ Hi) as [Hw _]. apply decompose_loop; [apply Hw|intros v kids out Hin; by apply decompose_lower_ok|].
      intros v s b [Hs _]%path_interface_iff. apply in_general in Hs as (c & Hc & _). by eapply edge_key.
    + destruct (segment_view (W:=W) _ _ _ _ Hi) as (v0 & r & -> & -> & Hr & Hh & _ & Hd & Hview & Hin). apply twp_bind, twp_ret, twp_bind, twp_ret. cbv zeta.
      assert (Hs : ∀ s, in_lower r s ↔ in_lower (Segment vs next d n) (v0 :: s)) by (intros s; rewrite Hin; clear; naive_solver).
      assert (Hv : ∀ v s b, path (Interface (Segment vs next d n) a) (v :: s) b → v = v0).
      { intros v s b [(s' & [= -> _] & _)%Hin _]%path_interface_iff. done. }
      pose proof (reported_ok _ a v0 r [] Hr Ha Hs) as Hrep. destruct (negb (children_is_empty r) || lower_empty r); apply twp_ret;
        destruct Hrep as [(h & Hh' & Hb)|[Hno Hp]]; try discriminate; cbn [app] in *.
      * injection Hh' as <-. split; [by intros v h [= -> ->]%list_elem_of_singleton|]. split; [apply NoDup_singleton|]. intros v s b ->%Hv. by left.
      * split; [by intros ? ? ?%elem_of_nil|]. split; [constructor|]. intros v s b Hq. pose proof (Hv _ _ _ Hq) as ->. by destruct (Hp s b).
Qed.
End ops.
