(* ===== verification/GssResults.v ===== *)
(** What the operations of the parser stack do to the set of stacks and to what
    each stack carries. *)

From S2P Require Import Prelude Accumulator AccumulatorCorrect CompactMap Gss GssKit GssLower GssUpper GssOps.

(** * The abstract view

    A parser stack stands for a finite set of stacks. A stack carries the union
    of the accumulators of its ways down, the least that subsumes them all. *)

Section carried.
Context {T A : Type} `{Merge A} (valid : A → Prop) `{!MergeLaws A valid}.
Implicit Types (g : Upper T A) (s : list T).

Definition has_stack g s : Prop := ∃ a, path g s a.

Definition carried g s (a : A) : Prop :=
  valid a ∧ has_stack g s ∧ ∀ b, valid b → subsumes b a = true ↔ ∀ x, path g s x → subsumes b x = true.

Lemma subsumes_merge_iff b x y : valid b → valid x → valid y →
  subsumes b (merge x y) = true ↔ subsumes b x = true ∧ subsumes b y = true.
Proof using MergeLaws0.
  intros Hb Hx Hy. rewrite !subsumes_merge by (done || by apply merge_valid). split.
  - intros Hm. split; rewrite <-Hm at 1.
    + rewrite (merge_comm x y), merge_assoc by done. rewrite <-(merge_assoc (merge b y) x x), merge_idem, <-merge_assoc, (merge_comm y x) by (done || by apply merge_valid). done.
    + rewrite merge_assoc by done. rewrite <-(merge_assoc (merge b x) y y), merge_idem, <-merge_assoc by (done || by apply merge_valid). done.
  - intros [Hx' Hy']. by rewrite merge_assoc, Hx' by done.
Qed.

(** Asking whether a given value subsumes. *)
Definition subsumes_test b (Hb : valid b) : acc_test valid :=
  {| holds := λ a, subsumes b a = true; holds_merge := λ x y Hx Hy, subsumes_merge_iff b x y Hb Hx Hy |}.

Lemma carried_unique g s a b : carried g s a → carried g s b → a = b.
Proof using MergeLaws0.
  intros (Ha & _ & Hia) (Hb & _ & Hib). rewrite <-(proj1 (subsumes_merge a b Ha Hb)).
  - rewrite (merge_comm a b) by done. apply subsumes_merge; [done..|]. apply Hia; [done|]. apply Hib; [done|]. apply subsumes_merge; [done..|]. by apply merge_idem.
  - apply Hib; [done|]. apply Hia; [done|]. apply subsumes_merge; [done..|]. by apply merge_idem.
Qed.

(** The same observations make the same stacks carry the same. *)
Lemma carried_same g s g' s' : (∀ t, upper_test valid t g s ↔ upper_test valid t g' s') →
  (has_stack g s ↔ has_stack g' s') ∧ ∀ a, carried g s a ↔ carried g' s' a.
Proof using MergeLaws0.
  intros Ht. assert (Hs : has_stack g s ↔ has_stack g' s').
  { split; intros [x Hx].
    - apply (proj2 (Ht (const_test valid (has_stack g' s')))) with x; [|done]. intros y Hy. by exists y.
    - apply (proj1 (Ht (const_test valid (has_stack g s)))) with x; [|done]. intros y Hy. by exists y. }
  split; [done|]. intros a. unfold carried. rewrite Hs. split; intros (H1 & H2 & H3); (split; [done|]; split; [done|]); intros b Hb; rewrite (H3 b Hb).
  - apply (Ht (subsumes_test b Hb)).
  - symmetry. apply (Ht (subsumes_test b Hb)).
Qed.
End carried.

(** * Results *)

Section results.
Context {T : Type} `{EqDecision T} {W : Type}.
Context (ptr_eq : ∀ V : Type, V → V → M W bool) (ptr_eq_sound : ∀ (V : Type) (a b : V), twp (ptr_eq V a b) (λ p, p = true → a = b)).
Context (place : ∀ V : Type, T → V → list (T * V) → list (T * V)) (place_perm : ∀ V : Type, place_ok (place V)).
Context {A : Type} `{Merge A, AccEq A} (valid : A → Prop) `{!MergeLaws A valid}.
Context (acc_eqb_spec : ∀ a b, valid a → valid b → acc_eqb a b = true ↔ a = b).
Abbreviation wf_upper := (wf_upper (T:=T) valid).
Abbreviation carried := (carried (T:=T) valid).
Implicit Types (g h r : Upper T A) (s : list T).

(** A result of a run. *)
Definition yields {B} (m : M W B) (b : B) : Prop := ∃ w w', m w = Some (b, w').

(** The parser stacks that the operations build, from single stacks. *)
Inductive built_gss : Upper T A → Prop :=
  | built_empty : built_gss gss_empty
  | built_single values acc g : lenN values ≤ u32_max → valid acc → yields (from_single_stack ptr_eq values acc) g → built_gss g
  | built_push g v : built_gss g → upper_max_depth g < u32_max → built_gss (gss_push place g v)
  | built_merge g h r : built_gss g → built_gss h → yields (gss_merge ptr_eq place g h) r → built_gss r
  | built_merge_many items r : (∀ g, g ∈ items → built_gss g) → yields (merge_many ptr_eq place items) r → built_gss r
  | built_isolate g v r : built_gss g → yields (isolate ptr_eq place g v) r → built_gss r
  | built_popn g enabled n r : built_gss g → yields (popn ptr_eq place enabled g n) r → built_gss r
  | built_pop_top g enabled v r : built_gss g → yields (pop_top_value ptr_eq place enabled g v) r → built_gss r
  | built_decomposed g out v r : built_gss g → yields (for_each_decomposed ptr_eq place g) out → (v, r) ∈ out → built_gss r.

Lemma yields_twp {B} (m : M W B) (P : B → Prop) b : yields m b → twp m P → P b.
Proof using. intros (w & w' & Hw) Hm. destruct (Hm w) as (b' & w1 & Hw1 & HP). by assert (b' = b) as -> by congruence. Qed.

Lemma popn_wf enabled g n : wf_upper g → twp (popn ptr_eq place enabled g n) wf_upper.
Proof using MergeLaws0 acc_eqb_spec place_perm ptr_eq_sound.
  intros Hg. destruct (Z.leb_spec n 0) as [Hn|Hn]; [unfold popn; rewrite (proj2 (Z.leb_le n 0) Hn); by apply twp_ret|].
  eapply twp_mono; [by apply (popn_ok ptr_eq ptr_eq_sound place place_perm valid acc_eqb_spec)|]. by intros r [? _].
Qed.

Lemma isolate_wf g v : wf_upper g → twp (isolate ptr_eq place g v) wf_upper.
Proof using acc_eqb_spec place_perm ptr_eq_sound.
  intros Hg. destruct v as [v|]; eapply twp_mono;
    [by apply (isolate_top_ok ptr_eq ptr_eq_sound place place_perm valid acc_eqb_spec)| |by apply (isolate_empty_ok ptr_eq ptr_eq_sound place place_perm valid acc_eqb_spec)|];
    by intros r [? _].
Qed.

Lemma built_gss_ok g : built_gss g → wf_upper g.
Proof using MergeLaws0 acc_eqb_spec place_perm ptr_eq_sound.
  induction 1 as [|values acc g Hl Ha Hr|g v _ IH Hd|g h r _ IHg _ IHh Hr|items r _ IH Hr|g v r _ IH Hr|g en n r _ IH Hr|g en v r _ IH Hr|g out v r _ IH Hr Hin].
  - apply gss_empty_ok.
  - eapply yields_twp; [exact Hr|]. eapply twp_mono; [by apply (from_single_stack_ok ptr_eq ptr_eq_sound valid)|]. by intros ? [? _].
  - by apply gss_push_ok.
  - eapply yields_twp; [exact Hr|]. eapply twp_mono; [by apply (gss_merge_ok ptr_eq ptr_eq_sound place place_perm valid acc_eqb_spec)|]. by intros ? [? _].
  - eapply yields_twp; [exact Hr|]. eapply twp_mono; [apply (merge_many_ok ptr_eq ptr_eq_sound place place_perm valid acc_eqb_spec); by apply Forall_forall|]. by intros ? [? _].
  - eapply yields_twp; [exact Hr|]. by apply isolate_wf.
  - eapply yields_twp; [exact Hr|]. by apply popn_wf.
  - eapply yields_twp; [exact Hr|]. eapply twp_mono; [by apply (pop_top_value_ok ptr_eq ptr_eq_sound place place_perm valid acc_eqb_spec)|]. by intros ? [? _].
  - destruct (yields_twp _ _ _ Hr (for_each_decomposed_ok ptr_eq ptr_eq_sound place place_perm valid acc_eqb_spec g IH)) as (Hb & _). by apply (Hb v).
Qed.

(** C20: every parser stack that the operations build is well-formed: map keys
    are unique and equal the depths of the nodes they lead to, cached depths and
    segment lengths are those of the contents, no segment is empty, and
    accumulators are valid. *)
Theorem built_gss_wf g : built_gss g → wf_upper g.
Proof using MergeLaws0 acc_eqb_spec place_perm ptr_eq_sound. apply built_gss_ok. Qed.

(** C11: merging two parser stacks ends without a panic, whatever nodes the run
    shares: the result has the stacks of both, a stack of both carries the merged
    accumulators and a stack of one carries what it carried. *)
Theorem gss_merge_correct g h : wf_upper g → wf_upper h →
  twp (gss_merge ptr_eq place g h) (λ r, wf_upper r ∧
    (∀ s, has_stack r s ↔ has_stack g s ∨ has_stack h s) ∧
    (∀ s a b, carried g s a → carried h s b → carried r s (merge a b)) ∧
    (∀ s a, carried g s a → ¬ has_stack h s → carried r s a) ∧
    (∀ s b, ¬ has_stack g s → carried h s b → carried r s b)).
Proof using MergeLaws0 acc_eqb_spec place_perm ptr_eq_sound.
  intros Hg Hh. eapply twp_mono; [by apply (gss_merge_ok ptr_eq ptr_eq_sound place place_perm valid acc_eqb_spec)|].
  intros r [Hr Ht]. split; [done|]. split; [intros s; by apply (carries_contains valid g h r); split|].
  assert (Hone : ∀ x y s a, (∀ t s, upper_test valid t r s ↔ upper_test valid t x s ∧ upper_test valid t y s) → carried x s a → ¬ has_stack y s → carried r s a).
  { intros x y s a Hxy Hc Hn. apply (carried_same valid r s x s); [|done]. intros t. rewrite Hxy. split; [by intros [? _]|]. intros ?. split; [done|].
    intros b Hb. destruct Hn. by exists b. }
  split; [|split].
  - intros s a b (Ha & [x Hx] & Hua) (Hb & _ & Hub). split; [by apply merge_valid|]. split.
    + apply (carries_contains valid g h r); [by split|]. left. by exists x.
    + intros c Hc. rewrite (subsumes_merge_iff valid) by done. rewrite (Hua c Hc), (Hub c Hc). symmetry. apply (Ht (subsumes_test valid c Hc)).
  - intros s a. by apply Hone.
  - intros s b Hn Hc. apply (Hone h g); [|done..]. intros t s'. rewrite Ht. tauto.
Qed.

(** C12: popping [n] values ends without a panic: the result has the stacks that
    remain when [n] values go, a stack of [n - 1] values leaving the empty stack
    and shorter ones nothing, and every property that merging preserves holds of
    a remaining stack exactly when it held of all it came from. The memo tables and the single-path shortcut do not show. *)
Theorem popn_correct (enabled : bool) g n : wf_upper g → (0 < n)%Z →
  twp (popn ptr_eq place enabled g n) (λ r, wf_upper r ∧
    (∀ s, has_stack r s ↔ ∃ s', has_stack g s' ∧ (n ≤ Z.of_nat (length s') + 1)%Z ∧ s = drop (Z.to_nat n) s') ∧
    ∀ (t : acc_test valid) s,
      (∀ a, path r s a → holds valid t a) ↔
      ∀ s' a, path g s' a → (n ≤ Z.of_nat (length s') + 1)%Z → s = drop (Z.to_nat n) s' → holds valid t a).
Proof using MergeLaws0 acc_eqb_spec place_perm ptr_eq_sound.
  intros Hg Hn. eapply twp_mono; [by apply (popn_ok ptr_eq ptr_eq_sound place place_perm valid acc_eqb_spec)|].
  intros r [Hr Ht]. unfold left_test, pops, GssUpper.upper_test in Ht. split; [done|]. split.
  - intros s. split.
    + intros [a Ha]. apply (proj2 (Ht (const_test valid (∃ s', has_stack g s' ∧ (n ≤ Z.of_nat (length s') + 1)%Z ∧ s = drop (Z.to_nat n) s')) s)) with a; [|done].
      intros s' Hs b Hb. exists s'. split; [by exists b|done].
    + intros (s' & [a Ha] & Hs). apply (proj1 (Ht (const_test valid (has_stack r s)) s)) with s' a; [|done|done]. intros b Hb. by exists b.
  - intros t s. rewrite Ht. split; [intros Hall s' a Hp Hl Hs; by apply (Hall s')|]. intros Hall s' [Hl Hs] a Hp. by apply (Hall s').
Qed.

(** C17: pushing a value and popping one gives back the same stacks, with what
    each carries. *)
Theorem push_pop_roundtrip (enabled : bool) g v : wf_upper g → upper_max_depth g < u32_max →
  twp (popn ptr_eq place enabled (gss_push place g v) 1) (λ r, wf_upper r ∧
    ∀ s, (has_stack r s ↔ has_stack g s) ∧ ∀ a, carried r s a ↔ carried g s a).
Proof using MergeLaws0 acc_eqb_spec place_perm ptr_eq_sound.
  intros Hg Hd. destruct (gss_push_ok place place_perm valid g v Hg Hd) as [Hp Hpath].
  eapply twp_mono; [by apply (popn_ok ptr_eq ptr_eq_sound place place_perm valid acc_eqb_spec)|].
  intros r [Hr Ht]. split; [done|]. intros s.
  assert (Hs : ∀ t, upper_test valid t r s ↔ upper_test valid t g s).
  { intros t. rewrite Ht. unfold left_test, GssUpper.upper_test. setoid_rewrite Hpath. split.
    - intros Hall a Ha. apply (Hall (v :: s)); [by apply pops_cons, pops_zero|]. by exists s.
    - intros Hall s' Hpop a (s'' & -> & Ha). apply pops_cons in Hpop; [|done]. apply pops_zero in Hpop as ->. by apply Hall. }
  by apply carried_same.
Qed.

(** C16: keeping one top value, or the empty stack, ends without a panic and
    keeps exactly the stacks with that top, or the empty one, with the
    accumulators they had; the checks that return the value itself agree. *)
Theorem isolate_correct g (value : option T) : wf_upper g →
  twp (isolate ptr_eq place g value) (λ r, wf_upper r ∧
    ∀ s a, path r s a ↔ path g s a ∧ head s = value).
Proof using acc_eqb_spec place_perm ptr_eq_sound.
  intros Hg. destruct value as [v|].
  - eapply twp_mono; [by apply (isolate_top_ok ptr_eq ptr_eq_sound place place_perm valid acc_eqb_spec)|]. intros r [Hr Hp]. split; [done|].
    intros s a. rewrite Hp. unfold tops. destruct s as [|v' s]; cbn; clear; naive_solver.
  - eapply twp_mono; [by apply (isolate_empty_ok ptr_eq ptr_eq_sound place place_perm valid acc_eqb_spec)|]. intros r [Hr Hp]. split; [done|].
    intros s a. rewrite Hp. destruct s; cbn; clear; naive_solver.
Qed.

Definition pop_both_ways (enabled : bool) g v : M W (Upper T A * Upper T A) :=
  let! fast := pop_top_value ptr_eq place enabled g v in
  let! isolated := isolate ptr_eq place g (Some v) in
  let! slow := popn ptr_eq place enabled isolated 1 in
  ret (fast, slow).

(** C13: taking a top value off directly is isolating it and popping once: both
    end without a panic and give the stacks that were under the value, with what
    they carried. *)
Theorem pop_top_value_correct (enabled : bool) g v : wf_upper g →
  twp (pop_both_ways enabled g v) (λ p, wf_upper p.1 ∧ wf_upper p.2 ∧
    ∀ s, (has_stack p.1 s ↔ has_stack g (v :: s)) ∧ (has_stack p.2 s ↔ has_stack g (v :: s)) ∧
      ∀ a, (carried p.1 s a ↔ carried g (v :: s) a) ∧ (carried p.2 s a ↔ carried g (v :: s) a)).
Proof using MergeLaws0 acc_eqb_spec place_perm ptr_eq_sound.
  intros Hg. apply twp_bind. eapply twp_mono; [by apply (pop_top_value_ok ptr_eq ptr_eq_sound place place_perm valid acc_eqb_spec)|].
  intros fast [Hf Htf]. pose proof (isolate_pop_ok ptr_eq ptr_eq_sound place place_perm valid acc_eqb_spec enabled g v Hg) as Hslow.
  intros w. destruct (Hslow w) as (slow & w' & Hrun & Hs & Hts). exists (fast, slow), w'. split.
  - revert Hrun. unfold bind. destruct (isolate ptr_eq place g (Some v) w) as [[i w1]|]; [|done]. intros ->. done.
  - split; [done|]. split; [done|]. intros s. destruct (carried_same valid fast s g (v :: s) (λ t, Htf t s)) as [F1 F2].
    destruct (carried_same valid slow s g (v :: s) (λ t, Hts t s)) as [S1 S2]. by split.
Qed.

(** C14: the decomposition ends without a panic and reports every top value once,
    with the stacks under it and what they carried; the values that are reported
    are all the top values of stacks. *)
Theorem for_each_decomposed_correct g : wf_upper g →
  twp (for_each_decomposed ptr_eq place g) (λ out, NoDup out.*1 ∧ (∀ v s, has_stack g (v :: s) → v ∈ out.*1) ∧
    ∀ v h, (v, h) ∈ out → wf_upper h ∧
      ∀ s, (has_stack h s ↔ has_stack g (v :: s)) ∧ ∀ a, carried h s a ↔ carried g (v :: s) a).
Proof using MergeLaws0 acc_eqb_spec place_perm ptr_eq_sound.
  intros Hg. eapply twp_mono; [by apply (for_each_decomposed_ok ptr_eq ptr_eq_sound place place_perm valid acc_eqb_spec)|].
  intros out (Hb & Hnd & Hall). split; [done|]. split; [intros v s [a Ha]; by eapply Hall|].
  intros v h Hin. destruct (Hb v h Hin) as [Hw Ht]. split; [done|]. intros s. apply (carried_same valid h s g (v :: s)). intros t. apply Ht.
Qed.
End results.

(** * Stacks with terminal exclusions *)

(** Sharing an allocation does not change the outcome of the comparison. *)
#[export] Instance terminals_disallowed_eq : AccEq TerminalsDisallowed := Accumulator.eq false.

Lemma terminals_disallowed_eq_ok (a b : TerminalsDisallowed) : wf a → wf b → acc_eqb a b = true ↔ a = b.
Proof. intros Ha Hb. by apply eq_ok. Qed.

Section exclusions.
Context {T : Type} `{EqDecision T} {W : Type}.
Context (ptr_eq : ∀ V : Type, V → V → M W bool) (ptr_eq_sound : ∀ (V : Type) (a b : V), twp (ptr_eq V a b) (λ p, p = true → a = b)).
Context (place : ∀ V : Type, T → V → list (T * V) → list (T * V)) (place_perm : ∀ V : Type, place_ok (place V)).

(** Some way of the stack excludes the pair. *)
Definition excluded (g : Upper T TerminalsDisallowed) (s : list T) (p : N * N) : Prop := ∃ a, path g s a ∧ p ∈ pairs_of a.

Definition exclusion_test (p : N * N) (Q : Prop) : acc_test wf.
Proof.
  refine {| holds := λ a, p ∈ pairs_of a → Q |}. intros a b Ha Hb. rewrite pairs_of_merge by done. rewrite elem_of_union. tauto.
Defined.

(** C15: merging any number of parser stacks two by two, round after round, ends
    without a panic, with the stacks of all of them; a pair is excluded on a stack
    of the result exactly when one of them excludes it there. *)
Theorem merge_many_exclusions (items : list (Upper T TerminalsDisallowed)) : Forall (wf_upper wf) items →
  twp (merge_many ptr_eq place items) (λ r, wf_upper wf r ∧
    (∀ s, has_stack r s ↔ ∃ g, g ∈ items ∧ has_stack g s) ∧
    ∀ s p, excluded r s p ↔ ∃ g, g ∈ items ∧ excluded g s p).
Proof using place_perm ptr_eq_sound.
  intros Hw. eapply twp_mono; [by apply (merge_many_ok ptr_eq ptr_eq_sound place place_perm wf terminals_disallowed_eq_ok)|].
  intros r [Hr Ht]. split; [done|]. split.
  - intros s. split.
    + intros [a Ha]. apply (proj2 (Ht (const_test wf (∃ g, g ∈ items ∧ has_stack g s)) s)) with a; [|done]. intros g Hg b Hb. exists g. split; [done|]. by exists b.
    + intros (g & Hg & a & Ha). apply (proj1 (Ht (const_test wf (has_stack r s)) s)) with g a; [|done..]. intros b Hb. by exists b.
  - intros s p. split.
    + intros (a & Ha & Hp). apply (proj2 (Ht (exclusion_test p (∃ g, g ∈ items ∧ excluded g s p)) s)) with a; [|done..].
      intros g Hg b Hb Hpb. exists g. split; [done|]. by exists b.
    + intros (g & Hg & a & Ha & Hp). apply (proj1 (Ht (exclusion_test p (excluded r s p)) s)) with g a; [|done..]. intros b Hb Hpb. by exists b.
Qed.
End exclusions.

(** * Examples *)

(** A run in which no two pointers are equal, and maps in insertion order. *)
Definition no_sharing (V : Type) (a b : V) : M () bool := ret false.
Definition append_entry (V : Type) (key : N) (value : V) (l : list (N * V)) : list (N * V) := l ++ [(key, value)].

Lemma no_sharing_sound (V : Type) (a b : V) : twp (no_sharing V a b) (λ p, p = true → a = b).
Proof. by apply twp_ret. Qed.

Lemma append_entry_perm (V : Type) : place_ok (append_entry V).
Proof. intros k v l. unfold append_entry. by rewrite Permutation_app_comm. Qed.

Definition run {B} (m : M () B) : option B := fst <$> m tt.
Definition single (values : list N) (acc : TerminalsDisallowed) : Upper N TerminalsDisallowed :=
  default gss_empty (run (from_single_stack no_sharing values acc)).

Definition left_stack := single [1; 2; 3] (with_insert new 0 5).
Definition right_stack := single [1; 4] (with_insert new 0 6).
Definition both_stacks := default gss_empty (run (gss_merge no_sharing append_entry left_stack right_stack)).

Example both_stacks_depth : upper_max_depth both_stacks = 3.
Proof. vm_compute. reflexivity. Qed.

Example both_stacks_ways : contains_empty_stack both_stacks = false.
Proof. vm_compute. reflexivity. Qed.

Lemma sample_built : built_gss no_sharing append_entry wf left_stack ∧ built_gss no_sharing append_entry wf right_stack ∧
  built_gss no_sharing append_entry wf both_stacks.
Proof.
  assert (Hs : ∀ values acc, lenN values ≤ u32_max → wf acc → built_gss no_sharing append_entry wf (single values acc)).
  { intros values acc Hl Ha. unfold single, run. destruct (from_single_stack_ok no_sharing no_sharing_sound wf values acc Ha Hl tt) as (g & w & Hg & _).
    rewrite Hg. cbn. eapply built_single; [exact Hl|exact Ha|]. by exists tt, w. }
  assert (Hl : built_gss no_sharing append_entry wf left_stack) by (apply Hs; [done|by apply with_insert_ok]).
  assert (Hr : built_gss no_sharing append_entry wf right_stack) by (apply Hs; [done|by apply with_insert_ok]).
  split; [done|]. split; [done|]. eapply built_merge; [exact Hl|exact Hr|]. exists tt, tt. vm_compute. reflexivity.
Qed.

Lemma built_gss_wf_witness : gss_is_empty both_stacks = false ∧ wf_upper wf both_stacks.
Proof.
  split; [vm_compute; reflexivity|].
  apply (built_gss_wf no_sharing no_sharing_sound append_entry append_entry_perm wf terminals_disallowed_eq_ok). apply sample_built.
Defined.

Lemma single_ok values acc : lenN values ≤ u32_max → wf acc →
  wf_upper wf (single values acc) ∧ ∀ s a, path (single values acc) s a ↔ s = rev values ∧ a = acc.
Proof.
  intros Hl Ha. unfold single, run. by destruct (from_single_stack_ok no_sharing no_sharing_sound wf values acc Ha Hl tt) as (g & w & -> & Hw & Hp).
Qed.

Lemma left_stack_ok : wf_upper wf left_stack ∧ has_stack left_stack [3; 2; 1].
Proof. destruct (single_ok [1; 2; 3] (with_insert new 0 5)) as [H1 H2]; [done|by apply with_insert_ok|]. split; [done|]. eexists. by apply H2. Qed.

Lemma right_stack_ok : wf_upper wf right_stack ∧ has_stack right_stack [4; 1].
Proof. destruct (single_ok [1; 4] (with_insert new 0 6)) as [H1 H2]; [done|by apply with_insert_ok|]. split; [done|]. eexists. by apply H2. Qed.

Lemma both_stacks_ok : wf_upper wf both_stacks ∧ has_stack both_stacks [3; 2; 1] ∧ has_stack both_stacks [4; 1].
Proof.
  destruct left_stack_ok as [Hl Hsl]. destruct right_stack_ok as [Hr Hsr].
  destruct (gss_merge_ok no_sharing no_sharing_sound append_entry append_entry_perm wf terminals_disallowed_eq_ok _ _ Hl Hr tt) as (r & w & Hrun & Hc).
  unfold both_stacks, run. rewrite Hrun. split; [apply Hc|]. split; eapply (carries_contains wf left_stack right_stack r); eauto.
Qed.

(** The result of a total run, with what is known of it. *)
Lemma twp_run {B} (m : M () B) (P : B → Prop) : twp m P → ∃ b, run m = Some b ∧ P b.
Proof. intros Hm. destruct (Hm tt) as (b & w & Hw & Hb). exists b. unfold run. by rewrite Hw. Qed.

Lemma gss_merge_correct_witness :
  ∃ r, run (gss_merge no_sharing append_entry left_stack right_stack) = Some r ∧ has_stack r [3; 2; 1] ∧ has_stack r [4; 1].
Proof.
  destruct left_stack_ok as [Hl Hsl]. destruct right_stack_ok as [Hr Hsr].
  destruct (twp_run _ _ (gss_merge_correct no_sharing no_sharing_sound append_entry append_entry_perm wf terminals_disallowed_eq_ok
    left_stack right_stack Hl Hr)) as (r & Hrun & _ & Hs & _).
  exists r. split; [exact Hrun|]. split; apply Hs; [by left|by right].
Defined.

Lemma popn_correct_witness :
  ∃ r, run (popn no_sharing append_entry true both_stacks 2) = Some r ∧ has_stack r [1] ∧ has_stack r [].
Proof.
  destruct both_stacks_ok as (Hb & H1 & H2).
  destruct (twp_run _ _ (popn_correct no_sharing no_sharing_sound append_entry append_entry_perm wf terminals_disallowed_eq_ok
    true both_stacks 2 Hb eq_refl)) as (r & Hrun & _ & Hs & _).
  exists r. split; [exact Hrun|]. split; apply Hs; [by exists [3; 2; 1]|by exists [4; 1]].
Defined.

Lemma push_pop_roundtrip_witness :
  ∃ r, run (popn no_sharing append_entry false (gss_push append_entry both_stacks 9) 1) = Some r ∧ has_stack r [4; 1].
Proof.
  destruct both_stacks_ok as (Hb & H1 & H2).
  destruct (twp_run _ _ (push_pop_roundtrip no_sharing no_sharing_sound append_entry append_entry_perm wf terminals_disallowed_eq_ok
    false both_stacks 9 Hb eq_refl)) as (r & Hrun & _ & Hs).
  exists r. split; [exact Hrun|]. by apply Hs.
Defined.

Lemma isolate_correct_witness :
  ∃ r, run (isolate no_sharing append_entry both_stacks (Some 4)) = Some r ∧ has_stack r [4; 1] ∧ ¬ has_stack r [3; 2; 1].
Proof.
  destruct both_stacks_ok as (Hb & H1 & [a Ha]).
  destruct (twp_run _ _ (isolate_correct no_sharing no_sharing_sound append_entry append_entry_perm wf terminals_disallowed_eq_ok
    both_stacks (Some 4) Hb)) as (r & Hrun & _ & Hs).
  exists r. split; [exact Hrun|]. split; [exists a; by apply Hs|]. by intros [b [_ ?]%Hs].
Defined.

Lemma pop_top_value_correct_witness :
  ∃ p, run (pop_both_ways no_sharing append_entry true both_stacks 4) = Some p ∧ has_stack p.1 [1] ∧ has_stack p.2 [1].
Proof.
  destruct both_stacks_ok as (Hb & _ & H2).
  destruct (twp_run _ _ (pop_top_value_correct no_sharing no_sharing_sound append_entry append_entry_perm wf terminals_disallowed_eq_ok
    true both_stacks 4 Hb)) as (p & Hrun & _ & _ & Hs).
  exists p. split; [exact Hrun|]. destruct (Hs [1]) as (Hf & Hsl & _). split; [by apply Hf|by apply Hsl].
Defined.

Lemma for_each_decomposed_correct_witness :
  ∃ out, run (for_each_decomposed no_sharing append_entry both_stacks) = Some out ∧ 3 ∈ out.*1 ∧ 4 ∈ out.*1.
Proof.
  destruct both_stacks_ok as (Hb & H1 & H2).
  destruct (twp_run _ _ (for_each_decomposed_correct no_sharing no_sharing_sound append_entry append_entry_perm wf terminals_disallowed_eq_ok
    both_stacks Hb)) as (out & Hrun & _ & Hs & _).
  exists out. split; [exact Hrun|]. split; [by apply (Hs 3 [2; 1])|by apply (Hs 4 [1])].
Defined.

Lemma merge_many_exclusions_witness :
  ∃ r, run (merge_many no_sharing append_entry [left_stack; right_stack; left_stack]) = Some r ∧ has_stack r [4; 1].
Proof.
  destruct left_stack_ok as [Hl _]. destruct right_stack_ok as [Hr Hsr].
  destruct (twp_run _ _ (merge_many_exclusions no_sharing no_sharing_sound append_entry append_entry_perm
    [left_stack; right_stack; left_stack] (Forall_cons_2 _ _ _ Hl (Forall_cons_2 _ _ _ Hr (Forall_cons_2 _ _ _ Hl (Forall_nil_2 _))))))
    as (r & Hrun & _ & Hs & _).
  exists r. split; [exact Hrun|]. apply Hs. exists right_stack. split; [right; left|done].
Defined.
