(* ===== verification/VirtualStack.v ===== *)
(** The vectors inside the segments of the parser stack
    (crates/glrmask-glr/src/ds/stack_vecs) and the top of a parser stack as one
    flat stack ([VirtualStack] of ds/leveled_gss.rs). *)

From S2P Require Import Prelude Accumulator AccumulatorCorrect CompactMap Gss GssKit GssLower GssUpper GssOps GssResults.

(** * Windows on shared buffers

    [ArcArrayVec] is a window on a buffer that other vectors may share; pushing
    writes to the buffer. The store has the buffers by address and the live
    vectors by name, so that sharing is visible; a name that is assigned drops
    the vector it held. *)

Module ArcArrayVec.
Record t := mk { data : N; nw : N }.

Section vec.
Context {T : Type} `{EqDecision T}.

Record store := Store { arrays : gmap N (list T); owners : gmap N t }.
Implicit Types (st : store) (x y z : N).

Definition strong_count st (d : N) : nat := size (filter (λ e : N * t, data e.2 = d) (owners st)).

Definition get st x : option (t * list T) := h ← owners st !! x; a ← arrays st !! data h; Some (h, a).

(** [&self.data[..self.nw]]; out of range it panics. *)
Definition as_slice st x : option (list T) :=
  '(h, a) ← get st x; if nw h <=? lenN a then Some (take (N.to_nat (nw h)) a) else None.

Definition len st x : option N := nw <$> owners st !! x.
Definition is_empty st x : option bool := (λ n, n =? 0) <$> len st x.

Definition last_value st x : option (option T) :=
  '(h, a) ← get st x; if nw h =? 0 then Some None else v ← a.[nw h - 1]; Some (Some v).

Definition assign st x (h : t) : store := Store (arrays st) (<[x := h]> (owners st)).

(** [x = from_vec(v)] *)
Definition from_vec st x (v : list T) : store :=
  let d := fresh (dom (arrays st)) in Store (<[d := v]> (arrays st)) (<[x := mk d (lenN v)]> (owners st)).

Definition new st x : store := from_vec st x [].
Definition unit st x (val : T) : store := from_vec st x [val].

(** [y = x.clone()] *)
Definition clone st x y : option store := h ← owners st !! x; Some (assign st y h).

(** [y = x.take(n)] *)
Definition take_ st x (n : N) y : option store := h ← owners st !! x; Some (assign st y (mk (data h) (N.min n (nw h)))).

Definition truncate st x (new_len : N) : option store := h ← owners st !! x; Some (assign st x (mk (data h) (N.min new_len (nw h)))).

(** [z = x.append(&y)] *)
Definition append st x y z : option store :=
  hx ← owners st !! x;
  hy ← owners st !! y;
  if nw hy =? 0 then Some (assign st z hx)
  else if nw hx =? 0 then Some (assign st z hy)
  else v ← as_slice st x; w ← as_slice st y; Some (from_vec st z (v ++ w)).

(** [try_append] of the trait. *)
Definition try_append st x y z : option (store * bool) := st ← append st x y z; Some (st, true).

Definition try_push st x (val : T) : option (store * bool) :=
  '(h, a) ← get st x;
  if negb (bool_decide (strong_count st (data h) = 1%nat)) then Some (st, false)
  else
    let a := if nw h <? lenN a then take (N.to_nat (nw h)) a else a in
    let a := a ++ [val] in
    Some (Store (<[data h := a]> (arrays st)) (<[x := mk (data h) (lenN a)]> (owners st)), true).

Definition try_harder_push st x (val : T) : option (store * bool) :=
  '(h, a) ← get st x;
  if negb (bool_decide (strong_count st (data h) = 1%nat)) then
    v ← as_slice st x; Some (from_vec st x (v ++ [val]), true)
  else try_push st x val.

Definition eq st x y : option bool :=
  hx ← owners st !! x;
  hy ← owners st !! y;
  if bool_decide (data hx = data hy) && (nw hx =? nw hy) then Some true
  else v ← as_slice st x; w ← as_slice st y; Some (bool_decide (v = w)).

(** ** The windows as lists *)

(** Every live vector has a buffer that is long enough. *)
Definition wf st : Prop := ∀ x h, owners st !! x = Some h → ∃ a, arrays st !! data h = Some a ∧ nw h ≤ lenN a.

(** [st'] has [v] at [x] and what [st] had at all other names. *)
Definition updates st x (v : list T) st' : Prop :=
  wf st' ∧ as_slice st' x = Some v ∧ ∀ y, y ≠ x → as_slice st' y = as_slice st y.

Lemma wf_slice st x v : wf st → as_slice st x = Some v ↔
  ∃ h a, owners st !! x = Some h ∧ arrays st !! data h = Some a ∧ nw h ≤ lenN a ∧ v = take (N.to_nat (nw h)) a.
Proof using.
  intros Hw. unfold as_slice, get. split.
  - destruct (owners st !! x) as [h|] eqn:Hh; [|done]. cbn. destruct (Hw x h Hh) as (a & Ha & Hn). rewrite Ha. cbn.
    rewrite (proj2 (N.leb_le _ _) Hn). intros [= <-]. eauto 6.
  - intros (h & a & Hh & Ha & Hn & ->). rewrite Hh. cbn. rewrite Ha. cbn. by rewrite (proj2 (N.leb_le _ _) Hn).
Qed.

Lemma slice_length st x v : wf st → as_slice st x = Some v → len st x = Some (lenN v).
Proof using.
  intros Hw (h & a & Hh & _ & Hn & ->)%wf_slice; [|done]. unfold len, lenN in *. rewrite Hh. cbn. rewrite length_take. f_equal. lia.
Qed.

(** Assigning a window on a buffer of the store. *)
Lemma assign_updates st x d n a : wf st → arrays st !! d = Some a → n ≤ lenN a → updates st x (take (N.to_nat n) a) (assign st x (mk d n)).
Proof using.
  intros Hw Ha Hn. split; [|split].
  - intros y h. cbn. destruct (decide (y = x)) as [->|Hne]; [rewrite lookup_insert_eq; intros [= <-]; eauto|].
    rewrite lookup_insert_ne by done. apply Hw.
  - unfold as_slice, get, assign. cbn. rewrite lookup_insert_eq. cbn. rewrite Ha. cbn. by rewrite (proj2 (N.leb_le _ _) Hn).
  - intros y Hy. unfold as_slice, get, assign. cbn. by rewrite lookup_insert_ne.
Qed.

(** Writing a buffer that only [x] has a window on. *)
Lemma write_updates st x d v : wf st → (∀ y h, owners st !! y = Some h → data h = d → y = x) →
  updates st x v (Store (<[d := v]> (arrays st)) (<[x := mk d (lenN v)]> (owners st))).
Proof using.
  intros Hw Hsole. split; [|split].
  - intros y h. cbn. destruct (decide (y = x)) as [->|Hne].
    { rewrite lookup_insert_eq. intros [= <-]. cbn. rewrite lookup_insert_eq. eauto. }
    rewrite lookup_insert_ne by done. intros Hh. destruct (decide (data h = d)) as [Hd|Hd]; [by destruct (Hne (Hsole y h Hh Hd))|].
    rewrite lookup_insert_ne by done. by eapply Hw.
  - unfold as_slice, get. cbn. rewrite lookup_insert_eq. cbn. rewrite lookup_insert_eq. cbn. rewrite N.leb_refl. unfold lenN. by rewrite Nat2N.id, firstn_all.
  - intros y Hy. unfold as_slice, get. cbn. rewrite lookup_insert_ne by done. destruct (owners st !! y) as [h|] eqn:Hh; [|done]. cbn.
    rewrite lookup_insert_ne; [done|]. intros Hd. by destruct (Hy (Hsole y h Hh (eq_sym Hd))).
Qed.

Lemma from_vec_updates st x v : wf st → updates st x v (from_vec st x v).
Proof using.
  intros Hw. apply write_updates; [done|]. intros y h Hh Hd. destruct (Hw y h Hh) as (a & Ha & _). rewrite Hd in Ha.
  destruct (is_fresh (dom (arrays st))). by apply elem_of_dom_2 in Ha.
Qed.

(** A count of one means that no other vector has the buffer. *)
Lemma sole_owner_ok st x h : owners st !! x = Some h → strong_count st (data h) = 1%nat →
  ∀ y h', owners st !! y = Some h' → data h' = data h → y = x.
Proof using.
  unfold strong_count. intros Hx Hone y h' Hy Hd. set (m := filter (λ e : N * t, data e.2 = data h) (owners st)) in *.
  assert (H1 : m !! x = Some h) by (by apply map_lookup_filter_Some). assert (H2 : m !! y = Some h') by (by apply map_lookup_filter_Some).
  destruct (decide (y = x)) as [|Hne]; [done|]. exfalso.
  assert (Hsub : ({[x; y]} : gset N) ⊆ dom m).
  { intros z [Hz|Hz]%elem_of_union; apply elem_of_singleton in Hz as ->; by eapply elem_of_dom_2. }
  apply subseteq_size in Hsub. rewrite size_dom, Hone, size_union, !size_singleton in Hsub; [lia|set_solver].
Qed.

Lemma try_push_updates st x v val : wf st → as_slice st x = Some v →
  ∃ st' b, try_push st x val = Some (st', b) ∧ if (b : bool) then updates st x (v ++ [val]) st' else st' = st.
Proof using.
  intros Hw Hx. pose proof Hx as (h & a & Hh & Ha & Hn & ->)%wf_slice; [|done]. unfold try_push, get. rewrite Hh. cbn. rewrite Ha. cbn.
  destruct (bool_decide_reflect (strong_count st (data h) = 1%nat)) as [Hone|]; cbn [negb]; [|by eexists _, false].
  assert (Htake : (if nw h <? lenN a then take (N.to_nat (nw h)) a else a) = take (N.to_nat (nw h)) a).
  { destruct (N.ltb_spec (nw h) (lenN a)); [done|]. symmetry. apply take_ge. unfold lenN in *. lia. }
  rewrite Htake. eexists _, true. split; [done|]. apply write_updates; [done|]. by apply sole_owner_ok.
Qed.

Lemma eq_windows st x y v w : wf st → as_slice st x = Some v → as_slice st y = Some w → eq st x y = Some (bool_decide (v = w)).
Proof using.
  intros Hw Hx Hy. unfold eq. pose proof Hx as (h & a & Hh & Ha & _ & Hv)%wf_slice; [|done]. pose proof Hy as (h' & a' & Hh' & Ha' & _ & Hv')%wf_slice; [|done].
  rewrite Hh, Hh', Hx, Hy. cbn. destruct (bool_decide_reflect (data h = data h')) as [Hd|]; [|done]. destruct (N.eqb_spec (nw h) (nw h')) as [Hn|]; [|done].
  cbn. rewrite Hd, Ha' in Ha. injection Ha as <-. by rewrite bool_decide_true by (by rewrite Hv, Hv', Hn).
Qed.

Lemma append_updates st x y z v w : wf st → as_slice st x = Some v → as_slice st y = Some w →
  ∃ st', append st x y z = Some st' ∧ updates st z (v ++ w) st'.
Proof using.
  intros Hw Hx Hy. pose proof Hx as (h & a & Hh & Ha & Hn & Hv)%wf_slice; [|done]. pose proof Hy as (h' & a' & Hh' & Ha' & Hn' & Hv')%wf_slice; [|done].
  unfold append. rewrite Hh, Hh', Hx, Hy. cbn. destruct (N.eqb_spec (nw h') 0) as [H0|_]; [|destruct (N.eqb_spec (nw h) 0) as [H0|_]]; eexists; (split; [done|]).
  - assert (w = []) as -> by (by rewrite Hv', H0). rewrite app_nil_r, Hv. destruct h as [d n]. by apply assign_updates.
  - assert (v = []) as -> by (by rewrite Hv, H0). cbn [app]. rewrite Hv'. destruct h' as [d n]. by apply assign_updates.
  - by apply from_vec_updates.
Qed.

Lemma last_value_ok st x v : wf st → as_slice st x = Some v → last_value st x = Some (last v).
Proof using.
  intros Hw (h & a & Hh & Ha & Hn & ->)%wf_slice; [|done]. unfold last_value, get. rewrite Hh. cbn. rewrite Ha. cbn.
  destruct (N.eqb_spec (nw h) 0) as [->|H0]; [done|]. rewrite nthN_lookup. unfold lenN in *.
  destruct (lookup_lt_is_Some_2 a (N.to_nat (nw h - 1))) as [val Hval]; [lia|]. rewrite Hval. cbn. f_equal.
  rewrite last_lookup, length_take, lookup_take_lt by lia. rewrite <-Hval. f_equal. lia.
Qed.

Lemma take_updates st x z n v : wf st → as_slice st x = Some v →
  ∃ h, owners st !! x = Some h ∧ updates st z (take (N.to_nat n) v) (assign st z (mk (data h) (N.min n (nw h)))).
Proof using.
  intros Hw (h & a & Hh & Ha & Hn & ->)%wf_slice; [|done]. exists h. split; [done|]. rewrite take_take.
  replace (N.to_nat n `min` N.to_nat (nw h))%nat with (N.to_nat (N.min n (nw h))) by lia. apply assign_updates; [done|done|lia].
Qed.

(** C24: windows on shared buffers behave as lists of their own: every operation
    has the result it has on lists, the vectors under other names keep their
    contents although the buffer may be theirs, and a push that would have to
    write a buffer with another window on it is refused or copies. *)
Theorem arc_array_refines_lists st x y z v w val n : wf st → as_slice st x = Some v → as_slice st y = Some w →
  updates st z v (from_vec st z v) ∧ len st x = Some (lenN v) ∧ last_value st x = Some (last v) ∧
  eq st x y = Some (bool_decide (v = w)) ∧
  (∃ st', clone st x z = Some st' ∧ updates st z v st') ∧
  (∃ st', take_ st x n z = Some st' ∧ updates st z (take (N.to_nat n) v) st') ∧
  (∃ st', truncate st x n = Some st' ∧ updates st x (take (N.to_nat n) v) st') ∧
  (∃ st', try_append st x y z = Some (st', true) ∧ updates st z (v ++ w) st') ∧
  (∃ st' b, try_push st x val = Some (st', b) ∧ if (b : bool) then updates st x (v ++ [val]) st' else st' = st) ∧
  ∃ st', try_harder_push st x val = Some (st', true) ∧ updates st x (v ++ [val]) st'.
Proof using.
  intros Hw Hx Hy. pose proof Hx as (h & a & Hh & Ha & Hn & Hv)%wf_slice; [|done].
  split; [by apply from_vec_updates|]. split; [by apply slice_length|]. split; [by apply last_value_ok|]. split; [by apply eq_windows|].
  destruct (take_updates st x z (nw h) v Hw Hx) as (h1 & Hh1 & Hu1). destruct (take_updates st x z n v Hw Hx) as (h2 & Hh2 & Hu2).
  destruct (take_updates st x x n v Hw Hx) as (h3 & Hh3 & Hu3). assert (h1 = h ∧ h2 = h ∧ h3 = h) as (-> & -> & ->) by naive_solver.
  split; [|split; [|split; [|split; [|split]]]].
  - eexists. unfold clone. rewrite Hh. cbn. split; [done|]. rewrite Hv in Hu1 |- *. rewrite take_take, Nat.min_id, N.min_id in Hu1. by destruct h.
  - eexists. unfold take_. rewrite Hh. by split.
  - eexists. unfold truncate. rewrite Hh. by split.
  - destruct (append_updates st x y z v w Hw Hx Hy) as (st' & Hst & Hu). exists st'. unfold try_append. by rewrite Hst.
  - by apply try_push_updates.
  - unfold try_harder_push, get. rewrite Hh. cbn. rewrite Ha. cbn. destruct (bool_decide_reflect (strong_count st (data h) = 1%nat)) as [Hone|]; cbn [negb].
    + destruct (try_push_updates st x v val Hw Hx) as (st' & b & Hp & Hu). pose proof Hp as Hb. unfold try_push, get in Hb. rewrite Hh in Hb. cbn in Hb.
      rewrite Ha in Hb. cbn in Hb. rewrite bool_decide_true in Hb by done. injection Hb as _ <-. eauto.
    + rewrite Hx. cbn. eexists. split; [done|]. by apply from_vec_updates.
Qed.
End vec.
End ArcArrayVec.

(** * Virtual stacks *)

Record VirtualStack (T A : Type) := VS { values : list T; next : Lower T; acc : A; pending_top : option T }.
#[global] Arguments VS {T A} values next acc pending_top.
#[global] Arguments values {T A} v : rename.
#[global] Arguments next {T A} v : rename.
#[global] Arguments acc {T A} v : rename.
#[global] Arguments pending_top {T A} v : rename.

(** [remaining as isize] *)
Definition as_isize (x : N) : Z := if x <? 9223372036854775808 then Z.of_N x else (Z.of_N x - 18446744073709551616)%Z.

(** The values of a chain of segments from the top, and what is under it. *)
Fixpoint chain {T} (l : Lower T) : list T * Lower T :=
  match l with
  | Segment vs next _ _ => (rev vs ++ (chain next).1, (chain next).2)
  | General _ _ _ => ([], l)
  end.

Section virtual.
Context {T : Type} `{EqDecision T} {W : Type}.
Context (ptr_eq : ∀ V : Type, V → V → M W bool) (place : ∀ V : Type, T → V → list (T * V) → list (T * V)).
Context {A : Type} `{Merge A, AccEq A}.
(** Whether the vector's buffer has one owner, and whether pushing copies a
    shared buffer, which is read once from the environment. *)
Context (sole_owner : M W bool) (eager : bool).
Abbreviation VirtualStack := (VirtualStack T A).
Implicit Types (v base : VirtualStack).

Definition top v : option T := match pending_top v with Some t => Some t | None => last (values v) end.

(** The loop goes down the chain of segments. *)
Fixpoint nth_in_chain (values : list T) (next : Lower T) (remaining : N) : option T :=
  if remaining <? lenN values then (rev values).[remaining]
  else
    match next with
    | Segment vs next _ _ => nth_in_chain vs next (remaining - lenN values)
    | General _ _ _ => None
    end.

Definition top_after_popping v (remaining : N) : option T :=
  match pending_top v with
  | Some top => if remaining =? 0 then Some top else nth_in_chain (values v) (next v) (remaining - 1)
  | None => nth_in_chain (values v) (next v) remaining
  end.

Definition vs_len v : N := lenN (values v) + lower_segments_len (next v) + (if bool_decide (is_Some (pending_top v)) then 1 else 0).

Definition single_top_extension_of v base : option T :=
  if negb (vs_len v =? vs_len base + 1) then None
  else
    let same_below (i : N) : bool :=
      match top_after_popping v (i + 1), top_after_popping base i with
      | Some a, Some b => bool_decide (a = b)
      | _, _ => false
      end in
    if forallb same_below (seqN (N.to_nat (vs_len base))) then top v else None.

Definition parent_of_top v : option T := top_after_popping v 1.

Fixpoint has_hidden_floor_values_below (next : Lower T) : bool :=
  match next with
  | Segment _ next _ _ => has_hidden_floor_values_below next
  | General children _ _ => negb (compact_is_empty children)
  end.
Definition has_hidden_floor_values v : bool := has_hidden_floor_values_below (next v).

(** [None] when the buffer is shared; copying it never fails. *)
Definition try_push (values : list T) (value : T) : M W (option (list T)) :=
  let! sole := sole_owner in
  ret (if (sole : bool) then Some (values ++ [value]) else None).
Definition try_harder_push (values : list T) (value : T) : M W (option (list T)) := ret (Some (values ++ [value])).

Definition realize_push v (value : T) : M W VirtualStack :=
  let! pushed :=
    let! r := try_push (values v) value in
    match r with
    | Some values => ret (Some values)
    | None => if eager then try_harder_push (values v) value else ret None
    end in
  match pushed with
  | Some values => ret (VS values (next v) (acc v) (pending_top v))
  | None => ret (VS [value] (new_segment (values v) (next v)) (acc v) (pending_top v))
  end.

Definition flush_pending v : M W VirtualStack :=
  match pending_top v with
  | Some value => realize_push (VS (values v) (next v) (acc v) None) value
  | None => ret v
  end.

(** The loop of [pop]; [drop_values] cuts the values under the top off. *)
Fixpoint pop_loop (values : list T) (next : Lower T) (remaining : N) : list T * Lower T * N :=
  if remaining =? 0 then (values, next, 0)
  else
    let taken := N.min remaining (lenN values) in
    let values := take (N.to_nat (lenN values - taken)) values in
    let remaining := remaining - taken in
    if remaining =? 0 then (values, next, 0)
    else
      match next with
      | Segment vs next _ _ => pop_loop vs next remaining
      | General _ _ _ => (values, next, remaining)
      end.

Definition vs_pop v (remaining : N) : VirtualStack * N :=
  let '(pending, remaining) :=
    if (0 <? remaining) && bool_decide (is_Some (pending_top v)) then (None, remaining - 1) else (pending_top v, remaining) in
  let '(values, next, remaining) := pop_loop (values v) (next v) remaining in
  let '(values, next) :=
    if bool_decide (values = []) && negb (bool_decide (is_Some pending)) then
      match next with Segment vs next _ _ => (vs, next) | General _ _ _ => (values, next) end
    else (values, next) in
  (VS values next (acc v) pending, remaining).

Definition vs_push v (value : T) : M W VirtualStack :=
  let! v := flush_pending v in
  ret (VS (values v) (next v) (acc v) (Some value)).

Definition replace_top v (value : T) : VirtualStack * bool :=
  match top v with
  | None => (v, false)
  | Some _ =>
      match pending_top v with
      | Some _ => (VS (values v) (next v) (acc v) (Some value), true)
      | None =>
          let len := lenN (values v) in
          if 0 <? len then (VS (take (N.to_nat (len - 1)) (values v)) (next v) (acc v) (Some value), true) else (v, true)
      end
  end.

Definition into_gss v : M W (Upper T A) :=
  let! v := flush_pending v in
  if bool_decide (values v = []) then ret (Interface (next v) (acc v))
  else ret (Interface (new_segment (values v) (next v)) (acc v)).

Definition into_gss_after_popping (partial_segment_pop : bool) v (n : N) : M W (Upper T A) :=
  let! v := flush_pending v in
  let '(v, remaining) := vs_pop v n in
  let! gss := into_gss v in
  if remaining =? 0 then ret gss else popn ptr_eq place partial_segment_pop gss (as_isize remaining).

Definition try_virtual_stack (g : Upper T A) : option VirtualStack :=
  match g with
  | Interface (Segment values next _ _) acc => Some (VS values next acc None)
  | _ => None
  end.
End virtual.

(** * Chains of segments *)

Section chains.
Context {T : Type} `{EqDecision T}.
Implicit Types (l next : Lower T) (values vs : list T).

(** The node under the values may be a segment without values, over a node that
    is not a segment. *)
Definition next_ok l : Prop :=
  match l with
  | Segment vs next d n =>
      wf_lower next ∧ d = lower_max_depth next + lenN vs ∧ d ≤ u32_max ∧ n = lenN vs + lower_segments_len next ∧
      (vs = [] → is_segment next = false)
  | General _ _ _ => wf_lower l
  end.

Lemma wf_next_ok l : wf_lower l → next_ok l.
Proof using. destruct l; [done|]. intros (Hne & ? & ? & ? & ?)%wf_segment_inv. by repeat split. Qed.

(** What [chain] keeps. *)
Definition unchained l : Prop :=
  wf_lower (chain l).2 ∧ is_segment (chain l).2 = false ∧
  lower_max_depth l = lower_max_depth (chain l).2 + lenN (chain l).1 ∧ lower_segments_len l = lenN (chain l).1 ∧
  ∀ s, in_lower l s ↔ ∃ s', s = (chain l).1 ++ s' ∧ in_lower (chain l).2 s'.

Lemma segment_unchained vs next d n : unchained next → d = lower_max_depth next + lenN vs → n = lenN vs + lower_segments_len next →
  unchained (Segment vs next d n).
Proof using.
  intros (H1 & H2 & H3 & H4 & H5) -> ->. unfold unchained. cbn [chain fst snd lower_max_depth lower_segments_len].
  rewrite lenN_app, H3, H4. unfold lenN in *. rewrite length_rev. split; [done|]. split; [done|]. split; [lia|]. split; [lia|].
  intros s. rewrite in_segment_iff. setoid_rewrite H5. setoid_rewrite <-app_assoc. naive_solver.
Qed.

Lemma wf_unchained l : wf_lower l → unchained l.
Proof using.
  induction l as [ch e d|vs next IH d n]; intros Hl.
  - split; [done|]. split; [done|]. split; [cbn; by rewrite N.add_0_r|]. split; [done|]. intros s. cbn. naive_solver.
  - apply wf_segment_inv in Hl as (_ & Hn & Hd & _ & Hs). apply segment_unchained; auto.
Qed.

Lemma next_unchained l : next_ok l → unchained l.
Proof using.
  destruct l as [ch e d|vs next d n]; [apply wf_unchained|]. intros (Hn & Hd & _ & Hs & _). apply segment_unchained; [by apply wf_unchained|done|done].
Qed.

Lemma new_segment_next vs l : next_ok l → lower_max_depth l + lenN vs ≤ u32_max →
  next_ok (new_segment vs l) ∧ (vs ≠ [] → wf_lower (new_segment vs l)) ∧
  (chain (new_segment vs l)).1 = rev vs ++ (chain l).1 ∧ (chain (new_segment vs l)).2 = (chain l).2.
Proof using.
  intros Hl Hd. assert (Hadd : ∀ x y, x + y ≤ u32_max → u32_wrapping_add x (as_u32 y) = x + y).
  { intros x y Hxy. rewrite as_u32_small, u32_wrapping_add_small; unfold u32_max, u32_modulus in *; lia. }
  destruct l as [ch e d|cvs cnext d n]; cbn [new_segment lower_max_depth lower_segments_len] in *.
  - rewrite Hadd by done. cbn [chain fst snd]. split; [by repeat split|]. split; [by constructor|done].
  - destruct Hl as (Hw & -> & Hu & -> & Hne). assert (Hlen : lenN (cvs ++ vs) = lenN cvs + lenN vs) by apply lenN_app.
    rewrite Hadd by lia. split; [|split].
    + repeat split; [done|lia|]. intros [Hc _]%app_eq_nil. by apply Hne.
    + intros Hvs. constructor; [by destruct cvs|done|done|lia|done].
    + cbn [chain fst snd]. by rewrite rev_app_distr, <-app_assoc.
Qed.

Lemma nth_in_chain_ok values next r : nth_in_chain values next r = (rev values ++ (chain next).1).[r].
Proof using.
  revert values r. induction next as [ch e d|vs next IH d n]; intros values r; cbn [nth_in_chain chain fst].
  - rewrite app_nil_r. destruct (N.ltb_spec r (lenN values)); [done|]. symmetry. apply nthN_None. unfold lenN in *. by rewrite length_rev.
  - rewrite IH, !nthN_lookup. unfold lenN. destruct (N.ltb_spec r (N.of_nat (length values))).
    + symmetry. apply lookup_app_l. rewrite length_rev. lia.
    + rewrite (lookup_app_r (rev values)) by (rewrite length_rev; lia). f_equal. rewrite length_rev. lia.
Qed.

(** Cutting values off the top of one vector. *)
Lemma cut_ok values (c : list T) r :
  let taken := N.min r (lenN values) in
  rev (take (N.to_nat (lenN values - taken)) values) ++ c = drop (N.to_nat taken) (rev values ++ c).
Proof using.
  cbv zeta. unfold lenN. rewrite drop_app_le by (rewrite length_rev; lia). f_equal. rewrite skipn_rev. f_equal. f_equal. lia.
Qed.

Lemma pop_loop_ok values next r : next_ok next →
  let p := pop_loop values next r in
  next_ok p.1.2 ∧ rev p.1.1 ++ (chain p.1.2).1 = drop (N.to_nat r) (rev values ++ (chain next).1) ∧ (chain p.1.2).2 = (chain next).2 ∧
  p.2 = r - lenN (rev values ++ (chain next).1).
Proof using.
  assert (Hdone : ∀ values l r, r - N.min r (lenN values) = 0 → next_ok l →
    next_ok l ∧ rev (take (N.to_nat (lenN values - N.min r (lenN values))) values) ++ (chain l).1 = drop (N.to_nat r) (rev values ++ (chain l).1) ∧
    (chain l).2 = (chain l).2 ∧ 0 = r - lenN (rev values ++ (chain l).1)).
  { intros vs l r' Hm Hl. split; [done|]. rewrite cut_ok. split; [f_equal; lia|]. split; [done|]. rewrite lenN_app. unfold lenN in *. rewrite length_rev. lia. }
  revert values r. induction next as [ch e d|vs next IH d n]; intros values r Hok; cbn [pop_loop]; cbv zeta.
  - destruct (N.eqb_spec r 0) as [->|Hr]; [cbn [fst snd]; split; [done|]; split; [done|]; split; [done|lia]|].
    destruct (N.eqb_spec (r - N.min r (lenN values)) 0) as [Hz|Hz]; [by apply Hdone|]. cbn [fst snd chain].
    split; [done|]. rewrite (cut_ok values []), app_nil_r. split; [|split; [done|]].
    + rewrite !drop_ge; [done|..]; unfold lenN in *; rewrite length_rev; lia.
    + unfold lenN in *. rewrite length_rev. lia.
  - destruct (N.eqb_spec r 0) as [->|Hr]; [cbn [fst snd]; split; [done|]; split; [done|]; split; [done|lia]|].
    destruct (N.eqb_spec (r - N.min r (lenN values)) 0) as [Hz|Hz]; [by apply Hdone|]. cbn [chain fst snd].
    destruct Hok as (Hn & _). destruct (IH vs (r - N.min r (lenN values)) (wf_next_ok _ Hn)) as (H1 & H2 & H3 & H4).
    split; [done|]. split; [|split; [done|]].
    + rewrite H2. rewrite (drop_app (rev values)), (drop_ge (rev values)) by (unfold lenN in *; rewrite length_rev; lia). cbn [app]. f_equal. unfold lenN in *. rewrite length_rev. lia.
    + rewrite H4, !lenN_app. unfold lenN in *. rewrite !length_rev. lia.
Qed.
End chains.

(** * What a virtual stack stands for *)

Section correct.
Context {T : Type} `{EqDecision T} {W : Type}.
Context (ptr_eq : ∀ V : Type, V → V → M W bool) (ptr_eq_sound : ∀ (V : Type) (a b : V), twp (ptr_eq V a b) (λ p, p = true → a = b)).
Context (place : ∀ V : Type, T → V → list (T * V) → list (T * V)) (place_perm : ∀ V : Type, place_ok (place V)).
Context {A : Type} `{Merge A, AccEq A} (valid : A → Prop) `{!MergeLaws A valid}.
Context (acc_eqb_spec : ∀ a b, valid a → valid b → acc_eqb a b = true ↔ a = b).
Context (sole_owner : M W bool) (sole_owner_total : twp sole_owner (λ _, True)) (eager : bool).
Abbreviation VirtualStack := (VirtualStack T A).
Implicit Types (v base : VirtualStack).

Definition pending_list (p : option T) : list T := match p with Some t => [t] | None => [] end.

(** The values that show, from the top, and the node under them. *)
Definition visible v : list T := pending_list (pending_top v) ++ rev (values v) ++ (chain (next v)).1.
Definition floor v : Lower T := (chain (next v)).2.

Definition wf_vs v : Prop :=
  next_ok (next v) ∧ valid (acc v) ∧ lower_max_depth (floor v) + lenN (visible v) ≤ u32_max ∧
  (values v = [] → pending_top v = None → is_segment (next v) = false).

(** [v'] shows [vs] over the floor of [v]. *)
Definition shows v (vs : list T) v' : Prop := wf_vs v' ∧ visible v' = vs ∧ floor v' = floor v ∧ acc v' = acc v.

Lemma next_depth v : next_ok (next v) → lower_max_depth (floor v) + lenN (visible v) ≤ u32_max → lower_max_depth (next v) + lenN (values v) ≤ u32_max.
Proof using.
  clear acc_eqb_spec. intros Hn Hd. destruct (next_unchained _ Hn) as (_ & _ & Hdep & _). rewrite Hdep. unfold visible, floor in Hd. rewrite !lenN_app in Hd.
  unfold lenN in *. rewrite length_rev in Hd. lia.
Qed.

Lemma realize_push_ok v x : next_ok (next v) → valid (acc v) → pending_top v = None → lower_max_depth (floor v) + lenN (visible v) < u32_max →
  twp (realize_push sole_owner eager v x) (λ v', shows v (x :: visible v) v' ∧ pending_top v' = None ∧ values v' ≠ []).
Proof using sole_owner_total.
  clear acc_eqb_spec. intros Hn Ha Hp Hlt. assert (Hd : lower_max_depth (next v) + lenN (values v) ≤ u32_max) by (apply next_depth; [done|lia]).
  assert (Hin : ∀ vs l, next_ok l → rev vs ++ (chain l).1 = x :: visible v → (chain l).2 = floor v → vs ≠ [] →
    shows v (x :: visible v) (VS vs l (acc v) (pending_top v)) ∧ pending_top v = None ∧ vs ≠ []).
  { intros vs l Hl Hvis Hfl Hne. rewrite Hp. split; [|done]. unfold shows, wf_vs, visible at 1 2, floor at 1 2. cbn. rewrite Hvis, Hfl. split; [|done].
    split; [done|]. split; [done|]. split; [unfold lenN in *; cbn [length]; lia|done]. }
  assert (Hsnoc : rev (values v ++ [x]) ++ (chain (next v)).1 = x :: visible v).
  { rewrite rev_app_distr. unfold visible. by rewrite Hp. }
  unfold realize_push. apply twp_bind. eapply twp_mono with (P := λ r, r = Some (values v ++ [x]) ∨ r = None).
  { unfold try_push. apply twp_bind, twp_bind. eapply twp_mono; [apply sole_owner_total|]. intros sole _. apply twp_ret.
    destruct sole; [apply twp_ret; by left|]. destruct eager; apply twp_ret; auto. }
  intros r [-> | ->]; apply twp_ret; cbn [pending_top values]; (apply Hin; [|try done..]).
  - done.
  - by destruct (values v).
  - by apply new_segment_next.
  - destruct (new_segment_next (values v) (next v) Hn Hd) as (_ & _ & -> & _). unfold visible. by rewrite Hp.
  - by apply new_segment_next.
Qed.

Lemma flush_pending_ok v : wf_vs v → twp (flush_pending sole_owner eager v) (λ v', shows v (visible v) v' ∧ pending_top v' = None).
Proof using sole_owner_total.
  intros Hv. pose proof Hv as (Hn & Ha & Hd & He). unfold flush_pending. destruct (pending_top v) as [x|] eqn:Hp; [|by apply twp_ret].
  set (v0 := VS (values v) (next v) (acc v) None). assert (Hvis : visible v = x :: visible v0) by (unfold visible; by rewrite Hp).
  eapply twp_mono; [apply (realize_push_ok v0); [done|done|done|]|].
  - change (floor v0) with (floor v). rewrite Hvis in Hd. unfold lenN in *. cbn [length] in Hd. lia.
  - intros v' (Hs & Hp' & _). rewrite Hvis. by split.
Qed.

Lemma vs_push_ok v x : wf_vs v → lower_max_depth (floor v) + lenN (visible v) < u32_max →
  twp (vs_push sole_owner eager v x) (shows v (x :: visible v)).
Proof using sole_owner_total.
  intros Hv Hlt. unfold vs_push. apply twp_bind. eapply twp_mono; [by apply flush_pending_ok|]. intros v' [((Hn & Ha & Hd & He) & Hvis & Hfl & Hacc) Hp].
  apply twp_ret. assert (Hvis' : visible (VS (values v') (next v') (acc v') (Some x)) = x :: visible v).
  { rewrite <-Hvis. unfold visible. cbn. by rewrite Hp. }
  unfold shows, wf_vs. rewrite Hvis'. change (floor (VS (values v') (next v') (acc v') (Some x))) with (floor v'). rewrite Hfl. cbn.
  split; [|done]. split; [done|]. split; [done|]. split; [unfold lenN in *; cbn [length]; lia|done].
Qed.

Lemma vs_pop_ok v n : wf_vs v → let '(v', r) := vs_pop v n in shows v (drop (N.to_nat n) (visible v)) v' ∧ r = n - lenN (visible v).
Proof using.
  intros (Hn & Ha & Hd & He). unfold vs_pop.
  destruct (if (0 <? n) && bool_decide (is_Some (pending_top v)) then (None, n - 1) else (pending_top v, n)) as [pending m] eqn:Hpend.
  assert (Hm : drop (N.to_nat n) (visible v) = pending_list pending ++ drop (N.to_nat m) (rev (values v) ++ (chain (next v)).1) ∧
    n - lenN (visible v) = m - lenN (rev (values v) ++ (chain (next v)).1) ∧ (m ≠ 0 → pending = None)).
  { unfold visible. destruct (pending_top v) as [x|]; destruct (N.ltb_spec 0 n) as [H1|H1]; cbn in Hpend; injection Hpend as <- <-; cbn [pending_list app].
    - replace (N.to_nat n) with (S (N.to_nat (n - 1))) by lia. split; [done|]. split; [unfold lenN; cbn [length]; lia|done].
    - assert (n = 0) as -> by lia. split; [done|]. split; [lia|done].
    - done.
    - done. }
  destruct Hm as (Hvis & Hrem & Hnone). pose proof (pop_loop_ok (values v) (next v) m Hn) as Hloop.
  destruct (pop_loop (values v) (next v) m) as [[vs l] r]. cbn [fst snd] in Hloop. destruct Hloop as (Hl & Hc & Hf & Hr).
  assert (Hin : ∀ vs l, next_ok l → rev vs ++ (chain l).1 = drop (N.to_nat m) (rev (values v) ++ (chain (next v)).1) → (chain l).2 = floor v →
    (vs = [] → pending = None → is_segment l = false) → shows v (drop (N.to_nat n) (visible v)) (VS vs l (acc v) pending) ∧ r = n - lenN (visible v)).
  { intros vs' l' Hl' Hc' Hf' He'. split; [|by rewrite Hrem]. unfold shows, wf_vs, visible at 1 2, floor at 1 2. cbn. rewrite Hc', Hf', <-Hvis.
    split; [|done]. split; [done|]. split; [done|]. split; [|done]. unfold lenN in *. rewrite length_drop. lia. }
  clear Hvis Hrem. destruct (bool_decide_reflect (vs = [])) as [->|Hne]; cbn [andb]; [|by apply Hin].
  destruct pending as [x|]; cbn; [by apply Hin|]. destruct l as [ch e d|vs' l d' n']; [by apply Hin|].
  destruct Hl as (Hw & _ & _ & _ & Hempty). apply Hin; [by apply wf_next_ok|by rewrite <-Hc|unfold floor; by rewrite <-Hf|by auto].
Qed.

Lemma nth_visible v k : top_after_popping v k = (visible v).[k].
Proof using.
  unfold top_after_popping, visible. destruct (pending_top v) as [x|]; cbn [pending_list app]; rewrite !nth_in_chain_ok; [|done].
  rewrite !nthN_lookup. destruct (N.eqb_spec k 0) as [->|Hk]; [done|]. replace (N.to_nat k) with (S (N.to_nat (k - 1))) by lia. done.
Qed.

Lemma top_visible v : wf_vs v → top v = head (visible v).
Proof using.
  intros (Hn & _ & _ & He). unfold top, visible. destruct (pending_top v) as [x|] eqn:Hp; [done|]. cbn [pending_list app].
  destruct (values v) as [|x l _] using rev_ind; [|by rewrite last_snoc, rev_app_distr].
  cbn. specialize (He eq_refl eq_refl). by destruct (next v).
Qed.

Lemma vs_len_visible v : wf_vs v → vs_len v = lenN (visible v).
Proof using.
  intros (Hn & _). destruct (next_unchained _ Hn) as (_ & _ & _ & Hs & _). unfold vs_len, visible. rewrite Hs, !lenN_app. unfold lenN. rewrite length_rev.
  destruct (pending_top v); cbn; lia.
Qed.

Lemma replace_top_ok v x : wf_vs v →
  let '(v', b) := replace_top v x in
  match visible v with [] => b = false ∧ v' = v | _ :: vs => b = true ∧ shows v (x :: vs) v' end.
Proof using.
  intros Hv. pose proof Hv as (Hn & Ha & Hd & He). pose proof (top_visible v Hv) as Htop. unfold replace_top. rewrite Htop.
  destruct (visible v) as [|y vs] eqn:Hvis; [done|]. cbn [head].
  assert (Hin : ∀ v', next v' = next v → acc v' = acc v → visible v' = x :: vs → pending_top v' = Some x → true = true ∧ shows v (x :: vs) v').
  { intros v' H1 H2 H3 H4. split; [done|]. unfold shows, wf_vs. assert (Hf : floor v' = floor v) by (unfold floor; by rewrite H1).
    rewrite H1, H2, H3, H4, Hf. split; [|done]. split; [done|]. split; [done|]. split; [|done]. unfold lenN in *. exact Hd. }
  destruct (pending_top v) as [p|] eqn:Hp.
  - apply Hin; [done..| |done]. unfold visible in Hvis |- *. rewrite Hp in Hvis. injection Hvis as _ <-. done.
  - unfold top in Htop. rewrite Hp in Htop. destruct (decide (values v = [])) as [Hnil|Hnil]; [by rewrite Hnil in Htop|].
    destruct (exists_last Hnil) as (l & z & Hvals). rewrite Hvals.
    assert (Hlen : lenN (l ++ [z]) = lenN l + 1) by (by rewrite lenN_app). rewrite Hlen, (proj2 (N.ltb_lt _ _)) by lia.
    replace (lenN l + 1 - 1) with (lenN l) by lia. apply Hin; [done..| |done].
    unfold visible in Hvis |- *. cbn [pending_top values next pending_list app] in *. rewrite Hp, Hvals, rev_app_distr in Hvis. cbn in Hvis. injection Hvis as _ <-.
    unfold lenN. by rewrite Nat2N.id, take_app_length.
Qed.

Lemma extension_ok v base : wf_vs v → wf_vs base → ∀ x, single_top_extension_of v base = Some x ↔ visible v = x :: visible base.
Proof using.
  intros Hv Hb x. unfold single_top_extension_of. rewrite !vs_len_visible by done. destruct (N.eqb_spec (lenN (visible v)) (lenN (visible base) + 1)) as [Hl|Hl]; cbn [negb].
  - rewrite top_visible by done. split.
    + destruct (forallb _ _) eqn:Hall; [|done]. destruct (visible v) as [|y vs] eqn:Hvis; [done|]. cbn [head]. intros [= ->]. f_equal.
      rewrite forallb_forall in Hall. apply list_eq. intros i. destruct (decide (i < length (visible base))%nat) as [Hi|Hi].
      * specialize (Hall (N.of_nat i)). rewrite !nth_visible, Hvis, !nthN_lookup, Nat2N.id, N2Nat.inj_add, Nat2N.id in Hall. rewrite Nat.add_1_r in Hall. cbn [lookup list_lookup] in Hall.
        assert (Hin : In (N.of_nat i) (seqN (N.to_nat (lenN (visible base))))) by (apply list_elem_of_In, elem_of_seqN; unfold lenN; lia). specialize (Hall Hin).
        destruct (vs !! i), (visible base !! i); try done. apply bool_decide_eq_true in Hall. congruence.
      * unfold lenN in Hl. cbn [length] in Hl. rewrite !lookup_ge_None_2 by lia. done.
    + intros Heq. rewrite Heq. cbn [head]. rewrite (proj2 (forallb_forall _ _)); [done|]. intros i Hi%list_elem_of_In%elem_of_seqN. rewrite !nth_visible, Heq, !nthN_lookup, N2Nat.inj_add, Nat.add_1_r.
      destruct (lookup_lt_is_Some_2 (visible base) (N.to_nat i)) as [y Hy]; [unfold lenN in Hi; lia|]. change ((x :: visible base) !! S (N.to_nat i)) with (visible base !! N.to_nat i). rewrite !Hy. by apply bool_decide_eq_true.
  - split; [done|]. intros Heq. rewrite Heq in Hl. unfold lenN in Hl. cbn [length] in Hl. lia.
Qed.

(** [g] has the stacks that [v] stands for. *)
Definition denotes v (g : Upper T A) : Prop :=
  wf_upper valid g ∧ ∀ s a, path g s a ↔ (∃ s', s = visible v ++ s' ∧ in_lower (floor v) s') ∧ a = acc v.

Lemma shows_denotes v v' g : shows v (visible v) v' → denotes v' g → denotes v g.
Proof using. intros (_ & Hvis & Hf & Ha) [Hg Hp]. split; [done|]. intros s a. by rewrite Hp, Hvis, Hf, Ha. Qed.

Lemma into_gss_ok v : wf_vs v → twp (into_gss sole_owner eager v) (denotes v).
Proof using sole_owner_total.
  intros Hv. unfold into_gss. apply twp_bind. eapply twp_mono; [by apply flush_pending_ok|]. intros v' [Hs Hp].
  pose proof Hs as ((Hn & Ha & Hd & He) & _). pose proof (next_depth v' Hn Hd) as Hnd.
  assert (Hin : ∀ l, wf_lower l → (chain l).1 = visible v' → (chain l).2 = floor v' → twp (W:=W) (ret (Interface l (acc v'))) (denotes v)).
  { intros l Hl Hc Hf. apply twp_ret, (shows_denotes v v'); [done|]. split; [by constructor|]. intros s a. rewrite path_interface_iff.
    destruct (wf_unchained l Hl) as (_ & _ & _ & _ & ->). by rewrite Hc, Hf. }
  assert (Hvis : visible v' = rev (values v') ++ (chain (next v')).1) by (unfold visible; by rewrite Hp).
  destruct (bool_decide_reflect (values v' = [])) as [Hnil|Hne].
  - apply Hin; [|by rewrite Hvis, Hnil|done]. specialize (He Hnil Hp). by destruct (next v').
  - destruct (new_segment_next (values v') (next v') Hn Hnd) as (_ & H1 & H2 & H3). apply Hin; [by apply H1|by rewrite H2|by rewrite H3].
Qed.

Lemma as_isize_small x : x < 9223372036854775808 → as_isize x = Z.of_N x.
Proof using. intros Hx. unfold as_isize. by rewrite (proj2 (N.ltb_lt _ _) Hx). Qed.

Lemma into_gss_after_popping_ok (enabled : bool) v n g : wf_vs v → denotes v g → n < 9223372036854775808 →
  twp (into_gss_after_popping ptr_eq place sole_owner eager enabled v n) (popped_upper valid g (Z.of_N n)).
Proof using MergeLaws0 acc_eqb_spec place_perm ptr_eq_sound sole_owner_total.
  intros Hv [_ Hg] Hn. unfold into_gss_after_popping. apply twp_bind. eapply twp_mono; [by apply flush_pending_ok|]. intros v1 [(Hv1 & Hvis1 & Hf1 & Ha1) _].
  pose proof (vs_pop_ok v1 n Hv1) as Hpop. destruct (vs_pop v1 n) as [v2 r]. destruct Hpop as ((Hv2 & Hvis2 & Hf2 & Ha2) & Hr).
  rewrite Hvis1 in Hvis2, Hr. rewrite Hf1 in Hf2. rewrite Ha1 in Ha2.
  apply twp_bind. eapply twp_mono; [by apply into_gss_ok|]. intros g2 [Hg2 Hp2]. rewrite Hvis2, Hf2, Ha2 in Hp2. unfold lenN in Hr.
  destruct (N.eqb_spec r 0) as [Hr0|Hr0].
  - apply twp_ret. split; [done|]. intros t s. unfold left_test, GssUpper.upper_test. setoid_rewrite Hp2. setoid_rewrite Hg.
    assert (Hpops : ∀ s1 s2, pops (Z.of_N n) (visible v ++ s1) s2 ↔ s2 = drop (N.to_nat n) (visible v) ++ s1).
    { intros s1 s2. unfold pops. rewrite length_app. replace (Z.to_nat (Z.of_N n)) with (N.to_nat n) by lia. rewrite drop_app_le by lia. split; [by intros [_ ?]|]. split; [lia|done]. }
    split.
    + intros Hall s' Hs' a [(s1 & -> & Hs1) ->]. apply Hpops in Hs' as ->. apply Hall. split; [eauto|done].
    + intros Hall a [(s1 & -> & Hs1) ->]. apply (Hall (visible v ++ s1)); [by apply Hpops|]. split; [eauto|done].
  - rewrite as_isize_small by lia. eapply twp_mono; [apply (popn_ok ptr_eq ptr_eq_sound place place_perm valid acc_eqb_spec); [done|lia]|].
    intros r' [Hr' Ht]. split; [done|]. intros t s. rewrite Ht. unfold left_test, GssUpper.upper_test. setoid_rewrite Hp2. setoid_rewrite Hg.
    assert (Hlen : (length (visible v) < N.to_nat n)%nat) by lia.
    assert (Hpops : ∀ s1, pops (Z.of_N n) (visible v ++ s1) s ↔ pops (Z.of_N r) s1 s).
    { intros s1. rewrite pops_app by lia. by replace (Z.of_N n - Z.of_nat (length (visible v)))%Z with (Z.of_N r) by lia. }
    rewrite drop_ge by lia. cbn [app]. split.
    + intros Hall s' Hs' a [(s1 & -> & Hs1) ->]. apply (Hall s1); [by apply Hpops|]. split; [eauto|done].
    + intros Hall s' Hs' a [(s1 & -> & Hs1) ->]. apply (Hall (visible v ++ s1)); [by apply Hpops|]. split; [eauto|done].
Qed.

Lemma try_virtual_stack_ok (g : Upper T A) v : wf_upper valid g → try_virtual_stack g = Some v → wf_vs v ∧ denotes v g.
Proof using.
  intros Hg Hv. destruct g as [|[|vs l d n] a]; [done..|]. injection Hv as <-. apply wf_interface_inv in Hg as [Hl Ha]. pose proof (wf_unchained _ Hl) as (_ & _ & Hdep & _ & Hin).
  pose proof (wf_segment_inv _ _ _ _ Hl) as (Hne & Hw & _). split; [split; [|split; [|split]]|split].
  - by apply wf_next_ok.
  - done.
  - unfold floor, visible. cbn in *. rewrite <-Hdep. by apply (wf_depth_bound (Segment vs l d n)).
  - done.
  - by constructor.
  - intros s b. rewrite path_interface_iff. by rewrite Hin.
Qed.

(** C18: a virtual stack of a parser stack stands for the same stacks, and
    whatever the sharing of buffers, its operations act on the values that show
    as on a list over the same floor: reading, pushing, popping as far as values
    show, replacing the top, the length and the comparison with a shorter stack;
    turning it back gives the stacks it stands for. None of them panics. *)
Theorem virtual_stack_refines v x n :
  wf_vs v → lower_max_depth (floor v) + lenN (visible v) < u32_max →
  (∀ k, top_after_popping v k = (visible v).[k]) ∧ top v = head (visible v) ∧ vs_len v = lenN (visible v) ∧
  (∀ base y, wf_vs base → single_top_extension_of v base = Some y ↔ visible v = y :: visible base) ∧
  twp (vs_push sole_owner eager v x) (shows v (x :: visible v)) ∧
  (shows v (drop (N.to_nat n) (visible v)) (vs_pop v n).1 ∧ (vs_pop v n).2 = n - lenN (visible v)) ∧
  match visible v with
  | [] => replace_top v x = (v, false)
  | _ :: vs => ∃ v', replace_top v x = (v', true) ∧ shows v (x :: vs) v'
  end ∧
  twp (into_gss sole_owner eager v) (denotes v) ∧
  (∀ g v', wf_upper valid g → try_virtual_stack g = Some v' → wf_vs v' ∧ denotes v' g).
Proof using sole_owner_total.
  intros Hv Hlt. split; [intros k; apply nth_visible|]. split; [by apply top_visible|]. split; [by apply vs_len_visible|].
  split; [intros base y Hb; by apply extension_ok|]. split; [by apply vs_push_ok|]. split; [|split; [|split; [by apply into_gss_ok|apply try_virtual_stack_ok]]].
  - pose proof (vs_pop_ok v n Hv) as Hpop. by destruct (vs_pop v n).
  - pose proof (replace_top_ok v x Hv) as Hr. destruct (replace_top v x) as [v' b]. destruct (visible v); [by destruct Hr as [-> ->]|]. destruct Hr as [-> Hr]. eauto.
Qed.

(** C19: popping through the virtual stack, and through the parser stack where
    no value shows any more, is popping the parser stack it stands for: both have
    the stacks that remain, and every property that merging preserves holds of a
    stack of one exactly when it holds in the other. *)
Theorem virtual_stack_popping (enabled : bool) v n g : wf_vs v → denotes v g → 0 < n → n < 9223372036854775808 →
  twp (into_gss_after_popping ptr_eq place sole_owner eager enabled v n) (λ r1,
    twp (popn ptr_eq place enabled g (Z.of_N n)) (λ r2, wf_upper valid r1 ∧ wf_upper valid r2 ∧
      ∀ (t : acc_test valid) s, (∀ a, path r1 s a → holds valid t a) ↔ ∀ a, path r2 s a → holds valid t a)).
Proof using MergeLaws0 acc_eqb_spec place_perm ptr_eq_sound sole_owner_total.
  intros Hv Hg Hpos Hn. eapply twp_mono; [by apply into_gss_after_popping_ok|]. intros r1 [H1 T1].
  eapply twp_mono; [apply (popn_ok ptr_eq ptr_eq_sound place place_perm valid acc_eqb_spec); [apply Hg|lia]|].
  intros r2 [H2 T2]. split; [done|]. split; [done|]. intros t s. specialize (T1 t s). specialize (T2 t s). unfold GssUpper.upper_test at 1 in T1. unfold GssUpper.upper_test at 1 in T2.
  by rewrite T1, T2.
Qed.
End correct.

(** * Examples *)

(** A vector and a clone of it: neither can be pushed to in place. *)
Definition sample_store : ArcArrayVec.store :=
  let st := ArcArrayVec.from_vec (ArcArrayVec.Store ∅ ∅) 0 [10; 20; 30] in
  default st (ArcArrayVec.take_ st 0 2 1).

Example sample_store_shared : snd <$> ArcArrayVec.try_push sample_store 0 40 = Some false.
Proof. vm_compute. reflexivity. Qed.

Lemma sample_store_ok : ArcArrayVec.wf sample_store ∧
  ArcArrayVec.as_slice sample_store 0 = Some [10; 20; 30] ∧ ArcArrayVec.as_slice sample_store 1 = Some [10; 20].
Proof.
  assert (He : ArcArrayVec.wf (T:=N) (ArcArrayVec.Store ∅ ∅)) by (intros x h; cbn; by rewrite lookup_empty).
  destruct (ArcArrayVec.from_vec_updates _ 0 [10; 20; 30] He) as (H1 & H2 & _).
  destruct (ArcArrayVec.take_updates _ 0 1 2 _ H1 H2) as (h & Hh & H3 & H4 & H5).
  unfold sample_store, ArcArrayVec.take_. rewrite Hh. cbn. split; [done|]. split; [by rewrite H5|done].
Qed.

Lemma arc_array_refines_lists_witness :
  ∃ st', ArcArrayVec.try_harder_push sample_store 1 50 = Some (st', true) ∧
    ArcArrayVec.as_slice st' 1 = Some [10; 20; 50] ∧ ArcArrayVec.as_slice st' 0 = Some [10; 20; 30].
Proof.
  destruct sample_store_ok as (Hw & H0 & H1).
  destruct (ArcArrayVec.arc_array_refines_lists sample_store 1 0 2 _ _ 50 1 Hw H1 H0) as (_ & _ & _ & _ & _ & _ & _ & _ & _ & st' & Hst & _ & Hs & Hr).
  exists st'. split; [exact Hst|]. split; [exact Hs|]. by rewrite Hr.
Defined.

Lemma left_view_ok : ∃ v, try_virtual_stack left_stack = Some v ∧ wf_vs wf v ∧ denotes wf v left_stack ∧
  visible v = [3; 2; 1] ∧ lower_max_depth (floor v) + lenN (visible v) < u32_max.
Proof.
  destruct left_stack_ok as [Hl _]. destruct (try_virtual_stack left_stack) as [v|] eqn:Hv; [|vm_compute in Hv; discriminate].
  exists v. split; [done|]. destruct (try_virtual_stack_ok wf left_stack v Hl Hv) as [H1 H2]. split; [done|]. split; [done|].
  vm_compute in Hv. injection Hv as <-. split; vm_compute; reflexivity.
Qed.

Lemma virtual_stack_refines_witness :
  ∃ v, try_virtual_stack left_stack = Some v ∧ visible v = [3; 2; 1] ∧
    twp (vs_push (ret (W:=unit) false) false v 9) (shows wf v [9; 3; 2; 1]) ∧ visible (vs_pop v 2).1 = [1].
Proof.
  destruct left_view_ok as (v & Hv & Hw & _ & Hvis & Hd). exists v. split; [exact Hv|]. split; [exact Hvis|].
  assert (Htotal : twp (ret (W:=unit) false) (λ _, True)) by (by apply twp_ret).
  destruct (virtual_stack_refines wf (ret false) Htotal false v 9 2 Hw Hd) as (_ & _ & _ & _ & Hpush & [[_ [Hpop _]] _] & _).
  rewrite Hvis in Hpush, Hpop. split; [exact Hpush|exact Hpop].
Defined.

Lemma virtual_stack_popping_witness :
  ∃ v, try_virtual_stack left_stack = Some v ∧
    twp (into_gss_after_popping no_sharing append_entry (ret false) false true v 2) (wf_upper wf).
Proof.
  destruct left_view_ok as (v & Hv & Hw & Hg & _). exists v. split; [exact Hv|].
  assert (Htotal : twp (ret (W:=unit) false) (λ _, True)) by (by apply twp_ret).
  pose proof (virtual_stack_popping no_sharing no_sharing_sound append_entry append_entry_perm wf terminals_disallowed_eq_ok
    (ret false) Htotal false true v 2 left_stack Hw Hg eq_refl eq_refl) as Hp.
  intros w. destruct (Hp w) as (r1 & w1 & Hr1 & H1). destruct (H1 w1) as (r2 & w2 & _ & H2 & _). exists r1, w1. split; [exact Hr1|exact H2].
Defined.
